(* ===== verification/_CoqProject ===== *)
-Q . S2P
Prelude.v
Outer.v
App.v
NvxsRecord.v
Session.v
Stream.v
HostSession.v
GuestSession.v
ExecTypes.v
Credit.v
Runner.v
RunnerFacts.v
Peer.v
PeerFacts.v
Execution.v
ExecSafety.v
ExecData.v
RunnerLive.v
PeerLive.v
Cidr.v
ExecPayload.v
Maps.v
Uuid.v
Crc.v
Gpt.v
Cmdline.v
BootTokens.v
Export.v
Activation.v
CloneSession.v
Addresses.v
Lowering.v
LoweringFacts.v
LoweringSweep.v
AddressText.v
EgressRules.v
MappingTable.v
Canonical.v
Machine.v
TemplateKey.v
Wire.v
Manifest.v
ManifestFacts.v
NetworkArguments.v
Endpoints.v
CaptureClass.v
Eligibility.v
RestorePacket.v
ClockMath.v
GuestText.v
BootLog.v
TimeState.v
Discipline.v
Suppression.v
SockDiag.v
Ingress.v
IngressFacts.v
SocketTables.v
IngressSender.v
Json.v
PolicyFile.v
HostPaths.v
ExportPlanner.v
ExportFacts.v
ExportCheck.v
LeaseStore.v
LeaseDisk.v
LeaseLogic.v
LeaseTriples.v
LeaseSafety.v
LeaseRun.v
