(* ===== verification/Prelude.v ===== *)
(** * NVX: guest control protocols, executions, activation, templates, disks, exports, network policy, time

    NVX (src/nvx-rs) runs workloads in microVMs: a host process drives OpenVMM, and a guest init and
    agent run the workload. This library verifies the parts of the crate that carry its own logic
    and do no I/O: the protocols between the host and the guest, the state machines that run an
    execution over them, the activation of a clone, the reading of a kernel command line and of its
    boot tokens, the GPT reader, the planner of host exports and the host mapping table, a network's
    posture, the compilation of its egress rules and the files that hold them, the metadata of a
    template (its manifest, key, class and restore window), the announcer of a guest's listening
    sockets, the guest's time (what a restore sends, how its clock is disciplined, and what is
    published), and the transactions of the store of templates, with the host that they run on: its
    disk, its locks, its processes and its crashes.

    ** The program and the files

    The host and the guest talk over one console. Its bytes are NVXS records; their DATA carries
    application frames, whose payloads are workloads and mapping tables; on top of an adapter's
    framing, executions exchange messages with flow control, and a restored clone takes one
    activation record before it admits workloads. On the host, the paths that a sandbox maps become
    the children of OpenVMM's export and the binds of a mapping table, the policy of its network
    becomes OpenVMM's options, and a capture's manifest gives the template's key, which decides the
    clones that the template serves. A store keeps the generations of templates; a clone leases one
    before it restores it, and a generation is retired once its leases have drained. After a restore the guest reads a packet and samples of the
    host's time, steps or slews its clock, and publishes its checks and corrections in a state file.

    - [Prelude]: Rust's results, bytes, slices, little-endian integers, UTF-8 and record updates,
      with the errors and field readers of protocol/mod.rs; the tactics and hint databases.
    - [Outer]: protocol/outer.rs. The headers and fixed payloads of the console's records.
    - [App]: protocol/app.rs and features.rs. Application frames, exit categories and features.
    - [NvxsRecord], [Session], [Stream], [HostSession], [GuestSession]: protocol/nvxs/. Records and
      their incremental parser; what both roles share; a role as an interface, [Role], over a byte
      stream; and the two roles with every method of theirs.
    - [ExecTypes], [Credit], [Runner], [Peer]: exec/. The vocabulary, credit and queues, and the two
      sides of an execution, method by method. [RunnerFacts], [RunnerLive], [PeerFacts] and
      [PeerLive] prove what each side guarantees alone; [Execution] connects them by two channels
      into a transition system of which every call is a step, and [ExecSafety] and [ExecData] prove
      what holds in all its interleavings.
    - [ExecPayload], [Maps]: protocol/exec.rs and maps.rs. The payloads of EXEC and MAPS requests.
    - [Cidr]: net/cidr.rs. Networks and their subtraction.
    - [Uuid], [Crc], [Gpt]: uuid.rs and gpt/. UUIDs, the CRC-32, and the reader of GPT disks.
    - [Cmdline]: protocol/cmdline.rs. The kernel's and the init's readings of a command line.
    - [BootTokens], [Export]: protocol/root.rs, export.rs, boot.rs, share.rs and status.rs. The
      tokens of a layered root, of the host export and of the mapping count, reserved share targets
      and exit statuses.
    - [Activation]: activation/. The activation record, its limits and its canonical codec.
    - [CloneSession]: guest/clone/activation.rs. The session through which a clone is activated.
    - [Addresses], [AddressText]: host/network/address.rs. Networks, sets of addresses as intervals,
      the networks of an interval, and the texts of networks.
    - [Lowering], [EgressRules]: host/network/lowering.rs and rule.rs. The egress rules of an action,
      as a caller writes them, and their lowering into OpenVMM's native rules. [LoweringFacts] and
      [LoweringSweep] prove what the native rules select.
    - [NetworkArguments], [Endpoints]: host/network/mod.rs, arguments.rs, loopback.rs and proxy.rs,
      net/mod.rs, and SandboxNetwork of host/sandbox/plan.rs. The posture of a network as OpenVMM's
      options, its DNS server, guest networks, and the texts of forwards and proxies.
    - [MappingTable]: guest/mappings.rs and mappings/table.rs. The guest's table of host mappings,
      which MAPS parts fill.
    - [Canonical], [Machine], [TemplateKey], [CaptureClass]: host/template/canonical.rs and key.rs,
      with the machine of manifest.rs, store/identity.rs, hypervisor.rs and contract.rs. The
      canonical encoding, the checks of a machine, a template's key, and the classes of captures.
    - [Wire], [Manifest], [ManifestFacts]: host/template/wire.rs and manifest.rs. The protobuf
      reader, the manifest's messages and checks, and what a manifest that passes them describes.
    - [Eligibility]: host/template/eligibility.rs. The restore window of a capture.
    - [RestorePacket], [ClockMath]: guest/time/decoders.rs. The restore packet and the time sample,
      and the 128-bit arithmetic that pairs a sample with the guest's clock and plans a correction.
    - [GuestText]: guest/parse.rs, kernel_text.rs and time/cpu_mask.rs. Numbers, the records of the
      kernel's log, and sets of CPUs.
    - [BootLog]: guest/time/events.rs, and the watch rules, boot log and kernel settings of
      decoders.rs.
    - [TimeState]: guest/time/state.rs. The published state, its updates, and its file.
    - [Discipline], [Suppression]: guest/time/system.rs and daemon.rs. The selection of a sample, one
      poll of the clock's discipline, and the suppression of the kernel's stall detectors.
    - [SockDiag], [Ingress]: guest/sys/sock_diag.rs and guest/ingress/. The netlink query of socket
      diagnostics, and the announcer: the scan of the kernel's socket tables, the settling of UDP
      sockets, the announcement and its sender. [IngressFacts], [SocketTables] and [IngressSender]
      prove what is announced, what a table's scan finds, and what the sender sends and when.
    - [Json], [PolicyFile]: host/network/policy/json.rs and mod.rs. The reading of a JSON document,
      and the egress policy that a file writes in either form, lowered by [Lowering].
    - [HostPaths], [ExportPlanner]: host/filesystem/, on a Linux host. Paths, their resolution and
      guest paths; the planner of exports, the check of a recorded plan, its verification and its
      rendering. [ExportFacts] and [ExportCheck] prove what an export grants, and that what comes
      after the planner accepts its plans.
    - [LeaseStore]: host/template/store.rs, store/leases.rs and the publication of store/capture.rs,
      host/store/lease.rs and the removal of a sandbox of lifecycle.rs. The transactions of a store
      of templates, as programs of the calls that they make to the host. [LeaseDisk] is that host: a
      directory entry with the older values that a crash may bring back until a sync, the locks, the
      processes, and the steps of a system that interleaves the calls of transactions with failures,
      deaths of processes and crashes. [LeaseLogic] has the invariant of all choices of a crash and
      the triples, with what a transaction relies on under its locks; [LeaseTriples] the triples of
      the transactions; [LeaseSafety] what every reachable state keeps; [LeaseRun] executes
      schedules of the system.

    Definitions keep the names of the source; a method [T::m] is a definition [m], or [t_m] where
    names would clash. A method that takes [&mut self] takes the state and returns the new one. A
    state is a record with the fields of the struct; an enum is an inductive type.

    ** Interfaces

    Components meet in classes whose laws are proved of each instance and used by the clients:
    [Role] in [Stream] (the two NVXS roles), [ExecString] in [ExecPayload] (the strings of the host
    and of the guest), [ReadAt] in [Gpt] (what a disk is read through), [TokenReader] in
    [BootTokens] (the readers of tokens that come once each), [Code] in [Activation] (the one-byte
    codes), [AddressText] in [Cmdline] (the standard library's text of addresses),
    [AdmissionFence] in [CloneSession], [MappingRoot] in [MappingTable] (what maps a part beneath a
    root), [Codec] in [Canonical] (a writer and its reader), [Digest] in [Machine] (SHA-256),
    [Field] in [RestorePacket] (the fixed fields of a packet), [Token] in [TimeState] (the words
    of a state file), [System] in [Ingress] with [SystemLaws] in [IngressSender] (the calls of the
    announcer), [TotalOrder] in [HostPaths] (the orders by which paths and binds are sorted), and
    [HostLaws] in [HostPaths] (the file system of a host). A law of code outside the crate, such as that of [ReadAt], is a hypothesis with
    a concrete instance that meets it.

    ** What the theorems show

    - NVXS: encoding and parsing are inverse, parsing does not depend on how the stream is cut
      ([parser_chunking]), the sessions' incremental receive refines the application of whole
      records ([host_receive_refines]), on the guest from every session in progress and with any
      caller that answers the events ([guest_receive_refines]), and accepted streams, written bytes
      and the guest's window are characterised exactly.
    - Executions: in every interleaving neither side's messages violate the other's rules
      ([execution_no_violation]), output and input arrive as prefixes and whole unless reported
      truncated ([execution_output_faithful], [execution_input_faithful]), a reported status is the
      workload's ([execution_status_honest]); on each side alone, memory stays within its bound and
      the final outcome comes within six messages, or five events, once its conditions hold; the
      peer refuses exactly the messages that break a rule, and they change nothing
      ([peer_refuses]).
    - Payloads, UUIDs, activation records: decoders accept exactly what the encoders write, or read
      back all of it. An accepted GPT disk is well-formed and is never read past its size; the
      CRC-32 is that of the IEEE polynomial.
    - Command lines: splitting ends without a panic on every input ([parameters_total]), devices and
      tokens are read exactly as written, and every other spelling is refused.
    - Activation: a clone applies at most one valid record, opens its fence only when that
      application completed by the deadline ([clone_activates_once]), completes with a host that
      keeps to the protocol ([clone_activation_completes]), and fails finally.

    - Network policy: intervals become the fewest networks that cover them ([summary_fewest]), the
      lowering's native rules select exactly the traffic of the rules, whatever the limit
      ([lower_exact]), an action's native rules those of its rules as written ([action_exact]), and
      every network is read back from its text ([network_text_roundtrip]). The options of a posture
      permit exactly what the policy does, with a proxy as the only way out of a proxy-only network
      ([posture_enforced]); the DNS server is one that the policy lets the guest reach
      ([dns_server_exact]); forwards, proxies and guest networks have the texts that read back
      ([endpoint_texts_exact], [guest_network_canonical]). A JSON document is read exactly as it is
      written, in every build of serde_json ([json_document_exact]), and a policy file compiles only to native rules of exactly
      its traffic ([policy_file_exact]).
    - Exports: whatever a request holds, the export that is planned for it shows and lets write
      exactly what the request describes, and keeps read-only objects out of every writable part
      ([export_access_exact]); the plan passes its own check, its verification on the host, and the
      guest's reading of its table ([planned_export_accepted]).
    - The store of templates: whatever transactions interleave and whenever the host crashes, with
      failures of any call but the examination of a sandbox's directory that exists, a clone binding names a lease that the store records, of a generation that is whole
      ([lease_keeps_generation]), a lease that an acquisition returned survives
      ([acquired_survives]), and a generation that may be leased is whole
      ([listed_generation_whole]).
    - Ingress: the decoder of socket diagnostics ends on every buffer ([diag_dump_exact]); a scan
      finds exactly the sockets of a table ([socket_table_exact]); a UDP socket is announced once it
      was open for a second ([udp_settles]); an announcement reads back as the lowest listeners
      ([announcement_exact]), and the latest datagram that the system took is the current
      announcement, at most two seconds old, while sends succeed ([sender_current]).
    - Mapping tables: the table counts exactly what was applied, answers each part that it refuses
      or that fails with its entry, and latches for good ([mapping_table_account]); the parts of the host's table complete it ([sent_table_completes]).
    - Templates: a manifest's messages are read as the fold of their fields ([wire_message_exact]);
      from whatever bytes a manifest holds, the key of a class exists exactly for the machine that
      the class requests, and is read back from its encoding ([captured_key_exact]); a key has one
      encoding ([template_key_codec_exact]), and identities name keys and classes unless SHA-256
      collides ([key_identity_names], [class_identity_exact]); the restore window is one interval of
      one clock ([restore_window_exact]).
    - Guest time: packets are accepted exactly when well-formed ([restore_packet_exact]); the offset
      of an accepted sample is within its stated bound of the true one, to a nanosecond of rounding
      ([sample_pairing_sound]), the
      planned correction is the ABI's ([clock_correction_exact]), the narrowest sample is selected
      ([sample_selection_exact]) and a poll asks the kernel for that correction alone,
      records it or its own reason to reject the sample, and reports stalls
      ([discipline_poll_exact]). The state file refines the published state
      ([time_state_persists]) whose counters account for what happened ([time_state_account]); a
      boot log passes exactly with its evidence ([boot_log_exact]), events fit their records
      ([event_exact]), and no setting of a stall detector is lost whatever fails,
      unless a record can be neither written nor removed ([suppression_keeps_settings]).

    ** Bounds and fuel

    Machine integers are [Z] with their ranges stated and their wrap-around, saturation or overflow
    written out where the code has it; [usize] has 64 bits. Recursion that is not structural takes
    rounds, which are proved to be enough: [collect] in [Cmdline] has one round more than the text
    has bytes ([parameters_total]); [decode_loop] in [Activation] one for each byte
    ([decode_loop_rounds]); [drain] and [frames] in [NvxsRecord] one more than the input has bytes
    ([drain_spec], [frames_fuel]); [subtract] in [Cidr] 130, two more than an address has bits;
    [summary] in [Addresses] 260, more than two for each bit ([summary_greedy]); [decode] in [Wire]
    one more than the message has bytes, its varints the ten of the code and its packed fields one
    for each byte ([wire_message_exact]); [decode_dump_from] and [decode_ipv6_only_from] in [SockDiag]
    and [scan_rows] in [Ingress] one more than there are bytes ([diag_dump_exact], [scan_ends]);
    [lenient_loop] in [HostPaths] one more than the path has bytes, each of which a round removes at
    least one of ([lenient_ends]); [complete] in [LeaseStore] one more than a store has generations
    at most ([complete_rounds]); the drains of
    [RunnerLive] and [PeerLive] make six and five calls, which the theorems show to reach the end.
    A panic of the source, such as a slice out of range or an overflowing addition, is
    [None] or an error of its own, and is proved never to come where the code relies on that.

    ** What is not modelled

    - The guest's and the host's adapters (guest/, host/): mounts, processes, cgroups, sockets,
      device registers. They are sequences of system calls whose
      meaning is the kernel's; the protocol parts that they drive are modelled.
    - Of guest/time: the timer list, cpuinfo, CPUID and MSR checks, the commands, the test mode
      and the orchestration of api.rs. Reads of the TSC, of clocks and of devices are inputs of the
      modelled functions, and so are the kernel's answer to a clock adjustment and the outcomes of
      accesses to files.
    - The application of an activation record (guest/clone/activation/apply.rs): its result is an
      argument of [complete].
    - The standard library's text of IPv6 addresses, where the crate has no reader of its own, and
      the [Display] texts of most errors, which are values of their error types. Messages of
      protocol errors are kept as their pieces.
    - serde: the tokens and the floating-point numbers of JSON are parameters of [Json], and the
      persisted form of plans is not modelled.
    - The forms of host/filesystem for Windows: drive prefixes, verbatim paths and reparse points.
    - The start of the ingress announcer's process, and its test mode.
    - Of the store of templates: its creation, the run and the checks of a capture's VM, which leave
      a checked transaction, the JSON text and the names of records (a listing is parsed already),
      and the launch that a lease reserves. [LeaseDisk] takes the host's file system to lose, in a
      crash, only changes of directories that were not synced, and to answer the examination of an
      existing directory; a drawn identity is fresh; a store has one directory of generations, which
      is there; a sandbox's lock file goes with its directory in one step.
    - SHA-256, of which only the length of a digest is assumed; theorems about identities hold
      unless it collides.
    - Command-line tools, test doubles, scripts, kernel configuration and images. *)

From Stdlib Require Import ZArith Lia.
From Stdlib Require Strings.Byte.
From Stdlib Require Strings.String.
From stdpp Require Export prelude strings.

Abbreviation byte := Corelib.Init.Byte.byte.

#[global] Open Scope Z_scope.

(** ** Proof automation shared by every file *)

Create HintDb nvx.
Create Rewrite HintDb wire.

(** Case analysis on every [match] and [if] of the goal or of a hypothesis. *)
Ltac split_matches := repeat (case_match; simplify_eq/=).

(** Splits the boolean tests of the context into propositions. *)
Ltac bool_to_prop :=
  repeat match goal with
  | H : andb _ _ = true |- _ => apply andb_prop in H; destruct H
  | H : orb _ _ = false |- _ => apply orb_false_iff in H; destruct H
  | H : negb _ = true |- _ => apply negb_true_iff in H
  | H : negb _ = false |- _ => apply negb_false_iff in H
  | H : bool_decide _ = true |- _ => apply bool_decide_eq_true in H
  | H : bool_decide _ = false |- _ => apply bool_decide_eq_false in H
  | H : (_ <=? _) = true |- _ => apply Z.leb_le in H
  | H : (_ <=? _) = false |- _ => apply Z.leb_gt in H
  | H : (_ <? _) = true |- _ => apply Z.ltb_lt in H
  | H : (_ <? _) = false |- _ => apply Z.ltb_ge in H
  | H : (_ =? _) = true |- _ => apply Z.eqb_eq in H
  | H : (_ =? _) = false |- _ => apply Z.eqb_neq in H
  end.

(** Discharges the side conditions of a theorem applied at a concrete input. *)
Ltac concrete :=
  repeat match goal with |- _ /\ _ => split end;
  first [ reflexivity | vm_compute; first [ reflexivity | discriminate | tauto | auto ] ].

(** ** Record updates

    Rust's field assignment [self.f = v] is written [r <| f := v |>]. A record opts in with an
    [Eta] instance that rebuilds it from its fields. *)

Class Eta (R : Type) := eta : R -> R.
Class Update {R E : Type} (get : R -> E) := update : E -> R -> R.

Ltac derive_update get :=
  lazymatch type of get with
  | ?R -> ?E =>
      let e := constr:(_ : Eta R) in
      let e := eval red in e in
      let v := fresh "v" in
      let r := fresh "r" in
      refine (fun (v : E) (r : R) => _);
      let body := eval cbv beta in (e r) in
      lazymatch body with
      | context C [get r] => let b := context C [v] in exact b
      end
  end.

#[export] Hint Extern 0 (Update ?get) => derive_update get : typeclass_instances.

Declare Scope nvx_scope.
Notation "r <| f := v |>" := (update (get := f) v r)
  (at level 1, f at next level, v at level 200, left associativity,
   format "r  <| f  :=  v |>") : nvx_scope.
#[global] Open Scope nvx_scope.

(** ** Results: Rust's [Result<A, E>] *)

Inductive result (E A : Type) : Type :=
| Ok (a : A)
| Err (e : E).
Arguments Ok {E A} a.
Arguments Err {E A} e.

#[export] Instance result_ret {E} : MRet (result E) := fun A a => Ok a.
#[export] Instance result_bind {E} : MBind (result E) := fun A B f r =>
  match r with Ok a => f a | Err e => Err e end.

(** [Option::ok_or]. *)
Definition ok_or {E A} (o : option A) (e : E) : result E A :=
  match o with Some a => Ok a | None => Err e end.

(** [Result::map_err]. *)
Definition map_err {E F A} (f : E -> F) (r : result E A) : result F A :=
  match r with Ok a => Ok a | Err e => Err (f e) end.

Definition is_ok {E A} (r : result E A) : bool :=
  match r with Ok _ => true | Err _ => false end.

Lemma result_bind_ok {E A B} (r : result E A) (f : A -> result E B) b :
  (a ← r; f a) = Ok b <-> exists a, r = Ok a /\ f a = Ok b.
Proof. destruct r; cbn; naive_solver. Qed.

Lemma ok_or_ok {E A} (o : option A) (e : E) a : ok_or o e = Ok a <-> o = Some a.
Proof. destruct o; cbn; naive_solver. Qed.

Lemma map_err_ok {E F A} (f : E -> F) (r : result E A) a : map_err f r = Ok a <-> r = Ok a.
Proof. destruct r; cbn; naive_solver. Qed.

(** Inverts the binds, conversions and tests of a successful computation. *)
Ltac inv_ok :=
  repeat match goal with
  | H : mbind _ _ = Ok _ |- _ => apply result_bind_ok in H; destruct H as (? & ? & ?)
  | H : ok_or _ _ = Ok _ |- _ => apply ok_or_ok in H
  | H : map_err _ _ = Ok _ |- _ => apply map_err_ok in H
  | H : Ok _ = Ok _ |- _ => injection H as H; subst
  | H : Err _ = Ok _ |- _ => discriminate H
  | H : mret _ = Ok _ |- _ => injection H as H; subst
  | H : (if ?b then Err _ else _) = Ok _ |- _ => destruct b eqn:?; [discriminate H|]
  | H : (if ?b then _ else Err _) = Ok _ |- _ => destruct b eqn:?; [|discriminate H]
  end.

(** ** Bytes *)

#[export] Instance byte_eq_dec : EqDecision byte := Byte.byte_eq_dec.

Definition byte_val (b : byte) : Z := Z.of_N (Byte.to_N b).

Definition byte_of (z : Z) : byte :=
  match Byte.of_N (Z.to_N (z mod 256)) with Some b => b | None => Byte.x00 end.

Lemma byte_val_range b : 0 <= byte_val b < 256.
Proof. unfold byte_val. pose proof (Byte.to_N_bounded b). lia. Qed.

Lemma byte_val_of z : byte_val (byte_of z) = z mod 256.
Proof.
  unfold byte_val, byte_of. pose proof (Z.mod_pos_bound z 256).
  destruct (Byte.of_N _) as [b|] eqn:E.
  - apply Byte.to_of_N in E. rewrite E. lia.
  - apply Byte.of_N_None_iff in E. lia.
Qed.

Lemma byte_of_val b : byte_of (byte_val b) = b.
Proof.
  unfold byte_val, byte_of. pose proof (Byte.to_N_bounded b).
  rewrite Z.mod_small by lia. rewrite N2Z.id, Byte.of_to_N. done.
Qed.

Lemma byte_val_inj a b : byte_val a = byte_val b -> a = b.
Proof. intros H. rewrite <- (byte_of_val a), <- (byte_of_val b). by rewrite H. Qed.

(** A string literal's bytes, Rust's [b"..."] and [str::as_bytes]. *)
Definition bytes_of (s : string) : list byte := String.list_byte_of_string s.

(** ** Lengths and slices

    [usize] values are integers of 64 bits; [len] is a slice's length. *)

Definition len {A} (l : list A) : Z := Z.of_nat (length l).

Definition ztake {A} (n : Z) (l : list A) : list A := take (Z.to_nat n) l.
Definition zdrop {A} (n : Z) (l : list A) : list A := drop (Z.to_nat n) l.

(** [&l[a..b]] for a range that the code has checked or fixed. *)
Definition sub {A} (a b : Z) (l : list A) : list A := ztake (b - a) (zdrop a l).

(** [l.get(a..b)]. *)
Definition get_range {A} (a b : Z) (l : list A) : option (list A) :=
  if (a <=? b) && (b <=? len l) then Some (sub a b l) else None.

(** [l.get(i)]. *)
Definition get {A} (i : Z) (l : list A) : option A :=
  if i <? 0 then None else l !! Z.to_nat i.

(** [l[a..a + src.len()].copy_from_slice(src)]. *)
Definition copy_at {A} (a : Z) (src l : list A) : list A :=
  ztake a l ++ src ++ zdrop (a + len src) l.

Lemma len_nonneg {A} (l : list A) : 0 <= len l.
Proof. unfold len. lia. Qed.
#[export] Hint Resolve len_nonneg : nvx.

Lemma len_nil {A} : len (@nil A) = 0.
Proof. done. Qed.

Lemma len_cons {A} (x : A) l : len (x :: l) = 1 + len l.
Proof. unfold len. cbn [length]. lia. Qed.

Lemma len_app {A} (k l : list A) : len (k ++ l) = len k + len l.
Proof. unfold len. rewrite length_app. lia. Qed.

Lemma len_ztake {A} n (l : list A) : len (ztake n l) = Z.max 0 (Z.min n (len l)).
Proof. unfold len, ztake. rewrite length_take. lia. Qed.

Lemma len_zdrop {A} n (l : list A) : len (zdrop n l) = len l - Z.max 0 (Z.min n (len l)).
Proof. unfold len, zdrop. rewrite length_drop. lia. Qed.

Lemma len_replicate {A} n (x : A) : len (replicate n x) = Z.of_nat n.
Proof. unfold len. by rewrite length_replicate. Qed.

Lemma len_zero_iff {A} (l : list A) : len l = 0 <-> l = [].
Proof. unfold len. destruct l; cbn; split; (done || lia). Qed.

#[export] Hint Rewrite @len_nil @len_cons @len_app @len_ztake @len_zdrop @len_replicate : wire.

(** Normalises the lengths in the context and closes arithmetic about them. *)
Ltac len_facts :=
  repeat match goal with
  | |- context [len ?l] =>
      lazymatch goal with H : 0 <= len l |- _ => fail | _ => pose proof (len_nonneg l) end
  | _ : context [len ?l] |- _ =>
      lazymatch goal with H : 0 <= len l |- _ => fail | _ => pose proof (len_nonneg l) end
  end.
Ltac len_lia := autorewrite with wire in *; len_facts; lia.

Lemma ztake_zdrop {A} n (l : list A) : ztake n l ++ zdrop n l = l.
Proof. apply take_drop. Qed.

Lemma ztake_all {A} n (l : list A) : len l <= n -> ztake n l = l.
Proof. unfold len, ztake. intros. apply take_ge. lia. Qed.

Lemma zdrop_all {A} n (l : list A) : len l <= n -> zdrop n l = [].
Proof. unfold len, zdrop. intros. apply drop_ge. lia. Qed.

Lemma ztake_0 {A} n (l : list A) : n <= 0 -> ztake n l = [].
Proof. unfold ztake. intros. by replace (Z.to_nat n) with O by lia. Qed.

Lemma zdrop_0 {A} n (l : list A) : n <= 0 -> zdrop n l = l.
Proof. unfold zdrop. intros. by replace (Z.to_nat n) with O by lia. Qed.

Lemma ztake_app_l {A} n (k l : list A) : n <= len k -> ztake n (k ++ l) = ztake n k.
Proof. unfold len, ztake. intros. apply take_app_le. lia. Qed.

Lemma ztake_app_r {A} n (k l : list A) :
  len k <= n -> ztake n (k ++ l) = k ++ ztake (n - len k) l.
Proof.
  unfold len, ztake. intros. rewrite take_app_ge by lia. do 2 f_equal. lia.
Qed.

Lemma zdrop_app_l {A} n (k l : list A) : n <= len k -> zdrop n (k ++ l) = zdrop n k ++ l.
Proof. unfold len, zdrop. intros. apply drop_app_le. lia. Qed.

Lemma zdrop_app_r {A} n (k l : list A) :
  len k <= n -> zdrop n (k ++ l) = zdrop (n - len k) l.
Proof. unfold len, zdrop. intros. rewrite drop_app_ge by lia. f_equal. lia. Qed.

Lemma zdrop_zdrop {A} m n (l : list A) :
  0 <= m -> 0 <= n -> zdrop m (zdrop n l) = zdrop (n + m) l.
Proof. unfold zdrop. intros. rewrite drop_drop. f_equal. lia. Qed.

Lemma ztake_ztake {A} m n (l : list A) : ztake m (ztake n l) = ztake (Z.min m n) l.
Proof. unfold ztake. rewrite take_take. f_equal. lia. Qed.

Lemma len_sub {A} a b (l : list A) : 0 <= a <= b -> b <= len l -> len (sub a b l) = b - a.
Proof. unfold sub. intros. len_lia. Qed.

Lemma sub_full {A} a b (l : list A) : a <= 0 -> len l <= b - a -> sub a b l = l.
Proof. intros. unfold sub. rewrite zdrop_0, ztake_all by lia. done. Qed.

Lemma sub_app_l {A} a b (k l : list A) :
  0 <= a -> b <= len k -> sub a b (k ++ l) = sub a b k.
Proof.
  unfold sub. intros. destruct (decide (a <= len k)).
  - rewrite zdrop_app_l, ztake_app_l by len_lia. done.
  - rewrite !ztake_0 by lia. done.
Qed.

Lemma sub_app_r {A} a b (k l : list A) :
  len k <= a -> sub a b (k ++ l) = sub (a - len k) (b - len k) l.
Proof. unfold sub. intros. rewrite zdrop_app_r by lia. f_equal. lia. Qed.

Lemma sub_app_mid {A} a b (k m l : list A) :
  a = len k -> b = len k + len m -> sub a b (k ++ m ++ l) = m.
Proof.
  intros -> ->. rewrite sub_app_r by lia. rewrite sub_app_l by len_lia.
  apply sub_full; len_lia.
Qed.

Lemma get_range_some {A} a b (l l' : list A) :
  get_range a b l = Some l' <-> a <= b /\ b <= len l /\ l' = sub a b l.
Proof.
  unfold get_range. destruct (a <=? b) eqn:?, (b <=? len l) eqn:?; cbn; bool_to_prop;
    naive_solver lia.
Qed.

Lemma get_range_none {A} a b (l : list A) :
  get_range a b l = None <-> b < a \/ len l < b.
Proof.
  unfold get_range. destruct (a <=? b) eqn:?, (b <=? len l) eqn:?; cbn; bool_to_prop;
    naive_solver lia.
Qed.

Lemma get_range_mid {A} a b (k m l : list A) :
  a = len k -> b = len k + len m -> get_range a b (k ++ m ++ l) = Some m.
Proof.
  intros. apply get_range_some. split_and!; [len_lia..|].
  symmetry. by apply sub_app_mid.
Qed.

Lemma len_copy_at {A} a (src l : list A) :
  0 <= a -> a + len src <= len l -> len (copy_at a src l) = len l.
Proof. intros. unfold copy_at. len_lia. Qed.

Lemma ztake_copy_at {A} a (src l : list A) :
  0 <= a -> a + len src <= len l -> ztake (a + len src) (copy_at a src l) = ztake a l ++ src.
Proof.
  intros. unfold copy_at. rewrite app_assoc, ztake_app_l by len_lia.
  apply ztake_all. len_lia.
Qed.

(** ** Little-endian integers *)

(** [to_le_bytes] of an integer of [n] bytes; a negative integer's two's complement. *)
Fixpoint to_le_bytes (n : nat) (z : Z) : list byte :=
  match n with
  | O => []
  | S n => byte_of z :: to_le_bytes n (z / 256)
  end.

(** [from_le_bytes] of an unsigned integer. *)
Fixpoint from_le_bytes (l : list byte) : Z :=
  match l with
  | [] => 0
  | b :: l => byte_val b + 256 * from_le_bytes l
  end.

(** The two's complement reading of an unsigned integer of [w] bits. *)
Definition to_signed (w z : Z) : Z := if z <? 2 ^ (w - 1) then z else z - 2 ^ w.

Lemma len_to_le_bytes n z : len (to_le_bytes n z) = Z.of_nat n.
Proof.
  revert z. induction n as [|n IH]; intros z; [done|]. cbn. rewrite len_cons, IH. lia.
Qed.
#[export] Hint Rewrite len_to_le_bytes : wire.

Lemma pow_256_succ (n : nat) : 256 ^ Z.of_nat (S n) = 256 * 256 ^ Z.of_nat n.
Proof. rewrite Nat2Z.inj_succ, Z.pow_succ_r by lia. done. Qed.

Lemma from_to_le_bytes n z : from_le_bytes (to_le_bytes n z) = z mod 256 ^ Z.of_nat n.
Proof.
  revert z. induction n as [|n IH]; intros z.
  - cbn. by rewrite Z.mod_1_r.
  - cbn [to_le_bytes from_le_bytes]. rewrite IH, byte_val_of, pow_256_succ.
    rewrite Z.rem_mul_r; lia.
Qed.

Lemma from_le_bytes_range l : 0 <= from_le_bytes l < 256 ^ len l.
Proof.
  unfold len. induction l as [|b l IH]; [done|].
  cbn [from_le_bytes length]. rewrite pow_256_succ. pose proof (byte_val_range b). nia.
Qed.

Lemma to_from_le_bytes n l : len l = Z.of_nat n -> to_le_bytes n (from_le_bytes l) = l.
Proof.
  unfold len. revert n. induction l as [|b l IH]; intros [|n]; cbn; [done|lia|lia|].
  intros Hl. pose proof (byte_val_range b). rewrite (Z.mul_comm 256). f_equal.
  - apply byte_val_inj. rewrite byte_val_of, Z.mod_add by lia. apply Z.mod_small. lia.
  - rewrite Z.div_add, Z.div_small, Z.add_0_l by lia. apply IH. lia.
Qed.

Lemma from_to_le_small n z :
  0 <= z < 256 ^ Z.of_nat n -> from_le_bytes (to_le_bytes n z) = z.
Proof. intros. rewrite from_to_le_bytes. by apply Z.mod_small. Qed.

Lemma to_signed_mod w z :
  0 < w -> - 2 ^ (w - 1) <= z < 2 ^ (w - 1) -> to_signed w (z mod 2 ^ w) = z.
Proof.
  intros Hw Hz. unfold to_signed.
  assert (H2 : 2 ^ w = 2 * 2 ^ (w - 1)) by (rewrite <- Z.pow_succ_r by lia; f_equal; lia).
  destruct (decide (0 <= z)).
  - rewrite Z.mod_small by lia. destruct (Z.ltb_spec z (2 ^ (w - 1))); lia.
  - rewrite <- (Z.mod_unique z (2 ^ w) (-1) (z + 2 ^ w)) by lia.
    destruct (Z.ltb_spec (z + 2 ^ w) (2 ^ (w - 1))); lia.
Qed.

(** ** Machine integers *)

Definition U8_MAX : Z := 2 ^ 8 - 1.
Definition U16_MAX : Z := 2 ^ 16 - 1.
Definition U32_MAX : Z := 2 ^ 32 - 1.
Definition U64_MAX : Z := 2 ^ 64 - 1.
Definition USIZE_MAX : Z := U64_MAX.

Definition is_u16 (z : Z) : Prop := 0 <= z <= U16_MAX.
Definition is_u32 (z : Z) : Prop := 0 <= z <= U32_MAX.
Definition is_u64 (z : Z) : Prop := 0 <= z <= U64_MAX.
Definition is_i32 (z : Z) : Prop := - 2 ^ 31 <= z < 2 ^ 31.

#[export] Hint Unfold is_u16 is_u32 is_u64 is_i32 U8_MAX U16_MAX U32_MAX U64_MAX USIZE_MAX : nvx.

(** Unfolds the machine-integer bounds and closes arithmetic about them. *)
Ltac word_lia :=
  unfold is_u16, is_u32, is_u64, is_i32, U8_MAX, U16_MAX, U32_MAX, USIZE_MAX, U64_MAX in *;
  len_lia.

(** [uN::checked_add] at a maximum. *)
Definition checked_add (max a b : Z) : option Z := if a + b <=? max then Some (a + b) else None.

(** [uN::saturating_sub]. *)
Definition saturating_sub (a b : Z) : Z := Z.max 0 (a - b).

(** [usize::saturating_add] and [usize::saturating_mul]. *)
Definition saturating_add (a b : Z) : Z := Z.min USIZE_MAX (a + b).
Definition saturating_mul (a b : Z) : Z := Z.min USIZE_MAX (a * b).

(** [uN::try_from(n).unwrap_or(uN::MAX)]. *)
Definition try_or_max (max n : Z) : Z := if n <=? max then n else max.

Lemma u16_le_roundtrip z : is_u16 z -> from_le_bytes (to_le_bytes 2 z) = z.
Proof. intros. apply from_to_le_small. word_lia. Qed.
Lemma u32_le_roundtrip z : is_u32 z -> from_le_bytes (to_le_bytes 4 z) = z.
Proof. intros. apply from_to_le_small. word_lia. Qed.
Lemma u64_le_roundtrip z : is_u64 z -> from_le_bytes (to_le_bytes 8 z) = z.
Proof. intros. apply from_to_le_small. word_lia. Qed.
Lemma i32_le_roundtrip z : is_i32 z -> to_signed 32 (from_le_bytes (to_le_bytes 4 z)) = z.
Proof.
  intros. rewrite from_to_le_bytes. apply (to_signed_mod 32); [lia|]. word_lia.
Qed.

Lemma from_le_u16 l : len l = 2 -> is_u16 (from_le_bytes l).
Proof. intros H. pose proof (from_le_bytes_range l). rewrite H in *. word_lia. Qed.
Lemma from_le_u32 l : len l = 4 -> is_u32 (from_le_bytes l).
Proof. intros H. pose proof (from_le_bytes_range l). rewrite H in *. word_lia. Qed.
Lemma from_le_u64 l : len l = 8 -> is_u64 (from_le_bytes l).
Proof. intros H. pose proof (from_le_bytes_range l). rewrite H in *. word_lia. Qed.
#[export] Hint Resolve from_le_u16 from_le_u32 from_le_u64 : nvx.

(** ** Protocol errors

    The text of a [ProtocolError], as the pieces that its formatter joins: literal text, bytes
    that [escape_ascii] renders, and text that its [Debug] form quotes. *)

Inductive piece : Type :=
| Text (text : string)
| EscapeAscii (bytes : list byte)
| DebugText (bytes : list byte).

Definition ProtocolError : Type := list piece.

Definition violation (message : string) : ProtocolError := [Text message].

(** [u16_at] and [u32_at]: the little-endian integer at an offset, if the slice holds it. *)
Definition u16_at (bytes : list byte) (offset : Z) : option Z :=
  last ← checked_add USIZE_MAX offset 2;
  field ← get_range offset last bytes;
  Some (from_le_bytes field).

Definition u32_at (bytes : list byte) (offset : Z) : option Z :=
  last ← checked_add USIZE_MAX offset 4;
  field ← get_range offset last bytes;
  Some (from_le_bytes field).

(** ** Searching and splitting slices *)

(** [iter().position(p)]. *)
Fixpoint position {A} (p : A -> bool) (l : list A) : option Z :=
  match l with
  | [] => None
  | x :: l => if p x then Some 0 else option_map (Z.add 1) (position p l)
  end.

(** [Option::is_some]. *)
Definition is_some {A} (o : option A) : bool := match o with Some _ => true | None => false end.

(** [slice::split(p)]: the subslices between the elements that satisfy [p]. *)
Fixpoint split_on {A} (p : A -> bool) (l : list A) : list (list A) :=
  match l with
  | [] => [[]]
  | x :: l =>
      if p x then [] :: split_on p l
      else match split_on p l with
           | [] => [[x]]
           | w :: ws => (x :: w) :: ws
           end
  end.

(** [slice::strip_prefix]. *)
Fixpoint strip_prefix {A} `{EqDecision A} (p l : list A) : option (list A) :=
  match p, l with
  | [], _ => Some l
  | x :: p, y :: l => if decide (x = y) then strip_prefix p l else None
  | _ :: _, [] => None
  end.

Lemma strip_prefix_some {A} `{EqDecision A} (p l r : list A) :
  strip_prefix p l = Some r <-> l = p ++ r.
Proof.
  revert l. induction p as [|x p IH]; intros l; cbn.
  - naive_solver.
  - destruct l as [|y l]; [naive_solver|]. case_decide; [|naive_solver].
    rewrite IH. naive_solver.
Qed.

Lemma position_none {A} (p : A -> bool) (l : list A) :
  position p l = None <-> Forall (fun x => p x = false) l.
Proof.
  induction l as [|x l IH]; cbn; [by split|].
  rewrite Forall_cons, <- IH. destruct (p x), (position p l); naive_solver.
Qed.

Lemma position_some {A} (p : A -> bool) (l : list A) i :
  position p l = Some i <->
  exists k x r, l = k ++ x :: r /\ i = len k /\ p x = true /\ Forall (fun y => p y = false) k.
Proof.
  revert i. induction l as [|y l IH]; intros i; cbn.
  - split; [done|]. intros (k & x & r & ? & _). by destruct k.
  - destruct (p y) eqn:Hy; split.
    + intros [= <-]. exists [], y, l. by split_and!.
    + intros (k & x & r & Hl & -> & Hx & Hk). destruct k as [|z k]; [done|].
      inv Hl. inv Hk. congruence.
    + intros H. destruct (position p l) as [j|] eqn:Hj; [|done]. injection H as <-.
      destruct (proj1 (IH j) eq_refl) as (k & x & r & -> & -> & Hx & Hk).
      exists (y :: k), x, r. rewrite len_cons. auto.
    + intros (k & x & r & Hl & -> & Hx & Hk). destruct k as [|z k]; inv Hl; [congruence|].
      inv Hk. rewrite (proj2 (IH (len k))) by eauto 10. cbn. by rewrite len_cons.
Qed.

(** ** Reading what was written *)

Lemma ok_inj {E A} (a b : A) : @Ok E A a = Ok b -> a = b.
Proof. congruence. Qed.

Lemma try_or_max_small max n : n <= max -> try_or_max max n = n.
Proof. intros H. unfold try_or_max. destruct (Z.leb_spec n max); [done|lia]. Qed.

Lemma u32_at_mid pre field post :
  len field = 4 -> len (pre ++ field ++ post) <= USIZE_MAX ->
  u32_at (pre ++ field ++ post) (len pre) = Some (from_le_bytes field).
Proof.
  intros Hf Hl. unfold u32_at, checked_add. rewrite !len_app in Hl. len_facts.
  destruct (Z.leb_spec (len pre + 4) USIZE_MAX); [|lia]. cbn.
  rewrite get_range_mid by lia. done.
Qed.

Lemma u16_at_mid pre field post :
  len field = 2 -> len (pre ++ field ++ post) <= USIZE_MAX ->
  u16_at (pre ++ field ++ post) (len pre) = Some (from_le_bytes field).
Proof.
  intros Hf Hl. unfold u16_at, checked_add. rewrite !len_app in Hl. len_facts.
  destruct (Z.leb_spec (len pre + 2) USIZE_MAX); [|lia]. cbn.
  rewrite get_range_mid by lia. done.
Qed.

Lemma checked_add_fits a b : a + b <= USIZE_MAX -> checked_add USIZE_MAX a b = Some (a + b).
Proof. intros H. unfold checked_add. destruct (Z.leb_spec (a + b) USIZE_MAX); [done|lia]. Qed.

(** A field that follows the pieces [pres]. *)
Lemma pieces_app (pres : list (list byte)) rest : foldr app rest pres = concat pres ++ rest.
Proof. induction pres as [|p pres IH]; cbn; [done|]. by rewrite IH, app_assoc. Qed.

Lemma u32_at_is payload at_ pres field post :
  payload = foldr app (field ++ post) pres -> at_ = len (concat pres) -> len field = 4 ->
  len payload <= USIZE_MAX -> u32_at payload at_ = Some (from_le_bytes field).
Proof. intros -> -> ?. rewrite pieces_app. by apply u32_at_mid. Qed.

Lemma u16_at_is payload at_ pres field post :
  payload = foldr app (field ++ post) pres -> at_ = len (concat pres) -> len field = 2 ->
  len payload <= USIZE_MAX -> u16_at payload at_ = Some (from_le_bytes field).
Proof. intros -> -> ?. rewrite pieces_app. by apply u16_at_mid. Qed.

(** Reads the field of a header that follows the pieces [pres]. *)
Ltac read_field lemma at_ pres :=
  erewrite (lemma _ at_ pres);
    [|cbn [foldr]; reflexivity
     |cbn [concat]; rewrite ?len_app, ?len_to_le_bytes; reflexivity
     |rewrite len_to_le_bytes; reflexivity
     |assumption];
  cbn [ok_or mbind result_bind].

(** ** Strings: [String::from_utf8] *)

Definition is_continuation (b : byte) : bool := Z.land (byte_val b) 192 =? 128.
Definition in_bytes (low high : Z) (b : byte) : bool := (low <=? byte_val b) && (byte_val b <=? high).

(** Whether bytes are well-formed UTF-8: no overlong form, surrogate, or code point too large. *)
Fixpoint is_utf8 (l : list byte) : bool :=
  match l with
  | [] => true
  | b :: l =>
      if in_bytes 0 127 b then is_utf8 l
      else match l with
      | b1 :: l1 =>
          if in_bytes 194 223 b then is_continuation b1 && is_utf8 l1
          else match l1 with
          | b2 :: l2 =>
              if in_bytes 224 239 b then
                (if in_bytes 224 224 b then in_bytes 160 191 b1
                 else if in_bytes 237 237 b then in_bytes 128 159 b1
                 else is_continuation b1) && is_continuation b2 && is_utf8 l2
              else match l2 with
              | b3 :: l3 =>
                  in_bytes 240 244 b
                  && (if in_bytes 240 240 b then in_bytes 144 191 b1
                      else if in_bytes 244 244 b then in_bytes 128 143 b1
                      else is_continuation b1)
                  && is_continuation b2 && is_continuation b3 && is_utf8 l3
              | [] => false
              end
          | [] => false
          end
      | [] => false
      end
  end.

(** [bytes.contains(&0)]. *)
Definition has_nul (l : list byte) : bool := existsb (fun b => byte_val b =? 0) l.

(** ** Splitting *)

Lemma split_on_cons {A} (p : A -> bool) l : exists piece pieces, split_on p l = piece :: pieces.
Proof. induction l as [|x l IH]; cbn; [eauto|]. destruct (p x); [eauto|]. destruct IH as (? & ? & ->). eauto. Qed.

(** A piece without separators comes off whole. *)
Lemma split_on_app {A} (p : A -> bool) k x l :
  Forall (fun y => p y = false) k -> p x = true -> split_on p (k ++ x :: l) = k :: split_on p l.
Proof.
  intros Hk Hx. induction Hk as [|y k Hy Hk IH]; cbn; [by rewrite Hx|]. rewrite Hy. cbn in IH. by rewrite IH.
Qed.

Lemma split_on_end {A} (p : A -> bool) k : Forall (fun y => p y = false) k -> split_on p k = [k].
Proof. induction 1 as [|y k Hy Hk IH]; cbn; [done|]. by rewrite Hy, IH. Qed.

(** No piece holds a separator. *)
Lemma split_on_clean {A} (p : A -> bool) l : Forall (Forall (fun y => p y = false)) (split_on p l).
Proof.
  induction l as [|x l IH]; cbn; [repeat constructor|]. destruct (p x) eqn:Hx; [by constructor|].
  destruct (split_on p l); [by repeat constructor|]. inv IH. by repeat constructor.
Qed.
