(* ===== verification/Outer.v ===== *)
(** * Outer records of the control console (src/nvx-rs/src/protocol/outer.rs)

    The 44-byte [NVXS] header, its encoder and decoder, and the four-byte payloads of ACK and
    CREDIT records. *)

From S2P Require Import Prelude.

Definition OUTER_MAGIC : list byte := bytes_of "NVXS".
Definition OUTER_VERSION : Z := 1.
Definition OUTER_HEADER_LEN : Z := 44.
Definition OUTER_MAX_PAYLOAD : Z := 65536.
Definition OUTER_RECEIVE_WINDOW : Z := 1024 * 1024.
Definition OUTER_MIN_RECEIVE_WINDOW : Z := OUTER_MAX_PAYLOAD.
Definition OUTER_MAX_RECEIVE_WINDOW : Z := 4 * 1024 * 1024 + 10.

Definition OUTER_GUEST_ATTACH : byte := byte_of 1.
Definition OUTER_HOST_ATTACH : byte := byte_of 2.
Definition OUTER_RESET : byte := byte_of 3.
Definition OUTER_ACK : byte := byte_of 4.
Definition OUTER_DATA : byte := byte_of 5.
Definition OUTER_WAIT : byte := byte_of 6.
Definition OUTER_READY : byte := byte_of 7.
Definition OUTER_ERROR : byte := byte_of 8.
Definition OUTER_CREDIT : byte := byte_of 9.

Definition CAPABILITY_LEN : Z := 32.

Record OuterHeader := mkOuterHeader {
  oh_record_type : byte;
  oh_instance_id : list byte;
  oh_epoch : Z;
  oh_sequence : Z;
  oh_length : Z;
}.

(** [encode_header]: the assignments to the zeroed 44-byte array, in order. *)
Definition encode_header (record_type : byte) (instance_id : list byte)
    (epoch sequence length : Z) : list byte :=
  let header := replicate (Z.to_nat OUTER_HEADER_LEN) Byte.x00 in
  let header := copy_at 0 OUTER_MAGIC header in
  let header := copy_at 4 (to_le_bytes 2 OUTER_VERSION) header in
  let header := copy_at 6 [record_type] header in
  let header := copy_at 8 instance_id header in
  let header := copy_at 24 (to_le_bytes 8 epoch) header in
  let header := copy_at 32 (to_le_bytes 8 sequence) header in
  copy_at 40 (to_le_bytes 4 length) header.

Definition encode_outer (record_type : byte) (instance_id : list byte)
    (epoch sequence : Z) (payload : list byte) : result ProtocolError (list byte) :=
  length ← ok_or
    (if (len payload <=? U32_MAX) && (len payload <=? OUTER_MAX_PAYLOAD)
     then Some (len payload) else None)
    (violation "control payload exceeds the outer protocol limit");
  Ok (encode_header record_type instance_id epoch sequence length ++ payload).

Definition decode_outer_header (header : list byte) : result ProtocolError OuterHeader :=
  let version := from_le_bytes (sub 4 6 header) in
  let flags := sub 7 8 header in
  let length := from_le_bytes (sub 40 44 header) in
  if negb (bool_decide (sub 0 4 header = OUTER_MAGIC)) || negb (version =? OUTER_VERSION)
     || negb (bool_decide (flags = [Byte.x00])) then
    Err (violation "control endpoint returned an invalid outer record")
  else if OUTER_MAX_PAYLOAD <? length then
    Err (violation "control endpoint returned an oversized outer record")
  else
    Ok {| oh_record_type := nth 6 header Byte.x00;
          oh_instance_id := sub 8 24 header;
          oh_epoch := from_le_bytes (sub 24 32 header);
          oh_sequence := from_le_bytes (sub 32 40 header);
          oh_length := length |}.

(** [(a..=b).contains(&x)]. *)
Definition in_range (a b x : Z) : bool := (a <=? x) && (x <=? b).

Definition encode_ack_payload (window : Z) : result ProtocolError (list byte) :=
  if negb (in_range OUTER_MIN_RECEIVE_WINDOW OUTER_MAX_RECEIVE_WINDOW window) then
    Err (violation "control acknowledgement has an invalid receive window")
  else Ok (to_le_bytes 4 window).

Definition decode_window (payload : list byte) (record : string) : result ProtocolError Z :=
  if len payload =? 4 then Ok (from_le_bytes payload)
  else Err [Text "control "; Text record; Text " payload is not four bytes"].

Definition decode_ack_payload (payload : list byte) : result ProtocolError Z :=
  window ← decode_window payload "acknowledgement";
  if negb (in_range OUTER_MIN_RECEIVE_WINDOW OUTER_MAX_RECEIVE_WINDOW window) then
    Err (violation "control acknowledgement has an invalid receive window")
  else Ok window.

Definition encode_credit_payload (bytes : Z) : result ProtocolError (list byte) :=
  if (bytes =? 0) || (OUTER_MAX_RECEIVE_WINDOW <? bytes) then
    Err (violation "control credit has an invalid byte count")
  else Ok (to_le_bytes 4 bytes).

Definition decode_credit_payload (payload : list byte) : result ProtocolError Z :=
  bytes ← decode_window payload "credit";
  if (bytes =? 0) || (OUTER_MAX_RECEIVE_WINDOW <? bytes) then
    Err (violation "control credit has an invalid byte count")
  else Ok bytes.

(** ** The header's layout

    The successive assignments build the concatenation of the fields, and a header of 44 bytes
    is its fields' concatenation. *)

Definition header_layout (t : byte) (id : list byte) (epoch sequence length : Z) : list byte :=
  OUTER_MAGIC ++ to_le_bytes 2 OUTER_VERSION ++ [t] ++ [Byte.x00] ++ id
  ++ to_le_bytes 8 epoch ++ to_le_bytes 8 sequence ++ to_le_bytes 4 length.

Lemma encode_header_layout t id e s l :
  len id = 16 -> encode_header t id e s l = header_layout t id e s l.
Proof.
  intros Hid.
  do 16 (destruct id as [|? id]; [discriminate Hid|]).
  destruct id; [|rewrite !len_cons in Hid; len_lia].
  reflexivity.
Qed.

Lemma len_header_layout t id e s l : len id = 16 -> len (header_layout t id e s l) = 44.
Proof.
  intros Hid. unfold header_layout. rewrite !len_app, !len_to_le_bytes, Hid. reflexivity.
Qed.

(** The fields of a 44-byte header, read back from the layout. *)
Lemma header_layout_fields t id e s l r :
  len id = 16 ->
  let h := header_layout t id e s l ++ r in
  sub 0 4 h = OUTER_MAGIC /\ sub 4 6 h = to_le_bytes 2 OUTER_VERSION /\ sub 7 8 h = [Byte.x00]
  /\ nth 6 h Byte.x00 = t /\ sub 6 7 h = [t] /\ sub 8 24 h = id /\ sub 24 32 h = to_le_bytes 8 e
  /\ sub 32 40 h = to_le_bytes 8 s /\ sub 40 44 h = to_le_bytes 4 l.
Proof.
  intros Hid.
  do 16 (destruct id as [|? id]; [discriminate Hid|]).
  destruct id; [|rewrite !len_cons in Hid; len_lia].
  split_and!; reflexivity.
Qed.

Lemma header_split (h : list byte) :
  len h = 44 ->
  h = sub 0 4 h ++ sub 4 6 h ++ sub 6 7 h ++ sub 7 8 h ++ sub 8 24 h ++ sub 24 32 h
      ++ sub 32 40 h ++ sub 40 44 h.
Proof.
  intros Hh. do 44 (destruct h as [|? h]; [discriminate Hh|]).
  destruct h; [reflexivity|]. rewrite !len_cons in Hh. len_lia.
Qed.

Lemma header_nth6 (h : list byte) : len h = 44 -> sub 6 7 h = [nth 6 h Byte.x00].
Proof.
  intros Hh. do 7 (destruct h as [|? h]; [discriminate Hh|]). reflexivity.
Qed.

Lemma in_range_iff a b x : in_range a b x = true <-> a <= x <= b.
Proof. unfold in_range. rewrite andb_true_iff, !Z.leb_le. done. Qed.

(** ** Correctness of the codec *)

Definition header_of (hd : OuterHeader) : list byte :=
  encode_header (oh_record_type hd) (oh_instance_id hd) (oh_epoch hd) (oh_sequence hd)
    (oh_length hd).

(** The headers that [OuterHeader]'s field types and the payload limit allow. *)
Definition valid_header (hd : OuterHeader) : Prop :=
  len (oh_instance_id hd) = 16 /\ is_u64 (oh_epoch hd) /\ is_u64 (oh_sequence hd)
  /\ 0 <= oh_length hd <= OUTER_MAX_PAYLOAD.

Lemma decode_header_of hd :
  valid_header hd -> decode_outer_header (header_of hd) = Ok hd.
Proof.
  intros (Hid & He & Hs & Hl). unfold header_of. rewrite encode_header_layout by done.
  rewrite <- (app_nil_r (header_layout _ _ _ _ _)). unfold decode_outer_header.
  destruct (header_layout_fields (oh_record_type hd) (oh_instance_id hd) (oh_epoch hd)
              (oh_sequence hd) (oh_length hd) [] Hid)
    as (-> & -> & -> & -> & _ & -> & -> & -> & ->).
  rewrite !u64_le_roundtrip by done.
  rewrite (u32_le_roundtrip (oh_length hd)) by (unfold OUTER_MAX_PAYLOAD in Hl; word_lia).
  rewrite (u16_le_roundtrip OUTER_VERSION) by (unfold OUTER_VERSION; word_lia).
  rewrite !bool_decide_eq_true_2 by done. cbn [negb orb]. rewrite Z.eqb_refl. cbn [negb].
  destruct (Z.ltb_spec OUTER_MAX_PAYLOAD (oh_length hd)); [lia|]. by destruct hd.
Qed.

Lemma decode_outer_header_sound h hd :
  len h = 44 -> decode_outer_header h = Ok hd -> valid_header hd /\ header_of hd = h.
Proof.
  intros Hh Hd. unfold decode_outer_header in Hd. inv_ok. bool_to_prop.
  assert (Hm : sub 0 4 h = OUTER_MAGIC) by done.
  assert (Hf : sub 7 8 h = [Byte.x00]) by done.
  assert (Hv : to_le_bytes 2 OUTER_VERSION = sub 4 6 h).
  { match goal with H : _ = OUTER_VERSION |- _ => rewrite <- H end.
    apply to_from_le_bytes. by rewrite len_sub by lia. }
  unfold valid_header, header_of; cbn [oh_record_type oh_instance_id oh_epoch oh_sequence oh_length].
  assert (len (sub 8 24 h) = 16) by (rewrite len_sub; lia).
  split.
  - split_and!; try done; try (apply from_le_u64; rewrite len_sub; lia).
    apply from_le_bytes_range.
  - rewrite encode_header_layout by done. unfold header_layout.
    rewrite !to_from_le_bytes by (rewrite len_sub; lia).
    rewrite (header_split h Hh) at 6. by rewrite Hv, Hm, Hf, header_nth6.
Qed.

(** The header decoder accepts exactly the 44-byte strings that the encoder
    produces from a well-formed header (16-byte instance, 64-bit epoch and sequence, payload of
    at most 65,536 bytes), and returns that header: encoding and decoding are inverse, and no two
    byte strings decode to the same header. *)
Theorem outer_header_codec (h : list byte) (hd : OuterHeader) :
  len h = OUTER_HEADER_LEN ->
  decode_outer_header h = Ok hd <-> valid_header hd /\ header_of hd = h.
Proof.
  intros Hh. split.
  - by apply decode_outer_header_sound.
  - intros [Hv <-]. by apply decode_header_of.
Qed.

Lemma outer_header_codec_witness :
  decode_outer_header (encode_header OUTER_DATA (replicate 16 (byte_of 9)) 1 7 5)
  = Ok (mkOuterHeader OUTER_DATA (replicate 16 (byte_of 9)) 1 7 5).
Proof.
  apply (outer_header_codec (encode_header OUTER_DATA (replicate 16 (byte_of 9)) 1 7 5)
           (mkOuterHeader OUTER_DATA (replicate 16 (byte_of 9)) 1 7 5)); [reflexivity|].
  split; [|reflexivity]. unfold valid_header, is_u64; concrete.
Defined.

Lemma encode_outer_ok t id e s p r :
  encode_outer t id e s p = Ok r <->
  len p <= OUTER_MAX_PAYLOAD /\ r = encode_header t id e s (len p) ++ p.
Proof.
  unfold encode_outer, OUTER_MAX_PAYLOAD.
  destruct ((len p <=? U32_MAX) && (len p <=? 65536)) eqn:H; cbn; split.
  - intros [= <-]. by bool_to_prop.
  - by intros [_ ->].
  - done.
  - intros [Hl _]. apply andb_false_iff in H as [H|H]; bool_to_prop; word_lia.
Qed.

(** An outer record of at most 65,536 payload bytes encodes, a longer one is refused, and the
    encoding of a record splits back into its header, which decodes to its fields and the
    payload's length, and its payload. *)
Theorem outer_record_roundtrip (t : byte) (id : list byte) (e s : Z) (p : list byte) :
  len id = 16 -> is_u64 e -> is_u64 s ->
  (is_ok (encode_outer t id e s p) = true <-> len p <= OUTER_MAX_PAYLOAD) /\
  forall r, encode_outer t id e s p = Ok r ->
    decode_outer_header (ztake OUTER_HEADER_LEN r) = Ok (mkOuterHeader t id e s (len p))
    /\ zdrop OUTER_HEADER_LEN r = p.
Proof.
  intros Hid He Hs. split.
  - split.
    + destruct (encode_outer t id e s p) eqn:H; [|done]. by apply encode_outer_ok in H as [? _].
    + intros H. by rewrite (proj2 (encode_outer_ok t id e s p _) (conj H eq_refl)).
  - intros r [Hl ->]%encode_outer_ok.
    assert (Hh : len (encode_header t id e s (len p)) = 44)
      by (rewrite encode_header_layout by done; by apply len_header_layout).
    unfold OUTER_HEADER_LEN. rewrite ztake_app_l, zdrop_app_r by lia.
    rewrite ztake_all, Hh, zdrop_0 by lia. split; [|done].
    apply (decode_header_of (mkOuterHeader t id e s (len p))).
    split_and!; cbn; auto with nvx.
Qed.

Lemma outer_record_roundtrip_witness :
  is_ok (encode_outer OUTER_DATA (replicate 16 (byte_of 9)) 1 0 (bytes_of "hello")) = true.
Proof.
  apply (outer_record_roundtrip OUTER_DATA (replicate 16 (byte_of 9)) 1 0 (bytes_of "hello"));
    unfold is_u64; concrete.
Defined.

Lemma decode_window_ok p name w :
  decode_window p name = Ok w <-> is_u32 w /\ p = to_le_bytes 4 w.
Proof.
  unfold decode_window. destruct (Z.eqb_spec (len p) 4) as [H|H]; split.
  - intros [= <-]. split; [auto with nvx|]. by rewrite to_from_le_bytes.
  - intros [Hw ->]. by rewrite u32_le_roundtrip.
  - done.
  - intros [_ ->]. by rewrite len_to_le_bytes in H.
Qed.

(** The four-byte payloads of ACK and CREDIT records: a window or a byte count decodes from
    exactly the payload that encodes it, and only values that the encoder accepts (65,536 through
    4,194,314 for a window, 1 through 4,194,314 for a credit) decode at all. *)
Theorem window_payload_codec (p : list byte) (w : Z) :
  (decode_ack_payload p = Ok w <-> encode_ack_payload w = Ok p) /\
  (decode_credit_payload p = Ok w <-> is_u32 w /\ encode_credit_payload w = Ok p).
Proof.
  unfold decode_ack_payload, encode_ack_payload, decode_credit_payload, encode_credit_payload.
  rewrite !result_bind_ok. setoid_rewrite decode_window_ok. split; split.
  - intros (w' & [Hw ->] & H). by destruct (in_range _ _ w') eqn:Hr; inv H; rewrite Hr.
  - intros H. destruct (in_range _ _ w) eqn:Hr; inv H. exists w. rewrite Hr.
    apply in_range_iff in Hr. unfold OUTER_MIN_RECEIVE_WINDOW, OUTER_MAX_PAYLOAD,
      OUTER_MAX_RECEIVE_WINDOW in Hr. split_and!; [word_lia..|done|done].
  - intros (w' & [Hw ->] & H). by destruct (_ || _) eqn:Hr; inv H; rewrite Hr.
  - intros [Hw H]. destruct (_ || _) eqn:Hr; inv H. exists w. by rewrite Hr.
Qed.
