(* ===== verification/App.v ===== *)
(** * Application frames and guest features
    (src/nvx-rs/src/protocol/app.rs and src/nvx-rs/src/protocol/features.rs)

    The 24-byte [NVXC] header with its payload, the exit categories, and the bit set of control
    features that a guest advertises. *)

From S2P Require Import Prelude.

Definition APP_MAGIC : list byte := bytes_of "NVXC".
Definition APP_VERSION : byte := byte_of 1.
Definition APP_HEADER_LEN : Z := 24.

Definition APP_PING : byte := byte_of 1.
Definition APP_EXEC : byte := byte_of 2.
Definition APP_STOP : byte := byte_of 3.
Definition APP_CANCEL : byte := byte_of 4.
Definition APP_FEATURES : byte := byte_of 5.
Definition APP_MAPS : byte := byte_of 6.
Definition APP_READY : byte := byte_of 129.
Definition APP_STDOUT : byte := byte_of 130.
Definition APP_STDERR : byte := byte_of 131.
Definition APP_EXIT : byte := byte_of 132.
Definition APP_STOPPED : byte := byte_of 133.
Definition APP_ERROR : byte := byte_of 255.

Record AppFrame := mkAppFrame {
  kind : byte;
  request_id : Z;
  status : Z;
  payload : list byte;
}.

Definition encode_app (kind : byte) (request_id status : Z) (payload : list byte) : list byte :=
  let length := try_or_max U32_MAX (len payload) in
  APP_MAGIC ++ [APP_VERSION] ++ [kind] ++ to_le_bytes 2 0 ++ to_le_bytes 8 request_id
  ++ to_le_bytes 4 status ++ to_le_bytes 4 length ++ payload.

Definition decode_app (frame : list byte) : result ProtocolError AppFrame :=
  if len frame <? APP_HEADER_LEN then
    Err (violation "control endpoint returned a truncated application frame")
  else
    let flags := from_le_bytes (sub 6 8 frame) in
    let length := from_le_bytes (sub 20 24 frame) in
    let payload := zdrop APP_HEADER_LEN frame in
    if negb (bool_decide (sub 0 4 frame = APP_MAGIC))
       || negb (bool_decide (nth 4 frame Byte.x00 = APP_VERSION))
       || negb (flags =? 0) || negb (length =? len payload) then
      Err (violation "control endpoint returned an invalid application frame")
    else
      Ok {| kind := nth 5 frame Byte.x00;
            request_id := from_le_bytes (sub 8 16 frame);
            status := to_signed 32 (from_le_bytes (sub 16 20 frame));
            payload := payload |}.

Inductive ExitCategory : Type :=
| Exit | Timeout | OutputLimit | Signal | Failed | Cancelled.

(** [ExitCategory::as_str]. *)
Definition as_str (c : ExitCategory) : string :=
  match c with
  | Exit => "exit"
  | Timeout => "timeout"
  | OutputLimit => "output-limit"
  | Signal => "signal"
  | Failed => "failed"
  | Cancelled => "cancelled"
  end.

(** [ExitCategory::parse]. *)
Definition parse_exit_category (payload : list byte) : result ProtocolError ExitCategory :=
  if decide (payload = bytes_of "exit") then Ok Exit
  else if decide (payload = bytes_of "timeout") then Ok Timeout
  else if decide (payload = bytes_of "output-limit") then Ok OutputLimit
  else if decide (payload = bytes_of "signal") then Ok Signal
  else if decide (payload = bytes_of "failed") then Ok Failed
  else if decide (payload = bytes_of "cancelled") then Ok Cancelled
  else Err (violation "guest agent returned an unsupported exit category").

(** ** Guest features: sets of bits of a [u32] *)

Definition NONE : Z := 0.
Definition CANCEL : Z := Z.shiftl 1 0.
Definition WORKLOAD_ACCOUNT : Z := Z.shiftl 1 2.
Definition EXEC_CGROUP : Z := Z.shiftl 1 3.
Definition EXEC_ENVIRONMENT : Z := Z.shiftl 1 4.
Definition EXEC_CWD : Z := Z.shiftl 1 5.
Definition HOST_MAPPING_TABLE : Z := Z.shiftl 1 6.
Definition DIRECT_AGENT : Z :=
  Z.lor (Z.lor (Z.lor (Z.lor (Z.lor CANCEL WORKLOAD_ACCOUNT) EXEC_CGROUP) EXEC_ENVIRONMENT)
    EXEC_CWD) HOST_MAPPING_TABLE.
Definition SANDBOX_AGENT : Z := Z.lor (Z.lor CANCEL EXEC_ENVIRONMENT) HOST_MAPPING_TABLE.
Definition REQUIRED : Z := DIRECT_AGENT.
Definition LAYERED_SANDBOX : Z := Z.lor EXEC_ENVIRONMENT HOST_MAPPING_TABLE.

Definition NAMES : list (Z * string) :=
  [(CANCEL, "cancellation"); (WORKLOAD_ACCOUNT, "workload accounts");
   (EXEC_CGROUP, "workload containment"); (EXEC_ENVIRONMENT, "per-execution environments");
   (EXEC_CWD, "working directories"); (HOST_MAPPING_TABLE, "host path mapping tables")].

(** [GuestFeatures::contains]. *)
Definition contains (self other : Z) : bool := Z.land self other =? other.

(** [GuestFeatures::decode]: trailing bytes are ignored. *)
Definition decode_features (payload : list byte) : result ProtocolError Z :=
  bits ← ok_or (get_range 0 4 payload)
           (violation "the guest agent returned a truncated features response");
  Ok (from_le_bytes bits).

(** [GuestFeatures::encode]. *)
Definition encode_features (bits : Z) : list byte := to_le_bytes 4 bits.

(** [GuestFeatures::missing]. *)
Definition missing (self required : Z) : list string :=
  map snd (List.filter (fun '(feature, _) =>
    negb (Z.land required feature =? 0) && (Z.land self feature =? 0)) NAMES).

(** ** Correctness of the frame codec *)

(** The frames that [AppFrame]'s field types allow, with a payload that the length field names. *)
Definition valid_frame (f : AppFrame) : Prop :=
  is_u64 (request_id f) /\ is_i32 (status f) /\ len (payload f) <= U32_MAX.

Definition frame_of (f : AppFrame) : list byte :=
  encode_app (kind f) (request_id f) (status f) (payload f).

Lemma frame_split (f : list byte) :
  24 <= len f ->
  f = sub 0 4 f ++ sub 4 5 f ++ sub 5 6 f ++ sub 6 8 f ++ sub 8 16 f ++ sub 16 20 f
      ++ sub 20 24 f ++ zdrop 24 f /\ sub 4 5 f = [nth 4 f Byte.x00]
  /\ sub 5 6 f = [nth 5 f Byte.x00].
Proof.
  intros Hf. do 24 (destruct f as [|? f]; [exfalso; revert Hf; vm_compute; congruence|]).
  by split_and!.
Qed.

(** The fields of a frame, read back from its layout. *)
Lemma frame_fields m v k fl id st l p :
  len m = 4 -> len fl = 2 -> len id = 8 -> len st = 4 -> len l = 4 ->
  let f := m ++ [v] ++ [k] ++ fl ++ id ++ st ++ l ++ p in
  sub 0 4 f = m /\ nth 4 f Byte.x00 = v /\ nth 5 f Byte.x00 = k /\ sub 6 8 f = fl
  /\ sub 8 16 f = id /\ sub 16 20 f = st /\ sub 20 24 f = l /\ zdrop 24 f = p
  /\ 24 <= len f.
Proof.
  intros Hm Hfl Hid Hst Hl.
  do 4 (destruct m as [|? m]; [discriminate Hm|]).
  do 2 (destruct fl as [|? fl]; [discriminate Hfl|]).
  do 8 (destruct id as [|? id]; [discriminate Hid|]).
  do 4 (destruct st as [|? st]; [discriminate Hst|]).
  do 4 (destruct l as [|? l]; [discriminate Hl|]).
  assert (m = [] /\ fl = [] /\ id = [] /\ st = [] /\ l = []) as (-> & -> & -> & -> & ->).
  { split_and!; apply len_zero_iff; len_lia. }
  cbn -[len Z.le]. split_and!; try reflexivity. len_lia.
Qed.

Lemma decode_frame_of f : valid_frame f -> decode_app (frame_of f) = Ok f.
Proof.
  intros (Hr & Hs & Hp). unfold frame_of, encode_app, decode_app, try_or_max, APP_HEADER_LEN.
  rewrite (proj2 (Z.leb_le _ _) Hp).
  destruct (frame_fields APP_MAGIC APP_VERSION (kind f) (to_le_bytes 2 0)
    (to_le_bytes 8 (request_id f)) (to_le_bytes 4 (status f)) (to_le_bytes 4 (len (payload f)))
    (payload f)) as (-> & -> & -> & -> & -> & -> & -> & -> & Hl); try by rewrite ?len_to_le_bytes.
  destruct (Z.ltb_spec (len (APP_MAGIC ++ [APP_VERSION] ++ [kind f] ++ to_le_bytes 2 0
    ++ to_le_bytes 8 (request_id f) ++ to_le_bytes 4 (status f)
    ++ to_le_bytes 4 (len (payload f)) ++ payload f)) 24); [lia|].
  rewrite u64_le_roundtrip, i32_le_roundtrip by done.
  rewrite (u32_le_roundtrip (len (payload f))) by (unfold is_u32; len_facts; lia).
  rewrite !bool_decide_eq_true_2, (Z.eqb_refl (len _)) by done. by destruct f.
Qed.

Lemma to_signed_range z : 0 <= z < 2 ^ 32 -> is_i32 (to_signed 32 z).
Proof. intros. unfold to_signed. destruct (Z.ltb_spec z (2 ^ (32 - 1))); word_lia. Qed.

Lemma to_signed_le l :
  len l = 4 -> to_le_bytes 4 (to_signed 32 (from_le_bytes l)) = l.
Proof.
  intros Hl. pose proof (from_le_bytes_range l) as Hr. rewrite Hl in Hr.
  transitivity (to_le_bytes 4 (from_le_bytes l)); [|by apply to_from_le_bytes].
  unfold to_signed. case_match; [done|].
  rewrite <- (to_from_le_bytes 4 (to_le_bytes 4 (_ - _))) by (by rewrite len_to_le_bytes).
  rewrite <- (to_from_le_bytes 4 (to_le_bytes 4 (from_le_bytes l))) at 1
    by (by rewrite len_to_le_bytes).
  f_equal. rewrite !from_to_le_bytes.
  replace (from_le_bytes l - 2 ^ 32) with (from_le_bytes l + (-1) * 2 ^ 32) by lia.
  apply (Z.mod_add _ (-1) (2 ^ 32)). lia.
Qed.

Lemma decode_app_sound b f : decode_app b = Ok f -> valid_frame f /\ frame_of f = b.
Proof.
  unfold decode_app, APP_HEADER_LEN. intros Hd. inv_ok. bool_to_prop.
  destruct (frame_split b) as (Hb & H4 & H5); [lia|].
  assert (Hm : sub 0 4 b = APP_MAGIC) by done.
  assert (Hv : nth 4 b Byte.x00 = APP_VERSION) by done.
  assert (Hf : from_le_bytes (sub 6 8 b) = 0) by done.
  assert (Hl : from_le_bytes (sub 20 24 b) = len (zdrop 24 b)) by done.
  assert (Hu : is_u32 (len (zdrop 24 b))).
  { rewrite <- Hl. apply from_le_u32. rewrite len_sub; lia. }
  unfold valid_frame, frame_of, encode_app. cbn [kind request_id status payload]. split.
  - split_and!; [apply from_le_u64; rewrite len_sub; lia| |apply Hu].
    apply to_signed_range. pose proof (from_le_bytes_range (sub 16 20 b)) as Hr.
    rewrite len_sub in Hr by lia. apply Hr.
  - unfold try_or_max. rewrite (proj2 (Z.leb_le _ _) (proj2 Hu)), <- Hl.
    rewrite to_signed_le, !to_from_le_bytes by (rewrite len_sub; lia).
    assert (Hz : to_le_bytes 2 0 = sub 6 8 b).
    { rewrite <- Hf. apply to_from_le_bytes. rewrite len_sub; lia. }
    rewrite Hz, <- Hv, <- Hm, <- H4, <- H5. by rewrite <- Hb.
Qed.

(** Application frames: a byte string decodes to a frame exactly when it is that frame's
    encoding and the frame is well-formed (64-bit request, 32-bit signed status, payload within
    the 32-bit length field), so frames round-trip and every accepted frame is canonical. *)
Theorem app_frame_codec (b : list byte) (f : AppFrame) :
  decode_app b = Ok f <-> valid_frame f /\ frame_of f = b.
Proof.
  split; [apply decode_app_sound|]. intros [Hv <-]. by apply decode_frame_of.
Qed.

(** An exit category parses from exactly its own text. *)
Theorem exit_category_codec (p : list byte) (c : ExitCategory) :
  parse_exit_category p = Ok c <-> p = bytes_of (as_str c).
Proof.
  unfold parse_exit_category. split.
  - intros H. split_matches; done.
  - intros ->. by destruct c.
Qed.

(** ** Guest features *)

Lemma land_bit_zero x i : 0 <= i -> (Z.land x (Z.shiftl 1 i) =? 0) = negb (Z.testbit x i).
Proof.
  intros Hi. rewrite Z.shiftl_1_l.
  destruct (Z.eqb_spec (Z.land x (2 ^ i)) 0) as [H|H], (Z.testbit x i) eqn:Hb; try done; exfalso.
  - apply (f_equal (fun z => Z.testbit z i)) in H.
    rewrite Z.land_spec, Hb, Z.pow2_bits_true, Z.bits_0 in H by lia. done.
  - apply H. apply Z.bits_inj'. intros n Hn. rewrite Z.land_spec, Z.bits_0.
    destruct (decide (n = i)) as [->|]; [by rewrite Hb|].
    rewrite (Z.pow2_bits_false i n) by lia. apply andb_false_r.
Qed.

Lemma contains_iff self other :
  contains self other = true <->
  forall i, 0 <= i -> Z.testbit other i = true -> Z.testbit self i = true.
Proof.
  unfold contains. rewrite Z.eqb_eq. split.
  - intros H i _ Hi. rewrite <- H, Z.land_spec in Hi. by apply andb_true_iff in Hi as [? _].
  - intros H. apply Z.bits_inj'. intros n Hn. rewrite Z.land_spec.
    destruct (Z.testbit other n) eqn:Ho; [by rewrite H|apply andb_false_r].
Qed.

(** The bits of the named features. *)
Definition feature_bits : list Z := [0; 2; 3; 4; 5; 6].

Lemma required_bits i : 0 <= i -> Z.testbit REQUIRED i = true -> i ∈ feature_bits.
Proof.
  intros Hi. change REQUIRED with 125. intros Hb.
  assert (i <= 6) by (destruct (decide (i <= 6)); [done|];
    rewrite Z.bits_above_log2 in Hb; [done|lia|cbn; lia]).
  assert (i <> 1) by (intros ->; discriminate).
  unfold feature_bits. rewrite !elem_of_cons. lia.
Qed.

(** The names of [missing] are those of the bits that [required] has and [self] lacks. *)
Lemma missing_spec self required :
  missing self required =
  map snd (List.filter (fun '(i, _) => Z.testbit required i && negb (Z.testbit self i))
    (combine feature_bits (map snd NAMES))).
Proof.
  unfold missing. cbn [NAMES feature_bits combine map snd List.filter].
  unfold CANCEL, WORKLOAD_ACCOUNT, EXEC_CGROUP, EXEC_ENVIRONMENT, EXEC_CWD, HOST_MAPPING_TABLE.
  rewrite !land_bit_zero, !negb_involutive by lia. by repeat case_match.
Qed.

(** The compatibility check of a guest's features: for any features that the crate may
    require, a guest has all of them exactly when the list of missing features that the error
    names is empty, and the list names a feature exactly when it is required and absent. *)
Theorem missing_features_exact (self required : Z) :
  contains REQUIRED required = true ->
  (missing self required = [] <-> contains self required = true) /\
  forall i name, (i, name) ∈ combine feature_bits (map snd NAMES) ->
    name ∈ missing self required <->
    Z.testbit required i = true /\ Z.testbit self i = false.
Proof.
  rewrite !contains_iff, missing_spec. intros Hr. split.
  - split.
    + intros Hm i Hi Hb. pose proof (required_bits i Hi (Hr i Hi Hb)) as Hin.
      destruct (Z.testbit self i) eqn:Hs; [done|]. exfalso. revert Hm.
      unfold feature_bits in *. cbn [combine map snd NAMES List.filter].
      repeat (apply elem_of_cons in Hin as [->|Hin];
        [rewrite Hb, Hs; cbn; repeat case_match; discriminate|]).
      by apply elem_of_nil in Hin.
    + intros H. unfold feature_bits. cbn [combine map snd NAMES List.filter].
      pose proof (H 0); pose proof (H 2); pose proof (H 3); pose proof (H 4); pose proof (H 5);
        pose proof (H 6).
      destruct (Z.testbit required 0), (Z.testbit required 2), (Z.testbit required 3),
        (Z.testbit required 4), (Z.testbit required 5), (Z.testbit required 6);
        cbn [andb negb];
        repeat match goal with
        | H : 0 <= _ -> true = true -> _ |- _ => rewrite H by done; clear H
        end; done.
  - intros i name Hin. rewrite list_elem_of_In, in_map_iff.
    setoid_rewrite filter_In. split.
    + intros ([j n] & Hn & Hj & Hb). cbn in Hn. subst n.
      assert (i = j) as ->; [|by apply andb_true_iff in Hb as [? ?%negb_true_iff]].
      apply list_elem_of_In in Hin. cbn in Hin, Hj. naive_solver.
    + intros [Hb Hs]. exists (i, name). split; [done|]. split; [by apply list_elem_of_In|].
      by rewrite Hb, Hs.
Qed.

Lemma missing_features_exact_witness : contains SANDBOX_AGENT LAYERED_SANDBOX = true.
Proof. apply (missing_features_exact SANDBOX_AGENT LAYERED_SANDBOX); reflexivity. Defined.
