(* ===== verification/NvxsRecord.v ===== *)
(** * NVXS records (src/nvx-rs/src/protocol/nvxs/record.rs)

    Record types, validation, encoding, and the incremental parser, which takes a byte stream in
    pieces of any size. The parser is proved to refine an abstract parser that looks at the whole
    stream, so that the way in which a transport cuts the stream never matters. *)

From S2P Require Import Prelude Outer.

Inductive RecordType : Type :=
| GuestAttach | HostAttach | Reset | Ack | Data | Wait | Ready | Error | Credit.

#[export] Instance RecordType_eq_dec : EqDecision RecordType.
Proof. solve_decision. Defined.

(** [RecordType::code]. *)
Definition code (t : RecordType) : byte :=
  match t with
  | GuestAttach => OUTER_GUEST_ATTACH
  | HostAttach => OUTER_HOST_ATTACH
  | Reset => OUTER_RESET
  | Ack => OUTER_ACK
  | Data => OUTER_DATA
  | Wait => OUTER_WAIT
  | Ready => OUTER_READY
  | Error => OUTER_ERROR
  | Credit => OUTER_CREDIT
  end.

(** [RecordType::from_code]. *)
Definition from_code (c : byte) : option RecordType :=
  if decide (c = OUTER_GUEST_ATTACH) then Some GuestAttach
  else if decide (c = OUTER_HOST_ATTACH) then Some HostAttach
  else if decide (c = OUTER_RESET) then Some Reset
  else if decide (c = OUTER_ACK) then Some Ack
  else if decide (c = OUTER_DATA) then Some Data
  else if decide (c = OUTER_WAIT) then Some Wait
  else if decide (c = OUTER_READY) then Some Ready
  else if decide (c = OUTER_ERROR) then Some Error
  else if decide (c = OUTER_CREDIT) then Some Credit
  else None.

(** [RecordType::is_bootstrap]. *)
Definition is_bootstrap (t : RecordType) : bool :=
  match t with GuestAttach | HostAttach => true | _ => false end.

(** [RecordType::allows_length]. *)
Definition allows_length (t : RecordType) (length : Z) : bool :=
  match t with
  | GuestAttach | Reset | Wait | Ready => length =? 0
  | HostAttach => length =? CAPABILITY_LEN
  | Ack | Error | Credit => length =? 4
  | Data => (1 <=? length) && (length <=? OUTER_MAX_PAYLOAD)
  end.

Inductive ErrorCode : Type := Authentication.

(** [ErrorCode::code] and [ErrorCode::from_code]. *)
Definition error_code_code (c : ErrorCode) : Z := match c with Authentication => 1 end.
Definition error_code_from_code (code : Z) : option ErrorCode :=
  if code =? 1 then Some Authentication else None.

Inductive RecordError : Type :=
| BadMagic (magic : list byte)
| BadVersion (version : Z)
| BadType (code : byte)
| BadFlags (flags : byte)
| BadLength (record_type : RecordType) (length : Z)
| BootstrapIdentity (record_type : RecordType)
| BadErrorCode (code : Z)
| BadReceiveWindow (window : Z)
| BadCredit (bytes : Z).

Record NvxsRecord := mkRecord {
  record_type : RecordType;
  instance_id : list byte;
  epoch : Z;
  sequence : Z;
  payload : list byte;
}.

(** [value]: the little-endian [u32] of a four-byte payload. *)
Definition value (payload : list byte) : Z := from_le_bytes payload.

(** [Record::window], [Record::credit] and [Record::error_code]. *)
Definition record_window (r : NvxsRecord) : option Z :=
  if decide (record_type r = Ack) then Some (value (payload r)) else None.
Definition record_credit (r : NvxsRecord) : option Z :=
  if decide (record_type r = Credit) then Some (value (payload r)) else None.
Definition record_error_code (r : NvxsRecord) : option ErrorCode :=
  if decide (record_type r = Error) then error_code_from_code (value (payload r)) else None.

Definition check_length (t : RecordType) (length : Z) : result RecordError unit :=
  if allows_length t length then Ok () else Err (BadLength t length).

(** The all-zero instance ID of a bootstrap record. *)
Definition zero_id : list byte := replicate 16 Byte.x00.
Arguments zero_id : simpl never.

Definition check_bootstrap (t : RecordType) (id : list byte) (epoch sequence : Z)
    : result RecordError unit :=
  if is_bootstrap t
     && (negb (bool_decide (id = zero_id)) || negb (epoch =? 0) || negb (sequence =? 0))
  then Err (BootstrapIdentity t) else Ok ().

Definition check_payload (t : RecordType) (payload : list byte) : result RecordError unit :=
  match t with
  | Ack =>
      let window := value payload in
      if in_range OUTER_MIN_RECEIVE_WINDOW OUTER_MAX_RECEIVE_WINDOW window then Ok ()
      else Err (BadReceiveWindow window)
  | Credit =>
      let bytes := value payload in
      if in_range 1 OUTER_MAX_RECEIVE_WINDOW bytes then Ok () else Err (BadCredit bytes)
  | Error =>
      let code := value payload in
      match error_code_from_code code with
      | Some _ => Ok ()
      | None => Err (BadErrorCode code)
      end
  | _ => Ok ()
  end.

(** [encode_record]: the output buffer, extended on success and unchanged on failure. *)
Definition encode_record (t : RecordType) (id : list byte) (epoch sequence : Z)
    (payload output : list byte) : result RecordError (list byte) :=
  _ ← check_length t (len payload);
  _ ← check_bootstrap t id epoch sequence;
  _ ← check_payload t payload;
  let length := len payload in
  let header := encode_header (code t) id epoch sequence length in
  Ok (output ++ header ++ payload).

Record Header := mkHeader {
  h_record_type : RecordType;
  h_instance_id : list byte;
  h_epoch : Z;
  h_sequence : Z;
  h_length : Z;
}.

Definition parse_header (bytes : list byte) : result RecordError Header :=
  let magic := sub 0 4 bytes in
  if negb (bool_decide (magic = OUTER_MAGIC)) then Err (BadMagic magic)
  else
    let version := from_le_bytes (sub 4 6 bytes) in
    if negb (version =? OUTER_VERSION) then Err (BadVersion version)
    else
      t ← ok_or (from_code (nth 6 bytes Byte.x00)) (BadType (nth 6 bytes Byte.x00));
      if negb (bool_decide (nth 7 bytes Byte.x00 = Byte.x00))
      then Err (BadFlags (nth 7 bytes Byte.x00))
      else
        let header :=
          {| h_record_type := t;
             h_instance_id := sub 8 24 bytes;
             h_epoch := from_le_bytes (sub 24 32 bytes);
             h_sequence := from_le_bytes (sub 32 40 bytes);
             h_length := from_le_bytes (sub 40 44 bytes) |} in
        _ ← check_length t (h_length header);
        _ ← check_bootstrap t (h_instance_id header) (h_epoch header) (h_sequence header);
        Ok header.

Record RecordParser := mkParser {
  header : list byte;
  header_len : Z;
  body : option (Header * list byte);
  error : option RecordError;
}.

#[export] Instance eta_RecordParser : Eta RecordParser := fun p =>
  mkParser (header p) (header_len p) (body p) (error p).

(** [RecordParser::new]. *)
Definition new_parser : RecordParser :=
  {| header := replicate (Z.to_nat OUTER_HEADER_LEN) Byte.x00;
     header_len := 0; body := None; error := None |}.

(** The second half of [RecordParser::accept]: payload bytes, from [consumed] on. *)
Definition accept_body (self : RecordParser) (input : list byte) (consumed : Z)
    : RecordParser * result RecordError (Z * option NvxsRecord) :=
  match body self with
  | None => (self, Ok (consumed, None))
  | Some (h, payload) =>
      let take := Z.min (h_length h - len payload) (len input - consumed) in
      let payload := payload ++ sub consumed (consumed + take) input in
      let self := self <| body := Some (h, payload) |> in
      let consumed := consumed + take in
      if len payload <? h_length h then (self, Ok (consumed, None))
      else
        let self := self <| body := None |> <| header_len := 0 |> in
        match check_payload (h_record_type h) payload with
        | Err e => (self, Err e)
        | Ok _ =>
            let record := {| record_type := h_record_type h; instance_id := h_instance_id h;
                             epoch := h_epoch h; sequence := h_sequence h; payload := payload |} in
            (self, Ok (consumed, Some record))
        end
  end.

(** [RecordParser::accept]. *)
Definition parser_accept (self : RecordParser) (input : list byte)
    : RecordParser * result RecordError (Z * option NvxsRecord) :=
  match body self with
  | None =>
      let take := Z.min (OUTER_HEADER_LEN - header_len self) (len input) in
      let self := self <| header := copy_at (header_len self) (ztake take input) (header self) |>
                       <| header_len := header_len self + take |> in
      if header_len self <? OUTER_HEADER_LEN then (self, Ok (take, None))
      else
        match parse_header (header self) with
        | Err e => (self, Err e)
        | Ok h => accept_body (self <| body := Some (h, []) |>) input take
        end
  | Some _ => accept_body self input 0
  end.

(** [RecordParser::push]: a failure discards the partial record and sticks. *)
Definition push (self : RecordParser) (input : list byte)
    : RecordParser * result RecordError (Z * option NvxsRecord) :=
  match error self with
  | Some e => (self, Err e)
  | None =>
      match parser_accept self input with
      | (self, Ok r) => (self, Ok r)
      | (self, Err e) =>
          (self <| header_len := 0 |> <| body := None |> <| error := Some e |>, Err e)
      end
  end.

(** [RecordParser::needed] and [RecordParser::buffered]. *)
Definition needed (self : RecordParser) : Z :=
  match body self with
  | Some (h, payload) => h_length h - len payload
  | None => OUTER_HEADER_LEN - header_len self
  end.
Definition buffered (self : RecordParser) : Z :=
  match body self with
  | Some (_, payload) => OUTER_HEADER_LEN + len payload
  | None => header_len self
  end.

(** ** What records are valid, and how they look on the wire *)

(** A record whose fields fit their Rust types. *)
Definition typed_record (r : NvxsRecord) : Prop :=
  len (instance_id r) = 16 /\ is_u64 (epoch r) /\ is_u64 (sequence r).

Definition valid_record (r : NvxsRecord) : Prop :=
  typed_record r /\ allows_length (record_type r) (len (payload r)) = true
  /\ check_bootstrap (record_type r) (instance_id r) (epoch r) (sequence r) = Ok ()
  /\ check_payload (record_type r) (payload r) = Ok ().

Definition encoding (r : NvxsRecord) : list byte :=
  encode_header (code (record_type r)) (instance_id r) (epoch r) (sequence r) (len (payload r))
  ++ payload r.

Lemma from_code_code t : from_code (code t) = Some t.
Proof. by destruct t. Qed.

Lemma code_from_code c t : from_code c = Some t -> code t = c.
Proof. unfold from_code. intros. by split_matches. Qed.

Lemma allows_length_max t l : allows_length t l = true -> 0 <= l <= OUTER_MAX_PAYLOAD.
Proof.
  destruct t; cbn; intros; bool_to_prop; unfold CAPABILITY_LEN, OUTER_MAX_PAYLOAD in *; lia.
Qed.

Lemma check_length_ok t l u : check_length t l = Ok u <-> allows_length t l = true.
Proof. unfold check_length. destruct u. case_match; naive_solver. Qed.

Lemma encode_record_ok t id e s p out r :
  encode_record t id e s p out = Ok r <->
  allows_length t (len p) = true /\ check_bootstrap t id e s = Ok ()
  /\ check_payload t p = Ok () /\ r = out ++ encoding (mkRecord t id e s p).
Proof.
  unfold encode_record, encoding. cbn [record_type instance_id epoch sequence payload].
  rewrite result_bind_ok. setoid_rewrite check_length_ok. split.
  - intros ([] & Hl & H). inv_ok. repeat match goal with u : unit |- _ => destruct u end. done.
  - intros (Hl & Hb & Hp & ->). exists (). rewrite Hb, Hp. done.
Qed.

(** The record encoder succeeds exactly on records that satisfy the type's length, bootstrap
    and payload rules, then appends the record's header and payload to the output and nothing
    else; it never writes anything on a failure. *)
Theorem encode_record_exact (r : NvxsRecord) (out : list byte) :
  typed_record r ->
  (valid_record r /\
   encode_record (record_type r) (instance_id r) (epoch r) (sequence r) (payload r) out
   = Ok (out ++ encoding r)) \/
  (~ valid_record r /\
   exists e, encode_record (record_type r) (instance_id r) (epoch r) (sequence r) (payload r) out
             = Err e).
Proof.
  intros Ht. destruct (encode_record _ _ _ _ _ _) as [out'|e] eqn:H.
  - apply encode_record_ok in H as (? & ? & ? & ->). left. destruct r. by unfold valid_record.
  - right. split; [|by exists e]. intros (_ & Hl & Hb & Hp).
    by rewrite (proj2 (encode_record_ok _ _ _ _ _ _ _) (conj Hl (conj Hb (conj Hp eq_refl)))) in H.
Qed.

Definition sample_record : NvxsRecord :=
  mkRecord Data (replicate 16 (byte_of 9)) 1 3 (bytes_of "hello").

Lemma encode_record_exact_witness :
  typed_record sample_record /\
  encode_record (record_type sample_record) (instance_id sample_record) (epoch sample_record)
    (sequence sample_record) (payload sample_record) [] = Ok (encoding sample_record).
Proof.
  assert (H : typed_record sample_record) by (unfold typed_record, is_u64; concrete).
  split; [exact H|].
  destruct (encode_record_exact sample_record [] H) as [[_ E]|[_ [e E]]]; [exact E|discriminate E].
Defined.

(** ** The abstract parser, which sees the whole stream *)

Inductive frame : Type :=
| Incomplete
| Malformed (e : RecordError)
| Complete (r : NvxsRecord) (rest : list byte).

(** The first record of a stream that holds the bytes [b]. *)
Definition first_frame (b : list byte) : frame :=
  if len b <? OUTER_HEADER_LEN then Incomplete
  else match parse_header (ztake OUTER_HEADER_LEN b) with
  | Err e => Malformed e
  | Ok h =>
      let rest := zdrop OUTER_HEADER_LEN b in
      if len rest <? h_length h then Incomplete
      else match check_payload (h_record_type h) (ztake (h_length h) rest) with
      | Err e => Malformed e
      | Ok _ => Complete
          {| record_type := h_record_type h; instance_id := h_instance_id h; epoch := h_epoch h;
             sequence := h_sequence h; payload := ztake (h_length h) rest |}
          (zdrop (h_length h) rest)
      end
  end.

Lemma header_nth7 (h : list byte) : len h = 44 -> sub 7 8 h = [nth 7 h Byte.x00].
Proof. intros Hh. do 8 (destruct h as [|? h]; [discriminate Hh|]). reflexivity. Qed.

(** A parsed header is the encoder's header of its fields. *)
Lemma parse_header_sound b h :
  len b = OUTER_HEADER_LEN -> parse_header b = Ok h ->
  b = encode_header (code (h_record_type h)) (h_instance_id h) (h_epoch h) (h_sequence h)
        (h_length h)
  /\ len (h_instance_id h) = 16 /\ is_u64 (h_epoch h) /\ is_u64 (h_sequence h)
  /\ allows_length (h_record_type h) (h_length h) = true
  /\ check_bootstrap (h_record_type h) (h_instance_id h) (h_epoch h) (h_sequence h) = Ok ().
Proof.
  unfold OUTER_HEADER_LEN. intros Hb Hp. unfold parse_header in Hp. inv_ok. bool_to_prop.
  match goal with H : check_length _ _ = Ok _ |- _ => apply check_length_ok in H end.
  match goal with H : check_bootstrap _ _ _ _ = Ok ?u |- _ => destruct u end.
  match goal with H : from_code _ = Some _ |- _ => apply code_from_code in H end.
  assert (Hm : sub 0 4 b = OUTER_MAGIC) by done.
  assert (Hv : to_le_bytes 2 OUTER_VERSION = sub 4 6 b).
  { match goal with H : _ = OUTER_VERSION |- _ => rewrite <- H end.
    apply to_from_le_bytes. rewrite len_sub; lia. }
  assert (Hf : nth 7 b Byte.x00 = Byte.x00) by done.
  cbn [h_record_type h_instance_id h_epoch h_sequence h_length] in *.
  assert (len (sub 8 24 b) = 16) by (rewrite len_sub; lia).
  split_and!; try done; try (apply from_le_u64; rewrite len_sub; lia).
  rewrite encode_header_layout by done. unfold header_layout.
  rewrite !to_from_le_bytes by (rewrite len_sub; lia).
  rewrite (header_split b Hb) at 1. rewrite Hv, Hm, header_nth6, header_nth7, Hf by done.
  by repeat f_equal.
Qed.

Lemma header_layout_nth7 t id e s l : nth 7 (header_layout t id e s l) Byte.x00 = Byte.x00.
Proof. reflexivity. Qed.

Lemma parse_encoded_header t id e s l :
  len id = 16 -> is_u64 e -> is_u64 s -> allows_length t l = true ->
  check_bootstrap t id e s = Ok () ->
  parse_header (encode_header (code t) id e s l) = Ok (mkHeader t id e s l).
Proof.
  intros Hid He Hs Hl Hb. rewrite encode_header_layout by done. unfold parse_header.
  rewrite header_layout_nth7.
  pose proof (allows_length_max t l Hl) as Hm. unfold OUTER_MAX_PAYLOAD in Hm.
  rewrite <- (app_nil_r (header_layout _ _ _ _ _)).
  destruct (header_layout_fields (code t) id e s l [] Hid)
    as (-> & -> & _ & -> & _ & -> & -> & -> & ->).
  rewrite !u64_le_roundtrip, u32_le_roundtrip, u16_le_roundtrip by (unfold OUTER_VERSION; word_lia).
  rewrite !bool_decide_eq_true_2, from_code_code by done. cbn.
  unfold check_length. rewrite Hl. cbn. by rewrite Hb.
Qed.

Lemma len_encoding r : len (instance_id r) = 16 -> len (encoding r) = 44 + len (payload r).
Proof.
  intros. unfold encoding. rewrite len_app, encode_header_layout, len_header_layout by done. done.
Qed.

Lemma first_frame_encoding r rest :
  valid_record r -> first_frame (encoding r ++ rest) = Complete r rest.
Proof.
  intros ((Hid & He & Hs) & Hl & Hb & Hp).
  assert (Hh : len (encode_header (code (record_type r)) (instance_id r) (epoch r) (sequence r)
    (len (payload r))) = 44) by (rewrite encode_header_layout, len_header_layout by done; done).
  unfold first_frame, OUTER_HEADER_LEN. unfold encoding. rewrite <- app_assoc.
  destruct (Z.ltb_spec (len (encode_header (code (record_type r)) (instance_id r) (epoch r)
    (sequence r) (len (payload r)) ++ payload r ++ rest)) 44); [len_lia|].
  rewrite ztake_app_l, ztake_all, zdrop_app_r, Hh, zdrop_0 by lia.
  rewrite parse_encoded_header by done. cbn [h_length h_record_type].
  destruct (Z.ltb_spec (len (payload r ++ rest)) (len (payload r))); [len_lia|].
  rewrite ztake_app_l, ztake_all, zdrop_app_r, Z.sub_diag, zdrop_0, Hp by lia.
  by destruct r.
Qed.

Lemma first_frame_sound b r rest :
  first_frame b = Complete r rest -> valid_record r /\ b = encoding r ++ rest.
Proof.
  unfold first_frame, OUTER_HEADER_LEN. intros Hf.
  destruct (Z.ltb_spec (len b) 44); [done|].
  destruct (parse_header (ztake 44 b)) as [h|] eqn:Hh; [|done].
  destruct (Z.ltb_spec (len (zdrop 44 b)) (h_length h)); [done|].
  destruct (check_payload _ _) as [[]|] eqn:Hp; [|done]. injection Hf as <- <-.
  apply parse_header_sound in Hh as (Hb & Hid & He & Hs & Hl & Hc);
    [|unfold OUTER_HEADER_LEN; len_lia].
  pose proof (allows_length_max _ _ Hl).
  assert (Hlen : len (ztake (h_length h) (zdrop 44 b)) = h_length h) by len_lia.
  unfold valid_record, typed_record, encoding. cbn. rewrite !Hlen. split; [by split_and!|].
  rewrite <- app_assoc, ztake_zdrop, <- Hb. by rewrite ztake_zdrop.
Qed.

(** ** The incremental parser refines the abstract one *)

(** The bytes of the partial record that a parser holds. *)
Definition partial (p : RecordParser) : list byte :=
  match body p with
  | None => ztake (header_len p) (header p)
  | Some (_, payload) => header p ++ payload
  end.

(** The representation invariant of a parser between two calls. *)
Definition parser_inv (p : RecordParser) : Prop :=
  len (header p) = OUTER_HEADER_LEN /\
  match body p with
  | None => 0 <= header_len p < OUTER_HEADER_LEN
  | Some (h, payload) =>
      header_len p = OUTER_HEADER_LEN /\ parse_header (header p) = Ok h
      /\ len payload < h_length h
  end.

Lemma parser_inv_new : parser_inv new_parser.
Proof. split; [done|]. cbn. unfold OUTER_HEADER_LEN. lia. Qed.

Lemma len_partial p : parser_inv p -> len (partial p) = buffered p.
Proof.
  intros [Hh Hb]. unfold partial, buffered, OUTER_HEADER_LEN in *.
  destruct (body p) as [[h pl]|]; len_lia.
Qed.

(** The effect of the second half of [accept], for a parser that holds header [h] and payload
    [pl] and has taken [c] bytes of [input]. *)
Lemma accept_body_spec p h pl input c :
  len (header p) = OUTER_HEADER_LEN -> header_len p = OUTER_HEADER_LEN ->
  body p = Some (h, pl) -> parse_header (header p) = Ok h -> len pl <= h_length h ->
  0 <= c <= len input ->
  match first_frame (header p ++ pl ++ zdrop c input), accept_body p input c with
  | Incomplete, (p', Ok (n, None)) =>
      n = len input /\ parser_inv p' /\ partial p' = header p ++ pl ++ zdrop c input
      /\ error p' = error p
  | Complete r rest, (p', Ok (n, Some r')) =>
      r' = r /\ n = len input - len rest /\ rest = zdrop n input /\ parser_inv p'
      /\ partial p' = [] /\ error p' = error p
  | Malformed e, (p', Err e') => e' = e /\ len (header p') = OUTER_HEADER_LEN
  | _, _ => False
  end.
Proof.
  intros Hh Hhl Hb Hp Hpl Hc. unfold OUTER_HEADER_LEN in *.
  unfold first_frame, accept_body, OUTER_HEADER_LEN. rewrite Hb.
  set (rest := pl ++ zdrop c input).
  assert (Hrest : len rest = len pl + (len input - c)) by (subst rest; len_lia).
  destruct (Z.ltb_spec (len (header p ++ rest)) 44); [len_lia|].
  rewrite ztake_app_l, ztake_all, zdrop_app_r, Hh, zdrop_0, Hp by lia.
  set (k := Z.min (h_length h - len pl) (len input - c)).
  assert (Hsub : sub c (c + k) input = ztake k (zdrop c input))
    by (unfold sub; f_equal; lia).
  assert (Hpl' : len (pl ++ sub c (c + k) input) = len pl + k)
    by (rewrite Hsub; subst k; len_lia).
  rewrite Hpl'. destruct (Z.ltb_spec (len rest) (h_length h)) as [Hlt|Hge].
  - assert (k = len input - c) as -> by (subst k; lia).
    destruct (Z.ltb_spec (len pl + (len input - c)) (h_length h)); [|lia].
    split_and!; [lia| |cbn|done].
    + split; [done|]. cbn. rewrite Hpl'. unfold OUTER_HEADER_LEN. auto.
    + rewrite Hsub, ztake_all by len_lia. done.
  - assert (Hk : k = h_length h - len pl) by (subst k; lia).
    destruct (Z.ltb_spec (len pl + k) (h_length h)); [lia|].
    assert (Hpay : ztake (h_length h) rest = pl ++ sub c (c + k) input).
    { subst rest. rewrite ztake_app_r by lia. rewrite Hsub, Hk. done. }
    rewrite Hpay. destruct (check_payload _ _) as [u|e]; [|by split].
    assert (Hr : zdrop (h_length h) rest = zdrop (c + k) input).
    { subst rest. rewrite zdrop_app_r, zdrop_zdrop by lia. f_equal. lia. }
    rewrite Hr. split_and!; try done; len_lia.
Qed.

(** What one [push] owes to the abstract parser's view [f] of the bytes so far, [old ++ input]. *)
Definition push_agrees (old input : list byte) (f : frame)
    (res : RecordParser * result RecordError (Z * option NvxsRecord)) : Prop :=
  match f, res with
  | Incomplete, (p', Ok (n, None)) =>
      n = len input /\ parser_inv p' /\ partial p' = old ++ input /\ error p' = None
  | Complete r rest, (p', Ok (n, Some r')) =>
      r' = r /\ n = len input - len rest /\ rest = zdrop n input /\ parser_inv p'
      /\ partial p' = [] /\ error p' = None
  | Malformed e, (p', Err e') =>
      e' = e /\ error p' = Some e /\ parser_inv p' /\ partial p' = []
  | _, _ => False
  end.

(** Recording a failure, as [push] does. *)
Definition record_failure (res : RecordParser * result RecordError (Z * option NvxsRecord))
    : RecordParser * result RecordError (Z * option NvxsRecord) :=
  match res with
  | (self, Ok r) => (self, Ok r)
  | (self, Err e) => (self <| header_len := 0 |> <| body := None |> <| error := Some e |>, Err e)
  end.

Lemma failed_parser_inv p e :
  len (header p) = OUTER_HEADER_LEN ->
  parser_inv (p <| header_len := 0 |> <| body := None |> <| error := Some e |>).
Proof. intros. split; [done|]. cbn. unfold OUTER_HEADER_LEN. lia. Qed.

Lemma accept_body_agrees p h pl input c old :
  len (header p) = OUTER_HEADER_LEN -> header_len p = OUTER_HEADER_LEN ->
  body p = Some (h, pl) -> parse_header (header p) = Ok h -> len pl <= h_length h ->
  0 <= c <= len input -> error p = None -> old ++ input = header p ++ pl ++ zdrop c input ->
  push_agrees old input (first_frame (old ++ input)) (record_failure (accept_body p input c)).
Proof.
  intros Hh Hhl Hb Hp Hpl Hc He Hold.
  pose proof (accept_body_spec p h pl input c Hh Hhl Hb Hp Hpl Hc) as H.
  rewrite <- Hold in H. unfold push_agrees.
  destruct (first_frame _), (accept_body p input c) as [p' [[n [r'|]]|e']]; try done; cbn.
  - destruct H as (? & ? & ? & ?). split_and!; congruence.
  - destruct H as [-> H]. split_and!; try done; by apply failed_parser_inv.
  - naive_solver congruence.
Qed.

(** One [push] of a healthy parser: it reports exactly what the abstract parser finds in the
    bytes so far, consumes up to the end of that record, and leaves the rest with the caller. *)
Lemma push_spec p input :
  parser_inv p -> error p = None ->
  push_agrees (partial p) input (first_frame (partial p ++ input)) (push p input).
Proof.
  intros [Hh Hb] He. unfold push. rewrite He. fold (record_failure (parser_accept p input)).
  unfold parser_accept. destruct (body p) as [[h pl]|] eqn:Hbody.
  { destruct Hb as (Hhl & Hp & Hpl). eapply accept_body_agrees; eauto; [lia|len_lia|].
    unfold partial. by rewrite Hbody, zdrop_0, app_assoc by lia. }
  assert (Hpart : partial p = ztake (header_len p) (header p)) by (unfold partial; by rewrite Hbody).
  unfold OUTER_HEADER_LEN in *.
  set (k := Z.min (44 - header_len p) (len input)).
  set (p1 := p <| header := _ |> <| header_len := _ |>).
  assert (Hk : len (ztake k input) = k) by (subst k; len_lia).
  assert (Hh1 : len (header p1) = 44) by (cbn; rewrite len_copy_at; lia).
  assert (Ht : ztake (header_len p + k) (header p1) = partial p ++ ztake k input).
  { rewrite Hpart. cbn. rewrite <- Hk at 1. apply ztake_copy_at; lia. }
  assert (Hhp : len (partial p) = header_len p) by (rewrite Hpart; len_lia).
  change (header_len p1) with (header_len p + k).
  destruct (Z.ltb_spec (header_len p + k) 44) as [Hlt|Hge].
  - assert (Hki : k = len input) by (subst k; lia).
    rewrite Hki, (ztake_all (len input) input) in Ht by lia.
    unfold first_frame, OUTER_HEADER_LEN.
    destruct (Z.ltb_spec (len (partial p ++ input)) 44); [|len_lia].
    cbn [push_agrees record_failure]. split_and!; [done| | |done].
    + split; [done|]. change (body p1) with (body p). rewrite Hbody.
      change (header_len p1) with (header_len p + k). unfold OUTER_HEADER_LEN. len_lia.
    + unfold partial at 1. change (body p1) with (body p). rewrite Hbody.
      change (header_len p1) with (header_len p + k). by rewrite Hki.
  - assert (Hk44 : header_len p + k = 44) by (subst k; lia).
    assert (Hhd : header p1 = partial p ++ ztake k input).
    { rewrite <- Ht, Hk44. symmetry. apply ztake_all. lia. }
    assert (Hfr : partial p ++ input = header p1 ++ [] ++ zdrop k input).
    { rewrite Hhd, app_nil_l, <- app_assoc, ztake_zdrop. done. }
    destruct (parse_header (header p1)) as [h|e] eqn:Hp.
    + eapply accept_body_agrees; cbn; eauto; [|subst k; lia].
      apply parse_header_sound in Hp as (_ & _ & _ & _ & Hl & _); [|done].
      apply allows_length_max in Hl. rewrite len_nil. lia.
    + rewrite Hfr. unfold first_frame, OUTER_HEADER_LEN.
      destruct (Z.ltb_spec (len (header p1 ++ [] ++ zdrop k input)) 44); [len_lia|].
      rewrite ztake_app_l, ztake_all, Hp by lia. cbn. split_and!; try done;
      by apply failed_parser_inv.
Qed.

(** ** Whole streams, cut into pieces of any size *)

(** A caller's loop over one piece of input: push, keep each record, push what is left. *)
Fixpoint drain (fuel : nat) (p : RecordParser) (input : list byte)
    : RecordParser * list NvxsRecord :=
  match fuel with
  | O => (p, [])
  | S fuel =>
      match push p input with
      | (p, Ok (n, Some r)) => let '(p, rs) := drain fuel p (zdrop n input) in (p, r :: rs)
      | (p, _) => (p, [])
      end
  end.

(** A stream that arrives as [pieces]. *)
Fixpoint feed (p : RecordParser) (pieces : list (list byte)) : RecordParser * list NvxsRecord :=
  match pieces with
  | [] => (p, [])
  | c :: cs =>
      let '(p, rs) := drain (S (length c)) p c in
      let '(p, rs') := feed p cs in (p, rs ++ rs')
  end.

(** The records of a whole stream, with the incomplete rest or the error that ends it. *)
Fixpoint frames (fuel : nat) (b : list byte) : list NvxsRecord * (list byte + RecordError) :=
  match fuel with
  | O => ([], inl b)
  | S fuel =>
      match first_frame b with
      | Incomplete => ([], inl b)
      | Malformed e => ([], inr e)
      | Complete r rest => let '(rs, s) := frames fuel rest in (r :: rs, s)
      end
  end.
Definition all_frames (b : list byte) : list NvxsRecord * (list byte + RecordError) :=
  frames (S (length b)) b.

(** How a parser stands in its stream. *)
Definition standing (p : RecordParser) : list byte + RecordError :=
  match error p with Some e => inr e | None => inl (partial p) end.

Lemma first_frame_shrinks b r rest : first_frame b = Complete r rest -> (length rest < length b)%nat.
Proof.
  intros [Hv ->]%first_frame_sound. destruct Hv as [[Hid _] _].
  pose proof (len_encoding r Hid) as H. pose proof (len_nonneg (payload r)).
  unfold len in *. rewrite length_app. lia.
Qed.

Lemma frames_fuel n b : (length b < n)%nat -> frames n b = all_frames b.
Proof.
  unfold all_frames. remember (S (length b)) as m eqn:Hm. assert (length b < m)%nat by lia.
  clear Hm. revert m b H. induction n as [|n IH]; intros [|m] b Hm Hn; try lia.
  cbn. destruct (first_frame b) eqn:Hf; try done.
  pose proof (first_frame_shrinks _ _ _ Hf). by rewrite (IH m) by lia.
Qed.

Lemma all_frames_unfold b :
  all_frames b = match first_frame b with
                 | Incomplete => ([], inl b)
                 | Malformed e => ([], inr e)
                 | Complete r rest => let '(rs, s) := all_frames rest in (r :: rs, s)
                 end.
Proof.
  unfold all_frames at 1. cbn. destruct (first_frame b) eqn:Hf; try done.
  by rewrite frames_fuel by (eapply first_frame_shrinks; eauto).
Qed.

(** Bytes that follow a decided record or error do not change the decision. *)
Lemma first_frame_app b c :
  match first_frame b with
  | Incomplete => True
  | Malformed e => first_frame (b ++ c) = Malformed e
  | Complete r rest => first_frame (b ++ c) = Complete r (rest ++ c)
  end.
Proof.
  destruct (first_frame b) eqn:Hf; [done| |].
  - revert Hf. unfold first_frame, OUTER_HEADER_LEN. intros Hf.
    destruct (Z.ltb_spec (len b) 44); [done|].
    destruct (Z.ltb_spec (len (b ++ c)) 44); [len_lia|].
    rewrite ztake_app_l by lia. destruct (parse_header (ztake 44 b)) as [h|] eqn:Hh; [|done].
    rewrite zdrop_app_l by lia.
    destruct (Z.ltb_spec (len (zdrop 44 b)) (h_length h)); [done|].
    destruct (Z.ltb_spec (len (zdrop 44 b ++ c)) (h_length h)); [len_lia|].
    rewrite ztake_app_l by lia. by destruct (check_payload _ _).
  - apply first_frame_sound in Hf as [Hv ->]. rewrite <- app_assoc. by apply first_frame_encoding.
Qed.

Lemma all_frames_app b c :
  all_frames (b ++ c) =
  match all_frames b with
  | (rs, inr e) => (rs, inr e)
  | (rs, inl rest) => let '(rs', s) := all_frames (rest ++ c) in (rs ++ rs', s)
  end.
Proof.
  induction b as [b IH] using (induction_ltof1 _ (@length byte)). unfold ltof in IH.
  rewrite (all_frames_unfold b). pose proof (first_frame_app b c) as Hc.
  destruct (first_frame b) as [|e|r rest] eqn:Hf.
  - by destruct (all_frames (b ++ c)).
  - by rewrite all_frames_unfold, Hc.
  - rewrite all_frames_unfold, Hc, IH by (eapply first_frame_shrinks; eauto).
    destruct (all_frames rest) as [rs [rest'|e]]; [|done].
    by destruct (all_frames (rest' ++ c)).
Qed.

Lemma partial_incomplete p : parser_inv p -> first_frame (partial p) = Incomplete.
Proof.
  intros [Hh Hb]. unfold first_frame, partial, OUTER_HEADER_LEN in *.
  destruct (body p) as [[h pl]|].
  - destruct Hb as (_ & Hp & Hpl).
    destruct (Z.ltb_spec (len (header p ++ pl)) 44); [done|].
    rewrite ztake_app_l, ztake_all, Hp, zdrop_app_r, Hh, zdrop_0 by lia.
    by rewrite (proj2 (Z.ltb_lt _ _) Hpl).
  - destruct (Z.ltb_spec (len (ztake (header_len p) (header p))) 44); [done|len_lia].
Qed.

Lemma drain_spec fuel p input :
  (length input < fuel)%nat -> parser_inv p ->
  let '(p', rs) := drain fuel p input in
  parser_inv p' /\
  (rs, standing p') = match error p with
                      | Some e => ([], inr e)
                      | None => all_frames (partial p ++ input)
                      end.
Proof.
  revert p input. induction fuel as [|fuel IH]; intros p input Hf Hi; [lia|].
  cbn [drain]. destruct (error p) as [e|] eqn:He.
  { unfold push. rewrite He. unfold standing. by rewrite He. }
  rewrite all_frames_unfold. pose proof (push_spec p input Hi He) as H.
  destruct (first_frame (partial p ++ input)) as [|e|r rest] eqn:Hff,
    (push p input) as [p' [[n [r'|]]|e']]; try done; cbn in H.
  - destruct H as (-> & Hi' & Hp' & He'). split; [done|]. unfold standing. by rewrite He', Hp'.
  - destruct H as (-> & He' & Hi' & Hp'). split; [done|]. unfold standing. by rewrite He'.
  - destruct H as (-> & Hn & Hrest & Hi' & Hp' & He').
    assert (length (zdrop n input) < length input)%nat as Hlt.
    { rewrite <- Hrest. apply first_frame_sound in Hff as [Hv Heq].
      destruct (decide (length rest < length input)%nat) as [|Hge]; [done|exfalso].
      assert (zdrop n input = input) as Hall by (apply zdrop_0; unfold len in Hn; lia).
      assert (partial p = encoding r).
      { apply (app_inv_tail input). by rewrite Heq, Hrest, Hall at 1. }
      pose proof (partial_incomplete p Hi) as Hinc.
      rewrite H, <- (app_nil_r (encoding r)), first_frame_encoding in Hinc by done. done. }
    specialize (IH p' (zdrop n input) ltac:(lia) Hi').
    destruct (drain fuel p' (zdrop n input)) as [p'' rs]. destruct IH as [Hi'' IH].
    rewrite He', Hp', app_nil_l, <- Hrest in IH. split; [done|].
    destruct (all_frames rest). by injection IH as <- <-.
Qed.

Lemma feed_spec p pieces :
  parser_inv p ->
  let '(p', rs) := feed p pieces in
  parser_inv p' /\
  (rs, standing p') = match error p with
                      | Some e => ([], inr e)
                      | None => all_frames (partial p ++ concat pieces)
                      end.
Proof.
  revert p. induction pieces as [|c cs IH]; intros p Hi; cbn [feed concat].
  - split; [done|]. unfold standing. destruct (error p); [done|].
    by rewrite app_nil_r, all_frames_unfold, partial_incomplete.
  - pose proof (drain_spec (S (length c)) p c ltac:(lia) Hi) as Hd.
    destruct (drain (S (length c)) p c) as [p1 rs]. destruct Hd as [Hi1 Hd].
    specialize (IH p1 Hi1). destruct (feed p1 cs) as [p2 rs']. destruct IH as [Hi2 IH].
    split; [done|]. unfold standing in Hd. destruct (error p) as [e|].
    + injection Hd as -> Hd. destruct (error p1); [|done]. injection Hd as ->.
      by injection IH as -> ->.
    + rewrite app_assoc, all_frames_app, <- Hd. destruct (error p1) as [e|].
      * injection IH as -> ->. by rewrite app_nil_r.
      * by rewrite <- IH.
Qed.

(** The incremental parser, on a stream that arrives in pieces of any sizes, returns exactly
    the records of the concatenated stream, and then holds exactly its incomplete last record or
    reports its first error: how a transport cuts the stream never matters. *)
Theorem parser_chunking (pieces : list (list byte)) :
  let '(p, rs) := feed new_parser pieces in (rs, standing p) = all_frames (concat pieces).
Proof.
  pose proof (feed_spec new_parser pieces parser_inv_new) as H.
  destruct (feed new_parser pieces) as [p rs]. by destruct H as [_ H].
Qed.

Lemma all_frames_encodings rs rest :
  Forall valid_record rs ->
  all_frames (concat (map encoding rs) ++ rest) =
  let '(rs', s) := all_frames rest in (rs ++ rs', s).
Proof.
  induction 1 as [|r rs Hv _ IH]; cbn [map concat app]; [by destruct (all_frames rest)|].
  rewrite all_frames_unfold, <- app_assoc, first_frame_encoding, IH by done.
  by destruct (all_frames rest).
Qed.

(** Any valid records, encoded one after another and delivered in pieces of any sizes, come
    out of the parser unchanged and in order, and leave it between records. *)
Theorem parser_roundtrip (rs : list NvxsRecord) (pieces : list (list byte)) :
  Forall valid_record rs -> concat pieces = concat (map encoding rs) ->
  let '(p, rs') := feed new_parser pieces in rs' = rs /\ standing p = inl [].
Proof.
  intros Hv Hp. pose proof (parser_inv_new) as Hi.
  pose proof (feed_spec new_parser pieces Hi) as H.
  destruct (feed new_parser pieces) as [p rs']. destruct H as [_ H].
  change (partial new_parser) with (@nil byte) in H. change (error new_parser) with (@None RecordError) in H.
  cbn iota in H.
  rewrite app_nil_l, Hp, <- (app_nil_r (concat (map encoding rs))), all_frames_encodings in H by done.
  change (all_frames []) with (@nil NvxsRecord, @inl (list byte) RecordError []) in H.
  cbn iota in H. rewrite app_nil_r in H. by injection H as -> ->.
Qed.

Lemma valid_sample_record : valid_record sample_record.
Proof. unfold valid_record, typed_record, is_u64. concrete. Qed.

Lemma parser_roundtrip_witness :
  let '(p, rs) := feed new_parser [ztake 3 (encoding sample_record); zdrop 3 (encoding sample_record)]
  in rs = [sample_record] /\ standing p = inl [].
Proof.
  apply (parser_roundtrip [sample_record]).
  - constructor; [apply valid_sample_record|constructor].
  - reflexivity.
Defined.

(** Every record that the parser returns is valid and re-encodes to the bytes that it came
    from: the stream is the encodings of the returned records followed by the bytes still held,
    so the parser accepts no second spelling of a record and never skips or repeats a byte. *)
Theorem parser_canonical (pieces : list (list byte)) :
  let '(p, rs) := feed new_parser pieces in
  Forall valid_record rs /\
  exists rest, concat pieces = concat (map encoding rs) ++ rest /\
    match standing p with
    | inl held => rest = held
    | inr e => first_frame rest = Malformed e
    end.
Proof.
  pose proof (feed_spec new_parser pieces parser_inv_new) as H.
  destruct (feed new_parser pieces) as [p rs]. destruct H as [_ H].
  change (error new_parser) with (@None RecordError) in H. cbn iota in H.
  change (partial new_parser ++ concat pieces) with (concat pieces) in H.
  revert rs H. generalize (standing p). generalize (concat pieces). clear. intros b s.
  induction b as [b IH] using (induction_ltof1 _ (@length byte)). unfold ltof in IH.
  intros rs. rewrite all_frames_unfold. destruct (first_frame b) as [|e|r rest] eqn:Hf.
  - intros [= -> ->]. split; [constructor|]. by exists b.
  - intros [= -> ->]. split; [constructor|]. by exists b.
  - pose proof (IH rest (first_frame_shrinks _ _ _ Hf)) as IHr.
    apply first_frame_sound in Hf as [Hv ->].
    destruct (all_frames rest) as [rs' s']. intros [= -> ->].
    destruct (IHr rs' eq_refl) as (Hvs & rest' & -> & Hs). split; [by constructor|].
    exists rest'. cbn. by rewrite app_assoc.
Qed.

(** A parser that has failed holds nothing. *)
Definition clean (p : RecordParser) : Prop := parser_inv p /\ (error p <> None -> buffered p = 0).

Lemma push_clean p input : clean p -> clean (push p input).1.
Proof.
  intros [Hi Hc]. destruct (error p) as [e|] eqn:He.
  { unfold push. rewrite He. split; [done|]. by cbn; intros; apply Hc. }
  pose proof (push_spec p input Hi He) as H.
  destruct (first_frame (partial p ++ input)) as [|e|r rest] eqn:Hff,
    (push p input) as [p' [[n [r'|]]|e']]; try done; cbn in *.
  - destruct H as (-> & Hi' & Hp' & He'). split; [done|]. by rewrite He'.
  - destruct H as (-> & He' & Hi' & Hp'). split; [done|]. by rewrite <- len_partial, Hp'.
  - destruct H as (_ & _ & _ & Hi' & _ & He'). split; [done|]. by rewrite He'.
Qed.

Lemma drain_clean fuel p input : clean p -> clean (drain fuel p input).1.
Proof.
  revert p input. induction fuel as [|fuel IH]; intros p input Hc; [done|].
  cbn [drain]. pose proof (push_clean p input Hc) as Hc'.
  destruct (push p input) as [p' [[n [r|]]|e]]; try done.
  specialize (IH p' (zdrop n input) Hc'). by destruct (drain fuel p' (zdrop n input)).
Qed.

Lemma feed_clean p pieces : clean p -> clean (feed p pieces).1.
Proof.
  revert p. induction pieces as [|c cs IH]; intros p Hc; [done|]. cbn [feed].
  pose proof (drain_clean (S (length c)) p c Hc) as Hc'.
  destruct (drain (S (length c)) p c) as [p1 rs]. specialize (IH p1 Hc').
  by destruct (feed p1 cs).
Qed.

Lemma clean_new : clean new_parser.
Proof. split; [apply parser_inv_new|done]. Qed.

Lemma parser_inv_body p h pl :
  parser_inv p -> body p = Some (h, pl) -> len pl < h_length h <= OUTER_MAX_PAYLOAD.
Proof.
  intros [Hh Hi] Hb. rewrite Hb in Hi. destruct Hi as (_ & Hp & ?).
  apply parse_header_sound in Hp as (_ & _ & _ & _ & Ha & _); [|done].
  apply allows_length_max in Ha. lia.
Qed.

Lemma parser_inv_bounds p :
  parser_inv p ->
  0 <= buffered p < OUTER_HEADER_LEN + OUTER_MAX_PAYLOAD /\ 1 <= needed p <= OUTER_MAX_PAYLOAD.
Proof.
  intros Hi. pose proof (parser_inv_body p) as Hl. pose proof Hi as [Hh Hb].
  unfold buffered, needed, OUTER_MAX_PAYLOAD, OUTER_HEADER_LEN in *.
  destruct (body p) as [[h pl]|].
  - specialize (Hl _ _ Hi eq_refl). len_facts. lia.
  - lia.
Qed.

(** The parser's buffer is bounded by one record and its input is never over-read: between
    calls it holds fewer bytes than a maximal record, asks for at least one and at most 65,536
    more, consumes no more than it was given, and once it has failed, every later call reports
    the same error and keeps nothing. *)
Theorem parser_bounded (pieces : list (list byte)) (input : list byte) :
  let '(p, _) := feed new_parser pieces in
  0 <= buffered p < OUTER_HEADER_LEN + OUTER_MAX_PAYLOAD /\ 1 <= needed p <= OUTER_MAX_PAYLOAD /\
  match push p input with
  | (_, Ok (n, _)) => error p = None /\ 0 <= n <= len input
  | (p', Err e) => error p' = Some e /\ buffered p' = 0 /\ forall e', error p = Some e' -> e' = e
  end.
Proof.
  pose proof (feed_clean new_parser pieces clean_new) as Hc.
  destruct (feed new_parser pieces) as [p rs]. cbn in Hc.
  pose proof (parser_inv_bounds p (proj1 Hc)) as [Hb Hn]. split_and!; try apply Hb; try apply Hn.
  pose proof (push_clean p input Hc) as [_ Hc']. destruct Hc as [Hi Hc].
  destruct (error p) as [e|] eqn:He.
  - unfold push. rewrite He. split_and!; [done|by apply Hc|congruence].
  - pose proof (push_spec p input Hi He) as H.
    destruct (first_frame (partial p ++ input)) as [|e|r rest] eqn:Hff,
      (push p input) as [p' [[n [r'|]]|e']]; try done; cbn in H, Hc'.
    + destruct H as (-> & _). split; [done|]. len_facts. lia.
    + destruct H as (-> & He' & _). split_and!; [done|apply Hc'; by rewrite He'|done].
    + destruct H as (_ & -> & Hr & _). split; [done|].
      apply (f_equal len) in Hr. len_lia.
Qed.
