(* ===== verification/Session.v ===== *)
(** * NVXS sessions: what both roles share (src/nvx-rs/src/protocol/nvxs/mod.rs)

    The identity of a session, its errors, the checks of a received record's sequence number and
    identity, and the encoding of the next record of a direction. [HostSession.v] and
    [GuestSession.v] model the two roles. *)

From S2P Require Import Prelude Outer NvxsRecord.

Record Identity := mkIdentity {
  id_instance : list byte;
  id_epoch : Z;
}.

#[export] Instance Identity_eq_dec : EqDecision Identity.
Proof. solve_decision. Defined.

Inductive SessionError : Type :=
| RecordFailure (e : RecordError)
| Unexpected (t : RecordType)
| MissingIdentity (t : RecordType)
| Instance_ (expected actual : list byte)
| Epoch (expected actual : Z)
| StaleEpoch (current actual : Z)
| Sequence (expected actual : Z)
| SequenceOverflow (t : RecordType)
| Window (window outstanding length : Z)
| CreditError (outstanding bytes : Z)
| Truncated (buffered : Z)
| InvalidState.

Definition record_identity (record : NvxsRecord) : option Identity :=
  if negb (bool_decide (instance_id record = zero_id)) && negb (epoch record =? 0)
  then Some {| id_instance := instance_id record; id_epoch := epoch record |}
  else None.

Definition next_sequence (sequence : Z) (t : RecordType) : result SessionError Z :=
  ok_or (checked_add U64_MAX sequence 1) (SequenceOverflow t).

Definition check_sequence (record : NvxsRecord) (expected : Z) : result SessionError unit :=
  if sequence record =? expected then Ok () else Err (Sequence expected (sequence record)).

Definition check_identity (record : NvxsRecord) (identity : Identity) : result SessionError unit :=
  if negb (bool_decide (instance_id record = id_instance identity))
  then Err (Instance_ (id_instance identity) (instance_id record))
  else if negb (epoch record =? id_epoch identity)
  then Err (Epoch (id_epoch identity) (epoch record))
  else Ok ().

(** [encode_next]: the advanced sequence number and the extended output, or nothing of either. *)
Definition encode_next (t : RecordType) (identity : Identity) (sequence : Z)
    (payload output : list byte) : result SessionError (Z * list byte) :=
  next ← next_sequence sequence t;
  output ← map_err RecordFailure
    (encode_record t (id_instance identity) (id_epoch identity) sequence payload output);
  Ok (next, output).

(** [encode_data]: the same, with the number of bytes taken from the front of [data]. *)
Definition encode_data (identity : Identity) (sequence : Z) (data output : list byte)
    : result SessionError (Z * (Z * list byte)) :=
  let taken := Z.min (len data) OUTER_MAX_PAYLOAD in
  '(sequence, output) ← encode_next Data identity sequence (ztake taken data) output;
  Ok (taken, (sequence, output)).

(** ** Facts about the shared steps *)

(** An identity that a session may hold: neither the instance ID nor the epoch is zero. *)
Definition valid_identity (i : Identity) : Prop :=
  len (id_instance i) = 16 /\ is_u64 (id_epoch i) /\ id_instance i <> zero_id /\ id_epoch i <> 0.

Definition carries (r : NvxsRecord) (i : Identity) : Prop :=
  instance_id r = id_instance i /\ epoch r = id_epoch i.

Lemma record_identity_some r i :
  record_identity r = Some i <->
  carries r i /\ id_instance i <> zero_id /\ id_epoch i <> 0.
Proof.
  unfold record_identity, carries. destruct i as [id e]. cbn.
  destruct (bool_decide (instance_id r = zero_id)) eqn:?, (epoch r =? 0) eqn:?; cbn;
    bool_to_prop; (split; [intros ?; simplify_eq|intros ([<- <-] & ? & ?)]); done.
Qed.

Lemma record_identity_valid r i :
  valid_record r -> record_identity r = Some i -> valid_identity i.
Proof.
  intros [(Hid & He & _) _] ([Hi Ho] & Hz & Hn)%record_identity_some.
  rewrite Hi in Hid. rewrite Ho in He. by split_and!.
Qed.

Lemma next_sequence_ok s t n :
  next_sequence s t = Ok n <-> n = s + 1 /\ s < U64_MAX.
Proof.
  unfold next_sequence. rewrite ok_or_ok. unfold checked_add.
  destruct (s + 1 <=? U64_MAX) eqn:?; bool_to_prop; naive_solver lia.
Qed.

Lemma check_sequence_ok r s u : check_sequence r s = Ok u <-> sequence r = s.
Proof.
  destruct u. unfold check_sequence. destruct (sequence r =? s) eqn:?; bool_to_prop; naive_solver.
Qed.

Lemma check_identity_ok r i u : check_identity r i = Ok u <-> carries r i.
Proof.
  destruct u. unfold check_identity, carries.
  destruct (bool_decide _) eqn:?, (epoch r =? id_epoch i) eqn:?; cbn; bool_to_prop; naive_solver.
Qed.

(** The record that a role with [identity] sends at [sequence]. *)
Definition sent_record (t : RecordType) (i : Identity) (s : Z) (p : list byte) : NvxsRecord :=
  mkRecord t (id_instance i) (id_epoch i) s p.

Lemma valid_identity_record t i s p :
  valid_identity i -> is_u64 s -> allows_length t (len p) = true -> check_payload t p = Ok () ->
  is_bootstrap t = false -> valid_record (sent_record t i s p).
Proof.
  intros (? & ? & _) Hs Hl Hp Hb. split; [by split_and!|]. split_and!; [done| |done].
  unfold check_bootstrap. cbn. by rewrite Hb.
Qed.

Lemma encode_next_ok t i s p out s' out' :
  is_bootstrap t = false ->
  encode_next t i s p out = Ok (s', out') <->
  s' = s + 1 /\ s < U64_MAX /\ allows_length t (len p) = true /\ check_payload t p = Ok ()
  /\ out' = out ++ encoding (sent_record t i s p).
Proof.
  intros Hb. unfold encode_next. rewrite result_bind_ok. setoid_rewrite next_sequence_ok.
  setoid_rewrite result_bind_ok. setoid_rewrite map_err_ok. setoid_rewrite encode_record_ok.
  unfold check_bootstrap. rewrite Hb. cbn. split.
  - intros (n & [-> ?] & o & (? & _ & ? & ->) & [= <- <-]). done.
  - intros (-> & ? & ? & ? & ->). eauto 12.
Qed.

Lemma encode_data_ok i s data out taken s' out' :
  encode_data i s data out = Ok (taken, (s', out')) <->
  taken = Z.min (len data) OUTER_MAX_PAYLOAD /\ data <> [] /\ s' = s + 1 /\ s < U64_MAX
  /\ out' = out ++ encoding (sent_record Data i s (ztake taken data)).
Proof.
  unfold encode_data. rewrite result_bind_ok. split.
  - intros ([n o] & H & [= <- <- <-]). apply encode_next_ok in H as (-> & ? & Hl & _ & ->); [|done].
    split_and!; try done. intros ->. done.
  - intros (-> & Hd & -> & ? & ->). eexists (_, _). split; [|done].
    apply encode_next_ok; [done|]. split_and!; try done.
    assert (len data <> 0) by (by rewrite len_zero_iff).
    cbn. unfold OUTER_MAX_PAYLOAD in *. apply andb_true_intro. rewrite !Z.leb_le. len_lia.
Qed.
