(* ===== verification/Stream.v ===== *)
(** * A session role on a byte stream

    Both roles' [receive] methods (src/nvx-rs/src/protocol/nvxs/host.rs, guest.rs) have one shape:
    push bytes into the role's parser, apply a completed record, and fail the session on an error.
    [Role] is the interface of that shape, with the laws that [HostSession.v] and [GuestSession.v]
    discharge, and [receive_pieces_spec] shows, for any role, that a stream in pieces of any
    sizes acts as the records of the whole stream do, one after another. *)

From S2P Require Import Prelude Outer NvxsRecord Session.

Class Role (S E : Type) := {
  role_parser : S -> RecordParser;
  set_parser : RecordParser -> S -> S;
  role_receiving : S -> bool;
  role_accept : S -> NvxsRecord -> result SessionError (S * E);
  role_fail : S -> S;
}.

Class RoleLaws (S E : Type) `{Role S E} := {
  parser_set : forall p s, role_parser (set_parser p s) = p;
  set_set : forall p q s, set_parser p (set_parser q s) = set_parser p s;
  set_same : forall s, set_parser (role_parser s) s = s;
  receiving_set : forall p s, role_receiving (set_parser p s) = role_receiving s;
  fail_set : forall p s, role_fail (set_parser p s) = set_parser p (role_fail s);
  fail_ends : forall s, role_receiving (role_fail s) = false;
  accept_set : forall p s r,
    role_accept (set_parser p s) r =
    match role_accept s r with
    | Ok (s', e) => Ok (set_parser p s', e)
    | Err e => Err e
    end;
}.

Section Stream.
  Context {S E : Type} `{RL : RoleLaws S E}.

  (** [receive] of either role. *)
Definition role_receive (self : S) (input : list byte)
      : S * result SessionError (Z * option E) :=
    if negb (role_receiving self) then (self, Err InvalidState)
    else
      let '(p, pushed) := push (role_parser self) input in
      let self := set_parser p self in
      match pushed with
      | Err e => (role_fail self, Err (RecordFailure e))
      | Ok (consumed, None) => (self, Ok (consumed, None))
      | Ok (consumed, Some record) =>
          match role_accept self record with
          | Err e => (role_fail self, Err e)
          | Ok (self, event) => (self, Ok (consumed, Some event))
          end
      end.

  (** A caller's loop over one piece of input: it stops at an error. *)
Fixpoint receive_all (fuel : nat) (self : S) (input : list byte)
      : S * list E * option SessionError :=
    match fuel, input with
    | O, _ | _, [] => (self, [], None)
    | Datatypes.S fuel, _ =>
        match role_receive self input with
        | (self, Err e) => (self, [], Some e)
        | (self, Ok (_, None)) => (self, [], None)
        | (self, Ok (n, Some event)) =>
            let '(self, events, err) := receive_all fuel self (zdrop n input) in
            (self, event :: events, err)
        end
    end.

  (** A stream that arrives as [pieces]. *)
Fixpoint receive_pieces (self : S) (pieces : list (list byte))
      : S * list E * option SessionError :=
    match pieces with
    | [] => (self, [], None)
    | c :: cs =>
        match receive_all (length c) self c with
        | (self, events, Some e) => (self, events, Some e)
        | (self, events, None) =>
            let '(self, events', err) := receive_pieces self cs in (self, events ++ events', err)
        end
    end.

  (** The records of a stream, applied one after another. *)
Fixpoint apply_records (self : S) (rs : list NvxsRecord) : S * list E * option SessionError :=
    match rs with
    | [] => (self, [], None)
    | r :: rs =>
        if negb (role_receiving self) then (self, [], Some InvalidState)
        else match role_accept self r with
        | Err e => (role_fail self, [], Some e)
        | Ok (self, event) =>
            let '(self, events, err) := apply_records self rs in (self, event :: events, err)
        end
    end.

  (** The effect of a whole stream [b] on a role, with no parser and no pieces: its records in
      order, then its malformed rest, if any. Bytes for a role that has ended are refused. *)
Definition apply_stream (self : S) (b : list byte) : S * list E * option SessionError :=
    let '(rs, rest) := all_frames b in
    match apply_records self rs with
    | (self, events, Some e) => (self, events, Some e)
    | (self, events, None) =>
        match rest with
        | inl [] => (self, events, None)
        | inl _ =>
            (self, events, if role_receiving self then None else Some InvalidState)
        | inr e =>
            if role_receiving self then (role_fail self, events, Some (RecordFailure e))
            else (self, events, Some InvalidState)
        end
    end.

  (** The incomplete record at the end of a stream. *)
Definition leftover (b : list byte) : list byte :=
    match all_frames b with (_, inl rest) => rest | (_, inr _) => [] end.

Definition prepend (events : list E) (r : S * list E * option SessionError)
      : S * list E * option SessionError :=
    let '(self, events', err) := r in (self, events ++ events', err).

Lemma all_frames_nil : all_frames [] = ([], inl []).
Proof. done. Qed.

Lemma apply_stream_step self b :
    apply_stream self b =
    if negb (role_receiving self) then
      (self, [], match b with [] => None | _ => Some InvalidState end)
    else match first_frame b with
    | Incomplete => (self, [], None)
    | Malformed e => (role_fail self, [], Some (RecordFailure e))
    | Complete r rest =>
        match role_accept self r with
        | Err e => (role_fail self, [], Some e)
        | Ok (self, event) => prepend [event] (apply_stream self rest)
        end
    end.
Proof.
  unfold apply_stream at 1. rewrite all_frames_unfold.
  destruct (role_receiving self) eqn:Hr; cbn [negb].
  - destruct (first_frame b) as [|e|r rest] eqn:Hf; cbn [apply_records]; rewrite ?Hr; cbn [negb].
    + by destruct b.
    + done.
    + destruct (all_frames rest) as [rs rest'] eqn:Ha. cbn [apply_records]. rewrite Hr. cbn [negb].
      destruct (role_accept self r) as [[s ev]|e]; [|done].
      unfold apply_stream. rewrite Ha.
      destruct (apply_records s rs) as [[s' evs] [e|]]; [done|].
      destruct rest' as [[|]|]; try done. by destruct (role_receiving s').
  - destruct (first_frame b) as [|e|r rest] eqn:Hf; cbn [apply_records]; rewrite ?Hr.
    + by destruct b.
    + by destruct b.
    + destruct (all_frames rest) as [rs rest']. cbn [apply_records]. rewrite Hr. cbn.
      by destruct b.
Qed.

Lemma leftover_step b :
    leftover b = match first_frame b with
                 | Incomplete => b
                 | Malformed _ => []
                 | Complete _ rest => leftover rest
                 end.
Proof.
  unfold leftover. rewrite all_frames_unfold. destruct (first_frame b) as [| |r rest]; try done.
  by destruct (all_frames rest) as [? []].
Qed.

Lemma prepend_app k l r : prepend k (prepend l r) = prepend (k ++ l) r.
Proof. destruct r as [[? ?] ?]. cbn. by rewrite app_assoc. Qed.

Lemma apply_stream_app self b c :
    apply_stream self (b ++ c) =
    match apply_stream self b with
    | (s, events, Some e) => (s, events, Some e)
    | (s, events, None) => prepend events (apply_stream s (leftover b ++ c))
    end.
Proof.
  revert self.
  induction b as [b IH] using (induction_ltof1 _ (@length byte)). unfold ltof in IH. intros self.
  rewrite (apply_stream_step self b), (apply_stream_step self (b ++ c)), leftover_step.
  destruct (role_receiving self) eqn:Hr; cbn [negb].
  - pose proof (first_frame_app b c) as Ha. destruct (first_frame b) as [|e|r rest] eqn:Hf.
    + rewrite apply_stream_step, Hr. cbn [negb].
      destruct (first_frame (b ++ c)); try done.
      destruct (role_accept self r) as [[s ev]|]; [|done].
      by destruct (apply_stream s rest) as [[? ?] ?].
    + by rewrite Ha.
    + rewrite Ha. destruct (role_accept self r) as [[s ev]|]; [|done].
      rewrite IH by (eapply first_frame_shrinks; eauto).
      destruct (apply_stream s rest) as [[s' evs] [e|]]; [done|].
      by rewrite prepend_app.
  - destruct b as [|x b]; [|done]. cbn [app first_frame].
    change (first_frame []) with Incomplete. cbn [app].
    rewrite apply_stream_step, Hr. cbn [negb prepend]. by destruct c.
Qed.

Definition map_session (f : S -> S) (r : S * list E * option SessionError)
      : S * list E * option SessionError :=
    let '(self, events, err) := r in (f self, events, err).

Lemma apply_records_set p self rs :
    apply_records (set_parser p self) rs = map_session (set_parser p) (apply_records self rs).
Proof.
  revert self. induction rs as [|r rs IH]; intros self; [done|]. cbn [apply_records].
  rewrite receiving_set, accept_set, fail_set. destruct (role_receiving self); [cbn|done].
  destruct (role_accept self r) as [[s ev]|e]; [|done]. rewrite IH.
  by destruct (apply_records s rs) as [[? ?] ?].
Qed.

Lemma apply_stream_set p self b :
    apply_stream (set_parser p self) b = map_session (set_parser p) (apply_stream self b).
Proof.
  unfold apply_stream. destruct (all_frames b) as [rs rest]. rewrite apply_records_set.
  destruct (apply_records self rs) as [[s evs] [e|]]; [done|]. cbn.
  rewrite receiving_set, fail_set. destruct rest as [[|]|]; try done.
  by destruct (role_receiving s).
Qed.

  (** A role between two calls: its parser is healthy, and holds nothing once the role ended. *)
Definition ready (self : S) : Prop :=
    parser_inv (role_parser self) /\ error (role_parser self) = None /\
    (role_receiving self = false -> partial (role_parser self) = []).

  (** What one call of the loop owes to [apply_stream] on the bytes [b] seen so far. *)
Definition agrees (self : S) (b : list byte) (r : S * list E * option SessionError) : Prop :=
    let '(s, events, err) := r in
    apply_stream self b = (set_parser (role_parser self) s, events, err) /\
    (err = None -> ready s /\ partial (role_parser s) = leftover b).

Lemma agrees_set p self b r : agrees (set_parser p self) b r <-> agrees self b r.
Proof.
  destruct r as [[s events] err]. unfold agrees. rewrite apply_stream_set.
  pose proof (apply_stream_set (role_parser self) self b) as Hs. rewrite set_same in Hs.
  destruct (apply_stream self b) as [[s' ev'] e']. cbn in *. injection Hs as Hs.
  rewrite parser_set. split; intros [H1 H2]; (split; [|done]).
  - injection H1 as H1 -> ->. rewrite Hs. f_equal. f_equal.
    rewrite <- (set_set _ p s), <- H1. by rewrite set_set.
  - injection H1 as -> -> ->. by rewrite set_set.
Qed.

Lemma agrees_nil self :
    ready self -> agrees self (partial (role_parser self) ++ []) (self, [], None).
Proof.
  intros Hr. pose proof Hr as (Hi & He & Ht). unfold agrees.
  rewrite app_nil_r, apply_stream_step, leftover_step, set_same, partial_incomplete by done.
  split; [|done]. destruct (role_receiving self) eqn:Hrec; [done|]. by rewrite Ht.
Qed.

Lemma consumed_shorter p input r rest n :
    parser_inv p -> first_frame (partial p ++ input) = Complete r rest -> rest = zdrop n input ->
    n = len input - len rest -> (length (zdrop n input) < length input)%nat.
Proof.
  intros Hi Hff Hrest Hn. apply first_frame_sound in Hff as [Hv Heq]. rewrite <- Hrest.
  destruct (decide (length rest < length input)%nat) as [|Hge]; [done|exfalso].
  assert (zdrop n input = input) as Hall by (apply zdrop_0; unfold len in Hn; lia).
  assert (partial p = encoding r) as Hpe.
  { apply (app_inv_tail input). by rewrite Heq, Hrest, Hall at 1. }
  pose proof (partial_incomplete p Hi) as Hinc.
  rewrite Hpe, <- (app_nil_r (encoding r)), first_frame_encoding in Hinc by done. done.
Qed.

Lemma receive_all_spec fuel self input :
    (length input <= fuel)%nat -> ready self ->
    agrees self (partial (role_parser self) ++ input) (receive_all fuel self input).
Proof.
  revert self input. induction fuel as [|fuel IH]; intros self input Hf Hready0.
  all: destruct input as [|x input']; [by apply agrees_nil|try (cbn in Hf; lia)].
  destruct Hready0 as (Hi & He & Ht).
  set (input := x :: input') in *. unfold agrees. cbn [receive_all].
  change (match input with [] => _ | _ :: _ => ?b end) with b.
  destruct (role_receiving self) eqn:Hr.
  2: { unfold role_receive. rewrite Hr. cbn [negb]. rewrite apply_stream_step, Hr, set_same.
       cbn [negb]. rewrite Ht by done. done. }
  unfold role_receive. rewrite Hr. cbn [negb]. rewrite apply_stream_step, Hr, leftover_step.
  cbn [negb]. pose proof (push_spec (role_parser self) input Hi He) as Hp.
  destruct (first_frame _) as [|e|r rest] eqn:Hff,
    (push (role_parser self) input) as [p' [[n [r'|]]|e']]; try done; cbn [push_agrees] in Hp.
  - destruct Hp as (-> & Hi' & Hp' & He'). rewrite set_set, set_same. split; [done|]. intros _.
    unfold ready. rewrite parser_set, receiving_set, Hr. done.
  - destruct Hp as (-> & _). rewrite fail_set, set_set. split; [|done].
    rewrite <- fail_set, set_same. done.
  - destruct Hp as (-> & Hn & Hrest & Hi' & Hp' & He'). rewrite accept_set.
    destruct (role_accept self r) as [[s ev]|e] eqn:Ha.
    2: { rewrite fail_set, set_set, <- fail_set, set_same. done. }
    assert (Hsame : set_parser (role_parser self) s = s).
    { pose proof (accept_set (role_parser self) self r) as Hs. rewrite set_same, Ha in Hs.
      by injection Hs as Hs. }
    assert (ready (set_parser p' s)) as Hready.
    { unfold ready. rewrite parser_set, receiving_set. by split_and!. }
    pose proof (consumed_shorter _ _ _ _ _ Hi Hff Hrest Hn) as Hlt.
    specialize (IH (set_parser p' s) (zdrop n input) ltac:(lia) Hready).
    rewrite parser_set, Hp', app_nil_l, <- Hrest, agrees_set in IH. rewrite <- Hrest.
    destruct (receive_all fuel (set_parser p' s) rest) as [[s' evs] err].
    destruct IH as [IH1 IH2]. split; [|done]. rewrite IH1. cbn. do 2 f_equal.
    rewrite <- Hsame, parser_set. done.
Qed.

Lemma malformed_fails self b rs e :
    all_frames b = (rs, inr e) -> forall s events, ~ apply_stream self b = (s, events, None).
Proof.
  intros Hf s events. unfold apply_stream. rewrite Hf.
  destruct (apply_records self rs) as [[s' ?] []]; [done|]. by destruct (role_receiving s').
Qed.

  (** A stream in pieces of any sizes acts on a role as the whole stream does. *)
Lemma receive_pieces_spec self pieces :
    ready self ->
    agrees self (partial (role_parser self) ++ concat pieces) (receive_pieces self pieces).
Proof.
  revert self. induction pieces as [|c cs IH]; intros self Hr; cbn [receive_pieces concat].
  { by apply agrees_nil. }
  pose proof (receive_all_spec (length c) self c ltac:(lia) Hr) as Hc.
  destruct (receive_all (length c) self c) as [[s evs] err].
  rewrite app_assoc. pose proof (apply_stream_app self (partial (role_parser self) ++ c) (concat cs))
    as Happ.
  destruct Hc as [Hc Hok]. rewrite Hc in Happ. destruct err as [e|].
  { split; [done|done]. }
  destruct (Hok eq_refl) as [Hrs Hp]. specialize (IH s Hrs).
  rewrite Hp in IH. destruct (receive_pieces s cs) as [[s' evs'] err'].
  destruct IH as [IH1 IH2]. rewrite apply_stream_set, IH1 in Happ. cbn in Happ.
  rewrite set_set in Happ. split; [done|]. intros He. destruct (IH2 He) as [? ->].
  split; [done|]. unfold leftover. rewrite (all_frames_app (partial (role_parser self) ++ c)).
  destruct (all_frames (partial (role_parser self) ++ c)) as [rs [rest|e]] eqn:Hf.
  - unfold leftover. rewrite ?Hf. by destruct (all_frames (rest ++ concat cs)) as [? []].
  - by destruct (malformed_fails _ _ _ _ Hf _ _ Hc).
Qed.
End Stream.

(** One push: the parser's invariant, and what it says about the reply. *)
Lemma push_keeps_inv p input p' r :
  parser_inv p -> push p input = (p', r) ->
  parser_inv p' /\
  (error p = None -> match r with
                     | Ok (n, o) => error p' = None /\ 0 <= n <= len input
                                    /\ forall rec, o = Some rec -> valid_record rec
                     | Err e => error p' = Some e
                     end).
Proof.
  intros Hi Hp. destruct (error p) as [e|] eqn:He.
  { unfold push in Hp. rewrite He in Hp. by injection Hp as <- <-. }
  pose proof (push_spec p input Hi He) as H. rewrite Hp in H.
  destruct (first_frame _) as [|e|rec rest] eqn:Hf, r as [[n [r|]]|e']; try done; cbn in H.
  - destruct H as (-> & ? & _ & ?). split; [done|]. intros _. split_and!; [done|len_facts; lia..|done].
  - destruct H as (-> & ? & ? & _). done.
  - destruct H as (-> & Hn & Hr & ? & _ & ?). split; [done|]. intros _.
    apply first_frame_sound in Hf as [Hv _]. apply (f_equal len) in Hr.
    split_and!; [done|len_lia..|]. by intros ? [= <-].
Qed.
