(* ===== verification/HostSession.v ===== *)
(** * The host's role in an NVXS session (src/nvx-rs/src/protocol/nvxs/host.rs)

    The session's state machine, method by method, and what it promises: which byte streams from
    the broker it accepts and with which events, what it writes, and how it fails. *)

From S2P Require Import Prelude Outer NvxsRecord Session Stream.

Inductive HostState : Type :=
| Detached | Attaching | Attached | Rejected | ResetState | Closed | Failed.

#[export] Instance HostState_eq_dec : EqDecision HostState.
Proof. solve_decision. Defined.

Inductive HostEvent : Type :=
| EventWait
| EventAttached (identity : Identity)
| EventRejected (code : ErrorCode)
| EventData (payload : list byte)
| EventReset (identity : Identity).

Record HostSession := mkHostSession {
  state : HostState;
  parser : RecordParser;
  identity : option Identity;
  receive_sequence : Z;
  send_sequence : Z;
}.

#[export] Instance eta_HostSession : Eta HostSession := fun s =>
  mkHostSession (state s) (parser s) (identity s) (receive_sequence s) (send_sequence s).

(** [HostSession::new]. *)
Definition new_host : HostSession :=
  {| state := Detached; parser := new_parser; identity := None;
     receive_sequence := 0; send_sequence := 0 |}.

(** [HostSession::fail]: ends the session. *)
Definition fail_host (self : HostSession) : HostSession := self <| state := Failed |>.

(** [HostSession::attach]. *)
Definition attach (self : HostSession) (capability output : list byte)
    : HostSession * list byte * result SessionError unit :=
  if negb (bool_decide (state self = Detached)) then (self, output, Err InvalidState)
  else match encode_record HostAttach zero_id 0 0 capability output with
  | Err e => (self, output, Err (RecordFailure e))
  | Ok output => (self <| state := Attaching |>, output, Ok ())
  end.

(** The record types that a state of [HostSession::accept] allows. *)
Definition allowed (s : HostState) (t : RecordType) : bool :=
  match s with
  | Attaching => match t with Wait | Ready | Error => true | _ => false end
  | Attached => match t with Data | Reset => true | _ => false end
  | _ => false
  end.

(** [HostSession::accept]. Every assignment follows the last check, so an error changes nothing. *)
Definition accept (self : HostSession) (record : NvxsRecord)
    : result SessionError (HostSession * HostEvent) :=
  let t := record_type record in
  if negb (allowed (state self) t) then Err (Unexpected t)
  else
    _ ← check_sequence record (receive_sequence self);
    next ← next_sequence (receive_sequence self) t;
    '(self, event) ←
      match t, identity self with
      | Wait, _ => Ok (self, EventWait)
      | Ready, _ =>
          identity' ← ok_or (record_identity record) (MissingIdentity t);
          Ok (self <| identity := Some identity' |> <| state := Attached |>,
              EventAttached identity')
      | Error, _ =>
          code ← ok_or (record_error_code record) (Unexpected t);
          Ok (self <| state := Rejected |>, EventRejected code)
      | Data, Some identity =>
          _ ← check_identity record identity;
          Ok (self, EventData (payload record))
      | Reset, Some identity =>
          reset ← ok_or (record_identity record) (MissingIdentity t);
          if negb (bool_decide (id_instance reset = id_instance identity))
          then Err (Instance_ (id_instance identity) (id_instance reset))
          else if id_epoch reset <=? id_epoch identity
          then Err (StaleEpoch (id_epoch identity) (id_epoch reset))
          else Ok (self <| state := ResetState |>, EventReset reset)
      | _, _ => Err (Unexpected t)
      end;
    Ok (self <| receive_sequence := next |>, event).

Definition receiving (s : HostState) : bool :=
  match s with Attaching | Attached => true | _ => false end.

(** [HostSession::receive]. *)
Definition receive (self : HostSession) (input : list byte)
    : HostSession * result SessionError (Z * option HostEvent) :=
  if negb (receiving (state self)) then (self, Err InvalidState)
  else
    let '(p, pushed) := push (parser self) input in
    let self := self <| parser := p |> in
    match pushed with
    | Err e => (fail_host self, Err (RecordFailure e))
    | Ok (consumed, None) => (self, Ok (consumed, None))
    | Ok (consumed, Some record) =>
        match accept self record with
        | Err e => (fail_host self, Err e)
        | Ok (self, event) => (self, Ok (consumed, Some event))
        end
    end.

(** [HostSession::send]. *)
Definition send (self : HostSession) (data output : list byte)
    : HostSession * list byte * result SessionError Z :=
  match state self, identity self with
  | Attached, Some identity =>
      match encode_data identity (send_sequence self) data output with
      | Err e => (self, output, Err e)
      | Ok (taken, (sequence, output)) =>
          (self <| send_sequence := sequence |>, output, Ok taken)
      end
  | _, _ => (self, output, Err InvalidState)
  end.

(** [HostSession::disconnect]. *)
Definition disconnect (self : HostSession) : HostSession * result SessionError unit :=
  match state self with
  | Detached | Attaching | Attached =>
      let buffered := buffered (parser self) in
      if negb (buffered =? 0) then (fail_host self, Err (Truncated buffered))
      else (self <| state := Closed |>, Ok ())
  | _ => (self, Ok ())
  end.

(** ** The host as a role on a byte stream *)

#[export] Instance host_role : Role HostSession HostEvent := {
  role_parser := parser;
  set_parser p s := s <| parser := p |>;
  role_receiving s := receiving (state s);
  role_accept := accept;
  role_fail := fail_host;
}.

(** Splits a step of [accept] along its checks. *)
Ltac accept_cases :=
  unfold accept in *; cbn in *;
  repeat match goal with
  | |- context [allowed ?s ?t] => destruct (allowed s t) eqn:?; cbn in *; try done
  | |- context [check_sequence ?r ?s] => destruct (check_sequence r s) eqn:?; cbn in *; try done
  | |- context [next_sequence ?s ?t] => destruct (next_sequence s t) eqn:?; cbn in *; try done
  end.

#[export] Instance host_role_laws : RoleLaws HostSession HostEvent.
Proof.
  split; try (by intros; repeat match goal with s : HostSession |- _ => destruct s end).
  intros p s r. cbn. accept_cases.
  destruct (record_type r), (identity s); cbn; try done;
    destruct (record_identity r) as [i'|]; try destruct (record_error_code r);
    try destruct (check_identity r i); cbn; try done; by split_matches.
Qed.

Lemma host_receive_is_role_receive self input : receive self input = role_receive self input.
Proof. done. Qed.

(** A session that has attached, at the start of the broker's stream. *)
Definition attached_host : HostSession := new_host <| state := Attaching |>.

Lemma ready_attached_host : ready attached_host.
Proof. split_and!; [apply parser_inv_new|done|done]. Qed.

(** ** Which streams the host accepts *)

(** Records of one type with consecutive sequence numbers from [s] on. *)
Fixpoint numbered (t : RecordType) (s : Z) (rs : list NvxsRecord) : Prop :=
  match rs with
  | [] => True
  | r :: rs => record_type r = t /\ sequence r = s /\ numbered t (s + 1) rs
  end.

(** The broker's stream after READY attached the host to session [i]: DATA of that session, then
    perhaps the RESET that starts a later epoch of the same instance. *)
Definition attached_stream (i : Identity) (s : Z) (rs : list NvxsRecord) (events : list HostEvent)
    (last : HostState) : Prop :=
  exists ds, numbered Data s ds /\ Forall (fun r => carries r i) ds /\
    ((rs = ds /\ events = map (fun r => EventData (payload r)) ds /\ last = Attached) \/
     exists r new,
       rs = ds ++ [r] /\ record_type r = Reset /\ sequence r = s + len ds
       /\ record_identity r = Some new /\ id_instance new = id_instance i
       /\ id_epoch i < id_epoch new
       /\ events = map (fun r => EventData (payload r)) ds ++ [EventReset new]
       /\ last = ResetState).

(** The broker's whole stream: WAITs, then perhaps an ERROR that refuses the host, or a READY. *)
Definition broker_stream (s : Z) (rs : list NvxsRecord) (events : list HostEvent)
    (last : HostState) : Prop :=
  exists ws, numbered Wait s ws /\
    ((rs = ws /\ events = map (fun _ => EventWait) ws /\ last = Attaching) \/
     (exists r, rs = ws ++ [r] /\ record_type r = Error /\ sequence r = s + len ws
        /\ events = map (fun _ => EventWait) ws ++ [EventRejected Authentication]
        /\ last = Rejected) \/
     (exists r i ds events',
        rs = ws ++ r :: ds /\ record_type r = Ready /\ sequence r = s + len ws
        /\ record_identity r = Some i
        /\ events = map (fun _ => EventWait) ws ++ EventAttached i :: events'
        /\ attached_stream i (s + len ws + 1) ds events' last)).

(** One accepted record, by its type. *)
Lemma host_accept_inv self r self' e :
  accept self r = Ok (self', e) ->
  sequence r = receive_sequence self /\ receive_sequence self < U64_MAX /\
  match record_type r with
  | Wait => state self = Attaching /\ e = EventWait
            /\ self' = self <| receive_sequence := receive_sequence self + 1 |>
  | Error => state self = Attaching /\ e = EventRejected Authentication
      /\ self' = self <| state := Rejected |> <| receive_sequence := receive_sequence self + 1 |>
  | Ready => state self = Attaching /\ exists i, record_identity r = Some i /\ e = EventAttached i
      /\ self' = self <| identity := Some i |> <| state := Attached |>
                      <| receive_sequence := receive_sequence self + 1 |>
  | Data => state self = Attached /\ exists i, identity self = Some i /\ carries r i
      /\ e = EventData (payload r)
      /\ self' = self <| receive_sequence := receive_sequence self + 1 |>
  | Reset => state self = Attached /\ exists i new, identity self = Some i
      /\ record_identity r = Some new /\ id_instance new = id_instance i
      /\ id_epoch i < id_epoch new /\ e = EventReset new
      /\ self' = self <| state := ResetState |> <| receive_sequence := receive_sequence self + 1 |>
  | _ => False
  end.
Proof.
  unfold accept. destruct (allowed _ _) eqn:Ha; [cbn|done]. intros H. inv_ok.
  match goal with H : check_sequence _ _ = Ok _ |- _ => apply check_sequence_ok in H end.
  match goal with H : next_sequence _ _ = Ok _ |- _ => apply next_sequence_ok in H as [-> ?] end.
  split_and!; [done..|].
  destruct (record_type r), (state self) eqn:Hst; try done; cbn in *;
    destruct (identity self) as [i|] eqn:Hid; try done; cbn in *; split_matches; inv_ok;
    try match goal with x : ErrorCode |- _ => destruct x end;
    try match goal with H : check_identity _ _ = Ok _ |- _ => apply check_identity_ok in H end;
    bool_to_prop; eauto 12.
Qed.

Lemma valid_error_code r :
  valid_record r -> record_type r = Error -> record_error_code r = Some Authentication.
Proof.
  intros (_ & _ & _ & Hp) Ht. unfold record_error_code. rewrite Ht, decide_True by done.
  rewrite Ht in Hp. cbn in Hp. by destruct (error_code_from_code _) as [[]|].
Qed.

(** The converse: a record with the right type, sequence number and identity is accepted. *)
Lemma accept_intro self r :
  valid_record r -> sequence r = receive_sequence self -> receive_sequence self < U64_MAX ->
  let next s := s <| receive_sequence := receive_sequence self + 1 |> in
  (state self = Attaching -> record_type r = Wait -> accept self r = Ok (next self, EventWait)) /\
  (state self = Attaching -> record_type r = Error ->
     accept self r = Ok (next (self <| state := Rejected |>), EventRejected Authentication)) /\
  (forall i, state self = Attaching -> record_type r = Ready -> record_identity r = Some i ->
     accept self r
     = Ok (next (self <| identity := Some i |> <| state := Attached |>), EventAttached i)) /\
  (forall i, state self = Attached -> identity self = Some i -> record_type r = Data ->
     carries r i -> accept self r = Ok (next self, EventData (payload r))) /\
  (forall i new, state self = Attached -> identity self = Some i -> record_type r = Reset ->
     record_identity r = Some new -> id_instance new = id_instance i ->
     id_epoch i < id_epoch new ->
     accept self r = Ok (next (self <| state := ResetState |>), EventReset new)).
Proof.
  intros Hv Hs Hu next.
  assert (Hc : check_sequence r (receive_sequence self) = Ok ()) by by apply check_sequence_ok.
  assert (Hn : forall t, next_sequence (receive_sequence self) t = Ok (receive_sequence self + 1))
    by (intros; by apply next_sequence_ok).
  split_and!; intros; unfold accept; repeat match goal with H : ?l = _ |- context [?l] => rewrite H end;
    cbn; rewrite ?Hc, ?Hn; cbn; try done;
    repeat match goal with H : ?l = _ |- context [?l] => rewrite H end; try done.
  - by rewrite valid_error_code.
  - by rewrite (proj2 (check_identity_ok r i ()) H2).
  - rewrite bool_decide_eq_true_2 by done. cbn.
    by rewrite (proj2 (Z.leb_gt _ _) H4).
Qed.

(** Once the broker's stream ended the session, no further record is accepted. *)
Lemma apply_ended self rs self' events :
  receiving (state self) = false -> apply_records self rs = (self', events, None) ->
  rs = [] /\ self' = self /\ events = [].
Proof.
  intros Hr. destruct rs as [|r rs]; cbn; [by intros [= -> ->]|]. by rewrite Hr.
Qed.

(** One step of [apply_records] that succeeds. *)
Lemma apply_cons_ok self r rs self' events :
  apply_records self (r :: rs) = (self', events, None) <->
  exists s e events', accept self r = Ok (s, e) /\ apply_records s rs = (self', events', None)
    /\ events = e :: events'.
Proof.
  cbn. destruct (receiving (state self)) eqn:Hr; cbn.
  - destruct (accept self r) as [[s e]|].
    + destruct (apply_records s rs) as [[s' evs] err] eqn:Hs. split.
      * intros [= -> <- ->]. by eexists _, _, _.
      * intros (? & ? & ? & [= <- <-] & Hs' & ->). rewrite Hs in Hs'. by simplify_eq.
    + split; [done|]. by intros (? & ? & ? & ? & _).
  - split; [done|]. intros (s & e & ? & Ha & _). apply host_accept_inv in Ha as (_ & _ & Ha).
    by destruct (record_type r), (state self); destruct_and?.
Qed.

Lemma attached_stream_nil i s events last :
  attached_stream i s [] events last <-> events = [] /\ last = Attached.
Proof.
  split.
  - intros (ds & _ & _ & [(<- & -> & ->)|(r & new & Hr & _)]); [done|by destruct ds].
  - intros [-> ->]. exists []. by split_and!; [| |left].
Qed.

Lemma attached_stream_cons i s r rs events last :
  attached_stream i s (r :: rs) events last <->
  sequence r = s /\
  ((record_type r = Data /\ carries r i /\ exists events',
      events = EventData (payload r) :: events' /\ attached_stream i (s + 1) rs events' last) \/
   (record_type r = Reset /\ rs = [] /\ exists new, record_identity r = Some new
      /\ id_instance new = id_instance i /\ id_epoch i < id_epoch new
      /\ events = [EventReset new] /\ last = ResetState)).
Proof.
  split.
  - intros ([|d ds] & Hnum & Hcs & Hcase).
    + destruct Hcase as [(? & _)|(r' & new & [= -> ->] & Ht & Hseq & Hn & Hi & He & -> & ->)];
        [done|].
      split; [len_lia|]. right. eauto 10.
    + cbn in Hnum. destruct Hnum as (Ht & Hseq & Hnum). inv Hcs.
      destruct Hcase as [([= -> ->] & -> & ->)|(r' & new & [= -> ->] & ? & ? & ? & ? & ? & -> & ->)];
        (split; [done|]); left; (split_and!; [done..|]); (eexists; split; [reflexivity|]);
        exists ds; (split_and!; [done..|]); [by left|right; exists r', new].
      split_and!; try done; len_lia.
  - intros [Hs [(Ht & Hc & evs & -> & ds & Hn & Hcs & Hcase)
               |(Ht & -> & new & ? & ? & ? & -> & ->)]].
    + exists (r :: ds). split_and!; [done|by constructor|].
      destruct Hcase as [(-> & -> & ->)|(r' & new & -> & ? & ? & ? & ? & ? & -> & ->)]; [by left|].
      right. exists r', new. split_and!; try done; len_lia.
    + exists []. split_and!; [done..|]. right. exists r, new. split_and!; try done; len_lia.
Qed.

Lemma attached_language rs : forall self i events last,
  Forall valid_record rs -> state self = Attached -> identity self = Some i ->
  receive_sequence self <= U64_MAX ->
  (exists self', apply_records self rs = (self', events, None) /\ state self' = last) <->
  attached_stream i (receive_sequence self) rs events last
  /\ receive_sequence self + len rs <= U64_MAX.
Proof.
  induction rs as [|r rs IH]; intros self i events last Hv Hst Hid Hu.
  { rewrite attached_stream_nil. split.
    - intros (s & [= <- <-] & <-). split; [done|len_lia].
    - intros [[-> ->] _]. by exists self. }
  inv Hv. rewrite attached_stream_cons. setoid_rewrite apply_cons_ok.
  set (self1 := self <| receive_sequence := receive_sequence self + 1 |>) in *.
  assert (Hnext : forall evs, receive_sequence self < U64_MAX ->
    (exists self', apply_records self1 rs = (self', evs, None) /\ state self' = last) <->
    attached_stream i (receive_sequence self + 1) rs evs last
    /\ receive_sequence self + 1 + len rs <= U64_MAX).
  { intros evs Hlt. apply (IH self1); [done..|]. cbn. lia. }
  split.
  - intros (s & (s1 & e & evs & Ha & Hrs & ->) & Hl).
    apply host_accept_inv in Ha as (Hseq & Hlt & Ha).
    destruct (record_type r) eqn:Ht; try done; try (destruct_and?; congruence); destruct Ha as [_ Ha].
    + destruct Ha as (i' & new & Hi & Hnew & Hinst & Hep & -> & ->).
      apply apply_ended in Hrs as (-> & -> & ->); [|done]. cbn in Hl. subst last.
      rewrite Hid in Hi. injection Hi as <-. split; [|len_lia]. split; [done|]. right. eauto 10.
    + destruct Ha as (i' & Hi & Hc & -> & ->). rewrite Hid in Hi. injection Hi as <-.
      destruct (proj1 (Hnext evs Hlt)) as [? ?]; [by eexists|].
      split; [|len_lia]. split; [done|]. left. eauto 10.
  - intros [[Hseq Hcase] Hlen]. assert (receive_sequence self < U64_MAX) by len_lia.
    destruct (accept_intro self r) as (_ & _ & _ & Hd & Hr); [done..|].
    destruct Hcase as [(Ht & Hc & evs & -> & Hs)|(Ht & -> & new & ? & ? & ? & -> & ->)].
    + destruct (proj2 (Hnext evs ltac:(done))) as (s' & ? & ?); [split; [done|len_lia]|].
      exists s'. split; [|done]. rewrite (Hd i) by done. eauto 10.
    + eexists. rewrite (Hr i new) by done. split; [by eexists _, _, []|done].
Qed.

Lemma broker_stream_nil s events last :
  broker_stream s [] events last <-> events = [] /\ last = Attaching.
Proof.
  split.
  - intros ([|] & _ & [(? & -> & ->)|[(? & ? & _)|(? & ? & ? & ? & ? & _)]]); done.
  - intros [-> ->]. exists []. split; [done|]. by left.
Qed.

Lemma broker_stream_cons s r rs events last :
  broker_stream s (r :: rs) events last <->
  sequence r = s /\
  ((record_type r = Wait /\ exists events',
      events = EventWait :: events' /\ broker_stream (s + 1) rs events' last) \/
   (record_type r = Error /\ rs = [] /\ events = [EventRejected Authentication]
      /\ last = Rejected) \/
   (record_type r = Ready /\ exists i events', record_identity r = Some i
      /\ events = EventAttached i :: events' /\ attached_stream i (s + 1) rs events' last)).
Proof.
  split.
  - intros ([|w ws] & Hn & Hcase); cbn [numbered app map] in *.
    + destruct Hcase as [(? & _)|[(r' & [= -> ->] & ? & ? & -> & ->)
                                 |(r' & i & ds & evs & [= -> ->] & ? & ? & ? & -> & ?)]]; [done|..];
        (split; [len_lia|]); right; [by left|right].
      rewrite len_nil, Z.add_0_r in *. eauto 10.
    + destruct Hn as (? & ? & Hn).
      destruct Hcase as [([= -> ->] & -> & ->)|[(r' & [= -> ->] & ? & ? & -> & ->)
                                 |(r' & i & ds & evs & [= -> ->] & ? & ? & ? & -> & Ha)]];
        (split; [done|]); left; (split; [done|]); (eexists; split; [reflexivity|]);
        exists ws; (split; [done|]); [by left|right; left|right; right].
      * exists r'. split_and!; try done; len_lia.
      * exists r', i, ds, evs. split_and!; try done; [len_lia|].
        rewrite len_cons, Z.add_assoc in Ha. done.
  - intros [Hs [(Ht & evs & -> & ws & Hn & Hcase)|[(Ht & -> & -> & ->)|(Ht & i & evs & Hi & -> & Ha)]]].
    + exists (r :: ws). split; [done|].
      destruct Hcase as [(-> & -> & ->)|[(r' & -> & ? & ? & -> & ->)
                                 |(r' & i & ds & evs' & -> & ? & ? & ? & -> & Ha)]]; [by left|..];
        right; [left; exists r'|right; exists r', i, ds, evs'];
        split_and!; try done; [len_lia..|]. by rewrite len_cons, Z.add_assoc.
    + exists []. split; [done|]. right. left. exists r. split_and!; try done; len_lia.
    + exists []. split; [done|]. right. right. exists r, i, rs, evs.
      rewrite len_nil, Z.add_0_r. by split_and!.
Qed.

Lemma broker_language rs : forall self events last,
  Forall valid_record rs -> state self = Attaching -> receive_sequence self <= U64_MAX ->
  (exists self', apply_records self rs = (self', events, None) /\ state self' = last) <->
  broker_stream (receive_sequence self) rs events last
  /\ receive_sequence self + len rs <= U64_MAX.
Proof.
  induction rs as [|r rs IH]; intros self events last Hv Hst Hu.
  { rewrite broker_stream_nil. split.
    - intros (s & [= <- <-] & <-). split; [done|len_lia].
    - intros [[-> ->] _]. by exists self. }
  inv Hv. rewrite broker_stream_cons. setoid_rewrite apply_cons_ok.
  set (self1 := self <| receive_sequence := receive_sequence self + 1 |>) in *.
  pose (attach_to i := self <| identity := Some i |> <| state := Attached |>
                            <| receive_sequence := receive_sequence self + 1 |>).
  assert (Hwait := fun evs => IH self1 evs last ltac:(done) Hst).
  assert (Hready := fun i evs => attached_language rs (attach_to i) i evs last ltac:(done) eq_refl eq_refl).
  cbn in Hwait, Hready. split.
  - intros (s & (s1 & e & evs & Ha & Hrs & ->) & Hl).
    apply host_accept_inv in Ha as (Hseq & Hlt & Ha).
    destruct (record_type r) eqn:Ht; try done; destruct Ha as [Hst' Ha]; try congruence.
    + destruct Ha as [-> ->]. destruct (proj1 (Hwait evs ltac:(lia))) as [? ?]; [by eexists|].
      split; [|len_lia]. split; [done|]. left. eauto.
    + destruct Ha as (i & Hi & -> & ->).
      destruct (proj1 (Hready i evs ltac:(lia))) as [? ?]; [by eexists|].
      split; [|len_lia]. split; [done|]. right; right. eauto 10.
    + destruct Ha as [-> ->]. apply apply_ended in Hrs as (-> & -> & ->); [|done]. cbn in Hl.
      subst last. split; [|len_lia]. split; [done|]. right; left. done.
  - intros [[Hseq Hcase] Hlen]. assert (receive_sequence self < U64_MAX) by len_lia.
    destruct (accept_intro self r) as (Hw & He & Hr & _); [done..|].
    destruct Hcase as [(Ht & evs & -> & Hs)|[(Ht & -> & -> & ->)|(Ht & i & evs & Hi & -> & Ha)]].
    + destruct (proj2 (Hwait evs ltac:(lia))) as (s' & ? & ?); [split; [done|len_lia]|].
      exists s'. rewrite Hw by done. eauto 10.
    + eexists. rewrite He by done. split; [by eexists _, _, []|done].
    + destruct (proj2 (Hready i evs ltac:(lia))) as (s' & ? & ?); [split; [done|len_lia]|].
      exists s'. rewrite (Hr i) by done. eauto 10.
Qed.

(** C8: However the transport cuts the broker's byte stream into pieces, an attached host's
    [receive] loop ends with the events, the error and the state (identity and sequence numbers
    included) of applying the stream's records one after another: no event is lost, repeated,
    reordered or split by a partial read, and a malformed record fails the session exactly where
    the stream has it. *)
Theorem host_receive_refines (pieces : list (list byte)) :
  let '(s, events, err) := receive_pieces attached_host pieces in
  apply_stream attached_host (concat pieces) = (s <| parser := new_parser |>, events, err).
Proof.
  pose proof (receive_pieces_spec attached_host pieces ready_attached_host) as H.
  destruct (receive_pieces attached_host pieces) as [[s events] err]. apply H.
Qed.

Lemma apply_stream_encodings (self : HostSession) rs :
  Forall valid_record rs -> apply_stream self (concat (map encoding rs)) = apply_records self rs.
Proof.
  intros Hv. unfold apply_stream.
  rewrite <- (app_nil_r (concat (map encoding rs))), all_frames_encodings by done.
  change (all_frames []) with (@nil NvxsRecord, @inl (list byte) RecordError []). cbn iota.
  rewrite app_nil_r. by destruct (apply_records self rs) as [[? ?] []].
Qed.

(** The host accepts exactly the documented streams of the broker. For well-formed records in
    pieces of any sizes, the session takes all of them without an error if and only if they are
    WAITs from sequence 0, then nothing, or an ERROR (the host is rejected), or a READY with an
    identity followed by DATA of that identity, in sequence, and perhaps one RESET to a later
    epoch of the same instance; the events are then the records' own, in order. Every duplicate,
    gap, reordering, foreign identity or misplaced record is refused. *)
Theorem host_accepts_exactly (rs : list NvxsRecord) (pieces : list (list byte))
    (events : list HostEvent) (last : HostState) :
  Forall valid_record rs -> concat pieces = concat (map encoding rs) ->
  (exists s, receive_pieces attached_host pieces = (s, events, None) /\ state s = last) <->
  broker_stream 0 rs events last /\ len rs <= U64_MAX.
Proof.
  intros Hv Hp. pose proof (broker_language rs attached_host events last Hv eq_refl) as Hl.
  cbn in Hl. rewrite <- Hl by (unfold U64_MAX; lia).
  pose proof (receive_pieces_spec attached_host pieces ready_attached_host) as H.
  change (partial _ ++ ?b) with b in H. rewrite Hp in H.
  destruct (receive_pieces attached_host pieces) as [[s evs] err]. destruct H as [H _].
  rewrite apply_stream_encodings in H by done. rewrite H. split.
  - intros (s' & [= <- <- ->] & <-). by eexists.
  - intros (s' & [= <- <- ->] & <-). by exists s.
Qed.

Definition sample_identity : Identity := mkIdentity (replicate 16 (byte_of 9)) 1.
Definition sample_stream : list NvxsRecord :=
  [mkRecord Wait zero_id 0 0 []; sent_record Ready sample_identity 1 [];
   sent_record Data sample_identity 2 (bytes_of "hi")].

Lemma host_accepts_exactly_witness :
  exists s, receive_pieces attached_host
              [ztake 50 (concat (map encoding sample_stream));
               zdrop 50 (concat (map encoding sample_stream))]
            = (s, [EventWait; EventAttached sample_identity; EventData (bytes_of "hi")], None)
            /\ state s = Attached.
Proof.
  apply (host_accepts_exactly sample_stream).
  - repeat constructor; vm_compute; (reflexivity || discriminate).
  - reflexivity.
  - split; [|vm_compute; discriminate]. exists [mkRecord Wait zero_id 0 0 []]. split; [by split_and!|].
    right. right. eexists _, sample_identity, _, _. split_and!; try reflexivity.
    exists [sent_record Data sample_identity 2 (bytes_of "hi")].
    split_and!; [done..|repeat constructor|by left].
Defined.

(** ** Any sequence of calls *)

Inductive host_op : Type :=
| OpAttach (capability : list byte)
| OpReceive (input : list byte)
| OpSend (data : list byte)
| OpDisconnect.

Inductive host_reply : Type :=
| Done
| Received (consumed : Z) (event : option HostEvent)
| Taken (n : Z).

(** One call on the session and the caller's output buffer. *)
Definition host_call (self : HostSession) (out : list byte) (op : host_op)
    : HostSession * list byte * result SessionError host_reply :=
  match op with
  | OpAttach capability =>
      let '(self, out, r) := attach self capability out in (self, out, _ ← r; Ok Done)
  | OpReceive input =>
      let '(self, r) := receive self input in (self, out, '(n, e) ← r; Ok (Received n e))
  | OpSend data =>
      let '(self, out, r) := send self data out in (self, out, n ← r; Ok (Taken n))
  | OpDisconnect => let '(self, r) := disconnect self in (self, out, _ ← r; Ok Done)
  end.

(** Calls in order, with each call's reply. *)
Definition host_trace : Type := list (host_op * result SessionError host_reply).

Inductive host_run : HostSession -> list byte -> host_trace -> Prop :=
| run_new : host_run new_host [] []
| run_call self out tr op self' out' r :
    host_run self out tr -> host_call self out op = (self', out', r) ->
    host_run self' out' (tr ++ [(op, r)]).

(** The application bytes that successful sends took. *)
Definition sent_bytes (tr : host_trace) : list byte :=
  concat (map (fun c => match c with (OpSend data, Ok (Taken n)) => ztake n data | _ => [] end) tr).

Lemma host_sent_bytes_snoc tr c :
  sent_bytes (tr ++ [c]) =
  sent_bytes tr ++ match c with (OpSend data, Ok (Taken n)) => ztake n data | _ => [] end.
Proof. unfold sent_bytes. by rewrite map_app, concat_app; cbn; rewrite app_nil_r. Qed.

(** The invariant of a session that any calls reached. *)
Record host_inv (self : HostSession) : Prop := {
  inv_parser : parser_inv (parser self);
  inv_healthy : receiving (state self) = true -> error (parser self) = None;
  inv_receive : is_u64 (receive_sequence self);
  inv_send : is_u64 (send_sequence self);
  inv_identity : forall i, identity self = Some i -> valid_identity i;
  inv_before : match state self with
               | Detached => identity self = None /\ send_sequence self = 0
                             /\ receive_sequence self = 0 /\ parser self = new_parser
               | Attaching | Rejected => identity self = None
               | Attached | ResetState => identity self <> None
               | Closed | Failed => True
               end;
  inv_unattached : identity self = None -> send_sequence self = 0;
}.

Lemma host_inv_new : host_inv new_host.
Proof. by split. Qed.

Lemma host_inv_state self s :
  host_inv self -> (s = Closed \/ s = Failed) -> host_inv (self <| state := s |>).
Proof. intros [] [-> | ->]; by split. Qed.

Lemma host_accept_keeps_inv self r self' e :
  host_inv self -> valid_record r -> accept self r = Ok (self', e) -> host_inv self'.
Proof.
  intros [] Hv Ha. apply host_accept_inv in Ha as (Hs & Hu & Ha).
  assert (is_u64 (receive_sequence self + 1)) by word_lia.
  destruct (record_type r); try done; destruct Ha as [Hst Ha]; rewrite Hst in *; destruct_and?;
    repeat match goal with H : exists _, _ |- _ => destruct H end; destruct_and?; subst self';
    split; cbn; rewrite ?Hst; try done; try congruence; intros; simplify_eq;
    eauto using record_identity_valid.
Qed.

Lemma host_receive_keeps_inv self input self' r :
  host_inv self -> receive self input = (self', r) -> host_inv self'.
Proof.
  intros Hi H. unfold receive in H. destruct (receiving (state self)) eqn:Hr; cbn in H;
    [|by injection H as <- <-].
  destruct (push (parser self) input) as [p' pushed] eqn:Hp.
  apply push_keeps_inv in Hp as [Hp' Hok]; [|apply Hi].
  specialize (Hok (inv_healthy self Hi Hr)).
  destruct pushed as [[n [rec|]]|e].
  - destruct Hok as (He & _ & Hv).
    assert (Hset : host_inv (self <| parser := p' |>)).
    { destruct Hi as [? ? ? ? ? Hb ?]. split; try done. cbn. by destruct (state self). }
    destruct (accept _ rec) as [[s ev]|e] eqn:Ha.
    + injection H as <- <-. by eapply host_accept_keeps_inv; eauto.
    + injection H as <- <-. apply host_inv_state; auto.
  - destruct Hok as (He & _). injection H as <- <-. destruct Hi as [? ? ? ? ? Hb ?]. split; try done.
    cbn. by destruct (state self).
  - injection H as <- <-. destruct Hi. by split.
Qed.

Lemma host_receive_output self input self' r :
  receive self input = (self', r) ->
  send_sequence self' = send_sequence self /\
  (identity self' = identity self \/ state self = Attaching).
Proof.
  unfold receive. destruct (receiving (state self)) eqn:Hr; cbn; [|intros [= <- <-]; auto].
  destruct (push (parser self) input) as [p' [[n [rec|]]|e]]; try (intros [= <- <-]; by auto).
  destruct (accept _ rec) as [[s ev]|e] eqn:Ha; intros [= <- <-]; [|by auto].
  apply host_accept_inv in Ha as (_ & _ & Ha). cbn in Ha.
  destruct (record_type rec); try done; destruct_and?;
    repeat match goal with H : exists _, _ |- _ => destruct H end; destruct_and?; subst s; by auto.
Qed.

Lemma host_send_cases self data out self' out' r :
  send self data out = (self', out', r) ->
  (exists e, r = Err e /\ self' = self /\ out' = out) \/
  (exists i, state self = Attached /\ identity self = Some i /\ data <> []
     /\ send_sequence self < U64_MAX
     /\ let n := Z.min (len data) OUTER_MAX_PAYLOAD in
        r = Ok n /\ self' = self <| send_sequence := send_sequence self + 1 |>
        /\ out' = out ++ encoding (sent_record Data i (send_sequence self) (ztake n data))).
Proof.
  unfold send. destruct (state self) eqn:Hst, (identity self) as [i|] eqn:Hid;
    try (intros [= <- <- <-]; left; by eexists).
  destruct (encode_data _ _ _ _) as [[n [s o]]|e] eqn:He; intros [= <- <- <-];
    [right|left; by eexists].
  apply encode_data_ok in He as (-> & ? & -> & ? & ->). exists i. by split_and!.
Qed.

Lemma host_attach_cases self capability out self' out' r :
  attach self capability out = (self', out', r) ->
  (exists e, r = Err e /\ self' = self /\ out' = out) \/
  (state self = Detached /\ len capability = CAPABILITY_LEN /\ r = Ok ()
   /\ self' = self <| state := Attaching |>
   /\ out' = out ++ encoding (mkRecord HostAttach zero_id 0 0 capability)).
Proof.
  unfold attach. destruct (bool_decide _) eqn:Hs; cbn; bool_to_prop;
    [|intros [= <- <- <-]; left; by eexists].
  destruct (encode_record _ _ _ _ _ _) as [o|e] eqn:He; intros [= <- <- <-];
    [right|left; by eexists].
  apply encode_record_ok in He as (Hl & _ & _ & ->). cbn in Hl. bool_to_prop. by split_and!.
Qed.

Lemma host_disconnect_cases self self' r :
  disconnect self = (self', r) ->
  (self' = self \/ self' = self <| state := Closed |> \/ self' = fail_host self)
  /\ (forall e, r = Err e -> e = Truncated (buffered (parser self)) /\ self' = fail_host self).
Proof.
  unfold disconnect. destruct (state self); try destruct (_ =? 0); cbn; intros [= <- <-];
    (split; [by auto|]); by intros ? [= <-].
Qed.

Lemma host_call_inv self out op self' out' r :
  host_inv self -> host_call self out op = (self', out', r) -> host_inv self'.
Proof.
  intros Hi. destruct op as [c|input|data|]; cbn.
  - destruct (attach self c out) as [[s o] r'] eqn:H. intros [= <- <- <-].
    apply host_attach_cases in H as [(e & _ & -> & _)|(Hst & _ & _ & -> & _)]; [done|].
    destruct Hi as [? ? ? ? ? Hb ?]. rewrite Hst in Hb. destruct Hb as (? & ? & ? & Hp).
    split; try done. cbn. by rewrite Hp.
  - destruct (receive self input) as [s r'] eqn:H. intros [= <- <- <-].
    by eapply host_receive_keeps_inv.
  - destruct (send self data out) as [[s o] r'] eqn:H. intros [= <- <- <-].
    apply host_send_cases in H as [(e & _ & -> & _)|(i & Hst & Hid & _ & Hu & _ & -> & _)]; [done|].
    destruct Hi as [? ? ? ? ? Hb ?]. split; try done; cbn; [word_lia| |congruence].
    by rewrite Hst in *.
  - destruct (disconnect self) as [s r'] eqn:H. intros [= <- <- <-].
    apply host_disconnect_cases in H as [[-> |[-> | ->]] _]; [done|..]; apply host_inv_state; auto.
Qed.

Lemma host_run_inv self out tr : host_run self out tr -> host_inv self.
Proof. induction 1; [apply host_inv_new|eauto using host_call_inv]. Qed.

Lemma numbered_snoc t s rs r :
  numbered t s (rs ++ [r]) <-> numbered t s rs /\ record_type r = t /\ sequence r = s + len rs.
Proof.
  revert s. induction rs as [|x rs IH]; intros s; cbn [app numbered].
  - rewrite len_nil, Z.add_0_r. tauto.
  - rewrite IH, len_cons, <- Z.add_assoc. tauto.
Qed.

(** The records that a session wrote: HOST_ATTACH with the caller's capability, then DATA records
    of the session's identity, numbered from 0, whose payloads join to the bytes it took. *)
Definition host_output (tr : host_trace) (i : option Identity) (rs : list NvxsRecord) : Prop :=
  (rs = [] /\ sent_bytes tr = []) \/
  exists capability ds,
    rs = mkRecord HostAttach zero_id 0 0 capability :: ds
    /\ len capability = CAPABILITY_LEN /\ (OpAttach capability, Ok Done) ∈ tr
    /\ numbered Data 0 ds /\ Forall (fun r => exists id, i = Some id /\ carries r id) ds
    /\ concat (map payload ds) = sent_bytes tr.

Definition output_inv (self : HostSession) (out : list byte) (tr : host_trace) : Prop :=
  exists rs, out = concat (map encoding rs) /\ Forall valid_record rs
    /\ host_output tr (identity self) rs
    /\ match rs with
       | [] => receiving (state self) = false /\ send_sequence self = 0
       | _ :: ds => state self <> Detached /\ send_sequence self = len ds
       end.

(** A call that takes no bytes and leaves the send side alone keeps the output invariant. *)
Lemma host_output_inv_quiet self out tr c self' :
  output_inv self out tr -> send_sequence self' = send_sequence self ->
  (identity self' = identity self \/ send_sequence self = 0) ->
  (receiving (state self) = false -> receiving (state self') = false) ->
  (state self' = Detached -> state self = Detached) ->
  sent_bytes (tr ++ [c]) = sent_bytes tr -> output_inv self' out (tr ++ [c]).
Proof.
  intros (rs & -> & Hv & Ho & Hm) Hs Hid Hr Hd Hc. exists rs. split_and!; try done.
  - destruct Ho as [[-> ?]|(cap & ds & -> & ? & ? & ? & Hall & ?)]; [left; by rewrite Hc|right].
    exists cap, ds. rewrite Hc. split_and!; try done; [set_solver|].
    destruct Hid as [-> | Hz]; [done|]. destruct Hm as [_ Hm]. rewrite Hz in Hm. symmetry in Hm.
    apply len_zero_iff in Hm as ->. constructor.
  - destruct rs; rewrite Hs; [split; tauto|]. destruct Hm. split; auto.
Qed.

Lemma disconnect_ends self self' r :
  disconnect self = (self', r) -> receiving (state self') = false /\ state self' <> Detached
    /\ send_sequence self' = send_sequence self /\ identity self' = identity self.
Proof.
  unfold disconnect. destruct (state self) eqn:Hs; try destruct (_ =? 0); cbn;
    intros [= <- <-]; cbn; rewrite ?Hs; done.
Qed.

Lemma receive_ends self input self' r :
  receive self input = (self', r) ->
  (receiving (state self) = false -> self' = self) /\
  (state self' = Detached -> state self = Detached).
Proof.
  intros H. destruct (receiving (state self)) eqn:Hr.
  - split; [done|]. unfold receive in H. rewrite Hr in H. cbn in H.
    destruct (push (parser self) input) as [p' [[n [rec|]]|e]]; try by injection H as <- <-.
    destruct (accept _ rec) as [[s ev]|e] eqn:Ha; injection H as <- <-; [|done].
    apply host_accept_inv in Ha as (_ & _ & Ha). cbn in Ha.
    destruct (record_type rec); try done; destruct_and?;
      repeat match goal with H : exists _, _ |- _ => destruct H end; destruct_and?; subst s;
      cbn in *; congruence.
  - unfold receive in H. rewrite Hr in H. cbn in H. by injection H as <- <-.
Qed.

Lemma send_keeps_output self out tr data self' out' r :
  host_inv self -> output_inv self out tr -> send self data out = (self', out', r) ->
  output_inv self' out' (tr ++ [(OpSend data, n ← r; Ok (Taken n))]).
Proof.
  intros Hi Ho H. apply host_send_cases in H as [(e & -> & -> & ->)|(i & Hst & Hid & Hd & Hu & -> & -> & ->)].
  { eapply host_output_inv_quiet; eauto. rewrite host_sent_bytes_snoc. cbn. by rewrite app_nil_r. }
  destruct Ho as (rs & -> & Hv & Ho & Hm).
  destruct Ho as [[-> _]|(cap & ds & -> & Hcap & Hin & Hnum & Hall & Hpay)].
  { destruct Hm as [Hm _]. by rewrite Hst in Hm. }
  destruct Hm as [_ Hm]. set (n := Z.min _ _). set (d := sent_record Data i _ _).
  assert (Hvd : valid_record d).
  { apply valid_identity_record; try done; [by apply Hi|by apply Hi|].
    assert (len data <> 0) by (by rewrite len_zero_iff).
    cbn. unfold n, OUTER_MAX_PAYLOAD. apply andb_true_intro. rewrite !Z.leb_le. len_lia. }
  exists (mkRecord HostAttach zero_id 0 0 cap :: ds ++ [d]). split_and!.
  - by rewrite app_comm_cons, map_app, concat_app; cbn; rewrite !app_nil_r.
  - rewrite app_comm_cons. apply Forall_app. split; [done|by constructor].
  - right. exists cap, (ds ++ [d]). split_and!; try done; [set_solver| | |].
    + apply numbered_snoc. split_and!; [done..|]. cbn. lia.
    + apply Forall_app. split; [done|]. constructor; [|done]. cbn. exists i. done.
    + rewrite map_app, concat_app, Hpay, host_sent_bytes_snoc. cbn. by rewrite app_nil_r.
  - cbn. by rewrite Hst.
  - cbn. len_lia.
Qed.

Lemma host_run_output self out tr : host_run self out tr -> output_inv self out tr.
Proof.
  induction 1 as [|self out tr op self' out' r Hrun IH Hcall].
  { exists []. split_and!; try done. by left. }
  pose proof (host_run_inv _ _ _ Hrun) as Hi. destruct op as [c|input|data|]; cbn in Hcall.
  - destruct (attach self c out) as [[s o] r'] eqn:H. injection Hcall as <- <- <-.
    apply host_attach_cases in H as [(e & -> & -> & ->)|(Hst & Hl & -> & -> & ->)].
    { eapply host_output_inv_quiet; eauto. rewrite host_sent_bytes_snoc. by rewrite app_nil_r. }
    destruct IH as (rs & -> & Hv & Ho & Hm).
    destruct Ho as [[-> Hsb]|(cap & ds & -> & _)]; [|by destruct Hm].
    eexists [_]. split_and!; [cbn; by rewrite app_nil_r| | |done|apply Hm].
    + constructor; [|constructor]. split; [done|]. split_and!; try done. cbn. by apply Z.eqb_eq.
    + right. exists c, []. split_and!; try done; [set_solver|].
      rewrite host_sent_bytes_snoc, Hsb. done.
  - destruct (receive self input) as [s r'] eqn:H. injection Hcall as <- <- <-.
    pose proof (host_receive_output _ _ _ _ H) as [Hs Hid]. pose proof (receive_ends _ _ _ _ H) as [He Hd].
    eapply host_output_inv_quiet; eauto; [| |by rewrite host_sent_bytes_snoc; cbn; rewrite app_nil_r].
    + destruct Hid as [?|Hst]; [by left|right]. destruct Hi as [_ _ _ _ _ Hb Hu].
      rewrite Hst in Hb. auto.
    + intros Hr. by rewrite (He Hr).
  - destruct (send self data out) as [[s o] r'] eqn:H. injection Hcall as <- <- <-.
    by eapply send_keeps_output.
  - destruct (disconnect self) as [s r'] eqn:H. injection Hcall as <- <- <-.
    apply disconnect_ends in H as (? & ? & ? & ?).
    eapply host_output_inv_quiet; eauto; [done|by rewrite host_sent_bytes_snoc; cbn; rewrite app_nil_r].
Qed.

(** Whatever calls a caller makes in whatever order, with whatever input, the bytes that the
    host wrote are the encodings of well-formed records: nothing before a HOST_ATTACH with the
    caller's capability, then DATA records with the attached session's identity, numbered from 0
    without a gap, whose payloads join to exactly the bytes that its [send]s reported as taken. *)
Theorem host_output_exact (self : HostSession) (out : list byte) (tr : host_trace) :
  host_run self out tr ->
  exists rs, out = concat (map encoding rs) /\ Forall valid_record rs
    /\ host_output tr (identity self) rs /\ all_frames out = (rs, inl []).
Proof.
  intros H. destruct (host_run_output _ _ _ H) as (rs & -> & Hv & Ho & _).
  exists rs. split_and!; try done.
  rewrite <- (app_nil_r (concat (map encoding rs))), all_frames_encodings by done.
  change (all_frames []) with (@nil NvxsRecord, @inl (list byte) RecordError []). cbn iota.
  by rewrite app_nil_r.
Qed.

Definition sample_capability : list byte := replicate (Z.to_nat CAPABILITY_LEN) (byte_of 7).
Definition sample_calls : list host_op :=
  [OpAttach sample_capability; OpReceive (encoding (sent_record Ready sample_identity 0 []));
   OpSend (bytes_of "hello")].

(** The session, output and replies after some calls. *)
Definition after_calls (ops : list host_op) : HostSession * list byte * host_trace :=
  fold_left (fun acc op =>
    let '(self, out, tr) := acc in
    let '(self, out, r) := host_call self out op in (self, out, tr ++ [(op, r)]))
    ops (new_host, [], []).

Lemma host_after_calls_run ops :
  let '(self, out, tr) := after_calls ops in host_run self out tr.
Proof.
  unfold after_calls. induction ops as [|op ops IH] using rev_ind; [apply run_new|].
  rewrite fold_left_app. destruct (fold_left _ ops _) as [[self out] tr]. cbn.
  destruct (host_call self out op) as [[self' out'] r] eqn:H. by econstructor.
Qed.

Lemma host_output_exact_witness :
  let '(self, out, tr) := after_calls sample_calls in
  exists rs, out = concat (map encoding rs) /\ Forall valid_record rs
    /\ host_output tr (identity self) rs /\ all_frames out = (rs, inl []).
Proof.
  pose proof (host_after_calls_run sample_calls) as H.
  destruct (after_calls sample_calls) as [[self out] tr].
  exact (host_output_exact self out tr H).
Defined.

(** In every reachable state both sequence counters fit a [u64], an identity has a nonzero
    instance and epoch, exactly the attached states have one before the session ends, and the
    parser of a session that still receives is healthy and holds less than one record. *)
Theorem host_reachable_invariant (self : HostSession) (out : list byte) (tr : host_trace) :
  host_run self out tr ->
  is_u64 (receive_sequence self) /\ is_u64 (send_sequence self)
  /\ (forall i, identity self = Some i -> valid_identity i)
  /\ (state self = Attached -> identity self <> None)
  /\ (state self = Attaching -> identity self = None /\ send_sequence self = 0)
  /\ (receiving (state self) = true -> error (parser self) = None)
  /\ buffered (parser self) < OUTER_HEADER_LEN + OUTER_MAX_PAYLOAD.
Proof.
  intros H. destruct (host_run_inv _ _ _ H) as [Hp He Hr Hs Hi Hb Hu].
  split_and!; try done; try apply Hr; try apply Hs.
  - intros Hst. by rewrite Hst in Hb.
  - intros Hst. rewrite Hst in Hb. auto.
  - by apply parser_inv_bounds.
Qed.

Lemma host_reachable_invariant_witness :
  let '(self, _, _) := after_calls sample_calls in
  is_u64 (send_sequence self) /\ send_sequence self = 1 /\ state self = Attached.
Proof.
  pose proof (host_after_calls_run sample_calls) as H.
  destruct (after_calls sample_calls) as [[self out] tr] eqn:E.
  destruct (host_reachable_invariant self out tr H) as (_ & Hs & _). split; [exact Hs|].
  vm_compute in E. injection E as <- _ _. split; reflexivity.
Defined.

(** How the host fails. A refused [attach] or [send] changes neither the session nor the
    output. A failing [receive] either found the session not receiving and changed nothing, or
    ends it in [Failed]. A [disconnect] fails exactly inside a record. A session that was rejected,
    reset, closed or failed never changes again and writes nothing. *)
Theorem host_failures (self : HostSession) (out : list byte) (op : host_op) :
  let '(self', out', r) := host_call self out op in
  match r with
  | Ok _ => True
  | Err e =>
      out' = out /\
      match op with
      | OpAttach _ | OpSend _ => self' = self
      | OpReceive _ => (e = InvalidState /\ self' = self /\ receiving (state self) = false)
                       \/ (receiving (state self) = true /\ state self' = Failed
                           /\ identity self' = identity self)
      | OpDisconnect => e = Truncated (buffered (parser self)) /\ buffered (parser self) <> 0
                        /\ self' = fail_host self
      end
  end /\
  match state self with
  | Rejected | ResetState | Closed | Failed => self' = self /\ out' = out
  | _ => True
  end.
Proof.
  destruct op as [c|input|data|]; cbn.
  - destruct (attach self c out) as [[s o] r] eqn:H.
    apply host_attach_cases in H as [(e & -> & -> & ->)|(Hst & _ & -> & _)]; [|by rewrite Hst].
    split; [done|]. by destruct (state self).
  - destruct (receive self input) as [s r] eqn:H. pose proof (receive_ends _ _ _ _ H) as [Hq _].
    split; [|destruct (state self); try done; by rewrite Hq].
    unfold receive in H. destruct (receiving (state self)) eqn:Hr; cbn in H.
    + destruct (push (parser self) input) as [p' [[n [rec|]]|e]].
      * destruct (accept _ rec) as [[s' ev]|e] eqn:Ha; injection H as <- <-; cbn; auto.
      * by injection H as <- <-.
      * injection H as <- <-. cbn. auto.
    + injection H as <- <-. cbn. auto.
  - destruct (send self data out) as [[s o] r] eqn:H.
    apply host_send_cases in H as [(e & -> & -> & ->)|(i & Hst & _ & _ & _ & -> & _)]; [|by rewrite Hst].
    split; [done|]. by destruct (state self).
  - unfold disconnect. destruct (state self); cbn; try done;
      destruct (Z.eqb_spec (buffered (parser self)) 0); cbn; done.
Qed.
