(* ===== verification/GuestSession.v ===== *)
(** * The guest's role in an NVXS session (src/nvx-rs/src/protocol/nvxs/guest.rs)

    The session's state machine, method by method, with its receive window, and what it promises:
    which records it accepts, that the window is never exceeded and credit is never invented, what
    it writes in each epoch, and how it fails. *)

From S2P Require Import Prelude Outer NvxsRecord Session Stream.

Inductive GuestState : Type :=
| Detached | Attaching | Resetting | Active | Closed | Failed.

#[export] Instance GuestState_eq_dec : EqDecision GuestState.
Proof. solve_decision. Defined.

Inductive GuestEvent : Type :=
| EventReset (identity : Identity)
| EventData (payload : list byte).

Record GuestSession := mkGuestSession {
  state : GuestState;
  parser : RecordParser;
  identity : option Identity;
  receive_sequence : Z;
  send_sequence : Z;
  window : Z;
  outstanding : Z;
}.

#[export] Instance eta_GuestSession : Eta GuestSession := fun s =>
  mkGuestSession (state s) (parser s) (identity s) (receive_sequence s) (send_sequence s)
    (window s) (outstanding s).

(** [GuestSession::new]. *)
Definition new_guest : GuestSession :=
  {| state := Detached; parser := new_parser; identity := None; receive_sequence := 0;
     send_sequence := 0; window := 0; outstanding := 0 |}.

(** [GuestSession::window]: the advertised window, while the epoch is active. *)
Definition active_window (self : GuestSession) : option Z :=
  if bool_decide (state self = Active) then Some (window self) else None.

(** [GuestSession::fail]: ends the session. *)
Definition fail_guest (self : GuestSession) : GuestSession := self <| state := Failed |>.

(** [GuestSession::attach]. *)
Definition attach (self : GuestSession) (output : list byte)
    : GuestSession * list byte * result SessionError unit :=
  if negb (bool_decide (state self = Detached)) then (self, output, Err InvalidState)
  else match encode_record GuestAttach zero_id 0 0 [] output with
  | Err e => (self, output, Err (RecordFailure e))
  | Ok output => (self <| state := Attaching |>, output, Ok ())
  end.

(** [GuestSession::reset]. Every assignment follows the last check. *)
Definition reset (self : GuestSession) (record : NvxsRecord)
    : result SessionError (GuestSession * GuestEvent) :=
  new ← ok_or (record_identity record) (MissingIdentity Reset);
  let start :=
    next ← next_sequence (sequence record) Reset;
    Ok (self <| identity := Some new |> <| receive_sequence := next |> <| send_sequence := 0 |>
             <| window := 0 |> <| outstanding := 0 |> <| state := Resetting |>,
        EventReset new) in
  match identity self with
  | Some current =>
      if bool_decide (id_instance current = id_instance new) && (id_epoch new <=? id_epoch current)
      then Err (StaleEpoch (id_epoch current) (id_epoch new))
      else start
  | None => start
  end.

(** [GuestSession::data], with the length's cast to [u32]. *)
Definition data (self : GuestSession) (record : NvxsRecord)
    : result SessionError (GuestSession * GuestEvent) :=
  match identity self with
  | None => Err (Unexpected Data)
  | Some identity =>
      _ ← check_sequence record (receive_sequence self);
      _ ← check_identity record identity;
      next ← next_sequence (receive_sequence self) Data;
      let length := len (payload record) mod 2 ^ 32 in
      if saturating_sub (window self) (outstanding self) <? length
      then Err (Window (window self) (outstanding self) length)
      else Ok (self <| receive_sequence := next |> <| outstanding := outstanding self + length |>,
               EventData (payload record))
  end.

(** [GuestSession::accept]. *)
Definition accept (self : GuestSession) (record : NvxsRecord)
    : result SessionError (GuestSession * GuestEvent) :=
  match state self, record_type record with
  | (Attaching | Resetting | Active), Reset => reset self record
  | Active, Data => data self record
  | _, t => Err (Unexpected t)
  end.

Definition receiving (s : GuestState) : bool :=
  match s with Attaching | Resetting | Active => true | _ => false end.

(** [GuestSession::receive]. *)
Definition receive (self : GuestSession) (input : list byte)
    : GuestSession * result SessionError (Z * option GuestEvent) :=
  if negb (receiving (state self)) then (self, Err InvalidState)
  else
    let '(p, pushed) := push (parser self) input in
    let self := self <| parser := p |> in
    match pushed with
    | Err e => (fail_guest self, Err (RecordFailure e))
    | Ok (consumed, None) => (self, Ok (consumed, None))
    | Ok (consumed, Some record) =>
        match accept self record with
        | Err e => (fail_guest self, Err e)
        | Ok (self, event) => (self, Ok (consumed, Some event))
        end
    end.

(** [GuestSession::acknowledge]. *)
Definition acknowledge (self : GuestSession) (w : Z) (output : list byte)
    : GuestSession * list byte * result SessionError unit :=
  match state self, identity self with
  | Resetting, Some identity =>
      match encode_record Ack (id_instance identity) (id_epoch identity) 0 (to_le_bytes 4 w) output
      with
      | Err e => (self, output, Err (RecordFailure e))
      | Ok output =>
          (self <| send_sequence := 1 |> <| window := w |> <| outstanding := 0 |>
                <| state := Active |>, output, Ok ())
      end
  | _, _ => (self, output, Err InvalidState)
  end.

(** [GuestSession::send]. *)
Definition send (self : GuestSession) (data output : list byte)
    : GuestSession * list byte * result SessionError Z :=
  match state self, identity self with
  | Active, Some identity =>
      match encode_data identity (send_sequence self) data output with
      | Err e => (self, output, Err e)
      | Ok (taken, (sequence, output)) =>
          (self <| send_sequence := sequence |>, output, Ok taken)
      end
  | _, _ => (self, output, Err InvalidState)
  end.

(** [GuestSession::credit]. *)
Definition credit (self : GuestSession) (bytes : Z) (output : list byte)
    : GuestSession * list byte * result SessionError unit :=
  match state self, identity self with
  | Active, Some identity =>
      if (bytes =? 0) || (outstanding self <? bytes)
      then (self, output, Err (CreditError (outstanding self) bytes))
      else match encode_next Credit identity (send_sequence self) (to_le_bytes 4 bytes) output with
      | Err e => (self, output, Err e)
      | Ok (sequence, output) =>
          (self <| send_sequence := sequence |> <| outstanding := outstanding self - bytes |>,
           output, Ok ())
      end
  | _, _ => (self, output, Err InvalidState)
  end.

(** [GuestSession::disconnect]. *)
Definition disconnect (self : GuestSession) : GuestSession * result SessionError unit :=
  match state self with
  | Closed | Failed => (self, Ok ())
  | _ =>
      let buffered := buffered (parser self) in
      if negb (buffered =? 0) then (fail_guest self, Err (Truncated buffered))
      else (self <| state := Closed |>, Ok ())
  end.

(** ** The guest as a role on a byte stream *)

#[export] Instance guest_role : Role GuestSession GuestEvent := {
  role_parser := parser;
  set_parser p s := s <| parser := p |>;
  role_receiving s := receiving (state s);
  role_accept := accept;
  role_fail := fail_guest;
}.

#[export] Instance guest_role_laws : RoleLaws GuestSession GuestEvent.
Proof.
  split; try (by intros; repeat match goal with s : GuestSession |- _ => destruct s end).
  intros p s r. cbn. unfold accept, reset, data. cbn.
  destruct (state s), (record_type r), (identity s) as [i|]; try done; cbn;
    try destruct (record_identity r); cbn; try done;
    repeat match goal with
    | |- context [check_sequence ?r ?s] => destruct (check_sequence r s); cbn; try done
    | |- context [check_identity ?r ?i] => destruct (check_identity r i); cbn; try done
    | |- context [next_sequence ?s ?t] => destruct (next_sequence s t); cbn; try done
    end; by split_matches.
Qed.

Lemma guest_receive_is_role_receive self input : receive self input = role_receive self input.
Proof. done. Qed.

(** One accepted record. *)
Lemma guest_accept_inv self r self' e :
  accept self r = Ok (self', e) ->
  match record_type r with
  | Reset => receiving (state self) = true /\ exists new,
      record_identity r = Some new /\ sequence r < U64_MAX
      /\ (forall i, identity self = Some i -> id_instance i = id_instance new ->
                    id_epoch i < id_epoch new)
      /\ e = EventReset new
      /\ self' = self <| identity := Some new |> <| receive_sequence := sequence r + 1 |>
                      <| send_sequence := 0 |> <| window := 0 |> <| outstanding := 0 |>
                      <| state := Resetting |>
  | Data => state self = Active /\ exists i,
      identity self = Some i /\ carries r i /\ sequence r = receive_sequence self
      /\ receive_sequence self < U64_MAX
      /\ len (payload r) mod 2 ^ 32 <= saturating_sub (window self) (outstanding self)
      /\ e = EventData (payload r)
      /\ self' = self <| receive_sequence := receive_sequence self + 1 |>
                      <| outstanding := outstanding self + len (payload r) mod 2 ^ 32 |>
  | _ => False
  end.
Proof.
  unfold accept. destruct (state self) eqn:Hs, (record_type r) eqn:Ht; try done; intros H.
  1,2,3: split; [done|]; unfold reset in H; inv_ok;
    match goal with i : Identity |- _ => exists i end.
  1,2,3: destruct (identity self) as [cur|] eqn:Hid;
    [destruct (bool_decide _ && _) eqn:Hb; [done|]; apply andb_false_iff in Hb|];
    inv_ok; match goal with H : next_sequence _ _ = Ok _ |- _ => apply next_sequence_ok in H as [-> ?] end;
    split_and!; try done; intros ? [= <-] ?; destruct Hb; bool_to_prop; (lia || done).
  split; [done|]. unfold data in H. destruct (identity self) as [i|]; [|done]. inv_ok.
  match goal with H : check_sequence _ _ = Ok _ |- _ => apply check_sequence_ok in H end.
  match goal with H : check_identity _ _ = Ok _ |- _ => apply check_identity_ok in H end.
  match goal with H : next_sequence _ _ = Ok _ |- _ => apply next_sequence_ok in H as [-> ?] end.
  bool_to_prop. eauto 12.
Qed.

(** ** Any sequence of calls *)

Inductive guest_op : Type :=
| OpAttach
| OpReceive (input : list byte)
| OpAcknowledge (window : Z)
| OpSend (data : list byte)
| OpCredit (bytes : Z)
| OpDisconnect.

Inductive guest_reply : Type :=
| Done
| Received (consumed : Z) (event : option GuestEvent)
| Taken (n : Z).

(** One call on the session and the caller's output buffer. *)
Definition guest_call (self : GuestSession) (out : list byte) (op : guest_op)
    : GuestSession * list byte * result SessionError guest_reply :=
  match op with
  | OpAttach => let '(self, out, r) := attach self out in (self, out, _ ← r; Ok Done)
  | OpReceive input =>
      let '(self, r) := receive self input in (self, out, '(n, e) ← r; Ok (Received n e))
  | OpAcknowledge window =>
      let '(self, out, r) := acknowledge self window out in (self, out, _ ← r; Ok Done)
  | OpSend data =>
      let '(self, out, r) := send self data out in (self, out, n ← r; Ok (Taken n))
  | OpCredit bytes =>
      let '(self, out, r) := credit self bytes out in (self, out, _ ← r; Ok Done)
  | OpDisconnect => let '(self, r) := disconnect self in (self, out, _ ← r; Ok Done)
  end.

(** Arguments of Rust's [u32] parameters. *)
Definition typed_op (op : guest_op) : Prop :=
  match op with OpAcknowledge n | OpCredit n => is_u32 n | _ => True end.

Definition guest_trace : Type := list (guest_op * result SessionError guest_reply).

Inductive guest_run : GuestSession -> list byte -> guest_trace -> Prop :=
| run_new : guest_run new_guest [] []
| run_call self out tr op self' out' r :
    guest_run self out tr -> typed_op op -> guest_call self out op = (self', out', r) ->
    guest_run self' out' (tr ++ [(op, r)]).

(** The event that a reply reports. *)
Definition event_of (c : guest_op * result SessionError guest_reply) : option GuestEvent :=
  match c with (OpReceive _, Ok (Received _ e)) => e | _ => None end.

(** The identities of the trace's RESETs. *)
Definition resets (tr : guest_trace) : list Identity :=
  omap (fun c => match event_of c with Some (EventReset i) => Some i | _ => None end) tr.

(** DATA bytes that the last epoch delivered, less those that it credited. *)
Definition uncredited (tr : guest_trace) : Z :=
  fold_left (fun n c =>
    match event_of c, c with
    | Some (EventReset _), _ => 0
    | Some (EventData p), _ => n + len p
    | None, (OpCredit bytes, Ok _) => n - bytes
    | None, _ => n
    end) tr 0.

Definition sent_bytes (tr : guest_trace) : list byte :=
  concat (map (fun c => match c with (OpSend data, Ok (Taken n)) => ztake n data | _ => [] end) tr).

Lemma resets_snoc tr c :
  resets (tr ++ [c]) =
  resets tr ++ match event_of c with Some (EventReset i) => [i] | _ => [] end.
Proof. unfold resets. rewrite omap_app. cbn. by destruct (event_of c) as [[]|]. Qed.

Lemma uncredited_snoc tr c :
  uncredited (tr ++ [c]) =
  match event_of c, c with
  | Some (EventReset _), _ => 0
  | Some (EventData p), _ => uncredited tr + len p
  | None, (OpCredit bytes, Ok _) => uncredited tr - bytes
  | None, _ => uncredited tr
  end.
Proof. unfold uncredited. by rewrite fold_left_app. Qed.

Lemma guest_sent_bytes_snoc tr c :
  sent_bytes (tr ++ [c]) =
  sent_bytes tr ++ match c with (OpSend data, Ok (Taken n)) => ztake n data | _ => [] end.
Proof. unfold sent_bytes. by rewrite map_app, concat_app; cbn; rewrite app_nil_r. Qed.

(** ** What each call does *)

Lemma guest_attach_cases self out self' out' r :
  attach self out = (self', out', r) ->
  (exists e, r = Err e /\ self' = self /\ out' = out) \/
  (state self = Detached /\ r = Ok () /\ self' = self <| state := Attaching |>
   /\ out' = out ++ encoding (mkRecord GuestAttach zero_id 0 0 [])).
Proof.
  unfold attach. destruct (bool_decide _) eqn:Hs; cbn; bool_to_prop;
    [|intros [= <- <- <-]; left; by eexists].
  intros [= <- <- <-]. by right.
Qed.

(** [receive]: nothing, a completed record, or a failure. *)
Lemma receive_cases self input self' r :
  receive self input = (self', r) ->
  (receiving (state self) = false /\ self' = self /\ r = Err InvalidState) \/
  (receiving (state self) = true /\ exists p pushed, push (parser self) input = (p, pushed) /\
    ((exists n, pushed = Ok (n, None) /\ r = Ok (n, None) /\ self' = self <| parser := p |>) \/
     (exists e, r = Err e /\ self' = fail_guest (self <| parser := p |>)) \/
     (exists n rec s ev, pushed = Ok (n, Some rec) /\ accept self rec = Ok (s, ev)
        /\ r = Ok (n, Some ev) /\ self' = s <| parser := p |>))).
Proof.
  unfold receive. destruct (receiving (state self)) eqn:Hr; cbn;
    [|intros [= <- <-]; left; by split_and!].
  destruct (push (parser self) input) as [p pushed] eqn:Hp. intros H. right. split; [done|].
  exists p, pushed. split; [done|]. destruct pushed as [[n [rec|]]|e].
  - pose proof (accept_set p self rec) as Ha. cbn in Ha. rewrite Ha in H.
    destruct (accept self rec) as [[s ev]|e] eqn:Hacc; injection H as <- <-;
      [right; right|right; left].
    + by eexists _, _, _, _.
    + by eexists.
  - injection H as <- <-. left. by eexists.
  - injection H as <- <-. right. left. by eexists.
Qed.

Lemma acknowledge_cases self w out self' out' r :
  acknowledge self w out = (self', out', r) ->
  (exists e, r = Err e /\ self' = self /\ out' = out) \/
  (exists i, state self = Resetting /\ identity self = Some i /\ r = Ok ()
   /\ check_payload Ack (to_le_bytes 4 w) = Ok ()
   /\ self' = self <| send_sequence := 1 |> <| window := w |> <| outstanding := 0 |>
                   <| state := Active |>
   /\ out' = out ++ encoding (sent_record Ack i 0 (to_le_bytes 4 w))).
Proof.
  unfold acknowledge. destruct (state self) eqn:Hst, (identity self) as [i|] eqn:Hid;
    try (intros [= <- <- <-]; left; by eexists).
  destruct (encode_record _ _ _ _ _ _) as [o|e] eqn:He; intros [= <- <- <-];
    [right|left; by eexists].
  apply encode_record_ok in He as (_ & _ & Hp & ->). exists i. by split_and!.
Qed.

Lemma guest_send_cases self data out self' out' r :
  send self data out = (self', out', r) ->
  (exists e, r = Err e /\ self' = self /\ out' = out) \/
  (exists i, state self = Active /\ identity self = Some i /\ data <> []
     /\ send_sequence self < U64_MAX
     /\ let n := Z.min (len data) OUTER_MAX_PAYLOAD in
        r = Ok n /\ self' = self <| send_sequence := send_sequence self + 1 |>
        /\ out' = out ++ encoding (sent_record Data i (send_sequence self) (ztake n data))).
Proof.
  unfold send. destruct (state self) eqn:Hst, (identity self) as [i|] eqn:Hid;
    try (intros [= <- <- <-]; left; by eexists).
  destruct (encode_data _ _ _ _) as [[n [s o]]|e] eqn:He; intros [= <- <- <-];
    [right|left; by eexists].
  apply encode_data_ok in He as (-> & ? & -> & ? & ->). exists i. by split_and!.
Qed.

Lemma guest_credit_cases self bytes out self' out' r :
  credit self bytes out = (self', out', r) ->
  (exists e, r = Err e /\ self' = self /\ out' = out) \/
  (exists i, state self = Active /\ identity self = Some i /\ r = Ok ()
     /\ bytes <> 0 /\ bytes <= outstanding self /\ send_sequence self < U64_MAX
     /\ check_payload Credit (to_le_bytes 4 bytes) = Ok ()
     /\ self' = self <| send_sequence := send_sequence self + 1 |>
                     <| outstanding := outstanding self - bytes |>
     /\ out' = out ++ encoding (sent_record Credit i (send_sequence self) (to_le_bytes 4 bytes))).
Proof.
  unfold credit. destruct (state self) eqn:Hst, (identity self) as [i|] eqn:Hid;
    try (intros [= <- <- <-]; left; by eexists).
  destruct ((bytes =? 0) || _) eqn:Hb; [intros [= <- <- <-]; left; by eexists|]. bool_to_prop.
  destruct (encode_next _ _ _ _ _) as [[s o]|e] eqn:He; intros [= <- <- <-];
    [right|left; by eexists].
  apply encode_next_ok in He as (-> & ? & _ & ? & ->); [|done]. exists i. by split_and!.
Qed.

Lemma guest_disconnect_cases self self' r :
  disconnect self = (self', r) ->
  (self' = self /\ (state self = Closed \/ state self = Failed))
  \/ self' = self <| state := Closed |> \/ self' = fail_guest self.
Proof.
  unfold disconnect. destruct (state self); try destruct (_ =? 0); cbn; intros [= <- <-]; auto.
Qed.

(** ** The invariant *)

(** Each identity starts a new instance or a later epoch of the previous one's instance. *)
Definition advancing (ids : list Identity) : Prop :=
  forall k a b, ids !! k = Some a -> ids !! Datatypes.S k = Some b ->
    id_instance a = id_instance b -> id_epoch a < id_epoch b.

Lemma advancing_snoc ids i :
  advancing ids ->
  (forall a, last ids = Some a -> id_instance a = id_instance i -> id_epoch a < id_epoch i) ->
  advancing (ids ++ [i]).
Proof.
  intros Ha Hl k a b Hk Hk' Hi.
  apply lookup_app_Some in Hk' as [Hk'|[Hge Hk']].
  - rewrite lookup_app_l in Hk by (apply lookup_lt_Some in Hk'; lia). eauto.
  - apply lookup_lt_Some in Hk' as Hlt. cbn in Hlt.
    assert (Datatypes.S k = length ids) as Hlen by lia. rewrite Hlen, Nat.sub_diag in Hk'.
    injection Hk' as <-. apply Hl; [|done]. rewrite lookup_app_l in Hk by lia.
    rewrite last_lookup, <- Hlen. done.
Qed.

Record guest_inv (self : GuestSession) (tr : guest_trace) : Prop := {
  inv_parser : parser_inv (parser self);
  inv_healthy : receiving (state self) = true -> error (parser self) = None;
  inv_receive : is_u64 (receive_sequence self);
  inv_send : is_u64 (send_sequence self);
  inv_valid : Forall valid_identity (resets tr);
  inv_advancing : advancing (resets tr);
  inv_identity : last (resets tr) = identity self;
  inv_balance : outstanding self = uncredited tr;
  inv_outstanding : 0 <= outstanding self <= window self;
  inv_window : window self <= OUTER_MAX_RECEIVE_WINDOW;
  inv_state : match state self with
              | Detached => identity self = None /\ parser self = new_parser /\ send_sequence self = 0
              | Attaching => identity self = None
              | Resetting => identity self <> None /\ outstanding self = 0 /\ send_sequence self = 0
              | Active => identity self <> None /\ OUTER_MIN_RECEIVE_WINDOW <= window self
                          /\ 1 <= send_sequence self
              | Closed | Failed => True
              end;
}.

(** A call with no event and no credit leaves what the trace says about the epoch. *)
Definition quiet (c : guest_op * result SessionError guest_reply) : Prop :=
  event_of c = None /\ forall n r, c <> (OpCredit n, Ok r).

Lemma quiet_uncredited tr c : quiet c -> uncredited (tr ++ [c]) = uncredited tr.
Proof.
  intros [He Hc]. rewrite uncredited_snoc, He. destruct c as [[] []]; try done. by edestruct Hc.
Qed.

Lemma quiet_resets tr c : quiet c -> resets (tr ++ [c]) = resets tr.
Proof. intros [He _]. rewrite resets_snoc, He. by rewrite app_nil_r. Qed.

Lemma guest_inv_quiet self tr c : guest_inv self tr -> quiet c -> guest_inv self (tr ++ [c]).
Proof.
  intros [] Hc. split; rewrite ?quiet_resets, ?quiet_uncredited by done; done.
Qed.

Lemma guest_inv_end self tr s :
  guest_inv self tr -> (s = Closed \/ s = Failed) -> guest_inv (self <| state := s |>) tr.
Proof. intros [] [-> | ->]; by split. Qed.

Lemma guest_inv_parser self tr p :
  guest_inv self tr -> receiving (state self) = true -> parser_inv p -> error p = None ->
  guest_inv (self <| parser := p |>) tr.
Proof. intros [] Hr Hp He. split; try done. cbn. by destruct (state self). Qed.

Lemma data_length r :
  valid_record r -> record_type r = Data ->
  len (payload r) mod 2 ^ 32 = len (payload r) /\ 1 <= len (payload r).
Proof.
  intros (_ & Hl & _) Ht. rewrite Ht in Hl. cbn in Hl. bool_to_prop.
  unfold OUTER_MAX_PAYLOAD in *. split; [apply Z.mod_small|]; lia.
Qed.

Lemma guest_accept_keeps_inv self tr r self' e input n :
  guest_inv self tr -> valid_record r -> accept self r = Ok (self', e) ->
  guest_inv self' (tr ++ [(OpReceive input, Ok (Received n (Some e)))]).
Proof.
  intros Hi Hv Ha. apply guest_accept_inv in Ha. destruct (record_type r) eqn:Ht; try done.
  - destruct Ha as (Hr & new & Hnew & Hu & Hadv & -> & ->). destruct Hi.
    assert (is_u64 (sequence r + 1)) by (destruct Hv as [(_ & _ & ?) _]; word_lia).
    pose proof (record_identity_valid _ _ Hv Hnew).
    split; cbn; rewrite ?resets_snoc, ?uncredited_snoc; cbn; try done; auto.
    + apply Forall_app. split; [done|by constructor].
    + apply advancing_snoc; [done|]. rewrite inv_identity0. auto.
    + by rewrite last_snoc.
  - destruct Ha as (Hst & i & Hid & Hc & Hs & Hu & Hw & -> & ->).
    destruct (data_length r Hv Ht) as [Hl Hl1]. rewrite Hl in *. destruct Hi.
    rewrite Hst in *. unfold saturating_sub in Hw.
    split; cbn; rewrite ?resets_snoc, ?uncredited_snoc, ?app_nil_r; cbn; rewrite ?Hst;
      rewrite ?app_nil_r; try done; try word_lia.
Qed.

Lemma guest_receive_keeps_inv self tr input self' r :
  guest_inv self tr -> receive self input = (self', r) ->
  guest_inv self' (tr ++ [(OpReceive input, '(n, e) ← r; Ok (Received n e))]).
Proof.
  intros Hi H. apply receive_cases in H as [(_ & -> & ->)|(Hr & p & pushed & Hp & H)].
  { by apply guest_inv_quiet. }
  apply push_keeps_inv in Hp as [Hp Hok]; [|apply Hi]. specialize (Hok (inv_healthy _ _ Hi Hr)).
  destruct H as [(n & -> & -> & ->)|[(e & -> & ->)|(n & rec & s & ev & -> & Ha & -> & ->)]].
  - destruct Hok as (He & _ & _). apply guest_inv_quiet; [|done]. by apply guest_inv_parser.
  - apply guest_inv_quiet; [|done]. destruct Hi. by split.
  - destruct Hok as (He & _ & Hv). pose proof (guest_accept_inv _ _ _ _ Ha) as Hai.
    apply guest_inv_parser; [|..|done|done].
    + by eapply guest_accept_keeps_inv; eauto.
    + destruct (record_type rec); try done; destruct_and?;
        repeat match goal with H : exists _, _ |- _ => destruct H end; destruct_and?; subst s; cbn;
        [done|]. by rewrite H.
Qed.

Lemma check_ack_window w :
  is_u32 w -> check_payload Ack (to_le_bytes 4 w) = Ok () ->
  OUTER_MIN_RECEIVE_WINDOW <= w <= OUTER_MAX_RECEIVE_WINDOW.
Proof.
  intros Hw. unfold check_payload, value, in_range. rewrite u32_le_roundtrip by done.
  destruct (_ && _) eqn:H; [|done]. intros _. bool_to_prop. lia.
Qed.

Lemma guest_call_inv self out tr op self' out' r :
  guest_inv self tr -> typed_op op -> guest_call self out op = (self', out', r) ->
  guest_inv self' (tr ++ [(op, r)]).
Proof.
  intros Hi Hop. destruct op as [|input|w|data|bytes|]; cbn.
  - destruct (attach self out) as [[s o] r'] eqn:H. intros [= <- <- <-].
    apply guest_attach_cases in H as [(e & -> & -> & _)|(Hst & -> & -> & _)]; apply guest_inv_quiet;
      try done. destruct Hi. rewrite Hst in *. destruct inv_state0 as (? & Hp & ?).
    split; try done. cbn. by rewrite Hp.
  - destruct (receive self input) as [s r'] eqn:H. intros [= <- <- <-].
    by apply guest_receive_keeps_inv with self.
  - destruct (acknowledge self w out) as [[s o] r'] eqn:H. intros [= <- <- <-].
    apply acknowledge_cases in H as [(e & -> & -> & _)|(i & Hst & Hid & -> & Hw & -> & _)];
      apply guest_inv_quiet; try done.
    apply check_ack_window in Hw; [|done]. destruct Hi. rewrite Hst in *.
    assert (0 <= OUTER_MIN_RECEIVE_WINDOW) by done. destruct inv_state0 as (? & ? & ?).
    split; cbn; try done; [congruence|lia..|split_and!; try done; lia].
  - destruct (send self data out) as [[s o] r'] eqn:H. intros [= <- <- <-].
    apply guest_send_cases in H as [(e & -> & -> & _)|(i & Hst & Hid & _ & Hu & -> & -> & _)];
      apply guest_inv_quiet; try done.
    destruct Hi. rewrite Hst in *. destruct_and!. split; cbn; rewrite ?Hst; try done;
      split_and?; try done; word_lia.
  - destruct (credit self bytes out) as [[s o] r'] eqn:H. intros [= <- <- <-].
    apply guest_credit_cases in H as [(e & -> & -> & _)|(i & Hst & Hid & -> & ? & ? & ? & _ & -> & _)];
      [by apply guest_inv_quiet|].
    cbn in Hop. destruct Hi. rewrite Hst in *. destruct_and!.
    split; cbn; rewrite ?Hst, ?resets_snoc, ?uncredited_snoc; cbn; rewrite ?app_nil_r; try done;
      split_and?; try done; word_lia.
  - destruct (disconnect self) as [s r'] eqn:H. intros [= <- <- <-].
    apply guest_inv_quiet; [|split; done].
    apply guest_disconnect_cases in H as [[-> _]|[-> | ->]]; [done|..]; apply guest_inv_end; auto.
Qed.

Lemma guest_run_inv self out tr : guest_run self out tr -> guest_inv self tr.
Proof.
  induction 1; [|eauto using guest_call_inv]. by split.
Qed.

(** The receive window is never exceeded and credit is never invented: in every reachable
    state the bytes outstanding are exactly the DATA bytes that the current epoch delivered to
    the caller less those that it credited, they never exceed the advertised window (so neither
    the [u32] addition nor the subtraction can overflow), and an active epoch's window is within
    the protocol's limits. *)
Theorem guest_window_accounting (self : GuestSession) (out : list byte) (tr : guest_trace) :
  guest_run self out tr ->
  outstanding self = uncredited tr /\ 0 <= outstanding self <= window self
  /\ window self <= OUTER_MAX_RECEIVE_WINDOW
  /\ match active_window self with
     | Some w => w = window self /\ OUTER_MIN_RECEIVE_WINDOW <= w
     | None => True
     end.
Proof.
  intros H. destruct (guest_run_inv _ _ _ H). split_and!; try done; try apply inv_outstanding0.
  unfold active_window. destruct (state self) eqn:Hs; try done.
  rewrite bool_decide_eq_true_2 by done. by destruct_and!.
Qed.

(** Epochs only move forward: the RESETs that any run of the guest accepted carry valid
    identities, each one starts another instance or a strictly later epoch of the same instance
    than the RESET before it, and the session's identity is always the last one's. *)
Theorem guest_epochs_advance (self : GuestSession) (out : list byte) (tr : guest_trace) :
  guest_run self out tr ->
  Forall valid_identity (resets tr) /\ advancing (resets tr) /\ last (resets tr) = identity self
  /\ (state self = Active -> identity self <> None)
  /\ is_u64 (receive_sequence self) /\ is_u64 (send_sequence self).
Proof.
  intros H. destruct (guest_run_inv _ _ _ H). split_and!; try done;
    try apply inv_receive0; try apply inv_send0.
  intros Hs. rewrite Hs in *. by destruct_and!.
Qed.

(** The session, output and replies after some calls. *)
Definition after_calls (ops : list guest_op) : GuestSession * list byte * guest_trace :=
  fold_left (fun acc op =>
    let '(self, out, tr) := acc in
    let '(self, out, r) := guest_call self out op in (self, out, tr ++ [(op, r)]))
    ops (new_guest, [], []).

Lemma guest_after_calls_run ops :
  Forall typed_op ops -> let '(self, out, tr) := after_calls ops in guest_run self out tr.
Proof.
  unfold after_calls. induction ops as [|op ops IH] using rev_ind; [intros; apply run_new|].
  intros [Ho Hop]%Forall_app. rewrite fold_left_app. specialize (IH Ho). inv Hop.
  destruct (fold_left _ ops _) as [[self out] tr]. cbn.
  destruct (guest_call self out op) as [[self' out'] r] eqn:H. by econstructor.
Qed.

Definition sample_identity : Identity := mkIdentity (replicate 16 (byte_of 9)) 1.
Definition sample_calls : list guest_op :=
  [OpAttach; OpReceive (encoding (sent_record Reset sample_identity 5 [])); OpAcknowledge 65536;
   OpReceive (encoding (sent_record Data sample_identity 6 (bytes_of "hello"))); OpCredit 2;
   OpSend (bytes_of "reply")].

Lemma sample_calls_typed : Forall typed_op sample_calls.
Proof. repeat constructor; vm_compute; discriminate. Qed.

Lemma guest_window_accounting_witness :
  let '(self, _, tr) := after_calls sample_calls in
  outstanding self = uncredited tr /\ outstanding self = 3 /\ state self = Active.
Proof.
  pose proof (guest_after_calls_run sample_calls sample_calls_typed) as H.
  destruct (after_calls sample_calls) as [[self out] tr] eqn:E.
  destruct (guest_window_accounting self out tr H) as (Ho & _). split; [exact Ho|].
  vm_compute in E. injection E as <- _ _. split; reflexivity.
Defined.

Lemma guest_epochs_advance_witness :
  let '(self, _, tr) := after_calls sample_calls in
  last (resets tr) = identity self /\ identity self = Some sample_identity.
Proof.
  pose proof (guest_after_calls_run sample_calls sample_calls_typed) as H.
  destruct (after_calls sample_calls) as [[self out] tr] eqn:E.
  destruct (guest_epochs_advance self out tr H) as (_ & _ & Hl & _). split; [exact Hl|].
  vm_compute in E. injection E as <- _ _. reflexivity.
Defined.

(** ** A guest with its caller on a byte stream *)

(** What a caller does after an event: it acknowledges, sends or gives credit. *)
Inductive answer : Type :=
| Acknowledge (window : Z)
| SendData (data : list byte)
| GiveCredit (bytes : Z).

Definition answer_op (a : answer) : guest_op :=
  match a with
  | Acknowledge w => OpAcknowledge w
  | SendData data => OpSend data
  | GiveCredit bytes => OpCredit bytes
  end.

(** A session with its caller's output buffer, the events that the caller has seen, and its answers
    to the latest of them. *)
Record Served := mkServed {
  caller : list GuestEvent -> list answer;
  session : GuestSession;
  written : list byte;
  seen : list GuestEvent;
}.

#[export] Instance eta_Served : Eta Served := fun s => mkServed (caller s) (session s) (written s) (seen s).

(** The caller's answers, one call after another; it goes on after one that is refused. *)
Definition answer_all (self : GuestSession) (out : list byte) (answers : list answer) : GuestSession * list byte :=
  fold_left (fun '(self, out) a => (guest_call self out (answer_op a)).1) answers (self, out).

Definition serve (self : Served) (event : GuestEvent) : Served :=
  let seen := seen self ++ [event] in
  let '(s, out) := answer_all (session self) (written self) (caller self seen) in
  mkServed (caller self) s out seen.

(** One [receive], and the caller's answers to its event. *)
Definition served_receive (self : Served) (input : list byte) : Served * result SessionError (Z * option GuestEvent) :=
  let '(s, r) := receive (session self) input in
  let self := self <| session := s |> in
  match r with
  | Ok (n, Some event) => (serve self event, r)
  | _ => (self, r)
  end.

#[export] Instance served_role : Role Served GuestEvent := {
  role_parser s := parser (session s);
  set_parser p s := s <| session := ((session s) <| parser := p |>) |>;
  role_receiving s := receiving (state (session s));
  role_accept s r :=
    match accept (session s) r with
    | Ok (g, event) => Ok (serve (s <| session := g |>) event, event)
    | Err e => Err e
    end;
  role_fail s := s <| session := fail_guest (session s) |>;
}.

(** No answer looks at the parser. *)
Lemma answer_set p self out a :
  (guest_call (self <| parser := p |>) out (answer_op a)).1
  = (let '(s, o) := (guest_call self out (answer_op a)).1 in (s <| parser := p |>, o)).
Proof.
  destruct a as [w|d|n]; cbn.
  - unfold acknowledge. cbn. destruct (state self), (identity self); try done. by destruct (encode_record _ _ _ _ _ _).
  - unfold send. cbn. destruct (state self), (identity self); try done. by destruct (encode_data _ _ _ _) as [[? [? ?]]|].
  - unfold credit. cbn. destruct (state self), (identity self); try done. destruct (_ || _); [done|].
    by destruct (encode_next _ _ _ _ _) as [[? ?]|].
Qed.

Lemma answer_all_set p answers self out :
  answer_all (self <| parser := p |>) out answers = (let '(s, o) := answer_all self out answers in (s <| parser := p |>, o)).
Proof.
  unfold answer_all. revert self out. induction answers as [|a answers IH]; intros self out; [done|]. cbn [fold_left].
  rewrite answer_set. destruct (guest_call self out (answer_op a)).1 as [s o]. apply IH.
Qed.

#[export] Instance served_role_laws : RoleLaws Served GuestEvent.
Proof.
  split; try (by intros; repeat match goal with s : Served |- _ => destruct s as [? [] ? ?] end).
  intros p s r. pose proof (accept_set p (session s) r) as Ha. cbn in Ha |- *. rewrite Ha.
  destruct (accept (session s) r) as [[g event]|e]; [|done]. unfold serve.
  pose proof (answer_all_set p (caller s (seen s ++ [event])) g (written s)) as Hq.
  unfold answer_all in *. cbn in Hq |- *. rewrite Hq. by destruct (fold_left _ _ (g, written s)) as [s' o].
Qed.

Lemma served_receive_is_role_receive self input : served_receive self input = role_receive self input.
Proof.
  unfold served_receive, receive, role_receive. cbn. destruct (negb _); [by destruct self|].
  destruct (push _ _) as [p [[n [r|]]|e]]; [|done|done]. pose proof (accept_set p (session self) r) as Ha. cbn in Ha. rewrite Ha.
  by destruct (accept (session self) r) as [[g event]|e].
Qed.

(** The caller's loop over one piece of input, which stops at an error, and over a stream's pieces. *)
Fixpoint served_all (fuel : nat) (self : Served) (input : list byte) : Served * list GuestEvent * option SessionError :=
  match fuel, input with
  | O, _ | _, [] => (self, [], None)
  | Datatypes.S fuel, _ =>
      match served_receive self input with
      | (self, Err e) => (self, [], Some e)
      | (self, Ok (_, None)) => (self, [], None)
      | (self, Ok (n, Some event)) =>
          let '(self, events, err) := served_all fuel self (zdrop n input) in (self, event :: events, err)
      end
  end.

Fixpoint served_pieces (self : Served) (pieces : list (list byte)) : Served * list GuestEvent * option SessionError :=
  match pieces with
  | [] => (self, [], None)
  | c :: cs =>
      match served_all (length c) self c with
      | (self, events, Some e) => (self, events, Some e)
      | (self, events, None) => let '(self, events', err) := served_pieces self cs in (self, events ++ events', err)
      end
  end.

Lemma served_pieces_role pieces : forall self, served_pieces self pieces = receive_pieces self pieces.
Proof.
  assert (forall fuel self input, served_all fuel self input = receive_all fuel self input) as Hall.
  { induction fuel as [|fuel IH]; intros self input; [done|]. cbn [served_all receive_all]. destruct input as [|x input]; [done|].
    rewrite served_receive_is_role_receive. destruct (role_receive self (x :: input)) as [s [[n [e|]]|]]; [|done|done]. by rewrite IH. }
  induction pieces as [|c cs IH]; intros self; [done|]. cbn [served_pieces receive_pieces]. rewrite Hall.
  destruct (receive_all _ _ _) as [[s events] [e|]]; [done|]. by rewrite IH.
Qed.

(** Between two calls a session that is in progress can take any bytes. *)
Lemma guest_run_ready self out tr caller seen :
  guest_run self out tr -> receiving (state self) = true -> ready (mkServed caller self out seen).
Proof.
  intros H%guest_run_inv Hr. destruct H. split_and!; [done|by apply inv_healthy0|]. cbn. by rewrite Hr.
Qed.

(** C7: From every session in progress that any calls lead to, active or not, with a record half read
    or not, and with any caller that answers each event by acknowledging, sending and giving credit:
    however the transport cuts the broker's byte stream into pieces, the [receive] loop ends with the
    events, the error, the caller's output and the state (identity, sequence numbers, window and
    outstanding bytes included) of applying the stream's records, each with the caller's answers to
    it, one after another. *)
Theorem guest_receive_refines caller (self : GuestSession) (out : list byte) (tr : guest_trace) (pieces : list (list byte)) :
  guest_run self out tr -> receiving (state self) = true ->
  let start := mkServed caller self out [] in
  let '(served, events, err) := served_pieces start pieces in
  apply_stream start (partial (parser self) ++ concat pieces)
  = (served <| session := ((session served) <| parser := parser self |>) |>, events, err).
Proof.
  intros Hrun Hr. cbv zeta. rewrite served_pieces_role. pose proof (receive_pieces_spec (mkServed caller self out []) pieces (guest_run_ready _ _ _ caller [] Hrun Hr)) as H.
  destruct (receive_pieces _ pieces) as [[s events] err]. apply H.
Qed.

(** A caller that opens each epoch with a window, and gives back what it is sent. *)
Definition sample_caller (events : list GuestEvent) : list answer :=
  match last events with
  | Some (EventReset _) => [Acknowledge 65536]
  | Some (EventData payload) => [GiveCredit (len payload); SendData payload]
  | None => []
  end.

(** The stream of an epoch with two DATA, cut within its records, from a session just attached. *)
Definition sample_stream : list byte :=
  encoding (sent_record Reset sample_identity 5 []) ++ encoding (sent_record Data sample_identity 6 (bytes_of "hello"))
  ++ encoding (sent_record Data sample_identity 7 (bytes_of "again")).

Lemma guest_receive_refines_witness :
  let start := mkServed sample_caller (after_calls [OpAttach]).1.1 (after_calls [OpAttach]).1.2 [] in
  let '(served, events, err) := served_pieces start [ztake 10 sample_stream; ztake 70 (zdrop 10 sample_stream); zdrop 80 sample_stream] in
  events = [EventReset sample_identity; EventData (bytes_of "hello"); EventData (bytes_of "again")] /\ err = None
  /\ state (session served) = Active /\ outstanding (session served) = 0 /\ (apply_stream start sample_stream).1.2 = events.
Proof.
  pose proof (guest_after_calls_run [OpAttach] ltac:(repeat constructor)) as Hrun.
  destruct (after_calls [OpAttach]) as [[self out] tr] eqn:E. cbv zeta.
  pose proof (guest_receive_refines sample_caller self out tr [ztake 10 sample_stream; ztake 70 (zdrop 10 sample_stream); zdrop 80 sample_stream] Hrun) as H.
  vm_compute in E. injection E as <- <- <-. specialize (H eq_refl). cbn [fst snd] in *.
  destruct (served_pieces _ _) as [[served events] err] eqn:Er. vm_compute in Er. injection Er as <- <- <-.
  split_and!; [vm_compute; reflexivity..|].
  replace (partial _ ++ concat _) with sample_stream in H by (vm_compute; reflexivity). rewrite H. reflexivity.
Defined.

(** ** What the guest accepts *)

(** A RESET that the session takes. *)
Definition takes_reset (self : GuestSession) (r : NvxsRecord) : Prop :=
  record_type r = Reset /\ receiving (state self) = true /\ sequence r < U64_MAX /\
  exists new, record_identity r = Some new /\
    forall i, identity self = Some i -> id_instance i = id_instance new -> id_epoch i < id_epoch new.

(** A DATA record that the session takes. *)
Definition takes_data (self : GuestSession) (r : NvxsRecord) : Prop :=
  record_type r = Data /\ state self = Active /\ sequence r = receive_sequence self
  /\ receive_sequence self < U64_MAX /\ (exists i, identity self = Some i /\ carries r i)
  /\ len (payload r) <= window self - outstanding self.

Lemma reset_accepted self r :
  takes_reset self r -> exists self' e, accept self r = Ok (self', e).
Proof.
  intros (Ht & Hr & Hs & new & Hn & Hadv).
  assert (Hok : exists s e, reset self r = Ok (s, e)).
  { unfold reset. rewrite Hn. cbn. rewrite (proj2 (next_sequence_ok _ _ _) (conj eq_refl Hs)).
    destruct (identity self) as [i|] eqn:Hid; [|by eexists _, _].
    destruct (bool_decide _ && _) eqn:Hb; [|by eexists _, _].
    bool_to_prop. specialize (Hadv i eq_refl H). lia. }
  unfold accept. rewrite Ht. by destruct (state self).
Qed.

Lemma data_accepted self r :
  valid_record r -> 0 <= outstanding self <= window self -> takes_data self r ->
  exists self' e, accept self r = Ok (self', e).
Proof.
  intros Hv Ho (Ht & Hst & Hs & Hu & (i & Hid & Hc) & Hw).
  destruct (data_length r Hv Ht) as [Hl _].
  unfold accept. rewrite Ht, Hst. unfold data. rewrite Hid.
  rewrite (proj2 (check_sequence_ok r (receive_sequence self) ()) Hs). cbn.
  rewrite (proj2 (check_identity_ok r i ()) Hc). cbn.
  rewrite (proj2 (next_sequence_ok _ _ _) (conj eq_refl Hu)). cbn. rewrite Hl.
  unfold saturating_sub. destruct (Z.ltb_spec (Z.max 0 (window self - outstanding self))
    (len (payload r))); [lia|]. by eexists _, _.
Qed.

(** In every reachable state, the guest accepts a well-formed record if and only if it is a
    RESET with an identity that starts another instance or a later epoch, or a DATA record of an
    active epoch with exactly the session's identity, exactly the next sequence number, and a
    payload within the free window. A RESET forgets the earlier epoch's numbers and window; a
    DATA record advances the sequence by one and is delivered and counted in full. Anything else
    ends the session in [Failed]. *)
Theorem guest_accepts_exactly (self : GuestSession) (out : list byte) (tr : guest_trace)
    (r : NvxsRecord) :
  guest_run self out tr -> valid_record r ->
  match accept self r with
  | Ok (self', EventReset new) =>
      takes_reset self r /\ record_identity r = Some new /\ state self' = Resetting
      /\ identity self' = Some new /\ receive_sequence self' = sequence r + 1
      /\ send_sequence self' = 0 /\ window self' = 0 /\ outstanding self' = 0
  | Ok (self', EventData p) =>
      takes_data self r /\ p = payload r /\ state self' = Active
      /\ identity self' = identity self /\ receive_sequence self' = receive_sequence self + 1
      /\ send_sequence self' = send_sequence self /\ window self' = window self
      /\ outstanding self' = outstanding self + len p
  | Err _ => ~ takes_reset self r /\ ~ takes_data self r
  end.
Proof.
  intros Hrun Hv. pose proof (inv_outstanding _ _ (guest_run_inv _ _ _ Hrun)) as Ho.
  destruct (accept self r) as [[s e]|e] eqn:Ha.
  - apply guest_accept_inv in Ha. destruct (record_type r) eqn:Ht; try done.
    + destruct Ha as (Hr & new & Hn & Hu & Hadv & -> & ->). cbn. split_and!; try done.
      by split_and!; try done; exists new.
    + destruct Ha as (Hst & i & Hid & Hc & Hs & Hu & Hw & -> & ->).
      destruct (data_length r Hv Ht) as [Hl _]. rewrite Hl in *. unfold saturating_sub in Hw.
      cbn. split_and!; try done. unfold takes_data. split_and!; try done; [by exists i|lia].
  - split; intros H.
    + apply reset_accepted in H as (s & ev & H). congruence.
    + apply data_accepted in H as (s & ev & H); [congruence|done|done].
Qed.

Lemma guest_accepts_exactly_witness :
  let '(self, _, _) := after_calls sample_calls in
  match accept self (sent_record Data sample_identity 7 (bytes_of "x")) with
  | Ok (self', _) => outstanding self' = 4
  | Err _ => False
  end.
Proof.
  pose proof (guest_after_calls_run sample_calls sample_calls_typed) as H.
  assert (Hv : valid_record (sent_record Data sample_identity 7 (bytes_of "x")))
    by (unfold valid_record, typed_record, is_u64; concrete).
  destruct (after_calls sample_calls) as [[self out] tr] eqn:E.
  pose proof (guest_accepts_exactly self out tr _ H Hv) as G. clear H.
  vm_compute in E. injection E as <- _ _. vm_compute in G. vm_compute.
  destruct G as (_ & _ & _ & _ & _ & _ & _ & G). exact G.
Defined.

(** ** What the guest writes *)

(** Records with consecutive sequence numbers from [s] on. *)
Fixpoint in_sequence (s : Z) (rs : list NvxsRecord) : Prop :=
  match rs with [] => True | r :: rs => sequence r = s /\ in_sequence (s + 1) rs end.

(** The records of one epoch: nothing before it is acknowledged, then ACK at sequence 0 with a
    legal window, then DATA and CREDIT of the epoch's identity, numbered from 1. *)
Definition epoch_output (i : Identity) (rs : list NvxsRecord) : Prop :=
  rs = [] \/ exists w ds,
    rs = sent_record Ack i 0 (to_le_bytes 4 w) :: ds
    /\ OUTER_MIN_RECEIVE_WINDOW <= w <= OUTER_MAX_RECEIVE_WINDOW /\ in_sequence 1 ds
    /\ Forall (fun r => carries r i /\ (record_type r = Data \/ record_type r = Credit)) ds.

(** The application bytes and the credited bytes that some records carry. *)
Definition data_of (rs : list NvxsRecord) : list byte :=
  concat (map (fun r => if decide (record_type r = Data) then payload r else []) rs).
Fixpoint credits_of (rs : list NvxsRecord) : Z :=
  match rs with
  | [] => 0
  | r :: rs => match record_credit r with Some n => n | None => 0 end + credits_of rs
  end.
Fixpoint credited (tr : guest_trace) : Z :=
  match tr with
  | [] => 0
  | (OpCredit n, Ok _) :: tr => n + credited tr
  | _ :: tr => credited tr
  end.

Definition attach_record : NvxsRecord := mkRecord GuestAttach zero_id 0 0 [].

(** The guest's whole output: GUEST_ATTACH, then one group of records per RESET that it took. *)
Definition guest_output (tr : guest_trace) (rs : list NvxsRecord) : Prop :=
  (rs = [] /\ resets tr = [] /\ sent_bytes tr = [] /\ credited tr = 0) \/
  exists epochs, rs = attach_record :: concat epochs
    /\ Forall2 epoch_output (resets tr) epochs
    /\ data_of rs = sent_bytes tr /\ credits_of rs = credited tr.

(** How the output so far stands with the session's state. *)
Definition output_state (self : GuestSession) (rs : list NvxsRecord) (epochs : list (list NvxsRecord))
    : Prop :=
  match state self with
  | Detached => rs = []
  | Attaching => epochs = []
  | Resetting => exists before, epochs = before ++ [[]]
  | Active => exists before ack ds, epochs = before ++ [ack :: ds] /\ send_sequence self = 1 + len ds
  | Closed | Failed => True
  end.

Definition output_inv (self : GuestSession) (out : list byte) (tr : guest_trace) : Prop :=
  exists rs epochs, out = concat (map encoding rs) /\ Forall valid_record rs
    /\ ((rs = [] /\ epochs = []) \/ rs = attach_record :: concat epochs)
    /\ (receiving (state self) = true -> rs <> [])
    /\ Forall2 epoch_output (resets tr) epochs
    /\ data_of rs = sent_bytes tr /\ credits_of rs = credited tr /\ output_state self rs epochs.

Lemma in_sequence_snoc s rs r :
  in_sequence s (rs ++ [r]) <-> in_sequence s rs /\ sequence r = s + len rs.
Proof.
  revert s. induction rs as [|x rs IH]; intros s; cbn [app in_sequence].
  - rewrite len_nil, Z.add_0_r. tauto.
  - rewrite IH, len_cons, <- Z.add_assoc. tauto.
Qed.

Lemma data_of_app k l : data_of (k ++ l) = data_of k ++ data_of l.
Proof. unfold data_of. by rewrite map_app, concat_app. Qed.

Lemma credits_of_app k l : credits_of (k ++ l) = credits_of k + credits_of l.
Proof. induction k as [|r k IH]; cbn; [done|]. rewrite IH. lia. Qed.

Lemma credited_snoc tr c :
  credited (tr ++ [c]) = credited tr + match c with (OpCredit n, Ok _) => n | _ => 0 end.
Proof.
  induction tr as [|[op r] tr IH]; cbn [app credited].
  - destruct c as [[] []]; cbn; lia.
  - rewrite IH. destruct op, r; lia.
Qed.

(** A call that writes nothing and starts no epoch. *)
Lemma guest_output_inv_quiet self out tr c self' :
  output_inv self out tr -> quiet c -> (forall d n, c <> (OpSend d, Ok (Taken n))) ->
  (receiving (state self') = true -> receiving (state self) = true) ->
  (forall rs epochs, output_state self rs epochs -> output_state self' rs epochs) ->
  output_inv self' out (tr ++ [c]).
Proof.
  intros (rs & epochs & -> & Hv & Hs & Hr & Ho & Hd & Hc & Hst) Hq Hn Hrec Hkeep.
  exists rs, epochs. split_and!; auto.
  - by rewrite quiet_resets.
  - rewrite guest_sent_bytes_snoc, Hd. destruct c as [[] [[]|]]; try (by rewrite app_nil_r). by edestruct Hn.
  - rewrite credited_snoc, Hc. destruct Hq as [_ Hq].
    destruct c as [[] []]; try lia. by edestruct Hq.
Qed.

(** A record appended to an active epoch. *)
Lemma output_inv_append self tr out i d c self' :
  output_inv self out tr -> guest_inv self tr -> state self = Active -> identity self = Some i ->
  valid_record d -> carries d i -> sequence d = send_sequence self ->
  (record_type d = Data \/ record_type d = Credit) -> event_of c = None ->
  data_of [d] = match c with (OpSend data, Ok (Taken n)) => ztake n data | _ => [] end ->
  credits_of [d] = match c with (OpCredit n, Ok _) => n | _ => 0 end ->
  state self' = Active -> send_sequence self' = send_sequence self + 1 ->
  output_inv self' (out ++ encoding d) (tr ++ [c]).
Proof.
  intros (rs & epochs & -> & Hv & Hs & Hr & Ho & Hd & Hc & Hst) Hi Hact Hid Hvd Hcar Hseq Hty He
    Hdd Hcd Hact' Hsend'.
  unfold output_state in Hst. rewrite Hact in *.
  destruct Hst as (before & ack & ds & -> & Hsend).
  destruct Hs as [[_ ?]| ->]; [by destruct before|].
  exists (attach_record :: concat (before ++ [ack :: ds ++ [d]])), (before ++ [ack :: ds ++ [d]]).
  assert (Hcat : attach_record :: concat (before ++ [ack :: ds ++ [d]])
    = (attach_record :: concat (before ++ [ack :: ds])) ++ [d]).
  { rewrite !concat_app. cbn. rewrite !app_nil_r. cbn. by rewrite <- !app_assoc. }
  split_and!; rewrite ?Hcat.
  - rewrite map_app, (concat_app (map encoding (_ :: _))). cbn [map concat]. by rewrite app_nil_r.
  - apply Forall_app. split; [done|by constructor].
  - by right.
  - done.
  - rewrite resets_snoc, He, app_nil_r. apply Forall2_app_inv_r in Ho as (ids & [|x [|]] & Hb & Hx & Hl);
      inv Hx; try match goal with H : Forall2 _ (_ :: _) [] |- _ => by inv H end.
    pose proof (inv_identity _ _ Hi) as Hlast. rewrite Hl, last_snoc, Hid in Hlast.
    injection Hlast as ->. rewrite Hl. apply Forall2_app; [done|]. constructor; [|constructor].
    match goal with H : epoch_output _ _ |- _ => destruct H as [?|(w & ds' & [= -> ->] & Hw & Hq & Hall)] end;
      [done|].
    right. exists w, (ds' ++ [d]). split; [done|]. split; [exact Hw|]. split.
    + apply in_sequence_snoc. split; [done|]. lia.
    + apply Forall_app. split; [done|]. by constructor.
  - by rewrite data_of_app, Hd, Hdd, guest_sent_bytes_snoc.
  - by rewrite credits_of_app, Hc, Hcd, credited_snoc.
  - unfold output_state. rewrite Hact'. exists before, ack, (ds ++ [d]). split; [done|]. len_lia.
Qed.

Lemma attach_record_valid : valid_record attach_record.
Proof. unfold valid_record, typed_record, is_u64. concrete. Qed.

Lemma attach_output self out tr self' out' r :
  output_inv self out tr -> attach self out = (self', out', r) ->
  output_inv self' out' (tr ++ [(OpAttach, _ ← r; Ok Done)]).
Proof.
  intros Ho H. apply guest_attach_cases in H as [(e & -> & -> & ->)|(Hst & -> & -> & ->)].
  { by eapply guest_output_inv_quiet. }
  destruct Ho as (rs & epochs & -> & Hv & Hs & Hr & Ho & Hd & Hc & Hos).
  unfold output_state in Hos. rewrite Hst in *. subst rs. destruct Hs as [[_ ->]|?]; [|done].
  exists [attach_record], []. split_and!; try done.
  - constructor; [apply attach_record_valid|constructor].
  - by right.
  - by rewrite resets_snoc, app_nil_r.
  - by rewrite guest_sent_bytes_snoc, <- Hd.
  - by rewrite credited_snoc, <- Hc.
Qed.

Lemma guest_receive_output self out tr input self' r :
  output_inv self out tr -> guest_inv self tr -> receive self input = (self', r) ->
  output_inv self' out (tr ++ [(OpReceive input, '(n, e) ← r; Ok (Received n e))]).
Proof.
  intros Ho Hi H. apply receive_cases in H as [(_ & -> & ->)|(Hr & p & pushed & Hp & H)].
  { by eapply guest_output_inv_quiet. }
  destruct H as [(n & _ & -> & ->)|[(e & -> & ->)|(n & rec & s & ev & _ & Ha & -> & ->)]].
  1,2: by eapply guest_output_inv_quiet.
  apply guest_accept_inv in Ha. destruct (record_type rec) eqn:Ht; try done.
  - destruct Ha as (_ & new & Hn & _ & _ & -> & ->).
    destruct Ho as (rs & epochs & -> & Hv & Hs & Hrs & Ho & Hd & Hc & Hos).
    specialize (Hrs Hr). destruct Hs as [[? _]| ->]; [done|].
    exists (attach_record :: concat (epochs ++ [[]])), (epochs ++ [[]]).
    rewrite concat_app. cbn [concat]. rewrite !app_nil_r. split_and!; try done.
    + by right.
    + rewrite resets_snoc. cbn. apply Forall2_app; [done|]. constructor; [by left|constructor].
    + by rewrite guest_sent_bytes_snoc, app_nil_r.
    + rewrite credited_snoc. lia.
    + by exists epochs.
  - destruct Ha as (Hst & i & Hid & _ & _ & _ & _ & -> & ->).
    destruct Ho as (rs & epochs & -> & Hv & Hs & Hrs & Ho & Hd & Hc & Hos).
    exists rs, epochs. split_and!; try done.
    + rewrite resets_snoc. cbn. by rewrite app_nil_r.
    + by rewrite guest_sent_bytes_snoc, app_nil_r.
    + rewrite credited_snoc. lia.
Qed.

Lemma acknowledge_output self out tr w self' out' r :
  is_u32 w -> output_inv self out tr -> guest_inv self tr ->
  acknowledge self w out = (self', out', r) ->
  output_inv self' out' (tr ++ [(OpAcknowledge w, _ ← r; Ok Done)]).
Proof.
  intros Hu Ho Hi H.
  apply acknowledge_cases in H as [(e & -> & -> & ->)|(i & Hst & Hid & -> & Hp & -> & ->)].
  { by eapply guest_output_inv_quiet. }
  destruct Ho as (rs & epochs & -> & Hv & Hs & Hrs & Ho & Hd & Hc & Hos).
  unfold output_state in Hos. rewrite Hst in *. destruct Hos as (before & ->).
  destruct Hs as [[_ ?]| ->]; [by destruct before|].
  set (ack := sent_record Ack i 0 (to_le_bytes 4 w)).
  assert (Hcat : attach_record :: concat (before ++ [[ack]])
    = (attach_record :: concat (before ++ [[]])) ++ [ack]).
  { rewrite !concat_app. cbn. by rewrite !app_nil_r. }
  apply Forall2_app_inv_r in Ho as (ids & [|x [|]] & Hb & Hx & Hl);
    inv Hx; try match goal with H : Forall2 _ (_ :: _) [] |- _ => by inv H end.
  pose proof (inv_identity _ _ Hi) as Hlast. rewrite Hl, last_snoc, Hid in Hlast.
  injection Hlast as ->.
  assert (Hvi : valid_identity i).
  { pose proof (inv_valid _ _ Hi) as Hall. rewrite Hl in Hall.
    apply Forall_app in Hall as [_ Hall]. by inv Hall. }
  exists (attach_record :: concat (before ++ [[ack]])), (before ++ [[ack]]).
  split_and!; rewrite ?Hcat.
  - rewrite map_app, (concat_app (map encoding (_ :: _))). cbn [map concat]. by rewrite app_nil_r.
  - apply Forall_app. split; [done|]. constructor; [|constructor].
    by apply valid_identity_record.
  - by right.
  - done.
  - rewrite resets_snoc, Hl, app_nil_r. apply Forall2_app; [done|].
    constructor; [|constructor]. right. exists w, []. split; [done|].
    split; [by apply check_ack_window|by split].
  - by rewrite data_of_app, Hd, guest_sent_bytes_snoc.
  - by rewrite credits_of_app, Hc, credited_snoc.
  - unfold output_state. cbn. by exists before, ack, [].
Qed.

Lemma guest_identity_valid self tr i :
  guest_inv self tr -> identity self = Some i -> valid_identity i.
Proof.
  intros [] Hid. rewrite Hid in inv_identity0. apply last_Some in inv_identity0 as [l Hl].
  rewrite Hl in inv_valid0. apply Forall_app in inv_valid0 as [_ Hall]. by inv Hall.
Qed.

Lemma send_output self out tr data self' out' r :
  output_inv self out tr -> guest_inv self tr -> send self data out = (self', out', r) ->
  output_inv self' out' (tr ++ [(OpSend data, n ← r; Ok (Taken n))]).
Proof.
  intros Ho Hi H.
  apply guest_send_cases in H as [(e & -> & -> & ->)|(i & Hst & Hid & Hd & Hu & -> & -> & ->)].
  { by eapply guest_output_inv_quiet. }
  pose proof (guest_identity_valid _ _ _ Hi Hid).
  eapply output_inv_append; eauto; try done.
  - apply valid_identity_record; try done; [apply Hi|].
    assert (len data <> 0) by (by rewrite len_zero_iff).
    cbn. unfold OUTER_MAX_PAYLOAD. apply andb_true_intro. rewrite !Z.leb_le. len_lia.
  - cbn. by rewrite app_nil_r.
Qed.

Lemma credit_output self out tr bytes self' out' r :
  is_u32 bytes -> output_inv self out tr -> guest_inv self tr ->
  credit self bytes out = (self', out', r) ->
  output_inv self' out' (tr ++ [(OpCredit bytes, _ ← r; Ok Done)]).
Proof.
  intros Hb Ho Hi H.
  apply guest_credit_cases in H as [(e & -> & -> & ->)|(i & Hst & Hid & -> & ? & ? & Hu & Hp & -> & ->)].
  { by eapply guest_output_inv_quiet. }
  pose proof (guest_identity_valid _ _ _ Hi Hid).
  eapply output_inv_append; eauto; try done.
  - apply valid_identity_record; try done. apply Hi.
  - unfold credits_of, record_credit, value. cbn [sent_record record_type payload].
    rewrite decide_True by done. rewrite u32_le_roundtrip by done. apply Z.add_0_r.
Qed.

Lemma guest_run_output self out tr : guest_run self out tr -> output_inv self out tr.
Proof.
  induction 1 as [|self out tr op self' out' r Hrun IH Hop Hcall].
  { exists [], []. split_and!; try done. by left. }
  pose proof (guest_run_inv _ _ _ Hrun) as Hi. destruct op as [|input|w|data|bytes|]; cbn in Hcall.
  - destruct (attach self out) as [[s o] r'] eqn:H. injection Hcall as <- <- <-.
    eauto using attach_output.
  - destruct (receive self input) as [s r'] eqn:H. injection Hcall as <- <- <-.
    eauto using guest_receive_output.
  - destruct (acknowledge self w out) as [[s o] r'] eqn:H. injection Hcall as <- <- <-.
    eauto using acknowledge_output.
  - destruct (send self data out) as [[s o] r'] eqn:H. injection Hcall as <- <- <-.
    eauto using send_output.
  - destruct (credit self bytes out) as [[s o] r'] eqn:H. injection Hcall as <- <- <-.
    eauto using credit_output.
  - destruct (disconnect self) as [s r'] eqn:H. injection Hcall as <- <- <-.
    apply guest_disconnect_cases in H as [[-> Hs]|[-> | ->]]; by eapply guest_output_inv_quiet.
Qed.

(** Whatever calls a caller makes, the bytes that the guest wrote are well-formed records:
    GUEST_ATTACH, then for each RESET that it took, in order, nothing or an ACK at sequence 0 with
    a legal window followed by DATA and CREDIT records of that RESET's identity numbered from 1
    without a gap. The DATA payloads join to the bytes that its [send]s took, and the CREDIT
    records return exactly the bytes that the caller credited. *)
Theorem guest_output_exact (self : GuestSession) (out : list byte) (tr : guest_trace) :
  guest_run self out tr ->
  exists rs, out = concat (map encoding rs) /\ Forall valid_record rs /\ guest_output tr rs.
Proof.
  intros H. destruct (guest_run_output _ _ _ H)
    as (rs & epochs & -> & Hv & Hs & _ & Ho & Hd & Hc & _).
  exists rs. split_and!; try done. destruct Hs as [[-> ->]| ->].
  - left. inv Ho. by split_and!.
  - right. by exists epochs.
Qed.

Lemma guest_output_exact_witness :
  let '(self, out, tr) := after_calls sample_calls in
  exists rs, out = concat (map encoding rs) /\ Forall valid_record rs /\ guest_output tr rs.
Proof.
  pose proof (guest_after_calls_run sample_calls sample_calls_typed) as H.
  destruct (after_calls sample_calls) as [[self out] tr].
  exact (guest_output_exact self out tr H).
Defined.

(** How the guest fails. A refused [attach], [acknowledge], [send] or [credit] changes neither
    the session nor the output. A failing [receive] either found the session not receiving and
    changed nothing, or ends it in [Failed] with its window accounting as it was. A [disconnect]
    fails exactly inside a record. A closed or failed session never changes and writes nothing. *)
Theorem guest_failures (self : GuestSession) (out : list byte) (op : guest_op) :
  let '(self', out', r) := guest_call self out op in
  match r with
  | Ok _ => True
  | Err e =>
      out' = out /\
      match op with
      | OpReceive _ => (e = InvalidState /\ self' = self /\ receiving (state self) = false)
                       \/ (receiving (state self) = true /\ state self' = Failed
                           /\ identity self' = identity self /\ outstanding self' = outstanding self
                           /\ window self' = window self)
      | OpDisconnect => e = Truncated (buffered (parser self)) /\ buffered (parser self) <> 0
                        /\ self' = fail_guest self
      | _ => self' = self
      end
  end /\
  match state self with
  | Closed | Failed => self' = self /\ out' = out
  | _ => True
  end.
Proof.
  destruct op as [|input|w|data|bytes|]; cbn.
  - destruct (attach self out) as [[s o] r] eqn:H.
    apply guest_attach_cases in H as [(e & -> & -> & ->)|(Hst & -> & _)]; [|by rewrite Hst].
    split; [done|]. by destruct (state self).
  - destruct (receive self input) as [s r] eqn:H.
    apply receive_cases in H as [(Hr & -> & ->)|(Hr & p & pushed & _ & H)].
    { split; [cbn; by auto|]. by destruct (state self). }
    split; [|by destruct (state self)].
    destruct H as [(n & _ & -> & ->)|[(e & -> & ->)|(n & rec & s' & ev & _ & _ & -> & ->)]]; cbn; auto 10.
  - destruct (acknowledge self w out) as [[s o] r] eqn:H.
    apply acknowledge_cases in H as [(e & -> & -> & ->)|(i & Hst & _ & -> & _)]; [|by rewrite Hst].
    split; [done|]. by destruct (state self).
  - destruct (send self data out) as [[s o] r] eqn:H.
    apply guest_send_cases in H as [(e & -> & -> & ->)|(i & Hst & _ & _ & _ & -> & _)]; [|by rewrite Hst].
    split; [done|]. by destruct (state self).
  - destruct (credit self bytes out) as [[s o] r] eqn:H.
    apply guest_credit_cases in H as [(e & -> & -> & ->)|(i & Hst & _ & -> & _)]; [|by rewrite Hst].
    split; [done|]. by destruct (state self).
  - unfold disconnect. destruct (state self); cbn; try done;
      destruct (Z.eqb_spec (buffered (parser self)) 0); cbn; done.
Qed.
