(* ===== verification/ExecTypes.v ===== *)
(** * Executions: the vocabulary of both sides (src/nvx-rs/src/exec/mod.rs)

    Keys, streams, pools, windows, limits, timers, outcomes, receipts and violations, and the
    arithmetic on instants. A two-element array that the code indexes by a stream's or a pool's
    position is an [array2], whose positions 0 and 1 are named [Stdout] and [Stderr]. *)

From S2P Require Import Prelude.

Inductive Violation : Type :=
| VKey | VPool | VCredit | VChunk | VWindow | VEnded | VOrder.

Inductive Receipt : Type := Applied | Stale | Late.

Record Key := mkKey { key_id : Z; generation : Z }.

(** [Key::admits]. *)
Definition admits (self message : Key) : result Violation bool :=
  if negb (key_id message =? key_id self) then Err VKey
  else match generation message ?= generation self with
  | Lt => Ok false
  | Eq => Ok true
  | Gt => Err VKey
  end.

Inductive Stream : Type := Stdout | Stderr.

#[export] Instance Stream_eq_dec : EqDecision Stream.
Proof. solve_decision. Defined.

(** [Stream::ALL]. *)
Definition ALL : list Stream := [Stdout; Stderr].

(** ** Arrays of two elements, by position *)

Record array2 (A : Type) := mkArray2 { at0 : A; at1 : A }.
Arguments mkArray2 {A} _ _.
Arguments at0 {A} _.
Arguments at1 {A} _.

Definition idx {A} (a : array2 A) (i : Stream) : A :=
  match i with Stdout => at0 a | Stderr => at1 a end.
Definition alter2 {A} (i : Stream) (f : A -> A) (a : array2 A) : array2 A :=
  match i with
  | Stdout => mkArray2 (f (at0 a)) (at1 a)
  | Stderr => mkArray2 (at0 a) (f (at1 a))
  end.
Definition map2 {A B} (f : A -> B) (a : array2 A) : array2 B := mkArray2 (f (at0 a)) (f (at1 a)).
Definition all2 {A} (f : A -> bool) (a : array2 A) : bool := f (at0 a) && f (at1 a).
Definition any2 {A} (f : A -> bool) (a : array2 A) : bool := f (at0 a) || f (at1 a).

(** [1 - position]. *)
Definition other (s : Stream) : Stream := match s with Stdout => Stderr | Stderr => Stdout end.

Lemma idx_alter2 {A} i j f (a : array2 A) :
  idx (alter2 i f a) j = if decide (i = j) then f (idx a j) else idx a j.
Proof. by destruct i, j. Qed.

Lemma idx_alter2_same {A} i f (a : array2 A) : idx (alter2 i f a) i = f (idx a i).
Proof. by destruct i. Qed.

Lemma idx_alter2_ne {A} i j f (a : array2 A) : i <> j -> idx (alter2 i f a) j = idx a j.
Proof. by destruct i, j. Qed.

Lemma idx_map2 {A B} (f : A -> B) a i : idx (map2 f a) i = f (idx a i).
Proof. by destruct i. Qed.

Lemma all2_spec {A} (f : A -> bool) a : all2 f a = true <-> forall i, f (idx a i) = true.
Proof.
  unfold all2. rewrite andb_true_iff. split; [intros [] []; done|].
  intros H. split; [apply (H Stdout)|apply (H Stderr)].
Qed.

Lemma array2_ext {A} (a b : array2 A) : (forall i, idx a i = idx b i) -> a = b.
Proof.
  intros H. pose proof (H Stdout) as H0. pose proof (H Stderr) as H1. destruct a, b. cbn in *.
  congruence.
Qed.

Create Rewrite HintDb arrays.
#[export] Hint Rewrite @idx_alter2_same @idx_map2 : arrays.

(** ** Credit pools *)

Inductive Pool : Type := PoolInput | PoolStdout | PoolStderr | PoolOutput.

#[export] Instance Pool_eq_dec : EqDecision Pool.
Proof. solve_decision. Defined.

Inductive Unit_ : Type := Bytes | Frames.

#[export] Instance Unit_eq_dec : EqDecision Unit_.
Proof. solve_decision. Defined.

Record Window := mkWindow { unit_ : Unit_; size : Z }.

(** [credit::units]. *)
Definition units (count : Z) : Z := try_or_max U32_MAX count.

(** [Window::cost]. *)
Definition cost (self : Window) (length : Z) : Z :=
  match unit_ self with Bytes => units length | Frames => 1 end.

(** [Window::bytes_with]. *)
Definition bytes_with (self : Window) (chunk : Z) : Z :=
  match unit_ self with Bytes => size self | Frames => saturating_mul (size self) chunk end.

Record Limits := mkLimits { chunk : Z; input_window : Window; output_window : Window; shared : bool }.

(** [Limits::new]. *)
Definition new_limits (chunk : Z) (input output : Window) : option Limits :=
  if (chunk =? 0) || (size input =? 0) || (size output =? 0) then None
  else Some {| chunk := chunk; input_window := input; output_window := output; shared := false |}.

(** [Limits::shared_output]. *)
Definition shared_output (self : Limits) : Limits :=
  {| chunk := chunk self; input_window := input_window self;
     output_window := output_window self; shared := true |}.

(** [Limits::output_pools], by position. *)
Definition output_pools (self : Limits) : list Pool :=
  if shared self then [PoolOutput] else [PoolStdout; PoolStderr].

(** [Limits::pool_of]: the position of a stream's output pool. *)
Definition pool_of (self : Limits) (stream : Stream) : Stream :=
  if shared self then Stdout else stream.

(** [Limits::output_pool]. *)
Definition output_pool (self : Limits) (pool : Pool) : result Violation Stream :=
  match pool, shared self with
  | PoolOutput, true => Ok Stdout
  | PoolStdout, false => Ok Stdout
  | PoolStderr, false => Ok Stderr
  | _, _ => Err VPool
  end.

(** [Limits::check_chunk]. *)
Definition check_chunk (self : Limits) (length : Z) : result Violation unit :=
  if (length =? 0) || (chunk self <? length) then Err VChunk else Ok ().

(** [Limits::input_bytes] and [Limits::output_bytes]. *)
Definition input_bytes (self : Limits) : Z := bytes_with (input_window self) (chunk self).
Definition output_bytes (self : Limits) : Z :=
  let pools := if shared self then 1 else 2 in
  saturating_mul (bytes_with (output_window self) (chunk self)) pools.

(** ** Time

    An [Instant] is a number of nanoseconds, up to the last one that its seconds, an [i64], can
    hold; a [Duration] is a number of nanoseconds that is not negative. *)

Definition INSTANT_MAX : Z := (2 ^ 63 - 1) * 1000000000 + 999999999.

Definition after (now duration : Z) : option Z := checked_add INSTANT_MAX now duration.

Definition earliest (first second : option Z) : option Z :=
  match first, second with
  | Some first, Some second => Some (Z.min first second)
  | Some first, None => Some first
  | None, second => second
  end.

(** [Option::is_some_and(|at| now >= at)]. *)
Definition reached (at_ : option Z) (now : Z) : bool :=
  match at_ with Some t => t <=? now | None => false end.

Record Timers := mkTimers { timeout : option Z; grace : Z; settlement : Z }.

(** A [Duration] is not negative. *)
Definition durations (t : Timers) : Prop :=
  0 <= grace t /\ 0 <= settlement t /\ forall d, timeout t = Some d -> 0 <= d.

(** ** Outcomes *)

Inductive Cause : Type := Cancelled | Dropped | TimedOut | CauseReset | Disconnected.

Inductive Status : Type := Exited (code : Z) | Signaled (signal : Z).

Record LaunchFailure := mkLaunchFailure { stage : Z; launch_error : Z }.

Inductive Settlement : Type := SettlementSettled | SettlementFailed.

Record Outcome := mkOutcome {
  status : option Status;
  outcome_cause : option Cause;
  launch_failure : option LaunchFailure;
  outcome_truncated : array2 bool;
  reusable : bool;
}.

#[export] Instance eta_Outcome : Eta Outcome := fun o =>
  mkOutcome (status o) (outcome_cause o) (launch_failure o) (outcome_truncated o) (reusable o).

(** [Outcome::new]. *)
Definition new_outcome (s : option Status) : Outcome :=
  {| status := s; outcome_cause := None; launch_failure := None;
     outcome_truncated := mkArray2 false false; reusable := false |}.

Definition with_cause (self : Outcome) (cause : Cause) : Outcome :=
  self <| outcome_cause := Some cause |>.
Definition with_launch_failure (self : Outcome) (failure : LaunchFailure) : Outcome :=
  self <| launch_failure := Some failure |>.
Definition with_truncated (self : Outcome) (stream : Stream) : Outcome :=
  self <| outcome_truncated := alter2 stream (fun _ => true) (outcome_truncated self) |>.
Definition with_reusable (self : Outcome) : Outcome := self <| reusable := true |>.
Definition is_truncated (self : Outcome) (stream : Stream) : bool :=
  idx (outcome_truncated self) stream.

(** ** Typing and the shared facts about limits *)

(** Limits that [new_limits] and [shared_output] can produce from [u32] values. *)
Definition valid_limits (l : Limits) : Prop :=
  1 <= chunk l <= U32_MAX /\ 1 <= size (input_window l) <= U32_MAX
  /\ 1 <= size (output_window l) <= U32_MAX.

Lemma new_limits_valid c i o l :
  is_u32 c -> is_u32 (size i) -> is_u32 (size o) -> new_limits c i o = Some l ->
  valid_limits l /\ valid_limits (shared_output l).
Proof.
  unfold new_limits. intros Hc Hi Ho H.
  destruct (_ || _) eqn:E; [done|]. injection H as <-. bool_to_prop.
  unfold valid_limits, is_u32 in *. cbn. lia.
Qed.

Lemma admits_same k : admits k k = Ok true.
Proof. unfold admits. by rewrite Z.eqb_refl, Z.compare_refl. Qed.

Lemma admits_ok k m b :
  admits k m = Ok b -> key_id m = key_id k /\ generation m <= generation k.
Proof.
  unfold admits. destruct (key_id m =? key_id k) eqn:E; cbn; [|done]. bool_to_prop.
  destruct (Z.compare_spec (generation m) (generation k)); intros; (done || lia).
Qed.

Lemma check_chunk_ok l n u : 0 <= n -> check_chunk l n = Ok u <-> 1 <= n <= chunk l.
Proof.
  intros. destruct u. unfold check_chunk.
  destruct (n =? 0) eqn:?, (chunk l <? n) eqn:?; cbn; bool_to_prop; split; (done || lia).
Qed.

Lemma cost_small l w n :
  valid_limits l -> 1 <= n <= chunk l ->
  cost w n = match unit_ w with Bytes => n | Frames => 1 end.
Proof.
  intros (Hc & _) Hn. unfold cost, units, try_or_max. destruct (unit_ w); [|done].
  destruct (Z.leb_spec n U32_MAX); lia.
Qed.

Lemma after_some now d t : after now d = Some t -> t = now + d.
Proof. unfold after, checked_add. destruct (_ <=? _); congruence. Qed.

Lemma after_exact now d : now + d <= INSTANT_MAX -> after now d = Some (now + d).
Proof. intros H. unfold after, checked_add. destruct (Z.leb_spec (now + d) INSTANT_MAX); [done|lia]. Qed.

Lemma reached_mono at_ now now' : now <= now' -> reached at_ now = true -> reached at_ now' = true.
Proof. unfold reached. destruct at_; intros; bool_to_prop; [apply Z.leb_le; lia|done]. Qed.

(** No instant, or one after [now]. *)
Definition later (a : option Z) (now : Z) : Prop := forall t, a = Some t -> now < t.

Lemma later_none now : later None now.
Proof. done. Qed.

Lemma later_reached a now : later a now <-> reached a now = false.
Proof.
  unfold later, reached. destruct a as [t|]; [|done]. split.
  - intros H. apply Z.leb_gt. auto.
  - intros H t' [= <-]. by apply Z.leb_gt in H.
Qed.

(** [earliest] is the least of the instants that there are. *)
Lemma later_earliest a b now : later (earliest a b) now <-> later a now /\ later b now.
Proof.
  unfold later, earliest. destruct a as [x|], b as [y|]; split; try naive_solver.
  - intros H. specialize (H _ eq_refl). split; intros t [= <-]; lia.
  - intros [H1 H2] t [= <-]. specialize (H1 _ eq_refl). specialize (H2 _ eq_refl). lia.
Qed.
