(* ===== verification/Credit.v ===== *)
(** * Credit and bounded queues (src/nvx-rs/src/exec/credit.rs and credit/)

    A sender's [Credit], a receiver's [Granted], a receiver's [Inbox] of a stream, and [take],
    which moves queued bytes into a message's buffer. A [VecDeque] is the list of its elements;
    where the code looks at its two slices, the length of the first one is an argument. *)

From S2P Require Import Prelude ExecTypes.

(** ** [credit/sender.rs] *)

Record Credit := mkCredit { credit_window : Window; available : Z }.

#[export] Instance eta_Credit : Eta Credit := fun c => mkCredit (credit_window c) (available c).

(** [Credit::new]. *)
Definition new_credit (window : Window) : Credit :=
  {| credit_window := window; available := 0 |}.

Definition grant (self : Credit) (units : Z) : result Violation Credit :=
  if (units =? 0) || (size (credit_window self) <? available self + units) then Err VCredit
  else Ok (self <| available := available self + units |>).

Definition sendable (self : Credit) (length : Z) : Z :=
  match unit_ (credit_window self) with
  | Bytes => Z.min length (available self)
  | Frames => if 0 <? available self then length else 0
  end.

Definition spend (self : Credit) (length : Z) : Credit :=
  self <| available := available self - cost (credit_window self) length |>.

(** ** [credit/receiver.rs] *)

Record Granted := mkGranted { granted_window : Window; opened : Z; returnable : Z }.

#[export] Instance eta_Granted : Eta Granted := fun g =>
  mkGranted (granted_window g) (opened g) (returnable g).

(** [Granted::new]. *)
Definition new_granted (window : Window) : Granted :=
  {| granted_window := window; opened := 0; returnable := size window |}.

Definition charge (self : Granted) (length : Z) : result Violation Granted :=
  let cost := cost (granted_window self) length in
  if opened self <? cost then Err VWindow else Ok (self <| opened := opened self - cost |>).

Definition free (self : Granted) (units : Z) : Granted :=
  self <| returnable := returnable self + units |>.

Definition take_grant (self : Granted) : Granted * option Z :=
  let units := returnable self in
  let self := self <| returnable := 0 |> <| opened := opened self + units |> in
  (self, if 0 <? units then Some units else None).

(** ** [credit/inbox.rs] *)

Record Inbox := mkInbox { inbox_unit : Unit_; inbox_bytes : list byte; frames : list Z }.

#[export] Instance eta_Inbox : Eta Inbox := fun i =>
  mkInbox (inbox_unit i) (inbox_bytes i) (frames i).

(** [Inbox::new]. *)
Definition new_inbox (u : Unit_) : Inbox :=
  {| inbox_unit := u; inbox_bytes := []; frames := [] |}.

(** [Inbox::len] and [Inbox::is_empty]. *)
Definition inbox_len (self : Inbox) : Z := len (inbox_bytes self).
Definition inbox_is_empty (self : Inbox) : bool := bool_decide (inbox_bytes self = []).

(** [Inbox::push]. *)
Definition inbox_push (self : Inbox) (bytes : list byte) : Inbox :=
  let self := self <| inbox_bytes := inbox_bytes self ++ bytes |> in
  if decide (inbox_unit self = Frames)
  then self <| frames := frames self ++ [len bytes] |> else self.

(** [Inbox::front]: the first slice of the deque, of [contiguous] bytes. *)
Definition front (contiguous : Z) (self : Inbox) : list byte := ztake contiguous (inbox_bytes self).

(** The loop of [Inbox::pop] over the frames: those left, and the number freed. *)
Fixpoint pop_frames (left : Z) (frames : list Z) : list Z * Z :=
  match frames with
  | [] => ([], 0)
  | frame :: rest =>
      if 0 <? left then
        let taken := Z.min left frame in
        if frame - taken =? 0
        then let '(rest, freed) := pop_frames (left - taken) rest in (rest, freed + 1)
        else (frame - taken :: rest, 0)
      else (frame :: rest, 0)
  end.

(** [Inbox::pop]. *)
Definition inbox_pop (self : Inbox) (count : Z) : Inbox * Z :=
  let count := Z.min count (len (inbox_bytes self)) in
  let self := self <| inbox_bytes := zdrop count (inbox_bytes self) |> in
  match inbox_unit self with
  | Bytes => (self, units count)
  | Frames =>
      let '(rest, freed) := pop_frames count (frames self) in (self <| frames := rest |>, freed)
  end.

(** [Inbox::clear]. *)
Definition inbox_clear (self : Inbox) : Inbox * (Z * Z) :=
  let length := len (inbox_bytes self) in
  let '(self, freed) := inbox_pop self length in
  (self <| inbox_bytes := [] |>, (length, freed)).

(** ** [credit.rs] *)

(** [take]: the queue, the buffer and the count moved, for a deque whose first slice has [slice]
    elements. *)
Definition take (slice : Z) (queue buffer : list byte) (length : Z)
    : list byte * list byte * Z :=
  let length := Z.min (Z.min length (len buffer)) (len queue) in
  let first := ztake slice queue in
  let second := zdrop slice queue in
  let head := Z.min length (len first) in
  let buffer := copy_at 0 (ztake head first) buffer in
  let buffer := copy_at head (ztake (length - head) second) buffer in
  (zdrop length queue, buffer, length).

(** ** What they guarantee *)

(** Moving bytes does not depend on where the deque splits: the first bytes of the queue go to
    the start of the buffer, and the rest of both stays. *)
Lemma take_spec slice queue buffer length :
  0 <= slice <= len queue -> 0 <= length ->
  let n := Z.min (Z.min length (len buffer)) (len queue) in
  take slice queue buffer length = (zdrop n queue, ztake n queue ++ zdrop n buffer, n).
Proof.
  intros Hs Hl n. unfold take. fold n.
  assert (Hf : len (ztake slice queue) = slice) by len_lia. rewrite Hf.
  set (h := Z.min n slice). assert (0 <= n) by (subst n; len_facts; lia).
  assert (Hh : len (ztake h (ztake slice queue)) = h) by (subst h; len_lia).
  do 2 f_equal. unfold copy_at at 2. rewrite (ztake_0 0), app_nil_l by lia. rewrite Z.add_0_l, Hh.
  assert (Hsnd : len (ztake (n - h) (zdrop slice queue)) = n - h) by (subst h n; len_lia).
  unfold copy_at. rewrite ztake_app_l, (ztake_all h) by lia.
  rewrite zdrop_app_r by lia. rewrite zdrop_zdrop by (subst h; lia).
  rewrite Hh, Hsnd. replace (h + (h + (n - h) - h)) with n by lia.
  rewrite app_assoc. f_equal. rewrite ztake_ztake. destruct (Z.le_gt_cases n slice).
  - replace (Z.min h slice) with n by (subst h; lia). rewrite (ztake_0 (n - h)) by (subst h; lia).
    by rewrite app_nil_r.
  - assert (h = slice) as -> by (subst h; lia). rewrite Z.min_id.
    rewrite <- (ztake_zdrop slice queue) at 3. rewrite ztake_app_r by len_lia. by rewrite Hf.
Qed.

(** The units that an inbox holds. *)
Definition held (i : Inbox) : Z :=
  match inbox_unit i with Bytes => len (inbox_bytes i) | Frames => len (frames i) end.

Fixpoint total (l : list Z) : Z := match l with [] => 0 | x :: l => x + total l end.

(** An inbox whose frames are those of its bytes, each of 1 through [chunk] bytes. *)
Definition inbox_ok (chunk : Z) (i : Inbox) : Prop :=
  match inbox_unit i with
  | Bytes => frames i = []
  | Frames => Forall (fun f => 1 <= f <= chunk) (frames i) /\ total (frames i) = len (inbox_bytes i)
  end.

Lemma total_app k l : total (k ++ l) = total k + total l.
Proof. induction k as [|x k IH]; cbn; lia. Qed.

Lemma total_bound chunk l :
  Forall (fun f => 1 <= f <= chunk) l -> len l <= total l <= len l * chunk.
Proof. induction 1; cbn [total]; rewrite ?len_nil, ?len_cons; nia. Qed.

Lemma inbox_ok_new chunk u : inbox_ok chunk (new_inbox u).
Proof. destruct u; done. Qed.

Lemma inbox_push_ok chunk i bytes :
  inbox_ok chunk i -> 1 <= len bytes <= chunk -> inbox_ok chunk (inbox_push i bytes).
Proof.
  destruct i as [[] b fs]; unfold inbox_ok, inbox_push; case_decide; cbn in *; try done.
  intros [Ha Ht] Hb. rewrite total_app, Forall_app. cbn. split; [|len_lia].
  split; [done|]. apply Forall_singleton; lia.
Qed.

Lemma inbox_push_held i bytes :
  held (inbox_push i bytes) =
  held i + match inbox_unit i with Bytes => len bytes | Frames => 1 end.
Proof.
  destruct i as [[] b fs]; unfold held, inbox_push; case_decide; cbn in *; try done; len_lia.
Qed.

Lemma inbox_push_bytes i bytes : inbox_bytes (inbox_push i bytes) = inbox_bytes i ++ bytes.
Proof. unfold inbox_push. by case_decide. Qed.

Lemma inbox_push_unit i bytes : inbox_unit (inbox_push i bytes) = inbox_unit i.
Proof. unfold inbox_push. by case_decide. Qed.

Lemma pop_frames_spec chunk left fs :
  Forall (fun f => 1 <= f <= chunk) fs -> 0 <= left <= total fs ->
  let '(rest, freed) := pop_frames left fs in
  Forall (fun f => 1 <= f <= chunk) rest /\ total rest = total fs - left
  /\ len rest + freed = len fs /\ 0 <= freed.
Proof.
  intros Hf. revert left. induction Hf as [|f fs Hf Hfs IH]; intros left Hl; cbn [pop_frames total] in *.
  - split_and!; try done; lia.
  - destruct (Z.ltb_spec 0 left).
    + pose proof (total_bound _ _ Hfs). destruct (Z.eqb_spec (f - Z.min left f) 0).
      * specialize (IH (left - Z.min left f) ltac:(len_facts; lia)).
        destruct (pop_frames (left - Z.min left f) fs) as [rest freed].
        destruct IH as (? & ? & ? & ?). rewrite len_cons. split_and!; (done || lia).
      * cbn [total]. rewrite !len_cons. split_and!; [constructor; [lia|done]|lia..].
    + cbn [total]. split_and!; [by constructor|lia..].
Qed.

Lemma inbox_bytes_bound chunk i :
  1 <= chunk -> inbox_ok chunk i ->
  len (inbox_bytes i) <= match inbox_unit i with Bytes => held i | Frames => held i * chunk end.
Proof.
  intros Hc Hi. unfold inbox_ok, held in *. destruct (inbox_unit i); [lia|].
  destruct Hi as [Hf Ht]. pose proof (total_bound _ _ Hf). lia.
Qed.

Lemma held_nonneg i : 0 <= held i.
Proof. unfold held. destruct (inbox_unit i); apply len_nonneg. Qed.

(** Popping frees exactly the units that the inbox no longer holds. *)
Lemma inbox_pop_spec chunk i count :
  inbox_ok chunk i -> 0 <= count -> len (inbox_bytes i) <= U32_MAX \/ inbox_unit i = Frames ->
  let '(i', freed) := inbox_pop i count in
  inbox_ok chunk i' /\ inbox_unit i' = inbox_unit i /\ held i' + freed = held i /\ 0 <= freed
  /\ inbox_bytes i' = zdrop (Z.min count (len (inbox_bytes i))) (inbox_bytes i).
Proof.
  intros Hi Hc Hu. unfold inbox_pop, inbox_ok, held in *.
  destruct (inbox_unit i) eqn:Hunit; cbn; rewrite Hunit; cbn; rewrite ?Hunit.
  - destruct Hu as [Hu|]; [|done]. unfold units, try_or_max. len_facts.
    destruct (Z.leb_spec (Z.min count (len (inbox_bytes i))) U32_MAX); [|lia].
    split_and!; try done; len_lia.
  - destruct Hi as [Hf Ht]. len_facts.
    pose proof (pop_frames_spec chunk (Z.min count (len (inbox_bytes i))) (frames i) Hf ltac:(lia)) as H'.
    destruct (pop_frames _ _) as [rest freed]. cbn. rewrite Hunit.
    destruct H' as (? & ? & ? & ?). split_and!; try done. len_lia.
Qed.

Lemma total_zero chunk l : Forall (fun f => 1 <= f <= chunk) l -> total l = 0 -> l = [].
Proof. intros Hf Ht. pose proof (total_bound _ _ Hf). apply len_zero_iff. len_facts. lia. Qed.

(** Clearing frees every unit that the inbox holds. *)
Lemma inbox_clear_spec chunk i :
  inbox_ok chunk i -> len (inbox_bytes i) <= U32_MAX \/ inbox_unit i = Frames ->
  let '(i', (length, freed)) := inbox_clear i in
  inbox_ok chunk i' /\ inbox_unit i' = inbox_unit i /\ held i' = 0 /\ freed = held i
  /\ inbox_bytes i' = [] /\ length = len (inbox_bytes i).
Proof.
  intros Hi Hu. unfold inbox_clear.
  pose proof (inbox_pop_spec chunk i (len (inbox_bytes i)) Hi (len_nonneg _) Hu) as H.
  destruct (inbox_pop i (len (inbox_bytes i))) as [i' freed].
  destruct H as (Hok & Hunit & Hh & Hf & Hb). rewrite Z.min_id, zdrop_all in Hb by lia.
  assert (Hzero : held i' = 0).
  { unfold held, inbox_ok in *. rewrite Hunit in *. destruct (inbox_unit i); [by rewrite Hb|].
    destruct Hok as [Hf' Ht]. rewrite Hb in Ht. by rewrite (total_zero chunk (frames i')). }
  assert (Hsame : i' <| inbox_bytes := [] |> = i') by (destruct i'; cbn in *; by rewrite Hb).
  rewrite Hsame. split_and!; try done. lia.
Qed.

Lemma inbox_empty_held chunk i : inbox_ok chunk i -> inbox_bytes i = [] -> held i = 0.
Proof.
  unfold inbox_ok, held. intros Hi Hb. destruct (inbox_unit i); rewrite Hb in *; [done|].
  destruct Hi as [Hf Ht]. by rewrite (total_zero chunk (frames i)).
Qed.

Lemma take_grant_zero g : returnable g = 0 -> (take_grant g).1 = g.
Proof. destruct g as [w o t]. cbn. intros ->. by rewrite Z.add_0_r. Qed.
