(* ===== verification/Runner.v ===== *)
(** * The runner of an execution (src/nvx-rs/src/exec/runner.rs)

    The side that runs the workload, method by method. A method with [&mut self] returns the new
    state, with its result where it has one. [RunnerFacts.v] and [RunnerLive.v] prove what the
    runner guarantees on its own, and [Execution.v] what it guarantees together with a peer. *)

From S2P Require Import Prelude ExecTypes Credit.

Inductive Message : Type :=
| MCredit (units : Z)
| MStarted
| MOutput (stream : Stream) (length : Z)
| MEnd (stream : Stream)
| MInputClosed
| MTerminal (outcome : Outcome).

Inductive Request : Type :=
| Terminate (cause : Cause)
| Discard (stream : Stream)
| CloseInput
| Settle.

Record Output := mkOutput {
  o_queue : list byte;
  o_closed : bool;
  o_hung_up : bool;
  o_ended : bool;
  o_discarding : bool;
  o_discard_requested : bool;
  o_truncated : bool;
}.

#[export] Instance eta_Output : Eta Output := fun o =>
  mkOutput (o_queue o) (o_closed o) (o_hung_up o) (o_ended o) (o_discarding o)
    (o_discard_requested o) (o_truncated o).

(** [Output::default]. *)
Definition default_output : Output := mkOutput [] false false false false false false.

Definition is_empty {A} (l : list A) : bool := match l with [] => true | _ => false end.

(** [Output::is_done]. *)
Definition is_done (self : Output) : bool := o_closed self && is_empty (o_queue self).

(** [Output::drop_queue]. *)
Definition drop_queue (self : Output) : Output :=
  let self := if negb (is_empty (o_queue self)) then self <| o_truncated := true |> else self in
  self <| o_queue := [] |>.

Record Input := mkInput {
  i_inbox : Inbox;
  i_window : Granted;
  i_peer_ended : bool;
  i_closed : bool;
  i_close_requested : bool;
  i_closed_message : bool;
}.

#[export] Instance eta_Input : Eta Input := fun i =>
  mkInput (i_inbox i) (i_window i) (i_peer_ended i) (i_closed i) (i_close_requested i)
    (i_closed_message i).

Inductive Settling : Type :=
| Idle
| Requested (by_ : option Z)
| Settled
| Fenced.

Record Runner := mkRunner {
  key : Key;
  limits : Limits;
  timers : Timers;
  launch : option (result LaunchFailure unit);
  started_message : bool;
  exit : option (option Status);
  cause : option Cause;
  terminate_request : option Cause;
  settle_request : bool;
  timeout_at : option Z;
  terminated_at : option Z;
  grace_until : option Z;
  give_up_at : option Z;
  abandon_at : option Z;
  gave_up : bool;
  launch_abandoned : bool;
  detached : bool;
  outputs : array2 Output;
  credits : array2 Credit;
  turn : Stream;
  credited : bool;
  input_state : Input;
  settling : Settling;
  finished : bool;
  high_water : Z;
}.

#[export] Instance eta_Runner : Eta Runner := fun r =>
  mkRunner (key r) (limits r) (timers r) (launch r) (started_message r) (exit r) (cause r)
    (terminate_request r) (settle_request r) (timeout_at r) (terminated_at r) (grace_until r)
    (give_up_at r) (abandon_at r) (gave_up r) (launch_abandoned r) (detached r) (outputs r)
    (credits r) (turn r) (credited r) (input_state r) (settling r) (finished r) (high_water r).

(** [Runner::new]. *)
Definition new_runner (key : Key) (limits : Limits) (timers : Timers) (now : Z) : Runner := {|
  key := key;
  limits := limits;
  timers := timers;
  launch := None;
  started_message := false;
  exit := None;
  cause := None;
  terminate_request := None;
  settle_request := false;
  timeout_at := t ← timeout timers; after now t;
  terminated_at := None;
  grace_until := None;
  give_up_at := None;
  abandon_at := None;
  gave_up := false;
  launch_abandoned := false;
  detached := false;
  outputs := mkArray2 default_output default_output;
  credits := mkArray2 (new_credit (output_window limits)) (new_credit (output_window limits));
  turn := Stdout;
  credited := false;
  input_state := {|
    i_inbox := new_inbox (unit_ (input_window limits));
    i_window := new_granted (input_window limits);
    i_peer_ended := false;
    i_closed := false;
    i_close_requested := false;
    i_closed_message := false |};
  settling := Idle;
  finished := false;
  high_water := 0 |}.

(** ** Private steps *)

Definition buffered (self : Runner) : Z :=
  len (o_queue (at0 (outputs self))) + len (o_queue (at1 (outputs self)))
  + inbox_len (i_inbox (input_state self)).

Definition note_buffered (self : Runner) : Runner :=
  self <| high_water := Z.max (high_water self) (buffered self) |>.

(** Field assignments inside [self.input]. *)
Definition set_input (self : Runner) (f : Input -> Input) : Runner :=
  self <| input_state := f (input_state self) |>.

Definition awaits_launch (self : Runner) : bool :=
  negb (is_some (launch self)) && negb (gave_up self) && negb (launch_abandoned self).

Definition input_accepts (self : Runner) : bool :=
  negb (i_closed (input_state self)) && negb (i_peer_ended (input_state self)).

Definition close_input_when_taken (self : Runner) : Runner :=
  if i_peer_ended (input_state self) && negb (i_closed (input_state self))
     && inbox_is_empty (i_inbox (input_state self))
  then set_input self (fun i => i <| i_closed := true |> <| i_close_requested := true |>)
  else self.

Definition close_input (self : Runner) : Runner :=
  if i_closed (input_state self) then self
  else set_input self (fun i =>
    i <| i_closed := true |>
      <| i_inbox := (inbox_clear (i_inbox i)).1 |>
      <| i_closed_message := negb (i_peer_ended i) && negb (detached self) |>).

Definition end_grace_output (output : Output) : Output :=
  let output := drop_queue output in
  if negb (o_closed output) && negb (o_discarding output)
  then output <| o_discarding := true |> <| o_discard_requested := true |> else output.

Definition end_grace (self : Runner) : Runner :=
  self <| grace_until := None |> <| outputs := map2 end_grace_output (outputs self) |>.

Definition terminate (self : Runner) (now : Z) (c : Cause) : Runner :=
  if is_some (terminated_at self) then self
  else
    let self := self <| terminated_at := Some now |> <| timeout_at := None |> in
    let self := if is_some (exit self) then self
                else self <| cause := Some c |> <| terminate_request := Some c |> in
    let self := close_input self in
    let self := self <| grace_until := after now (grace (timers self)) |> in
    let self := self <| give_up_at :=
      at_ ← grace_until self; after at_ (settlement (timers self)) |> in
    if reached (grace_until self) now then end_grace self else self.

Definition give_up_output (output : Output) : Output :=
  let output := drop_queue output in
  if negb (o_closed output) then output <| o_closed := true |> <| o_truncated := true |>
  else output.

Definition give_up_now (self : Runner) : Runner :=
  let self := self <| give_up_at := None |> <| grace_until := None |> <| gave_up := true |>
                   <| outputs := map2 give_up_output (outputs self) |> in
  let self := if is_some (exit self) then self else self <| exit := Some None |> in
  self <| settling := Fenced |> <| settle_request := false |>.

Definition abandon_launch (self : Runner) : Runner :=
  self <| launch_abandoned := true |> <| settling := Fenced |>.

Definition abandon_output (output : Output) : Output :=
  if negb (o_closed output) && negb (o_hung_up output)
  then output <| o_closed := true |> <| o_truncated := true |> else output.

Definition abandon_open_streams (self : Runner) : Runner :=
  self <| abandon_at := None |> <| outputs := map2 abandon_output (outputs self) |>.

Definition is_settled (s : Settling) : bool := match s with Settled => true | _ => false end.
Definition is_fenced (s : Settling) : bool := match s with Fenced => true | _ => false end.

Definition is_cleaned_up (self : Runner) : bool :=
  is_some (launch self) && is_some (exit self) && all2 o_closed (outputs self)
  && is_settled (settling self).

Definition outcome (self : Runner) : option Outcome :=
  let delivered := all2 (fun o => is_done o && (o_ended o || detached self)) (outputs self) in
  let settled := is_settled (settling self) || is_fenced (settling self) in
  if awaits_launch self || negb (is_some (exit self)) || negb delivered || negb settled then None
  else
    let outcome := new_outcome (match exit self with Some (Some s) => Some s | _ => None end) in
    let outcome := match cause self with Some c => with_cause outcome c | None => outcome end in
    let outcome := match launch self with
                   | Some (Err failure) => with_launch_failure outcome failure
                   | _ => outcome
                   end in
    let outcome := fold_left (fun acc stream =>
      if o_truncated (idx (outputs self) stream) then with_truncated acc stream else acc)
      ALL outcome in
    let outcome := if is_settled (settling self) then with_reusable outcome else outcome in
    Some outcome.

(** ** Timers *)

(** The steps of [tick], one per timer. *)
Definition fire_timeout (self : Runner) (now : Z) : Runner :=
  if reached (timeout_at self) now
  then terminate (self <| timeout_at := None |>) now TimedOut else self.

Definition fire_grace (self : Runner) (now : Z) : Runner :=
  if reached (grace_until self) now then end_grace self else self.

Definition fire_settlement (self : Runner) (now : Z) : Runner :=
  match settling self with
  | Requested (Some by_) => if by_ <=? now then self <| settling := Fenced |> else self
  | _ => self
  end.

Definition fire_give_up (self : Runner) (now : Z) : Runner :=
  if reached (give_up_at self) now
  then if is_cleaned_up self then self <| give_up_at := None |> else give_up_now self
  else self.

Definition fire_abandon (self : Runner) (now : Z) : Runner :=
  if reached (abandon_at self) now then
    let self := if awaits_launch self then abandon_launch self else self in
    if is_fenced (settling self) then abandon_open_streams self else self
  else self.

Definition tick (self : Runner) (now : Z) : Runner :=
  if finished self then self
  else
    let self := fire_timeout self now in
    let self := fire_grace self now in
    let self := fire_settlement self now in
    let self := fire_give_up self now in
    fire_abandon self now.

Definition deadline (self : Runner) : option Z :=
  if finished self then None
  else
    let settlement := match settling self with Requested by_ => by_ | _ => None end in
    let gives_up := if is_cleaned_up self then None else give_up_at self in
    let abandon :=
      if awaits_launch self
         || (is_fenced (settling self)
             && any2 (fun o => negb (o_closed o) && negb (o_hung_up o)) (outputs self))
      then abandon_at self else None in
    fold_left earliest [timeout_at self; grace_until self; settlement; gives_up; abandon] None.

(** ** The peer's messages *)

Definition credit (self : Runner) (k : Key) (pool : Pool) (units : Z)
    : Runner * result Violation Receipt :=
  match admits (key self) k with
  | Err v => (self, Err v)
  | Ok false => (self, Ok Stale)
  | Ok true =>
      match output_pool (limits self) pool with
      | Err v => (self, Err v)
      | Ok index =>
          if finished self then (self, Ok Late)
          else match grant (idx (credits self) index) units with
          | Err v => (self, Err v)
          | Ok c => (self <| credits := alter2 index (fun _ => c) (credits self) |>, Ok Applied)
          end
      end
  end.

Definition input (self : Runner) (k : Key) (bytes : list byte) : Runner * result Violation Receipt :=
  match admits (key self) k with
  | Err v => (self, Err v)
  | Ok false => (self, Ok Stale)
  | Ok true =>
      if finished self then (self, Ok Late)
      else if i_peer_ended (input_state self) then (self, Err VEnded)
      else match check_chunk (limits self) (len bytes) with
      | Err v => (self, Err v)
      | Ok _ =>
          match charge (i_window (input_state self)) (len bytes) with
          | Err v => (self, Err v)
          | Ok window =>
              let self := set_input self (fun i => i <| i_window := window |>) in
              if i_closed (input_state self) then (self, Ok Late)
              else
                let self := set_input self (fun i =>
                  i <| i_inbox := inbox_push (i_inbox i) bytes |>) in
                (note_buffered self, Ok Applied)
          end
      end
  end.

Definition end_input (self : Runner) (k : Key) : Runner * result Violation Receipt :=
  match admits (key self) k with
  | Err v => (self, Err v)
  | Ok false => (self, Ok Stale)
  | Ok true =>
      if finished self then (self, Ok Late)
      else if i_peer_ended (input_state self) then (self, Err VEnded)
      else
        let self := set_input self (fun i => i <| i_peer_ended := true |>) in
        if i_closed (input_state self) then (self, Ok Late)
        else (close_input_when_taken self, Ok Applied)
  end.

Definition cancel (self : Runner) (now : Z) (k : Key) (c : Cause)
    : Runner * result Violation Receipt :=
  match admits (key self) k with
  | Err v => (self, Err v)
  | Ok false => (self, Ok Stale)
  | Ok true =>
      let self := tick self now in
      if finished self || is_some (terminated_at self) then (self, Ok Late)
      else (terminate self now c, Ok Applied)
  end.

(** ** The workload's events *)

Definition launched (self : Runner) (r : result LaunchFailure unit) : Runner :=
  if negb (awaits_launch self) then self
  else
    let self := self <| launch := Some r |> in
    if is_ok r then self <| started_message := negb (detached self) |> else close_input self.

Definition read_allowance (self : Runner) (stream : Stream) : Z :=
  let output := idx (outputs self) stream in
  if o_closed output || o_discarding output || gave_up self then 0
  else chunk (limits self) - len (o_queue output).

Definition output (self : Runner) (stream : Stream) (bytes : list byte) : Runner * Z :=
  let chunk := chunk (limits self) in
  let out := idx (outputs self) stream in
  if o_closed out || gave_up self then (self, 0)
  else if o_discarding out then
    (self <| outputs := alter2 stream (fun o =>
       o <| o_truncated := o_truncated o || negb (is_empty bytes) |>) (outputs self) |>, len bytes)
  else
    let length := Z.min (len bytes) (chunk - len (o_queue out)) in
    let self := self <| outputs := alter2 stream (fun o =>
      o <| o_queue := o_queue o ++ ztake length bytes |>) (outputs self) |> in
    (note_buffered self, length).

Definition discarded (self : Runner) (stream : Stream) (bytes : Z) : Runner :=
  self <| outputs := alter2 stream (fun o =>
    o <| o_truncated := o_truncated o || (0 <? bytes) |>) (outputs self) |>.

Definition output_closed (self : Runner) (stream : Stream) : Runner :=
  self <| outputs := alter2 stream (fun o => o <| o_closed := true |>) (outputs self) |>.

Definition output_failed (self : Runner) (stream : Stream) : Runner :=
  self <| outputs := alter2 stream (fun o =>
    o <| o_closed := true |> <| o_truncated := true |>) (outputs self) |>.

Definition output_hung_up (self : Runner) (stream : Stream) : Runner :=
  self <| outputs := alter2 stream (fun o => o <| o_hung_up := true |>) (outputs self) |>.

(** [pending_input], for an inbox whose first slice has [contiguous] bytes. *)
Definition pending_input (contiguous : Z) (self : Runner) : list byte :=
  if i_closed (input_state self) then [] else front contiguous (i_inbox (input_state self)).

Definition input_written (self : Runner) (bytes : Z) : Runner :=
  if i_closed (input_state self) then self
  else
    let '(inbox, freed) := inbox_pop (i_inbox (input_state self)) bytes in
    let self := set_input self (fun i =>
      i <| i_inbox := inbox |> <| i_window := free (i_window i) freed |>) in
    close_input_when_taken self.

Definition input_closed (self : Runner) : Runner := close_input self.

Definition exited (self : Runner) (now : Z) (s : option Status) : Runner :=
  let self := self <| timeout_at := None |> in
  let self := tick self now in
  if is_some (exit self) || gave_up self then self
  else
    let self := self <| exit := Some s |> in
    let self := close_input self in
    let self := self <| settle_request := true |> in
    let by_ := after now (settlement (timers self)) in
    self <| settling := Requested by_ |>
         <| abandon_at := at_ ← by_; after at_ (grace (timers self)) |>.

Definition settled (self : Runner) (r : Settlement) : Runner :=
  match settling self with
  | Requested _ =>
      self <| settling := match r with SettlementSettled => Settled | SettlementFailed => Fenced end |>
  | _ => self
  end.

Definition detach (self : Runner) (now : Z) (c : Cause) : Runner :=
  let self := tick self now in
  if finished self || detached self then self
  else
    let self := terminate self now c in
    let self := self <| detached := true |> <| started_message := false |> in
    let self := set_input self (fun i => i <| i_closed_message := false |>) in
    let self := end_grace self in
    let gives_up := after now (settlement (timers self)) in
    self <| give_up_at := earliest (give_up_at self) gives_up |>.

Definition dropped (self : Runner) (now : Z) : Runner := detach self now Dropped.
Definition reset (self : Runner) (now : Z) : Runner := detach self now CauseReset.
Definition disconnect (self : Runner) (now : Z) : Runner := detach self now Disconnected.

(** ** Requests and messages *)

Definition next_request (self : Runner) : Runner * option Request :=
  match terminate_request self with
  | Some c => (self <| terminate_request := None |>, Some (Terminate c))
  | None =>
      match List.find (fun s => o_discard_requested (idx (outputs self) s)) ALL with
      | Some stream =>
          (self <| outputs := alter2 stream (fun o => o <| o_discard_requested := false |>)
                                (outputs self) |>, Some (Discard stream))
      | None =>
          if i_close_requested (input_state self)
          then (set_input self (fun i => i <| i_close_requested := false |>), Some CloseInput)
          else if settle_request self
          then (self <| settle_request := false |>, Some Settle)
          else (self, None)
      end
  end.

Definition next_credit (self : Runner) : Runner * option Message :=
  if negb (input_accepts self) then (self, None)
  else
    let '(window, units) := take_grant (i_window (input_state self)) in
    let self := set_input self (fun i => i <| i_window := window |>) in
    (self, option_map MCredit units).

(** The loop of [next_output] over [ALL], with the buffer that the adapter lends. *)
Fixpoint next_output_from (rounds : list Stream) (self : Runner) (buffer : list byte)
    : Runner * list byte * option Message :=
  match rounds with
  | [] => (self, buffer, None)
  | _ :: rounds =>
      let stream := turn self in
      let self := self <| turn := other (turn self) |> in
      let pool := pool_of (limits self) stream in
      let c := idx (credits self) pool in
      let queue := o_queue (idx (outputs self) stream) in
      let wanted := Z.min (Z.min (len queue) (chunk (limits self))) (len buffer) in
      let length := sendable c wanted in
      if 0 <? length then
        let '(queue, buffer, _) := take (len queue) queue buffer length in
        let self := self
          <| outputs := alter2 stream (fun o => o <| o_queue := queue |>) (outputs self) |>
          <| credits := alter2 pool (fun c => spend c length) (credits self) |> in
        (self, buffer, Some (MOutput stream length))
      else next_output_from rounds self buffer
  end.

Definition next_output (self : Runner) (buffer : list byte)
    : Runner * list byte * option Message := next_output_from ALL self buffer.

Definition next_other (self : Runner) (buffer : list byte)
    : Runner * list byte * option Message :=
  if started_message self then (self <| started_message := false |>, buffer, Some MStarted)
  else if i_closed_message (input_state self)
  then (set_input self (fun i => i <| i_closed_message := false |>), buffer, Some MInputClosed)
  else if negb (awaits_launch self) then
    match List.find (fun s => is_done (idx (outputs self) s)
                              && negb (o_ended (idx (outputs self) s))) ALL with
    | Some stream =>
        (self <| outputs := alter2 stream (fun o => o <| o_ended := true |>) (outputs self) |>,
         buffer, Some (MEnd stream))
    | None => next_output self buffer
    end
  else (self, buffer, None).

(** The end of [next_message]: the terminal outcome. *)
Definition next_terminal (self : Runner) (buffer : list byte)
    : Runner * list byte * option Message :=
  match outcome self with
  | None => (self, buffer, None)
  | Some o => (self <| finished := true |>, buffer, Some (MTerminal o))
  end.

Definition next_message (self : Runner) (buffer : list byte)
    : Runner * list byte * option Message :=
  if finished self then (self, buffer, None)
  else if detached self then next_terminal self buffer
  else
    let '(self, first) := if negb (credited self) then next_credit self else (self, None) in
    match first with
    | Some message => (self <| credited := true |>, buffer, Some message)
    | None =>
        let '(self, buffer, message) := next_other self buffer in
        match message with
        | Some message => (self <| credited := false |>, buffer, Some message)
        | None =>
            let '(self, last) := next_credit self in
            match last with
            | Some message => (self <| credited := true |>, buffer, Some message)
            | None => next_terminal self buffer
            end
        end
    end.

Definition awaits_settlement (self : Runner) : bool :=
  match settling self with Requested _ => true | _ => false end.

Definition memory_bound (self : Runner) : Z :=
  saturating_add (saturating_mul (chunk (limits self)) 2) (input_bytes (limits self)).
