(* ===== verification/RunnerFacts.v ===== *)
(** * What the runner guarantees whatever the peer and the adapter do

    The runner's invariant under every call with every argument: its buffers stay within the
    memory bound, its windows and credits within their sizes, and its streams' flags consistent.
    The calls that exchange no message are shown to be [quiet], which is all that
    [Execution.v] needs to know about them. *)

From S2P Require Import Prelude ExecTypes Credit Runner.

(** ** The invariant, part by part *)

Record output_ok (chunk : Z) (o : Output) : Prop := {
  ok_queue : len (o_queue o) <= chunk;
  ok_ended : o_ended o = true -> o_closed o = true /\ o_queue o = [];
  ok_discarding : o_discarding o = true -> o_queue o = [];
}.

Record credit_ok (w : Window) (c : Credit) : Prop := {
  ok_window : credit_window c = w;
  ok_available : 0 <= available c <= size w;
}.

(** A receiver's window with [h] units held: granted, returnable and held units never exceed it. *)
Record granted_ok (w : Window) (g : Granted) (h : Z) : Prop := {
  ok_granted : granted_window g = w;
  ok_opened : 0 <= opened g;
  ok_returnable : 0 <= returnable g;
  ok_size : opened g + returnable g + h <= size w;
}.

Record input_ok (l : Limits) (i : Input) : Prop := {
  ok_inbox : inbox_ok (chunk l) (i_inbox i);
  ok_unit : inbox_unit (i_inbox i) = unit_ (input_window l);
  ok_grant : granted_ok (input_window l) (i_window i) (held (i_inbox i));
  ok_closed : i_closed i = true -> inbox_bytes (i_inbox i) = [];
  ok_requested : i_close_requested i = true -> i_closed i = true;
  ok_message : i_closed_message i = true -> i_closed i = true;
}.

Record runner_inv (r : Runner) : Prop := {
  inv_limits : valid_limits (limits r);
  inv_outputs : forall s, output_ok (chunk (limits r)) (idx (outputs r) s);
  inv_credits : forall i, credit_ok (output_window (limits r)) (idx (credits r) i);
  inv_input : input_ok (limits r) (input_state r);
  inv_gave_up : gave_up r = true -> forall s, o_closed (idx (outputs r) s) = true
                                              /\ o_queue (idx (outputs r) s) = [];
  inv_high_water : high_water r <= memory_bound r;
}.

(** ** The bound on memory *)

(** The bound's saturating arithmetic never saturates: even the largest limits fit a [usize]. *)
Lemma runner_memory_bound_exact (r : Runner) :
  valid_limits (limits r) ->
  memory_bound r =
  2 * chunk (limits r)
  + match unit_ (input_window (limits r)) with
    | Bytes => size (input_window (limits r))
    | Frames => size (input_window (limits r)) * chunk (limits r)
    end.
Proof.
  intros (Hc & Hi & _).
  unfold memory_bound, input_bytes, bytes_with, saturating_add, saturating_mul, USIZE_MAX, U64_MAX,
    U32_MAX in *.
  destruct (unit_ (input_window (limits r))); nia.
Qed.

Lemma runner_buffered_bound r : runner_inv r -> buffered r <= memory_bound r.
Proof.
  intros [Hl Ho _ Hi _ _]. rewrite runner_memory_bound_exact by done.
  pose proof (ok_queue _ _ (Ho Stdout)). pose proof (ok_queue _ _ (Ho Stderr)). cbn in *.
  destruct Hl as (Hc & Hsz & _), Hi as [Hok Hu [_ Hop Hr Hs] _ _ _].
  pose proof (inbox_bytes_bound (chunk (limits r)) _ ltac:(lia) Hok) as Hb. rewrite Hu in Hb.
  pose proof (held_nonneg (i_inbox (input_state r))).
  unfold buffered, inbox_len. destruct (unit_ (input_window (limits r))); nia.
Qed.

Lemma runner_inv_note_buffered r : runner_inv r -> runner_inv (note_buffered r).
Proof.
  intros H. pose proof (runner_buffered_bound r H). destruct H. split; try done.
  change (Z.max (high_water r) (buffered r) <= memory_bound r). lia.
Qed.

(** ** Each step keeps each part *)

Lemma drop_queue_ok c o : 0 <= c -> output_ok c o -> output_ok c (drop_queue o).
Proof.
  intros Hc []. unfold drop_queue. destruct (is_empty (o_queue o)); split; cbn in *; try done;
    intros He; by destruct (ok_ended0 He).
Qed.

Lemma drop_queue_empty o : o_queue (drop_queue o) = [].
Proof. unfold drop_queue. by destruct (is_empty _). Qed.

(** What a step that sends nothing may do to an output stream. *)
Record output_quiet (o o' : Output) : Prop := {
  q_ended : o_ended o' = o_ended o;
  q_truncated : o_truncated o = true -> o_truncated o' = true;
  q_stopped : o_closed o = true \/ o_discarding o = true -> o_closed o' = true \/ o_discarding o' = true;
  q_closed : o_closed o = true -> o_closed o' = true;
  q_queue : o_queue o' = o_queue o \/
    (o_queue o' = [] /\ (o_queue o = [] \/ o_truncated o' = true)
     /\ (o_closed o' = true \/ o_discarding o' = true));
}.

Lemma output_quiet_refl o : output_quiet o o.
Proof. split; auto. Qed.

Lemma output_quiet_trans o1 o2 o3 : output_quiet o1 o2 -> output_quiet o2 o3 -> output_quiet o1 o3.
Proof.
  intros [E1 T1 S1 C1 Q1] [E2 T2 S2 C2 Q2]. split; [congruence|auto..|].
  destruct Q2 as [Q2|(Q2 & L2 & P2)].
  - rewrite Q2. destruct Q1 as [Q1|(Q1 & L1 & P1)]; [by left|right].
    split_and!; [done| |auto]. destruct L1; auto.
  - right. split_and!; [done| |done]. destruct L2 as [L2|L2]; [|by right].
    destruct Q1 as [Q1|(Q1 & L1 & P1)]; [left; congruence|]. destruct L1; auto.
Qed.

Lemma end_grace_output_quiet o : output_quiet o (end_grace_output o).
Proof.
  unfold end_grace_output, drop_queue.
  destruct (o_queue o) as [|x q] eqn:Hq; cbn; destruct (o_closed o) eqn:Hc, (o_discarding o) eqn:Hd;
    cbn; rewrite ?Hc, ?Hd; cbn; split; cbn; rewrite ?Hq, ?Hc, ?Hd; auto.
Qed.

Lemma end_grace_output_ok c o : 0 <= c -> output_ok c o -> output_ok c (end_grace_output o).
Proof.
  intros Hc Ho. pose proof (drop_queue_ok c o Hc Ho) as []. pose proof (drop_queue_empty o).
  unfold end_grace_output. by destruct (negb (o_closed (drop_queue o)) && _); split; cbn.
Qed.

Lemma give_up_output_quiet o : output_quiet o (give_up_output o).
Proof.
  unfold give_up_output, drop_queue.
  destruct (o_queue o) as [|x q] eqn:Hq; cbn; destruct (o_closed o) eqn:Hc; cbn;
    rewrite ?Hc; cbn; split; cbn; rewrite ?Hq, ?Hc; auto.
Qed.

Lemma give_up_output_ok c o : 0 <= c -> output_ok c o -> output_ok c (give_up_output o).
Proof.
  intros Hc Ho. pose proof (drop_queue_ok c o Hc Ho) as []. pose proof (drop_queue_empty o).
  unfold give_up_output. destruct (negb _); by split; cbn.
Qed.

Lemma give_up_output_done o : o_closed (give_up_output o) = true /\ o_queue (give_up_output o) = [].
Proof.
  unfold give_up_output. pose proof (drop_queue_empty o).
  destruct (o_closed (drop_queue o)) eqn:E; cbn; auto.
Qed.

Lemma abandon_output_quiet o : output_quiet o (abandon_output o).
Proof.
  unfold abandon_output. destruct (o_closed o) eqn:Hc, (o_hung_up o); cbn;
    try apply output_quiet_refl; split; cbn; auto.
Qed.

Lemma abandon_output_ok c o : output_ok c o -> output_ok c (abandon_output o).
Proof.
  intros []. unfold abandon_output. destruct (_ && _); split; cbn; try done.
  intros He. by destruct (ok_ended0 He).
Qed.

(** What a step that takes no message may do to the input, when the workload took the bytes [w]. *)
Record input_quiet (w : list byte) (i i' : Input) : Prop := {
  qi_opened : opened (i_window i') = opened (i_window i);
  qi_peer_ended : i_peer_ended i' = i_peer_ended i;
  qi_closed : i_closed i = true -> i_closed i' = true;
  qi_bytes : inbox_bytes (i_inbox i) = w ++ inbox_bytes (i_inbox i')
             \/ (w = [] /\ inbox_bytes (i_inbox i') = [] /\ i_closed i' = true);
  qi_requested : i_close_requested i' = true ->
    i_close_requested i = true
    \/ (i_peer_ended i = true /\ i_closed i = false /\ inbox_bytes (i_inbox i) = w);
}.

(** What a step that exchanges no message may do, when the workload took the bytes [w] of input. *)
Record runner_quiet (w : list byte) (r r' : Runner) : Prop := {
  rq_key : key r' = key r;
  rq_limits : limits r' = limits r;
  rq_credits : credits r' = credits r;
  rq_outputs : forall s, output_quiet (idx (outputs r) s) (idx (outputs r') s);
  rq_input : input_quiet w (input_state r) (input_state r');
  rq_finished : finished r' = finished r;
  rq_detached : detached r = true -> detached r' = true;
  rq_launch : launch r <> None ->
    launch r' = launch r /\ (started_message r' = true -> started_message r = true);
  rq_started : started_message r' = true -> started_message r = true \/ launch r' <> None;
  rq_exit : exit r <> None -> exit r' = exit r;
}.

Lemma input_quiet_refl i : input_quiet [] i i.
Proof. split; auto. Qed.

Lemma input_quiet_trans i1 i2 i3 :
  input_quiet [] i1 i2 -> input_quiet [] i2 i3 -> input_quiet [] i1 i3.
Proof.
  intros [O1 P1 C1 B1 R1] [O2 P2 C2 B2 R2]. split; [congruence..|auto| |].
  - destruct B2 as [B2|B2]; [|by right].
    destruct B1 as [B1|(_ & B1 & H1)]; [left; cbn in B1; congruence|].
    right. rewrite B1 in B2. cbn in B2. auto.
  - intros H. destruct (R2 H) as [H2|(Hp & Hc & Hb)]; [auto|]. right.
    split_and!; [congruence| |].
    + destruct (i_closed i1); [by rewrite C1 in Hc|done].
    + destruct B1 as [B1|(_ & _ & H1)]; [cbn in B1|]; congruence.
Qed.

Lemma runner_quiet_refl r : runner_quiet [] r r.
Proof. split; auto using output_quiet_refl, input_quiet_refl. Qed.

Lemma runner_quiet_trans r1 r2 r3 :
  runner_quiet [] r1 r2 -> runner_quiet [] r2 r3 -> runner_quiet [] r1 r3.
Proof.
  intros [K1 L1 C1 O1 I1 F1 D1 La1 S1 E1] [K2 L2 C2 O2 I2 F2 D2 La2 S2 E2]. split; try congruence.
  - intros s. by eapply output_quiet_trans.
  - eapply input_quiet_trans; eauto.
  - auto.
  - intros Hl. destruct (La1 Hl) as [H1 H2]. rewrite <- H1 in Hl. destruct (La2 Hl) as [H3 H4].
    split; [congruence|auto].
  - intros Hs. destruct (S2 Hs) as [Hs2|]; [|by right]. destruct (S1 Hs2) as [|Hl]; [by left|].
    right. destruct (La2 Hl) as [-> _]. done.
  - intros He. rewrite E2; [auto|]. by rewrite E1.
Qed.

(** A step that keeps the invariant and is quiet. *)
Definition keeps (r r' : Runner) : Prop := runner_inv r' /\ runner_quiet [] r r'.

Lemma keeps_refl r : runner_inv r -> keeps r r.
Proof. intros. split; [done|apply runner_quiet_refl]. Qed.

Lemma keeps_trans r1 r2 r3 : keeps r1 r2 -> (runner_inv r2 -> keeps r2 r3) -> keeps r1 r3.
Proof.
  intros [Hi Hq] H. destruct (H Hi) as [Hi' Hq']. split; [done|]. by eapply runner_quiet_trans.
Qed.

(** Assignments to fields that neither the invariant nor quietness looks at. *)
Ltac keeps_fields := intros Hkf; split; [destruct Hkf; by split|by destruct Hkf; split;
  auto using output_quiet_refl, input_quiet_refl].

Lemma keeps_close_input r : runner_inv r -> keeps r (close_input r).
Proof.
  intros H. unfold close_input. destruct (i_closed (input_state r)) eqn:Hc; [by apply keeps_refl|].
  destruct H as [Hl Ho Hcr [Hok Hu Hg Hcl Hrq Hm] Hgu Hhw].
  assert (len (inbox_bytes (i_inbox (input_state r))) <= U32_MAX
          \/ inbox_unit (i_inbox (input_state r)) = Frames) as Hsmall.
  { pose proof (inbox_bytes_bound (chunk (limits r)) _ ltac:(apply Hl) Hok) as Hb.
    destruct Hl as (_ & Hsz & _), Hg as [_ ? ? ?]. destruct (inbox_unit _); [left; lia|by right]. }
  pose proof (inbox_clear_spec _ _ Hok Hsmall) as Hclear.
  destruct (inbox_clear (i_inbox (input_state r))) as [i' [n freed]] eqn:E.
  destruct Hclear as (Hok' & Hu' & Hh' & Hfr & Hb' & Hn).
  split; split; cbn; rewrite ?E; cbn; auto using output_quiet_refl.
  - split; cbn; rewrite ?E; cbn; auto; [congruence|]. destruct Hg. split; try done.
    pose proof (held_nonneg (i_inbox (input_state r))). lia.
  - split; cbn; rewrite ?E; cbn; auto.
Qed.

Lemma keeps_end_grace r : runner_inv r -> keeps r (end_grace r).
Proof.
  intros [Hl Ho Hcr Hi Hgu Hhw]. assert (0 <= chunk (limits r)) by (destruct Hl; lia).
  split; split; cbn; try done; auto using input_quiet_refl.
  - intros s. rewrite idx_map2. by apply end_grace_output_ok.
  - intros Hg s. rewrite idx_map2. destruct (Hgu Hg s) as [Hc Hq].
    pose proof (end_grace_output_quiet (idx (outputs r) s)) as [_ _ _ Hcl [Hq'|[Hq' _]]];
      rewrite Hq', ?Hq; auto.
  - intros s. rewrite idx_map2. apply end_grace_output_quiet.
Qed.

Lemma keeps_terminate r now c : runner_inv r -> keeps r (terminate r now c).
Proof.
  intros H. unfold terminate. destruct (is_some (terminated_at r)); [by apply keeps_refl|].
  set (r1 := r <| terminated_at := Some now |> <| timeout_at := None |>).
  set (r2 := if is_some (exit r1) then r1 else _).
  assert (H2 : keeps r r2) by (subst r2; destruct (is_some _); revert H; keeps_fields).
  eapply keeps_trans; [exact H2|]. clearbody r2. clear. intros H2.
  eapply keeps_trans; [by apply keeps_close_input|]. generalize (close_input r2). clear. intros r H.
  set (r4 := r <| grace_until := _ |> <| give_up_at := _ |>).
  assert (H4 : keeps r r4) by (subst r4; revert H; keeps_fields).
  change (keeps r (if reached (grace_until r4) now then end_grace r4 else r4)).
  destruct (reached _ _); [|done]. eapply keeps_trans; [exact H4|]. apply keeps_end_grace.
Qed.

Lemma keeps_give_up r : runner_inv r -> keeps r (give_up_now r).
Proof.
  intros [Hl Ho Hcr Hi Hgu Hhw]. assert (0 <= chunk (limits r)) by (destruct Hl; lia).
  unfold give_up_now. cbn. destruct (exit r) eqn:He; cbn; split; split; cbn; try done;
    auto using input_quiet_refl; try congruence; intros; rewrite idx_map2;
    auto using give_up_output_ok, give_up_output_quiet, give_up_output_done.
Qed.

Lemma keeps_abandon_open_streams r : runner_inv r -> keeps r (abandon_open_streams r).
Proof.
  intros [Hl Ho Hcr Hi Hgu Hhw]. split; split; cbn; try done; auto using input_quiet_refl.
  - intros s. rewrite idx_map2. by apply abandon_output_ok.
  - intros Hg s. rewrite idx_map2. destruct (Hgu Hg s) as [Hc Hq].
    unfold abandon_output. by rewrite Hc.
  - intros s. rewrite idx_map2. apply abandon_output_quiet.
Qed.

Lemma keeps_fire_timeout r now : runner_inv r -> keeps r (fire_timeout r now).
Proof.
  intros H. unfold fire_timeout. destruct (reached _ _); [|by apply keeps_refl].
  assert (H1 : keeps r (r <| timeout_at := None |>)) by (revert H; keeps_fields).
  eapply keeps_trans; [exact H1|]. apply keeps_terminate.
Qed.

Lemma keeps_fire_grace r now : runner_inv r -> keeps r (fire_grace r now).
Proof.
  intros H. unfold fire_grace. destruct (reached _ _); [by apply keeps_end_grace|by apply keeps_refl].
Qed.

Lemma keeps_fire_settlement r now : runner_inv r -> keeps r (fire_settlement r now).
Proof.
  intros H. unfold fire_settlement. destruct (settling r) as [|[by_|]| |]; try by apply keeps_refl.
  destruct (by_ <=? now); [revert H; keeps_fields|by apply keeps_refl].
Qed.

Lemma keeps_fire_give_up r now : runner_inv r -> keeps r (fire_give_up r now).
Proof.
  intros H. unfold fire_give_up. destruct (reached _ _); [|by apply keeps_refl].
  destruct (is_cleaned_up _); [revert H; keeps_fields|by apply keeps_give_up].
Qed.

Lemma keeps_fire_abandon r now : runner_inv r -> keeps r (fire_abandon r now).
Proof.
  intros H. unfold fire_abandon. destruct (reached _ _); [|by apply keeps_refl].
  set (r1 := if awaits_launch r then _ else _).
  assert (H1 : keeps r r1).
  { subst r1. destruct (awaits_launch r); [revert H; keeps_fields|by apply keeps_refl]. }
  eapply keeps_trans; [exact H1|]. clearbody r1. clear. intros H.
  destruct (is_fenced _); [by apply keeps_abandon_open_streams|by apply keeps_refl].
Qed.

Lemma keeps_tick r now : runner_inv r -> keeps r (tick r now).
Proof.
  intros H. unfold tick. destruct (finished r); [by apply keeps_refl|].
  eapply keeps_trans; [by apply keeps_fire_timeout|clear H; intros H].
  eapply keeps_trans; [by apply keeps_fire_grace|clear H; intros H].
  eapply keeps_trans; [by apply keeps_fire_settlement|clear H; intros H].
  eapply keeps_trans; [by apply keeps_fire_give_up|clear H; intros H].
  by apply keeps_fire_abandon.
Qed.

Lemma keeps_launched r res : runner_inv r -> keeps r (launched r res).
Proof.
  intros H. unfold launched. destruct (awaits_launch r) eqn:Ha; cbn; [|by apply keeps_refl].
  assert (Hn : launch r = None).
  { unfold awaits_launch in Ha. by destruct (launch r). }
  destruct H. destruct (is_ok res).
  - split; split; cbn; auto using output_quiet_refl, input_quiet_refl; done.
  - set (r1 := r <| launch := Some res |>).
    assert (H1 : keeps r r1)
      by (split; split; cbn; auto using output_quiet_refl, input_quiet_refl; done).
    eapply keeps_trans; [exact H1|]. apply keeps_close_input.
Qed.

Lemma keeps_exited r now st : runner_inv r -> keeps r (exited r now st).
Proof.
  intros H. unfold exited. cbv zeta.
  assert (H1 : keeps r (r <| timeout_at := None |>)) by (revert H; keeps_fields).
  eapply keeps_trans; [exact H1|]. intros H2. eapply keeps_trans; [by apply (keeps_tick _ now)|].
  generalize (tick (r <| timeout_at := None |>) now). clear. intros r H.
  destruct (_ || _) eqn:He; [by apply keeps_refl|].
  assert (Hn : exit r = None) by (by destruct (exit r)).
  assert (H1 : keeps r (r <| exit := Some st |>)) by (revert H; keeps_fields).
  eapply keeps_trans; [exact H1|]. intros H2. eapply keeps_trans; [by apply keeps_close_input|].
  generalize (close_input (r <| exit := Some st |>)). clear. intros r. keeps_fields.
Qed.

Lemma keeps_settled r res : runner_inv r -> keeps r (settled r res).
Proof.
  intros H. unfold settled. destruct (settling r); try by apply keeps_refl.
  revert H. keeps_fields.
Qed.

Lemma keeps_detach r now c : runner_inv r -> keeps r (detach r now c).
Proof.
  intros H. unfold detach. cbv zeta. eapply keeps_trans; [by apply (keeps_tick _ now)|].
  generalize (tick r now). clear. intros r H.
  destruct (finished r || detached r); [by apply keeps_refl|].
  eapply keeps_trans; [by apply (keeps_terminate _ now c)|]. generalize (terminate r now c). clear. intros r H.
  set (r1 := set_input _ _).
  assert (H1 : keeps r r1).
  { destruct H as [? ? ? [] ? ?]. split; split; cbn; auto using output_quiet_refl; try done.
    split; cbn; auto. }
  eapply keeps_trans; [exact H1|]. clearbody r1. clear. intros H.
  eapply keeps_trans; [by apply keeps_end_grace|]. generalize (end_grace r1). clear.
  intros r. keeps_fields.
Qed.

(** A step on one output stream that keeps its part and is quiet. *)
Lemma keeps_alter r s f :
  runner_inv r -> (forall o, o_queue (f o) = o_queue o /\ o_ended (f o) = o_ended o
    /\ o_discarding (f o) = o_discarding o /\ (o_closed o = true -> o_closed (f o) = true)
    /\ (o_truncated o = true -> o_truncated (f o) = true)) ->
  keeps r (r <| outputs := alter2 s f (outputs r) |>).
Proof.
  intros [Hl Ho Hcr Hi Hgu Hhw] Hf. split; split; cbn; try done; auto using input_quiet_refl.
  - intros s'. rewrite idx_alter2. case_decide; [|done]. destruct (Ho s'), (Hf (idx (outputs r) s'))
      as (Hq & He & Hd & Hc & Ht). split; rewrite ?Hq, ?He, ?Hd; try done.
    intros H'. destruct (ok_ended0 H'). auto.
  - intros Hg s'. rewrite idx_alter2. case_decide; [|by apply Hgu].
    destruct (Hf (idx (outputs r) s')) as (Hq & _ & _ & Hc & _), (Hgu Hg s'). rewrite Hq. auto.
  - intros s'. rewrite idx_alter2. case_decide; [|apply output_quiet_refl].
    destruct (Hf (idx (outputs r) s')) as (Hq & He & Hd & Hc & Ht). split; auto.
    rewrite Hd. intros [?|?]; auto.
Qed.

Lemma keeps_next_request r : runner_inv r -> keeps r (next_request r).1.
Proof.
  intros H. unfold next_request. destruct (terminate_request r); [revert H; keeps_fields|].
  destruct (List.find _ ALL) as [s|]; [by apply keeps_alter; [|intros o; cbn; auto]|].
  destruct (i_close_requested (input_state r)) eqn:Hc.
  - destruct H as [? ? ? [] ? ?]. split; split; cbn; auto using output_quiet_refl; try done.
    split; cbn; auto.
  - destruct (settle_request r); [revert H; keeps_fields|by apply keeps_refl].
Qed.

(** ** Taking the peer's messages *)

Lemma runner_credit_cases r k pool u r' res :
  credit r k pool u = (r', res) ->
  (r' = r /\ (res = Ok Applied -> False)) \/
  (finished r = false /\ res = Ok Applied /\ exists i, output_pool (limits r) pool = Ok i /\ u <> 0
   /\ available (idx (credits r) i) + u <= size (credit_window (idx (credits r) i))
   /\ r' = r <| credits := alter2 i (fun c => c <| available := available c + u |>) (credits r) |>).
Proof.
  unfold credit. destruct (admits (key r) k) as [[]|]; try (intros [= <- <-]; by left).
  destruct (output_pool (limits r) pool) as [i|]; [|intros [= <- <-]; by left].
  destruct (finished r) eqn:Hf; [intros [= <- <-]; by left|].
  unfold grant. destruct ((u =? 0) || _) eqn:Hb; intros [= <- <-]; [by left|right].
  bool_to_prop. split_and!; try done. exists i. split_and!; try done. by destruct i.
Qed.

Lemma input_cases r k bytes r' res :
  input r k bytes = (r', res) ->
  (r' = r /\ (forall x, res = Ok x -> x = Stale \/ finished r = true)) \/
  (finished r = false /\ i_peer_ended (input_state r) = false /\ 1 <= len bytes <= chunk (limits r)
   /\ let g := i_window (input_state r) in
      cost (granted_window g) (len bytes) <= opened g /\
      let g' := g <| opened := opened g - cost (granted_window g) (len bytes) |> in
      if i_closed (input_state r)
      then res = Ok Late /\ r' = set_input r (fun i => i <| i_window := g' |>)
      else res = Ok Applied /\
           r' = note_buffered (set_input r (fun i =>
             i <| i_window := g' |> <| i_inbox := inbox_push (i_inbox i) bytes |>))).
Proof.
  unfold input. destruct (admits (key r) k) as [[]|]; try (intros [= <- <-]; left; naive_solver).
  destruct (finished r) eqn:Hf; [intros [= <- <-]; left; naive_solver|].
  destruct (i_peer_ended (input_state r)) eqn:Hp; [intros [= <- <-]; left; naive_solver|].
  destruct (check_chunk _ _) as [u|] eqn:Hc; [|intros [= <- <-]; left; naive_solver].
  apply check_chunk_ok in Hc; [|apply len_nonneg].
  unfold charge. destruct (_ <? _) eqn:Hb; [intros [= <- <-]; left; naive_solver|].
  bool_to_prop. cbn. intros H. right. split_and!; [done|done|lia|lia|done|].
  destruct (i_closed (input_state r)); by injection H as <- <-.
Qed.

Lemma end_input_cases r k r' res :
  end_input r k = (r', res) ->
  (r' = r /\ (forall x, res = Ok x -> x = Stale \/ finished r = true)) \/
  (finished r = false /\ i_peer_ended (input_state r) = false /\ (exists x, res = Ok x)
   /\ r' = close_input_when_taken (set_input r (fun i => i <| i_peer_ended := true |>))).
Proof.
  unfold end_input. destruct (admits (key r) k) as [[]|]; try (intros [= <- <-]; left; naive_solver).
  destruct (finished r) eqn:Hf; [intros [= <- <-]; left; naive_solver|].
  destruct (i_peer_ended (input_state r)) eqn:Hp; [intros [= <- <-]; left; naive_solver|].
  cbn. destruct (i_closed (input_state r)) eqn:Hc; intros [= <- <-]; right; split_and!; eauto.
  unfold close_input_when_taken. cbn. by rewrite Hc.
Qed.

Lemma cancel_cases r now k c r' res :
  cancel r now k c = (r', res) ->
  (r' = r /\ (forall x, res = Ok x -> x = Stale)) \/
  (exists x, res = Ok x) /\ (r' = tick r now \/ r' = terminate (tick r now) now c).
Proof.
  unfold cancel. destruct (admits (key r) k) as [[]|]; try (intros [= <- <-]; left; naive_solver).
  destruct (_ || _); intros [= <- <-]; right; eauto.
Qed.

Lemma runner_credit_inv r k pool u r' res :
  runner_inv r -> 0 <= u -> credit r k pool u = (r', res) -> runner_inv r'.
Proof.
  intros Hi Hu H. apply runner_credit_cases in H as [[-> _]|(_ & _ & i & _ & Hn & Ha & ->)]; [done|].
  destruct Hi. split; try done. intros j. cbn. rewrite idx_alter2. case_decide; [|done]. subst j.
  destruct (inv_credits0 i) as [Hw Hav]. split; cbn; [done|]. rewrite Hw in Ha. lia.
Qed.

Lemma granted_charge w g h n c :
  granted_ok w g h -> c <= opened g -> 0 <= c -> n <= c ->
  granted_ok w (g <| opened := opened g - c |>) (h + n).
Proof. intros [] Hc. split; cbn; try done; lia. Qed.

Lemma input_inv r k bytes r' res : runner_inv r -> input r k bytes = (r', res) -> runner_inv r'.
Proof.
  intros Hi H. apply input_cases in H as [[-> _]|(_ & _ & Hb & Hc & H)]; [done|].
  pose proof (inv_limits _ Hi) as Hl. destruct Hi as [_ Ho Hcr [Hok Hu Hg Hcl Hrq Hm] Hgu Hhw].
  pose proof (cost_small _ (granted_window (i_window (input_state r))) _ Hl Hb) as Hcost.
  assert (0 <= cost (granted_window (i_window (input_state r))) (len bytes))
    by (rewrite Hcost; destruct (unit_ (granted_window (i_window (input_state r)))); [apply len_nonneg|done]).
  destruct (i_closed (input_state r)) eqn:Hclosed.
  - destruct H as [_ ->]. split; cbn; try done. split; cbn; try done.
    + rewrite <- (Z.add_0_r (held _)). by apply granted_charge.
    + intros _. by apply Hcl.
  - destruct H as [_ ->]. apply runner_inv_note_buffered. split; cbn; try done. split; cbn.
    + by apply inbox_push_ok.
    + by rewrite inbox_push_unit.
    + rewrite inbox_push_held. apply granted_charge; try done.
      rewrite Hcost, Hu. destruct Hg as [-> _ _ _]. by destruct (unit_ (input_window (limits r))).
    + congruence.
    + intros Hx. discriminate (Hrq Hx).
    + intros Hx. discriminate (Hm Hx).
Qed.

Lemma close_when_taken_inv r :
  runner_inv r -> runner_inv (close_input_when_taken r).
Proof.
  intros Hi. unfold close_input_when_taken. destruct (_ && _) eqn:Hb; [|done]. bool_to_prop.
  unfold inbox_is_empty in *. bool_to_prop. destruct Hi as [? ? ? [] ? ?].
  split; cbn; try done; by split; cbn.
Qed.

Lemma end_input_inv r k r' res : runner_inv r -> end_input r k = (r', res) -> runner_inv r'.
Proof.
  intros Hi H. apply end_input_cases in H as [[-> _]|(_ & _ & _ & ->)]; [done|].
  apply close_when_taken_inv. destruct Hi as [? ? ? [] ? ?]. split; cbn; try done; by split; cbn.
Qed.

Lemma keeps_cancel r now k c r' res : runner_inv r -> cancel r now k c = (r', res) -> keeps r r'.
Proof.
  intros Hi H. apply cancel_cases in H as [[-> _]|[_ [-> | ->]]].
  - by apply keeps_refl.
  - by apply keeps_tick.
  - eapply keeps_trans; [by apply (keeps_tick _ now)|]. apply keeps_terminate.
Qed.

(** ** The workload's data *)

(** [output] appends a prefix of the bytes to the stream's queue, or drops them all. *)
Lemma runner_output_cases r s bytes r' n :
  runner_inv r -> output r s bytes = (r', n) ->
  let o := idx (outputs r) s in
  (o_closed o = true /\ r' = r /\ n = 0) \/
  (o_closed o = false /\ o_discarding o = true /\ n = len bytes
   /\ r' = r <| outputs := alter2 s (fun o =>
              o <| o_truncated := o_truncated o || negb (is_empty bytes) |>) (outputs r) |>) \/
  (o_closed o = false /\ o_discarding o = false /\ gave_up r = false
   /\ n = Z.min (len bytes) (chunk (limits r) - len (o_queue o)) /\ 0 <= n
   /\ r' = note_buffered (r <| outputs := alter2 s (fun o =>
              o <| o_queue := o_queue o ++ ztake n bytes |>) (outputs r) |>)).
Proof.
  intros Hi. unfold output. cbn zeta. destruct (o_closed (idx (outputs r) s)) eqn:Hc; cbn.
  { intros [= <- <-]. by left. }
  destruct (gave_up r) eqn:Hg; [destruct (inv_gave_up _ Hi Hg s); congruence|].
  destruct (o_discarding (idx (outputs r) s)) eqn:Hd; intros [= <- <-]; right; [by left|right].
  pose proof (ok_queue _ _ (inv_outputs _ Hi s)). split_and!; try done. len_facts. lia.
Qed.

Lemma runner_output_inv r s bytes r' n : runner_inv r -> output r s bytes = (r', n) -> runner_inv r'.
Proof.
  intros Hi H. apply runner_output_cases in H as [(_ & -> & _)|[(_ & _ & _ & ->)|(Hc & Hd & Hg & Hn & Hn0 & ->)]];
    [done| | |done].
  - by apply keeps_alter; [|intros o; cbn; split_and!; auto; intros ->].
  - apply runner_inv_note_buffered. destruct Hi. split; cbn; try done; [|congruence].
    intros s'. rewrite idx_alter2. case_decide; [|done]. subst s'. destruct (inv_outputs0 s).
    split; cbn; [len_lia|intros He; destruct (ok_ended0 He); congruence|congruence].
Qed.

(** [input_written] removes what the workload took, returns it as credit, and is otherwise quiet. *)
Lemma input_written_spec r n :
  runner_inv r -> 0 <= n ->
  runner_inv (input_written r n) /\
  exists w, runner_quiet w r (input_written r n)
    /\ w = (if i_closed (input_state r) then [] else ztake n (inbox_bytes (i_inbox (input_state r)))).
Proof.
  intros Hi Hn. unfold input_written.
  destruct (i_closed (input_state r)) eqn:Hcl; [split; [done|]; exists []; split; [apply runner_quiet_refl|done]|].
  pose proof (inv_limits _ Hi) as Hl. pose proof (inv_input _ Hi) as [Hok Hu Hg Hcl' Hrq Hm].
  assert (len (inbox_bytes (i_inbox (input_state r))) <= U32_MAX
          \/ inbox_unit (i_inbox (input_state r)) = Frames) as Hsmall.
  { pose proof (inbox_bytes_bound (chunk (limits r)) _ ltac:(apply Hl) Hok) as Hb.
    destruct Hl as (_ & Hsz & _), Hg as [_ ? ? ?]. destruct (inbox_unit _); [left; lia|by right]. }
  pose proof (inbox_pop_spec _ _ n Hok Hn Hsmall) as Hpop.
  destruct (inbox_pop (i_inbox (input_state r)) n) as [i' freed].
  destruct Hpop as (Hok' & Hu' & Hh' & Hf' & Hb').
  set (r1 := set_input r _). assert (H1 : runner_inv r1).
  { destruct Hi as [? ? ? _ ? ?]. subst r1. split; cbn; try done.
    split; cbn; [done|congruence| |congruence|done|done].
    destruct Hg. split; cbn; (done || lia). }
  split; [by apply close_when_taken_inv|]. exists (ztake n (inbox_bytes (i_inbox (input_state r)))).
  split; [|done].
  assert (Hsplit : inbox_bytes (i_inbox (input_state r))
    = ztake n (inbox_bytes (i_inbox (input_state r))) ++ inbox_bytes i').
  { rewrite Hb'. destruct (Z.min_spec n (len (inbox_bytes (i_inbox (input_state r))))) as [[? ->]|[? ->]].
    - by rewrite ztake_zdrop.
    - rewrite ztake_all, zdrop_all by lia. by rewrite app_nil_r. }
  unfold close_input_when_taken. destruct (_ && _) eqn:E; split; cbn; auto using output_quiet_refl;
    split; cbn; auto.
  intros _. right. cbn in E. apply andb_true_iff in E as [E He]. apply andb_true_iff in E as [E _].
  split_and!; [done..|]. unfold inbox_is_empty in He. rewrite Hsplit at 1.
  destruct (inbox_bytes i') eqn:Ei; [by rewrite app_nil_r|done].
Qed.

(** ** Messages that the runner sends *)

(** Equal but for the two fields that only choose which message goes next. *)
Definition same (r r' : Runner) : Prop := r' = r <| turn := turn r' |> <| credited := credited r' |>.

Lemma same_refl r : same r r.
Proof. by destruct r. Qed.

Lemma same_trans r1 r2 r3 : same r1 r2 -> same r2 r3 -> same r1 r3.
Proof. unfold same. intros H1 H2. rewrite H2, H1. by destruct r1. Qed.

Lemma same_credited r r' b : same r r' -> same r (r' <| credited := b |>).
Proof. unfold same. intros ->. by destruct r. Qed.

(** The message [m], with its data [d], that the runner [r] returns as it becomes [r']. *)
Inductive sent (r : Runner) : Message -> list byte -> Runner -> Prop :=
| sent_credit u r' :
    detached r = false -> input_accepts r = true -> u = returnable (i_window (input_state r)) ->
    0 < u ->
    same (set_input r (fun i => i <| i_window := (take_grant (i_window i)).1 |>)) r' ->
    sent r (MCredit u) [] r'
| sent_started r' :
    detached r = false -> started_message r = true -> same (r <| started_message := false |>) r' ->
    sent r MStarted [] r'
| sent_input_closed r' :
    detached r = false -> i_closed_message (input_state r) = true ->
    same (set_input r (fun i => i <| i_closed_message := false |>)) r' ->
    sent r MInputClosed [] r'
| sent_end s r' :
    detached r = false -> is_done (idx (outputs r) s) = true ->
    o_ended (idx (outputs r) s) = false ->
    same (r <| outputs := alter2 s (fun o => o <| o_ended := true |>) (outputs r) |>) r' ->
    sent r (MEnd s) [] r'
| sent_output s d q r' :
    detached r = false -> started_message r = false -> awaits_launch r = false ->
    o_queue (idx (outputs r) s) = d ++ q -> 1 <= len d <= chunk (limits r) ->
    cost (output_window (limits r)) (len d)
      <= available (idx (credits r) (pool_of (limits r) s)) ->
    same (r <| outputs := alter2 s (fun o => o <| o_queue := q |>) (outputs r) |>
            <| credits := alter2 (pool_of (limits r) s) (fun c => spend c (len d)) (credits r) |>) r' ->
    sent r (MOutput s (len d)) d r'
| sent_terminal o r' :
    outcome r = Some o -> same (r <| finished := true |>) r' -> sent r (MTerminal o) [] r'.

Lemma sent_same r1 r2 m d r' : same r1 r2 -> sent r2 m d r' -> sent r1 m d r'.
Proof.
  unfold same. intros Hs H. destruct r1. cbn in Hs.
  destruct H; rewrite Hs in *; cbn in *; econstructor; eauto; unfold same in *; by
    match goal with H : ?x = _ |- ?x = _ => rewrite H end.
Qed.

Lemma runner_set_window_same r g :
  g = i_window (input_state r) -> set_input r (fun i => i <| i_window := g |>) = r.
Proof. intros ->. destruct r as [? ? ? ? ? ? ? ? ? ? ? ? ? ? ? ? ? ? ? ? ? i]. by destruct i. Qed.

Lemma sent_credited r m d r' b : sent r m d r' -> sent r m d (r' <| credited := b |>).
Proof. intros H. destruct H; econstructor; eauto using same_credited. Qed.

Lemma runner_next_credit_cases r r' m :
  runner_inv r -> next_credit r = (r', m) ->
  match m with
  | Some m => (exists u, m = MCredit u) /\ (detached r = false -> sent r m [] r')
  | None => r' = r /\ (input_accepts r = true -> returnable (i_window (input_state r)) = 0)
  end.
Proof.
  intros Hi. pose proof (ok_returnable _ _ _ (ok_grant _ _ (inv_input _ Hi))) as Hr.
  unfold next_credit. destruct (input_accepts r) eqn:Ha; cbn; [|intros [= <- <-]; done].
  destruct (Z.ltb_spec 0 (returnable (i_window (input_state r)))) as [Hlt|Hge]; cbn;
    intros [= <- <-].
  - split; [by eexists|]. intros Hd. econstructor; eauto. apply same_refl.
  - assert (Hz : returnable (i_window (input_state r)) = 0) by lia. split; [|done].
    apply runner_set_window_same. exact (take_grant_zero _ Hz).
Qed.

Lemma sendable_bound w c n :
  credit_ok w c -> 0 <= n <= U32_MAX -> 0 < sendable c n ->
  sendable c n <= n /\ cost w (sendable c n) <= available c.
Proof.
  intros [Hw Ha] Hn. unfold sendable, cost, units, try_or_max. rewrite Hw.
  destruct (unit_ w); [|destruct (Z.ltb_spec 0 (available c)); lia].
  destruct (Z.leb_spec (Z.min n (available c)) U32_MAX); lia.
Qed.

Lemma next_output_from_cases rounds r buffer r' buffer' m :
  runner_inv r -> detached r = false -> started_message r = false -> awaits_launch r = false ->
  next_output_from rounds r buffer = (r', buffer', m) ->
  match m with
  | Some m => exists d, sent r m d r' /\ exists s, m = MOutput s (len d) /\ ztake (len d) buffer' = d
  | None => same r r' /\ buffer' = buffer
  end.
Proof.
  intros Hi Hd Hst Hal. revert r Hi Hd Hst Hal. induction rounds as [|x rounds IH];
    intros r Hi Hd Hst Hal; cbn [next_output_from].
  { intros [= <- <- <-]. split; [apply same_refl|done]. }
  set (r1 := r <| turn := other (turn r) |>).
  assert (Hsame : same r r1) by (subst r1; by destruct r).
  assert (Hi1 : runner_inv r1) by (subst r1; by destruct Hi; split).
  change (outputs r1) with (outputs r). change (credits r1) with (credits r).
  change (limits r1) with (limits r).
  set (s := turn r). set (c := idx (credits r) (pool_of (limits r) s)).
  set (q := o_queue (idx (outputs r) s)).
  set (wanted := Z.min (Z.min (len q) (chunk (limits r))) (len buffer)).
  pose proof (inv_limits _ Hi) as (Hc & _).
  pose proof (len_nonneg q). pose proof (len_nonneg buffer).
  destruct (Z.ltb_spec 0 (sendable c wanted)) as [Hlt|_].
  - destruct (sendable_bound _ _ wanted (inv_credits _ Hi (pool_of (limits r) s))) as [Hn Hcost];
      [subst wanted; lia|done|]. fold c in Hn, Hcost.
    rewrite take_spec by lia. replace (Z.min (Z.min (sendable c wanted) (len buffer)) (len q))
      with (sendable c wanted) by (subst wanted; lia).
    set (n := sendable c wanted) in *. intros [= <- <- <-].
    assert (Hl : len (ztake n q) = n) by (subst wanted; len_lia).
    exists (ztake n q). rewrite Hl. split; [|exists s; split; [done|]].
    + eapply sent_same; [exact Hsame|]. rewrite <- Hl at 1. econstructor; eauto.
      * by rewrite ztake_zdrop.
      * rewrite Hl. subst wanted. change (limits r1) with (limits r). lia.
      * rewrite Hl. done.
      * rewrite Hl. apply same_refl.
    + rewrite ztake_app_l, ztake_all by lia. done.
  - intros Hnext. specialize (IH r1 Hi1 Hd Hst Hal Hnext). destruct m as [m|].
    + destruct IH as (d & Hs & Hm). exists d. split; [|done]. by eapply sent_same.
    + destruct IH as [Hs ->]. split; [|done]. by eapply same_trans.
Qed.

Lemma next_other_cases r buffer r' buffer' m :
  runner_inv r -> detached r = false -> next_other r buffer = (r', buffer', m) ->
  match m with
  | Some m => exists d, sent r m d r' /\ forall s n, m = MOutput s n -> n = len d /\ ztake n buffer' = d
  | None => same r r' /\ buffer' = buffer
  end.
Proof.
  intros Hi Hd. unfold next_other. destruct (started_message r) eqn:Hst.
  { intros [= <- <- <-]. exists []. split; [|done]. econstructor; eauto. apply same_refl. }
  destruct (i_closed_message (input_state r)) eqn:Hcm.
  { intros [= <- <- <-]. exists []. split; [|done]. econstructor; eauto. apply same_refl. }
  destruct (awaits_launch r) eqn:Hal; cbn [negb]; [intros [= <- <- <-]; split; [apply same_refl|done]|].
  destruct (List.find _ ALL) as [s|] eqn:Hf.
  - intros [= <- <- <-]. apply List.find_some in Hf as [_ Hb]. bool_to_prop.
    exists []. split; [|done]. econstructor; eauto. apply same_refl.
  - intros H. apply next_output_from_cases in H; try done. destruct m as [m|]; [|done].
    destruct H as (d & Hs & s & -> & Hb). exists d. split; [done|]. by intros ? ? [= <- <-].
Qed.

(** Every message that the runner returns is one of [sent]; a call that returns none changes
    only whose turn is next. *)
Lemma runner_next_message_cases r buffer r' buffer' m :
  runner_inv r -> next_message r buffer = (r', buffer', m) ->
  match m with
  | Some m => finished r = false /\ exists d, sent r m d r'
              /\ (forall s n, m = MOutput s n -> n = len d /\ ztake n buffer' = d)
  | None => same r r' /\ buffer' = buffer
  end.
Proof.
  intros Hi. unfold next_message. destruct (finished r) eqn:Hfin.
  { intros [= <- <- <-]. split; [apply same_refl|done]. }
  assert (Hterm : forall r0, same r r0 -> next_terminal r0 buffer = (r', buffer', m) ->
    match m with
    | Some m => false = false /\ exists d, sent r m d r'
                /\ (forall s n, m = MOutput s n -> n = len d /\ ztake n buffer' = d)
    | None => same r r' /\ buffer' = buffer
    end).
  { intros r0 Hs. unfold next_terminal. destruct (outcome r0) as [o|] eqn:Ho; intros [= <- <- <-];
      [|done]. split; [done|]. exists []. split; [|done]. eapply sent_same; [exact Hs|].
    econstructor; eauto. apply same_refl. }
  destruct (detached r) eqn:Hd; [apply Hterm, same_refl|].
  set (first := if negb (credited r) then next_credit r else (r, None)).
  destruct first as [r1 m1] eqn:Hfirst.
  assert (H1 : match m1 with Some m => (exists u, m = MCredit u) /\ sent r m [] r1 | None => r1 = r end).
  { subst first. destruct (negb (credited r)); [|by injection Hfirst as <- <-].
    apply runner_next_credit_cases in Hfirst; [|done]. destruct m1; [|tauto]. destruct Hfirst. auto. }
  destruct m1 as [m1|].
  { intros [= <- <- <-]. split; [done|]. destruct H1 as [[u ->] H1]. exists [].
    split; [by apply sent_credited|done]. }
  subst r1. destruct (next_other r buffer) as [[r2 b2] m2] eqn:Hother.
  apply next_other_cases in Hother; [|done|done]. destruct m2 as [m2|].
  { intros [= <- <- <-]. split; [done|]. destruct Hother as (d & Hs & Hm). exists d.
    split; [by apply sent_credited|done]. }
  destruct Hother as [Hs2 ->]. destruct (next_credit r2) as [r3 m3] eqn:Hlast.
  assert (Hi2 : runner_inv r2) by (rewrite Hs2; destruct Hi; by split).
  apply runner_next_credit_cases in Hlast; [|done]. destruct m3 as [m3|].
  - intros [= <- <- <-]. split; [done|].
    assert (Hd2 : detached r2 = false) by (by rewrite Hs2). destruct Hlast as [[u ->] Hlast].
    exists []. split; [|done]. eapply sent_same; [exact Hs2|]. apply sent_credited. auto.
  - destruct Hlast as [-> _]. by apply Hterm.
Qed.

Lemma same_inv r r' : same r r' -> runner_inv r -> runner_inv r'.
Proof. intros -> []. by split. Qed.

Lemma credit_ok_spend w c n :
  credit_ok w c -> 0 <= cost w n <= available c -> credit_ok w (spend c n).
Proof. intros [Hw Ha] Hc. split; [done|]. cbn. rewrite Hw. lia. Qed.

Lemma sent_inv r m d r' : runner_inv r -> sent r m d r' -> runner_inv r'.
Proof.
  intros Hi H.
  destruct H as [u r' Hd Ha -> Hu Hs|r' _ _ Hs|r' _ _ Hs|s r' _ Hdone _ Hs
                |s d q r' _ _ _ Hq Hl Hc Hs|o r' _ Hs];
    (apply (same_inv _ _ Hs); clear Hs r').
  - destruct Hi as [? ? ? [? ? [] ? ? ?] ? ?]. split; cbn; try done. split; cbn; try done.
    split; cbn; (done || lia).
  - by destruct Hi; split.
  - destruct Hi as [? ? ? [] ? ?]. by split; cbn; try done; split; cbn.
  - unfold is_done in Hdone. bool_to_prop. destruct Hi. split; cbn; try done.
    + intros s'. rewrite idx_alter2. case_decide; [|done]. subst s'. destruct (inv_outputs0 s).
      split; cbn; try done. intros _. by destruct (o_queue (idx (outputs r) s)).
    + intros Hg s'. rewrite idx_alter2. case_decide; by apply inv_gave_up0.
  - destruct Hi. split; cbn; try done.
    + intros s'. rewrite idx_alter2. case_decide; [|done]. subst s'. destruct (inv_outputs0 s).
      rewrite Hq in *. split; cbn; [len_lia|..].
      * intros He. by destruct (ok_ended0 He) as [? [_ ?]%app_eq_nil].
      * intros Hd. by destruct (app_eq_nil _ _ (ok_discarding0 Hd)).
    + intros i. rewrite idx_alter2. case_decide; [|done]. subst i. apply credit_ok_spend; [done|].
      split; [|done]. unfold cost, units, try_or_max. destruct (unit_ _); [|done].
      destruct (_ <=? _); [lia|done].
    + intros Hg s'. rewrite idx_alter2. destruct (inv_gave_up0 Hg s') as [Hcl Hqe].
      case_decide; [|done]. subst s'. rewrite Hq in Hqe. by destruct (app_eq_nil _ _ Hqe).
  - by destruct Hi; split.
Qed.

(** ** Any sequence of calls *)

Inductive runner_op : Type :=
| OpCredit (k : Key) (pool : Pool) (units : Z)
| OpInput (k : Key) (bytes : list byte)
| OpEndInput (k : Key)
| OpCancel (now : Z) (k : Key) (c : Cause)
| OpLaunched (r : result LaunchFailure unit)
| OpOutput (s : Stream) (bytes : list byte)
| OpDiscarded (s : Stream) (bytes : Z)
| OpOutputClosed (s : Stream)
| OpOutputFailed (s : Stream)
| OpOutputHungUp (s : Stream)
| OpInputWritten (bytes : Z)
| OpInputClosed
| OpExited (now : Z) (status : option Status)
| OpSettled (r : Settlement)
| OpDropped (now : Z)
| OpReset (now : Z)
| OpDisconnect (now : Z)
| OpTick (now : Z)
| OpNextRequest
| OpNextMessage (buffer : list byte).

Inductive runner_reply : Type :=
| NoReply
| ReplyReceipt (r : result Violation Receipt)
| ReplyCount (n : Z)
| ReplyRequest (r : option Request)
| ReplyMessage (m : option Message) (buffer : list byte).

(** One call on the runner. *)
Definition runner_call (r : Runner) (op : runner_op) : Runner * runner_reply :=
  match op with
  | OpCredit k pool units => let '(r, x) := credit r k pool units in (r, ReplyReceipt x)
  | OpInput k bytes => let '(r, x) := input r k bytes in (r, ReplyReceipt x)
  | OpEndInput k => let '(r, x) := end_input r k in (r, ReplyReceipt x)
  | OpCancel now k c => let '(r, x) := cancel r now k c in (r, ReplyReceipt x)
  | OpLaunched x => (launched r x, NoReply)
  | OpOutput s bytes => let '(r, n) := output r s bytes in (r, ReplyCount n)
  | OpDiscarded s n => (discarded r s n, NoReply)
  | OpOutputClosed s => (output_closed r s, NoReply)
  | OpOutputFailed s => (output_failed r s, NoReply)
  | OpOutputHungUp s => (output_hung_up r s, NoReply)
  | OpInputWritten n => (input_written r n, NoReply)
  | OpInputClosed => (input_closed r, NoReply)
  | OpExited now st => (exited r now st, NoReply)
  | OpSettled x => (settled r x, NoReply)
  | OpDropped now => (dropped r now, NoReply)
  | OpReset now => (reset r now, NoReply)
  | OpDisconnect now => (disconnect r now, NoReply)
  | OpTick now => (tick r now, NoReply)
  | OpNextRequest => let '(r, q) := next_request r in (r, ReplyRequest q)
  | OpNextMessage buffer => let '(r, b, m) := next_message r buffer in (r, ReplyMessage m b)
  end.

(** Arguments of Rust's unsigned parameters. *)
Definition runner_typed (op : runner_op) : Prop :=
  match op with OpCredit _ _ n | OpDiscarded _ n | OpInputWritten n => 0 <= n | _ => True end.

(** The calls that exchange no message with the peer and hand over no data. *)
Definition local (op : runner_op) : bool :=
  match op with
  | OpCredit _ _ _ | OpInput _ _ | OpEndInput _ | OpCancel _ _ _ | OpOutput _ _ | OpInputWritten _
  | OpNextMessage _ => false
  | _ => true
  end.

Lemma keeps_local r op :
  runner_inv r -> local op = true -> keeps r (runner_call r op).1.
Proof.
  intros Hi. destruct op; try done; intros _; cbn.
  - by apply keeps_launched.
  - apply keeps_alter; [done|]. intros o. cbn. split_and!; auto. by intros ->.
  - apply keeps_alter; [done|]. by intros o.
  - apply keeps_alter; [done|]. by intros o.
  - apply keeps_alter; [done|]. by intros o.
  - by apply keeps_close_input.
  - by apply keeps_exited.
  - by apply keeps_settled.
  - by apply keeps_detach.
  - by apply keeps_detach.
  - by apply keeps_detach.
  - by apply keeps_tick.
  - pose proof (keeps_next_request r Hi). by destruct (next_request r).
Qed.

Lemma runner_call_inv r op : runner_inv r -> runner_typed op -> runner_inv (runner_call r op).1.
Proof.
  intros Hi Ht. destruct (local op) eqn:Hl; [by apply keeps_local|].
  destruct op as [k p u|k b|k|now k c| |s b| | | | |n| | | | | | | | |b]; try done; cbn.
  - destruct (credit r k p u) eqn:H. by eapply runner_credit_inv.
  - destruct (input r k b) eqn:H. by eapply input_inv.
  - destruct (end_input r k) eqn:H. by eapply end_input_inv.
  - destruct (cancel r now k c) eqn:H. by eapply keeps_cancel.
  - destruct (output r s b) eqn:H. by eapply runner_output_inv.
  - by apply input_written_spec.
  - destruct (next_message r b) as [[r' b'] [m|]] eqn:H; apply runner_next_message_cases in H; try done.
    + destruct H as (_ & d & Hs & _). by eapply sent_inv.
    + by eapply same_inv; [apply H|].
Qed.

Lemma new_runner_inv k l t now : valid_limits l -> runner_inv (new_runner k l t now).
Proof.
  intros Hl. pose proof Hl as (? & ? & ?). split; try done.
  - intros s. destruct s; (split; cbn; [rewrite len_nil; lia|done|done]).
  - intros i. destruct i; (split; cbn; [done|lia]).
  - split; cbn; try done; [apply inbox_ok_new|]. split; cbn; try done; [lia|].
    unfold held. cbn. destruct (unit_ (input_window l)); unfold len; cbn; lia.
  - cbn. rewrite runner_memory_bound_exact by done. cbn. destruct (unit_ _); nia.
Qed.

(** Runners that calls with any arguments, from any peer and adapter, can reach. *)
Inductive runner_reachable (k : Key) (l : Limits) : Runner -> Prop :=
| reach_new t now : durations t -> runner_reachable k l (new_runner k l t now)
| reach_call r op :
    runner_reachable k l r -> runner_typed op -> runner_reachable k l (runner_call r op).1.

Lemma runner_reachable_inv k l r : valid_limits l -> runner_reachable k l r -> runner_inv r.
Proof. induction 2; [by apply new_runner_inv|by apply runner_call_inv]. Qed.

(** C9: Whatever the peer sends and the adapter does, the runner never holds more than its
    memory bound, now or at its high-water mark, and the bound, computed with saturating
    arithmetic, is exact for every legal limit; each stream's queue stays within a chunk, so the
    read allowance never underflows; and each pool's credit and the input's window stay within
    their sizes, so no [u32] counter overflows. *)
Theorem runner_memory_bounded (k : Key) (l : Limits) (r : Runner) :
  valid_limits l -> runner_reachable k l r ->
  buffered r <= memory_bound r /\ high_water r <= memory_bound r
  /\ memory_bound r = 2 * chunk (limits r)
     + match unit_ (input_window (limits r)) with
       | Bytes => size (input_window (limits r))
       | Frames => size (input_window (limits r)) * chunk (limits r)
       end
  /\ memory_bound r <= USIZE_MAX
  /\ (forall s, 0 <= read_allowance r s <= chunk (limits r))
  /\ (forall i, 0 <= available (idx (credits r) i) <= size (output_window (limits r)))
  /\ 0 <= opened (i_window (input_state r)) /\ 0 <= returnable (i_window (input_state r))
  /\ opened (i_window (input_state r)) + returnable (i_window (input_state r))
     <= size (input_window (limits r)).
Proof.
  intros Hl Hr. pose proof (runner_reachable_inv _ _ _ Hl Hr) as Hi. pose proof Hi as [Hv Ho Hc Hin _ Hhw].
  destruct (ok_grant _ _ Hin) as [_ ? ? ?]. pose proof (held_nonneg (i_inbox (input_state r))).
  split_and!; try done; try lia.
  - by apply runner_buffered_bound.
  - by apply runner_memory_bound_exact.
  - unfold memory_bound, saturating_add. lia.
  - intros s. pose proof (ok_queue _ _ (Ho s)). destruct Hv as (? & _). unfold read_allowance.
    destruct (_ || _); len_facts; lia.
  - intros i. apply (ok_available _ _ (Hc i)).
Qed.

Definition sample_key : Key := mkKey 7 2.
Definition sample_limits : Limits :=
  mkLimits 4 (mkWindow Bytes 8) (mkWindow Frames 2) false.

Lemma sample_limits_valid : valid_limits sample_limits.
Proof. vm_compute. repeat split; discriminate. Qed.

(** The runner after some calls. *)
Definition runner_after (ops : list runner_op) : Runner :=
  fold_left (fun r op => (runner_call r op).1) ops
    (new_runner sample_key sample_limits (mkTimers None 10 20) 0).

Lemma runner_after_reachable ops :
  Forall runner_typed ops -> runner_reachable sample_key sample_limits (runner_after ops).
Proof.
  unfold runner_after. induction ops as [|op ops IH] using rev_ind;
    [intros; constructor; by repeat split|].
  intros [Ho Hop]%Forall_app. inv Hop. rewrite fold_left_app. cbn. constructor; auto.
Qed.

Definition sample_ops : list runner_op :=
  [OpLaunched (Ok ()); OpNextMessage (replicate 4 Byte.x00); OpInput sample_key (bytes_of "abc");
   OpOutput Stdout (bytes_of "hello")].

Lemma runner_memory_bounded_witness :
  buffered (runner_after sample_ops) <= memory_bound (runner_after sample_ops)
  /\ buffered (runner_after sample_ops) = 7 /\ memory_bound (runner_after sample_ops) = 16.
Proof.
  split; [|split; reflexivity].
  destruct (runner_memory_bounded sample_key sample_limits (runner_after sample_ops)) as [H _].
  - apply sample_limits_valid.
  - apply runner_after_reachable. repeat constructor.
  - exact H.
Defined.

(** A message of another execution, of another generation, or one that breaks the rules
    changes nothing in the runner: its state after the call is its state before it. *)
Theorem runner_refuses_unchanged (r : Runner) (op : runner_op) :
  match runner_call r op with
  | (r', ReplyReceipt (Err _)) => r' = r
  | (r', ReplyReceipt (Ok Stale)) => r' = r
  | _ => True
  end.
Proof.
  destruct op; cbn; try done.
  - destruct (credit r k pool units) as [r' res] eqn:H.
    apply runner_credit_cases in H as [[-> _]|(_ & -> & _)]; [|done]. by destruct res as [[]|].
  - destruct (input r k bytes) as [r' res] eqn:H.
    apply input_cases in H as [[-> _]|(_ & _ & _ & _ & H)]; [by destruct res as [[]|]|].
    destruct (i_closed (input_state r)); by destruct H as [-> _].
  - unfold end_input. destruct (admits (key r) k) as [[]|]; try done.
    by destruct (finished r), (i_peer_ended (input_state r)); cbn;
      try destruct (i_closed (input_state r)).
  - unfold cancel. destruct (admits (key r) k) as [[]|]; try done. by destruct (_ || _).
  - by destruct (output r s bytes).
  - by destruct (next_request r).
  - by destruct (next_message r buffer) as [[] ?].
Qed.
