(* ===== verification/Peer.v ===== *)
(** * The peer of an execution (src/nvx-rs/src/exec/peer.rs)

    The side that requested the execution, method by method, in the style of [Runner.v].
    [PeerFacts.v] proves what the peer guarantees on its own. *)

From S2P Require Import Prelude ExecTypes Credit.

Inductive Message : Type :=
| MCancel (cause : Cause)
| MCredit (pool : Pool) (units : Z)
| MInput (length : Z)
| MInputEnd.

Inductive Event : Type :=
| EStarted
| EEnd (stream : Stream)
| EInputClosed
| EFinished (outcome : Outcome).

Record Incoming := mkIncoming {
  n_inbox : Inbox;
  n_ended : bool;
  n_end_event : bool;
  n_discarding : bool;
  n_truncated : bool;
}.

#[export] Instance eta_Incoming : Eta Incoming := fun i =>
  mkIncoming (n_inbox i) (n_ended i) (n_end_event i) (n_discarding i) (n_truncated i).

(** [Incoming::drop_inbox]. *)
Definition drop_inbox (self : Incoming) : Incoming * Z :=
  let '(inbox, (length, freed)) := inbox_clear (n_inbox self) in
  (self <| n_inbox := inbox |> <| n_truncated := n_truncated self || (0 <? length) |>, freed).

Record Outgoing := mkOutgoing {
  g_queue : list byte;
  g_credit : Credit;
  g_ended : bool;
  g_end_sent : bool;
  g_closed : bool;
  g_closed_event : bool;
}.

#[export] Instance eta_Outgoing : Eta Outgoing := fun g =>
  mkOutgoing (g_queue g) (g_credit g) (g_ended g) (g_end_sent g) (g_closed g) (g_closed_event g).

Record Peer := mkPeer {
  key : Key;
  limits : Limits;
  timers : Timers;
  has_started : bool;
  started_event : bool;
  input_state : Outgoing;
  outputs : array2 Incoming;
  windows : array2 Granted;
  turn : Z;
  terminal_outcome : option Outcome;
  cause : option Cause;
  cancel_message : bool;
  timeout_at : option Z;
  terminated_at : option Z;
  grace_until : option Z;
  give_up_at : option Z;
  gave_up : bool;
  detached : bool;
  finished : bool;
  high_water : Z;
}.

#[export] Instance eta_Peer : Eta Peer := fun p =>
  mkPeer (key p) (limits p) (timers p) (has_started p) (started_event p) (input_state p)
    (outputs p) (windows p) (turn p) (terminal_outcome p) (cause p) (cancel_message p)
    (timeout_at p) (terminated_at p) (grace_until p) (give_up_at p) (gave_up p) (detached p)
    (finished p) (high_water p).

(** [Peer::new]. *)
Definition new_peer (key : Key) (limits : Limits) (timers : Timers) (now : Z) : Peer :=
  let incoming := {|
    n_inbox := new_inbox (unit_ (output_window limits));
    n_ended := false; n_end_event := false; n_discarding := false; n_truncated := false |} in
  {| key := key;
     limits := limits;
     timers := timers;
     has_started := false;
     started_event := false;
     input_state := {|
       g_queue := [];
       g_credit := new_credit (input_window limits);
       g_ended := false;
       g_end_sent := false;
       g_closed := false;
       g_closed_event := false |};
     outputs := mkArray2 incoming incoming;
     windows := mkArray2 (new_granted (output_window limits)) (new_granted (output_window limits));
     turn := 0;
     terminal_outcome := None;
     cause := None;
     cancel_message := false;
     timeout_at := t ← timeout timers; after now t;
     terminated_at := None;
     grace_until := None;
     give_up_at := None;
     gave_up := false;
     detached := false;
     finished := false;
     high_water := 0 |}.

(** ** Private steps *)

Definition buffered (self : Peer) : Z :=
  len (g_queue (input_state self)) + (inbox_len (n_inbox (at0 (outputs self)))
  + inbox_len (n_inbox (at1 (outputs self)))).

Definition note_buffered (self : Peer) : Peer :=
  self <| high_water := Z.max (high_water self) (buffered self) |>.

(** Field assignments inside [self.input], [self.outputs[s]] and [self.windows[i]]. *)
Definition set_input (self : Peer) (f : Outgoing -> Outgoing) : Peer :=
  self <| input_state := f (input_state self) |>.
Definition set_output (self : Peer) (s : Stream) (f : Incoming -> Incoming) : Peer :=
  self <| outputs := alter2 s f (outputs self) |>.
Definition set_window (self : Peer) (i : Stream) (f : Granted -> Granted) : Peer :=
  self <| windows := alter2 i f (windows self) |>.

Definition ignores_runner (self : Peer) : bool := finished self || detached self || gave_up self.

Definition close_input (self : Peer) : Peer :=
  if g_closed (input_state self) then self
  else set_input self (fun g =>
    g <| g_closed := true |> <| g_queue := [] |> <| g_closed_event := negb (g_end_sent g) |>).

(** One round of the loop of [end_grace]. *)
Definition end_grace_stream (self : Peer) (stream : Stream) : Peer :=
  let '(incoming, freed) := drop_inbox ((idx (outputs self) stream) <| n_discarding := true |>) in
  let self := set_output self stream (fun _ => incoming) in
  set_window self (pool_of (limits self) stream) (fun w => free w freed).

Definition end_grace (self : Peer) : Peer :=
  fold_left end_grace_stream ALL (self <| grace_until := None |>).

Definition terminate (self : Peer) (now : Z) (c : Cause) : Peer :=
  if finished self || is_some (terminated_at self) then self
  else
    let self := self <| terminated_at := Some now |> <| timeout_at := None |> <| cause := Some c |> in
    let self := close_input self in
    let self := self <| grace_until := after now (grace (timers self)) |> in
    let self := if is_some (terminal_outcome self) then self
                else self <| cancel_message := negb (detached self) |>
                          <| give_up_at := at_ ← grace_until self;
                                           after at_ (settlement (timers self)) |> in
    if reached (grace_until self) now then end_grace self else self.

Definition outcome (self : Peer) : option Outcome :=
  if negb (all2 (fun i => inbox_is_empty (n_inbox i)) (outputs self)) then None
  else
    o ← match terminal_outcome self with
        | Some terminal => Some terminal
        | None =>
            if detached self || gave_up self
            then Some (with_truncated (with_truncated (new_outcome None) Stdout) Stderr)
            else None
        end;
    let o := match outcome_cause o, cause self with
             | None, Some c => with_cause o c
             | _, _ => o
             end in
    Some (fold_left (fun acc stream =>
      if n_truncated (idx (outputs self) stream) then with_truncated acc stream else acc) ALL o).

(** ** Timers *)

(** The steps of [tick], one per timer. *)
Definition fire_timeout (self : Peer) (now : Z) : Peer :=
  if reached (timeout_at self) now
  then terminate (self <| timeout_at := None |>) now TimedOut else self.

Definition fire_grace (self : Peer) (now : Z) : Peer :=
  if reached (grace_until self) now then end_grace self else self.

Definition fire_give_up (self : Peer) (now : Z) : Peer :=
  if reached (give_up_at self) now
  then end_grace (self <| give_up_at := None |> <| gave_up := true |>) else self.

Definition tick (self : Peer) (now : Z) : Peer :=
  if finished self then self
  else
    let self := fire_timeout self now in
    let self := fire_grace self now in
    fire_give_up self now.

Definition deadline (self : Peer) : option Z :=
  if finished self then None
  else fold_left earliest [timeout_at self; grace_until self; give_up_at self] None.

(** ** The runner's messages *)

Definition credit (self : Peer) (k : Key) (units : Z) : Peer * result Violation Receipt :=
  match admits (key self) k with
  | Err v => (self, Err v)
  | Ok false => (self, Ok Stale)
  | Ok true =>
      if ignores_runner self then (self, Ok Late)
      else match grant (g_credit (input_state self)) units with
      | Err v => (self, Err v)
      | Ok c =>
          let self := set_input self (fun g => g <| g_credit := c |>) in
          if g_closed (input_state self) || g_end_sent (input_state self)
          then (self, Ok Late) else (self, Ok Applied)
      end
  end.

Definition started (self : Peer) (k : Key) : Peer * result Violation Receipt :=
  match admits (key self) k with
  | Err v => (self, Err v)
  | Ok false => (self, Ok Stale)
  | Ok true =>
      if ignores_runner self then (self, Ok Late)
      else if has_started self || is_some (terminal_outcome self) then (self, Err VOrder)
      else (self <| has_started := true |> <| started_event := true |>, Ok Applied)
  end.

Definition output (self : Peer) (k : Key) (stream : Stream) (bytes : list byte)
    : Peer * result Violation Receipt :=
  match admits (key self) k with
  | Err v => (self, Err v)
  | Ok false => (self, Ok Stale)
  | Ok true =>
      if ignores_runner self then (self, Ok Late)
      else if n_ended (idx (outputs self) stream) then (self, Err VEnded)
      else match check_chunk (limits self) (len bytes) with
      | Err v => (self, Err v)
      | Ok _ =>
          let pool := pool_of (limits self) stream in
          match charge (idx (windows self) pool) (len bytes) with
          | Err v => (self, Err v)
          | Ok window =>
              let self := set_window self pool (fun _ => window) in
              if n_discarding (idx (outputs self) stream) then
                let self := set_output self stream (fun i => i <| n_truncated := true |>) in
                (set_window self pool (fun w =>
                   free w (cost (output_window (limits self)) (len bytes))), Ok Late)
              else
                let self := set_output self stream (fun i =>
                  i <| n_inbox := inbox_push (n_inbox i) bytes |>) in
                (note_buffered self, Ok Applied)
          end
      end
  end.

Definition end_output (self : Peer) (k : Key) (stream : Stream) : Peer * result Violation Receipt :=
  match admits (key self) k with
  | Err v => (self, Err v)
  | Ok false => (self, Ok Stale)
  | Ok true =>
      if ignores_runner self then (self, Ok Late)
      else if n_ended (idx (outputs self) stream) then (self, Err VEnded)
      else (set_output self stream (fun i => i <| n_ended := true |>), Ok Applied)
  end.

Definition input_closed (self : Peer) (k : Key) : Peer * result Violation Receipt :=
  match admits (key self) k with
  | Err v => (self, Err v)
  | Ok false => (self, Ok Stale)
  | Ok true =>
      if ignores_runner self || g_closed (input_state self) || g_end_sent (input_state self)
      then (self, Ok Late)
      else (close_input self, Ok Applied)
  end.

Definition terminal (self : Peer) (now : Z) (k : Key) (o : Outcome)
    : Peer * result Violation Receipt :=
  match admits (key self) k with
  | Err v => (self, Err v)
  | Ok false => (self, Ok Stale)
  | Ok true =>
      let self := tick self now in
      if ignores_runner self then (self, Ok Late)
      else if is_some (terminal_outcome self) then (self, Err VEnded)
      else if negb (all2 n_ended (outputs self)) then (self, Err VOrder)
      else
        let self := self <| terminal_outcome := Some o |> <| give_up_at := None |>
                         <| timeout_at := None |> <| cancel_message := false |> in
        let self := close_input self in
        let self :=
          if is_some (outcome_cause o) && negb (is_some (terminated_at self)) then
            let self := self <| terminated_at := Some now |>
                             <| grace_until := after now (grace (timers self)) |> in
            if reached (grace_until self) now then end_grace self else self
          else self in
        (self, Ok Applied)
  end.

(** ** The caller's side *)

Definition write_allowance (self : Peer) : Z :=
  if g_closed (input_state self) || g_ended (input_state self) || is_some (terminated_at self)
     || finished self
  then 0
  else chunk (limits self) - len (g_queue (input_state self)).

Definition input (self : Peer) (bytes : list byte) : Peer * Z :=
  let length := Z.min (len bytes) (write_allowance self) in
  let self := set_input self (fun g => g <| g_queue := g_queue g ++ ztake length bytes |>) in
  (note_buffered self, length).

Definition end_input (self : Peer) : Peer :=
  if g_closed (input_state self) then self else set_input self (fun g => g <| g_ended := true |>).

(** [pending_output], for an inbox whose first slice has [contiguous] bytes. *)
Definition pending_output (contiguous : Z) (self : Peer) (stream : Stream) : list byte :=
  front contiguous (n_inbox (idx (outputs self) stream)).

Definition consumed (self : Peer) (stream : Stream) (bytes : Z) : Peer :=
  let '(inbox, freed) := inbox_pop (n_inbox (idx (outputs self) stream)) bytes in
  let self := set_output self stream (fun i => i <| n_inbox := inbox |>) in
  set_window self (pool_of (limits self) stream) (fun w => free w freed).

Definition cancel (self : Peer) (now : Z) : Peer := terminate (tick self now) now Cancelled.

Definition dropped (self : Peer) (now : Z) : Peer :=
  let self := terminate (tick self now) now Dropped in
  if finished self then self else end_grace self.

Definition detach (self : Peer) (now : Z) (c : Cause) : Peer :=
  let self := tick self now in
  if finished self || detached self then self
  else
    let self := terminate self now c in
    self <| detached := true |> <| cancel_message := false |> <| give_up_at := None |>.

Definition reset (self : Peer) (now : Z) : Peer := detach self now CauseReset.
Definition disconnect (self : Peer) (now : Z) : Peer := detach self now Disconnected.

(** ** Messages and events *)

Definition next_credit (self : Peer) (index : Stream) : Peer * option Message :=
  if is_some (terminal_outcome self) then (self, None)
  else
    let open := existsb (fun stream =>
      bool_decide (pool_of (limits self) stream = index)
      && negb (n_ended (idx (outputs self) stream))) ALL in
    if negb open then (self, None)
    else
      let '(window, units) := take_grant (idx (windows self) index) in
      let self := set_window self index (fun _ => window) in
      match units with
      | None => (self, None)
      | Some units =>
          let pool := match index with
                      | Stdout => nth 0 (output_pools (limits self)) PoolInput
                      | Stderr => nth 1 (output_pools (limits self)) PoolInput
                      end in
          (self, Some (MCredit pool units))
      end.

Definition next_input (self : Peer) (buffer : list byte) : Peer * list byte * option Message :=
  if g_closed (input_state self) then (self, buffer, None)
  else
    let queue := g_queue (input_state self) in
    let wanted := Z.min (Z.min (len queue) (chunk (limits self))) (len buffer) in
    let length := sendable (g_credit (input_state self)) wanted in
    if 0 <? length then
      let '(queue, buffer, _) := take (len queue) queue buffer length in
      let self := set_input self (fun g =>
        g <| g_queue := queue |> <| g_credit := spend (g_credit g) length |>) in
      (self, buffer, Some (MInput length))
    else if g_ended (input_state self) && bool_decide (g_queue (input_state self) = [])
            && negb (g_end_sent (input_state self))
    then (set_input self (fun g => g <| g_end_sent := true |>), buffer, Some MInputEnd)
    else (self, buffer, None).

(** The loop of [next_message] over the sources from [offset] on: the pools' credit, then the
    input. A position below [pools] names a pool. *)
Fixpoint next_source (rounds : nat) (offset : Z) (self : Peer) (buffer : list byte)
    : Peer * list byte * option Message :=
  match rounds with
  | O => (self, buffer, None)
  | S rounds =>
      let pools := len (output_pools (limits self)) in
      let sources := pools + 1 in
      let source := (turn self + offset) mod sources in
      let '(self, buffer, message) :=
        if source <? pools then
          let '(self, message) := next_credit self (if source =? 0 then Stdout else Stderr) in
          (self, buffer, message)
        else next_input self buffer in
      match message with
      | Some message => (self <| turn := (source + 1) mod sources |>, buffer, Some message)
      | None => next_source rounds (offset + 1) self buffer
      end
  end.

Definition next_message (self : Peer) (buffer : list byte)
    : Peer * list byte * option Message :=
  if finished self || detached self then (self, buffer, None)
  else if cancel_message self then
    (self <| cancel_message := false |>, buffer,
     Some (MCancel (match cause self with Some c => c | None => Cancelled end)))
  else next_source (S (length (output_pools (limits self)))) 0 self buffer.

Definition next_event (self : Peer) : Peer * option Event :=
  if finished self then (self, None)
  else if started_event self then (self <| started_event := false |>, Some EStarted)
  else if g_closed_event (input_state self)
  then (set_input self (fun g => g <| g_closed_event := false |>), Some EInputClosed)
  else match List.find (fun s =>
    let i := idx (outputs self) s in
    n_ended i && inbox_is_empty (n_inbox i) && negb (n_end_event i)) ALL with
  | Some stream =>
      (set_output self stream (fun i => i <| n_end_event := true |>), Some (EEnd stream))
  | None =>
      match outcome self with
      | None => (self, None)
      | Some o => (self <| finished := true |>, Some (EFinished o))
      end
  end.

Definition memory_bound (self : Peer) : Z :=
  saturating_add (chunk (limits self)) (output_bytes (limits self)).
