(* ===== verification/PeerFacts.v ===== *)
(** * What the peer guarantees whatever the runner and the adapter do

    The peer's invariant under every call with every argument: its buffers stay within its bound,
    each output pool's window is exactly accounted for, and its flags are consistent. *)

From S2P Require Import Prelude ExecTypes Credit RunnerFacts Peer.

(** ** The invariant, part by part *)

Record incoming_ok (l : Limits) (i : Incoming) : Prop := {
  ok_inbox : inbox_ok (chunk l) (n_inbox i);
  ok_unit : inbox_unit (n_inbox i) = unit_ (output_window l);
  ok_discarding : n_discarding i = true -> inbox_bytes (n_inbox i) = [];
  ok_truncated : n_truncated i = true -> n_discarding i = true;
}.

Record outgoing_ok (l : Limits) (g : Outgoing) : Prop := {
  ok_queue : len (g_queue g) <= chunk l;
  ok_credit : credit_ok (input_window l) (g_credit g);
  ok_end_sent : g_end_sent g = true -> g_ended g = true /\ g_queue g = [];
  ok_closed : g_closed g = true -> g_queue g = [];
}.

(** The units that the inboxes of a pool's streams hold. *)
Definition held_by (l : Limits) (outputs : array2 Incoming) (pool s : Stream) : Z :=
  if decide (pool_of l s = pool) then held (n_inbox (idx outputs s)) else 0.
Definition held_pool (l : Limits) (outputs : array2 Incoming) (pool : Stream) : Z :=
  held_by l outputs pool Stdout + held_by l outputs pool Stderr.

(** A pool's window: every unit is open, waits to be granted, or is held for the sink. *)
Record window_ok (w : Window) (g : Granted) (h : Z) : Prop := {
  ok_granted : granted_window g = w;
  ok_opened : 0 <= opened g;
  ok_returnable : 0 <= returnable g;
  ok_exact : opened g + returnable g + h = size w;
}.

(** The peer's bound before its saturating arithmetic. *)
Definition exact_bound (l : Limits) : Z :=
  chunk l + (if shared l then 1 else 2)
            * match unit_ (output_window l) with
              | Bytes => size (output_window l)
              | Frames => size (output_window l) * chunk l
              end.

Record peer_inv (p : Peer) : Prop := {
  inv_limits : valid_limits (limits p);
  inv_outputs : forall s, incoming_ok (limits p) (idx (outputs p) s);
  inv_input : outgoing_ok (limits p) (input_state p);
  inv_windows : forall i, window_ok (output_window (limits p)) (idx (windows p) i)
                            (held_pool (limits p) (outputs p) i);
  inv_gave_up : gave_up p = true -> forall s, n_discarding (idx (outputs p) s) = true;
  inv_terminal : is_some (terminal_outcome p) = true ->
    forall s, n_ended (idx (outputs p) s) = true;
  inv_high_water : high_water p <= exact_bound (limits p);
}.

Lemma held_by_nonneg l o i s : 0 <= held_by l o i s.
Proof. unfold held_by. case_decide; [apply held_nonneg|done]. Qed.

Lemma held_pool_shared l o :
  shared l = true ->
  held_pool l o Stdout = held (n_inbox (idx o Stdout)) + held (n_inbox (idx o Stderr)).
Proof. intros H. unfold held_pool, held_by, pool_of. by rewrite H. Qed.

Lemma held_pool_own l o s :
  shared l = false -> held_pool l o s = held (n_inbox (idx o s)).
Proof.
  intros H. unfold held_pool, held_by, pool_of. rewrite H.
  destruct s; cbn; repeat case_decide; try done; lia.
Qed.

Lemma held_le_size p s :
  peer_inv p -> held (n_inbox (idx (outputs p) s)) <= size (output_window (limits p)).
Proof.
  intros Hi. pose proof (inv_windows _ Hi (pool_of (limits p) s)) as [_ ? ? ?].
  pose proof (held_by_nonneg (limits p) (outputs p) (pool_of (limits p) s) (other s)).
  assert (held_by (limits p) (outputs p) (pool_of (limits p) s) s = held (n_inbox (idx (outputs p) s)))
    by (unfold held_by; by rewrite decide_True).
  unfold held_pool in *. destruct s; cbn [other] in *; lia.
Qed.

Lemma inbox_small p s :
  peer_inv p -> len (inbox_bytes (n_inbox (idx (outputs p) s))) <= U32_MAX
                \/ inbox_unit (n_inbox (idx (outputs p) s)) = Frames.
Proof.
  intros Hi. pose proof (held_le_size p s Hi). pose proof (inv_limits _ Hi) as (Hc & _ & Hs).
  pose proof (inbox_bytes_bound (chunk (limits p)) _ ltac:(lia) (ok_inbox _ _ (inv_outputs _ Hi s))).
  destruct (inbox_unit _); [left; lia|by right].
Qed.

(** ** The bound on memory *)

Lemma peer_memory_bound_exact (p : Peer) :
  valid_limits (limits p) -> memory_bound p = Z.min USIZE_MAX (exact_bound (limits p)).
Proof.
  intros (Hc & _ & Ho). unfold memory_bound, exact_bound, output_bytes, bytes_with, saturating_add,
    saturating_mul, USIZE_MAX, U64_MAX, U32_MAX in *.
  destruct (unit_ (output_window (limits p))), (shared (limits p)); nia.
Qed.

Lemma peer_buffered_bound p : peer_inv p -> buffered p <= exact_bound (limits p).
Proof.
  intros Hi. pose proof Hi as [Hl Ho Hin Hw _ _ _]. pose proof (ok_queue _ _ Hin).
  destruct Hl as (Hc & _ & Hsz).
  assert (Hb : forall s, inbox_len (n_inbox (idx (outputs p) s))
    <= match unit_ (output_window (limits p)) with
       | Bytes => held (n_inbox (idx (outputs p) s))
       | Frames => held (n_inbox (idx (outputs p) s)) * chunk (limits p)
       end).
  { intros s. rewrite <- (ok_unit _ _ (Ho s)). apply inbox_bytes_bound; [lia|apply Ho]. }
  pose proof (Hb Stdout). pose proof (Hb Stderr). unfold buffered, exact_bound. cbn in *.
  pose proof (held_nonneg (n_inbox (at0 (outputs p)))).
  pose proof (held_nonneg (n_inbox (at1 (outputs p)))).
  assert (Hmul : forall a b, a <= b -> a * chunk (limits p) <= b * chunk (limits p))
    by (intros; apply Z.mul_le_mono_nonneg_r; lia).
  set (h0 := held (n_inbox (at0 (outputs p)))) in *. set (h1 := held (n_inbox (at1 (outputs p)))) in *.
  destruct (shared (limits p)) eqn:Hs.
  - pose proof (Hw Stdout) as [_ ? ? Hx]. rewrite held_pool_shared in Hx by done. cbn in *.
    fold h0 h1 in Hx. pose proof (Hmul (h0 + h1) (size (output_window (limits p))) ltac:(lia)).
    destruct (unit_ (output_window (limits p))); lia.
  - pose proof (Hw Stdout) as [_ ? ? Hx]. pose proof (Hw Stderr) as [_ ? ? Hy].
    rewrite held_pool_own in Hx, Hy by done. cbn in *. fold h0 in Hx. fold h1 in Hy.
    pose proof (Hmul h0 (size (output_window (limits p))) ltac:(lia)).
    pose proof (Hmul h1 (size (output_window (limits p))) ltac:(lia)).
    destruct (unit_ (output_window (limits p))); lia.
Qed.

Lemma peer_inv_note_buffered p : peer_inv p -> peer_inv (note_buffered p).
Proof.
  intros H. pose proof (peer_buffered_bound p H). destruct H. split; try done.
  change (Z.max (high_water p) (buffered p) <= exact_bound (limits p)). lia.
Qed.

(** A change of one stream's inbox, with the units that it frees or takes on its pool. *)
Lemma held_pool_alter l o s f i d :
  held (n_inbox (f (idx o s))) = held (n_inbox (idx o s)) + d ->
  held_pool l (alter2 s f o) i = held_pool l o i + (if decide (pool_of l s = i) then d else 0).
Proof.
  intros H. unfold held_pool, held_by. rewrite !idx_alter2.
  destruct s; cbn in *; repeat case_decide; try done; rewrite ?H; lia.
Qed.

(** ** Quiet steps *)

(** What a step that takes no message may do to a stream, when the sink took the bytes [w]. *)
Record incoming_quiet (w : list byte) (i i' : Incoming) : Prop := {
  qn_ended : n_ended i' = n_ended i;
  qn_truncated : n_truncated i = true -> n_truncated i' = true;
  qn_discarding : n_discarding i = true -> n_discarding i' = true;
  qn_bytes : inbox_bytes (n_inbox i) = w ++ inbox_bytes (n_inbox i')
             \/ (w = [] /\ inbox_bytes (n_inbox i') = [] /\ n_discarding i' = true
                 /\ (inbox_bytes (n_inbox i) = [] \/ n_truncated i' = true));
}.

(** What a step that exchanges no message may do, when the sink took the bytes [w s] of each
    stream [s]. *)
Record peer_quiet (w : Stream -> list byte) (p p' : Peer) : Prop := {
  pq_key : key p' = key p;
  pq_limits : limits p' = limits p;
  pq_windows : forall i, opened (idx (windows p') i) = opened (idx (windows p) i);
  pq_outputs : forall s, incoming_quiet (w s) (idx (outputs p) s) (idx (outputs p') s);
  pq_credit : g_credit (input_state p') = g_credit (input_state p);
  pq_end_sent : g_end_sent (input_state p') = g_end_sent (input_state p);
  pq_queue : g_queue (input_state p') = g_queue (input_state p)
             \/ (g_queue (input_state p') = [] /\ g_closed (input_state p') = true);
  pq_closed : g_closed (input_state p) = true -> g_closed (input_state p') = true;
  pq_terminal : terminal_outcome p' = terminal_outcome p;
  pq_has_started : has_started p' = has_started p;
  pq_ignores : ignores_runner p = true -> ignores_runner p' = true;
}.

Definition nothing : Stream -> list byte := fun _ => [].

Lemma incoming_quiet_refl i : incoming_quiet [] i i.
Proof. split; auto. Qed.

Lemma incoming_quiet_trans i1 i2 i3 :
  incoming_quiet [] i1 i2 -> incoming_quiet [] i2 i3 -> incoming_quiet [] i1 i3.
Proof.
  intros [E1 T1 D1 B1] [E2 T2 D2 B2]. split; [congruence|auto..|]. cbn in *.
  destruct B1 as [B1|(_ & B1 & H1 & L1)], B2 as [B2|(_ & B2 & H2 & L2)].
  - left. congruence.
  - right. split_and!; try done. destruct L2; [left; congruence|by right].
  - right. split_and!; try done; [congruence|auto|]. destruct L1; auto.
  - right. split_and!; try done. destruct L1; auto.
Qed.

Lemma peer_quiet_refl p : peer_quiet nothing p p.
Proof. split; auto. intros s. apply incoming_quiet_refl. Qed.

Lemma peer_quiet_trans p1 p2 p3 :
  peer_quiet nothing p1 p2 -> peer_quiet nothing p2 p3 -> peer_quiet nothing p1 p3.
Proof.
  intros [K1 L1 W1 O1 C1 E1 Q1 G1 T1 S1 I1] [K2 L2 W2 O2 C2 E2 Q2 G2 T2 S2 I2].
  split; try congruence; auto.
  - intros s. exact (incoming_quiet_trans _ _ _ (O1 s) (O2 s)).
  - destruct Q2 as [Q2|Q2]; [|by right]. rewrite Q2. destruct Q1 as [Q1|[Q1 Hc]]; [by left|].
    right. split; auto.
Qed.

(** A step that keeps the invariant and is quiet. *)
Definition pkeeps (p p' : Peer) : Prop := peer_inv p' /\ peer_quiet nothing p p'.

Lemma pkeeps_refl p : peer_inv p -> pkeeps p p.
Proof. intros. split; [done|apply peer_quiet_refl]. Qed.

Lemma pkeeps_trans p1 p2 p3 : pkeeps p1 p2 -> (peer_inv p2 -> pkeeps p2 p3) -> pkeeps p1 p3.
Proof.
  intros [Hi Hq] H. destruct (H Hi) as [Hi' Hq']. split; [done|]. by eapply peer_quiet_trans.
Qed.

Lemma ignores_mono p p' :
  (finished p = true -> finished p' = true) -> (detached p = true -> detached p' = true) ->
  (gave_up p = true -> gave_up p' = true) -> ignores_runner p = true -> ignores_runner p' = true.
Proof.
  unfold ignores_runner. rewrite !orb_true_iff. tauto.
Qed.

(** Assignments to fields that neither the invariant nor quietness looks at. *)
Ltac pkeeps_fields := intros Hkf; split; [destruct Hkf; by split|by split; auto; intros ?;
  apply incoming_quiet_refl].

Lemma pkeeps_close_input p : peer_inv p -> pkeeps p (close_input p).
Proof.
  intros H. unfold close_input. destruct (g_closed (input_state p)) eqn:Hc; [by apply pkeeps_refl|].
  destruct H as [Hl Ho [Hq Hcr He Hcl] Hw Hg Ht Hh].
  split; split; cbn; auto; try (intros; apply incoming_quiet_refl).
  split; cbn; try done; [destruct Hl; rewrite len_nil; lia|]. intros Hs. by destruct (He Hs).
Qed.

Lemma pkeeps_end_grace_stream p s : peer_inv p -> pkeeps p (end_grace_stream p s).
Proof.
  intros Hi. unfold end_grace_stream, drop_inbox. cbn [n_inbox].
  pose proof (inbox_clear_spec _ _ (ok_inbox _ _ (inv_outputs _ Hi s)) (inbox_small p s Hi)) as Hc.
  change (n_inbox ((idx (outputs p) s) <| n_discarding := true |>)) with (n_inbox (idx (outputs p) s)).
  destruct (inbox_clear (n_inbox (idx (outputs p) s))) as [i' [n freed]].
  destruct Hc as (Hok & Hu & Hh & Hf & Hb & Hn). pose proof (held_nonneg (n_inbox (idx (outputs p) s))).
  set (inc := _ <| n_truncated := _ |>).
  pose proof Hi as [Hl Ho Hin Hw Hg Ht Hhw].
  split; split; cbn; auto; try done.
  - intros s'. rewrite idx_alter2. case_decide; [|done]. subst s'.
    split; cbn; try done. rewrite Hu. apply Ho.
  - intros i. rewrite (held_pool_alter _ _ _ _ _ (- freed)) by (cbn; lia).
    rewrite idx_alter2. destruct (Hw i) as [? ? ? ?]. case_decide; split; cbn; (done || lia).
  - intros Hgu s'. rewrite idx_alter2. case_decide; [done|auto].
  - intros Hte s'. rewrite idx_alter2. case_decide; [|auto]. subst s'. cbn. auto.
  - intros i. rewrite idx_alter2. by case_decide.
  - intros s'. unfold nothing. rewrite idx_alter2. case_decide; [|apply incoming_quiet_refl].
    subst s'. split; cbn; auto.
    + intros ->. done.
    + right. split_and!; auto. destruct (inbox_bytes (n_inbox (idx (outputs p) s))); [by left|right].
      rewrite Hn, len_cons. apply orb_true_iff. right. apply Z.ltb_lt. len_facts. lia.
Qed.

Lemma pkeeps_end_grace p : peer_inv p -> pkeeps p (end_grace p).
Proof.
  intros H. unfold end_grace. cbn [fold_left ALL].
  assert (H1 : pkeeps p (p <| grace_until := None |>)) by (revert H; pkeeps_fields).
  eapply pkeeps_trans; [exact H1|]. intros H2.
  eapply pkeeps_trans; [by apply (pkeeps_end_grace_stream _ Stdout)|]. intros H3.
  by apply pkeeps_end_grace_stream.
Qed.

Lemma end_grace_discards p s : n_discarding (idx (outputs (end_grace p)) s) = true.
Proof.
  unfold end_grace, end_grace_stream, drop_inbox. cbn.
  destruct (inbox_clear (n_inbox (at0 (outputs p)))) as [? [? ?]]. cbn.
  destruct (inbox_clear (n_inbox (at1 (outputs p)))) as [? [? ?]]. by destruct s.
Qed.

Lemma pkeeps_terminate p now c : peer_inv p -> pkeeps p (terminate p now c).
Proof.
  intros H. unfold terminate. destruct (_ || _); [by apply pkeeps_refl|]. cbv zeta.
  set (p1 := p <| terminated_at := _ |> <| timeout_at := _ |> <| cause := _ |>).
  assert (H1 : pkeeps p p1) by (revert H; pkeeps_fields).
  eapply pkeeps_trans; [exact H1|]. clearbody p1. clear. intros H.
  eapply pkeeps_trans; [by apply pkeeps_close_input|]. generalize (close_input p1). clear. intros p H.
  set (p2 := if is_some _ then _ else _).
  assert (H2 : pkeeps p p2) by (subst p2; destruct (is_some _); revert H; pkeeps_fields).
  eapply pkeeps_trans; [exact H2|]. clearbody p2. clear. intros H.
  destruct (reached _ _); [by apply pkeeps_end_grace|by apply pkeeps_refl].
Qed.

Lemma pkeeps_fire_timeout p now : peer_inv p -> pkeeps p (fire_timeout p now).
Proof.
  intros H. unfold fire_timeout. destruct (reached _ _); [|by apply pkeeps_refl].
  assert (H1 : pkeeps p (p <| timeout_at := None |>)) by (revert H; pkeeps_fields).
  eapply pkeeps_trans; [exact H1|]. apply pkeeps_terminate.
Qed.

Lemma pkeeps_fire_grace p now : peer_inv p -> pkeeps p (fire_grace p now).
Proof.
  intros H. unfold fire_grace.
  destruct (reached _ _); [by apply pkeeps_end_grace|by apply pkeeps_refl].
Qed.

Lemma end_grace_gave_up p :
  end_grace (p <| give_up_at := None |> <| gave_up := true |>)
  = (end_grace p) <| give_up_at := None |> <| gave_up := true |>.
Proof.
  unfold end_grace, end_grace_stream, drop_inbox. cbn.
  destruct (inbox_clear (n_inbox (at0 (outputs p)))) as [? [? ?]]. cbn.
  destruct (inbox_clear (n_inbox (at1 (outputs p)))) as [? [? ?]]. done.
Qed.

Lemma pkeeps_fire_give_up p now : peer_inv p -> pkeeps p (fire_give_up p now).
Proof.
  intros H. unfold fire_give_up. destruct (reached _ _); [|by apply pkeeps_refl].
  rewrite end_grace_gave_up. eapply pkeeps_trans; [by apply pkeeps_end_grace|].
  pose proof (end_grace_discards p) as Hd. generalize dependent (end_grace p). clear. intros p Hd [].
  split; split; auto; try done; try (intros; apply incoming_quiet_refl).
  apply ignores_mono; auto.
Qed.

Lemma pkeeps_tick p now : peer_inv p -> pkeeps p (tick p now).
Proof.
  intros H. unfold tick. destruct (finished p); [by apply pkeeps_refl|].
  eapply pkeeps_trans; [by apply (pkeeps_fire_timeout _ now)|clear H; intros H].
  eapply pkeeps_trans; [by apply (pkeeps_fire_grace _ now)|clear H; intros H].
  by apply pkeeps_fire_give_up.
Qed.

Lemma pkeeps_detach p now c : peer_inv p -> pkeeps p (detach p now c).
Proof.
  intros H. unfold detach. cbv zeta. eapply pkeeps_trans; [by apply (pkeeps_tick _ now)|].
  generalize (tick p now). clear. intros p H. destruct (_ || _); [by apply pkeeps_refl|].
  eapply pkeeps_trans; [by apply (pkeeps_terminate _ now c)|]. generalize (terminate p now c). clear.
  intros p []. split; split; auto; try done; try (intros; apply incoming_quiet_refl).
  apply ignores_mono; auto.
Qed.

Lemma pkeeps_cancel p now : peer_inv p -> pkeeps p (cancel p now).
Proof.
  intros H. unfold cancel. eapply pkeeps_trans; [by apply (pkeeps_tick _ now)|].
  apply pkeeps_terminate.
Qed.

Lemma pkeeps_dropped p now : peer_inv p -> pkeeps p (dropped p now).
Proof.
  intros H. unfold dropped. cbv zeta. eapply pkeeps_trans; [by apply (pkeeps_tick _ now)|].
  intros H1. eapply pkeeps_trans; [by apply (pkeeps_terminate _ now Dropped)|]. intros H2.
  destruct (finished _); [by apply pkeeps_refl|by apply pkeeps_end_grace].
Qed.

Lemma pkeeps_end_input p : peer_inv p -> pkeeps p (end_input p).
Proof.
  intros H. unfold end_input. destruct (g_closed (input_state p)) eqn:Hc; [by apply pkeeps_refl|].
  destruct H as [? ? [] ? ? ? ?]. split; split; cbn; auto; try (intros; apply incoming_quiet_refl).
  split; cbn; try done. intros He. by destruct (ok_end_sent0 He).
Qed.

(** An event is quiet; the one that a caller relies on most is characterised. *)
Lemma next_event_cases p p' e :
  peer_inv p -> next_event p = (p', e) ->
  pkeeps p p' /\
  match e with
  | Some (EFinished o) => finished p = false /\ outcome p = Some o /\ p' = p <| finished := true |>
  | _ => finished p' = finished p
  end.
Proof.
  intros H. unfold next_event. destruct (finished p) eqn:Hfin.
  { intros [= <- <-]. split; [by apply pkeeps_refl|done]. }
  destruct (started_event p) eqn:Hst.
  { intros [= <- <-]. split; [revert H; pkeeps_fields|done]. }
  destruct (g_closed_event (input_state p)) eqn:Hce.
  { intros [= <- <-]. split; [|done]. destruct H as [? ? [] ? ? ? ?].
    split; split; cbn; auto; try (intros; apply incoming_quiet_refl). by split. }
  destruct (List.find _ ALL) as [s|] eqn:Hf.
  { intros [= <- <-]. split; [|done]. destruct H as [Hl Ho Hi Hw Hg Ht Hh].
    split; split; cbn; auto.
    - intros s'. rewrite idx_alter2. case_decide; [|done]. by destruct (Ho s'); split.
    - intros i. rewrite (held_pool_alter _ _ _ _ _ 0) by (cbn; lia). case_decide;
        rewrite Z.add_0_r; apply Hw.
    - intros Hgu s'. rewrite idx_alter2. case_decide; cbn; auto.
    - intros Hte s'. rewrite idx_alter2. case_decide; cbn; auto.
    - intros s'. rewrite idx_alter2. case_decide; [|apply incoming_quiet_refl]. by split; cbn; auto. }
  destruct (outcome p) as [o|] eqn:Ho; intros [= <- <-]; [|split; [by apply pkeeps_refl|done]].
  split; [|done]. destruct H. split; split; auto; try done; try (intros; apply incoming_quiet_refl).
Qed.

(** ** Taking the runner's messages *)

(** A refusal, a stale or a late message: nothing changes, and a violation has its reason. *)
Lemma peer_credit_cases p k u p' res :
  credit p k u = (p', res) ->
  (p' = p /\ (res = Ok Stale \/ (res = Ok Late /\ ignores_runner p = true)
              \/ res = Err VKey \/ res = Err VCredit)) \/
  (ignores_runner p = false /\ (exists x, res = Ok x) /\ u <> 0
   /\ available (g_credit (input_state p)) + u <= size (credit_window (g_credit (input_state p)))
   /\ p' = set_input p (fun g => 
     g <| g_credit := (g_credit g) <| available := available (g_credit g) + u |> |>)).
Proof.
  unfold credit. destruct (admits (key p) k) as [[]|v] eqn:Ha;
    [|intros [= <- <-]; left; by auto|].
  2: { intros [= <- <-]. left. split; [done|]. right; right; left. unfold admits in Ha.
       destruct (key_id k =? key_id (key p)); cbn in Ha; [|congruence].
       destruct (generation k ?= _); congruence. }
  destruct (ignores_runner p) eqn:Hig; [intros [= <- <-]; left; by auto 6|].
  unfold grant. destruct ((u =? 0) || _) eqn:Hb; [intros [= <- <-]; left; by auto 6|].
  bool_to_prop. cbn. intros Hres. right. split_and!; try done.
  - destruct (_ || _); injection Hres as <- <-; by eexists.
  - by destruct (_ || _); injection Hres as <- <-.
Qed.

Lemma peer_output_cases p k s bytes p' res :
  output p k s bytes = (p', res) ->
  (p' = p /\ (res = Ok Stale \/ (res = Ok Late /\ ignores_runner p = true) \/ exists v, res = Err v)) \/
  (ignores_runner p = false /\ n_ended (idx (outputs p) s) = false
   /\ 1 <= len bytes <= chunk (limits p)
   /\ let i := pool_of (limits p) s in
      let c := cost (granted_window (idx (windows p) i)) (len bytes) in
      c <= opened (idx (windows p) i) /\
      let p1 := set_window p i (fun g => g <| opened := opened g - c |>) in
      if n_discarding (idx (outputs p) s)
      then res = Ok Late /\
           p' = set_window (set_output p1 s (fun n => n <| n_truncated := true |>)) i
                  (fun w => free w (cost (output_window (limits p)) (len bytes)))
      else res = Ok Applied /\
           p' = note_buffered (set_output p1 s (fun n => n <| n_inbox := inbox_push (n_inbox n) bytes |>))).
Proof.
  unfold output. destruct (admits (key p) k) as [[]|v];
    try (intros [= <- <-]; left; by eauto).
  destruct (ignores_runner p) eqn:Hig; [intros [= <- <-]; left; by eauto|].
  destruct (n_ended (idx (outputs p) s)) eqn:He; [intros [= <- <-]; left; by eauto|].
  destruct (check_chunk _ _) as [u|] eqn:Hc; [|intros [= <- <-]; left; by eauto].
  apply check_chunk_ok in Hc; [|apply len_nonneg].
  unfold charge. destruct (_ <? _) eqn:Hb; [intros [= <- <-]; left; by eauto|].
  bool_to_prop. cbn. intros Hres. right. split_and!; [done|done|lia|lia|done|].
  assert (Heq : forall c, set_window p (pool_of (limits p) s) (fun _ =>
      (idx (windows p) (pool_of (limits p) s)) <| opened := c |>)
    = set_window p (pool_of (limits p) s) (fun g => g <| opened := c |>))
    by (intros; by destruct (pool_of (limits p) s)).
  rewrite Heq in Hres.
  assert (Heq2 : set_window p (pool_of (limits p) s) (fun g => g <| opened := opened g
      - cost (granted_window (idx (windows p) (pool_of (limits p) s))) (len bytes) |>)
    = set_window p (pool_of (limits p) s) (fun g => g <| opened :=
        opened (idx (windows p) (pool_of (limits p) s))
        - cost (granted_window (idx (windows p) (pool_of (limits p) s))) (len bytes) |>))
    by (by destruct (pool_of (limits p) s)).
  rewrite Heq2. destruct (n_discarding (idx (outputs p) s)); by injection Hres as <- <-.
Qed.

Lemma end_output_cases p k s p' res :
  end_output p k s = (p', res) ->
  (p' = p /\ (res = Ok Stale \/ (res = Ok Late /\ ignores_runner p = true) \/ exists v, res = Err v)) \/
  (ignores_runner p = false /\ n_ended (idx (outputs p) s) = false /\ res = Ok Applied
   /\ p' = set_output p s (fun i => i <| n_ended := true |>)).
Proof.
  unfold end_output. destruct (admits (key p) k) as [[]|v]; try (intros [= <- <-]; left; by eauto).
  destruct (ignores_runner p); [intros [= <- <-]; left; by eauto|].
  destruct (n_ended (idx (outputs p) s)); intros [= <- <-]; [left; by eauto|by right].
Qed.

Lemma started_cases p k p' res :
  started p k = (p', res) ->
  (p' = p /\ (res = Ok Stale \/ (res = Ok Late /\ ignores_runner p = true) \/ exists v, res = Err v)) \/
  (ignores_runner p = false /\ has_started p = false /\ terminal_outcome p = None /\ res = Ok Applied
   /\ p' = p <| has_started := true |> <| started_event := true |>).
Proof.
  unfold started. destruct (admits (key p) k) as [[]|v]; try (intros [= <- <-]; left; by eauto).
  destruct (ignores_runner p); [intros [= <- <-]; left; by eauto|].
  destruct (has_started p), (terminal_outcome p); cbn; intros [= <- <-]; try (left; by eauto).
  right. by split_and!.
Qed.

Lemma pkeeps_input_closed p k p' res :
  peer_inv p -> input_closed p k = (p', res) ->
  pkeeps p p' /\ (admits (key p) k = Ok true -> exists x, res = Ok x)
  /\ (forall v, res = Err v -> p' = p) /\ (res = Ok Stale -> p' = p).
Proof.
  intros Hi. unfold input_closed.
  destruct (admits (key p) k) as [[]|v]; try (intros [= <- <-]; split_and!; eauto using pkeeps_refl; done).
  destruct (_ || _); intros [= <- <-]; split_and!; eauto using pkeeps_refl, pkeeps_close_input; done.
Qed.

Lemma terminal_cases p now k o p' res :
  peer_inv p -> terminal p now k o = (p', res) ->
  (p' = p /\ (res = Ok Stale \/ res = Err VKey)) \/
  (admits (key p) k = Ok true /\ let p1 := tick p now in
   (p' = p1 /\ ((res = Ok Late /\ ignores_runner p1 = true)
                \/ (res = Err VEnded /\ is_some (terminal_outcome p1) = true)
                \/ (res = Err VOrder /\ all2 n_ended (outputs p1) = false))) \/
   (res = Ok Applied /\ ignores_runner p1 = false /\ terminal_outcome p1 = None
    /\ (forall s, n_ended (idx (outputs p1) s) = true)
    /\ pkeeps (p1 <| terminal_outcome := Some o |>) p')).
Proof.
  intros Hi. unfold terminal. destruct (admits (key p) k) as [[]|v] eqn:Ha;
    [|intros [= <- <-]; left; by auto|].
  2: { intros [= <- <-]. left. split; [done|]. right. unfold admits in Ha.
       destruct (key_id k =? key_id (key p)); cbn in Ha; [|congruence].
       destruct (generation k ?= _); congruence. }
  pose proof (proj1 (pkeeps_tick p now Hi)) as Hi1. cbv zeta. intros H. right. split; [done|].
  revert H. generalize dependent (tick p now). clear. intros p Hi.
  destruct (ignores_runner p) eqn:Hig; [intros [= <- <-]; left; by auto|].
  destruct (terminal_outcome p) as [x|] eqn:Ht; cbn [is_some]; [intros [= <- <-]; left; by auto|].
  destruct (all2 n_ended (outputs p)) eqn:Hall; cbn [negb]; [|intros [= <- <-]; left; by auto 6].
  intros [= <- <-]. right.
  assert (Hended : forall s, n_ended (idx (outputs p) s) = true) by (by apply all2_spec).
  split_and!; try done. set (p0 := p <| terminal_outcome := Some o |>).
  assert (Hi0 : peer_inv p0) by (destruct Hi; by split).
  set (p1 := p0 <| give_up_at := None |> <| timeout_at := None |> <| cancel_message := false |>).
  assert (H1 : pkeeps p0 p1) by (revert Hi0; pkeeps_fields).
  eapply pkeeps_trans; [exact H1|]. clearbody p1. clear. intros H.
  eapply pkeeps_trans; [by apply pkeeps_close_input|]. generalize (close_input p1). clear.
  intros p H. destruct (_ && _); [|by apply pkeeps_refl].
  set (p2 := p <| terminated_at := _ |> <| grace_until := _ |>).
  assert (H2 : pkeeps p p2) by (revert H; pkeeps_fields).
  eapply pkeeps_trans; [exact H2|]. clearbody p2. clear. intros H.
  destruct (reached _ _); [by apply pkeeps_end_grace|by apply pkeeps_refl].
Qed.

Lemma peer_credit_inv p k u p' res : peer_inv p -> 0 <= u -> credit p k u = (p', res) -> peer_inv p'.
Proof.
  intros Hi Hu H. apply peer_credit_cases in H as [[-> _]|(_ & _ & Hn & Ha & ->)]; [done|].
  destruct Hi as [? ? [? [Hw Hav] ? ?] ? ? ? ?]. split; cbn; try done. split; cbn; try done.
  split; cbn; [done|]. rewrite Hw in Ha. lia.
Qed.

Lemma started_inv p k p' res : peer_inv p -> started p k = (p', res) -> peer_inv p'.
Proof.
  intros Hi H. apply started_cases in H as [[-> _]|(_ & _ & _ & _ & ->)]; [done|].
  destruct Hi. by split.
Qed.

Lemma end_output_inv p k s p' res : peer_inv p -> end_output p k s = (p', res) -> peer_inv p'.
Proof.
  intros Hi H. apply end_output_cases in H as [[-> _]|(_ & _ & _ & ->)]; [done|].
  destruct Hi as [Hl Ho Hin Hw Hg Ht Hh]. split; cbn; try done.
  - intros s'. rewrite idx_alter2. case_decide; [|done]. by destruct (Ho s'); split.
  - intros i. rewrite (held_pool_alter _ _ _ _ _ 0) by (cbn; lia). case_decide;
      rewrite Z.add_0_r; apply Hw.
  - intros Hgu s'. rewrite idx_alter2. case_decide; cbn; auto.
  - intros Hte s'. rewrite idx_alter2. case_decide; cbn; auto.
Qed.

Lemma peer_output_inv p k s bytes p' res : peer_inv p -> output p k s bytes = (p', res) -> peer_inv p'.
Proof.
  intros Hi H. apply peer_output_cases in H as [[-> _]|(_ & He & Hb & Hc & H)]; [done|].
  pose proof Hi as [Hl Ho Hin Hw Hg Ht Hh]. set (i := pool_of (limits p) s) in *.
  pose proof (Hw i) as [Hgw Hop Hret Hex]. rewrite Hgw in *.
  pose proof (cost_small _ (output_window (limits p)) _ Hl Hb) as Hcost.
  destruct (n_discarding (idx (outputs p) s)) eqn:Hd; destruct H as [_ ->].
  - split; cbn; try done.
    + intros s'. rewrite idx_alter2. case_decide; [|done]. subst s'. by destruct (Ho s); split.
    + intros j. rewrite (held_pool_alter _ _ _ _ _ 0) by (cbn; lia). rewrite !idx_alter2.
      fold i. destruct (decide (i = j)) as [<-|]; [|rewrite Z.add_0_r; apply Hw].
      split; cbn; try done; destruct (unit_ _); lia.
    + intros Hgu s'. rewrite idx_alter2. case_decide; cbn; auto.
    + intros Hte s'. rewrite idx_alter2. case_decide; cbn; auto.
  - apply peer_inv_note_buffered. split; cbn; try done.
    + intros s'. rewrite idx_alter2. case_decide; [|done]. subst s'. destruct (Ho s).
      split; cbn; [by apply inbox_push_ok|by rewrite inbox_push_unit|congruence|done].
    + intros j. rewrite (held_pool_alter _ _ _ _ _ (cost (output_window (limits p)) (len bytes)))
        by (cbn; rewrite inbox_push_held, Hcost; by rewrite (ok_unit _ _ (Ho s))).
      rewrite idx_alter2. fold i. destruct (decide (i = j)) as [<-|]; [|rewrite Z.add_0_r; apply Hw].
      split; cbn; try done; lia.
    + intros Hgu s'. rewrite idx_alter2. case_decide; cbn; auto.
    + intros Hte s'. rewrite idx_alter2. case_decide; cbn; auto.
Qed.

(** ** The caller's data *)

Lemma write_allowance_bound p :
  peer_inv p -> 0 <= write_allowance p <= chunk (limits p) - len (g_queue (input_state p)).
Proof.
  intros Hi. pose proof (ok_queue _ _ (inv_input _ Hi)). unfold write_allowance.
  destruct (_ || _); lia.
Qed.

Lemma input_spec p bytes p' n :
  peer_inv p -> input p bytes = (p', n) ->
  peer_inv p' /\ n = Z.min (len bytes) (write_allowance p) /\ 0 <= n
  /\ p' = note_buffered (set_input p (fun g => g <| g_queue := g_queue g ++ ztake n bytes |>))
  /\ (n <> 0 -> g_closed (input_state p) = false /\ g_ended (input_state p) = false).
Proof.
  intros Hi H. unfold input in H. injection H as <- <-.
  pose proof (write_allowance_bound p Hi) as Hwa. len_facts.
  assert (Hz : Z.min (len bytes) (write_allowance p) <> 0 ->
    g_closed (input_state p) = false /\ g_ended (input_state p) = false).
  { unfold write_allowance.
    destruct (g_closed (input_state p)), (g_ended (input_state p)); cbn; auto; len_facts; lia. }
  split_and!; auto; [|lia]. apply peer_inv_note_buffered.
  destruct Hi as [? ? [Hq Hc He Hcl] ? ? ? ?]. split; cbn; try done. split; cbn; try done; [len_lia|..].
  - intros Hs. destruct (He Hs) as [Hen ->]. split; [done|].
    destruct (decide (Z.min (len bytes) (write_allowance p) = 0)) as [->|Hn]; [done|].
    destruct (Hz Hn). congruence.
  - intros Hs. rewrite (Hcl Hs).
    destruct (decide (Z.min (len bytes) (write_allowance p) = 0)) as [->|Hn]; [done|].
    destruct (Hz Hn). congruence.
Qed.

Lemma consumed_spec p s n :
  peer_inv p -> 0 <= n ->
  peer_inv (consumed p s n) /\
  peer_quiet (fun s' => if decide (s' = s) then ztake n (inbox_bytes (n_inbox (idx (outputs p) s)))
                        else []) p (consumed p s n).
Proof.
  intros Hi Hn. unfold consumed.
  pose proof (inbox_pop_spec _ _ n (ok_inbox _ _ (inv_outputs _ Hi s)) Hn (inbox_small p s Hi)) as Hpop.
  destruct (inbox_pop (n_inbox (idx (outputs p) s)) n) as [i' freed].
  destruct Hpop as (Hok & Hu & Hh & Hf & Hb). pose proof Hi as [Hl Ho Hin Hw Hg Ht Hhw].
  assert (Hsplit : inbox_bytes (n_inbox (idx (outputs p) s))
    = ztake n (inbox_bytes (n_inbox (idx (outputs p) s))) ++ inbox_bytes i').
  { rewrite Hb. destruct (Z.min_spec n (len (inbox_bytes (n_inbox (idx (outputs p) s)))))
      as [[? ->]|[? ->]].
    - by rewrite ztake_zdrop.
    - rewrite ztake_all, zdrop_all by lia. by rewrite app_nil_r. }
  split; split; cbn; auto.
  - intros s'. rewrite idx_alter2. case_decide; [|done]. subst s'. destruct (Ho s).
    split; cbn; [done|congruence| |done]. intros Hd. rewrite Hb, (ok_discarding0 Hd). apply zdrop_all.
    rewrite len_nil. lia.
  - intros i. rewrite (held_pool_alter _ _ _ _ _ (- freed)) by (cbn; lia).
    rewrite idx_alter2. destruct (Hw i) as [? ? ? ?]. case_decide; split; cbn; (done || lia).
  - intros Hgu s'. rewrite idx_alter2. case_decide; cbn; auto.
  - intros Hte s'. rewrite idx_alter2. case_decide; cbn; auto.
  - intros i. rewrite idx_alter2. by case_decide.
  - intros s'. rewrite idx_alter2. destruct (decide (s = s')) as [<-|Hne].
    + rewrite decide_True by done. split; cbn; auto.
    + rewrite decide_False by done. apply incoming_quiet_refl.
Qed.

(** ** Messages that the peer sends *)

(** Equal but for the field that only chooses which message goes next. *)
Definition psame (p p' : Peer) : Prop := p' = p <| turn := turn p' |>.

Lemma psame_refl p : psame p p.
Proof. by destruct p. Qed.

Lemma psame_trans p1 p2 p3 : psame p1 p2 -> psame p2 p3 -> psame p1 p3.
Proof. unfold psame. intros H1 H2. rewrite H2, H1. by destruct p1. Qed.

Lemma psame_inv p p' : psame p p' -> peer_inv p -> peer_inv p'.
Proof. intros -> []. by split. Qed.

(** The message [m], with its data [d], that the peer [p] returns as it becomes [p']. *)
Inductive psent (p : Peer) : Message -> list byte -> Peer -> Prop :=
| psent_cancel c p' :
    cancel_message p = true -> psame (p <| cancel_message := false |>) p' ->
    psent p (MCancel c) [] p'
| psent_credit pool i u p' :
    output_pool (limits p) pool = Ok i -> u = returnable (idx (windows p) i) -> 0 < u ->
    psame (set_window p i (fun w => (take_grant w).1)) p' ->
    psent p (MCredit pool u) [] p'
| psent_input d q p' :
    g_closed (input_state p) = false -> g_queue (input_state p) = d ++ q ->
    1 <= len d <= chunk (limits p) ->
    cost (input_window (limits p)) (len d) <= available (g_credit (input_state p)) ->
    psame (set_input p (fun g => g <| g_queue := q |> <| g_credit := spend (g_credit g) (len d) |>)) p' ->
    psent p (MInput (len d)) d p'
| psent_end p' :
    g_closed (input_state p) = false -> g_ended (input_state p) = true ->
    g_queue (input_state p) = [] -> g_end_sent (input_state p) = false ->
    psame (set_input p (fun g => g <| g_end_sent := true |>)) p' ->
    psent p MInputEnd [] p'.

Lemma psent_psame p1 p2 m d p' : psame p1 p2 -> psent p2 m d p' -> psent p1 m d p'.
Proof.
  unfold psame. intros Hs H. destruct p1. cbn in Hs.
  destruct H; rewrite Hs in *; cbn in *; econstructor; eauto; unfold psame in *; by
    match goal with H : ?x = _ |- ?x = _ => rewrite H end.
Qed.

Lemma psent_turn p m d p' t : psent p m d p' -> psent p m d (p' <| turn := t |>).
Proof.
  intros H. destruct H as [c p' ? H|? ? ? p' ? ? ? H|? ? p' ? ? ? ? H|p' ? ? ? ? H];
    econstructor; eauto; unfold psame in *; rewrite H; by destruct p.
Qed.

Lemma peer_set_window_same p i g : g = idx (windows p) i -> set_window p i (fun _ => g) = p.
Proof.
  intros ->. destruct p as [? ? ? ? ? ? ? w]. unfold set_window. cbn. by destruct w, i.
Qed.

Lemma peer_next_credit_cases p i p' m :
  peer_inv p -> (i = Stderr -> shared (limits p) = false) -> next_credit p i = (p', m) ->
  match m with
  | Some m => psent p m [] p' /\ exists pool u, m = MCredit pool u
  | None => p' = p
  end.
Proof.
  intros Hi Hsh. unfold next_credit. destruct (is_some (terminal_outcome p)); [by intros [= <- <-]|].
  destruct (existsb _ ALL) eqn:Hex; cbn [negb]; [|by intros [= <- <-]].
  pose proof (ok_returnable _ _ _ (inv_windows _ Hi i)) as Hr. unfold take_grant.
  destruct (Z.ltb_spec 0 (returnable (idx (windows p) i))) as [Hlt|Hge]; intros [= <- <-].
  - split; [|by eexists _, _]. eapply (psent_credit _ _ i); [|reflexivity|done|].
    + unfold output_pools, output_pool. cbn.
      destruct (shared (limits p)), i; try done. by specialize (Hsh eq_refl).
    + unfold psame, set_window. cbn. by destruct p, i.
  - apply peer_set_window_same. apply (take_grant_zero (idx (windows p) i)). lia.
Qed.

Lemma next_input_cases p buffer p' buffer' m :
  peer_inv p -> next_input p buffer = (p', buffer', m) ->
  match m with
  | Some m => exists d, psent p m d p' /\ forall n, m = MInput n -> n = len d /\ ztake n buffer' = d
  | None => p' = p /\ buffer' = buffer
  end.
Proof.
  intros Hi. unfold next_input. destruct (g_closed (input_state p)) eqn:Hc; [by intros [= <- <- <-]|].
  set (q := g_queue (input_state p)).
  set (wanted := Z.min (Z.min (len q) (chunk (limits p))) (len buffer)).
  pose proof (inv_limits _ Hi) as (Hch & _). pose proof (len_nonneg q). pose proof (len_nonneg buffer).
  set (c := g_credit (input_state p)). destruct (Z.ltb_spec 0 (sendable c wanted)) as [Hlt|_].
  - destruct (sendable_bound _ _ wanted (ok_credit _ _ (inv_input _ Hi))) as [Hn Hcost];
      [subst wanted; lia|done|]. fold c in Hn, Hcost.
    rewrite take_spec by lia. replace (Z.min (Z.min (sendable c wanted) (len buffer)) (len q))
      with (sendable c wanted) by (subst wanted; lia).
    set (n := sendable c wanted) in *. intros [= <- <- <-].
    assert (Hl : len (ztake n q) = n) by (subst wanted; len_lia).
    exists (ztake n q). rewrite Hl. split.
    + rewrite <- Hl at 1. eapply psent_input; [done|by rewrite ztake_zdrop| | |].
      * rewrite Hl. subst wanted. lia.
      * by rewrite Hl.
      * rewrite Hl. apply psame_refl.
    + intros ? [= <-]. split; [done|]. rewrite ztake_app_l, ztake_all by lia. done.
  - destruct (_ && _) eqn:Hb; intros [= <- <- <-]; [|done]. bool_to_prop.
    exists []. split; [|done]. econstructor; eauto. apply psame_refl.
Qed.

Lemma next_source_cases rounds offset p buffer p' buffer' m :
  peer_inv p -> next_source rounds offset p buffer = (p', buffer', m) ->
  match m with
  | Some m => exists d, psent p m d p' /\ forall n, m = MInput n -> n = len d /\ ztake n buffer' = d
  | None => p' = p /\ buffer' = buffer
  end.
Proof.
  intros Hi. revert offset. induction rounds as [|rounds IH]; intros offset; cbn [next_source].
  { by intros [= <- <- <-]. }
  set (pools := len (output_pools (limits p))). set (source := _ mod _).
  destruct (source <? pools) eqn:Hs.
  - destruct (next_credit p (if source =? 0 then Stdout else Stderr)) as [p1 m1] eqn:Hn.
    apply peer_next_credit_cases in Hn; [|done|].
    2: { intros He. destruct (source =? 0) eqn:Hz; [done|]. bool_to_prop.
         unfold output_pools in *. destruct (shared (limits p)); [|done].
         assert (pools = 1) by done. subst source. pose proof (Z.mod_pos_bound (turn p + offset) (pools + 1)).
         lia. }
    destruct m1 as [m1|].
    + intros [= <- <- <-]. destruct Hn as (Hn & pool & u & ->). exists [].
      split; [by apply psent_turn|done].
    + subst p1. apply IH.
  - destruct (next_input p buffer) as [[p1 b1] m1] eqn:Hn. apply next_input_cases in Hn; [|done].
    destruct m1 as [m1|].
    + intros [= <- <- <-]. destruct Hn as (d & Hn & Hd). exists d. split; [by apply psent_turn|done].
    + destruct Hn as [-> ->]. apply IH.
Qed.

Lemma peer_next_message_cases p buffer p' buffer' m :
  peer_inv p -> next_message p buffer = (p', buffer', m) ->
  match m with
  | Some m => finished p = false /\ detached p = false /\ exists d, psent p m d p'
              /\ (forall n, m = MInput n -> n = len d /\ ztake n buffer' = d)
  | None => p' = p /\ buffer' = buffer
  end.
Proof.
  intros Hi. unfold next_message. destruct (finished p) eqn:Hf, (detached p) eqn:Hd; cbn [orb];
    try by intros [= <- <- <-].
  destruct (cancel_message p) eqn:Hc.
  - intros [= <- <- <-]. split_and!; try done. exists []. split; [|done].
    econstructor; eauto. apply psame_refl.
  - intros H. apply next_source_cases in H; [|done]. by destruct m.
Qed.

Lemma psent_inv p m d p' : peer_inv p -> psent p m d p' -> peer_inv p'.
Proof.
  intros Hi H. destruct H as [c p' _ H|pool i u p' Hp -> Hu H|d q p' Hc Hq Hl Hcost H|p' Hc He Hq Hs H];
    (apply (psame_inv _ _ H); clear H p').
  - destruct Hi. by split.
  - destruct Hi as [Hl Ho Hin Hw Hg Ht Hh]. split; cbn; try done. intros j. rewrite idx_alter2.
    case_decide; [|done]. subst j. destruct (Hw i). split; cbn; (done || lia).
  - destruct Hi as [Hlim ? [Hql Hcr Hes Hcl] ? ? ? ?]. split; cbn; try done. rewrite Hq in *.
    split; cbn; [len_lia| | |congruence].
    + apply credit_ok_spend; [done|]. split; [|done].
      rewrite (cost_small _ _ _ Hlim) by done. destruct (unit_ _); lia.
    + intros Hs. destruct (Hes Hs) as [? Hn]. by destruct (app_eq_nil _ _ Hn).
  - destruct Hi as [? ? [] ? ? ? ?]. split; cbn; try done; by split; cbn.
Qed.

(** ** Any sequence of calls *)

Inductive peer_op : Type :=
| OpCredit (k : Key) (units : Z)
| OpStarted (k : Key)
| OpOutput (k : Key) (s : Stream) (bytes : list byte)
| OpEndOutput (k : Key) (s : Stream)
| OpInputClosed (k : Key)
| OpTerminal (now : Z) (k : Key) (o : Outcome)
| OpInput (bytes : list byte)
| OpEndInput
| OpConsumed (s : Stream) (bytes : Z)
| OpCancel (now : Z)
| OpDropped (now : Z)
| OpReset (now : Z)
| OpDisconnect (now : Z)
| OpTick (now : Z)
| OpNextMessage (buffer : list byte)
| OpNextEvent.

Inductive peer_reply : Type :=
| NoReply
| ReplyReceipt (r : result Violation Receipt)
| ReplyCount (n : Z)
| ReplyMessage (m : option Message) (buffer : list byte)
| ReplyEvent (e : option Event).

(** One call on the peer. *)
Definition peer_call (p : Peer) (op : peer_op) : Peer * peer_reply :=
  match op with
  | OpCredit k units => let '(p, x) := credit p k units in (p, ReplyReceipt x)
  | OpStarted k => let '(p, x) := started p k in (p, ReplyReceipt x)
  | OpOutput k s bytes => let '(p, x) := output p k s bytes in (p, ReplyReceipt x)
  | OpEndOutput k s => let '(p, x) := end_output p k s in (p, ReplyReceipt x)
  | OpInputClosed k => let '(p, x) := input_closed p k in (p, ReplyReceipt x)
  | OpTerminal now k o => let '(p, x) := terminal p now k o in (p, ReplyReceipt x)
  | OpInput bytes => let '(p, n) := input p bytes in (p, ReplyCount n)
  | OpEndInput => (end_input p, NoReply)
  | OpConsumed s n => (consumed p s n, NoReply)
  | OpCancel now => (cancel p now, NoReply)
  | OpDropped now => (dropped p now, NoReply)
  | OpReset now => (reset p now, NoReply)
  | OpDisconnect now => (disconnect p now, NoReply)
  | OpTick now => (tick p now, NoReply)
  | OpNextMessage buffer => let '(p, b, m) := next_message p buffer in (p, ReplyMessage m b)
  | OpNextEvent => let '(p, e) := next_event p in (p, ReplyEvent e)
  end.

(** Arguments of Rust's unsigned parameters. *)
Definition peer_typed (op : peer_op) : Prop :=
  match op with OpCredit _ n | OpConsumed _ n => 0 <= n | _ => True end.

Lemma peer_call_inv p op : peer_inv p -> peer_typed op -> peer_inv (peer_call p op).1.
Proof.
  intros Hi Ht.
  destruct op as [k u|k|k s b|k s|k|now k o|b| |s n|now|now|now|now|now|b|]; cbn.
  - destruct (credit p k u) eqn:H. by eapply peer_credit_inv.
  - destruct (started p k) eqn:H. by eapply started_inv.
  - destruct (output p k s b) eqn:H. by eapply peer_output_inv.
  - destruct (end_output p k s) eqn:H. by eapply end_output_inv.
  - destruct (input_closed p k) eqn:H. by eapply pkeeps_input_closed.
  - destruct (terminal p now k o) eqn:H. apply terminal_cases in H; [|done].
    destruct H as [[-> _]|[_ [[-> _]|(_ & _ & _ & _ & H)]]]; [done|by apply pkeeps_tick|apply H].
  - exact (proj1 (input_spec p b _ _ Hi eq_refl)).
  - by apply pkeeps_end_input.
  - by apply consumed_spec.
  - by apply pkeeps_cancel.
  - by apply pkeeps_dropped.
  - by apply pkeeps_detach.
  - by apply pkeeps_detach.
  - by apply pkeeps_tick.
  - destruct (next_message p b) as [[p' b'] [m|]] eqn:H; apply peer_next_message_cases in H; try done.
    + destruct H as (_ & _ & d & H & _). by eapply psent_inv.
    + by destruct H as [-> _].
  - destruct (next_event p) eqn:H. exact (proj1 (proj1 (next_event_cases _ _ _ Hi H))).
Qed.

Lemma new_peer_inv k l t now : valid_limits l -> peer_inv (new_peer k l t now).
Proof.
  intros Hl. pose proof Hl as (? & ? & ?). split; try done.
  - intros s. destruct s; (split; cbn; [apply inbox_ok_new|done..]).
  - split; cbn; try done; [unfold len; cbn; lia|]. split; cbn; [done|lia].
  - assert (Hz : forall i, held_pool l (outputs (new_peer k l t now)) i = 0).
    { intros i. unfold held_pool, held_by, held. cbn.
      destruct (unit_ (output_window l)); repeat case_decide; done. }
    intros i. change (limits (new_peer k l t now)) with l. rewrite Hz.
    destruct i; (split; cbn; [done|lia..]).
  - cbn. unfold exact_bound. destruct (shared l), (unit_ _); nia.
Qed.

(** Peers that calls with any arguments, from any runner and adapter, can reach. *)
Inductive peer_reachable (k : Key) (l : Limits) : Peer -> Prop :=
| reach_new t now : peer_reachable k l (new_peer k l t now)
| reach_call p op :
    peer_reachable k l p -> peer_typed op -> peer_reachable k l (peer_call p op).1.

Lemma peer_reachable_inv k l p : valid_limits l -> peer_reachable k l p -> peer_inv p.
Proof. induction 2; [by apply new_peer_inv|by apply peer_call_inv]. Qed.

(** C10: Whatever the runner sends and the caller does, the peer never holds more than one chunk
    of input and its output windows, now or at its high-water mark; that is its memory bound,
    which saturates at the largest [usize]; and each output pool is exactly accounted for: its
    window is the units open to the runner, those waiting to be granted, and those that the
    inboxes hold, so no [u32] counter overflows and no unit is lost or invented. *)
Theorem peer_memory_bounded (k : Key) (l : Limits) (p : Peer) :
  valid_limits l -> peer_reachable k l p ->
  buffered p <= exact_bound (limits p) /\ high_water p <= exact_bound (limits p)
  /\ memory_bound p = Z.min USIZE_MAX (exact_bound (limits p))
  /\ 0 <= write_allowance p <= chunk (limits p)
  /\ 0 <= available (g_credit (input_state p)) <= size (input_window (limits p))
  /\ forall i, let w := idx (windows p) i in
       0 <= opened w /\ 0 <= returnable w
       /\ opened w + returnable w + held_pool (limits p) (outputs p) i = size (output_window (limits p)).
Proof.
  intros Hl Hr. pose proof (peer_reachable_inv _ _ _ Hl Hr) as Hi.
  pose proof (write_allowance_bound p Hi). len_facts.
  split; [by apply peer_buffered_bound|]. split; [apply Hi|].
  split; [apply peer_memory_bound_exact, Hi|]. split; [lia|].
  split; [apply (ok_available _ _ (ok_credit _ _ (inv_input _ Hi)))|].
  intros i w. destruct (inv_windows _ Hi i) as [_ ? ? ?]. done.
Qed.

(** The peer after some calls. *)
Definition peer_after (ops : list peer_op) : Peer :=
  fold_left (fun p op => (peer_call p op).1) ops
    (new_peer sample_key sample_limits (mkTimers None 10 20) 0).

Lemma peer_after_reachable ops :
  Forall peer_typed ops -> peer_reachable sample_key sample_limits (peer_after ops).
Proof.
  unfold peer_after. induction ops as [|op ops IH] using rev_ind; [intros; constructor|].
  intros [Ho Hop]%Forall_app. inv Hop. rewrite fold_left_app. cbn. constructor; auto.
Qed.

Definition sample_peer_ops : list peer_op :=
  [OpNextMessage (replicate 4 Byte.x00); OpNextMessage (replicate 4 Byte.x00);
   OpOutput sample_key Stderr (bytes_of "err!"); OpInput (bytes_of "hello")].

Lemma peer_memory_bounded_witness :
  buffered (peer_after sample_peer_ops) <= exact_bound sample_limits
  /\ buffered (peer_after sample_peer_ops) = 8 /\ exact_bound sample_limits = 20.
Proof.
  split; [|split; reflexivity].
  destruct (peer_memory_bounded sample_key sample_limits (peer_after sample_peer_ops)) as [H _].
  - apply sample_limits_valid.
  - apply peer_after_reachable. repeat constructor.
  - exact H.
Defined.

(** ** Refusals *)

(** The key of a message of the runner's. *)
Definition message_key (op : peer_op) : option Key :=
  match op with
  | OpCredit k _ | OpStarted k | OpOutput k _ _ | OpEndOutput k _ | OpInputClosed k | OpTerminal _ k _ => Some k
  | _ => None
  end.

(** No timer of the peer's is due when the message comes. *)
Definition no_timer_due (p : Peer) (op : peer_op) : Prop :=
  match op with
  | OpTerminal now _ _ => match deadline p with Some at_ => now < at_ | None => True end
  | _ => True
  end.

(** A message for this generation, to a peer that still takes the runner's messages. *)
Definition current (p : Peer) (k : Key) : Prop := k = key p /\ ignores_runner p = false.

(** The rules that a message of the runner's can break, each with its violation. *)
Inductive breaks (p : Peer) : peer_op -> Violation -> Prop :=
| breaks_key op k :
    message_key op = Some k -> key_id k <> key_id (key p) \/ generation (key p) < generation k -> breaks p op VKey
| breaks_credit k units :
    current p k -> units = 0 \/ size (credit_window (g_credit (input_state p))) < available (g_credit (input_state p)) + units -> breaks p (OpCredit k units) VCredit
| breaks_second_start k :
    current p k -> has_started p = true \/ is_Some (terminal_outcome p) -> breaks p (OpStarted k) VOrder
| breaks_output_ended k stream bytes :
    current p k -> n_ended (idx (outputs p) stream) = true -> breaks p (OpOutput k stream bytes) VEnded
| breaks_chunk k stream bytes :
    current p k -> n_ended (idx (outputs p) stream) = false -> bytes = [] \/ chunk (limits p) < len bytes -> breaks p (OpOutput k stream bytes) VChunk
| breaks_window k stream bytes :
    let w := idx (windows p) (pool_of (limits p) stream) in
    current p k -> n_ended (idx (outputs p) stream) = false -> bytes <> [] -> len bytes <= chunk (limits p) ->
    opened w < cost (granted_window w) (len bytes) -> breaks p (OpOutput k stream bytes) VWindow
| breaks_second_end k stream :
    current p k -> n_ended (idx (outputs p) stream) = true -> breaks p (OpEndOutput k stream) VEnded
| breaks_second_terminal now k o :
    current p k -> is_Some (terminal_outcome p) -> breaks p (OpTerminal now k o) VEnded
| breaks_early_terminal now k o stream :
    current p k -> terminal_outcome p = None -> n_ended (idx (outputs p) stream) = false -> breaks p (OpTerminal now k o) VOrder.

Lemma tick_quiet p now : match deadline p with Some at_ => now < at_ | None => True end -> tick p now = p.
Proof.
  unfold tick, deadline. destruct (finished p); [done|]. cbn [fold_left earliest]. intros H.
  assert (reached (timeout_at p) now = false) as Ht by (destruct (timeout_at p), (grace_until p), (give_up_at p); cbn in *; lia).
  assert (reached (grace_until p) now = false) as Hg by (destruct (timeout_at p), (grace_until p), (give_up_at p); cbn in *; lia).
  assert (reached (give_up_at p) now = false) as Hu by (destruct (timeout_at p), (grace_until p), (give_up_at p); cbn in *; lia).
  unfold fire_timeout. rewrite Ht. unfold fire_grace. rewrite Hg. unfold fire_give_up. by rewrite Hu.
Qed.

Lemma admits_spec self k :
  match admits self k with
  | Err v => v = VKey /\ (key_id k <> key_id self \/ generation self < generation k)
  | Ok false => key_id k = key_id self /\ generation k < generation self
  | Ok true => k = self
  end.
Proof.
  unfold admits. destruct (Z.eqb_spec (key_id k) (key_id self)) as [Hi|Hi]; cbn [negb]; [|by auto].
  destruct (Z.compare_spec (generation k) (generation self)); [|by auto..]. destruct k, self; cbn in *; by subst.
Qed.

(** What a message gets, of a peer that it does not make tick: a refusal changes nothing. *)
Definition refusal_of (p : Peer) (op : peer_op) (k : Key) : Prop :=
  match (peer_call p op).2 with
  | ReplyReceipt (Err v) => breaks p op v /\ (peer_call p op).1 = p
  | ReplyReceipt (Ok Stale) => (key_id k = key_id (key p) /\ generation k < generation (key p)) /\ (peer_call p op).1 = p
  | ReplyReceipt (Ok _) => k = key p /\ forall v, ~ breaks p op v
  | _ => False
  end.

Lemma breaks_current p op k v : message_key op = Some k -> k = key p -> breaks p op v -> ignores_runner p = false.
Proof.
  intros Hk -> Hb. destruct Hb as [op k' Hk' [H|H]| | | | | | | | ]; try by match goal with H : current _ _ |- _ => destruct H end.
  - rewrite Hk in Hk'. by injection Hk' as <-.
  - rewrite Hk in Hk'. injection Hk' as <-. lia.
Qed.

(** A message that is not for this generation. *)
Lemma refusal_key p op k : message_key op = Some k -> no_timer_due p op ->
  match admits (key p) k with
  | Err v => peer_call p op = (p, ReplyReceipt (Err v))
  | Ok false => peer_call p op = (p, ReplyReceipt (Ok Stale))
  | Ok true => ignores_runner p = true -> peer_call p op = (p, ReplyReceipt (Ok Late))
  end.
Proof.
  intros Hk Hq. destruct op; try done; injection Hk as <-; cbn [peer_call]; unfold credit, started, output, end_output, input_closed, terminal;
    destruct (admits (key p) k0) as [[]|]; try done; intros Hi; rewrite ?(tick_quiet _ _ Hq), ?Hi; done.
Qed.

(** The rules that a message of this generation breaks, by its kind. *)
Lemma breaks_inv p op v : message_key op = Some (key p) -> breaks p op v ->
  match op with
  | OpCredit _ units => v = VCredit /\ (units = 0 \/ size (credit_window (g_credit (input_state p))) < available (g_credit (input_state p)) + units)
  | OpStarted _ => v = VOrder /\ (has_started p = true \/ is_Some (terminal_outcome p))
  | OpOutput _ stream bytes =>
      n_ended (idx (outputs p) stream) = true \/ bytes = [] \/ chunk (limits p) < len bytes
      \/ let w := idx (windows p) (pool_of (limits p) stream) in opened w < cost (granted_window w) (len bytes)
  | OpEndOutput _ stream => n_ended (idx (outputs p) stream) = true
  | OpTerminal _ _ _ => is_Some (terminal_outcome p) \/ exists stream, n_ended (idx (outputs p) stream) = false
  | _ => False
  end.
Proof.
  intros Hk Hb. destruct Hb as [op k Hk' Hne|k units|k|k stream bytes|k stream bytes _ _ Hc|k stream bytes|k stream|now k o|now k o stream]; eauto.
  - exfalso. rewrite Hk in Hk'. injection Hk' as <-. destruct Hne; [done|lia].
  - destruct Hc; auto.
Qed.

Lemma refusal_current p op : message_key op = Some (key p) -> no_timer_due p op -> ignores_runner p = false -> refusal_of p op (key p).
Proof.
  intros Hk Hq Hi. assert (current p (key p)) as Hc by done. unfold refusal_of. pose proof (fun v => breaks_inv p op v Hk) as Hinv.
  destruct op as [k u|k|k s b|k s|k|now k o| | | | | | | | | |]; try done; injection Hk as ->; cbn [peer_call] in *;
    unfold credit, started, output, end_output, input_closed, terminal; rewrite admits_same, ?(tick_quiet _ _ Hq), Hi.
  - unfold grant. destruct ((u =? 0) || _) eqn:E; cbn [fst snd].
    + split; [|done]. apply breaks_credit; [done|]. apply orb_true_iff in E as [E|E]; bool_to_prop; auto.
    + apply orb_false_iff in E as [E1 E2]. bool_to_prop. assert (forall v, ~ breaks p (OpCredit (key p) u) v) by (intros v Hb; apply Hinv in Hb; lia).
      by destruct (_ || _).
  - destruct (has_started p || is_some (terminal_outcome p)) eqn:E; cbn [fst snd].
    + split; [|done]. apply breaks_second_start; [done|]. destruct (has_started p); [by left|right]. destruct (terminal_outcome p); [by eexists|done].
    + split; [done|]. intros v Hb. apply Hinv in Hb as [_ Hb]. destruct (has_started p); [done|]. destruct Hb as [?|[? Hb]]; [done|]. by rewrite Hb in E.
  - destruct (n_ended (idx (outputs p) s)) eqn:He; [split; [by apply breaks_output_ended|done]|]. unfold check_chunk, charge.
    destruct ((len b =? 0) || _) eqn:E; cbn [fst snd].
    { split; [|done]. apply breaks_chunk; [done|done|]. apply orb_true_iff in E as [E|E]; bool_to_prop; [left; by apply len_zero_iff|by right]. }
    apply orb_false_iff in E as [E1 E2]. bool_to_prop. assert (b <> []) as Hb by (intros ->; by rewrite len_nil in E1).
    destruct (Z.ltb_spec (opened (idx (windows p) (pool_of (limits p) s))) (cost (granted_window (idx (windows p) (pool_of (limits p) s))) (len b))) as [Hw|Hw]; cbn [fst snd].
    { split; [by apply breaks_window|done]. }
    assert (forall v, ~ breaks p (OpOutput (key p) s b) v) by (intros v Hv; apply Hinv in Hv as [?|[?|[?|?]]]; [congruence|done|lia|lia]). by destruct (n_discarding _).
  - destruct (n_ended (idx (outputs p) s)) eqn:He; [split; [by apply breaks_second_end|done]|]. split; [done|]. intros v Hv. apply Hinv in Hv. congruence.
  - cbn [orb]. destruct (_ || _); (split; [done|]); intros v Hv; by apply Hinv in Hv.
  - destruct (terminal_outcome p) as [o'|] eqn:Ho; cbn [is_some fst snd]; [split; [apply breaks_second_terminal; [done|by eexists]|done]|].
    unfold all2. change (at0 (outputs p)) with (idx (outputs p) Stdout). change (at1 (outputs p)) with (idx (outputs p) Stderr).
    destruct (n_ended (idx (outputs p) Stdout)) eqn:E0; cbn [andb negb]; [|split; [by apply (breaks_early_terminal _ _ _ _ Stdout)|done]].
    destruct (n_ended (idx (outputs p) Stderr)) eqn:E1; cbn [andb negb]; [|split; [by apply (breaks_early_terminal _ _ _ _ Stderr)|done]].
    split; [done|]. intros v Hv. apply Hinv in Hv as [[? ?]|[[] ?]]; congruence.
Qed.

Lemma refusal_exact p op k : message_key op = Some k -> no_timer_due p op -> refusal_of p op k.
Proof.
  intros Hk Hq. pose proof (refusal_key p op k Hk Hq) as Hkey. pose proof (admits_spec (key p) k) as Ha. destruct (admits (key p) k) as [[]|v].
  - subst k. destruct (ignores_runner p) eqn:Hi; [|by apply refusal_current]. unfold refusal_of. rewrite Hkey by done. split; [done|].
    intros v Hb. apply (breaks_current _ _ _ _ Hk) in Hb; [congruence|done].
  - unfold refusal_of. by rewrite Hkey.
  - unfold refusal_of. rewrite Hkey. destruct Ha as [-> Ha]. split; [by eapply breaks_key|done].
Qed.

Lemma breaks_not_stale p op k v : message_key op = Some k -> breaks p op v -> ~ (key_id k = key_id (key p) /\ generation k < generation (key p)).
Proof.
  intros Hk Hb [Hi Hg]. destruct Hb; cbn in Hk; simplify_eq; try by match goal with H : current _ _ |- _ => destruct H as [-> _]; lia end.
  destruct_or?; [congruence|lia].
Qed.

(** A message breaks one rule at most. *)
Lemma breaks_unique p op v v' : breaks p op v -> breaks p op v' -> v = v'.
Proof.
  intros Hb Hb'. destruct Hb as [op k Hk Hne| | | | | | | | ].
  { destruct Hb' as [| | | | | | | | ]; [done|..]; cbn in Hk; simplify_eq; match goal with H : current _ _ |- _ => destruct H as [-> _] end; (destruct Hne; [done|lia]). }
  all: inversion Hb' as [? ? Hk Hne| | | | | | | | ]; subst; try done; try congruence;
    try (cbn in Hk; simplify_eq; match goal with H : current _ _ |- _ => destruct H as [-> _] end; destruct Hne; [done|lia]).
  all: try (destruct_or?; subst; len_facts; rewrite ?len_nil in *; (done || lia)).
  all: match goal with H : is_Some _ |- _ => destruct H; congruence end.
Qed.

(** C38: A message of the runner's that comes when none of the peer's timers is due is refused exactly
    when it breaks a rule, with the violation that is the rule's own: a key of another execution or of
    a later generation, a grant of no units or of more than are in flight, a second start or one after
    the terminal outcome, output that is empty, longer than a chunk or beyond its window, output or an
    end after its stream's end, a second terminal outcome, or one before both ends. It is stale exactly
    when it is for an earlier generation. Neither changes anything in the peer. *)
Theorem peer_refuses (p : Peer) (op : peer_op) (k : Key) :
  message_key op = Some k -> no_timer_due p op ->
  (forall v, (peer_call p op).2 = ReplyReceipt (Err v) <-> breaks p op v)
  /\ ((peer_call p op).2 = ReplyReceipt (Ok Stale) <-> key_id k = key_id (key p) /\ generation k < generation (key p))
  /\ (forall v, breaks p op v -> (peer_call p op).1 = p)
  /\ ((peer_call p op).2 = ReplyReceipt (Ok Stale) -> (peer_call p op).1 = p).
Proof.
  intros Hk Hq. pose proof (refusal_exact p op k Hk Hq) as H. unfold refusal_of in H.
  assert (forall v, breaks p op v -> ~ (key_id k = key_id (key p) /\ generation k < generation (key p))) as Hbs by (intros v Hb; by eapply breaks_not_stale).
  destruct (peer_call p op) as [p' reply]. cbn [fst snd] in *. destruct reply as [|[[]|v]| | |]; try done.
  - destruct H as [-> Hno]. split_and!; try done; [intros v; split; [done|by intros ?%Hno]|split; [done|lia]|by intros v ?%Hno].
  - destruct H as [Hs ->]. split_and!; try done. intros v. split; [done|]. by intros ?%Hbs.
  - destruct H as [-> Hno]. split_and!; try done; [intros v; split; [done|by intros ?%Hno]|split; [done|lia]|by intros v ?%Hno].
  - destruct H as [Hb ->]. split_and!; try done.
    + intros v'. split; [by intros [= <-]|]. intros Hb'. do 2 f_equal. by eapply breaks_unique.
    + split; [done|]. intros Hs. by destruct (Hbs v).
Qed.

(** A third frame of output in a window of two is refused, and leaves the peer as it is. *)
Definition full_window_ops : list peer_op := sample_peer_ops ++ [OpOutput sample_key Stderr (bytes_of "more")].

Lemma peer_refuses_witness :
  let p := peer_after full_window_ops in
  peer_call p (OpOutput sample_key Stderr (bytes_of "x")) = (p, ReplyReceipt (Err VWindow)) /\ opened (idx (windows p) (pool_of (limits p) Stderr)) = 0.
Proof.
  cbv zeta. split; [|vm_compute; reflexivity].
  destruct (peer_refuses (peer_after full_window_ops) (OpOutput sample_key Stderr (bytes_of "x")) sample_key) as (Hr & _ & Hs & _); [reflexivity|exact I|].
  assert (breaks (peer_after full_window_ops) (OpOutput sample_key Stderr (bytes_of "x")) VWindow) as Hb.
  { apply breaks_window; [split; reflexivity|reflexivity|discriminate|vm_compute; discriminate|vm_compute; reflexivity]. }
  apply Hr in Hb as Hreply. apply Hs in Hb. destruct (peer_call _ _) as [p' reply]. cbn [fst snd] in *. congruence.
Defined.

(** A refused terminal outcome does change the peer when it is the first call after a deadline:
    the peer gives up, and discards what it holds. *)
Lemma refused_terminal_ticks :
  let p := peer_after (sample_peer_ops ++ [OpCancel 3]) in
  let '(p', res) := terminal p 20 sample_key (new_outcome None) in
  res = Err VOrder /\ buffered p = 4 /\ buffered p' = 0
  /\ n_truncated (idx (outputs p) Stderr) = false /\ n_truncated (idx (outputs p') Stderr) = true.
Proof. vm_compute. repeat split. Qed.

(** A late message can change the peer: output that comes after the sink's grace truncates the
    stream, and its units wait to be granted again. *)
Lemma late_output_truncates :
  let p := peer_after (sample_peer_ops ++ [OpCancel 3; OpConsumed Stderr 4; OpTick 13]) in
  let '(p', res) := output p sample_key Stderr (bytes_of "late") in
  res = Ok Late
  /\ n_truncated (idx (outputs p) Stderr) = false /\ n_truncated (idx (outputs p') Stderr) = true.
Proof. vm_compute. repeat split. Qed.
