(* ===== verification/Execution.v ===== *)
(** * A runner and a peer, connected (src/nvx-rs/src/exec/)

    The whole execution as a transition system: a runner, a peer, the two channels that an
    adapter's transport makes of them, and every call that the adapters, the workload and the
    caller can make on either side, in any order and at any times. Each channel keeps its order
    and loses nothing. Following the documentation of [Message::Terminal], a detached runner's
    terminal outcome is kept and not sent. The data that crossed each boundary is recorded. *)

From S2P Require Import Prelude ExecTypes Credit Peer PeerFacts Runner RunnerFacts.

(** A message on the wire, with the bytes of the buffer that it names. *)
Definition rwire : Type := Runner.Message * list byte.
Definition pwire : Type := Peer.Message * list byte.

Definition rdata (m : Runner.Message) (buffer : list byte) : list byte :=
  match m with Runner.MOutput _ n => ztake n buffer | _ => [] end.
Definition pdata (m : Peer.Message) (buffer : list byte) : list byte :=
  match m with Peer.MInput n => ztake n buffer | _ => [] end.

Record sys := mkSys {
  runner : Runner;
  peer : Peer;
  to_peer : list rwire;
  to_runner : list pwire;
  read : array2 (list byte);   (** bytes that the runner took from the workload's streams *)
  sunk : array2 (list byte);   (** bytes that the peer's sink took *)
  given : list byte;           (** input bytes that the peer took from its caller *)
  taken : list byte;           (** input bytes that the workload took *)
}.

#[export] Instance eta_sys : Eta sys := fun x =>
  mkSys (runner x) (peer x) (to_peer x) (to_runner x) (read x) (sunk x) (given x) (taken x).

(** A message handed to the other side, at a time. *)
Definition deliver_peer (now : Z) (p : Peer) (k : Key) (w : rwire) : Peer * result Violation Receipt :=
  match w with
  | (Runner.MCredit units, _) => Peer.credit p k units
  | (Runner.MStarted, _) => Peer.started p k
  | (Runner.MOutput s _, d) => Peer.output p k s d
  | (Runner.MEnd s, _) => Peer.end_output p k s
  | (Runner.MInputClosed, _) => Peer.input_closed p k
  | (Runner.MTerminal o, _) => Peer.terminal p now k o
  end.

Definition deliver_runner (now : Z) (r : Runner) (k : Key) (w : pwire)
    : Runner * result Violation Receipt :=
  match w with
  | (Peer.MCancel c, _) => Runner.cancel r now k c
  | (Peer.MCredit pool units, _) => Runner.credit r k pool units
  | (Peer.MInput _, d) => Runner.input r k d
  | (Peer.MInputEnd, _) => Runner.end_input r k
  end.

(** The peer's calls that exchange no message and hand over no data. *)
Definition peer_local (op : peer_op) : bool :=
  match op with
  | PeerFacts.OpEndInput | PeerFacts.OpCancel _ | PeerFacts.OpDropped _ | PeerFacts.OpReset _
  | PeerFacts.OpDisconnect _ | PeerFacts.OpTick _ | OpNextEvent => true
  | _ => false
  end.

Inductive step : sys -> sys -> Prop :=
| step_runner_local x op :
    RunnerFacts.local op = true -> step x (x <| runner := (runner_call (runner x) op).1 |>)
| step_runner_output x s bytes r' n :
    Runner.output (runner x) s bytes = (r', n) ->
    step x (x <| runner := r' |> <| read := alter2 s (fun l => l ++ ztake n bytes) (read x) |>)
| step_runner_written x n :
    0 <= n ->
    let i := input_state (runner x) in
    step x (x <| runner := Runner.input_written (runner x) n |>
              <| taken := taken x ++ (if i_closed i then [] else ztake n (inbox_bytes (i_inbox i))) |>)
| step_runner_send x buffer r' buffer' m :
    Runner.next_message (runner x) buffer = (r', buffer', Some m) ->
    step x (x <| runner := r' |>
              <| to_peer := to_peer x ++ (if Runner.detached r' then [] else [(m, rdata m buffer')]) |>)
| step_runner_idle x buffer r' buffer' :
    Runner.next_message (runner x) buffer = (r', buffer', None) -> step x (x <| runner := r' |>)
| step_runner_receive x now w rest r' res :
    to_runner x = w :: rest ->
    deliver_runner now (runner x) (Runner.key (runner x)) w = (r', res) ->
    step x (x <| runner := r' |> <| to_runner := rest |>)
| step_peer_local x op :
    peer_local op = true -> step x (x <| peer := (peer_call (peer x) op).1 |>)
| step_peer_input x bytes p' n :
    Peer.input (peer x) bytes = (p', n) ->
    step x (x <| peer := p' |> <| given := given x ++ ztake n bytes |>)
| step_peer_consumed x s n :
    0 <= n ->
    step x (x <| peer := Peer.consumed (peer x) s n |>
              <| sunk := alter2 s (fun l => l ++ ztake n (inbox_bytes (n_inbox (idx (Peer.outputs (peer x)) s))))
                           (sunk x) |>)
| step_peer_send x buffer p' buffer' m :
    Peer.next_message (peer x) buffer = (p', buffer', Some m) ->
    step x (x <| peer := p' |> <| to_runner := to_runner x ++ [(m, pdata m buffer')] |>)
| step_peer_idle x buffer p' buffer' :
    Peer.next_message (peer x) buffer = (p', buffer', None) -> step x (x <| peer := p' |>)
| step_peer_receive x now w rest p' res :
    to_peer x = w :: rest ->
    deliver_peer now (peer x) (Peer.key (peer x)) w = (p', res) ->
    step x (x <| peer := p' |> <| to_peer := rest |>).

(** An execution before any call: both sides with one key and the same limits. *)
Definition start (k : Key) (l : Limits) (tr tp : Timers) (now_r now_p : Z) : sys := {|
  runner := new_runner k l tr now_r;
  peer := new_peer k l tp now_p;
  to_peer := []; to_runner := [];
  read := mkArray2 [] []; sunk := mkArray2 [] []; given := []; taken := [] |}.

Inductive reachable (k : Key) (l : Limits) : sys -> Prop :=
| reachable_start tr tp now_r now_p : reachable k l (start k l tr tp now_r now_p)
| reachable_step x y : reachable k l x -> step x y -> reachable k l y.

(** ** What is common to every proof about the system *)

(** Both sides' invariants, and that they agree on the key and the limits. *)
Record agree (x : sys) : Prop := {
  ag_runner : runner_inv (runner x);
  ag_peer : peer_inv (peer x);
  ag_key : Peer.key (peer x) = Runner.key (runner x);
  ag_limits : Peer.limits (peer x) = Runner.limits (runner x);
}.

(** The pool of a credit message, and the pool and cost of an output message. *)
Definition pool_position (l : Limits) (pool : Pool) : option Stream :=
  match output_pool l pool with Ok i => Some i | Err _ => None end.

(** Messages that a side may send: data within a chunk that its header counts, positive credit. *)
Definition rwire_ok (l : Limits) (w : rwire) : Prop :=
  match w with
  | (Runner.MCredit u, _) => 0 < u
  | (Runner.MOutput s n, d) => n = len d /\ 1 <= len d <= chunk l
  | _ => True
  end.
Definition pwire_ok (l : Limits) (w : pwire) : Prop :=
  match w with
  | (Peer.MCredit pool u, _) => 0 < u /\ exists i, output_pool l pool = Ok i
  | (Peer.MInput n, d) => n = len d /\ 1 <= len d <= chunk l
  | _ => True
  end.

(** A read either extends the stream's queue or is dropped, which truncates the stream. *)
Definition reads (r : Runner) (s : Stream) (b : list byte) (r' : Runner) : Prop :=
  let o := idx (outputs r) s in
  (o_closed o = true /\ b = [] /\ r' = r) \/
  (o_closed o = false /\ o_discarding o = true
   /\ r' = r <| outputs := alter2 s (fun o =>
              o <| o_truncated := o_truncated o || negb (is_empty b) |>) (outputs r) |>) \/
  (o_closed o = false /\ o_discarding o = false
   /\ r' = note_buffered (r <| outputs := alter2 s (fun o =>
              o <| o_queue := o_queue o ++ b |>) (outputs r) |>)).

Lemma output_reads r s bytes r' n :
  runner_inv r -> Runner.output r s bytes = (r', n) ->
  reads r s (ztake n bytes) r' /\ runner_inv r'.
Proof.
  intros Hi H. split; [|by eapply runner_output_inv].
  apply runner_output_cases in H; [|done]. unfold reads.
  destruct H as [(? & -> & ->)|[(? & ? & -> & ->)|(? & ? & _ & _ & _ & ->)]].
  - left. by rewrite ztake_0.
  - right. left. by rewrite ztake_all by lia.
  - right. right. done.
Qed.

(** ** Moves: the steps, by what they do to the rest of the system *)

Inductive move (x : sys) : sys -> Prop :=
| move_runner_quiet w r' :
    runner_quiet w (runner x) r' -> runner_inv r' ->
    move x (x <| runner := r' |> <| taken := taken x ++ w |>)
| move_runner_read s b r' :
    reads (runner x) s b r' -> runner_inv r' ->
    move x (x <| runner := r' |> <| read := alter2 s (fun l => l ++ b) (read x) |>)
| move_runner_send m d r' :
    finished (runner x) = false -> sent (runner x) m d r' -> runner_inv r' ->
    move x (x <| runner := r' |>
              <| to_peer := to_peer x ++ (if detached r' then [] else [(m, d)]) |>)
| move_runner_receive now w rest r' res :
    to_runner x = w :: rest -> deliver_runner now (runner x) (key (runner x)) w = (r', res) ->
    move x (x <| runner := r' |> <| to_runner := rest |>)
| move_peer_quiet w p' :
    peer_quiet w (peer x) p' -> peer_inv p' ->
    move x (x <| peer := p' |>
              <| sunk := mkArray2 (at0 (sunk x) ++ w Stdout) (at1 (sunk x) ++ w Stderr) |>)
| move_peer_input b p' :
    (b = [] \/ (g_closed (Peer.input_state (peer x)) = false
                /\ g_ended (Peer.input_state (peer x)) = false)) ->
    p' = Peer.note_buffered (Peer.set_input (peer x) (fun g => g <| g_queue := g_queue g ++ b |>)) ->
    peer_inv p' ->
    move x (x <| peer := p' |> <| given := given x ++ b |>)
| move_peer_send m d p' :
    psent (peer x) m d p' -> peer_inv p' ->
    move x (x <| peer := p' |> <| to_runner := to_runner x ++ [(m, d)] |>)
| move_peer_receive now w rest p' res :
    to_peer x = w :: rest -> deliver_peer now (peer x) (Peer.key (peer x)) w = (p', res) ->
    move x (x <| peer := p' |> <| to_peer := rest |>).

Lemma sys_runner_taken x r' : x <| runner := r' |> = x <| runner := r' |> <| taken := taken x ++ [] |>.
Proof. destruct x. cbn. by rewrite app_nil_r. Qed.

Lemma sys_peer_sunk x p' :
  x <| peer := p' |>
  = x <| peer := p' |> <| sunk := mkArray2 (at0 (sunk x) ++ nothing Stdout) (at1 (sunk x) ++ nothing Stderr) |>.
Proof. destruct x as [? ? ? ? ? []]. cbn. by rewrite !app_nil_r. Qed.

Lemma same_quiet r r' : same r r' -> runner_quiet [] r r'.
Proof.
  intros ->. split; auto using output_quiet_refl, input_quiet_refl.
Qed.

Lemma sent_data r m d r' buffer' :
  sent r m d r' -> (forall s n, m = MOutput s n -> n = len d /\ ztake n buffer' = d) ->
  rdata m buffer' = d.
Proof. intros H Hb. destruct H; cbn; try done. by destruct (Hb s (len d) eq_refl) as [_ ?]. Qed.

Lemma psent_data p m d p' buffer' :
  psent p m d p' -> (forall n, m = Peer.MInput n -> n = len d /\ ztake n buffer' = d) ->
  pdata m buffer' = d.
Proof. intros H Hb. destruct H; cbn; try done. by destruct (Hb (len d) eq_refl) as [_ ?]. Qed.

Lemma peer_local_keeps p op :
  peer_inv p -> peer_local op = true -> pkeeps p (peer_call p op).1.
Proof.
  intros Hi Hl. destruct op; try done; cbn.
  - by apply pkeeps_end_input.
  - by apply pkeeps_cancel.
  - by apply pkeeps_dropped.
  - by apply pkeeps_detach.
  - by apply pkeeps_detach.
  - by apply pkeeps_tick.
  - destruct (next_event p) eqn:H. exact (proj1 (next_event_cases _ _ _ Hi H)).
Qed.

Lemma step_move x y : agree x -> step x y -> move x y.
Proof.
  intros [Hr Hp _ _] H. destruct H.
  - rewrite sys_runner_taken. destruct (keeps_local (runner x) op Hr H) as [? ?]. by econstructor.
  - destruct (output_reads _ _ _ _ _ Hr H). by econstructor.
  - destruct (input_written_spec (runner x) n Hr H) as [Hi (w & Hq & ->)]. by constructor.
  - pose proof (runner_next_message_cases _ _ _ _ _ Hr H) as (Hf & d & Hs & Hd).
    rewrite (sent_data _ _ _ _ _ Hs Hd). constructor; auto. by eapply sent_inv.
  - pose proof (runner_next_message_cases _ _ _ _ _ Hr H) as [Hs _].
    rewrite sys_runner_taken. constructor; [by apply same_quiet|by eapply same_inv].
  - by econstructor.
  - rewrite sys_peer_sunk. destruct (peer_local_keeps _ _ Hp H). by constructor.
  - destruct (input_spec _ _ _ _ Hp H) as (Hi & Hn & Hn0 & -> & Hz). econstructor; eauto.
    destruct (decide (n = 0)) as [-> |Hne]; [by left|right; auto].
  - destruct (consumed_spec (peer x) s n Hp H) as [Hi Hq].
    replace (alter2 s _ (sunk x)) with (mkArray2
      (at0 (sunk x) ++ (if decide (Stdout = s) then ztake n (inbox_bytes (n_inbox (idx (Peer.outputs (peer x)) s))) else []))
      (at1 (sunk x) ++ (if decide (Stderr = s) then ztake n (inbox_bytes (n_inbox (idx (Peer.outputs (peer x)) s))) else []))).
    + by apply (move_peer_quiet _ _ _ Hq).
    + destruct (sunk x), s; cbn; by rewrite app_nil_r.
  - pose proof (peer_next_message_cases _ _ _ _ _ Hp H) as (_ & _ & d & Hs & Hd).
    rewrite (psent_data _ _ _ _ _ Hs Hd). constructor; auto. by eapply psent_inv.
  - pose proof (peer_next_message_cases _ _ _ _ _ Hp H) as [-> _].
    rewrite sys_peer_sunk. constructor; [apply peer_quiet_refl|done].
  - by econstructor.
Qed.

(** ** Both sides keep their invariants, key and limits *)

Definition fixed (r r' : Runner) : Prop := key r' = key r /\ limits r' = limits r.
Definition pfixed (p p' : Peer) : Prop := Peer.key p' = Peer.key p /\ Peer.limits p' = Peer.limits p.

Lemma sent_fixed r m d r' : sent r m d r' -> fixed r r'.
Proof.
  intros H. destruct H; match goal with H : same _ _ |- _ => rewrite H end; done.
Qed.

Lemma psent_fixed p m d p' : psent p m d p' -> pfixed p p'.
Proof.
  intros H. destruct H; match goal with H : psame _ _ |- _ => rewrite H end; done.
Qed.

Lemma reads_fixed r s b r' : reads r s b r' -> fixed r r'.
Proof. by intros [(_ & _ & ->)|[(_ & _ & ->)|(_ & _ & ->)]]. Qed.

Lemma keeps_fixed r r' : keeps r r' -> fixed r r'.
Proof. by intros [_ []]. Qed.

Lemma pkeeps_fixed p p' : pkeeps p p' -> pfixed p p'.
Proof. by intros [_ []]. Qed.

Lemma close_when_taken_fixed r : fixed r (close_input_when_taken r).
Proof. unfold close_input_when_taken. by destruct (_ && _). Qed.

Lemma deliver_runner_keeps now r w r' res :
  runner_inv r -> pwire_ok (limits r) w -> deliver_runner now r (key r) w = (r', res) ->
  runner_inv r' /\ fixed r r'.
Proof.
  intros Hi Hw. destruct w as [[c|pool u|n|] d]; cbn; intros H.
  - pose proof (keeps_cancel _ _ _ _ _ _ Hi H) as Hk. split; [apply Hk|by apply keeps_fixed].
  - split; [eapply runner_credit_inv; eauto; cbn in Hw; lia|].
    apply runner_credit_cases in H as [[-> _]|(_ & _ & i & _ & _ & _ & ->)]; done.
  - split; [by eapply input_inv|]. apply input_cases in H as [[-> _]|(_ & _ & _ & _ & H)]; [done|].
    destruct (i_closed (input_state r)); by destruct H as [_ ->].
  - split; [by eapply end_input_inv|]. apply end_input_cases in H as [[-> _]|(_ & _ & _ & ->)]; [done|].
    apply (close_when_taken_fixed (set_input r (fun i => i <| i_peer_ended := true |>))).
Qed.

Lemma deliver_peer_keeps now p w p' res :
  peer_inv p -> rwire_ok (Peer.limits p) w -> deliver_peer now p (Peer.key p) w = (p', res) ->
  peer_inv p' /\ pfixed p p'.
Proof.
  intros Hi Hw. destruct w as [[u| |s n|s| |o] d]; cbn; intros H.
  - split; [eapply peer_credit_inv; eauto; cbn in Hw; lia|].
    apply peer_credit_cases in H as [[-> _]|(_ & _ & _ & _ & ->)]; done.
  - split; [by eapply started_inv|]. by apply started_cases in H as [[-> _]|(_ & _ & _ & _ & ->)].
  - split; [by eapply peer_output_inv|].
    apply peer_output_cases in H as [[-> _]|(_ & _ & _ & _ & H)]; [done|].
    destruct (n_discarding _); by destruct H as [_ ->].
  - split; [by eapply end_output_inv|]. by apply end_output_cases in H as [[-> _]|(_ & _ & _ & ->)].
  - apply pkeeps_input_closed in H as [Hk _]; [|done]. split; [apply Hk|by apply pkeeps_fixed].
  - pose proof (pkeeps_tick p now Hi) as Ht.
    apply terminal_cases in H; [|done]. destruct H as [[-> _]|[_ [[-> _]|(_ & _ & _ & _ & H)]]].
    + done.
    + split; [apply Ht|by apply pkeeps_fixed].
    + split; [apply H|]. destruct (pkeeps_fixed _ _ H) as [Hk Hl], (pkeeps_fixed _ _ Ht) as [Hk' Hl'].
      unfold pfixed. cbn in *. by rewrite Hk, Hl.
Qed.

(** Messages are well formed. *)
Lemma sent_wire_ok r m d r' : sent r m d r' -> rwire_ok (limits r) (m, d).
Proof. by intros H; destruct H. Qed.

Lemma psent_wire_ok p m d p' : psent p m d p' -> pwire_ok (Peer.limits p) (m, d).
Proof. intros H; destruct H; cbn; eauto. Qed.

(** The first part of the invariant: both sides' own, and well-formed messages in flight. *)
Record wired (x : sys) : Prop := {
  wi_agree : agree x;
  wi_to_peer : Forall (rwire_ok (limits (runner x))) (to_peer x);
  wi_to_runner : Forall (pwire_ok (limits (runner x))) (to_runner x);
}.

Lemma move_wired x y : wired x -> move x y -> wired y.
Proof.
  intros [[Hr Hp Hk Hl] Hw1 Hw2] H.
  destruct H as [w r' Hq Hi|s b r' Hrd Hi|m d r' Hf Hs Hi|now w rest r' res Hc Hdel
                |w p' Hq Hi|b p' _ -> Hi|m d p' Hs Hi|now w rest p' res Hc Hdel].
  - destruct Hq. split; [split|..]; cbn; try congruence; done.
  - destruct (reads_fixed _ _ _ _ Hrd) as [Hk' Hl'].
    split; [split|..]; cbn; rewrite ?Hk', ?Hl'; done.
  - destruct (sent_fixed _ _ _ _ Hs) as [Hk' Hl'].
    split; [split|..]; cbn; rewrite ?Hk', ?Hl'; try done.
    apply Forall_app. split; [done|]. destruct (detached r'); [done|].
    constructor; [by eapply sent_wire_ok|done].
  - rewrite Hc in Hw2. inv Hw2. destruct (deliver_runner_keeps _ _ _ _ _ Hr H1 Hdel) as [Hi [Hk' Hl']].
    split; [split|..]; cbn; rewrite ?Hk', ?Hl'; done.
  - destruct Hq. split; [split|..]; cbn; try congruence; done.
  - split; [split|..]; done.
  - destruct (psent_fixed _ _ _ _ Hs) as [Hk' Hl'].
    split; [split|..]; cbn; rewrite ?Hk', ?Hl'; try done.
    apply Forall_app. split; [done|]. constructor; [|done]. rewrite <- Hl. by eapply psent_wire_ok.
  - rewrite Hc in Hw1. inv Hw1. rewrite <- Hl in H1.
    destruct (deliver_peer_keeps _ _ _ _ _ Hp H1 Hdel) as [Hi [Hk' Hl']].
    split; [split|..]; cbn; rewrite ?Hk', ?Hl'; done.
Qed.

Lemma start_wired k l tr tp nr np : valid_limits l -> wired (start k l tr tp nr np).
Proof.
  intros Hl. split; [split|..]; try done; [by apply new_runner_inv|by apply new_peer_inv].
Qed.

Lemma reachable_wired k l x : valid_limits l -> reachable k l x -> wired x.
Proof.
  intros Hl. induction 1 as [|x y _ IH Hs]; [by apply start_wired|].
  eapply move_wired; [exact IH|]. by apply step_move; [apply IH|].
Qed.

(** ** Running an execution *)

Inductive action : Type :=
| AtRunner (op : runner_op)
| AtPeer (op : peer_op)
| ToPeer (now : Z)      (** deliver the runner's oldest message *)
| ToRunner (now : Z).   (** deliver the peer's oldest message *)

Definition perform_runner (x : sys) (op : runner_op) : sys :=
  match op with
  | OpOutput s bytes =>
      let '(r', n) := Runner.output (runner x) s bytes in
      x <| runner := r' |> <| read := alter2 s (fun l => l ++ ztake n bytes) (read x) |>
  | OpInputWritten n =>
      let i := input_state (runner x) in
      if 0 <=? n then
        x <| runner := Runner.input_written (runner x) n |>
          <| taken := taken x ++ (if i_closed i then [] else ztake n (inbox_bytes (i_inbox i))) |>
      else x
  | OpNextMessage buffer =>
      match Runner.next_message (runner x) buffer with
      | (r', buffer', Some m) =>
          x <| runner := r' |>
            <| to_peer := to_peer x ++ (if Runner.detached r' then [] else [(m, rdata m buffer')]) |>
      | (r', _, None) => x <| runner := r' |>
      end
  | op => if local op then x <| runner := (runner_call (runner x) op).1 |> else x
  end.

Definition perform_peer (x : sys) (op : peer_op) : sys :=
  match op with
  | PeerFacts.OpInput bytes =>
      let '(p', n) := Peer.input (peer x) bytes in
      x <| peer := p' |> <| given := given x ++ ztake n bytes |>
  | OpConsumed s n =>
      if 0 <=? n then
        x <| peer := Peer.consumed (peer x) s n |>
          <| sunk := alter2 s (fun l =>
               l ++ ztake n (inbox_bytes (n_inbox (idx (Peer.outputs (peer x)) s)))) (sunk x) |>
      else x
  | PeerFacts.OpNextMessage buffer =>
      match Peer.next_message (peer x) buffer with
      | (p', buffer', Some m) =>
          x <| peer := p' |> <| to_runner := to_runner x ++ [(m, pdata m buffer')] |>
      | (p', _, None) => x <| peer := p' |>
      end
  | op => if peer_local op then x <| peer := (peer_call (peer x) op).1 |> else x
  end.

Definition perform (x : sys) (a : action) : sys :=
  match a with
  | AtRunner op => perform_runner x op
  | AtPeer op => perform_peer x op
  | ToPeer now =>
      match to_peer x with
      | [] => x
      | w :: rest =>
          x <| peer := (deliver_peer now (peer x) (Peer.key (peer x)) w).1 |> <| to_peer := rest |>
      end
  | ToRunner now =>
      match to_runner x with
      | [] => x
      | w :: rest =>
          x <| runner := (deliver_runner now (runner x) (key (runner x)) w).1 |> <| to_runner := rest |>
      end
  end.

Lemma perform_step x a : perform x a = x \/ step x (perform x a).
Proof.
  destruct a as [op|op|now|now]; cbn.
  - destruct (local op) eqn:Hl.
    { right. replace (perform_runner x op) with (x <| runner := (runner_call (runner x) op).1 |>)
        by (by destruct op). by apply step_runner_local. }
    destruct op; cbn; try (by left); try done.
    + right. destruct (Runner.output (runner x) s bytes) eqn:H. by apply step_runner_output.
    + destruct (0 <=? bytes) eqn:H; [|by left]. bool_to_prop. right. by apply step_runner_written.
    + right. destruct (next_message _ _) as [[r' b'] [m|]] eqn:H;
        [by eapply step_runner_send|by eapply step_runner_idle].
  - destruct (peer_local op) eqn:Hl.
    { right. replace (perform_peer x op) with (x <| peer := (peer_call (peer x) op).1 |>)
        by (by destruct op). by apply step_peer_local. }
    destruct op; cbn; try (by left); try done.
    + right. destruct (Peer.input (peer x) bytes) eqn:H. by apply step_peer_input.
    + destruct (0 <=? bytes) eqn:H; [|by left]. bool_to_prop. right. by apply step_peer_consumed.
    + right. destruct (Peer.next_message _ _) as [[p' b'] [m|]] eqn:H;
        [by eapply step_peer_send|by eapply step_peer_idle].
  - destruct (to_peer x) as [|w rest] eqn:Hc; [by left|right].
    destruct (deliver_peer _ _ _ _) as [p' res] eqn:H. by eapply step_peer_receive.
  - destruct (to_runner x) as [|w rest] eqn:Hc; [by left|right].
    destruct (deliver_runner _ _ _ _) as [r' res] eqn:H. by eapply step_runner_receive.
Qed.

(** The execution that some actions make from its start. *)
Definition execute (actions : list action) : sys :=
  fold_left perform actions
    (start sample_key sample_limits (mkTimers None 10 20) (mkTimers None 10 20) 0 0).

Lemma execute_reachable actions : reachable sample_key sample_limits (execute actions).
Proof.
  unfold execute. induction actions as [|a actions IH] using rev_ind; [constructor|].
  rewrite fold_left_app. cbn. destruct (perform_step (fold_left perform actions
    (start sample_key sample_limits (mkTimers None 10 20) (mkTimers None 10 20) 0 0)) a) as [-> |H];
    [done|by econstructor].
Qed.

(** A whole execution: the caller's input reaches the workload, and its output the caller. *)
Definition room : list byte := replicate 4 Byte.x00.
Definition sample_opening : list action :=
  [AtPeer (PeerFacts.OpNextMessage room); AtPeer (PeerFacts.OpNextMessage room);
   AtPeer (PeerFacts.OpInput (bytes_of "abc")); AtPeer PeerFacts.OpEndInput;
   AtRunner (OpLaunched (Ok ()));
   AtRunner (OpNextMessage room); ToPeer 1; AtRunner (OpNextMessage room); ToPeer 1;
   AtPeer (PeerFacts.OpNextMessage room); AtPeer (PeerFacts.OpNextMessage room);
   ToRunner 1; ToRunner 1; ToRunner 1; ToRunner 1;
   AtRunner (OpInputWritten 3);
   AtRunner (OpOutput Stdout (bytes_of "hello")); AtRunner (OpNextMessage room)].
Definition sample_ending : list action :=
  [AtRunner (OpOutput Stdout (bytes_of "o")); AtRunner (OpNextMessage room);
   AtRunner (OpOutputClosed Stdout); AtRunner (OpOutputClosed Stderr);
   AtRunner (OpExited 2 (Some (Exited 0))); AtRunner OpNextRequest; AtRunner OpNextRequest;
   AtRunner (OpSettled SettlementSettled);
   AtRunner (OpNextMessage room); AtRunner (OpNextMessage room); AtRunner (OpNextMessage room);
   AtRunner (OpNextMessage room);
   ToPeer 3; ToPeer 3; AtPeer (OpConsumed Stdout 4); AtPeer (OpConsumed Stdout 4);
   ToPeer 3; ToPeer 3; ToPeer 3;
   AtPeer OpNextEvent; AtPeer OpNextEvent; AtPeer OpNextEvent].
