(* ===== verification/ExecSafety.v ===== *)
(** * An execution's two sides never violate each other's rules

    The invariant of [Execution.v]'s system: credit in flight never exceeds what its receiver
    granted, and the order of each stream's messages. From it, no message that one side sends is
    ever a violation for the other, in any interleaving. *)

From S2P Require Import Prelude ExecTypes Credit Peer PeerFacts Runner RunnerFacts Execution.

(** ** Sums and orders on a channel *)

Fixpoint sum_of {A} (f : A -> Z) (l : list A) : Z :=
  match l with [] => 0 | x :: l => f x + sum_of f l end.

Lemma sum_of_app {A} (f : A -> Z) k l : sum_of f (k ++ l) = sum_of f k + sum_of f l.
Proof. induction k as [|x k IH]; cbn; lia. Qed.

Lemma sum_of_nonneg {A} (f : A -> Z) l : (forall x, 0 <= f x) -> 0 <= sum_of f l.
Proof. intros H. induction l as [|x l IH]; cbn; [done|]. pose proof (H x). lia. Qed.

Definition none {A} (f : A -> bool) (l : list A) : Prop := Forall (fun x => f x = false) l.

Lemma none_app {A} (f : A -> bool) k l : none f (k ++ l) <-> none f k /\ none f l.
Proof. apply Forall_app. Qed.

Lemma none_cons {A} (f : A -> bool) x l : none f (x :: l) <-> f x = false /\ none f l.
Proof. unfold none. by rewrite Forall_cons. Qed.

Lemma none_nil {A} (f : A -> bool) : none f [].
Proof. constructor. Qed.

(** After an element that [e] selects, none that [a] selects. *)
Fixpoint sealed {A} (e a : A -> bool) (l : list A) : Prop :=
  match l with
  | [] => True
  | x :: l => (e x = true -> none a l) /\ sealed e a l
  end.

Lemma sealed_snoc {A} (e a : A -> bool) l x :
  sealed e a l -> (none e l \/ a x = false) -> sealed e a (l ++ [x]).
Proof.
  induction l as [|y l IH]; cbn; intros Hs Hx.
  - split; [constructor|done].
  - destruct Hs as [Hy Hs]. split.
    + intros He. apply none_app. split; [auto|].
      destruct Hx as [Hx|Hx]; [apply none_cons in Hx as [? _]; congruence|by repeat constructor].
    + apply IH; [done|]. destruct Hx as [Hx|]; [left|by right]. by apply none_cons in Hx as [_ ?].
Qed.

(** ** What the messages are about *)

Definition is_end (s : Stream) (w : rwire) : bool :=
  match w with (MEnd s', _) => bool_decide (s' = s) | _ => false end.
Definition of_stream (s : Stream) (w : rwire) : bool :=
  match w with (MEnd s', _) | (MOutput s' _, _) => bool_decide (s' = s) | _ => false end.
Definition is_terminal (w : rwire) : bool := match w with (MTerminal _, _) => true | _ => false end.
Definition is_started (w : rwire) : bool := match w with (MStarted, _) => true | _ => false end.
Definition is_input_end (w : pwire) : bool :=
  match w with (Peer.MInputEnd, _) => true | _ => false end.
Definition of_input (w : pwire) : bool :=
  match w with (Peer.MInputEnd, _) | (Peer.MInput _, _) => true | _ => false end.

(** Units that messages in flight carry: of output, of the output pool at [i]; of input. *)
Definition output_cost (l : Limits) (i : Stream) (w : rwire) : Z :=
  match w with
  | (MOutput s _, d) => if decide (pool_of l s = i) then cost (output_window l) (len d) else 0
  | _ => 0
  end.
Definition output_grant (l : Limits) (i : Stream) (w : pwire) : Z :=
  match w with
  | (Peer.MCredit pool u, _) =>
      match output_pool l pool with
      | Ok j => if decide (j = i) then Z.max 0 u else 0
      | Err _ => 0
      end
  | _ => 0
  end.
Definition input_cost (l : Limits) (w : pwire) : Z :=
  match w with (Peer.MInput _, d) => cost (input_window l) (len d) | _ => 0 end.
Definition input_grant (w : rwire) : Z := match w with (MCredit u, _) => Z.max 0 u | _ => 0 end.

Lemma cost_nonneg w n : 0 <= n -> 0 <= cost w n.
Proof.
  unfold cost, units, try_or_max. destruct (unit_ w); [|done]. destruct (_ <=? _); [done|done].
Qed.

Lemma output_cost_nonneg l i w : 0 <= output_cost l i w.
Proof. destruct w as [[] d]; cbn; try done. case_decide; [apply cost_nonneg, len_nonneg|done]. Qed.
Lemma output_grant_nonneg l i w : 0 <= output_grant l i w.
Proof. destruct w as [[] d]; cbn; try done. destruct (output_pool _ _); [case_decide|]; lia. Qed.
Lemma input_cost_nonneg l w : 0 <= input_cost l w.
Proof. destruct w as [[] d]; cbn; try done. apply cost_nonneg, len_nonneg. Qed.
Lemma input_grant_nonneg w : 0 <= input_grant w.
Proof. destruct w as [[] d]; cbn; lia. Qed.

(** ** The credit of the output pools *)

(** What the runner may still spend, with the credit and the data in flight, is within what the
    peer opened. *)
Definition pools_ok (x : sys) : Prop := forall i,
  let l := limits (runner x) in
  available (idx (credits (runner x)) i) + sum_of (output_grant l i) (to_runner x)
  + sum_of (output_cost l i) (to_peer x) <= opened (idx (Peer.windows (peer x)) i).

Lemma sent_credits r m d r' i :
  runner_inv r -> sent r m d r' ->
  available (idx (credits r') i) + output_cost (limits r) i (m, d) = available (idx (credits r) i).
Proof.
  intros Hi H. destruct H; match goal with H : same _ _ |- _ => rewrite H end; cbn; try lia.
  rewrite idx_alter2. destruct (decide (pool_of (limits r) s = i)); [|lia]. cbn.
  rewrite (ok_window _ _ (inv_credits _ Hi i)). lia.
Qed.

Lemma psent_windows p m d p' i :
  psent p m d p' ->
  opened (idx (Peer.windows p') i) = opened (idx (Peer.windows p) i) + output_grant (Peer.limits p) i (m, d).
Proof.
  intros H. destruct H; match goal with H : psame _ _ |- _ => rewrite H end; cbn; try lia.
  rewrite idx_alter2. match goal with H : output_pool _ _ = _ |- _ => rewrite H end.
  case_decide; cbn; [subst; lia|lia].
Qed.

Lemma reads_credits r s b r' : reads r s b r' -> credits r' = credits r.
Proof. by intros [(_ & _ & ->)|[(_ & _ & ->)|(_ & _ & ->)]]. Qed.

Lemma deliver_runner_credits now r w r' res i :
  runner_inv r -> pwire_ok (limits r) w -> deliver_runner now r (key r) w = (r', res) ->
  available (idx (credits r') i) <= available (idx (credits r) i) + output_grant (limits r) i w.
Proof.
  intros Hi Hw. destruct w as [[c|pool u|n|] d]; cbn; intros H.
  - pose proof (keeps_cancel _ _ _ _ _ _ Hi H) as [_ []]. rewrite rq_credits. lia.
  - pose proof (output_grant_nonneg (limits r) i (Peer.MCredit pool u, d)) as Hn. cbn in Hn.
    apply runner_credit_cases in H as [[-> _]|(_ & _ & j & Hj & _ & _ & ->)]; [lia|].
    rewrite Hj in *. cbn. rewrite idx_alter2. case_decide; cbn; lia.
  - apply input_cases in H as [[-> _]|(_ & _ & _ & _ & H)]; [lia|].
    destruct (i_closed (input_state r)); destruct H as [_ ->]; cbn; lia.
  - apply end_input_cases in H as [[-> _]|(_ & _ & _ & ->)]; [lia|].
    unfold close_input_when_taken. destruct (_ && _); cbn; lia.
Qed.

Lemma deliver_peer_windows now p w p' res i :
  peer_inv p -> deliver_peer now p (Peer.key p) w = (p', res) ->
  opened (idx (Peer.windows p) i) <= opened (idx (Peer.windows p') i) + output_cost (Peer.limits p) i w.
Proof.
  intros Hi. destruct w as [[u| |s n|s| |o] d]; cbn; intros H.
  - apply peer_credit_cases in H as [[-> _]|(_ & _ & _ & _ & ->)]; cbn; lia.
  - apply started_cases in H as [[-> _]|(_ & _ & _ & _ & ->)]; cbn; lia.
  - pose proof (output_cost_nonneg (Peer.limits p) i (MOutput s n, d)) as Hn. cbn in Hn.
    apply peer_output_cases in H as [[-> _]|(_ & _ & _ & _ & H)]; [lia|].
    rewrite (PeerFacts.ok_granted _ _ _ (PeerFacts.inv_windows _ Hi (pool_of (Peer.limits p) s))) in H.
    destruct (n_discarding _); destruct H as [_ ->]; cbn; rewrite !idx_alter2; case_decide; cbn; lia.
  - apply end_output_cases in H as [[-> _]|(_ & _ & _ & ->)]; cbn; lia.
  - apply pkeeps_input_closed in H as [[_ []] _]; [|done]. rewrite pq_windows. lia.
  - pose proof (pkeeps_tick p now Hi) as [_ [_ _ Ht _ _ _ _ _ _ _ _]].
    apply terminal_cases in H; [|done]. destruct H as [[-> _]|[_ [[-> _]|(_ & _ & _ & _ & [_ H])]]].
    + lia.
    + rewrite Ht. lia.
    + rewrite (pq_windows _ _ _ H). cbn. rewrite Ht. lia.
Qed.

Lemma move_pools x y : wired x -> pools_ok x -> move x y -> pools_ok y.
Proof.
  intros [[Hr Hp Hk Hl] Hw1 Hw2] Hx H i. specialize (Hx i). cbv zeta in *.
  destruct H as [w r' Hq Hi|s b r' Hrd Hi|m d r' Hf Hs Hi|now w rest r' res Hc Hdel
                |w p' Hq Hi|b p' _ -> Hi|m d p' Hs Hi|now w rest p' res Hc Hdel];
    cbn [runner peer to_peer to_runner update] in *.
  - destruct Hq. by rewrite rq_credits, rq_limits.
  - destruct (reads_fixed _ _ _ _ Hrd) as [_ ->]. by rewrite (reads_credits _ _ _ _ Hrd).
  - destruct (sent_fixed _ _ _ _ Hs) as [_ ->]. pose proof (sent_credits _ _ _ _ i Hr Hs).
    pose proof (output_cost_nonneg (limits (runner x)) i (m, d)).
    rewrite sum_of_app. destruct (detached r'); cbn [sum_of]; lia.
  - rewrite Hc in *. inv Hw2. pose proof (deliver_runner_credits _ _ _ _ _ i Hr H1 Hdel).
    destruct (deliver_runner_keeps _ _ _ _ _ Hr H1 Hdel) as [_ [_ ->]]. cbn [sum_of] in Hx. lia.
  - destruct Hq. rewrite pq_windows. done.
  - done.
  - pose proof (psent_windows _ _ _ _ i Hs). rewrite sum_of_app. cbn [sum_of]. rewrite Hl in *. lia.
  - rewrite Hc in *. inv Hw1. pose proof (deliver_peer_windows _ _ _ _ _ i Hp Hdel).
    rewrite Hl in *. cbn [sum_of] in Hx. lia.
Qed.

(** ** The credit of the input *)

Definition input_pool_ok (x : sys) : Prop :=
  available (g_credit (Peer.input_state (peer x))) + sum_of input_grant (to_peer x)
  + sum_of (input_cost (limits (runner x))) (to_runner x) <= opened (i_window (input_state (runner x))).

(** A detached runner returns only its terminal outcome. *)
Lemma sent_detached r m d r' : sent r m d r' -> detached r' = true -> exists o, m = MTerminal o.
Proof.
  intros H. destruct H; match goal with H : same _ _ |- _ => rewrite H end; cbn; try congruence.
  by eexists.
Qed.

Lemma sent_opened r m d r' :
  sent r m d r' ->
  opened (i_window (input_state r')) = opened (i_window (input_state r)) + input_grant (m, d).
Proof.
  intros H. destruct H; match goal with H : same _ _ |- _ => rewrite H end; cbn; try lia.
Qed.

Lemma psent_credits p m d p' :
  peer_inv p -> psent p m d p' ->
  available (g_credit (Peer.input_state p')) + input_cost (Peer.limits p) (m, d)
  = available (g_credit (Peer.input_state p)).
Proof.
  intros Hi H. destruct H; match goal with H : psame _ _ |- _ => rewrite H end; cbn; try lia.
  rewrite (ok_window _ _ (ok_credit _ _ (PeerFacts.inv_input _ Hi))). lia.
Qed.

Lemma reads_input r s b r' : reads r s b r' -> input_state r' = input_state r.
Proof. by intros [(_ & _ & ->)|[(_ & _ & ->)|(_ & _ & ->)]]. Qed.

Lemma deliver_runner_opened now r w r' res :
  runner_inv r -> deliver_runner now r (key r) w = (r', res) ->
  opened (i_window (input_state r)) <= opened (i_window (input_state r')) + input_cost (limits r) w.
Proof.
  intros Hi. destruct w as [[c|pool u|n|] d]; cbn; intros H.
  - pose proof (keeps_cancel _ _ _ _ _ _ Hi H) as [_ []]. destruct rq_input. lia.
  - apply runner_credit_cases in H as [[-> _]|(_ & _ & j & Hj & _ & _ & ->)]; cbn; lia.
  - pose proof (cost_nonneg (input_window (limits r)) (len d) (len_nonneg d)).
    apply input_cases in H as [[-> _]|(_ & _ & _ & _ & H)]; [lia|].
    rewrite (RunnerFacts.ok_granted _ _ _ (ok_grant _ _ (inv_input _ Hi))) in H.
    destruct (i_closed (input_state r)); destruct H as [_ ->]; cbn; lia.
  - apply end_input_cases in H as [[-> _]|(_ & _ & _ & ->)]; [lia|].
    unfold close_input_when_taken. destruct (_ && _); cbn; lia.
Qed.

Lemma deliver_peer_credits now p w p' res :
  peer_inv p -> deliver_peer now p (Peer.key p) w = (p', res) ->
  available (g_credit (Peer.input_state p'))
  <= available (g_credit (Peer.input_state p)) + input_grant w.
Proof.
  intros Hi. destruct w as [[u| |s n|s| |o] d]; cbn; intros H.
  - apply peer_credit_cases in H as [[-> _]|(_ & _ & _ & _ & ->)]; cbn; lia.
  - apply started_cases in H as [[-> _]|(_ & _ & _ & _ & ->)]; cbn; lia.
  - apply peer_output_cases in H as [[-> _]|(_ & _ & _ & _ & H)]; [lia|].
    destruct (n_discarding _); destruct H as [_ ->]; cbn; lia.
  - apply end_output_cases in H as [[-> _]|(_ & _ & _ & ->)]; cbn; lia.
  - apply pkeeps_input_closed in H as [[_ []] _]; [|done]. rewrite pq_credit. lia.
  - pose proof (pkeeps_tick p now Hi) as [_ Ht]. apply pq_credit in Ht.
    apply terminal_cases in H; [|done]. destruct H as [[-> _]|[_ [[-> _]|(_ & _ & _ & _ & [_ H])]]].
    + lia.
    + rewrite Ht. lia.
    + apply pq_credit in H. rewrite H. cbn. rewrite Ht. lia.
Qed.

Lemma move_input_pool x y : wired x -> input_pool_ok x -> move x y -> input_pool_ok y.
Proof.
  intros [[Hr Hp Hk Hl] Hw1 Hw2] Hx H. unfold input_pool_ok in *.
  destruct H as [w r' Hq Hi|s b r' Hrd Hi|m d r' Hf Hs Hi|now w rest r' res Hc Hdel
                |w p' Hq Hi|b p' _ -> Hi|m d p' Hs Hi|now w rest p' res Hc Hdel];
    cbn [runner peer to_peer to_runner update] in *.
  - destruct Hq. rewrite rq_limits. destruct rq_input. lia.
  - destruct (reads_fixed _ _ _ _ Hrd) as [_ ->]. by rewrite (reads_input _ _ _ _ Hrd).
  - destruct (sent_fixed _ _ _ _ Hs) as [_ ->]. pose proof (sent_opened _ _ _ _ Hs).
    rewrite sum_of_app. destruct (detached r') eqn:Hd; cbn [sum_of]; [|lia].
    destruct (sent_detached _ _ _ _ Hs Hd) as [o ->]. cbn in *. lia.
  - rewrite Hc in *. inv Hw2. pose proof (deliver_runner_opened _ _ _ _ _ Hr Hdel).
    destruct (deliver_runner_keeps _ _ _ _ _ Hr H1 Hdel) as [_ [_ ->]]. cbn [sum_of] in Hx. lia.
  - destruct Hq. by rewrite pq_credit.
  - done.
  - pose proof (psent_credits _ _ _ _ Hp Hs). rewrite sum_of_app. cbn [sum_of]. rewrite Hl in *. lia.
  - rewrite Hc in *. pose proof (deliver_peer_credits _ _ _ _ _ Hp Hdel). cbn [sum_of] in Hx. lia.
Qed.

(** ** The order of messages *)

Record ordered (x : sys) : Prop := {
  or_seal : forall s, sealed (is_end s) (of_stream s) (to_peer x);
  or_unsent : forall s, o_ended (idx (outputs (runner x)) s) = false ->
    none (is_end s) (to_peer x) /\ n_ended (idx (Peer.outputs (peer x)) s) = false;
  or_got : forall s, n_ended (idx (Peer.outputs (peer x)) s) = true -> none (of_stream s) (to_peer x);
  or_owed : forall s, o_ended (idx (outputs (runner x)) s) = true ->
    ignores_runner (peer x) = true \/ n_ended (idx (Peer.outputs (peer x)) s) = true
    \/ ~ none (is_end s) (to_peer x);
  or_last : sealed is_terminal (fun _ => true) (to_peer x);
  or_unfinished : finished (runner x) = false ->
    none is_terminal (to_peer x) /\ terminal_outcome (peer x) = None;
  or_after : terminal_outcome (peer x) <> None -> to_peer x = [];
  or_ends : ~ none is_terminal (to_peer x) -> forall s, o_ended (idx (outputs (runner x)) s) = true;
  or_once : sealed is_started is_started (to_peer x);
  or_started : has_started (peer x) = true \/ ~ none is_started (to_peer x) ->
    launch (runner x) <> None /\ started_message (runner x) = false;
  or_got_started : has_started (peer x) = true -> none is_started (to_peer x);
  or_launched : started_message (runner x) = true -> launch (runner x) <> None;
  or_in_seal : sealed is_input_end of_input (to_runner x);
  or_in_unsent : g_end_sent (Peer.input_state (peer x)) = false ->
    none is_input_end (to_runner x) /\ i_peer_ended (input_state (runner x)) = false;
  or_in_got : i_peer_ended (input_state (runner x)) = true -> none of_input (to_runner x);
}.

(** A runner's step that leaves what the order depends on. *)
Record unordering (r r' : Runner) : Prop := {
  uo_ended : forall s, o_ended (idx (outputs r') s) = o_ended (idx (outputs r) s);
  uo_finished : finished r' = finished r;
  uo_launch : launch r <> None ->
    launch r' <> None /\ (started_message r' = true -> started_message r = true);
  uo_started : started_message r' = true -> started_message r = true \/ launch r' <> None;
  uo_peer_ended : i_peer_ended (input_state r') = i_peer_ended (input_state r);
}.

Lemma none_tail {A} (f : A -> bool) x l : none f (x :: l) -> none f l.
Proof. intros H. by apply none_cons in H as [_ ?]. Qed.

Lemma ordered_runner x r' tail w :
  ordered x -> unordering (runner x) r' ->
  (to_runner x = tail \/ to_runner x = w :: tail) ->
  ordered (x <| runner := r' |> <| to_runner := tail |>).
Proof.
  intros [] [Ue Uf Ul Us Up] Ht. split; cbn [runner peer to_peer to_runner update];
    rewrite ?Uf, ?Up; auto; try (intros s; rewrite Ue; by auto).
  - intros H s. rewrite Ue. auto.
  - intros H. destruct (or_started0 H) as [Hl Hs]. destruct (Ul Hl) as [Hl' Hs']. split; [done|].
    destruct (started_message r'); [|done]. by rewrite Hs' in Hs.
  - intros H. destruct (Us H) as [H'|?]; [|done]. by apply Ul, or_launched0.
  - destruct Ht as [<-|Ht]; [done|]. rewrite Ht in or_in_seal0. by destruct or_in_seal0.
  - intros H. destruct (or_in_unsent0 H) as [Hn ?]. split; [|done].
    destruct Ht as [<-|Ht]; [done|]. rewrite Ht in Hn. by apply none_tail in Hn.
  - intros H. specialize (or_in_got0 H).
    destruct Ht as [<-|Ht]; [done|]. rewrite Ht in or_in_got0. by apply none_tail in or_in_got0.
Qed.

Lemma quiet_unordering w r r' : runner_quiet w r r' -> unordering r r'.
Proof.
  intros [_ _ _ Ho Hi Hf _ Hl Hs]. split.
  - intros s. apply (q_ended _ _ (Ho s)).
  - done.
  - intros H. destruct (Hl H) as [-> ?]. done.
  - done.
  - apply (qi_peer_ended _ _ _ Hi).
Qed.

Lemma reads_unordering r s b r' : reads r s b r' -> unordering r r'.
Proof.
  intros [(_ & _ & ->)|[(_ & _ & ->)|(_ & _ & ->)]]; split; cbn; auto; intros s';
    rewrite idx_alter2; by case_decide.
Qed.

Lemma ordered_end_input x rest d :
  ordered x -> to_runner x = (Peer.MInputEnd, d) :: rest ->
  i_peer_ended (input_state (runner x)) = false ->
  ordered (x <| runner := close_input_when_taken
                 (set_input (runner x) (fun i => i <| i_peer_ended := true |>)) |>
             <| to_runner := rest |>).
Proof.
  intros [] Ht He.
  assert (Hs : g_end_sent (Peer.input_state (peer x)) = true).
  { destruct (g_end_sent _) eqn:E; [done|]. destruct (or_in_unsent0 eq_refl) as [Hn _].
    rewrite Ht in Hn. by apply none_cons in Hn as [? _]. }
  rewrite Ht in or_in_seal0. destruct or_in_seal0 as [Hseal Hrest].
  unfold close_input_when_taken. destruct (_ && _);
    split; cbn [runner peer to_peer to_runner update]; auto; cbn; congruence.
Qed.

(** *** The runner sends *)

(** What a message changes of the runner's part of the order, when it reaches the channel. *)
Record announces (w : rwire) (r r' : Runner) : Prop := {
  an_end : forall s, o_ended (idx (outputs r') s) = o_ended (idx (outputs r) s) || is_end s w;
  an_of : forall s, of_stream s w = true -> o_ended (idx (outputs r) s) = false;
  an_finished : finished r' = is_terminal w;
  an_ends : is_terminal w = true -> forall s, o_ended (idx (outputs r) s) = true;
  an_launch : launch r' = launch r;
  an_started : started_message r' = started_message r && negb (is_started w);
  an_sends_started : is_started w = true -> started_message r = true;
  an_peer_ended : i_peer_ended (input_state r') = i_peer_ended (input_state r);
}.

Lemma outcome_delivered r o s :
  Runner.outcome r = Some o -> detached r = false -> o_ended (idx (outputs r) s) = true.
Proof.
  unfold Runner.outcome. intros H Hd. destruct (all2 _ _) eqn:E;
    [|by destruct (awaits_launch r), (is_some (exit r))].
  unfold all2 in E. rewrite !Hd, !orb_false_r in E. bool_to_prop. by destruct s.
Qed.

Lemma sent_announces r m d r' :
  runner_inv r -> finished r = false -> detached r' = false -> sent r m d r' ->
  announces (m, d) r r'.
Proof.
  intros Hi Hf Hd H. destruct H as
    [u r' Hd' _ _ _ H|r' Hd' Hs H|r' Hd' _ H|s r' Hd' _ He H|s d q r' Hd' Hs _ Hq Hl _ H|o r' Ho H];
    rewrite H in *; cbn in Hd; split; cbn; try done; try (intros s'; rewrite orb_false_r);
    rewrite ?andb_true_r, ?andb_false_r; try done.
  - intros s'. rewrite idx_alter2. destruct (decide (s = s')) as [<-|?].
    + cbn. rewrite bool_decide_true by done. by rewrite orb_true_r.
    + by rewrite bool_decide_false, orb_false_r by done.
  - intros s' E. by apply bool_decide_eq_true in E as ->.
  - rewrite idx_alter2. by case_decide.
  - intros s' E. apply bool_decide_eq_true in E as ->.
    destruct (o_ended _) eqn:E; [|done]. pose proof (inv_outputs _ Hi s') as [_ Hok _].
    destruct (Hok E) as [_ Hn]. rewrite Hn in Hq. destruct d; [rewrite len_nil in Hl; lia|done].
  - intros _ s'. by eapply outcome_delivered.
Qed.

Lemma not_none_snoc {A} (f : A -> bool) l x : ~ none f (l ++ [x]) -> ~ none f l \/ f x = true.
Proof.
  intros H. destruct (f x) eqn:E; [by right|left]. intros Hn. apply H, none_app.
  split; [done|]. by repeat constructor.
Qed.

Lemma none_snoc {A} (f : A -> bool) l x : none f l -> f x = false -> none f (l ++ [x]).
Proof. intros H Hx. apply none_app. split; [done|]. by repeat constructor. Qed.

Lemma not_none_last {A} (f : A -> bool) l x : f x = true -> ~ none f (l ++ [x]).
Proof. intros H Hn. apply none_app in Hn as [_ Hn]. apply none_cons in Hn as [? _]. congruence. Qed.

Lemma is_end_of s w : of_stream s w = false -> is_end s w = false.
Proof. by destruct w as [[] ?]. Qed.

Lemma ordered_send x w r' :
  ordered x -> finished (runner x) = false -> announces w (runner x) r' ->
  ordered (x <| runner := r' |> <| to_peer := to_peer x ++ [w] |>).
Proof.
  intros [] Hf [Ae Ao Af At Al As Ass Ap]. destruct (or_unfinished0 Hf) as [Hn Ht].
  assert (Hof : forall s, of_stream s w = true -> none (is_end s) (to_peer x)
                /\ n_ended (idx (Peer.outputs (peer x)) s) = false) by auto.
  split; cbn [runner peer to_peer to_runner update]; rewrite ?Ap; auto.
  - intros s. apply sealed_snoc; [done|]. destruct (of_stream s w) eqn:E; [left; by apply Hof|by right].
  - intros s. rewrite Ae. intros H. apply orb_false_iff in H as [H1 H2].
    destruct (or_unsent0 _ H1). split; [by apply none_snoc|done].
  - intros s H. destruct (of_stream s w) eqn:E; [destruct (Hof s E); congruence|].
    apply none_snoc; auto.
  - intros s. rewrite Ae. intros H. apply orb_true_iff in H as [H|H].
    + destruct (or_owed0 s H) as [?|[?|Hx]]; [by left|by right; left|right; right].
      contradict Hx. by apply none_app in Hx as [? _].
    + right. right. by apply not_none_last.
  - apply sealed_snoc; [done|by left].
  - intros H. rewrite Af in H. split; [by apply none_snoc|done].
  - congruence.
  - intros H s. rewrite Ae. apply not_none_snoc in H as [H|H]; [done|]. by rewrite At.
  - apply sealed_snoc; [done|]. destruct (is_started w) eqn:E; [left|by right].
    destruct (decide (none is_started (to_peer x))); [done|].
    destruct (or_started0 (or_intror n)) as [_ H]. rewrite Ass in H; done.
  - intros H. rewrite Al, As. destruct (is_started w) eqn:E.
    + rewrite andb_false_r. split; [|done]. by apply or_launched0, Ass.
    + rewrite andb_true_r. apply or_started0. destruct H as [?|H]; [by left|right].
      apply not_none_snoc in H as [?|?]; [done|congruence].
  - intros H. apply none_snoc; [auto|]. destruct (is_started w) eqn:E; [|done].
    destruct (or_started0 (or_introl H)) as [_ H']. by rewrite Ass in H'.
  - rewrite Al, As. intros H. apply andb_true_iff in H as [H _]. auto.
Qed.

(** A detached runner keeps its terminal outcome: the channel does not change. *)
Lemma ordered_kept x r' :
  ordered x -> same ((runner x) <| finished := true |>) r' -> ordered (x <| runner := r' |>).
Proof. intros [] ->. by split. Qed.

(** *** The peer takes a message *)

Record takes (w : rwire) (p p' : Peer) : Prop := {
  tk_ended : forall s, n_ended (idx (Peer.outputs p') s) = true ->
    n_ended (idx (Peer.outputs p) s) = true \/ is_end s w = true;
  tk_keeps : forall s, n_ended (idx (Peer.outputs p) s) = true ->
    n_ended (idx (Peer.outputs p') s) = true;
  tk_end : forall s, is_end s w = true ->
    ignores_runner p' = true \/ n_ended (idx (Peer.outputs p') s) = true;
  tk_ignores : ignores_runner p = true -> ignores_runner p' = true;
  tk_terminal : terminal_outcome p' <> None -> terminal_outcome p <> None \/ is_terminal w = true;
  tk_started : has_started p' = true -> has_started p = true \/ is_started w = true;
  tk_end_sent : g_end_sent (Peer.input_state p') = g_end_sent (Peer.input_state p);
}.

Lemma ordered_take x w rest p' :
  ordered x -> to_peer x = w :: rest -> takes w (peer x) p' ->
  ordered (x <| peer := p' |> <| to_peer := rest |>).
Proof.
  intros [] Hc [Te Tk Td Ti Tt Ts Tg]. rewrite Hc in *.
  split; cbn [runner peer to_peer to_runner update]; rewrite ?Tg; auto.
  - intros s. by destruct (or_seal0 s).
  - intros s H. destruct (or_unsent0 s H) as [Hn Hp]. apply none_cons in Hn as [? ?].
    split; [done|]. destruct (n_ended (idx (Peer.outputs p') s)) eqn:E; [|done].
    destruct (Te s E); congruence.
  - intros s H. destruct (Te s H) as [H'|H'].
    + by eapply none_tail, or_got0.
    + by apply (proj1 (or_seal0 s)).
  - intros s H. destruct (or_owed0 s H) as [?|[?|Hx]]; [by left; auto|by right; left; auto|].
    destruct (is_end s w) eqn:E; [destruct (Td s E); auto|right; right].
    contradict Hx. by apply none_cons.
  - by destruct or_last0.
  - intros H. destruct (or_unfinished0 H) as [Hn Hp]. apply none_cons in Hn as [? ?].
    split; [done|]. destruct (terminal_outcome p') eqn:E; [|done].
    by destruct Tt as [?|?]; congruence.
  - intros H. destruct (Tt H) as [H'|H']; [by apply or_after0 in H'|].
    destruct or_last0 as [Hl _]. specialize (Hl H'). destruct rest; [done|by inv Hl].
  - intros H. apply or_ends0. contradict H. by apply none_tail in H.
  - by destruct or_once0.
  - intros H. apply or_started0. destruct H as [H|H].
    + destruct (Ts H) as [?|H']; [by left|right]. intros Hn. apply none_cons in Hn as [? _]. congruence.
    + right. contradict H. by apply none_tail in H.
  - intros H. destruct (Ts H) as [H'|H']; [by eapply none_tail, or_got_started0|].
    by apply (proj1 or_once0).
Qed.

Lemma ordered_peer_quiet x w p' : ordered x -> peer_quiet w (peer x) p' -> ordered (x <| peer := p' |>).
Proof.
  intros [] [_ _ _ Ho _ He _ _ Ht Hs Hi].
  split; cbn [runner peer to_peer to_runner update]; rewrite ?Ht, ?Hs, ?He; auto;
    intros s; rewrite (qn_ended _ _ _ (Ho s)); auto.
  intros H. destruct (or_owed0 s H) as [?|?]; auto.
Qed.

(** *** The peer sends *)

Record announced (w : pwire) (p p' : Peer) : Prop := {
  ad_ended : forall s, n_ended (idx (Peer.outputs p') s) = n_ended (idx (Peer.outputs p) s);
  ad_ignores : ignores_runner p' = ignores_runner p;
  ad_terminal : terminal_outcome p' = terminal_outcome p;
  ad_started : has_started p' = has_started p;
  ad_end_sent : g_end_sent (Peer.input_state p')
                = g_end_sent (Peer.input_state p) || is_input_end w;
  ad_of : of_input w = true -> g_end_sent (Peer.input_state p) = false;
}.

Lemma psent_announced p m d p' : peer_inv p -> psent p m d p' -> announced (m, d) p p'.
Proof.
  intros Hi H. destruct H as [c p' _ H|pool i u p' _ _ _ H|d q p' _ Hq Hl _ H|p' _ _ _ He H];
    rewrite H; split; cbn; rewrite ?orb_false_r, ?orb_true_r; try done.
  intros _. destruct (g_end_sent _) eqn:E; [|done].
  destruct (PeerFacts.inv_input _ Hi) as [_ _ Hs _]. destruct (Hs E) as [_ Hn].
  rewrite Hn in Hq. destruct d; [rewrite len_nil in Hl; lia|done].
Qed.

Lemma ordered_psend x w p' :
  ordered x -> announced w (peer x) p' ->
  ordered (x <| peer := p' |> <| to_runner := to_runner x ++ [w] |>).
Proof.
  intros [] [Ae Ai At As Aes Ao].
  assert (Hof : of_input w = true -> none is_input_end (to_runner x)
                /\ i_peer_ended (input_state (runner x)) = false) by auto.
  split; cbn [runner peer to_peer to_runner update]; rewrite ?Ai, ?At, ?As; auto;
    try (intros s; rewrite Ae; by auto).
  - apply sealed_snoc; [done|]. destruct (of_input w) eqn:E; [left; by apply Hof|by right].
  - rewrite Aes. intros H. apply orb_false_iff in H as [H1 H2].
    destruct (or_in_unsent0 H1). split; [by apply none_snoc|done].
  - intros H. destruct (of_input w) eqn:E; [destruct (Hof eq_refl); congruence|].
    apply none_snoc; auto.
Qed.

(** ** No message is a violation *)

Record execution_inv (x : sys) : Prop := {
  ei_wired : wired x;
  ei_pools : pools_ok x;
  ei_input_pool : input_pool_ok x;
  ei_ordered : ordered x;
}.

Lemma grant_fits w c u : credit_ok w c -> 0 < u -> available c + u <= size w ->
  exists c', grant c u = Ok c'.
Proof.
  intros [Hw Ha] Hu Hs. unfold grant. rewrite Hw.
  repeat (case_match; bool_to_prop; eauto; try lia).
Qed.

Lemma charge_fits g n : cost (granted_window g) n <= opened g ->
  charge g n = Ok (g <| opened := opened g - cost (granted_window g) n |>).
Proof. intros H. unfold charge. case_match; bool_to_prop; [lia|done]. Qed.

Lemma check_chunk_fits l n : 1 <= n <= chunk l -> check_chunk l n = Ok ().
Proof. intros H. unfold check_chunk. case_match; bool_to_prop; [lia|done]. Qed.

Lemma held_pool_nonneg l o i : 0 <= held_pool l o i.
Proof.
  unfold held_pool. pose proof (held_by_nonneg l o i Stdout).
  pose proof (held_by_nonneg l o i Stderr). lia.
Qed.

(** The pools' part of the invariant, with what is in flight bounded below. *)
Lemma pools_bounds x i :
  wired x -> pools_ok x -> let l := limits (runner x) in
  available (idx (credits (runner x)) i) + sum_of (output_grant l i) (to_runner x)
    <= size (output_window l)
  /\ sum_of (output_cost l i) (to_peer x) <= opened (idx (Peer.windows (peer x)) i).
Proof.
  intros [[Hr Hp Hk Hl] _ _] Hx. specialize (Hx i). cbv zeta in *.
  pose proof (sum_of_nonneg _ (to_runner x) (output_grant_nonneg (limits (runner x)) i)).
  pose proof (sum_of_nonneg _ (to_peer x) (output_cost_nonneg (limits (runner x)) i)).
  pose proof (ok_available _ _ (inv_credits _ Hr i)).
  pose proof (PeerFacts.inv_windows _ Hp i) as [_ _ ? Hex]. rewrite Hl in *.
  pose proof (held_pool_nonneg (limits (runner x)) (Peer.outputs (peer x)) i). lia.
Qed.

Lemma input_pool_bounds x :
  wired x -> input_pool_ok x -> let l := limits (runner x) in
  available (g_credit (Peer.input_state (peer x))) + sum_of input_grant (to_peer x)
    <= size (input_window l)
  /\ sum_of (input_cost l) (to_runner x) <= opened (i_window (input_state (runner x))).
Proof.
  intros [[Hr Hp Hk Hl] _ _] Hx. unfold input_pool_ok in Hx. cbv zeta.
  pose proof (sum_of_nonneg _ (to_runner x) (input_cost_nonneg (limits (runner x)))).
  pose proof (sum_of_nonneg _ (to_peer x) input_grant_nonneg).
  pose proof (ok_available _ _ (ok_credit _ _ (PeerFacts.inv_input _ Hp))).
  destruct (ok_grant _ _ (inv_input _ Hr)) as [_ ? ? ?].
  pose proof (held_nonneg (i_inbox (input_state (runner x)))). lia.
Qed.

Lemma runner_takes_head x now w rest r' res :
  execution_inv x -> to_runner x = w :: rest ->
  deliver_runner now (runner x) (key (runner x)) w = (r', res) -> exists receipt, res = Ok receipt.
Proof.
  intros [Hwired Hpool Hin Hord] Hc Hdel. pose proof Hwired as [[Hr Hp Hk Hl] _ Hw].
  rewrite Hc in Hw. inv Hw. clear H2.
  assert (He : of_input w = true -> i_peer_ended (input_state (runner x)) = false).
  { destruct (i_peer_ended _) eqn:E; [|done]. apply (or_in_got _ Hord) in E. rewrite Hc in E.
    apply none_cons in E as [? _]. congruence. }
  destruct w as [[c|pool u|n|] d]; cbn in Hdel, H1, He.
  - unfold cancel in Hdel. rewrite admits_same in Hdel. destruct (_ || _); inv Hdel; eauto.
  - unfold credit in Hdel. rewrite admits_same in Hdel. destruct H1 as [Hu [i Hi]]. rewrite Hi in Hdel.
    destruct (finished (runner x)); [inv Hdel; eauto|].
    destruct (pools_bounds x i Hwired Hpool) as [Hb _]. rewrite Hc in Hb.
    cbn [sum_of output_grant] in Hb. rewrite Hi, decide_True in Hb by done.
    pose proof (sum_of_nonneg _ rest (output_grant_nonneg (limits (runner x)) i)).
    destruct (grant_fits _ _ u (inv_credits _ Hr i) Hu) as [c' Hg]; [lia|].
    rewrite Hg in Hdel. inv Hdel. eauto.
  - unfold input in Hdel. rewrite admits_same, He in Hdel by done. destruct H1 as [-> Hd].
    destruct (finished (runner x)); [inv Hdel; eauto|].
    destruct (input_pool_bounds x Hwired Hin) as [_ Hb]. rewrite Hc in Hb.
    cbn [sum_of input_cost] in Hb.
    pose proof (sum_of_nonneg _ rest (input_cost_nonneg (limits (runner x)))).
    rewrite check_chunk_fits, charge_fits in Hdel by
      (rewrite ?(RunnerFacts.ok_granted _ _ _ (ok_grant _ _ (inv_input _ Hr))); lia).
    cbn in Hdel. destruct (i_closed (input_state (runner x))); inv Hdel; eauto.
  - unfold end_input in Hdel. rewrite admits_same, He in Hdel by done.
    destruct (finished (runner x)); [inv Hdel; eauto|].
    cbn in Hdel. destruct (i_closed (input_state (runner x))); inv Hdel; eauto.
Qed.

(** The head is taken, and what that changes for the order of the rest. *)
Lemma peer_takes_head x now w rest p' res :
  execution_inv x -> to_peer x = w :: rest ->
  deliver_peer now (peer x) (Peer.key (peer x)) w = (p', res) -> exists receipt, res = Ok receipt.
Proof.
  intros [Hwired Hpool Hin Hord] Hc Hdel. pose proof Hwired as [[Hr Hp Hk Hl] Hw _].
  rewrite Hc in Hw. inv Hw. clear H2.
  assert (He : forall s, of_stream s w = true -> n_ended (idx (Peer.outputs (peer x)) s) = false).
  { intros s Hs. destruct (n_ended _) eqn:E; [|done]. apply (or_got _ Hord) in E. rewrite Hc in E.
    apply none_cons in E as [? _]. congruence. }
  assert (Ht : terminal_outcome (peer x) = None).
  { destruct (terminal_outcome _) eqn:E; [|done]. pose proof (or_after _ Hord) as Ha.
    rewrite E, Hc in Ha. by discriminate Ha. }
  destruct w as [[u| |s n|s| |o] d]; cbn in Hdel, H1.
  - unfold Peer.credit in Hdel. rewrite admits_same in Hdel.
    destruct (ignores_runner (peer x)); [inv Hdel; eauto|].
    destruct (input_pool_bounds x Hwired Hin) as [Hb _]. rewrite Hc in Hb. cbn [sum_of input_grant] in Hb.
    pose proof (sum_of_nonneg _ rest input_grant_nonneg).
    destruct (grant_fits _ _ u (ok_credit _ _ (PeerFacts.inv_input _ Hp)) H1) as [c' Hg];
      [rewrite Hl; lia|].
    rewrite Hg in Hdel. cbn in Hdel. destruct (_ || _); inv Hdel; eauto.
  - unfold started in Hdel. rewrite admits_same, Ht in Hdel.
    destruct (ignores_runner (peer x)); [inv Hdel; eauto|].
    destruct (has_started (peer x)) eqn:E; [|inv Hdel; eauto].
    apply (or_got_started _ Hord) in E. rewrite Hc in E. by apply none_cons in E as [? _].
  - unfold Peer.output in Hdel. rewrite admits_same, He in Hdel by (cbn; by apply bool_decide_eq_true).
    destruct (ignores_runner (peer x)); [inv Hdel; eauto|]. destruct H1 as [-> Hd].
    destruct (pools_bounds x (pool_of (limits (runner x)) s) Hwired Hpool) as [_ Hb]. rewrite Hc in Hb.
    cbn [sum_of output_cost] in Hb. rewrite decide_True in Hb by done.
    pose proof (sum_of_nonneg _ rest (output_cost_nonneg (limits (runner x)) (pool_of (limits (runner x)) s))).
    rewrite check_chunk_fits, charge_fits in Hdel by
      (rewrite ?(PeerFacts.ok_granted _ _ _ (PeerFacts.inv_windows _ Hp _)), ?Hl; lia).
    cbn in Hdel. destruct (n_discarding _); inv Hdel; eauto.
  - unfold end_output in Hdel. rewrite admits_same, He in Hdel by (cbn; by apply bool_decide_eq_true).
    destruct (ignores_runner (peer x)); inv Hdel; eauto.
  - apply pkeeps_input_closed in Hdel as (_ & H & _); [|done]. by apply H, admits_same.
  - pose proof (pkeeps_tick _ now Hp) as [_ Hq]. unfold terminal in Hdel. rewrite admits_same in Hdel.
    destruct (ignores_runner (Peer.tick _ _)) eqn:Hig; [inv Hdel; eauto|].
    rewrite (pq_terminal _ _ _ Hq), Ht in Hdel. cbn [is_some] in Hdel.
    assert (Hall : forall s, n_ended (idx (Peer.outputs (Peer.tick (peer x) now)) s) = true).
    { intros s. rewrite (qn_ended _ _ _ (pq_outputs _ _ _ Hq s)).
      assert (Ho : o_ended (idx (outputs (runner x)) s) = true).
      { apply (or_ends _ Hord). rewrite Hc. intros Hn. by apply none_cons in Hn as [? _]. }
      destruct (or_owed _ Hord s Ho) as [H|[H|H]]; [|done|].
      - apply (pq_ignores _ _ _ Hq) in H. congruence.
      - destruct H. rewrite Hc. pose proof (or_last _ Hord) as Hlast. rewrite Hc in Hlast.
        destruct Hlast as [Hlast _]. specialize (Hlast eq_refl). destruct rest; [|by inv Hlast].
        by repeat constructor. }
    apply all2_spec in Hall. rewrite Hall in Hdel. inv Hdel. eauto.
Qed.

Lemma ignoring_takes w p p' : pkeeps p p' -> ignores_runner p' = true -> takes w p p'.
Proof.
  intros [_ Hq] Hi. destruct Hq as [_ _ _ Ho _ He _ _ Ht Hs _].
  split; auto; try (intros s; rewrite (qn_ended _ _ _ (Ho s)); auto).
  - rewrite Ht. auto.
  - rewrite Hs. auto.
Qed.

(** What the peer's taking a message without a violation means for the order. *)
Lemma deliver_takes now p w p' receipt :
  peer_inv p -> deliver_peer now p (Peer.key p) w = (p', Ok receipt) -> takes w p p'.
Proof.
  intros Hi. destruct w as [[u| |s n|s| |o] d]; cbn; intros H.
  - apply peer_credit_cases in H as [[-> H]|(_ & _ & _ & _ & ->)]; [|by split; cbn; auto].
    by split; auto.
  - unfold started in H. rewrite admits_same in H.
    destruct (ignores_runner p) eqn:E; [inv H; apply ignoring_takes; auto using pkeeps_refl|].
    destruct (_ || _); inv H. by split; cbn; auto.
  - apply peer_output_cases in H as [[-> _]|(_ & _ & _ & _ & H)]; [by split; auto|].
    destruct (n_discarding _); destruct H as [_ ->]; (split; auto; try done; intros s' H; cbn in *;
      revert H; rewrite idx_alter2; case_decide; subst; auto).
  - unfold end_output in H. rewrite admits_same in H.
    destruct (ignores_runner p) eqn:E; [inv H; apply ignoring_takes; auto using pkeeps_refl|].
    destruct (n_ended _); inv H. split; cbn; auto; intros s'; rewrite idx_alter2.
    + case_decide; [|auto]. rewrite bool_decide_true by done. auto.
    + case_decide; subst; auto.
    + intros ->%bool_decide_eq_true. rewrite decide_True by done. auto.
  - apply pkeeps_input_closed in H as [[_ Hq] _]; [|done].
    destruct Hq as [_ _ _ Ho _ He _ _ Ht Hs Hig].
    split; auto; try (intros s; rewrite (qn_ended _ _ _ (Ho s)); auto); try done.
    + rewrite Ht. auto.
    + rewrite Hs. auto.
  - pose proof (pkeeps_tick p now Hi) as Ht. apply terminal_cases in H; [|done].
    destruct H as [[-> [H|H]]|[_ [[-> [[_ H]|[[? _]|[? _]]]]|(_ & _ & _ & _ & [_ H])]]]; try done.
    + split; auto. done.
    + by apply ignoring_takes.
    + destruct Ht as [_ Ht]. destruct H as [_ _ _ Ho _ He _ _ Hx Hs Hig].
      split; auto; cbn in *.
      * intros s. rewrite (qn_ended _ _ _ (Ho s)), (qn_ended _ _ _ (pq_outputs _ _ _ Ht s)). auto.
      * intros s. rewrite (qn_ended _ _ _ (Ho s)), (qn_ended _ _ _ (pq_outputs _ _ _ Ht s)). auto.
      * done.
      * intros H. apply Hig. by apply (pq_ignores _ _ _ Ht).
      * rewrite Hs, (pq_has_started _ _ _ Ht). auto.
      * by rewrite He, (pq_end_sent _ _ _ Ht).
Qed.

Lemma deliver_runner_ordered x now w rest r' res :
  ordered x -> runner_inv (runner x) -> to_runner x = w :: rest ->
  deliver_runner now (runner x) (key (runner x)) w = (r', res) ->
  ordered (x <| runner := r' |> <| to_runner := rest |>).
Proof.
  intros Ho Hi Hc Hdel.
  assert (Hu : unordering (runner x) r' -> ordered (x <| runner := r' |> <| to_runner := rest |>))
    by (intros Hu; by eapply ordered_runner; [..|right]).
  assert (Hrefl : unordering (runner x) (runner x)) by (eapply quiet_unordering, runner_quiet_refl).
  destruct w as [[c|pool u|n|] d]; cbn in Hdel.
  - apply Hu. eapply quiet_unordering. eapply keeps_cancel; [done|exact Hdel].
  - apply Hu. apply runner_credit_cases in Hdel as [[-> _]|(_ & _ & i & _ & _ & _ & ->)]; [done|].
    split; cbn; auto.
  - apply Hu. apply input_cases in Hdel as [[-> _]|(_ & _ & _ & _ & H)]; [done|].
    destruct (i_closed (input_state (runner x))); destruct H as [_ ->]; split; cbn; auto.
  - apply end_input_cases in Hdel as [[-> _]|(_ & He & _ & ->)]; [by apply Hu|].
    by eapply ordered_end_input.
Qed.

Lemma ordered_ghost x y :
  ordered x -> runner y = runner x -> peer y = peer x -> to_peer y = to_peer x ->
  to_runner y = to_runner x -> ordered y.
Proof. intros [] Hr Hp H1 H2. split; rewrite ?Hr, ?Hp, ?H1, ?H2; done. Qed.

Lemma move_ordered x y : execution_inv x -> move x y -> ordered y.
Proof.
  intros Hx H. pose proof Hx as [[[Hr Hp Hk Hl] Hw1 Hw2] _ _ Ho].
  destruct H as [w r' Hq Hi|s b r' Hrd Hi|m d r' Hf Hs Hi|now w rest r' res Hc Hdel
                |w p' Hq Hi|b p' _ -> Hi|m d p' Hs Hi|now w rest p' res Hc Hdel].
  - eapply ordered_ghost; [by eapply (ordered_runner x r' (to_runner x) (MInputEnd, []));
      [|eapply quiet_unordering|left]|done..].
  - eapply ordered_ghost; [by eapply (ordered_runner x r' (to_runner x) (MInputEnd, []));
      [|eapply reads_unordering|left]|done..].
  - destruct (detached r') eqn:Hd.
    + destruct (sent_detached _ _ _ _ Hs Hd) as [o ->]. inv Hs.
      eapply ordered_ghost; [by eapply ordered_kept|done..|cbn; apply app_nil_r|done].
    + apply ordered_send; [done|done|]. by apply sent_announces.
  - by eapply deliver_runner_ordered.
  - eapply ordered_ghost; [by eapply ordered_peer_quiet|done..].
  - destruct Ho. by split.
  - apply ordered_psend; [done|]. by apply psent_announced.
  - destruct (peer_takes_head _ _ _ _ _ _ Hx Hc Hdel) as [receipt ->].
    eapply ordered_take; [done..|]. by eapply deliver_takes.
Qed.

Lemma start_execution_inv k l tr tp nr np :
  valid_limits l -> execution_inv (start k l tr tp nr np).
Proof.
  intros Hl. split; [by apply start_wired|..].
  - intros i. cbn. destruct i; cbn; lia.
  - unfold input_pool_ok. cbn. lia.
  - split; cbn; auto using none_nil; try done.
    + intros s _. split; [constructor|by destruct s].
    + intros s. by destruct s.
    + intros [?|H]; [done|]. by destruct (H (none_nil _)).
Qed.

Lemma reachable_execution_inv k l x : valid_limits l -> reachable k l x -> execution_inv x.
Proof.
  intros Hl. induction 1 as [|x y _ IH Hs]; [by apply start_execution_inv|].
  apply step_move in Hs; [|apply IH]. split.
  - eapply move_wired; [apply IH|done].
  - eapply move_pools; [apply IH|apply IH|done].
  - eapply move_input_pool; [apply IH|apply IH|done].
  - by eapply move_ordered.
Qed.

(** C2: In every execution, whatever the workload, the callers, the adapters and the clocks do,
    neither side ever finds a violation: the next message of either channel, delivered at any
    time, is accepted. So credit never overdraws or overflows a window, and starts, ends and
    terminal outcomes are never repeated, early or out of order. *)
Theorem execution_no_violation (k : Key) (l : Limits) (x : sys) (now : Z) :
  valid_limits l -> reachable k l x ->
  match to_peer x with
  | [] => True
  | w :: _ => exists receipt, (deliver_peer now (peer x) (Peer.key (peer x)) w).2 = Ok receipt
  end /\
  match to_runner x with
  | [] => True
  | w :: _ => exists receipt, (deliver_runner now (runner x) (key (runner x)) w).2 = Ok receipt
  end.
Proof.
  intros Hl Hr. pose proof (reachable_execution_inv _ _ _ Hl Hr) as Hx. split.
  - destruct (to_peer x) as [|w rest] eqn:Hc; [done|].
    destruct (deliver_peer _ _ _ _) as [p' res] eqn:Hd. cbn. by eapply peer_takes_head.
  - destruct (to_runner x) as [|w rest] eqn:Hc; [done|].
    destruct (deliver_runner _ _ _ _) as [r' res] eqn:Hd. cbn. by eapply runner_takes_head.
Qed.

Lemma execution_no_violation_witness :
  exists receipt,
    (deliver_peer 5 (peer (execute sample_opening)) sample_key
       (MOutput Stdout 4, bytes_of "hell")).2 = Ok receipt.
Proof.
  destruct (execution_no_violation sample_key sample_limits (execute sample_opening) 5) as [H _].
  - apply sample_limits_valid.
  - apply execute_reachable.
  - exact H.
Defined.
