(* ===== verification/ExecData.v ===== *)
(** * An execution carries its data faithfully

    For every interleaving of [Execution.v]'s system: what the peer's sink takes of a stream is a
    prefix of what the runner read of it, and all of it when the final outcome does not report the
    stream truncated; what the workload takes of the input is a prefix of what the caller gave,
    and all of it when the runner asks to close the input. *)

From S2P Require Import Prelude ExecTypes Credit Peer PeerFacts Runner RunnerFacts Execution ExecSafety.

(** ** Output *)

Definition carried (s : Stream) (w : rwire) : list byte :=
  match w with (MOutput s' _, d) => if decide (s' = s) then d else [] | _ => [] end.
Definition in_flight (s : Stream) (l : list rwire) : list byte := flat_map (carried s) l.

(** A terminal outcome that the runner sent and the peer has or will have. *)
Definition announced_by (x : sys) (o : Outcome) : Prop :=
  (exists d, (MTerminal o, d) ∈ to_peer x) \/ terminal_outcome (peer x) = Some o.

(** Bytes that the runner read and dropped, with nothing queued after them. *)
Definition lost_ok (o : Output) (announced : Outcome -> Prop) (s : Stream) (lost : list byte) : Prop :=
  lost = [] \/
  (o_truncated o = true /\ (o_closed o = true \/ o_discarding o = true) /\ o_queue o = []
   /\ forall out, announced out -> is_truncated out s = true).

(** The peer still counts on every message of the stream. *)
Definition counts (p : Peer) : Prop := ignores_runner p = false \/ terminal_outcome p <> None.

Definition arrived (x : sys) (s : Stream) : list byte :=
  idx (sunk x) s ++ inbox_bytes (n_inbox (idx (Peer.outputs (peer x)) s)).

Record stream_ok (x : sys) (s : Stream) : Prop := {
  so_prefix : arrived x s `prefix_of` idx (read x) s;
  so_exact : n_truncated (idx (Peer.outputs (peer x)) s) = false -> counts (peer x) ->
    exists lost,
      idx (read x) s = arrived x s ++ in_flight s (to_peer x) ++ o_queue (idx (outputs (runner x)) s) ++ lost
      /\ lost_ok (idx (outputs (runner x)) s) (announced_by x) s lost;
}.

(** Once an outcome is announced, the runner has nothing left to read or to send. *)
Lemma announced_ended x o s :
  execution_inv x -> announced_by x o ->
  o_ended (idx (outputs (runner x)) s) = true /\ o_closed (idx (outputs (runner x)) s) = true
  /\ o_queue (idx (outputs (runner x)) s) = [].
Proof.
  intros Hx Ha. pose proof Hx as [[[Hr Hp _ _] _ _] _ _ Ho].
  assert (He : o_ended (idx (outputs (runner x)) s) = true).
  { destruct Ha as [[d Hin]|Ht].
    - apply (or_ends _ Ho). intros Hn. unfold none in Hn. rewrite Forall_forall in Hn.
      by specialize (Hn _ Hin).
    - destruct (o_ended _) eqn:E; [done|]. destruct (or_unsent _ Ho _ E) as [_ Hn].
      rewrite (PeerFacts.inv_terminal _ Hp) in Hn; [done|]. by rewrite Ht. }
  split; [done|]. by apply (ok_ended _ _ (inv_outputs _ Hr s)).
Qed.

(** A stream of the runner changes quietly: its queue may be dropped, which is then reported. *)
Lemma quiet_stream x y s :
  execution_inv x -> stream_ok x s ->
  output_quiet (idx (outputs (runner x)) s) (idx (outputs (runner y)) s) ->
  peer y = peer x -> to_peer y = to_peer x -> read y = read x -> sunk y = sunk x -> stream_ok y s.
Proof.
  intros Hx [Hpre Hex] [_ Ht Hst _ Hq] Hp Hc Hrd Hs. unfold arrived in *.
  split; unfold arrived; rewrite Hp, Hrd, Hs; [done|]. intros Hn Hcnt.
  rewrite Hc. destruct (Hex Hn Hcnt) as (lost & Hr & Hlost).
  assert (Hann : forall o, announced_by y o -> announced_by x o) by (unfold announced_by; by rewrite Hp, Hc).
  destruct Hq as [Hq|(Hq & Hd & Hs')].
  - exists lost. rewrite Hq. split; [done|]. destruct Hlost as [|(? & ? & ? & ?)]; [by left|right].
    rewrite Hq. auto 6.
  - exists (o_queue (idx (outputs (runner x)) s) ++ lost). rewrite Hq. split; [done|].
    destruct (o_queue (idx (outputs (runner x)) s)) as [|b q] eqn:E.
    + destruct Hlost as [-> |(? & ? & ? & ?)]; [by left|right]. auto 6.
    + right. destruct Hd as [?|?]; [done|]. split_and!; try done. intros o Ho.
      destruct (announced_ended x o s Hx (Hann o Ho)) as (_ & _ & Hnil). congruence.
Qed.

Lemma idx_read x s b s' :
  idx (alter2 s (fun l => l ++ b) (read x)) s' = idx (read x) s' ++ (if decide (s = s') then b else []).
Proof. rewrite idx_alter2. case_decide; [done|by rewrite app_nil_r]. Qed.

Lemma read_stream x s0 b r' s :
  execution_inv x -> stream_ok x s -> reads (runner x) s0 b r' ->
  stream_ok (x <| runner := r' |> <| read := alter2 s0 (fun l => l ++ b) (read x) |>) s.
Proof.
  intros Hx [Hpre Hex] Hrd. pose proof Hx as [[[Hr _ _ _] _ _] _ _ _].
  split; unfold arrived in *; cbn [runner peer to_peer read sunk update]; rewrite idx_read.
  { by apply prefix_app_r. }
  intros Hn Hcnt. destruct (Hex Hn Hcnt) as (lost & Hl & Hlost).
  change (announced_by _) with (announced_by x).
  destruct (decide (s0 = s)) as [<-|Hne].
  - destruct Hrd as [(Hc & -> & ->)|[(Hc & Hd & ->)|(Hc & Hd & ->)]].
    + exists lost. rewrite app_nil_r. done.
    + exists (lost ++ b). cbn. rewrite idx_alter2, decide_True by done. cbn.
      rewrite Hl, <- !app_assoc. split; [done|].
      pose proof (ok_discarding _ _ (inv_outputs _ Hr s0) Hd) as Hq.
      destruct b as [|b0 b]; [rewrite app_nil_r; cbn|].
      * destruct Hlost as [|(? & ? & ? & ?)]; [by left|right]. cbn. rewrite orb_false_r. auto.
      * right. cbn. rewrite orb_true_r. split_and!; auto. intros o Ho.
        destruct (announced_ended x o s0 Hx Ho) as (_ & Hcl & _). congruence.
    + destruct Hlost as [-> |(_ & [|] & _)]; [|congruence..].
      exists []. cbn. rewrite idx_alter2, decide_True by done. cbn.
      rewrite Hl, !app_nil_r, <- !app_assoc. split; [done|by left].
  - exists lost. rewrite app_nil_r. replace (idx (outputs r') s) with (idx (outputs (runner x)) s); [done|].
    destruct Hrd as [(_ & _ & ->)|[(_ & _ & ->)|(_ & _ & ->)]]; cbn; try rewrite idx_alter2;
      by try rewrite decide_False.
Qed.

Lemma in_flight_app s k l : in_flight s (k ++ l) = in_flight s k ++ in_flight s l.
Proof. apply flat_map_app. Qed.

(** Sending moves the data from the queue to the channel, and an outcome reports what was lost. *)
Lemma sent_stream_fields r m d r' s :
  sent r m d r' ->
  let o := idx (outputs r) s in let o' := idx (outputs r') s in
  o_queue o = carried s (m, d) ++ o_queue o' /\ o_truncated o' = o_truncated o
  /\ o_closed o' = o_closed o /\ o_discarding o' = o_discarding o.
Proof.
  intros H. destruct H; match goal with H : same _ _ |- _ => rewrite H end; cbn; try done.
  - rewrite idx_alter2. by case_decide.
  - rewrite idx_alter2. case_decide; [subst; cbn|]; auto.
Qed.

Lemma fold_truncated (f : Stream -> bool) (o : Outcome) s :
  is_truncated (fold_left (fun acc stream => if f stream then with_truncated acc stream else acc) ALL o) s
  = f s || is_truncated o s.
Proof.
  unfold ALL, is_truncated. cbn. destruct (f Stdout) eqn:E1, (f Stderr) eqn:E2;
    cbn; destruct s; rewrite ?E1, ?E2; cbn; try done;
    destruct (outcome_truncated o); cbn; done.
Qed.

Lemma outcome_truncated_exact r o s :
  Runner.outcome r = Some o -> is_truncated o s = o_truncated (idx (outputs r) s).
Proof.
  unfold Runner.outcome. intros H. destruct (_ || _ || _ || _); [done|].
  set (b := match cause r with Some _ => _ | None => _ end) in H.
  set (c := match launch r with Some _ => _ | None => _ end) in H.
  assert (Hc : is_truncated c s = false).
  { subst c b. destruct (launch r) as [[]|], (cause r); by destruct s. }
  rewrite <- (orb_false_r (o_truncated _)), <- Hc, <- (fold_truncated (fun s => o_truncated (idx (outputs r) s)) c s).
  destruct (is_settled _); by inv H.
Qed.

Lemma sent_stream x m d r' s :
  stream_ok x s -> sent (runner x) m d r' ->
  stream_ok (x <| runner := r' |>
               <| to_peer := to_peer x ++ (if detached r' then [] else [(m, d)]) |>) s.
Proof.
  intros [Hpre Hex] Hs. split; unfold arrived in *; cbn [runner peer to_peer read sunk update]; [done|].
  intros Hn Hcnt. destruct (Hex Hn Hcnt) as (lost & Hl & Hlost). exists lost.
  destruct (sent_stream_fields _ _ _ _ s Hs) as (Hq & Ht & Hcl & Hdi).
  rewrite in_flight_app. split.
  - rewrite Hl, Hq. destruct (detached r') eqn:Hd; [|cbn; by rewrite app_nil_r, <- !app_assoc].
    destruct (sent_detached _ _ _ _ Hs Hd) as [o ->]. cbn. by rewrite app_nil_r.
  - destruct Hlost as [|(H1 & H2 & H3 & H4)]; [by left|right]. rewrite Hq in H3.
    apply app_eq_nil in H3 as [_ H3]. rewrite Ht, Hcl, Hdi. split_and!; try done.
    intros o [[d' Hin]|Ho]; [|apply H4; by right].
    apply elem_of_app in Hin as [Hin|Hin]; [apply H4; left; by eexists|].
    destruct (detached r'); [by apply elem_of_nil in Hin|]. apply list_elem_of_singleton in Hin as [= <- <-].
    inv Hs. rewrite (outcome_truncated_exact (runner x) o s) by done. done.
Qed.

(** *** The peer's side *)

Lemma counts_mono w p p' : peer_quiet w p p' -> counts p' -> counts p.
Proof.
  intros Hq [H|H]; [left|right; by rewrite <- (pq_terminal _ _ _ Hq)].
  destruct (ignores_runner p) eqn:E; [|done]. by rewrite (pq_ignores _ _ _ Hq E) in H.
Qed.

Lemma peer_quiet_stream x w p' s :
  stream_ok x s -> peer_quiet w (peer x) p' ->
  stream_ok (x <| peer := p' |>
               <| sunk := mkArray2 (at0 (sunk x) ++ w Stdout) (at1 (sunk x) ++ w Stderr) |>) s.
Proof.
  intros [Hpre Hex] Hq. pose proof (pq_outputs _ _ _ Hq s) as [_ Ht _ Hb].
  assert (Hs : idx (mkArray2 (at0 (sunk x) ++ w Stdout) (at1 (sunk x) ++ w Stderr)) s
               = idx (sunk x) s ++ w s) by (by destruct s).
  split; unfold arrived in *; cbn [runner peer to_peer read sunk update]; rewrite Hs.
  - destruct Hb as [Hb|(Hw & Hb & _)].
    + rewrite <- app_assoc, <- Hb. done.
    + rewrite Hw, Hb, !app_nil_r. etrans; [|exact Hpre]. by apply prefix_app_r.
  - intros Hn Hcnt. destruct Hex as (lost & Hl & Hlost); [|by eapply counts_mono|].
    { destruct (n_truncated (idx (Peer.outputs (peer x)) s)); [by rewrite Ht in Hn|done]. }
    exists lost. split.
    + rewrite Hl. destruct Hb as [-> |(-> & -> & _ & [-> |Hb])]; [by rewrite <- !app_assoc| |congruence].
      by rewrite !app_nil_r.
    + destruct Hlost as [|(? & ? & ? & Ha)]; [by left|right]. split_and!; try done.
      intros o Ho. apply Ha. destruct Ho as [|Ho]; [by left|right].
      cbn in Ho. by rewrite (pq_terminal _ _ _ Hq) in Ho.
Qed.

(** What taking a message's data [d] may do to a stream that the peer counts on. *)
Definition flows (d : list byte) (i i' : Incoming) : Prop :=
  (d = [] /\ incoming_quiet [] (i <| n_ended := n_ended i' |>) i') \/
  (n_truncated i' = true /\ n_inbox i' = n_inbox i) \/
  (n_truncated i = false /\ n_truncated i' = false
   /\ inbox_bytes (n_inbox i') = inbox_bytes (n_inbox i) ++ d).

Lemma flows_refl i : flows [] i i.
Proof. left. split; [done|]. split; auto. Qed.

Lemma flows_quiet i i' : incoming_quiet [] i i' -> flows [] i i'.
Proof. intros [He Ht Hd Hb]. left. split; [done|]. by split. Qed.

Lemma deliver_not_stale now p w p' :
  deliver_peer now p (Peer.key p) w = (p', Ok Stale) -> False.
Proof.
  destruct w as [[u| |s n|s| |o] d]; cbn; unfold Peer.credit, started, Peer.output, end_output,
    Peer.input_closed, terminal; rewrite admits_same; intros H; repeat case_match; simplify_eq.
Qed.

(** A message that is taken without a violation: it is ignored, or its data flows on. *)
Lemma deliver_flows now p w p' receipt :
  peer_inv p -> deliver_peer now p (Peer.key p) w = (p', Ok receipt) ->
  (ignores_runner p' = true /\ pkeeps p p') \/
  (ignores_runner p = false
   /\ (forall s, flows (carried s w) (idx (Peer.outputs p) s) (idx (Peer.outputs p') s))
   /\ (forall o, terminal_outcome p' = Some o ->
         terminal_outcome p = Some o \/ exists d, w = (MTerminal o, d))).
Proof.
  intros Hi H. assert (Hns : receipt = Stale -> False)
    by (intros ->; by eapply deliver_not_stale).
  destruct w as [[u| |s n|s| |o] d]; cbn [deliver_peer carried] in *.
  - destruct (ignores_runner p) eqn:E.
    { apply peer_credit_cases in H as [[-> H]|(? & _)]; [left|congruence]. auto using pkeeps_refl. }
    right. split; [done|]. apply peer_credit_cases in H as [[-> _]|(_ & _ & _ & _ & ->)];
      (split; [intros; apply flows_refl|cbn; auto]).
  - unfold started in H. rewrite admits_same in H.
    destruct (ignores_runner p) eqn:E; [inv H; left; auto using pkeeps_refl|right].
    destruct (_ || _); inv H. split; [done|]. split; [intros; apply flows_refl|cbn; auto].
  - destruct (ignores_runner p) eqn:E.
    { apply peer_output_cases in H as [[-> H]|(? & _)]; [left|congruence]. auto using pkeeps_refl. }
    right. split; [done|]. apply peer_output_cases in H as [[-> H]|(_ & _ & _ & _ & H)].
    { destruct H as [H|[[H ?]|[v H]]]; congruence. }
    destruct (n_discarding _) eqn:Hd; destruct H as [_ ->]; (split; [|cbn; auto]); intros s';
      cbn; rewrite idx_alter2; (destruct (decide (s = s')) as [<-|]; [|by apply flows_refl]).
    + right. left. done.
    + right. right. cbn. rewrite inbox_push_bytes.
      assert (Ht : n_truncated (idx (Peer.outputs p) s) = false); [|by auto].
      destruct (n_truncated _) eqn:Et; [|done].
      by rewrite (ok_truncated _ _ (PeerFacts.inv_outputs _ Hi s) Et) in Hd.
  - unfold end_output in H. rewrite admits_same in H.
    destruct (ignores_runner p) eqn:E; [inv H; left; auto using pkeeps_refl|right].
    destruct (n_ended _); inv H. split; [done|]. split; [|cbn; auto]. intros s'.
    cbn. rewrite idx_alter2. case_decide; [subst|apply flows_refl]. left. split; [done|]. by split; auto.
  - destruct (ignores_runner p) eqn:E.
    { unfold Peer.input_closed in H. rewrite admits_same, E in H. inv H. left. auto using pkeeps_refl. }
    right. split; [done|]. apply pkeeps_input_closed in H as [[_ Hq] _]; [|done].
    split; [intros s; apply flows_quiet, Hq|]. rewrite (pq_terminal _ _ _ Hq). auto.
  - pose proof (pkeeps_tick p now Hi) as Ht. apply terminal_cases in H; [|done].
    destruct H as [[-> [H|H]]|[_ [[-> [[_ H]|[[? _]|[? _]]]]|(_ & Hig & _ & _ & [_ H])]]]; try done.
    + congruence.
    + by left.
    + right. destruct Ht as [_ Ht]. split; [|split].
      * destruct (ignores_runner p) eqn:E; [|done]. by rewrite (pq_ignores _ _ _ Ht E) in Hig.
      * intros s. apply flows_quiet. eapply incoming_quiet_trans; [apply (pq_outputs _ _ _ Ht)|].
        apply (pq_outputs _ _ _ H).
      * intros o' Ho. rewrite (pq_terminal _ _ _ H) in Ho. cbn in Ho. inv Ho. right. by eexists.
Qed.

Lemma taken_stream x now w rest p' res s :
  execution_inv x -> stream_ok x s -> to_peer x = w :: rest ->
  deliver_peer now (peer x) (Peer.key (peer x)) w = (p', res) ->
  stream_ok (x <| peer := p' |> <| to_peer := rest |>) s.
Proof.
  intros Hx Hst Hc Hdel. destruct (peer_takes_head _ _ _ _ _ _ Hx Hc Hdel) as [receipt ->].
  pose proof Hx as [[[_ Hp _ _] _ _] _ _ Hord].
  assert (Hnt : terminal_outcome (peer x) = None).
  { destruct (terminal_outcome _) eqn:E; [|done]. pose proof (or_after _ Hord) as Ha.
    rewrite E, Hc in Ha. by discriminate Ha. }
  destruct (deliver_flows _ _ _ _ _ Hp Hdel) as [[Hig [_ Hq]]|(Hig & Hf & Hte)].
  - pose proof (peer_quiet_stream _ _ _ _ Hst Hq) as [Hpre _]. split.
    + unfold arrived in *. cbn in *. destruct s; cbn in *; by rewrite app_nil_r in Hpre.
    + cbn. intros _ [H|H]; [congruence|]. by rewrite (pq_terminal _ _ _ Hq) in H.
  - destruct Hst as [Hpre Hex]. specialize (Hf s). unfold arrived in *.
    assert (Hann : forall o, announced_by (x <| peer := p' |> <| to_peer := rest |>) o -> announced_by x o).
    { unfold announced_by. rewrite Hc. cbn. intros o [[d Hin]|Ho].
      - left. exists d. by right.
      - destruct (Hte o Ho) as [?|[d ->]]; [by right|left]. exists d. by left. }
    assert (Hlost : forall lost, lost_ok (idx (outputs (runner x)) s) (announced_by x) s lost ->
              lost_ok (idx (outputs (runner x)) s)
                (announced_by (x <| peer := p' |> <| to_peer := rest |>)) s lost).
    { intros lost [|(? & ? & ? & ?)]; [by left|right; auto 6]. }
    rewrite Hc in Hex. cbn [in_flight flat_map] in Hex.
    split; unfold arrived; cbn [runner peer to_peer read sunk update].
    + destruct Hf as [[Hd [_ _ _ Hb]]|[[_ ->]|(Ht & _ & ->)]]; [| done|].
      * destruct Hb as [Hb|(_ & -> & _)]; [cbn in Hb; by rewrite <- Hb|].
        rewrite app_nil_r. etrans; [|exact Hpre]. by apply prefix_app_r.
      * destruct (Hex Ht (or_introl Hig)) as (lost & -> & _). rewrite <- !app_assoc.
        rewrite !(app_assoc (idx (sunk x) s)). rewrite app_assoc. by apply prefix_app_r.
    + intros Hn _. destruct Hf as [[Hd [_ Htr _ Hb]]|[[? _]|(Ht & _ & ->)]]; [|congruence|].
      * destruct Hex as (lost & Hl & Hlo); [|by left|].
        { cbn in Htr. destruct (n_truncated (idx (Peer.outputs (peer x)) s)); [by rewrite Htr in Hn|done]. }
        exists lost. split; [|auto]. rewrite Hl, Hd. cbn in Hb.
        destruct Hb as [<-|(_ & -> & _ & [-> |?])]; [done|done|congruence].
      * destruct (Hex Ht (or_introl Hig)) as (lost & Hl & Hlo). exists lost. split; [|auto].
        rewrite Hl. by rewrite <- !app_assoc.
Qed.

Lemma deliver_runner_outputs now r w r' res s :
  runner_inv r -> deliver_runner now r (key r) w = (r', res) ->
  output_quiet (idx (outputs r) s) (idx (outputs r') s).
Proof.
  intros Hi. destruct w as [[c|pool u|n|] d]; cbn; intros H.
  - apply (keeps_cancel _ _ _ _ _ _ Hi) in H as [_ []]. auto.
  - apply runner_credit_cases in H as [[-> _]|(_ & _ & j & _ & _ & _ & ->)]; apply output_quiet_refl.
  - apply input_cases in H as [[-> _]|(_ & _ & _ & _ & H)]; [apply output_quiet_refl|].
    destruct (i_closed (input_state r)); destruct H as [_ ->]; apply output_quiet_refl.
  - apply end_input_cases in H as [[-> _]|(_ & _ & _ & ->)]; [apply output_quiet_refl|].
    unfold close_input_when_taken. destruct (_ && _); apply output_quiet_refl.
Qed.

Lemma stream_ghost x y s :
  stream_ok x s -> outputs (runner y) = outputs (runner x) ->
  Peer.outputs (peer y) = Peer.outputs (peer x) -> (counts (peer y) -> counts (peer x)) ->
  terminal_outcome (peer y) = terminal_outcome (peer x) ->
  to_peer y = to_peer x -> read y = read x -> sunk y = sunk x -> stream_ok y s.
Proof.
  intros [Hp He] Hr Ho Hc Ht H1 H2 H3. unfold arrived in *.
  split; unfold arrived, lost_ok, announced_by in *; rewrite ?Hr, ?Ho, ?Ht, ?H1, ?H2, ?H3; auto.
Qed.

Lemma move_stream x y s : execution_inv x -> stream_ok x s -> move x y -> stream_ok y s.
Proof.
  intros Hx Hs H. pose proof Hx as [[[Hr Hp Hk Hl] _ _] _ _ _].
  destruct H as [w r' Hq Hi|s0 b r' Hrd Hi|m d r' Hf Hse Hi|now w rest r' res Hc Hdel
                |w p' Hq Hi|b p' _ -> Hi|m d p' Hse Hi|now w rest p' res Hc Hdel].
  - eapply quiet_stream; [done..| |done|done|done|done]. apply (rq_outputs _ _ _ Hq).
  - by apply read_stream.
  - by apply sent_stream.
  - eapply quiet_stream; [done..| |done|done|done|done]. by eapply deliver_runner_outputs.
  - by apply peer_quiet_stream.
  - by eapply stream_ghost.
  - eapply stream_ghost; [done..| | | |done|done|done]; cbn;
      destruct Hse; match goal with H : psame _ _ |- _ => rewrite H end; done.
  - by eapply taken_stream.
Qed.

(** ** Input *)

Definition carried_input (w : pwire) : list byte := match w with (Peer.MInput _, d) => d | _ => [] end.
Definition input_in_flight (l : list pwire) : list byte := flat_map carried_input l.

(** The runner will take every input message that is in flight, or none is. *)
Definition input_counts (r : Runner) : Prop :=
  i_closed (input_state r) = false /\ (finished r = false \/ i_peer_ended (input_state r) = true).

(** Input that the peer has not sent: its queue, unless it closed before the end. *)
Definition unsent_ok (g : Outgoing) (rest : list byte) : Prop :=
  rest = g_queue g \/ (g_closed g = true /\ g_end_sent g = false).

Definition accepted (x : sys) : list byte := taken x ++ inbox_bytes (i_inbox (input_state (runner x))).

Record input_flow (x : sys) : Prop := {
  if_prefix : accepted x `prefix_of` given x;
  if_exact : input_counts (runner x) ->
    exists rest, given x = accepted x ++ input_in_flight (to_runner x) ++ rest
                 /\ unsent_ok (Peer.input_state (peer x)) rest;
  if_done : i_close_requested (input_state (runner x)) = true ->
    taken x = given x /\ g_end_sent (Peer.input_state (peer x)) = true;
}.

Lemma none_input_in_flight l : none of_input l -> input_in_flight l = [].
Proof.
  induction l as [|[[] d] l IH]; [done|..]; intros [H Hl]%none_cons; try done; exact (IH Hl).
Qed.

(** The end of the input reached the runner: the caller's input is all behind it. *)
Lemma ended_all x :
  execution_inv x -> input_flow x -> i_closed (input_state (runner x)) = false ->
  none of_input (to_runner x) -> g_end_sent (Peer.input_state (peer x)) = true ->
  (finished (runner x) = false \/ i_peer_ended (input_state (runner x)) = true) ->
  given x = accepted x.
Proof.
  intros Hx [_ He _] Hc Hn Hs Hf. destruct (He (conj Hc Hf)) as (rest & Hg & Hu).
  rewrite (none_input_in_flight _ Hn) in Hg. pose proof Hx as [[[_ Hp _ _] _ _] _ _ _].
  destruct (ok_end_sent _ _ (PeerFacts.inv_input _ Hp) Hs) as [_ Hq].
  destruct Hu as [-> |[_ Hu]]; [|congruence]. rewrite Hg, Hq. by rewrite !app_nil_r.
Qed.

Lemma peer_ended_sent x :
  ordered x -> i_peer_ended (input_state (runner x)) = true ->
  g_end_sent (Peer.input_state (peer x)) = true.
Proof.
  intros Ho H. destruct (g_end_sent _) eqn:E; [done|]. destruct (or_in_unsent _ Ho E). congruence.
Qed.

(** The runner's input changes quietly, and the channel may lose a message without data. *)
Lemma quiet_input x y w :
  execution_inv x -> input_flow x -> input_quiet w (input_state (runner x)) (input_state (runner y)) ->
  (finished (runner y) = false -> finished (runner x) = false) ->
  peer y = peer x -> given y = given x -> taken y = taken x ++ w ->
  input_in_flight (to_runner y) = input_in_flight (to_runner x) -> input_flow y.
Proof.
  intros Hx Hfl [_ Hpe Hcl Hb Hrq] Hf Hp Hg Ht Hc. pose proof Hfl as [Hpre Hex Hdone].
  pose proof Hx as [[[Hr _ _ _] _ _] _ _ Ho]. pose proof (inv_input _ Hr) as [_ _ _ Hok Hreq _].
  assert (Hacc : i_closed (input_state (runner y)) = false -> accepted y = accepted x).
  { intros E. unfold accepted. rewrite Ht. destruct Hb as [-> |(_ & _ & ?)]; [|congruence].
    by rewrite <- app_assoc. }
  split; rewrite ?Hp, ?Hg, ?Hc.
  - unfold accepted in *. rewrite Ht. destruct Hb as [Hb|(-> & -> & _)].
    + rewrite <- app_assoc, <- Hb. done.
    + rewrite !app_nil_r. etrans; [|exact Hpre]. by apply prefix_app_r.
  - intros [E1 E2]. rewrite Hacc by done. apply Hex. split.
    + destruct (i_closed (input_state (runner x))); [by rewrite Hcl in E1|done].
    + rewrite Hpe in E2. destruct E2; auto.
  - intros H. rewrite Ht. destruct (Hrq H) as [H'|(H1 & H2 & H3)].
    + destruct (Hdone H') as [Hd ?]. split; [|done]. rewrite (Hok (Hreq H')) in Hb.
      destruct Hb as [Hb|[-> _]]; [symmetry in Hb; apply app_eq_nil in Hb as [-> _]|]; by rewrite app_nil_r.
    + pose proof (peer_ended_sent _ Ho H1). split; [|done].
      rewrite (ended_all x) by (auto; by apply (or_in_got _ Ho)). unfold accepted. by rewrite H3.
Qed.

(** The peer's input changes without being sent: its queue may be dropped, closing it. *)
Record outgoing_quiet (g g' : Outgoing) : Prop := {
  og_queue : g_queue g' = g_queue g \/ (g_queue g' = [] /\ g_closed g' = true);
  og_closed : g_closed g = true -> g_closed g' = true;
  og_end_sent : g_end_sent g' = g_end_sent g;
}.

Lemma outgoing_quiet_refl g : outgoing_quiet g g.
Proof. split; auto. Qed.

Lemma peer_quiet_outgoing w p p' :
  peer_quiet w p p' -> outgoing_quiet (Peer.input_state p) (Peer.input_state p').
Proof. intros []. by split. Qed.

Lemma deliver_outgoing now p w p' res :
  peer_inv p -> deliver_peer now p (Peer.key p) w = (p', res) ->
  outgoing_quiet (Peer.input_state p) (Peer.input_state p').
Proof.
  intros Hi. destruct w as [[u| |s n|s| |o] d]; cbn; intros H.
  - apply peer_credit_cases in H as [[-> _]|(_ & _ & _ & _ & ->)]; by split; auto.
  - apply started_cases in H as [[-> _]|(_ & _ & _ & _ & ->)]; by split; auto.
  - apply peer_output_cases in H as [[-> _]|(_ & _ & _ & _ & H)]; [by split; auto|].
    destruct (n_discarding _); destruct H as [_ ->]; by split; auto.
  - apply end_output_cases in H as [[-> _]|(_ & _ & _ & ->)]; by split; auto.
  - apply pkeeps_input_closed in H as [[_ Hq] _]; [|done]. by eapply peer_quiet_outgoing.
  - pose proof (pkeeps_tick p now Hi) as [_ Ht].
    apply terminal_cases in H; [|done]. destruct H as [[-> _]|[_ [[-> _]|(_ & _ & _ & _ & [_ H])]]].
    + by split; auto.
    + by eapply peer_quiet_outgoing.
    + apply peer_quiet_outgoing in Ht as [Q1 C1 E1], H as [Q2 C2 E2]. cbn in *.
      split; [|auto|congruence]. destruct Q2 as [-> |]; [|by right]. destruct Q1 as [-> |[]]; auto.
Qed.

Lemma outgoing_flow x y :
  execution_inv x -> input_flow x -> runner y = runner x -> to_runner y = to_runner x ->
  given y = given x -> taken y = taken x ->
  outgoing_quiet (Peer.input_state (peer x)) (Peer.input_state (peer y)) -> input_flow y.
Proof.
  intros Hx [Hpre Hex Hdone] Hr Hc Hg Ht [Q C E]. unfold accepted in *.
  pose proof Hx as [[[_ Hp _ _] _ _] _ _ _].
  split; unfold accepted; rewrite ?Hr, ?Hc, ?Hg, ?Ht, ?E; try done.
  intros Hcnt. destruct (Hex Hcnt) as (rest & Hgi & Hu). exists rest. split; [done|].
  unfold unsent_ok in *. rewrite E. destruct Hu as [-> |[? ?]]; [|auto].
  destruct Q as [-> |[-> ?]]; [by left|].
  destruct (g_end_sent (Peer.input_state (peer x))) eqn:Es; [left|by right].
  by destruct (ok_end_sent _ _ (PeerFacts.inv_input _ Hp) Es).
Qed.

Lemma sent_input r m d r' :
  sent r m d r' -> input_quiet [] (input_state r) ((input_state r') <| i_window := i_window (input_state r) |>)
  /\ (finished r' = false -> finished r = false).
Proof.
  intros H. destruct H; match goal with H : same _ _ |- _ => rewrite H end; cbn;
    (split; [split; cbn; auto|done]).
Qed.

(** Only the bytes and the flags of the runner's input matter. *)
Lemma input_flow_window x y g :
  input_flow y -> runner y = set_input (runner x) (fun i => i <| i_window := g |>) ->
  peer y = peer x -> to_runner y = to_runner x -> given y = given x -> taken y = taken x -> input_flow x.
Proof.
  intros [Hp He Hd] Hr H1 H2 H3 H4. unfold accepted, input_counts in *.
  rewrite Hr, H1, H2, H3, H4 in *. by split.
Qed.

Lemma sent_input_flow x m d r' tail :
  execution_inv x -> input_flow x -> sent (runner x) m d r' ->
  input_flow (x <| runner := r' |> <| to_peer := tail |>).
Proof.
  intros Hx Hf Hs. destruct (sent_input _ _ _ _ Hs) as [Hq Hfin].
  eapply (input_flow_window _ (x <| runner := set_input r' (fun i =>
    i <| i_window := i_window (input_state (runner x)) |>) |> <| to_peer := tail |>)); [|done..].
  eapply (quiet_input x _ []); try done. cbn. by rewrite app_nil_r.
Qed.

Lemma psent_flow x m d p' :
  input_flow x -> psent (peer x) m d p' ->
  input_flow (x <| peer := p' |> <| to_runner := to_runner x ++ [(m, d)] |>).
Proof.
  intros [Hpre Hex Hdone] Hs.
  destruct Hs as [c p' _ H|pool i u p' _ _ _ H|d q p' Hc Hq Hl _ H|p' Hc He Hq Hes H]; rewrite H;
    (split; unfold accepted, input_in_flight, unsent_ok in *;
     cbn [runner peer to_runner given taken update]; [done| |try done]);
    rewrite ?flat_map_app; cbn; rewrite ?app_nil_r; try done.
  - intros Hcnt. destruct (Hex Hcnt) as (rest & Hg & [-> |[? ?]]); [|congruence].
    exists q. split; [|by left]. rewrite Hg, Hq. by rewrite <- !app_assoc.
  - intros Hcnt. destruct (Hex Hcnt) as (rest & Hg & [-> |[? ?]]); [|congruence].
    exists []. rewrite Hq in *. split; [done|by left].
  - intros Hr. by destruct (Hdone Hr).
Qed.

Lemma given_flow x b p' :
  execution_inv x -> input_flow x ->
  (b = [] \/ (g_closed (Peer.input_state (peer x)) = false
              /\ g_ended (Peer.input_state (peer x)) = false)) ->
  p' = Peer.note_buffered (Peer.set_input (peer x) (fun g => g <| g_queue := g_queue g ++ b |>)) ->
  input_flow (x <| peer := p' |> <| given := given x ++ b |>).
Proof.
  intros Hx [Hpre Hex Hdone] Hb ->. pose proof Hx as [[[_ Hp _ _] _ _] _ _ _].
  split; unfold accepted, unsent_ok in *; cbn.
  - by apply prefix_app_r.
  - intros Hcnt. destruct (Hex Hcnt) as (rest & Hg & Hu). exists (rest ++ b).
    rewrite Hg, <- !app_assoc. split; [done|]. destruct Hu as [-> |[? ?]]; [by left|].
    destruct Hb as [-> |[? _]]; [right; done|congruence].
  - intros Hr. destruct (Hdone Hr) as [-> Hes]. split; [|done].
    destruct (ok_end_sent _ _ (PeerFacts.inv_input _ Hp) Hes).
    destruct Hb as [-> |[_ ?]]; [by rewrite app_nil_r|congruence].
Qed.

Lemma end_input_flow x d rest :
  execution_inv x -> input_flow x -> to_runner x = (Peer.MInputEnd, d) :: rest ->
  finished (runner x) = false ->
  input_flow (x <| runner := close_input_when_taken
                   (set_input (runner x) (fun i => i <| i_peer_ended := true |>)) |>
                <| to_runner := rest |>).
Proof.
  intros Hx Hfl Hc Hf. pose proof Hfl as [Hpre Hex Hdone]. pose proof Hx as [_ _ _ Ho].
  assert (Hs : g_end_sent (Peer.input_state (peer x)) = true).
  { destruct (g_end_sent _) eqn:E; [done|]. destruct (or_in_unsent _ Ho E) as [Hn _].
    rewrite Hc in Hn. by apply none_cons in Hn as [? _]. }
  pose proof (or_in_seal _ Ho) as Hseal. rewrite Hc in Hseal, Hex. destruct Hseal as [Hseal _].
  specialize (Hseal eq_refl). cbn [input_in_flight flat_map carried_input] in Hex.
  unfold close_input_when_taken. destruct (_ && _) eqn:E; cbn in E.
  - apply andb_true_iff in E as [E1 E2]. apply negb_true_iff in E1.
    unfold inbox_is_empty in E2. apply bool_decide_eq_true in E2.
    assert (Hg : given x = taken x).
    { destruct (Hex (conj E1 (or_introl Hf))) as (r & Hg & Hu). rewrite Hg.
      change (flat_map carried_input rest) with (input_in_flight rest).
      rewrite (none_input_in_flight _ Hseal). pose proof Hx as [[[_ Hp _ _] _ _] _ _ _].
      destruct (ok_end_sent _ _ (PeerFacts.inv_input _ Hp) Hs) as [_ Hq].
      unfold accepted. rewrite E2. destruct Hu as [-> |[_ ?]]; [|congruence].
      rewrite Hq. by rewrite !app_nil_r. }
    split; cbn; auto. by intros [? _].
  - split; cbn; try done. intros [H1 _]. apply Hex. by split; [|left].
Qed.

Lemma deliver_runner_flow x now w rest r' res :
  execution_inv x -> input_flow x -> to_runner x = w :: rest ->
  deliver_runner now (runner x) (key (runner x)) w = (r', res) ->
  input_flow (x <| runner := r' |> <| to_runner := rest |>).
Proof.
  intros Hx Hfl Hc Hdel. destruct (runner_takes_head _ _ _ _ _ _ Hx Hc Hdel) as [receipt ->].
  pose proof Hx as [[[Hr _ _ _] _ _] _ _ Ho].
  assert (Hquiet : forall r', input_quiet [] (input_state (runner x)) (input_state r') ->
    finished r' = finished (runner x) -> carried_input w = [] ->
    input_flow (x <| runner := r' |> <| to_runner := rest |>)).
  { intros r1 Hq Hf Hw. eapply (quiet_input x _ []); try done; cbn; rewrite ?Hf, ?app_nil_r; auto.
    rewrite Hc. cbn. by rewrite Hw. }
  assert (Hin : of_input w = true -> i_peer_ended (input_state (runner x)) = false).
  { intros Hw. destruct (i_peer_ended _) eqn:E; [|done]. apply (or_in_got _ Ho) in E. rewrite Hc in E.
    apply none_cons in E as [? _]. congruence. }
  destruct w as [[c|pool u|n|] d]; cbn in Hdel, Hin, Hquiet.
  - apply (keeps_cancel _ _ _ _ _ _ Hr) in Hdel as [_ []]. auto.
  - apply runner_credit_cases in Hdel as [[-> _]|(_ & _ & j & _ & _ & _ & ->)];
      apply Hquiet; auto using input_quiet_refl.
  - specialize (Hin eq_refl). destruct Hfl as [Hpre Hex Hdone]. rewrite Hc in Hex.
    cbn [input_in_flight flat_map carried_input] in Hex. unfold accepted, input_counts in *.
    unfold input in Hdel. rewrite admits_same in Hdel.
    destruct (finished (runner x)) eqn:Hf.
    { inv Hdel. split; unfold accepted, input_counts; cbn; rewrite ?Hf; try done.
      intros [_ [?|?]]; [done|congruence]. }
    rewrite Hin in Hdel. repeat case_match; simplify_eq/=; split; unfold accepted, input_counts; cbn;
      try done; rewrite ?inbox_push_bytes.
    + match goal with H : i_closed _ = true |- _ => rewrite H end. by intros [? _].
    + destruct Hex as (r & -> & _); [by auto|]. rewrite <- !app_assoc.
      rewrite !(app_assoc (taken x)), app_assoc. by apply prefix_app_r.
    + intros [? _]. destruct Hex as (r & -> & Hu); [by auto|]. exists r. split; [|done].
      by rewrite <- !app_assoc.
  - apply end_input_cases in Hdel as [[-> _]|(Hf & _ & _ & ->)];
      [apply Hquiet; auto using input_quiet_refl|by eapply end_input_flow].
Qed.

Lemma move_input_flow x y : execution_inv x -> input_flow x -> move x y -> input_flow y.
Proof.
  intros Hx Hfl H. pose proof Hx as [[[Hr Hp Hk Hl] _ _] _ _ _].
  destruct H as [w r' Hq Hi|s0 b r' Hrd Hi|m d r' Hf Hse Hi|now w rest r' res Hc Hdel
                |w p' Hq Hi|b p' Hb Hp' Hi|m d p' Hse Hi|now w rest p' res Hc Hdel].
  - eapply quiet_input; [exact Hx|exact Hfl|apply (rq_input _ _ _ Hq)|..]; try done. cbn.
    by rewrite (rq_finished _ _ _ Hq).
  - eapply (quiet_input x _ []); try done; cbn; rewrite ?app_nil_r; try done.
    + rewrite (reads_input _ _ _ _ Hrd). apply input_quiet_refl.
    + by rewrite (uo_finished _ _ (reads_unordering _ _ _ _ Hrd)).
  - by eapply sent_input_flow.
  - by eapply deliver_runner_flow.
  - eapply outgoing_flow; [done..|]. by eapply peer_quiet_outgoing.
  - by apply given_flow.
  - by apply psent_flow.
  - eapply outgoing_flow; [done..|]. by eapply deliver_outgoing.
Qed.

(** ** The outcome *)

Definition exit_status (r : Runner) : option Status :=
  match exit r with Some (Some s) => Some s | _ => None end.

(** Every outcome that was sent tells how the workload ended. *)
Definition told (x : sys) : Prop := forall o,
  announced_by x o -> exit (runner x) <> None /\ status o = exit_status (runner x).

Lemma outcome_status r o : Runner.outcome r = Some o -> exit r <> None /\ status o = exit_status r.
Proof.
  unfold Runner.outcome, exit_status. intros H. destruct (exit r) as [e|]; [split; [done|]|].
  - destruct (_ || _ || _ || _); [done|]. inv H. unfold ALL. cbn.
    destruct (is_settled _), (o_truncated (at0 _)), (o_truncated (at1 _)), (launch r) as [[]|],
      (cause r); done.
  - by rewrite !orb_true_r in H.
Qed.

Lemma told_step x y :
  told x -> (exit (runner x) <> None -> exit (runner y) = exit (runner x)) ->
  (forall o, announced_by y o ->
     announced_by x o \/ (exit (runner y) <> None /\ status o = exit_status (runner y))) -> told y.
Proof.
  intros Hx He Ha o Ho. destruct (Ha o Ho) as [H|?]; [|done]. destruct (Hx o H) as [Hn ->].
  unfold exit_status. by rewrite He.
Qed.

Lemma deliver_runner_exit now r w r' res :
  runner_inv r -> deliver_runner now r (key r) w = (r', res) -> exit r <> None -> exit r' = exit r.
Proof.
  intros Hi. destruct w as [[c|pool u|n|] d]; cbn; intros H.
  - apply (keeps_cancel _ _ _ _ _ _ Hi) in H as [_ []]. auto.
  - by apply runner_credit_cases in H as [[-> _]|(_ & _ & j & _ & _ & _ & ->)].
  - apply input_cases in H as [[-> _]|(_ & _ & _ & _ & H)]; [done|].
    by destruct (i_closed (input_state r)); destruct H as [_ ->].
  - apply end_input_cases in H as [[-> _]|(_ & _ & _ & ->)]; [done|].
    unfold close_input_when_taken. by destruct (_ && _).
Qed.

Lemma deliver_terminal now p w p' res o :
  peer_inv p -> deliver_peer now p (Peer.key p) w = (p', res) -> terminal_outcome p' = Some o ->
  terminal_outcome p = Some o \/ exists d, w = (MTerminal o, d).
Proof.
  intros Hi H. destruct res as [receipt|v].
  - destruct (deliver_flows _ _ _ _ _ Hi H) as [[_ [_ Hq]]|(_ & _ & Ht)]; [|apply Ht].
    rewrite (pq_terminal _ _ _ Hq). auto.
  - destruct w as [[u| |s n|s| |o'] d]; cbn in H.
    + apply peer_credit_cases in H as [[-> _]|(_ & [? ?] & _)]; [auto|done].
    + apply started_cases in H as [[-> _]|(_ & _ & _ & ? & _)]; [auto|done].
    + apply peer_output_cases in H as [[-> _]|(_ & _ & _ & _ & H)]; [auto|].
      destruct (n_discarding _); by destruct H.
    + apply end_output_cases in H as [[-> _]|(_ & _ & ? & _)]; [auto|done].
    + apply pkeeps_input_closed in H as [[_ Hq] _]; [|done]. rewrite (pq_terminal _ _ _ Hq). auto.
    + pose proof (pkeeps_tick p now Hi) as [_ Hq]. apply terminal_cases in H; [|done].
      destruct H as [[-> _]|[_ [[-> _]|[? _]]]]; [auto| |done]. rewrite (pq_terminal _ _ _ Hq). auto.
Qed.

Lemma move_told x y : execution_inv x -> told x -> move x y -> told y.
Proof.
  intros Hx Ht H. pose proof Hx as [[[Hr Hp Hk Hl] _ _] _ _ _].
  assert (Hsame : forall o, announced_by x o ->
    announced_by x o \/ (exit (runner x) <> None /\ status o = exit_status (runner x))) by auto.
  destruct H as [w r' Hq Hi|s0 b r' Hrd Hi|m d r' Hf Hse Hi|now w rest r' res Hc Hdel
                |w p' Hq Hi|b p' _ -> Hi|m d p' Hse Hi|now w rest p' res Hc Hdel];
    (apply (told_step x); [done|cbn; try done|]).
  - apply (rq_exit _ _ _ Hq).
  - by left.
  - by destruct Hrd as [(_ & _ & ->)|[(_ & _ & ->)|(_ & _ & ->)]].
  - by left.
  - by destruct Hse; match goal with H : same _ _ |- _ => rewrite H end.
  - unfold announced_by. cbn. intros o [[d' Hin]|?]; [|auto].
    apply elem_of_app in Hin as [?|Hin]; [left; left; eauto|right].
    destruct (detached r'); [by apply elem_of_nil in Hin|].
    apply list_elem_of_singleton in Hin as [= <- <-]. inv Hse.
    match goal with H : same _ _ |- _ => rewrite H end. unfold exit_status. cbn. by apply outcome_status.
  - by eapply deliver_runner_exit.
  - by left.
  - intros o [?|Ho]; [by left; left|left; right]. cbn in Ho. by rewrite (pq_terminal _ _ _ Hq) in Ho.
  - by left.
  - intros o [?|Ho]; [by left; left|left; right]. cbn in Ho. revert Ho.
    by destruct Hse; match goal with H : psame _ _ |- _ => rewrite H end.
  - unfold announced_by. cbn. rewrite Hc. intros o [[d Hin]|Ho]; left; [left; exists d; by right|].
    destruct (deliver_terminal _ _ _ _ _ _ Hp Hdel Ho) as [?|[d ->]]; [by right|left; exists d; by left].
Qed.

(** ** Every execution *)

Record data_inv (x : sys) : Prop := {
  di_execution : execution_inv x;
  di_streams : forall s, stream_ok x s;
  di_input : input_flow x;
  di_told : told x;
}.

Lemma start_data_inv k l tr tp nr np : valid_limits l -> data_inv (start k l tr tp nr np).
Proof.
  intros Hl. split; [by apply start_execution_inv|..].
  - intros s. split; unfold arrived; cbn; [by destruct s|]. intros _ _. exists [].
    split; [by destruct s|by left].
  - split; unfold accepted; cbn; try done. intros _. exists []. split; [done|by left].
  - intros o [[d Hin]|?]; [by apply elem_of_nil in Hin|done].
Qed.

Lemma reachable_data_inv k l x : valid_limits l -> reachable k l x -> data_inv x.
Proof.
  intros Hl. induction 1 as [|x y Hr IH Hs]; [by apply start_data_inv|].
  destruct IH as [Hx Hst Hin Ht]. pose proof Hx as [[Ha _ _] _ _ _].
  pose proof (step_move _ _ Ha Hs) as Hm.
  split; [eapply reachable_execution_inv; [done|by econstructor]|..].
  - intros s. by eapply move_stream.
  - by eapply move_input_flow.
  - by eapply move_told.
Qed.

(** The peer's final outcome: the runner's, with what the peer itself dropped and why. *)
Lemma finished_outcome p p' o :
  peer_inv p -> next_event p = (p', Some (EFinished o)) ->
  (forall s, inbox_bytes (n_inbox (idx (Peer.outputs p) s)) = [])
  /\ match terminal_outcome p with
     | Some t => status o = status t
         /\ forall s, is_truncated o s = n_truncated (idx (Peer.outputs p) s) || is_truncated t s
     | None => status o = None /\ forall s, is_truncated o s = true
     end.
Proof.
  intros Hi H. apply (next_event_cases _ _ _ Hi) in H as (_ & _ & H & _). unfold Peer.outcome in H.
  destruct (all2 _ _) eqn:E; cbn [negb] in H; [|done]. split.
  { intros s. pose proof (proj1 (all2_spec _ _) E s) as Hs. cbn in Hs.
    unfold inbox_is_empty in Hs. by apply bool_decide_eq_true in Hs. }
  set (f := fun s => n_truncated (idx (Peer.outputs p) s)) in H.
  assert (Hst : forall t, status (fold_left (fun acc s => if f s then with_truncated acc s else acc) ALL t)
                          = status t).
  { intros t. unfold ALL. cbn. by destruct (f Stdout), (f Stderr). }
  destruct (terminal_outcome p) as [t|]; cbn [mbind option_bind] in H.
  - apply (inj Some) in H. subst o. split; [|intros s].
    + change (fun acc stream => _) with (fun acc s => if f s then with_truncated acc s else acc).
      rewrite Hst. by destruct (outcome_cause t), (Peer.cause p).
    + change (fun acc stream => _) with (fun acc s => if f s then with_truncated acc s else acc).
      rewrite fold_truncated. by destruct (outcome_cause t), (Peer.cause p).
  - destruct (Peer.detached p || Peer.gave_up p); cbn [mbind option_bind] in H; [|done].
    apply (inj Some) in H. subst o.
    change (fun acc stream => _) with (fun acc s => if f s then with_truncated acc s else acc).
    split; [|intros s].
    + rewrite Hst. cbn. by destruct (Peer.cause p).
    + rewrite fold_truncated. apply orb_true_iff. right. cbn. by destruct (Peer.cause p), s.
Qed.

(** C1: For every execution and every interleaving: the sink's bytes of each stream are always a
    prefix of the bytes that the runner read from the workload, so nothing is reordered,
    duplicated or invented; and when the peer reports its final outcome, a stream that the
    outcome does not report as truncated has reached the sink in full and is closed. *)
Theorem execution_output_faithful (k : Key) (l : Limits) (x : sys) :
  valid_limits l -> reachable k l x ->
  (forall s, idx (sunk x) s `prefix_of` idx (read x) s)
  /\ forall p' o, next_event (peer x) = (p', Some (EFinished o)) ->
     forall s, is_truncated o s = false ->
     idx (sunk x) s = idx (read x) s /\ o_closed (idx (outputs (runner x)) s) = true.
Proof.
  intros Hl Hr. pose proof (reachable_data_inv _ _ _ Hl Hr) as [Hx Hs _ _]. split.
  { intros s. etrans; [|apply (so_prefix _ _ (Hs s))]. by apply prefix_app_r. }
  intros p' o He s Htr. pose proof Hx as [[[_ Hp _ _] _ _] _ _ Ho].
  destruct (finished_outcome _ _ _ Hp He) as [Hin Hout].
  destruct (terminal_outcome (peer x)) as [t|] eqn:Ht; [|destruct Hout; congruence].
  destruct Hout as [_ Hout]. rewrite Hout in Htr. apply orb_false_iff in Htr as [Hn Hft].
  destruct (so_exact _ _ (Hs s) Hn) as (lost & Hrd & Hlost); [right; congruence|].
  assert (Ha : announced_by x t) by (by right).
  destruct (announced_ended x t s Hx Ha) as (_ & Hcl & Hq). split; [|done].
  destruct Hlost as [-> |(_ & _ & _ & H)]; [|specialize (H t Ha); congruence].
  unfold arrived in Hrd. rewrite (or_after _ Ho) in Hrd by congruence.
  rewrite Hrd, Hin, Hq. cbn. by rewrite !app_nil_r.
Qed.

Lemma close_requested r r' : Runner.next_request r = (r', Some CloseInput) ->
  i_close_requested (input_state r) = true.
Proof.
  unfold next_request. destruct (terminate_request r); [done|]. destruct (List.find _ _); [done|].
  destruct (i_close_requested (input_state r)); [done|]. by destruct (settle_request r).
Qed.

(** C3: For every execution and every interleaving: the bytes that the workload took, with those
    that wait for it, are always a prefix of the input that the caller gave; and when the runner
    asks its adapter to close the workload's input, the workload has taken all of it. *)
Theorem execution_input_faithful (k : Key) (l : Limits) (x : sys) :
  valid_limits l -> reachable k l x ->
  (taken x ++ inbox_bytes (i_inbox (input_state (runner x)))) `prefix_of` given x
  /\ forall r', next_request (runner x) = (r', Some CloseInput) -> taken x = given x.
Proof.
  intros Hl Hr. pose proof (reachable_data_inv _ _ _ Hl Hr) as [_ _ [Hp _ Hd] _]. split; [done|].
  intros r' H. by apply close_requested, Hd in H as [? _].
Qed.

(** C6: When the peer reports a final outcome with a status, it is the status with which the
    adapter told the runner that the workload exited, whatever happened to either side since. *)
Theorem execution_status_honest (k : Key) (l : Limits) (x : sys) (p' : Peer) (o : Outcome) (st : Status) :
  valid_limits l -> reachable k l x ->
  next_event (peer x) = (p', Some (EFinished o)) -> status o = Some st ->
  exit (runner x) = Some (Some st).
Proof.
  intros Hl Hr He Hst. pose proof (reachable_data_inv _ _ _ Hl Hr) as [Hx _ _ Ht].
  pose proof Hx as [[[_ Hp _ _] _ _] _ _ _].
  destruct (finished_outcome _ _ _ Hp He) as [_ Hout].
  destruct (terminal_outcome (peer x)) as [t|] eqn:E; [|destruct Hout; congruence].
  destruct Hout as [Hs _]. destruct (Ht t (or_intror E)) as [_ Hu]. rewrite Hst, Hu in Hs.
  unfold exit_status in Hs. destruct (exit (runner x)) as [[]|]; congruence.
Qed.

(** *** A whole execution, to its outcome *)

Definition sample_execution : sys := execute (sample_opening ++ sample_ending).

Lemma sample_finished : exists p',
  next_event (peer sample_execution) =
    (p', Some (EFinished (with_reusable (new_outcome (Some (Exited 0)))))).
Proof. eexists. vm_compute. reflexivity. Qed.

Lemma execution_output_faithful_witness :
  idx (sunk sample_execution) Stdout = idx (read sample_execution) Stdout
  /\ idx (sunk sample_execution) Stdout = bytes_of "hello".
Proof.
  split; [|vm_compute; reflexivity].
  destruct (execution_output_faithful sample_key sample_limits sample_execution) as [_ H].
  - apply sample_limits_valid.
  - apply execute_reachable.
  - destruct sample_finished as [p' Hp]. exact (proj1 (H _ _ Hp Stdout eq_refl)).
Defined.

Lemma execution_input_faithful_witness :
  taken (execute sample_opening) = given (execute sample_opening)
  /\ taken (execute sample_opening) = bytes_of "abc".
Proof.
  split; [|vm_compute; reflexivity].
  destruct (execution_input_faithful sample_key sample_limits (execute sample_opening)) as [_ H].
  - apply sample_limits_valid.
  - apply execute_reachable.
  - eapply H. vm_compute. reflexivity.
Defined.

Lemma execution_status_honest_witness : exit (runner sample_execution) = Some (Some (Exited 0)).
Proof.
  destruct sample_finished as [p' Hp].
  exact (execution_status_honest sample_key sample_limits sample_execution p' _ (Exited 0)
           sample_limits_valid (execute_reachable _) Hp eq_refl).
Defined.
