(* ===== verification/RunnerLive.v ===== *)
(** * The runner's timers and progress

    A tick before the deadline changes nothing that can be observed, one at or after it moves the
    deadline past it; and once its give-up time has passed, the runner returns its terminal
    outcome within six messages, whatever the workload and the peer did. *)

From S2P Require Import Prelude ExecTypes Credit Runner RunnerFacts.

(** ** The deadline *)

(** The settlement, give-up and abandon times that count. *)
Definition settle_by (r : Runner) : option Z := match settling r with Requested t => t | _ => None end.
Definition gives_up_at (r : Runner) : option Z := if is_cleaned_up r then None else give_up_at r.
Definition abandons_at (r : Runner) : option Z :=
  if awaits_launch r || (is_fenced (settling r)
       && any2 (fun o => negb (o_closed o) && negb (o_hung_up o)) (outputs r))
  then abandon_at r else None.

Lemma deadline_later r now :
  finished r = false ->
  later (deadline r) now <->
  later (timeout_at r) now /\ later (grace_until r) now /\ later (settle_by r) now
  /\ later (gives_up_at r) now /\ later (abandons_at r) now.
Proof.
  intros Hf. unfold deadline. rewrite Hf. cbn [fold_left]. rewrite !later_earliest.
  fold (settle_by r) (gives_up_at r) (abandons_at r). pose proof (later_none now). tauto.
Qed.

Lemma abandon_open_none r :
  any2 (fun o => negb (o_closed o) && negb (o_hung_up o)) (outputs r) = false ->
  map2 abandon_output (outputs r) = outputs r.
Proof.
  unfold any2, map2, abandon_output. destruct (outputs r) as [a b]. cbn. intros H.
  apply orb_false_iff in H as [-> ->]. done.
Qed.

(** A tick before the deadline only forgets times that no longer count. *)
Lemma tick_early r now :
  later (deadline r) now ->
  tick r now = r <| give_up_at := give_up_at (tick r now) |> <| abandon_at := abandon_at (tick r now) |>.
Proof.
  unfold tick. destruct (finished r) eqn:Hf; [by destruct r|]. intros H.
  apply deadline_later in H as (H1 & H2 & H3 & H4 & H5); [|done].
  unfold fire_timeout. apply later_reached in H1. rewrite H1.
  unfold fire_grace. apply later_reached in H2. rewrite H2.
  assert (Hs : fire_settlement r now = r).
  { unfold fire_settlement, settle_by in *. destruct (settling r) as [|[t|]| |]; try done.
    specialize (H3 t eq_refl). destruct (Z.leb_spec t now); [lia|done]. }
  rewrite Hs. unfold fire_give_up, gives_up_at in *.
  set (r1 := if reached (give_up_at r) now then _ else _).
  assert (Hr1 : r1 = r \/ r1 = r <| give_up_at := None |>).
  { subst r1. destruct (reached (give_up_at r) now) eqn:E; [|by left]. right.
    destruct (is_cleaned_up r); [done|]. apply later_reached in H4. congruence. }
  clearbody r1. unfold abandons_at in H5. unfold fire_abandon.
  destruct (reached (abandon_at r1) now) eqn:E; [|destruct Hr1 as [-> | ->]; by destruct r].
  assert (Ha : awaits_launch r || (is_fenced (settling r)
    && any2 (fun o => negb (o_closed o) && negb (o_hung_up o)) (outputs r)) = false).
  { destruct (_ || _); [|done]. apply later_reached in H5.
    destruct Hr1 as [-> | ->]; cbn in E; congruence. }
  apply orb_false_iff in Ha as [Ha Hb].
  destruct Hr1 as [-> | ->]; [|change (awaits_launch (r <| give_up_at := None |>)) with (awaits_launch r)];
    rewrite Ha; cbn; (destruct (is_fenced (settling r)); cbn in Hb; [|by destruct r]);
    unfold abandon_open_streams; cbn; rewrite abandon_open_none by done; by destruct r.
Qed.

Lemma terminate_timeout r now c : timeout_at r = None -> timeout_at (terminate r now c) = None.
Proof.
  intros H. unfold terminate, close_input. destruct (is_some (terminated_at r)); [done|].
  repeat match goal with |- context [if ?b then _ else _] => destruct b; cbn; try done end.
Qed.

Lemma fire_timeout_later r now : later (timeout_at (fire_timeout r now)) now.
Proof.
  unfold fire_timeout. destruct (reached _ _) eqn:E; [|by apply later_reached].
  by rewrite terminate_timeout.
Qed.

Lemma fire_grace_later r now :
  later (timeout_at r) now ->
  later (timeout_at (fire_grace r now)) now /\ later (grace_until (fire_grace r now)) now.
Proof.
  intros H. unfold fire_grace. destruct (reached _ _) eqn:E; [done|]. by apply later_reached in E.
Qed.

Lemma fire_settlement_later r now :
  later (timeout_at r) now /\ later (grace_until r) now ->
  let r' := fire_settlement r now in
  later (timeout_at r') now /\ later (grace_until r') now /\ later (settle_by r') now.
Proof.
  intros [H1 H2]. unfold fire_settlement, settle_by. cbn.
  destruct (settling r) as [|[t|]| |] eqn:E; try (rewrite E; done).
  destruct (Z.leb_spec t now); cbn; [done|rewrite E]. split_and!; try done. by intros ? [= <-].
Qed.

Lemma fire_give_up_later r now :
  later (timeout_at r) now /\ later (grace_until r) now /\ later (settle_by r) now ->
  let r' := fire_give_up r now in
  later (timeout_at r') now /\ later (grace_until r') now /\ later (settle_by r') now
  /\ later (gives_up_at r') now.
Proof.
  intros (H1 & H2 & H3). unfold fire_give_up. cbn zeta. destruct (reached _ _) eqn:E.
  - destruct (is_cleaned_up r) eqn:Ec.
    + split_and!; try done. unfold gives_up_at. by destruct (is_cleaned_up _).
    + unfold give_up_now, gives_up_at, settle_by. cbn. split_and!; by repeat case_match.
  - split_and!; try done. unfold gives_up_at. destruct (is_cleaned_up r); [done|].
    by apply later_reached.
Qed.

Lemma fire_abandon_later r now :
  later (timeout_at r) now /\ later (grace_until r) now /\ later (settle_by r) now
  /\ later (gives_up_at r) now ->
  let r' := fire_abandon r now in
  later (timeout_at r') now /\ later (grace_until r') now /\ later (settle_by r') now
  /\ later (gives_up_at r') now /\ later (abandons_at r') now.
Proof.
  intros (H1 & H2 & H3 & H4). unfold fire_abandon. cbn zeta.
  destruct (reached (abandon_at r) now) eqn:E.
  2: { split_and!; try done. unfold abandons_at. destruct (_ || _); [by apply later_reached|done]. }
  destruct (awaits_launch r) eqn:Ea.
  - cbn. split_and!; try done.
    + unfold gives_up_at in *. cbn.
      assert (Hc : is_cleaned_up r = false).
      { unfold is_cleaned_up, awaits_launch in *. by destruct (launch r). }
      rewrite Hc in H4. by case_match.
    + unfold abandons_at. cbn. by case_match.
  - destruct (is_fenced (settling r)) eqn:Ef; cbn.
    + split_and!; try done; [|unfold abandons_at; cbn; by case_match].
      unfold gives_up_at in *. assert (Hc : is_cleaned_up r = false).
      { unfold is_cleaned_up. destruct (settling r); try done. by rewrite !andb_false_r. }
      rewrite Hc in H4. by case_match.
    + split_and!; try done. unfold abandons_at. by rewrite Ea, Ef.
Qed.

Lemma tick_later r now : later (deadline (tick r now)) now.
Proof.
  unfold tick. destruct (finished r) eqn:Hf; [by unfold deadline; rewrite Hf|].
  set (r' := fire_abandon _ now). destruct (finished r') eqn:Hf'; [by unfold deadline; rewrite Hf'|].
  apply deadline_later; [done|].
  apply fire_abandon_later, fire_give_up_later, fire_settlement_later, fire_grace_later,
    fire_timeout_later.
Qed.

(** The runner's deadline is exact. A tick before it changes nothing but two times that no
    longer count, in particular no request, message, stream or outcome; and after a tick the
    next deadline, if any, is in the future, so an adapter that sleeps until the deadline and
    ticks never spins and never misses a timer. *)
Theorem runner_deadline_exact (r : Runner) (now : Z) :
  (later (deadline r) now ->
   tick r now = r <| give_up_at := give_up_at (tick r now) |> <| abandon_at := abandon_at (tick r now) |>)
  /\ later (deadline (tick r now)) now.
Proof. split; [apply tick_early|apply tick_later]. Qed.

Lemma runner_deadline_exact_witness :
  tick (runner_after sample_ops) 5 = runner_after sample_ops.
Proof.
  destruct (runner_deadline_exact (runner_after sample_ops) 5) as [H _]. rewrite H.
  - vm_compute. reflexivity.
  - intros t Ht. vm_compute in Ht. discriminate Ht.
Defined.

(** ** Progress to the terminal outcome *)

(** The workload is over and every stream's data is sent: only messages about it are left. *)
Record ready (r : Runner) : Prop := {
  re_launch : awaits_launch r = false;
  re_exit : exit r <> None;
  re_settled : is_settled (settling r) || is_fenced (settling r) = true;
  re_done : forall s, is_done (idx (outputs r) s) = true;
}.

(** Calls of [next_message] that come before the outcome. *)
Definition flag (b : bool) : nat := if b then 1%nat else 0%nat.
Definition work (r : Runner) : nat :=
  (flag (started_message r) + flag (i_closed_message (input_state r))
   + flag (negb (o_ended (idx (outputs r) Stdout))) + flag (negb (o_ended (idx (outputs r) Stderr)))
   + flag (0 <? returnable (i_window (input_state r)))%Z)%nat.

(** Calls [next_message] until it returns the terminal outcome. *)
Fixpoint drain (calls : nat) (r : Runner) (buffer : list byte) : option Outcome :=
  match calls with
  | O => None
  | S calls =>
      match next_message r buffer with
      | (_, _, Some (MTerminal o)) => Some o
      | (r', buffer', Some _) => drain calls r' buffer'
      | (_, _, None) => None
      end
  end.

Lemma same_ready r r' : same r r' -> ready r -> ready r' /\ work r' = work r /\ finished r' = finished r.
Proof. intros ->. intros []. split; [by split|done]. Qed.

Lemma done_queue o : is_done o = true -> o_queue o = [].
Proof. unfold is_done. destruct (o_queue o); [done|]. by rewrite andb_false_r. Qed.

Lemma flag_true b : b = true -> flag b = 1%nat.
Proof. by intros ->. Qed.

(** Sending any message but the outcome leaves less to send. *)
Lemma sent_ready r m d r' :
  ready r -> finished r = false -> sent r m d r' ->
  (exists o, m = MTerminal o) \/ (ready r' /\ finished r' = false /\ (work r' < work r)%nat).
Proof.
  intros Hr Hf H. pose proof Hr as [Ha He Hs Hd].
  destruct H as [u r' _ _ Hu Hp H|r' _ Hst H|r' _ Hcm H|s r' _ _ Hen H|s d q r' _ _ _ Hq Hl _ H|o r' _ H];
    [right..|left; by eexists].
  - destruct (same_ready _ _ H) as (? & -> & ->); [by split|]. split_and!; try done. subst u.
    unfold work. cbn. rewrite (flag_true (0 <? _)) by (by apply Z.ltb_lt). cbn. lia.
  - destruct (same_ready _ _ H) as (? & -> & ->); [by split|]. split_and!; try done.
    unfold work. cbn. rewrite Hst. cbn. lia.
  - destruct (same_ready _ _ H) as (? & -> & ->); [by split|]. split_and!; try done.
    unfold work. cbn. rewrite Hcm. cbn. lia.
  - destruct (same_ready _ _ H) as (? & -> & ->).
    { split; try done. intros s'. cbn. rewrite idx_alter2. case_decide; [subst|]; apply Hd. }
    split_and!; try done. unfold work. cbn. destruct s; cbn in *; rewrite Hen; cbn; lia.
  - rewrite (done_queue _ (Hd s)) in Hq. destruct d; [rewrite len_nil in Hl; lia|done].
Qed.

Lemma ready_outcome r :
  ready r -> (detached r = true \/ forall s, o_ended (idx (outputs r) s) = true) ->
  exists o, outcome r = Some o.
Proof.
  intros [Ha He Hs Hd] H. unfold outcome. rewrite Ha, Hs.
  assert (all2 (fun o => is_done o && (o_ended o || detached r)) (outputs r) = true) as ->.
  { apply all2_spec. intros s. rewrite Hd. destruct H as [-> | ->]; by rewrite ?orb_true_r. }
  destruct (exit r); [|done]. cbn. by eexists.
Qed.

Lemma all_ended r :
  ready r -> List.find (fun s => is_done (idx (outputs r) s) && negb (o_ended (idx (outputs r) s))) ALL
             = None -> forall s, o_ended (idx (outputs r) s) = true.
Proof.
  intros Hr Hfind s. assert (Hin : In s ALL) by (destruct s; cbn; auto).
  pose proof (find_none _ _ Hfind _ Hin) as Hn. cbn in Hn. rewrite (re_done _ Hr s) in Hn.
  by apply negb_false_iff in Hn.
Qed.

Lemma ready_message r buffer :
  runner_inv r -> ready r -> finished r = false ->
  exists r' buffer' m, next_message r buffer = (r', buffer', Some m).
Proof.
  intros Hi Hr Hf. unfold next_message. rewrite Hf.
  destruct (detached r) eqn:Hdet.
  { unfold next_terminal. destruct (ready_outcome r Hr) as [o ->]; [by left|]. eauto. }
  destruct (if negb (credited r) then next_credit r else (r, None)) as [r1 [m1|]] eqn:Hfirst; [eauto|].
  assert (r1 = r) as ->.
  { destruct (negb (credited r)); [|by injection Hfirst].
    by apply runner_next_credit_cases in Hfirst as [-> _]. }
  destruct (next_other r buffer) as [[r2 b2] [m2|]] eqn:Hother; [eauto|].
  assert (Hended : forall s, o_ended (idx (outputs r) s) = true).
  { unfold next_other in Hother. destruct (started_message r); [done|].
    destruct (i_closed_message _); [done|]. rewrite (re_launch _ Hr) in Hother. cbn [negb] in Hother.
    destruct (List.find _ ALL) eqn:Hfind; [done|]. by apply all_ended. }
  apply next_other_cases in Hother as [Hs _]; [|done|done].
  assert (Hi2 : runner_inv r2) by (by eapply same_inv).
  destruct (next_credit r2) as [r3 [m3|]] eqn:Hlast; [eauto|].
  apply runner_next_credit_cases in Hlast as [-> _]; [|done].
  destruct (same_ready _ _ Hs Hr) as [Hr2 _]. unfold next_terminal.
  destruct (ready_outcome r2 Hr2) as [o ->]; [right; by rewrite Hs|]. eauto.
Qed.

Lemma ready_drains n : forall r buffer,
  runner_inv r -> ready r -> finished r = false -> (work r < n)%nat ->
  exists o, drain n r buffer = Some o.
Proof.
  induction n as [|n IH]; intros r buffer Hi Hr Hf Hw; [lia|]. cbn.
  destruct (ready_message r buffer Hi Hr Hf) as (r' & b' & m & Hm). rewrite Hm.
  destruct (runner_next_message_cases _ _ _ _ _ Hi Hm) as (_ & d & Hs & _).
  destruct (sent_ready _ _ _ _ Hr Hf Hs) as [[o ->]|(Hr' & Hf' & Hw')]; [by eexists|].
  pose proof (sent_inv _ _ _ _ Hi Hs) as Hi'.
  destruct m; try (apply IH; auto; lia). by eexists.
Qed.

Lemma flag_bound b : (flag b <= 1)%nat.
Proof. destruct b; cbn; lia. Qed.

Lemma work_bound r : (work r < 6)%nat.
Proof.
  unfold work. pose proof (flag_bound (started_message r)).
  pose proof (flag_bound (i_closed_message (input_state r))).
  pose proof (flag_bound (negb (o_ended (idx (outputs r) Stdout)))).
  pose proof (flag_bound (negb (o_ended (idx (outputs r) Stderr)))).
  pose proof (flag_bound (0 <? returnable (i_window (input_state r)))). lia.
Qed.

(** ** The give-up time is kept *)

(** No stream holds data or will. *)
Definition silent (r : Runner) : Prop := forall s,
  let o := idx (outputs r) s in o_queue o = [] /\ (o_closed o = true \/ o_discarding o = true).

Record live (r : Runner) : Prop := {
  li_settlement : 0 <= settlement (timers r);
  li_terminated : give_up_at r <> None -> terminated_at r <> None;
  li_grace : forall g, give_up_at r = Some g ->
    (exists t, grace_until r = Some t /\ t <= g) \/ silent r;
  li_gave_up : gave_up r = true -> exit r <> None /\ settling r = Fenced;
}.

Record frame (r r' : Runner) : Prop := {
  fr_timers : timers r' = timers r;
  fr_grace : grace_until r' = grace_until r;
  fr_give_up : give_up_at r' = give_up_at r;
  fr_terminated : terminated_at r' = terminated_at r;
  fr_gave_up : gave_up r' = gave_up r;
  fr_exit : exit r <> None -> exit r' <> None;
  fr_settling : settling r = Fenced -> settling r' = Fenced;
  fr_silent : silent r -> silent r';
}.

Lemma frame_live r r' : frame r r' -> live r -> live r'.
Proof.
  intros [Ft Fg Fu Fe Fv Fx Fs Fi] [Lt Le Lg Lv].
  split; rewrite ?Ft, ?Fg, ?Fu, ?Fe, ?Fv; auto.
  - intros g Hg. destruct (Lg g Hg); auto.
  - intros H. destruct (Lv H). auto.
Qed.

Lemma frame_refl r : frame r r.
Proof. by split. Qed.

Lemma frame_trans r1 r2 r3 : frame r1 r2 -> frame r2 r3 -> frame r1 r3.
Proof. intros [] []. split; try congruence; auto. Qed.

Lemma quiet_silent r r' :
  (forall s, output_quiet (idx (outputs r) s) (idx (outputs r') s)) -> silent r -> silent r'.
Proof.
  intros Hq Hs s. destruct (Hs s) as [H1 H2], (Hq s) as [_ _ Hst _ Hqu]. cbn. split; [|auto].
  destruct Hqu as [-> |[? _]]; auto.
Qed.

Lemma frame_close_input r : frame r (close_input r).
Proof. unfold close_input. destruct (i_closed _); by split. Qed.

Lemma frame_close_when_taken r : frame r (close_input_when_taken r).
Proof. unfold close_input_when_taken. destruct (_ && _); by split. Qed.

Lemma end_grace_silent r : silent (end_grace r).
Proof.
  intros s. unfold end_grace. cbn. rewrite idx_map2. unfold end_grace_output, drop_queue.
  destruct (is_empty _) eqn:E; cbn; (destruct (o_closed _) eqn:Ec, (o_discarding _) eqn:Ed; cbn; auto).
Qed.

Lemma live_end_grace r : live r -> live (end_grace r).
Proof.
  intros [Lt Le Lg Lv]. split; try done. intros g _. right. apply end_grace_silent.
Qed.

Lemma live_terminate r now c : live r -> live (terminate r now c).
Proof.
  intros H. unfold terminate. destruct (is_some (terminated_at r)); [done|]. cbv zeta.
  set (r1 := if is_some (exit _) then _ else _).
  assert (H1 : timers r1 = timers r /\ gave_up r1 = gave_up r /\ exit r1 = exit r
               /\ settling r1 = settling r /\ terminated_at r1 = Some now).
  { subst r1. by destruct (is_some _). }
  clearbody r1. set (r2 := close_input r1). pose proof (frame_close_input r1) as F. fold r2 in F.
  set (r4 := _ <| give_up_at := _ |>).
  assert (Hl : live r4); [|destruct (reached _ _); [by apply live_end_grace|done]].
  destruct H1 as (T1 & G1 & E1 & S1 & A1), H as [Lt Le Lg Lv], F as [Ft _ _ Fe Fv Fx Fs _].
  assert (Hs : 0 <= settlement (timers r2)) by (by rewrite Ft, T1).
  subst r4. split; cbn; try done.
  - rewrite Fe, A1. done.
  - intros g Hg. left. destruct (after now (grace (timers r2))) as [t|]; [|done]. cbn in Hg.
    exists t. split; [done|]. apply after_some in Hg. lia.
  - rewrite Fv, G1. intros H. destruct (Lv H). split; [|apply Fs; congruence].
    apply Fx. congruence.
Qed.

Lemma live_give_up r : live r -> live (give_up_now r).
Proof.
  intros [Lt Le Lg Lv]. unfold give_up_now. cbn. destruct (exit r) eqn:He; cbn; (split; cbn; try done).
  intros _. by rewrite He.
Qed.

Lemma frame_abandon r :
  frame r (r <| abandon_at := None |> <| outputs := map2 abandon_output (outputs r) |>).
Proof.
  split; try done. apply quiet_silent. intros s. cbn. rewrite idx_map2. apply abandon_output_quiet.
Qed.

Lemma live_tick r now : live r -> live (tick r now).
Proof.
  intros H. unfold tick. destruct (finished r); [done|]. cbv zeta.
  assert (H1 : live (fire_timeout r now)).
  { unfold fire_timeout. destruct (reached _ _); [|done]. apply live_terminate. by destruct H; split. }
  revert H1. generalize (fire_timeout r now). clear. intros r H.
  assert (H1 : live (fire_grace r now)).
  { unfold fire_grace. destruct (reached _ _); [by apply live_end_grace|done]. }
  revert H1. generalize (fire_grace r now). clear. intros r H.
  assert (H1 : live (fire_settlement r now)).
  { unfold fire_settlement. destruct (settling r) as [|[t|]| |] eqn:E; try done.
    destruct (_ <=? _); [|done]. revert H. apply frame_live. by split. }
  revert H1. generalize (fire_settlement r now). clear. intros r H.
  assert (H1 : live (fire_give_up r now)).
  { unfold fire_give_up. destruct (reached _ _); [|done].
    destruct (is_cleaned_up r); [by destruct H; split|by apply live_give_up]. }
  revert H1. generalize (fire_give_up r now). clear. intros r H.
  unfold fire_abandon. destruct (reached _ _); [|done].
  set (r1 := if awaits_launch r then _ else _).
  assert (H1 : live r1).
  { subst r1. destruct (awaits_launch r); [|done]. revert H. apply frame_live. by split. }
  clearbody r1. destruct (is_fenced _); [|done]. revert H1. apply frame_live, frame_abandon.
Qed.

Lemma live_detach r now c : live r -> live (detach r now c).
Proof.
  intros H. unfold detach. cbv zeta. pose proof (live_tick r now H) as H1. revert H1.
  generalize (tick r now). clear. intros r H. destruct (_ || _); [done|].
  pose proof (live_terminate r now c H) as H1. assert (Ht : terminated_at (terminate r now c) <> None).
  { unfold terminate, close_input. destruct (terminated_at r) eqn:E; cbn; [congruence|].
    repeat case_match; done. }
  revert H1 Ht. generalize (terminate r now c). clear. intros r H Ht.
  set (r1 := set_input _ _). assert (H1 : live r1) by (by destruct H; split).
  pose proof (live_end_grace _ H1) as [Lt Le Lg Lv]. split; try done.
  intros g _. right. apply end_grace_silent.
Qed.

Lemma live_exited r now st : live r -> live (exited r now st).
Proof.
  intros H. unfold exited. cbv zeta.
  assert (H1 : live (tick (r <| timeout_at := None |>) now)) by (apply live_tick; by destruct H; split).
  revert H1. generalize (tick (r <| timeout_at := None |>) now). clear. intros r H.
  destruct (is_some (exit r) || gave_up r) eqn:E; [done|]. apply orb_false_iff in E as [_ Hg].
  assert (H1 : live (r <| exit := Some st |>)) by (destruct H; split; cbn; try done; congruence).
  apply (frame_live _ _ (frame_close_input _)) in H1.
  assert (Hg' : gave_up (close_input (r <| exit := Some st |>)) = false)
    by (by rewrite (fr_gave_up _ _ (frame_close_input _))).
  revert H1 Hg'. generalize (close_input (r <| exit := Some st |>)). clear. intros r [Lt Le Lg Lv] Hg.
  split; cbn; try done. congruence.
Qed.

Lemma live_launched r x : live r -> live (launched r x).
Proof.
  intros H. unfold launched. destruct (negb _); [done|]. cbv zeta.
  assert (H1 : live (r <| launch := Some x |>)) by (by destruct H; split).
  destruct (is_ok x); [by destruct H1; split|]. by apply (frame_live _ _ (frame_close_input _)).
Qed.

Lemma frame_next_request r : runner_inv r -> frame r (next_request r).1.
Proof.
  intros Hi. destruct (keeps_next_request r Hi) as [_ Hq].
  assert (Hs : silent r -> silent (next_request r).1) by apply quiet_silent, Hq.
  unfold next_request in *. repeat case_match; by split.
Qed.

Lemma frame_sent r m d r' : sent r m d r' -> frame r r'.
Proof.
  intros H. destruct H; match goal with H : same _ _ |- _ => rewrite H end; split; try done.
  - intros Hs s'. cbn. rewrite idx_alter2. case_decide; [subst|]; apply (Hs s').
  - intros Hs s'. cbn. rewrite idx_alter2. case_decide; [subst|apply (Hs s')].
    cbn. destruct (Hs s') as [Hn ?]. rewrite Hn in *.
    match goal with H : [] = _ ++ _ |- _ => symmetry in H; apply app_eq_nil in H as [_ ->] end. done.
Qed.

Lemma frame_alter r s f :
  (forall o, o_queue (f o) = o_queue o /\ (o_closed o = true -> o_closed (f o) = true)
             /\ o_discarding (f o) = o_discarding o) ->
  frame r (r <| outputs := alter2 s f (outputs r) |>).
Proof.
  intros Hf. split; try done. intros Hs s'. cbn. rewrite idx_alter2. destruct (Hs s') as [H1 H2].
  case_decide; [subst|done]. destruct (Hf (idx (outputs r) s')) as (-> & Hc & ->).
  split; [done|]. destruct H2; auto.
Qed.

Lemma frame_output r s bytes r' n : runner_inv r -> output r s bytes = (r', n) -> frame r r'.
Proof.
  intros Hi H. apply runner_output_cases in H; [|done].
  destruct H as [(_ & -> & _)|[(_ & _ & _ & ->)|(Hc & Hd & _ & _ & _ & ->)]]; [apply frame_refl| |].
  - by apply frame_alter.
  - split; try done. intros Hs. destruct (Hs s) as [_ [|]]; congruence.
Qed.

Lemma live_call r op : runner_inv r -> live r -> live (runner_call r op).1.
Proof.
  intros Hi H. destruct op as [k p u|k b|k|now k c|x|s b|s n|s|s|s|n| |now st|x|now|now|now|now| |b]; cbn.
  - destruct (credit r k p u) as [r' res] eqn:E.
    apply runner_credit_cases in E as [[-> _]|(_ & _ & i & _ & _ & _ & ->)]; [done|by destruct H; split].
  - destruct (input r k b) as [r' res] eqn:E. apply input_cases in E as [[-> _]|(_ & _ & _ & _ & E)]; [done|].
    destruct (i_closed (input_state r)); destruct E as [_ ->]; by destruct H; split.
  - destruct (end_input r k) as [r' res] eqn:E. apply end_input_cases in E as [[-> _]|(_ & _ & _ & ->)]; [done|].
    apply (frame_live _ _ (frame_close_when_taken _)). by destruct H; split.
  - destruct (cancel r now k c) as [r' res] eqn:E.
    apply cancel_cases in E as [[-> _]|[_ [-> | ->]]]; cbn; auto using live_tick, live_terminate.
  - by apply live_launched.
  - destruct (output r s b) as [r' n] eqn:E. by apply (frame_live _ _ (frame_output _ _ _ _ _ Hi E)).
  - by apply (frame_live r); [apply frame_alter|].
  - by apply (frame_live r); [apply frame_alter|].
  - by apply (frame_live r); [apply frame_alter|].
  - by apply (frame_live r); [apply frame_alter|].
  - unfold input_written. destruct (i_closed _); [done|]. destruct (inbox_pop _ _).
    apply (frame_live _ _ (frame_close_when_taken _)). by destruct H; split.
  - by apply (frame_live _ _ (frame_close_input _)).
  - by apply live_exited.
  - unfold settled. destruct (settling r) eqn:E; try done. revert H. apply frame_live.
    by split; cbn; rewrite ?E.
  - by apply live_detach.
  - by apply live_detach.
  - by apply live_detach.
  - by apply live_tick.
  - destruct (next_request r) as [r' q] eqn:E.
    pose proof (frame_next_request r Hi) as F. rewrite E in F. by apply (frame_live _ _ F).
  - destruct (next_message r b) as [[r' b'] [m|]] eqn:E; apply runner_next_message_cases in E; try done.
    + destruct E as (_ & d & Hs & _). by apply (frame_live _ _ (frame_sent _ _ _ _ Hs)).
    + destruct E as [-> _]. by destruct H; split.
Qed.

Lemma new_runner_live k l t now : 0 <= settlement t -> live (new_runner k l t now).
Proof. by intros H; split. Qed.

Lemma runner_reachable_live k l r : valid_limits l -> runner_reachable k l r -> live r.
Proof.
  intros Hl. induction 1 as [t now (_ & Ht & _)|r op Hr IH Ho]; [by apply new_runner_live|].
  apply live_call; [by eapply runner_reachable_inv|done].
Qed.

Lemma gave_up_ready r : runner_inv r -> live r -> gave_up r = true -> ready r.
Proof.
  intros Hi Hl Hg. destruct (li_gave_up _ Hl Hg) as [He Hs]. split.
  - unfold awaits_launch. by rewrite Hg, andb_false_r.
  - done.
  - by rewrite Hs.
  - intros s. destruct (inv_gave_up _ Hi Hg s) as [Hc Hq]. unfold is_done. by rewrite Hc, Hq.
Qed.

Lemma fire_abandon_ready r now : ready r -> ready (fire_abandon r now).
Proof.
  intros Hr. pose proof Hr as [Ha He Hs Hd]. unfold fire_abandon.
  destruct (reached _ _); [|done]. rewrite Ha.
  destruct (is_fenced (settling r)) eqn:Hf; [|done]. split; cbn; try done.
  { by rewrite Hf, orb_true_r. }
  intros s. rewrite idx_map2. unfold abandon_output. specialize (Hd s).
  assert (Hc : o_closed (idx (outputs r) s) = true)
    by (unfold is_done in Hd; by apply andb_true_iff in Hd as [? _]).
  by rewrite Hc.
Qed.

Lemma cleaned_up_ready r : is_cleaned_up r = true -> silent r -> ready (r <| give_up_at := None |>).
Proof.
  unfold is_cleaned_up. intros H Hs. apply andb_true_iff in H as [H H4].
  apply andb_true_iff in H as [H H3]. apply andb_true_iff in H as [H1 H2]. split; cbn.
  - unfold awaits_launch. cbn. by rewrite H1.
  - by destruct (exit r).
  - by rewrite H4.
  - intros s. unfold is_done. rewrite (proj1 (all2_spec _ _) H3 s). by destruct (Hs s) as [-> _].
Qed.

(** Giving up makes the runner ready whatever its state. *)
Lemma give_up_ready r : ready (give_up_now r).
Proof.
  unfold give_up_now. cbn. destruct (exit r) eqn:He; cbn; split; cbn; rewrite ?He; try done;
    try (unfold awaits_launch; cbn; by rewrite andb_false_r);
    intros s; rewrite idx_map2; destruct (give_up_output_done (idx (outputs r) s)) as [Hc Hq];
    unfold is_done; by rewrite Hc, Hq.
Qed.

Lemma tick_gives_up r now g :
  live r -> finished r = false -> give_up_at r = Some g -> g <= now ->
  ready (tick r now) /\ finished (tick r now) = false.
Proof.
  intros [_ Le Lg _] Hf Hg Hnow. unfold tick. rewrite Hf. cbv zeta.
  set (r1 := fire_timeout r now).
  assert (H1 : r1 = r <| timeout_at := timeout_at r1 |>).
  { subst r1. unfold fire_timeout, terminate. destruct (reached _ _); [|by destruct r].
    destruct (terminated_at r) eqn:E; [|by destruct Le; [congruence|]]. cbn. by rewrite E. }
  set (r2 := fire_grace r1 now).
  assert (H2 : silent r2 /\ give_up_at r2 = Some g /\ finished r2 = false).
  { subst r2. unfold fire_grace. rewrite H1. cbn. destruct (Lg g Hg) as [(t & Ht & Hle)|Hs].
    - rewrite Ht. cbn. destruct (Z.leb_spec t now); [|lia]. split; [apply end_grace_silent|done].
    - destruct (reached _ _); [split; [apply end_grace_silent|done]|].
      split; [exact Hs|split; [exact Hg|exact Hf]]. }
  clearbody r2. clear r1 H1. destruct H2 as (Hs & Hg2 & Hf2).
  set (r3 := fire_settlement r2 now).
  assert (H3 : r3 = r2 <| settling := settling r3 |>).
  { subst r3. unfold fire_settlement. destruct (settling r2) as [|[]| |] eqn:E; try destruct (_ <=? _);
      cbn; rewrite ?E; destruct r2; cbn in *; by subst. }
  assert (Hs3 : silent r3) by (rewrite H3; exact Hs).
  assert (Hf3 : finished r3 = false) by (by rewrite H3).
  assert (Hg3 : give_up_at r3 = Some g) by (by rewrite H3).
  clearbody r3. clear H3. unfold fire_give_up. rewrite Hg3. cbn [reached].
  destruct (Z.leb_spec g now); [|lia].
  destruct (is_cleaned_up r3) eqn:Hc.
  - split; [by apply fire_abandon_ready, cleaned_up_ready|].
    unfold fire_abandon. repeat case_match; done.
  - split; [apply fire_abandon_ready, give_up_ready|].
    unfold fire_abandon, give_up_now. repeat case_match; done.
Qed.

Lemma terminate_gave_up r now c : gave_up (terminate r now c) = gave_up r.
Proof. unfold terminate, close_input. repeat case_match; done. Qed.

Lemma tick_gave_up r now : gave_up r = true -> gave_up (tick r now) = true.
Proof.
  intros H. unfold tick. destruct (finished r); [done|]. cbv zeta.
  assert (H1 : gave_up (fire_timeout r now) = true).
  { unfold fire_timeout. destruct (reached _ _); [by rewrite terminate_gave_up|done]. }
  revert H1. generalize (fire_timeout r now). clear. intros r H.
  assert (H1 : gave_up (fire_settlement (fire_grace r now) now) = true).
  { unfold fire_grace, fire_settlement. repeat case_match; done. }
  revert H1. generalize (fire_settlement (fire_grace r now) now). clear. intros r H.
  assert (H1 : gave_up (fire_give_up r now) = true).
  { unfold fire_give_up, give_up_now. repeat case_match; done. }
  revert H1. generalize (fire_give_up r now). clear. intros r H.
  unfold fire_abandon. repeat case_match; done.
Qed.

(** C4: The runner always finishes. For any sequence of calls, once it has given up, or the time
    at which it must has come, at most six calls of [next_message] return the terminal outcome,
    with any buffer and whatever credit the peer granted, even if the workload never launched,
    exited or closed its streams and its cleanup never settled. *)
Theorem runner_finishes (k : Key) (l : Limits) (r : Runner) (now : Z) (buffer : list byte) :
  valid_limits l -> runner_reachable k l r -> finished r = false ->
  gave_up r = true \/ (exists g, give_up_at r = Some g /\ g <= now) ->
  exists o, drain 6 (tick r now) buffer = Some o.
Proof.
  intros Hl Hr Hf H. pose proof (runner_reachable_live _ _ _ Hl Hr) as Hlive.
  pose proof (runner_reachable_inv _ _ _ Hl Hr) as Hi. pose proof (keeps_tick r now Hi) as [Hi' Hq].
  apply ready_drains; [done| | |apply work_bound].
  - destruct H as [H|(g & Hg & Hle)]; [|by eapply tick_gives_up].
    apply gave_up_ready; [done|by apply live_tick|by apply tick_gave_up].
  - by rewrite (rq_finished _ _ _ Hq).
Qed.

Lemma runner_finishes_witness :
  exists o, drain 6 (tick (runner_after (sample_ops ++ [OpCancel 3 sample_key Cancelled])) 33)
              (replicate 4 Byte.x00) = Some o.
Proof.
  apply (runner_finishes sample_key sample_limits).
  - apply sample_limits_valid.
  - apply runner_after_reachable. repeat constructor.
  - vm_compute. reflexivity.
  - right. exists 33. vm_compute. split; [reflexivity|discriminate].
Defined.

Lemma terminate_timers r now c : timers (terminate r now c) = timers r.
Proof. unfold terminate, close_input. repeat case_match; done. Qed.

Lemma tick_timers r now : timers (tick r now) = timers r.
Proof.
  unfold tick. destruct (finished r); [done|]. cbv zeta.
  transitivity (timers (fire_timeout r now)).
  - generalize (fire_timeout r now). clear. intros r.
    transitivity (timers (fire_settlement (fire_grace r now) now)).
    + generalize (fire_settlement (fire_grace r now) now). clear. intros r.
      transitivity (timers (fire_give_up r now)).
      * generalize (fire_give_up r now). clear. intros r. unfold fire_abandon. repeat case_match; done.
      * unfold fire_give_up, give_up_now. repeat case_match; done.
    + unfold fire_grace, fire_settlement. repeat case_match; done.
  - unfold fire_timeout. destruct (reached _ _); [by rewrite terminate_timers|done].
Qed.

Lemma terminate_give_up_at r now c :
  durations (timers r) -> terminated_at r = None ->
  now + grace (timers r) + settlement (timers r) <= INSTANT_MAX ->
  give_up_at (terminate r now c) = Some (now + grace (timers r) + settlement (timers r)).
Proof.
  intros (Hg & Hs & _) Ht Hm. unfold terminate. rewrite Ht. cbn [is_some].
  set (r1 := if is_some (exit _) then _ else _).
  assert (H1 : timers r1 = timers r) by (subst r1; by destruct (is_some _)). clearbody r1.
  pose proof (fr_timers _ _ (frame_close_input r1)) as H2. rewrite H1 in H2. revert H2.
  generalize (close_input r1). clear r1 H1. intros r2 H2. cbv zeta.
  assert (He : (grace_until (r2 <| grace_until := after now (grace (timers r2)) |>)
                ≫= fun at_ => after at_ (settlement (timers r2)))
               = Some (now + grace (timers r) + settlement (timers r))).
  { cbn. rewrite H2, after_exact by lia. cbn. rewrite after_exact by lia. done. }
  cbn in He |- *. destruct (reached _ _); cbn; exact He.
Qed.

(** Termination is bounded from the moment it is asked for. A cancellation that the runner
    applies sets its give-up time to the grace and settlement times from now; when it is dropped,
    reset or disconnected, to at most the settlement time from now. *)
Theorem runner_termination_bounded (r : Runner) (now : Z) (k : Key) (c : Cause) :
  durations (timers r) ->
  now + grace (timers r) + settlement (timers r) <= INSTANT_MAX ->
  (forall r', cancel r now k c = (r', Ok Applied) ->
     give_up_at r' = Some (now + grace (timers r) + settlement (timers r)))
  /\ (finished (tick r now) = false -> detached (tick r now) = false ->
      exists g, give_up_at (detach r now c) = Some g /\ g <= now + settlement (timers r)).
Proof.
  intros Hd Hm. split.
  - intros r'. unfold cancel. destruct (admits (key r) k) as [[]|]; try done. cbv zeta.
    destruct (finished (tick r now) || _) eqn:E; [done|]. intros [= <-].
    apply orb_false_iff in E as [_ E]. rewrite <- (tick_timers r now) in *.
    apply terminate_give_up_at; [done| |done]. by destruct (terminated_at (tick r now)).
  - intros Hf Hdet. unfold detach. cbv zeta. rewrite Hf, Hdet. cbn.
    rewrite terminate_timers, tick_timers. destruct Hd as (Hg & _).
    rewrite after_exact by lia. unfold earliest. case_match; eexists; (split; [done|lia]).
Qed.

Lemma runner_termination_bounded_witness :
  give_up_at (cancel (runner_after sample_ops) 3 sample_key Cancelled).1 = Some 33
  /\ exists g, give_up_at (detach (runner_after sample_ops) 3 Dropped) = Some g /\ g <= 23.
Proof.
  split.
  - apply (runner_termination_bounded (runner_after sample_ops) 3 sample_key Cancelled).
    + by repeat split.
    + vm_compute. discriminate.
    + vm_compute. reflexivity.
  - apply (runner_termination_bounded (runner_after sample_ops) 3 sample_key Dropped).
    + by repeat split.
    + vm_compute. discriminate.
    + vm_compute. reflexivity.
    + vm_compute. reflexivity.
Defined.
