(* ===== verification/PeerLive.v ===== *)
(** * The peer's timers and progress

    A tick before the peer's deadline changes nothing, one at or after it moves the deadline past
    it; and once the peer gave up, or has its outcome and its sink's grace is over, it reports its
    final outcome within five events. *)

From S2P Require Import Prelude ExecTypes Credit RunnerFacts Peer PeerFacts.

(** ** The deadline *)

Lemma peer_deadline_later p now :
  finished p = false ->
  later (deadline p) now <->
  later (timeout_at p) now /\ later (grace_until p) now /\ later (give_up_at p) now.
Proof.
  intros Hf. unfold deadline. rewrite Hf. cbn [fold_left]. rewrite !later_earliest.
  pose proof (later_none now). tauto.
Qed.

Lemma peer_tick_early p now : later (deadline p) now -> tick p now = p.
Proof.
  unfold tick. destruct (finished p) eqn:Hf; [done|]. intros H.
  apply peer_deadline_later in H as (H1 & H2 & H3); [|done].
  apply later_reached in H1, H2, H3. unfold fire_timeout. rewrite H1.
  unfold fire_grace. rewrite H2. unfold fire_give_up. by rewrite H3.
Qed.

(** What ending the grace leaves of the times. *)
Lemma end_grace_times p :
  timeout_at (end_grace p) = timeout_at p /\ grace_until (end_grace p) = None
  /\ give_up_at (end_grace p) = give_up_at p /\ finished (end_grace p) = finished p
  /\ gave_up (end_grace p) = gave_up p /\ detached (end_grace p) = detached p
  /\ terminal_outcome (end_grace p) = terminal_outcome p
  /\ terminated_at (end_grace p) = terminated_at p /\ timers (end_grace p) = timers p.
Proof.
  unfold end_grace, ALL, end_grace_stream. cbn. destruct (drop_inbox _); cbn.
  destruct (drop_inbox _); cbn. done.
Qed.

Lemma close_input_fields p :
  timeout_at (close_input p) = timeout_at p /\ finished (close_input p) = finished p
  /\ timers (close_input p) = timers p /\ terminal_outcome (close_input p) = terminal_outcome p
  /\ terminated_at (close_input p) = terminated_at p /\ detached (close_input p) = detached p
  /\ gave_up (close_input p) = gave_up p /\ give_up_at (close_input p) = give_up_at p
  /\ grace_until (close_input p) = grace_until p.
Proof. unfold close_input. by destruct (g_closed _). Qed.

(** What termination decides, when it is the first. *)
Lemma terminate_first p now c :
  finished p = false -> terminated_at p = None ->
  exists q, timers q = timers p /\ terminal_outcome q = terminal_outcome p /\ finished q = false
    /\ timeout_at q = None /\ grace_until q = after now (grace (timers p))
    /\ detached q = detached p /\ gave_up q = gave_up p /\ terminated_at q = Some now
    /\ (terminal_outcome p = None ->
        give_up_at q = (t ← after now (grace (timers p)); after t (settlement (timers p))))
    /\ terminate p now c = if reached (grace_until q) now then end_grace q else q.
Proof.
  intros Hf Ht. unfold terminate. rewrite Hf, Ht. cbv zeta. cbn [orb is_some].
  set (p1 := p <| terminated_at := Some now |> <| timeout_at := None |> <| cause := Some c |>).
  destruct (close_input_fields p1) as (T1 & F1 & M1 & O1 & A1 & D1 & G1 & _).
  revert T1 F1 M1 O1 A1 D1 G1. generalize (close_input p1). subst p1. intros p2 T F M O A D G.
  cbn in T, F, M, O, A, D, G.
  eexists. split_and!; [| | | | | | | | |reflexivity]; cbn; rewrite O;
    destruct (terminal_outcome p); cbn; rewrite ?M; congruence.
Qed.

Lemma terminate_times p now c :
  timeout_at p = None ->
  timeout_at (terminate p now c) = None /\ finished (terminate p now c) = finished p.
Proof.
  intros H. destruct (finished p) eqn:Hf; [unfold terminate; by rewrite Hf|].
  destruct (terminated_at p) eqn:Ht; [unfold terminate; by rewrite Hf, Ht|].
  destruct (terminate_first p now c Hf Ht) as (q & _ & _ & Hqf & Hqt & _ & _ & _ & _ & _ & ->).
  destruct (reached _ _); [|done]. destruct (end_grace_times q) as (-> & _ & _ & -> & _). done.
Qed.

Lemma peer_tick_later p now : later (deadline (tick p now)) now.
Proof.
  unfold tick. destruct (finished p) eqn:Hf; [by unfold deadline; rewrite Hf|]. cbv zeta.
  assert (H1 : later (timeout_at (fire_timeout p now)) now /\ finished (fire_timeout p now) = false).
  { unfold fire_timeout. destruct (reached _ _) eqn:E; [|split; [by apply later_reached|done]].
    destruct (terminate_times (p <| timeout_at := None |>) now TimedOut) as [-> ->]; done. }
  revert H1. generalize (fire_timeout p now). clear. intros p [H1 Hf].
  assert (H2 : later (timeout_at (fire_grace p now)) now /\ later (grace_until (fire_grace p now)) now
               /\ finished (fire_grace p now) = false).
  { unfold fire_grace. destruct (reached _ _) eqn:E; [|split_and!; try done; by apply later_reached].
    destruct (end_grace_times p) as (-> & -> & _ & -> & _). done. }
  revert H2. generalize (fire_grace p now). clear. intros p (H1 & H2 & Hf).
  unfold fire_give_up. destruct (reached _ _) eqn:E.
  - set (q := p <| give_up_at := None |> <| gave_up := true |>).
    destruct (end_grace_times q) as (Ht & Hg & Hu & Hfi & _).
    apply peer_deadline_later; [by rewrite Hfi|]. by rewrite Ht, Hg, Hu.
  - apply peer_deadline_later; [done|]. by apply later_reached in E.
Qed.

(** The peer's deadline is exact: a tick before it changes nothing at all, and after a tick
    the next deadline, if any, is in the future. *)
Theorem peer_deadline_exact (p : Peer) (now : Z) :
  (later (deadline p) now -> tick p now = p) /\ later (deadline (tick p now)) now.
Proof. split; [apply peer_tick_early|apply peer_tick_later]. Qed.

Lemma peer_deadline_exact_witness :
  tick (peer_after (sample_peer_ops ++ [OpCancel 3])) 12 = peer_after (sample_peer_ops ++ [OpCancel 3]).
Proof.
  apply (peer_deadline_exact (peer_after (sample_peer_ops ++ [OpCancel 3])) 12).
  intros t Ht. vm_compute in Ht. injection Ht as <-. reflexivity.
Defined.

(** ** Progress to the final outcome *)

(** The sink has all it will get, and the outcome is known or given up. *)
Record concluded (p : Peer) : Prop := {
  co_empty : forall s, inbox_bytes (n_inbox (idx (outputs p) s)) = [];
  co_outcome : terminal_outcome p <> None \/ detached p = true \/ gave_up p = true;
}.

Definition flag (b : bool) : nat := if b then 1%nat else 0%nat.
Definition pending_end (i : Incoming) : bool := n_ended i && negb (n_end_event i).
Definition pending_events (p : Peer) : nat :=
  (flag (started_event p) + flag (g_closed_event (input_state p))
   + flag (pending_end (idx (outputs p) Stdout)) + flag (pending_end (idx (outputs p) Stderr)))%nat.

(** Calls [next_event] until it returns the final outcome. *)
Fixpoint await (calls : nat) (p : Peer) : option Outcome :=
  match calls with
  | O => None
  | S calls =>
      match next_event p with
      | (_, Some (EFinished o)) => Some o
      | (p', Some _) => await calls p'
      | (_, None) => None
      end
  end.

Lemma concluded_outcome p : concluded p -> exists o, outcome p = Some o.
Proof.
  intros [He Ho]. unfold outcome.
  assert (all2 (fun i => inbox_is_empty (n_inbox i)) (outputs p) = true) as ->.
  { apply all2_spec. intros s. unfold inbox_is_empty. by apply bool_decide_eq_true. }
  cbn [negb]. destruct (terminal_outcome p); [by eexists|].
  destruct Ho as [?|[-> | ->]]; [done|..]; rewrite ?orb_true_r; by eexists.
Qed.

Lemma concluded_event p :
  concluded p -> finished p = false ->
  (exists p' o, next_event p = (p', Some (EFinished o))) \/
  exists p' e, next_event p = (p', Some e) /\ concluded p' /\ finished p' = false
    /\ (pending_events p' < pending_events p)%nat.
Proof.
  intros Hc Hf. pose proof Hc as [He Ho]. unfold next_event. rewrite Hf.
  destruct (started_event p) eqn:Es.
  { right. eexists _, _. split_and!; [done|by split|done|]. unfold pending_events. cbn. rewrite Es. cbn. lia. }
  destruct (g_closed_event _) eqn:Ec.
  { right. eexists _, _. split_and!; [done|by split|done|]. unfold pending_events. cbn. rewrite Ec. cbn. lia. }
  destruct (List.find _ ALL) as [s|] eqn:Efind.
  - right. eexists _, _. split_and!; [done| |done|].
    + split; [|done]. intros s'. cbn. rewrite idx_alter2. case_decide; [subst|]; apply He.
    + apply find_some in Efind as [_ Hp]. apply andb_true_iff in Hp as [Hp Hn].
      apply andb_true_iff in Hp as [Hp _]. unfold pending_events, pending_end. cbn.
      destruct s; cbn in *; rewrite Hp, Hn; cbn; lia.
  - left. destruct (concluded_outcome p Hc) as [o ->]. by eexists _, _.
Qed.

Lemma concluded_awaits n : forall p,
  concluded p -> finished p = false -> (pending_events p < n)%nat -> exists o, await n p = Some o.
Proof.
  induction n as [|n IH]; intros p Hc Hf Hn; [lia|]. cbn.
  destruct (concluded_event p Hc Hf) as [(p' & o & ->)|(p' & e & -> & Hc' & Hf' & Hlt)]; [by eexists|].
  destruct e; try (apply IH; auto; lia). by eexists.
Qed.

Lemma pending_bound p : (pending_events p < 5)%nat.
Proof.
  assert (H : forall b, (flag b <= 1)%nat) by (intros []; cbn; lia). unfold pending_events.
  pose proof (H (started_event p)). pose proof (H (g_closed_event (input_state p))).
  pose proof (H (pending_end (idx (outputs p) Stdout))).
  pose proof (H (pending_end (idx (outputs p) Stderr))). lia.
Qed.

Lemma discarding_empty p :
  peer_inv p -> (forall s, n_discarding (idx (outputs p) s) = true) ->
  forall s, inbox_bytes (n_inbox (idx (outputs p) s)) = [].
Proof. intros Hi Hd s. by apply (ok_discarding _ _ (inv_outputs _ Hi s)). Qed.

Lemma quiet_empty p p' s :
  peer_quiet nothing p p' -> inbox_bytes (n_inbox (idx (outputs p) s)) = [] ->
  inbox_bytes (n_inbox (idx (outputs p') s)) = [].
Proof.
  intros Hq He. destruct (qn_bytes _ _ _ (pq_outputs _ _ _ Hq s)) as [H|(_ & H & _)]; [|done].
  rewrite He in H. unfold nothing in H. symmetry in H. by apply app_eq_nil in H as [_ ?].
Qed.

Lemma quiet_discarding p p' :
  peer_quiet nothing p p' -> (forall s, n_discarding (idx (outputs p) s) = true) ->
  forall s, n_discarding (idx (outputs p') s) = true.
Proof. intros Hq H s. apply (qn_discarding _ _ _ (pq_outputs _ _ _ Hq s)), H. Qed.

(** Termination leaves what the outcome depends on, and is recorded. *)
Lemma terminate_flags p now c :
  detached (terminate p now c) = detached p /\ gave_up (terminate p now c) = gave_up p
  /\ timers (terminate p now c) = timers p
  /\ (finished p = false -> terminated_at (terminate p now c) <> None)
  /\ (finished p = true \/ terminated_at p <> None -> terminate p now c = p).
Proof.
  destruct (finished p) eqn:Hf; [unfold terminate; by rewrite Hf|].
  destruct (terminated_at p) eqn:Ht.
  { unfold terminate. rewrite Hf, Ht. cbn. split_and!; try done. congruence. }
  destruct (terminate_first p now c Hf Ht) as (q & Hm & _ & _ & _ & _ & Hd & Hg & Ha & _ & ->).
  split_and!; try (by intros [|]); destruct (reached _ _); try congruence;
    destruct (end_grace_times q) as (_ & _ & _ & _ & G & D & _ & A & M); congruence.
Qed.

(** The grace and give-up times are set only by a termination. *)
Definition timed (p : Peer) : Prop :=
  grace_until p <> None \/ give_up_at p <> None -> terminated_at p <> None.

Lemma timed_end_grace p : timed p -> timed (end_grace p).
Proof.
  unfold timed. destruct (end_grace_times p) as (_ & -> & -> & _ & _ & _ & _ & -> & _). intuition.
Qed.

Lemma timed_terminate p now c : timed p -> timed (terminate p now c).
Proof.
  intros H. destruct (terminate_flags p now c) as (_ & _ & _ & Ht & Hs).
  destruct (finished p) eqn:Hf; [by rewrite Hs by auto|]. intros _. auto.
Qed.

Lemma timed_tick p now : timed p -> timed (tick p now).
Proof.
  intros H. unfold tick. destruct (finished p); [done|]. cbv zeta.
  assert (H1 : timed (fire_timeout p now)).
  { unfold fire_timeout. destruct (reached _ _); [by apply timed_terminate|done]. }
  revert H1. generalize (fire_timeout p now). clear. intros p H.
  assert (H1 : timed (fire_grace p now)).
  { unfold fire_grace. destruct (reached _ _); [by apply timed_end_grace|done]. }
  revert H1. generalize (fire_grace p now). clear. intros p H.
  unfold fire_give_up. destruct (reached _ _); [|done]. apply timed_end_grace.
  unfold timed in *. cbn. intuition.
Qed.

Lemma timed_close_input p : timed p -> timed (close_input p).
Proof.
  unfold timed. by destruct (close_input_fields p) as (_ & _ & _ & _ & -> & _ & _ & -> & ->).
Qed.

Lemma timed_terminal p now k o : timed p -> timed (terminal p now k o).1.
Proof.
  intros H. unfold terminal. destruct (admits (key p) k) as [[]|]; try done. cbv zeta.
  pose proof (timed_tick p now H) as H1. revert H1. generalize (tick p now). clear. intros p H.
  destruct (ignores_runner p); [done|]. destruct (is_some (terminal_outcome p)); [done|].
  destruct (negb _); [done|]. cbn [fst].
  set (p1 := p <| terminal_outcome := _ |> <| give_up_at := _ |> <| timeout_at := _ |> <| cancel_message := _ |>).
  assert (H1 : timed p1) by (unfold timed in *; subst p1; cbn in *; intuition).
  apply timed_close_input in H1. revert H1. generalize (close_input p1). clear. intros p H.
  destruct (_ && _); [|done]. destruct (reached _ _); [apply timed_end_grace|]; unfold timed; done.
Qed.

Lemma timed_detach p now c : timed p -> timed (detach p now c).
Proof.
  intros H. unfold detach. cbv zeta. apply (timed_tick p now) in H. revert H.
  generalize (tick p now). clear. intros p H. destruct (_ || _); [done|].
  apply (timed_terminate p now c) in H. unfold timed in *. cbn. intuition.
Qed.

(** A call that leaves the times. *)
Lemma timed_same p p' :
  grace_until p' = grace_until p -> give_up_at p' = give_up_at p ->
  terminated_at p' = terminated_at p -> timed p -> timed p'.
Proof. unfold timed. by intros -> -> ->. Qed.

Lemma timed_call p op : peer_inv p -> timed p -> timed (peer_call p op).1.
Proof.
  intros Hi H. destruct op as [k u|k|k s b|k s|k|now k o|b| |s n|now|now|now|now|now|b| ]; cbn.
  - destruct (credit p k u) eqn:E. apply peer_credit_cases in E as [[-> _]|(_ & _ & _ & _ & ->)]; done.
  - destruct (started p k) eqn:E. apply started_cases in E as [[-> _]|(_ & _ & _ & _ & ->)]; done.
  - destruct (output p k s b) eqn:E.
    apply peer_output_cases in E as [[-> _]|(_ & _ & _ & _ & E)]; [done|].
    destruct (n_discarding _); by destruct E as [_ ->].
  - destruct (end_output p k s) eqn:E. apply end_output_cases in E as [[-> _]|(_ & _ & _ & ->)]; done.
  - unfold input_closed. destruct (admits _ _) as [[]|]; try done. destruct (_ || _); [done|].
    by apply timed_close_input.
  - pose proof (timed_terminal p now k o H). by destruct (terminal p now k o).
  - done.
  - unfold end_input. by destruct (g_closed _).
  - unfold consumed. by destruct (inbox_pop _ _).
  - by apply timed_terminate, timed_tick.
  - unfold dropped. apply (timed_tick p now), (timed_terminate _ now Dropped) in H.
    destruct (finished _); [done|by apply timed_end_grace].
  - by apply timed_detach.
  - by apply timed_detach.
  - by apply timed_tick.
  - destruct (next_message p b) as [[p' b'] [m|]] eqn:E; apply peer_next_message_cases in E; try done.
    + destruct E as (_ & _ & d & Hs & _). revert H. destruct Hs;
        match goal with H : psame _ _ |- _ => rewrite H end; by apply timed_same.
    + by destruct E as [-> _].
  - destruct (next_event p) as [p' e] eqn:E. unfold next_event in E. cbn.
    repeat case_match; simplify_eq; exact H.
Qed.

Lemma peer_reachable_timed k l p : valid_limits l -> peer_reachable k l p -> timed p.
Proof.
  intros Hl. induction 1 as [t now|p op Hr IH Ho]; [by intros [|]|].
  apply timed_call; [by eapply peer_reachable_inv|done].
Qed.

(** What a tick does, by its steps, once the peer is terminated. *)
Lemma tick_terminated p now :
  finished p = false -> terminated_at p <> None ->
  exists p1, p1 = p <| timeout_at := timeout_at p1 |>
    /\ tick p now = fire_give_up (fire_grace p1 now) now.
Proof.
  intros Hf Ht. exists (fire_timeout p now). unfold tick. rewrite Hf. split; [|done].
  unfold fire_timeout. destruct (reached _ _); [|by destruct p].
  destruct (terminate_flags (p <| timeout_at := None |>) now TimedOut) as (_ & _ & _ & _ & Hs).
  rewrite Hs; [done|by right].
Qed.

Lemma fire_grace_fields p now :
  gave_up (fire_grace p now) = gave_up p /\ detached (fire_grace p now) = detached p
  /\ terminal_outcome (fire_grace p now) = terminal_outcome p
  /\ give_up_at (fire_grace p now) = give_up_at p /\ finished (fire_grace p now) = finished p.
Proof.
  unfold fire_grace. destruct (reached _ _); [|done].
  by destruct (end_grace_times p) as (_ & _ & -> & -> & -> & -> & -> & _).
Qed.

Lemma fire_give_up_fields p now :
  (gave_up p = true -> gave_up (fire_give_up p now) = true)
  /\ detached (fire_give_up p now) = detached p
  /\ terminal_outcome (fire_give_up p now) = terminal_outcome p
  /\ (forall g, give_up_at p = Some g -> g <= now ->
      gave_up (fire_give_up p now) = true
      /\ forall s, n_discarding (idx (outputs (fire_give_up p now)) s) = true).
Proof.
  unfold fire_give_up. destruct (reached _ _) eqn:E.
  - destruct (end_grace_times (p <| give_up_at := None |> <| gave_up := true |>))
      as (_ & _ & _ & _ & -> & -> & -> & _). split_and!; try done.
    intros g _ _. split; [done|]. intros s. apply end_grace_discards.
  - split_and!; try done. intros g Hg Hle. rewrite Hg in E. cbn in E. apply Z.leb_gt in E. lia.
Qed.

Lemma tick_finished p now : finished (tick p now) = finished p.
Proof.
  unfold tick. destruct (finished p) eqn:Hf; [done|]. cbv zeta.
  transitivity (finished (fire_grace (fire_timeout p now) now)).
  - generalize (fire_grace (fire_timeout p now) now). intros q. unfold fire_give_up.
    destruct (reached _ _); [|done].
    by destruct (end_grace_times (q <| give_up_at := None |> <| gave_up := true |>)) as (_ & _ & _ & -> & _).
  - destruct (fire_grace_fields (fire_timeout p now) now) as (_ & _ & _ & _ & ->).
    unfold fire_timeout. destruct (reached _ _); [|done].
    by destruct (terminate_times (p <| timeout_at := None |>) now TimedOut) as [_ ->].
Qed.

Lemma tick_flags p now :
  (gave_up p = true -> gave_up (tick p now) = true) /\ detached (tick p now) = detached p.
Proof.
  unfold tick. destruct (finished p); [done|]. cbv zeta.
  destruct (fire_give_up_fields (fire_grace (fire_timeout p now) now) now) as (Ug & -> & _).
  destruct (fire_grace_fields (fire_timeout p now) now) as (Gg & -> & _). rewrite Gg in Ug.
  unfold fire_timeout in *. destruct (reached (timeout_at p) now); [|done].
  destruct (terminate_flags (p <| timeout_at := None |>) now TimedOut) as (-> & Hg & _).
  rewrite Hg in Ug. done.
Qed.

(** What the timers do once the peer is terminated. *)
Lemma tick_concludes p now :
  peer_inv p -> finished p = false -> terminated_at p <> None ->
  let p' := tick p now in
  (forall g, give_up_at p = Some g -> g <= now -> gave_up p' = true)
  /\ (forall t, grace_until p = Some t -> t <= now ->
      forall s, n_discarding (idx (outputs p') s) = true).
Proof.
  intros Hi Hf Ht. destruct (tick_terminated p now Hf Ht) as (p1 & E1 & ->). cbn zeta.
  assert (Hi1 : peer_inv p1) by (rewrite E1; destruct Hi; by split).
  destruct (fire_grace_fields p1 now) as (_ & _ & _ & Gu & _).
  destruct (fire_give_up_fields (fire_grace p1 now) now) as (_ & _ & _ & Uu). split.
  - intros g Hg Hle. apply (Uu g); [|done]. by rewrite Gu, E1.
  - intros t Hg Hle. pose proof (pkeeps_fire_grace p1 now Hi1) as [Hi2 _].
    pose proof (pkeeps_fire_give_up _ now Hi2) as [_ Hq]. apply (quiet_discarding _ _ Hq).
    unfold fire_grace. rewrite E1. cbn. rewrite Hg. cbn. destruct (Z.leb_spec t now); [|lia].
    intros s. apply end_grace_discards.
Qed.

(** C5: The peer always finishes. For any sequence of calls, once it has given up or the time at
    which it must has come, or once it has the runner's outcome or no connection and its sink
    took everything or its grace is over, at most five calls of [next_event] return the final
    outcome. *)
Theorem peer_finishes (k : Key) (l : Limits) (p : Peer) (now : Z) :
  valid_limits l -> peer_reachable k l p -> finished p = false ->
  gave_up p = true
  \/ (exists g, give_up_at p = Some g /\ g <= now)
  \/ ((terminal_outcome p <> None \/ detached p = true)
      /\ ((forall s, inbox_bytes (n_inbox (idx (outputs p) s)) = [])
          \/ exists t, grace_until p = Some t /\ t <= now)) ->
  exists o, await 5 (tick p now) = Some o.
Proof.
  intros Hl Hr Hf H. pose proof (peer_reachable_inv _ _ _ Hl Hr) as Hi.
  pose proof (peer_reachable_timed _ _ _ Hl Hr) as Htimed.
  pose proof (pkeeps_tick p now Hi) as [Hi' Hq]. destruct (tick_flags p now) as [Kg Kd].
  assert (Hgave : gave_up (tick p now) = true -> concluded (tick p now)).
  { intros Hg. split; [|by auto]. apply discarding_empty; [done|]. by apply (inv_gave_up _ Hi'). }
  apply concluded_awaits; [|by rewrite tick_finished|apply pending_bound].
  destruct H as [H|[(g & Hg & Hle)|[Ho He]]]; [by auto| |].
  - apply Hgave. eapply (tick_concludes p now Hi Hf); [|done..]. apply Htimed. right. congruence.
  - split; [|rewrite (pq_terminal _ _ _ Hq), Kd; destruct Ho; auto].
    destruct He as [He|(t & Hg & Hle)]; [intros s; by eapply quiet_empty|].
    apply discarding_empty; [done|]. eapply (tick_concludes p now Hi Hf); [|done..].
    apply Htimed. left. congruence.
Qed.

Lemma peer_finishes_witness :
  exists o, await 5 (tick (peer_after (sample_peer_ops ++ [OpCancel 3])) 33) = Some o.
Proof.
  apply (peer_finishes sample_key sample_limits).
  - apply sample_limits_valid.
  - apply peer_after_reachable. repeat constructor.
  - vm_compute. reflexivity.
  - right. left. exists 33. vm_compute. split; [reflexivity|discriminate].
Defined.

(** Cancelling is bounded in time. When the first termination of an unfinished peer is its
    caller's cancellation, the sink's grace ends the grace time from now, or has ended; and unless
    the peer already has the runner's outcome, it gives up the settlement time after that. *)
Theorem peer_termination_bounded (p : Peer) (now : Z) :
  durations (timers (tick p now)) ->
  now + grace (timers (tick p now)) + settlement (timers (tick p now)) <= INSTANT_MAX ->
  finished p = false -> terminated_at (tick p now) = None ->
  let t := timers (tick p now) in
  (grace_until (cancel p now) = Some (now + grace t)
   \/ forall s, n_discarding (idx (outputs (cancel p now)) s) = true)
  /\ (terminal_outcome (tick p now) = None ->
      give_up_at (cancel p now) = Some (now + grace t + settlement t)).
Proof.
  intros (Hg & Hs & _) Hm Hf Ht. cbn zeta. unfold cancel.
  destruct (terminate_first (tick p now) now Cancelled) as (q & _ & _ & _ & _ & Eg & _ & _ & _ & Eu & ->);
    [by rewrite tick_finished|done|]. rewrite after_exact in Eg, Eu by lia. cbn in Eu.
  rewrite after_exact in Eu by lia. destruct (reached _ _).
  - destruct (end_grace_times q) as (_ & _ & -> & _). split; [|done]. right. intros s.
    apply end_grace_discards.
  - split; [by left|done].
Qed.

Lemma peer_termination_bounded_witness :
  give_up_at (cancel (peer_after sample_peer_ops) 3) = Some 33.
Proof.
  apply (peer_termination_bounded (peer_after sample_peer_ops) 3); try (vm_compute; reflexivity).
  - vm_compute. repeat split; discriminate.
  - vm_compute. discriminate.
Defined.
