(* ===== verification/Cidr.v ===== *)
(** * IP networks (src/nvx-rs/src/net/cidr.rs)

    Networks, their containment, and the subtraction that turns egress exclusions into the
    networks that stay reachable. An address is its family and its integer. The text forms are not
    modelled: they rest on the standard library's address parser. *)

From stdpp Require Import sorting.
From S2P Require Import Prelude.
#[local] Open Scope Z_scope.

(** ** Addresses and networks *)

Inductive IpAddr : Type := V4 (bits : Z) | V6 (bits : Z).

Definition addr_is_ipv6 (a : IpAddr) : bool := match a with V4 _ => false | V6 _ => true end.
Definition addr_bits (a : IpAddr) : Z := match a with V4 b | V6 b => b end.

(** The derived order of [IpAddr]: IPv4 before IPv6, then by value. *)
Definition addr_lt (a b : IpAddr) : bool :=
  match a, b with
  | V4 x, V4 y | V6 x, V6 y => x <? y
  | V4 _, V6 _ => true
  | V6 _, V4 _ => false
  end.

#[export] Instance IpAddr_eq_dec : EqDecision IpAddr.
Proof. solve_decision. Defined.

Record Cidr := mkCidr { address : IpAddr; prefix : Z }.

#[export] Instance Cidr_eq_dec : EqDecision Cidr.
Proof. solve_decision. Defined.

Definition U128_MAX : Z := 2 ^ 128 - 1.

(** [mask]: the complement of a [u128]. *)
Definition mask (address prefix width : Z) : Z :=
  if prefix =? 0 then 0
  else Z.land address (Z.lxor U128_MAX (Z.shiftl 1 (width - prefix) - 1)).

Definition everything (ipv6 : bool) : Cidr :=
  {| address := if ipv6 then V6 0 else V4 0; prefix := 0 |}.

Definition is_ipv6 (self : Cidr) : bool := addr_is_ipv6 (address self).
Definition width (self : Cidr) : Z := if is_ipv6 self then 128 else 32.
Definition bits (self : Cidr) : Z := addr_bits (address self).

Definition contains (self other : Cidr) : bool :=
  eqb (is_ipv6 self) (is_ipv6 other)
  && (prefix self <=? prefix other)
  && (mask (bits other) (prefix self) (width self) =? bits self).

Definition overlaps (self other : Cidr) : bool := contains self other || contains other self.

Definition with_bits (self : Cidr) (b prefix : Z) : Cidr :=
  {| address := match address self with V4 _ => V4 (b mod 2 ^ 32) | V6 _ => V6 b end;
     prefix := prefix |}.

Definition halves (self : Cidr) : Cidr * Cidr :=
  let prefix := prefix self + 1 in
  (with_bits self (bits self) prefix,
   with_bits self (Z.lor (bits self) (Z.shiftl 1 (width self - prefix))) prefix).

Definition network (self : Cidr) : IpAddr :=
  address (with_bits self (mask (bits self) (prefix self) (width self)) (prefix self)).

(** The derived order of [Cidr]: by address, then by prefix. *)
Definition cidr_le (a b : Cidr) : Prop :=
  addr_lt (address a) (address b) = true
  \/ (address a = address b /\ prefix a <= prefix b).

#[export] Instance cidr_le_dec : RelDecision cidr_le.
Proof. unfold cidr_le. solve_decision. Defined.

(** [slice::partition_point] of a slice that [p] partitions. *)
Fixpoint partition_point {A} (p : A -> bool) (l : list A) : nat :=
  match l with
  | [] => 0%nat
  | x :: l => if p x then S (partition_point p l) else 0%nat
  end.

(** [subtract_sorted]: whether the remainder is within the limit, and the remainder. Each call
    has a longer prefix than its caller's, so a fuel beyond the address width never runs out. *)
Fixpoint subtract_sorted (fuel : nat) (self : Cidr) (excluded : list Cidr) (limit : Z)
    (remainder : list Cidr) : option (bool * list Cidr) :=
  match fuel with
  | O => None
  | S fuel =>
      if bool_decide (excluded = []) then
        let remainder := remainder ++ [self] in Some (len remainder <=? limit, remainder)
      else if existsb (fun exclusion => contains exclusion self) excluded then Some (true, remainder)
      else
        let '(low, high) := halves self in
        let split := partition_point (fun exclusion => addr_lt (address exclusion) (address high)) excluded in
        match subtract_sorted fuel low (take split excluded) limit remainder with
        | Some (true, remainder) => subtract_sorted fuel high (drop split excluded) limit remainder
        | stopped => stopped
        end
  end.

Definition subtract_fuel : nat := 130.

(** [subtract]: [None] if the fuel ran out, else what the code returns. *)
Definition subtract (self : Cidr) (excluded : list Cidr) (limit : Z) : option (option (list Cidr)) :=
  let overlapping := merge_sort cidr_le (List.filter (fun exclusion => overlaps exclusion self) excluded) in
  match subtract_sorted subtract_fuel self overlapping limit [] with
  | None => None
  | Some (within, remainder) => Some (if within then Some remainder else None)
  end.

(** ** What a network is *)

(** The number of its addresses. *)
Definition span (c : Cidr) : Z := 2 ^ (width c - prefix c).

(** Networks that the code can build: their host bits are clear. *)
Record valid (c : Cidr) : Prop := {
  va_prefix : 0 <= prefix c <= width c;
  va_bits : 0 <= bits c < 2 ^ width c;
  va_host : (span c | bits c);
}.

(** The addresses of a network. *)
Definition member (c : Cidr) (a : IpAddr) : Prop :=
  addr_is_ipv6 a = is_ipv6 c /\ bits c <= addr_bits a < bits c + span c.

Lemma width_cases c : width c = 32 \/ width c = 128.
Proof. unfold width. destruct (is_ipv6 c); auto. Qed.

Lemma span_pos c : valid c -> 0 < span c.
Proof. intros [Hp _ _]. unfold span. apply Z.pow_pos_nonneg; lia. Qed.

(** Clearing the host bits rounds down to a multiple of the network's size. *)
Lemma mask_spec a p w :
  w = 32 \/ w = 128 -> 0 <= p <= w -> 0 <= a < 2 ^ w -> mask a p w = a - a mod 2 ^ (w - p).
Proof.
  intros Hw Hp Ha. unfold mask. destruct (Z.eqb_spec p 0) as [-> |Hp0].
  { rewrite Z.sub_0_r, Z.mod_small by done. lia. }
  set (k := w - p). assert (Hk : 0 <= k < 128) by lia.
  replace (Z.shiftl 1 k - 1) with (Z.ones k) by (rewrite Z.shiftl_1_l, Z.ones_equiv; lia).
  transitivity (Z.ldiff a (Z.ones k)).
  - apply Z.bits_inj'. intros i Hi. rewrite Z.land_spec, Z.lxor_spec, Z.ldiff_spec.
    replace U128_MAX with (Z.ones 128) by reflexivity. rewrite !Z.testbit_ones_nonneg by lia.
    destruct (Z.ltb_spec i 128).
    + by destruct (i <? k).
    + assert (Hz : Z.testbit a i = false).
      { apply Z.bits_above_log2; [lia|]. destruct (Z.eq_dec a 0) as [-> |]; [cbn; lia|].
        assert (Z.log2 a < 128); [|lia]. apply Z.log2_lt_pow2; [lia|].
        destruct Hw as [-> | ->]; lia. }
      by rewrite Hz.
  - rewrite Z.ldiff_ones_r, Z.shiftr_div_pow2, Z.shiftl_mul_pow2 by lia.
    pose proof (Z.div_mod a (2 ^ k)). lia.
Qed.

(** Rounding down to [b] is lying in the block of [b]. *)
Lemma block_iff a b m : 0 < m -> (m | b) -> a - a mod m = b <-> b <= a < b + m.
Proof.
  intros Hm [q ->]. pose proof (Z.mod_pos_bound a m Hm). split; [lia|].
  intros H'. pose proof (Z.div_mod a m). assert (a / m = q) as Hq; [|nia].
  symmetry. apply (Z.div_unique_pos _ _ _ (a - q * m)); lia.
Qed.

Lemma cidr_contains_iff c o :
  valid c -> valid o ->
  contains c o = true
  <-> is_ipv6 c = is_ipv6 o /\ prefix c <= prefix o /\ bits c <= bits o < bits c + span c.
Proof.
  intros Hc Ho. unfold contains. rewrite !andb_true_iff, eqb_true_iff, Z.leb_le, Z.eqb_eq.
  assert (Hm : is_ipv6 c = is_ipv6 o ->
    mask (bits o) (prefix c) (width c) = bits c <-> bits c <= bits o < bits c + span c).
  { intros Hf. assert (Hw : width o = width c) by (unfold width; by rewrite Hf).
    rewrite mask_spec; [|apply width_cases|apply Hc|rewrite <- Hw; apply Ho].
    apply block_iff; [by apply span_pos|apply Hc]. }
  split.
  - intros [[Hf Hp] H]. apply Hm in H; tauto.
  - intros (Hf & Hp & H). apply Hm in H; tauto.
Qed.

(** ** Networks are nested or apart *)

Lemma span_divides c o : width c = width o -> 0 <= prefix c <= prefix o -> prefix o <= width o ->
  (span o | span c).
Proof.
  intros Hw Hp Ho. unfold span. rewrite Hw. exists (2 ^ (prefix o - prefix c)).
  rewrite <- Z.pow_add_r by lia. f_equal. lia.
Qed.

(** A smaller network lies within a larger one or outside it. *)
Lemma nested_or_apart c o :
  valid c -> valid o -> is_ipv6 c = is_ipv6 o -> prefix c <= prefix o ->
  (bits c <= bits o /\ bits o + span o <= bits c + span c)
  \/ bits o + span o <= bits c \/ bits c + span c <= bits o.
Proof.
  intros Hc Ho Hf Hp. assert (Hw : width c = width o) by (unfold width; by rewrite Hf).
  destruct (span_divides c o Hw) as [k Hk]; [destruct Hc; lia|destruct Ho; lia|].
  pose proof (span_pos o Ho). pose proof (span_pos c Hc).
  destruct Hc as [_ _ [qc Hqc]], Ho as [_ _ [qo Hqo]]. rewrite Hqc, Hqo, Hk in *.
  assert (0 < k) by nia.
  destruct (Z.lt_ge_cases qo (qc * k)); [right; left; nia|].
  destruct (Z.lt_ge_cases qo (qc * k + k)); [left; nia|right; right; nia].
Qed.

Lemma contains_member c o a : valid c -> valid o -> contains c o = true -> member o a -> member c a.
Proof.
  intros Hc Ho H [Hf Ha]. apply cidr_contains_iff in H as (Hfam & Hp & Hb); [|done|done].
  destruct (nested_or_apart c o Hc Ho Hfam Hp) as [?|[?|?]];
    (split; [congruence|]); pose proof (span_pos o Ho); lia.
Qed.

(** Overlapping is sharing an address. *)
Lemma overlaps_iff c o :
  valid c -> valid o -> overlaps c o = true <-> exists a, member c a /\ member o a.
Proof.
  intros Hc Ho. pose proof (span_pos c Hc). pose proof (span_pos o Ho).
  assert (Hself : forall n, 0 < span n -> member n (address n)).
  { intros n Hn. split; [done|]. unfold bits. lia. }
  unfold overlaps. rewrite orb_true_iff. split.
  - intros [H'|H'].
    + exists (address o). split; [|by apply Hself]. by eapply contains_member; [..|apply Hself].
    + exists (address c). split; [by apply Hself|]. by eapply contains_member; [..|apply Hself].
  - intros (a & [Hf1 H1] & [Hf2 H2]). assert (Hf : is_ipv6 c = is_ipv6 o) by congruence.
    destruct (Z.le_ge_cases (prefix c) (prefix o)) as [Hp|Hp]; [left|right].
    + apply cidr_contains_iff; [done..|]. destruct (nested_or_apart c o Hc Ho Hf Hp) as [?|[?|?]];
        split_and?; try done; lia.
    + apply cidr_contains_iff; [done..|].
      destruct (nested_or_apart o c Ho Hc (eq_sym Hf) Hp) as [?|[?|?]]; split_and?; try done; lia.
Qed.

(** ** Halves *)

Lemma lor_clear_bit b k : 0 <= k -> (2 ^ (k + 1) | b) -> Z.lor b (Z.shiftl 1 k) = b + 2 ^ k.
Proof.
  intros Hk [q ->]. rewrite Z.shiftl_1_l.
  assert (Hl : Z.land (q * 2 ^ (k + 1)) (2 ^ k) = 0).
  { apply Z.bits_inj'. intros i Hi. rewrite Z.land_spec, Z.pow2_bits_eqb, Z.bits_0 by done.
    destruct (Z.eqb_spec k i) as [<-|]; [|apply andb_false_r].
    by rewrite Z.mul_pow2_bits_low by lia. }
  rewrite <- Z.lxor_lor by done. symmetry. by apply Z.add_nocarry_lxor.
Qed.

Lemma with_bits_fields c b p :
  0 <= b < 2 ^ width c ->
  is_ipv6 (with_bits c b p) = is_ipv6 c /\ bits (with_bits c b p) = b
  /\ prefix (with_bits c b p) = p /\ width (with_bits c b p) = width c.
Proof.
  unfold width, is_ipv6, bits, with_bits. destruct c as [[x|x] q]; cbn; intros Hb; [|done].
  by rewrite Z.mod_small.
Qed.

Record split_of (self low high : Cidr) : Prop := {
  sp_low : valid low; sp_high : valid high;
  sp_family : is_ipv6 low = is_ipv6 self /\ is_ipv6 high = is_ipv6 self;
  sp_prefix : prefix low = prefix self + 1 /\ prefix high = prefix self + 1;
  sp_bits : bits low = bits self /\ bits high = bits self + span low;
  sp_span : span self = 2 * span low /\ span high = span low;
}.

Lemma halves_spec self low high :
  valid self -> prefix self < width self -> halves self = (low, high) -> split_of self low high.
Proof.
  intros [Hp Hb Hh] Hlt H. unfold halves in H. injection H as <- <-.
  set (k := width self - (prefix self + 1)). assert (Hk : 0 <= k) by lia.
  assert (Hs : span self = 2 ^ (k + 1)) by (unfold span; f_equal; lia).
  rewrite Hs in Hh. rewrite lor_clear_bit by done.
  assert (Hpow : 2 ^ (k + 1) = 2 * 2 ^ k) by (rewrite Z.pow_add_r by lia; lia).
  assert (H2 : 0 < 2 ^ k) by (apply Z.pow_pos_nonneg; lia).
  assert (Hhi : bits self + 2 ^ k < 2 ^ width self).
  { destruct Hh as [q Hq].
    assert (Hd : 2 ^ width self = 2 ^ prefix self * 2 ^ (k + 1))
      by (rewrite <- Z.pow_add_r by lia; f_equal; lia).
    rewrite Hd, Hq, Hpow in *. assert (q < 2 ^ prefix self) by nia. nia. }
  destruct (with_bits_fields self (bits self) (prefix self + 1) Hb) as (F1 & B1 & P1 & W1).
  destruct (with_bits_fields self (bits self + 2 ^ k) (prefix self + 1)) as (F2 & B2 & P2 & W2); [lia|].
  assert (S1 : span (with_bits self (bits self) (prefix self + 1)) = 2 ^ k)
    by (unfold span; rewrite W1, P1; done).
  assert (S2 : span (with_bits self (bits self + 2 ^ k) (prefix self + 1)) = 2 ^ k)
    by (unfold span; rewrite W2, P2; done).
  rewrite Hpow in Hh. destruct Hh as [q Hq].
  split.
  - split; rewrite ?P1, ?W1, ?B1, ?S1; [lia|lia|]. exists (2 * q). lia.
  - split; rewrite ?P2, ?W2, ?B2, ?S2; [lia|lia|]. exists (2 * q + 1). lia.
  - done.
  - done.
  - rewrite B1, B2, S1. done.
  - rewrite S1, S2, Hs. lia.
Qed.

Lemma split_member self low high a :
  valid self -> split_of self low high -> member self a <-> member low a \/ member high a.
Proof.
  intros Hv [Hl Hh [F1 F2] _ [B1 B2] [S1 S2]]. unfold member. rewrite F1, F2, B1, B2, S1, S2.
  pose proof (span_pos low Hl). split; [intros [? ?]|intros [[? ?]|[? ?]]]; (split; [done|lia]) || idtac.
  destruct (Z.lt_ge_cases (addr_bits a) (bits self + span low)); [left|right]; (split; [done|lia]).
Qed.

(** ** The sorted exclusions *)

#[export] Instance cidr_le_total : Total cidr_le.
Proof.
  intros [[x|x] p] [[y|y] q]; unfold cidr_le; cbn;
    try (left; by left); try (right; by left);
    (destruct (Z.ltb_spec x y); [by left; left|]); (destruct (Z.ltb_spec y x); [by right; left|]);
    assert (x = y) as -> by lia; destruct (Z.le_ge_cases p q); auto.
Qed.

#[export] Instance cidr_le_trans : Transitive cidr_le.
Proof.
  intros [[x|x] p] [[y|y] q] [[z|z] r]; unfold cidr_le; cbn;
    intros [H1|[H1 H1']] [H2|[H2 H2']]; try done; bool_to_prop; simplify_eq; auto;
    try (left; apply Z.ltb_lt; lia); (right; split; [done|lia]).
Qed.

(** An exclusion below a bound is sorted before those that are not. *)
Lemma below_closed a b bound :
  cidr_le a b -> addr_lt (address b) bound = true -> addr_lt (address a) bound = true.
Proof.
  destruct a as [[x|x] p], b as [[y|y] q], bound as [z|z]; unfold cidr_le; cbn;
    intros [H|[H _]] H2; try done; simplify_eq; try done; bool_to_prop; apply Z.ltb_lt; lia.
Qed.

Lemma partition_sorted (p : Cidr -> bool) l :
  StronglySorted cidr_le l -> (forall a b, cidr_le a b -> p b = true -> p a = true) ->
  take (partition_point p l) l = List.filter p l
  /\ drop (partition_point p l) l = List.filter (fun e => negb (p e)) l.
Proof.
  intros Hs Hp. induction Hs as [|x l Hs IH Hx]; [done|]. cbn.
  destruct (p x) eqn:E; cbn; [destruct IH as [-> ->]; done|].
  assert (Hn : Forall (fun e => p e = false) l).
  { rewrite Forall_forall in Hx |- *. intros e He. destruct (p e) eqn:Ee; [|done].
    by rewrite (Hp x e (Hx e He) Ee) in E. }
  clear -Hn. induction Hn as [|e l He Hn IH]; [done|]. cbn. rewrite He. cbn.
  destruct IH as [<- IH]. split; [done|]. congruence.
Qed.

(** ** Subtraction *)

(** The network twice as large around a network. *)
Definition parent (c : Cidr) : Cidr :=
  with_bits c (mask (bits c) (prefix c - 1) (width c)) (prefix c - 1).

(** What is left of [self] without [excluded]: exactly the other addresses, in disjoint ascending
    networks within [self], none of which could be larger. *)
Record remains (self : Cidr) (excluded rest : list Cidr) : Prop := {
  rm_exact : forall a, (exists n, n ∈ rest /\ member n a)
                       <-> member self a /\ forall e, e ∈ excluded -> ~ member e a;
  rm_within : forall n, n ∈ rest -> valid n /\ contains self n = true;
  rm_ascending : StronglySorted (fun m n => bits m + span m <= bits n) rest;
  rm_largest : forall n, n ∈ rest -> n = self \/ exists e, e ∈ excluded /\ contains (parent n) e = true;
}.

Lemma contains_refl c : valid c -> contains c c = true.
Proof. intros Hc. apply cidr_contains_iff; [done..|]. pose proof (span_pos c Hc). split_and?; try done; lia. Qed.

Lemma cidr_ext a b : is_ipv6 a = is_ipv6 b -> bits a = bits b -> prefix a = prefix b -> a = b.
Proof. destruct a as [[x|x] p], b as [[y|y] q]; unfold is_ipv6, bits; cbn; congruence. Qed.

Lemma parent_half self low high :
  valid self -> split_of self low high -> parent low = self /\ parent high = self.
Proof.
  intros Hv [Hl Hh [F1 F2] [P1 P2] [B1 B2] [S1 S2]]. pose proof (span_pos low Hl) as Hs.
  assert (W1 : width low = width self) by (unfold width; by rewrite F1).
  assert (W2 : width high = width self) by (unfold width; by rewrite F2).
  assert (Hspan : 2 ^ (width self - prefix self) = span self) by done.
  destruct Hv as [Hp Hb Hho].
  assert (Hm : forall h, h = low \/ h = high ->
    mask (bits h) (prefix h - 1) (width h) = bits self).
  { intros h Hor. assert (Hpre : prefix h - 1 = prefix self) by (destruct Hor as [-> | ->]; lia).
    assert (Hwh : width h = width self) by (destruct Hor as [-> | ->]; done).
    assert (Hbh : bits h = bits self \/ bits h = bits self + span low) by (destruct Hor as [-> | ->]; auto).
    rewrite Hpre, Hwh, mask_spec; [|apply width_cases|lia|
      rewrite <- Hwh; destruct Hor as [-> | ->]; [apply Hl|apply Hh]].
    rewrite Hspan. apply block_iff; [lia|done|]. rewrite S1. lia. }
  unfold parent. rewrite (Hm low), (Hm high) by auto.
  destruct (with_bits_fields low (bits self) (prefix low - 1)) as (E1 & E2 & E3 & _); [by rewrite W1|].
  destruct (with_bits_fields high (bits self) (prefix high - 1)) as (E4 & E5 & E6 & _); [by rewrite W2|].
  split; apply cidr_ext; (congruence || lia).
Qed.

(** An exclusion inside a network, and not all of it, is inside one half. *)
Lemma exclusion_half self low high e :
  valid self -> valid e -> split_of self low high ->
  overlaps e self = true -> contains e self = false ->
  contains self e = true /\
  if addr_lt (address e) (address high) then contains low e = true else contains high e = true.
Proof.
  intros Hv He Hs Ho Hc. pose proof Hs as [Hl Hh [F1 F2] [P1 P2] [B1 B2] [S1 S2]].
  unfold overlaps in Ho. rewrite Hc in Ho. cbn in Ho. split; [done|].
  apply cidr_contains_iff in Ho as (Hf & Hp & Hb); [|done..].
  assert (Hlt : prefix self < prefix e).
  { destruct (Z.eq_dec (prefix self) (prefix e)) as [Heq|]; [|lia]. exfalso.
    assert (Hw : width self = width e) by (unfold width; by rewrite Hf).
    assert (span e = span self) by (unfold span; by rewrite Hw, Heq).
    assert (bits e = bits self).
    { destruct (nested_or_apart self e Hv He Hf Hp) as [?|[?|?]]; pose proof (span_pos e He); lia. }
    rewrite (cidr_ext e self), contains_refl in Hc; try done. }
  assert (Haddr : addr_lt (address e) (address high) = (bits e <? bits high)).
  { revert Hf F2. unfold is_ipv6, bits. destruct e as [[] ?], self as [[] ?], high as [[] ?]; cbn; done. }
  rewrite Haddr. pose proof (span_pos low Hl).
  destruct (Z.ltb_spec (bits e) (bits high)); apply cidr_contains_iff; try done; split_and?; try lia; congruence.
Qed.

Lemma remains_whole self : valid self -> remains self [] [self].
Proof.
  intros Hv. split.
  - intros a. split.
    + intros (n & Hn & Ha). apply list_elem_of_singleton in Hn as ->. split; [done|].
      intros e He. by apply elem_of_nil in He.
    + intros [Ha _]. exists self. split; [by left|done].
  - intros n Hn. apply list_elem_of_singleton in Hn as ->. auto using contains_refl.
  - repeat constructor.
  - intros n Hn. apply list_elem_of_singleton in Hn as ->. by left.
Qed.

Lemma remains_nothing self excluded e :
  valid self -> Forall valid excluded -> e ∈ excluded -> contains e self = true ->
  remains self excluded [].
Proof.
  intros Hv Hx He Hc. rewrite Forall_forall in Hx. split.
  - intros a. split; [intros (n & Hn & _); by apply elem_of_nil in Hn|].
    intros [Ha Hno]. destruct (Hno e He). apply (contains_member e self); auto.
  - intros n Hn. by apply elem_of_nil in Hn.
  - constructor.
  - intros n Hn. by apply elem_of_nil in Hn.
Qed.

Lemma contains_trans a b c :
  valid a -> valid b -> valid c -> contains a b = true -> contains b c = true -> contains a c = true.
Proof.
  intros Ha Hb Hc H1 H2. pose proof (span_pos c Hc).
  assert (Hm : member a (address c)).
  { apply (contains_member a b); try done. apply (contains_member b c); try done.
    split; [done|]. unfold bits. lia. }
  apply cidr_contains_iff in H1 as (F1 & P1 & _); [|done..]. apply cidr_contains_iff in H2 as (F2 & P2 & _); [|done..].
  apply cidr_contains_iff; [done..|]. split; [congruence|]. split; [lia|by destruct Hm].
Qed.

(** The halves' remainders are the network's, one after the other. *)
Lemma remains_split self low high excluded below above r1 r2 :
  valid self -> split_of self low high -> Forall valid excluded -> excluded <> [] ->
  (forall e, e ∈ excluded <-> e ∈ below \/ e ∈ above) ->
  (forall e, e ∈ below -> contains low e = true) -> (forall e, e ∈ above -> contains high e = true) ->
  (forall e, e ∈ excluded -> contains self e = true) ->
  remains low below r1 -> remains high above r2 -> remains self excluded (r1 ++ r2).
Proof.
  intros Hv Hs Hx Hne Hin Hlow Hhigh Hself [X1 W1 A1 L1] [X2 W2 A2 L2].
  pose proof Hs as [Hl Hh [F1 F2] [P1 P2] [B1 B2] [S1 S2]].
  rewrite Forall_forall in Hx. pose proof (span_pos low Hl). pose proof (span_pos high Hh).
  assert (Hcl : contains self low = true) by (apply cidr_contains_iff; try done; split_and?; (done || lia)).
  assert (Hch : contains self high = true) by (apply cidr_contains_iff; try done; split_and?; (done || lia)).
  assert (Hsep : forall a, member low a -> member high a -> False) by (unfold member; intros a [_ ?] [_ ?]; lia).
  split.
  - intros a. rewrite (split_member self low high a) by done. split.
    + intros (n & Hn & Ha). apply elem_of_app in Hn as [Hn|Hn].
      * destruct (proj1 (X1 a) (ex_intro _ n (conj Hn Ha))) as [Hm Hno]. split; [by left|].
        intros e He Hea. apply Hin in He as [He|He]; [by apply (Hno e)|].
        apply (Hsep a Hm). apply (contains_member high e); auto. apply Hx, Hin. by right.
      * destruct (proj1 (X2 a) (ex_intro _ n (conj Hn Ha))) as [Hm Hno]. split; [by right|].
        intros e He Hea. apply Hin in He as [He|He]; [|by apply (Hno e)].
        refine (Hsep a _ Hm). apply (contains_member low e); auto. apply Hx, Hin. by left.
    + intros [[Hm|Hm] Hno].
      * destruct (proj2 (X1 a)) as (n & Hn & Ha).
        { split; [done|]. intros e He. apply Hno, Hin. by left. }
        exists n. split; [apply elem_of_app; by left|done].
      * destruct (proj2 (X2 a)) as (n & Hn & Ha).
        { split; [done|]. intros e He. apply Hno, Hin. by right. }
        exists n. split; [apply elem_of_app; by right|done].
  - intros n Hn. apply elem_of_app in Hn as [Hn|Hn].
    + destruct (W1 n Hn). split; [done|]. by apply (contains_trans self low n).
    + destruct (W2 n Hn). split; [done|]. by apply (contains_trans self high n).
  - apply StronglySorted_app_2; [|done|done]. intros m n Hm Hn.
    destruct (W1 m Hm) as [Vm Cm], (W2 n Hn) as [Vn Cn].
    apply cidr_contains_iff in Cm as (Fm & Pm & Bm); [|done..]. apply cidr_contains_iff in Cn as (Fn & Pn & Bn); [|done..].
    destruct (nested_or_apart low m Hl Vm) as [?|[?|?]]; try done; lia.
  - destruct (parent_half self low high Hv Hs) as [E1 E2].
    assert (Hsome : exists e, e ∈ excluded /\ contains self e = true).
    { destruct excluded as [|e excluded]; [done|]. exists e. split; [by left|]. apply Hself. by left. }
    intros n Hn. right. apply elem_of_app in Hn as [Hn|Hn].
    + destruct (L1 n Hn) as [-> |(e & He & Hc)]; [by rewrite E1|]. exists e. split; [apply Hin; by left|done].
    + destruct (L2 n Hn) as [-> |(e & He & Hc)]; [by rewrite E2|]. exists e. split; [apply Hin; by right|done].
Qed.

Lemma strict_prefix self e :
  valid self -> valid e -> overlaps e self = true -> contains e self = false -> prefix self < width self.
Proof.
  intros Hv He Ho Hc. unfold overlaps in Ho. rewrite Hc in Ho. cbn in Ho.
  apply cidr_contains_iff in Ho as (Hf & Hp & Hb); [|done..].
  destruct (Z.lt_ge_cases (prefix self) (width self)) as [|Hge]; [done|exfalso].
  assert (Hw : width self = width e) by (unfold width; by rewrite Hf).
  assert (Heq : prefix self = prefix e) by (destruct He, Hv; lia).
  assert (span self = 1) by (unfold span; replace (width self - prefix self) with 0 by (destruct Hv; lia); done).
  rewrite (cidr_ext e self), contains_refl in Hc; try done; lia.
Qed.

Lemma existsb_false_forall {A} (f : A -> bool) l x : existsb f l = false -> x ∈ l -> f x = false.
Proof.
  intros H Hx. destruct (f x) eqn:E; [|done]. apply list_elem_of_In in Hx.
  rewrite (proj2 (existsb_exists f l)) in H; [done|eauto].
Qed.

Lemma StronglySorted_filter (f : Cidr -> bool) l :
  StronglySorted cidr_le l -> StronglySorted cidr_le (List.filter f l).
Proof.
  intros H. induction H as [|x l Hs IH Hx]; cbn; [constructor|]. destruct (f x); [|done].
  constructor; [done|]. rewrite Forall_forall in Hx |- *. intros y Hy. apply Hx.
  apply list_elem_of_In, filter_In in Hy as [Hy _]. by apply list_elem_of_In.
Qed.

Lemma elem_filter {A} (f : A -> bool) l x : x ∈ List.filter f l <-> x ∈ l /\ f x = true.
Proof. rewrite !list_elem_of_In. apply filter_In. Qed.

(** Exclusions that [subtract_sorted] takes: sorted, and each meets the network. *)
Record exclusions (self : Cidr) (excluded : list Cidr) : Prop := {
  ex_valid : Forall valid excluded;
  ex_meet : Forall (fun e => overlaps e self = true) excluded;
  ex_sorted : StronglySorted cidr_le excluded;
}.

(** The exclusions of the halves. *)
Lemma split_exclusions self low high excluded :
  valid self -> exclusions self excluded -> excluded <> [] ->
  existsb (fun e => contains e self) excluded = false -> halves self = (low, high) ->
  split_of self low high /\ (forall e, e ∈ excluded -> contains self e = true) /\
  let split := partition_point (fun e => addr_lt (address e) (address high)) excluded in
  exclusions low (take split excluded) /\ exclusions high (drop split excluded)
  /\ (forall e, e ∈ excluded <-> e ∈ take split excluded \/ e ∈ drop split excluded)
  /\ (forall e, e ∈ take split excluded -> contains low e = true)
  /\ (forall e, e ∈ drop split excluded -> contains high e = true).
Proof.
  intros Hv [Hx Ho Hs] Hne Hany Eh. rewrite Forall_forall in Hx, Ho.
  assert (Hn : forall e, e ∈ excluded -> contains e self = false)
    by (intros e He; exact (existsb_false_forall _ _ _ Hany He)).
  assert (Hlt : prefix self < width self).
  { destruct excluded as [|e ex]; [done|].
    apply (strict_prefix self e); auto; [apply Hx|apply Ho|apply Hn]; left. }
  pose proof (halves_spec _ _ _ Hv Hlt Eh) as Hsp. split; [done|].
  set (p := fun e => addr_lt (address e) (address high)).
  assert (Hhalf : forall e, e ∈ excluded -> contains self e = true /\
    if p e then contains low e = true else contains high e = true)
    by (intros e He; apply exclusion_half; auto).
  split; [intros e He; by apply Hhalf|]. cbv zeta.
  destruct (partition_sorted p excluded Hs) as [-> ->]; [intros a b; apply below_closed|].
  assert (Hbelow : forall e, e ∈ List.filter p excluded -> contains low e = true).
  { intros e [He Hp]%elem_filter. destruct (Hhalf e He) as [_ H]. by rewrite Hp in H. }
  assert (Habove : forall e, e ∈ List.filter (fun e => negb (p e)) excluded -> contains high e = true).
  { intros e [He Hp]%elem_filter. destruct (Hhalf e He) as [_ H]. by destruct (p e). }
  assert (Hsub : forall f h, (forall e, e ∈ List.filter f excluded -> contains h e = true) ->
    exclusions h (List.filter f excluded)).
  { intros f h Hin. split; [| |by apply StronglySorted_filter]; apply Forall_forall; intros e He.
    - apply elem_filter in He as [He _]. auto.
    - unfold overlaps. rewrite (Hin e He). apply orb_true_r. }
  split_and!; auto. intros e. rewrite !elem_filter. destruct (p e); cbn; intuition.
Qed.

Lemma subtract_sorted_spec fuel : forall self excluded limit remainder,
  (Z.to_nat (width self - prefix self) < fuel)%nat -> valid self -> exclusions self excluded ->
  len remainder <= limit ->
  exists rest, remains self excluded rest /\
    if len remainder + len rest <=? limit
    then subtract_sorted fuel self excluded limit remainder = Some (true, remainder ++ rest)
    else exists partial, subtract_sorted fuel self excluded limit remainder = Some (false, partial).
Proof.
  induction fuel as [|fuel IH]; intros self ex limit rem Hfuel Hv Hx Hrem; [lia|]. cbn [subtract_sorted].
  destruct (bool_decide_reflect (ex = [])) as [-> |Hne].
  { exists [self]. split; [by apply remains_whole|]. rewrite <- len_app. destruct (_ <=? _); eauto. }
  destruct (existsb _ ex) eqn:Eany.
  { apply existsb_exists in Eany as (e & He & Hc). apply list_elem_of_In in He. exists [].
    split; [eapply remains_nothing; [done|apply Hx|done..]|]. rewrite len_nil, Z.add_0_r, app_nil_r.
    destruct (Z.leb_spec (len rem) limit); [done|lia]. }
  destruct (halves self) as [low high] eqn:Eh.
  destruct (split_exclusions _ _ _ _ Hv Hx Hne Eany Eh) as (Hsp & Hin & Xl & Xh & Hor & Hlow & Hhigh).
  set (split := partition_point _ ex) in *. pose proof Hsp as [Hl Hh [F1 F2] [P1 P2] _ _].
  assert (Wl : width low = width self) by (unfold width; by rewrite F1).
  assert (Wh : width high = width self) by (unfold width; by rewrite F2).
  assert (Hdec : prefix self + 1 <= width self) by (rewrite <- P1, <- Wl; apply Hl).
  assert (Hboth : forall r1 r2, remains low (take split ex) r1 -> remains high (drop split ex) r2 ->
    remains self ex (r1 ++ r2)).
  { intros r1 r2 R1 R2. eapply remains_split; [done|exact Hsp|apply Hx|done|exact Hor|..]; done. }
  destruct (IH low (take split ex) limit rem) as (r1 & R1 & E1); [lia|done..|].
  destruct (Z.leb_spec (len rem + len r1) limit) as [Hle|Hgt].
  - rewrite E1. destruct (IH high (drop split ex) limit (rem ++ r1)) as (r2 & R2 & E2);
      [lia|done|done|rewrite len_app; lia|].
    exists (r1 ++ r2). split; [by apply Hboth|]. rewrite len_app, Z.add_assoc, app_assoc.
    by rewrite len_app in E2.
  - destruct E1 as [partial ->].
    destruct (IH high (drop split ex) 0 []) as (r2 & R2 & _); [lia|done..|].
    exists (r1 ++ r2). split; [by apply Hboth|]. rewrite len_app. pose proof (len_nonneg r2).
    destruct (Z.leb_spec (len rem + (len r1 + len r2)) limit); [lia|by eexists].
Qed.

Lemma merge_sort_exclusions self excluded :
  Forall valid excluded ->
  exclusions self (merge_sort cidr_le (List.filter (fun e => overlaps e self) excluded)).
Proof.
  intros Hx. pose proof (merge_sort_Permutation cidr_le (List.filter (fun e => overlaps e self) excluded)) as Hp.
  rewrite Forall_forall in Hx. split.
  - rewrite Hp. apply Forall_forall. intros e [He _]%elem_filter. auto.
  - rewrite Hp. apply Forall_forall. by intros e [_ He]%elem_filter.
  - apply StronglySorted_merge_sort; apply _.
Qed.

(** Subtracting exclusions from a network always returns, and returns, unless it needs more
    networks than the limit, exactly the addresses that no exclusion has: as disjoint ascending
    networks inside the network, each as large as it can be, since its parent meets an exclusion;
    and it refuses only when that cover is longer than the limit. *)
Theorem subtract_exact (self : Cidr) (excluded : list Cidr) (limit : Z) :
  valid self -> Forall valid excluded -> 0 <= limit ->
  exists rest, remains self (List.filter (fun e => overlaps e self) excluded) rest
    /\ (forall a, (exists n, n ∈ rest /\ member n a)
                  <-> member self a /\ forall e, e ∈ excluded -> ~ member e a)
    /\ subtract self excluded limit = Some (if len rest <=? limit then Some rest else None).
Proof.
  intros Hv Hx Hlim. pose proof (merge_sort_exclusions self excluded Hx) as Hex.
  pose proof (merge_sort_Permutation cidr_le (List.filter (fun e => overlaps e self) excluded)) as Hp.
  unfold subtract. set (sorted := merge_sort cidr_le _) in *. rewrite Forall_forall in Hx.
  destruct (subtract_sorted_spec subtract_fuel self sorted limit []) as (rest & [X W A L] & E); try done.
  { unfold subtract_fuel. destruct Hv as [Hpr _ _]. pose proof (width_cases self). lia. }
  assert (Hsame : forall e, e ∈ sorted <-> e ∈ List.filter (fun e => overlaps e self) excluded)
    by (intros e; by rewrite Hp).
  exists rest. split; [split; try done|split].
  - intros a. rewrite X. by setoid_rewrite Hsame.
  - intros n Hn. destruct (L n Hn) as [|(e & He & Hc)]; [by left|right; exists e; split; [by apply Hsame|done]].
  - intros a. rewrite X. split; intros [Ha Hno]; (split; [done|]); intros e He Hea.
    + apply (Hno e); [|done]. apply Hsame, elem_filter. split; [done|]. apply overlaps_iff; eauto.
    + apply (Hno e); [|done]. by apply Hsame, elem_filter in He as [? _].
  - rewrite len_nil, Z.add_0_l in E. destruct (len rest <=? limit); [by rewrite E|].
    by destruct E as [partial ->].
Qed.

(** 10.0.0.0/8 without 10.1.0.0/16, and an exclusion of the other family. *)
Definition sample_network : Cidr := mkCidr (V4 167772160) 8.
Definition sample_excluded : list Cidr := [mkCidr (V6 0) 0; mkCidr (V4 167837696) 16].

Lemma sample_networks_valid : valid sample_network /\ Forall valid sample_excluded.
Proof.
  assert (H : forall a p q, let c := mkCidr a p in
    0 <= p <= width c -> 0 <= bits c < 2 ^ width c -> bits c = q * span c -> valid c).
  { intros a p q c Hp Hb Hq. split; [done|done|by exists q]. }
  split; [|constructor; [|constructor; [|constructor]]].
  - apply (H _ _ 10); clear H; vm_compute; intuition discriminate.
  - apply (H _ _ 0); clear H; vm_compute; (reflexivity || (split; [discriminate|discriminate || reflexivity])).
  - apply (H _ _ 2561); clear H; vm_compute; (reflexivity || (split; [discriminate|discriminate || reflexivity])).
Qed.

Lemma subtract_exact_witness :
  exists rest, remains sample_network [mkCidr (V4 167837696) 16] rest /\ len rest = 8
    /\ subtract sample_network sample_excluded 16 = Some (Some rest)
    /\ subtract sample_network sample_excluded 7 = Some None.
Proof.
  destruct (subtract_exact sample_network sample_excluded 16) as (rest & Hr & _ & Hs).
  - apply sample_networks_valid.
  - apply sample_networks_valid.
  - discriminate.
  - exists rest. split; [exact Hr|]. rewrite Hs. destruct (len rest <=? 16); vm_compute in Hs; [|discriminate Hs].
    injection Hs as <-. vm_compute. repeat split.
Defined.
