(* ===== verification/ExecPayload.v ===== *)
(** * EXEC payloads (src/nvx-rs/src/protocol/exec.rs)

    The workload of an EXEC request: the host's encoder, and the decoders of the host and of the
    guest, which share one reading and differ in how they hold strings. A [String] is its bytes,
    which are UTF-8. *)

From S2P Require Import Prelude Outer App.

(** ** Limits and flags *)

Definition MAX_ARGUMENTS : Z := 64.
Definition MAX_ARGUMENT_BYTES : Z := 4096.
Definition MAX_GUEST_CWD_BYTES : Z := MAX_ARGUMENT_BYTES.
Definition MAX_ENVIRONMENT : Z := 256.
Definition EXEC_EXTENDED : Z := 1.
Definition EXEC_CWD_PRESENT : Z := Z.shiftl 1 0.
Definition EXEC_ENVIRONMENT_PRESENT : Z := Z.shiftl 1 1.
Definition EXEC_INHERIT_DEFAULT_ENV : Z := Z.shiftl 1 2.

(** ** The encoder *)

Inductive WorkloadEnvironment : Type :=
| Default
| Replaced (entries : list (list byte))
| Layered (entries : list (list byte)).

Record Workload := mkWorkload {
  w_argv : list (list byte);
  w_timeout_ms : Z;
  w_cwd : option (list byte);
  w_environment : WorkloadEnvironment;
}.

Definition starts_with_slash (l : list byte) : bool :=
  match l with b :: _ => byte_val b =? 47 | [] => false end.

(** A length prefix and its bytes; [u32::try_from(..).unwrap_or(u32::MAX)] of a length. *)
Definition prefixed (bytes : list byte) : list byte :=
  to_le_bytes 4 (try_or_max U32_MAX (len bytes)) ++ bytes.

(** The loop over the arguments. *)
Fixpoint encode_arguments (argv : list (list byte)) : result ProtocolError (list byte) :=
  match argv with
  | [] => Ok []
  | bytes :: argv =>
      if (len bytes =? 0) || (MAX_ARGUMENT_BYTES <? len bytes) || has_nul bytes then
        Err (violation "exec arguments must be 1 to 4096 bytes without NUL characters")
      else
        rest ← encode_arguments argv;
        Ok (prefixed bytes ++ rest)
  end.

(** [entry.split_once('=')]'s name, unless it is empty. *)
Definition entry_name (entry : list byte) : option (list byte) :=
  at_ ← position (fun b => byte_val b =? 61) entry;
  if at_ =? 0 then None else Some (ztake at_ entry).

(** The loop over the environment, with the names so far. *)
Fixpoint encode_environment (names environment : list (list byte)) : result ProtocolError (list byte) :=
  match environment with
  | [] => Ok []
  | bytes :: environment =>
      let name := match entry_name bytes with
                  | Some name =>
                      if (len bytes <=? MAX_ARGUMENT_BYTES) && negb (has_nul bytes) then Some name else None
                  | None => None
                  end in
      match name with
      | None => Err (violation "exec environment entries must be KEY=VALUE strings of at most 4096 bytes without NUL characters")
      | Some name =>
          if bool_decide (name ∈ names) then
            Err [Text "exec environment names must be unique, but "; DebugText name; Text " repeats"]
          else
            rest ← encode_environment (name :: names) environment;
            Ok (prefixed bytes ++ rest)
      end
  end.

Definition encode_exec_payload (workload : Workload) : result ProtocolError (list byte) :=
  let argv := w_argv workload in
  if (len argv =? 0) || (MAX_ARGUMENTS <? len argv) then Err (violation "exec requires 1 to 64 arguments")
  else if negb (starts_with_slash (nth 0 argv [])) then
    Err (violation "exec program must be an absolute guest path")
  else
    let cwd := w_cwd workload in
    if match cwd with
       | Some cwd => negb (starts_with_slash cwd) || (MAX_ARGUMENT_BYTES <? len cwd) || has_nul cwd
       | None => false
       end
    then Err (violation "exec working directory must be an absolute guest path of at most 4096 bytes without NUL characters")
    else
      let '(environment, flags) := match w_environment workload with
        | Default => ([], 0)
        | Replaced entries => (entries, EXEC_ENVIRONMENT_PRESENT)
        | Layered entries => (entries, Z.lor EXEC_ENVIRONMENT_PRESENT EXEC_INHERIT_DEFAULT_ENV)
        end in
      if MAX_ENVIRONMENT <? len environment then
        Err (violation "exec environment must not exceed 256 entries")
      else
        let flags := match cwd with Some _ => Z.lor flags EXEC_CWD_PRESENT | None => flags end in
        let count := try_or_max U16_MAX (len argv) in
        let head := to_le_bytes 4 (w_timeout_ms workload) ++ to_le_bytes 2 count ++
          (if flags =? 0 then to_le_bytes 2 0
           else
             let environment_count := try_or_max U16_MAX (len environment) in
             let cwd_len := try_or_max U32_MAX (match cwd with Some c => len c | None => 0 end) in
             to_le_bytes 2 EXEC_EXTENDED ++ to_le_bytes 2 flags
             ++ to_le_bytes 2 environment_count ++ to_le_bytes 4 cwd_len) in
        arguments ← encode_arguments argv;
        entries ← encode_environment [] environment;
        let payload := head ++ arguments ++ (match cwd with Some c => c | None => [] end) ++ entries in
        if OUTER_MAX_PAYLOAD <? APP_HEADER_LEN + len payload
        then Err (violation "exec request exceeds the control protocol limit")
        else Ok payload.

(** ** The decoders *)

Record ExecPayload := mkExecPayload {
  timeout_ms : Z;
  argv : list (list byte);
  cwd : option (list byte);
  environment : option (list (list byte));
  inherit_default_env : bool;
}.

Record ExecHeader := mkExecHeader {
  h_timeout_ms : Z;
  count : Z;
  flags : Z;
  environment_count : Z;
  cwd_len : Z;
  offset : Z;
}.

Definition truncated : ProtocolError := violation "the exec request is truncated".

(** [flags & flag != 0]. *)
Definition has_flag (flags flag : Z) : bool := negb (Z.land flags flag =? 0).

Definition decode_exec_header (payload : list byte) (max_cwd : Z) : result ProtocolError ExecHeader :=
  if len payload <? 8 then Err truncated
  else
    timeout ← ok_or (u32_at payload 0) truncated;
    count ← ok_or (u16_at payload 4) truncated;
    extension ← ok_or (u16_at payload 6) truncated;
    if (count =? 0) || (MAX_ARGUMENTS <? count) then Err (violation "exec requires 1 to 64 arguments")
    else
      '(flags, environment_count, cwd_len, offset) ←
        (if extension =? 0 then Ok (0, 0, 0, 8)
         else if (extension =? EXEC_EXTENDED) && (16 <=? len payload) then
           flags ← ok_or (u16_at payload 8) truncated;
           environment_count ← ok_or (u16_at payload 10) truncated;
           cwd_len ← ok_or (u32_at payload 12) truncated;
           let known := Z.lor (Z.lor EXEC_CWD_PRESENT EXEC_ENVIRONMENT_PRESENT) EXEC_INHERIT_DEFAULT_ENV in
           let cwd_valid := if negb (has_flag flags EXEC_CWD_PRESENT) then cwd_len =? 0
                            else (1 <=? cwd_len) && (cwd_len <=? max_cwd) in
           let environment_valid := has_flag flags EXEC_ENVIRONMENT_PRESENT
             || ((environment_count =? 0) && negb (has_flag flags EXEC_INHERIT_DEFAULT_ENV)) in
           if negb (Z.land flags (Z.lxor U16_MAX known) =? 0) || negb cwd_valid
              || negb environment_valid || (MAX_ENVIRONMENT <? environment_count)
           then Err (violation "the exec request has unknown flags or inconsistent fields")
           else Ok (flags, environment_count, cwd_len, 16)
         else if extension =? EXEC_EXTENDED then Err truncated
         else Err (violation "the exec request has an unknown extension"));
      Ok {| h_timeout_ms := timeout; count := count; flags := flags;
            environment_count := environment_count; cwd_len := cwd_len; offset := offset |}.

(** [trait ExecString]: what the decoders do differently with a string's bytes. *)
Class ExecString := {
  convert : list byte -> string -> result ProtocolError (list byte);
  unnamed_entry : ProtocolError;
  repeated_name : list byte -> ProtocolError;
}.

(** [impl ExecString for String]. *)
Definition host_string : ExecString := {|
  convert bytes what :=
    if is_utf8 bytes then Ok bytes
    else Err [Text "exec "; Text what; Text " must be valid UTF-8"];
  unnamed_entry := violation "exec environment entries must be KEY=VALUE strings";
  repeated_name name :=
    [Text "exec environment names must be unique, but "; DebugText name; Text " repeats"] |}.

(** [impl ExecString for Vec<u8>]. *)
Definition guest_string : ExecString := {|
  convert bytes _ := Ok bytes;
  unnamed_entry := violation "exec environment entries must be KEY=VALUE byte strings";
  repeated_name _ := violation "exec environment names must be unique" |}.

Definition bytes_at (payload : list byte) (offset length : Z) (what : string) : result ProtocolError (list byte) :=
  bytes ← ok_or (last ← checked_add USIZE_MAX offset length; get_range offset last payload) truncated;
  if has_nul bytes then Err [Text "exec "; Text what; Text " must not contain NUL characters"]
  else Ok bytes.

(** The bytes, and the offset after them. *)
Definition prefixed_bytes (payload : list byte) (offset : Z) (what : string)
    : result ProtocolError (list byte * Z) :=
  length ← ok_or (u32_at payload offset) truncated;
  offset ← ok_or (checked_add USIZE_MAX offset 4) truncated;
  if (length =? 0) || (MAX_ARGUMENT_BYTES <? length) then
    Err [Text "exec "; Text what; Text " must be 1 to 4096 bytes"]
  else
    bytes ← bytes_at payload offset length what;
    offset ← ok_or (checked_add USIZE_MAX offset length) truncated;
    Ok (bytes, offset).

Section Decoder.
Context `{S : ExecString}.

Definition prefixed_string (payload : list byte) (offset : Z) (what : string)
    : result ProtocolError (list byte * Z) :=
  '(bytes, offset) ← prefixed_bytes payload offset what;
  s ← convert bytes what;
  Ok (s, offset).

(** The loop over the arguments. *)
Fixpoint decode_arguments (rounds : nat) (payload : list byte) (offset : Z)
    : result ProtocolError (list (list byte) * Z) :=
  match rounds with
  | O => Ok ([], offset)
  | Datatypes.S rounds =>
      '(argument, offset) ← prefixed_string payload offset "arguments";
      '(rest, offset) ← decode_arguments rounds payload offset;
      Ok (argument :: rest, offset)
  end.

(** The loop over the environment, with the names so far. *)
Fixpoint decode_environment (rounds : nat) (names : list (list byte)) (payload : list byte) (offset : Z)
    : result ProtocolError (list (list byte) * Z) :=
  match rounds with
  | O => Ok ([], offset)
  | Datatypes.S rounds =>
      '(entry, offset) ← prefixed_string payload offset "environment entries";
      match entry_name entry with
      | None => Err unnamed_entry
      | Some name =>
          if bool_decide (name ∈ names) then Err (repeated_name name)
          else
            '(rest, offset) ← decode_environment rounds (name :: names) payload offset;
            Ok (entry :: rest, offset)
      end
  end.

(** The working directory, if the payload has one. *)
Definition decode_cwd (payload : list byte) (h : ExecHeader) (offset : Z)
    : result ProtocolError (option (list byte) * Z) :=
  if negb (has_flag (flags h) EXEC_CWD_PRESENT) then Ok (None, offset)
  else
    bytes ← bytes_at payload offset (cwd_len h) "working directory";
    cwd ← convert bytes "working directory";
    offset ← ok_or (checked_add USIZE_MAX offset (cwd_len h)) truncated;
    if negb (starts_with_slash cwd) then Err (violation "exec working directory must be an absolute guest path")
    else Ok (Some cwd, offset).

(** [decode_exec]: the header, the arguments, the working directory, and the environment. *)
Definition decode_exec (payload : list byte) (max_cwd : Z)
    : result ProtocolError (ExecHeader * list (list byte) * option (list byte) * option (list (list byte))) :=
  h ← decode_exec_header payload max_cwd;
  '(argv, offset) ← decode_arguments (Z.to_nat (count h)) payload (offset h);
  if negb (starts_with_slash (nth 0 argv [])) then Err (violation "exec program must be an absolute guest path")
  else
    '(cwd, offset) ← decode_cwd payload h offset;
    '(environment, offset) ← decode_environment (Z.to_nat (environment_count h)) [] payload offset;
    if negb (offset =? len payload) then Err (violation "the exec request has trailing bytes")
    else Ok (h, argv, cwd,
             if has_flag (flags h) EXEC_ENVIRONMENT_PRESENT then Some environment else None).
End Decoder.

Definition decode_exec_payload (payload : list byte) : result ProtocolError ExecPayload :=
  '(h, argv, cwd, environment) ← @decode_exec host_string payload MAX_ARGUMENT_BYTES;
  Ok {| timeout_ms := h_timeout_ms h; argv := argv; cwd := cwd; environment := environment;
        inherit_default_env := negb (has_flag (flags h) EXEC_ENVIRONMENT_PRESENT)
                               || has_flag (flags h) EXEC_INHERIT_DEFAULT_ENV |}.

(** The guest's payload has the same fields. *)
Definition decode_guest_exec_payload (payload : list byte) : result ProtocolError ExecPayload :=
  '(h, argv, cwd, environment) ← @decode_exec guest_string payload MAX_GUEST_CWD_BYTES;
  Ok {| timeout_ms := h_timeout_ms h; argv := argv; cwd := cwd; environment := environment;
        inherit_default_env := has_flag (flags h) EXEC_INHERIT_DEFAULT_ENV |}.

Definition sample_workload : Workload := {|
  w_argv := [bytes_of "/bin/sh"; bytes_of "-c"]; w_timeout_ms := 5000;
  w_cwd := Some (bytes_of "/tmp"); w_environment := Layered [bytes_of "A=1"; bytes_of "B="] |}.

(** ** Reading what was written *)

Lemma bytes_at_mid pre b post what :
  has_nul b = false -> len (pre ++ b ++ post) <= USIZE_MAX ->
  bytes_at (pre ++ b ++ post) (len pre) (len b) what = Ok b.
Proof.
  intros Hn Hl. unfold bytes_at. rewrite !len_app in Hl. len_facts.
  rewrite checked_add_fits by lia. cbn. rewrite get_range_mid by lia. cbn. by rewrite Hn.
Qed.

(** A string that the encoder accepts. *)
Definition good_string (b : list byte) : Prop := 1 <= len b <= MAX_ARGUMENT_BYTES /\ has_nul b = false.

Lemma prefixed_small b : good_string b -> prefixed b = to_le_bytes 4 (len b) ++ b.
Proof.
  intros [Hl _]. unfold prefixed, try_or_max, MAX_ARGUMENT_BYTES in *.
  destruct (Z.leb_spec (len b) U32_MAX) as [|H]; [done|]. unfold U32_MAX in H. lia.
Qed.

Lemma prefixed_bytes_mid pre b post what :
  good_string b -> len (pre ++ prefixed b ++ post) <= USIZE_MAX ->
  prefixed_bytes (pre ++ prefixed b ++ post) (len pre) what = Ok (b, len pre + len (prefixed b)).
Proof.
  intros Hg Hl. rewrite prefixed_small in * by done. destruct Hg as [Hb Hn].
  rewrite <- app_assoc in *. unfold prefixed_bytes, MAX_ARGUMENT_BYTES in *.
  rewrite u32_at_mid by (done || by rewrite len_to_le_bytes). cbn [ok_or mbind result_bind].
  rewrite u32_le_roundtrip by (unfold is_u32, U32_MAX; lia).
  rewrite !len_app, len_to_le_bytes in Hl. len_facts.
  rewrite checked_add_fits by lia. cbn [ok_or mbind result_bind].
  destruct (Z.eqb_spec (len b) 0); [lia|]. destruct (Z.ltb_spec 4096 (len b)); [lia|]. cbn [orb].
  rewrite (app_assoc pre). replace (len pre + 4) with (len (pre ++ to_le_bytes 4 (len b))) by
    (rewrite len_app, len_to_le_bytes; lia).
  rewrite bytes_at_mid by (done || (rewrite !len_app, len_to_le_bytes; lia)).
  cbn [ok_or mbind result_bind]. rewrite checked_add_fits by (rewrite !len_app, len_to_le_bytes; lia).
  cbn [ok_or mbind result_bind]. f_equal. f_equal. rewrite !len_app, !len_to_le_bytes. lia.
Qed.

Section Reading.
Context `{S : ExecString}.

(** Strings that the decoder holds as they are. *)
Definition held (b : list byte) : Prop := forall what, convert b what = Ok b.

Lemma prefixed_string_mid pre b post what :
  good_string b -> held b -> len (pre ++ prefixed b ++ post) <= USIZE_MAX ->
  prefixed_string (pre ++ prefixed b ++ post) (len pre) what = Ok (b, len pre + len (prefixed b)).
Proof.
  intros Hg Hh Hl. unfold prefixed_string. rewrite prefixed_bytes_mid by done. cbn. by rewrite Hh.
Qed.

Lemma encode_arguments_good argv args : encode_arguments argv = Ok args -> Forall good_string argv.
Proof.
  revert args. induction argv as [|b argv IH]; intros args; cbn; [constructor|].
  destruct (_ || _) eqn:E; [done|]. intros H. inv_ok. bool_to_prop. len_facts.
  constructor; [|by eapply IH]. split; [lia|done].
Qed.

Lemma decode_arguments_mid argv args pre post :
  encode_arguments argv = Ok args -> Forall held argv -> len (pre ++ args ++ post) <= USIZE_MAX ->
  decode_arguments (length argv) (pre ++ args ++ post) (len pre) = Ok (argv, len pre + len args).
Proof.
  intros He Hh. pose proof (encode_arguments_good _ _ He) as Hg. revert args pre He.
  induction argv as [|b argv IH]; intros args pre He Hl; cbn [encode_arguments] in He.
  { inv He. cbn. by rewrite Z.add_0_r. }
  inv Hh. inv Hg. destruct (_ || _); [done|]. destruct (encode_arguments argv) as [x|] eqn:Hx; [|done].
  assert (args = prefixed b ++ x) as -> by (cbn [mbind result_bind] in He; congruence). cbn [length decode_arguments].
  rewrite <- (app_assoc (prefixed b)) in Hl |- *. rewrite prefixed_string_mid by done. cbn [mbind result_bind].
  rewrite (app_assoc pre) in *. rewrite <- len_app. rewrite IH by done. cbn [mbind result_bind].
  f_equal. f_equal. rewrite !len_app. lia.
Qed.

Lemma decode_environment_mid names environment entries pre post :
  encode_environment names environment = Ok entries -> Forall held environment ->
  len (pre ++ entries ++ post) <= USIZE_MAX ->
  decode_environment (length environment) names (pre ++ entries ++ post) (len pre)
  = Ok (environment, len pre + len entries).
Proof.
  revert names entries pre. induction environment as [|b environment IH]; intros names entries pre He Hh Hl;
    cbn [encode_environment] in He.
  { inv He. cbn. by rewrite Z.add_0_r. }
  inv Hh. destruct (entry_name b) as [name|] eqn:Hname; [|done].
  destruct ((len b <=? MAX_ARGUMENT_BYTES) && negb (has_nul b)) eqn:E; [|done].
  apply andb_true_iff in E as [E1 E2]. bool_to_prop.
  assert (Hg : good_string b).
  { split; [|done]. split; [|done]. destruct b; [done|]. rewrite len_cons. len_facts. lia. }
  destruct (bool_decide (name ∈ names)) eqn:Hin; [done|].
  destruct (encode_environment _ _) as [x|] eqn:Hx; [|done].
  assert (entries = prefixed b ++ x) as -> by (cbn [mbind result_bind] in He; congruence). cbn [length decode_environment].
  rewrite <- (app_assoc (prefixed b)) in Hl |- *. rewrite prefixed_string_mid by done. cbn [mbind result_bind].
  rewrite Hname, Hin. rewrite (app_assoc pre) in *. rewrite <- len_app. rewrite IH by done. cbn [mbind result_bind].
  f_equal. f_equal. rewrite !len_app. lia.
Qed.
End Reading.

(** ** The fixed fields *)

Lemma decode_legacy_header timeout n rest max_cwd :
  is_u32 timeout -> 1 <= n <= MAX_ARGUMENTS ->
  len (to_le_bytes 4 timeout ++ to_le_bytes 2 n ++ to_le_bytes 2 0 ++ rest) <= USIZE_MAX ->
  decode_exec_header (to_le_bytes 4 timeout ++ to_le_bytes 2 n ++ to_le_bytes 2 0 ++ rest) max_cwd
  = Ok {| h_timeout_ms := timeout; count := n; flags := 0; environment_count := 0; cwd_len := 0;
          offset := 8 |}.
Proof.
  intros Ht Hn Hl. unfold decode_exec_header, MAX_ARGUMENTS in *.
  destruct (Z.ltb_spec (len (to_le_bytes 4 timeout ++ to_le_bytes 2 n ++ to_le_bytes 2 0 ++ rest)) 8) as [H|_].
  { rewrite !len_app, !len_to_le_bytes in H. len_facts. lia. }
  read_field u32_at_is 0 (@nil (list byte)). read_field u16_at_is 4 [to_le_bytes 4 timeout].
  read_field u16_at_is 6 [to_le_bytes 4 timeout; to_le_bytes 2 n].
  rewrite u32_le_roundtrip, !u16_le_roundtrip by (done || (unfold is_u16, U16_MAX; lia)).
  destruct (Z.eqb_spec n 0); [lia|]. destruct (Z.ltb_spec 64 n); [lia|]. done.
Qed.

Lemma decode_extended_header timeout n f entries cwd_length rest max_cwd :
  is_u32 timeout -> 1 <= n <= MAX_ARGUMENTS -> 0 <= f <= 7 -> 0 <= entries <= MAX_ENVIRONMENT ->
  is_u32 cwd_length ->
  (if negb (has_flag f EXEC_CWD_PRESENT) then cwd_length =? 0
   else (1 <=? cwd_length) && (cwd_length <=? max_cwd)) = true ->
  has_flag f EXEC_ENVIRONMENT_PRESENT
  || ((entries =? 0) && negb (has_flag f EXEC_INHERIT_DEFAULT_ENV)) = true ->
  let payload := to_le_bytes 4 timeout ++ to_le_bytes 2 n ++ to_le_bytes 2 EXEC_EXTENDED
    ++ to_le_bytes 2 f ++ to_le_bytes 2 entries ++ to_le_bytes 4 cwd_length ++ rest in
  len payload <= USIZE_MAX ->
  decode_exec_header payload max_cwd
  = Ok {| h_timeout_ms := timeout; count := n; flags := f; environment_count := entries;
          cwd_len := cwd_length; offset := 16 |}.
Proof.
  intros Ht Hn Hf He Hc Hcwd Henv payload Hl. unfold decode_exec_header, MAX_ARGUMENTS, MAX_ENVIRONMENT in *.
  assert (16 <= len payload).
  { unfold payload. rewrite !len_app, !len_to_le_bytes. len_facts. lia. }
  destruct (Z.ltb_spec (len payload) 8); [lia|]. unfold payload in Hl |- *.
  read_field u32_at_is 0 (@nil (list byte)). read_field u16_at_is 4 [to_le_bytes 4 timeout].
  read_field u16_at_is 6 [to_le_bytes 4 timeout; to_le_bytes 2 n]. fold payload.
  rewrite u32_le_roundtrip, !u16_le_roundtrip by (done || (unfold is_u16, U16_MAX; lia) || done).
  destruct (Z.eqb_spec n 0); [lia|]. destruct (Z.ltb_spec 64 n); [lia|]. cbn [orb].
  destruct (Z.leb_spec 16 (len payload)); [|lia]. cbn [EXEC_EXTENDED Z.eqb Pos.eqb andb].
  unfold payload.
  read_field u16_at_is 8 [to_le_bytes 4 timeout; to_le_bytes 2 n; to_le_bytes 2 EXEC_EXTENDED].
  read_field u16_at_is 10 [to_le_bytes 4 timeout; to_le_bytes 2 n; to_le_bytes 2 EXEC_EXTENDED; to_le_bytes 2 f].
  read_field u32_at_is 12 [to_le_bytes 4 timeout; to_le_bytes 2 n; to_le_bytes 2 EXEC_EXTENDED; to_le_bytes 2 f;
    to_le_bytes 2 entries].
  rewrite u32_le_roundtrip, !u16_le_roundtrip by (done || (unfold is_u16, U16_MAX; lia)).
  rewrite Hcwd, Henv. destruct (Z.ltb_spec 256 entries); [lia|].
  assert (Hk : Z.land f (Z.lxor U16_MAX 7) = 0).
  { assert (f = 0 \/ f = 1 \/ f = 2 \/ f = 3 \/ f = 4 \/ f = 5 \/ f = 6 \/ f = 7)
      as [->|[->|[->|[->|[->|[->|[->| ->]]]]]]] by lia; reflexivity. }
  change (Z.lor (Z.lor EXEC_CWD_PRESENT EXEC_ENVIRONMENT_PRESENT) EXEC_INHERIT_DEFAULT_ENV) with 7.
  rewrite Hk. done.
Qed.

(** ** The body *)

(** The strings of a request. *)
Definition entries_of (e : WorkloadEnvironment) : list (list byte) :=
  match e with Default => [] | Replaced entries | Layered entries => entries end.

Definition workload_strings (w : Workload) : list (list byte) :=
  w_argv w ++ option_list (w_cwd w) ++ entries_of (w_environment w).

Section Whole.
Context `{S : ExecString}.

Lemma decode_cwd_none payload h at_ :
  has_flag (flags h) EXEC_CWD_PRESENT = false -> decode_cwd payload h at_ = Ok (None, at_).
Proof. intros H. unfold decode_cwd. by rewrite H. Qed.

Lemma decode_cwd_mid pre c post h :
  has_flag (flags h) EXEC_CWD_PRESENT = true -> cwd_len h = len c -> held c ->
  starts_with_slash c = true -> has_nul c = false -> len (pre ++ c ++ post) <= USIZE_MAX ->
  decode_cwd (pre ++ c ++ post) h (len pre) = Ok (Some c, len pre + len c).
Proof.
  intros Hf Hc Hh Hs Hn Hl. unfold decode_cwd. rewrite Hf, Hc, bytes_at_mid by done.
  cbn [negb mbind result_bind]. rewrite Hh. cbn [mbind result_bind].
  rewrite !len_app in Hl. len_facts. rewrite checked_add_fits by lia. cbn [ok_or mbind result_bind].
  by rewrite Hs.
Qed.

(** The arguments, the working directory, and the environment after a header [head]. *)
Lemma decode_exec_body head w arguments entries h max_cwd :
  let c := match w_cwd w with Some c => c | None => [] end in
  let payload := head ++ arguments ++ c ++ entries in
  decode_exec_header payload max_cwd = Ok h ->
  offset h = len head -> count h = len (w_argv w) ->
  environment_count h = len (entries_of (w_environment w)) ->
  has_flag (flags h) EXEC_CWD_PRESENT = bool_decide (is_Some (w_cwd w)) ->
  has_flag (flags h) EXEC_ENVIRONMENT_PRESENT = match w_environment w with Default => false | _ => true end ->
  cwd_len h = len c ->
  starts_with_slash (nth 0 (w_argv w) []) = true ->
  match w_cwd w with Some c => starts_with_slash c = true /\ has_nul c = false | None => True end ->
  encode_arguments (w_argv w) = Ok arguments ->
  encode_environment [] (entries_of (w_environment w)) = Ok entries ->
  Forall held (workload_strings w) -> len payload <= USIZE_MAX ->
  decode_exec payload max_cwd
  = Ok (h, w_argv w, w_cwd w,
        match w_environment w with Default => None | e => Some (entries_of e) end).
Proof.
  intros c payload Hh Ho Hn He Hfc Hfe Hcl Hs Hc Ha Hen Hheld Hl.
  unfold workload_strings in Hheld. rewrite !Forall_app in Hheld. destruct Hheld as (Hha & Hhc & Hhe).
  unfold decode_exec. rewrite Hh. cbn [mbind result_bind]. rewrite Ho, Hn.
  replace (Z.to_nat (len (w_argv w))) with (length (w_argv w)) by (unfold len; lia).
  unfold payload in Hl |- *. rewrite decode_arguments_mid by done.
  cbn [mbind result_bind]. rewrite Hs. cbn [negb].
  assert (Hcwd : decode_cwd (head ++ arguments ++ c ++ entries) h (len head + len arguments)
                 = Ok (w_cwd w, len head + len arguments + len c)).
  { rewrite <- len_app, app_assoc. subst c payload. rewrite app_assoc in Hl. destruct (w_cwd w) as [c|].
    - inv Hhc. destruct Hc. by apply decode_cwd_mid.
    - rewrite decode_cwd_none by done. by rewrite Z.add_0_r. }
  rewrite Hcwd. cbn [mbind result_bind]. rewrite He.
  replace (Z.to_nat (len (entries_of (w_environment w)))) with (length (entries_of (w_environment w)))
    by (unfold len; lia).
  replace (head ++ arguments ++ c ++ entries) with ((head ++ arguments ++ c) ++ entries ++ []) in Hl |- *
    by (rewrite app_nil_r; rewrite <- !app_assoc; done).
  replace (len head + len arguments + len c) with (len (head ++ arguments ++ c)) by (rewrite !len_app; lia).
  rewrite decode_environment_mid by done. cbn [mbind result_bind].
  rewrite app_nil_r, <- len_app, Z.eqb_refl. cbn [negb]. rewrite Hfe.
  by destruct (w_environment w).
Qed.
End Whole.

(** ** The round trip *)

Definition flags_of (w : Workload) : Z :=
  Z.lor (match w_environment w with
         | Default => 0
         | Replaced _ => EXEC_ENVIRONMENT_PRESENT
         | Layered _ => Z.lor EXEC_ENVIRONMENT_PRESENT EXEC_INHERIT_DEFAULT_ENV
         end) (match w_cwd w with Some _ => EXEC_CWD_PRESENT | None => 0 end).

Definition cwd_of (w : Workload) : list byte := match w_cwd w with Some c => c | None => [] end.

Definition header_of (w : Workload) : ExecHeader := {|
  h_timeout_ms := w_timeout_ms w; count := len (w_argv w); flags := flags_of w;
  environment_count := len (entries_of (w_environment w)); cwd_len := len (cwd_of w);
  offset := if flags_of w =? 0 then 8 else 16 |}.

Definition head_of (w : Workload) : list byte :=
  to_le_bytes 4 (w_timeout_ms w) ++ to_le_bytes 2 (len (w_argv w)) ++
  (if flags_of w =? 0 then to_le_bytes 2 0
   else to_le_bytes 2 EXEC_EXTENDED ++ to_le_bytes 2 (flags_of w)
        ++ to_le_bytes 2 (len (entries_of (w_environment w))) ++ to_le_bytes 4 (len (cwd_of w))).

(** What the encoder requires of a workload. *)
Definition encodable (w : Workload) : Prop :=
  1 <= len (w_argv w) <= MAX_ARGUMENTS /\
  starts_with_slash (nth 0 (w_argv w) []) = true /\
  match w_cwd w with
  | Some c => starts_with_slash c = true /\ has_nul c = false /\ len c <= MAX_ARGUMENT_BYTES
  | None => True
  end /\
  len (entries_of (w_environment w)) <= MAX_ENVIRONMENT.

Lemma encode_exec_ok w payload :
  encode_exec_payload w = Ok payload ->
  encodable w /\ len payload <= OUTER_MAX_PAYLOAD /\
  exists arguments entries,
    encode_arguments (w_argv w) = Ok arguments /\
    encode_environment [] (entries_of (w_environment w)) = Ok entries /\
    payload = head_of w ++ arguments ++ cwd_of w ++ entries.
Proof.
  unfold encode_exec_payload. intros H.
  destruct (_ || _) eqn:Hn; [done|]. destruct (starts_with_slash (nth 0 _ _)) eqn:Hs; [|done]. cbn [negb] in H.
  destruct (match w_cwd w with Some _ => _ | None => _ end) eqn:Hc; [done|].
  assert (Hcwd : match w_cwd w with
                 | Some c => starts_with_slash c = true /\ has_nul c = false /\ len c <= MAX_ARGUMENT_BYTES
                 | None => True end).
  { destruct (w_cwd w) as [c|]; [|done]. bool_to_prop. split_and!; (done || lia). }
  clear Hc. apply orb_false_iff in Hn as [Hn1 Hn2]. apply Z.eqb_neq in Hn1. apply Z.ltb_ge in Hn2.
  unfold encodable, head_of, flags_of, cwd_of in *. len_facts.
  assert (HU : MAX_ARGUMENTS <= U16_MAX /\ MAX_ENVIRONMENT <= U16_MAX /\ MAX_ARGUMENT_BYTES <= U32_MAX) by done.
  destruct HU as (HU1 & HU2 & HU3).
  destruct (w_environment w) as [|es|es]; cbn [entries_of] in *;
    (destruct (MAX_ENVIRONMENT <? len _) eqn:He; [done|]); apply Z.ltb_ge in He;
    (destruct (encode_arguments (w_argv w)) as [a|] eqn:Ha; [|done]);
    (destruct (encode_environment _ _) as [e|] eqn:Hen; [|by destruct (w_cwd w)]);
    cbn [mbind result_bind] in H;
    rewrite (try_or_max_small U16_MAX (len (w_argv w))) in H by lia;
    destruct (w_cwd w) as [c|]; rewrite ?Z.lor_0_l, ?Z.lor_0_r in *;
    rewrite ?try_or_max_small in H by (len_facts; lia || done || (destruct Hcwd as (_ & _ & ?); lia));
    (destruct (OUTER_MAX_PAYLOAD <? _) eqn:Ho in H; [done|]); apply Z.ltb_ge in Ho;
    unfold APP_HEADER_LEN in Ho; apply ok_inj in H.
  all: split; [len_facts; split_and?; (tauto || lia)|]; split; [rewrite <- H; lia|]; exists a, e; split_and!; done.
Qed.

Lemma cwd_length_valid w :
  encodable w ->
  is_u32 (len (cwd_of w)) /\
  (if negb (has_flag (flags_of w) EXEC_CWD_PRESENT) then len (cwd_of w) =? 0
   else (1 <=? len (cwd_of w)) && (len (cwd_of w) <=? MAX_ARGUMENT_BYTES)) = true.
Proof.
  intros (_ & _ & Hc & _). unfold flags_of, cwd_of. destruct (w_cwd w) as [c|].
  - destruct Hc as (Hs & _ & Hc).
    assert (1 <= len c) by (destruct c; [done|rewrite len_cons; len_facts; lia]).
    split; [unfold MAX_ARGUMENT_BYTES, is_u32, U32_MAX in *; lia|].
    assert (Hb : (1 <=? len c) && (len c <=? MAX_ARGUMENT_BYTES) = true)
      by (apply andb_true_iff; split; apply Z.leb_le; lia).
    by destruct (w_environment w).
  - split; [done|]. by destruct (w_environment w).
Qed.

Lemma header_of_decodes w rest :
  encodable w -> is_u32 (w_timeout_ms w) -> len (head_of w ++ rest) <= USIZE_MAX ->
  decode_exec_header (head_of w ++ rest) MAX_ARGUMENT_BYTES = Ok (header_of w).
Proof.
  intros Hw Ht Hl. destruct (cwd_length_valid w Hw) as [Hc1 Hc2]. destruct Hw as (Hn & _ & _ & He).
  unfold head_of, header_of in *. destruct (flags_of w =? 0) eqn:Hf; rewrite <- !app_assoc in *.
  - apply Z.eqb_eq in Hf. rewrite decode_legacy_header by done. unfold flags_of, cwd_of in *.
    by destruct (w_environment w), (w_cwd w).
  - len_facts. apply decode_extended_header; try done; unfold flags_of;
      by destruct (w_environment w), (w_cwd w).
Qed.

(** What the host's decoder makes of a workload. *)
Definition host_view (w : Workload) : ExecPayload := {|
  timeout_ms := w_timeout_ms w; argv := w_argv w; cwd := w_cwd w;
  environment := match w_environment w with Default => None | e => Some (entries_of e) end;
  inherit_default_env := match w_environment w with Replaced _ => false | _ => true end |}.

(** What the guest's makes of it: it inherits only under explicit entries. *)
Definition guest_view (w : Workload) : ExecPayload := {|
  timeout_ms := w_timeout_ms w; argv := w_argv w; cwd := w_cwd w;
  environment := match w_environment w with Default => None | e => Some (entries_of e) end;
  inherit_default_env := match w_environment w with Layered _ => true | _ => false end |}.

Lemma decode_encoded `{S : ExecString} w payload :
  encode_exec_payload w = Ok payload -> is_u32 (w_timeout_ms w) -> Forall held (workload_strings w) ->
  decode_exec payload MAX_ARGUMENT_BYTES
  = Ok (header_of w, w_argv w, w_cwd w,
        match w_environment w with Default => None | e => Some (entries_of e) end).
Proof.
  intros H Ht Hh. apply encode_exec_ok in H as (Hw & Hl & arguments & entries & Ha & He & ->).
  assert (Hu : len (head_of w ++ arguments ++ cwd_of w ++ entries) <= USIZE_MAX).
  { etransitivity; [exact Hl|]. done. }
  pose proof Hw as (Hn & Hs & Hc & _).
  apply decode_exec_body; try done.
  - by apply header_of_decodes.
  - unfold header_of, head_of. cbn [offset].
    by destruct (flags_of w =? 0); rewrite !len_app, !len_to_le_bytes.
  - unfold header_of, flags_of. cbn [flags]. by destruct (w_environment w), (w_cwd w).
  - unfold header_of, flags_of. cbn [flags]. by destruct (w_environment w), (w_cwd w).
  - destruct (w_cwd w); [|done]. tauto.
Qed.

(** Every workload that the host encodes reaches both decoders as it was: the payload decodes to
    the same timeout, arguments, working directory, and environment, with the default environment
    inherited as [Workload] asks (the guest's flag is about explicit entries only). Legacy and
    extended payloads are both covered. *)
Theorem exec_payload_roundtrip w payload :
  encode_exec_payload w = Ok payload -> is_u32 (w_timeout_ms w) ->
  Forall (fun s => is_utf8 s = true) (workload_strings w) ->
  decode_exec_payload payload = Ok (host_view w) /\ decode_guest_exec_payload payload = Ok (guest_view w).
Proof.
  intros H Ht Hu. unfold decode_exec_payload, decode_guest_exec_payload, MAX_GUEST_CWD_BYTES.
  rewrite (decode_encoded (S := host_string) w payload H Ht); cycle 1.
  { eapply Forall_impl; [exact Hu|]. intros s Hs what. cbn. by rewrite Hs. }
  rewrite (decode_encoded (S := guest_string) w payload H Ht) by (by apply Forall_true).
  cbn [mbind result_bind]. unfold host_view, guest_view, header_of, flags_of. cbn [h_timeout_ms flags].
  by destruct (w_environment w), (w_cwd w).
Qed.

Lemma exec_payload_roundtrip_witness :
  exists payload, encode_exec_payload sample_workload = Ok payload /\
    decode_guest_exec_payload payload = Ok (guest_view sample_workload).
Proof.
  eexists. split; [vm_compute; reflexivity|].
  eapply (exec_payload_roundtrip sample_workload); [vm_compute; reflexivity|done|].
  repeat constructor.
Defined.

(** ** The two decoders *)

(** [h] is the host's reading where [g] is the guest's: what the guest reads, if its strings [strs]
    are UTF-8, and a refusal otherwise. *)
Definition agrees {A} (strs : A -> list (list byte)) (h g : result ProtocolError A) : Prop :=
  match g with
  | Ok a => if forallb is_utf8 (strs a) then h = Ok a else exists e, h = Err e
  | Err _ => exists e, h = Err e
  end.

Lemma agrees_same {A} (r : result ProtocolError A) : agrees (fun _ => []) r r.
Proof. destruct r; cbn; eauto. Qed.

Lemma agrees_bind {A B} (sa : A -> list (list byte)) (sb sk : B -> list (list byte)) h g (hk gk : A -> result ProtocolError B) :
  agrees sa h g -> (forall a, g = Ok a -> agrees sk (hk a) (gk a)) ->
  (forall a b, g = Ok a -> gk a = Ok b -> forallb is_utf8 (sb b) = forallb is_utf8 (sa a) && forallb is_utf8 (sk b)) ->
  agrees sb (h ≫= hk) (g ≫= gk).
Proof.
  intros H Hk Hs. destruct g as [a|e]; cbn [mbind result_bind agrees] in *.
  - specialize (Hk a eq_refl). specialize (Hs a). destruct (forallb is_utf8 (sa a)) eqn:E.
    + rewrite H. cbn [mbind result_bind]. destruct (gk a) as [b|]; cbn [agrees] in *; [|done].
      by rewrite (Hs b).
    + destruct H as [e ->]. cbn [mbind result_bind agrees]. destruct (gk a) as [b|]; cbn [agrees] in *; [|eauto].
      rewrite (Hs b) by done. cbn. eauto.
  - destruct H as [e' ->]. cbn. eauto.
Qed.

Lemma agrees_convert bytes what :
  agrees (fun b => [b]) (@convert host_string bytes what) (@convert guest_string bytes what).
Proof. cbn. rewrite andb_true_r. destruct (is_utf8 bytes); eauto. Qed.

Lemma prefixed_string_agrees payload at_ what :
  agrees (fun x => [x.1]) (@prefixed_string host_string payload at_ what)
    (@prefixed_string guest_string payload at_ what).
Proof.
  unfold prefixed_string. destruct (prefixed_bytes payload at_ what) as [[b o]|e]; cbn; [|eauto].
  rewrite andb_true_r. destruct (is_utf8 b); cbn; eauto.
Qed.

Lemma decode_arguments_agrees rounds payload at_ :
  agrees (fun x => x.1) (@decode_arguments host_string rounds payload at_)
    (@decode_arguments guest_string rounds payload at_).
Proof.
  revert at_. induction rounds as [|rounds IH]; intros at_; cbn [decode_arguments]; [done|].
  eapply (agrees_bind (fun x => [x.1]) _ (fun x => tl x.1)); [apply prefixed_string_agrees| |].
  - intros [b o] _. eapply (agrees_bind (fun x => x.1) _ (fun _ => [])); [apply IH|by intros [l o'] _|].
    intros [l o'] x _ H. cbn in H. simplify_eq. cbn. by rewrite andb_true_r.
  - intros [b o] x _ H. destruct (decode_arguments _ _ _) as [[args o']|]; cbn in H; simplify_eq. cbn.
    by rewrite andb_true_r.
Qed.

Lemma decode_environment_agrees rounds names payload at_ :
  agrees (fun x => x.1) (@decode_environment host_string rounds names payload at_)
    (@decode_environment guest_string rounds names payload at_).
Proof.
  revert names at_. induction rounds as [|rounds IH]; intros names at_; cbn [decode_environment]; [done|].
  eapply (agrees_bind (fun x => [x.1]) _ (fun x => tl x.1)); [apply prefixed_string_agrees| |].
  - intros [b o] _. destruct (entry_name b) as [name|]; [|cbn; eauto].
    destruct (bool_decide _); [cbn; eauto|].
    eapply (agrees_bind (fun x => x.1) _ (fun _ => [])); [apply IH|by intros [l o'] _|].
    intros [l o'] x _ H. cbn in H. simplify_eq. cbn. by rewrite andb_true_r.
  - intros [b o] x _ H. destruct (entry_name b); [|done]. destruct (bool_decide _); [done|].
    destruct (decode_environment _ _ _ _) as [[args o']|]; cbn in H; simplify_eq. cbn. by rewrite andb_true_r.
Qed.

Lemma decode_cwd_agrees payload h at_ :
  agrees (fun x => option_list x.1) (@decode_cwd host_string payload h at_) (@decode_cwd guest_string payload h at_).
Proof.
  unfold decode_cwd. destruct (negb (has_flag _ _)); [done|].
  destruct (bytes_at _ _ _ _) as [b|]; cbn [mbind result_bind]; [|cbn; eauto].
  eapply (agrees_bind (fun b => [b]) _ (fun _ => [])); [apply agrees_convert| |].
  - intros a _. apply agrees_same.
  - intros a x _ H. inv_ok. cbn. by rewrite !andb_true_r.
Qed.

(** The strings of a decoded request. *)
Definition payload_strings (e : ExecPayload) : list (list byte) :=
  argv e ++ option_list (cwd e) ++ default [] (environment e).

Definition decoded_strings (x : ExecHeader * list (list byte) * option (list byte) * option (list (list byte))) :=
  let '(_, argv, cwd, environment) := x in argv ++ option_list cwd ++ default [] environment.

(** Entries that the payload counts are entries that it has. *)
Lemma decode_header_environment payload max_cwd h :
  decode_exec_header payload max_cwd = Ok h ->
  has_flag (flags h) EXEC_ENVIRONMENT_PRESENT = false -> environment_count h = 0.
Proof.
  unfold decode_exec_header. intros H Hf. inv_ok. destruct x2 as [[[f n] l] o]. inv_ok. cbn in *.
  destruct (x1 =? 0); [inv_ok; congruence|]. destruct (_ && _); [|by destruct (x1 =? _)]. inv_ok.
  simplify_eq. rewrite Hf in *. bool_to_prop. cbn in *. lia.
Qed.

Lemma decode_exec_agrees payload max_cwd :
  agrees decoded_strings (@decode_exec host_string payload max_cwd) (@decode_exec guest_string payload max_cwd).
Proof.
  unfold decode_exec. destruct (decode_exec_header payload max_cwd) as [h|] eqn:Hh; [|cbn; eauto].
  cbn [mbind result_bind].
  eapply (agrees_bind (fun x => x.1) _ (fun x => option_list x.1.2 ++ default [] x.2)); [apply decode_arguments_agrees| |].
  - intros [args o] _. destruct (negb _); [cbn; eauto|].
    eapply (agrees_bind (fun x => option_list x.1) _ (fun x => default [] x.2)); [apply decode_cwd_agrees| |].
    + intros [c o'] _.
      eapply (agrees_bind (fun x => x.1) _ (fun _ => [])); [apply decode_environment_agrees| |].
      * intros [es o''] _. apply agrees_same.
      * intros [es o''] x He Hx. inv_ok. cbn [fst snd forallb]. rewrite andb_true_r.
        destruct (has_flag (flags h) EXEC_ENVIRONMENT_PRESENT) eqn:Hf; [done|].
        rewrite (decode_header_environment _ _ _ Hh Hf) in He.
        change (Ok (E := ProtocolError) (@nil (list byte), o') = Ok (es, o'')) in He. by simplify_eq.
    + intros [c o'] x _ Hx. inv_ok. destruct x0 as [es o'']. inv_ok. cbn [fst snd]. by rewrite forallb_app.
  - intros [args o] x _ Hx. inv_ok. destruct x0 as [c o']. inv_ok. destruct x0 as [es o'']. inv_ok.
    unfold decoded_strings. cbn [fst snd]. by rewrite !forallb_app.
Qed.

(** The host's decoder accepts exactly the payloads that the guest's accepts and whose strings
    are all UTF-8, and then reads the same timeout, arguments, working directory, and environment;
    its [inherit_default_env] is the guest's, or true without explicit entries. The two decoders
    are one reading over the [ExecString] interface, so neither can drift from the other. *)
Theorem exec_decoders_agree payload :
  match decode_guest_exec_payload payload with
  | Ok g =>
      if forallb is_utf8 (payload_strings g) then
        decode_exec_payload payload = Ok {|
          timeout_ms := timeout_ms g; argv := argv g; cwd := cwd g; environment := environment g;
          inherit_default_env := match environment g with None => true | Some _ => inherit_default_env g end |}
      else exists e, decode_exec_payload payload = Err e
  | Err _ => exists e, decode_exec_payload payload = Err e
  end.
Proof.
  unfold decode_exec_payload, decode_guest_exec_payload, MAX_GUEST_CWD_BYTES.
  pose proof (decode_exec_agrees payload MAX_ARGUMENT_BYTES) as H. unfold agrees in H.
  destruct (@decode_exec guest_string _ _) as [[[[h a] c] e]|err] eqn:Hg; cbn [mbind result_bind] in *;
    [|destruct H as [e ->]; cbn; eauto].
  unfold payload_strings, decoded_strings in *. cbn [argv cwd environment].
  destruct (forallb is_utf8 _); [|destruct H as [e' ->]; cbn; eauto].
  rewrite H. cbn [mbind result_bind timeout_ms inherit_default_env].
  assert (He : match e with None => false | Some _ => true end = has_flag (flags h) EXEC_ENVIRONMENT_PRESENT).
  { unfold decode_exec in Hg. inv_ok. destruct x0. inv_ok. destruct x0. inv_ok. destruct x0. inv_ok.
    by destruct (has_flag _ _). }
  rewrite <- He. by destruct e.
Qed.
