(* ===== verification/Maps.v ===== *)
(** * MAPS payloads (src/nvx-rs/src/protocol/maps.rs)

    The host mapping table as the payloads of consecutive MAPS requests: the host's encoder, which
    cuts the table into payloads of at most a limit, and the decoders of the host and of the guest,
    which share one reading. A [String] is its bytes, which are UTF-8. *)

From S2P Require Import Prelude.

Definition MAX_HOST_MAPPINGS : Z := 4096.
Definition MAX_MAP_PATH_BYTES : Z := 4095.
Definition MAPS_HEADER_LEN : Z := 8.
Definition MAP_ENTRY_HEADER_LEN : Z := 6.
Definition MAP_READ_ONLY : Z := Z.shiftl 1 0.

(** [HostMap], and the guest's [GuestHostMap]: the same fields. *)
Record HostMap := mkHostMap {
  source : list byte;
  target : list byte;
  read_only : bool;
}.

(** A component other than the empty one, [.], and [..]. *)
Definition normal_component (c : list byte) : bool :=
  negb (bool_decide (c = [] \/ c = bytes_of "." \/ c = bytes_of "..")).

Definition normal (components : list byte) : bool :=
  negb (bool_decide (components = [])) && forallb normal_component (split_on (fun b => byte_val b =? 47) components).

Definition acceptable (source target : list byte) : bool :=
  forallb (fun path => (len path <=? MAX_MAP_PATH_BYTES) && negb (has_nul path)) [source; target]
  && (bool_decide (source = []) || normal source)
  && match target with b :: rest => (byte_val b =? 47) && normal rest | [] => false end.

(** ** The encoder *)

(** [payload[4..8].copy_from_slice(&count.to_le_bytes())]. *)
Definition set_count (payload : list byte) (count : Z) : list byte :=
  copy_at 4 (to_le_bytes 4 count) payload.

(** What an entry adds to its payload. *)
Definition encode_entry (map : HostMap) : list byte :=
  to_le_bytes 2 (if read_only map then MAP_READ_ONLY else 0)
  ++ to_le_bytes 2 (try_or_max U16_MAX (len (source map)))
  ++ to_le_bytes 2 (try_or_max U16_MAX (len (target map)))
  ++ source map ++ target map.

(** The loop over the table, from [index], with the payload being filled and its entries; it returns
    the payloads that it completes and the last one. *)
Fixpoint encode_maps_loop (limit : Z) (maps : list HostMap) (index : Z) (payload : list byte) (count : Z)
    : result ProtocolError (list (list byte)) :=
  match maps with
  | [] => Ok [set_count payload count]
  | map :: maps =>
      if negb (acceptable (source map) (target map)) then
        Err (violation "a host mapping needs a source that is empty, for the export's root, or relative, and an absolute target, each of at most 4095 bytes without NUL characters or empty, `.`, or `..` components")
      else
        let entry_len := MAP_ENTRY_HEADER_LEN + len (source map) + len (target map) in
        if limit <? MAPS_HEADER_LEN + entry_len then
          Err (violation "a host mapping exceeds the control protocol limit")
        else
          let full := (0 <? count) && (limit <? len payload + entry_len) in
          let flushed := if full then [set_count payload count] else [] in
          let '(payload, count) := if full then ([], 0) else (payload, count) in
          let payload :=
            if count =? 0 then payload ++ to_le_bytes 4 (try_or_max U32_MAX index) ++ to_le_bytes 4 0
            else payload in
          rest ← encode_maps_loop limit maps (index + 1) (payload ++ encode_entry map) (count + 1);
          Ok (flushed ++ rest)
  end.

Definition encode_maps_payloads (maps : list HostMap) (limit : Z) : result ProtocolError (list (list byte)) :=
  if (len maps =? 0) || (MAX_HOST_MAPPINGS <? len maps) then
    Err (violation "a host mapping table holds 1 to 4096 entries")
  else encode_maps_loop limit maps 0 [] 0.

(** ** The decoders *)

(** [MapsPayload], and the guest's [GuestMapsPayload]: the same fields. *)
Record MapsPayload := mkMapsPayload {
  first : Z;
  maps : list HostMap;
}.

Definition truncated : ProtocolError := violation "the host mapping request is truncated".

Section Entries.
(** How a decoder converts a path. *)
Variable path : list byte -> result ProtocolError (list byte).

(** The closure [take]: the path of [length] bytes at [offset], and the offset after it. *)
Definition take_path (payload : list byte) (offset length : Z) : result ProtocolError (list byte * Z) :=
  last ← ok_or (checked_add USIZE_MAX offset length) truncated;
  bytes ← ok_or (get_range offset last payload) truncated;
  p ← path bytes;
  Ok (p, last).

(** The loop over the entries: the entries, and the offset after them. *)
Fixpoint decode_entries_loop (rounds : nat) (payload : list byte) (offset : Z)
    : result ProtocolError (list HostMap * Z) :=
  match rounds with
  | O => Ok ([], offset)
  | S rounds =>
      match u16_at payload offset, u16_at payload (saturating_add offset 2),
            u16_at payload (saturating_add offset 4) with
      | Some flags, Some source_len, Some target_len =>
          offset ← ok_or (checked_add USIZE_MAX offset MAP_ENTRY_HEADER_LEN) truncated;
          '(source, offset) ← take_path payload offset source_len;
          '(target, offset) ← take_path payload offset target_len;
          if negb (Z.land flags (Z.lxor U16_MAX MAP_READ_ONLY) =? 0) || negb (acceptable source target) then
            Err (violation "a host mapping has unknown flags or a source or target that the guest agent refuses")
          else
            '(rest, offset) ← decode_entries_loop rounds payload offset;
            Ok (mkHostMap source target (negb (Z.land flags MAP_READ_ONLY =? 0)) :: rest, offset)
      | _, _, _ => Err truncated
      end
  end.

Definition decode_maps_entries (payload : list byte) (count : Z) : result ProtocolError (list HostMap) :=
  '(maps, offset) ← decode_entries_loop (Z.to_nat count) payload MAPS_HEADER_LEN;
  if negb (offset =? len payload) then Err (violation "the host mapping request has trailing bytes")
  else Ok maps.
End Entries.

(** The conversions: [String::from_utf8], and the bytes as they are. *)
Definition host_path (bytes : list byte) : result ProtocolError (list byte) :=
  if is_utf8 bytes then Ok bytes else Err (violation "a host mapping is not valid UTF-8").

Definition guest_path (bytes : list byte) : result ProtocolError (list byte) := Ok bytes.

Definition decode_maps_payload (payload : list byte) : result ProtocolError MapsPayload :=
  first ← ok_or (u32_at payload 0) truncated;
  count ← ok_or (u32_at payload 4) truncated;
  maps ← decode_maps_entries host_path payload count;
  Ok (mkMapsPayload first maps).

Definition decode_guest_maps_payload (payload : list byte) : result ProtocolError MapsPayload :=
  first ← ok_or (u32_at payload 0) truncated;
  count ← ok_or (u32_at payload 4) truncated;
  if MAX_HOST_MAPPINGS <? count then Err (violation "the host mapping request has too many entries")
  else
    maps ← decode_maps_entries guest_path payload count;
    Ok (mkMapsPayload first maps).

Definition sample_maps : list HostMap :=
  [mkHostMap [] (bytes_of "/data") false; mkHostMap (bytes_of "a/b") (bytes_of "/mnt/x") true;
   mkHostMap (bytes_of "c") (bytes_of "/c") false].

(** ** The round trip *)

(** The payload of the entries [chunk] of a table, from index [start]. *)
Definition payload_of (start count : Z) (chunk : list HostMap) : list byte :=
  to_le_bytes 4 start ++ to_le_bytes 4 count ++ concat (map encode_entry chunk).

Lemma set_count_payload start count chunk :
  set_count (payload_of start 0 chunk) count = payload_of start count chunk.
Proof.
  unfold set_count, copy_at, payload_of. rewrite ztake_app_l, ztake_all by (rewrite len_to_le_bytes; lia).
  rewrite zdrop_app_r by (rewrite !len_to_le_bytes; lia). rewrite !len_to_le_bytes.
  rewrite zdrop_app_r by (rewrite len_to_le_bytes; lia). rewrite len_to_le_bytes.
  by rewrite (zdrop_0 _ (concat _)) by lia.
Qed.

(** The payload being filled holds the entries of [chunk], which end before [index]. *)
Definition filling (chunk : list HostMap) (index : Z) (payload : list byte) (count : Z) : Prop :=
  count = len chunk /\ 0 <= index - count /\
  payload = match chunk with [] => [] | _ => payload_of (index - count) 0 chunk end.

(** The payloads are those of the chunks, in order, each with entries and within the limit. *)
Fixpoint written (limit start : Z) (payloads : list (list byte)) (chunks : list (list HostMap)) : Prop :=
  match payloads, chunks with
  | [], [] => True
  | payload :: payloads, chunk :: chunks =>
      chunk <> [] /\ payload = payload_of start (len chunk) chunk /\ len payload <= limit
      /\ written limit (start + len chunk) payloads chunks
  | _, _ => False
  end.

Lemma acceptable_lengths s t : acceptable s t = true -> len s <= MAX_MAP_PATH_BYTES /\ len t <= MAX_MAP_PATH_BYTES.
Proof. unfold acceptable. cbn [forallb]. intros H. bool_to_prop. lia. Qed.

Lemma len_encode_entry m : len (encode_entry m) = MAP_ENTRY_HEADER_LEN + len (source m) + len (target m).
Proof. unfold encode_entry, MAP_ENTRY_HEADER_LEN. rewrite !len_app, !len_to_le_bytes. lia. Qed.

Lemma len_payload_of start count chunk :
  len (payload_of start count chunk) = 8 + len (concat (map encode_entry chunk)).
Proof. unfold payload_of. rewrite !len_app, !len_to_le_bytes. lia. Qed.

Lemma payload_of_snoc start count chunk m :
  payload_of start count chunk ++ encode_entry m = payload_of start count (chunk ++ [m]).
Proof. unfold payload_of. rewrite map_app, concat_app. cbn [map concat]. by rewrite app_nil_r, <- !app_assoc. Qed.

Lemma encode_maps_loop_written limit table chunk index payload count payloads :
  encode_maps_loop limit table index payload count = Ok payloads ->
  filling chunk index payload count -> len payload <= limit -> chunk ++ table <> [] ->
  index + len table <= MAX_HOST_MAPPINGS ->
  Forall (fun m => acceptable (source m) (target m) = true) table /\
  exists chunks, written limit (index - count) payloads chunks /\ concat chunks = chunk ++ table.
Proof.
  revert chunk index payload count payloads. induction table as [|m table IH];
    intros chunk index payload count payloads H (Hcount & Hi & Hp) Hl Hne Hlen; cbn [encode_maps_loop] in H.
  { apply ok_inj in H. split; [done|]. exists [chunk]. rewrite app_nil_r in *. split; [|cbn; by rewrite app_nil_r].
    destruct chunk as [|c chunk]; [done|]. subst payloads payload. rewrite set_count_payload.
    cbn [written]. rewrite !len_payload_of in *. by subst count. }
  destruct (acceptable _ _) eqn:Ha; [|done]. cbn [negb] in H.
  destruct (limit <? _) eqn:Hfit; [done|]. apply Z.ltb_ge in Hfit. unfold MAPS_HEADER_LEN in Hfit.
  rewrite <- Z.add_assoc in Hfit. rewrite len_cons in Hlen. len_facts.
  assert (Hindex : try_or_max U32_MAX index = index).
  { apply try_or_max_small. unfold MAX_HOST_MAPPINGS, U32_MAX in *. lia. }
  rewrite Hindex in H.
  assert (Hstart : forall rest, encode_maps_loop limit table (index + 1)
      (payload_of index 0 [m]) 1 = Ok rest ->
    Forall (fun m => acceptable (source m) (target m) = true) (m :: table) /\
    exists chunks, written limit index rest chunks /\ concat chunks = m :: table).
  { intros rest Hr. destruct (IH [m] _ _ _ _ Hr) as (Hac & chunks & Hw & Hc); [|..|split; [by constructor|]].
    - unfold filling. split_and?; [done|lia|]. f_equal. lia.
    - rewrite len_payload_of. cbn [map concat]. rewrite app_nil_r, len_encode_entry. unfold MAP_ENTRY_HEADER_LEN in *. lia.
    - done.
    - lia.
    - exists chunks. split; [|done]. by replace (index + 1 - 1) with index in Hw by lia. }
  assert (Hnew : ([] ++ to_le_bytes 4 index ++ to_le_bytes 4 0) ++ encode_entry m = payload_of index 0 [m]).
  { unfold payload_of. cbn [map concat app]. by rewrite app_nil_r, <- app_assoc. }
  destruct ((0 <? count) && _) eqn:Hfull.
  - apply andb_true_iff in Hfull as [Hc0 _]. apply Z.ltb_lt in Hc0. cbn [Z.eqb Z.add] in H. rewrite Hnew in H.
    destruct (encode_maps_loop _ _ _ _ _) as [rest|] eqn:Hr; [|done]. cbn [mbind result_bind] in H.
    apply ok_inj in H. subst payloads. destruct (Hstart rest eq_refl) as (Hac & chunks & Hw & Hcs). split; [done|].
    destruct chunk as [|c chunk]; [by rewrite Hcount in Hc0|]. exists ((c :: chunk) :: chunks).
    subst payload. rewrite set_count_payload. cbn [app written concat]. rewrite Hcs, <- Hcount.
    rewrite len_payload_of in *. replace (index - count + count) with index by lia. done.
  - destruct (count =? 0) eqn:Hz.
    + apply Z.eqb_eq in Hz. destruct chunk as [|c chunk]; [|rewrite len_cons in Hcount; len_facts; lia].
      subst payload. rewrite Hnew, Hz in H. cbn [Z.add] in H.
      destruct (encode_maps_loop _ _ _ _ _) as [rest|] eqn:Hr; [|done]. apply ok_inj in H. subst payloads.
      rewrite Hz, Z.sub_0_r. by apply Hstart.
    + apply Z.eqb_neq in Hz. destruct chunk as [|c chunk]; [done|].
      destruct (encode_maps_loop _ _ _ _ _) as [rest|] eqn:Hr; [|done]. apply ok_inj in H. subst payloads.
      assert (Hlim : len payload + (MAP_ENTRY_HEADER_LEN + len (source m) + len (target m)) <= limit).
      { apply andb_false_iff in Hfull as [Hb|Hb]; apply Z.ltb_ge in Hb; lia. }
      subst payload. rewrite payload_of_snoc in Hr.
      destruct (IH ((c :: chunk) ++ [m]) _ _ _ _ Hr) as (Hac & chunks & Hw & Hc).
      * unfold filling. split_and?; [by rewrite Hcount, len_app|lia|]. cbn [app]. f_equal. lia.
      * rewrite <- payload_of_snoc, len_app, len_encode_entry. lia.
      * done.
      * lia.
      * split; [by constructor|]. exists chunks. cbn [app]. replace (index + 1 - (count + 1)) with (index - count) in Hw by lia.
        split; [done|]. rewrite Hc, <- app_assoc. done.
Qed.

Section Decoding.
Variable path : list byte -> result ProtocolError (list byte).

Lemma take_path_mid pre p post at_ length :
  path p = Ok p -> at_ = len pre -> length = len p -> len (pre ++ p ++ post) <= USIZE_MAX ->
  take_path path (pre ++ p ++ post) at_ length = Ok (p, len pre + len p).
Proof.
  intros Hp -> -> Hl. unfold take_path. rewrite !len_app in Hl. len_facts.
  rewrite checked_add_fits by lia. cbn [ok_or mbind result_bind]. rewrite get_range_mid by done.
  cbn [ok_or mbind result_bind]. by rewrite Hp.
Qed.

(** An entry that the decoder reads as it was. *)
Definition readable (m : HostMap) : Prop :=
  acceptable (source m) (target m) = true /\ path (source m) = Ok (source m) /\ path (target m) = Ok (target m).

Lemma decode_entry_mid rounds pre m post :
  readable m -> len (pre ++ encode_entry m ++ post) <= USIZE_MAX ->
  decode_entries_loop path (S rounds) (pre ++ encode_entry m ++ post) (len pre)
  = '(rest, offset) ← decode_entries_loop path rounds (pre ++ encode_entry m ++ post) (len (pre ++ encode_entry m));
    Ok (m :: rest, offset).
Proof.
  intros (Ha & Hs & Ht) Hl. destruct (acceptable_lengths _ _ Ha) as [Hsl Htl].
  remember (decode_entries_loop path rounds) as loop eqn:Hloop. cbn [decode_entries_loop]. rewrite <- Hloop.
  assert (Hen : encode_entry m = to_le_bytes 2 (if read_only m then MAP_READ_ONLY else 0)
    ++ to_le_bytes 2 (len (source m)) ++ to_le_bytes 2 (len (target m)) ++ source m ++ target m).
  { unfold encode_entry. unfold MAX_MAP_PATH_BYTES in *.
    by rewrite !try_or_max_small by (unfold U16_MAX; lia). }
  assert (Hpre : len pre + 6 + len (source m) + len (target m) <= USIZE_MAX).
  { rewrite Hen, !len_app, !len_to_le_bytes in Hl. len_facts. lia. }
  assert (Hend : len (pre ++ encode_entry m) = len pre + 6 + len (source m) + len (target m)).
  { rewrite Hen, !len_app, !len_to_le_bytes. lia. }
  rewrite Hend. remember (pre ++ encode_entry m ++ post) as payload eqn:Hpay.
  rewrite Hen, <- !app_assoc in Hpay. len_facts. unfold saturating_add.
  rewrite !Z.min_r by (unfold USIZE_MAX in *; lia).
  set (flag := if read_only m then MAP_READ_ONLY else 0) in *.
  erewrite (u16_at_is payload (len pre) [pre]);
    [|exact Hpay|cbn [concat]; by rewrite app_nil_r|by rewrite len_to_le_bytes|done].
  erewrite (u16_at_is payload (len pre + 2) [pre; to_le_bytes 2 flag]);
    [|exact Hpay|cbn [concat]; by rewrite !len_app, len_to_le_bytes|by rewrite len_to_le_bytes|done].
  erewrite (u16_at_is payload (len pre + 4) [pre; to_le_bytes 2 flag; to_le_bytes 2 (len (source m))]);
    [|exact Hpay|cbn [concat]; by rewrite !len_app, !len_to_le_bytes|by rewrite len_to_le_bytes|done].
  unfold MAP_ENTRY_HEADER_LEN, MAX_MAP_PATH_BYTES in *.
  rewrite checked_add_fits by lia. cbn [ok_or mbind result_bind].
  assert (Hflag : is_u16 flag) by (subst flag; by destruct (read_only m)).
  rewrite !u16_le_roundtrip by (done || (unfold is_u16, U16_MAX; lia)).
  rewrite Hpay in Hl |- *.
  rewrite (app_assoc pre), (app_assoc (pre ++ _)), (app_assoc (_ ++ _)) in Hl |- *.
  rewrite take_path_mid by (done || (rewrite !len_app, !len_to_le_bytes; lia)).
  cbn [mbind result_bind]. rewrite (app_assoc (_ ++ to_le_bytes 2 (len (target m)))) in Hl |- *.
  rewrite take_path_mid by (done || (rewrite !len_app, !len_to_le_bytes; lia)).
  cbn [mbind result_bind]. rewrite Ha.
  replace (len (_ ++ source m) + len (target m)) with (len pre + 6 + len (source m) + len (target m))
    by (rewrite !len_app, !len_to_le_bytes; lia).
  subst flag. destruct m as [s t r]; by destruct r.
Qed.

Lemma decode_entries_mid chunk pre :
  Forall readable chunk -> len (pre ++ concat (map encode_entry chunk)) <= USIZE_MAX ->
  decode_entries_loop path (length chunk) (pre ++ concat (map encode_entry chunk)) (len pre)
  = Ok (chunk, len pre + len (concat (map encode_entry chunk))).
Proof.
  intros H. revert pre. induction H as [|m chunk Hm _ IH]; intros pre Hl.
  { cbn. by rewrite Z.add_0_r. }
  cbn [length map concat] in *. rewrite decode_entry_mid by done.
  rewrite (app_assoc pre) in *. rewrite IH by done. cbn [mbind result_bind]. f_equal. f_equal.
  rewrite !len_app. lia.
Qed.

Lemma decode_payload_of start chunk :
  Forall readable chunk -> len (payload_of start (len chunk) chunk) <= USIZE_MAX ->
  decode_maps_entries path (payload_of start (len chunk) chunk) (len chunk) = Ok chunk.
Proof.
  intros Hr Hl. unfold decode_maps_entries.
  replace (Z.to_nat (len chunk)) with (length chunk) by (unfold len; lia).
  unfold payload_of in *. rewrite app_assoc in *.
  replace MAPS_HEADER_LEN with (len (to_le_bytes 4 start ++ to_le_bytes 4 (len chunk)))
    by (by rewrite len_app, !len_to_le_bytes).
  rewrite decode_entries_mid by done. cbn [mbind result_bind]. by rewrite <- len_app, Z.eqb_refl.
Qed.
End Decoding.

Lemma decode_payload_head start count rest :
  is_u32 start -> is_u32 count -> len (to_le_bytes 4 start ++ to_le_bytes 4 count ++ rest) <= USIZE_MAX ->
  u32_at (to_le_bytes 4 start ++ to_le_bytes 4 count ++ rest) 0 = Some start /\
  u32_at (to_le_bytes 4 start ++ to_le_bytes 4 count ++ rest) 4 = Some count.
Proof.
  intros Hs Hc Hl. split.
  - read_field u32_at_is 0 (@nil (list byte)). by rewrite u32_le_roundtrip.
  - read_field u32_at_is 4 [to_le_bytes 4 start]. by rewrite u32_le_roundtrip.
Qed.

(** The paths of an entry are UTF-8, as a [String] is. *)
Definition text_entry (m : HostMap) : Prop := is_utf8 (source m) = true /\ is_utf8 (target m) = true.

(** The payloads decode, on both sides, to the chunks of the table in order: each with the index of
    its first entry, at least one entry, and at most [limit] bytes. *)
Fixpoint delivered (limit start : Z) (payloads : list (list byte)) (chunks : list (list HostMap)) : Prop :=
  match payloads, chunks with
  | [], [] => True
  | payload :: payloads, chunk :: chunks =>
      chunk <> [] /\ len payload <= limit
      /\ decode_maps_payload payload = Ok (mkMapsPayload start chunk)
      /\ decode_guest_maps_payload payload = Ok (mkMapsPayload start chunk)
      /\ delivered limit (start + len chunk) payloads chunks
  | _, _ => False
  end.

Lemma written_delivered limit start payloads chunks :
  written limit start payloads chunks -> limit <= USIZE_MAX -> 0 <= start ->
  start + len (concat chunks) <= MAX_HOST_MAPPINGS ->
  Forall (fun m => acceptable (source m) (target m) = true) (concat chunks) ->
  Forall text_entry (concat chunks) -> delivered limit start payloads chunks.
Proof.
  revert start chunks. induction payloads as [|p payloads IH]; intros start [|chunk chunks] Hw Hl Hs Hn Ha Ht;
    cbn [written delivered concat] in *; try done.
  destruct Hw as (Hne & Hp & Hlp & Hw). rewrite len_app in Hn. len_facts.
  apply Forall_app in Ha as [Ha1 Ha2]. apply Forall_app in Ht as [Ht1 Ht2].
  assert (Hhost : Forall (readable host_path) chunk).
  { apply Forall_forall. intros m Hm. rewrite Forall_forall in Ha1, Ht1. destruct (Ht1 m Hm) as [Hs1 Hs2].
    unfold readable, host_path. rewrite Hs1, Hs2. auto. }
  assert (Hguest : Forall (readable guest_path) chunk).
  { eapply Forall_impl; [exact Ha1|]. done. }
  assert (Hu : len (payload_of start (len chunk) chunk) <= USIZE_MAX) by (rewrite <- Hp; lia).
  unfold decode_maps_payload, decode_guest_maps_payload. rewrite Hp.
  pose proof (decode_payload_of host_path start chunk Hhost Hu) as Hh.
  pose proof (decode_payload_of guest_path start chunk Hguest Hu) as Hg.
  unfold MAX_HOST_MAPPINGS in *.
  destruct (decode_payload_head start (len chunk) (concat (map encode_entry chunk))) as [Hf Hc];
    [unfold is_u32, U32_MAX; lia|unfold is_u32, U32_MAX; lia|exact Hu|].
  fold (payload_of start (len chunk) chunk) in Hf, Hc. rewrite Hf, Hc. cbn [ok_or mbind result_bind].
  destruct (Z.ltb_spec 4096 (len chunk)); [lia|]. rewrite Hh, Hg. cbn [mbind result_bind].
  split; [done|]. split; [by rewrite <- Hp|]. split; [done|]. split; [done|]. apply IH; try done; lia.
Qed.

(** The encoder takes a table of 1 to 4096 acceptable entries, each small enough for a payload. *)
Definition encodable (limit : Z) (m : HostMap) : Prop :=
  acceptable (source m) (target m) = true /\ 14 + len (source m) + len (target m) <= limit.

Lemma encode_maps_loop_total limit table index payload count :
  (exists payloads, encode_maps_loop limit table index payload count = Ok payloads)
  <-> Forall (encodable limit) table.
Proof.
  revert index payload count. induction table as [|m table IH]; intros index payload count;
    cbn [encode_maps_loop].
  { split; eauto. }
  unfold MAPS_HEADER_LEN, MAP_ENTRY_HEADER_LEN. rewrite Forall_cons. unfold encodable at 1.
  destruct (acceptable _ _); cbn [negb]; [|split; [intros [? ?]; done|intros [[? _] _]; done]].
  destruct (Z.ltb_spec limit (8 + (6 + len (source m) + len (target m)))).
  { split; [by intros [? ?]|]. intros [[_ ?] _]. lia. }
  destruct (if _ && _ then ([], 0) else (payload, count)) as [payload' count'].
  match goal with |- context [encode_maps_loop limit table ?i ?p ?c] => rewrite <- (IH i p c) end. split.
  - intros [ps Hps]. split; [split; [done|lia]|]. destruct (encode_maps_loop _ _ _ _ _) eqn:Hr; [|done].
    eexists. reflexivity.
  - intros [_ [ps Hps]]. rewrite Hps. cbn [mbind result_bind]. eauto.
Qed.

(** The host's encoder takes exactly the tables of 1 to 4096 entries whose paths the guest
    accepts and that each fit a payload; and every table that it takes reaches both decoders whole,
    in order, and without a gap: its payloads, each within the limit, decode to consecutive chunks
    with at least one entry and the index at which each starts. *)
Theorem maps_payloads_roundtrip table limit :
  limit <= USIZE_MAX -> Forall text_entry table ->
  match encode_maps_payloads table limit with
  | Ok payloads => exists chunks, concat chunks = table /\ delivered limit 0 payloads chunks
  | Err _ => ~ (1 <= len table <= MAX_HOST_MAPPINGS /\ Forall (encodable limit) table)
  end.
Proof.
  intros Hl Ht. unfold encode_maps_payloads.
  destruct ((len table =? 0) || (MAX_HOST_MAPPINGS <? len table)) eqn:Hn.
  { intros [? _]. bool_to_prop. lia. }
  apply orb_false_iff in Hn as [Hn1 Hn2]. apply Z.eqb_neq in Hn1. apply Z.ltb_ge in Hn2.
  destruct (encode_maps_loop limit table 0 [] 0) as [payloads|e] eqn:H; cycle 1.
  { intros [_ Hall]. apply (encode_maps_loop_total limit table 0 [] 0) in Hall as [ps Hps]. congruence. }
  assert (Hne : table <> []) by (by intros ->).
  assert (H14 : 0 <= limit).
  { assert (Hall : Forall (encodable limit) table) by (apply (encode_maps_loop_total limit table 0 [] 0); eauto).
    destruct table as [|m table]; [done|]. apply Forall_cons in Hall as [[_ ?] _]. len_facts. lia. }
  destruct (encode_maps_loop_written limit table [] 0 [] 0 payloads H) as (Ha & chunks & Hw & Hc);
    [done|done|done|lia|].
  cbn [app] in Hc. exists chunks. split; [done|].
  apply written_delivered; rewrite ?Hc; (done || lia).
Qed.

Lemma maps_payloads_roundtrip_witness :
  exists payloads chunks,
    encode_maps_payloads sample_maps 30 = Ok payloads /\ len payloads = 3 /\ concat chunks = sample_maps
    /\ delivered 30 0 payloads chunks.
Proof.
  pose proof (maps_payloads_roundtrip sample_maps 30) as H.
  assert (He : exists payloads, encode_maps_payloads sample_maps 30 = Ok payloads /\ len payloads = 3).
  { eexists. split; vm_compute; reflexivity. }
  destruct He as (payloads & He & Hl). rewrite He in H.
  destruct H as (chunks & Hc & Hd); [done|by repeat constructor|]. exists payloads, chunks. auto.
Defined.
