(* ===== verification/Uuid.v ===== *)
(** * UUIDs (src/nvx-rs/src/uuid.rs)

    A UUID is its 16 bytes in the order of its text. Its canonical text, the parser of that text,
    and the byte order of EFI GUIDs. *)

From S2P Require Import Prelude.

Definition HYPHENS : list Z := [8; 13; 18; 23].
Definition TEXT_LEN : Z := 36.

Record Uuid := mkUuid { uuid_bytes : list byte }.

#[export] Instance Uuid_eq_dec : EqDecision Uuid.
Proof. solve_decision. Defined.

(** The array holds 16 bytes. *)
Definition is_uuid (u : Uuid) : Prop := len (uuid_bytes u) = 16.

Definition NIL : Uuid := mkUuid (replicate 16 (byte_of 0)).

Definition is_nil (self : Uuid) : bool := bool_decide (self = NIL).

Definition swap_groups (bytes : list byte) : list byte :=
  match bytes with
  | [a; b; c; d; e; f; g; h; i; j; k; l; m; n; o; p] => [d; c; b; a; f; e; h; g; i; j; k; l; m; n; o; p]
  | _ => bytes
  end.

Definition from_bytes_le (bytes : list byte) : Uuid := mkUuid (swap_groups bytes).
Definition to_bytes_le (self : Uuid) : list byte := swap_groups (uuid_bytes self).

(** ** The text *)

(** The value of a lowercase hexadecimal digit. *)
Definition digit_value (digit : byte) : option Z :=
  let d := byte_val digit in
  if (48 <=? d) && (d <=? 57) then Some (d - 48)
  else if (97 <=? d) && (d <=? 102) then Some (d - 97 + 10)
  else None.

(** [(digits.next()?? << 4) | digits.next()??] for each byte of the array. *)
Fixpoint pair_digits (bytes : nat) (digits : list (option Z)) : option (list byte) :=
  match bytes with
  | O => Some []
  | S bytes =>
      match digits with
      | Some high :: Some low :: digits =>
          rest ← pair_digits bytes digits;
          Some (byte_of (Z.lor (Z.shiftl high 4) low) :: rest)
      | _ => None
      end
  end.

(** [text.iter().enumerate().filter(|(offset, _)| !HYPHENS.contains(offset))]: [offset] is the offset
    of the first byte. *)
Fixpoint without_hyphens (offset : Z) (text : list byte) : list byte :=
  match text with
  | [] => []
  | b :: text =>
      let rest := without_hyphens (offset + 1) text in
      if bool_decide (offset ∈ HYPHENS) then rest else b :: rest
  end.

Definition parse (text : list byte) : option Uuid :=
  if negb (len text =? TEXT_LEN)
     || existsb (fun offset => negb (byte_val (nth (Z.to_nat offset) text (byte_of 0)) =? 45)) HYPHENS
  then None
  else
    bytes ← pair_digits 16 (map digit_value (without_hyphens 0 text));
    Some (mkUuid bytes).

(** [{:02x}] of a digit and of a byte. *)
Definition hex_digit (d : Z) : byte := byte_of (if d <? 10 then 48 + d else 97 + d - 10).
Definition hex_byte (b : byte) : list byte := [hex_digit (byte_val b / 16); hex_digit (byte_val b mod 16)].

(** [impl Display]: the loop over the bytes, from [index]. *)
Fixpoint display_from (index : Z) (bytes : list byte) : list byte :=
  match bytes with
  | [] => []
  | b :: bytes =>
      (if bool_decide (index ∈ [4; 6; 8; 10]) then [byte_of 45] else [])
      ++ hex_byte b ++ display_from (index + 1) bytes
  end.

Definition display (self : Uuid) : list byte := display_from 0 (uuid_bytes self).

Definition sample_uuid : Uuid := mkUuid (map byte_of
  [15; 198; 61; 175; 132; 131; 71; 114; 142; 121; 61; 105; 216; 71; 125; 228]).

Example sample_text : display sample_uuid = bytes_of "0fc63daf-8483-4772-8e79-3d69d8477de4".
Proof. reflexivity. Qed.

(** ** Digits and bytes *)

Lemma digit_value_high b : digit_value (hex_digit (byte_val b / 16)) = Some (byte_val b / 16).
Proof. by destruct b. Qed.

Lemma digit_value_low b : digit_value (hex_digit (byte_val b mod 16)) = Some (byte_val b mod 16).
Proof. by destruct b. Qed.

Lemma join_digits b : byte_of (Z.lor (Z.shiftl (byte_val b / 16) 4) (byte_val b mod 16)) = b.
Proof. by destruct b. Qed.

Lemma digit_value_hex digit d : digit_value digit = Some d -> 0 <= d < 16 /\ hex_digit d = digit.
Proof. by destruct digit; cbn; intros H; simplify_eq. Qed.

Lemma split_digits high low :
  0 <= high < 16 -> 0 <= low < 16 ->
  hex_byte (byte_of (Z.lor (Z.shiftl high 4) low)) = [hex_digit high; hex_digit low].
Proof.
  intros Hh Hl.
  assert (H : Forall (fun h => Forall (fun l =>
      hex_byte (byte_of (Z.lor (Z.shiftl h 4) l)) = [hex_digit h; hex_digit l]) (seqZ 0 16)) (seqZ 0 16))
    by (repeat (constructor; [repeat (constructor; [reflexivity|]); constructor|]); constructor).
  rewrite Forall_forall in H. specialize (H high). rewrite Forall_forall in H.
  apply H; apply elem_of_seqZ; lia.
Qed.

(** The digits of bytes pair to the bytes, and only theirs do. *)
Lemma pair_digits_hex bytes :
  pair_digits (length bytes) (map digit_value (concat (map hex_byte bytes))) = Some bytes.
Proof.
  induction bytes as [|b bytes IH]; [done|].
  cbn [map concat hex_byte app length pair_digits]. rewrite digit_value_high, digit_value_low, IH. cbn.
  by rewrite join_digits.
Qed.

Lemma pair_digits_inv n digits bytes :
  length digits = (2 * n)%nat -> pair_digits n (map digit_value digits) = Some bytes ->
  digits = concat (map hex_byte bytes).
Proof.
  revert digits bytes. induction n as [|n IH]; intros digits bytes Hn H.
  { cbn in H. simplify_eq. by destruct digits. }
  destruct digits as [|x [|y digits]]; [done|cbn in Hn; lia|]. cbn [map pair_digits] in H.
  destruct (digit_value x) as [h|] eqn:Hx; [|done]. destruct (digit_value y) as [l|] eqn:Hy; [|done].
  destruct (pair_digits n _) as [rest|] eqn:Hr; [|done]. cbn [mbind option_bind] in H. injection H as <-.
  apply digit_value_hex in Hx as [? <-], Hy as [? <-]. cbn [map concat]. rewrite split_digits by done.
  cbn [app]. do 2 f_equal. apply IH; [cbn in Hn; lia|done].
Qed.

(** ** Hyphens *)

(** The text of the digits [x] with its hyphens. *)
Definition hyphenated (x : list byte) : list byte :=
  sub 0 8 x ++ [byte_of 45] ++ sub 8 12 x ++ [byte_of 45] ++ sub 12 16 x ++ [byte_of 45]
  ++ sub 16 20 x ++ [byte_of 45] ++ sub 20 32 x.

(** Names the elements of a list of known length. *)
Tactic Notation "explode" ident(l) :=
  repeat (destruct l as [|? l]; [discriminate|]); destruct l; [|discriminate].

Lemma display_hyphenated u : is_uuid u -> display u = hyphenated (concat (map hex_byte (uuid_bytes u))).
Proof.
  destruct u as [bytes]. unfold is_uuid, len. cbn [uuid_bytes]. intros H.
  assert (Hl : length bytes = 16%nat) by lia. clear H. explode bytes.
  vm_compute. reflexivity.
Qed.

Lemma hyphens_removed text :
  len text = 36 ->
  existsb (fun offset => negb (byte_val (nth (Z.to_nat offset) text (byte_of 0)) =? 45)) HYPHENS = false ->
  length (without_hyphens 0 text) = 32%nat /\ text = hyphenated (without_hyphens 0 text).
Proof.
  unfold len. intros H He. assert (Hl : length text = 36%nat) by lia. clear H.
  explode text. lazy [existsb HYPHENS nth Z.to_nat Pos.to_nat Pos.iter_op Nat.add orb] in He.
  repeat match type of He with
  | (if ?b then true else _) = false => destruct b eqn:?; [discriminate|]
  end.
  bool_to_prop.
  repeat match goal with H : byte_val ?b = 45 |- _ => apply (byte_val_inj b (byte_of 45)) in H; subst b end.
  split; vm_compute; reflexivity.
Qed.

Lemma without_hyphens_hyphenated x :
  len x = 32 ->
  without_hyphens 0 (hyphenated x) = x /\ len (hyphenated x) = 36 /\
  existsb (fun offset => negb (byte_val (nth (Z.to_nat offset) (hyphenated x) (byte_of 0)) =? 45)) HYPHENS = false.
Proof.
  unfold len. intros H. assert (Hl : length x = 32%nat) by lia. clear H. explode x.
  split; [vm_compute; reflexivity|]. split; vm_compute; reflexivity.
Qed.

Lemma pair_digits_length n digits bytes : pair_digits n digits = Some bytes -> length bytes = n.
Proof.
  revert digits bytes. induction n as [|n IH]; intros digits bytes H; cbn [pair_digits] in H; [by simplify_eq|].
  destruct digits as [|[h|] [|[l|] digits]]; try done.
  destruct (pair_digits n digits) as [rest|] eqn:Hr; [|done]. cbn [mbind option_bind] in H. simplify_eq.
  cbn. f_equal. by apply (IH digits).
Qed.

Lemma parse_exact text u : parse text = Some u <-> is_uuid u /\ text = display u.
Proof.
  unfold parse. split.
  - destruct (_ || _) eqn:E; [done|]. apply orb_false_iff in E as [E1 E2].
    apply negb_false_iff, Z.eqb_eq in E1. destruct (hyphens_removed text E1 E2) as [Hl Ht].
    destruct (pair_digits 16 _) as [bytes|] eqn:Hp; [|done]. cbn [mbind option_bind]. intros H. simplify_eq.
    assert (Hu : is_uuid (mkUuid bytes)) by (apply pair_digits_length in Hp; unfold is_uuid, len; cbn [uuid_bytes]; lia).
    split; [done|]. rewrite display_hyphenated by done.
    apply pair_digits_inv in Hp; [|done]. cbn [uuid_bytes]. by rewrite <- Hp.
  - intros [Hu ->]. rewrite display_hyphenated by done. set (x := concat (map hex_byte (uuid_bytes u))).
    assert (Hx : len x = 32).
    { unfold is_uuid, len in *. assert (Hl : length (uuid_bytes u) = 16%nat) by lia.
      subst x. destruct u as [bytes]. cbn [uuid_bytes] in *. by explode bytes. }
    destruct (without_hyphens_hyphenated x Hx) as (H1 & H2 & H3). rewrite H1, H2, H3. cbn [negb orb Z.eqb].
    subst x. replace 16%nat with (length (uuid_bytes u)) by (unfold is_uuid, len in Hu; lia).
    rewrite pair_digits_hex. by destruct u.
Qed.

(** A UUID has exactly one text: the parser returns a UUID for its canonical text, and for no
    other text; and the layout of EFI GUIDs converts back to the UUID it came from. *)
Theorem uuid_text_canonical u :
  is_uuid u ->
  (forall text, parse text = Some u <-> text = display u) /\ from_bytes_le (to_bytes_le u) = u.
Proof.
  intros Hu. split.
  - intros text. rewrite parse_exact. tauto.
  - destruct u as [bytes]. unfold is_uuid, len in Hu. cbn [uuid_bytes] in Hu.
    assert (Hl : length bytes = 16%nat) by lia. clear Hu. by explode bytes.
Qed.

Lemma uuid_text_canonical_witness :
  parse (bytes_of "0fc63daf-8483-4772-8e79-3d69d8477de4") = Some sample_uuid
  /\ parse (bytes_of "0FC63DAF-8483-4772-8E79-3D69D8477DE4") <> Some sample_uuid.
Proof.
  destruct (uuid_text_canonical sample_uuid) as [H _]; [done|]. split.
  - by apply H.
  - rewrite H. discriminate.
Defined.
