(* ===== verification/Crc.v ===== *)
(** * The CRC-32 of GPT (src/nvx-rs/src/gpt/crc.rs)

    The table-driven CRC over bytes that arrive in parts. It is proved equal to the shift register
    that IEEE 802.3 describes, one bit at a time, and to detect every change of up to four
    consecutive bytes. *)

From S2P Require Import Prelude.

Definition POLYNOMIAL : Z := 0xEDB88320.

(** The inner loop of [table]: one bit, and the eight of a byte. *)
Definition crc_bit (crc : Z) : Z :=
  if Z.land crc 1 =? 0 then Z.shiftr crc 1 else Z.lxor (Z.shiftr crc 1) POLYNOMIAL.

Definition crc_byte (crc : Z) : Z := Nat.iter 8 crc_bit crc.

Definition table : list Z := map crc_byte (seqZ 0 256).
Definition TABLE : list Z := Eval vm_compute in table.

Record Crc32 := mkCrc32 { state : Z }.

Definition new_crc : Crc32 := mkCrc32 U32_MAX.

(** The loop's body: [state as u8] is the low byte. *)
Definition update_byte (state : Z) (byte : byte) : Z :=
  let index := Z.lxor (state mod 256) (byte_val byte) in
  Z.lxor (Z.shiftr state 8) (nth (Z.to_nat index) TABLE 0).

Definition update (self : Crc32) (bytes : list byte) : Crc32 :=
  mkCrc32 (foldl update_byte (state self) bytes).

(** [!self.state]. *)
Definition finish (self : Crc32) : Z := Z.lxor U32_MAX (state self).

Definition crc32 (bytes : list byte) : Z := finish (update new_crc bytes).

(** The check value of CRC-32. *)
Example crc32_check : crc32 (bytes_of "123456789") = 0xCBF43926.
Proof. vm_compute. reflexivity. Qed.

(** ** The reference: a shift register *)

(** The bits of a byte, lowest first. *)
Definition bits_of (b : byte) : list bool := map (Z.testbit (byte_val b)) (seqZ 0 8).

(** One bit of the message enters the register: the bit that leaves it, plus the message's, feeds
    the polynomial back. *)
Definition register_bit (register : Z) (bit : bool) : Z :=
  Z.lxor (Z.shiftr register 1) (if xorb (Z.odd register) bit then POLYNOMIAL else 0).

Definition register (bytes : list byte) : Z :=
  Z.lxor U32_MAX (foldl register_bit U32_MAX (concat (map bits_of bytes))).

(** ** The register is linear *)

Lemma odd_lxor a b : Z.odd (Z.lxor a b) = xorb (Z.odd a) (Z.odd b).
Proof. by rewrite <- !Z.bit0_odd, Z.lxor_spec. Qed.

Lemma crc_bit_eq a : crc_bit a = Z.lxor (Z.shiftr a 1) (if Z.odd a then POLYNOMIAL else 0).
Proof.
  unfold crc_bit. change 1 with (Z.ones 1) at 1. rewrite Z.land_ones by lia. change (2 ^ 1) with 2.
  rewrite Zmod_odd. destruct (Z.odd a); [done|]. by rewrite Z.lxor_0_r.
Qed.

Lemma crc_bit_lxor a b : crc_bit (Z.lxor a b) = Z.lxor (crc_bit a) (crc_bit b).
Proof.
  rewrite !crc_bit_eq, odd_lxor, Z.shiftr_lxor.
  rewrite !Z.lxor_assoc. f_equal. rewrite <- !Z.lxor_assoc, (Z.lxor_comm _ (Z.shiftr b 1)), !Z.lxor_assoc.
  f_equal. by destruct (Z.odd a), (Z.odd b); rewrite ?Z.lxor_nilpotent, ?Z.lxor_0_r.
Qed.

Lemma crc_byte_lxor a b : crc_byte (Z.lxor a b) = Z.lxor (crc_byte a) (crc_byte b).
Proof. unfold crc_byte. cbn [Nat.iter nat_rect]. by rewrite !crc_bit_lxor. Qed.

Lemma crc_bit_double a : crc_bit (Z.shiftl a 1) = a.
Proof.
  rewrite crc_bit_eq, Z.shiftr_shiftl_l, Z.shiftl_0_r by lia.
  rewrite Z.shiftl_mul_pow2, Z.mul_comm by lia. change (2 ^ 1) with 2.
  rewrite Z.odd_mul. cbn [Z.odd andb]. by rewrite Z.lxor_0_r.
Qed.

Lemma crc_byte_shift a : crc_byte (Z.shiftl a 8) = a.
Proof.
  unfold crc_byte. cbn [Nat.iter nat_rect].
  replace (Z.shiftl a 8) with (Z.shiftl (Z.shiftl (Z.shiftl (Z.shiftl (Z.shiftl (Z.shiftl (Z.shiftl (Z.shiftl a 1) 1) 1) 1) 1) 1) 1) 1)
    by (rewrite !Z.shiftl_shiftl by lia; done).
  by rewrite !crc_bit_double.
Qed.

(** The table's entry is what the register does to the low byte. *)
Lemma table_entry i : 0 <= i < 256 -> nth (Z.to_nat i) TABLE 0 = crc_byte i.
Proof.
  intros Hi. replace TABLE with table by (vm_compute; reflexivity). unfold table.
  change (nth (Z.to_nat i) (map crc_byte (seqZ 0 256)) (crc_byte 0) = crc_byte i). rewrite map_nth. f_equal.
  apply nth_lookup_Some. apply lookup_seqZ. lia.
Qed.

Lemma lxor_bound n a b : 0 <= n -> 0 <= a < 2 ^ n -> 0 <= b < 2 ^ n -> 0 <= Z.lxor a b < 2 ^ n.
Proof.
  intros Hn Ha Hb. assert (H0 : 0 <= Z.lxor a b) by (apply Z.lxor_nonneg; lia). split; [done|].
  destruct (Z.eq_dec (Z.lxor a b) 0) as [->|]; [lia|]. apply Z.log2_lt_pow2; [lia|].
  pose proof (Z.log2_lxor a b ltac:(lia) ltac:(lia)).
  assert (Hlog : forall x, 0 <= x < 2 ^ n -> Z.log2 x < n \/ x = 0).
  { intros x Hx. destruct (Z.eq_dec x 0); [by right|left]. apply Z.log2_lt_pow2; lia. }
  destruct (Z.eq_dec n 0) as [->|]; [change (2 ^ 0) with 1 in *; assert (a = 0) by lia; assert (b = 0) by lia; subst; done|].
  destruct (Hlog a Ha) as [|Ha0], (Hlog b Hb) as [|Hb0]; try subst a; try subst b; cbn [Z.log2] in *; lia.
Qed.

Lemma split_low s : s = Z.lxor (Z.shiftl (Z.shiftr s 8) 8) (s mod 256).
Proof.
  change 256 with (2 ^ 8). rewrite <- Z.land_ones by lia. apply Z.bits_inj'. intros n Hn.
  rewrite Z.lxor_spec, Z.shiftl_spec, Z.land_spec by lia.
  destruct (Z.ltb_spec n 8).
  - rewrite Z.ones_spec_low, andb_true_r by lia. by rewrite (Z.testbit_neg_r _ (n - 8)) by lia.
  - rewrite Z.ones_spec_high, andb_false_r, xorb_false_r, Z.shiftr_spec by lia. f_equal. lia.
Qed.

Lemma update_byte_eq s b : update_byte s b = crc_byte (Z.lxor s (byte_val b)).
Proof.
  unfold update_byte. pose proof (byte_val_range b) as Hb.
  pose proof (Z.mod_pos_bound s 256 ltac:(lia)) as Hm.
  rewrite table_entry by (apply (lxor_bound 8); lia).
  replace (Z.lxor s (byte_val b)) with
    (Z.lxor (Z.shiftl (Z.shiftr s 8) 8) (Z.lxor (s mod 256) (byte_val b)))
    by (by rewrite <- Z.lxor_assoc, <- split_low).
  by rewrite (crc_byte_lxor (Z.shiftl _ _)), crc_byte_shift.
Qed.

(** ** The table computes the register *)

Lemma register_bit_eq s bit : register_bit s bit = crc_bit (Z.lxor s (Z.b2z bit)).
Proof.
  unfold register_bit. rewrite crc_bit_eq, odd_lxor, Z.shiftr_lxor. destruct bit; cbn [Z.b2z].
  - change (Z.odd 1) with true. change (Z.shiftr 1 1) with 0. by rewrite Z.lxor_0_r.
  - change (Z.odd 0) with false. change (Z.shiftr 0 1) with 0. by rewrite Z.lxor_0_r.
Qed.

(** Feeding the bits one by one, or all of them into the register first, is the same. *)
Lemma register_bits_eq k s v :
  0 <= v < 2 ^ Z.of_nat k ->
  foldl register_bit s (map (Z.testbit v) (seqZ 0 (Z.of_nat k))) = Nat.iter k crc_bit (Z.lxor s v).
Proof.
  revert s v. induction k as [|k IH]; intros s v Hv.
  { cbn in Hv |- *. assert (v = 0) as -> by lia. by rewrite Z.lxor_0_r. }
  assert (Hseq : seqZ 0 (Z.of_nat (S k)) = 0 :: (Z.add 1 <$> seqZ 0 (Z.of_nat k))).
  { rewrite seqZ_cons by lia. rewrite fmap_add_seqZ. f_equal. f_equal; lia. }
  rewrite Hseq. change (@fmap list list_fmap) with @map. cbn [map foldl]. rewrite map_map.
  rewrite (map_ext_in _ (Z.testbit (Z.shiftr v 1))) by
    (intros x Hx%list_elem_of_In%elem_of_seqZ; rewrite Z.shiftr_spec by lia; f_equal; lia).
  rewrite IH by (rewrite Z.shiftr_div_pow2 by lia; change (2 ^ 1) with 2; rewrite Nat2Z.inj_succ, Z.pow_succ_r in Hv by lia;
    split; [apply Z.div_pos; lia|apply Z.div_lt_upper_bound; lia]).
  rewrite Nat.iter_succ_r. f_equal. rewrite register_bit_eq.
  rewrite <- (crc_bit_double (Z.shiftr v 1)), <- crc_bit_lxor, Z.lxor_assoc. do 2 f_equal.
  apply Z.bits_inj'. intros n Hn. rewrite Z.lxor_spec. destruct (Z.eq_dec n 0) as [->|].
  - rewrite Z.shiftl_spec_low by lia. rewrite !Z.bit0_odd. by destruct (Z.odd v).
  - rewrite Z.shiftl_spec, Z.shiftr_spec by lia. replace (n - 1 + 1) with n by lia.
    replace (Z.testbit (Z.b2z (Z.testbit v 0)) n) with false; [done|]. symmetry.
    destruct (Z.testbit v 0); cbn; [|apply Z.bits_0]. apply (Z.bits_above_log2 1); cbn; lia.
Qed.

Lemma register_byte_eq s b : foldl register_bit s (bits_of b) = update_byte s b.
Proof.
  rewrite update_byte_eq. unfold bits_of, crc_byte. change 8 with (Z.of_nat 8).
  apply register_bits_eq. pose proof (byte_val_range b). by change (2 ^ Z.of_nat 8) with 256.
Qed.

Lemma register_eq s bytes : foldl register_bit s (concat (map bits_of bytes)) = foldl update_byte s bytes.
Proof.
  revert s. induction bytes as [|b bytes IH]; intros s; [done|].
  cbn [map concat foldl]. by rewrite foldl_app, register_byte_eq, IH.
Qed.

(** ** What the CRC detects *)

(** Four bytes that differ at the register, as one word. *)
Fixpoint word (bytes : list byte) : Z :=
  match bytes with
  | [] => 0
  | b :: bytes => Z.lxor (byte_val b) (Z.shiftl (word bytes) 8)
  end.

Lemma word_bound bytes : 0 <= word bytes < 2 ^ (8 * len bytes).
Proof.
  induction bytes as [|b bytes IH]; [done|]. cbn [word]. rewrite len_cons. len_facts.
  pose proof (byte_val_range b). apply lxor_bound; [lia| |].
  - split; [lia|]. apply Z.lt_le_trans with (2 ^ 8); [lia|]. apply Z.pow_le_mono_r; lia.
  - rewrite Z.shiftl_mul_pow2 by lia. rewrite Z.mul_add_distr_l, Z.pow_add_r by lia.
    change (8 * 1) with 8. nia.
Qed.

Lemma word_inj x y : len x = len y -> word x = word y -> x = y.
Proof.
  revert y. induction x as [|a x IH]; intros [|b y] Hl Hw;
    rewrite ?len_cons in Hl; [done|len_facts; unfold len in Hl; cbn in Hl; lia..|].
  cbn [word] in Hw.
  assert (Hmod : forall c v, Z.lxor (byte_val c) (Z.shiftl v 8) = byte_val c + 256 * v).
  { intros c v. pose proof (byte_val_range c). rewrite <- Z.add_nocarry_lxor.
    - rewrite Z.shiftl_mul_pow2 by lia. lia.
    - apply Z.bits_inj'. intros n Hn. rewrite Z.land_spec, Z.bits_0. destruct (Z.ltb_spec n 8).
      + by rewrite Z.shiftl_spec_low, andb_false_r by lia.
      + destruct (Z.eq_dec (byte_val c) 0) as [->|]; [by rewrite Z.bits_0|].
        rewrite Z.bits_above_log2; [done|lia|]. apply Z.lt_le_trans with 8; [|done].
        apply Z.log2_lt_pow2; lia. }
  rewrite !Hmod in Hw. pose proof (byte_val_range a). pose proof (byte_val_range b).
  f_equal; [apply byte_val_inj; lia|]. apply IH; [lia|lia].
Qed.

(** Bytes enter the register as their word does. *)
Lemma update_bytes_word s bytes :
  foldl update_byte s bytes = Nat.iter (length bytes) crc_byte (Z.lxor s (word bytes)).
Proof.
  revert s. induction bytes as [|b bytes IH]; intros s; cbn [word foldl length].
  { by rewrite Z.lxor_0_r. }
  rewrite IH, update_byte_eq, Nat.iter_succ_r. f_equal.
  rewrite <- (crc_byte_shift (word bytes)) at 1. by rewrite <- crc_byte_lxor, Z.lxor_assoc.
Qed.

(** The register loses nothing: from a word of 32 bits, only zero leads to zero. *)
Lemma crc_bit_bound a : 0 <= a < 2 ^ 32 -> 0 <= crc_bit a < 2 ^ 32.
Proof.
  intros Ha. rewrite crc_bit_eq. apply lxor_bound; [lia| |by destruct (Z.odd a)].
  rewrite Z.shiftr_div_pow2 by lia. change (2 ^ 1) with 2. split; [apply Z.div_pos; lia|].
  apply Z.div_lt_upper_bound; lia.
Qed.

Lemma crc_bit_zero a : 0 <= a < 2 ^ 32 -> crc_bit a = 0 -> a = 0.
Proof.
  intros Ha. rewrite crc_bit_eq. intros H%Z.lxor_eq. rewrite Z.shiftr_div_pow2 in H by lia.
  change (2 ^ 1) with 2 in H. pose proof (Z.div_mod a 2 ltac:(lia)) as Hd. rewrite Zmod_odd in Hd.
  destruct (Z.odd a); unfold POLYNOMIAL in H; lia.
Qed.

Lemma crc_bits_zero n a : 0 <= a < 2 ^ 32 -> Nat.iter n crc_bit a = 0 -> a = 0.
Proof.
  revert a. induction n as [|n IH]; intros a Ha H; [done|]. rewrite Nat.iter_succ_r in H.
  apply crc_bit_zero; [done|]. apply IH; [by apply crc_bit_bound|done].
Qed.

Lemma crc_bytes_bound n a : 0 <= a < 2 ^ 32 -> 0 <= Nat.iter n crc_byte a < 2 ^ 32.
Proof.
  intros Ha. induction n as [|n IH]; [done|]. rewrite Nat.iter_succ.
  generalize dependent (Nat.iter n crc_byte a). intros s Hs. unfold crc_byte. cbn [Nat.iter nat_rect].
  by do 8 apply crc_bit_bound.
Qed.

Lemma crc_bytes_zero n a : 0 <= a < 2 ^ 32 -> Nat.iter n crc_byte a = 0 -> a = 0.
Proof.
  intros Ha. induction n as [|n IH]; [done|]. rewrite Nat.iter_succ. intros H. apply IH.
  apply (crc_bits_zero 8); [by apply crc_bytes_bound|done].
Qed.

Lemma crc_bytes_lxor n a b : Nat.iter n crc_byte (Z.lxor a b) = Z.lxor (Nat.iter n crc_byte a) (Nat.iter n crc_byte b).
Proof. induction n as [|n IH]; [done|]. by rewrite !Nat.iter_succ, IH, crc_byte_lxor. Qed.

Lemma crc_bytes_inj n a b :
  0 <= a < 2 ^ 32 -> 0 <= b < 2 ^ 32 -> Nat.iter n crc_byte a = Nat.iter n crc_byte b -> a = b.
Proof.
  intros Ha Hb H. apply Z.lxor_eq, (crc_bytes_zero n); [by apply lxor_bound|].
  by rewrite crc_bytes_lxor, H, Z.lxor_nilpotent.
Qed.

Lemma lxor_cancel_r a b c : Z.lxor a c = Z.lxor b c -> a = b.
Proof.
  intros H. apply (f_equal (fun x => Z.lxor x c)) in H.
  by rewrite !Z.lxor_assoc, Z.lxor_nilpotent, !Z.lxor_0_r in H.
Qed.

Lemma lxor_cancel_l a b c : Z.lxor c a = Z.lxor c b -> a = b.
Proof. rewrite !(Z.lxor_comm c). apply lxor_cancel_r. Qed.

Lemma update_byte_bound s b : 0 <= s < 2 ^ 32 -> 0 <= update_byte s b < 2 ^ 32.
Proof.
  intros Hs. rewrite update_byte_eq. apply (crc_bytes_bound 1).
  pose proof (byte_val_range b). apply lxor_bound; lia.
Qed.

Lemma update_bytes_bound s bytes : 0 <= s < 2 ^ 32 -> 0 <= foldl update_byte s bytes < 2 ^ 32.
Proof. revert s. induction bytes as [|b bytes IH]; intros s Hs; [done|]. by apply IH, update_byte_bound. Qed.

(** After the same bytes, registers that differ still differ. *)
Lemma update_bytes_inj s t bytes :
  0 <= s < 2 ^ 32 -> 0 <= t < 2 ^ 32 -> foldl update_byte s bytes = foldl update_byte t bytes -> s = t.
Proof.
  revert s t. induction bytes as [|b bytes IH]; intros s t Hs Ht H; [done|].
  apply IH in H; [|by apply update_byte_bound..]. rewrite !update_byte_eq in H.
  pose proof (byte_val_range b).
  apply (crc_bytes_inj 1) in H; [|by apply lxor_bound; lia..]. by apply lxor_cancel_r in H.
Qed.

(** The table-driven CRC, over a message that arrives in any parts, is the shift register of
    IEEE 802.3, which takes the message bit by bit, fits 32 bits, and depends only on the bytes. *)
Theorem crc32_is_register parts :
  finish (foldl update new_crc parts) = register (concat parts)
  /\ crc32 (concat parts) = register (concat parts) /\ is_u32 (register (concat parts)).
Proof.
  assert (Hf : forall c, state (foldl update c parts) = foldl update_byte (state c) (concat parts)).
  { induction parts as [|p parts IH]; intros c; [done|]. cbn [foldl concat]. rewrite IH, foldl_app. done. }
  unfold crc32, finish, register. rewrite Hf, register_eq. split; [done|]. split; [done|].
  pose proof (update_bytes_bound U32_MAX (concat parts) ltac:(done)).
  unfold is_u32. pose proof (lxor_bound 32 U32_MAX (foldl update_byte U32_MAX (concat parts))) as Hb.
  unfold U32_MAX in *. lia.
Qed.

(** The CRC detects every corruption that is confined to four consecutive bytes: messages of the
    same length that differ only there have different CRCs. *)
Theorem crc32_detects_bursts before x y after :
  len x = len y -> len x <= 4 -> x <> y ->
  crc32 (before ++ x ++ after) <> crc32 (before ++ y ++ after).
Proof.
  intros Hl H4 Hne H. apply Hne, word_inj; [done|]. unfold crc32, finish, update in H. cbn [state] in H.
  rewrite !foldl_app in H. apply lxor_cancel_l in H.
  set (s := foldl update_byte (state new_crc) before) in *.
  assert (Hs : 0 <= s < 2 ^ 32) by (by apply update_bytes_bound).
  apply update_bytes_inj in H; [|by apply update_bytes_bound..]. rewrite !update_bytes_word in H.
  assert (Hn : length x = length y) by (unfold len in Hl; lia). rewrite Hn in H.
  assert (Hw : forall z, len z <= 4 -> 0 <= word z < 2 ^ 32).
  { intros z Hz. pose proof (word_bound z). split; [lia|]. apply Z.lt_le_trans with (2 ^ (8 * len z)); [lia|].
    apply Z.pow_le_mono_r; lia. }
  apply crc_bytes_inj in H; [|apply lxor_bound; [lia|done|apply Hw; lia]..]. by apply lxor_cancel_l in H.
Qed.

Lemma crc32_detects_bursts_witness :
  crc32 (bytes_of "abc" ++ bytes_of "1234" ++ bytes_of "def")
  <> crc32 (bytes_of "abc" ++ bytes_of "4321" ++ bytes_of "def").
Proof. apply crc32_detects_bursts; vm_compute; discriminate || reflexivity. Defined.
