(* ===== verification/Gpt.v ===== *)
(** * The GPT reader (src/nvx-rs/src/gpt/mod.rs, error.rs and source.rs)

    [Disk::read] checks a disk's protective MBR, primary header and partition entry array, read
    through the [ReadAt] interface, and [Disk::read_first_partition] reads the configuration. The
    theorems: what an accepted disk promises, that no read leaves the disk, and what the first
    partition's bytes are. *)

From stdpp Require Import sorting.
From S2P Require Import Prelude Uuid Crc.
#[local] Open Scope Z_scope.

Definition MIN_LOGICAL_BLOCK_SIZE : Z := 512.
Definition MAX_LOGICAL_BLOCK_SIZE : Z := 64 * 1024.
Definition ENTRY_SIZE : Z := 128.
Definition MAX_ENTRY_ARRAY_BYTES : Z := 1024 * 1024.
Definition MIN_PARTITIONS : Z := 2.
Definition MAX_PARTITIONS : Z := 255.
Definition MBR_SIZE : Z := 512.
Definition MBR_RECORDS_OFFSET : Z := 446.
Definition MBR_RECORD_SIZE : Z := 16.
Definition MBR_SIGNATURE_OFFSET : Z := 510.
Definition MBR_SIGNATURE : list byte := [byte_of 0x55; byte_of 0xAA].
Definition MBR_RECORD_TYPE_OFFSET : Z := 4.
Definition MBR_RECORD_START_OFFSET : Z := 8.
Definition PROTECTIVE_TYPE : Z := 0xEE.
Definition PRIMARY_HEADER_LBA : Z := 1.
Definition SIGNATURE : list byte := bytes_of "EFI PART".
Definition REVISION : Z := 0x00010000.
Definition HEADER_FIELDS_SIZE : Z := 92.

(** The offsets of a header's fields. *)
Definition header_SIGNATURE : Z := 0.
Definition header_REVISION : Z := 8.
Definition header_SIZE : Z := 12.
Definition header_CRC : Z := 16.
Definition header_RESERVED : Z := 20.
Definition header_MY_LBA : Z := 24.
Definition header_ALTERNATE_LBA : Z := 32.
Definition header_FIRST_USABLE_LBA : Z := 40.
Definition header_LAST_USABLE_LBA : Z := 48.
Definition header_DISK_GUID : Z := 56.
Definition header_ENTRY_LBA : Z := 72.
Definition header_ENTRY_COUNT : Z := 80.
Definition header_ENTRY_SIZE : Z := 84.
Definition header_ENTRY_ARRAY_CRC : Z := 88.

(** The offsets of a partition entry's fields. *)
Definition entry_TYPE_GUID : Z := 0.
Definition entry_UNIQUE_GUID : Z := 16.
Definition entry_FIRST_LBA : Z := 32.
Definition entry_LAST_LBA : Z := 40.
Definition entry_ATTRIBUTES : Z := 48.

(** ** Errors and sources *)

(** [io::Error]: the end of the source, or another failure of the system. *)
Inductive IoError : Type := UnexpectedEof | OtherIo (code : Z).

Inductive GptError : Type :=
| Io (e : IoError)
| LogicalBlockSize (size : Z)
| DiskSize (size logical_block_size : Z)
| MbrSignature
| NoProtectiveRecord
| ProtectiveRecordStart (start : Z)
| MbrRecords
| Signature
| Revision (revision : Z)
| HeaderSize (size : Z)
| HeaderCrc (stored computed : Z)
| HeaderReserved (reserved : Z)
| MyLba (lba : Z)
| EntrySize (size : Z)
| EntryCount (count : Z)
| EntryArrayLba (lba : Z)
| FirstUsableLba (lba : Z)
| LastUsableLba (lba : Z)
| AlternateLba (lba : Z)
| NilDiskGuid
| EntryArrayCrc (stored computed : Z)
| Hole (unused used : Z)
| PartitionCount (count : Z)
| Extent (number first_lba last_lba : Z)
| NilPartitionGuid (number : Z)
| DuplicateGuid (number : Z)
| Overlap (first second : Z)
| DiskGuidMismatch (expected found : Uuid)
| PartitionCountMismatch (expected found : Z)
| PartitionGuidMismatch (number : Z) (expected found : Uuid)
| PartitionSizeMismatch (number expected found : Z)
| FirstPartitionTooLarge (size bound : Z).

(** [trait ReadAt]: fills a buffer of a length with the bytes at an offset, or fails. The law is what
    the type of the buffer gives: what fills it has its length. *)
Class ReadAt (T : Type) := read_exact_at : T -> Z -> Z -> result IoError (list byte).

Class ReadAtLaw (T : Type) `{ReadAt T} :=
  read_exact_length : forall (source : T) offset n bytes,
    0 <= offset -> 0 <= n -> read_exact_at source offset n = Ok bytes -> len bytes = n.

(** [impl ReadAt for [u8]]. *)
#[export] Instance slice_read_at : ReadAt (list byte) := fun source offset n =>
  if USIZE_MAX <? offset then Err UnexpectedEof
  else ok_or (last ← checked_add USIZE_MAX offset n; get_range offset last source) UnexpectedEof.

(** ** Disks *)

Record ExpectedPartition := mkExpectedPartition {
  e_unique_guid : option Uuid;
  e_size : option Z;
}.

Record Expected := mkExpected {
  e_disk_guid : option Uuid;
  e_partitions : option (list ExpectedPartition);
}.

Definition expect_nothing : Expected := mkExpected None None.

Record Partition := mkPartition {
  number : Z;
  type_guid : Uuid;
  unique_guid : Uuid;
  attributes : Z;
  first_lba : Z;
  last_lba : Z;
  offset : Z;
  size : Z;
}.

Record Disk := mkDisk {
  logical_block_size : Z;
  disk_size : Z;
  guid : Uuid;
  partitions : list Partition;
}.

Record Geometry := mkGeometry {
  block_size : Z;
  blocks : Z;
}.

Record Header := mkHeader {
  first_usable_lba : Z;
  last_usable_lba : Z;
  disk_guid : Uuid;
  entry_array_offset : Z;
  entry_array_size : Z;
  entry_array_crc : Z;
}.

(** ** Fields of bytes that hold them *)

Definition u32_at (bytes : list byte) (offset : Z) : Z := from_le_bytes (sub offset (offset + 4) bytes).
Definition u64_at (bytes : list byte) (offset : Z) : Z := from_le_bytes (sub offset (offset + 8) bytes).
Definition guid_at (bytes : list byte) (offset : Z) : Uuid := from_bytes_le (sub offset (offset + 16) bytes).

(** [chunks_exact]: the whole chunks of [n] elements, at most [rounds] of them. *)
Fixpoint chunks_exact_from (rounds : nat) (n : Z) (l : list byte) : list (list byte) :=
  match rounds with
  | O => []
  | S rounds => if len l <? n then [] else ztake n l :: chunks_exact_from rounds n (zdrop n l)
  end.

Definition chunks_exact (n : Z) (l : list byte) : list (list byte) := chunks_exact_from (length l) n l.

(** [u32::is_power_of_two]. *)
Definition is_power_of_two (n : Z) : bool := (0 <? n) && (Z.land n (n - 1) =? 0).

(** [u64::checked_mul], and [u64::div_ceil] by a divisor that is not zero. *)
Definition checked_mul (max a b : Z) : option Z := if a * b <=? max then Some (a * b) else None.
Definition div_ceil (a b : Z) : Z := a / b + (if a mod b =? 0 then 0 else 1).

(** ** Geometry *)

Definition new_geometry (logical_block_size size : Z) : result GptError Geometry :=
  if negb (is_power_of_two logical_block_size)
     || negb ((MIN_LOGICAL_BLOCK_SIZE <=? logical_block_size) && (logical_block_size <=? MAX_LOGICAL_BLOCK_SIZE))
  then Err (LogicalBlockSize logical_block_size)
  else
    let blocks := size / logical_block_size in
    if negb (size mod logical_block_size =? 0) || (blocks <=? PRIMARY_HEADER_LBA)
    then Err (DiskSize size logical_block_size)
    else Ok (mkGeometry logical_block_size blocks).

Definition geometry_last_lba (self : Geometry) : Z := blocks self - 1.
Definition geometry_bytes (self : Geometry) (blocks : Z) : option Z := checked_mul U64_MAX blocks (block_size self).

(** ** The checks, in order *)

Section Reading.
Context {T : Type} `{ReadAt T}.

(** [sort_unstable_by_key] by the first block: it may order equal keys as it likes. *)
Context (sort_by_first : list Partition -> list Partition).

Definition read_at (source : T) (offset n : Z) : result GptError (list byte) :=
  map_err Io (read_exact_at source offset n).

(** Whether a record other than the one at [skip] has a byte that is not zero; [index] is the first
    record's. *)
Fixpoint others_nonzero (index skip : Z) (records : list (list byte)) : bool :=
  match records with
  | [] => false
  | record :: records =>
      (negb (index =? skip) && existsb (fun byte => negb (byte_val byte =? 0)) record)
      || others_nonzero (index + 1) skip records
  end.

Definition check_protective_mbr (source : T) : result GptError () :=
  mbr ← read_at source 0 MBR_SIZE;
  if negb (bool_decide (sub MBR_SIGNATURE_OFFSET MBR_SIZE mbr = MBR_SIGNATURE)) then Err MbrSignature
  else
    let records := chunks_exact MBR_RECORD_SIZE (sub MBR_RECORDS_OFFSET MBR_SIGNATURE_OFFSET mbr) in
    protective ← ok_or (position (fun record =>
      byte_val (nth (Z.to_nat MBR_RECORD_TYPE_OFFSET) record (byte_of 0)) =? PROTECTIVE_TYPE) records)
      NoProtectiveRecord;
    let start := u32_at (nth (Z.to_nat protective) records []) MBR_RECORD_START_OFFSET in
    if negb (start =? PRIMARY_HEADER_LBA) then Err (ProtectiveRecordStart start)
    else if others_nonzero 0 protective records then Err MbrRecords
    else Ok ().

Definition read_header (source : T) (geometry : Geometry) : result GptError Header :=
  block ← read_at source (block_size geometry) (block_size geometry);
  if negb (bool_decide (sub header_SIGNATURE header_REVISION block = SIGNATURE)) then Err Signature
  else
  let revision := u32_at block header_REVISION in
  if negb (revision =? REVISION) then Err (Revision revision)
  else
  let header_size := u32_at block header_SIZE in
  if negb ((HEADER_FIELDS_SIZE <=? header_size) && (header_size <=? block_size geometry))
  then Err (HeaderSize header_size)
  else
  let stored := u32_at block header_CRC in
  let computed := finish (update (update (update new_crc (sub 0 header_CRC block)) (replicate 4 (byte_of 0)))
                                 (sub header_RESERVED header_size block)) in
  if negb (stored =? computed) then Err (HeaderCrc stored computed)
  else
  let reserved := u32_at block header_RESERVED in
  if negb (reserved =? 0) then Err (HeaderReserved reserved)
  else
  let my_lba := u64_at block header_MY_LBA in
  if negb (my_lba =? PRIMARY_HEADER_LBA) then Err (MyLba my_lba)
  else
  let entry_size := u32_at block header_ENTRY_SIZE in
  if negb (entry_size =? ENTRY_SIZE) then Err (EntrySize entry_size)
  else
  let entry_count := u32_at block header_ENTRY_COUNT in
  let entry_array_size := entry_count * ENTRY_SIZE in
  if (entry_count =? 0) || (MAX_ENTRY_ARRAY_BYTES <? entry_array_size) then Err (EntryCount entry_count)
  else
  let entry_lba := u64_at block header_ENTRY_LBA in
  entry_end ← ok_or (last ← checked_add U64_MAX entry_lba (div_ceil entry_array_size (block_size geometry));
                     if (PRIMARY_HEADER_LBA <? entry_lba) && (last <=? geometry_last_lba geometry)
                     then Some last else None)
                    (EntryArrayLba entry_lba);
  let first_usable_lba := u64_at block header_FIRST_USABLE_LBA in
  if first_usable_lba <? entry_end then Err (FirstUsableLba first_usable_lba)
  else
  let last_usable_lba := u64_at block header_LAST_USABLE_LBA in
  if (last_usable_lba <? first_usable_lba) || (geometry_last_lba geometry <=? last_usable_lba)
  then Err (LastUsableLba last_usable_lba)
  else
  let alternate_lba := u64_at block header_ALTERNATE_LBA in
  if (alternate_lba <=? last_usable_lba) || (geometry_last_lba geometry <? alternate_lba)
  then Err (AlternateLba alternate_lba)
  else
  let disk_guid := guid_at block header_DISK_GUID in
  if is_nil disk_guid then Err NilDiskGuid
  else
    entry_array_offset ← ok_or (geometry_bytes geometry entry_lba) (EntryArrayLba entry_lba);
    Ok {| first_usable_lba := first_usable_lba; last_usable_lba := last_usable_lba;
          disk_guid := disk_guid; entry_array_offset := entry_array_offset;
          entry_array_size := entry_array_size; entry_array_crc := u32_at block header_ENTRY_ARRAY_CRC |}.

(** The loop that counts the used entries, from entry [number], after [used] used ones. *)
Fixpoint count_used (number : Z) (unused : option Z) (used : Z) (entries : list (list byte))
    : result GptError Z :=
  match entries with
  | [] => Ok used
  | raw :: entries =>
      if is_nil (guid_at raw entry_TYPE_GUID) then
        count_used (number + 1) (Some (match unused with Some u => u | None => number end)) used entries
      else match unused with
           | Some unused => Err (Hole unused number)
           | None => count_used (number + 1) None (used + 1) entries
           end
  end.

(** The loop over the used entries, from partition [number], with the GUIDs so far. *)
Fixpoint partitions_of (geometry : Geometry) (header : Header) (number : Z) (guids : list Uuid)
    (entries : list (list byte)) : result GptError (list Partition) :=
  match entries with
  | [] => Ok []
  | raw :: entries =>
      let first_lba := u64_at raw entry_FIRST_LBA in
      let last_lba := u64_at raw entry_LAST_LBA in
      let extent := Extent number first_lba last_lba in
      if (first_lba <? first_usable_lba header) || (last_usable_lba header <? last_lba) || (last_lba <? first_lba)
      then Err extent
      else
        let unique_guid := guid_at raw entry_UNIQUE_GUID in
        if is_nil unique_guid then Err (NilPartitionGuid number)
        else if bool_decide (unique_guid ∈ guids) then Err (DuplicateGuid number)
        else match geometry_bytes geometry first_lba, geometry_bytes geometry (last_lba - first_lba + 1) with
             | Some offset, Some size =>
                 rest ← partitions_of geometry header (number + 1) (guids ++ [unique_guid]) entries;
                 Ok ({| number := number; type_guid := guid_at raw entry_TYPE_GUID;
                        unique_guid := unique_guid; attributes := u64_at raw entry_ATTRIBUTES;
                        first_lba := first_lba; last_lba := last_lba; offset := offset; size := size |} :: rest)
             | _, _ => Err extent
             end
  end.

(** The loop over neighbours in the order of their first blocks. *)
Fixpoint check_overlaps (ordered : list Partition) : result GptError () :=
  match ordered with
  | a :: (b :: _) as rest =>
      if first_lba b <=? last_lba a
      then Err (Overlap (Z.min (number a) (number b)) (Z.max (number a) (number b)))
      else check_overlaps rest
  | _ => Ok ()
  end.

Definition read_partitions (source : T) (geometry : Geometry) (header : Header)
    : result GptError (list Partition) :=
  array ← read_at source (entry_array_offset header) (entry_array_size header);
  let computed := crc32 array in
  if negb (computed =? entry_array_crc header) then Err (EntryArrayCrc (entry_array_crc header) computed)
  else
    let entries := chunks_exact ENTRY_SIZE array in
    used ← count_used 1 None 0 entries;
    if negb ((MIN_PARTITIONS <=? used) && (used <=? MAX_PARTITIONS)) then Err (PartitionCount used)
    else
      partitions ← partitions_of geometry header 1 [disk_guid header] (ztake used entries);
      _ ← check_overlaps (sort_by_first partitions);
      Ok partitions.

(** ** Expectations *)

(** The loop over the expected partitions and the disk's. *)
Fixpoint check_partitions (expected : list ExpectedPartition) (found : list Partition) : result GptError () :=
  match expected, found with
  | e :: expected, p :: found =>
      match e_unique_guid e with
      | Some g => if bool_decide (g = unique_guid p) then Ok () else Err (PartitionGuidMismatch (number p) g (unique_guid p))
      | None => Ok ()
      end ≫= fun _ =>
      match e_size e with
      | Some s => if s =? size p then Ok () else Err (PartitionSizeMismatch (number p) s (size p))
      | None => Ok ()
      end ≫= fun _ => check_partitions expected found
  | _, _ => Ok ()
  end.

Definition check_expected (self : Expected) (disk : Disk) : result GptError () :=
  match e_disk_guid self with
  | Some expected =>
      if bool_decide (expected = guid disk) then Ok () else Err (DiskGuidMismatch expected (guid disk))
  | None => Ok ()
  end ≫= fun _ =>
  match e_partitions self with
  | None => Ok ()
  | Some expected =>
      if negb (len expected =? len (partitions disk))
      then Err (PartitionCountMismatch (len expected) (len (partitions disk)))
      else check_partitions expected (partitions disk)
  end.

(** ** [Disk::read] and [Disk::read_first_partition] *)

Definition read_disk (source : T) (logical_block_size size : Z) (expected : Expected) : result GptError Disk :=
  geometry ← new_geometry logical_block_size size;
  _ ← check_protective_mbr source;
  header ← read_header source geometry;
  partitions ← read_partitions source geometry header;
  let disk := {| logical_block_size := logical_block_size; disk_size := size;
                 guid := disk_guid header; partitions := partitions |} in
  _ ← check_expected expected disk;
  Ok disk.

(** A NUL byte or ASCII whitespace. *)
Definition is_blank (b : byte) : bool :=
  bool_decide (byte_val b ∈ [0; 9; 10; 12; 13; 32]).

(** [Iterator::rposition]: the last index that [p] accepts. *)
Definition rposition (p : byte -> bool) (l : list byte) : option Z :=
  i ← position p (reverse l); Some (len l - 1 - i).

(** [bytes.truncate(end)], after the last byte that is not blank. *)
Definition trim_end (bytes : list byte) : list byte :=
  ztake (match rposition (fun b => negb (is_blank b)) bytes with Some last => last + 1 | None => 0 end) bytes.

(** The first partition, which [Disk::read] guarantees; an index out of range panics. *)
Definition read_first_partition (self : Disk) (source : T) (bound : Z) : option (result GptError (list byte)) :=
  match partitions self with
  | [] => None
  | partition :: _ => Some (
      if (size partition <=? USIZE_MAX) && (size partition <=? bound) then
        bytes ← read_at source (offset partition) (size partition);
        Ok (trim_end bytes)
      else Err (FirstPartitionTooLarge (size partition) bound))
  end.
End Reading.

(** ** What the header promises *)

(** The laws of [sort_unstable_by_key]. *)
Class SortsByFirst (sort : list Partition -> list Partition) := {
  sort_permutes : forall l, sort l ≡ₚ l;
  sort_ascends : forall l, StronglySorted (fun a b => first_lba a <= first_lba b) (sort l);
}.

Record geometry_ok (g : Geometry) (size : Z) : Prop := {
  go_power : exists k, 9 <= k <= 16 /\ block_size g = 2 ^ k;
  go_size : size = blocks g * block_size g;
  go_blocks : 2 <= blocks g;
}.

Lemma power_of_two_bounded n :
  is_power_of_two n = true -> 512 <= n <= 65536 -> exists k, 9 <= k <= 16 /\ n = 2 ^ k.
Proof.
  unfold is_power_of_two. intros H Hn. bool_to_prop.
  assert (Hl : 9 <= Z.log2 n <= 16).
  { split; [apply (Z.log2_le_mono 512)|apply (Z.log2_le_mono n 65536)]; lia. }
  exists (Z.log2 n). split; [done|]. destruct (Z.log2_spec n ltac:(lia)) as [H1 H2].
  destruct (Z.eq_dec n (2 ^ Z.log2 n)) as [|Hne]; [done|]. exfalso.
  assert (Hb : Z.testbit (Z.land n (n - 1)) (Z.log2 n) = true); [|by rewrite H0, Z.bits_0 in Hb].
  rewrite Z.land_spec, Z.bit_log2 by lia. cbn [andb].
  replace (Z.log2 n) with (Z.log2 (n - 1)); [apply Z.bit_log2; lia|].
  apply Z.log2_unique; lia.
Qed.

Lemma new_geometry_ok bs size g : 0 <= size -> new_geometry bs size = Ok g -> geometry_ok g size /\ block_size g = bs.
Proof.
  unfold new_geometry. intros Hs H. inv_ok. bool_to_prop.
  unfold MIN_LOGICAL_BLOCK_SIZE, MAX_LOGICAL_BLOCK_SIZE, PRIMARY_HEADER_LBA in *.
  split; [|done]. split; cbn [block_size blocks]; [apply power_of_two_bounded; [done|lia]| |lia].
  pose proof (Z.div_mod size bs). lia.
Qed.

Lemma u64_at_nonneg bytes at_ : 0 <= u64_at bytes at_.
Proof. apply from_le_bytes_range. Qed.
Lemma u32_at_nonneg bytes at_ : 0 <= u32_at bytes at_.
Proof. apply from_le_bytes_range. Qed.

Record header_ok (g : Geometry) (h : Header) : Prop := {
  ho_usable : 3 <= first_usable_lba h <= last_usable_lba h;
  ho_last : last_usable_lba h < blocks g - 1;
  ho_guid : is_nil (disk_guid h) = false;
  ho_array : 2 * block_size g <= entry_array_offset h;
  ho_array_end : entry_array_offset h + entry_array_size h <= first_usable_lba h * block_size g;
  ho_array_size : 0 < entry_array_size h <= MAX_ENTRY_ARRAY_BYTES;
}.

Lemma div_ceil_covers a b : 0 < b -> a <= div_ceil a b * b.
Proof.
  intros Hb. unfold div_ceil. pose proof (Z.div_mod a b ltac:(lia)). pose proof (Z.mod_pos_bound a b Hb).
  destruct (Z.eqb_spec (a mod b) 0); nia.
Qed.

Lemma geometry_block_pos g size : geometry_ok g size -> 512 <= block_size g.
Proof. intros [(k & Hk & ->) _ _]. apply (Z.pow_le_mono_r 2 9 k); lia. Qed.

Lemma checked_add_some max a b c : checked_add max a b = Some c -> c = a + b /\ a + b <= max.
Proof. unfold checked_add. destruct (Z.leb_spec (a + b) max); [|done]. intros. by simplify_eq. Qed.

Lemma checked_mul_some max a b c : checked_mul max a b = Some c -> c = a * b /\ a * b <= max.
Proof. unfold checked_mul. destruct (Z.leb_spec (a * b) max); [|done]. intros. by simplify_eq. Qed.

Section Facts.
Context {T : Type} `{ReadAt T}.

Lemma read_header_ok (source : T) g size h :
  geometry_ok g size -> read_header source g = Ok h -> header_ok g h.
Proof.
  intros Hg Hr. pose proof (geometry_block_pos _ _ Hg) as Hbs. unfold read_header in Hr. inv_ok.
  rename x into block. apply bind_Some in H1 as (last & [-> _]%checked_add_some & H1).
  destruct (_ && _) eqn:E in H1; [|done]. injection H1 as <-. apply checked_mul_some in H2 as [-> _].
  bool_to_prop. unfold PRIMARY_HEADER_LBA, geometry_last_lba, ENTRY_SIZE, MAX_ENTRY_ARRAY_BYTES in *.
  pose proof (u32_at_nonneg block header_ENTRY_COUNT).
  set (count := u32_at block header_ENTRY_COUNT) in *. set (lba := u64_at block header_ENTRY_LBA) in *.
  pose proof (div_ceil_covers (count * 128) (block_size g) ltac:(lia)).
  set (span := div_ceil (count * 128) (block_size g)) in *.
  assert (1 <= span) by nia.
  split; cbn [first_usable_lba last_usable_lba disk_guid entry_array_offset entry_array_size];
    unfold MAX_ENTRY_ARRAY_BYTES; (done || nia).
Qed.

(** ** What the entry array promises *)

Lemma chunks_exact_from_length rounds n l :
  0 < n -> Forall (fun c => len c = n) (chunks_exact_from rounds n l).
Proof.
  intros Hn. revert l. induction rounds as [|rounds IH]; intros l; cbn; [constructor|].
  destruct (Z.ltb_spec (len l) n); [constructor|]. constructor; [rewrite len_ztake; lia|apply IH].
Qed.

(** The entries that the count counts have types. *)
Lemma count_used_some unused number used entries n :
  count_used number (Some unused) used entries = Ok n -> n = used.
Proof.
  revert number unused. induction entries as [|raw entries IH]; intros number unused; cbn [count_used];
    [intros; by simplify_eq|].
  destruct (is_nil _); [apply IH|done].
Qed.

Lemma count_used_none number used entries n :
  count_used number None used entries = Ok n ->
  used <= n <= used + len entries
  /\ Forall (fun raw => is_nil (guid_at raw entry_TYPE_GUID) = false) (ztake (n - used) entries).
Proof.
  revert number used. induction entries as [|raw entries IH]; intros number used; cbn [count_used].
  { intros. simplify_eq. rewrite ztake_0 by lia. split; [unfold len; cbn [length]; lia|done]. }
  rewrite len_cons. len_facts. destruct (is_nil _) eqn:Hnil.
  { intros ->%count_used_some. rewrite ztake_0 by lia. split; [lia|done]. }
  intros [Hn Hf]%IH. split; [lia|]. unfold ztake in *.
  replace (Z.to_nat (n - used)) with (S (Z.to_nat (n - (used + 1)))) by lia. by constructor.
Qed.

(** One partition of a disk with a geometry and a header. *)
Record partition_ok (g : Geometry) (h : Header) (p : Partition) : Prop := {
  po_usable : first_usable_lba h <= first_lba p;
  po_order : first_lba p <= last_lba p;
  po_last : last_lba p <= last_usable_lba h;
  po_offset : offset p = first_lba p * block_size g;
  po_size : size p = (last_lba p - first_lba p + 1) * block_size g;
  po_guid : is_nil (unique_guid p) = false;
}.

Lemma partitions_of_ok g h n guids entries ps :
  partitions_of g h n guids entries = Ok ps -> NoDup guids ->
  Forall (partition_ok g h) ps /\ map number ps = seqZ n (len entries)
  /\ NoDup (guids ++ map unique_guid ps)
  /\ map type_guid ps = map (fun raw => guid_at raw entry_TYPE_GUID) entries.
Proof.
  revert n guids ps. induction entries as [|raw entries IH]; intros n guids ps Hp Hd; cbn [partitions_of] in Hp.
  { simplify_eq. cbn. rewrite app_nil_r. split_and!; constructor || done. }
  destruct (_ || _) eqn:E; [done|]. destruct (is_nil (guid_at raw entry_UNIQUE_GUID)) eqn:Hnil; [done|].
  destruct (bool_decide _) eqn:Hin; [done|].
  destruct (geometry_bytes g _) as [off|] eqn:Ho; [|done].
  destruct (geometry_bytes g (_ - _ + 1)) as [sz|] eqn:Hs; [|done].
  apply checked_mul_some in Ho as [-> _], Hs as [-> _]. inv_ok. bool_to_prop.
  destruct (IH _ _ _ H0) as (Hf & Hn & Hnd & Ht).
  { apply NoDup_app. split; [done|]. split; [|apply NoDup_singleton].
    intros u Hu Hu'. apply list_elem_of_singleton in Hu'. by subst. }
  rewrite len_cons. len_facts. split_and!.
  - constructor; [by split|done].
  - cbn. rewrite Hn. rewrite (seqZ_cons n) by lia. f_equal. f_equal; lia.
  - cbn. by rewrite <- app_assoc in Hnd.
  - cbn. by rewrite Ht.
Qed.

Lemma check_overlaps_ok ordered :
  StronglySorted (fun a b => first_lba a <= first_lba b) ordered ->
  Forall (fun p => first_lba p <= last_lba p) ordered ->
  check_overlaps ordered = Ok () -> StronglySorted (fun a b => last_lba a < first_lba b) ordered.
Proof.
  induction ordered as [|a rest IH]; intros Hs Hf Hc; [constructor|].
  apply StronglySorted_inv in Hs as [Hs Ha]. inv Hf.
  destruct rest as [|b rest]; [repeat constructor|]. cbn [check_overlaps] in Hc.
  destruct (Z.leb_spec (first_lba b) (last_lba a)); [done|].
  constructor; [by apply IH|]. constructor; [done|].
  apply StronglySorted_inv in Hs as [_ Hb]. eapply Forall_impl; [exact Hb|]. cbn. intros. lia.
Qed.

Lemma sorted_pairs {A} (R : A -> A -> Prop) l a b :
  StronglySorted R l -> a ∈ l -> b ∈ l -> a = b \/ R a b \/ R b a.
Proof.
  induction 1 as [|x l Hs IH Hx]; intros Ha Hb; [by apply elem_of_nil in Ha|].
  rewrite Forall_forall in Hx. apply elem_of_cons in Ha as [->|Ha], Hb as [->|Hb]; auto.
Qed.

(** What a caller expects, met. *)
Definition meets (expected : Expected) (disk : Disk) : Prop :=
  (forall g, e_disk_guid expected = Some g -> guid disk = g) /\
  (forall es, e_partitions expected = Some es ->
     Forall2 (fun e p => (forall g, e_unique_guid e = Some g -> unique_guid p = g)
                         /\ (forall s, e_size e = Some s -> size p = s)) es (partitions disk)).

Lemma check_partitions_ok es ps :
  check_partitions es ps = Ok () -> len es = len ps ->
  Forall2 (fun e p => (forall g, e_unique_guid e = Some g -> unique_guid p = g)
                      /\ (forall s, e_size e = Some s -> size p = s)) es ps.
Proof.
  revert ps. induction es as [|e es IH]; intros [|p ps] Hc Hl;
    rewrite ?len_cons in Hl; try (unfold len in Hl; cbn [length] in Hl; lia); [constructor|].
  cbn [check_partitions] in Hc. inv_ok. constructor; [|apply IH; [done|lia]].
  split; intros v Hv; rewrite Hv in *; inv_ok; bool_to_prop; congruence.
Qed.

Lemma check_expected_ok expected disk : check_expected expected disk = Ok () -> meets expected disk.
Proof.
  unfold check_expected. intros Hc. inv_ok. split.
  - intros g Hg. rewrite Hg in *. inv_ok. by bool_to_prop.
  - intros es He. rewrite He in *. inv_ok. bool_to_prop. by apply check_partitions_ok.
Qed.

(** A disk that can be trusted: its geometry, its partitions inside it and apart from each other, its
    identities, and what the caller expects. *)
Record sound_disk (expected : Expected) (disk : Disk) : Prop := {
  sd_block : exists k, 9 <= k <= 16 /\ logical_block_size disk = 2 ^ k;
  sd_whole : disk_size disk mod logical_block_size disk = 0;
  sd_count : MIN_PARTITIONS <= len (partitions disk) <= MAX_PARTITIONS;
  sd_numbers : map number (partitions disk) = seqZ 1 (len (partitions disk));
  sd_extents : Forall (fun p =>
    first_lba p <= last_lba p
    /\ offset p = first_lba p * logical_block_size disk
    /\ size p = (last_lba p - first_lba p + 1) * logical_block_size disk
    /\ 3 * logical_block_size disk <= offset p /\ 0 < size p
    /\ offset p + size p < disk_size disk) (partitions disk);
  sd_apart : forall p q, p ∈ partitions disk -> q ∈ partitions disk ->
    p = q \/ offset p + size p <= offset q \/ offset q + size q <= offset p;
  sd_identities : NoDup (guid disk :: map unique_guid (partitions disk));
  sd_named : Forall (fun u => u <> NIL)
    (guid disk :: map unique_guid (partitions disk) ++ map type_guid (partitions disk));
  sd_expected : meets expected disk;
}.

Lemma is_nil_false u : is_nil u = false <-> u <> NIL.
Proof. unfold is_nil. by rewrite bool_decide_eq_false. Qed.

Lemma read_partitions_ok sort `{SortsByFirst sort} (source : T) g sz h ps :
  geometry_ok g sz -> header_ok g h -> read_partitions sort source g h = Ok ps ->
  MIN_PARTITIONS <= len ps <= MAX_PARTITIONS
  /\ Forall (partition_ok g h) ps /\ map number ps = seqZ 1 (len ps)
  /\ NoDup (disk_guid h :: map unique_guid ps)
  /\ Forall (fun u => u <> NIL) (map type_guid ps)
  /\ (forall p q, p ∈ ps -> q ∈ ps -> p = q \/ last_lba p < first_lba q \/ last_lba q < first_lba p).
Proof.
  intros Hg Hh Hr. unfold read_partitions in Hr. inv_ok.
  destruct (count_used_none _ _ _ _ H2) as [Hu Hused]. rewrite Z.sub_0_r in Hused.
  destruct (partitions_of_ok _ _ _ _ _ _ H3 (NoDup_singleton _)) as (Hf & Hn & Hd & Ht).
  destruct x2. bool_to_prop.
  assert (Hlen : len (ztake x0 (chunks_exact ENTRY_SIZE x)) = len ps).
  { apply (f_equal length) in Ht. rewrite !length_map in Ht. unfold len. lia. }
  rewrite len_ztake in Hlen. unfold MIN_PARTITIONS, MAX_PARTITIONS in *.
  split_and?; [lia|lia|done| |done| |].
  - rewrite Hn. f_equal. rewrite len_ztake. lia.
  - rewrite Ht. rewrite Forall_map. eapply Forall_impl; [exact Hused|]. intros raw ?. by apply is_nil_false.
  - intros p q Hp Hq. apply (sorted_pairs (fun a b => last_lba a < first_lba b) (sort ps));
      [|by rewrite sort_permutes..].
    apply check_overlaps_ok; [apply sort_ascends| |done]. rewrite sort_permutes.
    eapply Forall_impl; [exact Hf|]. by intros p' [].
Qed.
End Facts.

Lemma read_disk_sound {T} `{ReadAt T} sort `{SortsByFirst sort} (source : T) block_bytes bytes expected disk :
  0 <= bytes <= U64_MAX -> read_disk sort source block_bytes bytes expected = Ok disk ->
  logical_block_size disk = block_bytes /\ disk_size disk = bytes /\ sound_disk expected disk.
Proof.
  intros Hb Hr. unfold read_disk in Hr. inv_ok. destruct (new_geometry_ok _ _ _ (proj1 Hb) H1) as [Hg Hbs].
  pose proof (geometry_block_pos _ _ Hg). pose proof (read_header_ok _ _ _ _ Hg H3) as Hh.
  destruct (read_partitions_ok sort _ _ _ _ _ Hg Hh H4) as (Hc & Hf & Hn & Hd & Ht & Ha).
  destruct x3. apply check_expected_ok in H5. destruct Hg as [Hpow Hsize Hblocks], Hh. subst block_bytes.
  split; [done|]. split; [done|]. split; cbn [logical_block_size disk_size partitions guid]; try done.
  - rewrite Hsize. apply Z.mod_mul. lia.
  - eapply Forall_impl; [exact Hf|]. intros p []. split_and?; (done || nia).
  - rewrite Forall_forall in Hf. intros p q Hp Hq. destruct (Hf p Hp), (Hf q Hq).
    destruct (Ha p q Hp Hq) as [|[|]]; [by left|right; left; nia|right; right; nia].
  - constructor; [by apply is_nil_false|]. apply Forall_app. split; [|done]. rewrite Forall_map.
    eapply Forall_impl; [exact Hf|]. intros p []. by apply is_nil_false.
Qed.

(** C39: A disk that [Disk::read] accepts, whatever its bytes and whatever source they come from, is
    sound: its block size is a supported power of two, it has 2 to 255 partitions with the numbers
    from 1, each inside the disk's usable blocks with its offset and size in bytes computed without
    overflow, no two of which share a byte; no GUID is nil or repeats; and it meets what the caller
    expects. *)
Theorem disk_read_sound {T} `{ReadAt T} sort `{SortsByFirst sort} (source : T) block_bytes bytes expected disk :
  0 <= bytes <= U64_MAX -> read_disk sort source block_bytes bytes expected = Ok disk ->
  logical_block_size disk = block_bytes /\ disk_size disk = bytes /\ sound_disk expected disk.
Proof. by apply (read_disk_sound sort). Qed.

(** ** A concrete disk *)

#[export] Instance slice_read_law : ReadAtLaw (list byte).
Proof.
  intros source at_ n bytes Ha Hn. unfold read_exact_at, slice_read_at.
  destruct (USIZE_MAX <? at_); [done|]. intros H. inv_ok. apply bind_Some in H as (last & Hl & Hg).
  apply checked_add_some in Hl as [-> _]. apply get_range_some in Hg as (? & ? & ->).
  unfold sub. rewrite len_ztake, len_zdrop. len_facts. lia.
Qed.

Definition by_first (a b : Partition) : Prop := first_lba a <= first_lba b.

#[export] Instance by_first_dec : RelDecision by_first.
Proof. unfold by_first. solve_decision. Defined.

#[export] Instance by_first_sorts : SortsByFirst (merge_sort by_first).
Proof.
  assert (Total by_first) by (intros a b; unfold by_first; lia).
  assert (Transitive by_first) by (intros a b c; unfold by_first; lia).
  split; intros l; [apply merge_sort_Permutation|]. by apply (StronglySorted_merge_sort by_first).
Qed.

(** Eight blocks of 512 bytes: the MBR, the header, an array of four entries, partition 1 in block 3,
    partition 2 in blocks 4 and 5, a free block, and the alternate header's. *)
Definition zeros (n : nat) : list byte := replicate n (byte_of 0).

Definition sample_entry (g first last : Z) : list byte :=
  to_le_bytes 16 (1000 + g) ++ to_le_bytes 16 g ++ to_le_bytes 8 first ++ to_le_bytes 8 last ++ zeros 80.

Definition sample_array : list byte := sample_entry 1 3 3 ++ sample_entry 2 4 5 ++ zeros 256.

Definition sample_header (crc : Z) : list byte :=
  bytes_of "EFI PART" ++ to_le_bytes 4 0x10000 ++ to_le_bytes 4 92 ++ to_le_bytes 4 crc ++ to_le_bytes 4 0
  ++ to_le_bytes 8 1 ++ to_le_bytes 8 7 ++ to_le_bytes 8 3 ++ to_le_bytes 8 6 ++ to_le_bytes 16 77
  ++ to_le_bytes 8 2 ++ to_le_bytes 4 4 ++ to_le_bytes 4 128 ++ to_le_bytes 4 (crc32 sample_array).

Definition sample_image : list byte :=
  zeros 450 ++ [byte_of 0xEE] ++ zeros 3 ++ to_le_bytes 4 1 ++ zeros 52 ++ MBR_SIGNATURE
  ++ sample_header (crc32 (sample_header 0)) ++ zeros 420 ++ sample_array
  ++ bytes_of "configuration" ++ zeros 499 ++ zeros 2048.

Definition sample_expected : Expected :=
  mkExpected None (Some [mkExpectedPartition None (Some 512); mkExpectedPartition None (Some 1024)]).

Lemma disk_read_sound_witness :
  exists disk,
    read_disk (merge_sort by_first) sample_image 512 4096 sample_expected = Ok disk
    /\ sound_disk sample_expected disk
    /\ read_first_partition disk sample_image 512 = Some (Ok (bytes_of "configuration"))
    /\ read_first_partition disk sample_image 511 = Some (Err (FirstPartitionTooLarge 512 511)).
Proof.
  eexists. split; [vm_compute; reflexivity|]. split; [|split; vm_compute; reflexivity].
  eapply (disk_read_sound (merge_sort by_first) sample_image 512 4096); [done|vm_compute; reflexivity].
Defined.

(** ** Reads stay inside the disk *)

(** Sources that hold the same bytes below [bytes]; above it they may differ, or fail. *)
Definition alike {T} `{ReadAt T} (bytes : Z) (a b : T) : Prop :=
  forall at_ n, 0 <= at_ -> 0 <= n -> at_ + n <= bytes -> read_exact_at a at_ n = read_exact_at b at_ n.

Lemma alike_read {T} `{ReadAt T} bytes (a b : T) at_ n :
  alike bytes a b -> 0 <= at_ -> 0 <= n -> at_ + n <= bytes -> read_at a at_ n = read_at b at_ n.
Proof. intros Hl ???. unfold read_at. by rewrite Hl. Qed.

(** [Disk::read] never reads past the size that its caller states, whatever the disk's fields
    say, and reading the first partition of a disk that it accepted does not either: sources that
    agree below that size give the same results and the same errors. *)
Theorem disk_reads_within {T} `{ReadAt T} sort `{SortsByFirst sort} (a b : T) block_bytes bytes expected :
  0 <= bytes <= U64_MAX -> alike bytes a b ->
  read_disk sort a block_bytes bytes expected = read_disk sort b block_bytes bytes expected
  /\ forall disk bound, read_disk sort a block_bytes bytes expected = Ok disk ->
       read_first_partition disk a bound = read_first_partition disk b bound.
Proof.
  intros Hb Hl. split.
  - unfold read_disk. destruct (new_geometry block_bytes bytes) as [g|] eqn:Hg; [|done]. cbn [mbind result_bind].
    destruct (new_geometry_ok _ _ _ (proj1 Hb) Hg) as [Hgo _]. pose proof (geometry_block_pos _ _ Hgo).
    pose proof (go_size _ _ Hgo). pose proof (go_blocks _ _ Hgo).
    replace (check_protective_mbr b) with (check_protective_mbr a); cycle 1.
    { unfold check_protective_mbr. rewrite (alike_read _ _ _ _ _ Hl); [done|..]; unfold MBR_SIZE; nia. }
    destruct (check_protective_mbr a); [|done]. cbn [mbind result_bind].
    replace (read_header b g) with (read_header a g); cycle 1.
    { unfold read_header. rewrite (alike_read _ _ _ _ _ Hl); [done|..]; nia. }
    destruct (read_header a g) as [h|] eqn:Hh; [|done]. cbn [mbind result_bind].
    apply (read_header_ok _ _ _ _ Hgo) in Hh. destruct Hh.
    replace (read_partitions sort b g h) with (read_partitions sort a g h); [done|].
    unfold read_partitions. rewrite (alike_read _ _ _ _ _ Hl); [done|..]; nia.
  - intros disk bound Hr. unfold read_disk in Hr. inv_ok.
    destruct (new_geometry_ok _ _ _ (proj1 Hb) H1) as [Hg _]. pose proof (geometry_block_pos _ _ Hg).
    pose proof (read_header_ok _ _ _ _ Hg H3) as Hh.
    destruct (read_partitions_ok sort _ _ _ _ _ Hg Hh H4) as (_ & Hf & _). destruct Hh.
    pose proof (go_size _ _ Hg).
    unfold read_first_partition. cbn [partitions]. destruct x2 as [|p ps]; [done|].
    destruct (_ && _); [|done]. apply Forall_cons in Hf as [[] _]. rewrite (alike_read _ _ _ _ _ Hl); [done|..]; nia.
Qed.

Lemma disk_reads_within_witness :
  read_disk (merge_sort by_first) (sample_image ++ bytes_of "beyond") 512 4096 expect_nothing
  = read_disk (merge_sort by_first) sample_image 512 4096 expect_nothing.
Proof.
  apply (disk_reads_within (merge_sort by_first) (sample_image ++ bytes_of "beyond") sample_image 512 4096);
    [done|].
  intros at_ n Ha Hn Hl. unfold read_exact_at, slice_read_at.
  assert (Hi : len sample_image = 4096) by (vm_compute; reflexivity).
  destruct (USIZE_MAX <? at_); [done|]. unfold checked_add. destruct (at_ + n <=? USIZE_MAX); [|done].
  cbn [mbind option_bind]. f_equal. unfold get_range, sub.
  rewrite len_app, Hi. len_facts.
  destruct (Z.leb_spec at_ (at_ + n)); [|lia]. destruct (Z.leb_spec (at_ + n) 4096); [|lia].
  destruct (Z.leb_spec (at_ + n) (4096 + len (bytes_of "beyond"))); [|lia]. cbn [andb]. f_equal.
  rewrite zdrop_app_l by lia. rewrite ztake_app_l by (rewrite len_zdrop; lia). done.
Defined.

(** ** The first partition's bytes *)

(** Trimming removes blanks from the end, and only from there. *)
Lemma trim_end_spec bytes : exists blank,
  bytes = trim_end bytes ++ blank /\ Forall (fun b => is_blank b = true) blank
  /\ (forall b, last (trim_end bytes) = Some b -> is_blank b = false).
Proof.
  unfold trim_end, rposition. destruct (position _ _) as [i|] eqn:H; cbn [mbind option_bind].
  - apply position_some in H as (pre & x & post & Hr & -> & Hx & Hf). apply negb_true_iff in Hx.
    assert (Hb : bytes = (reverse post ++ [x]) ++ reverse pre).
    { apply (f_equal reverse) in Hr. rewrite reverse_involutive in Hr. rewrite Hr.
      by rewrite reverse_app, reverse_cons. }
    replace (len bytes - 1 - len pre + 1) with (len (reverse post ++ [x])).
    2: { rewrite Hb, !len_app. unfold len. rewrite !length_reverse. lia. }
    exists (reverse pre). rewrite Hb, ztake_app_l, ztake_all by lia. split; [done|]. split.
    + apply Forall_reverse. eapply Forall_impl; [exact Hf|]. intros b. apply negb_false_iff.
    + intros b. rewrite last_snoc. intros. by simplify_eq.
  - apply position_none in H. exists bytes. rewrite ztake_0 by lia. split; [done|]. split; [|done].
    apply Forall_reverse in H. rewrite reverse_involutive in H. eapply Forall_impl; [exact H|]. intros b. apply negb_false_iff.
Qed.

(** Reading the first partition of a sound disk returns its bytes without the NULs and whitespace
    at its end, and nothing else missing; a partition larger than the caller's bound fails before
    anything is read, and a failed read fails with the source's error. *)
Theorem first_partition_exact {T} `{ReadAt T} (source : T) expected disk bound :
  sound_disk expected disk -> 0 <= bound <= USIZE_MAX ->
  exists p rest, partitions disk = p :: rest /\ number p = 1 /\
    (if bound <? size p then
       read_first_partition disk source bound = Some (Err (FirstPartitionTooLarge (size p) bound))
     else match read_exact_at source (offset p) (size p) with
     | Err e => read_first_partition disk source bound = Some (Err (Io e))
     | Ok bytes => exists kept blank,
         bytes = kept ++ blank /\ Forall (fun b => is_blank b = true) blank
         /\ (forall b, last kept = Some b -> is_blank b = false)
         /\ read_first_partition disk source bound = Some (Ok kept)
     end).
Proof.
  intros Hs Hb. destruct Hs as [_ _ Hc Hn _ _ _ _ _]. unfold read_first_partition.
  destruct (partitions disk) as [|p rest] eqn:Hp.
  { unfold MIN_PARTITIONS, len in Hc. cbn [length] in Hc. lia. }
  exists p, rest. split; [done|]. rewrite len_cons in Hn. len_facts. rewrite seqZ_cons in Hn by lia.
  cbn [map] in Hn. split; [by injection Hn|]. destruct (Z.ltb_spec bound (size p)).
  - destruct (Z.leb_spec (size p) bound); [lia|]. by rewrite andb_false_r.
  - destruct (Z.leb_spec (size p) bound); [|lia]. destruct (Z.leb_spec (size p) USIZE_MAX); [|lia]. cbn [andb].
    unfold read_at. destruct (read_exact_at source (offset p) (size p)) as [bytes|e]; [|done].
    destruct (trim_end_spec bytes) as (blank & Ht1 & Ht2 & Ht3). exists (trim_end bytes), blank. done.
Qed.

Definition sample_disk : Disk := Eval vm_compute in
  match read_disk (merge_sort by_first) sample_image 512 4096 expect_nothing with
  | Ok disk => disk
  | Err _ => mkDisk 0 0 NIL []
  end.

Lemma sample_disk_read : read_disk (merge_sort by_first) sample_image 512 4096 expect_nothing = Ok sample_disk.
Proof. vm_compute. reflexivity. Qed.

Lemma first_partition_exact_witness :
  sound_disk expect_nothing sample_disk
  /\ read_first_partition sample_disk sample_image 512 = Some (Ok (bytes_of "configuration"))
  /\ read_first_partition sample_disk sample_image 511 = Some (Err (FirstPartitionTooLarge 512 511)).
Proof.
  assert (Hs : sound_disk expect_nothing sample_disk).
  { apply (read_disk_sound (merge_sort by_first) sample_image 512 4096 expect_nothing sample_disk);
      [done|apply sample_disk_read]. }
  split; [done|]. split; [vm_compute; reflexivity|].
  destruct (first_partition_exact sample_image expect_nothing sample_disk 511 Hs) as (p & rest & Hp & _ & Hr);
    [done|].
  unfold sample_disk at 1 in Hp. cbn [partitions] in Hp. simplify_eq. exact Hr.
Defined.
