(* ===== verification/Cmdline.v ===== *)
(** * Kernel command lines (src/nvx-rs/src/protocol/cmdline.rs)

    The parameters into which Linux splits a command line, the virtio-mmio devices that they
    describe, the tokens into which the guest's init splits it, and the address tokens. The parser
    and printer of addresses are the standard library's, and an argument of the reader. *)

From S2P Require Import Prelude.

Definition VIRTIO_MMIO_DEVICE : list byte := bytes_of "virtio_mmio.device".
Definition DNS_TOKEN : string := "virtnet_dns=".
Definition GATEWAY_TOKEN : string := "virtnet_gw=".

(** The bytes that the code names. *)
Definition QUOTE : byte := byte_of 34.
Definition EQUALS : byte := byte_of 61.
Definition is_byte (c b : byte) : bool := bool_decide (b = c).

Definition is_space (byte : byte) : bool :=
  bool_decide (byte_val byte ∈ [32; 9; 10; 0x0b; 0x0c; 13; 0xa0]).

(** [Parameter]. *)
Record KernelParameter := mkParameter {
  name : list byte;
  value : option (list byte);
}.

(** The closure [fold]. *)
Definition fold_dash (b : byte) : byte := if byte_val b =? 45 then byte_of 95 else b.

Definition is_named (self : KernelParameter) (expected : list byte) : bool :=
  (len (name self) =? len expected)
  && forallb (fun '(b, e) => bool_decide (fold_dash b = fold_dash e)) (zip (name self) expected).

(** [parameters]: the rest of an iterator before its first [next]. *)
Definition parameters (command_line : list byte) : list byte :=
  ztake (match position (fun b => byte_val b =? 0) command_line with
         | Some at_ => at_
         | None => len command_line
         end) command_line.

(** The loop of [next], at [length] bytes of the text: the length of the parameter, and the offset of
    its [=]. *)
Fixpoint scan_parameter (in_quote : bool) (equals : option Z) (length : Z) (text : list byte) : Z * option Z :=
  match text with
  | [] => (length, equals)
  | b :: text =>
      if is_space b && negb in_quote then (length, equals)
      else
        let equals := if negb (is_some equals) && is_byte EQUALS b && (0 <? length) then Some length else equals in
        let in_quote := if is_byte QUOTE b then negb in_quote else in_quote in
        scan_parameter in_quote equals (length + 1) text
  end.

(** The first byte that is not a space, and what follows it. *)
Definition skip_spaces (text : list byte) : list byte :=
  zdrop (match position (fun b => negb (is_space b)) text with Some at_ => at_ | None => len text end) text.

(** [&l[a..b]], which panics, [None], out of range. *)
Definition slice (a b : Z) (l : list byte) : option (list byte) :=
  if 0 <=? a then get_range a b l else None.

(** [Iterator::next] of [Parameters]: the rest after it, and the parameter. A slice out of range, or a
    length below zero, is a panic. *)
Definition next (rest : list byte) : option (list byte * option KernelParameter) :=
  let rest := skip_spaces rest in
  match rest with
  | [] => Some (rest, None)
  | b :: tail =>
      let quoted := is_byte QUOTE b in
      let text := if quoted then tail else rest in
      let '(length, equals) := scan_parameter quoted None 0 text in
      parameter ← slice 0 length text;
      rest ← slice length (len text) text;
      let closing := bool_decide (last parameter = Some QUOTE) in
      match equals with
      | None =>
          name ← (if quoted && closing then slice 0 (length - 1) parameter else Some parameter);
          if bool_decide (name = bytes_of "--") then Some ([], None)
          else Some (rest, Some (mkParameter name None))
      | Some equals =>
          value ← slice (equals + 1) (len parameter) parameter;
          value ← match strip_prefix [QUOTE] value with
                  | Some value => if closing then slice 0 (saturating_sub (len value) 1) value else Some value
                  | None => if quoted && closing then slice 0 (len value - 1) value else Some value
                  end;
          name ← slice 0 equals parameter;
          Some (rest, Some (mkParameter name (Some value)))
      end
  end.

(** The parameters that an iterator returns in at most [rounds] calls of [next]; [None] if one panics
    or the rounds do not end it. *)
Fixpoint collect (rounds : nat) (rest : list byte) : option (list KernelParameter) :=
  match rounds with
  | O => None
  | S rounds =>
      '(rest, p) ← next rest;
      match p with
      | Some p => ps ← collect rounds rest; Some (p :: ps)
      | None => Some []
      end
  end.

(** All of them: one call of [next] more than the text has bytes is enough. *)
Definition all_parameters (command_line : list byte) : option (list KernelParameter) :=
  let rest := parameters command_line in collect (S (length rest)) rest.

(** ** virtio-mmio devices *)

Record VirtioMmioDevice := mkVirtioMmioDevice {
  size : Z;
  base : Z;
  irq : Z;
  id : option Z;
}.

(** [char::to_digit(radix)]. *)
Definition to_digit (radix : Z) (b : byte) : option Z :=
  let v := byte_val b in
  let d := if (48 <=? v) && (v <=? 57) then v - 48
           else if (97 <=? v) && (v <=? 122) then v - 97 + 10
           else if (65 <=? v) && (v <=? 90) then v - 65 + 10
           else radix in
  if d <? radix then Some d else None.

(** The loop of [integer]: the value and the number of digits. *)
Fixpoint read_digits (radix integer count : Z) (text : list byte) : Z * Z :=
  match text with
  | [] => (integer, count)
  | b :: text => match to_digit radix b with
                 | Some d => read_digits radix (((integer * radix) mod 2 ^ 64 + d) mod 2 ^ 64) (count + 1) text
                 | None => (integer, count)
                 end
  end.

(** The base and the length of its prefix. *)
Definition radix_of (text : list byte) (base : Z) : Z * Z :=
  if negb (base =? 0) then (base, 0)
  else match text with
       | a :: x :: d :: _ =>
           if (byte_val a =? 48) && ((byte_val x =? 120) || (byte_val x =? 88)) && is_some (to_digit 16 d) then (16, 2)
           else if byte_val a =? 48 then (8, 0) else (10, 0)
       | a :: _ => if byte_val a =? 48 then (8, 0) else (10, 0)
       | [] => (10, 0)
       end.

Definition integer (text : list byte) (base : Z) : Z * Z :=
  let '(radix, start) := radix_of text base in
  let '(integer, digits) := read_digits radix 0 0 (zdrop start text) in
  (integer, start + digits).

Definition scan_integer (text : list byte) (base : Z) (signed : bool) : option (Z * list byte) :=
  let text := skip_spaces text in
  let '(negative, digits) := match text with
                             | b :: digits => if (byte_val b =? 45) && signed then (true, digits) else (false, text)
                             | [] => (false, text)
                             end in
  match digits with
  | d :: _ =>
      if is_some (to_digit 10 d) then
        let '(integer, length) := integer digits base in
        Some (if negative then (- integer) mod 2 ^ 64 else integer, zdrop length digits)
      else None
  | [] => None
  end.

(** The suffix of a size: its shift, and what follows it. *)
Definition size_suffix (rest : list byte) : Z * list byte :=
  match rest with
  | b :: tail =>
      let v := byte_val b in
      if (v =? 75) || (v =? 107) then (10, tail)
      else if (v =? 77) || (v =? 109) then (20, tail)
      else if (v =? 71) || (v =? 103) then (30, tail)
      else if (v =? 84) || (v =? 116) then (40, tail)
      else if (v =? 80) || (v =? 112) then (50, tail)
      else if (v =? 69) || (v =? 101) then (60, tail)
      else (0, rest)
  | [] => (0, rest)
  end.

Definition parse_device (value : list byte) : option VirtioMmioDevice :=
  let '(size, length) := integer value 0 in
  let '(shift, rest) := size_suffix (zdrop length value) in
  rest ← strip_prefix (bytes_of "@") rest;
  '(base, rest) ← scan_integer rest 0 true;
  rest ← strip_prefix (bytes_of ":") rest;
  '(irq, rest) ← scan_integer rest 10 false;
  id ← match rest with
       | [] => Some None
       | colon :: text =>
           if byte_val colon =? 58 then
             match scan_integer text 10 true with
             | Some (id, []) => Some (Some id)
             | _ => None
             end
           else None
       end;
  let irq := irq mod 2 ^ 32 in
  if negb (irq =? 0) then
    Some {| size := Z.shiftl size shift mod 2 ^ 64; base := base; irq := irq;
            id := option_map (fun id => to_signed 32 (id mod 2 ^ 32)) id |}
  else None.

Definition virtio_mmio_devices (command_line : list byte) : option (list VirtioMmioDevice) :=
  option_map (fun ps : list KernelParameter =>
    omap (fun p => v ← value p; parse_device v) (filter (fun p => is_named p VIRTIO_MMIO_DEVICE = true) ps))
    (all_parameters command_line).

(** ** The init's tokens *)

Record Token := mkToken {
  t_name : list byte;
  t_value : option (list byte);
}.

Definition token_of (token : list byte) : Token :=
  match position (is_byte EQUALS) token with
  | Some equals => {| t_name := ztake equals token; t_value := Some (zdrop (equals + 1) token) |}
  | None => {| t_name := token; t_value := None |}
  end.

Definition is_ifs (b : byte) : bool := bool_decide (byte_val b ∈ [32; 9; 10]).

Definition init_tokens (command_line : list byte) : list Token :=
  map token_of (filter (fun token => token <> []) (split_on is_ifs command_line)).

(** ** Address tokens *)

(** [u8::is_ascii_whitespace]. *)
Definition is_ascii_whitespace (b : byte) : bool := bool_decide (byte_val b ∈ [32; 9; 10; 12; 13]).

(** [FromStr] and [Display] of an address: the standard library's. *)
Class AddressText (A : Type) := {
  from_str : list byte -> option A;
  to_string : A -> list byte;
}.

(** [prefix.strip_suffix('=').unwrap_or(prefix)]. *)
Definition token_name (prefix : string) : string :=
  let bytes := bytes_of prefix in
  if bool_decide (last bytes = Some EQUALS)
  then String.string_of_list_byte (ztake (len bytes - 1) bytes) else prefix.

Section AddressTokens.
Context {A : Type} `{AddressText A}.

(** The address of a token's value, in its canonical text. *)
Definition canonical_address (value : list byte) : option A :=
  if is_utf8 value then
    address ← from_str value;
    if bool_decide (to_string address = value) then Some address else None
  else None.

(** The loop over the tokens, with the address found so far. *)
Fixpoint address_loop (prefix family : string) (found : option A) (tokens : list (list byte))
    : result ProtocolError (option A) :=
  match tokens with
  | [] => Ok found
  | token :: tokens =>
      match strip_prefix (bytes_of prefix) token with
      | None => address_loop prefix family found tokens
      | Some value =>
          if is_some found then Err [Text "the "; Text (token_name prefix); Text " kernel parameter is repeated"]
          else match canonical_address value with
               | None => Err [Text "the "; Text (token_name prefix); Text " kernel parameter must name one "; Text family;
                              Text " address as OpenVMM renders it, not '"; EscapeAscii value; Text "'"]
               | Some address => address_loop prefix family (Some address) tokens
               end
      end
  end.

Definition address_token (command_line : list byte) (prefix family : string) : result ProtocolError (option A) :=
  address_loop prefix family None (split_on is_ascii_whitespace command_line).
End AddressTokens.

Definition dns_server {A} `{AddressText A} (command_line : list byte) : result ProtocolError (option A) :=
  address_token command_line DNS_TOKEN "IPv4 or IPv6".

Definition gateway {A} `{AddressText A} (command_line : list byte) : result ProtocolError (option A) :=
  address_token command_line GATEWAY_TOKEN "IPv4".

Definition write_resolver {A} `{AddressText A} (server : A) : list byte :=
  bytes_of "nameserver " ++ to_string server ++ [byte_of 10].

(** ** Reading a command line always ends *)

Lemma slice_some a b (l : list byte) : 0 <= a <= b -> b <= len l -> slice a b l = Some (sub a b l).
Proof.
  intros Ha Hb. unfold slice. destruct (Z.leb_spec 0 a); [|lia]. apply get_range_some. split_and!; [lia|done|done].
Qed.

Lemma scan_parameter_bounds q e n text length equals :
  scan_parameter q e n text = (length, equals) -> 0 <= n -> (forall i, e = Some i -> 0 < i < n) ->
  n <= length <= n + len text /\ (forall i, equals = Some i -> 0 < i < length).
Proof.
  revert q e n. induction text as [|b text IH]; intros q e n H Hn He; cbn [scan_parameter] in H.
  { simplify_eq. split; [unfold len; cbn [Datatypes.length]; lia|done]. }
  rewrite len_cons. len_facts. destruct (_ && _).
  { simplify_eq. split; [lia|done]. }
  apply IH in H as [H1 H2]; [split; [lia|done]|lia|].
  intros i. destruct (_ && _) eqn:E; [|intros Hi; specialize (He i Hi); lia].
  intros. simplify_eq. bool_to_prop. lia.
Qed.

Lemma len_skip_spaces text : len (skip_spaces text) <= len text.
Proof. unfold skip_spaces. rewrite len_zdrop. len_facts. lia. Qed.

(** The byte at the [=]'s offset is one. *)
Lemma scan_parameter_equals q n text length i :
  scan_parameter q None n text = (length, Some i) -> n <= i /\ text !! Z.to_nat (i - n) = Some EQUALS.
Proof.
  assert (Hkeep : forall text q n length i j,
    scan_parameter q (Some j) n text = (length, Some i) -> i = j).
  { clear. intros text. induction text as [|b text IH]; intros q n length i j H; cbn [scan_parameter] in H.
    - by simplify_eq.
    - destruct (_ && _); [by simplify_eq|]. cbn [is_some negb andb] in H. by apply IH in H. }
  revert q n. induction text as [|b text IH]; intros q n H; cbn [scan_parameter] in H; [by simplify_eq|].
  destruct (is_space b && _); [by simplify_eq|]. cbn [is_some negb andb] in H.
  destruct (is_byte EQUALS b && _) eqn:E.
  - apply Hkeep in H as ->. apply andb_true_iff in E as [E _]. apply bool_decide_eq_true in E. subst b.
    rewrite Z.sub_diag. split; [lia|done].
  - apply IH in H as [Hi Ht]. split; [lia|]. by replace (Z.to_nat (i - n)) with (S (Z.to_nat (i - (n + 1)))) by lia.
Qed.

Lemma sub_prefix n (l : list byte) : sub 0 n l = ztake n l.
Proof. unfold sub. by rewrite Z.sub_0_r, zdrop_0 by lia. Qed.

(** What one call of [next] does: it never panics, and a parameter takes at least one byte. *)
Lemma next_total rest :
  exists rest' p, next rest = Some (rest', p)
    /\ match p with
       | Some _ => len rest' < len rest
       | None => next rest' = Some (rest', None) /\ len rest' <= len rest
       end.
Proof.
  unfold next at 1. pose proof (len_skip_spaces rest) as Hs.
  destruct (skip_spaces rest) as [|b tail] eqn:Hr.
  { exists [], None. split; [done|]. split; [done|]. len_facts. unfold len at 1. cbn [length]. lia. }
  rewrite len_cons in Hs. set (quoted := is_byte QUOTE b).
  set (text := if quoted then tail else b :: tail).
  destruct (scan_parameter quoted None 0 text) as [length equals] eqn:Hscan.
  assert (Hlt : len text <= 1 + len tail) by (subst text; destruct quoted; rewrite ?len_cons; lia).
  assert (Hsp : is_space b = false).
  { unfold skip_spaces in Hr. destruct (position _ rest) as [i|] eqn:Hp; cycle 1.
    - rewrite zdrop_all in Hr by lia. done.
    - apply position_some in Hp as (k & x & r & -> & -> & Hx & _). rewrite zdrop_app_r, zdrop_0 in Hr by lia.
      injection Hr as -> _. by apply negb_true_iff in Hx. }
  pose proof (scan_parameter_bounds _ _ _ _ _ _ Hscan ltac:(lia) ltac:(done)) as [Hlen Heq].
  assert (Hpos : quoted = false -> 0 < length).
  { intros Hq. subst text. rewrite Hq in Hscan. cbn [scan_parameter] in Hscan. rewrite Hsp in Hscan.
    cbn [andb negb] in Hscan. apply scan_parameter_bounds in Hscan as [? _]; [lia|lia|].
    intros i. destruct (_ && _) eqn:E; [|done]. bool_to_prop. done. }
  assert (Hqt : quoted = true -> len text = len tail) by (subst text; by intros ->).
  clearbody text. rewrite slice_some by lia. cbn [mbind option_bind]. rewrite slice_some by (len_facts; lia).
  cbn [mbind option_bind]. rewrite sub_prefix. set (parameter := ztake length text).
  assert (Hpl : len parameter = length) by (subst parameter; rewrite len_ztake; lia).
  assert (Hrest : len (sub length (len text) text) < len rest).
  { unfold sub. rewrite len_ztake, len_zdrop. len_facts.
    destruct quoted; [rewrite Hqt in * by done|specialize (Hpos eq_refl)]; lia. }
  destruct equals as [i|].
  - specialize (Heq i eq_refl). rewrite (slice_some (i + 1)), (slice_some 0 i) by lia. cbn [mbind option_bind].
    set (value := sub (i + 1) (len parameter) parameter).
    assert (Hend : quoted && bool_decide (last parameter = Some QUOTE) = true -> 1 <= len value).
    { intros [_ Hc]%andb_true_iff. apply bool_decide_eq_true in Hc. subst value. unfold sub.
      rewrite len_ztake, len_zdrop. destruct (Z.eq_dec (i + 1) length); [exfalso|lia].
      apply scan_parameter_equals in Hscan as [_ Ht]. rewrite Z.sub_0_r in Ht.
      rewrite last_lookup in Hc. subst parameter. unfold ztake in Hc.
      rewrite length_take_le, lookup_take_lt in Hc by (unfold len in *; lia).
      replace (pred (Z.to_nat length)) with (Z.to_nat i) in Hc by lia. rewrite Ht in Hc. done. }
    destruct (strip_prefix [QUOTE] value) as [v|].
    + destruct (bool_decide _); [rewrite slice_some by (unfold saturating_sub; len_facts; lia)|];
        cbn [mbind option_bind]; eauto.
    + destruct (quoted && _) eqn:E; [specialize (Hend eq_refl); rewrite slice_some by lia|];
        cbn [mbind option_bind]; eauto.
  - assert (Hn : exists name, (if quoted && bool_decide (last parameter = Some QUOTE)
      then slice 0 (length - 1) parameter else Some parameter) = Some name).
    { destruct (quoted && _) eqn:E; [|eauto]. apply andb_true_iff in E as [_ E]. apply bool_decide_eq_true in E.
      destruct (Z.eq_dec length 0) as [H0|]; [|rewrite slice_some by lia; eauto].
      subst parameter. by rewrite H0, ztake_0 in E by lia. }
    destruct Hn as [name ->]. cbn [mbind option_bind]. destruct (bool_decide (name = _)); [|eauto].
    exists [], None. split; [done|]. split; [done|]. unfold len at 1. cbn [Datatypes.length]. lia.
Qed.

(** More rounds than the text has bytes change nothing. *)
Lemma collect_enough n rest :
  len rest < Z.of_nat n -> exists ps, collect n rest = Some ps
    /\ forall m, len rest < Z.of_nat m -> collect m rest = Some ps.
Proof.
  revert rest. induction n as [|n IH]; intros rest Hn; [len_facts; lia|].
  destruct (next_total rest) as (rest' & p & Hnext & Hp). cbn [collect]. rewrite Hnext. cbn [mbind option_bind].
  destruct p as [p|].
  - destruct (IH rest') as (ps & Hps & Hm); [lia|]. rewrite Hps. exists (p :: ps). split; [done|].
    intros [|m] Hlt; [len_facts; lia|]. cbn [collect]. rewrite Hnext. cbn [mbind option_bind].
    by rewrite Hm by lia.
  - exists []. split; [done|]. intros [|m] Hlt; [len_facts; lia|]. cbn [collect]. by rewrite Hnext.
Qed.

(** Splitting any command line as the kernel does ends, without a panic: no slice of the text is
    out of range, every parameter consumes at least a byte, so that one call of [next] more than the
    text has bytes is always enough and more change nothing, and an iterator that ended stays so. *)
Theorem parameters_total command_line :
  (exists ps, all_parameters command_line = Some ps
     /\ forall rounds, len command_line < Z.of_nat rounds -> collect rounds (parameters command_line) = Some ps)
  /\ (forall rest, exists rest' p, next rest = Some (rest', p)
        /\ match p with Some _ => len rest' < len rest | None => next rest' = Some (rest', None) end).
Proof.
  split.
  - unfold all_parameters. set (rest := parameters command_line).
    assert (Hl : len rest <= len command_line) by (subst rest; unfold parameters; rewrite len_ztake; len_facts; lia).
    destruct (collect_enough (S (length rest)) rest) as (ps & Hps & Hm); [unfold len; lia|].
    exists ps. split; [done|]. intros rounds Hr. apply Hm. lia.
  - intros rest. destruct (next_total rest) as (rest' & p & Hn & Hp). exists rest', p. split; [done|].
    destruct p; tauto.
Qed.

(** ** Writing a command line *)

Definition SPACE : byte := byte_of 32.

(** A byte of a name: no space, no quote, no [=], no NUL. *)
Definition name_byte (b : byte) : Prop :=
  is_space b = false /\ b <> QUOTE /\ b <> EQUALS /\ byte_val b <> 0.

(** A byte of a value: anything but a quote and a NUL. *)
Definition value_byte (b : byte) : Prop := b <> QUOTE /\ byte_val b <> 0.

(** A parameter that can be written: a name, and not the [--] that ends the kernel's part. *)
Record writable (p : KernelParameter) : Prop := {
  wr_name : name p <> [] /\ Forall name_byte (name p);
  wr_value : match value p with Some v => Forall value_byte v | None => name p <> bytes_of "--" end;
}.

(** Its text: a value with whitespace goes between quotes. *)
Definition write_parameter (p : KernelParameter) : list byte :=
  match value p with
  | None => name p
  | Some v => if existsb is_space v then name p ++ [EQUALS; QUOTE] ++ v ++ [QUOTE]
              else name p ++ [EQUALS] ++ v
  end.

Fixpoint write_line (ps : list KernelParameter) : list byte :=
  match ps with
  | [] => []
  | [p] => write_parameter p
  | p :: ps => write_parameter p ++ [SPACE] ++ write_line ps
  end.

(** Where a parameter ends: at the end of the line, or at a space. *)
Definition at_end (t : list byte) : Prop := match t with [] => True | b :: _ => is_space b = true end.

Lemma scan_name k t n :
  Forall name_byte k -> 0 <= n -> scan_parameter false None n (k ++ t) = scan_parameter false None (n + len k) t.
Proof.
  intros Hk. revert n. induction Hk as [|b k (Hs & Hq & He & _) Hk IH]; intros n Hn.
  { cbn [app]. f_equal. unfold len. cbn [length]. lia. }
  cbn [app scan_parameter]. rewrite Hs. cbn [andb]. unfold is_byte.
  rewrite (bool_decide_eq_false_2 _ He), (bool_decide_eq_false_2 _ Hq). cbn [is_some negb andb].
  rewrite IH by lia. f_equal. rewrite len_cons. lia.
Qed.

Lemma scan_value v t q e n :
  Forall value_byte v -> Forall (fun b => is_space b = false) v \/ q = true ->
  scan_parameter q (Some e) n (v ++ t) = scan_parameter q (Some e) (n + len v) t.
Proof.
  intros Hv. revert n. induction Hv as [|b v (Hq & _) Hv IH]; intros n Hs.
  { cbn [app]. f_equal. unfold len. cbn [length]. lia. }
  cbn [app scan_parameter]. unfold is_byte. rewrite (bool_decide_eq_false_2 _ Hq). cbn [is_some negb andb].
  replace (is_space b && negb q) with false
    by (destruct Hs as [Hs| ->]; [inv Hs; by rewrite H1|by rewrite andb_false_r]).
  rewrite IH by (destruct Hs as [Hs|]; [inv Hs; by left|by right]). f_equal. rewrite len_cons. lia.
Qed.

Lemma scan_stop e n t : at_end t -> scan_parameter false e n t = (n, e).
Proof. destruct t as [|b t]; [done|]. cbn. by intros ->. Qed.

Lemma is_space_bytes : is_space EQUALS = false /\ is_space QUOTE = false /\ is_space SPACE = true.
Proof. by split_and!. Qed.

Lemma existsb_false {A} (f : A -> bool) l : existsb f l = false -> Forall (fun x => f x = false) l.
Proof. induction l as [|x l IH]; cbn; [constructor|]. intros [H1 H2]%orb_false_iff. constructor; auto. Qed.

Lemma scan_written p t :
  writable p -> at_end t ->
  scan_parameter false None 0 (write_parameter p ++ t)
  = (len (write_parameter p), match value p with Some _ => Some (len (name p)) | None => None end).
Proof.
  intros [[Hne Hn] Hv] Ht. unfold write_parameter.
  assert (Hpos : 0 < len (name p)) by (destruct (name p); [done|rewrite len_cons; len_facts; lia]).
  destruct (value p) as [v|]; [|rewrite scan_name by (done || lia); by rewrite scan_stop].
  destruct (existsb is_space v) eqn:Hsp.
  - rewrite <- app_assoc, scan_name by (done || lia). cbn [app]. rewrite Z.add_0_l.
    cbn [scan_parameter]. destruct is_space_bytes as (-> & -> & _). cbn [andb is_some negb].
    change (is_byte EQUALS EQUALS) with true. change (is_byte QUOTE EQUALS) with false.
    change (is_byte QUOTE QUOTE) with true. cbn [andb].
    destruct (Z.ltb_spec 0 (len (name p))); [|lia]. cbn [is_some negb andb].
    rewrite <- app_assoc, scan_value by (done || by right). cbn [app scan_parameter].
    destruct is_space_bytes as (_ & -> & _). change (is_byte QUOTE QUOTE) with true. cbn [andb is_some negb].
    rewrite scan_stop by done. f_equal. rewrite !len_app. unfold len. cbn [length app]. rewrite !length_app. cbn. lia.
  - rewrite <- app_assoc, scan_name by (done || lia). cbn [app]. rewrite Z.add_0_l.
    cbn [scan_parameter]. destruct is_space_bytes as (-> & _ & _). cbn [andb is_some negb].
    change (is_byte EQUALS EQUALS) with true. change (is_byte QUOTE EQUALS) with false. cbn [andb].
    destruct (Z.ltb_spec 0 (len (name p))); [|lia].
    rewrite scan_value by (done || (left; by apply existsb_false)). rewrite scan_stop by done.
    f_equal. rewrite !len_app. unfold len. cbn [length]. lia.
Qed.

(** The first byte of a written parameter is its name's. *)
Lemma written_head p :
  writable p -> exists b k, write_parameter p = b :: k /\ name_byte b.
Proof.
  intros [[Hne Hn] _]. unfold write_parameter. destruct (name p) as [|b k] eqn:Hp; [done|]. inv Hn.
  destruct (value p) as [v|]; [destruct (existsb is_space v)|]; cbn [app]; eauto.
Qed.

Lemma skip_spaces_none b k : is_space b = false -> skip_spaces (b :: k) = b :: k.
Proof. intros H. unfold skip_spaces. cbn [position]. rewrite H. cbn [negb]. by apply zdrop_0. Qed.

Lemma last_value k v : Forall value_byte v -> last (k ++ EQUALS :: v) <> Some QUOTE.
Proof.
  intros Hv. rewrite last_app_cons. destruct (last v) as [b|] eqn:Hl.
  - rewrite last_cons, Hl. intros [= ->]. apply last_Some in Hl as [v' ->].
    apply Forall_app in Hv as [_ [[Hq _] _]%Forall_cons]. congruence.
  - rewrite last_cons, Hl. done.
Qed.

Lemma next_written p t : writable p -> at_end t -> next (write_parameter p ++ t) = Some (t, Some p).
Proof.
  intros Hw Ht. destruct (written_head p Hw) as (b & k & Hb & Hs & Hq & _). unfold next.
  rewrite Hb. cbn [app]. rewrite skip_spaces_none by done.
  replace (is_byte QUOTE b) with false by (unfold is_byte; by rewrite bool_decide_eq_false_2).
  change (b :: k ++ t) with ((b :: k) ++ t). rewrite <- Hb. cbv beta iota zeta.
  rewrite scan_written by done. len_facts.
  rewrite slice_some by (rewrite ?len_app; len_facts; lia). cbn [mbind option_bind].
  rewrite slice_some by (rewrite ?len_app; len_facts; lia). cbn [mbind option_bind].
  rewrite sub_prefix, ztake_app_l, ztake_all by lia.
  replace (sub (len (write_parameter p)) (len (write_parameter p ++ t)) (write_parameter p ++ t)) with t.
  2: { unfold sub. rewrite zdrop_app_r, Z.sub_diag, zdrop_0 by lia. rewrite len_app, ztake_all by lia. done. }
  cbn [andb].
  assert (Hname : forall v, sub 0 (len (name p)) (name p ++ v) = name p)
    by (intros v; by rewrite sub_prefix, ztake_app_l, ztake_all by lia).
  assert (Hdrop : forall v, sub (len (name p) + 1) (len (name p ++ EQUALS :: v)) (name p ++ EQUALS :: v) = v).
  { intros v. unfold sub. rewrite zdrop_app_r by lia. replace (len (name p) + 1 - len (name p)) with 1 by lia.
    change (zdrop 1 (EQUALS :: v)) with v. rewrite len_app, len_cons. apply ztake_all. lia. }
  destruct Hw as [[Hne Hn] Hv]. unfold write_parameter. destruct p as [nm [v|]]; cbn [name value] in *.
  - destruct (existsb is_space v) eqn:Hsp; cbn [app].
    + rewrite (slice_some (len nm + 1)), (slice_some 0 (len nm)) by (rewrite ?len_app, ?len_cons; len_facts; lia).
      rewrite Hdrop, Hname. cbn [mbind option_bind].
      change (strip_prefix [QUOTE] (QUOTE :: v ++ [QUOTE])) with (Some (v ++ [QUOTE])).
      rewrite bool_decide_eq_true_2.
      2: { replace (nm ++ EQUALS :: QUOTE :: v ++ [QUOTE]) with ((nm ++ EQUALS :: QUOTE :: v) ++ [QUOTE])
             by (by rewrite <- app_assoc). apply last_snoc. }
      replace (saturating_sub (len (v ++ [QUOTE])) 1) with (len v)
        by (unfold saturating_sub; rewrite len_app; change (len [QUOTE]) with 1; len_facts; lia).
      rewrite slice_some by (rewrite ?len_app; len_facts; lia).
      by rewrite sub_prefix, ztake_app_l, ztake_all by lia.
    + rewrite (slice_some (len nm + 1)), (slice_some 0 (len nm)) by (rewrite ?len_app, ?len_cons; len_facts; lia).
      rewrite Hdrop, Hname. cbn [mbind option_bind]. rewrite (bool_decide_eq_false_2 _ (last_value _ _ Hv)).
      destruct (strip_prefix [QUOTE] v) as [v'|] eqn:Hsv; [|done]. apply strip_prefix_some in Hsv as ->.
      apply Forall_cons in Hv as [[Hv _] _]. congruence.
  - cbn [mbind option_bind]. rewrite bool_decide_eq_false_2 by done. done.
Qed.

Lemma next_space t : next (SPACE :: t) = next t.
Proof.
  unfold next. replace (skip_spaces (SPACE :: t)) with (skip_spaces t); [done|].
  unfold skip_spaces. cbn [position]. change (negb (is_space SPACE)) with false. cbv iota.
  destruct (position _ t) as [i|] eqn:Hp; cbn [fmap option_fmap option_map].
  - apply position_some in Hp as (k & x & r & _ & -> & _). len_facts.
    unfold zdrop. by replace (Z.to_nat (1 + len k)) with (S (Z.to_nat (len k))) by lia.
  - rewrite len_cons, !zdrop_all by (rewrite ?len_cons; lia). done.
Qed.

Lemma collect_written ps rounds :
  Forall writable ps -> (length ps < rounds)%nat -> collect rounds (write_line ps) = Some ps.
Proof.
  intros Hw. revert rounds. induction Hw as [|p ps Hp Hw IH]; intros rounds Hr.
  { destruct rounds; [lia|]. done. }
  destruct rounds as [|rounds]; [lia|]. cbn [collect].
  destruct ps as [|q ps].
  - cbn [write_line]. rewrite <- (app_nil_r (write_parameter p)), next_written by done.
    cbn [mbind option_bind]. destruct rounds; [cbn in Hr; lia|]. done.
  - change (write_line (p :: q :: ps)) with (write_parameter p ++ SPACE :: write_line (q :: ps)).
    rewrite next_written by done. cbn [mbind option_bind]. destruct rounds as [|rounds]; [cbn in Hr; lia|].
    specialize (IH (S rounds) ltac:(cbn in *; lia)). cbn [collect] in IH |- *. rewrite next_space. by rewrite IH.
Qed.

Lemma write_parameter_clean p : writable p -> Forall (fun b => (byte_val b =? 0) = false) (write_parameter p).
Proof.
  intros [[_ Hn] Hv]. unfold write_parameter.
  assert (H1 : Forall (fun b => (byte_val b =? 0) = false) (name p))
    by (eapply Forall_impl; [exact Hn|]; intros b (_ & _ & _ & ?); by apply Z.eqb_neq).
  destruct (value p) as [v|]; [|done].
  assert (H2 : Forall (fun b => (byte_val b =? 0) = false) v)
    by (eapply Forall_impl; [exact Hv|]; intros b (_ & ?); by apply Z.eqb_neq).
  destruct (existsb is_space v); rewrite !Forall_app; by repeat constructor.
Qed.

Lemma write_line_clean ps : Forall writable ps -> Forall (fun b => (byte_val b =? 0) = false) (write_line ps).
Proof.
  induction 1 as [|p ps Hp _ IH]; [constructor|]. destruct ps as [|q ps]; [by apply write_parameter_clean|].
  change (write_line (p :: q :: ps)) with (write_parameter p ++ SPACE :: write_line (q :: ps)).
  apply Forall_app. split; [by apply write_parameter_clean|by constructor].
Qed.

Lemma write_line_length ps : Forall writable ps -> (length ps <= length (write_line ps))%nat.
Proof.
  induction 1 as [|p ps Hp _ IH]; [done|]. destruct (written_head p Hp) as (b & k & Hb & _).
  destruct ps as [|q ps]; [cbn [write_line]; rewrite Hb; cbn; lia|].
  change (write_line (p :: q :: ps)) with (write_parameter p ++ SPACE :: write_line (q :: ps)).
  rewrite length_app, Hb. cbn [length] in *. lia.
Qed.

Lemma all_parameters_written ps : Forall writable ps -> all_parameters (write_line ps) = Some ps.
Proof.
  intros Hw. unfold all_parameters, parameters.
  rewrite (proj2 (position_none _ _) (write_line_clean ps Hw)), ztake_all by lia.
  apply collect_written; [done|]. pose proof (write_line_length ps Hw). lia.
Qed.

(** A command line reads back as it was written: whatever parameters a caller writes, with spaces
    between them and quotes around a value that holds whitespace, the kernel's rules split the line
    into exactly those names and values, in order. *)
Theorem parameters_roundtrip ps : Forall writable ps -> all_parameters (write_line ps) = Some ps.
Proof. apply all_parameters_written. Qed.

Definition sample_parameters : list KernelParameter :=
  [mkParameter (bytes_of "quiet") None; mkParameter (bytes_of "init") (Some (bytes_of "/bin/sh -c x=1"));
   mkParameter (bytes_of "virtio_mmio.device") (Some (bytes_of "4K@0xd0000000:5")); mkParameter (bytes_of "a") (Some [])].

Lemma parameters_roundtrip_witness :
  all_parameters (write_line sample_parameters) = Some sample_parameters.
Proof. apply parameters_roundtrip. repeat (constructor || discriminate). Defined.

(** ** Writing a device *)

(** A digit, lowercase. *)
Definition digit_byte (d : Z) : byte := byte_of (if d <? 10 then 48 + d else 97 + d - 10).

(** The digits of a number that has at most [rounds] of them. *)
Fixpoint digits (rounds : nat) (radix n : Z) : list byte :=
  match rounds with
  | O => []
  | S rounds => if n <? radix then [digit_byte n] else digits rounds radix (n / radix) ++ [digit_byte (n mod radix)]
  end.

Lemma to_digit_byte radix d : 0 <= d < radix -> radix <= 16 -> to_digit radix (digit_byte d) = Some d.
Proof.
  intros Hd Hr. unfold to_digit, digit_byte. rewrite byte_val_of.
  destruct (Z.ltb_spec d 10).
  - rewrite Z.mod_small by lia. destruct (Z.leb_spec 48 (48 + d)); [|lia]. destruct (Z.leb_spec (48 + d) 57); [|lia].
    cbn [andb]. replace (48 + d - 48) with d by lia. destruct (Z.ltb_spec d radix); [done|lia].
  - rewrite Z.mod_small by lia. destruct (Z.leb_spec (97 + d - 10) 57); [lia|]. rewrite andb_false_r.
    destruct (Z.leb_spec 97 (97 + d - 10)); [|lia]. destruct (Z.leb_spec (97 + d - 10) 122); [|lia].
    cbn [andb]. replace (97 + d - 10 - 97 + 10) with d by lia. destruct (Z.ltb_spec d radix); [done|lia].
Qed.

(** Text at which a number of a radix ends. *)
Definition no_digit (radix : Z) (t : list byte) : Prop :=
  match t with [] => True | b :: _ => to_digit radix b = None end.

Lemma read_digits_stop radix n c t : no_digit radix t -> read_digits radix n c t = (n, c).
Proof. destruct t as [|b t]; [done|]. cbn. by intros ->. Qed.

Lemma read_digits_app rounds radix n c t :
  2 <= radix <= 16 -> 0 <= n < 2 ^ 64 -> n < radix ^ Z.of_nat rounds ->
  read_digits radix 0 c (digits rounds radix n ++ t) = read_digits radix n (c + len (digits rounds radix n)) t.
Proof.
  intros Hr. revert n t. induction rounds as [|rounds IH]; intros n t Hn Hp.
  { change (n < 1) in Hp. assert (n = 0) as -> by lia. cbn [digits app]. f_equal. unfold len. cbn [length]. lia. }
  cbn [digits]. destruct (Z.ltb_spec n radix).
  - cbn [app read_digits]. rewrite to_digit_byte by lia. rewrite Z.mul_0_l, Z.add_0_l.
    by rewrite Z.mod_small by lia.
  - rewrite Nat2Z.inj_succ, Z.pow_succ_r in Hp by lia.
    pose proof (Z.div_mod n radix ltac:(lia)). pose proof (Z.mod_pos_bound n radix ltac:(lia)).
    assert (0 <= n / radix < 2 ^ 64) by (split; [apply Z.div_pos; lia|apply Z.div_lt_upper_bound; nia]).
    rewrite <- app_assoc. cbn [app]. rewrite IH; [|done|apply Z.div_lt_upper_bound; lia].
    cbn [read_digits]. rewrite to_digit_byte by lia.
    rewrite (Z.mod_small (n / radix * radix)) by nia. rewrite Z.mod_small by nia.
    f_equal; [lia|]. rewrite len_app. change (len [digit_byte (n mod radix)]) with 1. lia.
Qed.

Lemma digits_head rounds radix n :
  2 <= radix <= 16 -> 0 <= n -> n < radix ^ Z.of_nat rounds -> (0 < rounds)%nat ->
  exists d ds, digits rounds radix n = digit_byte d :: ds /\ 0 <= d < radix.
Proof.
  intros Hr. revert n. induction rounds as [|rounds IH]; intros n Hn Hp Hk; [lia|].
  cbn [digits]. destruct (Z.ltb_spec n radix); [by exists n, []|].
  rewrite Nat2Z.inj_succ, Z.pow_succ_r in Hp by lia.
  destruct (IH (n / radix)) as (d & ds & -> & Hd); [apply Z.div_pos; lia|apply Z.div_lt_upper_bound; lia| |].
  { destruct rounds; [|lia]. change (radix ^ Z.of_nat 0) with 1 in Hp. lia. }
  cbn [app]. eauto.
Qed.

Definition hex (n : Z) : list byte := bytes_of "0x" ++ digits 16 16 n.
Definition dec (n : Z) : list byte := digits 20 10 n.

Lemma integer_hex n t : 0 <= n < 2 ^ 64 -> no_digit 16 t -> integer (hex n ++ t) 0 = (n, len (hex n)).
Proof.
  intros Hn Ht. unfold integer, hex.
  destruct (digits_head 16 16 n) as (d & ds & Hd & Hr); [lia|lia|exact (proj2 Hn)|lia|].
  assert (Hx : radix_of ((bytes_of "0x" ++ digits 16 16 n) ++ t) 0 = (16, 2)).
  { rewrite Hd. cbn. by rewrite to_digit_byte by lia. }
  rewrite Hx. rewrite <- app_assoc. change (zdrop 2 (bytes_of "0x" ++ digits 16 16 n ++ t)) with (digits 16 16 n ++ t).
  rewrite read_digits_app by (lia || exact (proj2 Hn)). rewrite read_digits_stop by done.
  f_equal. by rewrite len_app.
Qed.

Lemma integer_dec n t : 0 <= n < 2 ^ 64 -> no_digit 10 t -> integer (dec n ++ t) 10 = (n, len (dec n)).
Proof.
  intros Hn Ht. unfold integer, dec. cbn [radix_of Z.eqb negb]. rewrite zdrop_0 by lia.
  rewrite read_digits_app by (try lia). rewrite read_digits_stop by done. reflexivity.
Qed.

(** [SIZE@BASE:IRQ[:ID]], with the addresses in hexadecimal. *)
Definition write_device (d : VirtioMmioDevice) : list byte :=
  hex (size d) ++ bytes_of "@" ++ hex (base d) ++ bytes_of ":" ++ dec (irq d)
  ++ match id d with
     | None => []
     | Some i => bytes_of ":" ++ (if i <? 0 then bytes_of "-" ++ dec (- i) else dec i)
     end.

Record valid_device (d : VirtioMmioDevice) : Prop := {
  vd_size : is_u64 (size d);
  vd_base : is_u64 (base d);
  vd_irq : 1 <= irq d <= U32_MAX;
  vd_id : forall i, id d = Some i -> is_i32 i;
}.

Lemma digit_space d : 0 <= d < 16 -> is_space (digit_byte d) = false /\ digit_byte d <> byte_of 45 /\ value_byte (digit_byte d).
Proof.
  intros Hd.
  assert (H : Forall (fun d => is_space (digit_byte d) = false /\ digit_byte d <> byte_of 45 /\ value_byte (digit_byte d)) (seqZ 0 16))
    by (repeat (constructor; [by repeat split|]); constructor).
  rewrite Forall_forall in H. apply H, elem_of_seqZ. lia.
Qed.

Lemma zdrop_app_exact (w t : list byte) : zdrop (len w) (w ++ t) = t.
Proof. by rewrite zdrop_app_r, Z.sub_diag, zdrop_0 by lia. Qed.

(** An integer whose text starts with a decimal digit. *)
Lemma scan_integer_at b k w t radix s n :
  b :: k = w ++ t -> integer (b :: k) radix = (n, len w) ->
  is_space b = false -> b <> byte_of 45 -> is_some (to_digit 10 b) = true ->
  scan_integer (b :: k) radix s = Some (n, t).
Proof.
  intros Hw Hi Hs Hm Hd. unfold scan_integer. rewrite skip_spaces_none by done.
  destruct (Z.eqb_spec (byte_val b) 45) as [E|_].
  { exfalso. apply Hm, byte_val_inj. by rewrite E. }
  cbn [andb]. rewrite Hd, Hi, Hw. by rewrite zdrop_app_exact.
Qed.

Lemma scan_hex n t s : 0 <= n < 2 ^ 64 -> no_digit 16 t -> scan_integer (hex n ++ t) 0 s = Some (n, t).
Proof.
  intros Hn Ht. pose proof (integer_hex n t Hn Ht) as Hi.
  change (hex n ++ t) with (byte_of 48 :: byte_of 120 :: digits 16 16 n ++ t) in *.
  by apply (scan_integer_at _ _ (hex n)).
Qed.

Lemma scan_dec n t s : 0 <= n < 2 ^ 64 -> no_digit 10 t -> scan_integer (dec n ++ t) 10 s = Some (n, t).
Proof.
  intros Hn Ht. pose proof (integer_dec n t Hn Ht) as Hi.
  destruct (digits_head 20 10 n) as (d & ds & Hd & Hr); [lia|lia|cbn; lia|lia|].
  assert (Hdec : dec n ++ t = digit_byte d :: ds ++ t) by (unfold dec; by rewrite Hd).
  destruct (digit_space d) as (H1 & H2 & _); [lia|].
  rewrite Hdec in *. apply (scan_integer_at _ _ (dec n)); [by rewrite Hdec|done|done|done|].
  by rewrite to_digit_byte by lia.
Qed.

Lemma scan_negative n t : 0 <= n < 2 ^ 64 -> no_digit 10 t ->
  scan_integer (bytes_of "-" ++ dec n ++ t) 10 true = Some ((- n) mod 2 ^ 64, t).
Proof.
  intros Hn Ht. unfold scan_integer. change (bytes_of "-" ++ dec n ++ t) with (byte_of 45 :: dec n ++ t).
  rewrite skip_spaces_none by done. change (byte_val (byte_of 45) =? 45) with true. cbn [andb].
  pose proof (integer_dec n t Hn Ht) as Hi.
  destruct (digits_head 20 10 n) as (d & ds & Hd & Hr); [lia|lia|cbn; lia|lia|].
  assert (Hdec : dec n ++ t = digit_byte d :: ds ++ t) by (unfold dec; by rewrite Hd).
  rewrite Hi. rewrite Hdec at 1. rewrite to_digit_byte by lia. cbn [is_some]. by rewrite zdrop_app_exact.
Qed.

Lemma signed_32 i : is_i32 i -> to_signed 32 (((- - i) mod 2 ^ 64) mod 2 ^ 32) = i.
Proof.
  intros Hi. unfold is_i32 in Hi. unfold to_signed. rewrite Z.opp_involutive.
  change (2 ^ 64) with (2 ^ 32 * 2 ^ 32). change (32 - 1) with 31.
  rewrite Z.rem_mul_r by lia. rewrite Z.mul_comm, Z.mod_add, Z.mod_mod by lia.
  destruct (Z.le_gt_cases 0 i).
  - rewrite Z.mod_small by lia. destruct (Z.ltb_spec i (2 ^ 31)); lia.
  - rewrite <- (Z.mod_add i 1), Z.mod_small by lia. destruct (Z.ltb_spec (i + 1 * 2 ^ 32) (2 ^ 31)); lia.
Qed.

Lemma parse_written_device d : valid_device d -> parse_device (write_device d) = Some d.
Proof.
  intros [Hs Hb Hi Hid]. destruct d as [sz bs ir i]. cbn [size base irq id] in *.
  unfold is_u64, U64_MAX, U32_MAX in *. unfold parse_device, write_device. cbn [size base irq id].
  rewrite integer_hex by (done || lia). cbv beta iota. rewrite zdrop_app_exact.
  match goal with |- context [size_suffix (bytes_of "@" ++ ?x)] =>
    change (size_suffix (bytes_of "@" ++ x)) with (0, bytes_of "@" ++ x) end.
  cbv beta iota.
  rewrite (proj2 (strip_prefix_some _ _ _) eq_refl). cbn [mbind option_bind].
  rewrite scan_hex by (done || lia). cbn [mbind option_bind].
  rewrite (proj2 (strip_prefix_some _ _ _) eq_refl). cbn [mbind option_bind].
  rewrite scan_dec by (lia || by destruct i). cbn [mbind option_bind].
  rewrite Z.shiftl_0_r, (Z.mod_small sz), (Z.mod_small ir) by lia.
  destruct (Z.eqb_spec ir 0); [lia|]. cbn [negb].
  destruct i as [i|]; [|done]. specialize (Hid i eq_refl). pose proof Hid as Hr. unfold is_i32 in Hr.
  match goal with |- context [bytes_of ":" ++ ?x] => change (bytes_of ":" ++ x) with (byte_of 58 :: x) end.
  cbv beta iota. change (byte_val (byte_of 58) =? 58) with true. cbv iota. destruct (Z.ltb_spec i 0).
  - rewrite <- (app_nil_r (dec (- i))), scan_negative by (done || lia). cbn [mbind option_bind option_map].
    by rewrite signed_32.
  - rewrite <- (app_nil_r (dec i)), scan_dec by (done || lia). cbn [mbind option_bind option_map].
    pose proof (signed_32 i Hid) as H32. rewrite Z.opp_involutive, (Z.mod_small i (2 ^ 64)) in H32 by lia.
    by rewrite H32.
Qed.

(** ** A command line of devices *)

Lemma digits_value rounds radix n : 2 <= radix <= 16 -> 0 <= n -> Forall value_byte (digits rounds radix n).
Proof.
  intros Hr. revert n. induction rounds as [|rounds IH]; intros n Hn; [constructor|]. cbn [digits].
  destruct (Z.ltb_spec n radix); [constructor; [apply digit_space; lia|constructor]|].
  apply Forall_app. split; [apply IH, Z.div_pos; lia|].
  pose proof (Z.mod_pos_bound n radix). constructor; [apply digit_space; lia|constructor].
Qed.

Definition device_parameter (d : VirtioMmioDevice) : KernelParameter :=
  mkParameter VIRTIO_MMIO_DEVICE (Some (write_device d)).

Lemma device_writable d : valid_device d -> writable (device_parameter d).
Proof.
  intros [Hs Hb Hi Hid]. unfold is_u64 in *. split; cbn [device_parameter name value].
  - split; [done|]. by repeat constructor.
  - assert (Hhex : forall n, 0 <= n -> Forall value_byte (hex n))
      by (intros n Hn; unfold hex; apply Forall_app; split; [by repeat constructor|by apply digits_value]).
    assert (Hdec : forall n, 0 <= n -> Forall value_byte (dec n)) by (intros n Hn; by apply digits_value).
    unfold write_device. rewrite !Forall_app. split_and!; try (by repeat constructor);
      try (apply Hhex; lia); [apply Hdec; lia|].
    destruct (id d) as [i|]; [|constructor]. apply Forall_app. split; [by repeat constructor|].
    destruct (Z.ltb_spec i 0); [apply Forall_app; split; [by repeat constructor|]|]; apply Hdec; lia.
Qed.

(** The devices that a command line describes are the ones that were written on it: for any list
    of devices, with sizes and bases of 64 bits, interrupts that are not 0, and optional numbers, in
    the driver's text and in order. *)
Theorem virtio_devices_roundtrip ds :
  Forall valid_device ds -> virtio_mmio_devices (write_line (map device_parameter ds)) = Some ds.
Proof.
  intros Hd. unfold virtio_mmio_devices. rewrite all_parameters_written.
  2: { rewrite Forall_map. eapply Forall_impl; [exact Hd|]. apply device_writable. }
  cbn [option_map]. f_equal. induction Hd as [|d ds Hd _ IH]; [done|].
  cbn [map]. rewrite filter_cons_True by (vm_compute; reflexivity).
  cbn [omap list_omap device_parameter value mbind option_bind]. rewrite parse_written_device by done.
  f_equal. exact IH.
Qed.

Definition sample_devices : list VirtioMmioDevice :=
  [mkVirtioMmioDevice 4096 0xd0000000 5 None; mkVirtioMmioDevice 512 0xd0001000 6 (Some (-1))].

Lemma virtio_devices_roundtrip_witness :
  virtio_mmio_devices (bytes_of "virtio_mmio.device=0x1000@0xd0000000:5 virtio_mmio.device=0x200@0xd0001000:6:-1")
  = Some sample_devices.
Proof.
  change (bytes_of _) with (write_line (map device_parameter sample_devices)).
  apply virtio_devices_roundtrip.
  constructor; [|constructor; [|constructor]]; split; try done; cbn; intros i Hi; simplify_eq; done.
Defined.

(** ** Address tokens *)

Section AddressFacts.
Context {A : Type} `{AddressText A}.

(** The values of the tokens with a prefix. *)
Definition prefixed_values (prefix : string) (tokens : list (list byte)) : list (list byte) :=
  omap (strip_prefix (bytes_of prefix)) tokens.

Lemma address_loop_exact prefix family found tokens :
  match prefixed_values prefix tokens, found with
  | [], _ => address_loop prefix family found tokens = Ok found
  | [v], None => match canonical_address v with
                 | Some a => address_loop prefix family None tokens = Ok (Some a)
                 | None => exists e, address_loop prefix family None tokens = Err e
                 end
  | _, _ => exists e, address_loop prefix family found tokens = Err e
  end.
Proof.
  unfold prefixed_values. revert found. induction tokens as [|token tokens IH]; intros found; [done|].
  cbn [omap list_omap address_loop]. destruct (strip_prefix (bytes_of prefix) token) as [v|]; [|apply IH].
  destruct found as [a|]; cbn [is_some].
  { destruct (omap _ tokens); eauto. }
  destruct (canonical_address v) as [a|]; [|destruct (omap _ tokens); eauto].
  specialize (IH (Some a)). destruct (omap _ tokens) as [|w ws]; [done|]. destruct ws; exact IH.
Qed.
End AddressFacts.

(** The reader of an address token accepts a command line exactly when at most one of its tokens
    has the prefix and that one's value is an address's canonical text, and then returns that
    address; it refuses a repeated token and every other spelling. *)
Theorem address_token_exact {A} `{AddressText A} command_line prefix family :
  match prefixed_values prefix (split_on is_ascii_whitespace command_line) with
  | [] => address_token command_line prefix family = Ok None
  | [v] => (forall a, address_token command_line prefix family = Ok (Some a) <->
              is_utf8 v = true /\ from_str v = Some a /\ to_string a = v)
           /\ address_token command_line prefix family <> Ok None
  | _ => exists e, address_token command_line prefix family = Err e
  end.
Proof.
  unfold address_token. pose proof (address_loop_exact prefix family None (split_on is_ascii_whitespace command_line)) as Hl.
  destruct (prefixed_values _ _) as [|v [|w ws]]; [done| |done].
  assert (Hc : forall a, canonical_address v = Some a <-> is_utf8 v = true /\ from_str v = Some a /\ to_string a = v).
  { intros a. unfold canonical_address. destruct (is_utf8 v); [|naive_solver].
    destruct (from_str v) as [b|]; cbn [mbind option_bind]; [|naive_solver].
    destruct (bool_decide_reflect (to_string b = v)); naive_solver. }
  destruct (canonical_address v) as [b|].
  - rewrite Hl. split; [|done]. intros a. rewrite <- Hc. naive_solver.
  - destruct Hl as [e ->]. split; [|done]. intros a. rewrite <- Hc. naive_solver.
Qed.
