(* ===== verification/BootTokens.v ===== *)
(** * Boot tokens (src/nvx-rs/src/protocol/root.rs)

    The tokens through which the host tells the guest of its layered root, with the guest's strict
    parser. It reads each of its tokens once, in any order, as the parser of [Export] does:
    [TokenReader] is that interface, and [read_tokens_exact] is proved of every instance. *)

From S2P Require Import Prelude Uuid Cmdline.

(** ** Readers of tokens that come once each *)

#[export] Instance Token_eq_dec : EqDecision Token.
Proof. solve_decision. Defined.

(** A reader's state, what a token does to it, and the tokens that make it up. *)
Class TokenReader (St : Type) := {
  step : St -> Token -> result ProtocolError St;
  own : Token -> bool;
  tokens_of : St -> list Token;
  valid : St -> Prop;
}.

(** What a reader promises: foreign tokens pass, an own token adds itself or is refused, and is refused
    only if no state is made up of it and what came before. *)
Class TokenReaderLaws (St : Type) `{TokenReader St} := {
  step_foreign : forall st t, own t = false -> step st t = Ok st;
  step_valid : forall st t st', valid st -> step st t = Ok st' -> valid st';
  step_adds : forall st t st', own t = true -> valid st -> step st t = Ok st' -> tokens_of st' ≡ₚ t :: tokens_of st;
  step_takes : forall st t st' more, own t = true -> valid st -> valid st' ->
    tokens_of st' ≡ₚ t :: tokens_of st ++ more -> exists st1, step st t = Ok st1;
  tokens_inj : forall st st', valid st -> valid st' -> tokens_of st ≡ₚ tokens_of st' -> st = st';
}.

(** The loop over the tokens. *)
Fixpoint read_tokens {St} `{TokenReader St} (st : St) (tokens : list Token) : result ProtocolError St :=
  match tokens with
  | [] => Ok st
  | t :: tokens => st ← step st t; read_tokens st tokens
  end.

Lemma read_tokens_exact {St} `{TokenReaderLaws St} st st' tokens :
  valid st -> valid st' ->
  read_tokens st tokens = Ok st' <-> tokens_of st' ≡ₚ tokens_of st ++ filter (fun t => own t = true) tokens.
Proof.
  revert st. induction tokens as [|t tokens IH]; intros st Hst Hst'; cbn [read_tokens].
  { rewrite filter_nil, app_nil_r. split; [intros; by simplify_eq|].
    intros Hp. f_equal. by apply tokens_inj. }
  destruct (own t) eqn:Ho.
  - rewrite filter_cons_True by done. split.
    + destruct (step st t) as [st1|] eqn:Hs; [|done]. cbn [mbind result_bind]. intros Hr.
      pose proof (step_valid _ _ _ Hst Hs). apply IH in Hr; [|done..].
      rewrite Hr, (step_adds _ _ _ Ho Hst Hs). cbn [app]. by rewrite Permutation_middle.
    + intros Hp. rewrite <- Permutation_middle in Hp.
      destruct (step_takes _ _ _ _ Ho Hst Hst' Hp) as [st1 Hs]. rewrite Hs. cbn [mbind result_bind].
      apply IH; [exact (step_valid _ _ _ Hst Hs)|done|]. rewrite (step_adds _ _ _ Ho Hst Hs). exact Hp.
  - rewrite filter_cons_False by (by rewrite Ho). rewrite step_foreign by done. cbn [mbind result_bind]. by apply IH.
Qed.

Lemma read_tokens_valid {St} `{TokenReaderLaws St} st st' tokens :
  valid st -> read_tokens st tokens = Ok st' -> valid st'.
Proof.
  revert st. induction tokens as [|t tokens IH]; intros st Hst; cbn [read_tokens]; [intros; by simplify_eq|].
  destruct (step st t) as [st1|] eqn:Hs; [|done]. cbn [mbind result_bind]. apply IH. exact (step_valid _ _ _ Hst Hs).
Qed.

(** The tokens of a reader, among others. *)
Definition own_tokens (St : Type) `{TokenReader St} (l : list Token) : list Token :=
  filter (fun t => own t = true) l.

(** A whole command line, from a state without tokens. *)
Lemma read_all {St} `{TokenReaderLaws St} st0 l st :
  valid st0 -> tokens_of st0 = [] ->
  read_tokens st0 l = Ok st <-> valid st /\ own_tokens St l ≡ₚ tokens_of st.
Proof.
  intros Hv0 He. split.
  - intros Hr. pose proof (read_tokens_valid _ _ _ Hv0 Hr) as Hv. split; [done|].
    apply read_tokens_exact in Hr; [|done..]. rewrite He in Hr. by symmetry.
  - intros [Hv Hp]. apply read_tokens_exact; [done..|]. rewrite He. by symmetry.
Qed.

(** The value of the token of a name. *)
Definition value_of (n : list byte) (l : list Token) : option (option (list byte)) :=
  option_map t_value (find (fun t => bool_decide (t_name t = n)) l).

Lemma value_of_some n l v : NoDup (map t_name l) ->
  value_of n l = Some v <-> {| t_name := n; t_value := v |} ∈ l.
Proof.
  unfold value_of. induction l as [|[m w] l IH]; intros Hd; cbn [find map t_name] in *.
  { split; [done|]. by intros ?%elem_of_nil. }
  apply NoDup_cons in Hd as [Hm Hd]. rewrite elem_of_cons. case_bool_decide as Hn.
  - subst m. cbn [option_map t_value]. split; [intros [= ->]; by left|]. intros [[= ->]|Hin]; [done|].
    destruct Hm. apply list_elem_of_fmap. by exists {| t_name := n; t_value := v |}.
  - rewrite IH by done. split; [by right|]. by intros [[= ? ?]|?].
Qed.

Lemma value_of_perm n l k : NoDup (map t_name l) -> l ≡ₚ k -> value_of n l = value_of n k.
Proof.
  intros Hd Hp. assert (Hk : NoDup (map t_name k)) by (by rewrite <- Hp).
  apply option_eq. intros v. rewrite !value_of_some by done. by rewrite Hp.
Qed.

(** A token that comes beside those of a state is not of a name that the state has. *)
Lemma free_name l k t more :
  NoDup (map t_name l) -> l ≡ₚ t :: k ++ more -> t ∈ l /\ value_of (t_name t) k = None.
Proof.
  intros Hd Hp. split; [rewrite Hp; constructor|].
  rewrite Hp in Hd. cbn [map] in Hd. apply NoDup_cons in Hd as [Hn Hd].
  rewrite map_app in Hd. apply NoDup_app in Hd as (Hk & _ & _).
  destruct (value_of (t_name t) k) as [v|] eqn:Hv; [|done]. apply value_of_some in Hv; [|done].
  destruct Hn. apply list_elem_of_fmap. exists {| t_name := t_name t; t_value := v |}. split; [done|].
  apply elem_of_app. by left.
Qed.

(** ** [root.rs] *)

Definition DISTRO_MMIO_BASE : Z := 0xd0003000.
Definition SCRATCH_MMIO_BASE : Z := 0xd0006000.
Definition LAYER_TOKEN : list byte := bytes_of "nvx_layer=".
Definition SCRATCH_TOKEN : list byte := bytes_of "nvx_scratch=".
Definition RAM_UPPER_TOKEN : list byte := bytes_of "nvx_overlay_upper=ramfs".
Definition LAYER : list byte := bytes_of "nvx_layer".
Definition SCRATCH : list byte := bytes_of "nvx_scratch".
Definition OVERLAY_UPPER : list byte := bytes_of "nvx_overlay_upper".
Definition RAM_UPPER : list byte := bytes_of "ramfs".
Definition DISTRO_ROLE : list byte := bytes_of "distro".
Definition SCRATCH_FILESYSTEM : list byte := bytes_of "ext4".

Inductive ImageFormat : Type := Erofs | Gpt.

#[export] Instance ImageFormat_eq_dec : EqDecision ImageFormat.
Proof. solve_decision. Defined.

Definition format_as_str (self : ImageFormat) : list byte :=
  match self with Erofs => bytes_of "erofs" | Gpt => bytes_of "gpt" end.

Definition format_from_name (name : list byte) : option ImageFormat :=
  if bool_decide (format_as_str Erofs = name) then Some Erofs
  else if bool_decide (format_as_str Gpt = name) then Some Gpt
  else None.

Definition identity_name (self : ImageFormat) : string :=
  match self with Erofs => "EROFS filesystem UUID" | Gpt => "GPT disk GUID" end.

Record RootImage := mkRootImage {
  format : ImageFormat;
  identity : option Uuid;
}.

Inductive RootUpper : Type := Scratch | Ram.

#[export] Instance RootUpper_eq_dec : EqDecision RootUpper.
Proof. solve_decision. Defined.

Record RootLayout := mkRootLayout {
  image : RootImage;
  upper : RootUpper;
}.

Definition COMMA : byte := byte_of 44.
Definition COLON : byte := byte_of 58.

(** The text of an image after [nvx_layer=], and that of the scratch device after [nvx_scratch=]. *)
Definition image_value (i : RootImage) : list byte :=
  DISTRO_ROLE ++ [COMMA] ++ hex DISTRO_MMIO_BASE ++ [COMMA] ++ format_as_str (format i)
  ++ match identity i with Some u => COLON :: display u | None => [] end.

Definition scratch_value : list byte := hex SCRATCH_MMIO_BASE ++ [COMMA] ++ SCRATCH_FILESYSTEM.

(** [RootLayout::tokens]. *)
Definition tokens (self : RootLayout) : list (list byte) :=
  [LAYER_TOKEN ++ image_value (image self);
   match upper self with
   | Scratch => SCRATCH_TOKEN ++ scratch_value
   | Ram => RAM_UPPER_TOKEN
   end].

Definition parse_image (value : list byte) : result ProtocolError RootImage :=
  match split_on (is_byte COMMA) value with
  | [role; address; image] =>
      if negb (bool_decide (role = DISTRO_ROLE)) then
        Err [Text "the nvx_layer kernel parameter names the block device '"; EscapeAscii role;
             Text "', but a layered root has only the distro one"]
      else if negb (bool_decide (address = hex DISTRO_MMIO_BASE)) then
        Err [Text "the nvx_layer kernel parameter places the distro block device at '"; EscapeAscii address;
             Text "', not at 0xd0003000"]
      else
        let '(format, identity) := match position (is_byte COLON) image with
                                   | Some colon => (ztake colon image, Some (zdrop (colon + 1) image))
                                   | None => (image, None)
                                   end in
        match format_from_name format with
        | None =>
            if bool_decide (format = []) || is_some (Uuid.parse format) then
              Err [Text "the nvx_layer kernel parameter names no image format, erofs or gpt: '"; EscapeAscii value; Text "'"]
            else Err [Text "the nvx_layer kernel parameter names the unsupported image format '"; EscapeAscii format; Text "'"]
        | Some format =>
            match identity with
            | None => Ok (mkRootImage format None)
            | Some text =>
                u ← ok_or (Uuid.parse text)
                      [Text "the nvx_layer kernel parameter names an invalid "; Text (identity_name format);
                       Text ": '"; EscapeAscii text; Text "'"];
                Ok (mkRootImage format (Some u))
            end
        end
  | _ => Err [Text "the nvx_layer kernel parameter must be distro,0xd0003000,FORMAT[:IDENTITY], not '";
              EscapeAscii value; Text "'"]
  end.

(** What the loop of [RootLayout::parse] has read. *)
Record RootState := mkRootState {
  r_image : option RootImage;
  r_scratch : bool;
  r_ram : bool;
}.

(** The parameter of the three that a token names. *)
Definition root_parameter (name : list byte) : option (list byte) :=
  find (fun parameter => bool_decide (parameter = name)) [LAYER; SCRATCH; OVERLAY_UPPER].

(** The loop's body. *)
Definition root_step (self : RootState) (token : Token) : result ProtocolError RootState :=
  match root_parameter (t_name token) with
  | None => Ok self
  | Some parameter =>
      match t_value token with
      | None => Err [Text "the "; Text (String.string_of_list_byte parameter); Text " kernel parameter has no value"]
      | Some value =>
          let seen := if bool_decide (parameter = LAYER) then is_some (r_image self)
                      else if bool_decide (parameter = SCRATCH) then r_scratch self
                      else r_ram self in
          if seen then Err [Text "the "; Text (String.string_of_list_byte parameter); Text " kernel parameter is repeated"]
          else if bool_decide (parameter = LAYER) then
            i ← parse_image value;
            Ok (mkRootState (Some i) (r_scratch self) (r_ram self))
          else if bool_decide (parameter = SCRATCH) then
            if negb (bool_decide (value = scratch_value)) then
              Err [Text "the nvx_scratch kernel parameter must be 0xd0006000,ext4, not '"; EscapeAscii value; Text "'"]
            else Ok (mkRootState (r_image self) true (r_ram self))
          else
            if negb (bool_decide (value = RAM_UPPER)) then
              Err [Text "the nvx_overlay_upper kernel parameter must be ramfs, not '"; EscapeAscii value; Text "'"]
            else Ok (mkRootState (r_image self) (r_scratch self) true)
      end
  end.

(** A device at the scratch base; [None] if the reading of the parameters panicked, which it never
    does. *)
Definition adds_scratch_device (command_line : list byte) : option bool :=
  option_map (existsb (fun device => base device =? SCRATCH_MMIO_BASE)) (virtio_mmio_devices command_line).

(** The tokens of an image and of the uppers. *)
Definition layer_token (i : RootImage) : Token := {| t_name := LAYER; t_value := Some (image_value i) |}.
Definition scratch_token : Token := {| t_name := SCRATCH; t_value := Some scratch_value |}.
Definition ram_token : Token := {| t_name := OVERLAY_UPPER; t_value := Some RAM_UPPER |}.

#[export] Instance root_reader : TokenReader RootState := {|
  step := root_step;
  own t := is_some (root_parameter (t_name t));
  tokens_of st :=
    match r_image st with Some i => [layer_token i] | None => [] end
    ++ (if r_scratch st then [scratch_token] else []) ++ (if r_ram st then [ram_token] else []);
  valid st := forall i u, r_image st = Some i -> identity i = Some u -> is_uuid u;
|}.

Definition parse_layout (command_line : list byte) : result ProtocolError (option RootLayout) :=
  st ← read_tokens (mkRootState None false false) (init_tokens command_line);
  upper ← match r_scratch st, r_ram st with
          | true, true => Err (violation "a layered root has one upper, but the command line names both nvx_scratch and nvx_overlay_upper")
          | false, true =>
              if bool_decide (adds_scratch_device command_line = Some true) then
                Err (violation "a RAM upper takes no scratch block device, but the command line adds a virtio-mmio device at 0xd0006000")
              else Ok (Some Ram)
          | true, false => Ok (Some Scratch)
          | false, false => Ok None
          end;
  match r_image st, upper with
  | Some image, Some upper => Ok (Some (mkRootLayout image upper))
  | None, None => Ok None
  | Some _, None => Err (violation "the nvx_layer kernel parameter needs an upper, nvx_scratch or nvx_overlay_upper")
  | None, Some Scratch => Err (violation "the nvx_scratch kernel parameter needs an image, which nvx_layer names")
  | None, Some Ram => Err (violation "the nvx_overlay_upper kernel parameter needs an image, which nvx_layer names")
  end.

(** *** The image's text *)

(** Pieces, with a separator between them. *)
Fixpoint join_with (c : byte) (pieces : list (list byte)) : list byte :=
  match pieces with
  | [] => []
  | [piece] => piece
  | piece :: pieces => piece ++ c :: join_with c pieces
  end.

Lemma join_split c l : join_with c (split_on (is_byte c) l) = l.
Proof.
  induction l as [|x l IH]; [done|]. cbn [split_on]. destruct (split_on_cons (is_byte c) l) as (p & ps & Hs).
  rewrite Hs in *. destruct (is_byte c x) eqn:Hx.
  - apply bool_decide_eq_true in Hx. subst x.
    change (join_with c ([] :: p :: ps)) with (c :: join_with c (p :: ps)). by rewrite IH.
  - destruct ps; cbn [join_with app] in *; by rewrite IH.
Qed.

Lemma is_byte_false c b : is_byte c b = false <-> b <> c.
Proof. unfold is_byte. by rewrite bool_decide_eq_false. Qed.

Lemma display_bytes u : Forall (fun b => b <> COMMA /\ is_ifs b = false) (display u).
Proof.
  unfold display. generalize 0. induction (uuid_bytes u) as [|b l IH]; intros n; cbn [display_from]; [constructor|].
  rewrite !Forall_app. split_and!; [|by destruct b; repeat constructor|apply IH].
  destruct (bool_decide _); by repeat constructor.
Qed.

Lemma format_from_name_exact name f : format_from_name name = Some f <-> name = format_as_str f.
Proof.
  unfold format_from_name.
  destruct (bool_decide_reflect (format_as_str Erofs = name)) as [<-|H1]; [by destruct f|].
  destruct (bool_decide_reflect (format_as_str Gpt = name)) as [<-|H2]; [by destruct f|].
  split; [done|]. intros ->. by destruct f.
Qed.

Definition valid_image (i : RootImage) : Prop := forall u, identity i = Some u -> is_uuid u.

Lemma parse_image_exact v i : parse_image v = Ok i <-> v = image_value i /\ valid_image i.
Proof.
  unfold parse_image. split.
  - pose proof (join_split COMMA v) as Hj. destruct (split_on (is_byte COMMA) v) as [|role [|address [|image [|]]]]; try done.
    cbn [join_with] in Hj.
    destruct (bool_decide_reflect (role = DISTRO_ROLE)) as [->|]; [|done]. cbn [negb].
    destruct (bool_decide_reflect (address = hex DISTRO_MMIO_BASE)) as [->|]; [|done]. cbn [negb].
    destruct (position (is_byte COLON) image) as [at_|] eqn:Hp.
    + apply position_some in Hp as (k & x & r & -> & -> & Hx & Hk). apply bool_decide_eq_true in Hx. subst x.
      rewrite ztake_app_l, ztake_all, zdrop_app_r by lia. replace (len k + 1 - len k) with 1 by lia.
      change (zdrop 1 (COLON :: r)) with r.
      destruct (format_from_name k) as [f|] eqn:Hf; [|destruct (_ || _); done]. apply format_from_name_exact in Hf as ->.
      destruct (Uuid.parse r) as [u|] eqn:Hu; [|done]. cbn [ok_or mbind result_bind]. intros [= <-].
      apply parse_exact in Hu as [Hu ->]. split; [|by intros ? [= <-]]. rewrite <- Hj. done.
    + destruct (format_from_name image) as [f|] eqn:Hf; [|destruct (_ || _); done].
      apply format_from_name_exact in Hf as ->. intros [= <-]. split; [|done]. rewrite <- Hj.
      unfold image_value. cbn [format identity]. by rewrite app_nil_r.
  - intros [-> Hv]. unfold image_value.
    set (text := match identity i with Some u => COLON :: display u | None => [] end).
    assert (Hsplit : split_on (is_byte COMMA) (DISTRO_ROLE ++ [COMMA] ++ hex DISTRO_MMIO_BASE ++ [COMMA]
        ++ format_as_str (format i) ++ text) = [DISTRO_ROLE; hex DISTRO_MMIO_BASE; format_as_str (format i) ++ text]).
    { cbn [app]. rewrite split_on_app; [|by repeat constructor|done]. rewrite split_on_app; [|by repeat constructor|done].
      rewrite split_on_end; [done|]. apply Forall_app. split; [by destruct (format i); repeat constructor|].
      subst text. destruct (identity i) as [u|]; [|constructor]. constructor; [done|].
      eapply Forall_impl; [apply display_bytes|]. intros b [Hb _]. by apply is_byte_false. }
    rewrite Hsplit. rewrite !bool_decide_eq_true_2 by done. cbn [negb].
    assert (Hno : Forall (fun b => is_byte COLON b = false) (format_as_str (format i)))
      by (by destruct (format i); repeat constructor).
    subst text. destruct i as [f [u|]]; cbn [format identity] in *.
    + rewrite (proj2 (position_some (is_byte COLON) _ (len (format_as_str f))))
        by (by exists (format_as_str f), COLON, (display u)).
      rewrite ztake_app_l, ztake_all, zdrop_app_r by lia.
      replace (len (format_as_str f) + 1 - len (format_as_str f)) with 1 by lia.
      change (zdrop 1 (COLON :: display u)) with (display u).
      rewrite (proj2 (format_from_name_exact _ f) eq_refl).
      by rewrite (proj2 (parse_exact (display u) u) (conj (Hv u eq_refl) eq_refl)).
    + rewrite app_nil_r. rewrite (proj2 (position_none _ _) Hno).
      by rewrite (proj2 (format_from_name_exact _ f) eq_refl).
Qed.

Lemma image_value_inj i j : valid_image i -> valid_image j -> image_value i = image_value j -> i = j.
Proof.
  intros Hi Hj He. pose proof (proj2 (parse_image_exact _ i) (conj eq_refl Hi)) as H1.
  rewrite He, (proj2 (parse_image_exact _ j) (conj eq_refl Hj)) in H1. by apply ok_inj in H1.
Qed.

(** *** The reader of a layered root's tokens *)

Lemma root_parameter_some n p : root_parameter n = Some p -> p = n /\ (n = LAYER \/ n = SCRATCH \/ n = OVERLAY_UPPER).
Proof.
  unfold root_parameter. cbn [find].
  destruct (bool_decide_reflect (LAYER = n)); [intros; simplify_eq; auto|].
  destruct (bool_decide_reflect (SCRATCH = n)); [intros; simplify_eq; auto|].
  destruct (bool_decide_reflect (OVERLAY_UPPER = n)); [intros; simplify_eq; auto|done].
Qed.

Lemma in_root_tokens (st : RootState) t :
  t ∈ tokens_of st <->
  (exists i, r_image st = Some i /\ t = layer_token i) \/ (r_scratch st = true /\ t = scratch_token)
  \/ (r_ram st = true /\ t = ram_token).
Proof.
  destruct st as [im s r]. cbn [tokens_of root_reader r_image r_scratch r_ram]. rewrite !elem_of_app.
  destruct im as [i|], s, r; rewrite ?list_elem_of_singleton, ?elem_of_nil; naive_solver.
Qed.

Lemma root_tokens_names (st : RootState) : NoDup (map t_name (tokens_of st)).
Proof. destruct st as [[i|] [|] [|]]; apply (bool_decide_unpack _); vm_compute; exact I. Qed.

Lemma root_values (st : RootState) :
  value_of LAYER (tokens_of st) = option_map (fun i => Some (image_value i)) (r_image st)
  /\ value_of SCRATCH (tokens_of st) = (if r_scratch st then Some (Some scratch_value) else None)
  /\ value_of OVERLAY_UPPER (tokens_of st) = (if r_ram st then Some (Some RAM_UPPER) else None).
Proof. destruct st as [[i|] [|] [|]]; repeat split; reflexivity. Qed.

(** What each own token does. *)
Lemma root_step_own st n v st' :
  n = LAYER \/ n = SCRATCH \/ n = OVERLAY_UPPER ->
  root_step st {| t_name := n; t_value := v |} = Ok st' <->
  exists t, v = Some t /\
    ((n = LAYER /\ r_image st = None /\ exists i, parse_image t = Ok i /\ st' = mkRootState (Some i) (r_scratch st) (r_ram st))
     \/ (n = SCRATCH /\ r_scratch st = false /\ t = scratch_value /\ st' = mkRootState (r_image st) true (r_ram st))
     \/ (n = OVERLAY_UPPER /\ r_ram st = false /\ t = RAM_UPPER /\ st' = mkRootState (r_image st) (r_scratch st) true)).
Proof.
  assert (H1 : SCRATCH <> LAYER) by done. assert (H2 : OVERLAY_UPPER <> LAYER) by done.
  assert (H3 : OVERLAY_UPPER <> SCRATCH) by done.
  intros Hn. unfold root_step. cbn [t_name t_value].
  replace (root_parameter n) with (Some n) by (by destruct Hn as [->|[->| ->]]).
  destruct v as [t|]; [|split; [done|]; by intros (t & ? & _)]. split.
  - intros H. exists t. split; [done|]. destruct Hn as [->|[->| ->]].
    + rewrite (bool_decide_eq_true_2 (LAYER = LAYER)) in H by done. left.
      destruct (r_image st); [done|]. cbn [is_some] in H.
      destruct (parse_image t) as [i|]; [|done]. cbn [mbind result_bind] in H. apply ok_inj in H. eauto.
    + rewrite (bool_decide_eq_false_2 _ H1), (bool_decide_eq_true_2 (SCRATCH = SCRATCH)) in H by done. right. left.
      destruct (r_scratch st); [done|]. destruct (bool_decide_reflect (t = scratch_value)); [|done].
      apply ok_inj in H. auto.
    + rewrite (bool_decide_eq_false_2 _ H2), (bool_decide_eq_false_2 _ H3) in H. right. right.
      destruct (r_ram st); [done|]. destruct (bool_decide_reflect (t = RAM_UPPER)); [|done].
      apply ok_inj in H. auto.
  - intros (t' & [= <-] & Hs).
    destruct Hs as [(-> & Hf & i & Hi & ->)|[(-> & Hf & -> & ->)|(-> & Hf & -> & ->)]].
    + rewrite (bool_decide_eq_true_2 (LAYER = LAYER)) by done. by rewrite Hf, Hi.
    + rewrite (bool_decide_eq_false_2 _ H1), (bool_decide_eq_true_2 (SCRATCH = SCRATCH)) by done.
      by rewrite Hf, bool_decide_eq_true_2.
    + rewrite (bool_decide_eq_false_2 _ H2), (bool_decide_eq_false_2 _ H3). by rewrite Hf, bool_decide_eq_true_2.
Qed.

Lemma root_step_takes (st : RootState) t st' more : own (St := RootState) t = true -> valid st -> valid st' ->
  tokens_of st' ≡ₚ t :: tokens_of st ++ more -> exists st1, step st t = Ok st1.
Proof.
  intros Ho Hv Hv' Hp. destruct (free_name _ _ _ _ (root_tokens_names st') Hp) as [Hin Hfree].
  destruct (root_values st) as (Hl & Hs & Hr). cbn [step root_reader].
  apply in_root_tokens in Hin as [(i & Hi & ->)|[[_ ->]|[_ ->]]]; cbn [t_name layer_token scratch_token ram_token] in Hfree.
  - rewrite Hl in Hfree. eexists. apply root_step_own; [by left|]. eexists. split; [done|]. left. split; [done|].
    split; [by destruct (r_image st)|exists i; split; [|reflexivity]].
    apply parse_image_exact. split; [done|]. intros u. by apply Hv'.
  - rewrite Hs in Hfree. eexists. apply root_step_own; [by right; left|]. eexists. split; [done|]. right. left.
    split; [done|]. split; [by destruct (r_scratch st)|split; reflexivity].
  - rewrite Hr in Hfree. eexists. apply root_step_own; [by right; right|]. eexists. split; [done|]. right. right.
    split; [done|]. split; [by destruct (r_ram st)|split; reflexivity].
Qed.

Lemma root_tokens_inj (st st' : RootState) : valid st -> valid st' -> tokens_of st ≡ₚ tokens_of st' -> st = st'.
Proof.
  intros Hv Hv' Hp.
  pose proof (fun n => value_of_perm n _ _ (root_tokens_names st) Hp) as He.
  destruct (root_values st) as (Hl & Hs & Hr), (root_values st') as (Hl' & Hs' & Hr').
  pose proof (He LAYER) as E1. pose proof (He SCRATCH) as E2. pose proof (He OVERLAY_UPPER) as E3.
  rewrite Hl, Hl' in E1. rewrite Hs, Hs' in E2. rewrite Hr, Hr' in E3. clear Hl Hs Hr Hl' Hs' Hr' He Hp.
  cbn [valid root_reader] in Hv, Hv'. destruct st as [im s r], st' as [im' s' r']. cbn [r_image r_scratch r_ram] in *.
  f_equal; [|by destruct s, s'|by destruct r, r'].
  destruct im as [i|], im' as [j|]; try done. f_equal.
  assert (Ht : image_value i = image_value j) by (cbn [option_map] in E1; congruence).
  apply image_value_inj; [intros u; by apply Hv|intros u; by apply Hv'|done].
Qed.

#[export] Instance root_reader_laws : TokenReaderLaws RootState.
Proof.
  split.
  - intros st t Ho. cbn [step own root_reader] in *. unfold root_step. by destruct (root_parameter (t_name t)).
  - intros st [n v] st' Hv Hs. cbn [step valid root_reader] in *.
    destruct (root_parameter n) as [p|] eqn:Hp; [|unfold root_step in Hs; cbn [t_name] in Hs; rewrite Hp in Hs; by injection Hs as <-].
    apply root_parameter_some in Hp as [_ Hn]. apply root_step_own in Hs as (t & -> & Hs); [|done].
    destruct Hs as [(_ & _ & i & Hi & ->)|[(_ & _ & _ & ->)|(_ & _ & _ & ->)]]; [|exact Hv|exact Hv].
    apply parse_image_exact in Hi as [_ Hi]. cbn [r_image]. intros j u [= <-]. apply Hi.
  - intros st [n v] st' Ho Hv Hs. cbn [step own tokens_of root_reader t_name] in *.
    destruct (root_parameter n) as [p|] eqn:Hp; [|done].
    apply root_parameter_some in Hp as [_ Hn]. apply root_step_own in Hs as (t & -> & Hs); [|done].
    destruct Hs as [(-> & Hf & i & Hi & ->)|[(-> & Hf & -> & ->)|(-> & Hf & -> & ->)]];
      cbn [r_image r_scratch r_ram]; rewrite Hf.
    + apply parse_image_exact in Hi as [-> _]. reflexivity.
    + cbn [app]. by rewrite <- Permutation_middle.
    + by rewrite app_nil_r, app_assoc, Permutation_app_comm.
  - apply root_step_takes.
  - apply root_tokens_inj.
Qed.

(** The tokens of a command line that describe a layered root. *)
Definition root_tokens (command_line : list byte) : list Token :=
  own_tokens RootState (init_tokens command_line).

Lemma token_of_app n v : Forall (fun b => is_byte EQUALS b = false) n ->
  token_of (n ++ EQUALS :: v) = {| t_name := n; t_value := Some v |}.
Proof.
  intros Hn. unfold token_of. rewrite (proj2 (position_some (is_byte EQUALS) _ (len n))) by (by exists n, EQUALS, v).
  rewrite ztake_app_l, ztake_all, zdrop_app_r by lia. by replace (len n + 1 - len n) with 1 by lia.
Qed.

Lemma layout_tokens l :
  map token_of (tokens l) = [layer_token (image l); match upper l with Scratch => scratch_token | Ram => ram_token end].
Proof.
  assert (H : token_of (LAYER_TOKEN ++ image_value (image l)) = layer_token (image l)).
  { change (LAYER_TOKEN ++ image_value (image l)) with (LAYER ++ EQUALS :: image_value (image l)).
    apply token_of_app. by repeat constructor. }
  unfold tokens. cbn [map]. rewrite H. by destruct (upper l).
Qed.

(** What the loop reads of a whole command line. *)
Lemma root_read command_line st :
  read_tokens (mkRootState None false false) (init_tokens command_line) = Ok st <->
  valid st /\ root_tokens command_line ≡ₚ tokens_of st.
Proof. by apply read_all. Qed.

Definition layout_state (l : RootLayout) : RootState :=
  mkRootState (Some (image l)) (bool_decide (upper l = Scratch)) (bool_decide (upper l = Ram)).

Lemma layout_state_tokens l : tokens_of (layout_state l) = map token_of (tokens l).
Proof. rewrite layout_tokens. destruct l as [i [|]]; reflexivity. Qed.

(** The end of [parse_layout], after the loop. *)
Lemma parse_layout_loop command_line r :
  parse_layout command_line = Ok r <->
  exists st, read_tokens (mkRootState None false false) (init_tokens command_line) = Ok st /\
    match r with
    | Some l => st = layout_state l /\ (upper l = Ram -> adds_scratch_device command_line <> Some true)
    | None => st = mkRootState None false false
    end.
Proof.
  unfold parse_layout.
  destruct (read_tokens _ _) as [st|]; cbn [mbind result_bind]; [|split; [done|by intros (? & ? & _)]].
  transitivity (match r with
    | Some l => st = layout_state l /\ (upper l = Ram -> adds_scratch_device command_line <> Some true)
    | None => st = mkRootState None false false
    end); [|split; [by eauto|intros (st' & Hs & Hr); by apply ok_inj in Hs as ->]].
  destruct (bool_decide_reflect (adds_scratch_device command_line = Some true)) as [Ha|Ha];
    destruct st as [[i|] [|] [|]], r as [[j [|]]|]; cbn [r_image r_scratch r_ram mbind result_bind]; unfold layout_state;
    cbn [image upper]; (split; [intros H; simplify_eq; auto|intros; destruct_and?; simplify_eq; tauto]).
Qed.

(** The guest reads a layered root from a command line exactly when the host wrote one on it: among
    whatever other tokens, in any order, the command line has each of the layout's tokens once and no
    other spelling of them, and no scratch device beside a RAM upper; and it reads none exactly when
    no such token is there. Every other command line is refused. *)
Theorem root_layout_exact command_line :
  (forall l, parse_layout command_line = Ok (Some l) <->
     valid_image (image l) /\ root_tokens command_line ≡ₚ map token_of (tokens l)
     /\ (upper l = Ram -> adds_scratch_device command_line <> Some true))
  /\ (parse_layout command_line = Ok None <-> root_tokens command_line = []).
Proof.
  split; [intros l|]; rewrite parse_layout_loop; setoid_rewrite root_read.
  - split.
    + intros (st & [Hv Hp] & -> & Ha). rewrite layout_state_tokens in Hp.
      split; [|done]. intros u. by apply Hv.
    + intros (Hv & Hp & Ha). exists (layout_state l). rewrite layout_state_tokens.
      split; [|done]. split; [|done]. intros i u [= <-]. apply Hv.
  - split.
    + intros (st & [_ Hp] & ->). by apply Permutation_nil_r in Hp.
    + intros ->. by exists (mkRootState None false false).
Qed.
