(* ===== verification/Export.v ===== *)
(** * Host export, mapping count, share targets and statuses (src/nvx-rs/src/protocol/export.rs,
    boot.rs, share.rs and status.rs)

    The tokens of the aggregate virtio-fs export, read through the interface of [BootTokens], the
    [nvx_maps=] token, the guest targets that shares may not take, and the exit statuses of clones. *)

From S2P Require Import Prelude Cmdline BootTokens Maps.

(** ** [export.rs] *)

Definition EXPORT_DIRECTORY : list byte := bytes_of "/run/nvx/hostfs/root".
Definition DIRECTORY : list byte := bytes_of "virtfs_dir".
Definition TAG : list byte := bytes_of "virtfs_tag".
Definition MODE : list byte := bytes_of "virtfs_mode".
Definition AGGREGATE : list byte := bytes_of "virtfs_aggregate".
Definition AGGREGATE_VALUE : list byte := bytes_of "1".
Definition SHARE : list byte := bytes_of "nvx_share".
Definition PARAMETERS : list (list byte) := [DIRECTORY; TAG; MODE; AGGREGATE].

Inductive ExportMode : Type := ReadOnly | ReadWrite.

#[export] Instance ExportMode_eq_dec : EqDecision ExportMode.
Proof. solve_decision. Defined.

Definition mode_as_str (self : ExportMode) : list byte :=
  match self with ReadOnly => bytes_of "ro" | ReadWrite => bytes_of "rw" end.

Definition mode_from_value (value : list byte) : option ExportMode :=
  find (fun mode => bool_decide (mode_as_str mode = value)) [ReadOnly; ReadWrite].

Record HostExport := mkHostExport {
  tag : list byte;
  mode : ExportMode;
}.

(** [u8::is_ascii_alphanumeric], [b'_'] and [b'-']. *)
Definition is_tag_byte (b : byte) : bool :=
  let v := byte_val b in
  ((48 <=? v) && (v <=? 57)) || ((65 <=? v) && (v <=? 90)) || ((97 <=? v) && (v <=? 122))
  || (v =? 95) || (v =? 45).

Definition parse_tag (value : list byte) : result ProtocolError (list byte) :=
  if bool_decide (value = []) || negb (forallb is_tag_byte value) then
    Err [Text "the virtfs_tag kernel parameter must be a tag of letters, digits, _, and -, not '"; EscapeAscii value; Text "'"]
  else Ok value.

(** [names.join(", ")]. *)
Fixpoint join_names (names : list string) : string :=
  match names with
  | [] => ""
  | [name] => name
  | name :: names => (name ++ ", " ++ join_names names)%string
  end.

Definition alternatives (names : list string) : string :=
  match names with
  | [] => ""
  | [name] => name
  | [first; second] => (first ++ " or " ++ second)%string
  | _ => (join_names (removelast names) ++ ", or " ++ List.last names "")%string
  end.

(** What the loop of [HostExport::parse] has read. *)
Record ExportState := mkExportState {
  e_directory : bool;
  e_tag : option (list byte);
  e_mode : option ExportMode;
  e_aggregate : bool;
}.

Definition export_empty : ExportState := mkExportState false None None false.

Definition export_parameter (name : list byte) : option (list byte) :=
  find (fun parameter => bool_decide (parameter = name)) PARAMETERS.

Definition text_of (name : list byte) : string := String.string_of_list_byte name.

(** [name == SHARE.as_bytes() && value.is_some()]. *)
Definition is_share (token : Token) : bool := bool_decide (t_name token = SHARE) && is_some (t_value token).

(** The loop's body. *)
Definition export_step (self : ExportState) (token : Token) : result ProtocolError ExportState :=
  let 'mkExportState directory tag mode aggregate := self in
  if is_share token then
    Err (violation "the nvx_share kernel parameter binds a live share, but a guest that mounts the host export maps host paths from its mapping table alone")
  else match export_parameter (t_name token) with
  | None => Ok self
  | Some parameter =>
      match t_value token with
      | None => Err [Text "the "; Text (text_of parameter); Text " kernel parameter has no value"]
      | Some value =>
          let seen := if bool_decide (parameter = DIRECTORY) then directory
                      else if bool_decide (parameter = TAG) then is_some tag
                      else if bool_decide (parameter = MODE) then is_some mode
                      else aggregate in
          if seen then Err [Text "the "; Text (text_of parameter); Text " kernel parameter is repeated"]
          else if bool_decide (parameter = DIRECTORY) then
            if negb (bool_decide (value = EXPORT_DIRECTORY)) then
              Err [Text "the virtfs_dir kernel parameter must be /run/nvx/hostfs/root, not '"; EscapeAscii value; Text "'"]
            else Ok (mkExportState true tag mode aggregate)
          else if bool_decide (parameter = TAG) then
            t ← parse_tag value;
            Ok (mkExportState directory (Some t) mode aggregate)
          else if bool_decide (parameter = MODE) then
            m ← ok_or (mode_from_value value)
                  [Text "the virtfs_mode kernel parameter must be ro or rw, not '"; EscapeAscii value; Text "'"];
            Ok (mkExportState directory tag (Some m) aggregate)
          else
            if negb (bool_decide (value = AGGREGATE_VALUE)) then
              Err [Text "the virtfs_aggregate kernel parameter must be 1, not '"; EscapeAscii value; Text "'"]
            else Ok (mkExportState directory tag mode true)
      end
  end.

Definition directory_token : Token := {| t_name := DIRECTORY; t_value := Some EXPORT_DIRECTORY |}.
Definition tag_token (t : list byte) : Token := {| t_name := TAG; t_value := Some t |}.
Definition mode_token (m : ExportMode) : Token := {| t_name := MODE; t_value := Some (mode_as_str m) |}.
Definition aggregate_token : Token := {| t_name := AGGREGATE; t_value := Some AGGREGATE_VALUE |}.

Definition is_tag (t : list byte) : Prop := t <> [] /\ Forall (fun b => is_tag_byte b = true) t.

#[export] Instance export_reader : TokenReader ExportState := {|
  step := export_step;
  own t := is_share t || is_some (export_parameter (t_name t));
  tokens_of st :=
    (if e_directory st then [directory_token] else [])
    ++ match e_tag st with Some t => [tag_token t] | None => [] end
    ++ match e_mode st with Some m => [mode_token m] | None => [] end
    ++ (if e_aggregate st then [aggregate_token] else []);
  valid st := forall t, e_tag st = Some t -> is_tag t;
|}.

(** The parameters that an incomplete export lacks. *)
Definition missing_parameters (st : ExportState) : list string :=
  map (fun p => text_of p.1)
    (filter (fun p => p.2 = false)
       (zip PARAMETERS [e_directory st; is_some (e_tag st); is_some (e_mode st); e_aggregate st])).

Definition parse_export (command_line : list byte) : result ProtocolError (option HostExport) :=
  st ← read_tokens export_empty (init_tokens command_line);
  match st with
  | mkExportState true (Some tag) (Some mode) true => Ok (Some (mkHostExport tag mode))
  | mkExportState false None None false => Ok None
  | _ => Err [Text "the host export is incomplete: the command line has no ";
              Text (alternatives (missing_parameters st)); Text " kernel parameter"]
  end.

(** ** [boot.rs] *)

Definition MAPS_TOKEN : string := "nvx_maps=".
Definition MAPS_NAME : list byte := bytes_of "nvx_maps".
Definition WORKLOAD_ACCOUNT_TOKEN : string := "nvx_workload_account=create".

(** [u8::is_ascii_digit]. *)
Definition is_ascii_digit (b : byte) : bool := (48 <=? byte_val b) && (byte_val b <=? 57).

(** The failures of the count: the errors, and the panic of an overflowing [u32], which never comes. *)
Inductive CountFailure : Type :=
| CountError (error : ProtocolError)
| CountOverflow.

(** The loop over the digits. *)
Fixpoint count_digits (value : Z) (digits : list byte) : result CountFailure Z :=
  match digits with
  | [] => Ok value
  | digit :: digits =>
      if negb (is_ascii_digit digit) || (MAX_HOST_MAPPINGS <? value) then
        Err (CountError (violation "the nvx_maps kernel parameter is malformed"))
      else
        tens ← ok_or (if value * 10 <=? U32_MAX then Some (value * 10) else None) CountOverflow;
        value ← ok_or (checked_add U32_MAX tens (byte_val digit - 48)) CountOverflow;
        count_digits value digits
  end.

(** The loop over the tokens; its state is [(count, found)]. *)
Fixpoint count_loop (count : Z) (found : bool) (tokens : list Token) : result CountFailure Z :=
  match tokens with
  | [] => Ok count
  | token :: tokens =>
      match bool_decide (t_name token = MAPS_NAME), t_value token with
      | true, Some digits =>
          if found || bool_decide (digits = []) then
            Err (CountError (violation "the nvx_maps kernel parameter is malformed or repeated"))
          else
            value ← count_digits 0 digits;
            if (value =? 0) || (MAX_HOST_MAPPINGS <? value) then
              Err (CountError (violation "the nvx_maps kernel parameter must be from 1 through 4096"))
            else count_loop value true tokens
      | _, _ => count_loop count found tokens
      end
  end.

Definition parse_host_mapping_count (command_line : list byte) : result CountFailure Z :=
  count_loop 0 false (init_tokens command_line).

(** ** [share.rs] *)

Definition RESERVED_MOUNT_TARGETS : list string :=
  ["/proc"; "/sys"; "/dev"; "/.nvx-agent"; "/etc/machine-id"; "/etc/resolv.conf"; "/run/nvx/time"].
Definition RESERVED_EXACT_MOUNT_TARGETS : list string := ["/etc"; "/run"; "/run/nvx"].
Definition RESERVED_TARGET_CHARACTERS : list byte := map byte_of [0; 92; 61; 44; 34].

Inductive Reservation : Type :=
| Tree (tree : string)
| Exact.

Definition SLASH : byte := byte_of 47.

Definition reservation (target : list byte) : option Reservation :=
  match find (fun tree => match strip_prefix (bytes_of tree) target with
                          | Some rest => bool_decide (rest = []) || is_some (strip_prefix [SLASH] rest)
                          | None => false
                          end) RESERVED_MOUNT_TARGETS with
  | Some tree => Some (Tree tree)
  | None => if existsb (fun exact => bool_decide (target = bytes_of exact)) RESERVED_EXACT_MOUNT_TARGETS
            then Some Exact else None
  end.

(** ** [status.rs] *)

Definition TIME_CONFORMANCE : Z := 193.
Definition TIME_VIOLATION : Z := 194.
Definition TIME_REPAIR : Z := 195.
Definition REPAIR_RESTORE : Z := 40.
Definition REPAIR_PROCESSORS : Z := 41.
Definition REPAIR_MEMORY_TARGET : Z := 42.
Definition REPAIR_MEMORY : Z := 43.
Definition REPAIR_RESEED : Z := 44.
Definition REPAIR_FINISH : Z := 45.
Definition ACTIVATION_DEADLINE : Z := 50.
Definition ACTIVATION_PROTOCOL : Z := 51.
Definition ACTIVATION_RECORD : Z := 52.
Definition ACTIVATION_RESOURCES : Z := 53.
Definition ACTIVATION_ROOT : Z := 54.
Definition ACTIVATION_WORKLOAD : Z := 55.
Definition ACTIVATION_EXPORT : Z := 56.
Definition ACTIVATION_NETWORK : Z := 57.
Definition ACTIVATION_ORDER : Z := 58.

(** [RangeInclusive::contains]. *)
Definition in_range (first last status : Z) : bool := (first <=? status) && (status <=? last).
Definition TIME_STATUSES : Z -> bool := in_range TIME_CONFORMANCE TIME_REPAIR.
Definition REPAIR_STATUSES : Z -> bool := in_range REPAIR_RESTORE REPAIR_FINISH.
Definition ACTIVATION_STATUSES : Z -> bool := in_range ACTIVATION_DEADLINE ACTIVATION_ORDER.

Definition describe (status : Z) : option string :=
  if status =? TIME_CONFORMANCE then Some "a time ABI conformance check failed"
  else if status =? TIME_VIOLATION then Some "the time ABI's violation watcher observed a violation"
  else if status =? TIME_REPAIR then Some "the time ABI's part of a restore's repair failed"
  else if status =? REPAIR_RESTORE then Some "a clone's restore cannot be repaired"
  else if status =? REPAIR_PROCESSORS then Some "a clone's online CPUs do not meet its restore's processor target"
  else if status =? REPAIR_MEMORY_TARGET then Some "a clone's memory target is refused"
  else if status =? REPAIR_MEMORY then Some "a clone's memory activation failed"
  else if status =? REPAIR_RESEED then Some "a clone's reseed failed"
  else if status =? REPAIR_FINISH then Some "a clone's restore finish failed"
  else if status =? ACTIVATION_DEADLINE then Some "a clone was not activated before its deadline"
  else if status =? ACTIVATION_PROTOCOL then Some "the host broke a repaired clone's restricted session"
  else if status =? ACTIVATION_RECORD then Some "a clone's Activate record is refused"
  else if status =? ACTIVATION_RESOURCES then Some "a clone's Activate record expects other resources"
  else if status =? ACTIVATION_ROOT then Some "a clone's root activation failed"
  else if status =? ACTIVATION_WORKLOAD then Some "a clone's workload activation failed"
  else if status =? ACTIVATION_EXPORT then Some "a clone's host export cannot be mounted"
  else if status =? ACTIVATION_NETWORK then Some "a clone's network settings cannot be applied"
  else if status =? ACTIVATION_ORDER then Some "a guest's order misused a clone's activation"
  else None.

(** ** The reader of the export's tokens *)

Lemma mode_from_value_exact value m : mode_from_value value = Some m <-> value = mode_as_str m.
Proof.
  unfold mode_from_value. cbn [find].
  destruct (bool_decide_reflect (mode_as_str ReadOnly = value)) as [<-|H1]; [by destruct m|].
  destruct (bool_decide_reflect (mode_as_str ReadWrite = value)) as [<-|H2]; [by destruct m|].
  split; [done|]. intros ->. by destruct m.
Qed.

Lemma parse_tag_exact value t : parse_tag value = Ok t <-> value = t /\ is_tag t.
Proof.
  unfold parse_tag, is_tag. destruct (bool_decide_reflect (value = [])) as [->|Hv]; cbn [orb].
  { split; [done|]. by intros (<- & ? & _). }
  destruct (forallb is_tag_byte value) eqn:Hf; cbn [negb].
  - rewrite forallb_forall in Hf. split.
    + intros <-%ok_inj. split; [done|]. split; [done|]. apply Forall_forall. intros b Hb. apply Hf. by apply list_elem_of_In.
    + by intros [-> _].
  - split; [done|]. intros (<- & _ & Ht). apply not_true_iff_false in Hf. destruct Hf. apply forallb_forall.
    intros b Hb. rewrite Forall_forall in Ht. apply Ht. by apply list_elem_of_In.
Qed.

Definition is_parameter (n : list byte) : Prop := n = DIRECTORY \/ n = TAG \/ n = MODE \/ n = AGGREGATE.

Lemma export_parameter_some n : is_some (export_parameter n) = true <-> is_parameter n.
Proof.
  unfold export_parameter, is_parameter, PARAMETERS. cbn [find].
  destruct (bool_decide_reflect (DIRECTORY = n)) as [<-|]; [by split; auto|].
  destruct (bool_decide_reflect (TAG = n)) as [<-|]; [by split; auto|].
  destruct (bool_decide_reflect (MODE = n)) as [<-|]; [by split; auto|].
  destruct (bool_decide_reflect (AGGREGATE = n)) as [<-|]; [by split; auto|]. cbn [is_some].
  split; [done|]. intros [->|[->|[->| ->]]]; done.
Qed.

(** What each of the export's tokens does. *)
Lemma export_step_own st n v st' : is_parameter n ->
  export_step st {| t_name := n; t_value := v |} = Ok st' <->
  exists t, v = Some t /\
    ((n = DIRECTORY /\ e_directory st = false /\ t = EXPORT_DIRECTORY
        /\ st' = mkExportState true (e_tag st) (e_mode st) (e_aggregate st))
     \/ (n = TAG /\ e_tag st = None /\ is_tag t
        /\ st' = mkExportState (e_directory st) (Some t) (e_mode st) (e_aggregate st))
     \/ (n = MODE /\ e_mode st = None /\ exists m, t = mode_as_str m
        /\ st' = mkExportState (e_directory st) (e_tag st) (Some m) (e_aggregate st))
     \/ (n = AGGREGATE /\ e_aggregate st = false /\ t = AGGREGATE_VALUE
        /\ st' = mkExportState (e_directory st) (e_tag st) (e_mode st) true)).
Proof.
  intros Hn. destruct st as [d t m a]. unfold export_step.
  cbn [t_name t_value e_directory e_tag e_mode e_aggregate].
  assert (Hs : is_share {| t_name := n; t_value := v |} = false) by (by destruct Hn as [->|[->|[->| ->]]]).
  assert (Hp : export_parameter n = Some n) by (by destruct Hn as [->|[->|[->| ->]]]).
  rewrite Hs, Hp. destruct v as [text|]; [|split; [done|]; by intros (? & ? & _)].
  transitivity ((n = DIRECTORY /\ d = false /\ text = EXPORT_DIRECTORY /\ st' = mkExportState true t m a)
     \/ (n = TAG /\ t = None /\ is_tag text /\ st' = mkExportState d (Some text) m a)
     \/ (n = MODE /\ m = None /\ exists x, text = mode_as_str x /\ st' = mkExportState d t (Some x) a)
     \/ (n = AGGREGATE /\ a = false /\ text = AGGREGATE_VALUE /\ st' = mkExportState d t m true));
    [|split; [by eauto|by intros (? & [= <-] & ?)]].
  assert (H1 : TAG <> DIRECTORY) by done. assert (H2 : MODE <> DIRECTORY) by done. assert (H3 : MODE <> TAG) by done.
  assert (H4 : AGGREGATE <> DIRECTORY) by done. assert (H5 : AGGREGATE <> TAG) by done. assert (H6 : AGGREGATE <> MODE) by done.
  destruct Hn as [->|[->|[->| ->]]].
  - rewrite (bool_decide_eq_true_2 (DIRECTORY = DIRECTORY)) by done.
    destruct d; [split; [done|intuition congruence]|].
    destruct (bool_decide_reflect (text = EXPORT_DIRECTORY)); cbn [negb]; split;
      [intros ?%ok_inj; auto|intuition congruence|done|intuition congruence].
  - rewrite (bool_decide_eq_false_2 _ H1), (bool_decide_eq_true_2 (TAG = TAG)) by done.
    destruct t; cbn [is_some]; [split; [done|intuition congruence]|].
    rewrite result_bind_ok. setoid_rewrite parse_tag_exact. split.
    + intros (u & [<- Hu] & Hr%ok_inj). auto 6.
    + intros [?|[(_ & _ & Hu & ->)|[?|?]]]; [intuition congruence|by eauto|intuition congruence..].
  - rewrite (bool_decide_eq_false_2 _ H2), (bool_decide_eq_false_2 _ H3), (bool_decide_eq_true_2 (MODE = MODE)) by done.
    destruct m; cbn [is_some]; [split; [done|intuition congruence]|].
    rewrite result_bind_ok. setoid_rewrite ok_or_ok. setoid_rewrite mode_from_value_exact. split.
    + intros (u & -> & Hr%ok_inj). eauto 8.
    + intros [?|[?|[(_ & _ & u & -> & ->)|?]]]; [intuition congruence..|by eauto|intuition congruence].
  - rewrite (bool_decide_eq_false_2 _ H4), (bool_decide_eq_false_2 _ H5), (bool_decide_eq_false_2 _ H6).
    destruct a; [split; [done|intuition congruence]|].
    destruct (bool_decide_reflect (text = AGGREGATE_VALUE)); cbn [negb]; split;
      [intros ?%ok_inj; auto 8|intuition congruence|done|intuition congruence].
Qed.

Lemma export_tokens_names (st : ExportState) : NoDup (map t_name (tokens_of st)).
Proof. destruct st as [[|] [t|] [m|] [|]]; apply (bool_decide_unpack _); vm_compute; exact I. Qed.

Lemma export_values (st : ExportState) :
  value_of DIRECTORY (tokens_of st) = (if e_directory st then Some (Some EXPORT_DIRECTORY) else None)
  /\ value_of TAG (tokens_of st) = option_map Some (e_tag st)
  /\ value_of MODE (tokens_of st) = option_map (fun m => Some (mode_as_str m)) (e_mode st)
  /\ value_of AGGREGATE (tokens_of st) = (if e_aggregate st then Some (Some AGGREGATE_VALUE) else None).
Proof. destruct st as [[|] [t|] [m|] [|]]; repeat split; reflexivity. Qed.

Lemma in_export_tokens (st : ExportState) t :
  t ∈ tokens_of st <->
  (e_directory st = true /\ t = directory_token) \/ (exists x, e_tag st = Some x /\ t = tag_token x)
  \/ (exists m, e_mode st = Some m /\ t = mode_token m) \/ (e_aggregate st = true /\ t = aggregate_token).
Proof.
  destruct st as [d x m a]. cbn [tokens_of export_reader e_directory e_tag e_mode e_aggregate]. rewrite !elem_of_app.
  destruct d, x as [x|], m as [m|], a; rewrite ?list_elem_of_singleton, ?elem_of_nil; naive_solver.
Qed.

(** A token that changes the state is one of the parameters'. *)
Lemma export_step_cases st t st' : export_step st t = Ok st' -> is_share t = false /\ (is_parameter (t_name t) \/ st' = st).
Proof.
  destruct st as [d x m a]. unfold export_step. destruct (is_share t); [done|]. intros H. split; [done|].
  destruct (export_parameter (t_name t)) as [p|] eqn:Hp; [|right; by apply ok_inj in H].
  left. apply export_parameter_some. by rewrite Hp.
Qed.

Lemma export_step_takes (st : ExportState) t st' more : own (St := ExportState) t = true -> valid st -> valid st' ->
  tokens_of st' ≡ₚ t :: tokens_of st ++ more -> exists st1, step st t = Ok st1.
Proof.
  intros Ho Hv Hv' Hp. destruct (free_name _ _ _ _ (export_tokens_names st') Hp) as [Hin Hfree].
  destruct (export_values st) as (Hd & Hx & Hm & Ha). cbn [step export_reader].
  apply in_export_tokens in Hin as [[_ ->]|[(x & Hi & ->)|[(m & _ & ->)|[_ ->]]]];
    cbn [t_name directory_token tag_token mode_token aggregate_token] in Hfree.
  - rewrite Hd in Hfree. eexists. apply export_step_own; [by left|]. eexists. split; [done|]. left.
    split; [done|]. split; [by destruct (e_directory st)|split; reflexivity].
  - rewrite Hx in Hfree. eexists. apply export_step_own; [by right; left|]. eexists. split; [done|]. right; left.
    split; [done|]. split; [by destruct (e_tag st)|split; [by apply Hv'|reflexivity]].
  - rewrite Hm in Hfree. eexists. apply export_step_own; [by right; right; left|]. eexists. split; [done|]. right; right; left.
    split; [done|]. split; [by destruct (e_mode st)|exists m; split; reflexivity].
  - rewrite Ha in Hfree. eexists. apply export_step_own; [by right; right; right|]. eexists. split; [done|]. right; right; right.
    split; [done|]. split; [by destruct (e_aggregate st)|split; reflexivity].
Qed.

Lemma export_tokens_inj (st st' : ExportState) : valid st -> valid st' -> tokens_of st ≡ₚ tokens_of st' -> st = st'.
Proof.
  intros Hv Hv' Hp.
  pose proof (fun n => value_of_perm n _ _ (export_tokens_names st) Hp) as He.
  destruct (export_values st) as (Hd & Hx & Hm & Ha), (export_values st') as (Hd' & Hx' & Hm' & Ha').
  pose proof (He DIRECTORY) as E1. pose proof (He TAG) as E2. pose proof (He MODE) as E3. pose proof (He AGGREGATE) as E4.
  rewrite Hd, Hd' in E1. rewrite Hx, Hx' in E2. rewrite Hm, Hm' in E3. rewrite Ha, Ha' in E4.
  clear -E1 E2 E3 E4. destruct st as [d x m a], st' as [d' x' m' a']. cbn [e_directory e_tag e_mode e_aggregate] in *.
  f_equal; [by destruct d, d'|destruct x, x'; try done; cbn [option_map] in E2; congruence| |by destruct a, a'].
  by destruct m as [[|]|], m' as [[|]|].
Qed.

#[export] Instance export_reader_laws : TokenReaderLaws ExportState.
Proof.
  split.
  - intros [d x m a] t [Hs Ho]%orb_false_iff. cbn [step export_reader]. unfold export_step. rewrite Hs.
    by destruct (export_parameter (t_name t)).
  - intros st [n v] st' Hv Hs. cbn [step export_reader] in Hs.
    destruct (export_step_cases _ _ _ Hs) as [_ [Hn| ->]]; [|done]. cbn [t_name] in Hn.
    apply export_step_own in Hs as (t & -> & Hs); [|done]. cbn [valid export_reader] in *.
    destruct Hs as [(_ & _ & _ & ->)|[(_ & _ & Ht & ->)|[(_ & _ & m & _ & ->)|(_ & _ & _ & ->)]]]; cbn [e_tag];
      [done|by intros ? [= <-]|done|done].
  - intros st [n v] st' Ho Hv Hs. cbn [step own export_reader t_name] in *.
    destruct (export_step_cases _ _ _ Hs) as [Hsh _]. rewrite Hsh in Ho. cbn [orb] in Ho.
    apply export_parameter_some in Ho. apply export_step_own in Hs as (t & -> & Hs); [|done].
    destruct st as [d x m a]. cbn [e_directory e_tag e_mode e_aggregate] in *.
    destruct Hs as [(-> & -> & -> & ->)|[(-> & -> & Ht & ->)|[(-> & -> & y & -> & ->)|(-> & -> & -> & ->)]]];
      cbn [tokens_of export_reader e_directory e_tag e_mode e_aggregate].
    + reflexivity.
    + fold (tag_token t). cbn [app]. by rewrite <- Permutation_middle.
    + fold (mode_token y). cbn [app]. by rewrite (app_assoc _ _ (mode_token y :: _)), <- Permutation_middle, <- app_assoc.
    + fold aggregate_token. by rewrite app_nil_r, !app_assoc, Permutation_app_comm.
  - apply export_step_takes.
  - apply export_tokens_inj.
Qed.

(** The tokens of a command line that bear on the export: its own, and those of live shares. *)
Definition export_tokens (command_line : list byte) : list Token :=
  own_tokens ExportState (init_tokens command_line).

(** The tokens that OpenVMM appends for an export. *)
Definition write_export (e : HostExport) : list Token :=
  [directory_token; tag_token (tag e); mode_token (mode e); aggregate_token].

Lemma export_read command_line st :
  read_tokens export_empty (init_tokens command_line) = Ok st <->
  valid st /\ export_tokens command_line ≡ₚ tokens_of st.
Proof. by apply read_all. Qed.

(** The guest reads a host export from a command line exactly when the four tokens that OpenVMM
    appends for it are there, each once and in any order among other tokens, with a well-formed tag,
    and no live share; it reads none exactly when none of them and no live share is there. Every other
    command line, such as one with an incomplete export or a repeated token, is refused. *)
Theorem host_export_exact command_line :
  (forall e, parse_export command_line = Ok (Some e) <->
     is_tag (tag e) /\ export_tokens command_line ≡ₚ write_export e)
  /\ (parse_export command_line = Ok None <-> export_tokens command_line = []).
Proof.
  unfold parse_export. split; [intros [t m]|]; rewrite result_bind_ok; setoid_rewrite export_read; cbn [tag mode].
  - split.
    + intros ([[|] [x|] [y|] [|]] & [Hv Hp] & Hr); try done. apply ok_inj in Hr. injection Hr as -> ->.
      split; [by apply Hv|exact Hp].
    + intros [Ht Hp]. exists (mkExportState true (Some t) (Some m) true). split; [split; [by intros ? [= <-]|exact Hp]|done].
  - split.
    + intros ([[|] [x|] [y|] [|]] & [Hv Hp] & Hr); try done. by apply Permutation_nil_r in Hp.
    + intros ->. by exists export_empty.
Qed.

(** ** The mapping count *)

(** The number that decimal digits write. *)
Definition decimal (value : Z) (digits : list byte) : Z :=
  foldl (fun value digit => value * 10 + (byte_val digit - 48)) value digits.

Definition is_decimal (digits : list byte) : Prop := digits <> [] /\ Forall (fun b => is_ascii_digit b = true) digits.

Lemma decimal_grows value digits : 0 <= value -> Forall (fun b => is_ascii_digit b = true) digits ->
  value <= decimal value digits.
Proof.
  revert value. induction digits as [|b digits IH]; intros value Hv Hd; cbn; [lia|].
  apply Forall_cons in Hd as [Hb Hd]. unfold is_ascii_digit in Hb. apply andb_true_iff in Hb as [?%Z.leb_le ?%Z.leb_le].
  transitivity (value * 10 + (byte_val b - 48)); [lia|]. apply IH; [lia|done].
Qed.

(** The digits' loop never overflows, and gives the number exactly when it is at most the limit or the
    last digit took it past. *)
Lemma count_digits_exact value digits : 0 <= value -> value <= 10 * MAX_HOST_MAPPINGS + 9 ->
  match count_digits value digits with
  | Ok n => Forall (fun b => is_ascii_digit b = true) digits /\ n = decimal value digits
  | Err CountOverflow => False
  | Err (CountError _) => ~ (Forall (fun b => is_ascii_digit b = true) digits /\ decimal value digits <= MAX_HOST_MAPPINGS)
  end.
Proof.
  revert value. induction digits as [|b digits IH]; intros value Hv Hb; cbn [count_digits]; [by split|].
  destruct (is_ascii_digit b) eqn:Hd; cbn [negb orb]; [|by intros [[? _]%Forall_cons _]; congruence].
  assert (Hr : 48 <= byte_val b <= 57) by (unfold is_ascii_digit in Hd; apply andb_true_iff in Hd as [?%Z.leb_le ?%Z.leb_le]; lia).
  destruct (Z.ltb_spec MAX_HOST_MAPPINGS value) as [Hm|Hm].
  { intros [Hf Hle]. pose proof (decimal_grows value (b :: digits) Hv Hf). lia. }
  unfold MAX_HOST_MAPPINGS in Hm. unfold U32_MAX, checked_add.
  rewrite (proj2 (Z.leb_le (value * 10) _)) by lia. cbn [ok_or mbind result_bind].
  rewrite (proj2 (Z.leb_le (value * 10 + _) _)) by lia. cbn [ok_or mbind result_bind].
  specialize (IH (value * 10 + (byte_val b - 48)) ltac:(lia) ltac:(unfold MAX_HOST_MAPPINGS; lia)).
  destruct (count_digits _ digits) as [n|[e|]]; [|intros [[_ Hf]%Forall_cons Hle]; by apply IH|done].
  destruct IH as [Hf ->]. split; [by constructor|done].
Qed.

(** The values of the command line's [nvx_maps=] tokens. *)
Definition map_counts (tokens : list Token) : list (list byte) :=
  omap (fun t => if bool_decide (t_name t = MAPS_NAME) then t_value t else None) tokens.

Definition is_count (digits : list byte) (n : Z) : Prop :=
  is_decimal digits /\ n = decimal 0 digits /\ 1 <= n <= MAX_HOST_MAPPINGS.

Lemma count_loop_exact count found tokens :
  match count_loop count found tokens with
  | Ok n => (map_counts tokens = [] /\ n = count)
            \/ (found = false /\ exists digits, map_counts tokens = [digits] /\ is_count digits n)
  | Err CountOverflow => False
  | Err (CountError _) => map_counts tokens <> []
            /\ (found = false -> forall digits n, map_counts tokens = [digits] -> ~ is_count digits n)
  end.
Proof.
  revert count found. induction tokens as [|[name v] tokens IH]; intros count found; cbn [count_loop t_name t_value]; [by left|].
  unfold map_counts. cbn [omap list_omap t_name t_value]. fold (map_counts tokens).
  destruct (bool_decide (name = MAPS_NAME)); [|apply IH]. destruct v as [digits|]; [|apply IH].
  destruct found; cbn [orb]; [by split|].
  destruct (bool_decide_reflect (digits = [])) as [->|Hne].
  { split; [done|]. intros _ d n [= <- _]. by intros [[? _] _]. }
  pose proof (count_digits_exact 0 digits ltac:(lia) ltac:(unfold MAX_HOST_MAPPINGS; lia)) as Hc.
  destruct (count_digits 0 digits) as [n|[e|]]; cbn [mbind result_bind]; [| |done].
  2:{ split; [done|]. intros _ d n [= <- _] ([_ Hf] & -> & Hr). apply Hc. split; [done|lia]. }
  destruct Hc as [Hf ->]. destruct (_ || _) eqn:Hr.
  { split; [done|]. intros _ d n [= <- _] (_ & -> & Hn). apply orb_true_iff in Hr as [?%Z.eqb_eq|?%Z.ltb_lt]; lia. }
  apply orb_false_iff in Hr as [?%Z.eqb_neq ?%Z.ltb_ge].
  pose proof (decimal_grows 0 digits ltac:(lia) Hf).
  specialize (IH (decimal 0 digits) true). destruct (count_loop _ true tokens) as [n|[e|]]; [| |done].
  - destruct IH as [[-> ->]|[? _]]; [|done]. right. split; [done|]. exists digits. split; [done|].
    split; [by split|]. split; [done|lia].
  - destruct IH as [Hm _]. split; [done|]. intros _ d n [= _ Hz]. done.
Qed.

(** The guest reads a mapping count from a command line exactly when it has no [nvx_maps=] token,
    which announces none, or exactly one, whose value is decimal digits of a number from 1 through the
    limit; and its 32-bit arithmetic never overflows, whatever the digits are. *)
Theorem mapping_count_exact command_line :
  parse_host_mapping_count command_line <> Err CountOverflow
  /\ forall n, parse_host_mapping_count command_line = Ok n <->
       (map_counts (init_tokens command_line) = [] /\ n = 0)
       \/ exists digits, map_counts (init_tokens command_line) = [digits] /\ is_count digits n.
Proof.
  unfold parse_host_mapping_count. pose proof (count_loop_exact 0 false (init_tokens command_line)) as H.
  destruct (count_loop _ _ _) as [m|[e|]]; [| |done]; (split; [done|]); intros n.
  - split; [intros <-%ok_inj; tauto|]. intros Hn. f_equal.
    destruct H as [[Hz ->]|(_ & ds & Hs & Hc)], Hn as [[Hz' ->]|(ds' & Hs' & Hc')]; [done|congruence..|].
    rewrite Hs in Hs'. injection Hs' as <-. destruct Hc as (_ & -> & _), Hc' as (_ & -> & _). done.
  - destruct H as [Hne Hno]. split; [done|]. intros [[? _]|(ds & Hs & Hc)]; [done|]. by destruct (Hno eq_refl ds n Hs).
Qed.

(** ** Reserved targets *)

(** A path in a tree: the tree's own, or one below it. *)
Definition within (tree path : list byte) : Prop := path = tree \/ exists rest, path = tree ++ SLASH :: rest.

Lemma within_tree tree path :
  (match strip_prefix tree path with
   | Some rest => bool_decide (rest = []) || is_some (strip_prefix [SLASH] rest)
   | None => false
   end) = true <-> within tree path.
Proof.
  unfold within. destruct (strip_prefix tree path) as [rest|] eqn:Hs.
  - apply strip_prefix_some in Hs as ->. rewrite orb_true_iff, bool_decide_eq_true. split.
    + intros [->|Hr]; [left; by rewrite app_nil_r|]. right.
      destruct (strip_prefix [SLASH] rest) as [r|] eqn:He; [|done]. apply strip_prefix_some in He as ->. by exists r.
    + intros [He|(r & He)].
      * left. rewrite <- (app_nil_r tree) in He at 2. by apply app_inv_head in He.
      * right. apply app_inv_head in He as ->. by rewrite (proj2 (strip_prefix_some [SLASH] (SLASH :: r) r) eq_refl).
  - split; [done|]. intros H. assert (Hx : exists r, strip_prefix tree path = Some r).
    { destruct H as [->|(r & ->)]; eexists; apply strip_prefix_some; [by rewrite app_nil_r|done]. }
    rewrite Hs in Hx. by destruct Hx.
Qed.

(** A target is reserved exactly when it is in one of the runtime's trees or is one of the exact
    paths, and the answer tells which: a tree is one of the list that contains the target. *)
Theorem reservation_exact target :
  match reservation target with
  | Some (Tree tree) => tree ∈ RESERVED_MOUNT_TARGETS /\ within (bytes_of tree) target
  | Some Exact => target ∈ map bytes_of RESERVED_EXACT_MOUNT_TARGETS
                  /\ forall tree, tree ∈ RESERVED_MOUNT_TARGETS -> ~ within (bytes_of tree) target
  | None => ~ (target ∈ map bytes_of RESERVED_EXACT_MOUNT_TARGETS)
            /\ forall tree, tree ∈ RESERVED_MOUNT_TARGETS -> ~ within (bytes_of tree) target
  end.
Proof.
  unfold reservation. destruct (find _ RESERVED_MOUNT_TARGETS) as [tree|] eqn:Hf.
  { apply find_some in Hf as [Hin Hw]. split; [by apply list_elem_of_In|by apply within_tree]. }
  assert (Hno : forall tree, tree ∈ RESERVED_MOUNT_TARGETS -> ~ within (bytes_of tree) target).
  { intros tree Hin Hw. apply within_tree in Hw. apply list_elem_of_In in Hin.
    pose proof (find_none _ _ Hf tree Hin) as Hc. cbn beta in Hc. congruence. }
  destruct (existsb _ _) eqn:He; (split; [|exact Hno]); rewrite list_elem_of_fmap.
  - apply existsb_exists in He as (x & Hx & ->%bool_decide_eq_true). exists x. split; [done|by apply list_elem_of_In].
  - intros (x & -> & Hx). apply not_true_iff_false in He. destruct He. apply existsb_exists. exists x.
    split; [by apply list_elem_of_In|by apply bool_decide_eq_true].
Qed.

(** ** Statuses *)

(** The statuses that the module names are those of its three ranges. *)
Lemma describe_exact status :
  is_some (describe status) = TIME_STATUSES status || REPAIR_STATUSES status || ACTIVATION_STATUSES status.
Proof.
  unfold TIME_STATUSES, REPAIR_STATUSES, ACTIVATION_STATUSES, in_range, describe.
  repeat match goal with |- context [status =? ?c] => destruct (Z.eqb_spec status c) as [->|]; [reflexivity|] end.
  cbn [is_some]. symmetry. rewrite !orb_false_iff, !andb_false_iff, !Z.leb_gt.
  unfold TIME_CONFORMANCE, TIME_VIOLATION, TIME_REPAIR, REPAIR_RESTORE, REPAIR_PROCESSORS, REPAIR_MEMORY_TARGET,
    REPAIR_MEMORY, REPAIR_RESEED, REPAIR_FINISH, ACTIVATION_DEADLINE, ACTIVATION_PROTOCOL, ACTIVATION_RECORD,
    ACTIVATION_RESOURCES, ACTIVATION_ROOT, ACTIVATION_WORKLOAD, ACTIVATION_EXPORT, ACTIVATION_NETWORK, ACTIVATION_ORDER in *.
  lia.
Qed.
