(* ===== verification/Activation.v ===== *)
(** * Activation records (src/nvx-rs/src/activation/mod.rs, codec.rs and ready.rs)

    The record of the settings that a layered root's activation applies, its limits, its canonical
    tagged encoding and the strict decoder of it, and what Ready reports. Fixed-size arrays are
    lists of bytes, whose lengths [is_record] states; addresses are those of [Cidr]. *)

From stdpp Require Import sorting.
From S2P Require Import Prelude Uuid Cidr Maps BootTokens.

(** ** The record *)

Definition VERSION : Z := 1.
Definition MAX_RECORD_BYTES : Z := 1024.
Definition MAX_MAPPINGS : Z := MAX_HOST_MAPPINGS.
Definition MAX_HOSTNAME_BYTES : Z := 64.
Definition MAX_PROXY_ENDPOINT_BYTES : Z := 255.

(** [Identity] and [TransactionId]: arrays of 32 and 16 bytes. *)
Definition Identity : Type := list byte.
Definition TransactionId : Type := list byte.
Definition IDENTITY_LEN : Z := 32.
Definition TRANSACTION_LEN : Z := 16.

(** [generation] is a [NonZeroU64]. *)
Record TemplateReference := mkTemplate {
  generation : Z;
  template_key : Identity;
}.

Record RestoreSection := mkRestore {
  transaction : TransactionId;
  template : TemplateReference;
}.

Inductive Image : Type :=
| ImageErofs (binding : Identity) (uuid : option Uuid)
| ImageGpt (binding : Identity) (disk_guid : option Uuid) (first_partition_bound : Z).

Definition image_format (self : Image) : ImageFormat :=
  match self with ImageErofs _ _ => Erofs | ImageGpt _ _ _ => Gpt end.

Definition image_binding (self : Image) : Identity :=
  match self with ImageErofs binding _ | ImageGpt binding _ _ => binding end.

Definition image_expected (self : Image) : option Uuid :=
  match self with ImageErofs _ uuid => uuid | ImageGpt _ disk_guid _ => disk_guid end.

Inductive Journal : Type := Allowed | Forbidden.

Inductive Upper : Type :=
| UpperTmpfs
| UpperScratch (binding : Identity) (journal : Journal).

Inductive OverlayMode : Type := TrustedLowers | UntrustedLowers.
Inductive ExportKind : Type := Directory | Aggregate.
Inductive Publication : Type := Published | Unpublished.
Inductive MachineIdMode : Type := MachineImage | MachineGenerated.

Record Export := mkExport {
  kind : ExportKind;
  plan : Identity;
}.

Record Network := mkNetwork {
  policy : Identity;
  dns : option IpAddr;
  publication : Publication;
  proxy : option (list byte);
}.

Record WorkloadIdentity := mkWorkloadIdentity {
  uid : Z;
  gid : Z;
}.

Record WorkloadView := mkWorkloadView {
  hostname : list byte;
  machine_id : MachineIdMode;
  workload_identity : option WorkloadIdentity;
}.

Record ExpectedResources := mkResources {
  cpus : Z;
  memory : Z;
}.

Record Configuration := mkConfiguration {
  c_image : Image;
  c_upper : Upper;
  c_overlay : OverlayMode;
  c_export : option Export;
  c_mappings : Z;
  c_network : option Network;
  c_workload : WorkloadView;
  c_resources : ExpectedResources;
}.

Record ActivationRecord := mkRecord {
  restore : option RestoreSection;
  configuration : Configuration;
}.

(** ** Fields and errors *)

Inductive Field : Type :=
| FRestore | FImage | FImageIdentity | FUpper | FOverlay | FExport | FMappings
| FNetwork | FDns | FProxy | FHostname | FMachineId | FWorkloadIdentity | FResources.

#[export] Instance Field_eq_dec : EqDecision Field.
Proof. solve_decision. Defined.

Definition ALL : list Field :=
  [FRestore; FImage; FImageIdentity; FUpper; FOverlay; FExport; FMappings;
   FNetwork; FDns; FProxy; FHostname; FMachineId; FWorkloadIdentity; FResources].

Definition field_tag (self : Field) : Z :=
  match self with
  | FRestore => 0x01
  | FImage => 0x10
  | FImageIdentity => 0x11
  | FUpper => 0x20
  | FOverlay => 0x30
  | FExport => 0x40
  | FMappings => 0x41
  | FNetwork => 0x50
  | FDns => 0x51
  | FProxy => 0x52
  | FHostname => 0x60
  | FMachineId => 0x61
  | FWorkloadIdentity => 0x62
  | FResources => 0x70
  end.

Definition from_tag (tag : Z) : option Field := find (fun field => field_tag field =? tag) ALL.

Inductive ActivationError : Type :=
| EFirstPartitionBound
| EExportWithoutMappings
| EMappingsWithoutExport
| ETooManyMappings (mappings : Z)
| EProxyEndpoint
| EHostname
| EWorkloadIdentity
| ECpus
| EMemory
| ETooLong (length : Z)
| ETruncated
| EVersion (version : Z)
| EUnknownField (tag : Z)
| EDuplicateField (field : Field)
| EFieldOrder (field : Field)
| EFieldLength (field : Field) (length : Z)
| EFieldValue (field : Field)
| EMissingField (field : Field)
| EWithoutNetwork (field : Field)
| EReady.

(** ** Limits *)

(** [u8::is_ascii_graphic]. *)
Definition is_ascii_graphic (b : byte) : bool := (33 <=? byte_val b) && (byte_val b <=? 126).

Definition is_proxy_endpoint (endpoint : list byte) : bool :=
  negb (bool_decide (endpoint = []))
  && (len endpoint <=? MAX_PROXY_ENDPOINT_BYTES)
  && forallb (fun b => is_ascii_graphic b && negb (byte_val b =? 64)) endpoint.

(** [Configuration::check]. *)
Definition check (self : Configuration) : result ActivationError () :=
  _ ← match c_image self with
      | ImageGpt _ _ bound => if bound =? 0 then Err EFirstPartitionBound else Ok ()
      | ImageErofs _ _ => Ok ()
      end;
  _ ← (if is_some (c_export self) && (c_mappings self =? 0) then Err EExportWithoutMappings
       else if is_some (c_export self) && (MAX_MAPPINGS <? c_mappings self) then Err (ETooManyMappings (c_mappings self))
       else if negb (is_some (c_export self)) && (1 <=? c_mappings self) then Err EMappingsWithoutExport
       else Ok ());
  _ ← match network ← c_network self; proxy network with
      | Some proxy => if negb (is_proxy_endpoint proxy) then Err EProxyEndpoint else Ok ()
      | None => Ok ()
      end;
  let hostname := hostname (c_workload self) in
  if bool_decide (hostname = []) || (MAX_HOSTNAME_BYTES <? len hostname) || has_nul hostname then Err EHostname
  else
    _ ← match workload_identity (c_workload self) with
        | Some identity =>
            if existsb (fun id => (id =? 0) || (id =? U32_MAX)) [uid identity; gid identity] then Err EWorkloadIdentity else Ok ()
        | None => Ok ()
        end;
    if cpus (c_resources self) =? 0 then Err ECpus
    else if memory (c_resources self) =? 0 then Err EMemory
    else Ok ().

(** [ActivationRecord::new]. *)
Definition new_record (restore : option RestoreSection) (configuration : Configuration)
    : result ActivationError ActivationRecord :=
  _ ← check configuration;
  Ok (mkRecord restore configuration).

(** ** Codes *)

Class Code (T : Type) := {
  code : T -> Z;
  from_code : Z -> option T;
}.

#[export] Instance format_code : Code ImageFormat := {|
  code f := match f with Erofs => 1 | Gpt => 2 end;
  from_code c := if c =? 1 then Some Erofs else if c =? 2 then Some Gpt else None |}.
#[export] Instance journal_code : Code Journal := {|
  code f := match f with Allowed => 1 | Forbidden => 2 end;
  from_code c := if c =? 1 then Some Allowed else if c =? 2 then Some Forbidden else None |}.
#[export] Instance overlay_code : Code OverlayMode := {|
  code f := match f with TrustedLowers => 1 | UntrustedLowers => 2 end;
  from_code c := if c =? 1 then Some TrustedLowers else if c =? 2 then Some UntrustedLowers else None |}.
#[export] Instance export_code : Code ExportKind := {|
  code f := match f with Directory => 1 | Aggregate => 2 end;
  from_code c := if c =? 1 then Some Directory else if c =? 2 then Some Aggregate else None |}.
#[export] Instance publication_code : Code Publication := {|
  code f := match f with Published => 1 | Unpublished => 2 end;
  from_code c := if c =? 1 then Some Published else if c =? 2 then Some Unpublished else None |}.
#[export] Instance machine_code : Code MachineIdMode := {|
  code f := match f with MachineImage => 1 | MachineGenerated => 2 end;
  from_code c := if c =? 1 then Some MachineImage else if c =? 2 then Some MachineGenerated else None |}.

Definition TMPFS : Z := 1.
Definition SCRATCH_UPPER : Z := 2.
Definition VERSION_LEN : Z := 2.
Definition FIELD_HEADER_LEN : Z := 2.

(** ** The encoder *)

(** [Encoder::field]: [length as u8] keeps the low byte. *)
Definition encoder_field (field : Field) (parts : list (list byte)) (bytes : list byte) : list byte :=
  let length := foldr Z.add 0 (map len parts) in
  bytes ++ [byte_of (field_tag field)] ++ [byte_of length] ++ concat parts.

(** [IpAddr::octets], from the first. *)
Definition octets (a : IpAddr) : list byte :=
  match a with V4 b => rev (to_le_bytes 4 b) | V6 b => rev (to_le_bytes 16 b) end.

Definition new_encoder : list byte := to_le_bytes 2 VERSION.

(** The encoder's parts, one after the other. *)
Definition encode_restore (restore : option RestoreSection) (e : list byte) : list byte :=
  match restore with
  | Some (mkRestore transaction template) =>
      encoder_field FRestore [transaction; to_le_bytes 8 (generation template); template_key template] e
  | None => e
  end.

Definition encode_image (image : Image) (e : list byte) : list byte :=
  let format := [byte_of (code (image_format image))] in
  let e := match image with
           | ImageErofs binding _ => encoder_field FImage [format; binding] e
           | ImageGpt binding _ bound => encoder_field FImage [format; binding; to_le_bytes 8 bound] e
           end in
  match image_expected image with
  | Some expected => encoder_field FImageIdentity [uuid_bytes expected] e
  | None => e
  end.

Definition encode_upper (upper : Upper) (e : list byte) : list byte :=
  match upper with
  | UpperTmpfs => encoder_field FUpper [[byte_of TMPFS]] e
  | UpperScratch binding journal =>
      encoder_field FUpper [[byte_of SCRATCH_UPPER]; binding; [byte_of (code journal)]] e
  end.

(** [mappings as u16] keeps the low 16 bits. *)
Definition encode_export (export : option Export) (mappings : Z) (e : list byte) : list byte :=
  match export with
  | Some (mkExport kind plan) =>
      let e := encoder_field FExport [[byte_of (code kind)]; plan] e in
      encoder_field FMappings [to_le_bytes 2 (mappings mod 2 ^ 16)] e
  | None => e
  end.

Definition encode_network (network : option Network) (e : list byte) : list byte :=
  match network with
  | Some network =>
      let e := encoder_field FNetwork [policy network; [byte_of (code (publication network))]] e in
      let e := match dns network with
               | Some address => encoder_field FDns [octets address] e
               | None => e
               end in
      match proxy network with
      | Some proxy => encoder_field FProxy [proxy] e
      | None => e
      end
  | None => e
  end.

Definition encode_workload (workload : WorkloadView) (e : list byte) : list byte :=
  let e := encoder_field FHostname [hostname workload] e in
  let e := encoder_field FMachineId [[byte_of (code (machine_id workload))]] e in
  match workload_identity workload with
  | Some (mkWorkloadIdentity uid gid) => encoder_field FWorkloadIdentity [to_le_bytes 4 uid; to_le_bytes 4 gid] e
  | None => e
  end.

Definition encode (self : ActivationRecord) : list byte :=
  let configuration := configuration self in
  let e := new_encoder in
  let e := encode_restore (restore self) e in
  let e := encode_image (c_image configuration) e in
  let e := encode_upper (c_upper configuration) e in
  let e := encoder_field FOverlay [[byte_of (code (c_overlay configuration))]] e in
  let e := encode_export (c_export configuration) (c_mappings configuration) e in
  let e := encode_network (c_network configuration) e in
  let e := encode_workload (c_workload configuration) e in
  let resources := c_resources configuration in
  encoder_field FResources [to_le_bytes 4 (cpus resources); to_le_bytes 8 (memory resources)] e.

(** ** The decoder *)

(** [Value]: the parts of a field's value that remain. *)
Record Value := mkValue {
  v_field : Field;
  v_length : Z;
  v_rest : list byte;
}.

Definition new_value (field : Field) (bytes : list byte) : Value := mkValue field (len bytes) bytes.

Definition length_error (self : Value) : ActivationError := EFieldLength (v_field self) (v_length self).

(** [Value::take], of [n] bytes. *)
Definition take_value (n : Z) (self : Value) : result ActivationError (list byte * Value) :=
  if n <=? len (v_rest self) then
    Ok (ztake n (v_rest self), mkValue (v_field self) (v_length self) (zdrop n (v_rest self)))
  else Err (length_error self).

(** [Value::code]. *)
Definition take_code (T : Type) `{Code T} (self : Value) : result ActivationError (T * Value) :=
  '(part, self) ← take_value 1 self;
  choice ← ok_or (from_code (from_le_bytes part)) (EFieldValue (v_field self));
  Ok (choice, self).

(** [Value::rest]. *)
Definition rest_value (self : Value) : list byte * Value :=
  (v_rest self, mkValue (v_field self) (v_length self) []).

(** [Value::end]. *)
Definition end_value (self : Value) : result ActivationError () :=
  if bool_decide (v_rest self = []) then Ok () else Err (length_error self).

Record Draft := mkDraft {
  d_restore : option RestoreSection;
  d_image : option Image;
  d_image_identity : option Uuid;
  d_upper : option Upper;
  d_overlay : option OverlayMode;
  d_export : option Export;
  d_mappings : option Z;
  d_network : option (Identity * Publication);
  d_dns : option IpAddr;
  d_proxy : option (list byte);
  d_hostname : option (list byte);
  d_machine_id : option MachineIdMode;
  d_identity : option WorkloadIdentity;
  d_resources : option ExpectedResources;
}.

#[export] Instance Draft_eta : Eta Draft := fun d =>
  mkDraft (d_restore d) (d_image d) (d_image_identity d) (d_upper d) (d_overlay d) (d_export d) (d_mappings d)
    (d_network d) (d_dns d) (d_proxy d) (d_hostname d) (d_machine_id d) (d_identity d) (d_resources d).

Definition empty_draft : Draft :=
  mkDraft None None None None None None None None None None None None None None.

(** [IpAddr::from] of an array. *)
Definition addr_v4 (part : list byte) : IpAddr := V4 (from_le_bytes (rev part)).
Definition addr_v6 (part : list byte) : IpAddr := V6 (from_le_bytes (rev part)).

(** The match of [Draft::read]. *)
Definition read_value (self : Draft) (field : Field) (bytes : list byte) (value : Value)
    : result ActivationError (Draft * Value) :=
  match field with
  | FRestore =>
      '(transaction, value) ← take_value TRANSACTION_LEN value;
      '(part, value) ← take_value 8 value;
      let generation := from_le_bytes part in
      if generation =? 0 then Err (EFieldValue field)
      else
        '(key, value) ← take_value IDENTITY_LEN value;
        Ok (self <| d_restore := Some (mkRestore transaction (mkTemplate generation key)) |>, value)
  | FImage =>
      '(format, value) ← take_code ImageFormat value;
      '(binding, value) ← take_value IDENTITY_LEN value;
      match format with
      | Erofs => Ok (self <| d_image := Some (ImageErofs binding None) |>, value)
      | Gpt =>
          '(part, value) ← take_value 8 value;
          Ok (self <| d_image := Some (ImageGpt binding None (from_le_bytes part)) |>, value)
      end
  | FImageIdentity =>
      '(part, value) ← take_value 16 value;
      Ok (self <| d_image_identity := Some (mkUuid part) |>, value)
  | FUpper =>
      '(part, value) ← take_value 1 value;
      if from_le_bytes part =? TMPFS then Ok (self <| d_upper := Some UpperTmpfs |>, value)
      else if from_le_bytes part =? SCRATCH_UPPER then
        '(binding, value) ← take_value IDENTITY_LEN value;
        '(journal, value) ← take_code Journal value;
        Ok (self <| d_upper := Some (UpperScratch binding journal) |>, value)
      else Err (EFieldValue field)
  | FOverlay =>
      '(mode, value) ← take_code OverlayMode value;
      Ok (self <| d_overlay := Some mode |>, value)
  | FExport =>
      '(kind, value) ← take_code ExportKind value;
      '(plan, value) ← take_value IDENTITY_LEN value;
      Ok (self <| d_export := Some (mkExport kind plan) |>, value)
  | FMappings =>
      '(part, value) ← take_value 2 value;
      let mappings := from_le_bytes part in
      if mappings =? 0 then Err (EFieldValue field)
      else Ok (self <| d_mappings := Some mappings |>, value)
  | FNetwork =>
      '(policy, value) ← take_value IDENTITY_LEN value;
      '(publication, value) ← take_code Publication value;
      Ok (self <| d_network := Some (policy, publication) |>, value)
  | FDns =>
      if len bytes =? 4 then
        '(part, value) ← take_value 4 value;
        Ok (self <| d_dns := Some (addr_v4 part) |>, value)
      else
        '(part, value) ← take_value 16 value;
        Ok (self <| d_dns := Some (addr_v6 part) |>, value)
  | FProxy =>
      let '(proxy, value) := rest_value value in
      if is_utf8 proxy then Ok (self <| d_proxy := Some proxy |>, value) else Err EProxyEndpoint
  | FHostname =>
      let '(hostname, value) := rest_value value in
      Ok (self <| d_hostname := Some hostname |>, value)
  | FMachineId =>
      '(mode, value) ← take_code MachineIdMode value;
      Ok (self <| d_machine_id := Some mode |>, value)
  | FWorkloadIdentity =>
      '(uid, value) ← take_value 4 value;
      '(gid, value) ← take_value 4 value;
      Ok (self <| d_identity := Some (mkWorkloadIdentity (from_le_bytes uid) (from_le_bytes gid)) |>, value)
  | FResources =>
      '(cpus, value) ← take_value 4 value;
      '(memory, value) ← take_value 8 value;
      Ok (self <| d_resources := Some (mkResources (from_le_bytes cpus) (from_le_bytes memory)) |>, value)
  end.

(** [Draft::read]. *)
Definition read_field (self : Draft) (field : Field) (bytes : list byte) : result ActivationError Draft :=
  '(self, value) ← read_value self field bytes (new_value field bytes);
  _ ← end_value value;
  Ok self.

Definition set_expected (expected : option Uuid) (image : Image) : Image :=
  match expected, image with
  | Some e, ImageErofs binding _ => ImageErofs binding (Some e)
  | Some e, ImageGpt binding _ bound => ImageGpt binding (Some e) bound
  | None, _ => image
  end.

(** [Draft::into_record]. *)
Definition into_record (self : Draft) : result ActivationError ActivationRecord :=
  image ← ok_or (d_image self) (EMissingField FImage);
  upper ← ok_or (d_upper self) (EMissingField FUpper);
  overlay ← ok_or (d_overlay self) (EMissingField FOverlay);
  hostname ← ok_or (d_hostname self) (EMissingField FHostname);
  machine_id ← ok_or (d_machine_id self) (EMissingField FMachineId);
  resources ← ok_or (d_resources self) (EMissingField FResources);
  let image := set_expected (d_image_identity self) image in
  network ← match d_network self with
            | Some (policy, publication) => Ok (Some (mkNetwork policy (d_dns self) publication (d_proxy self)))
            | None => if is_some (d_dns self) then Err (EWithoutNetwork FDns)
                      else if is_some (d_proxy self) then Err (EWithoutNetwork FProxy)
                      else Ok None
            end;
  new_record (d_restore self)
    (mkConfiguration image upper overlay (d_export self) (default 0 (d_mappings self)) network
       (mkWorkloadView hostname machine_id (d_identity self)) resources).

(** The loop of [decode]; each round takes a field's header at least, so that a round per byte is
    enough. *)
Fixpoint decode_loop (rounds : nat) (draft : Draft) (seen : list Field) (rest : list byte)
    : result ActivationError Draft :=
  match rest, rounds with
  | [], _ => Ok draft
  | [_], _ | _, O => Err ETruncated
  | tag :: length :: tail, S rounds =>
      field ← ok_or (from_tag (byte_val tag)) (EUnknownField (byte_val tag));
      if bool_decide (field ∈ seen) then Err (EDuplicateField field)
      else if match last seen with Some last => byte_val tag <? field_tag last | None => false end then Err (EFieldOrder field)
      else if len tail <? byte_val length then Err ETruncated
      else
        draft ← read_field draft field (ztake (byte_val length) tail);
        decode_loop rounds draft (seen ++ [field]) (zdrop (byte_val length) tail)
  end.

Definition decode (bytes : list byte) : result ActivationError ActivationRecord :=
  if MAX_RECORD_BYTES <? len bytes then Err (ETooLong (len bytes))
  else if len bytes <? VERSION_LEN then Err ETruncated
  else
    let version := from_le_bytes (ztake VERSION_LEN bytes) in
    if negb (version =? VERSION) then Err (EVersion version)
    else
      let rest := zdrop VERSION_LEN bytes in
      draft ← decode_loop (length rest) empty_draft [] rest;
      into_record draft.

(** ** What Ready reports *)

Definition COLD : Z := 0.
Definition CLONE : Z := 1.
Definition COLD_LEN : Z := 1.
Definition CLONE_LEN : Z := COLD_LEN + TRANSACTION_LEN.

Record ReadyActivation := mkReady { ready_transaction : option TransactionId }.

Definition ready_of (record : ActivationRecord) : ReadyActivation :=
  mkReady (option_map transaction (restore record)).

Definition encode_ready (self : ReadyActivation) : list byte :=
  match ready_transaction self with
  | None => [byte_of COLD]
  | Some transaction => [byte_of CLONE] ++ transaction
  end.

Definition decode_ready (bytes : list byte) : result ActivationError ReadyActivation :=
  match bytes with
  | b :: tail =>
      if (byte_val b =? COLD) && bool_decide (tail = []) then Ok (mkReady None)
      else if byte_val b =? CLONE then
        if len tail =? TRANSACTION_LEN then Ok (mkReady (Some tail)) else Err EReady
      else Err EReady
  | [] => Err EReady
  end.

(** ** Drafts as the values of their fields *)

Definition write_restore (x : RestoreSection) : list byte :=
  transaction x ++ to_le_bytes 8 (generation (template x)) ++ template_key (template x).

Definition write_code {T} `{Code T} (x : T) : list byte := [byte_of (code x)].

Definition write_image (x : Image) : list byte :=
  write_code (image_format x) ++ match x with ImageErofs b _ => b | ImageGpt b _ bound => b ++ to_le_bytes 8 bound end.

Definition write_upper (x : Upper) : list byte :=
  match x with UpperTmpfs => [byte_of TMPFS] | UpperScratch b j => [byte_of SCRATCH_UPPER] ++ b ++ write_code j end.

(** The bytes of a field's value, if the draft has it. *)
Definition slot (d : Draft) (f : Field) : option (list byte) :=
  match f with
  | FRestore => option_map write_restore (d_restore d)
  | FImage => option_map write_image (d_image d)
  | FImageIdentity => option_map uuid_bytes (d_image_identity d)
  | FUpper => option_map write_upper (d_upper d)
  | FOverlay => option_map write_code (d_overlay d)
  | FExport => option_map (fun x => write_code (kind x) ++ plan x) (d_export d)
  | FMappings => option_map (to_le_bytes 2) (d_mappings d)
  | FNetwork => option_map (fun x => x.1 ++ write_code x.2) (d_network d)
  | FDns => option_map octets (d_dns d)
  | FProxy => d_proxy d
  | FHostname => d_hostname d
  | FMachineId => option_map write_code (d_machine_id d)
  | FWorkloadIdentity => option_map (fun x => to_le_bytes 4 (uid x) ++ to_le_bytes 4 (gid x)) (d_identity d)
  | FResources => option_map (fun x => to_le_bytes 4 (cpus x) ++ to_le_bytes 8 (memory x)) (d_resources d)
  end.

Definition is_identity (i : Identity) : Prop := len i = IDENTITY_LEN.

Definition is_restore (x : RestoreSection) : Prop :=
  len (transaction x) = TRANSACTION_LEN /\ 1 <= generation (template x) <= U64_MAX /\ is_identity (template_key (template x)).

Definition is_image (x : Image) : Prop :=
  is_identity (image_binding x) /\ match x with ImageGpt _ _ bound => is_u64 bound | ImageErofs _ _ => True end.

Definition is_upper (x : Upper) : Prop := match x with UpperScratch b _ => is_identity b | UpperTmpfs => True end.

Definition is_addr (a : IpAddr) : Prop :=
  match a with V4 b => 0 <= b < 2 ^ 32 | V6 b => 0 <= b < 2 ^ 128 end.

Definition is_workload_identity (x : WorkloadIdentity) : Prop := is_u32 (uid x) /\ is_u32 (gid x).
Definition is_resources (x : ExpectedResources) : Prop := is_u32 (cpus x) /\ is_u64 (memory x).

(** What holds of an optional value, if it is there. *)
Definition if_some {A} (P : A -> Prop) (o : option A) : Prop := match o with Some x => P x | None => True end.

Definition valid_slot (d : Draft) (f : Field) : Prop :=
  match f with
  | FRestore => if_some is_restore (d_restore d)
  | FImage => if_some (fun x => is_image x /\ image_expected x = None) (d_image d)
  | FImageIdentity => if_some is_uuid (d_image_identity d)
  | FUpper => if_some is_upper (d_upper d)
  | FExport => if_some (fun x => is_identity (plan x)) (d_export d)
  | FMappings => if_some (fun m => 1 <= m <= U16_MAX) (d_mappings d)
  | FNetwork => if_some (fun x => is_identity x.1) (d_network d)
  | FDns => if_some is_addr (d_dns d)
  | FProxy => if_some (fun p => is_utf8 p = true) (d_proxy d)
  | FWorkloadIdentity => if_some is_workload_identity (d_identity d)
  | FResources => if_some is_resources (d_resources d)
  | FOverlay | FHostname | FMachineId => True
  end.

(** The draft [d] with the field of another one. *)
Definition put (f : Field) (from d : Draft) : Draft :=
  match f with
  | FRestore => d <| d_restore := d_restore from |>
  | FImage => d <| d_image := d_image from |>
  | FImageIdentity => d <| d_image_identity := d_image_identity from |>
  | FUpper => d <| d_upper := d_upper from |>
  | FOverlay => d <| d_overlay := d_overlay from |>
  | FExport => d <| d_export := d_export from |>
  | FMappings => d <| d_mappings := d_mappings from |>
  | FNetwork => d <| d_network := d_network from |>
  | FDns => d <| d_dns := d_dns from |>
  | FProxy => d <| d_proxy := d_proxy from |>
  | FHostname => d <| d_hostname := d_hostname from |>
  | FMachineId => d <| d_machine_id := d_machine_id from |>
  | FWorkloadIdentity => d <| d_identity := d_identity from |>
  | FResources => d <| d_resources := d_resources from |>
  end.

(** ** One field's value *)

Lemma take_value_app n fd l p q : len p = n -> take_value n (mkValue fd l (p ++ q)) = Ok (p, mkValue fd l q).
Proof.
  intros Hp. unfold take_value. cbn [v_rest v_field v_length]. rewrite (proj2 (Z.leb_le _ _)) by len_lia.
  rewrite ztake_app_l, ztake_all, zdrop_app_r by lia. by rewrite Hp, Z.sub_diag, zdrop_0 by lia.
Qed.

Lemma take_value_ok n fd l s p v : 0 <= n ->
  take_value n (mkValue fd l s) = Ok (p, v) <-> len p = n /\ exists q, s = p ++ q /\ v = mkValue fd l q.
Proof.
  intros Hn. split.
  - unfold take_value. cbn [v_rest v_field v_length]. destruct (Z.leb_spec n (len s)); [|done].
    intros Hr%ok_inj. injection Hr as <- <-. split; [rewrite len_ztake; lia|].
    exists (zdrop n s). by rewrite ztake_zdrop.
  - intros (Hp & q & -> & ->). by apply take_value_app.
Qed.

(** What the decoder relies on of the codes. *)
Class CodeLaws (T : Type) `{Code T} := {
  code_byte : forall x : T, 0 <= code x < 256;
  code_exact : forall c (x : T), from_code c = Some x <-> c = code x;
}.

Ltac prove_code :=
  split; [intros []; cbn; lia|]; intros c x; cbn [from_code code format_code journal_code overlay_code export_code publication_code machine_code];
  destruct (Z.eqb_spec c 1); [|destruct (Z.eqb_spec c 2)]; destruct x; split; intros; simplify_eq; (done || lia).

#[export] Instance format_code_laws : CodeLaws ImageFormat. Proof. prove_code. Qed.
#[export] Instance journal_code_laws : CodeLaws Journal. Proof. prove_code. Qed.
#[export] Instance overlay_code_laws : CodeLaws OverlayMode. Proof. prove_code. Qed.
#[export] Instance export_code_laws : CodeLaws ExportKind. Proof. prove_code. Qed.
#[export] Instance publication_code_laws : CodeLaws Publication. Proof. prove_code. Qed.
#[export] Instance machine_code_laws : CodeLaws MachineIdMode. Proof. prove_code. Qed.

Lemma one_byte p : len p = 1 -> exists b, p = [b] /\ from_le_bytes p = byte_val b.
Proof.
  intros Hp. destruct p as [|b [|]]; try (autorewrite with wire in Hp; len_facts; lia).
  exists b. split; [done|]. cbn. lia.
Qed.

Lemma take_code_ok T `{CodeLaws T} fd l s (x : T) v :
  take_code T (mkValue fd l s) = Ok (x, v) <-> exists q, s = write_code x ++ q /\ v = mkValue fd l q.
Proof.
  unfold take_code. rewrite result_bind_ok. split.
  - intros ([p v1] & Ht & Hr). apply take_value_ok in Ht as (Hp & q & -> & ->); [|lia].
    apply result_bind_ok in Hr as (y & Hy%ok_or_ok & Hr%ok_inj). injection Hr as <- <-.
    destruct (one_byte p Hp) as (b & -> & Hb). rewrite Hb in Hy. apply code_exact in Hy.
    exists q. unfold write_code. by rewrite <- Hy, byte_of_val.
  - intros (q & -> & ->). exists (write_code x, mkValue fd l q). split; [by apply take_value_app|]. cbn beta iota.
    replace (from_le_bytes (write_code x)) with (code x).
    + by rewrite (proj2 (code_exact _ x) eq_refl).
    + unfold write_code. cbn [from_le_bytes]. rewrite byte_val_of, Z.mod_small by apply code_byte. lia.
Qed.

Lemma end_value_ok v : end_value v = Ok () <-> v_rest v = [].
Proof. unfold end_value. by destruct (bool_decide_reflect (v_rest v = [])). Qed.

(** Inverts the reads of a value. *)
Ltac inv_value :=
  repeat match goal with
  | H : mbind _ _ = Ok _ |- _ => apply result_bind_ok in H; destruct H as (? & ? & ?)
  | H : (let '(_, _) := ?p in _) = Ok _ |- _ => destruct p
  | H : take_value _ _ = Ok _ |- _ => apply take_value_ok in H; [destruct H as (? & ? & -> & ->)|unfold IDENTITY_LEN, TRANSACTION_LEN; lia]
  | H : @take_code ?T _ _ = Ok _ |- _ => apply (take_code_ok T) in H; destruct H as (? & -> & ->)
  | u : () |- _ => destruct u
  | H : Ok _ = Ok _ |- _ => apply ok_inj in H; injection H as <- <-
  | H : (if ?b then Err _ else _) = Ok _ |- _ => destruct b eqn:?; [discriminate H|]
  | H : (if ?b then _ else Err _) = Ok _ |- _ => destruct b eqn:?; [|discriminate H]
  end.

Lemma len_rev {A} (l : list A) : len (rev l) = len l.
Proof. unfold len. by rewrite length_rev. Qed.

Lemma octets_of n p : len p = Z.of_nat n -> rev (to_le_bytes n (from_le_bytes (rev p))) = p.
Proof. intros Hp. rewrite to_from_le_bytes by (by rewrite len_rev). apply rev_involutive. Qed.

Lemma octets_range p : 0 <= from_le_bytes (rev p) < 256 ^ len p.
Proof. rewrite <- len_rev. apply from_le_bytes_range. Qed.

(** The ranges of the integers that a value holds. *)
Ltac le_ranges :=
  repeat match goal with
  | H : len ?l = 8 |- _ => pose proof (from_le_u64 l H); clear H
  | H : len ?l = 4 |- _ => pose proof (from_le_u32 l H); clear H
  | H : len ?l = 2 |- _ => pose proof (from_le_u16 l H); clear H
  end.

Ltac eval_slot :=
  cbn [valid_slot slot put update d_restore d_image d_image_identity d_upper d_overlay d_export d_mappings d_network
       d_dns d_proxy d_hostname d_machine_id d_identity d_resources if_some option_map
       transaction template generation template_key uuid_bytes kind plan fst snd uid gid cpus memory
       write_image write_upper image_format image_binding image_expected octets addr_v4 addr_v6].

(** A value that reads is that of the field that it sets, and well-formed. *)
Lemma read_field_sound d f v d' :
  read_field d f v = Ok d' -> valid_slot d' f /\ slot d' f = Some v /\ d' = put f d' d.
Proof.
  unfold read_field, new_value. intros H. apply result_bind_ok in H as ([d1 v1] & Hr & H).
  apply result_bind_ok in H as ([] & He%end_value_ok & ->%ok_inj).
  destruct f; cbn [read_value rest_value v_rest v_field v_length] in Hr; inv_value.
  2: destruct i; inv_value.
  5: { destruct (one_byte l ltac:(assumption)) as (b & -> & Hb). rewrite Hb in *.
       destruct (Z.eqb_spec (byte_val b) TMPFS) as [Ht|]; [|destruct (Z.eqb_spec (byte_val b) SCRATCH_UPPER) as [Ht|]; [|done]];
         rewrite <- (byte_of_val b), Ht; inv_value; cbn [v_rest] in He; subst;
         (split; [|split; [|reflexivity]]); eval_slot; by rewrite ?app_nil_r. }
  9: destruct (Z.eqb_spec (len v) 4); inv_value.
  all: cbn [v_rest] in He; subst; (split; [|split; [|reflexivity]]); eval_slot; unfold write_restore, write_image; eval_slot;
    rewrite ?app_nil_r, ?to_from_le_bytes, ?octets_of by assumption; try done.
  all: bool_to_prop; unfold is_restore, is_image, is_addr, is_workload_identity, is_resources, is_identity; eval_slot.
  all: repeat match goal with
    | H : len ?l = 4 |- context [rev ?l] => pose proof (octets_range l) as Ho; rewrite H in Ho; exact Ho
    | H : len ?l = 16 |- context [rev ?l] => pose proof (octets_range l) as Ho; rewrite H in Ho; exact Ho
    end.
  all: le_ranges; unfold is_u16, is_u32, is_u64 in *; repeat split; (assumption || lia).
Qed.

Lemma octets_addr n b : 0 <= b < 256 ^ Z.of_nat n -> from_le_bytes (rev (rev (to_le_bytes n b))) = b.
Proof. intros Hb. rewrite rev_involutive, from_to_le_bytes. by apply Z.mod_small. Qed.

Lemma put_slot f from d : slot (put f from d) f = slot from f /\ (valid_slot from f -> valid_slot (put f from d) f).
Proof. by destruct f. Qed.

Lemma put_other f g from d : f <> g -> slot (put f from d) g = slot d g /\ (valid_slot d g -> valid_slot (put f from d) g).
Proof. by destruct f, g. Qed.

Lemma put_none f from d : slot from f = None -> slot d f = None -> put f from d = d.
Proof.
  assert (Hn : forall A B (w : A -> B) o, option_map w o = None -> o = None) by (by intros ? ? ? []).
  intros Hf Hd. destruct d, f; cbn [slot put] in *; try apply Hn in Hf; try apply Hn in Hd;
    cbn [d_restore d_image d_image_identity d_upper d_overlay d_export d_mappings d_network
         d_dns d_proxy d_hostname d_machine_id d_identity d_resources] in *; by rewrite Hf, Hd.
Qed.

Lemma take_value_last n fd l p : len p = n -> take_value n (mkValue fd l p) = Ok (p, mkValue fd l []).
Proof. intros Hp. rewrite <- (app_nil_r p) at 1. by apply take_value_app. Qed.

Lemma take_code_app T `{CodeLaws T} fd l (x : T) q :
  take_code T (mkValue fd l (write_code x ++ q)) = Ok (x, mkValue fd l q).
Proof. apply (take_code_ok T). by exists q. Qed.

Lemma take_code_last T `{CodeLaws T} fd l (x : T) : take_code T (mkValue fd l (write_code x)) = Ok (x, mkValue fd l []).
Proof. rewrite <- (app_nil_r (write_code x)). apply (take_code_app T). Qed.

(** Runs the reads of a value that was written. *)
Ltac run_value :=
  repeat (first [ rewrite take_value_app by (done || apply len_to_le_bytes)
                | rewrite take_value_last by (done || apply len_to_le_bytes)
                | match goal with |- context [@take_code ?T _ _] => first [rewrite (take_code_app T) | rewrite (take_code_last T)] end ]; cbn [mbind result_bind]).

(** The value of a well-formed field reads back. *)
Lemma read_field_complete d f v from :
  valid_slot from f -> slot from f = Some v -> read_field d f v = Ok (put f from d).
Proof.
  unfold read_field, new_value. generalize (len v) at 1. intros n Hv Hs.
  assert (Hr : read_value d f v (mkValue f n v) = Ok (put f from d, mkValue f n [])); [|by rewrite Hr].
  destruct f; cbn [slot put valid_slot] in *;
    match type of Hs with option_map _ ?o = _ => destruct o as [x|]; [|done] | ?o = _ => rewrite Hs in * end;
    cbn [option_map if_some] in *; try (apply (inj Some) in Hs; subst v); cbn [read_value].
  - destruct x as [t [g k]]. destruct Hv as (Ht & Hg & Hk). cbn [transaction template generation template_key] in *.
    unfold write_restore. cbn [transaction template generation template_key]. run_value.
    rewrite u64_le_roundtrip by (unfold is_u64; lia). destruct (Z.eqb_spec g 0); [lia|]. by run_value.
  - destruct Hv as [[Hb Hx] He].
    destruct x as [b u|b u bound]; cbn [write_image image_format image_binding image_expected] in *; subst u;
      unfold write_image; cbn [image_format]; run_value; [done|].
    by rewrite u64_le_roundtrip.
  - destruct x as [u]. cbn [uuid_bytes]. by run_value.
  - destruct x as [|b j]; cbn [write_upper]; [reflexivity|]. cbn [is_upper] in Hv.
    rewrite take_value_app by done. cbn [mbind result_bind]. change (from_le_bytes [byte_of SCRATCH_UPPER]) with 2.
    change (2 =? TMPFS) with false. change (2 =? SCRATCH_UPPER) with true. cbn iota. by run_value.
  - by run_value.
  - destruct x as [k b]. cbn [kind plan] in *. by run_value.
  - run_value. rewrite u16_le_roundtrip by (unfold is_u16; lia). destruct (Z.eqb_spec x 0); [lia|done].
  - destruct x as [b q]. cbn [fst snd] in *. by run_value.
  - destruct x as [b|b]; cbn [octets is_addr] in *; rewrite !len_rev, !len_to_le_bytes;
      change (Z.of_nat 4 =? 4) with true; change (Z.of_nat 16 =? 4) with false; cbn iota;
      rewrite take_value_last by (by rewrite len_rev, len_to_le_bytes); cbn [mbind result_bind];
      unfold addr_v4, addr_v6; by rewrite octets_addr.
  - cbn [rest_value v_rest v_field v_length]. by rewrite Hv.
  - done.
  - by run_value.
  - destruct x as [u g], Hv as [Hu Hg]. cbn [uid gid] in *. run_value. by rewrite !u32_le_roundtrip.
  - destruct x as [c m], Hv as [Hc Hm]. cbn [cpus memory] in *. run_value. by rewrite u32_le_roundtrip, u64_le_roundtrip.
Qed.

(** ** The fields of a record, in their order *)

Definition frame (f : Field) (v : list byte) : list byte := [byte_of (field_tag f)] ++ [byte_of (len v)] ++ v.

Definition slot_frame (d : Draft) (f : Field) : list byte :=
  match slot d f with Some v => frame f v | None => [] end.

(** The encoding of a draft's fields. *)
Definition frames (d : Draft) : list byte := concat (map (slot_frame d) ALL).

Lemma tag_byte f : byte_val (byte_of (field_tag f)) = field_tag f.
Proof. by destruct f. Qed.

Lemma field_tag_inj f g : field_tag f = field_tag g -> f = g.
Proof. by destruct f, g. Qed.

Lemma from_tag_exact t f : from_tag t = Some f <-> t = field_tag f.
Proof.
  split.
  - intros H. apply find_some in H as [_ H]. by apply Z.eqb_eq in H.
  - intros ->. by destruct f.
Qed.

(** [ALL] is in the order of the tags. *)
Lemma all_sorted : StronglySorted (fun f g => field_tag f < field_tag g) ALL.
Proof. repeat constructor. Qed.

Lemma all_order pre f post : ALL = pre ++ f :: post ->
  Forall (fun g => field_tag g < field_tag f) pre /\ Forall (fun g => field_tag f < field_tag g) post.
Proof.
  intros Ha. pose proof all_sorted as Hs. rewrite Ha in Hs. split; apply Forall_forall; intros g Hg.
  - apply StronglySorted_app in Hs as [Hs _]. apply Hs; [done|by left].
  - apply StronglySorted_app_1_r, StronglySorted_cons in Hs as [Hs _].
    rewrite Forall_forall in Hs. by apply Hs.
Qed.

Lemma all_fields f : exists pre post, ALL = pre ++ f :: post.
Proof. apply list_elem_of_split, (bool_decide_unpack _). by destruct f. Qed.

Lemma frames_put d d' f v : slot d' f = Some v -> d' = put f d' d ->
  (forall g, field_tag f <= field_tag g -> slot d g = None) -> frames d' = frames d ++ frame f v.
Proof.
  intros Hs Hp Hn. destruct (all_fields f) as (pre & post & Ha). destruct (all_order _ _ _ Ha) as [Hpre Hpost].
  assert (Ho : forall g, f <> g -> slot_frame d' g = slot_frame d g).
  { intros g Hg. unfold slot_frame. rewrite Hp at 1. by rewrite (proj1 (put_other f g d' d Hg)). }
  assert (Hz : forall l, Forall (fun g => field_tag f < field_tag g) l -> concat (map (slot_frame d) l) = []).
  { induction 1 as [|g l Hg Hl IH]; [done|]. cbn [map concat]. rewrite IH, app_nil_r. unfold slot_frame. by rewrite Hn by lia. }
  assert (He : forall l, Forall (fun g => f <> g) l -> map (slot_frame d') l = map (slot_frame d) l).
  { induction 1 as [|g l Hg Hl IH]; [done|]. cbn [map]. by rewrite IH, Ho. }
  unfold frames. rewrite Ha, !map_app, !concat_app. cbn [map concat].
  rewrite He by (eapply Forall_impl; [exact Hpre|]; intros g Hg ->; lia).
  rewrite He by (eapply Forall_impl; [exact Hpost|]; intros g Hg ->; lia).
  rewrite (Hz post Hpost). unfold slot_frame at 2 4. by rewrite Hs, Hn, !app_nil_r by lia.
Qed.

(** What the loop keeps: the fields that it has seen are those of the draft, the last with the
    greatest tag. *)
Definition loop_inv (d : Draft) (seen : list Field) : Prop :=
  (forall f, valid_slot d f)
  /\ (forall f v, slot d f = Some v -> exists l, last seen = Some l /\ f ∈ seen /\ field_tag f <= field_tag l).

Lemma loop_inv_step d seen f v d' :
  loop_inv d seen -> (f ∉ seen) -> (forall l, last seen = Some l -> field_tag l <= field_tag f) ->
  read_field d f v = Ok d' -> loop_inv d' (seen ++ [f]) /\ frames d' = frames d ++ frame f v.
Proof.
  intros [Hv Hl] Hf Ho Hr. apply read_field_sound in Hr as (Hvf & Hs & Hp). split; [split|].
  - intros g. destruct (decide (f = g)) as [<-|Hg]; [done|]. rewrite Hp. by apply put_other.
  - intros g w Hg. exists f. rewrite last_snoc, elem_of_app, list_elem_of_singleton. split; [done|].
    destruct (decide (f = g)) as [<-|Hne]; [split; [by right|lia]|].
    rewrite Hp, (proj1 (put_other f g d' d Hne)) in Hg. destruct (Hl g w Hg) as (l & Hlast & Hin & Hle).
    split; [by left|]. specialize (Ho l Hlast). lia.
  - apply (frames_put _ _ _ _ Hs Hp). intros g Hg. destruct (slot d g) as [w|] eqn:Hw; [|done].
    destruct (Hl g w Hw) as (l & Hlast & Hin & Hle). specialize (Ho l Hlast).
    assert (g = f) by (apply field_tag_inj; lia). by subst g.
Qed.

Lemma decode_loop_sound rounds d seen rest d' :
  loop_inv d seen -> decode_loop rounds d seen rest = Ok d' ->
  (forall f, valid_slot d' f) /\ frames d' = frames d ++ rest.
Proof.
  revert d seen rest. induction rounds as [|rounds IH]; intros d seen rest Hi.
  { destruct rest as [|t [|]]; cbn [decode_loop]; try done. intros <-%ok_inj. rewrite app_nil_r. split; [apply Hi|done]. }
  destruct rest as [|t [|n tail]]; cbn [decode_loop]; try done.
  { intros <-%ok_inj. rewrite app_nil_r. split; [apply Hi|done]. }
  intros H. apply result_bind_ok in H as (f & Hf%ok_or_ok & H). apply from_tag_exact in Hf.
  destruct (bool_decide_reflect (f ∈ seen)) as [|Hnew]; [done|]. destruct (match last seen with Some _ => _ | None => _ end) eqn:Hlast; [done|].
  destruct (Z.ltb_spec (len tail) (byte_val n)) as [|Hn]; [done|].
  apply result_bind_ok in H as (d1 & Hr & H).
  destruct (loop_inv_step _ _ _ _ _ Hi Hnew ltac:(intros l Hl; rewrite Hl in Hlast; apply Z.ltb_ge in Hlast; lia) Hr) as [Hi1 Hfr].
  destruct (IH _ _ _ Hi1 H) as [Hv He]. split; [done|]. rewrite He, Hfr, <- app_assoc. f_equal.
  unfold frame. pose proof (byte_val_range n). rewrite len_ztake, Z.min_l, Z.max_r, <- Hf, !byte_of_val by lia.
  cbn [app]. by rewrite ztake_zdrop.
Qed.

Lemma put_fold from : foldl (fun d f => put f from d) empty_draft ALL = from.
Proof. by destruct from. Qed.

Lemma decode_loop_complete from pre post d seen rounds :
  ALL = pre ++ post -> (forall f, valid_slot from f) -> (forall f v, slot from f = Some v -> len v <= 255) ->
  (forall g, g ∈ post -> slot d g = None) -> (forall g, g ∈ seen -> g ∈ pre) ->
  (length (concat (map (slot_frame from) post)) <= rounds)%nat ->
  decode_loop rounds d seen (concat (map (slot_frame from) post)) = Ok (foldl (fun d f => put f from d) d post).
Proof.
  intros Ha Hv Hlen. revert pre d seen rounds Ha. induction post as [|f post IH]; intros pre d seen rounds Ha Hn Hs Hr.
  { by destruct rounds. }
  assert (Hd : forall g, g ∈ post -> f <> g).
  { intros g Hg <-. assert (Hnd : NoDup ALL) by (apply (bool_decide_unpack _); vm_compute; exact I).
    rewrite Ha in Hnd. apply NoDup_app in Hnd as (_ & _ & Hnd). by apply NoDup_cons in Hnd as [? _]. }
  assert (Hpost : forall g, g ∈ post -> slot (put f from d) g = None).
  { intros g Hg. rewrite (proj1 (put_other f g from d (Hd g Hg))). apply Hn. by right. }
  rewrite <- (app_nil_r pre), <- app_assoc in Ha. cbn [app] in Ha. rewrite (cons_middle f), app_assoc in Ha.
  cbn [map concat foldl] in *. unfold slot_frame at 1. unfold slot_frame at 1 in Hr. destruct (slot from f) as [v|] eqn:Hf.
  2:{ rewrite put_none in Hpost |- * by (done || (apply Hn; by left)). cbn [app] in *. apply (IH _ _ _ _ Ha); [done| |done].
      intros g Hg. apply elem_of_app. left. by apply Hs. }
  unfold frame in *. cbn [app length] in *. destruct rounds as [|rounds]; [lia|]. cbn [decode_loop].
  rewrite tag_byte, (proj2 (from_tag_exact _ f) eq_refl). cbn [ok_or mbind result_bind].
  assert (Hp : forall g, g ∈ pre -> field_tag g < field_tag f).
  { apply Forall_forall. apply (all_order pre f post). by rewrite Ha, <- app_assoc. }
  rewrite bool_decide_eq_false_2 by (intros Hin; pose proof (Hp f (Hs f Hin)); lia).
  replace (match last seen with Some l => field_tag f <? field_tag l | None => false end) with false.
  2:{ destruct (last seen) as [l|] eqn:Hl; [|done]. symmetry. apply Z.ltb_ge.
      enough (field_tag l < field_tag f) by lia. apply Hp, Hs. apply last_Some in Hl as [s ->]. apply elem_of_app. right. by left. }
  pose proof (Hlen f v Hf). pose proof (len_nonneg v).
  rewrite byte_val_of, Z.mod_small, (proj2 (Z.ltb_ge _ _)) by len_lia.
  rewrite ztake_app_l, ztake_all, zdrop_app_r, Z.sub_diag, zdrop_0 by lia.
  rewrite (read_field_complete d f v from (Hv f) Hf). cbn [mbind result_bind].
  apply (IH _ _ _ _ Ha); [done| |rewrite length_app in Hr; lia].
  intros g. rewrite !elem_of_app. intros [Hg|Hg]; [left; by apply Hs|by right].
Qed.

(** ** Records and their drafts *)

Definition bare_image (x : Image) : Image :=
  match x with ImageErofs b _ => ImageErofs b None | ImageGpt b _ bound => ImageGpt b None bound end.

(** The draft that a record's encoding gives. *)
Definition draft_of (r : ActivationRecord) : Draft :=
  let c := configuration r in
  mkDraft (restore r) (Some (bare_image (c_image c))) (image_expected (c_image c)) (Some (c_upper c)) (Some (c_overlay c))
    (c_export c) (if is_some (c_export c) then Some (c_mappings c) else None)
    (option_map (fun n => (policy n, publication n)) (c_network c)) (n ← c_network c; dns n) (n ← c_network c; proxy n)
    (Some (hostname (c_workload c))) (Some (machine_id (c_workload c))) (workload_identity (c_workload c))
    (Some (c_resources c)).

Definition is_network (n : Network) : Prop :=
  is_identity (policy n) /\ if_some is_addr (dns n) /\ if_some (fun p => is_utf8 p = true) (proxy n).

(** The types' own promises: array lengths, integer ranges, a nonzero generation, UTF-8 strings. *)
Definition well_typed (r : ActivationRecord) : Prop :=
  let c := configuration r in
  if_some is_restore (restore r) /\ is_image (c_image c) /\ if_some is_uuid (image_expected (c_image c))
  /\ is_upper (c_upper c) /\ if_some (fun x => is_identity (plan x)) (c_export c) /\ is_u64 (c_mappings c)
  /\ if_some is_network (c_network c) /\ if_some is_workload_identity (workload_identity (c_workload c))
  /\ is_resources (c_resources c).

(** A record that [ActivationRecord::new] admits. *)
Definition is_record (r : ActivationRecord) : Prop := well_typed r /\ check (configuration r) = Ok ().

(** What [check] says of the mappings, the proxy and the hostname. *)
Lemma check_limits c : check c = Ok () -> 0 <= c_mappings c ->
  (if is_some (c_export c) then 1 <= c_mappings c <= MAX_MAPPINGS else c_mappings c = 0)
  /\ if_some (fun p => 1 <= len p <= MAX_PROXY_ENDPOINT_BYTES) (n ← c_network c; proxy n)
  /\ 1 <= len (hostname (c_workload c)) <= MAX_HOSTNAME_BYTES.
Proof.
  assert (Hlen : forall l : list byte, l <> [] -> 1 <= len l).
  { intros l Hl. pose proof (len_nonneg l). rewrite <- len_zero_iff in Hl. lia. }
  unfold check. intros H Hm. apply result_bind_ok in H as (u1 & _ & H). apply result_bind_ok in H as (u2 & He & H).
  apply result_bind_ok in H as (u3 & Hp & H). cbn zeta in H. destruct (_ || _ || _) eqn:Hh; [done|]. clear H.
  bool_to_prop. split; [|split; [|auto]].
  - destruct (is_some (c_export c)); cbn [andb negb] in He.
    + destruct (Z.eqb_spec (c_mappings c) 0); [done|]. destruct (Z.ltb_spec MAX_MAPPINGS (c_mappings c)); [done|lia].
    + destruct (Z.leb_spec 1 (c_mappings c)); [done|lia].
  - destruct (n ← c_network c; proxy n) as [p|]; [|done]. cbn [if_some]. destruct (is_proxy_endpoint p) eqn:Hq; [|done].
    unfold is_proxy_endpoint in Hq. bool_to_prop. auto.
Qed.

Lemma draft_of_valid r f : is_record r -> valid_slot (draft_of r) f.
Proof.
  intros [(Hr & Hi & Hu & Hup & He & Hm & Hn & Hw & Hres) Hc]. pose proof (check_limits _ Hc ltac:(apply Hm)) as (Hl & _ & _).
  destruct f; cbn [valid_slot draft_of d_restore d_image d_image_identity d_upper d_overlay d_export d_mappings d_network
    d_dns d_proxy d_hostname d_machine_id d_identity d_resources if_some]; try done.
  - by destruct (c_image _).
  - destruct (is_some _); [|done]. cbn [if_some]. unfold MAX_MAPPINGS, MAX_HOST_MAPPINGS, U16_MAX in *. lia.
  - destruct (c_network _); [apply Hn|done].
  - destruct (c_network _); [apply Hn|done].
  - destruct (c_network _); [apply Hn|done].
Qed.

Lemma into_record_draft r : is_record r -> into_record (draft_of r) = Ok r.
Proof.
  destruct r as [rs [i u o e m n [h mi w] res]]. intros [(_ & _ & _ & _ & _ & Hm & _) Hc].
  pose proof (check_limits _ Hc ltac:(apply Hm)) as (Hl & _ & _).
  unfold into_record, draft_of. cbn [configuration restore c_image c_upper c_overlay c_export c_mappings c_network c_workload
    c_resources hostname machine_id workload_identity d_restore d_image d_image_identity d_upper d_overlay d_export
    d_mappings d_network d_dns d_proxy d_hostname d_machine_id d_identity d_resources ok_or mbind result_bind] in *.
  assert (Hi : set_expected (image_expected i) (bare_image i) = i) by (by destruct i as [b [u'|]|b [u'|] bo]). rewrite Hi.
  assert (Hm' : default 0 (if is_some e then Some m else None) = m) by (by destruct (is_some e)). rewrite Hm'.
  destruct n as [[p d q x]|]; cbn [option_map option_bind is_some policy dns publication proxy mbind result_bind];
    unfold new_record; by rewrite Hc.
Qed.

Lemma into_record_exact d r :
  (forall f, valid_slot d f) -> into_record d = Ok r -> is_record r /\ d = draft_of r.
Proof.
  intros Hv H. unfold into_record in H.
  apply result_bind_ok in H as (i & Hi%ok_or_ok & H). apply result_bind_ok in H as (u & Hu%ok_or_ok & H).
  apply result_bind_ok in H as (o & Ho%ok_or_ok & H). apply result_bind_ok in H as (h & Hh%ok_or_ok & H).
  apply result_bind_ok in H as (mi & Hmi%ok_or_ok & H). apply result_bind_ok in H as (res & Hres%ok_or_ok & H).
  cbn zeta in H. apply result_bind_ok in H as (n & Hn & H). unfold new_record in H.
  apply result_bind_ok in H as ([] & Hc & <-%ok_inj).
  pose proof (Hv FRestore) as V1. pose proof (Hv FImage) as V2. pose proof (Hv FImageIdentity) as V3. pose proof (Hv FUpper) as V4.
  pose proof (Hv FExport) as V5. pose proof (Hv FMappings) as V6. pose proof (Hv FNetwork) as V7. pose proof (Hv FDns) as V8.
  pose proof (Hv FProxy) as V9. pose proof (Hv FWorkloadIdentity) as V10. pose proof (Hv FResources) as V11. clear Hv.
  destruct d as [rs di ii du do e m dn dd dp dh dmi w dres].
  cbn [valid_slot d_restore d_image d_image_identity d_upper d_overlay d_export d_mappings d_network
    d_dns d_proxy d_hostname d_machine_id d_identity d_resources] in *. subst di du do dh dmi dres. cbn [if_some] in *.
  assert (Hm : is_u64 (default 0 m)).
  { destruct m as [m|]; cbn [from_option id if_some] in *; unfold is_u64, U16_MAX, U64_MAX in *; lia. }
  pose proof (check_limits _ Hc ltac:(apply Hm)) as (Hl & _ & _). cbn [c_export c_mappings] in Hl.
  assert (Hx : image_expected (set_expected ii i) = ii /\ bare_image (set_expected ii i) = i /\ is_image (set_expected ii i)).
  { destruct V2 as [V2 Hx]. destruct i as [b x|b x bo]; cbn [image_expected] in Hx; subst x; by destruct ii. }
  destruct Hx as (Hx1 & Hx2 & Hx3).
  assert (Hn' : if_some is_network n /\ dn = option_map (fun n => (policy n, publication n)) n
      /\ dd = (n ← n; dns n) /\ dp = (n ← n; proxy n)).
  { destruct dn as [[p q]|]; [apply ok_inj in Hn as <-; by repeat split|].
    destruct dd; [done|]. destruct dp; [done|]. by apply ok_inj in Hn as <-. }
  destruct Hn' as (Hn1 & -> & -> & ->). split; [split; [|done]|].
  - assert (V3' : if_some is_uuid (image_expected (set_expected ii i))) by (by rewrite Hx1).
    exact (conj V1 (conj Hx3 (conj V3' (conj V4 (conj V5 (conj Hm (conj Hn1 (conj V10 V11)))))))).
  - unfold draft_of. cbn [configuration restore c_image c_upper c_overlay c_export c_mappings c_network c_workload
      c_resources hostname machine_id workload_identity]. rewrite Hx1, Hx2. f_equal.
    destruct m as [m|], (is_some e); cbn [from_option id if_some] in *; try done; lia.
Qed.

(** ** The encoding *)

Lemma encoder_field_frame f parts e : encoder_field f parts e = e ++ frame f (concat parts).
Proof.
  assert (Hl : foldr Z.add 0 (map len parts) = len (concat parts)).
  { induction parts as [|p parts IH]; [done|]. cbn [map foldr concat]. by rewrite len_app, IH. }
  unfold encoder_field, frame. by rewrite Hl.
Qed.

(** Each part appends the frames of its fields. *)
Definition opt_frame (f : Field) (o : option (list byte)) : list byte :=
  match o with Some v => frame f v | None => [] end.

Lemma encode_restore_frame rs e : encode_restore rs e = e ++ opt_frame FRestore (option_map write_restore rs).
Proof.
  destruct rs as [[t [g k]]|]; cbn [encode_restore]; [|by rewrite app_nil_r].
  rewrite encoder_field_frame. unfold write_restore. cbn [concat opt_frame option_map transaction template generation template_key].
  by rewrite app_nil_r.
Qed.

Lemma encode_image_frame i e :
  encode_image i e = (e ++ opt_frame FImage (Some (write_image (bare_image i)))) ++ opt_frame FImageIdentity (option_map uuid_bytes (image_expected i)).
Proof.
  unfold encode_image. destruct i as [b [u|]|b [u|] bound]; cbn [image_expected image_format bare_image option_map opt_frame];
    rewrite ?encoder_field_frame; cbn [concat]; by rewrite ?app_nil_r.
Qed.

Lemma encode_upper_frame u e : encode_upper u e = e ++ opt_frame FUpper (Some (write_upper u)).
Proof. by destruct u; cbn [encode_upper]; rewrite encoder_field_frame. Qed.

Lemma encode_export_frame ex m e : 0 <= m < 2 ^ 16 ->
  encode_export ex m e = (e ++ opt_frame FExport (option_map (fun x => write_code (kind x) ++ plan x) ex))
    ++ opt_frame FMappings (option_map (to_le_bytes 2) (if is_some ex then Some m else None)).
Proof.
  intros Hm. destruct ex as [[k p]|]; cbn [encode_export is_some option_map opt_frame kind plan]; [|by rewrite !app_nil_r].
  rewrite Z.mod_small, !encoder_field_frame by done. cbn [concat]. by rewrite !app_nil_r.
Qed.

Lemma encode_network_frame n e :
  encode_network n e = ((e ++ opt_frame FNetwork (option_map (fun x => x.1 ++ write_code x.2) (option_map (fun n => (policy n, publication n)) n)))
    ++ opt_frame FDns (option_map octets (n ← n; dns n))) ++ opt_frame FProxy (n ← n; proxy n).
Proof.
  destruct n as [[p d q x]|]; cbn [encode_network option_map mbind option_bind policy publication dns proxy opt_frame fst snd];
    [|by rewrite !app_nil_r].
  destruct d, x; cbn [option_map opt_frame]; rewrite !encoder_field_frame; cbn [concat]; by rewrite ?app_nil_r.
Qed.

Lemma encode_workload_frame w e :
  encode_workload w e = ((e ++ opt_frame FHostname (Some (hostname w))) ++ opt_frame FMachineId (Some (write_code (machine_id w))))
    ++ opt_frame FWorkloadIdentity (option_map (fun x => to_le_bytes 4 (uid x) ++ to_le_bytes 4 (gid x)) (workload_identity w)).
Proof.
  destruct w as [h mi [[u g]|]]; unfold encode_workload; cbn [hostname machine_id workload_identity option_map opt_frame uid gid];
    rewrite !encoder_field_frame; cbn [concat]; by rewrite ?app_nil_r.
Qed.

(** The encoder writes the frames of the record's draft. *)
Lemma encode_frames r : is_record r -> encode r = new_encoder ++ frames (draft_of r).
Proof.
  intros [(_ & _ & _ & _ & _ & Hm & _) Hc]. pose proof (check_limits _ Hc ltac:(apply Hm)) as (Hl & _ & _).
  assert (Hm' : 0 <= c_mappings (configuration r) < 2 ^ 16).
  { unfold MAX_MAPPINGS, MAX_HOST_MAPPINGS in Hl. destruct (is_some _); lia. }
  unfold encode. cbn zeta. rewrite encode_restore_frame, encode_image_frame, encode_upper_frame, encode_export_frame,
    encode_network_frame, encode_workload_frame, !encoder_field_frame by done.
  cbn [concat]. rewrite !app_nil_r, <- !app_assoc. reflexivity.
Qed.

(** The longest value of each field. *)
Definition max_len (f : Field) : Z :=
  match f with
  | FRestore => 56 | FImage => 41 | FImageIdentity => 16 | FUpper => 34 | FOverlay => 1 | FExport => 33 | FMappings => 2
  | FNetwork => 33 | FDns => 16 | FProxy => 255 | FHostname => 64 | FMachineId => 1 | FWorkloadIdentity => 8 | FResources => 12
  end.

Lemma slot_len r f v : is_record r -> slot (draft_of r) f = Some v -> len v <= max_len f.
Proof.
  intros Hr. pose proof (fun g => draft_of_valid r g Hr) as Hv. destruct Hr as [(_ & _ & _ & _ & _ & Hm & _) Hc].
  pose proof (check_limits _ Hc ltac:(apply Hm)) as (_ & Hp & Hh). clear Hc Hm. specialize (Hv f).
  destruct f; cbn [slot max_len valid_slot] in *.
  all: try (match goal with |- option_map ?w ?o = Some ?v -> _ =>
         destruct o as [x|]; [|done]; cbn [option_map if_some] in *; intros Hs; apply (inj Some) in Hs; subst v end).
  - destruct Hv as (Ht & _ & Hk). unfold write_restore. rewrite !len_app, len_to_le_bytes, Ht, Hk. done.
  - destruct Hv as [[Hb _] _]. destruct x; unfold write_image; rewrite !len_app, ?len_to_le_bytes;
      cbn [image_binding] in Hb; rewrite Hb; done.
  - by rewrite Hv.
  - destruct x as [|b j]; cbn [write_upper is_upper] in *; [done|]. rewrite !len_app, Hv. done.
  - done.
  - rewrite len_app, Hv. done.
  - by rewrite len_to_le_bytes.
  - rewrite len_app, Hv. done.
  - destruct x; cbn [octets]; rewrite len_rev, len_to_le_bytes; done.
  - cbn [draft_of d_proxy]. intros Hs. rewrite Hs in Hp. apply Hp.
  - cbn [draft_of d_hostname]. intros Hs. apply (inj Some) in Hs. subst v. apply Hh.
  - done.
  - by rewrite len_app, !len_to_le_bytes.
  - by rewrite len_app, !len_to_le_bytes.
Qed.

Lemma encode_length r : is_record r -> len (encode r) <= 602.
Proof.
  intros Hr. rewrite encode_frames by done. rewrite len_app. unfold new_encoder. rewrite len_to_le_bytes.
  assert (Hf : forall f, len (slot_frame (draft_of r) f) <= 2 + max_len f).
  { intros f. unfold slot_frame. destruct (slot (draft_of r) f) as [v|] eqn:Hs.
    - pose proof (slot_len r f v Hr Hs). unfold frame. rewrite !len_app. unfold len at 1 2. cbn [length]. lia.
    - destruct f; done. }
  assert (Ha : forall l, len (concat (map (slot_frame (draft_of r)) l)) <= foldr (fun f n => 2 + max_len f + n) 0 l).
  { induction l as [|f l IH]; cbn [map concat foldr]; [done|]. rewrite len_app. pose proof (Hf f). lia. }
  pose proof (Ha ALL) as Hz. change (foldr _ 0 ALL) with 600 in Hz. unfold frames. lia.
Qed.

Lemma decode_exact bytes r : decode bytes = Ok r <-> is_record r /\ bytes = encode r.
Proof.
  split.
  - unfold decode. destruct (Z.ltb_spec MAX_RECORD_BYTES (len bytes)) as [|Hmax]; [done|].
    destruct (Z.ltb_spec (len bytes) VERSION_LEN) as [|Hmin]; [done|].
    destruct (Z.eqb_spec (from_le_bytes (ztake VERSION_LEN bytes)) VERSION) as [Hver|]; [|done]. cbn [negb].
    intros H. apply result_bind_ok in H as (d & Hl & H).
    apply decode_loop_sound in Hl as [Hv Hfr]; [|split; [by intros []|by intros []]].
    destruct (into_record_exact d r Hv H) as [Hr ->]. split; [done|].
    rewrite encode_frames, Hfr by done. change (frames empty_draft) with (@nil byte). cbn [app].
    rewrite <- (ztake_zdrop VERSION_LEN bytes) at 1. f_equal. unfold new_encoder. rewrite <- Hver.
    symmetry. apply to_from_le_bytes. rewrite len_ztake. unfold VERSION_LEN in *. lia.
  - intros [Hr ->]. pose proof (encode_length r Hr) as Hmax. unfold decode. rewrite encode_frames in Hmax |- * by done.
    assert (Hn : len new_encoder = VERSION_LEN) by apply len_to_le_bytes.
    rewrite (proj2 (Z.ltb_ge _ _)) by (unfold MAX_RECORD_BYTES; lia).
    rewrite (proj2 (Z.ltb_ge _ _)) by (rewrite len_app, Hn; pose proof (len_nonneg (frames (draft_of r))); lia).
    rewrite ztake_app_l, ztake_all, zdrop_app_r, Hn, Z.sub_diag, zdrop_0 by lia.
    replace (from_le_bytes new_encoder) with VERSION by reflexivity. rewrite Z.eqb_refl. cbn [negb].
    unfold frames at 2. rewrite (decode_loop_complete (draft_of r) [] ALL); [|done|..].
    + rewrite put_fold. cbn [mbind result_bind]. by apply into_record_draft.
    + intros f. by apply draft_of_valid.
    + intros f v Hs. pose proof (slot_len r f v Hr Hs). assert (max_len f <= 255) by (by destruct f). lia.
    + by intros [].
    + intros g Hg. by apply elem_of_nil in Hg.
    + done.
Qed.

(** A round per byte is enough: more rounds change nothing, so that the loop never ends for the lack
    of one. *)
Lemma decode_loop_rounds n m d seen rest : (length rest <= n)%nat -> (length rest <= m)%nat ->
  decode_loop n d seen rest = decode_loop m d seen rest.
Proof.
  revert m d seen rest. induction n as [|n IH]; intros m d seen rest Hn Hm; destruct rest as [|t [|b tail]];
    cbn [length] in *; try lia; destruct m as [|m]; try lia; try done.
  cbn [decode_loop]. destruct (from_tag (byte_val t)) as [f|]; cbn [ok_or mbind result_bind]; [|done].
  destruct (bool_decide (f ∈ seen)); [done|]. destruct (match last seen with Some _ => _ | None => _ end); [done|].
  destruct (len tail <? byte_val b); [done|]. destruct (read_field d f _) as [d1|]; cbn [mbind result_bind]; [|done].
  apply IH; unfold zdrop; rewrite length_drop; lia.
Qed.

Lemma decode_ready_exact bytes a :
  decode_ready bytes = Ok a <-> if_some (fun t => len t = TRANSACTION_LEN) (ready_transaction a) /\ bytes = encode_ready a.
Proof.
  assert (Hb : forall b c, 0 <= c < 256 -> byte_val b = c <-> b = byte_of c).
  { intros b c Hc. split; [intros <-; by rewrite byte_of_val|]. intros ->. by rewrite byte_val_of, Z.mod_small. }
  destruct a as [t]. unfold decode_ready, encode_ready. cbn [ready_transaction]. destruct bytes as [|b tail].
  { split; [done|]. by destruct t; intros [_ ?]. }
  destruct (Z.eqb_spec (byte_val b) COLD) as [Hc|Hc]; cbn [andb].
  - apply Hb in Hc as ->; [|done]. change (byte_val (byte_of COLD) =? CLONE) with false. cbn iota.
    destruct (bool_decide_reflect (tail = [])) as [->|Ht].
    + split; [intros Hr%ok_inj; injection Hr as <-; done|]. by destruct t; intros [_ ?].
    + split; [done|]. destruct t; intros [_ He]; [by apply (f_equal (hd (byte_of COLD))) in He|]. by injection He.
  - destruct (Z.eqb_spec (byte_val b) CLONE) as [Hc'|Hc'].
    + apply Hb in Hc' as ->; [|done]. destruct (Z.eqb_spec (len tail) TRANSACTION_LEN) as [Hl|Hl]; split.
      * intros Hr%ok_inj. injection Hr as <-. by split.
      * destruct t; intros [Ht He]; [by injection He as <-|]. by apply (f_equal (hd (byte_of CLONE))) in He.
      * done.
      * destruct t; intros [Ht He]; [by injection He as <-|]. by apply (f_equal (hd (byte_of CLONE))) in He.
    + split; [done|]. destruct t; intros [_ He]; injection He as -> _; [by destruct Hc'|by destruct Hc].
Qed.

(** C27: The decoder reads exactly the bytes that the encoder writes for the records that
    [ActivationRecord::new] admits, each back to its record: every record has one encoding, no other
    bytes are taken, and what is read keeps every limit and type. The same holds of what Ready
    reports. *)
Theorem activation_codec_exact :
  (forall bytes r, decode bytes = Ok r <-> is_record r /\ bytes = encode r)
  /\ (forall bytes a, decode_ready bytes = Ok a <->
        if_some (fun t => len t = TRANSACTION_LEN) (ready_transaction a) /\ bytes = encode_ready a).
Proof. split; [exact decode_exact|exact decode_ready_exact]. Qed.

(** A record with every field at its largest. *)
Definition largest_record : ActivationRecord :=
  let id := replicate 32 (byte_of 0xa5) in
  mkRecord (Some (mkRestore (replicate 16 (byte_of 7)) (mkTemplate U64_MAX id)))
    (mkConfiguration (ImageGpt id (Some (mkUuid (replicate 16 (byte_of 9)))) U64_MAX) (UpperScratch id Forbidden) UntrustedLowers
       (Some (mkExport Aggregate id)) MAX_MAPPINGS
       (Some (mkNetwork id (Some (V6 (2 ^ 128 - 1))) Unpublished (Some (replicate 255 (byte_of 120)))))
       (mkWorkloadView (replicate 64 (byte_of 104)) MachineGenerated (Some (mkWorkloadIdentity 1000 1000)))
       (mkResources U32_MAX U64_MAX)).

Lemma largest_is_record : is_record largest_record.
Proof. split; [|reflexivity]. by repeat split. Qed.

(** Every record's encoding fits in the bytes that a record may take, with no field longer than its
    length byte counts: at most 602 bytes, which the largest record takes. *)
Theorem activation_encoding_bounded r : is_record r ->
  len (encode r) <= 602 /\ len (encode r) <= MAX_RECORD_BYTES
  /\ forall f v, slot (draft_of r) f = Some v -> len v <= max_len f <= U8_MAX.
Proof.
  intros Hr. pose proof (encode_length r Hr). split; [done|]. split; [unfold MAX_RECORD_BYTES; lia|].
  intros f v Hs. split; [by apply (slot_len r)|by destruct f].
Qed.

Lemma activation_encoding_bounded_witness :
  is_record largest_record /\ len (encode largest_record) = 602 /\ len (encode largest_record) <= MAX_RECORD_BYTES.
Proof.
  split; [exact largest_is_record|]. split; [reflexivity|].
  apply (activation_encoding_bounded largest_record largest_is_record).
Defined.
