(* ===== verification/CloneSession.v ===== *)
(** * The activation of a clone (src/nvx-rs/src/guest/clone/activation.rs)

    The state machine of a repaired clone's restricted control session, which takes the clone's
    configuration from the host in one Activate, whose record [Activation] decodes, behind the
    caller's fence of workload admission. A call that takes [&mut self] returns the new state and
    its result. Boxed errors of the application are a type parameter, and so is the fence, of which
    the machine uses [open] alone. *)

From S2P Require Import Prelude Uuid Cidr Maps BootTokens Activation ExecTypes.

(** [AdmissionFence]: the part that the activation uses. *)
Class AdmissionFence (F : Type) := open : F -> F.

#[export] Instance Resources_eq_dec : EqDecision ExpectedResources.
Proof. solve_decision. Defined.

Inductive ActivationState : Type := SBootstrap | SRestricted | SActivating | SReady | SStarted | SFailed.

#[export] Instance ActivationState_eq_dec : EqDecision ActivationState.
Proof. solve_decision. Defined.

Inductive ActivationCause (E : Type) : Type :=
| CExpired
| CReset
| CRequest
| CRecord (error : ActivationError)
| CCold
| CResources (expected actual : ExpectedResources)
| CTransaction (accepted offered : TransactionId)
| CChanged
| CFailed (error : E)
| CCompletion
| CStart.
Arguments CExpired {E}. Arguments CReset {E}. Arguments CRequest {E}. Arguments CRecord {E}. Arguments CCold {E}.
Arguments CResources {E}. Arguments CTransaction {E}. Arguments CChanged {E}. Arguments CFailed {E}.
Arguments CCompletion {E}. Arguments CStart {E}.

Record ActivationFailure (E : Type) := mkFailure {
  f_state : ActivationState;
  f_cause : ActivationCause E;
}.
Arguments mkFailure {E}. Arguments f_state {E}. Arguments f_cause {E}.

Record Accepted := mkAccepted {
  a_record : list byte;
  a_transaction : TransactionId;
  a_ready : ReadyActivation;
}.

Inductive State (E : Type) : Type :=
| Bootstrap
| Restricted
| Activating (accepted : Accepted)
| Ready (accepted : Accepted)
| Started (accepted : Accepted)
| Failed (failure : ActivationFailure E).
Arguments Bootstrap {E}. Arguments Restricted {E}. Arguments Activating {E}. Arguments Ready {E}.
Arguments Started {E}. Arguments Failed {E}.

Inductive ActivationInput : Type :=
| IReset
| IFlow
| IActivate (record : list byte)
| ITooLong (length : Z)
| IRequest.

Inductive ActivationAction : Type :=
| AAcknowledge
| AContinue
| AApply (record : ActivationRecord)
| AJoin
| AReady (ready : ReadyActivation)
| AServe.

(** [Activation<F>]; [E] is the type of the application's errors. *)
Record Activation (E F : Type) := mkActivation {
  fence : F;
  resources : ExpectedResources;
  deadline_at : option Z;
  state : State E;
}.
Arguments mkActivation {E F}. Arguments fence {E F}. Arguments resources {E F}. Arguments deadline_at {E F}.
Arguments state {E F}.

Section Machine.
Context {E F : Type} `{AdmissionFence F}.

#[local] Abbreviation Self := (Activation E F).
#[local] Abbreviation Outcome A := (Self * result (ActivationFailure E) A)%type.

(** [State::name]. *)
Definition name (self : State E) : ActivationState :=
  match self with
  | Bootstrap => SBootstrap
  | Restricted => SRestricted
  | Activating _ => SActivating
  | Ready _ => SReady
  | Started _ => SStarted
  | Failed _ => SFailed
  end.

Definition set_state (self : Self) (s : State E) : Self :=
  mkActivation (fence self) (resources self) (deadline_at self) s.

(** [Activation::with_resources]; [Activation::new] passes it what the repair reports. *)
Definition with_resources (resources : ExpectedResources) (acknowledged_at : option Z) (fence : F) (timeout now : Z) : Self :=
  let start := default now acknowledged_at in
  mkActivation fence resources (after start timeout) Bootstrap.

(** [Activation::deadline]. *)
Definition deadline (self : Self) : option Z :=
  match state self with
  | Bootstrap | Restricted | Activating _ => deadline_at self
  | Ready _ | Started _ | Failed _ => None
  end.

(** [Activation::established]. *)
Definition established (self : Self) : option ReadyActivation :=
  match state self with
  | Ready accepted | Started accepted => Some (a_ready accepted)
  | _ => None
  end.

(** [Activation::fail]: the failure that the activation keeps, and the activation. *)
Definition fail (self : Self) (cause : ActivationCause E) : Self * ActivationFailure E :=
  match state self with
  | Failed failure => (self, failure)
  | _ =>
      let failure := mkFailure (name (state self)) cause in
      (set_state self (Failed failure), failure)
  end.

(** [return Err(self.fail(cause))]. *)
Definition fails {A} (self : Self) (cause : ActivationCause E) : Outcome A :=
  let '(self, failure) := fail self cause in (self, Err failure).

(** [Activation::check]. *)
Definition check_now (self : Self) (now : Z) : Outcome () :=
  match state self with
  | Failed failure => (self, Err failure)
  | _ =>
      match deadline self with
      | Some deadline => if deadline <=? now then fails self CExpired else (self, Ok ())
      | None => (self, Ok ())
      end
  end.

(** [Accepted::refusal]. *)
Definition refusal (self : Accepted) (record : list byte) : ActivationCause E :=
  match decode record with
  | Err error => CRecord error
  | Ok decoded =>
      match restore decoded with
      | None => CCold
      | Some restore =>
          if negb (bool_decide (transaction restore = a_transaction self)) then
            CTransaction (a_transaction self) (transaction restore)
          else CChanged
      end
  end.

(** [Activation::accept]. *)
Definition accept (self : Self) (record : list byte) : Outcome ActivationAction :=
  match decode record with
  | Err error => fails self (CRecord error)
  | Ok decoded =>
      match restore decoded with
      | None => fails self CCold
      | Some restore =>
          let expected := c_resources (configuration decoded) in
          if negb (bool_decide (expected = resources self)) then fails self (CResources expected (resources self))
          else (set_state self (Activating (mkAccepted record (transaction restore) (ready_of decoded))), Ok (AApply decoded))
      end
  end.

(** [Activation::retry]. *)
Definition retry (self : Self) (record : list byte) : Outcome ActivationAction :=
  let answer (accepted : Accepted) (ready : bool) : Outcome ActivationAction :=
    if bool_decide (a_record accepted = record) then
      (self, Ok (if ready then AReady (a_ready accepted) else AJoin))
    else fails self (refusal accepted record) in
  match state self with
  | Activating accepted => answer accepted false
  | Ready accepted | Started accepted => answer accepted true
  | _ => fails self CRequest
  end.

(** [let ()? = self.check(now)]. *)
Definition checked {A} (self : Self) (now : Z) (k : Self -> Outcome A) : Outcome A :=
  match check_now self now with
  | (self, Err failure) => (self, Err failure)
  | (self, Ok _) => k self
  end.

(** [Activation::input]. *)
Definition input (self : Self) (now : Z) (i : ActivationInput) : Outcome ActivationAction :=
  checked self now (fun self =>
    match name (state self), i with
    | _, IFlow => (self, Ok AContinue)
    | SBootstrap, IReset => (set_state self Restricted, Ok AAcknowledge)
    | SReady, IReset | SStarted, IReset => (self, Ok AAcknowledge)
    | _, IReset => fails self CReset
    | SRestricted, IActivate record => accept self record
    | SActivating, IActivate record | SReady, IActivate record | SStarted, IActivate record => retry self record
    | SRestricted, ITooLong length | SActivating, ITooLong length | SReady, ITooLong length | SStarted, ITooLong length =>
        fails self (CRecord (ETooLong length))
    | SReady, IRequest | SStarted, IRequest => (self, Ok AServe)
    | _, IActivate _ | _, ITooLong _ | _, IRequest => fails self CRequest
    end).

(** [Activation::complete]. *)
Definition complete (self : Self) (now : Z) (r : result E ()) : Outcome ReadyActivation :=
  checked self now (fun self =>
    match state self with
    | Activating accepted =>
        match r with
        | Err error => fails self (CFailed error)
        | Ok _ =>
            let self := set_state self (Ready accepted) in
            (mkActivation (open (fence self)) (resources self) (deadline_at self) (state self), Ok (a_ready accepted))
        end
    | _ => fails self CCompletion
    end).

(** [Activation::start]. *)
Definition start (self : Self) : Outcome () :=
  match state self with
  | Failed failure => (self, Err failure)
  | Ready accepted => (set_state self (Started accepted), Ok ())
  | _ => fails self CStart
  end.

(** [Activation::tick]. *)
Definition tick (self : Self) (now : Z) : Outcome () := check_now self now.

(** ** Runs *)

Inductive Call : Type :=
| CallInput (now : Z) (i : ActivationInput)
| CallComplete (now : Z) (r : result E ())
| CallStart
| CallTick (now : Z).

Inductive Answer : Type :=
| Action (a : ActivationAction)
| Completed (ready : ReadyActivation)
| Done
| Refused (failure : ActivationFailure E).

Definition answer_of {A} (f : A -> Answer) (r : result (ActivationFailure E) A) : Answer :=
  match r with Ok a => f a | Err failure => Refused failure end.

Definition call (self : Self) (c : Call) : Self * Answer :=
  match c with
  | CallInput now i => let '(self, r) := input self now i in (self, answer_of Action r)
  | CallComplete now r => let '(self, r) := complete self now r in (self, answer_of Completed r)
  | CallStart => let '(self, r) := start self in (self, answer_of (fun _ => Done) r)
  | CallTick now => let '(self, r) := tick self now in (self, answer_of (fun _ => Done) r)
  end.

(** The calls of a run with their answers. *)
Fixpoint run (self : Self) (calls : list Call) : Self * list (Call * Answer) :=
  match calls with
  | [] => (self, [])
  | c :: calls =>
      let '(self, a) := call self c in
      let '(self, trace) := run self calls in
      (self, (c, a) :: trace)
  end.

(** ** What calls do *)

(** Where the activation is, or failed. *)
Definition phase (self : Self) : ActivationState :=
  match state self with Failed failure => f_state failure | s => name s end.

(** A record that the clone may apply. *)
Definition acceptable_record (expected : ExpectedResources) (r : ActivationRecord) : Prop :=
  is_record r /\ is_some (restore r) = true /\ c_resources (configuration r) = expected.

(** The accepted Activate of a record. *)
Definition accepted_of (r : ActivationRecord) (a : Accepted) : Prop :=
  a_record a = encode r /\ a_ready a = ready_of r.

Definition before_deadline (self : Self) (now : Z) : Prop := forall d, deadline self = Some d -> now < d.

Definition not_failed (self : Self) : Prop := name (state self) <> SFailed.

Lemma fails_exact {A} (self : Self) cause : not_failed self ->
  fails (A := A) self cause =
    (set_state self (Failed (mkFailure (name (state self)) cause)), Err (mkFailure (name (state self)) cause)).
Proof. unfold fails, fail, not_failed. by destruct (state self). Qed.

(** A check passes before the deadline, keeps a failure, and else fails the activation. *)
Lemma check_now_exact self now :
  (not_failed self /\ before_deadline self now /\ check_now self now = (self, Ok ()))
  \/ (exists failure, state self = Failed failure /\ check_now self now = (self, Err failure))
  \/ (not_failed self /\ ~ before_deadline self now /\ check_now self now = fails self CExpired).
Proof.
  unfold check_now, not_failed, before_deadline, deadline.
  destruct (state self) as [| | | | |failure] eqn:Hs; cbn [name]; [..|right; left; by exists failure].
  all: try (left; split; [done|split; [done|done]]).
  all: destruct (deadline_at self) as [d|]; [|left; done]; destruct (Z.leb_spec d now) as [Hd|Hd];
    [right; right; split; [done|split; [|done]]; intros Hb; specialize (Hb d eq_refl); lia
    |left; split; [done|split; [|done]]; by intros ? [= <-]].
Qed.

(** An Activate of the restricted session is accepted exactly when it holds the encoding of a record
    that the clone may apply. *)
Lemma accept_exact self record r self' :
  accept self record = (self', Ok (AApply r)) <->
  acceptable_record (resources self) r /\ record = encode r
  /\ exists a, accepted_of r a /\ self' = set_state self (Activating a)
       /\ forall rs, restore r = Some rs -> a_transaction a = transaction rs.
Proof.
  unfold accept, acceptable_record, accepted_of. split.
  - destruct (decode record) as [d|e] eqn:Hd; [|unfold fails; by destruct (fail _ _)]. apply decode_exact in Hd as [Hr ->].
    destruct (restore d) as [rs|] eqn:Hrs; [|unfold fails; by destruct (fail _ _)].
    destruct (bool_decide_reflect (c_resources (configuration d) = resources self)) as [He|]; cbn [negb];
      [|unfold fails; by destruct (fail _ _)].
    intros Ha. injection Ha as <- <-. rewrite Hrs. split; [done|]. split; [done|].
    exists (mkAccepted (encode d) (transaction rs) (ready_of d)). split; [by split|].
    split; [done|]. by intros ? [= <-].
  - intros ((Hr & Hs & He) & -> & a & [Ha1 Ha2] & -> & Ht).
    rewrite (proj2 (decode_exact _ _) (conj Hr eq_refl)). destruct (restore r) as [rs|]; [|done].
    rewrite bool_decide_eq_true_2 by done. cbn [negb]. destruct a as [x y z]. cbn [a_record a_ready a_transaction] in *.
    subst x z. by rewrite (Ht rs eq_refl).
Qed.

(** ** The session's rules

    What each state takes, as the table of [Activation] lists it. *)

Definition is_open (s : State E) (a : Accepted) : Prop := s = Ready a \/ s = Started a.

Inductive step (self : Self) : Call -> Answer -> Self -> Prop :=
| step_tick now : not_failed self -> before_deadline self now -> step self (CallTick now) Done self
| step_flow now : not_failed self -> before_deadline self now -> step self (CallInput now IFlow) (Action AContinue) self
| step_reset now : state self = Bootstrap -> before_deadline self now ->
    step self (CallInput now IReset) (Action AAcknowledge) (set_state self Restricted)
| step_accept now r a : state self = Restricted -> before_deadline self now ->
    acceptable_record (resources self) r -> accepted_of r a ->
    step self (CallInput now (IActivate (encode r))) (Action (AApply r)) (set_state self (Activating a))
| step_join now a : state self = Activating a -> before_deadline self now ->
    step self (CallInput now (IActivate (a_record a))) (Action AJoin) self
| step_complete now a : state self = Activating a -> before_deadline self now ->
    step self (CallComplete now (Ok ())) (Completed (a_ready a))
      (mkActivation (open (fence self)) (resources self) (deadline_at self) (Ready a))
| step_later_reset now a : is_open (state self) a -> step self (CallInput now IReset) (Action AAcknowledge) self
| step_ready now a : is_open (state self) a -> step self (CallInput now (IActivate (a_record a))) (Action (AReady (a_ready a))) self
| step_serve now a : is_open (state self) a -> step self (CallInput now IRequest) (Action AServe) self
| step_start a : state self = Ready a -> step self CallStart Done (set_state self (Started a))
| step_refuse c failure : f_state failure = phase self -> (not_failed self \/ state self = Failed failure) ->
    step self c (Refused failure) (set_state self (Failed failure)).

Lemma set_failed (self : Self) failure : state self = Failed failure -> set_state self (Failed failure) = self.
Proof. destruct self as [f r d s]. unfold set_state. cbn [state fence resources deadline_at]. by intros ->. Qed.

Lemma phase_name (self : Self) : not_failed self -> phase self = name (state self).
Proof. unfold phase, not_failed. by destruct (state self). Qed.

Lemma step_fails self c cause : not_failed self ->
  step self c (Refused (mkFailure (name (state self)) cause)) (set_state self (Failed (mkFailure (name (state self)) cause))).
Proof. intros Hn. apply step_refuse; [|by left]. cbn [f_state]. by rewrite phase_name. Qed.

(** A call behind the check does what its continuation does, or is refused. *)
Lemma checked_step {A} (f : A -> Answer) self c now (k : Self -> Outcome A) self' a :
  (let '(self, r) := checked self now k in (self, answer_of f r)) = (self', a) ->
  (not_failed self -> before_deadline self now ->
     (let '(self, r) := k self in (self, answer_of f r)) = (self', a) -> step self c a self') ->
  step self c a self'.
Proof.
  unfold checked. destruct (check_now_exact self now) as [(Hn & Hb & ->)|[(failure & Hs & ->)|(Hn & _ & ->)]]; intros Hc Hk.
  - by apply Hk.
  - cbn [answer_of] in Hc. injection Hc as <- <-. rewrite <- (set_failed self failure Hs) at 2.
    apply step_refuse; [|by right]. unfold phase. by rewrite Hs.
  - rewrite fails_exact in Hc by done. cbn [answer_of] in Hc. injection Hc as <- <-. by apply step_fails.
Qed.

Lemma accept_cases self record :
  (exists self' r, accept self record = (self', Ok (AApply r))) \/ exists cause, accept self record = fails self cause.
Proof.
  unfold accept. destruct (decode record) as [d|e]; [|by eauto]. destruct (restore d) as [rs|]; [|by eauto].
  destruct (negb _); by eauto.
Qed.

(** Refusals of the continuation. *)
Ltac refuse Hc := rewrite fails_exact in Hc by done; cbn [answer_of] in Hc; injection Hc as <- <-; by apply step_fails.

Lemma input_step self now i self' a :
  call self (CallInput now i) = (self', a) -> step self (CallInput now i) a self'.
Proof.
  cbn [call]. unfold input. intros Hcall. refine (checked_step _ _ _ _ _ _ _ Hcall _). clear Hcall.
  intros Hn Hb Hc. destruct (state self) as [| |x|x|x|failure] eqn:Hs; [..|exfalso; apply Hn; by rewrite Hs];
    cbn [name] in Hc; destruct i as [| |record|n|]; try refuse Hc.
  all: try (cbn [answer_of] in Hc; injection Hc as <- <-; first [by apply step_flow | by apply step_reset
         | apply (step_later_reset _ _ x); by (left + right) | apply (step_serve _ _ x); by (left + right)]).
  - destruct (accept_cases self record) as [(s1 & r & Ha)|(cause & Ha)]; rewrite Ha in Hc; [|refuse Hc].
    cbn [answer_of] in Hc. injection Hc as -> <-. apply accept_exact in Ha as (Hr & -> & y & Hy & -> & _).
    by apply step_accept.
  - unfold retry in Hc. rewrite Hs in Hc. destruct (bool_decide_reflect (a_record x = record)) as [<-|]; [|refuse Hc].
    cbn [answer_of] in Hc. injection Hc as <- <-. by apply step_join.
  - unfold retry in Hc. rewrite Hs in Hc. destruct (bool_decide_reflect (a_record x = record)) as [<-|]; [|refuse Hc].
    cbn [answer_of] in Hc. injection Hc as <- <-. apply step_ready. by left.
  - unfold retry in Hc. rewrite Hs in Hc. destruct (bool_decide_reflect (a_record x = record)) as [<-|]; [|refuse Hc].
    cbn [answer_of] in Hc. injection Hc as <- <-. apply step_ready. by right.
Qed.

Lemma call_step self c self' a : call self c = (self', a) -> step self c a self'.
Proof.
  destruct c as [now i|now r| |now]; [apply input_step| | |].
  - cbn [call]. unfold complete. intros Hcall. refine (checked_step _ _ _ _ _ _ _ Hcall _). clear Hcall.
    intros Hn Hb Hc. destruct (state self) as [| |x|x|x|failure] eqn:Hs; try refuse Hc.
    destruct r as [[]|e]; [|refuse Hc]. cbn [answer_of set_state fence resources deadline_at state] in Hc.
    injection Hc as <- <-. by apply step_complete.
  - cbn [call]. unfold start. intros Hc. destruct (state self) as [| |x|x|x|failure] eqn:Hs.
    6:{ cbn [answer_of] in Hc. injection Hc as <- <-. rewrite <- (set_failed self failure Hs) at 2.
        apply step_refuse; [|by right]. unfold phase. by rewrite Hs. }
    4:{ cbn [answer_of] in Hc. injection Hc as <- <-. by apply step_start. }
    all: rewrite fails_exact in Hc by (unfold not_failed; by rewrite Hs); cbn [answer_of] in Hc; injection Hc as <- <-;
      apply step_fails; unfold not_failed; by rewrite Hs.
  - cbn [call]. unfold tick. intros Hc.
    refine (checked_step (fun _ : () => Done) self _ now (fun self => (self, Ok ())) self' a _ _).
    + rewrite <- Hc. unfold checked. by destruct (check_now self now) as [s1 [[]|]].
    + intros Hn Hb Hk. cbn [answer_of] in Hk. injection Hk as <- <-. by apply step_tick.
Qed.

(** ** Histories *)

(** The records that a run's answers apply, and what its completions report. *)
Definition applied (trace : list (Call * Answer)) : list ActivationRecord :=
  omap (fun p => match p.2 with Action (AApply r) => Some r | _ => None end) trace.

Definition completed (trace : list (Call * Answer)) : list ReadyActivation :=
  omap (fun p => match p.2 with Completed x => Some x | _ => None end) trace.

(** What has happened up to the phase of [self], from the fence [f0]. *)
Definition history (f0 : F) (self : Self) (trace : list (Call * Answer)) : Prop :=
  match phase self with
  | SBootstrap | SRestricted => applied trace = [] /\ completed trace = [] /\ fence self = f0
  | SActivating => exists r, applied trace = [r] /\ acceptable_record (resources self) r /\ completed trace = []
      /\ fence self = f0 /\ forall a, state self = Activating a -> accepted_of r a
  | SReady | SStarted => exists r, applied trace = [r] /\ acceptable_record (resources self) r
      /\ completed trace = [ready_of r] /\ fence self = open f0 /\ forall a, is_open (state self) a -> accepted_of r a
  | SFailed => False
  end.

(** An answer that neither applies nor completes leaves the history as it is. *)
Definition silent (a : Answer) : Prop :=
  match a with Action (AApply _) | Completed _ => False | _ => True end.

Lemma history_silent f0 self trace c a : silent a -> history f0 self trace -> history f0 self (trace ++ [(c, a)]).
Proof.
  intros Ha. unfold history, applied, completed. rewrite !omap_app.
  destruct a as [[]| | |]; cbn [silent] in Ha; try done; cbn [omap list_omap snd]; by rewrite !app_nil_r.
Qed.

Lemma history_step f0 self trace c a self' :
  history f0 self trace -> step self c a self' -> history f0 self' (trace ++ [(c, a)]).
Proof.
  intros Hh Hstep. destruct Hstep; try (by apply history_silent).
  - apply history_silent; [done|]. unfold history, phase in *. rewrite H0 in Hh. exact Hh.
  - unfold history, phase in *. rewrite H0 in Hh. cbn [state set_state name fence resources] in *.
    destruct Hh as (Ha & Hc & Hf). unfold applied, completed in *. rewrite !omap_app, Ha, Hc.
    exists r. do 4 (split; [done|]). by intros ? [= <-].
  - unfold history, phase in *. rewrite H0 in Hh. cbn [state set_state name fence resources] in *.
    destruct Hh as (r & Ha & Hr & Hc & Hf & Hx). unfold applied, completed in *. rewrite !omap_app, Ha, Hc, Hf.
    exists r. destruct (Hx a eq_refl) as [_ Hy]. cbn [omap list_omap snd app]. rewrite Hy.
    do 4 (split; [done|]). intros b [[= <-]|[=]]. by apply Hx.
  - apply history_silent; [done|]. unfold history, phase in *. rewrite H0 in Hh.
    cbn [state set_state name fence resources] in *.
    destruct Hh as (r & Ha & Hr & Hc & Hf & Hx). exists r. do 4 (split; [done|]).
    intros b [[=]|[= <-]]. apply Hx. by left.
  - apply history_silent; [done|]. unfold history in *. unfold phase at 1. cbn [state set_state fence resources]. rewrite H0.
    destruct (phase self) eqn:Hp; try done.
    + destruct Hh as (r & Ha & Hr & Hc & Hf & Hx). by exists r.
    + destruct Hh as (r & Ha & Hr & Hc & Hf & Hx). exists r. do 4 (split; [done|]). by intros b [|].
    + destruct Hh as (r & Ha & Hr & Hc & Hf & Hx). exists r. do 4 (split; [done|]). by intros b [|].
Qed.

(** What a completion, and an answer of the open session, take. *)
Lemma step_answers f0 self trace c a self' :
  history f0 self trace -> step self c a self' ->
  (a = Action AServe -> completed trace <> [])
  /\ (forall x, a = Action (AReady x) -> completed trace = [x])
  /\ (forall x, a = Completed x -> exists now, c = CallComplete now (Ok ()) /\ forall d, deadline_at self = Some d -> now < d)
  /\ resources self' = resources self /\ deadline_at self' = deadline_at self.
Proof.
  intros Hh Hstep. unfold history, phase in Hh. destruct Hstep; (split; [|split; [|split]]); try done.
  - intros x _. exists now. split; [done|]. intros d Hd. apply H1. unfold deadline. by rewrite H0.
  - intros x [= <-]. destruct H0 as [Hs|Hs]; rewrite Hs in Hh; destruct Hh as (r & _ & _ & Hc & _ & Hx);
      rewrite Hc; [destruct (Hx a ltac:(left; done)) as [_ ->]|destruct (Hx a ltac:(right; done)) as [_ ->]]; done.
  - intros _. destruct H0 as [Hs|Hs]; rewrite Hs in Hh; by destruct Hh as (r & _ & _ & -> & _).
Qed.

(** What a whole run keeps, from a state with a history. *)
Lemma run_history f0 self before calls self' trace :
  history f0 self before -> run self calls = (self', trace) ->
  history f0 self' (before ++ trace) /\ resources self' = resources self /\ deadline_at self' = deadline_at self
  /\ forall pre c a post, trace = pre ++ (c, a) :: post ->
       (a = Action AServe -> completed (before ++ pre) <> [])
       /\ (forall x, a = Action (AReady x) -> completed (before ++ pre) = [x])
       /\ (forall x, a = Completed x -> exists now, c = CallComplete now (Ok ()) /\ forall d, deadline_at self = Some d -> now < d).
Proof.
  revert self before trace. induction calls as [|c calls IH]; intros self before trace Hh; cbn [run].
  { intros [= <- <-]. rewrite app_nil_r. do 3 (split; [done|]). intros [|] ? ? ? [=]. }
  destruct (call self c) as [s1 a] eqn:Hc. destruct (run s1 calls) as [s2 t2] eqn:Hr. intros [= <- <-].
  apply call_step in Hc. destruct (step_answers _ _ _ _ _ _ Hh Hc) as (Hs & Hx & Hd & Hres & Hdl).
  destruct (IH s1 (before ++ [(c, a)]) t2 (history_step _ _ _ _ _ _ Hh Hc) Hr) as (Hh2 & Hres2 & Hdl2 & Ht).
  rewrite <- app_assoc in Hh2. split; [exact Hh2|]. split; [congruence|]. split; [congruence|].
  intros [|p pre] c' a' post; cbn [app].
  - intros [= <- <- _]. rewrite app_nil_r. done.
  - intros [= <- Hp]. specialize (Ht pre c' a' post Hp). rewrite <- app_assoc in Ht. rewrite Hdl in Ht. exact Ht.
Qed.

(** C22: Over every run of a repaired clone's session, whatever the host and the adapter do, at most
    one record is applied, a valid clone's record that expects the clone's own resources, and its
    application completes at most once, before the deadline; the workload's fence, which opens once,
    is open exactly when it did; and requests are served, and retries answered Ready with that very
    report, only after it. *)
Theorem clone_activates_once (expected : ExpectedResources) acknowledged_at (f0 : F) timeout now0 calls self trace :
  run (with_resources expected acknowledged_at f0 timeout now0) calls = (self, trace) ->
  ((applied trace = [] /\ completed trace = [] /\ fence self = f0)
   \/ (exists r, applied trace = [r] /\ acceptable_record expected r /\
         ((completed trace = [] /\ fence self = f0)
          \/ (completed trace = [ready_of r] /\ fence self = open f0))))
  /\ forall pre c a post, trace = pre ++ (c, a) :: post ->
       (a = Action AServe -> completed pre <> [])
       /\ (forall x, a = Action (AReady x) -> completed pre = [x])
       /\ (forall x, a = Completed x -> exists now, c = CallComplete now (Ok ())
            /\ forall d, after (default now0 acknowledged_at) timeout = Some d -> now < d).
Proof.
  intros Hr. apply (run_history f0 _ []) in Hr as (Hh & Hres & _ & Ht); [|done]. split; [|exact Ht].
  cbn [app] in Hh. unfold history in Hh. rewrite Hres in Hh. destruct (phase self); try done; try (by left); right.
  - destruct Hh as (r & Ha & Hr & Hc & Hf & _). exists r. auto.
  - destruct Hh as (r & Ha & Hr & Hc & Hf & _). exists r. auto.
  - destruct Hh as (r & Ha & Hr & Hc & Hf & _). exists r. auto.
Qed.

(** A failure is final and never opens the fence: it leaves the activation failed, and every later
    call returns the same failure and changes nothing. *)
Theorem clone_failure_final (self : Self) c failure self' :
  call self c = (self', Refused failure) ->
  fence self' = fence self /\ state self' = Failed failure /\ established self' = None /\ deadline self' = None
  /\ forall calls, run self' calls = (self', map (fun c => (c, Refused failure)) calls).
Proof.
  intros Hc. apply call_step in Hc. inversion Hc as [| | | | | | | | | |c0 f0 Hp Hs]; subst.
  do 4 (split; [done|]). induction calls as [|c1 calls IH]; [done|]. cbn [run map].
  assert (H1 : call (set_state self (Failed failure)) c1 = (set_state self (Failed failure), Refused failure)) by (by destruct c1).
  by rewrite H1, IH.
Qed.

(** ** A host that keeps to the protocol *)

Lemma run_app self calls calls' :
  run self (calls ++ calls') =
    let '(self, trace) := run self calls in
    let '(self, trace') := run self calls' in
    (self, trace ++ trace').
Proof.
  revert self. induction calls as [|c calls IH]; intros self; cbn [app run]; [by destruct (run self calls')|].
  destruct (call self c) as [s1 a]. rewrite IH. destruct (run s1 calls) as [s2 t2]. by destruct (run s2 calls').
Qed.

(** A check that passes. *)
Lemma checked_pass {A} (self : Self) now (k : Self -> Outcome A) :
  not_failed self -> before_deadline self now -> checked self now k = k self.
Proof.
  intros Hn Hb. unfold checked. destruct (check_now_exact self now) as [(_ & _ & ->)|[(f & Hs & _)|(_ & Hd & _)]]; [done| |done].
  unfold not_failed in Hn. by rewrite Hs in Hn.
Qed.

(** Calls that each answer without changing the state. *)
Lemma run_constant {T} (self : Self) (l : list T) (f : T -> Call) (g : T -> Answer) :
  Forall (fun x => call self (f x) = (self, g x)) l -> run self (map f l) = (self, map (fun x => (f x, g x)) l).
Proof. induction 1 as [|x l Hx _ IH]; [done|]. cbn [map run]. by rewrite Hx, IH. Qed.

(** While activating, flow control goes on and a retry of the Activate joins. *)
Definition meanwhile (r : ActivationRecord) (m : Z * bool) : Call :=
  CallInput m.1 (if m.2 then IActivate (encode r) else IFlow).

Lemma call_meanwhile self r a m : state self = Activating a -> accepted_of r a -> before_deadline self m.1 ->
  call self (meanwhile r m) = (self, Action (if m.2 then AJoin else AContinue)).
Proof.
  intros Hs [Ha _] Hb. cbn [call meanwhile]. unfold input. rewrite checked_pass by (done || (unfold not_failed; by rewrite Hs)).
  rewrite Hs. cbn [name]. destruct m as [t [|]]; cbn [snd]; [|done].
  unfold retry. rewrite Hs, bool_decide_eq_true_2 by done. done.
Qed.

Lemma call_retry self r a t : state self = Ready a -> accepted_of r a ->
  call self (CallInput t (IActivate (encode r))) = (self, Action (AReady (ready_of r))).
Proof.
  intros Hs [Ha Hr]. cbn [call]. unfold input.
  rewrite checked_pass by (unfold not_failed, before_deadline, deadline; by rewrite Hs).
  rewrite Hs. cbn [name]. unfold retry. by rewrite Hs, bool_decide_eq_true_2, Hr.
Qed.

(** C23: A host that resets the session, sends the encoding of a record that the clone may apply, and
    meanwhile sends nothing but flow control and retries, all before the deadline, activates the
    clone: the record comes out as the host encoded it, each retry joins, the completion reports the
    record's transaction and opens the fence, and every later retry gets the same report. *)
Theorem clone_activation_completes (expected : ExpectedResources) acknowledged_at (f0 : F) timeout now0 r t_reset t_activate middle t_done retries :
  acceptable_record expected r ->
  Forall (fun t => forall d, after (default now0 acknowledged_at) timeout = Some d -> t < d)
    (t_reset :: t_activate :: t_done :: map fst middle) ->
  exists self trace,
    run (with_resources expected acknowledged_at f0 timeout now0)
      ([CallInput t_reset IReset; CallInput t_activate (IActivate (encode r))] ++ map (meanwhile r) middle
       ++ [CallComplete t_done (Ok ())] ++ map (fun t => CallInput t (IActivate (encode r))) retries) = (self, trace)
    /\ fence self = open f0 /\ established self = Some (ready_of r)
    /\ map snd trace = [Action AAcknowledge; Action (AApply r)] ++ map (fun m : Z * bool => Action (if m.2 then AJoin else AContinue)) middle
         ++ [Completed (ready_of r)] ++ map (fun _ => Action (AReady (ready_of r))) retries.
Proof.
  intros Hr Ht. apply Forall_cons in Ht as [Ht1 Ht]. apply Forall_cons in Ht as [Ht2 Ht]. apply Forall_cons in Ht as [Ht3 Ht4].
  set (self0 := with_resources expected acknowledged_at f0 timeout now0).
  set (self1 := set_state self0 Restricted).
  pose proof Hr as (Hrec & Hrs & _). destruct (restore r) as [rs|] eqn:Hrs'; [|done].
  set (a := mkAccepted (encode r) (transaction rs) (ready_of r)). assert (Hacc : accepted_of r a) by done.
  set (self2 := set_state self1 (Activating a)).
  set (self3 := mkActivation (open f0) expected (deadline_at self0) (Ready a) : Self).
  assert (C1 : call self0 (CallInput t_reset IReset) = (self1, Action AAcknowledge)).
  { cbn [call]. unfold input. by rewrite checked_pass. }
  assert (C2 : call self1 (CallInput t_activate (IActivate (encode r))) = (self2, Action (AApply r))).
  { cbn [call]. unfold input. rewrite checked_pass by done. cbn [name state self1 set_state].
    rewrite (proj2 (accept_exact self1 (encode r) r self2)); [done|]. split; [done|]. split; [done|].
    exists a. split; [done|]. split; [done|]. rewrite Hrs'. by intros ? [= <-]. }
  assert (C3 : call self2 (CallComplete t_done (Ok ())) = (self3, Completed (ready_of r))).
  { cbn [call]. unfold complete. by rewrite checked_pass. }
  eexists self3, _. split.
  - rewrite run_app. cbn [run]. rewrite C1, C2, run_app.
    rewrite (run_constant self2 middle (meanwhile r) (fun m : Z * bool => Action (if m.2 then AJoin else AContinue))).
    2:{ apply Forall_fmap in Ht4. eapply Forall_impl; [exact Ht4|]. intros m Hm. by apply (call_meanwhile self2 r a). }
    rewrite run_app. cbn [run]. rewrite C3.
    rewrite (run_constant self3 retries _ (fun _ => Action (AReady (ready_of r)))) by
      (apply Forall_forall; intros t _; by apply (call_retry self3 r a)).
    reflexivity.
  - do 2 (split; [done|]). rewrite !map_app. cbn [map]. by rewrite !map_map.
Qed.
End Machine.

(** ** A session *)

(** A fence that is open or not, and an adapter whose errors are texts. *)
#[local] Instance sample_fence : AdmissionFence bool := fun _ => true.

Definition sample_session : Activation string bool :=
  with_resources (mkResources U32_MAX U64_MAX) (Some 5) false 100 7.

Definition sample_calls : list (Call (E := string)) :=
  [CallInput 10 IReset; CallInput 20 IFlow; CallInput 30 (IActivate (encode largest_record));
   CallInput 40 (IActivate (encode largest_record)); CallComplete 50 (Ok ()); CallInput 300 IRequest; CallStart;
   CallInput 400 (IActivate (encode largest_record))].

Lemma largest_acceptable : acceptable_record (mkResources U32_MAX U64_MAX) largest_record.
Proof. split; [exact largest_is_record|]. by split. Qed.

Lemma clone_activates_once_witness :
  let '(self, trace) := run sample_session sample_calls in
  completed trace = [ready_of largest_record] /\ fence self = true
  /\ forall pre c a post, trace = pre ++ (c, a) :: post -> a = Action AServe -> completed pre <> [].
Proof.
  destruct (run sample_session sample_calls) as [self trace] eqn:Hr. pose proof Hr as Hv. vm_compute in Hv.
  apply clone_activates_once in Hr as [_ Ht]. split; [|split].
  - injection Hv as _ <-. reflexivity.
  - injection Hv as <- _. reflexivity.
  - intros pre c a post Hp. exact (proj1 (Ht pre c a post Hp)).
Defined.

Lemma clone_failure_final_witness :
  let '(self, a) := call sample_session (CallInput 10 IRequest) in
  a = Refused (mkFailure SBootstrap CRequest) /\ fence self = false
  /\ run self [CallStart] = (self, [(CallStart, Refused (mkFailure SBootstrap CRequest))]).
Proof.
  destruct (clone_failure_final sample_session (CallInput 10 IRequest) (mkFailure SBootstrap CRequest)
    (set_state sample_session (Failed (mkFailure SBootstrap CRequest))) eq_refl) as (Hf & _ & _ & _ & Hr).
  split; [reflexivity|]. split; [exact Hf|]. exact (Hr [CallStart]).
Defined.

Lemma clone_activation_completes_witness :
  acceptable_record (mkResources U32_MAX U64_MAX) largest_record
  /\ exists self trace,
       run sample_session ([CallInput 10 IReset; CallInput 30 (IActivate (encode largest_record))]
         ++ map (meanwhile largest_record) [(35, false); (40, true)] ++ [CallComplete 50 (Ok ())]
         ++ map (fun t => CallInput t (IActivate (encode largest_record))) [400]) = (self, trace)
       /\ fence self = true.
Proof.
  split; [exact largest_acceptable|].
  destruct (clone_activation_completes (E := string) (mkResources U32_MAX U64_MAX) (Some 5) false 100 7 largest_record
    10 30 [(35, false); (40, true)] 50 [400] largest_acceptable) as (self & trace & Hr & Hf & _).
  - do 5 (apply Forall_cons; split; [intros d Hd; vm_compute in Hd; injection Hd as <-; cbn; lia|]). apply Forall_nil. exact I.
  - exists self, trace. split; [exact Hr|exact Hf].
Defined.
