(* ===== verification/Addresses.v ===== *)
(** * Intervals of addresses (src/nvx-rs/src/host/network/address.rs)

    Networks of either family, the intervals of addresses that egress rules select, their union,
    their difference, and the networks that cover an interval exactly. An address is the integer
    of a [u128]. The text forms of networks are not modelled. *)

From stdpp Require Import sorting.
From S2P Require Import Prelude.
#[local] Open Scope Z_scope.

Definition U128_MAX : Z := 2 ^ 128 - 1.

(** ** Families, intervals and networks *)

Inductive Family : Type := V4 | V6.

#[export] Instance Family_eq_dec : EqDecision Family.
Proof. solve_decision. Defined.

Definition ALL : list Family := [V4; V6].

Definition bits (self : Family) : Z := match self with V4 => 32 | V6 => 128 end.

Definition last_address (self : Family) : Z := match self with V4 => U32_MAX | V6 => U128_MAX end.

Definition Interval : Type := Z * Z.

Definition everything (self : Family) : Interval := (0, last_address self).

Record Network := mkNetwork {
  family : Family;
  address : Z;
  prefix : Z;
}.

#[export] Instance Network_eq_dec : EqDecision Network.
Proof. solve_decision. Defined.

Definition host_mask (self : Network) : Z :=
  if bits (family self) <=? prefix self then 0
  else Z.shiftr (last_address (family self)) (prefix self).

(** [Network::new]; [!mask] is the complement of a [u128]. *)
Definition new_network (family : Family) (address prefix : Z) : Network :=
  let network := mkNetwork family address (prefix mod 2 ^ 8) in
  mkNetwork family (Z.land address (Z.lxor U128_MAX (host_mask network))) (prefix mod 2 ^ 8).

Definition interval (self : Network) : Interval := (address self, Z.lor (address self) (host_mask self)).

Definition contains (self other : Network) : bool :=
  let '(first, last) := interval self in
  let '(other_first, other_last) := interval other in
  bool_decide (family self = family other) && (first <=? other_first) && (other_last <=? last).

(** ** The networks of an interval *)

Record Summary := mkSummary {
  s_family : Family;
  s_next : option Z;
  s_last : Z;
}.

Definition summarize (family : Family) (i : Interval) : Summary := mkSummary family (Some i.1) i.2.

(** [u128::trailing_zeros] and [u128::leading_zeros]. *)
Fixpoint pos_trailing_zeros (p : positive) : Z :=
  match p with xO p => 1 + pos_trailing_zeros p | _ => 0 end.

Definition trailing_zeros (x : Z) : Z := match x with Zpos p => pos_trailing_zeros p | _ => 128 end.

Definition leading_zeros (x : Z) : Z := if 0 <? x then 127 - Z.log2 x else 128.

(** [1u128.checked_shl(size_bits)]. *)
Definition checked_shl_one (size_bits : Z) : option Z :=
  if size_bits <? 128 then Some (Z.shiftl 1 size_bits) else None.

(** [Iterator::next] of [Summary]: the summary after it, and the network. *)
Definition next (self : Summary) : Summary * option Network :=
  match s_next self with
  | Some first =>
      if first <=? s_last self then
        let bits := bits (s_family self) in
        let alignment := if first =? 0 then bits else Z.min (trailing_zeros first) bits in
        let span := s_last self - first in
        let fitting := match checked_add U128_MAX span 1 with
                       | Some count => 127 - leading_zeros count
                       | None => 128
                       end in
        let size_bits := Z.min alignment fitting in
        let network := new_network (s_family self) first (bits - size_bits) in
        let next := size ← checked_shl_one size_bits;
                    next ← checked_add U128_MAX first size;
                    if negb (next - 1 =? last_address (s_family self)) then Some next else None in
        (mkSummary (s_family self) next (s_last self), Some network)
      else (self, None)
  | None => (self, None)
  end.

(** The networks that a summary yields in at most [rounds] calls of [next]. *)
Fixpoint networks (rounds : nat) (self : Summary) : list Network :=
  match rounds with
  | O => []
  | S rounds => match next self with
                | (self, Some network) => network :: networks rounds self
                | (_, None) => []
                end
  end.

(** Two networks for each bit of an address, and a few more, are enough. *)
Definition summary_rounds : nat := 260.

Definition summary (family : Family) (i : Interval) : list Network := networks summary_rounds (summarize family i).

(** ** Union and difference *)

(** The order of tuples. *)
Definition interval_le (a b : Interval) : Prop := a.1 < b.1 \/ (a.1 = b.1 /\ a.2 <= b.2).

#[export] Instance interval_le_dec : RelDecision interval_le.
Proof. unfold interval_le. solve_decision. Defined.

(** [u128::saturating_add(1)]. *)
Definition saturating_succ (x : Z) : Z := Z.min U128_MAX (x + 1).

(** The loop of [merge]. *)
Fixpoint merge_loop (merged sorted : list Interval) : list Interval :=
  match sorted with
  | [] => merged
  | (start, end_) :: sorted =>
      match last merged with
      | Some previous =>
          if start <=? saturating_succ previous.2
          then merge_loop (removelast merged ++ [(previous.1, Z.max previous.2 end_)]) sorted
          else merge_loop (merged ++ [(start, end_)]) sorted
      | None => merge_loop (merged ++ [(start, end_)]) sorted
      end
  end.

Definition merge (intervals : list Interval) : list Interval := merge_loop [] (merge_sort interval_le intervals).

(** The loop over the exclusions of one source, from [cursor]: what it pushes, and the cursor after
    it, or [None] once exhausted. *)
Fixpoint subtract_exclusions (cursor source_end : Z) (exclusions : list Interval) : list Interval * option Z :=
  match exclusions with
  | (excluded_start, excluded_end) :: exclusions =>
      if excluded_start <=? source_end then
        let pushed := if cursor <? excluded_start then [(cursor, excluded_start - 1)] else [] in
        match checked_add U128_MAX excluded_end 1 with
        | Some next =>
            let cursor := Z.max cursor next in
            if source_end <? cursor then (pushed, Some cursor)
            else let '(more, cursor) := subtract_exclusions cursor source_end exclusions in (pushed ++ more, cursor)
        | None => (pushed, None)
        end
      else ([], Some cursor)
  | [] => ([], Some cursor)
  end.

(** [while exclusions[first_exclusion].1 < source_start]: the exclusions from [first_exclusion]. *)
Fixpoint skip_exclusions (source_start : Z) (exclusions : list Interval) : list Interval :=
  match exclusions with
  | e :: rest => if e.2 <? source_start then skip_exclusions source_start rest else exclusions
  | [] => []
  end.

Fixpoint subtract (sources exclusions : list Interval) : list Interval :=
  match sources with
  | [] => []
  | (source_start, source_end) :: sources =>
      let exclusions := skip_exclusions source_start exclusions in
      let '(pushed, cursor) := subtract_exclusions source_start source_end exclusions in
      pushed
      ++ match cursor with
         | Some cursor => if cursor <=? source_end then [(cursor, source_end)] else []
         | None => []
         end
      ++ subtract sources exclusions
  end.

(** ** Sets of addresses *)

Definition in_interval (x : Z) (i : Interval) : Prop := i.1 <= x <= i.2.
Definition member (x : Z) (l : list Interval) : Prop := exists i, i ∈ l /\ in_interval x i.

(** An interval of [u128]s that is not empty. *)
Definition is_interval (i : Interval) : Prop := 0 <= i.1 <= i.2 /\ i.2 <= U128_MAX.

(** Sorted intervals without an overlap. *)
Definition disjoint_intervals (l : list Interval) : Prop :=
  Forall is_interval l /\ StronglySorted (fun a b => a.2 < b.1) l.

Lemma member_nil x : member x [] <-> False.
Proof. split; [|done]. by intros (i & ?%elem_of_nil & _). Qed.

Lemma member_cons x i l : member x (i :: l) <-> in_interval x i \/ member x l.
Proof. unfold member. setoid_rewrite elem_of_cons. naive_solver. Qed.

Lemma member_app x k l : member x (k ++ l) <-> member x k \/ member x l.
Proof. unfold member. setoid_rewrite elem_of_app. naive_solver. Qed.

#[export] Instance member_dec x l : Decision (member x l).
Proof.
  refine (cast_if (decide (Exists (fun i => i.1 <= x <= i.2) l))); unfold member; rewrite <- Exists_exists; done.
Defined.

Lemma member_perm x k l : k ≡ₚ l -> member x k <-> member x l.
Proof. intros Hp. unfold member. by setoid_rewrite Hp. Qed.

Lemma member_concat x ls : member x (concat ls) <-> exists l, l ∈ ls /\ member x l.
Proof.
  induction ls as [|l ls IH]; cbn [concat]; [rewrite member_nil; set_solver|].
  rewrite member_app, IH. setoid_rewrite elem_of_cons. naive_solver.
Qed.

(** *** Union *)

Lemma last_removelast {A} (l : list A) x : last l = Some x -> l = removelast l ++ [x].
Proof. intros Hl. apply last_Some in Hl as [k ->]. by rewrite removelast_last. Qed.

Lemma merge_loop_spec merged sorted :
  disjoint_intervals merged -> Forall is_interval sorted -> StronglySorted interval_le sorted ->
  (forall m s, m ∈ merged -> s ∈ sorted -> m.1 <= s.1) ->
  disjoint_intervals (merge_loop merged sorted)
  /\ forall x, member x (merge_loop merged sorted) <-> member x merged \/ member x sorted.
Proof.
  revert merged. induction sorted as [|[s e] sorted IH]; intros merged [Hm Hd] Hs Hsort Hle; cbn [merge_loop].
  { split; [done|]. intros x. rewrite member_nil. tauto. }
  apply Forall_cons in Hs as [Hse Hs]. apply StronglySorted_cons in Hsort as [Hfirst Hsort]. rewrite Forall_forall in Hfirst.
  unfold is_interval in Hse. cbn [fst snd] in Hse.
  assert (Hnext : forall t, t ∈ sorted -> s <= t.1).
  { intros t Ht. destruct (Hfirst t Ht) as [?|[? _]]; cbn [fst] in *; lia. }
  assert (Hpush : (forall m, m ∈ merged -> m.2 < s) ->
    disjoint_intervals (merge_loop (merged ++ [(s, e)]) sorted)
    /\ forall x, member x (merge_loop (merged ++ [(s, e)]) sorted) <-> member x merged \/ member x ((s, e) :: sorted)).
  { intros Hnew. destruct (IH (merged ++ [(s, e)])) as [Hr Hx]; [split|done|done|..].
    - apply Forall_app. split; [done|]. apply Forall_singleton. done.
    - apply StronglySorted_app. split; [|split; [done|repeat constructor]].
      intros m n Hin ->%list_elem_of_singleton. by apply Hnew.
    - intros m t. rewrite elem_of_app, list_elem_of_singleton. intros [Hin| ->] Ht; [|by apply Hnext].
      apply Hle; [done|]. by right.
    - split; [done|]. intros x. rewrite Hx, member_app, !member_cons, member_nil. tauto. }
  destruct (last merged) as [p|] eqn:Hl.
  2:{ apply last_None in Hl. subst merged. apply Hpush. intros m Hin. by apply elem_of_nil in Hin. }
  apply last_removelast in Hl. set (front := removelast merged) in *. clearbody front. subst merged.
  apply Forall_app in Hm as [Hm Hp]. apply Forall_cons in Hp as [Hp _]. unfold is_interval in Hp.
  apply StronglySorted_app in Hd as (Hcross & Hfront & _).
  assert (Hps : p.1 <= s) by (apply (Hle p (s, e)); [apply elem_of_app; right|]; by left).
  unfold saturating_succ. destruct (Z.leb_spec s (Z.min U128_MAX (p.2 + 1))) as [Hj|Hj].
  - destruct (IH (front ++ [(p.1, Z.max p.2 e)])) as [Hr Hx]; [split|done|done|..].
    + apply Forall_app. split; [done|]. apply Forall_singleton. unfold is_interval. cbn [fst snd]. lia.
    + apply StronglySorted_app. split; [|split; [done|repeat constructor]].
      intros m n Hin ->%list_elem_of_singleton. cbn [fst]. apply Hcross; [done|by left].
    + intros m t. rewrite elem_of_app, list_elem_of_singleton. intros [Hin| ->] Ht.
      * apply (Hle m t); [apply elem_of_app; by left|by right].
      * cbn [fst]. specialize (Hnext t Ht). lia.
    + split; [done|]. intros x. rewrite Hx, !member_app, !member_cons, !member_nil. unfold in_interval. cbn [fst snd].
      assert (He : p.1 <= x <= Z.max p.2 e <-> p.1 <= x <= p.2 \/ s <= x <= e) by lia. rewrite He. tauto.
  - apply Hpush. intros m. rewrite elem_of_app, list_elem_of_singleton. intros [Hin| ->]; [|lia].
    assert (m.2 < p.1) by (apply Hcross; [done|by left]). lia.
Qed.

#[export] Instance interval_le_total : Total interval_le.
Proof. intros [a b] [c d]. unfold interval_le. cbn. lia. Qed.
#[export] Instance interval_le_trans : Transitive interval_le.
Proof. intros [a b] [c d] [e f]. unfold interval_le. cbn. lia. Qed.

(** [merge] returns the union of its intervals, sorted and apart. *)
Lemma merge_spec l : Forall is_interval l ->
  disjoint_intervals (merge l) /\ forall x, member x (merge l) <-> member x l.
Proof.
  intros Hl. pose proof (merge_sort_Permutation interval_le l) as Hp.
  destruct (merge_loop_spec [] (merge_sort interval_le l)) as [Hd Hx].
  - split; constructor.
  - by rewrite Hp.
  - by apply StronglySorted_merge_sort; apply _.
  - intros m s Hm. by apply elem_of_nil in Hm.
  - split; [done|]. intros x. unfold merge. rewrite Hx, member_nil, (member_perm x _ _ Hp). tauto.
Qed.

(** *** Difference *)

Lemma disjoint_cons i l : disjoint_intervals (i :: l) <->
  is_interval i /\ disjoint_intervals l /\ forall j, j ∈ l -> i.2 < j.1.
Proof.
  unfold disjoint_intervals. rewrite Forall_cons, StronglySorted_cons, (Forall_forall (fun b => i.2 < b.1)). naive_solver.
Qed.

Lemma disjoint_app k l : disjoint_intervals (k ++ l) <->
  disjoint_intervals k /\ disjoint_intervals l /\ forall i j, i ∈ k -> j ∈ l -> i.2 < j.1.
Proof. unfold disjoint_intervals. rewrite Forall_app, StronglySorted_app. naive_solver. Qed.

Lemma disjoint_nil : disjoint_intervals [].
Proof. split; constructor. Qed.

Lemma member_after x i l : disjoint_intervals (i :: l) -> member x l -> i.2 < x.
Proof.
  intros (_ & _ & Hd)%disjoint_cons (j & Hj & Hx). specialize (Hd j Hj). unfold in_interval in Hx. lia.
Qed.

(** The end of a source after its exclusions. *)
Definition source_rest (cursor : option Z) (source_end : Z) : list Interval :=
  match cursor with Some cursor => if cursor <=? source_end then [(cursor, source_end)] else [] | None => [] end.

(** Intervals that hold what a source does, without its exclusions. *)
Definition difference (cursor source_end : Z) (exclusions all : list Interval) : Prop :=
  disjoint_intervals all /\ (forall i, i ∈ all -> cursor <= i.1 /\ i.2 <= source_end)
  /\ forall x, member x all <-> cursor <= x <= source_end /\ ~ member x exclusions.

Lemma difference_last cursor source_end exclusions :
  0 <= cursor <= source_end -> source_end <= U128_MAX -> (forall x, member x exclusions -> source_end < x) ->
  difference cursor source_end exclusions [(cursor, source_end)].
Proof.
  intros Hc He Hx. split; [|split].
  - apply disjoint_cons. split; [done|]. split; [apply disjoint_nil|]. intros j Hj. by apply elem_of_nil in Hj.
  - intros i ->%list_elem_of_singleton. cbn. lia.
  - intros x. rewrite member_cons, member_nil. unfold in_interval. cbn [fst snd]. split; [|tauto].
    intros [Hi|[]]. split; [done|]. intros Hm. specialize (Hx x Hm). lia.
Qed.

(** The difference before and after an exclusion. *)
Lemma difference_cons cursor source_end es ee exclusions cursor' more :
  0 <= cursor -> es <= source_end -> source_end <= U128_MAX -> disjoint_intervals ((es, ee) :: exclusions) ->
  cursor' = Z.max cursor (ee + 1) -> difference cursor' source_end exclusions more ->
  difference cursor source_end ((es, ee) :: exclusions) ((if cursor <? es then [(cursor, es - 1)] else []) ++ more).
Proof.
  intros Hc Hes He Hd -> (Hm & Hin & Hx). pose proof Hd as (Hi & _ & _)%disjoint_cons. destruct Hi as [Hi1 Hi2]. cbn [fst snd] in *.
  assert (Hp : forall i, i ∈ (if cursor <? es then [(cursor, es - 1)] else []) -> i = (cursor, es - 1) /\ cursor < es).
  { destruct (Z.ltb_spec cursor es); intros i; [intros ->%list_elem_of_singleton; done|by intros ?%elem_of_nil]. }
  split; [|split].
  - apply disjoint_app. split; [|split; [done|]].
    + destruct (Z.ltb_spec cursor es); [|apply disjoint_nil]. apply disjoint_cons. split; [split; cbn; lia|].
      split; [apply disjoint_nil|]. intros j Hj. by apply elem_of_nil in Hj.
    + intros i j [-> Hlt]%Hp Hj. cbn [snd]. destruct (Hin j Hj). lia.
  - intros i [[-> Hlt]%Hp|Hi]%elem_of_app; cbn [fst snd]; [lia|]. destruct (Hin i Hi). lia.
  - intros x. rewrite member_app, Hx, member_cons. unfold in_interval at 1. cbn [fst snd].
    assert (Hl : member x (if cursor <? es then [(cursor, es - 1)] else []) <-> cursor <= x < es).
    { destruct (Z.ltb_spec cursor es); rewrite ?member_cons, ?member_nil; unfold in_interval; cbn [fst snd]; lia. }
    rewrite Hl. split.
    + intros [Hb|[Hb Hn]]; (split; [lia|]); intros [Hin'|Hm']; [lia| |lia|done].
      pose proof (member_after _ _ _ Hd Hm') as Ha. cbn [snd] in Ha. lia.
    + intros [Hb Hn]. destruct (Z.lt_ge_cases x es); [by left; lia|]. right. split; [|tauto].
      assert (ee < x) by (destruct (Z.le_gt_cases x ee); [exfalso; apply Hn; left; lia|lia]). lia.
Qed.

Lemma difference_empty cursor source_end exclusions :
  source_end < cursor -> difference cursor source_end exclusions [].
Proof.
  intros Hc. split; [apply disjoint_nil|]. split; [by intros i ?%elem_of_nil|]. intros x. rewrite member_nil. lia.
Qed.

Lemma subtract_exclusions_spec cursor source_end exclusions :
  0 <= cursor <= source_end -> source_end <= U128_MAX -> disjoint_intervals exclusions ->
  let '(pushed, c) := subtract_exclusions cursor source_end exclusions in
  difference cursor source_end exclusions (pushed ++ source_rest c source_end).
Proof.
  revert cursor. induction exclusions as [|[es ee] exclusions IH]; intros cursor Hc He Hd; cbn [subtract_exclusions].
  { cbn [app source_rest]. rewrite (proj2 (Z.leb_le _ _)) by lia. apply difference_last; [done..|]. intros x. by rewrite member_nil. }
  pose proof Hd as (Hi & Hd' & _)%disjoint_cons. destruct Hi as [Hi1 Hi2]. cbn [fst snd] in *.
  destruct (Z.leb_spec es source_end) as [Hes|Hes].
  2:{ cbn [app source_rest]. rewrite (proj2 (Z.leb_le _ _)) by lia. apply difference_last; [done..|].
      intros x. rewrite member_cons. unfold in_interval. cbn [fst snd]. intros [?|Hm]; [lia|].
      pose proof (member_after _ _ _ Hd Hm) as Ha. cbn [snd] in Ha. lia. }
  unfold checked_add. destruct (Z.leb_spec (ee + 1) U128_MAX) as [Hn|Hn].
  2:{ cbn [source_rest]. apply (difference_cons cursor source_end es ee exclusions (Z.max cursor (ee + 1))); try done; [lia|].
      apply difference_empty. lia. }
  destruct (Z.ltb_spec source_end (Z.max cursor (ee + 1))) as [Hb|Hb].
  - unfold source_rest. rewrite (proj2 (Z.leb_gt _ _)) by lia.
    apply (difference_cons cursor source_end es ee exclusions (Z.max cursor (ee + 1))); try done; [lia|]. by apply difference_empty.
  - specialize (IH (Z.max cursor (ee + 1)) ltac:(lia) He Hd').
    destruct (subtract_exclusions _ source_end exclusions) as [more c]. rewrite <- app_assoc.
    apply (difference_cons cursor source_end es ee exclusions (Z.max cursor (ee + 1))); try done. lia.
Qed.

Lemma skip_exclusions_spec start exclusions : disjoint_intervals exclusions ->
  disjoint_intervals (skip_exclusions start exclusions)
  /\ forall x, start <= x -> member x (skip_exclusions start exclusions) <-> member x exclusions.
Proof.
  induction exclusions as [|e l IH]; intros Hd; cbn [skip_exclusions]; [by split|].
  destruct (Z.ltb_spec e.2 start) as [Hs|Hs]; [|by split]. apply disjoint_cons in Hd as (_ & Hd & _).
  destruct (IH Hd) as [Hk Hx]. split; [done|]. intros x Hle. rewrite Hx, member_cons by done. unfold in_interval.
  split; [by right|]. intros [?|?]; [lia|done].
Qed.

(** [subtract] returns the addresses of the sources that no exclusion holds, in intervals that are
    sorted and apart. *)
Lemma subtract_spec sources exclusions : disjoint_intervals sources -> disjoint_intervals exclusions ->
  disjoint_intervals (subtract sources exclusions)
  /\ forall x, member x (subtract sources exclusions) <-> member x sources /\ ~ member x exclusions.
Proof.
  revert exclusions. induction sources as [|[s e] sources IH]; intros exclusions Hs Hx; cbn [subtract].
  { split; [apply disjoint_nil|]. intros x. rewrite member_nil. tauto. }
  pose proof Hs as (Hi & Hs' & Hafter)%disjoint_cons. destruct Hi as [Hi1 Hi2]. cbn [fst snd] in *.
  destruct (skip_exclusions_spec s exclusions Hx) as [Hk Hkx]. set (skipped := skip_exclusions s exclusions) in *.
  pose proof (subtract_exclusions_spec s e skipped Hi1 Hi2 Hk) as Hd.
  destruct (subtract_exclusions s e skipped) as [pushed c]. fold (source_rest c e). rewrite app_assoc.
  destruct Hd as (Hd & Hin & Hm). destruct (IH skipped Hs' Hk) as [Hr Hrm].
  assert (Hlate : forall x, member x sources -> e < x) by (intros x; apply (member_after _ _ _ Hs)).
  split.
  - apply disjoint_app. split; [done|]. split; [done|]. intros i j Hii Hj. destruct (Hin i Hii) as [_ He].
    assert (Hj' : is_interval j) by (destruct Hr as [Hf _]; rewrite Forall_forall in Hf; by apply Hf).
    assert (Hmj : member j.1 (subtract sources skipped)).
    { exists j. split; [done|]. unfold in_interval, is_interval in *. lia. }
    apply Hrm in Hmj as [Hmj _]. specialize (Hlate _ Hmj). lia.
  - intros x. rewrite member_app, Hm, Hrm, member_cons. unfold in_interval. cbn [fst snd]. split.
    + intros [[Hb Hn]|[Hb Hn]]; (split; [tauto|]); [rewrite Hkx in Hn by lia; done|].
      specialize (Hlate x Hb). rewrite Hkx in Hn by lia. done.
    + intros [[Hb|Hb] Hn]; [left|right]; (split; [done|]); [by rewrite Hkx by lia|].
      specialize (Hlate x Hb). by rewrite Hkx by lia.
Qed.

(** A difference is empty exactly when the exclusions hold every address of the sources. *)
Lemma subtract_empty sources exclusions : disjoint_intervals sources -> disjoint_intervals exclusions ->
  subtract sources exclusions = [] <-> forall x, member x sources -> member x exclusions.
Proof.
  intros Hs Hx. destruct (subtract_spec sources exclusions Hs Hx) as [Hd Hm]. split.
  - intros He x Hsx. rewrite He in Hm. specialize (Hm x). rewrite member_nil in Hm.
    destruct (decide (member x exclusions)) as [Hin|Hin]; [done|]. exfalso. by apply Hm.
  - intros Hall. destruct (subtract sources exclusions) as [|i l]; [done|]. exfalso.
    apply disjoint_cons in Hd as ([Hi _] & _ & _). destruct (Hm i.1) as [Hm1 _].
    destruct Hm1 as [H1 H2]; [apply member_cons; left; unfold in_interval; lia|]. by apply H2, Hall.
Qed.

(** *** Networks *)

Definition size_bits (n : Network) : Z := bits (family n) - prefix n.

(** Networks as [Network::new] builds them: without host bits. *)
Record is_network (n : Network) : Prop := {
  nw_prefix : 0 <= prefix n <= bits (family n);
  nw_address : 0 <= address n <= last_address (family n);
  nw_host : (2 ^ size_bits n | address n);
}.

Lemma last_address_bits f : last_address f = 2 ^ bits f - 1.
Proof. by destruct f. Qed.

Lemma bits_range f : 0 < bits f <= 128.
Proof. by destruct f. Qed.

Lemma host_mask_spec n : 0 <= prefix n <= bits (family n) -> host_mask n = Z.ones (size_bits n).
Proof.
  intros Hp. unfold host_mask, size_bits. destruct (Z.leb_spec (bits (family n)) (prefix n)).
  - by replace (bits (family n) - prefix n) with 0 by lia.
  - rewrite last_address_bits, Z.sub_1_r, <- Z.ones_equiv. rewrite Z.shiftr_div_pow2 by lia. apply Z.ones_div_pow2. lia.
Qed.

Lemma land_ones_multiple a k : 0 <= k -> (2 ^ k | a) -> Z.land a (Z.ones k) = 0.
Proof. intros Hk Hd. rewrite Z.land_ones by done. apply Z.mod_divide; [|done]. pose proof (Z.pow_pos_nonneg 2 k). lia. Qed.

Lemma interval_spec n : is_network n -> interval n = (address n, address n + 2 ^ size_bits n - 1).
Proof.
  intros [Hp Ha Hd]. unfold interval. rewrite host_mask_spec by done. f_equal.
  pose proof (Z.add_lor_land (address n) (Z.ones (size_bits n))) as Hl.
  assert (0 <= size_bits n) by (unfold size_bits; lia).
  rewrite land_ones_multiple, Z.ones_equiv in Hl by done. rewrite Z.ones_equiv. lia.
Qed.

(** A multiple of [2 ^ k] below a multiple of [2 ^ k] leaves room for [2 ^ k] more. *)
Lemma aligned_room a k m : 0 <= k <= m -> (2 ^ k | a) -> 0 <= a < 2 ^ m -> a + 2 ^ k <= 2 ^ m.
Proof.
  intros Hk [q ->] Ha. assert (He : 2 ^ m = 2 ^ (m - k) * 2 ^ k) by (rewrite <- Z.pow_add_r by lia; f_equal; lia).
  assert (0 < 2 ^ k) by (apply Z.pow_pos_nonneg; lia). rewrite He in Ha |- *.
  assert (q < 2 ^ (m - k)) by nia. nia.
Qed.

Lemma network_interval n : is_network n ->
  is_interval (interval n) /\ (interval n).2 <= last_address (family n) /\ (interval n).1 = address n.
Proof.
  intros Hn. rewrite interval_spec by done. destruct Hn as [Hp Ha Hd]. unfold is_interval. cbn [fst snd].
  rewrite last_address_bits in *. pose proof (bits_range (family n)).
  assert (0 <= size_bits n <= bits (family n)) as Hs by (unfold size_bits; lia).
  pose proof (aligned_room _ _ _ Hs Hd). assert (0 < 2 ^ size_bits n) by (apply Z.pow_pos_nonneg; lia).
  assert (2 ^ bits (family n) <= 2 ^ 128) by (apply Z.pow_le_mono_r; lia). unfold U128_MAX. lia.
Qed.

(** [Network::new] rounds an address down to its network. *)
Lemma new_network_spec f a k : 0 <= k <= bits f -> 0 <= a <= last_address f ->
  new_network f a (bits f - k) = mkNetwork f (a - a mod 2 ^ k) (bits f - k).
Proof.
  intros Hk Ha. pose proof (bits_range f). unfold new_network. rewrite (Z.mod_small (bits f - k)) by lia. f_equal.
  rewrite host_mask_spec by (cbn [prefix family]; lia). unfold size_bits. cbn [prefix family].
  replace (bits f - (bits f - k)) with k by lia. transitivity (Z.ldiff a (Z.ones k)).
  - apply Z.bits_inj'. intros i Hi. rewrite Z.land_spec, Z.lxor_spec, Z.ldiff_spec, Z.testbit_ones_nonneg by lia.
    replace U128_MAX with (Z.ones 128) by reflexivity. rewrite Z.testbit_ones_nonneg by lia.
    destruct (Z.ltb_spec i 128) as [|Hi']; [done|].
    assert (Hz : Z.testbit a i = false); [|by rewrite Hz].
    apply Z.bits_above_log2; [lia|]. destruct (Z.eq_dec a 0) as [-> |]; [cbn; lia|].
    assert (Z.log2 a < bits f); [|lia]. apply Z.log2_lt_pow2; [lia|]. rewrite last_address_bits in Ha. lia.
  - rewrite Z.ldiff_ones_r, Z.shiftr_div_pow2, Z.shiftl_mul_pow2 by lia. pose proof (Z.div_mod a (2 ^ k)).
    assert (2 ^ k <> 0) by (apply Z.pow_nonzero; lia). lia.
Qed.

Lemma new_network_aligned f a k : 0 <= k <= bits f -> 0 <= a <= last_address f -> (2 ^ k | a) ->
  new_network f a (bits f - k) = mkNetwork f a (bits f - k).
Proof.
  intros Hk Ha Hd. rewrite new_network_spec by done. apply Z.mod_divide in Hd; [|apply Z.pow_nonzero; lia].
  by rewrite Hd, Z.sub_0_r.
Qed.

Lemma new_network_valid f a p : 0 <= p <= bits f -> 0 <= a <= last_address f -> is_network (new_network f a p).
Proof.
  intros Hp Ha. replace p with (bits f - (bits f - p)) by lia. rewrite new_network_spec by lia.
  assert (Hs : 0 < 2 ^ (bits f - p)) by (apply Z.pow_pos_nonneg; lia).
  pose proof (Z.mod_pos_bound a _ Hs). pose proof (Z.div_mod a (2 ^ (bits f - p))). pose proof (Z.mod_le a (2 ^ (bits f - p))).
  constructor; unfold size_bits; cbn [family address prefix]; [lia|lia|].
  replace (bits f - (bits f - (bits f - p))) with (bits f - p) by lia. exists (a / 2 ^ (bits f - p)). lia.
Qed.

(** ** The networks of an interval are the fewest that cover it *)

Lemma odd_aligned q j : 0 <= j -> (2 ^ j | 2 * q + 1) <-> j <= 0.
Proof.
  intros Hj. split; [|intros ?; replace j with 0 by lia; apply Z.divide_1_l].
  intros [r Hr]. destruct (Z.le_gt_cases j 0); [done|]. exfalso.
  replace (2 ^ j) with (2 * 2 ^ (j - 1)) in Hr by (rewrite <- Z.pow_succ_r by lia; f_equal; lia). lia.
Qed.

Lemma pos_trailing_zeros_spec p j : 0 <= j -> (2 ^ j | Zpos p) <-> j <= pos_trailing_zeros p.
Proof.
  revert j. induction p as [p IH|p IH|]; intros j Hj; cbn [pos_trailing_zeros].
  - rewrite (Pos2Z.inj_xI p). by apply odd_aligned.
  - rewrite (Pos2Z.inj_xO p). destruct (Z.eq_dec j 0) as [-> |Hj0].
    { split; [|intros _; apply Z.divide_1_l]. destruct (IH 0 ltac:(lia)) as [H0 _]. specialize (H0 (Z.divide_1_l _)). lia. }
    replace j with (Z.succ (j - 1)) at 1 by lia. rewrite Z.pow_succ_r, Z.mul_divide_cancel_l, IH by lia. lia.
  - apply (odd_aligned 0 j Hj).
Qed.

(** The next network from [a]: the largest that starts there and ends by [last]. *)
Record largest (f : Family) (a last k : Z) : Prop := {
  la_bits : 0 <= k <= bits f;
  la_aligned : (2 ^ k | a);
  la_fits : a + 2 ^ k - 1 <= last;
  la_most : forall j, 0 <= j <= bits f -> (2 ^ j | a) -> a + 2 ^ j - 1 <= last -> j <= k;
}.

(** A summary that has covered the addresses before [a]. *)
Definition at_address (f : Family) (a last : Z) (s : Summary) : Prop :=
  s_family s = f /\ s_last s = last /\ (s_next s = Some a \/ (s_next s = None /\ last < a)).

Lemma next_spec f a last s : 0 <= a -> last <= last_address f -> at_address f a last s ->
  if decide (a <= last)
  then exists k s', next s = (s', Some (mkNetwork f a (bits f - k))) /\ largest f a last k /\ at_address f (a + 2 ^ k) last s'
  else exists s', next s = (s', None).
Proof.
  intros Ha Hl (Hf & Hlast & Hn). destruct s as [sf sn sl]. cbn [s_family s_last s_next] in *. subst sf sl.
  unfold next. cbn [s_family s_last s_next]. case_decide as Hle.
  2:{ destruct Hn as [-> |[-> _]]; [|by eexists]. destruct (Z.leb_spec a last); [lia|]. by eexists. }
  destruct Hn as [-> |[_ ?]]; [|lia]. destruct (Z.leb_spec a last) as [_|]; [|lia].
  pose proof (bits_range f) as Hb. rewrite last_address_bits in Hl.
  assert (H128 : 2 ^ bits f <= 2 ^ 128) by (apply Z.pow_le_mono_r; lia).
  set (alignment := if a =? 0 then bits f else Z.min (trailing_zeros a) (bits f)).
  set (fitting := match checked_add U128_MAX (last - a) 1 with Some count => 127 - leading_zeros count | None => 128 end).
  assert (Hal : forall j, 0 <= j <= bits f -> (2 ^ j | a) <-> j <= alignment).
  { intros j Hj. unfold alignment. destruct (Z.eqb_spec a 0) as [-> |]; [split; [lia|intros; apply Z.divide_0_r]|].
    destruct a as [|p|p]; [done| |lia]. cbn [trailing_zeros]. rewrite pos_trailing_zeros_spec by lia. lia. }
  assert (Hal0 : 0 <= alignment <= bits f).
  { split; [|unfold alignment; destruct (a =? 0); lia]. apply Hal; [lia|apply Z.divide_1_l]. }
  assert (Hfit : forall j, 0 <= j <= 128 -> a + 2 ^ j - 1 <= last <-> j <= fitting).
  { intros j Hj. unfold fitting, checked_add, U128_MAX. destruct (Z.leb_spec (last - a + 1) (2 ^ 128 - 1)).
    - unfold leading_zeros. destruct (Z.ltb_spec 0 (last - a + 1)); [|lia].
      rewrite Z.sub_sub_distr, Z.sub_diag, Z.add_0_l, <- Z.log2_le_pow2 by lia. lia.
    - split; [lia|]. intros _. assert (2 ^ j <= 2 ^ 128) by (apply Z.pow_le_mono_r; lia). lia. }
  assert (Hfit0 : 0 <= fitting) by (apply Hfit; lia).
  set (k := Z.min alignment fitting). assert (Hk : 0 <= k <= bits f) by lia.
  assert (HL : largest f a last k).
  { constructor; [done|apply Hal; lia|apply Hfit; lia|]. intros j Hj Hd%Hal Hf%Hfit; lia. }
  exists k. eexists. split; [|split; [exact HL|]].
  - rewrite new_network_aligned; [reflexivity|done|rewrite last_address_bits; lia|apply HL].
  - split; [done|]. split; [done|]. cbn [s_next]. destruct HL as [_ HA Hfits _].
    unfold checked_shl_one, checked_add, U128_MAX. rewrite Z.shiftl_1_l.
    destruct (Z.ltb_spec k 128) as [Hk'|Hk']; cbn [mbind option_bind].
    + destruct (Z.leb_spec (a + 2 ^ k) (2 ^ 128 - 1)); cbn [mbind option_bind]; [|right; split; [done|lia]].
      rewrite last_address_bits. destruct (Z.eqb_spec (a + 2 ^ k - 1) (2 ^ bits f - 1)); cbn [negb]; [|by left].
      right. split; [done|lia].
    + right. split; [done|]. replace k with (bits f) in * by lia. lia.
Qed.

(** The networks from [a], each the largest possible. *)
Inductive greedy (f : Family) (last : Z) : Z -> list Network -> Prop :=
| greedy_done a : last < a -> greedy f last a []
| greedy_next a k ns : a <= last -> largest f a last k -> greedy f last (a + 2 ^ k) ns ->
    greedy f last a (mkNetwork f a (bits f - k) :: ns).

Lemma networks_step f a last s rounds : 0 <= a -> last <= last_address f -> at_address f a last s ->
  (forall k s', a <= last -> largest f a last k -> at_address f (a + 2 ^ k) last s' -> greedy f last (a + 2 ^ k) (networks rounds s')) ->
  greedy f last a (networks (S rounds) s).
Proof.
  intros Ha Hl Hs IH. pose proof (next_spec f a last s Ha Hl Hs) as Hn. cbn [networks]. case_decide.
  - destruct Hn as (k & s' & -> & Hk & Hs'). by econstructor; [..|apply IH].
  - destruct Hn as (s' & ->). constructor. lia.
Qed.

Lemma pow2_pos k : 0 <= k -> 0 < 2 ^ k.
Proof. intros Hk. apply Z.pow_pos_nonneg; lia. Qed.

Lemma pow2_divide j k : 0 <= j <= k -> (2 ^ j | 2 ^ k).
Proof. intros Hj. exists (2 ^ (k - j)). rewrite <- Z.pow_add_r by lia. f_equal. lia. Qed.

Lemma pow2_lt_mono j k : 0 <= j -> 0 <= k -> 2 ^ j < 2 ^ k -> j + 1 <= k.
Proof. intros Hj Hk Hlt. assert (j < k) by (apply (Z.pow_lt_mono_r_iff 2); lia). lia. Qed.

(** Once the rest is smaller than the alignment, each network takes its largest power of two. *)
Lemma networks_late f last rounds : last <= last_address f -> forall a s k,
  0 <= a -> at_address f a last s -> 0 <= k <= Z.of_nat rounds -> k <= bits f -> (2 ^ k | a) -> last - a + 1 < 2 ^ k ->
  greedy f last a (networks rounds s).
Proof.
  intros Hl. induction rounds as [|rounds IH]; intros a s k Ha Hs Hk Hb Hd Hr.
  { constructor. replace k with 0 in Hr by lia. lia. }
  apply networks_step; [done..|]. intros j s' Hal Hj Hs'. pose proof Hj as [Hj0 Hja Hjf Hmost].
  pose proof (pow2_pos j ltac:(lia)). pose proof (pow2_lt_mono j k ltac:(lia) ltac:(lia) ltac:(lia)).
  apply (IH _ _ j); [lia|done|lia|lia|by apply Z.divide_add_r|].
  destruct (Z.lt_ge_cases (last - (a + 2 ^ j) + 1) (2 ^ j)); [done|].
  assert (j + 1 <= j); [|lia]. apply Hmost; [lia| |].
  - etrans; [|exact Hd]. apply pow2_divide. lia.
  - rewrite Z.pow_add_r by lia. lia.
Qed.

(** Before that, the alignment grows at each network. *)
Lemma networks_early f last rounds : last <= last_address f -> forall a s k,
  0 <= a -> at_address f a last s -> 0 <= k <= bits f -> 2 * bits f - k + 1 <= Z.of_nat rounds -> (2 ^ k | a) ->
  greedy f last a (networks rounds s).
Proof.
  intros Hl. pose proof (bits_range f) as Hf. induction rounds as [|rounds IH]; intros a s k Ha Hs Hk Hr Hd; [lia|].
  destruct (Z.lt_ge_cases (last - a + 1) (2 ^ k)) as [Hlt|Hge].
  { apply (networks_late f last (S rounds) Hl a s k); (done || lia). }
  apply networks_step; [done..|]. intros j s' Hal Hj Hs'. pose proof Hj as [Hj0 Hja Hjf Hmost].
  pose proof (pow2_pos j ltac:(lia)). assert (k <= j) by (apply Hmost; (done || lia)).
  destruct (Z.lt_ge_cases (last - (a + 2 ^ j) + 1) (2 ^ j)).
  { apply (networks_late f last rounds Hl _ s' j); [lia|done|lia|lia|by apply Z.divide_add_r|lia]. }
  assert (H2 : 2 ^ (j + 1) = 2 * 2 ^ j) by (rewrite Z.pow_add_r by lia; lia).
  rewrite last_address_bits in Hl. assert (j < bits f).
  { assert (j <> bits f); [|lia]. intros ->. lia. }
  apply (IH _ s' (j + 1)); [lia|done|lia|lia|].
  destruct Hja as [q Hq]. destruct (Z.Even_or_Odd q) as [[r Hr']|[r Hr']].
  - assert (j + 1 <= j); [|lia]. apply Hmost; [lia| |lia]. exists r. rewrite H2. lia.
  - exists (r + 1). rewrite H2. lia.
Qed.

Lemma summary_greedy f i : 0 <= i.1 -> i.2 <= last_address f -> greedy f i.2 i.1 (summary f i).
Proof.
  intros Hi Hl. apply (networks_early f i.2 summary_rounds Hl i.1 _ 0).
  - done.
  - split; [done|]. split; [done|by left].
  - pose proof (bits_range f). lia.
  - pose proof (bits_range f). unfold summary_rounds. lia.
  - apply Z.divide_1_l.
Qed.

Lemma largest_network f a last k : 0 <= a <= last -> last <= last_address f -> largest f a last k ->
  let n := mkNetwork f a (bits f - k) in is_network n /\ interval n = (a, a + 2 ^ k - 1).
Proof.
  intros Ha Hl [Hk Hd Hf _] n. assert (Hs : size_bits n = k) by (unfold size_bits, n; cbn [prefix family]; lia).
  assert (Hn : is_network n).
  { constructor; [cbn; lia|cbn; lia|]. by rewrite Hs. }
  split; [done|]. by rewrite interval_spec, Hs by done.
Qed.

Lemma greedy_covers f last a ns : 0 <= a -> last <= last_address f -> greedy f last a ns ->
  Forall (fun n => is_network n /\ family n = f) ns
  /\ StronglySorted (fun a b => a.2 < b.1) (interval <$> ns)
  /\ (forall n, n ∈ ns -> a <= (interval n).1 /\ (interval n).2 <= last)
  /\ forall x, member x (interval <$> ns) <-> a <= x <= last.
Proof.
  intros Ha Hl Hg. induction Hg as [a Hd|a k ns Hal Hk Hg IH].
  { split; [constructor|]. split; [constructor|]. split; [intros n Hn; by apply elem_of_nil in Hn|].
    intros x. cbn. rewrite member_nil. lia. }
  pose proof (pow2_pos k ltac:(apply Hk)) as Hp. destruct IH as (IH1 & IH2 & IH3 & IH4); [lia|].
  destruct (largest_network f a last k ltac:(lia) Hl Hk) as [Hn Hi]. pose proof (la_fits _ _ _ _ Hk) as Hfit. split_and!.
  - by constructor.
  - rewrite fmap_cons. constructor; [done|]. apply Forall_forall. intros j (n & -> & Hin)%list_elem_of_fmap.
    destruct (IH3 n Hin). rewrite Hi. cbn [snd]. lia.
  - intros n [-> |Hin]%elem_of_cons; [rewrite Hi; cbn [fst snd]; lia|]. destruct (IH3 n Hin). lia.
  - intros x. rewrite fmap_cons, member_cons, IH4, Hi. unfold in_interval. cbn [fst snd]. lia.
Qed.

(** A multiple of [m] below another leaves room for [m]. *)
Lemma multiples_apart m a b : 0 < m -> (m | a) -> (m | b) -> a < b -> a + m <= b.
Proof. intros Hm [p ->] [q ->] Hlt. assert (p < q) by nia. nia. Qed.

(** A network that starts within the largest one from [a], and does not start before it, ends there. *)
Lemma largest_holds f a last k n : largest f a last k -> is_network n -> family n = f ->
  a <= (interval n).1 < a + 2 ^ k -> (interval n).2 <= last -> (interval n).2 < a + 2 ^ k.
Proof.
  intros [Hk Hd Hfit Hmost] Hn Hf. rewrite interval_spec by done. cbn [fst snd]. intros Hin Hl.
  destruct Hn as [Hp Ha Hh]. rewrite Hf in *. set (j := size_bits n) in *.
  assert (Hj : 0 <= j <= bits f) by (unfold j, size_bits; rewrite Hf; lia).
  pose proof (pow2_pos k ltac:(lia)). pose proof (pow2_pos j ltac:(lia)).
  assert (Hjk : j <= k).
  { destruct (Z.le_gt_cases j k); [done|]. assert (Haj : (2 ^ k | address n)) by (etrans; [|exact Hh]; apply pow2_divide; lia).
    assert (address n = a) as He.
    { destruct (Z.eq_dec (address n) a); [done|]. assert (a + 2 ^ k <= address n); [|lia]. apply multiples_apart; (done || lia). }
    rewrite He in Hh, Hl. apply Hmost; [done|done|lia]. }
  assert (Hdk : (2 ^ j | 2 ^ k)) by (apply pow2_divide; lia).
  assert (address n + 2 ^ j <= a + 2 ^ k); [|lia]. apply multiples_apart; [done|done| |lia].
  apply Z.divide_add_r; [by etrans|done].
Qed.

Lemma greedy_fewest f last a ns : 0 <= a -> last <= last_address f -> greedy f last a ns -> forall l,
  Forall (fun n => is_network n /\ family n = f) l -> (forall x, member x (interval <$> l) <-> a <= x <= last) ->
  (length ns <= length l)%nat.
Proof.
  intros Ha Hl Hg. induction Hg as [a Hd|a k ns Hal Hk Hg IH]; intros l Hv Hx; cbn [length]; [lia|].
  pose proof (pow2_pos k ltac:(apply Hk)) as Hp. pose proof (la_fits _ _ _ _ Hk) as Hfit. rewrite Forall_forall in Hv.
  assert (Hend : forall n, n ∈ l -> a <= (interval n).1 <= (interval n).2 /\ (interval n).2 <= last).
  { intros n Hn. destruct (network_interval n) as ([Hi _] & _ & _); [by apply Hv|].
    assert (Hm : forall x, in_interval x (interval n) -> a <= x <= last).
    { intros x Hxn. apply Hx. exists (interval n). split; [|done]. apply list_elem_of_fmap. by exists n. }
    pose proof (Hm (interval n).1). pose proof (Hm (interval n).2). unfold in_interval in *. lia. }
  set (late := fun n => a + 2 ^ k <= (interval n).1).
  destruct (proj2 (Hx a) ltac:(lia)) as (i & (n0 & -> & Hn0)%list_elem_of_fmap & Hi0).
  assert (Hlt : (length (filter late l) < length l)%nat).
  { apply (length_filter_lt late l n0 Hn0). unfold late, in_interval in *. lia. }
  assert (length ns <= length (filter late l))%nat; [|lia]. apply IH; [lia| |].
  - apply Forall_forall. intros n [_ Hn]%list_elem_of_filter. by apply Hv.
  - intros x. split.
    + intros (i & (n & -> & [Hlate Hn]%list_elem_of_filter)%list_elem_of_fmap & Hxi).
      specialize (Hend n Hn). unfold late, in_interval in *. lia.
    + intros Hxr. destruct (proj2 (Hx x) ltac:(lia)) as (i & (n & -> & Hn)%list_elem_of_fmap & Hxi).
      exists (interval n). split; [|done]. apply list_elem_of_fmap. exists n. split; [done|].
      apply list_elem_of_filter. split; [|done]. unfold late. specialize (Hend n Hn).
      destruct (Z.le_gt_cases (a + 2 ^ k) (interval n).1); [done|]. destruct (Hv n Hn) as [Hnn Hnf].
      pose proof (largest_holds f a last k n Hk Hnn Hnf). unfold in_interval in *. lia.
Qed.

(** [summarize] yields the fewest networks that cover an interval of the family exactly: every
    one is a network of the family without host bits, each starts after the previous ends, together
    they hold the addresses of the interval and no other, and no networks that hold just those
    addresses are fewer. The two phases of the loop need at most two networks for each bit. *)
Theorem summary_fewest f i : 0 <= i.1 -> i.2 <= last_address f ->
  Forall (fun n => is_network n /\ family n = f) (summary f i)
  /\ StronglySorted (fun a b => a.2 < b.1) (interval <$> summary f i)
  /\ (forall x, member x (interval <$> summary f i) <-> i.1 <= x <= i.2)
  /\ forall l, Forall (fun n => is_network n /\ family n = f) l ->
       (forall x, member x (interval <$> l) <-> i.1 <= x <= i.2) -> (length (summary f i) <= length l)%nat.
Proof.
  intros Hi Hl. pose proof (summary_greedy f i Hi Hl) as Hg.
  destruct (greedy_covers f i.2 i.1 _ Hi Hl Hg) as (H1 & H2 & _ & H4). do 3 (split; [done|]).
  by apply (greedy_fewest f i.2 i.1).
Qed.

Lemma summary_fewest_witness :
  summary V4 (1, 6) = [mkNetwork V4 1 32; mkNetwork V4 2 31; mkNetwork V4 4 31; mkNetwork V4 6 32]
  /\ forall l, Forall (fun n => is_network n /\ family n = V4) l ->
       (forall x, member x (interval <$> l) <-> 1 <= x <= 6) -> (4 <= length l)%nat.
Proof. split; [by vm_compute|]. apply (summary_fewest V4 (1, 6)); cbn; unfold U32_MAX; lia. Defined.
