(* ===== verification/Lowering.v ===== *)
(** * Lowering of egress rules (src/nvx-rs/src/host/network/lowering.rs)

    The rules of one action, allow or deny, become the native rules that OpenVMM enforces: networks
    with an optional protocol and ports. The main theorem says that both select the same traffic.
    The texts that name a field or a category in messages, and the text of a native rule, are not
    modelled. *)

From stdpp Require Import sorting gmap.
From S2P Require Import Prelude Addresses.
#[local] Open Scope Z_scope.

(** ** Protocols, selectors and rules *)

Inductive NativeProtocol : Type := Icmp | Tcp | Udp.

#[export] Instance NativeProtocol_eq_dec : EqDecision NativeProtocol.
Proof. solve_decision. Defined.

Inductive RuleProtocol : Type := RuleTcp | RuleUdp | RuleIcmp | RuleAny.

#[export] Instance RuleProtocol_eq_dec : EqDecision RuleProtocol.
Proof. solve_decision. Defined.

(** [NativeProtocol::as_str] and [RuleProtocol::parse]. *)
Definition as_str (self : NativeProtocol) : string :=
  match self with Icmp => "icmp" | Tcp => "tcp" | Udp => "udp" end%string.

Definition parse (text : string) : option RuleProtocol :=
  if bool_decide (text = "tcp"%string) then Some RuleTcp
  else if bool_decide (text = "udp"%string) then Some RuleUdp
  else if bool_decide (text = "icmp"%string) then Some RuleIcmp
  else if bool_decide (text = "any"%string) then Some RuleAny
  else None.

Definition native (self : RuleProtocol) : option NativeProtocol :=
  match self with RuleTcp => Some Tcp | RuleUdp => Some Udp | RuleIcmp => Some Icmp | RuleAny => None end.

Definition port_protocols (self : RuleProtocol) : list NativeProtocol :=
  match self with RuleTcp => [Tcp] | RuleUdp => [Udp] | RuleIcmp => [Icmp] | RuleAny => [Tcp; Udp] end.

Definition PortRange : Type := Z * Z.
Definition Selector : Type := option NativeProtocol * option PortRange.

Inductive PortValue : Type := PortInteger (i : Z) | PortOther.

Record Rule := mkRule {
  r_family : Family;
  r_addresses : list Interval;
  r_protocol : option NativeProtocol;
  r_ports : option PortRange;
}.

(** The failures of this file, each an [ErrorKind::Unsupported] error with a message of its own.
    [Underflow] stands for the panic of a [usize] subtraction below zero. *)
Inductive LoweringError : Type :=
| CidrNotString
| CidrInvalid
| CidrScoped
| ExceptionOutside (index : Z)
| PortNotInteger
| PortOutOfRange
| EndPortBelow (end_port start : Z)
| EndPortWithoutPort
| PortWithIcmp
| TooManyRules
| Underflow.

Abbreviation lowering := (result LoweringError).

(** A subtraction of [usize]s. *)
Definition usize_sub (a b : Z) : lowering Z := if b <=? a then Ok (a - b) else Err Underflow.

(** ** Destinations and ports *)

(** The loop of [destination] over the exceptions, which are parsed when they are read. *)
Fixpoint excluded_from (parent : Network) (exceptions : list (lowering Network)) (index : Z) (excluded : list Interval) :
    lowering (list Interval) :=
  match exceptions with
  | [] => Ok excluded
  | exception :: exceptions =>
      exception ← exception;
      if negb (contains parent exception) then Err (ExceptionOutside index)
      else excluded_from parent exceptions (index + 1) (excluded ++ [interval exception])
  end.

Definition destination (parent : Network) (exceptions : list (lowering Network)) : lowering (Family * list Interval) :=
  excluded ← excluded_from parent exceptions 0 [];
  Ok (Addresses.family parent, subtract [interval parent] (merge excluded)).

Definition group_destinations (destinations : list (Family * list Interval)) : list (Family * list Interval) :=
  (fun family => (family, merge (concat (snd <$> List.filter (fun d => bool_decide (d.1 = family)) destinations))))
  <$> List.filter (fun family => existsb (fun d => bool_decide (d.1 = family)) destinations) ALL.

(** [u16::try_from(port).ok().filter(|&port| port != 0)]. *)
Definition port (value : PortValue) : lowering Z :=
  match value with
  | PortOther => Err PortNotInteger
  | PortInteger port => if (0 <=? port) && (port <=? U16_MAX) && negb (port =? 0) then Ok port else Err PortOutOfRange
  end.

Definition port_range (start : PortValue) (end_ : option PortValue) : lowering PortRange :=
  start ← port start;
  end_ ← match end_ with Some end_ => port end_ | None => Ok start end;
  if end_ <? start then Err (EndPortBelow end_ start) else Ok (start, end_).

Definition port_selectors (protocol : RuleProtocol) (port end_port : option PortValue) : lowering (list Selector) :=
  match port with
  | None => match end_port with Some _ => Err EndPortWithoutPort | None => Ok [(native protocol, None)] end
  | Some port =>
      if bool_decide (protocol = RuleIcmp) then Err PortWithIcmp
      else range ← port_range port end_port;
           Ok ((fun protocol => (Some protocol, Some range)) <$> port_protocols protocol)
  end.

Definition combine (destinations : option (list (Family * list Interval))) (selectors : option (list Selector)) : list Rule :=
  let destinations := match destinations with
                      | Some destinations => destinations
                      | None => (fun family => (family, [everything family])) <$> ALL
                      end in
  let selectors := match selectors with Some selectors => selectors | None => [(None, None)] end in
  concat ((fun d => (fun s => mkRule d.1 d.2 s.1 s.2) <$> selectors) <$> destinations).

(** ** Ordered maps

    Sequences of integers in the order of slices: the order of [AddressSet]s, of networks and of
    native rules. *)

Fixpoint lex_leb (k l : list Z) : bool :=
  match k, l with
  | [], _ => true
  | _ :: _, [] => false
  | x :: k, y :: l => (x <? y) || ((x =? y) && lex_leb k l)
  end.

Abbreviation AddressSet := (list Interval).

(** The integers that an address set compares by: [self.0.cmp(other.0)]. *)
Definition address_set_key (self : AddressSet) : list Z := concat ((fun i => [i.1; i.2]) <$> self).

Definition family_key (f : Family) : Z := match f with V4 => 0 | V6 => 1 end.
Definition network_key (n : Network) : list Z := [family_key (Addresses.family n); address n; prefix n].

Definition NativeRule : Type := Network * option NativeProtocol * option PortRange.

Definition protocol_key (p : option NativeProtocol) : Z :=
  match p with None => 0 | Some Icmp => 1 | Some Tcp => 2 | Some Udp => 3 end.
Definition ports_key (r : option PortRange) : list Z := match r with None => [0] | Some (s, e) => [1; s; e] end.
Definition native_key (r : NativeRule) : list Z := network_key r.1.1 ++ protocol_key r.1.2 :: ports_key r.2.

(** The order by a key. *)
Definition key_le {A} (key : A -> list Z) (a b : A) : Prop := Is_true (lex_leb (key a) (key b)).

#[export] Instance key_le_dec {A} (key : A -> list Z) : RelDecision (key_le key).
Proof. intros a b. unfold key_le. apply _. Defined.

(** The entries of a [BTreeMap] and the elements of a [BTreeSet], in the order of their keys. *)
Definition btree_entries {K V} `{Countable K} (key : K -> list Z) (m : gmap K V) : list (K * V) :=
  merge_sort (key_le (fun e => key e.1)) (map_to_list m).
Definition btree_elements {K} `{Countable K} (key : K -> list Z) (s : gset K) : list K :=
  merge_sort (key_le key) (elements s).

#[export] Instance Family_countable : Countable Family.
Proof. apply (inj_countable' family_key (fun z => if z =? 0 then V4 else V6)). by intros []. Defined.

#[export] Instance Network_countable : Countable Network.
Proof.
  apply (inj_countable' (fun n => (Addresses.family n, address n, prefix n)) (fun t => mkNetwork t.1.1 t.1.2 t.2)). by intros [].
Defined.

(** ** Networks of one family *)

Definition union (rules : list Rule) : list Interval :=
  let sets : gset AddressSet := list_to_set (r_addresses <$> rules) in
  merge (concat (btree_elements address_set_key sets)).

(** [for network in ... { if networks.len() >= maximum { return Err(..) } networks.push(network) }]. *)
Fixpoint push_within (maximum : Z) (networks added : list Network) : lowering (list Network) :=
  match added with
  | [] => Ok networks
  | network :: added =>
      if maximum <=? len networks then Err TooManyRules else push_within maximum (networks ++ [network]) added
  end.

Fixpoint intervals_to_networks_loop (family : Family) (maximum : Z) (networks : list Network) (intervals : list Interval) :
    lowering (list Network) :=
  match intervals with
  | [] => Ok networks
  | interval :: intervals =>
      networks ← push_within maximum networks (summary family interval);
      intervals_to_networks_loop family maximum networks intervals
  end.

Definition intervals_to_networks (intervals : list Interval) (family : Family) (maximum : Z) : lowering (list Network) :=
  intervals_to_networks_loop family maximum [] intervals.

Definition is_empty {A} (l : list A) : bool := match l with [] => true | _ => false end.

(** Whether [covered] holds a network entirely. *)
Definition holds (covered : list Interval) (network : Network) : bool := is_empty (subtract [interval network] covered).

Fixpoint uncovered_networks_loop (family : Family) (covered : list Interval) (maximum : Z) (networks : list Network)
    (combined : list Interval) : lowering (list Network) :=
  match combined with
  | [] => Ok networks
  | interval :: combined =>
      networks ← push_within maximum networks (List.filter (fun n => negb (holds covered n)) (summary family interval));
      uncovered_networks_loop family covered maximum networks combined
  end.

Definition protocol_intervals_to_networks (protocol_intervals covered : list Interval) (family : Family) (maximum : Z) :
    lowering (list Network) :=
  uncovered_networks_loop family covered maximum [] (merge (protocol_intervals ++ covered)).

(** ** The sweep over the ports *)

(** [BTreeMap<u32, Vec<(i64, AddressSet)>>]. *)
Abbreviation Events := (gmap Z (list (Z * AddressSet))).

(** [events.entry(port).or_default().push(event)]. *)
Definition push_event (port : Z) (event : Z * AddressSet) (events : Events) : Events :=
  <[port := default [] (events !! port) ++ [event]]> events.

(** The loop over the rules: the events, and the cache of the address sets that [covered] does not
    hold. *)
Definition collect_rule (protocol : NativeProtocol) (covered : list Interval) (state : Events * gmap AddressSet bool) (rule : Rule) :
    Events * gmap AddressSet bool :=
  let '(events, uncovered) := state in
  match r_ports rule with
  | None => state
  | Some (start, end_) =>
      if negb (bool_decide (r_protocol rule = Some protocol)) || is_empty (r_addresses rule) then state
      else
        let addresses := r_addresses rule in
        let is_uncovered := default (negb (is_empty (subtract addresses covered))) (uncovered !! addresses) in
        let uncovered := <[addresses := is_uncovered]> uncovered in
        if negb is_uncovered then (events, uncovered)
        else (push_event (end_ + 1) (-1, addresses) (push_event start (1, addresses) events), uncovered)
  end.

Definition collect_events (rules : list Rule) (protocol : NativeProtocol) (covered : list Interval) : Events :=
  (foldl (collect_rule protocol covered) (∅, ∅) rules).1.

Record Sweep := mkSweep {
  active : gmap AddressSet Z;
  port_ranges : gmap Network (list (Z * Z));
  open_networks : list Network;
  rule_count : Z;
  previous_port : option Z;
}.

#[export] Instance Sweep_eta : Eta Sweep :=
  fun s => mkSweep (active s) (port_ranges s) (open_networks s) (rule_count s) (previous_port s).

Definition empty_sweep : Sweep := mkSweep ∅ ∅ [] 0 None.

(** [for &(direction, addresses) in port_events]. *)
Definition apply_event (active : gmap AddressSet Z) (event : Z * AddressSet) : gmap AddressSet Z :=
  let '(direction, addresses) := event in
  let count := default 0 (active !! addresses) + direction in
  if count =? 0 then delete addresses active else <[addresses := count]> active.

(** [for &network in &open_networks]: the ranges and the networks kept. *)
Definition extend_network (available : list Interval) (last_port : Z) (state : gmap Network (list (Z * Z)) * list Network)
    (network : Network) : gmap Network (list (Z * Z)) * list Network :=
  let '(ranges, kept) := state in
  if holds available network then
    match ranges !! network with
    | Some network_ranges =>
        match last network_ranges with
        | Some range => (<[network := removelast network_ranges ++ [(range.1, last_port)]]> ranges, kept ++ [network])
        | None => state
        end
    | None => state
    end
  else state.

(** [for network in networks]. *)
Fixpoint open_new (budget first last_port : Z) (state : gmap Network (list (Z * Z)) * Z * list Network) (networks : list Network) :
    lowering (gmap Network (list (Z * Z)) * Z * list Network) :=
  let '(ranges, rule_count, kept) := state in
  match networks with
  | [] => Ok state
  | network :: networks =>
      if budget <=? rule_count then Err TooManyRules
      else open_new budget first last_port
             (<[network := default [] (ranges !! network) ++ [(first, last_port)]]> ranges, rule_count + 1, kept ++ [network]) networks
  end.

(** A segment of ports, from [previous] up to [port], in which the same rules are active. *)
Definition sweep_segment (family : Family) (covered : list Interval) (budget previous port : Z) (self : Sweep) : lowering Sweep :=
  let addresses := merge (concat (fst <$> btree_entries address_set_key (active self))) in
  let available := merge (addresses ++ covered) in
  let '(ranges, kept) := foldl (extend_network available (port - 1)) (port_ranges self, []) (open_networks self) in
  let kept_cover := merge (covered ++ (interval <$> kept)) in
  maximum ← usize_sub budget (rule_count self);
  networks ← protocol_intervals_to_networks addresses kept_cover family maximum;
  '(ranges, rule_count', kept) ← open_new budget previous (port - 1) (ranges, rule_count self, kept) networks;
  Ok (self <| port_ranges := ranges |> <| open_networks := kept |> <| rule_count := rule_count' |>).

Definition sweep_boundary (family : Family) (covered : list Interval) (budget : Z) (self : Sweep) (port : Z)
    (port_events : list (Z * AddressSet)) : lowering Sweep :=
  let none_active := bool_decide (active self = ∅) in
  let self := if bool_decide (is_Some (previous_port self)) && none_active then self <| open_networks := [] |> else self in
  self ← match previous_port self with
         | Some previous =>
             if (previous <? port) && negb none_active then sweep_segment family covered budget previous port self else Ok self
         | None => Ok self
         end;
  Ok (self <| active := foldl apply_event (active self) port_events |> <| previous_port := Some port |>).

Fixpoint sweep (family : Family) (covered : list Interval) (budget : Z) (self : Sweep) (events : list (Z * list (Z * AddressSet))) :
    lowering Sweep :=
  match events with
  | [] => Ok self
  | (port, port_events) :: events =>
      self ← sweep_boundary family covered budget self port port_events;
      sweep family covered budget self events
  end.

(** The cast to [u16] keeps the low bits. *)
Definition ranges_to_rules (protocol : NativeProtocol) (ranges : gmap Network (list (Z * Z))) : list NativeRule :=
  concat ((fun e : Network * list (Z * Z) => (fun r => (e.1, Some protocol, Some (r.1 mod 2 ^ 16, r.2 mod 2 ^ 16))) <$> e.2)
          <$> btree_entries network_key ranges).

Definition lower_port_rules (rules : list Rule) (protocol : NativeProtocol) (family : Family) (covered : list Interval) (budget : Z) :
    lowering (list NativeRule) :=
  swept ← sweep family covered budget empty_sweep
            (btree_entries (fun port => [port]) (collect_events rules protocol covered));
  Ok (ranges_to_rules protocol (port_ranges swept)).

(** ** The rules of one action *)

Definition is_address_only (rule : Rule) : bool := bool_decide (r_protocol rule = None).
Definition is_protocol_wide (protocol : NativeProtocol) (rule : Rule) : bool :=
  bool_decide (r_protocol rule = Some protocol) && bool_decide (r_ports rule = None).

(** The loop over the protocols, for every port of each. *)
Fixpoint lower_protocols (rules : list Rule) (address_only : list Interval) (family : Family) (budget : Z)
    (lowered : list NativeRule) (covered : NativeProtocol -> option (list Interval)) (protocols : list NativeProtocol) :
    lowering (list NativeRule * (NativeProtocol -> option (list Interval))) :=
  match protocols with
  | [] => Ok (lowered, covered)
  | protocol :: protocols =>
      let protocol_wide := union (List.filter (is_protocol_wide protocol) rules) in
      if is_empty protocol_wide then lower_protocols rules address_only family budget lowered covered protocols
      else
        maximum ← usize_sub budget (len lowered);
        networks ← protocol_intervals_to_networks protocol_wide address_only family maximum;
        lower_protocols rules address_only family budget
          (lowered ++ ((fun network => (network, Some protocol, None)) <$> networks))
          (fun p => if bool_decide (p = protocol) then Some (merge (address_only ++ protocol_wide)) else covered p) protocols
  end.

(** The loop over the protocols with ports. *)
Fixpoint lower_ports (rules : list Rule) (address_only : list Interval) (family : Family) (budget : Z)
    (covered : NativeProtocol -> option (list Interval)) (lowered : list NativeRule) (protocols : list NativeProtocol) :
    lowering (list NativeRule) :=
  match protocols with
  | [] => Ok lowered
  | protocol :: protocols =>
      maximum ← usize_sub budget (len lowered);
      port_rules ← lower_port_rules rules protocol family (default address_only (covered protocol)) maximum;
      lower_ports rules address_only family budget covered (lowered ++ port_rules) protocols
  end.

Definition lower_family (rules : list Rule) (family : Family) (budget : Z) : lowering (list NativeRule) :=
  let address_only := union (List.filter is_address_only rules) in
  networks ← intervals_to_networks address_only family budget;
  let lowered := (fun network => (network, None, None)) <$> networks in
  '(lowered, covered) ← lower_protocols rules address_only family budget lowered (fun _ => None) [Icmp; Tcp; Udp];
  lower_ports rules address_only family budget covered lowered [Tcp; Udp].

Definition of_family (family : Family) (rule : Rule) : bool := bool_decide (r_family rule = family).

Fixpoint lower_families (rules : list Rule) (limit : Z) (lowered : list NativeRule) (families : list Family) :
    lowering (list NativeRule) :=
  match families with
  | [] => Ok lowered
  | family :: families =>
      let family_rules := List.filter (of_family family) rules in
      if is_empty family_rules then lower_families rules limit lowered families
      else
        budget ← usize_sub limit (len lowered);
        family_lowered ← lower_family family_rules family budget;
        lower_families rules limit (lowered ++ family_lowered) families
  end.

(** [lower_within] before its rules are written as text. *)
Definition lower_within (rules : list Rule) (limit : Z) : lowering (list NativeRule) :=
  lowered ← lower_families rules limit [] ALL;
  Ok (merge_sort (key_le native_key) lowered).

Definition MAX_RULES_PER_ACTION : Z := 256.

Definition lower (rules : list Rule) : lowering (list NativeRule) := lower_within rules MAX_RULES_PER_ACTION.

Example lower_example :
  lower [mkRule V4 [(8, 15)] (Some Tcp) (Some (80, 90)); mkRule V4 [(8, 11)] (Some Tcp) (Some (85, 100)); mkRule V4 [(12, 13)] None None]
  = Ok [(mkNetwork V4 8 29, Some Tcp, Some (80, 90)); (mkNetwork V4 8 30, Some Tcp, Some (91, 100)); (mkNetwork V4 12 31, None, None)].
Proof. vm_compute. reflexivity. Qed.
