(* ===== verification/LoweringFacts.v ===== *)
(** * Correctness of the lowering of egress rules

    First, the lowering without a limit, which the code computes until its rules exceed the limit;
    then the traffic that its native rules select. *)

From stdpp Require Import sorting gmap.
From S2P Require Import Prelude Addresses Lowering.
#[local] Open Scope Z_scope.

(** ** The lowering without a limit *)

(** A list of rules within a limit. *)
Definition within {A} (maximum : Z) (l : list A) : lowering (list A) := if len l <=? maximum then Ok l else Err TooManyRules.

Lemma within_ok {A} maximum (l : list A) : len l <= maximum -> within maximum l = Ok l.
Proof. intros H. unfold within. by destruct (Z.leb_spec (len l) maximum); [|lia]. Qed.

Lemma within_err {A} maximum (l : list A) : maximum < len l -> within maximum l = Err TooManyRules.
Proof. intros H. unfold within. by destruct (Z.leb_spec (len l) maximum); [lia|]. Qed.

Lemma within_bind {A B} maximum (l : list A) (f : list A -> lowering B) r :
  (len l <= maximum -> f l = r) -> (maximum < len l -> r = Err TooManyRules) -> (l ← within maximum l; f l) = r.
Proof.
  intros Hok Herr. destruct (Z.le_gt_cases (len l) maximum).
  - rewrite within_ok by done. by apply Hok.
  - rewrite within_err by done. symmetry. by apply Herr.
Qed.

Lemma usize_sub_ok a b : b <= a -> usize_sub a b = Ok (a - b).
Proof. intros H. unfold usize_sub. by destruct (Z.leb_spec b a); [|lia]. Qed.

Lemma push_within_spec maximum added : forall networks, len networks <= maximum ->
  push_within maximum networks added = within maximum (networks ++ added).
Proof.
  induction added as [|n added IH]; intros networks Hl; cbn [push_within].
  { rewrite app_nil_r. by rewrite within_ok. }
  destruct (Z.leb_spec maximum (len networks)).
  - rewrite within_err; [done|]. len_lia.
  - rewrite IH by len_lia. by rewrite <- app_assoc.
Qed.

Lemma push_within_loop maximum (f : Interval -> list Network) (loop : list Network -> list Interval -> lowering (list Network)) :
  (forall networks, loop networks [] = Ok networks) ->
  (forall networks i l, loop networks (i :: l) = (networks ← push_within maximum networks (f i); loop networks l)) ->
  forall l networks, len networks <= maximum -> loop networks l = within maximum (networks ++ concat (f <$> l)).
Proof.
  intros Hnil Hcons l. induction l as [|i l IH]; intros networks Hl.
  { rewrite Hnil. cbn. rewrite app_nil_r. by rewrite within_ok. }
  rewrite Hcons, push_within_spec by done. cbn [fmap list_fmap concat]. apply within_bind.
  - intros H. rewrite IH by done. by rewrite app_assoc.
  - intros H. apply within_err. len_lia.
Qed.

(** The networks of intervals, and those that others do not hold. *)
Definition networks_of (f : Family) (l : list Interval) : list Network := concat (summary f <$> l).
Definition uncovered_networks (f : Family) (l covered : list Interval) : list Network :=
  concat ((fun i => List.filter (fun n => negb (holds covered n)) (summary f i)) <$> merge (l ++ covered)).

Lemma intervals_to_networks_spec l f maximum : 0 <= maximum -> intervals_to_networks l f maximum = within maximum (networks_of f l).
Proof.
  intros Hm. unfold intervals_to_networks.
  rewrite (push_within_loop maximum (summary f) (intervals_to_networks_loop f maximum)); done.
Qed.

Lemma protocol_intervals_to_networks_spec l covered f maximum : 0 <= maximum ->
  protocol_intervals_to_networks l covered f maximum = within maximum (uncovered_networks f l covered).
Proof.
  intros Hm. unfold protocol_intervals_to_networks.
  rewrite (push_within_loop maximum (fun i => List.filter (fun n => negb (holds covered n)) (summary f i))
             (uncovered_networks_loop f covered maximum)); done.
Qed.

(** The new networks of a segment. *)
Definition open_network (first last_port : Z) (state : gmap Network (list (Z * Z)) * Z * list Network) (network : Network) :
    gmap Network (list (Z * Z)) * Z * list Network :=
  let '(ranges, rule_count, kept) := state in
  (<[network := default [] (ranges !! network) ++ [(first, last_port)]]> ranges, rule_count + 1, kept ++ [network]).

Lemma open_new_spec budget first last_port networks : forall ranges c kept, c <= budget ->
  open_new budget first last_port (ranges, c, kept) networks
  = if c + len networks <=? budget then Ok (foldl (open_network first last_port) (ranges, c, kept) networks) else Err TooManyRules.
Proof.
  induction networks as [|n networks IH]; intros ranges c kept Hc; cbn [open_new foldl].
  { change (len (@nil Network)) with 0. by destruct (Z.leb_spec (c + 0) budget); [|lia]. }
  rewrite len_cons. pose proof (len_nonneg networks). destruct (Z.leb_spec budget c).
  - by destruct (Z.leb_spec (c + (1 + len networks)) budget); [lia|].
  - rewrite IH by lia. unfold open_network at 2. by rewrite Z.add_assoc.
Qed.

(** The sweep of the ports. *)
Definition active_addresses (self : Sweep) : list Interval := merge (concat (fst <$> btree_entries address_set_key (active self))).

Definition segment (f : Family) (covered : list Interval) (previous port : Z) (self : Sweep) : Sweep :=
  let addresses := active_addresses self in
  let available := merge (addresses ++ covered) in
  let extended := foldl (extend_network available (port - 1)) (port_ranges self, []) (open_networks self) in
  let kept_cover := merge (covered ++ (interval <$> extended.2)) in
  let opened := foldl (open_network previous (port - 1)) (extended.1, rule_count self, extended.2)
                  (uncovered_networks f addresses kept_cover) in
  self <| port_ranges := opened.1.1 |> <| open_networks := opened.2 |> <| rule_count := opened.1.2 |>.

Definition boundary (f : Family) (covered : list Interval) (self : Sweep) (event : Z * list (Z * AddressSet)) : Sweep :=
  let none_active := bool_decide (active self = ∅) in
  let self := if bool_decide (is_Some (previous_port self)) && none_active then self <| open_networks := [] |> else self in
  let self := match previous_port self with
              | Some previous => if (previous <? event.1) && negb none_active then segment f covered previous event.1 self else self
              | None => self
              end in
  self <| active := foldl apply_event (active self) event.2 |> <| previous_port := Some event.1 |>.

Lemma open_count first last_port networks : forall state,
  (foldl (open_network first last_port) state networks).1.2 = state.1.2 + len networks.
Proof.
  induction networks as [|n networks IH]; intros [[ranges c] kept]; cbn [foldl]; [rewrite len_nil; cbn; lia|].
  rewrite IH, len_cons. cbn. lia.
Qed.

Lemma segment_count f covered previous port self : rule_count self <= rule_count (segment f covered previous port self).
Proof.
  unfold segment. cbn. rewrite open_count. cbn [fst snd]. pose proof (len_nonneg (A := Network)). len_lia.
Qed.

Lemma boundary_count f covered self event : rule_count self <= rule_count (boundary f covered self event).
Proof.
  unfold boundary. cbn. set (self' := if _ && _ then _ else _).
  assert (Hs : rule_count self' = rule_count self /\ previous_port self' = previous_port self) by (unfold self'; by case_match).
  destruct Hs as [Hs ->]. rewrite <- Hs. repeat case_match; try reflexivity. apply segment_count.
Qed.

Lemma sweep_segment_spec f covered budget previous port self : 0 <= rule_count self <= budget ->
  sweep_segment f covered budget previous port self
  = let self := segment f covered previous port self in if rule_count self <=? budget then Ok self else Err TooManyRules.
Proof.
  intros Hc. unfold sweep_segment, segment. fold (active_addresses self). cbv zeta.
  destruct (foldl (extend_network _ _) _ _) as [ranges kept]. cbn [fst snd].
  rewrite usize_sub_ok by lia. cbn [mbind result_bind]. rewrite protocol_intervals_to_networks_spec by lia.
  set (networks := uncovered_networks f (active_addresses self) _).
  pose proof (open_count previous (port - 1) networks (ranges, rule_count self, kept)) as Hcount.
  destruct (foldl (open_network _ _) _ _) as [[ranges' c'] kept'] eqn:Ho. cbn [fst snd] in Hcount |- *.
  change (rule_count (self <| port_ranges := ranges' |> <| open_networks := kept' |> <| rule_count := c' |>)) with c'.
  apply within_bind; intros Hn.
  - rewrite open_new_spec, Ho, <- Hcount by lia. by destruct (Z.leb_spec c' budget); [|lia].
  - by destruct (Z.leb_spec c' budget); [lia|].
Qed.

Lemma sweep_boundary_spec f covered budget self port events : 0 <= rule_count self <= budget ->
  sweep_boundary f covered budget self port events
  = let self := boundary f covered self (port, events) in if rule_count self <=? budget then Ok self else Err TooManyRules.
Proof.
  intros Hc. unfold sweep_boundary, boundary. cbv zeta. cbn [fst snd].
  set (none_active := bool_decide (active self = ∅)). set (self' := if _ && _ then _ else _).
  assert (Hs : rule_count self' = rule_count self) by (unfold self'; by case_match). rewrite <- Hs in Hc.
  clearbody self'. assert (Hdone : forall s, rule_count s <= budget -> (rule_count s <=? budget) = true) by (by intros; apply Z.leb_le).
  destruct (previous_port self') as [previous|]; [|cbn; by rewrite Hdone by lia].
  destruct (_ && negb none_active); [|cbn; by rewrite Hdone by lia].
  rewrite sweep_segment_spec by done. cbv zeta. set (s := segment _ _ _ _ _).
  change (rule_count (_ <| active := _ |> <| previous_port := _ |>)) with (rule_count s).
  by destruct (rule_count s <=? budget).
Qed.

Lemma boundaries_count f covered events : forall self, rule_count self <= rule_count (foldl (boundary f covered) self events).
Proof.
  induction events as [|e events IH]; intros self; cbn [foldl]; [done|].
  etrans; [apply boundary_count|apply IH].
Qed.

Lemma sweep_spec f covered budget events : forall self, 0 <= rule_count self <= budget ->
  sweep f covered budget self events
  = let self := foldl (boundary f covered) self events in if rule_count self <=? budget then Ok self else Err TooManyRules.
Proof.
  induction events as [|[port e] events IH]; intros self Hc; cbn [sweep foldl].
  { cbv zeta. by rewrite (proj2 (Z.leb_le _ _)) by lia. }
  rewrite sweep_boundary_spec by done. cbv zeta. pose proof (boundary_count f covered self (port, e)).
  pose proof (boundaries_count f covered events (boundary f covered self (port, e))).
  destruct (Z.leb_spec (rule_count (boundary f covered self (port, e))) budget); cbn [mbind result_bind].
  - rewrite IH by lia. done.
  - by destruct (Z.leb_spec (rule_count (foldl (boundary f covered) (boundary f covered self (port, e)) events)) budget); [lia|].
Qed.

(** The number of ranges is the number of rules. *)
Definition total (m : gmap Network (list (Z * Z))) : Z := len (concat ((map_to_list m).*2)).

Lemma len_concat_perm {A} (k l : list (list A)) : k ≡ₚ l -> len (concat k) = len (concat l).
Proof. intros H. unfold len. f_equal. apply Permutation_length. by rewrite H. Qed.

Lemma total_delete m n : total m = len (default [] (m !! n)) + total (delete n m).
Proof.
  unfold total. destruct (m !! n) as [l|] eqn:Hn; cbn [default].
  - rewrite <- (len_concat_perm (((n, l) :: map_to_list (delete n m)).*2)) by (by rewrite map_to_list_delete).
    rewrite fmap_cons. cbn [concat]. by rewrite len_app.
  - rewrite delete_id by done. done.
Qed.

Lemma total_insert m n l : total (<[n := l]> m) = total m - len (default [] (m !! n)) + len l.
Proof.
  rewrite (total_delete m n), (total_delete (<[n := l]> m) n), lookup_insert, delete_insert_eq. case_decide; [|done].
  change (default [] (Some l)) with l. lia.
Qed.

(** Extending a range keeps their number, and opening networks adds as many. *)
Lemma last_len {A} (l : list A) x y : last l = Some x -> len (removelast l ++ [y]) = len l.
Proof. intros Hl. rewrite (last_removelast l x Hl) at 2. len_lia. Qed.

Lemma extend_total available last_port networks : forall state,
  total (foldl (extend_network available last_port) state networks).1 = total state.1.
Proof.
  induction networks as [|n networks IH]; intros [ranges kept]; cbn [foldl]; [done|].
  rewrite IH. unfold extend_network. case_match; [|done]. destruct (ranges !! n) as [l|] eqn:Hn; [|done].
  destruct (last l) as [r|] eqn:Hl; [|done]. cbn [fst]. rewrite total_insert, Hn.
  change (default [] (Some l)) with l. rewrite (last_len l r) by done. lia.
Qed.

Lemma open_total first last_port networks : forall state,
  total (foldl (open_network first last_port) state networks).1.1 = total state.1.1 + len networks.
Proof.
  induction networks as [|n networks IH]; intros [[ranges c] kept]; cbn [foldl]; [rewrite len_nil; lia|].
  rewrite IH. cbn [fst open_network]. rewrite total_insert. len_lia.
Qed.

Definition counted (self : Sweep) : Prop := rule_count self = total (port_ranges self).

Lemma segment_counted f covered previous port self : counted self -> counted (segment f covered previous port self).
Proof. unfold counted, segment. cbn. intros H. rewrite open_count, open_total. cbn [fst snd]. rewrite extend_total. cbn [fst]. lia. Qed.

Lemma boundary_counted f covered self event : counted self -> counted (boundary f covered self event).
Proof.
  intros H. unfold boundary. cbv zeta. set (self' := if _ && _ then _ else _).
  assert (Hs : counted self') by (unfold self'; by case_match). clearbody self'.
  repeat case_match; try done. by apply segment_counted.
Qed.

Lemma boundaries_counted f covered events : forall self, counted self -> counted (foldl (boundary f covered) self events).
Proof. induction events as [|e events IH]; intros self H; cbn [foldl]; [done|]. by apply IH, boundary_counted. Qed.

Lemma btree_entries_perm {K V} `{Countable K} (key : K -> list Z) (m : gmap K V) : btree_entries key m ≡ₚ map_to_list m.
Proof. apply merge_sort_Permutation. Qed.

Lemma ranges_to_rules_len protocol ranges : len (ranges_to_rules protocol ranges) = total ranges.
Proof.
  unfold ranges_to_rules, total. rewrite (len_concat_perm _ ((fun e : Network * list (Z * Z) =>
    (fun r => (e.1, Some protocol, Some (r.1 mod 2 ^ 16, r.2 mod 2 ^ 16)) : NativeRule) <$> e.2) <$> map_to_list ranges))
    by (by rewrite btree_entries_perm).
  induction (map_to_list ranges) as [|[n l] m IH]; [done|]. rewrite !fmap_cons. cbn [concat]. rewrite !len_app, IH. f_equal.
  unfold len. cbn [snd]. by rewrite length_fmap.
Qed.

(** The rules for the ports of a protocol. *)
Definition swept (rules : list Rule) (protocol : NativeProtocol) (f : Family) (covered : list Interval) : Sweep :=
  foldl (boundary f covered) empty_sweep (btree_entries (fun port => [port]) (collect_events rules protocol covered)).
Definition port_rules (rules : list Rule) (protocol : NativeProtocol) (f : Family) (covered : list Interval) : list NativeRule :=
  ranges_to_rules protocol (port_ranges (swept rules protocol f covered)).

Lemma lower_port_rules_spec rules protocol f covered budget : 0 <= budget ->
  lower_port_rules rules protocol f covered budget = within budget (port_rules rules protocol f covered).
Proof.
  intros Hb. unfold lower_port_rules. rewrite sweep_spec by (cbn; lia). cbv zeta. fold (swept rules protocol f covered).
  unfold within, port_rules. rewrite ranges_to_rules_len.
  assert (Hc : counted (swept rules protocol f covered)) by (by apply boundaries_counted).
  rewrite <- Hc. by destruct (_ <=? budget).
Qed.

(** The rules for every port of a protocol, and what they cover with the rules for every protocol. *)
Definition protocol_wide (rules : list Rule) (protocol : NativeProtocol) : list Interval :=
  union (List.filter (is_protocol_wide protocol) rules).
Definition address_only (rules : list Rule) : list Interval := union (List.filter is_address_only rules).

Definition protocol_rules (rules : list Rule) (f : Family) (protocol : NativeProtocol) : list NativeRule :=
  if is_empty (protocol_wide rules protocol) then []
  else (fun n => (n, Some protocol, None)) <$> uncovered_networks f (protocol_wide rules protocol) (address_only rules).

Definition protocol_covered (rules : list Rule) (protocol : NativeProtocol) : option (list Interval) :=
  if is_empty (protocol_wide rules protocol) then None else Some (merge (address_only rules ++ protocol_wide rules protocol)).

Definition covered_for (rules : list Rule) (protocol : NativeProtocol) : list Interval :=
  default (address_only rules) (protocol_covered rules protocol).

Definition cover (rules : list Rule) (covered : NativeProtocol -> option (list Interval)) (protocol : NativeProtocol) :
    NativeProtocol -> option (list Interval) :=
  if is_empty (protocol_wide rules protocol) then covered
  else fun p => if bool_decide (p = protocol) then Some (merge (address_only rules ++ protocol_wide rules protocol)) else covered p.

Lemma lower_protocols_spec rules f budget protocols : forall lowered covered, len lowered <= budget ->
  lower_protocols rules (address_only rules) f budget lowered covered protocols
  = (lowered ← within budget (lowered ++ concat (protocol_rules rules f <$> protocols));
     Ok (lowered, foldl (cover rules) covered protocols)).
Proof.
  induction protocols as [|p protocols IH]; intros lowered covered Hl.
  { cbn. rewrite app_nil_r. by rewrite within_ok. }
  cbn [lower_protocols foldl]. rewrite fmap_cons. cbn [concat]. fold (protocol_wide rules p).
  unfold protocol_rules at 1, cover at 2.
  destruct (is_empty (protocol_wide rules p)); [by rewrite IH|].
  rewrite usize_sub_ok by lia. cbn [mbind result_bind]. rewrite protocol_intervals_to_networks_spec by lia.
  set (networks := uncovered_networks _ _ _).
  assert (Hn : forall g : Network -> NativeRule, len (g <$> networks) = len networks) by (intros; unfold len; by rewrite length_fmap).
  apply within_bind; intros Hw.
  - rewrite IH; [by rewrite app_assoc|]. rewrite len_app, Hn. lia.
  - rewrite within_err; [done|]. rewrite !len_app, Hn. len_facts. lia.
Qed.

Lemma lower_ports_spec rules f budget covered protocols : forall lowered, len lowered <= budget ->
  lower_ports rules (address_only rules) f budget covered lowered protocols
  = within budget (lowered ++ concat ((fun p => port_rules rules p f (default (address_only rules) (covered p))) <$> protocols)).
Proof.
  induction protocols as [|p protocols IH]; intros lowered Hl.
  { cbn. rewrite app_nil_r. by rewrite within_ok. }
  cbn [lower_ports]. rewrite fmap_cons. cbn [concat]. rewrite usize_sub_ok by lia. cbn [mbind result_bind].
  rewrite lower_port_rules_spec by lia. apply within_bind; intros Hw.
  - rewrite IH by len_lia. by rewrite app_assoc.
  - rewrite within_err; [done|]. rewrite !len_app. len_facts. lia.
Qed.

Definition address_rules (rules : list Rule) (f : Family) : list NativeRule :=
  (fun n => (n, None, None)) <$> networks_of f (address_only rules).

Definition family_lowering (rules : list Rule) (f : Family) : list NativeRule :=
  address_rules rules f
  ++ concat (protocol_rules rules f <$> [Icmp; Tcp; Udp])
  ++ concat ((fun p => port_rules rules p f (covered_for rules p)) <$> [Tcp; Udp]).

Lemma covers_all rules p : foldl (cover rules) (fun _ => None) [Icmp; Tcp; Udp] p = protocol_covered rules p.
Proof. unfold cover, protocol_covered. cbn [foldl]. destruct p; repeat case_match; done. Qed.

Lemma lower_family_spec rules f budget : 0 <= budget -> lower_family rules f budget = within budget (family_lowering rules f).
Proof.
  intros Hb. unfold lower_family. cbv zeta. fold (address_only rules). rewrite intervals_to_networks_spec by done.
  assert (Hn : len (address_rules rules f) = len (networks_of f (address_only rules))) by (unfold len, address_rules; by rewrite length_fmap).
  unfold family_lowering. apply within_bind; intros Hw; [|rewrite within_err; [done|]; len_lia].
  fold (address_rules rules f). rewrite lower_protocols_spec by lia.
  set (firsts := address_rules rules f ++ concat (protocol_rules rules f <$> [Icmp; Tcp; Udp])). rewrite app_assoc. fold firsts.
  destruct (Z.le_gt_cases (len firsts) budget) as [Hf|Hf].
  - rewrite within_ok by done. cbn [mbind result_bind]. rewrite lower_ports_spec by done.
    cbn [fmap list_fmap]. by rewrite !covers_all.
  - rewrite (within_err _ firsts) by done. cbn [mbind result_bind]. rewrite within_err; [done|]. len_lia.
Qed.

(** The lowering of every family. *)
Definition lowering_of (rules : list Rule) (f : Family) : list NativeRule :=
  let rules := List.filter (of_family f) rules in if is_empty rules then [] else family_lowering rules f.

Lemma lower_families_spec rules limit families : forall lowered, len lowered <= limit ->
  lower_families rules limit lowered families = within limit (lowered ++ concat (lowering_of rules <$> families)).
Proof.
  induction families as [|f families IH]; intros lowered Hl.
  { cbn. rewrite app_nil_r. by rewrite within_ok. }
  cbn [lower_families]. rewrite fmap_cons. cbn [concat]. unfold lowering_of at 1. cbv zeta.
  destruct (is_empty _); [by rewrite IH|]. rewrite usize_sub_ok by lia. cbn [mbind result_bind].
  rewrite lower_family_spec by lia. apply within_bind; intros Hw.
  - rewrite IH by len_lia. by rewrite app_assoc.
  - rewrite within_err; [done|]. rewrite !len_app. len_facts. lia.
Qed.

Definition lower_all (rules : list Rule) : list NativeRule := concat (lowering_of rules <$> ALL).

Lemma lower_within_spec rules limit : 0 <= limit ->
  lower_within rules limit
  = if len (lower_all rules) <=? limit then Ok (merge_sort (key_le native_key) (lower_all rules)) else Err TooManyRules.
Proof.
  intros Hl. unfold lower_within. rewrite lower_families_spec by done. unfold within, lower_all. cbn [app].
  by destruct (_ <=? limit).
Qed.

(** ** Sets of addresses of one family *)

Definition addresses_of (f : Family) (l : list Interval) : Prop :=
  disjoint_intervals l /\ forall x, member x l -> x <= last_address f.

Lemma addresses_interval f l i : addresses_of f l -> i ∈ l -> is_interval i /\ i.2 <= last_address f.
Proof.
  intros [[Hf _] Hx] Hi. rewrite Forall_forall in Hf. pose proof (Hf i Hi) as Hii. split; [done|].
  apply Hx. exists i. split; [done|]. unfold in_interval, is_interval in *. lia.
Qed.

Lemma merge_addresses f l : (forall i, i ∈ l -> is_interval i /\ i.2 <= last_address f) ->
  addresses_of f (merge l) /\ forall x, member x (merge l) <-> member x l.
Proof.
  intros Hl. destruct (merge_spec l) as [Hd Hm]; [apply Forall_forall; intros i Hi; by apply Hl|].
  split; [|done]. split; [done|]. intros x (i & Hi & Hx)%Hm. destruct (Hl i Hi). unfold in_interval in Hx. lia.
Qed.

Lemma merge_app_addresses f k l : addresses_of f k -> addresses_of f l ->
  addresses_of f (merge (k ++ l)) /\ forall x, member x (merge (k ++ l)) <-> member x k \/ member x l.
Proof.
  intros Hk Hl. destruct (merge_addresses f (k ++ l)) as [Ha Hm].
  - intros i [Hi|Hi]%elem_of_app; [by apply (addresses_interval f k)|by apply (addresses_interval f l)].
  - split; [done|]. intros x. by rewrite Hm, member_app.
Qed.

Lemma merge_concat_addresses f ls : (forall l, l ∈ ls -> addresses_of f l) ->
  addresses_of f (merge (concat ls)) /\ forall x, member x (merge (concat ls)) <-> exists l, l ∈ ls /\ member x l.
Proof.
  intros Hls. destruct (merge_addresses f (concat ls)) as [Ha Hm].
  - intros i Hi. apply list_elem_of_In, in_concat in Hi as (l & Hl & Hi).
    apply (addresses_interval f l); [apply Hls|]; by apply list_elem_of_In.
  - split; [done|]. intros x. by rewrite Hm, member_concat.
Qed.

Lemma union_spec f rules : (forall r, r ∈ rules -> addresses_of f (r_addresses r)) ->
  addresses_of f (union rules) /\ forall x, member x (union rules) <-> exists r, r ∈ rules /\ member x (r_addresses r).
Proof.
  intros Hr. unfold union. cbv zeta. set (ls := btree_elements _ _).
  assert (Hls : forall l, l ∈ ls <-> exists r, r ∈ rules /\ l = r_addresses r).
  { intros l. unfold ls, btree_elements. rewrite merge_sort_Permutation, elem_of_elements, elem_of_list_to_set, list_elem_of_fmap.
    naive_solver. }
  destruct (merge_concat_addresses f ls) as [Ha Hm].
  - intros l (r & Hin & ->)%Hls. by apply Hr.
  - split; [done|]. intros x. rewrite Hm. setoid_rewrite Hls. naive_solver.
Qed.

(** Networks of a family. *)
Definition networks_in (f : Family) (ns : list Network) : Prop := forall n, n ∈ ns -> is_network n /\ Addresses.family n = f.

Lemma network_addresses f n : is_network n -> Addresses.family n = f -> addresses_of f [interval n].
Proof.
  intros Hn <-. destruct (network_interval n Hn) as (Hi & Hl & _). split.
  - apply disjoint_cons. split; [done|]. split; [apply disjoint_nil|]. intros j Hj. by apply elem_of_nil in Hj.
  - intros x [Hx|[]%member_nil]%member_cons. unfold in_interval in Hx. lia.
Qed.

Lemma summary_spec f l i : addresses_of f l -> i ∈ l ->
  networks_in f (summary f i) /\ forall x, member x (interval <$> summary f i) <-> in_interval x i.
Proof.
  intros Hl Hi. destruct (addresses_interval f l i Hl Hi) as [[H0 _] Hlast].
  destruct (greedy_covers f i.2 i.1 (summary f i)) as (Hn & _ & _ & Hm); [lia|done|by apply summary_greedy; lia|].
  split; [|done]. intros n Hin. rewrite Forall_forall in Hn. by apply Hn.
Qed.

Lemma networks_of_spec f l : addresses_of f l ->
  networks_in f (networks_of f l) /\ forall x, member x (interval <$> networks_of f l) <-> member x l.
Proof.
  intros Hl. unfold networks_of. split.
  - intros n Hn. apply list_elem_of_In, in_concat in Hn as (ns & Hns & Hn).
    apply list_elem_of_In in Hns, Hn. apply list_elem_of_fmap in Hns as (i & -> & Hi). by apply (summary_spec f l i Hl Hi).
  - intros x. split.
    + intros (j & (n & -> & Hn)%list_elem_of_fmap & Hx). apply list_elem_of_In, in_concat in Hn as (ns & Hns & Hn).
      apply list_elem_of_In in Hns, Hn. apply list_elem_of_fmap in Hns as (i & -> & Hi). exists i. split; [done|].
      apply (summary_spec f l i Hl Hi). exists (interval n). split; [|done]. by apply list_elem_of_fmap_2.
    + intros (i & Hi & Hx). apply (summary_spec f l i Hl Hi) in Hx as (j & (n & -> & Hn)%list_elem_of_fmap & Hx).
      exists (interval n). split; [|done]. apply list_elem_of_fmap_2, list_elem_of_In, in_concat. exists (summary f i).
      split; apply list_elem_of_In; [|done]. by apply list_elem_of_fmap_2.
Qed.

Lemma holds_spec f covered n : addresses_of f covered -> is_network n -> Addresses.family n = f ->
  holds covered n = true <-> forall x, in_interval x (interval n) -> member x covered.
Proof.
  intros [Hc _] Hn Hf. destruct (network_addresses f n Hn Hf) as [Hd _]. pose proof (subtract_empty [interval n] covered Hd Hc) as He.
  setoid_rewrite member_cons in He. setoid_rewrite member_nil in He. unfold holds.
  destruct (subtract [interval n] covered); cbn [is_empty]; naive_solver.
Qed.

Lemma uncovered_networks_elem f l covered n :
  n ∈ uncovered_networks f l covered <-> n ∈ networks_of f (merge (l ++ covered)) /\ holds covered n = false.
Proof.
  unfold uncovered_networks, networks_of. rewrite !list_elem_of_In, !in_concat. split.
  - intros (ns & Hns & Hn). apply in_map_iff in Hns as (i & <- & Hi). apply filter_In in Hn as [Hn Hh]. apply negb_true_iff in Hh.
    split; [|done]. exists (summary f i). split; [|done]. apply in_map_iff. by exists i.
  - intros [(ns & Hns & Hn) Hh]. apply in_map_iff in Hns as (i & <- & Hi). eexists. split; [apply in_map_iff; by exists i|].
    apply filter_In. by rewrite Hh.
Qed.

Lemma uncovered_networks_spec f l covered : addresses_of f l -> addresses_of f covered ->
  networks_in f (uncovered_networks f l covered)
  /\ forall x, member x (interval <$> uncovered_networks f l covered) \/ member x covered <-> member x l \/ member x covered.
Proof.
  intros Hl Hc. destruct (merge_app_addresses f l covered Hl Hc) as [Ha Hm]. destruct (networks_of_spec f _ Ha) as [Hn Hx].
  split; [intros n [Hin _]%uncovered_networks_elem; by apply Hn|]. intros x. rewrite <- Hm, <- Hx. split.
  - intros [(j & (n & -> & [Hin _]%uncovered_networks_elem)%list_elem_of_fmap & Hj)|H]; [|by apply Hx, Hm; right].
    exists (interval n). split; [|done]. by apply list_elem_of_fmap_2.
  - intros (j & (n & -> & Hin)%list_elem_of_fmap & Hj). destruct (holds covered n) eqn:Hh.
    + right. destruct (Hn n Hin) as [Hnn Hnf]. by apply (holds_spec f covered n Hc Hnn Hnf).
    + left. exists (interval n). split; [|done]. by apply list_elem_of_fmap_2, uncovered_networks_elem.
Qed.
