(* ===== verification/LoweringSweep.v ===== *)
(** * The port sweep of the lowering, and the traffic that native rules select

    The sweep's invariant: up to the current boundary, the ranges of the networks select just what
    the rules that are active at each port select, up to the addresses that are covered anyway. The
    main theorem of the lowering composes it with the networks of the other rules. *)

From stdpp Require Import sorting gmap.
From S2P Require Import Prelude Addresses Lowering LoweringFacts.
#[local] Open Scope Z_scope.

(** ** Ranges of ports *)

Definition in_range (q : Z) (r : Z * Z) : Prop := r.1 <= q <= r.2.
Definition in_ranges (q : Z) (l : list (Z * Z)) : Prop := exists r, r ∈ l /\ in_range q r.

(** The networks' ranges hold a port of an address. *)
Definition held (m : gmap Network (list (Z * Z))) (q x : Z) : Prop :=
  exists n l, m !! n = Some l /\ in_ranges q l /\ in_interval x (interval n).

Lemma in_ranges_app q k l : in_ranges q (k ++ l) <-> in_ranges q k \/ in_ranges q l.
Proof. unfold in_ranges. setoid_rewrite elem_of_app. naive_solver. Qed.

Lemma in_ranges_one q r : in_ranges q [r] <-> in_range q r.
Proof. unfold in_ranges. setoid_rewrite list_elem_of_singleton. naive_solver. Qed.

Lemma in_ranges_nil q : in_ranges q [] <-> False.
Proof. unfold in_ranges. setoid_rewrite elem_of_nil. naive_solver. Qed.

(** Growing the ranges of one network. *)
Lemma held_grow m n l q x (new : Prop) : (in_ranges q l <-> in_ranges q (default [] (m !! n)) \/ new) ->
  held (<[n := l]> m) q x <-> held m q x \/ (new /\ in_interval x (interval n)).
Proof.
  intros Hl. unfold held. split.
  - intros (n' & l' & [[<- <-]|[Hne Hn]]%lookup_insert_Some & Hq & Hx).
    + apply Hl in Hq as [Hq|Hq]; [|tauto]. left. destruct (m !! n) as [k|] eqn:Hn.
      * by exists n, k.
      * by apply in_ranges_nil in Hq.
    + left. by exists n', l'.
  - intros [(n' & l' & Hn & Hq & Hx)|[Hnew Hx]].
    + destruct (decide (n = n')) as [<-|Hne].
      * exists n, l. rewrite lookup_insert, decide_True by done. split; [done|]. split; [|done]. apply Hl. left. by rewrite Hn.
      * exists n', l'. by rewrite lookup_insert_ne.
    + exists n, l. rewrite lookup_insert, decide_True by done. split; [done|]. split; [|done]. apply Hl. by right.
Qed.

Section Segment.
Context (f : Family) (at_ p : Z).
Hypothesis Hap : 1 <= at_ < p.

(** Every range of a network of the family ends before a port. *)
Definition ends_before (bound : Z) (m : gmap Network (list (Z * Z))) : Prop :=
  forall n l, m !! n = Some l -> is_network n /\ Addresses.family n = f /\ forall r, r ∈ l -> 1 <= r.1 <= r.2 /\ r.2 < bound.

(** The last range of a network ends just before the segment, or with it. *)
Definition extensible (m : gmap Network (list (Z * Z))) (n : Network) : Prop :=
  exists l r, m !! n = Some (l ++ [r]) /\ r.1 <= at_ /\ (r.2 = at_ - 1 \/ r.2 = p - 1).

(** The last range of a network ends at a port. *)
Definition open_at (e : Z) (m : gmap Network (list (Z * Z))) (n : Network) : Prop :=
  exists l s, m !! n = Some (l ++ [(s, e)]).

(** What a step of the segment does to the ranges: it adds the segment to those of [added]. *)
Record grows (added : list Network) (m m' : gmap Network (list (Z * Z))) : Prop := {
  gr_held : forall q x, held m' q x <-> held m q x \/ ((at_ <= q < p) /\ member x (interval <$> added));
  gr_ends : ends_before p m -> networks_in f added -> ends_before p m';
  gr_open : forall n, n ∈ added \/ open_at (p - 1) m n -> open_at (p - 1) m' n;
  gr_extensible : forall n, extensible m n -> extensible m' n;
}.

Lemma grows_nil m : grows [] m m.
Proof.
  constructor; [|done| |done].
  - intros q x. change (interval <$> []) with (@nil Interval). rewrite member_nil. tauto.
  - intros n [Hn|Hn]; [by apply elem_of_nil in Hn|done].
Qed.

Lemma grows_trans k l m m' m'' : grows k m m' -> grows l m' m'' -> grows (k ++ l) m m''.
Proof.
  intros [H1 H2 H3 H4] [J1 J2 J3 J4]. constructor.
  - intros q x. rewrite J1, H1, fmap_app, member_app. tauto.
  - intros Hm Hkl. apply J2; [apply H2; [done|]|]; intros n Hn; apply Hkl, elem_of_app; tauto.
  - intros n [[Hn|Hn]%elem_of_app|Hn]; apply J3; [right; apply H3; by left|by left|right; apply H3; by right].
  - intros n Hn. by apply J4, H4.
Qed.

(** Extending the last range of a network. *)
Lemma extend_grows m n l r : m !! n = Some (l ++ [r]) -> 1 <= r.1 <= at_ -> (r.2 = at_ - 1 \/ r.2 = p - 1) ->
  grows [n] m (<[n := l ++ [(r.1, p - 1)]]> m).
Proof.
  intros Hn H1 H2. constructor.
  - intros q x. rewrite (held_grow m n _ q x (at_ <= q < p)).
    + change (interval <$> [n]) with [interval n]. rewrite member_cons, member_nil. tauto.
    + rewrite Hn. change (default [] (Some (l ++ [r]))) with (l ++ [r]). rewrite !in_ranges_app, !in_ranges_one.
      assert (in_range q (r.1, p - 1) <-> in_range q r \/ at_ <= q < p) by (unfold in_range; cbn; lia). tauto.
  - intros Hm Hin n' l' [[<- <-]|[Hne Hn']]%lookup_insert_Some; [|by apply (Hm n')].
    destruct (Hm n _ Hn) as (Hnn & Hnf & Hr). do 2 (split; [done|]). intros r' [Hr'| ->%list_elem_of_singleton]%elem_of_app.
    + apply Hr, elem_of_app. by left.
    + cbn. lia.
  - intros n' Hn'. destruct (decide (n = n')) as [<-|Hne].
    + exists l, r.1. by rewrite lookup_insert, decide_True.
    + destruct Hn' as [->%list_elem_of_singleton|(l' & s & Hl')]; [done|]. exists l', s. by rewrite lookup_insert_ne.
  - intros n' (l' & r' & Hl' & Hr'). destruct (decide (n = n')) as [<-|Hne].
    + exists l, (r.1, p - 1). rewrite lookup_insert, decide_True by done. split; [done|]. cbn. lia.
    + exists l', r'. by rewrite lookup_insert_ne.
Qed.

(** Adding a range to a network. *)
Lemma open_grows m n : grows [n] m (<[n := default [] (m !! n) ++ [(at_, p - 1)]]> m).
Proof.
  constructor.
  - intros q x. rewrite (held_grow m n _ q x (at_ <= q < p)).
    + change (interval <$> [n]) with [interval n]. rewrite member_cons, member_nil. tauto.
    + rewrite in_ranges_app, in_ranges_one. unfold in_range. cbn [fst snd].
      assert (at_ <= q <= p - 1 <-> at_ <= q < p) by lia. tauto.
  - intros Hm Hin n' l' [[<- <-]|[Hne Hn']]%lookup_insert_Some; [|by apply (Hm n')].
    destruct (Hin n) as [Hnn Hnf]; [by left|]. do 2 (split; [done|]). intros r [Hr| ->%list_elem_of_singleton]%elem_of_app.
    + destruct (m !! n) as [l|] eqn:Hn; [|by apply elem_of_nil in Hr]. by apply (Hm n l Hn).
    + cbn. lia.
  - intros n' Hn'. destruct (decide (n = n')) as [<-|Hne].
    + exists (default [] (m !! n)), at_. by rewrite lookup_insert, decide_True.
    + destruct Hn' as [->%list_elem_of_singleton|(l' & s & Hl')]; [done|]. exists l', s. by rewrite lookup_insert_ne.
  - intros n' (l' & r' & Hl' & Hr'). destruct (decide (n = n')) as [<-|Hne].
    + exists (default [] (m !! n)), (at_, p - 1). rewrite lookup_insert, decide_True by done. split; [done|]. cbn. lia.
    + exists l', r'. by rewrite lookup_insert_ne.
Qed.

Lemma extend_loop available ns : forall m kept, ends_before p m -> (forall n, n ∈ ns -> extensible m n) ->
  let kept' := List.filter (holds available) ns in
  exists m', foldl (extend_network available (p - 1)) (m, kept) ns = (m', kept ++ kept') /\ grows kept' m m'.
Proof.
  induction ns as [|n ns IH]; intros m kept Hm Hex; cbn [foldl List.filter].
  { exists m. rewrite app_nil_r. split; [done|apply grows_nil]. }
  cbn [extend_network]. destruct (holds available n).
  2:{ apply IH; [done|]. intros n' Hn'. apply Hex. by right. }
  destruct (Hex n) as (l & r & Hn & Hr1 & Hr2); [by left|]. rewrite Hn, last_snoc, removelast_last.
  destruct (Hm n _ Hn) as (Hnn & Hnf & Hr). assert (Hg : grows [n] m (<[n := l ++ [(r.1, p - 1)]]> m)).
  { apply extend_grows; [done| |done]. destruct (Hr r); [apply elem_of_app; right; by left|]. lia. }
  destruct (IH (<[n := l ++ [(r.1, p - 1)]]> m) (kept ++ [n])) as (m' & -> & Hg').
  - apply Hg; [done|]. by intros n' ->%list_elem_of_singleton.
  - intros n' Hn'. apply Hg, Hex. by right.
  - exists m'. rewrite <- app_assoc. split; [done|]. by apply (grows_trans [n] _ _ _ _ Hg).
Qed.

Lemma open_loop ns : forall m c kept,
  exists m', foldl (open_network at_ (p - 1)) (m, c, kept) ns = (m', c + len ns, kept ++ ns) /\ grows ns m m'.
Proof.
  induction ns as [|n ns IH]; intros m c kept; cbn [foldl].
  { exists m. rewrite app_nil_r, len_nil, Z.add_0_r. split; [done|apply grows_nil]. }
  cbn [open_network]. destruct (IH (<[n := default [] (m !! n) ++ [(at_, p - 1)]]> m) (c + 1) (kept ++ [n])) as (m' & -> & Hg).
  exists m'. rewrite <- app_assoc, len_cons, Z.add_assoc. split; [done|]. apply (grows_trans [n] _ _ _ _ (open_grows m n) Hg).
Qed.
End Segment.

(** ** Events *)

(** A rule that the sweep follows: its first and its last port, and its addresses. *)
Definition Use : Type := Z * Z * AddressSet.

Definition push_use (events : Events) (u : Use) : Events :=
  push_event (u.1.2 + 1) (-1, u.2) (push_event u.1.1 (1, u.2) events).

Definition rule_use (protocol : NativeProtocol) (covered : list Interval) (rule : Rule) : option Use :=
  match r_ports rule with
  | None => None
  | Some (start, end_) =>
      if negb (bool_decide (r_protocol rule = Some protocol)) || is_empty (r_addresses rule)
         || is_empty (subtract (r_addresses rule) covered) then None
      else Some (start, end_, r_addresses rule)
  end.

Definition uses (rules : list Rule) (protocol : NativeProtocol) (covered : list Interval) : list Use :=
  omap (rule_use protocol covered) rules.

(** The cache of the address sets changes nothing. *)
Lemma collect_spec protocol covered rules : forall events cache,
  (forall l b, cache !! l = Some b -> b = negb (is_empty (subtract l covered))) ->
  (foldl (collect_rule protocol covered) (events, cache) rules).1 = foldl push_use events (uses rules protocol covered).
Proof.
  induction rules as [|r rules IH]; intros events cache Hc; [done|].
  cbn [foldl uses omap list_omap]. fold (uses rules protocol covered). unfold rule_use, collect_rule at 2.
  destruct (r_ports r) as [[s e]|]; [|by apply IH].
  destruct (negb (bool_decide _) || is_empty (r_addresses r)); cbn [orb]; [by apply IH|]. cbv zeta.
  set (l := r_addresses r). assert (Hb : default (negb (is_empty (subtract l covered))) (cache !! l) = negb (is_empty (subtract l covered))).
  { destruct (cache !! l) eqn:Hl; [|done]. by apply Hc. }
  rewrite Hb. assert (Hc' : forall k b, <[l := negb (is_empty (subtract l covered))]> cache !! k = Some b -> b = negb (is_empty (subtract k covered))).
  { intros k b [[<- <-]|[_ Hk]]%lookup_insert_Some; [done|]. by apply Hc. }
  destruct (is_empty (subtract l covered)); cbn [negb]; by rewrite IH.
Qed.

(** The directions of the events of an address set. *)
Fixpoint directions (A : AddressSet) (l : list (Z * AddressSet)) : Z :=
  match l with [] => 0 | (d, B) :: l => (if decide (B = A) then d else 0) + directions A l end.

Lemma directions_app A k l : directions A (k ++ l) = directions A k + directions A l.
Proof. induction k as [|[d B] k IH]; cbn; [done|]. rewrite IH. lia. Qed.

Definition at_port (events : Events) (q : Z) : list (Z * AddressSet) := default [] (events !! q).

Lemma push_event_port q event events q' :
  at_port (push_event q event events) q' = at_port events q' ++ (if decide (q = q') then [event] else []).
Proof.
  unfold at_port, push_event. rewrite lookup_insert. case_decide; [by subst|]. by rewrite app_nil_r.
Qed.

Definition of_set (A : AddressSet) (u : Use) (z : Z) : Z := if decide (u.2 = A) then z else 0.
Definition indicator (P : Prop) `{Decision P} : Z := if decide P then 1 else 0.

(** What the events of a use at a port change, and whether it is in use. *)
Definition change (A : AddressSet) (q : Z) (u : Use) : Z := of_set A u (indicator (u.1.1 = q) - indicator (u.1.2 + 1 = q)).
Definition in_use (q : Z) (u : Use) : Prop := u.1.1 <= q <= u.1.2.
#[local] Instance in_use_dec q u : Decision (in_use q u).
Proof. unfold in_use. apply _. Defined.

Definition sum_of {A} (g : A -> Z) (l : list A) : Z := foldr (fun a z => g a + z) 0 l.

Lemma sum_of_cons {A} (g : A -> Z) a l : sum_of g (a :: l) = g a + sum_of g l.
Proof. done. Qed.

Lemma push_uses_port A q us : forall events,
  directions A (at_port (foldl push_use events us) q) = directions A (at_port events q) + sum_of (change A q) us.
Proof.
  induction us as [|[[s e] B] us IH]; intros events; cbn [foldl]; [cbn; lia|].
  rewrite IH, sum_of_cons. generalize (sum_of (change A q) us). intros rest. unfold push_use. rewrite !push_event_port, !directions_app. unfold change, of_set, indicator. cbn [fst snd].
  repeat (case_decide; cbn [directions]); first [lia|congruence].
Qed.

(** The ports with events. *)
Lemma push_uses_dom q us : forall events,
  q ∈ dom (foldl push_use events us) <-> q ∈ dom events \/ exists u, u ∈ us /\ (u.1.1 = q \/ u.1.2 + 1 = q).
Proof.
  induction us as [|[[s e] B] us IH]; intros events; cbn [foldl].
  { split; [tauto|]. intros [?|(u & Hu & _)]; [done|]. by apply elem_of_nil in Hu. }
  rewrite IH. unfold push_use, push_event. rewrite !dom_insert, !elem_of_union, !elem_of_singleton. setoid_rewrite elem_of_cons. cbn [fst snd].
  naive_solver.
Qed.

(** ** The active rules *)

Definition counts (m : gmap AddressSet Z) (c : AddressSet -> Z) : Prop :=
  forall A, m !! A = if decide (c A = 0) then None else Some (c A).

Lemma apply_event_counts m c d B : counts m c -> counts (apply_event m (d, B)) (fun A => c A + (if decide (B = A) then d else 0)).
Proof.
  intros Hm A. unfold apply_event. cbv zeta.
  assert (HB : default 0 (m !! B) = c B) by (rewrite Hm; case_decide; done). rewrite HB.
  destruct (Z.eqb_spec (c B + d) 0); destruct (decide (B = A)) as [<-|Hne].
  - rewrite lookup_delete. by repeat case_decide.
  - rewrite lookup_delete_ne by done. by rewrite Z.add_0_r.
  - rewrite lookup_insert. by repeat case_decide.
  - rewrite lookup_insert_ne by done. by rewrite Z.add_0_r.
Qed.

Lemma apply_events_counts l : forall m c, counts m c -> counts (foldl apply_event m l) (fun A => c A + directions A l).
Proof.
  induction l as [|[d B] l IH]; intros m c Hm; cbn [foldl directions].
  { intros A. by rewrite Z.add_0_r. }
  intros A. rewrite (IH _ _ (apply_event_counts m c d B Hm)). by rewrite Z.add_assoc.
Qed.

(** The uses of an address set at a port. *)
Definition use_count (us : list Use) (q : Z) (A : AddressSet) : Z := sum_of (fun u => of_set A u (indicator (in_use q u))) us.

Lemma use_count_cons u us q A : use_count (u :: us) q A = (if decide (u.2 = A /\ in_use q u) then 1 else 0) + use_count us q A.
Proof.
  unfold use_count. rewrite sum_of_cons. f_equal. unfold of_set, indicator. by repeat case_decide; try tauto.
Qed.

Lemma use_count_zero us q A : use_count us q A = 0 <-> forall u, u ∈ us -> u.2 = A -> ~ in_use q u.
Proof.
  assert (Hpos : forall l, 0 <= use_count l q A).
  { induction l as [|u l IH]; [done|]. rewrite use_count_cons. case_decide; lia. }
  induction us as [|u us IH].
  { split; [|done]. intros _ u Hu. by apply elem_of_nil in Hu. }
  specialize (Hpos us). rewrite use_count_cons. setoid_rewrite elem_of_cons. case_decide as Hu.
  - split; [lia|]. intros H. exfalso. destruct Hu. apply (H u); auto.
  - rewrite Z.add_0_l, IH. naive_solver.
Qed.

Lemma counts_elem us q m A : counts m (use_count us q) -> is_Some (m !! A) <-> exists u, u ∈ us /\ u.2 = A /\ in_use q u.
Proof.
  intros Hm. rewrite Hm. destruct (decide (use_count us q A = 0)) as [H0|H0].
  - rewrite use_count_zero in H0. split; [by intros [? ?]|]. intros (u & Hu & HA & Hq). by destruct (H0 u).
  - split; [|done]. intros _. destruct (decide (Exists (fun u => u.2 = A /\ in_use q u) us)) as [He|He].
    + apply Exists_exists in He as (u & Hu & ?). by exists u.
    + exfalso. apply H0, use_count_zero. intros u Hu HA Hq. apply He, Exists_exists. by exists u.
Qed.

(** Between boundaries nothing changes: the uses at the next one. *)
Definition no_boundary (us : list Use) (a b : Z) : Prop :=
  forall u, u ∈ us -> (u.1.1 <= a \/ b <= u.1.1) /\ (u.1.2 + 1 <= a \/ b <= u.1.2 + 1).

Definition well_used (us : list Use) : Prop := forall u, u ∈ us -> 1 <= u.1.1 <= u.1.2 /\ u.1.2 <= U16_MAX.

Lemma use_count_next us a b A : well_used us -> no_boundary us a b -> a < b ->
  use_count us b A = use_count us a A + sum_of (change A b) us.
Proof.
  intros Hw Hn Hab. induction us as [|u us IH]; [done|]. rewrite !use_count_cons, sum_of_cons, IH.
  - destruct (Hw u) as [? _]; [by left|]. destruct (Hn u) as [? ?]; [by left|].
    generalize (use_count us a A), (sum_of (change A b) us). intros c d.
    unfold change, of_set, indicator, in_use. repeat case_decide; try tauto; intuition lia.
  - intros v Hv. apply Hw. by right.
  - intros v Hv. apply Hn. by right.
Qed.

(** ** The invariant of the sweep *)

Section Boundaries.
Context (f : Family) (covered : list Interval) (us : list Use).
Hypothesis Hcov : addresses_of f covered.
Hypothesis Hus : well_used us.
Hypothesis Haddr : forall u, u ∈ us -> addresses_of f u.2.

(** What the rules select at a port. *)
Definition selected (q x : Z) : Prop := exists u, u ∈ us /\ in_use q u /\ member x u.2.

Lemma selected_between a b q x : no_boundary us a b -> a <= q < b -> selected q x <-> selected a x.
Proof.
  intros Hn Hq. unfold selected, in_use. split; intros (u & Hu & Hi & Hx); exists u; (split; [done|]); (split; [|done]);
    destruct (Hn u Hu); lia.
Qed.

(** The state between boundaries: the rules before the port [a] are done. *)
Record swept_to (a : Z) (self : Sweep) : Prop := {
  sw_previous : (1 <= a /\ previous_port self = Some a) \/ (a = 0 /\ previous_port self = None /\ open_networks self = []);
  sw_active : counts (active self) (use_count us a);
  sw_ends : ends_before f a (port_ranges self);
  sw_open : forall n, n ∈ open_networks self -> open_at (a - 1) (port_ranges self) n;
  sw_held : forall q x, q < a -> held (port_ranges self) q x \/ member x covered <-> selected q x \/ member x covered;
}.

Lemma active_addresses_spec a self : swept_to a self ->
  addresses_of f (active_addresses self) /\ forall x, member x (active_addresses self) <-> selected a x.
Proof.
  intros Hs. unfold active_addresses. set (ls := fst <$> btree_entries _ _).
  assert (Hls : forall l, l ∈ ls <-> exists u, u ∈ us /\ u.2 = l /\ in_use a u).
  { intros l. rewrite <- (counts_elem us a (active self)) by apply Hs. unfold ls. rewrite btree_entries_perm, list_elem_of_fmap. split.
    - intros ([k v] & -> & Hk%elem_of_map_to_list). by exists v.
    - intros [v Hv]. exists (l, v). split; [done|]. by apply elem_of_map_to_list. }
  destruct (merge_concat_addresses f ls) as [Ha Hm].
  - intros l (u & Hu & <- & _)%Hls. by apply Haddr.
  - split; [done|]. intros x. rewrite Hm. unfold selected. setoid_rewrite Hls. naive_solver.
Qed.

Lemma held_before a m q x : ends_before f a m -> held m q x -> 1 <= q < a.
Proof.
  intros Hm (n & l & Hn & (r & Hr & Hq) & _). destruct (Hm n l Hn) as (_ & _ & He). destruct (He r Hr). unfold in_range in Hq. lia.
Qed.

Lemma ends_before_mono a b m : a <= b -> ends_before f a m -> ends_before f b m.
Proof.
  intros Hab Hm n l Hn. destruct (Hm n l Hn) as (H1 & H2 & H3). do 2 (split; [done|]). intros r Hr. destruct (H3 r Hr). lia.
Qed.

(** The networks that a segment keeps and opens hold what its rules select. *)
Lemma segment_networks a self kept : swept_to a self -> networks_in f kept ->
  (forall n, n ∈ kept -> holds (merge (active_addresses self ++ covered)) n = true) ->
  let new := uncovered_networks f (active_addresses self) (merge (covered ++ (interval <$> kept))) in
  networks_in f new
  /\ forall x, (member x (interval <$> kept) \/ member x (interval <$> new)) \/ member x covered <-> selected a x \/ member x covered.
Proof.
  intros Hs Hk Hh new. destruct (active_addresses_spec a self Hs) as [Ha Hax].
  destruct (merge_app_addresses f _ _ Ha Hcov) as [Hav Havx].
  destruct (merge_addresses f (covered ++ (interval <$> kept))) as [Hkc Hkx].
  { intros i [Hi|(n & -> & Hn)%list_elem_of_fmap]%elem_of_app; [by apply (addresses_interval f covered)|].
    destruct (Hk n Hn) as [Hnn <-]. by destruct (network_interval n Hnn) as (? & ? & _). }
  destruct (uncovered_networks_spec f _ _ Ha Hkc) as [Hn Hx]. fold new in Hn, Hx. split; [done|]. intros x.
  specialize (Hx x). rewrite Hkx, member_app, Hax in Hx.
  assert (Hkept : member x (interval <$> kept) -> selected a x \/ member x covered).
  { intros (i & (n & -> & Hin)%list_elem_of_fmap & Hi). rewrite <- Hax. apply Havx. destruct (Hk n Hin) as [Hnn Hnf].
    by apply (holds_spec f _ n Hav Hnn Hnf); [apply Hh|]. }
  destruct Hx as [Hx Hx']. split.
  - intros [[Hm|Hm]|Hm]; [auto| |auto]. destruct (Hx (or_introl Hm)) as [?|[?|?]]; auto.
  - intros [Hm|Hm]; [|auto]. destruct (Hx' (or_introl Hm)) as [?|[?|?]]; auto.
Qed.

Lemma segment_swept a p self : swept_to a self -> 1 <= a < p -> no_boundary us a p ->
  let self' := segment f covered a p self in
  ends_before f p (port_ranges self') /\ (forall n, n ∈ open_networks self' -> open_at (p - 1) (port_ranges self') n)
  /\ (forall q x, q < p -> held (port_ranges self') q x \/ member x covered <-> selected q x \/ member x covered)
  /\ active self' = active self.
Proof.
  intros Hs Hap Hn. unfold segment. cbv zeta. set (available := merge (active_addresses self ++ covered)).
  assert (Hep : ends_before f p (port_ranges self)) by (apply (ends_before_mono a); [lia|apply Hs]).
  destruct (extend_loop f a p Hap available (open_networks self) (port_ranges self) [] Hep) as (m & -> & Hg).
  { intros n Hin. destruct (sw_open a self Hs n Hin) as (l & s & Hl). exists l, (s, a - 1).
    destruct (sw_ends a self Hs n _ Hl) as (_ & _ & Hr). destruct (Hr (s, a - 1)) as [H1 _]; [apply elem_of_app; right; by left|].
    cbn [fst snd] in *. split; [done|]. lia. }
  cbn [fst snd app]. set (kept := List.filter (holds available) (open_networks self)) in *.
  assert (Hkin : forall n, n ∈ kept -> n ∈ open_networks self /\ holds available n = true).
  { intros n Hin. apply list_elem_of_In, filter_In in Hin as [Hin ?]. by apply list_elem_of_In in Hin. }
  assert (Hkn : networks_in f kept).
  { intros n [Hin _]%Hkin. destruct (sw_open a self Hs n Hin) as (l & s & Hl). by destruct (sw_ends a self Hs n _ Hl) as (? & ? & _). }
  destruct (segment_networks a self kept Hs Hkn) as [Hnew Hx]; [intros n Hin; by apply Hkin|].
  set (new := uncovered_networks _ _ _) in *.
  destruct (open_loop f a p Hap new m (rule_count self) kept) as (m' & -> & Hg'). cbn [fst snd].
  pose proof (grows_trans f a p Hap _ _ _ _ _ Hg Hg') as [G1 G2 G3 _].
  split; [|split; [|split]]; cbn [port_ranges open_networks active update].
  - apply G2; [done|]. intros n [Hin|Hin]%elem_of_app; [by apply Hkn|by apply Hnew].
  - intros n Hin. apply G3. by left.
  - intros q x Hq. cbn. rewrite G1, fmap_app, member_app. destruct (Z.lt_ge_cases q a) as [Hlt|Hge].
    + rewrite <- (sw_held a self Hs q x Hlt). assert (~ (a <= q < p)) by lia. tauto.
    + rewrite (selected_between a p q x Hn) by lia. rewrite <- (Hx x).
      assert (~ held (port_ranges self) q x) by (intros ?%(held_before a _ _ _ (sw_ends a self Hs)); lia).
      assert (a <= q < p) by lia. tauto.
  - done.
Qed.

Lemma boundary_swept a p self l : swept_to a self -> a < p -> no_boundary us a p ->
  (forall A, directions A l = sum_of (change A p) us) -> swept_to p (boundary f covered self (p, l)).
Proof.
  intros Hs Hap Hn Hl. pose proof (sw_previous a self Hs) as Hprev.
  assert (Hcounts : forall m, m = active self -> counts (foldl apply_event m l) (use_count us p)).
  { intros m -> A. rewrite (apply_events_counts l _ _ (sw_active a self Hs)). rewrite (use_count_next us a p A) by done. by rewrite Hl. }
  unfold boundary. cbv zeta. cbn [fst snd]. destruct (decide (active self = ∅)) as [He|He].
  - rewrite (bool_decide_eq_true_2 _ He), andb_true_r. cbn [negb]. set (self' := if bool_decide _ then _ else _).
    assert (Hself : active self' = active self /\ port_ranges self' = port_ranges self /\ open_networks self' = []
                    /\ previous_port self' = previous_port self).
    { unfold self'. destruct Hprev as [[_ Hp]|(_ & Hp & Ho)].
      - by rewrite bool_decide_eq_true_2 by (rewrite Hp; by eexists).
      - by rewrite bool_decide_eq_false_2 by (rewrite Hp; by intros [? ?]). }
    clearbody self'. destruct Hself as (Ha & Hr & Ho & Hp'). rewrite Hp'.
    assert (Hsame : forall o, match o with Some z => if (z <? p) && false then segment f covered z p self' else self' | None => self' end = self')
      by (intros [z|]; [by rewrite andb_false_r|done]).
    rewrite Hsame.
    assert (Hnone : forall x, ~ selected a x).
    { intros x (u & Hu & Hi & _). assert (is_Some (active self !! u.2)) as [v Hv] by (apply (counts_elem us a); [apply Hs|by exists u]).
      by rewrite He, lookup_empty in Hv. }
    constructor; cbn [previous_port active port_ranges open_networks update].
    + left. split; [lia|done].
    + by apply Hcounts.
    + cbn. rewrite Hr. apply (ends_before_mono a); [lia|apply Hs].
    + cbn. rewrite Ho. intros n Hin. by apply elem_of_nil in Hin.
    + cbn. rewrite Hr. intros q x Hq. destruct (Z.lt_ge_cases q a) as [Hlt|Hge]; [by apply (sw_held a self Hs)|].
      rewrite (selected_between a p q x Hn) by lia. specialize (Hnone x).
      assert (~ held (port_ranges self) q x) by (intros ?%(held_before a _ _ _ (sw_ends a self Hs)); lia). tauto.
  - rewrite (bool_decide_eq_false_2 _ He), andb_false_r. cbn [negb].
    assert (1 <= a /\ previous_port self = Some a) as [Ha ->].
    { destruct Hprev as [?|(-> & _ & _)]; [done|]. exfalso. apply He, map_eq. intros A. rewrite lookup_empty, (sw_active 0 self Hs A).
      rewrite decide_True; [done|]. apply use_count_zero. intros u Hu _. unfold in_use. destruct (Hus u Hu). lia. }
    rewrite andb_true_r. destruct (Z.ltb_spec a p); [|lia].
    destruct (segment_swept a p self Hs ltac:(lia) Hn) as (H1 & H2 & H3 & H4).
    constructor; cbn [previous_port active port_ranges open_networks update]; [left; split; [lia|done]|by apply Hcounts|done..].
Qed.

(** The sweep over all boundaries, in their order. *)
Lemma boundaries_swept entries : forall a self, swept_to a self -> StronglySorted (fun d e => d.1 < e.1) entries ->
  (forall e, e ∈ entries -> a < e.1 /\ forall A, directions A e.2 = sum_of (change A e.1) us) ->
  (forall u, u ∈ us -> (u.1.1 <= a \/ u.1.1 ∈ entries.*1) /\ (u.1.2 + 1 <= a \/ u.1.2 + 1 ∈ entries.*1)) ->
  exists b, swept_to b (foldl (boundary f covered) self entries) /\ (forall u, u ∈ us -> u.1.2 + 1 <= b)
    /\ (b = a \/ b ∈ entries.*1).
Proof.
  induction entries as [|[p l] entries IH]; intros a self Hs Hsort He Hb; cbn [foldl].
  { exists a. split; [done|]. split; [|by left]. intros u Hu. destruct (Hb u Hu) as [_ [?|Hin]]; [done|]. by apply elem_of_nil in Hin. }
  apply StronglySorted_cons in Hsort as [Hfirst Hsort]. rewrite Forall_forall in Hfirst. cbn [fst] in Hfirst.
  destruct (He (p, l)) as [Hap Hl]; [by left|]. cbn [fst snd] in Hap, Hl.
  assert (Hlate : forall q, q ∈ entries.*1 -> p < q).
  { intros q (e & -> & Hin)%list_elem_of_fmap. by apply Hfirst. }
  assert (Hn : no_boundary us a p).
  { intros u Hu. destruct (Hb u Hu) as [H1 H2]. rewrite fmap_cons, !elem_of_cons in H1, H2. cbn [fst] in H1, H2.
    pose proof (Hlate u.1.1). pose proof (Hlate (u.1.2 + 1)). intuition lia. }
  destruct (IH p (boundary f covered self (p, l))) as (b & Hb1 & Hb2 & Hb3); [by apply (boundary_swept a)|done|..].
  - intros e Hin. split; [by apply Hfirst|]. apply He. by right.
  - intros u Hu. destruct (Hb u Hu) as [H1 H2]. rewrite fmap_cons, !elem_of_cons in H1, H2. cbn [fst] in H1, H2.
    split; [destruct H1 as [?|[?|?]]|destruct H2 as [?|[?|?]]]; auto; left; lia.
  - exists b. split; [done|]. split; [done|]. right. rewrite fmap_cons, elem_of_cons. cbn [fst]. tauto.
Qed.

Lemma empty_swept : swept_to 0 empty_sweep.
Proof.
  constructor; cbn.
  - right. done.
  - intros A. rewrite lookup_empty, decide_True; [done|]. apply use_count_zero. intros u Hu _. unfold in_use. destruct (Hus u Hu). lia.
  - intros n l Hn. by rewrite lookup_empty in Hn.
  - intros n Hn. by apply elem_of_nil in Hn.
  - intros q x Hq. assert (~ held ∅ q x) by (intros (n & l & Hn & _); by rewrite lookup_empty in Hn).
    assert (~ selected q x); [|tauto]. intros (u & Hu & Hi & _). unfold in_use in Hi. destruct (Hus u Hu). lia.
Qed.
End Boundaries.

(** ** The order of entries *)

Lemma lex_leb_total k : forall l, lex_leb k l = true \/ lex_leb l k = true.
Proof.
  induction k as [|x k IH]; intros [|y l]; cbn; auto. destruct (Z.ltb_spec x y), (Z.ltb_spec y x), (Z.eqb_spec x y), (Z.eqb_spec y x); cbn; auto; lia.
Qed.

Lemma lex_leb_trans k : forall l m, lex_leb k l = true -> lex_leb l m = true -> lex_leb k m = true.
Proof.
  induction k as [|x k IH]; intros [|y l] [|z m]; cbn; try done. rewrite !orb_true_iff, !andb_true_iff, !Z.ltb_lt, !Z.eqb_eq.
  intros [?|[? H1]] [?|[? H2]]; [left; lia..|right]. split; [lia|by apply (IH l)].
Qed.

#[export] Instance key_le_total {A} (key : A -> list Z) : Total (key_le key).
Proof. intros a b. unfold key_le. rewrite !Is_true_true. apply lex_leb_total. Qed.

#[export] Instance key_le_trans {A} (key : A -> list Z) : Transitive (key_le key).
Proof. intros a b c. unfold key_le. rewrite !Is_true_true. apply lex_leb_trans. Qed.

Lemma sorted_nodup_strict {V} (l : list (Z * V)) : StronglySorted (key_le (fun e => [e.1])) l -> NoDup l.*1 ->
  StronglySorted (fun d e => d.1 < e.1) l.
Proof.
  induction l as [|e l IH]; intros Hs Hn; [constructor|]. apply StronglySorted_cons in Hs as [Hf Hs]. rewrite fmap_cons in Hn.
  apply NoDup_cons in Hn as [Hnot Hn]. constructor; [by apply IH|]. rewrite Forall_forall in Hf |- *. intros d Hd. specialize (Hf d Hd).
  unfold key_le in Hf. apply Is_true_true in Hf. cbn in Hf. apply orb_true_iff in Hf as [?%Z.ltb_lt|[He%Z.eqb_eq _]%andb_true_iff]; [done|].
  exfalso. apply Hnot. rewrite He. by apply list_elem_of_fmap_2.
Qed.

Lemma port_entries_sorted {V} (m : gmap Z V) : StronglySorted (fun d e => d.1 < e.1) (btree_entries (fun port => [port]) m).
Proof.
  apply sorted_nodup_strict; [apply StronglySorted_merge_sort; apply _|].
  rewrite btree_entries_perm. apply NoDup_fst_map_to_list.
Qed.

(** ** Traffic *)

(** A packet of the guest: its destination, its protocol if rules name it, and its port. *)
Record Traffic := mkTraffic {
  t_family : Family;
  t_address : Z;
  t_protocol : option NativeProtocol;
  t_port : Z;
}.

Definition ports_select (ports : option PortRange) (q : Z) : Prop := match ports with None => True | Some r => in_range q r end.

Definition selects (r : Rule) (t : Traffic) : Prop :=
  r_family r = t_family t /\ member (t_address t) (r_addresses r)
  /\ (r_protocol r = None \/ r_protocol r = t_protocol t) /\ ports_select (r_ports r) (t_port t).

Definition native_selects (r : NativeRule) (t : Traffic) : Prop :=
  Addresses.family r.1.1 = t_family t /\ in_interval (t_address t) (interval r.1.1)
  /\ (r.1.2 = None \/ r.1.2 = t_protocol t) /\ ports_select r.2 (t_port t).

Definition selected_by (rules : list Rule) (t : Traffic) : Prop := exists r, r ∈ rules /\ selects r t.
Definition native_selected (rules : list NativeRule) (t : Traffic) : Prop := exists r, r ∈ rules /\ native_selects r t.

(** Rules as [combine] builds them: only TCP and UDP rules have ports. *)
Record is_rule (r : Rule) : Prop := {
  ru_addresses : addresses_of (r_family r) (r_addresses r);
  ru_ports : forall s e, r_ports r = Some (s, e) -> (r_protocol r = Some Tcp \/ r_protocol r = Some Udp) /\ 1 <= s <= e /\ e <= U16_MAX;
}.

Lemma and_or_factor (P A B : Prop) : (P /\ A) \/ (P /\ B) <-> P /\ (A \/ B).
Proof. tauto. Qed.

Lemma holds_iff (P : Prop) : P -> P <-> True.
Proof. tauto. Qed.

Lemma fails_iff (P : Prop) : ~ P -> P <-> False.
Proof. tauto. Qed.

Lemma and_true_l (P : Prop) : True /\ P <-> P.
Proof. tauto. Qed.

Lemma and_false_l (P : Prop) : False /\ P <-> False.
Proof. tauto. Qed.

Lemma or_false_l (P : Prop) : False \/ P <-> P.
Proof. tauto. Qed.

Lemma or_false_r (P : Prop) : P \/ False <-> P.
Proof. tauto. Qed.

Lemma or_true_l (P : Prop) : True \/ P <-> True.
Proof. tauto. Qed.

(** Rules that are covered anyway do not matter. *)
Lemma protocol_logic (A W N : Prop) : ~ A -> (N \/ A <-> W \/ A) -> A \/ N <-> A \/ W.
Proof. intros HA HN. by rewrite (or_comm A N), (or_comm A W). Qed.

Lemma ports_logic (A W N P Q : Prop) : ~ A -> (N \/ A <-> W \/ A) -> (Q \/ A \/ W <-> P \/ A \/ W) -> A \/ N \/ Q <-> A \/ W \/ P.
Proof.
  intros HA [HN HN'] [HQ HQ']. split.
  - intros [?|[n|q]]; [by left|destruct (HN (or_introl n)); auto|destruct (HQ (or_introl q)) as [?|[?|?]]; auto].
  - intros [?|[w|p]]; [by left|destruct (HN' (or_introl w)); auto|].
    destruct (HQ' (or_introl p)) as [?|[?|w]]; [auto..|]. destruct (HN' (or_introl w)); auto.
Qed.

(** Evaluates the equations of protocols. *)
Ltac eval_protocols :=
  repeat match goal with
  | |- context [@eq ?T ?p ?q] =>
      lazymatch T with NativeProtocol => idtac | option NativeProtocol => idtac end;
      first [rewrite (holds_iff (p = q)) by reflexivity|rewrite (fails_iff (p = q)) by discriminate]
  end;
  repeat first [rewrite and_true_l|rewrite and_false_l|rewrite or_false_l|rewrite or_false_r|rewrite or_true_l].

Lemma native_selected_app k l t : native_selected (k ++ l) t <-> native_selected k t \/ native_selected l t.
Proof. unfold native_selected. setoid_rewrite elem_of_app. naive_solver. Qed.

Section Family.
Context (f : Family) (rules : list Rule).
Hypothesis Hrules : forall r, r ∈ rules -> is_rule r /\ r_family r = f.

Lemma rules_addresses r : r ∈ rules -> addresses_of f (r_addresses r).
Proof. intros Hr. destruct (Hrules r Hr) as [[H _] <-]. done. Qed.

Lemma filter_union_spec test : addresses_of f (union (List.filter test rules))
  /\ forall x, member x (union (List.filter test rules)) <-> exists r, r ∈ rules /\ test r = true /\ member x (r_addresses r).
Proof.
  destruct (union_spec f (List.filter test rules)) as [Ha Hm].
  - intros r Hr. apply list_elem_of_In, filter_In in Hr as [Hr _]. apply rules_addresses. by apply list_elem_of_In.
  - split; [done|]. intros x. rewrite Hm. setoid_rewrite list_elem_of_In. setoid_rewrite filter_In. naive_solver.
Qed.

Lemma covered_for_spec p : addresses_of f (covered_for rules p)
  /\ forall x, member x (covered_for rules p) <-> member x (address_only rules) \/ member x (protocol_wide rules p).
Proof.
  destruct (filter_union_spec is_address_only) as [Ha _]. destruct (filter_union_spec (is_protocol_wide p)) as [Hw _].
  fold (address_only rules) in Ha. fold (protocol_wide rules p) in Hw. unfold covered_for, protocol_covered.
  destruct (protocol_wide rules p) as [|i l] eqn:He; cbn [is_empty].
  - split; [done|]. intros x. rewrite member_nil. change (default (address_only rules) None) with (address_only rules). tauto.
  - by apply merge_app_addresses.
Qed.

(** What the rules with ports of a protocol select. *)
Definition port_selected (p : NativeProtocol) (q x : Z) : Prop :=
  exists r s e, r ∈ rules /\ r_protocol r = Some p /\ r_ports r = Some (s, e) /\ s <= q <= e /\ member x (r_addresses r).

Lemma uses_elem p covered u : u ∈ uses rules p covered <->
  exists r, r ∈ rules /\ r_protocol r = Some p /\ r_ports r = Some u.1 /\ u.2 = r_addresses r /\ r_addresses r <> []
            /\ subtract (r_addresses r) covered <> [].
Proof.
  unfold uses. rewrite list_elem_of_omap. unfold rule_use. destruct u as [[s e] A]. cbn [fst snd]. split.
  - intros (r & Hr & Hu). exists r. destruct (r_ports r) as [[s' e']|]; [|done].
    destruct (bool_decide (r_protocol r = Some p)) eqn:Hp; [|done]. apply bool_decide_eq_true in Hp.
    destruct (r_addresses r); [done|]. cbn [is_empty negb orb] in Hu. destruct (subtract _ covered); [done|]. cbn in Hu. simplify_eq. done.
  - intros (r & Hr & Hp & Hports & -> & Hne & Hsub). exists r. split; [done|]. rewrite Hports, (bool_decide_eq_true_2 _ Hp).
    destruct (r_addresses r); [done|]. cbn [is_empty negb orb]. by destruct (subtract _ covered).
Qed.

Lemma uses_used p covered : well_used (uses rules p covered) /\ forall u, u ∈ uses rules p covered -> addresses_of f u.2.
Proof.
  split; intros u (r & Hr & Hp & Hports & Hu & _)%uses_elem.
  - destruct (Hrules r Hr) as [[_ Hb] _]. destruct u as [[s e] A]. cbn [fst snd] in *. destruct (Hb s e Hports). lia.
  - destruct u as [r0 A]. cbn [snd] in *. subst A. by apply rules_addresses.
Qed.

Lemma uses_selected p covered q x : addresses_of f covered ->
  selected (uses rules p covered) q x \/ member x covered <-> port_selected p q x \/ member x covered.
Proof.
  intros [Hc _]. split; (intros [H|?]; [|by right]).
  - left. destruct H as ([[s e] A] & (r & Hr & Hp & Hports & HA & _)%uses_elem & Hq & Hx). cbn [fst snd] in *. subst A.
    exists r, s, e. unfold in_use in Hq. cbn in Hq. done.
  - destruct H as (r & s & e & Hr & Hp & Hports & Hq & Hx). destruct (rules_addresses r Hr) as [Hd _].
    destruct (decide (subtract (r_addresses r) covered = [])) as [Hs|Hs].
    + right. by apply (subtract_empty _ _ Hd Hc).
    + left. exists (s, e, r_addresses r). split; [|done]. apply uses_elem. exists r. cbn [fst snd]. do 4 (split; [done|]). split; [|done].
      intros Hnil. rewrite Hnil in Hx. by apply member_nil in Hx.
Qed.

Lemma swept_spec p covered : addresses_of f covered ->
  ends_before f (U16_MAX + 1) (port_ranges (swept rules p f covered))
  /\ forall q x, held (port_ranges (swept rules p f covered)) q x \/ member x covered <-> port_selected p q x \/ member x covered.
Proof.
  intros Hc. set (us := uses rules p covered). destruct (uses_used p covered) as [Hw Ha]. fold us in Hw, Ha.
  assert (He : collect_events rules p covered = foldl push_use ∅ us) by (apply collect_spec; by intros ? ? Hl%lookup_empty_Some).
  unfold swept. rewrite He. set (events := foldl push_use ∅ us). set (entries := btree_entries (fun port => [port]) events).
  assert (Hin : forall e, e ∈ entries <-> events !! e.1 = Some e.2).
  { intros [q l]. unfold entries. by rewrite btree_entries_perm, elem_of_map_to_list. }
  assert (Hport : forall q, q ∈ entries.*1 <-> exists u, u ∈ us /\ (u.1.1 = q \/ u.1.2 + 1 = q)).
  { intros q. pose proof (push_uses_dom q us ∅) as Hd. fold events in Hd. rewrite elem_of_dom, dom_empty in Hd.
    rewrite list_elem_of_fmap. setoid_rewrite Hin. split.
    - intros ([q' l] & -> & Hl). cbn [fst snd] in *. destruct (proj1 Hd) as [Hn|?]; [by eexists|set_solver|done].
    - intros Hu. destruct (proj2 Hd) as [l Hl]; [by right|]. by exists (q, l). }
  destruct (boundaries_swept f covered us Hc Hw Ha entries 0 empty_sweep) as (b & Hs & Hend & Hb).
  - by apply empty_swept.
  - apply port_entries_sorted.
  - intros e Hin'. assert (Hq : e.1 ∈ entries.*1) by (by apply list_elem_of_fmap_2). split.
    + apply Hport in Hq as (u & Hu & Hq). destruct (Hw u Hu). lia.
    + intros A. apply Hin in Hin'. pose proof (push_uses_port A e.1 us ∅) as Hd. fold events in Hd. unfold at_port in Hd.
      rewrite Hin', lookup_empty in Hd. exact Hd.
  - intros u Hu. split; right; apply Hport; exists u; auto.
  - assert (Hb' : b <= U16_MAX + 1).
    { destruct Hb as [-> |(u & Hu & Hq)%Hport]; [unfold U16_MAX; lia|]. destruct (Hw u Hu). lia. }
    split; [by apply (ends_before_mono f b); [|apply Hs]|]. intros q x. rewrite <- (uses_selected p covered q x Hc). fold us.
    destruct (Z.lt_ge_cases q b) as [Hq|Hq]; [by apply (sw_held _ _ _ b _ Hs)|].
    assert (~ selected us q x) by (intros (u & Hu & Hi & _); specialize (Hend u Hu); unfold in_use in Hi; lia).
    assert (~ held (port_ranges (foldl (boundary f covered) empty_sweep entries)) q x); [|tauto].
    intros Hh%(held_before f b); [lia|apply Hs].
Qed.

(** Native rules of the family whose networks and ports OpenVMM takes. *)
Definition is_native (r : NativeRule) : Prop :=
  is_network r.1.1 /\ Addresses.family r.1.1 = f
  /\ match r.2 with None => True | Some (s, e) => (r.1.2 = Some Tcp \/ r.1.2 = Some Udp) /\ 1 <= s <= e /\ e <= U16_MAX end.

Lemma network_rules_spec ns p t : networks_in f ns ->
  let natives : list NativeRule := (fun n => (n, p, None)) <$> ns in
  Forall is_native natives
  /\ (native_selected natives t <-> t_family t = f /\ (p = None \/ p = t_protocol t) /\ member (t_address t) (interval <$> ns)).
Proof.
  intros Hn natives. split.
  - apply Forall_forall. intros r (n & -> & Hin)%list_elem_of_fmap. by destruct (Hn n Hin).
  - split.
    + intros (r & (n & -> & Hin)%list_elem_of_fmap & Hf & Hx & Hp & _). cbn [fst snd] in *. destruct (Hn n Hin) as [_ <-].
      do 2 (split; [done|]). exists (interval n). split; [|done]. by apply list_elem_of_fmap_2.
    + intros (Hf & Hp & i & (n & -> & Hin)%list_elem_of_fmap & Hx). exists (n, p, None).
      split; [apply (list_elem_of_fmap_2 (fun n => (n, p, None))); done|]. destruct (Hn n Hin) as [_ Hnf].
      unfold native_selects. cbn [fst snd]. rewrite Hnf, Hf. done.
Qed.

Lemma address_rules_spec t : Forall is_native (address_rules rules f)
  /\ (native_selected (address_rules rules f) t <-> t_family t = f /\ member (t_address t) (address_only rules)).
Proof.
  destruct (filter_union_spec is_address_only) as [Ha _]. destruct (networks_of_spec f _ Ha) as [Hn Hx].
  destruct (network_rules_spec _ None t Hn) as [H1 H2]. unfold address_rules, address_only. split; [done|].
  rewrite H2, Hx. naive_solver.
Qed.

Lemma protocol_rules_spec p t : Forall is_native (protocol_rules rules f p)
  /\ exists nets, (native_selected (protocol_rules rules f p) t <-> t_family t = f /\ Some p = t_protocol t /\ member (t_address t) nets)
     /\ forall x, member x nets \/ member x (address_only rules) <-> member x (protocol_wide rules p) \/ member x (address_only rules).
Proof.
  destruct (filter_union_spec is_address_only) as [Ha _]. destruct (filter_union_spec (is_protocol_wide p)) as [Hw _].
  destruct (uncovered_networks_spec f _ _ Hw Ha) as [Hn Hx]. unfold protocol_rules.
  fold (protocol_wide rules p) (address_only rules) in *. destruct (protocol_wide rules p) as [|i l] eqn:He; cbn [is_empty].
  - split; [constructor|]. exists []. split; [|done]. setoid_rewrite member_nil. split; [|tauto].
    intros (r & Hr & _). by apply elem_of_nil in Hr.
  - destruct (network_rules_spec _ (Some p) t Hn) as [H1 H2]. split; [done|]. eexists. split; [|exact Hx]. rewrite H2. naive_solver.
Qed.

Lemma ranges_to_rules_elem p m r : r ∈ ranges_to_rules p m <->
  exists n l s e, m !! n = Some l /\ (s, e) ∈ l /\ r = (n, Some p, Some (s mod 2 ^ 16, e mod 2 ^ 16)).
Proof.
  unfold ranges_to_rules. rewrite list_elem_of_In, in_concat. setoid_rewrite <- list_elem_of_In. setoid_rewrite list_elem_of_fmap. split.
  - intros (k & ([n l] & -> & Hn) & Hr). apply list_elem_of_fmap in Hr as ([s e] & -> & Hin).
    rewrite btree_entries_perm in Hn. apply elem_of_map_to_list in Hn. by exists n, l, s, e.
  - intros (n & l & s & e & Hn & Hin & ->). eexists. split.
    + exists (n, l). split; [done|]. rewrite btree_entries_perm. by apply elem_of_map_to_list.
    + apply list_elem_of_fmap. by exists (s, e).
Qed.

Lemma port_rules_spec p t : p = Tcp \/ p = Udp ->
  Forall is_native (port_rules rules p f (covered_for rules p))
  /\ exists q, (native_selected (port_rules rules p f (covered_for rules p)) t <-> t_family t = f /\ Some p = t_protocol t /\ q)
     /\ (q \/ member (t_address t) (covered_for rules p)
         <-> port_selected p (t_port t) (t_address t) \/ member (t_address t) (covered_for rules p)).
Proof.
  intros Hp. destruct (covered_for_spec p) as [Hc _]. destruct (swept_spec p _ Hc) as [He Hh]. unfold port_rules.
  set (m := port_ranges _) in *.
  assert (Hmod : forall n l s e, m !! n = Some l -> (s, e) ∈ l ->
    1 <= s <= e /\ e <= U16_MAX /\ s mod 2 ^ 16 = s /\ e mod 2 ^ 16 = e /\ is_network n /\ Addresses.family n = f).
  { intros n l s e Hn Hin. destruct (He n l Hn) as (Hnn & Hnf & Hr). destruct (Hr _ Hin) as [H1 H2]. cbn [fst snd] in *.
    unfold U16_MAX in *. rewrite !Z.mod_small by lia. split_and!; (done || lia). }
  split.
  - apply Forall_forall. intros r (n & l & s & e & Hn & Hin & ->)%ranges_to_rules_elem.
    destruct (Hmod n l s e Hn Hin) as (H1 & H2 & -> & -> & Hnn & Hnf). unfold is_native. cbn [fst snd]. split_and!; try done || lia.
    by destruct Hp as [-> | ->]; [left|right].
  - exists (held m (t_port t) (t_address t)). split; [|apply Hh]. split.
    + intros (r & (n & l & s & e & Hn & Hin & ->)%ranges_to_rules_elem & Hf & Hx & Hpr & Hq). cbn [fst snd ports_select] in *.
      destruct (Hmod n l s e Hn Hin) as (_ & _ & Hs & Hee & _ & Hnf). rewrite Hs, Hee in Hq. rewrite <- Hf. split; [done|].
      split; [by destruct Hpr|]. exists n, l. split; [done|]. split; [|done]. by exists (s, e).
    + intros (Hf & Hpr & n & l & Hn & ([s e] & Hin & Hq) & Hx). destruct (Hmod n l s e Hn Hin) as (_ & _ & Hs & Hee & _ & Hnf).
      exists (n, Some p, Some (s, e)). split; [apply ranges_to_rules_elem; exists n, l, s, e; by rewrite Hs, Hee|].
      unfold native_selects. cbn [fst snd ports_select]. rewrite Hnf, Hf. auto.
Qed.

(** What the rules of the family select, by the protocol of the rules. *)
Lemma selected_by_protocol t : selected_by rules t <-> t_family t = f /\
  (member (t_address t) (address_only rules)
   \/ exists p, Some p = t_protocol t
      /\ (member (t_address t) (protocol_wide rules p) \/ (p = Tcp \/ p = Udp) /\ port_selected p (t_port t) (t_address t))).
Proof.
  unfold address_only, protocol_wide, selected_by. rewrite (proj2 (filter_union_spec is_address_only)).
  setoid_rewrite (fun p => proj2 (filter_union_spec (is_protocol_wide p))).
  unfold is_address_only, is_protocol_wide. setoid_rewrite andb_true_iff. setoid_rewrite bool_decide_eq_true. split.
  - intros (r & Hr & Hf & Hx & Hp & Hq). destruct (Hrules r Hr) as [Hrule Hrf]. rewrite <- Hf, Hrf. split; [done|].
    destruct (r_protocol r) as [p|] eqn:Hrp; [|left; by exists r]. right. exists p. destruct Hp as [|Hp]; [done|]. split; [done|].
    destruct (r_ports r) as [[s e]|] eqn:Hports; [|left; by exists r]. right. destruct (ru_ports r Hrule s e Hports) as [Htu _].
    split; [destruct Htu; simplify_eq; tauto|]. by exists r, s, e.
  - intros [Hf [(r & Hr & Hp & Hx)|(p & Hp & [(r & Hr & [Hrp Hports] & Hx)|[_ (r & s & e & Hr & Hrp & Hports & Hq & Hx)]])]];
      exists r; (split; [done|]); destruct (Hrules r Hr) as [Hrule Hrf]; unfold selects; rewrite Hf, Hrf.
    + split_and!; auto. destruct (r_ports r) as [[s e]|] eqn:Hports; [|done]. destruct (ru_ports r Hrule s e Hports) as [[?|?] _]; congruence.
    + split_and!; auto; [right; congruence|by rewrite Hports].
    + split_and!; auto; [right; congruence|by rewrite Hports].
Qed.

(** The lowering of a family selects the traffic of its rules. *)
Lemma family_lowering_spec t : Forall is_native (family_lowering rules f)
  /\ (native_selected (family_lowering rules f) t <-> selected_by rules t).
Proof.
  unfold family_lowering. rewrite !fmap_cons, !fmap_nil. cbn [concat]. rewrite !app_nil_r.
  destruct (address_rules_spec t) as [A1 A2].
  destruct (protocol_rules_spec Icmp t) as (I1 & ni & I2 & I3), (protocol_rules_spec Tcp t) as (T1 & nt & T2 & T3),
    (protocol_rules_spec Udp t) as (U1 & nu & U2 & U3).
  destruct (port_rules_spec Tcp t) as (V1 & qt & V2 & V3); [by left|]. destruct (port_rules_spec Udp t) as (W1 & qu & W2 & W3); [by right|].
  split; [by rewrite !Forall_app|]. rewrite !native_selected_app, A2, I2, T2, U2, V2, W2, selected_by_protocol.
  specialize (I3 (t_address t)). specialize (T3 (t_address t)). specialize (U3 (t_address t)).
  rewrite !(proj2 (covered_for_spec Tcp)) in V3. rewrite !(proj2 (covered_for_spec Udp)) in W3.
  rewrite !and_or_factor. apply and_iff_compat_l.
  destruct (decide (member (t_address t) (address_only rules))) as [Ha|Ha]; [by split; left|].
  assert (Hp : forall p (P : NativeProtocol -> Prop), Some p = t_protocol t -> (exists p, Some p = t_protocol t /\ P p) <-> P p).
  { intros p P Hp. split; [|by exists p]. intros (p' & Hp' & H'). congruence. }
  clear - I3 T3 U3 V3 W3 Ha Hp.
  destruct (t_protocol t) as [[]|]; [rewrite (Hp Icmp) by done|rewrite (Hp Tcp) by done|rewrite (Hp Udp) by done|]; clear Hp.
  4: by split; [naive_solver|intros [?|(? & ? & _)]].
  - eval_protocols. by apply protocol_logic.
  - eval_protocols. by apply ports_logic.
  - eval_protocols. by apply ports_logic.
Qed.
End Family.

(** ** The rules of an action *)

Lemma lowering_of_spec rules f t : (forall r, r ∈ rules -> is_rule r) ->
  Forall (is_native f) (lowering_of rules f) /\ (native_selected (lowering_of rules f) t <-> selected_by rules t /\ t_family t = f).
Proof.
  intros Hr. unfold lowering_of. cbv zeta. set (own := List.filter (of_family f) rules).
  assert (Hown : forall r, r ∈ own <-> r ∈ rules /\ r_family r = f).
  { intros r. unfold own. rewrite !list_elem_of_In, filter_In. unfold of_family. by rewrite bool_decide_eq_true. }
  assert (Hsel : selected_by own t <-> selected_by rules t /\ t_family t = f).
  { unfold selected_by. setoid_rewrite Hown. unfold selects. naive_solver. }
  rewrite <- Hsel. assert (Hvalid : forall r, r ∈ own -> is_rule r /\ r_family r = f) by (intros r [? ?]%Hown; auto).
  destruct (family_lowering_spec f own Hvalid t) as [H1 H2]. destruct own as [|r own]; cbn [is_empty]; [|done].
  split; [constructor|]. split; intros (r & Hin & _); by apply elem_of_nil in Hin.
Qed.

Lemma lower_all_spec rules t : (forall r, r ∈ rules -> is_rule r) ->
  Forall (fun n => exists f, is_native f n) (lower_all rules) /\ (native_selected (lower_all rules) t <-> selected_by rules t).
Proof.
  intros Hr. unfold lower_all, ALL. rewrite !fmap_cons, fmap_nil. cbn [concat]. rewrite app_nil_r.
  destruct (lowering_of_spec rules V4 t Hr) as [A1 A2], (lowering_of_spec rules V6 t Hr) as [B1 B2]. split.
  - apply Forall_app. split; [apply (Forall_impl _ _ _ A1)|apply (Forall_impl _ _ _ B1)]; intros n Hn; by eexists.
  - rewrite native_selected_app, A2, B2. split; [by intros [[? _]|[? _]]|].
    intros H. destruct (t_family t); [by left|by right].
Qed.

Lemma native_selected_perm k l t : k ≡ₚ l -> native_selected k t <-> native_selected l t.
Proof. intros Hp. unfold native_selected. by setoid_rewrite Hp. Qed.

(** C19: Lowering the rules of an action gives native rules that select exactly the traffic that the
    rules select, for every address of both families, every protocol, named or not, and every port.
    They are sorted, and each is one that OpenVMM takes: a network without host bits, and ports from
    1 through 65535 of TCP or UDP only. The limit only decides whether they are returned: the
    lowering fails exactly when they are more than the limit, and no subtraction from it
    underflows. *)
Theorem lower_exact rules : (forall r, r ∈ rules -> is_rule r) ->
  exists natives,
    (forall t, native_selected natives t <-> selected_by rules t)
    /\ Forall (fun n => exists f, is_native f n) natives /\ StronglySorted (key_le native_key) natives
    /\ forall limit, 0 <= limit -> lower_within rules limit = if len natives <=? limit then Ok natives else Err TooManyRules.
Proof.
  intros Hr. exists (merge_sort (key_le native_key) (lower_all rules)).
  pose proof (merge_sort_Permutation (key_le native_key) (lower_all rules)) as Hp. split_and!.
  - intros t. rewrite (native_selected_perm _ _ t Hp). by apply lower_all_spec.
  - rewrite Hp. apply (lower_all_spec rules (mkTraffic V4 0 None 0) Hr).
  - apply StronglySorted_merge_sort; apply _.
  - intros limit Hl. rewrite lower_within_spec by done. assert (He : len (lower_all rules) = len (merge_sort (key_le native_key) (lower_all rules))).
    { unfold len. f_equal. by apply Permutation_length. }
    by rewrite He.
Qed.

Definition example_rules : list Rule :=
  [mkRule V4 [(8, 15)] (Some Tcp) (Some (80, 90)); mkRule V4 [(8, 11)] (Some Tcp) (Some (85, 100)); mkRule V4 [(12, 13)] None None].

Lemma lower_exact_witness :
  (forall r, r ∈ example_rules -> is_rule r)
  /\ lower example_rules
     = Ok [(mkNetwork V4 8 29, Some Tcp, Some (80, 90)); (mkNetwork V4 8 30, Some Tcp, Some (91, 100)); (mkNetwork V4 12 31, None, None)]
  /\ exists natives, forall t, native_selected natives t <-> selected_by example_rules t.
Proof.
  assert (Hr : forall r, r ∈ example_rules -> is_rule r).
  { intros r Hr. unfold example_rules in Hr. rewrite !elem_of_cons, elem_of_nil in Hr.
    assert (Ha : forall a b, 0 <= a <= b -> b <= U32_MAX -> addresses_of V4 [(a, b)]).
    { intros a b Hab Hb. split.
      - apply disjoint_cons. split; [|split; [apply disjoint_nil|intros j Hj; by apply elem_of_nil in Hj]].
        unfold is_interval, U128_MAX, U32_MAX in *. cbn [fst snd]. lia.
      - intros x [Hx|[]%member_nil]%member_cons. unfold in_interval in Hx. cbn in *. lia. }
    destruct Hr as [-> |[-> |[-> |[]]]]; (constructor; [apply Ha; unfold U32_MAX; lia|]); intros s e [= <- <-];
      (split; [by left|unfold U16_MAX; lia]). }
  split; [exact Hr|]. split; [vm_compute; reflexivity|].
  destruct (lower_exact example_rules Hr) as (natives & H & _). by exists natives.
Defined.
