(* ===== verification/AddressText.v ===== *)
(** * Texts of networks (src/nvx-rs/src/host/network/address.rs, lowering.rs)

    The parser of IPv4 and IPv6 interfaces, the printer of networks, and the texts of native rules
    that use it. *)

From S2P Require Import Prelude Cmdline Export Addresses Lowering.
#[local] Open Scope Z_scope.

Definition SLASH : byte := byte_of 47.
Definition DOT : byte := byte_of 46.
Definition COLON : byte := byte_of 58.
Definition PERCENT : byte := byte_of 37.

(** ** Parsing *)

Inductive InterfaceError : Type := Invalid | Scoped.

Definition split_netmask (text : list byte) : option (list byte * option (list byte)) :=
  match split_on (is_byte SLASH) text with
  | [address] => Some (address, None)
  | [address; netmask] => Some (address, Some netmask)
  | _ => None
  end.

Definition MAX_INT_DIGITS : Z := 4300.

(** [fold(0, |value, digit| value * 10 + u32::from(digit - b'0'))], of at most three digits. *)
Definition decimal_value (text : list byte) : Z := foldl (fun value digit => value * 10 + (byte_val digit - 48)) 0 text.

(** [text.iter().take_while(|&&byte| byte == b'0').count()]. *)
Fixpoint skip_zeros (text : list byte) : list byte :=
  match text with
  | b :: rest => if byte_val b =? 48 then skip_zeros rest else text
  | [] => []
  end.

Definition prefix_from_prefix_string (text : list byte) (maximum : Z) : option Z :=
  if is_empty text || (MAX_INT_DIGITS <? len text) || negb (forallb is_ascii_digit text) then None
  else
    let significant := skip_zeros text in
    if 3 <? len significant then None
    else let value := decimal_value significant in if value <=? maximum then Some value else None.

(** The loop of [parse_ipv4] over [rounds] octets. *)
Fixpoint parse_octets (rounds : nat) (address : Z) (octets : list (list byte)) : option Z :=
  match rounds, octets with
  | O, [] => Some address
  | O, _ :: _ => None
  | S _, [] => None
  | S rounds, octet :: octets =>
      if negb (negb (is_empty octet) && (len octet <=? 3) && forallb is_ascii_digit octet
               && (bool_decide (octet = bytes_of "0")
                   || match octet with b :: _ => negb (byte_val b =? 48) | [] => false end)) then None
      else
        let value := decimal_value octet in
        if 255 <? value then None else parse_octets rounds (Z.lor (Z.shiftl address 8 mod 2 ^ 32) value) octets
  end.

Definition parse_ipv4 (text : list byte) : option Z := parse_octets 4 0 (split_on (is_byte DOT) text).

(** [u32::leading_ones]. *)
Definition leading_ones (mask : Z) : Z :=
  let rest := Z.lxor mask U32_MAX in if 0 <? rest then 31 - Z.log2 rest else 32.

Definition prefix_from_ipv4_netmask (mask : Z) : option Z :=
  let prefix := leading_ones mask in
  if (if prefix <? 32 then Z.shiftl mask prefix mod 2 ^ 32 else 0) =? 0 then Some prefix else None.

Definition prefix_from_ipv4_mask (text : list byte) : option Z :=
  mask ← parse_ipv4 text;
  match prefix_from_ipv4_netmask mask with
  | Some prefix => Some prefix
  | None => prefix_from_ipv4_netmask (Z.lxor mask U32_MAX)
  end.

Definition parse_ipv4_interface (text : list byte) : option Network :=
  '(address, netmask) ← split_netmask text;
  address ← parse_ipv4 address;
  prefix ← match netmask with
           | None => Some 32
           | Some netmask => match prefix_from_prefix_string netmask 32 with
                             | Some prefix => Some prefix
                             | None => prefix_from_ipv4_mask netmask
                             end
           end;
  Some (new_network V4 address prefix).

(** A part of an IPv6 address. *)
Inductive Part : Type := PartText (text : list byte) | PartGroup (group : Z).

Definition part_is_empty (self : Part) : bool := match self with PartText [] => true | _ => false end.

(** [text.iter().try_fold(0u16, ..)]. *)
Fixpoint hex_value (value : Z) (text : list byte) : option Z :=
  match text with
  | [] => Some value
  | digit :: text => d ← to_digit 16 digit; hex_value (Z.lor (Z.shiftl value 4 mod 2 ^ 16) d) text
  end.

Definition part_value (self : Part) : option Z :=
  match self with
  | PartGroup group => Some group
  | PartText text => if is_empty text || (4 <? len text) then None else hex_value 0 text
  end.

Definition MAX_PARTS : nat := 9.

(** [slice::splitn(n, p)]. *)
Fixpoint splitn {A} (n : nat) (p : A -> bool) (l : list A) : list (list A) :=
  match n with
  | O => []
  | S O => [l]
  | S n => match position p l with
           | Some at_ => ztake at_ l :: splitn n p (zdrop (at_ + 1) l)
           | None => [l]
           end
  end.

(** The parts, with an embedded IPv4 address as two groups. *)
Definition embedded_parts (parts : list Part) : option (list Part) :=
  match last parts with
  | Some (PartText text) =>
      if existsb (is_byte DOT) text
      then ipv4 ← parse_ipv4 text;
           Some (removelast parts ++ [PartGroup (Z.shiftr ipv4 16 mod 2 ^ 16); PartGroup (ipv4 mod 2 ^ 16)])
      else Some parts
  | _ => Some parts
  end.

(** The loop over the parts between the endpoints, from [index]: the [::], if any, or [None] for two. *)
Fixpoint find_skip (index : Z) (skip : option Z) (inner : list Part) : option (option Z) :=
  match inner with
  | [] => Some skip
  | part :: inner =>
      if part_is_empty part
      then match skip with Some _ => None | None => find_skip (index + 1) (Some index) inner end
      else find_skip (index + 1) skip inner
  end.

(** [for part in parts { address = (address << 16) | u128::from(part.value()?) }]. *)
Fixpoint push_groups (address : Z) (parts : list Part) : option Z :=
  match parts with
  | [] => Some address
  | part :: parts => value ← part_value part; push_groups (Z.lor (Z.shiftl address 16 mod 2 ^ 128) value) parts
  end.

(** The number of groups before and after the [::], and of those that it stands for. *)
Definition layout (parts : list Part) (skip : option Z) : option (Z * Z * Z) :=
  let count := len parts in
  let first_empty := match parts with part :: _ => part_is_empty part | [] => false end in
  let last_empty := match last parts with Some part => part_is_empty part | None => false end in
  match skip with
  | Some skip =>
      let high := skip in
      let low := count - skip - 1 in
      if first_empty && negb (high - 1 =? 0) then None
      else if last_empty && negb (low - 1 =? 0) then None
      else
        let high := if first_empty then high - 1 else high in
        let low := if last_empty then low - 1 else low in
        if 1 <=? 8 - (high + low) then Some (high, low, 8 - (high + low)) else None
  | None => if negb (count =? 8) || first_empty || last_empty then None else Some (count, 0, 0)
  end.

Definition parse_ipv6 (text : list byte) : option Z :=
  if is_empty text || (45 <? len text) || negb (forallb (fun b => byte_val b <? 128) text) then None
  else
    let parts := PartText <$> splitn (MAX_PARTS + 1) (is_byte COLON) text in
    if len parts <? 3 then None
    else
      parts ← embedded_parts parts;
      if Z.of_nat MAX_PARTS <? len parts then None
      else
        skip ← find_skip 1 None (sub 1 (len parts - 1) parts);
        '(high, low, skipped) ← layout parts skip;
        address ← push_groups 0 (ztake high parts);
        let address := if 16 * skipped <? 128 then Z.shiftl address (16 * skipped) mod 2 ^ 128 else 0 in
        push_groups address (zdrop (len parts - low) parts).

Definition parse_ipv6_interface (text : list byte) : option (Network * bool) :=
  '(address, netmask) ← split_netmask text;
  '(address, scoped) ← match position (is_byte PERCENT) address with
                       | None => Some (address, false)
                       | Some at_ =>
                           let scope := zdrop (at_ + 1) address in
                           if is_empty scope || existsb (is_byte PERCENT) scope then None
                           else Some (ztake at_ address, true)
                       end;
  address ← parse_ipv6 address;
  prefix ← match netmask with None => Some 128 | Some netmask => prefix_from_prefix_string netmask 128 end;
  Some (new_network V6 address prefix, scoped).

Definition parse_interface (text : list byte) : result InterfaceError Network :=
  match parse_ipv4_interface text with
  | Some network => Ok network
  | None => match parse_ipv6_interface text with
            | Some (network, false) => Ok network
            | Some (_, true) => Err Scoped
            | None => Err Invalid
            end
  end.

(** ** Printing *)

(** Texts separated by a byte. *)
Fixpoint join (separator : list byte) (texts : list (list byte)) : list byte :=
  match texts with
  | [] => []
  | [text] => text
  | text :: texts => text ++ separator ++ join separator texts
  end.

(** [Display] of [Ipv4Addr]. *)
Definition display_ipv4 (address : Z) : list byte :=
  join [DOT] ((fun i => dec (Z.shiftr address (24 - 8 * i) mod 2 ^ 8)) <$> [0; 1; 2; 3]).

Definition groups (address : Z) : list Z := (fun index => Z.shiftr address (112 - 16 * index) mod 2 ^ 16) <$> [0; 1; 2; 3; 4; 5; 6; 7].

Fixpoint zero_run (groups : list Z) : Z :=
  match groups with
  | group :: groups => if group =? 0 then 1 + zero_run groups else 0
  | [] => 0
  end.

(** [while index < groups.len()], from the groups at [index]. *)
Fixpoint best_run (rounds : nat) (index : Z) (best : option (Z * Z)) (groups : list Z) : option (Z * Z) :=
  match rounds, groups with
  | S rounds, group :: rest =>
      if negb (group =? 0) then best_run rounds (index + 1) best rest
      else
        let length := zero_run groups in
        let best := if match best with Some (_, best_length) => best_length | None => 1 end <? length
                    then Some (index, length) else best in
        best_run rounds (index + length) best (zdrop length groups)
  | _, _ => best
  end.

(** [write!(formatter, "{group:x}")]. *)
Definition write_group (group : Z) : list byte := digits 4 16 group.
Definition write_groups (groups : list Z) : list byte := join [COLON] (write_group <$> groups).

Definition write_ipv6 (address : Z) : list byte :=
  if Z.shiftr address 32 =? 0xFFFF then bytes_of "::ffff:" ++ display_ipv4 (address mod 2 ^ 32)
  else
    let groups := groups address in
    match best_run 9 0 None groups with
    | None => write_groups groups
    | Some (start, length) => write_groups (ztake start groups) ++ bytes_of "::" ++ write_groups (zdrop (start + length) groups)
    end.

Definition display_network (self : Network) : list byte :=
  match Addresses.family self with V4 => display_ipv4 (address self mod 2 ^ 32) | V6 => write_ipv6 (address self) end
  ++ [SLASH] ++ dec (prefix self).

Definition render (rule : NativeRule) : list byte :=
  let '(network, protocol, ports) := rule in
  match protocol, ports with
  | None, _ => display_network network
  | Some protocol, None => display_network network ++ [COLON] ++ bytes_of (as_str protocol)
  | Some protocol, Some (start, end_) =>
      if start =? end_ then display_network network ++ [COLON] ++ bytes_of (as_str protocol) ++ [COLON] ++ dec start
      else display_network network ++ [COLON] ++ bytes_of (as_str protocol) ++ [COLON] ++ dec start ++ bytes_of "-" ++ dec end_
  end.

Example parse_examples :
  parse_interface (bytes_of "10.1.2.3/255.0.0.0") = Ok (mkNetwork V4 0x0a000000 8)
  /\ parse_interface (bytes_of "192.0.2.1") = Ok (mkNetwork V4 0xc0000201 32)
  /\ parse_interface (bytes_of "10.0.0.0/0.0.255.255") = Ok (mkNetwork V4 0x0a000000 16)
  /\ parse_interface (bytes_of "01.0.0.0") = Err Invalid
  /\ parse_interface (bytes_of "fe80::1%eth0/64") = Err Scoped
  /\ parse_interface (bytes_of "2001:db8::1:0/112") = Ok (mkNetwork V6 0x20010db8000000000000000000010000 112)
  /\ parse_interface (bytes_of "::ffff:192.0.2.0/120") = Ok (mkNetwork V6 0xffffc0000200 120)
  /\ parse_interface (bytes_of "1:::2") = Err Invalid
  /\ parse_interface (bytes_of "::") = Ok (mkNetwork V6 0 128).
Proof. vm_compute. repeat split. Qed.

Example display_examples :
  display_network (mkNetwork V6 0xffffc0000200 120) = bytes_of "::ffff:192.0.2.0/120"
  /\ display_network (mkNetwork V6 0x20010db8000000000000000000010000 112) = bytes_of "2001:db8::1:0/112"
  /\ display_network (mkNetwork V6 0 0) = bytes_of "::/0"
  /\ display_network (mkNetwork V6 0x00010000000200000000000300000000 128) = bytes_of "1:0:2::3:0:0/128"
  /\ render (mkNetwork V4 0x0a000000 8, Some Tcp, Some (80, 90)) = bytes_of "10.0.0.0/8:tcp:80-90".
Proof. vm_compute. repeat split. Qed.

(** ** Parsed networks *)

Lemma lor_bound w a b : 0 <= w -> 0 <= a < 2 ^ w -> 0 <= b < 2 ^ w -> 0 <= Z.lor a b < 2 ^ w.
Proof.
  intros Hw Ha Hb. assert (Hn : 0 <= Z.lor a b) by (apply Z.lor_nonneg; lia). split; [done|].
  destruct (Z.eq_dec (Z.lor a b) 0) as [->|Hz]; [by apply Z.pow_pos_nonneg|]. apply Z.log2_lt_pow2; [lia|].
  rewrite Z.log2_lor by lia. assert (Hl : forall c, 0 <= c < 2 ^ w -> Z.log2 c < w \/ c = 0).
  { intros c Hc. destruct (Z.eq_dec c 0); [by right|left]. apply Z.log2_lt_pow2; lia. }
  assert (0 < w) by (destruct (Z.eq_dec w 0) as [->|]; [change (2 ^ 0) with 1 in *; assert (a = 0) as -> by lia; assert (b = 0) as -> by lia; done|lia]).
  destruct (Hl a Ha) as [?| ->], (Hl b Hb) as [?| ->]; change (Z.log2 0) with 0; lia.
Qed.

(** Shifting in a value. *)
Lemma lor_shift k w a v : 0 <= k -> 0 <= a -> 0 <= v < 2 ^ k -> a * 2 ^ k + v < 2 ^ w -> Z.lor (Z.shiftl a k mod 2 ^ w) v = a * 2 ^ k + v.
Proof.
  intros Hk Ha Hv Hw. rewrite Z.shiftl_mul_pow2, Z.mod_small by lia.
  pose proof (Z.add_lor_land (a * 2 ^ k) v) as Hl. assert (Hz : Z.land (a * 2 ^ k) v = 0); [|lia].
  apply Z.bits_inj'. intros i Hi. rewrite Z.land_spec, Z.bits_0. destruct (Z.lt_ge_cases i k).
  - by rewrite Z.mul_pow2_bits_low.
  - apply andb_false_iff. right. destruct (Z.eq_dec v 0) as [->|]; [apply Z.bits_0|]. apply Z.bits_above_log2; [lia|].
    assert (Z.log2 v < k) by (apply Z.log2_lt_pow2; lia). lia.
Qed.

Lemma decimal_nonneg text : Forall (fun b => is_ascii_digit b = true) text -> 0 <= decimal_value text.
Proof.
  unfold decimal_value. assert (Hg : forall v, 0 <= v -> Forall (fun b => is_ascii_digit b = true) text ->
    0 <= foldl (fun value digit => value * 10 + (byte_val digit - 48)) v text); [|by apply Hg].
  induction text as [|b text IH]; intros v Hv Ht; cbn [foldl]; [done|]. apply Forall_cons in Ht as [Hb Ht].
  unfold is_ascii_digit in Hb. apply andb_true_iff in Hb as [?%Z.leb_le _]. apply IH; [lia|done].
Qed.

Lemma forallb_digits text : forallb is_ascii_digit text = true <-> Forall (fun b => is_ascii_digit b = true) text.
Proof. rewrite forallb_forall, Forall_forall. by setoid_rewrite list_elem_of_In. Qed.

Lemma skip_zeros_forall (P : byte -> Prop) text : Forall P text -> Forall P (skip_zeros text).
Proof. induction 1 as [|b text Hb Ht IH]; cbn; [constructor|]. case_match; [done|by constructor]. Qed.

Lemma prefix_string_range text maximum p : prefix_from_prefix_string text maximum = Some p -> 0 <= p <= maximum.
Proof.
  unfold prefix_from_prefix_string. destruct (forallb is_ascii_digit text) eqn:Hf; [|by rewrite orb_true_r].
  repeat case_match; try done. intros [= <-]. apply forallb_digits in Hf. split; [|by apply Z.leb_le].
  by apply decimal_nonneg, skip_zeros_forall.
Qed.

Lemma parse_octets_range rounds : forall a octets r, 0 <= a < 2 ^ 32 -> parse_octets rounds a octets = Some r -> 0 <= r < 2 ^ 32.
Proof.
  induction rounds as [|rounds IH]; intros a [|octet octets] r Ha; cbn [parse_octets]; try done; [by intros [= <-]|].
  destruct (forallb is_ascii_digit octet) eqn:Hf; [|by rewrite andb_false_r].
  destruct (negb _); [done|]. destruct (Z.ltb_spec 255 (decimal_value octet)); [done|]. apply IH.
  apply forallb_digits, decimal_nonneg in Hf. apply lor_bound; [lia|by apply Z.mod_pos_bound|lia].
Qed.

Lemma parse_ipv4_range text r : parse_ipv4 text = Some r -> 0 <= r < 2 ^ 32.
Proof. by apply parse_octets_range. Qed.

Lemma complement_bound mask : 0 <= mask < 2 ^ 32 -> 0 <= Z.lxor mask U32_MAX < 2 ^ 32.
Proof.
  intros Hm. assert (Hn : 0 <= Z.lxor mask U32_MAX) by (apply Z.lxor_nonneg; unfold U32_MAX; lia). split; [done|].
  destruct (Z.eq_dec (Z.lxor mask U32_MAX) 0) as [->|]; [done|]. apply Z.log2_lt_pow2; [lia|].
  pose proof (Z.log2_lxor mask U32_MAX ltac:(lia) ltac:(unfold U32_MAX; lia)) as Hl. change (Z.log2 U32_MAX) with 31 in Hl.
  assert (Z.log2 mask < 32); [|lia]. destruct (Z.eq_dec mask 0) as [->|]; [done|]. apply Z.log2_lt_pow2; lia.
Qed.

Lemma netmask_range mask p : 0 <= mask < 2 ^ 32 -> prefix_from_ipv4_netmask mask = Some p -> 0 <= p <= 32.
Proof.
  intros Hm. unfold prefix_from_ipv4_netmask. destruct (_ =? 0); [|done]. intros [= <-]. unfold leading_ones.
  pose proof (Z.log2_nonneg (Z.lxor mask U32_MAX)). pose proof (complement_bound mask Hm).
  destruct (Z.ltb_spec 0 (Z.lxor mask U32_MAX)); [|lia].
  assert (Z.log2 (Z.lxor mask U32_MAX) < 32) by (apply Z.log2_lt_pow2; lia). lia.
Qed.

Lemma ipv4_mask_range text p : prefix_from_ipv4_mask text = Some p -> 0 <= p <= 32.
Proof.
  unfold prefix_from_ipv4_mask. destruct (parse_ipv4 text) as [mask|] eqn:Hm; [|done]. cbn [mbind option_bind].
  apply parse_ipv4_range in Hm. destruct (prefix_from_ipv4_netmask mask) as [q|] eqn:Hq.
  - intros [= <-]. by apply (netmask_range mask).
  - intros Hp. apply (netmask_range (Z.lxor mask U32_MAX)); [by apply complement_bound|done].
Qed.

Lemma hex_value_range text : forall v r, 0 <= v < 2 ^ 16 -> hex_value v text = Some r -> 0 <= r < 2 ^ 16.
Proof.
  induction text as [|b text IH]; intros v r Hv; cbn [hex_value]; [by intros [= <-]|].
  destruct (to_digit 16 b) as [d|] eqn:Hd; [|done]. cbn [mbind option_bind]. apply IH.
  assert (0 <= d < 16).
  { pose proof (byte_val_range b). unfold to_digit in Hd. destruct (_ <? 16) eqn:Hlt; [|done]. apply Z.ltb_lt in Hlt. injection Hd as <-.
    split; [|done]. repeat case_match; rewrite ?andb_true_iff in *; lia. }
  apply lor_bound; [lia|by apply Z.mod_pos_bound|lia].
Qed.

Definition part_fits (part : Part) : Prop := match part with PartText _ => True | PartGroup g => 0 <= g < 2 ^ 16 end.

Lemma push_groups_range parts : Forall part_fits parts -> forall a r, 0 <= a < 2 ^ 128 -> push_groups a parts = Some r -> 0 <= r < 2 ^ 128.
Proof.
  induction 1 as [|part parts Hp Hps IH]; intros a r Ha; cbn [push_groups]; [by intros [= <-]|].
  destruct (part_value part) as [v|] eqn:Hv; [|done]. cbn [mbind option_bind]. apply IH.
  assert (0 <= v < 2 ^ 16).
  { destruct part as [text|g]; cbn [part_value] in Hv; [|injection Hv as <-; done]. destruct (_ || _); [done|]. by apply (hex_value_range text 0). }
  apply lor_bound; [lia|by apply Z.mod_pos_bound|lia].
Qed.

Lemma embedded_fits parts parts' : Forall part_fits parts -> embedded_parts parts = Some parts' -> Forall part_fits parts'.
Proof.
  intros Hp. unfold embedded_parts. destruct (last parts) as [[text|g]|] eqn:Hl; [|by intros [= <-]..].
  destruct (existsb _ _); [|by intros [= <-]]. destruct (parse_ipv4 text) as [ipv4|]; [|done]. cbn [mbind option_bind]. intros [= <-].
  rewrite (last_removelast parts _ Hl) in Hp. apply Forall_app in Hp as [Hp _]. apply Forall_app. split; [done|].
  repeat constructor; cbn [part_fits]; by apply Z.mod_pos_bound.
Qed.

Lemma parse_ipv6_range text r : parse_ipv6 text = Some r -> 0 <= r < 2 ^ 128.
Proof.
  unfold parse_ipv6. destruct (_ || _ || _); [done|]. set (parts := PartText <$> _). destruct (len parts <? 3); [done|].
  destruct (embedded_parts parts) as [parts'|] eqn:He; [|done]. cbn [mbind option_bind]. destruct (_ <? len parts'); [done|].
  destruct (find_skip _ _ _) as [skip|]; [|done]. cbn [mbind option_bind].
  destruct (layout parts' skip) as [[[high low] skipped]|]; [|done]. cbn [mbind option_bind].
  assert (Hf : Forall part_fits parts').
  { apply (embedded_fits parts); [|done]. apply Forall_fmap, Forall_forall. done. }
  destruct (push_groups 0 (ztake high parts')) as [a|] eqn:Ha; [|done]. cbn [mbind option_bind].
  apply push_groups_range; [by apply Forall_drop|]. destruct (_ <? 128); [by apply Z.mod_pos_bound|lia].
Qed.

(** Every interface that the parser accepts is a network of its family without host bits, whatever
    the text: a prefix length within the family's, an address within it, and every bit below the
    prefix clear. *)
Lemma parsed_network text n : parse_interface text = Ok n -> is_network n.
Proof.
  unfold parse_interface. destruct (parse_ipv4_interface text) as [n4|] eqn:H4.
  - intros [= <-]. unfold parse_ipv4_interface in H4. destruct (split_netmask text) as [[a m]|]; [|done]. cbn [mbind option_bind] in H4.
    destruct (parse_ipv4 a) as [v|] eqn:Ha; [|done]. apply parse_ipv4_range in Ha. cbn [mbind option_bind] in H4.
    destruct (match m with None => _ | Some _ => _ end) as [p|] eqn:Hp; [|done]. cbn [mbind option_bind] in H4.
    assert (n4 = new_network V4 v p) as -> by congruence. apply new_network_valid; [|cbn; unfold U32_MAX; lia]. cbn [bits].
    destruct m as [m|]; [|assert (p = 32) as -> by congruence; lia]. destruct (prefix_from_prefix_string m 32) as [q|] eqn:Hq.
    + assert (q = p) as -> by congruence. by apply (prefix_string_range m).
    + by apply (ipv4_mask_range m).
  - unfold parse_ipv6_interface. destruct (split_netmask text) as [[a m]|]; [|done]. cbn [mbind option_bind].
    destruct (match position _ a with None => _ | Some _ => _ end) as [[a' scoped]|]; [|done]. cbn [mbind option_bind].
    destruct (parse_ipv6 a') as [v|] eqn:Ha; [|done]. apply parse_ipv6_range in Ha. cbn [mbind option_bind].
    destruct (match m with None => _ | Some _ => _ end) as [p|] eqn:Hp; [|done]. cbn [mbind option_bind]. destruct scoped; [done|].
    intros Hn. assert (n = new_network V6 v p) as -> by congruence. apply new_network_valid; [|cbn; unfold U128_MAX; lia]. cbn [bits].
    destruct m as [m|]; [by apply (prefix_string_range m)|]. assert (p = 128) as -> by congruence. lia.
Qed.

(** ** Digits *)

Lemma digit_byte_val d : 0 <= d < 16 -> byte_val (digit_byte d) = if d <? 10 then 48 + d else 87 + d.
Proof. intros Hd. unfold digit_byte. rewrite byte_val_of. destruct (Z.ltb_spec d 10); rewrite Z.mod_small; lia. Qed.

Lemma digits_forall (P : byte -> Prop) radix rounds : 2 <= radix -> (forall d, 0 <= d < radix -> P (digit_byte d)) ->
  forall n, 0 <= n -> Forall P (digits rounds radix n).
Proof.
  intros Hr HP. induction rounds as [|rounds IH]; intros n Hn; cbn [digits]; [constructor|].
  destruct (Z.ltb_spec n radix); [repeat constructor; apply HP; lia|]. apply Forall_app. split; [apply IH, Z.div_pos; lia|].
  repeat constructor. apply HP, Z.mod_pos_bound. lia.
Qed.

(** The bytes of a number are none of the separators. *)
Lemma digits_clean c radix rounds n : 2 <= radix <= 16 -> 0 <= n -> c ∈ [SLASH; DOT; COLON; PERCENT] ->
  Forall (fun b => is_byte c b = false) (digits rounds radix n).
Proof.
  intros Hr Hn Hc. apply digits_forall; [lia| |done]. intros d Hd. unfold is_byte. apply bool_decide_eq_false. intros He.
  assert (Hv : byte_val c = if d <? 10 then 48 + d else 87 + d) by (by rewrite <- He, digit_byte_val by lia).
  assert (byte_val c = 47 \/ byte_val c = 46 \/ byte_val c = 58 \/ byte_val c = 37).
  { rewrite !elem_of_cons, elem_of_nil in Hc. destruct Hc as [-> |[-> |[-> |[-> |[]]]]];
      [left|right; left|right; right; left|right; right; right]; reflexivity. }
  destruct (Z.ltb_spec d 10); lia.
Qed.

Lemma digits_nonempty radix rounds n : (0 < rounds)%nat -> digits rounds radix n <> [].
Proof. destruct rounds as [|rounds]; [lia|]. intros _. cbn [digits]. destruct (n <? radix); [done|]. by destruct (digits rounds radix (n / radix)). Qed.

Lemma digits_len radix rounds : 2 <= radix -> forall k n, 1 <= k -> 0 <= n < radix ^ k -> len (digits rounds radix n) <= k.
Proof.
  intros Hr. induction rounds as [|rounds IH]; intros k n Hk Hn; cbn [digits]; [change (len (@nil byte)) with 0; lia|].
  destruct (Z.ltb_spec n radix); [change (len [digit_byte n]) with 1; lia|]. rewrite len_app. change (len [digit_byte (n mod radix)]) with 1.
  assert (k <> 1) by (intros ->; rewrite Z.pow_1_r in Hn; lia).
  assert (len (digits rounds radix (n / radix)) <= k - 1); [|lia]. apply IH; [lia|]. split; [apply Z.div_pos; lia|].
  apply Z.div_lt_upper_bound; [lia|]. rewrite <- Z.pow_succ_r by lia. replace (Z.succ (k - 1)) with k by lia. lia.
Qed.

Lemma digits_positive radix rounds : 2 <= radix <= 16 -> forall n, 0 < n -> (0 < rounds)%nat -> n < radix ^ Z.of_nat rounds ->
  exists b rest, digits rounds radix n = b :: rest /\ byte_val b <> 48.
Proof.
  intros Hr. induction rounds as [|rounds IH]; intros n Hn Hk Hp; [lia|]. cbn [digits]. destruct (Z.ltb_spec n radix).
  - exists (digit_byte n), []. split; [done|]. rewrite digit_byte_val by lia. destruct (Z.ltb_spec n 10); lia.
  - rewrite Nat2Z.inj_succ, Z.pow_succ_r in Hp by lia. destruct (IH (n / radix)) as (b & rest & -> & Hb).
    + apply Z.div_str_pos. lia.
    + destruct rounds; [change (radix ^ Z.of_nat 0) with 1 in Hp; lia|lia].
    + apply Z.div_lt_upper_bound; lia.
    + by exists b, (rest ++ [digit_byte (n mod radix)]).
Qed.

Lemma digits_decimal rounds : forall n, 0 <= n < 10 ^ Z.of_nat rounds -> decimal_value (digits rounds 10 n) = n.
Proof.
  induction rounds as [|rounds IH]; intros n Hn; cbn [digits]; [change (10 ^ Z.of_nat 0) with 1 in Hn; cbn; lia|].
  rewrite Nat2Z.inj_succ, Z.pow_succ_r in Hn by lia. pose proof (Z.mod_pos_bound n 10). pose proof (Z.div_mod n 10).
  assert (Hd : forall d, 0 <= d < 10 -> byte_val (digit_byte d) - 48 = d).
  { intros d Hd. rewrite digit_byte_val by lia. destruct (Z.ltb_spec d 10); lia. }
  destruct (Z.ltb_spec n 10); unfold decimal_value in *.
  - cbn [foldl]. rewrite Hd by lia. lia.
  - rewrite foldl_app, IH by (split; [apply Z.div_pos; lia|apply Z.div_lt_upper_bound; lia]). cbn [foldl]. rewrite Hd by lia. lia.
Qed.

Lemma hex_value_app k l : forall v, hex_value v (k ++ l) = (v ← hex_value v k; hex_value v l).
Proof. induction k as [|b k IH]; intros v; cbn [hex_value app]; [done|]. destruct (to_digit 16 b); [|done]. apply IH. Qed.

Lemma digits_hex rounds : (rounds <= 4)%nat -> forall n, 0 <= n < 16 ^ Z.of_nat rounds -> hex_value 0 (digits rounds 16 n) = Some n.
Proof.
  induction rounds as [|rounds IH]; intros Hr n Hn; cbn [digits]; [change (16 ^ Z.of_nat 0) with 1 in Hn; cbn; f_equal; lia|].
  assert (Hp : 16 ^ Z.of_nat (S rounds) <= 2 ^ 16) by (change (2 ^ 16) with (16 ^ 4); apply Z.pow_le_mono_r; lia).
  rewrite Nat2Z.inj_succ, Z.pow_succ_r in Hn, Hp by lia. pose proof (Z.mod_pos_bound n 16). pose proof (Z.div_mod n 16).
  destruct (Z.ltb_spec n 16).
  - cbn [hex_value]. rewrite to_digit_byte by lia. cbn [mbind option_bind]. by rewrite lor_shift by lia.
  - rewrite hex_value_app, IH by (lia || (split; [apply Z.div_pos; lia|apply Z.div_lt_upper_bound; lia])). cbn [mbind option_bind hex_value].
    rewrite to_digit_byte by lia. cbn [mbind option_bind]. rewrite lor_shift; [f_equal; lia|lia|apply Z.div_pos; lia|lia|lia].
Qed.

(** ** Joined texts *)

Lemma join_cons c t u texts : join [c] (t :: u :: texts) = t ++ [c] ++ join [c] (u :: texts).
Proof. done. Qed.

Lemma split_join c texts : texts <> [] -> Forall (Forall (fun b => is_byte c b = false)) texts -> split_on (is_byte c) (join [c] texts) = texts.
Proof.
  intros Hne Ht. induction Ht as [|t texts Ht Hts IH]; [done|]. destruct texts as [|u texts]; [by apply split_on_end|].
  rewrite join_cons. cbn [app]. rewrite split_on_app, IH; [done|done|done|]. by apply bool_decide_eq_true.
Qed.

Lemma join_forall (P : byte -> Prop) c texts : P c -> Forall (Forall P) texts -> Forall P (join [c] texts).
Proof.
  intros Hc Ht. induction Ht as [|t texts Ht Hts IH]; [constructor|]. destruct texts as [|u texts]; [exact Ht|].
  rewrite join_cons, !Forall_app. split_and!; [done|by repeat constructor|done].
Qed.

Lemma join_len c texts k : 0 <= k -> Forall (fun t => len t <= k) texts -> len (join [c] texts) <= (k + 1) * len texts.
Proof.
  intros Hk Ht. induction Ht as [|t texts Ht Hts IH]; [rewrite Z.mul_comm; by apply Z.le_refl|]. destruct texts as [|u texts].
  - change (len [t]) with 1. cbn [join]. lia.
  - rewrite join_cons, !len_app, (len_cons t). change (len [c]) with 1. lia.
Qed.

(** ** IPv4 texts *)

Lemma octet_digits o : 0 <= o < 256 -> Forall (fun b => is_ascii_digit b = true) (dec o).
Proof.
  intros Ho. apply digits_forall; [lia| |lia]. intros d Hd. unfold is_ascii_digit. rewrite digit_byte_val by lia.
  destruct (Z.ltb_spec d 10); [|lia]. apply andb_true_iff. rewrite !Z.leb_le. lia.
Qed.

Lemma parse_octet rounds a o octets : 0 <= a -> 0 <= o < 256 -> a * 256 + o < 2 ^ 32 ->
  parse_octets (S rounds) a (dec o :: octets) = parse_octets rounds (a * 256 + o) octets.
Proof.
  intros Ha Ho Hs. cbn [parse_octets]. rewrite (proj2 (forallb_digits (dec o)) (octet_digits o Ho)).
  assert (Hl : len (dec o) <= 3) by (apply digits_len; [lia|lia|change (10 ^ 3) with 1000; lia]).
  assert (Hv : decimal_value (dec o) = o) by (apply digits_decimal; change (Z.of_nat 20) with 20; lia).
  rewrite Hv. assert (He : is_empty (dec o) = false) by (pose proof (digits_nonempty 10 20 o ltac:(lia)); unfold dec; by destruct (digits 20 10 o)).
  rewrite He, (proj2 (Z.leb_le _ _) Hl).
  assert (Hz : bool_decide (dec o = bytes_of "0") || match dec o with b :: _ => negb (byte_val b =? 48) | [] => false end = true).
  { destruct (Z.eq_dec o 0) as [->|Hn]; [reflexivity|].
    destruct (digits_positive 10 20 ltac:(lia) o) as (b & rest & Hd & Hb); [lia|lia|change (Z.of_nat 20) with 20; lia|].
    unfold dec. rewrite Hd. apply orb_true_iff. right. apply negb_true_iff, Z.eqb_neq, Hb. }
  rewrite Hz. cbn [negb andb]. destruct (Z.ltb_spec 255 o); [lia|]. by rewrite (lor_shift 8 32) by lia.
Qed.

Lemma ipv4_texts_clean c a : c ∈ [SLASH; DOT; COLON; PERCENT] ->
  Forall (Forall (fun b => is_byte c b = false)) ((fun i => dec (Z.shiftr a (24 - 8 * i) mod 2 ^ 8)) <$> [0; 1; 2; 3]).
Proof.
  intros Hc. apply Forall_fmap, Forall_forall. intros i _. apply digits_clean; [lia|apply Z.mod_pos_bound; lia|done].
Qed.

Lemma parse_display_ipv4 a : 0 <= a < 2 ^ 32 -> parse_ipv4 (display_ipv4 a) = Some a.
Proof.
  intros Ha. unfold parse_ipv4, display_ipv4. rewrite split_join; [|done|apply ipv4_texts_clean; rewrite !elem_of_cons; auto].
  change ([0; 1; 2; 3]) with [0; 1; 2; 3]. cbn [fmap list_fmap]. change (24 - 8 * 0) with 24. change (24 - 8 * 1) with 16.
  change (24 - 8 * 2) with 8. change (24 - 8 * 3) with 0. rewrite !Z.shiftr_div_pow2 by lia. change (2 ^ 24) with 16777216. change (2 ^ 16) with 65536.
  change (2 ^ 8) with 256. change (2 ^ 0) with 1. change (2 ^ 32) with 4294967296 in Ha.
  pose proof (Z.mod_pos_bound (a / 16777216) 256). pose proof (Z.mod_pos_bound (a / 65536) 256).
  pose proof (Z.mod_pos_bound (a / 256) 256). pose proof (Z.mod_pos_bound (a / 1) 256).
  assert (Hd : a = ((a / 16777216 mod 256 * 256 + a / 65536 mod 256) * 256 + a / 256 mod 256) * 256 + a / 1 mod 256).
  { Z.to_euclidean_division_equations. lia. }
  change (2 ^ 32) with 4294967296 in *. rewrite !parse_octet by (change (2 ^ 32) with 4294967296; lia). cbn [parse_octets]. f_equal. lia.
Qed.

Lemma display_ipv4_clean c a : c ∈ [SLASH; COLON; PERCENT] -> Forall (fun b => is_byte c b = false) (display_ipv4 a).
Proof.
  intros Hc. apply join_forall; [|apply ipv4_texts_clean; set_solver].
  rewrite !elem_of_cons, elem_of_nil in Hc. by destruct Hc as [-> |[-> |[-> |[]]]].
Qed.

Lemma display_ipv4_ascii a : Forall (fun b => (byte_val b <? 128) = true) (display_ipv4 a) /\ len (display_ipv4 a) <= 16.
Proof.
  split.
  - apply join_forall; [done|]. apply Forall_fmap, Forall_forall. intros i _. unfold compose. pose proof (Z.mod_pos_bound (Z.shiftr a (24 - 8 * i)) (2 ^ 8)).
    apply (Forall_impl _ _ _ (octet_digits (Z.shiftr a (24 - 8 * i) mod 2 ^ 8) ltac:(lia))). intros b. unfold is_ascii_digit.
    rewrite andb_true_iff, !Z.leb_le, Z.ltb_lt. lia.
  - assert (H : len (display_ipv4 a) <= (3 + 1) * 4); [|lia]. apply join_len; [lia|]. apply Forall_fmap, Forall_forall. intros i _. unfold compose.
    pose proof (Z.mod_pos_bound (Z.shiftr a (24 - 8 * i)) (2 ^ 8)). apply digits_len; [lia|lia|change (10 ^ 3) with 1000; lia].
Qed.

(** ** Groups of IPv6 addresses *)

Definition is_group (g : Z) : Prop := 0 <= g < 2 ^ 16.

Lemma write_group_text g : is_group g ->
  write_group g <> [] /\ len (write_group g) <= 4 /\ part_value (PartText (write_group g)) = Some g
  /\ Forall (fun b => (byte_val b <? 128) = true) (write_group g)
  /\ forall c, c ∈ [SLASH; DOT; COLON; PERCENT] -> Forall (fun b => is_byte c b = false) (write_group g).
Proof.
  intros Hg. unfold is_group in Hg. unfold write_group.
  assert (Hn : digits 4 16 g <> []) by (apply digits_nonempty; lia).
  assert (Hl : len (digits 4 16 g) <= 4) by (apply digits_len; [lia|lia|change (16 ^ 4) with (2 ^ 16); lia]).
  split_and!; [done|done| | |].
  - unfold part_value. assert (He : is_empty (digits 4 16 g) = false) by (by destruct (digits 4 16 g)).
    rewrite He. destruct (Z.ltb_spec 4 (len (digits 4 16 g))); [lia|]. apply digits_hex; [lia|]. change (16 ^ Z.of_nat 4) with (2 ^ 16). lia.
  - apply digits_forall; [lia| |lia]. intros d Hd. rewrite digit_byte_val by lia. apply Z.ltb_lt. destruct (Z.ltb_spec d 10); lia.
  - intros c Hc. apply digits_clean; [lia|lia|done].
Qed.

Definition value_from (a : Z) (gs : list Z) : Z := foldl (fun a g => a * 2 ^ 16 + g) a gs.
Definition texts (gs : list Z) : list Part := PartText <$> (write_group <$> gs).

Lemma value_from_ge gs : Forall is_group gs -> forall a, 0 <= a -> a <= value_from a gs.
Proof.
  induction 1 as [|g gs Hg Hgs IH]; intros a Ha; unfold value_from in *; cbn [foldl]; [lia|]. unfold is_group in Hg.
  specialize (IH (a * 2 ^ 16 + g)). lia.
Qed.

Lemma push_texts gs : Forall is_group gs -> forall a, 0 <= a -> value_from a gs < 2 ^ 128 -> push_groups a (texts gs) = Some (value_from a gs).
Proof.
  induction 1 as [|g gs Hg Hgs IH]; intros a Ha Hv; [done|]. unfold texts. rewrite !fmap_cons. cbn [push_groups].
  destruct (write_group_text g Hg) as (_ & _ & -> & _). cbn [mbind option_bind]. unfold value_from in Hv |- *. cbn [foldl] in Hv |- *.
  fold (value_from (a * 2 ^ 16 + g) gs) in Hv |- *. unfold is_group in Hg. pose proof (value_from_ge gs Hgs (a * 2 ^ 16 + g) ltac:(lia)).
  rewrite (lor_shift 16 128) by lia. apply IH; [lia|done].
Qed.

Lemma value_from_app k l a : value_from a (k ++ l) = value_from (value_from a k) l.
Proof. apply foldl_app. Qed.

Lemma value_from_zeros n : forall a, value_from a (replicate n 0) = a * 2 ^ (16 * Z.of_nat n).
Proof.
  induction n as [|n IH]; intros a; cbn [replicate]; [cbn; lia|]. unfold value_from in *. cbn [foldl]. rewrite IH, Z.add_0_r.
  rewrite <- Z.mul_assoc, <- Z.pow_add_r by lia. do 2 f_equal. lia.
Qed.

Lemma groups_are_groups a : Forall is_group (groups a).
Proof. apply Forall_fmap, Forall_forall. intros i _. by apply Z.mod_pos_bound. Qed.

Lemma groups_value a : 0 <= a < 2 ^ 128 -> value_from 0 (groups a) = a.
Proof.
  intros Ha. assert (Hs : forall k, 0 <= k -> a / 2 ^ (k + 16) * 2 ^ 16 + a / 2 ^ k mod 2 ^ 16 = a / 2 ^ k).
  { intros k Hk. rewrite Z.pow_add_r, <- Z.div_div by lia. pose proof (Z.div_mod (a / 2 ^ k) (2 ^ 16)). lia. }
  unfold groups, value_from. cbn [fmap list_fmap foldl]. rewrite !Z.shiftr_div_pow2 by lia.
  change (112 - 16 * 0) with 112. change (112 - 16 * 1) with 96. change (112 - 16 * 2) with 80. change (112 - 16 * 3) with 64.
  change (112 - 16 * 4) with 48. change (112 - 16 * 5) with 32. change (112 - 16 * 6) with 16. change (112 - 16 * 7) with 0.
  rewrite Z.mul_0_l, Z.add_0_l, (Z.mod_small (a / 2 ^ 112)).
  2:{ split; [apply Z.div_pos; lia|]. apply Z.div_lt_upper_bound; [lia|]. change (2 ^ 112 * 2 ^ 16) with (2 ^ 128). lia. }
  pose proof (Hs 96 ltac:(lia)) as H1. pose proof (Hs 80 ltac:(lia)) as H2. pose proof (Hs 64 ltac:(lia)) as H3.
  pose proof (Hs 48 ltac:(lia)) as H4. pose proof (Hs 32 ltac:(lia)) as H5. pose proof (Hs 16 ltac:(lia)) as H6. pose proof (Hs 0 ltac:(lia)) as H7.
  change (96 + 16) with 112 in H1. change (80 + 16) with 96 in H2. change (64 + 16) with 80 in H3. change (48 + 16) with 64 in H4.
  change (32 + 16) with 48 in H5. change (16 + 16) with 32 in H6. change (0 + 16) with 16 in H7.
  rewrite H1, H2, H3, H4, H5, H6, H7. apply Z.div_1_r.
Qed.

(** ** Splitting IPv6 texts *)

Lemma split_on_app_sep {A} (p : A -> bool) k x l : p x = true -> split_on p (k ++ x :: l) = split_on p k ++ split_on p l.
Proof.
  intros Hx. induction k as [|y k IH]; cbn [split_on app]; [by rewrite Hx|]. rewrite IH. destruct (p y); [done|].
  destruct (split_on_cons p k) as (w & ws & ->). done.
Qed.

Lemma split_on_position {A} (p : A -> bool) l : split_on p l =
  match position p l with Some i => ztake i l :: split_on p (zdrop (i + 1) l) | None => [l] end.
Proof.
  destruct (position p l) as [i|] eqn:Hi.
  - apply position_some in Hi as (k & x & r & -> & -> & Hx & Hk). rewrite split_on_app by done.
    rewrite ztake_app_l, ztake_all by lia. rewrite zdrop_app_r by lia. by replace (len k + 1 - len k) with 1 by lia.
  - apply split_on_end. by apply position_none.
Qed.

Lemma splitn_split_on {A} (p : A -> bool) n : forall l, (length (split_on p l) <= n)%nat -> splitn n p l = split_on p l.
Proof.
  induction n as [|n IH]; intros l Hl.
  { destruct (split_on_cons p l) as (w & ws & He). rewrite He in Hl. cbn in Hl. lia. }
  rewrite split_on_position in Hl |- *. cbn [splitn]. destruct (position p l) as [i|].
  - cbn [length] in Hl. destruct n as [|n]; [|by rewrite IH by lia].
    destruct (split_on_cons p (zdrop (i + 1) l)) as (w & ws & He). rewrite He in Hl. cbn in Hl. lia.
  - by destruct n.
Qed.

(** The pieces of written groups: the groups, or one empty piece. *)
Lemma write_groups_pieces gs : Forall is_group gs ->
  PartText <$> split_on (is_byte COLON) (write_groups gs) = match gs with [] => [PartText []] | _ => texts gs end.
Proof.
  intros Hg. destruct gs as [|g gs]; [done|]. unfold write_groups, texts. rewrite split_join; [done|done|].
  apply Forall_fmap. apply (Forall_impl _ _ _ Hg). intros x Hx. unfold compose. apply (write_group_text x Hx). rewrite !elem_of_cons. auto.
Qed.

Lemma write_groups_bytes gs : Forall is_group gs ->
  Forall (fun b => (byte_val b <? 128) = true) (write_groups gs) /\ len (write_groups gs) <= 5 * len gs
  /\ forall c, c ∈ [SLASH; DOT; PERCENT] -> Forall (fun b => is_byte c b = false) (write_groups gs).
Proof.
  intros Hg. unfold write_groups. split_and!.
  - apply join_forall; [done|]. apply Forall_fmap. apply (Forall_impl _ _ _ Hg). intros x Hx. unfold compose. by destruct (write_group_text x Hx) as (_ & ? & _ & ? & _).
  - pose proof (join_len COLON (write_group <$> gs) 4 ltac:(lia)) as Hl. unfold len at 3 in Hl. rewrite length_fmap in Hl. apply Hl.
    apply Forall_fmap. apply (Forall_impl _ _ _ Hg). intros x Hx. unfold compose. by destruct (write_group_text x Hx) as (_ & ? & _ & ? & _).
  - intros c Hc. apply join_forall.
    + rewrite !elem_of_cons, elem_of_nil in Hc. by destruct Hc as [-> |[-> |[-> |[]]]].
    + apply Forall_fmap. apply (Forall_impl _ _ _ Hg). intros x Hx. apply (write_group_text x Hx). set_solver.
Qed.

Lemma texts_filled gs : Forall is_group gs -> Forall (fun part => part_is_empty part = false) (texts gs).
Proof.
  intros Hg. unfold texts. rewrite !Forall_fmap. apply (Forall_impl _ _ _ Hg). intros x Hx. unfold compose.
  destruct (write_group_text x Hx) as [Hn _]. unfold part_is_empty. by destruct (write_group x).
Qed.

Lemma find_skip_none parts : forall index skip, Forall (fun part => part_is_empty part = false) parts -> find_skip index skip parts = Some skip.
Proof. induction parts as [|part parts IH]; intros index skip Hp; cbn [find_skip]; [done|]. inv Hp. rewrite H1. by apply IH. Qed.

Lemma find_skip_one k l : forall index, Forall (fun part => part_is_empty part = false) k -> Forall (fun part => part_is_empty part = false) l ->
  find_skip index None (k ++ PartText [] :: l) = Some (Some (index + len k)).
Proof.
  induction k as [|part k IH]; intros index Hk Hl; cbn [find_skip app].
  - cbn [part_is_empty]. rewrite find_skip_none by done. by rewrite len_nil, Z.add_0_r.
  - inv Hk. rewrite H1, IH by done. rewrite len_cons. do 2 f_equal. lia.
Qed.

Lemma inner_parts {A} (x : A) m y : sub 1 (len (x :: m ++ [y]) - 1) (x :: m ++ [y]) = m.
Proof.
  unfold sub. rewrite len_cons, len_app. change (zdrop 1 (x :: m ++ [y])) with (m ++ [y]). change (len [y]) with 1.
  rewrite ztake_app_l by lia. apply ztake_all. lia.
Qed.

(** What the parser does with the parts of an ASCII text. *)
Lemma parse_ipv6_parts text parts :
  Forall (fun b => (byte_val b <? 128) = true) text -> text <> [] -> len text <= 45 ->
  PartText <$> split_on (is_byte COLON) text = parts -> 3 <= len parts <= 10 ->
  parse_ipv6 text
  = (parts ← embedded_parts parts;
     if Z.of_nat MAX_PARTS <? len parts then None
     else
       skip ← find_skip 1 None (sub 1 (len parts - 1) parts);
       '(high, low, skipped) ← layout parts skip;
       address ← push_groups 0 (ztake high parts);
       push_groups (if 16 * skipped <? 128 then Z.shiftl address (16 * skipped) mod 2 ^ 128 else 0) (zdrop (len parts - low) parts)).
Proof.
  intros Ha Hn Hl Hp Hc. unfold parse_ipv6. assert (He : is_empty text = false) by (by destruct text). rewrite He.
  destruct (Z.ltb_spec 45 (len text)); [lia|]. assert (Hf : forallb (fun b => byte_val b <? 128) text = true).
  { apply forallb_forall. intros b Hb. rewrite Forall_forall in Ha. by apply Ha, list_elem_of_In. }
  rewrite Hf. cbn [orb negb]. cbv zeta. rewrite splitn_split_on.
  - rewrite Hp. destruct (Z.ltb_spec (len parts) 3); [lia|done].
  - rewrite <- Hp in Hc. unfold len in Hc. rewrite length_fmap in Hc. unfold MAX_PARTS. lia.
Qed.

Lemma embedded_plain parts text : last parts = Some (PartText text) -> Forall (fun b => is_byte DOT b = false) text -> embedded_parts parts = Some parts.
Proof.
  intros Hl Ht. unfold embedded_parts. rewrite Hl. assert (He : existsb (is_byte DOT) text = false); [|by rewrite He].
  apply not_true_is_false. intros (b & Hb & Hd)%existsb_exists. rewrite Forall_forall in Ht. rewrite (Ht b) in Hd; [done|]. by apply list_elem_of_In.
Qed.

Lemma texts_len gs : len (texts gs) = len gs.
Proof. unfold len, texts. by rewrite !length_fmap. Qed.

Lemma texts_app k l : texts (k ++ l) = texts k ++ texts l.
Proof. unfold texts. by rewrite !fmap_app. Qed.

(** A written text's last part, without a dot. *)
Lemma texts_last gs g : Forall is_group gs -> last gs = Some g -> last (texts gs) = Some (PartText (write_group g)) /\ is_group g.
Proof.
  intros Hg Hl. unfold texts. rewrite !fmap_last, Hl. split; [done|]. apply last_Some in Hl as [k ->].
  apply Forall_app in Hg as [_ Hg]. by inv Hg.
Qed.

(** Eight groups. *)
Lemma parse_full gs : Forall is_group gs -> len gs = 8 -> value_from 0 gs < 2 ^ 128 -> parse_ipv6 (write_groups gs) = Some (value_from 0 gs).
Proof.
  intros Hg Hl Hv. destruct (write_groups_bytes gs Hg) as (Hb & Hw & _).
  rewrite (parse_ipv6_parts (write_groups gs) (texts gs)); [|done| |lia| |rewrite texts_len; lia].
  - destruct (last gs) as [g|] eqn:Hlast; [|apply last_None in Hlast; by subst gs].
    destruct (texts_last gs g Hg Hlast) as [Ht Hgg]. rewrite (embedded_plain _ _ Ht).
    2:{ apply (write_group_text g Hgg). rewrite !elem_of_cons. auto. }
    cbn [mbind option_bind]. rewrite texts_len, Hl. change (Z.of_nat MAX_PARTS <? 8) with false. cbv iota.
    pose proof (texts_filled gs Hg) as Hfill. rewrite find_skip_none by (by apply Forall_take, Forall_drop). cbn [mbind option_bind].
    unfold layout. rewrite texts_len, Hl, Ht. cbn [negb Z.eqb Pos.eqb orb].
    destruct (texts gs) as [|t ts] eqn:He; [by apply (f_equal len) in He; rewrite texts_len, Hl in He|].
    pose proof Hfill as [Ht1 Hts]%Forall_cons. rewrite Ht1. rewrite <- He in Hfill, Ht |- *. apply last_Some in Ht as [front Hfront].
    rewrite Hfront in Hfill. apply Forall_app in Hfill as [_ [Hpl _]%Forall_cons]. rewrite Hpl. cbn [orb mbind option_bind].
    rewrite ztake_all by (rewrite texts_len; lia). rewrite push_texts by (done || lia). cbn [mbind option_bind].
    change (16 * 0 <? 128) with true. cbv iota. rewrite Z.mul_0_r, Z.shiftl_0_r. pose proof (value_from_ge gs Hg 0 ltac:(lia)).
    rewrite Z.mod_small by lia. by rewrite zdrop_all by (rewrite texts_len; lia).
  - intros He. apply (f_equal (split_on (is_byte COLON))) in He. apply (f_equal (fmap PartText)) in He. rewrite write_groups_pieces in He by done.
    destruct gs as [|g [|g' gs]]; done.
  - rewrite write_groups_pieces by done. by destruct gs.
Qed.

(** The parts before and after a [::]. *)
Definition side (gs : list Z) : list Part := match gs with [] => [PartText []] | _ => texts gs end.

Lemma side_first gs : Forall is_group gs -> exists part parts, side gs = part :: parts
  /\ part_is_empty part = bool_decide (gs = []) /\ Forall (fun part => part_is_empty part = false) parts.
Proof.
  intros Hg. destruct gs as [|g gs]; [by exists (PartText []), []|]. pose proof (texts_filled _ Hg) as Hf.
  unfold side, texts in *. rewrite !fmap_cons in *. apply Forall_cons in Hf as [Hf Hfs]. eexists _, _. split; [done|]. by rewrite Hf.
Qed.

Lemma side_last gs : Forall is_group gs -> exists parts part, side gs = parts ++ [part]
  /\ part_is_empty part = bool_decide (gs = []) /\ Forall (fun part => part_is_empty part = false) parts
  /\ exists text, part = PartText text /\ Forall (fun b => is_byte DOT b = false) text.
Proof.
  intros Hg. destruct (last gs) as [g|] eqn:Hl.
  - destruct (texts_last gs g Hg Hl) as [Ht Hgg]. apply last_Some in Ht as [front Hfront]. pose proof (texts_filled _ Hg) as Hf.
    exists front, (PartText (write_group g)). rewrite Hfront in Hf. apply Forall_app in Hf as [Hff [Hfg _]%Forall_cons].
    split; [destruct gs; [done|exact Hfront]|]. rewrite Hfg. split; [destruct gs; done|]. split; [done|]. eexists. split; [done|].
    apply (write_group_text g Hgg). rewrite !elem_of_cons. auto.
  - apply last_None in Hl as ->. exists [], (PartText []). split_and!; [done|done|constructor|]. exists []. split; [done|constructor].
Qed.

Lemma side_len gs : len (side gs) = Z.max 1 (len gs).
Proof. destruct gs as [|g gs]; [done|]. unfold side. rewrite texts_len, len_cons. pose proof (len_nonneg gs). lia. Qed.

Lemma side_take gs rest : ztake (len gs) (side gs ++ rest) = texts gs.
Proof.
  destruct gs as [|g gs]; [done|]. unfold side. rewrite ztake_app_l by (rewrite texts_len; lia). apply ztake_all. rewrite texts_len. lia.
Qed.

Lemma side_drop gs front : zdrop (len (front ++ side gs) - len gs) (front ++ side gs) = texts gs.
Proof.
  rewrite len_app, side_len. destruct gs as [|g gs].
  - rewrite len_nil. rewrite zdrop_all; [done|]. rewrite len_app. change (len (side [])) with 1. lia.
  - rewrite zdrop_app_r by (rewrite len_cons; pose proof (len_nonneg gs); lia). rewrite zdrop_0; [done|].
    rewrite len_cons. pose proof (len_nonneg gs). lia.
Qed.

Lemma layout_sides hs ls : Forall is_group hs -> Forall is_group ls -> len hs + len ls <= 7 ->
  let parts := side hs ++ PartText [] :: side ls in
  find_skip 1 None (sub 1 (len parts - 1) parts) = Some (Some (len (side hs)))
  /\ layout parts (Some (len (side hs))) = Some (len hs, len ls, 8 - (len hs + len ls)).
Proof.
  intros Hh Hl Hs parts. destruct (side_first hs Hh) as (x & xs & Hx & Hxe & Hxs).
  destruct (side_last ls Hl) as (ys & y & Hy & Hye & Hys & _). pose proof (side_len hs) as Hsh. pose proof (side_len ls) as Hsl.
  pose proof (len_nonneg hs). pose proof (len_nonneg ls).
  assert (Hparts : parts = x :: (xs ++ PartText [] :: ys) ++ [y]).
  { unfold parts. rewrite Hx, Hy. cbn [app]. by rewrite <- app_assoc. }
  split.
  - rewrite Hparts, inner_parts, find_skip_one by done. by rewrite Hx, len_cons.
  - assert (Hc : len parts = len (side hs) + 1 + len (side ls)) by (unfold parts; rewrite len_app, len_cons; lia).
    unfold layout. rewrite Hc, Hparts, app_comm_cons, last_snoc, Hye. cbn [app]. cbv zeta iota. rewrite Hxe, Hsh, Hsl.
    assert (He : forall gs : list Z, 0 <= len gs -> gs <> [] -> 1 <= len gs).
    { intros [|g gs] ? ?; [done|]. rewrite len_cons. pose proof (len_nonneg gs). lia. }
    repeat case_bool_decide; subst; change (len (@nil Z)) with 0 in *; cbn [andb];
      repeat match goal with H : ?gs <> [] |- _ => apply (He gs) in H; [|done] end;
      repeat match goal with |- context [?a =? ?b] => destruct (Z.eqb_spec a b); [|lia] end; cbn [negb andb];
      repeat match goal with |- context [?a <=? ?b] => destruct (Z.leb_spec a b); [|lia] end; do 3 f_equal; lia.
Qed.

(** Groups around a [::]. *)
Lemma parse_compressed hs ls : Forall is_group hs -> Forall is_group ls -> len hs + len ls <= 7 ->
  value_from (value_from 0 hs * 2 ^ (16 * (8 - (len hs + len ls)))) ls < 2 ^ 128 ->
  parse_ipv6 (write_groups hs ++ bytes_of "::" ++ write_groups ls)
  = Some (value_from (value_from 0 hs * 2 ^ (16 * (8 - (len hs + len ls)))) ls).
Proof.
  intros Hh Hl Hs Hv. destruct (write_groups_bytes hs Hh) as (Hb & Hw & _). destruct (write_groups_bytes ls Hl) as (Kb & Kw & _).
  pose proof (side_len hs) as Hsh. pose proof (side_len ls) as Hsl. pose proof (len_nonneg hs). pose proof (len_nonneg ls).
  set (parts := side hs ++ PartText [] :: side ls).
  assert (Hc : len parts = len (side hs) + 1 + len (side ls)) by (unfold parts; rewrite len_app, len_cons; lia).
  rewrite (parse_ipv6_parts _ parts).
  - destruct (side_last ls Hl) as (ys & y & Hy & _ & _ & text & -> & Htext).
    rewrite (embedded_plain parts text); [|unfold parts; rewrite Hy, app_comm_cons, app_assoc; apply last_snoc|done].
    cbn [mbind option_bind]. destruct (Z.ltb_spec (Z.of_nat MAX_PARTS) (len parts)); [change (Z.of_nat MAX_PARTS) with 9 in *; lia|].
    destruct (layout_sides hs ls Hh Hl Hs) as [Hf Hlay]. fold parts in Hf, Hlay. rewrite Hf. cbn [mbind option_bind]. rewrite Hlay.
    cbn [mbind option_bind]. set (high := value_from 0 hs) in *. set (skipped := 8 - (len hs + len ls)) in *.
    assert (Hpow : 2 ^ 16 <= 2 ^ (16 * skipped)) by (apply Z.pow_le_mono_r; lia). assert (0 <= high) by (by apply value_from_ge).
    pose proof (value_from_ge ls Hl (high * 2 ^ (16 * skipped)) ltac:(lia)).
    assert (Htake : ztake (len hs) parts = texts hs) by apply side_take. rewrite Htake, push_texts; [|done|lia|fold high; nia]. cbn [mbind option_bind]. fold high.
    assert (Hshift : (if 16 * skipped <? 128 then Z.shiftl high (16 * skipped) mod 2 ^ 128 else 0) = high * 2 ^ (16 * skipped)).
    { destruct (Z.ltb_spec (16 * skipped) 128); [rewrite Z.shiftl_mul_pow2, Z.mod_small by lia; done|].
      assert (hs = []) as Hnil by (apply len_zero_iff; lia). unfold high. by rewrite Hnil. }
    rewrite Hshift. unfold parts. rewrite cons_middle, app_assoc, side_drop. by apply push_texts; [|lia|].
  - rewrite !Forall_app. split_and!; [done|by repeat constructor|done].
  - by destruct (write_groups hs).
  - rewrite !len_app. change (len (bytes_of "::")) with 2. lia.
  - change (bytes_of "::" ++ write_groups ls) with (COLON :: COLON :: write_groups ls). rewrite split_on_app_sep by done.
    change (split_on (is_byte COLON) (COLON :: write_groups ls)) with ([] :: split_on (is_byte COLON) (write_groups ls)).
    rewrite fmap_app, fmap_cons, !write_groups_pieces by done. done.
  - lia.
Qed.

(** The longest run of zero groups. *)
Lemma zero_run_spec gs : exists rest, gs = replicate (Z.to_nat (zero_run gs)) 0 ++ rest /\ 0 <= zero_run gs <= len gs.
Proof.
  induction gs as [|g gs (rest & IH & Hr)]; cbn [zero_run]; [by exists []|]. rewrite len_cons. destruct (Z.eqb_spec g 0) as [->|].
  - exists rest. split; [|lia]. rewrite Z2Nat.inj_add by lia. change (Z.to_nat 1) with 1%nat. cbn [Nat.add replicate app]. by rewrite <- IH.
  - exists (g :: gs). split; [done|]. pose proof (len_nonneg gs). lia.
Qed.

Lemma best_run_spec rounds : forall index best gs s l, (forall b bl, best = Some (b, bl) -> 2 <= bl) ->
  best_run rounds index best gs = Some (s, l) ->
  best = Some (s, l) \/ exists k m, gs = k ++ replicate (Z.to_nat l) 0 ++ m /\ s = index + len k /\ 2 <= l.
Proof.
  induction rounds as [|rounds IH]; intros index best gs s l Hbest; cbn [best_run]; [by left|]. destruct gs as [|g gs]; [by left|].
  destruct (Z.eqb_spec g 0) as [->|]; cbn [negb].
  2:{ intros H. apply IH in H as [?|(k & m & -> & -> & Hl)]; [by left|right|done]. exists (g :: k), m. rewrite len_cons. split_and!; [done|lia|done]. }
  set (length := zero_run (0 :: gs)). destruct (zero_run_spec (0 :: gs)) as (rest & Hrest & Hrun). fold length in Hrest, Hrun.
  assert (Hdrop : zdrop length (0 :: gs) = rest).
  { rewrite Hrest. rewrite zdrop_app_r by (rewrite len_replicate; lia). apply zdrop_0. rewrite len_replicate. lia. }
  rewrite Hdrop. clearbody length. set (longest := match best with Some (_, bl) => bl | None => 1 end).
  assert (Hlongest : 1 <= longest) by (unfold longest; destruct best as [[b bl]|]; [specialize (Hbest b bl eq_refl)|]; lia).
  intros H. apply IH in H as [H|(k & m & -> & -> & Hl)].
  - destruct (Z.ltb_spec longest length); [|by left]. right. assert (s = index /\ l = length) as [-> ->] by (split; congruence).
    exists [], rest. split_and!; [exact Hrest|rewrite len_nil; lia|lia].
  - right. exists (replicate (Z.to_nat length) 0 ++ k), m. rewrite Hrest, <- app_assoc. split_and!; [done| |done].
    rewrite len_app, len_replicate. lia.
  - intros b bl. destruct (Z.ltb_spec longest length); [|apply Hbest]. intros Hb. assert (bl = length) as -> by congruence. lia.
Qed.

(** An IPv4-mapped address. *)
Lemma parse_mapped a : 0 <= a < 2 ^ 32 -> parse_ipv6 (bytes_of "::ffff:" ++ display_ipv4 a) = Some (0xFFFF * 2 ^ 32 + a).
Proof.
  intros Ha. destruct (display_ipv4_ascii a) as [Hb Hl].
  rewrite (parse_ipv6_parts _ [PartText []; PartText []; PartText (bytes_of "ffff"); PartText (display_ipv4 a)]).
  - assert (Hd : existsb (is_byte DOT) (display_ipv4 a) = true).
    { apply existsb_exists. exists DOT. split; [|by apply bool_decide_eq_true]. unfold display_ipv4. cbn [fmap list_fmap]. rewrite join_cons.
      apply in_or_app. right. by left. }
    unfold embedded_parts. cbn [last]. rewrite Hd, parse_display_ipv4 by done. cbn [mbind option_bind removelast app].
    set (hi := Z.shiftr a 16 mod 2 ^ 16). set (lo := a mod 2 ^ 16).
    assert (Hhl : hi * 2 ^ 16 + lo = a /\ 0 <= hi < 2 ^ 16 /\ 0 <= lo < 2 ^ 16).
    { unfold hi, lo. rewrite Z.shiftr_div_pow2 by lia. pose proof (Z.mod_pos_bound a (2 ^ 16)). pose proof (Z.div_mod a (2 ^ 16)).
      rewrite Z.mod_small; [lia|]. split; [apply Z.div_pos; lia|apply Z.div_lt_upper_bound; lia]. }
    clearbody hi lo. destruct Hhl as (Hsum & Hhi & Hlo).
    assert (Hg : push_groups 0 [PartText (bytes_of "ffff"); PartGroup hi; PartGroup lo] = Some (0xFFFF * 2 ^ 32 + a)).
    { cbn [push_groups]. change (part_value (PartText (bytes_of "ffff"))) with (Some 0xFFFF). cbn [mbind option_bind part_value].
      rewrite (lor_shift 16 128 0) by lia. rewrite (lor_shift 16 128 (0 * 2 ^ 16 + 0xFFFF) hi) by lia. rewrite (lor_shift 16 128 _ lo) by lia. f_equal. lia. }
    exact Hg.
  - apply Forall_app. split; [by repeat constructor|done].
  - done.
  - rewrite len_app. change (len (bytes_of "::ffff:")) with 7. lia.
  - change (bytes_of "::ffff:" ++ display_ipv4 a) with (COLON :: COLON :: bytes_of "ffff" ++ COLON :: display_ipv4 a).
    change (split_on (is_byte COLON) (COLON :: COLON :: ?l)) with ([] :: [] :: split_on (is_byte COLON) l).
    rewrite split_on_app_sep by done. rewrite (split_on_end _ (display_ipv4 a)) by (apply display_ipv4_clean; set_solver). done.
  - done.
Qed.

Lemma parse_write_ipv6 a : 0 <= a < 2 ^ 128 -> parse_ipv6 (write_ipv6 a) = Some a.
Proof.
  intros Ha. unfold write_ipv6. destruct (Z.eqb_spec (Z.shiftr a 32) 0xFFFF) as [Hm|Hm].
  { rewrite Z.shiftr_div_pow2 in Hm by lia. pose proof (Z.div_mod a (2 ^ 32)). rewrite parse_mapped by (apply Z.mod_pos_bound; lia). f_equal. lia. }
  cbv zeta. pose proof (groups_are_groups a) as Hg. pose proof (groups_value a Ha) as Hv. assert (Hlen : len (groups a) = 8) by done.
  set (gs := groups a) in *. clearbody gs. destruct (best_run 9 0 None gs) as [[s l]|] eqn:Hb.
  2:{ rewrite parse_full by (done || lia). by rewrite Hv. }
  apply best_run_spec in Hb as [Hb|(k & m & Hgs & Hs & Hl)]; [done| |done]. rewrite Z.add_0_l in Hs.
  assert (Htake : ztake s gs = k) by (subst; rewrite ztake_app_l by lia; apply ztake_all; lia).
  assert (Hdrop : zdrop (s + l) gs = m).
  { subst. rewrite zdrop_app_r by lia. rewrite zdrop_app_r by (rewrite len_replicate; lia). apply zdrop_0. rewrite len_replicate. lia. }
  rewrite Htake, Hdrop. rewrite Hgs in Hg, Hv, Hlen. rewrite !len_app, len_replicate in Hlen. apply Forall_app in Hg as [Hk [_ Hm']%Forall_app].
  rewrite !value_from_app, value_from_zeros in Hv.
  assert (He : value_from (value_from 0 k * 2 ^ (16 * (8 - (len k + len m)))) m = a).
  { rewrite <- Hv. do 4 f_equal. lia. }
  rewrite parse_compressed by (done || lia). by rewrite He.
Qed.

(** ** Texts of networks *)

Lemma write_ipv6_clean c a : c ∈ [SLASH; PERCENT] -> Forall (fun b => is_byte c b = false) (write_ipv6 a).
Proof.
  intros Hc. assert (Hlit : forall s, s = bytes_of "::" \/ s = bytes_of "::ffff:" -> Forall (fun b => is_byte c b = false) s).
  { rewrite !elem_of_cons, elem_of_nil in Hc. destruct Hc as [-> |[-> |[]]]; intros s [-> | ->]; by repeat constructor. }
  assert (Hgs : forall gs, Forall is_group gs -> Forall (fun b => is_byte c b = false) (write_groups gs)).
  { intros gs Hg. apply (write_groups_bytes gs Hg). set_solver. }
  unfold write_ipv6. destruct (_ =? 0xFFFF).
  - apply Forall_app. split; [auto|]. apply display_ipv4_clean. set_solver.
  - cbv zeta. pose proof (groups_are_groups a) as Hg. destruct (best_run _ _ _ _) as [[s l]|]; [|by apply Hgs].
    rewrite !Forall_app. split_and!; [apply Hgs; by apply Forall_take|auto|apply Hgs; by apply Forall_drop].
Qed.

Lemma split_on_forall {A} (p : A -> bool) (Q : A -> Prop) l : Forall (Forall Q) (split_on p l) -> Forall (fun x => p x = true \/ Q x) l.
Proof.
  induction l as [|x l IH]; cbn [split_on]; [constructor|]. destruct (p x) eqn:Hx.
  - intros [_ H]%Forall_cons. constructor; [by left|by apply IH].
  - destruct (split_on_cons p l) as (w & ws & He). rewrite He in IH |- *. intros [[Hq Hw]%Forall_cons Hws]%Forall_cons.
    constructor; [by right|]. apply IH. by constructor.
Qed.

Lemma parse_octets_digits rounds : forall a octets r, parse_octets rounds a octets = Some r ->
  Forall (Forall (fun b => is_ascii_digit b = true)) octets.
Proof.
  induction rounds as [|rounds IH]; intros a [|octet octets] r; cbn [parse_octets]; try done.
  destruct (forallb is_ascii_digit octet) eqn:Hf; [|by rewrite andb_false_r].
  destruct (negb _); [done|]. destruct (255 <? _); [done|]. intros H. constructor; [by apply forallb_digits|by apply (IH _ _ _ H)].
Qed.

(** No text is both an IPv4 and an IPv6 address. *)
Lemma ipv6_not_ipv4 text a : parse_ipv6 text = Some a -> parse_ipv4 text = None.
Proof.
  intros H6. destruct (parse_ipv4 text) as [r|] eqn:H4; [|done]. exfalso. unfold parse_ipv4 in H4.
  apply parse_octets_digits, split_on_forall in H4.
  assert (Hn : position (is_byte COLON) text = None).
  { apply position_none. apply (Forall_impl _ _ _ H4). intros b Hb. apply bool_decide_eq_false. intros ->. by destruct Hb as [Hb|Hb]. }
  unfold parse_ipv6 in H6. destruct (_ || _ || _); [done|]. cbn [splitn MAX_PARTS Nat.add] in H6. by rewrite Hn in H6.
Qed.

Lemma prefix_display p maximum : 0 <= p <= maximum -> maximum <= 128 -> prefix_from_prefix_string (dec p) maximum = Some p.
Proof.
  intros Hp Hm. assert (Hl : len (dec p) <= 3) by (apply digits_len; [lia|lia|change (10 ^ 3) with 1000; lia]).
  assert (Hd : forallb is_ascii_digit (dec p) = true) by (apply forallb_digits, octet_digits; lia).
  assert (He : is_empty (dec p) = false) by (pose proof (digits_nonempty 10 20 p ltac:(lia)); unfold dec; by destruct (digits 20 10 p)).
  unfold prefix_from_prefix_string. rewrite He, Hd. destruct (Z.ltb_spec MAX_INT_DIGITS (len (dec p))); [unfold MAX_INT_DIGITS in *; lia|].
  cbn [orb negb]. cbv zeta. destruct (Z.eq_dec p 0) as [->|Hn]; [change (skip_zeros (dec 0)) with (@nil byte); cbn; by destruct (Z.leb_spec 0 maximum); [|lia]|].
  assert (Hs : skip_zeros (dec p) = dec p).
  { destruct (digits_positive 10 20 ltac:(lia) p) as (b & rest & Hb & H48); [lia|lia|change (Z.of_nat 20) with 20; lia|].
    unfold dec. rewrite Hb. cbn [skip_zeros]. by destruct (Z.eqb_spec (byte_val b) 48). }
  rewrite Hs. destruct (Z.ltb_spec 3 (len (dec p))); [lia|]. unfold dec. rewrite digits_decimal by (change (Z.of_nat 20) with 20; lia).
  by destruct (Z.leb_spec p maximum); [|lia].
Qed.

Lemma split_netmask_display text p : 0 <= p -> Forall (fun b => is_byte SLASH b = false) text ->
  split_netmask (text ++ [SLASH] ++ dec p) = Some (text, Some (dec p)).
Proof.
  intros Hp Ht. unfold split_netmask. cbn [app]. rewrite split_on_app by done. rewrite split_on_end; [done|].
  apply digits_clean; [lia|done|set_solver].
Qed.

(** A network's text is read back as that network, in both families: dotted IPv4, IPv6 with the
    first longest run of zero groups compressed, and IPv4-mapped IPv6 addresses in dotted form. *)
Theorem network_text_roundtrip n : is_network n -> parse_interface (display_network n) = Ok n.
Proof.
  intros [Hp Ha Hd]. destruct n as [f a p]. cbn [Addresses.family address prefix] in *. unfold size_bits in Hd. cbn [Addresses.family prefix] in Hd.
  assert (Hnew : new_network f a p = mkNetwork f a p).
  { replace p with (bits f - (bits f - p)) by lia. apply new_network_aligned; [lia|done|done]. }
  unfold display_network. cbn [Addresses.family address prefix]. unfold parse_interface, parse_ipv4_interface, parse_ipv6_interface.
  destruct f; cbn [bits last_address] in *.
  - unfold U32_MAX in Ha. rewrite Z.mod_small by lia. rewrite split_netmask_display by (lia || (apply display_ipv4_clean; set_solver)).
    cbn [mbind option_bind]. rewrite parse_display_ipv4 by lia. cbn [mbind option_bind]. rewrite prefix_display by lia. cbn [mbind option_bind].
    by rewrite Hnew.
  - unfold U128_MAX in Ha. rewrite split_netmask_display by (lia || (apply write_ipv6_clean; set_solver)). cbn [mbind option_bind].
    pose proof (parse_write_ipv6 a ltac:(lia)) as Hw. rewrite (ipv6_not_ipv4 _ _ Hw). cbn [mbind option_bind].
    rewrite (proj2 (position_none _ _)) by (apply write_ipv6_clean; set_solver). cbn [mbind option_bind]. rewrite Hw. cbn [mbind option_bind].
    rewrite prefix_display by lia. cbn [mbind option_bind]. by rewrite Hnew.
Qed.

Lemma network_text_roundtrip_witness :
  is_network (mkNetwork V6 0x20010db8000000000000000000010000 112)
  /\ parse_interface (display_network (mkNetwork V6 0x20010db8000000000000000000010000 112))
     = Ok (mkNetwork V6 0x20010db8000000000000000000010000 112).
Proof.
  assert (Hn : is_network (mkNetwork V6 0x20010db8000000000000000000010000 112)).
  { constructor; cbn; [lia|unfold U128_MAX; lia|]. unfold size_bits. cbn. by exists 0x2001_0db8_0000_0000_0000_0000_0001. }
  split; [exact Hn|]. apply (network_text_roundtrip _ Hn).
Defined.
