(* ===== verification/EgressRules.v ===== *)
(** * Egress rules (src/nvx-rs/src/host/network/rule.rs, lowering.rs)

    The egress rules of a network posture, as a caller writes them, and their parsing into the rules
    that the lowering takes. The theorems say what each rule selects, and that the native rules of an
    action select what its rules select. *)

From stdpp Require Import sorting gmap.
From S2P Require Import Prelude Addresses Lowering LoweringFacts LoweringSweep AddressText.
#[local] Open Scope Z_scope.

Inductive Protocol : Type := ProtocolTcp | ProtocolUdp | ProtocolIcmp | ProtocolAny.

Record Destination := mkDestination {
  cidr : list byte;
  except : list (list byte);
}.

Definition new_destination (cidr : list byte) : Destination := mkDestination cidr [].

Record PortSelector := mkPortSelector {
  ps_protocol : Protocol;
  ps_port : option Z;
  ps_end_port : option Z;
}.

Record EgressRule := mkEgressRule {
  to : list Destination;
  ports : list PortSelector;
}.

(** [EgressRule::to], [on_port], [on_port_range] and [on_protocol]. *)
Definition rule_to (cidr : list byte) : EgressRule := mkEgressRule [new_destination cidr] [].
Definition on_port (self : EgressRule) (protocol : Protocol) (port : Z) : EgressRule :=
  mkEgressRule (to self) (ports self ++ [mkPortSelector protocol (Some port) None]).
Definition on_port_range (self : EgressRule) (protocol : Protocol) (port end_port : Z) : EgressRule :=
  mkEgressRule (to self) (ports self ++ [mkPortSelector protocol (Some port) (Some end_port)]).
Definition on_protocol (self : EgressRule) (protocol : Protocol) : EgressRule :=
  mkEgressRule (to self) (ports self ++ [mkPortSelector protocol None None]).

(** [lowering::network]. *)
Definition network (value : list byte) : lowering Network :=
  map_err (fun error => match error with Invalid => CidrInvalid | Scoped => CidrScoped end) (parse_interface value).

(** The loop over the destinations. *)
Fixpoint parse_destinations (to : list Destination) (parsed : list (Family * list Interval)) : lowering (list (Family * list Interval)) :=
  match to with
  | [] => Ok parsed
  | peer :: to =>
      parent ← network (cidr peer);
      d ← destination parent (network <$> except peer);
      parse_destinations to (parsed ++ [d])
  end.

Definition rule_protocol (p : Protocol) : RuleProtocol :=
  match p with ProtocolTcp => RuleTcp | ProtocolUdp => RuleUdp | ProtocolIcmp => RuleIcmp | ProtocolAny => RuleAny end.

(** The loop over the port selectors. *)
Fixpoint parse_ports (ports : list PortSelector) (parsed : list Selector) : lowering (list Selector) :=
  match ports with
  | [] => Ok parsed
  | port :: ports =>
      selectors ← port_selectors (rule_protocol (ps_protocol port)) (PortInteger <$> ps_port port) (PortInteger <$> ps_end_port port);
      parse_ports ports (parsed ++ selectors)
  end.

Definition parse_rule (rule : EgressRule) : lowering (list Rule) :=
  destinations ← (if is_empty (to rule) then Ok None
                  else parsed ← parse_destinations (to rule) []; Ok (Some (group_destinations parsed)));
  selectors ← (if is_empty (ports rule) then Ok None else parsed ← parse_ports (ports rule) []; Ok (Some parsed));
  Ok (combine destinations selectors).

(** [parse_rules]: the first failure, or the rules of each rule. *)
Fixpoint parse_rules (rules : list EgressRule) : lowering (list (list Rule)) :=
  match rules with
  | [] => Ok []
  | rule :: rules => parsed ← parse_rule rule; rest ← parse_rules rules; Ok (parsed :: rest)
  end.

(** The rules of one action in [openvmm_arguments]. *)
Definition action_rules (rules : list EgressRule) : lowering (list NativeRule) :=
  parsed ← parse_rules rules;
  lower (concat parsed).

Example action_example :
  action_rules [on_port (rule_to (bytes_of "10.0.0.0/8")) ProtocolTcp 443; mkEgressRule [mkDestination (bytes_of "192.0.2.0/30") [bytes_of "192.0.2.1"]] []]
  = Ok [(mkNetwork V4 0x0a000000 8, Some Tcp, Some (443, 443)); (mkNetwork V4 0xc0000200 32, None, None); (mkNetwork V4 0xc0000202 31, None, None)].
Proof. vm_compute. reflexivity. Qed.

(** ** What a rule selects *)

(** Traffic to an address of its family. *)
Definition in_family (t : Traffic) : Prop := 0 <= t_address t <= last_address (t_family t).

(** A destination selects the addresses of its network outside its exceptions. *)
Definition destination_selects (d : Destination) (t : Traffic) : Prop :=
  exists n, parse_interface (cidr d) = Ok n /\ Addresses.family n = t_family t /\ in_interval (t_address t) (interval n)
    /\ forall e m, e ∈ except d -> parse_interface e = Ok m -> ~ in_interval (t_address t) (interval m).

(** A port selector selects every port of its protocol, or a range; with a range, [any] is TCP and
    UDP. *)
Definition port_selects (s : PortSelector) (t : Traffic) : Prop :=
  match ps_port s with
  | None => match native (rule_protocol (ps_protocol s)) with None => True | Some p => t_protocol t = Some p end
  | Some p => (exists q, q ∈ port_protocols (rule_protocol (ps_protocol s)) /\ t_protocol t = Some q)
              /\ p <= t_port t <= default p (ps_end_port s)
  end.

Definition egress_selects (rule : EgressRule) (t : Traffic) : Prop :=
  (to rule = [] \/ exists d, d ∈ to rule /\ destination_selects d t) /\ (ports rule = [] \/ exists s, s ∈ ports rule /\ port_selects s t).

(** The rules that the parser accepts. *)
Definition acceptable_destination (d : Destination) : Prop :=
  exists n, parse_interface (cidr d) = Ok n /\ forall e, e ∈ except d -> exists m, parse_interface e = Ok m /\ contains n m = true.
Definition acceptable_ports (s : PortSelector) : Prop :=
  match ps_port s with
  | None => ps_end_port s = None
  | Some p => ps_protocol s <> ProtocolIcmp /\ 1 <= p <= U16_MAX /\ forall e, ps_end_port s = Some e -> p <= e <= U16_MAX
  end.
Definition acceptable (rule : EgressRule) : Prop :=
  (forall d, d ∈ to rule -> acceptable_destination d) /\ (forall s, s ∈ ports rule -> acceptable_ports s).

(** ** Destinations *)

Lemma network_ok value n : network value = Ok n <-> parse_interface value = Ok n.
Proof. unfold network. apply map_err_ok. Qed.

Lemma network_valid value n : network value = Ok n -> is_network n.
Proof. intros H%network_ok. by apply (parsed_network value). Qed.

Definition exception_of (parent : Network) (value : list byte) (m : Network) : Prop := network value = Ok m /\ contains parent m = true.

Lemma excluded_ok parent values : forall index excluded all,
  excluded_from parent (network <$> values) index excluded = Ok all <->
  exists ms, Forall2 (exception_of parent) values ms /\ all = excluded ++ (interval <$> ms).
Proof.
  induction values as [|v values IH]; intros index excluded all.
  { cbn. split; [intros [= <-]; exists []; by rewrite app_nil_r|]. intros (ms & Hms & ->). inv Hms. by rewrite app_nil_r. }
  rewrite fmap_cons. cbn [excluded_from]. destruct (network v) as [m|e] eqn:Hv; cbn [mbind result_bind].
  2:{ split; [done|]. intros (ms & Hms & _). inv Hms. destruct H1. congruence. }
  destruct (contains parent m) eqn:Hm; cbn [negb].
  2:{ split; [done|]. intros (ms & Hms & _). inv Hms. destruct H1. congruence. }
  rewrite IH. split.
  - intros (ms & Hms & ->). exists (m :: ms). split; [by constructor|]. by rewrite fmap_cons, <- app_assoc.
  - intros (ms & Hms & ->). inv Hms. destruct H1 as [H1 _]. assert (y = m) as -> by congruence. eexists. split; [done|].
    by rewrite fmap_cons, <- app_assoc.
Qed.

Lemma contains_family n m : contains n m = true -> Addresses.family n = Addresses.family m.
Proof. unfold contains. destruct (interval n), (interval m). rewrite !andb_true_iff, bool_decide_eq_true. tauto. Qed.

(** The addresses of a destination. *)
Lemma destination_spec d n r : network (cidr d) = Ok n -> destination n (network <$> except d) = Ok r ->
  acceptable_destination d /\ addresses_of r.1 r.2
  /\ forall t, destination_selects d t <-> r.1 = t_family t /\ member (t_address t) r.2.
Proof.
  intros Hn Hd. pose proof (network_valid _ _ Hn) as Hnn. unfold destination in Hd.
  apply result_bind_ok in Hd as (all & (ms & Hms & ->)%excluded_ok & [= <-]). cbn [fst snd app].
  assert (Hms' : forall m, m ∈ ms -> exists e, e ∈ except d /\ exception_of n e m).
  { intros m (i & Hi)%list_elem_of_lookup. destruct (Forall2_lookup_r _ _ _ _ _ Hms Hi) as (e & He & Hem). exists e.
    split; [by eapply list_elem_of_lookup_2|done]. }
  assert (Hes : forall e, e ∈ except d -> exists m, m ∈ ms /\ exception_of n e m).
  { intros e (i & Hi)%list_elem_of_lookup. destruct (Forall2_lookup_l _ _ _ _ _ Hms Hi) as (m & Hm & Hem). exists m.
    split; [by eapply list_elem_of_lookup_2|done]. }
  set (f := Addresses.family n). destruct (merge_addresses f (interval <$> ms)) as [Hma Hmx].
  { intros i (m & -> & Hm)%list_elem_of_fmap. destruct (Hms' m Hm) as (e & _ & Hem & Hc). pose proof (network_valid _ _ Hem) as Hmm.
    unfold f. rewrite (contains_family n m Hc). by destruct (network_interval m Hmm) as (? & ? & _). }
  destruct (network_addresses f n Hnn eq_refl) as [Hpd Hpx]. destruct (subtract_spec _ _ Hpd (proj1 Hma)) as [Hsd Hsx].
  split_and!.
  - exists n. split; [by apply network_ok|]. intros e (m & _ & Hem & Hc)%Hes. exists m. split; [by apply network_ok|done].
  - split; [done|]. intros x [Hx _]%Hsx. by apply Hpx.
  - intros t. rewrite Hsx, Hmx, member_cons, member_nil. unfold destination_selects. split.
    + intros (n' & Hn' & Hf & Hx & He). apply network_ok in Hn'. assert (n' = n) as -> by congruence. split; [done|]. split; [by left|].
      intros (i & (m & -> & Hm)%list_elem_of_fmap & Hi). destruct (Hms' m Hm) as (e & Hin & Hem & _). apply network_ok in Hem. by apply (He e m).
    + intros (Hf & [Hx|[]] & Hnot). exists n. split; [by apply network_ok|]. do 2 (split; [done|]). intros e m Hin Hem Hi.
      destruct (Hes e Hin) as (m' & Hm' & Hem' & _). apply network_ok in Hem. assert (m' = m) as -> by congruence.
      apply Hnot. exists (interval m). split; [|done]. by apply list_elem_of_fmap_2.
Qed.

(** A destination that is acceptable is accepted. *)
Lemma destination_accepts d : acceptable_destination d -> exists n r, network (cidr d) = Ok n /\ destination n (network <$> except d) = Ok r.
Proof.
  intros (n & Hn & He). apply network_ok in Hn. exists n. unfold destination.
  assert (Hms : exists ms, Forall2 (exception_of n) (except d) ms).
  { induction (except d) as [|e es IH]; [by exists []|]. destruct IH as [ms IH]; [intros e' ?; apply He; by right|].
    destruct (He e) as (m & Hm & Hc); [by left|]. exists (m :: ms). constructor; [|done]. split; [by apply network_ok|done]. }
  destruct Hms as [ms Hms]. assert (Hex : excluded_from n (network <$> except d) 0 [] = Ok ([] ++ (interval <$> ms))) by (apply excluded_ok; eauto).
  rewrite Hex. cbn [mbind result_bind]. eauto.
Qed.

(** What the addresses of destinations select. *)
Definition selected_in (ds : list (Family * list Interval)) (t : Traffic) : Prop :=
  exists d, d ∈ ds /\ d.1 = t_family t /\ member (t_address t) d.2.
Definition families_ok (ds : list (Family * list Interval)) : Prop := forall d, d ∈ ds -> addresses_of d.1 d.2.

Lemma selected_in_app k l t : selected_in (k ++ l) t <-> selected_in k t \/ selected_in l t.
Proof. unfold selected_in. setoid_rewrite elem_of_app. naive_solver. Qed.

Lemma parse_destinations_spec to : forall parsed ds, families_ok parsed -> parse_destinations to parsed = Ok ds ->
  families_ok ds /\ (forall d, d ∈ to -> acceptable_destination d)
  /\ forall t, selected_in ds t <-> selected_in parsed t \/ exists d, d ∈ to /\ destination_selects d t.
Proof.
  induction to as [|peer to IH]; intros parsed ds Hp; cbn [parse_destinations].
  { intros [= <-]. split; [done|]. split; [intros d Hd; by apply elem_of_nil in Hd|]. intros t. setoid_rewrite elem_of_nil. naive_solver. }
  intros (n & Hn & (r & Hr & H)%result_bind_ok)%result_bind_ok. destruct (destination_spec peer n r Hn Hr) as (Ha & Hr' & Hsel).
  destruct (IH (parsed ++ [r]) ds) as (H1 & H2 & H3); [|done|].
  { intros d [Hd| ->%list_elem_of_singleton]%elem_of_app; [by apply Hp|done]. }
  split; [done|]. split; [intros d [-> |Hd]%elem_of_cons; auto|]. intros t. rewrite H3, selected_in_app. setoid_rewrite elem_of_cons.
  assert (Hone : selected_in [r] t <-> destination_selects peer t).
  { rewrite Hsel. unfold selected_in. setoid_rewrite list_elem_of_singleton. naive_solver. }
  rewrite Hone. naive_solver.
Qed.

Lemma parse_destinations_accepts to : (forall d, d ∈ to -> acceptable_destination d) -> forall parsed, is_ok (parse_destinations to parsed) = true.
Proof.
  induction to as [|peer to IH]; intros Ha parsed; [done|]. cbn [parse_destinations].
  destruct (destination_accepts peer) as (n & r & -> & Hr); [apply Ha; by left|]. cbn [mbind result_bind]. rewrite Hr. cbn [mbind result_bind].
  apply IH. intros d Hd. apply Ha. by right.
Qed.

Lemma of_one_family (ds : list (Family * list Interval)) f l : l ∈ snd <$> List.filter (fun d => bool_decide (d.1 = f)) ds <-> (f, l) ∈ ds.
Proof.
  rewrite list_elem_of_fmap. setoid_rewrite list_elem_of_In. setoid_rewrite filter_In. setoid_rewrite bool_decide_eq_true. split.
  - by intros ([g k] & -> & Hd & <-).
  - intros H. by exists (f, l).
Qed.

(** Grouping destinations by family changes nothing. *)
Lemma group_spec ds : families_ok ds -> families_ok (group_destinations ds) /\ forall t, selected_in (group_destinations ds) t <-> selected_in ds t.
Proof.
  intros Hd. unfold group_destinations.
  assert (Hm : forall f, addresses_of f (merge (concat (snd <$> List.filter (fun d => bool_decide (d.1 = f)) ds)))
    /\ forall x, member x (merge (concat (snd <$> List.filter (fun d => bool_decide (d.1 = f)) ds))) <-> exists l, (f, l) ∈ ds /\ member x l).
  { intros f. destruct (merge_concat_addresses f (snd <$> List.filter (fun d => bool_decide (d.1 = f)) ds)) as [Ha Hx].
    - intros l Hl%of_one_family. apply (Hd (f, l) Hl).
    - split; [done|]. intros x. rewrite Hx. by setoid_rewrite of_one_family. }
  split.
  - intros d (f & -> & _)%list_elem_of_fmap. apply Hm.
  - intros t. unfold selected_in. split.
    + intros (d & (f & -> & _)%list_elem_of_fmap & Hf & Hx). cbn [fst snd] in *. apply Hm in Hx as (l & Hl & Hx). by exists (f, l).
    + intros ([f l] & Hl & Hf & Hx). cbn [fst snd] in *. eexists (f, _). split; [apply list_elem_of_fmap; exists f; split; [done|]|split; [done|]].
      * apply list_elem_of_In, filter_In. split; [destruct f; cbn; auto|]. apply existsb_exists. exists (f, l).
        split; [by apply list_elem_of_In|by apply bool_decide_eq_true].
      * apply Hm. by exists l.
Qed.

(** ** Ports *)

Definition selector_selects (s : Selector) (t : Traffic) : Prop := (s.1 = None \/ s.1 = t_protocol t) /\ ports_select s.2 (t_port t).
Definition selector_ok (s : Selector) : Prop :=
  forall a b, s.2 = Some (a, b) -> (s.1 = Some Tcp \/ s.1 = Some Udp) /\ 1 <= a <= b /\ b <= U16_MAX.

Lemma port_ok i r : port (PortInteger i) = Ok r <-> r = i /\ 1 <= i <= U16_MAX.
Proof.
  unfold port. destruct (Z.leb_spec 0 i), (Z.leb_spec i U16_MAX), (Z.eqb_spec i 0); cbn [andb negb]; split;
    try (intros [= <-]; split; [done|lia]); try (intros [-> ?]; first [done|lia]); done.
Qed.

Lemma port_range_ok a e r : port_range (PortInteger a) (PortInteger <$> e) = Ok r <->
  r = (a, default a e) /\ 1 <= a <= U16_MAX /\ forall x, e = Some x -> a <= x <= U16_MAX.
Proof.
  unfold port_range. rewrite result_bind_ok. setoid_rewrite port_ok. setoid_rewrite result_bind_ok. split.
  - intros (? & [-> Ha] & b & Hb & H). destruct (Z.ltb_spec b a); [done|]. assert (r = (a, b)) as -> by congruence. destruct e as [e|]; cbn in Hb.
    + apply port_ok in Hb as [-> Hb]. split; [done|]. split; [done|]. intros x [= <-]. lia.
    + assert (b = a) as -> by congruence. done.
  - intros (-> & Ha & He). exists a. split; [done|]. exists (default a e). destruct e as [e|]; cbn.
    + specialize (He e eq_refl). split; [apply port_ok; split; [done|lia]|]. by destruct (Z.ltb_spec e a); [lia|].
    + split; [done|]. by destruct (Z.ltb_spec a a); [lia|].
Qed.

(** The selectors of a port selector, and when it has some. *)
Definition selectors_of (s : PortSelector) : lowering (list Selector) :=
  port_selectors (rule_protocol (ps_protocol s)) (PortInteger <$> ps_port s) (PortInteger <$> ps_end_port s).

Lemma selectors_of_spec s : (exists ss, selectors_of s = Ok ss) <-> acceptable_ports s.
Proof.
  destruct s as [p [a|] e]; unfold selectors_of, port_selectors, acceptable_ports; cbn [ps_port ps_end_port ps_protocol fmap option_fmap option_map].
  2:{ destruct e; cbn; split; [by intros [ss ?]|done|done|eauto]. }
  case_bool_decide as Hp.
  { split; [by intros [ss ?]|]. intros [Hn _]. by destruct p. }
  setoid_rewrite result_bind_ok. change (option_map PortInteger e) with (PortInteger <$> e). setoid_rewrite port_range_ok. split.
  - intros (ss & r & (_ & Ha & He) & _). split; [by intros ->|done].
  - intros (_ & Ha & He). eauto 10.
Qed.

Lemma selectors_of_select s ss : selectors_of s = Ok ss ->
  Forall selector_ok ss /\ forall t, (exists x, x ∈ ss /\ selector_selects x t) <-> port_selects s t.
Proof.
  destruct s as [p [a|] e]; unfold selectors_of, port_selectors, port_selects; cbn [ps_port ps_end_port ps_protocol fmap option_fmap option_map].
  2:{ destruct e; [done|]. intros [= <-]. split; [by repeat constructor|]. intros t. setoid_rewrite list_elem_of_singleton.
      unfold selector_selects. destruct p; cbn; naive_solver. }
  case_bool_decide as Hp; [done|]. intros (r & Hr & Hss)%result_bind_ok. change (option_map PortInteger e) with (PortInteger <$> e) in Hr.
  apply port_range_ok in Hr as (-> & Ha & He). assert (ss = (fun protocol => (Some protocol, Some (a, default a e))) <$> port_protocols (rule_protocol p)) as -> by (by apply ok_inj in Hss).
  assert (Hb : a <= default a e <= U16_MAX) by (destruct e as [e|]; cbn; [by apply He|lia]). split.
  - apply Forall_fmap, Forall_forall. intros q Hq x y [= <- <-]. split; [|lia].
    destruct p; cbn in Hq; rewrite ?elem_of_cons, ?elem_of_nil in Hq; naive_solver.
  - intros t. setoid_rewrite list_elem_of_fmap. unfold selector_selects. split.
    + intros (x & (q & -> & Hq) & [Hpr|Hpr] & Hports); [done|]. cbn [fst snd ports_select] in *. split; [by exists q|done].
    + intros ((q & Hq & Hpr) & Hports). exists (Some q, Some (a, default a e)). split; [by exists q|]. split; [by right|done].
Qed.

Lemma parse_ports_spec ss : forall parsed,
  (is_ok (parse_ports ss parsed) = true <-> forall s, s ∈ ss -> acceptable_ports s)
  /\ forall all, Forall selector_ok parsed -> parse_ports ss parsed = Ok all -> Forall selector_ok all
     /\ forall t, (exists x, x ∈ all /\ selector_selects x t) <->
                  (exists x, x ∈ parsed /\ selector_selects x t) \/ exists s, s ∈ ss /\ port_selects s t.
Proof.
  induction ss as [|s ss IH]; intros parsed; cbn [parse_ports].
  { split; [split; [intros _ s Hs; by apply elem_of_nil in Hs|done]|]. intros all Hp [= <-]. split; [done|]. intros t.
    setoid_rewrite elem_of_nil. naive_solver. }
  fold (selectors_of s). setoid_rewrite elem_of_cons. destruct (selectors_of s) as [new|e] eqn:Hs; cbn [mbind result_bind].
  2:{ split; [|done]. split; [done|]. intros Ha. destruct (proj2 (selectors_of_spec s)) as [ss' Hss]; [apply Ha; by left|congruence]. }
  assert (Hacc : acceptable_ports s) by (apply selectors_of_spec; eauto). destruct (selectors_of_select s new Hs) as [Hok Hsel].
  destruct (IH (parsed ++ new)) as [IH1 IH2]. split.
  - rewrite IH1. naive_solver.
  - intros all Hp Hall. destruct (IH2 all) as [H1 H2]; [by apply Forall_app|done|]. split; [done|]. intros t. rewrite H2.
    setoid_rewrite elem_of_app. specialize (Hsel t). naive_solver.
Qed.

(** ** Rules *)

Lemma combine_elem ds ss r : r ∈ combine ds ss <->
  exists d s, d ∈ match ds with Some ds => ds | None => (fun f => (f, [everything f])) <$> ALL end
    /\ s ∈ match ss with Some ss => ss | None => [(None, None)] end /\ r = mkRule d.1 d.2 s.1 s.2.
Proof.
  unfold combine. cbv zeta. rewrite list_elem_of_In, in_concat. setoid_rewrite <- list_elem_of_In. setoid_rewrite list_elem_of_fmap. split.
  - intros (l & (d & -> & Hd) & Hr). apply list_elem_of_fmap in Hr as (s & -> & Hs). by exists d, s.
  - intros (d & s & Hd & Hs & ->). eexists. split; [by exists d|]. apply list_elem_of_fmap. by exists s.
Qed.

Lemma everything_addresses f : addresses_of f [everything f] /\ forall x, member x [everything f] <-> 0 <= x <= last_address f.
Proof.
  split; [split|]; [|intros x [Hx|[]%member_nil]%member_cons; unfold in_interval in Hx; cbn in Hx; lia|].
  - apply disjoint_cons. split; [|split; [apply disjoint_nil|intros j Hj; by apply elem_of_nil in Hj]].
    unfold is_interval, everything. cbn [fst snd]. destruct f; cbn; unfold U32_MAX, U128_MAX; lia.
  - intros x. rewrite member_cons, member_nil. unfold in_interval, everything. cbn [fst snd]. tauto.
Qed.

(** The rules of destinations and selectors select what both select. *)
Lemma combine_spec ds ss :
  families_ok (match ds with Some ds => ds | None => (fun f => (f, [everything f])) <$> ALL end) ->
  Forall selector_ok (match ss with Some ss => ss | None => [(None, None)] end) ->
  (forall r, r ∈ combine ds ss -> is_rule r)
  /\ forall t, selected_by (combine ds ss) t <->
     selected_in (match ds with Some ds => ds | None => (fun f => (f, [everything f])) <$> ALL end) t
     /\ exists x, x ∈ match ss with Some ss => ss | None => [(None, None)] end /\ selector_selects x t.
Proof.
  intros Hd Hs. rewrite Forall_forall in Hs. split.
  - intros r (d & s & Hdi & Hsi & ->)%combine_elem. constructor; cbn [r_family r_addresses r_protocol r_ports]; [by apply Hd|].
    intros a b Hab. by apply (Hs s Hsi).
  - intros t. unfold selected_by, selected_in, selects, selector_selects. split.
    + intros (r & (d & s & Hdi & Hsi & ->)%combine_elem & Hf & Hx & Hp & Hq). cbn in *. split; [by exists d|by exists s].
    + intros ((d & Hdi & Hf & Hx) & s & Hsi & Hp & Hq). exists (mkRule d.1 d.2 s.1 s.2). split; [apply combine_elem; by exists d, s|done].
Qed.

Lemma everything_selected t : in_family t -> selected_in ((fun f => (f, [everything f])) <$> ALL) t.
Proof.
  intros Ht. exists (t_family t, [everything (t_family t)]). split; [apply (list_elem_of_fmap_2 (fun f => (f, [everything f])))|].
  - destruct (t_family t); unfold ALL; rewrite !elem_of_cons; auto.
  - split; [done|]. by apply everything_addresses.
Qed.

Lemma everything_ok : families_ok ((fun f => (f, [everything f])) <$> ALL).
Proof. intros d (f & -> & _)%list_elem_of_fmap. apply everything_addresses. Qed.

Lemma parse_to_spec rule :
  let parsed := if is_empty (to rule) then Ok None else parsed ← parse_destinations (to rule) []; Ok (Some (group_destinations parsed)) in
  (is_ok parsed = true <-> forall d, d ∈ to rule -> acceptable_destination d)
  /\ forall ds, parsed = Ok ds ->
     families_ok (match ds with Some ds => ds | None => (fun f => (f, [everything f])) <$> ALL end)
     /\ forall t, in_family t -> selected_in (match ds with Some ds => ds | None => (fun f => (f, [everything f])) <$> ALL end) t
        <-> to rule = [] \/ exists d, d ∈ to rule /\ destination_selects d t.
Proof.
  cbv zeta. destruct (to rule) as [|d0 l] eqn:He; cbn [is_empty].
  { split; [split; [intros _ d Hd; by apply elem_of_nil in Hd|done]|]. intros ds [= <-]. split; [apply everything_ok|].
    intros t Ht. split; [by left|]. intros _. by apply everything_selected. }
  rewrite <- He. assert (Hne : to rule <> []) by congruence. clear He d0 l.
  assert (Hnil : families_ok []) by (intros d Hd; by apply elem_of_nil in Hd).
  destruct (parse_destinations (to rule) []) as [ds|e] eqn:Hp; cbn [mbind result_bind].
  - destruct (parse_destinations_spec _ _ _ Hnil Hp) as (H1 & H2 & H3). destruct (group_spec ds H1) as [G1 G2]. split; [done|].
    intros ds' [= <-]. split; [done|]. intros t _. rewrite G2, H3. split; [intros [(d & Hd & _)|?]; [by apply elem_of_nil in Hd|by right]|].
    intros [?|?]; [done|by right].
  - split; [|done]. split; [done|]. intros Ha. pose proof (parse_destinations_accepts (to rule) Ha []) as Hok. by rewrite Hp in Hok.
Qed.

Lemma parse_selectors_spec rule :
  let parsed := if is_empty (ports rule) then Ok None else parsed ← parse_ports (ports rule) []; Ok (Some parsed) in
  (is_ok parsed = true <-> forall s, s ∈ ports rule -> acceptable_ports s)
  /\ forall ss, parsed = Ok ss ->
     Forall selector_ok (match ss with Some ss => ss | None => [(None, None)] end)
     /\ forall t, (exists x, x ∈ match ss with Some ss => ss | None => [(None, None)] end /\ selector_selects x t)
        <-> ports rule = [] \/ exists s, s ∈ ports rule /\ port_selects s t.
Proof.
  cbv zeta. destruct (ports rule) as [|s0 l] eqn:He; cbn [is_empty].
  { split; [split; [intros _ s Hs; by apply elem_of_nil in Hs|done]|]. intros ss [= <-]. split; [by repeat constructor|].
    intros t. split; [by left|]. intros _. exists (None, None). split; [by left|]. split; [by left|done]. }
  rewrite <- He. assert (Hne : ports rule <> []) by congruence. clear He s0 l.
  destruct (parse_ports_spec (ports rule) []) as [H1 H2]. rewrite <- H1.
  destruct (parse_ports (ports rule) []) as [ss|e]; cbn [mbind result_bind]; [|done]. split; [done|]. intros ss' [= <-].
  destruct (H2 ss) as [H3 H4]; [constructor|done|]. split; [done|]. intros t. rewrite H4.
  split; [intros [(x & Hx & _)|?]; [by apply elem_of_nil in Hx|by right]|]. intros [?|?]; [done|by right].
Qed.

(** An egress rule is accepted exactly when its networks are valid, each exception lies within its
    network, and its ports are from 1 through 65535, in order, and not of ICMP. The rules that it
    becomes are well formed, and select exactly what the rule says. *)
Lemma parse_rule_spec rule : (is_ok (parse_rule rule) = true <-> acceptable rule)
  /\ forall rs, parse_rule rule = Ok rs ->
     (forall r, r ∈ rs -> is_rule r) /\ forall t, in_family t -> selected_by rs t <-> egress_selects rule t.
Proof.
  destruct (parse_to_spec rule) as [T1 T2], (parse_selectors_spec rule) as [P1 P2]. cbv zeta in T1, T2, P1, P2. unfold parse_rule, acceptable.
  destruct (if is_empty (to rule) then _ else _) as [ds|e]; cbn [mbind result_bind]; [|split; [|done]; split; [done|]; intros [? _]; by apply T1].
  destruct (if is_empty (ports rule) then _ else _) as [ss|e]; cbn [mbind result_bind]; [|split; [|done]; split; [done|]; intros [_ ?]; by apply P1].
  split; [split; [intros _; split; [by apply T1|by apply P1]|done]|]. intros rs Hrs. assert (rs = combine ds ss) as -> by congruence.
  destruct (T2 ds eq_refl) as [T3 T4], (P2 ss eq_refl) as [P3 P4]. destruct (combine_spec ds ss T3 P3) as [C1 C2]. split; [done|].
  intros t Ht. rewrite C2, T4, P4 by done. done.
Qed.

(** ** An action's rules, from their text to OpenVMM's *)

Lemma parse_rules_spec rules : (is_ok (parse_rules rules) = true <-> forall rule, rule ∈ rules -> acceptable rule)
  /\ forall parsed, parse_rules rules = Ok parsed ->
     (forall r, r ∈ concat parsed -> is_rule r)
     /\ forall t, in_family t -> selected_by (concat parsed) t <-> exists rule, rule ∈ rules /\ egress_selects rule t.
Proof.
  induction rules as [|rule rules [IH1 IH2]]; cbn [parse_rules].
  { split; [split; [intros _ r Hr; by apply elem_of_nil in Hr|done]|]. intros parsed [= <-]. cbn [concat].
    split; [intros r Hr; by apply elem_of_nil in Hr|]. intros t _. unfold selected_by. setoid_rewrite elem_of_nil. naive_solver. }
  destruct (parse_rule_spec rule) as [R1 R2]. setoid_rewrite elem_of_cons. destruct (parse_rule rule) as [rs|e]; cbn [mbind result_bind].
  2:{ split; [|done]. split; [done|]. intros Ha. apply R1, Ha. by left. }
  destruct (parse_rules rules) as [parsed|e]; cbn [mbind result_bind].
  2:{ split; [|done]. split; [done|]. intros Ha. apply IH1. auto. }
  split; [split; [|done]|].
  - intros _ r [-> |Hr]; [by apply R1|by apply IH1].
  - intros all Hall. assert (all = rs :: parsed) as -> by congruence. cbn [concat]. destruct (R2 rs eq_refl) as [R3 R4], (IH2 parsed eq_refl) as [H3 H4].
    split; [intros r [Hr|Hr]%elem_of_app; auto|]. intros t Ht. specialize (R4 t Ht). specialize (H4 t Ht). unfold selected_by in *.
    setoid_rewrite elem_of_app. naive_solver.
Qed.

(** C18: What an action's egress rules become at OpenVMM: its native rules select a packet exactly when
    one of the rules as the caller wrote them does, for every address of both families, protocol and
    port; there are at most 256 of them. The action fails exactly when a rule is not acceptable or the
    native rules would be more. *)
Theorem action_exact rules :
  (forall natives, action_rules rules = Ok natives ->
     len natives <= MAX_RULES_PER_ACTION
     /\ forall t, in_family t -> native_selected natives t <-> exists rule, rule ∈ rules /\ egress_selects rule t)
  /\ ((forall rule, rule ∈ rules -> acceptable rule) -> is_ok (action_rules rules) = true \/ action_rules rules = Err TooManyRules)
  /\ (is_ok (action_rules rules) = true -> forall rule, rule ∈ rules -> acceptable rule).
Proof.
  destruct (parse_rules_spec rules) as [P1 P2]. unfold action_rules, lower. rewrite <- P1. clear P1.
  destruct (parse_rules rules) as [parsed|e]; cbn [mbind result_bind is_ok]; [|done].
  destruct (P2 parsed eq_refl) as [Hr Hsel]. rewrite lower_within_spec by done.
  pose proof (merge_sort_Permutation (key_le native_key) (lower_all (concat parsed))) as Hp.
  destruct (Z.leb_spec (len (lower_all (concat parsed))) MAX_RULES_PER_ACTION) as [Hl|Hl]; [|by split_and!; [|right|]].
  split_and!; [|by left|done]. intros natives Hn. assert (natives = merge_sort (key_le native_key) (lower_all (concat parsed))) as -> by congruence.
  split; [unfold len; by rewrite (Permutation_length Hp)|]. intros t Ht. rewrite <- Hsel by done.
  rewrite (native_selected_perm _ _ t Hp). by apply lower_all_spec.
Qed.

Definition example_action : list EgressRule :=
  [on_port (rule_to (bytes_of "10.0.0.0/8")) ProtocolTcp 443; mkEgressRule [mkDestination (bytes_of "192.0.2.0/30") [bytes_of "192.0.2.1"]] []].

Lemma action_exact_witness :
  exists natives, action_rules example_action = Ok natives /\ len natives = 3
  /\ forall t, in_family t -> native_selected natives t <-> exists rule, rule ∈ example_action /\ egress_selects rule t.
Proof.
  exists [(mkNetwork V4 0x0a000000 8, Some Tcp, Some (443, 443)); (mkNetwork V4 0xc0000200 32, None, None); (mkNetwork V4 0xc0000202 31, None, None)].
  assert (He : action_rules example_action = Ok [(mkNetwork V4 0x0a000000 8, Some Tcp, Some (443, 443));
    (mkNetwork V4 0xc0000200 32, None, None); (mkNetwork V4 0xc0000202 31, None, None)]) by (vm_compute; reflexivity).
  split; [exact He|]. split; [reflexivity|]. apply (proj1 (action_exact example_action)). exact He.
Defined.
