(* ===== verification/MappingTable.v ===== *)
(** * The host mapping table of a guest agent (src/nvx-rs/src/guest/mappings.rs, mappings/table.rs)

    Mappings, whose paths stay below their roots, and the table through which an agent applies the
    parts that the host sends: it checks each part whole, has the root of the caller's choice map
    the part's entries, and latches at the first failure. The root is an argument, an interface
    [MappingRoot] with the contract that the documentation of [apply] states. Paths are their bytes. *)

From S2P Require Import Prelude Maps Export.

(** [sys::PATH_MAX - 1]. *)
Definition MAX_PATH_BYTES : Z := 4096 - 1.

Inductive Access : Type := ReadOnly | ReadWrite.

Inductive Kind : Type := Directory | File.

Inductive InvalidMapping : Type := SourceInvalid | TargetInvalid.

Record Mapping := mkMapping {
  mapping_source : list byte;
  mapping_target : list byte;
  access : Access;
  kind : option Kind;
}.

#[export] Instance Mapping_eta : Eta Mapping := fun m =>
  mkMapping (mapping_source m) (mapping_target m) (access m) (kind m).

(** [matches!(component, b"" | b"." | b"..")], negated. *)
Definition plain_component (component : list byte) : bool :=
  match map byte_val component with
  | [] | [46] | [46; 46] => false
  | _ => true
  end.

Definition below_its_root (path : list byte) (absolute : bool) : option (list byte) :=
  components ← (if absolute then strip_prefix (bytes_of "/") path else Some path);
  if (len path <=? MAX_PATH_BYTES) && negb (has_nul path)
     && negb (bool_decide (components = []))
     && forallb plain_component (split_on (fun b => byte_val b =? 47) components)
  then Some components else None.

Definition new_mapping (source target : list byte) (access : Access) : result InvalidMapping Mapping :=
  if negb (bool_decide (source = [])) && bool_decide (below_its_root source false = None)
  then Err SourceInvalid
  else
    target ← ok_or (below_its_root target true) TargetInvalid;
    Ok (mkMapping source target access None).

Definition with_kind (self : Mapping) (k : Kind) : Mapping := self <| kind := Some k |>.

(** ** The table *)

Record MappingTable := mkMappingTable {
  expected : Z;
  applied : Z;
  latched : bool;
}.

#[export] Instance MappingTable_eta : Eta MappingTable := fun t =>
  mkMappingTable (expected t) (applied t) (latched t).

Inductive Refusal : Type :=
| Latched
| Malformed (error : ProtocolError)
| Empty
| Order (first expected : Z)
| Excess (end_ announced : Z)
| ExportRoot (entry : Z)
| MappingRefused (entry : Z) (error : InvalidMapping).

Inductive TableError (E : Type) : Type :=
| Refused (entry : Z) (refusal : Refusal)
| Failed (entry : Z) (error : E).
Arguments Refused {E} entry refusal.
Arguments Failed {E} entry error.

Definition error_entry {E} (self : TableError E) : Z :=
  match self with Refused entry _ | Failed entry _ => entry end.

(** [as u32], and [+] of [u32], which wraps; [table_reached] shows that neither ever does. *)
Definition as_u32 (z : Z) : Z := z mod 2 ^ 32.
Definition add_u32 (a b : Z) : Z := (a + b) mod 2 ^ 32.

Definition new (expected : Z) : option MappingTable :=
  if expected <=? Maps.MAX_HOST_MAPPINGS then Some (mkMappingTable expected 0 false) else None.

Definition announced (command_line : list byte) : result CountFailure MappingTable :=
  expected ← parse_host_mapping_count command_line;
  Ok (mkMappingTable expected 0 false).

Definition is_complete (self : MappingTable) : bool := negb (latched self) && (applied self =? expected self).

Definition latch (self : MappingTable) : MappingTable := self <| latched := true |>.

(** [mapping], of the table's entry [entry]. *)
Definition entry_mapping (entry : Z) (map : HostMap) : result Refusal Mapping :=
  if bool_decide (source map = []) then Err (ExportRoot entry)
  else map_err (MappingRefused entry)
         (new_mapping (source map) (target map) (if read_only map then ReadOnly else ReadWrite)).

(** The entries with their indices, [(entry..).zip(maps).map(mapping).collect()]: the first error
    ends the collection. The index is the iterator's [u32]. *)
Fixpoint collect_mappings (entry : Z) (maps : list HostMap) : result Refusal (list Mapping) :=
  match maps with
  | [] => Ok []
  | map :: maps =>
      mapping ← entry_mapping entry map;
      rest ← collect_mappings (add_u32 entry 1) maps;
      Ok (mapping :: rest)
  end.

Definition check (self : MappingTable) (part : list byte) : result Refusal (list Mapping) :=
  if latched self then Err Latched
  else
    part ← map_err Malformed (decode_guest_maps_payload part);
    if bool_decide (maps part = []) then Err Empty
    else if negb (first part =? applied self) then Err (Order (first part) (applied self))
    else
      let end_ := add_u32 (applied self) (as_u32 (len (maps part))) in
      if expected self <? end_ then Err (Excess end_ (expected self))
      else collect_mappings (applied self) (maps part).

Section Apply.
Context {R E : Type}.
(** The closure [map], which changes the root that it captures. *)
Variable map : R -> list Mapping -> R * result (Z * E) unit.

Definition apply (self : MappingTable) (root : R) (part : list byte)
    : MappingTable * R * result (TableError E) unit :=
  match check self part with
  | Err refusal => (self, root, Err (Refused (applied self) refusal))
  | Ok mappings =>
      let '(root, mapped) := map root mappings in
      match mapped with
      | Ok _ => (self <| applied := add_u32 (applied self) (as_u32 (len mappings)) |>, root, Ok tt)
      | Err (index, error) =>
          let self := self <| applied := add_u32 (applied self) (as_u32 (Z.min index (len mappings))) |>
                           <| latched := true |> in
          (self, root, Err (Failed (applied self) error))
      end
  end.

(** The agent's uses of its table: the parts that arrive, and a latch of its own. *)
Inductive TableEvent : Type := Part (part : list byte) | Latch.

Definition table_step (state : MappingTable * R) (event : TableEvent) : MappingTable * R :=
  match event with
  | Part part => (apply (state.1) (state.2) part).1
  | Latch => (latch (state.1), state.2)
  end.

Definition table_run (state : MappingTable * R) (events : list TableEvent) : MappingTable * R :=
  foldl table_step state events.
End Apply.

(** ** Paths below their roots *)

Lemma plain_component_normal c : plain_component c = normal_component c.
Proof.
  assert (Hd : forall b, byte_val b = 46 -> b = byte_of 46) by (intros b H; apply byte_val_inj; by rewrite H).
  unfold plain_component, normal_component. destruct c as [|a [|b [|d c]]]; cbn [map].
  - by rewrite bool_decide_true by auto.
  - destruct (Z.eq_dec (byte_val a) 46) as [E|E].
    + rewrite E, (Hd a E). by rewrite bool_decide_true by auto.
    + rewrite bool_decide_false by (intros [?|[[= ->]|?]]; done). cbn [negb]. by split_matches.
  - destruct (Z.eq_dec (byte_val a) 46) as [E|E], (Z.eq_dec (byte_val b) 46) as [F|F].
    + rewrite E, F, (Hd a E), (Hd b F). by rewrite bool_decide_true by auto.
    + rewrite bool_decide_false by (intros [?|[?|[= -> ->]]]; done). by split_matches.
    + rewrite bool_decide_false by (intros [?|[?|[= -> ->]]]; done). by split_matches.
    + rewrite bool_decide_false by (intros [?|[?|[= -> ->]]]; done). by split_matches.
  - rewrite bool_decide_false by (intros [?|[?|?]]; done). by split_matches.
Qed.

(** A path below a root, as the decoder of the MAPS payloads sees one. *)
Definition short_path (path : list byte) : bool := (len path <=? MAX_MAP_PATH_BYTES) && negb (has_nul path).

Lemma below_its_root_normal (path components : list byte) (absolute : bool) :
  (if absolute then strip_prefix (bytes_of "/") path else Some path) = Some components ->
  below_its_root path absolute = if short_path path && normal components then Some components else None.
Proof.
  intros H. unfold below_its_root. rewrite H. cbn [mbind option_bind]. unfold normal, short_path.
  assert (Hf : forall l, forallb plain_component l = forallb normal_component l).
  { intros l. induction l as [|c l IH]; [done|]. cbn [forallb]. by rewrite plain_component_normal, IH. }
  rewrite Hf. change MAX_PATH_BYTES with MAX_MAP_PATH_BYTES. by rewrite <- !andb_assoc.
Qed.

Lemma source_below source : below_its_root source false = if short_path source && normal source then Some source else None.
Proof. by apply below_its_root_normal. Qed.

Lemma target_below target :
  below_its_root target true
  = match target with
    | b :: rest => if short_path target && ((byte_val b =? 47) && normal rest) then Some rest else None
    | [] => None
    end.
Proof.
  destruct target as [|b rest]; [done|].
  destruct (Z.eqb_spec (byte_val b) 47) as [Hb|Hb].
  - assert (b = byte_of 47) as -> by (apply byte_val_inj; by rewrite Hb). by apply below_its_root_normal.
  - rewrite andb_false_r. unfold below_its_root. cbn [bytes_of]. cbn.
    destruct (decide _) as [<-|]; [done|]. by destruct rest.
Qed.

(** The mapping of an entry whose paths the decoder accepts. *)
Definition mapping_of (map : HostMap) : Mapping :=
  mkMapping (source map) (tail (target map)) (if read_only map then ReadOnly else ReadWrite) None.

(** [Mapping::new] takes exactly the paths that the decoder of the MAPS payloads takes. *)
Lemma new_mapping_acceptable source target access :
  new_mapping source target access
  = if acceptable source target then Ok (mkMapping source (tail target) access None)
    else Err (if bool_decide (source = []) || (short_path source && normal source) then TargetInvalid else SourceInvalid).
Proof.
  unfold new_mapping. rewrite source_below, target_below. unfold acceptable. cbn [forallb]. rewrite andb_true_r.
  fold (short_path source) (short_path target).
  assert (Hs : bool_decide ((if short_path source && normal source then Some source else None) = None)
               = negb (short_path source && normal source)) by (by destruct (_ && _)).
  rewrite Hs. destruct (bool_decide_reflect (source = [])) as [->|Hne].
  - cbn [negb andb orb]. change (short_path []) with true. destruct target as [|b rest]; [by rewrite andb_false_r|].
    cbn [tail andb]. rewrite !andb_true_r. by destruct (short_path (b :: rest)), (byte_val b =? 47), (normal rest).
  - cbn [negb andb orb]. destruct (short_path source), (normal source); cbn [negb andb]; try done.
    + destruct target as [|b rest]; [by rewrite andb_false_r|]. rewrite andb_true_r.
      by destruct (short_path (b :: rest)), (byte_val b =? 47), (normal rest).
    + by rewrite andb_false_r.
Qed.

(** ** What a part that the table takes holds *)

Lemma decode_entries_acceptable path rounds payload offset maps last :
  decode_entries_loop path rounds payload offset = Ok (maps, last) ->
  length maps = rounds /\ Forall (fun m => acceptable (source m) (target m) = true) maps.
Proof.
  revert offset maps last. induction rounds as [|rounds IH]; intros offset maps last H; cbn [decode_entries_loop] in H.
  { assert (maps = []) as -> by congruence. done. }
  destruct (u16_at _ _) as [flags|]; [|done]. destruct (u16_at _ _) as [sl|]; [|done].
  destruct (u16_at _ _) as [tl|]; [|done].
  destruct (ok_or _ _) as [o|]; [|done]. cbn [mbind result_bind] in H.
  destruct (take_path _ _ _ _) as [[s o2]|]; [|done]. cbn [mbind result_bind] in H.
  destruct (take_path _ _ _ _) as [[t o3]|]; [|done]. cbn [mbind result_bind] in H.
  destruct (acceptable s t) eqn:Ha; [|by rewrite orb_true_r in H].
  destruct (negb _ || negb true); [done|].
  destruct (decode_entries_loop _ _ _ _) as [[rest o4]|] eqn:Hr; [|done]. cbn [mbind result_bind] in H.
  apply IH in Hr as [Hl Hf]. apply ok_inj in H. assert (maps = mkHostMap s t (negb (Z.land flags MAP_READ_ONLY =? 0)) :: rest) as -> by congruence.
  cbn [length]. split; [by rewrite Hl|by constructor].
Qed.

Lemma decode_guest_maps_acceptable payload part :
  decode_guest_maps_payload payload = Ok part ->
  len (maps part) <= Maps.MAX_HOST_MAPPINGS /\ Forall (fun m => acceptable (source m) (target m) = true) (maps part).
Proof.
  unfold decode_guest_maps_payload, decode_maps_entries. intros H.
  destruct (u32_at payload 0) as [f|]; [|done]. cbn [ok_or mbind result_bind] in H.
  destruct (u32_at payload 4) as [count|]; [|done]. cbn [ok_or mbind result_bind] in H.
  destruct (Z.ltb_spec Maps.MAX_HOST_MAPPINGS count) as [|Hc]; [done|].
  destruct (decode_entries_loop _ _ _ _) as [[ms o]|] eqn:Hd; [|done]. cbn [mbind result_bind] in H.
  destruct (negb _); [done|]. cbn [mbind result_bind] in H. apply ok_inj in H. subst part. cbn [maps].
  apply decode_entries_acceptable in Hd as [Hl Hf]. split; [|done]. unfold len, Maps.MAX_HOST_MAPPINGS in *. lia.
Qed.

Lemma add_u32_small a b : 0 <= a -> 0 <= b -> a + b <= 2 * Maps.MAX_HOST_MAPPINGS -> add_u32 a b = a + b.
Proof. intros. unfold add_u32, Maps.MAX_HOST_MAPPINGS in *. apply Z.mod_small. lia. Qed.

Lemma as_u32_small a : 0 <= a <= Maps.MAX_HOST_MAPPINGS -> as_u32 a = a.
Proof. intros. unfold as_u32, Maps.MAX_HOST_MAPPINGS in *. apply Z.mod_small. lia. Qed.

(** An entry of acceptable paths is refused only for a source that is empty: the first such entry. *)
Lemma collect_mappings_spec entry chunk :
  0 <= entry -> entry + len chunk <= 2 * Maps.MAX_HOST_MAPPINGS ->
  Forall (fun m => acceptable (source m) (target m) = true) chunk ->
  match collect_mappings entry chunk with
  | Ok mappings => Forall (fun m => source m <> []) chunk /\ mappings = mapping_of <$> chunk
  | Err refusal => exists before m after, chunk = before ++ m :: after /\ Forall (fun m => source m <> []) before /\ source m = []
                   /\ refusal = ExportRoot (entry + len before)
  end.
Proof.
  intros He Hl H. revert entry He Hl. induction H as [|m chunk Hm _ IH]; intros entry He Hl; cbn [collect_mappings]; [done|].
  rewrite len_cons in Hl. len_facts. unfold entry_mapping. destruct (bool_decide_reflect (source m = [])) as [Hs|Hs].
  { cbn [mbind result_bind]. exists [], m, chunk. rewrite len_nil, Z.add_0_r. by split_and!. }
  rewrite new_mapping_acceptable, Hm. cbn [map_err mbind result_bind].
  assert (add_u32 entry 1 = entry + 1) as E by (apply add_u32_small; unfold Maps.MAX_HOST_MAPPINGS in *; lia).
  specialize (IH (add_u32 entry 1) ltac:(lia) ltac:(lia)).
  destruct (collect_mappings _ chunk) as [ms|r]; cbn [mbind result_bind].
  - destruct IH as [Hf ->]. split; [by constructor|done].
  - destruct IH as (before & m' & after & -> & Hb & Hm' & ->). exists (m :: before), m', after. rewrite len_cons, E. split_and!; [done|by constructor|done|f_equal; lia].
Qed.

(** A table whose account is in bounds. *)
Definition table_ok (self : MappingTable) : Prop :=
  0 <= applied self <= expected self /\ expected self <= Maps.MAX_HOST_MAPPINGS.

(** The entries of a part that the table takes: the part's own, at the entry that it expects next,
    within what the host announced, and none of them the export's root. *)
Definition next_part (self : MappingTable) (part : list byte) (chunk : list HostMap) : Prop :=
  decode_guest_maps_payload part = Ok (mkMapsPayload (applied self) chunk)
  /\ chunk <> [] /\ applied self + len chunk <= expected self
  /\ Forall (fun m => source m <> []) chunk.

(** Why a table that is not latched refuses a part: it does not decode, is empty, does not start at
    the next entry, ends past what the host announced, or has the export's root at the entry named. *)
Inductive refuses (self : MappingTable) (part : list byte) : Refusal -> Prop :=
| refuses_malformed e : decode_guest_maps_payload part = Err e -> refuses self part (Malformed e)
| refuses_empty f : decode_guest_maps_payload part = Ok (mkMapsPayload f []) -> refuses self part Empty
| refuses_order f chunk :
    decode_guest_maps_payload part = Ok (mkMapsPayload f chunk) -> chunk <> [] -> f <> applied self -> refuses self part (Order f (applied self))
| refuses_excess chunk :
    decode_guest_maps_payload part = Ok (mkMapsPayload (applied self) chunk) -> chunk <> [] -> expected self < applied self + len chunk ->
    refuses self part (Excess (applied self + len chunk) (expected self))
| refuses_root before m after :
    decode_guest_maps_payload part = Ok (mkMapsPayload (applied self) (before ++ m :: after)) ->
    applied self + len (before ++ m :: after) <= expected self ->
    Forall (fun m => source m <> []) before -> source m = [] -> refuses self part (ExportRoot (applied self + len before)).

Lemma refuses_not_next self part refusal chunk : refuses self part refusal -> ~ next_part self part chunk.
Proof.
  intros Hr (Hd & Hne & Hfit & Hs). destruct Hr as [e E|f E|f ms E|ms E|before m after E _ _ Hm]; rewrite E in Hd; simplify_eq; try lia.
  apply Forall_app in Hs as [_ Hs]. by inv Hs.
Qed.

Lemma check_spec self part :
  table_ok self ->
  match check self part with
  | Ok mappings => latched self = false /\ exists chunk, next_part self part chunk /\ mappings = mapping_of <$> chunk
  | Err refusal => if latched self then refusal = Latched else refuses self part refusal
  end.
Proof.
  intros [Ha He]. unfold check. destruct (latched self); [done|].
  destruct (decode_guest_maps_payload part) as [p|e] eqn:Hd; cbn [map_err mbind result_bind]; [|by constructor].
  destruct (decode_guest_maps_acceptable _ _ Hd) as [Hl Hf]. destruct p as [f ms]. cbn [maps first] in *.
  destruct (bool_decide_reflect (ms = [])) as [->|Hne]; [by eapply refuses_empty|].
  destruct (Z.eqb_spec f (applied self)) as [->|Hord]; cbn [negb]; [|by eapply refuses_order].
  len_facts. rewrite as_u32_small, add_u32_small by (unfold Maps.MAX_HOST_MAPPINGS in *; lia).
  destruct (Z.ltb_spec (expected self) (applied self + len ms)) as [Hx|Hx]; [by apply refuses_excess|].
  pose proof (collect_mappings_spec (applied self) ms ltac:(lia) ltac:(unfold Maps.MAX_HOST_MAPPINGS in *; lia) Hf) as Hc.
  destruct (collect_mappings _ ms) as [mappings|r].
  - destruct Hc as [Hs ->]. split; [done|]. by exists ms.
  - destruct Hc as (before & m & after & -> & Hb & Hm & ->). by eapply refuses_root.
Qed.

(** ** The root of the agent's choice *)

(** What [apply] asks of its [map]: it maps the mappings beneath its root, in order; it keeps those
    before the first that fails, and returns that one's index. *)
Class MappingRoot (R E : Type) := {
  map_all : R -> list Mapping -> R * result (Z * E) unit;
  mounted : R -> list Mapping;
  map_all_ok root mappings root' u :
    map_all root mappings = (root', Ok u) -> mounted root' = mounted root ++ mappings;
  map_all_err root mappings root' index error :
    map_all root mappings = (root', Err (index, error)) ->
    0 <= index /\ mounted root' = mounted root ++ ztake index mappings;
}.

(** The parts among the agent's events. *)
Definition parts (events : list TableEvent) : list (list byte) :=
  omap (fun event => match event with Part part => Some part | Latch => None end) events.

(** Consecutive parts of a table, from the entry [start]. *)
Fixpoint consecutive (start : Z) (payloads : list (list byte)) (chunks : list (list HostMap)) : Prop :=
  match payloads, chunks with
  | [], [] => True
  | payload :: payloads, chunk :: chunks =>
      chunk <> [] /\ Forall (fun m => source m <> []) chunk
      /\ decode_guest_maps_payload payload = Ok (mkMapsPayload start chunk)
      /\ consecutive (start + len chunk) payloads chunks
  | _, _ => False
  end.

Lemma consecutive_snoc start payloads chunks payload chunk :
  consecutive start payloads chunks -> chunk <> [] -> Forall (fun m => source m <> []) chunk ->
  decode_guest_maps_payload payload = Ok (mkMapsPayload (start + len (concat chunks)) chunk) ->
  consecutive start (payloads ++ [payload]) (chunks ++ [chunk]).
Proof.
  revert start chunks. induction payloads as [|p payloads IH]; intros start [|c chunks] H Hne Hs Hd;
    cbn [consecutive app concat] in *; try done.
  { rewrite len_nil, Z.add_0_r in Hd. done. }
  destruct H as (? & ? & ? & H). split_and!; [done..|]. apply IH; [done..|].
  rewrite len_app in Hd. by rewrite <- Z.add_assoc.
Qed.

Lemma len_fmap {A B} (f : A -> B) l : len (f <$> l) = len l.
Proof. unfold len. by rewrite length_fmap. Qed.

Section Root.
Context {R E : Type} `{MappingRoot R E}.

(** What the table and its root hold after [events], from a root that held [base]. *)
Definition reached (base : list Mapping) (announced : Z) (events : list TableEvent) (state : MappingTable * R) : Prop :=
  table_ok (state.1) /\ expected (state.1) = announced
  /\ exists payloads chunks,
       payloads `sublist_of` parts events /\ consecutive 0 payloads chunks
       /\ applied (state.1) <= len (concat chunks) <= announced
       /\ (latched (state.1) = false -> applied (state.1) = len (concat chunks))
       /\ mounted (state.2) = base ++ ztake (applied (state.1)) (mapping_of <$> concat chunks).

Lemma reached_refused base announced events event state :
  reached base announced events state -> reached base announced (events ++ [event]) state.
Proof.
  intros (Ht & He & payloads & chunks & Hsub & Hrest). split_and!; [done..|]. exists payloads, chunks.
  split; [|done]. unfold parts. rewrite omap_app. by apply sublist_inserts_r.
Qed.

Lemma reached_latch base announced events state :
  reached base announced events state -> reached base announced events (latch (state.1), state.2).
Proof.
  intros (Ht & He & payloads & chunks & Hsub & Hc & [Hl1 Hl2] & Ha & Hm). split_and!; [done..|].
  exists payloads, chunks. by split_and?.
Qed.

Lemma reached_part base announced events state part :
  reached base announced events state ->
  reached base announced (events ++ [Part part]) (apply map_all (state.1) (state.2) part).1.
Proof.
  intros Hr. unfold apply. pose proof Hr as ([Ha He] & Hx & payloads & chunks & Hsub & Hc & Hl & Heq & Hm).
  pose proof (check_spec (state.1) part (conj Ha He)) as Hck.
  destruct state as [[x a l] root]. cbn [fst snd applied expected latched] in *.
  destruct (check _ part) as [mappings|r]; [|by apply reached_refused].
  destruct Hck as (-> & chunk & (Hd & Hne & Hfit & Hs) & ->). cbn [expected applied] in Hd, Hfit.
  specialize (Heq eq_refl). subst a x. len_facts.
  assert (Hlen : len (mapping_of <$> chunk) = len chunk) by apply len_fmap.
  assert (Hsub' : payloads ++ [part] `sublist_of` parts (events ++ [Part part])).
  { unfold parts. rewrite omap_app. by apply sublist_app. }
  assert (Hc' : consecutive 0 (payloads ++ [part]) (chunks ++ [chunk])) by (by apply consecutive_snoc).
  assert (Hconcat : concat (chunks ++ [chunk]) = concat chunks ++ chunk) by (rewrite concat_app; cbn; by rewrite app_nil_r).
  assert (Hold : ztake (len (concat chunks)) (mapping_of <$> concat chunks) = mapping_of <$> concat chunks).
  { apply ztake_all. rewrite len_fmap. lia. }
  destruct (map_all root _) as [root' [u|[index error]]] eqn:Hmap; cbn [fst].
  - apply map_all_ok in Hmap. rewrite Hlen. cbn [applied].
    rewrite as_u32_small, add_u32_small by (unfold Maps.MAX_HOST_MAPPINGS in *; lia).
    split; [cbn; unfold table_ok; cbn; lia|]. split; [done|]. exists (payloads ++ [part]), (chunks ++ [chunk]).
    rewrite Hconcat, len_app. cbn [fst snd applied update]. split_and!; [done..|lia|lia|done|].
    rewrite Hmap, Hm, Hold, fmap_app, ztake_all, app_assoc; [done|].
    rewrite len_app, !len_fmap. lia.
  - apply map_all_err in Hmap as [Hi Hmap]. rewrite Hlen. cbn [applied].
    rewrite as_u32_small, add_u32_small by (unfold Maps.MAX_HOST_MAPPINGS in *; lia).
    split; [cbn; unfold table_ok; cbn; lia|]. split; [done|]. exists (payloads ++ [part]), (chunks ++ [chunk]).
    rewrite Hconcat, len_app. cbn [fst snd applied update latched]. split_and!; [done..|lia|lia|done|].
    rewrite Hmap, Hm, Hold, fmap_app, ztake_app_r, <- app_assoc.
    + do 2 f_equal. rewrite len_fmap.
      replace (_ + _ - _) with (Z.min index (len chunk)) by lia. rewrite <- Hlen, <- (ztake_all (len (mapping_of <$> chunk)) (mapping_of <$> chunk)) at 1 by lia.
      by rewrite ztake_ztake.
    + rewrite len_fmap. lia.
Qed.

Lemma reached_run base announced events before state :
  reached base announced before state -> reached base announced (before ++ events) (table_run map_all state events).
Proof.
  revert before state. induction events as [|event events IH]; intros before state Hr; cbn [table_run foldl].
  { by rewrite app_nil_r. }
  replace (before ++ event :: events) with ((before ++ [event]) ++ events) by (by rewrite <- app_assoc).
  apply IH. destruct event; cbn [table_step]; [by apply reached_part|by apply reached_refused, reached_latch].
Qed.
End Root.

(** What a part makes of a table and its root, and the reply. *)
Inductive part_spec {R E} `{MappingRoot R E} (self : MappingTable) (root : R) (part : list byte) : MappingTable -> R -> result (TableError E) unit -> Prop :=
| part_latched :
    latched self = true -> part_spec self root part self root (Err (Refused (applied self) Latched))
| part_refused refusal :
    latched self = false -> refuses self part refusal -> part_spec self root part self root (Err (Refused (applied self) refusal))
| part_mapped chunk root' :
    latched self = false -> next_part self part chunk -> map_all root (mapping_of <$> chunk) = (root', Ok tt) ->
    mounted root' = mounted root ++ (mapping_of <$> chunk) ->
    part_spec self root part (mkMappingTable (expected self) (applied self + len chunk) false) root' (Ok tt)
| part_failed chunk root' index error :
    latched self = false -> next_part self part chunk -> map_all root (mapping_of <$> chunk) = (root', Err (index, error)) ->
    let done_ := Z.min index (len chunk) in
    0 <= done_ <= len chunk -> mounted root' = mounted root ++ ztake done_ (mapping_of <$> chunk) ->
    part_spec self root part (mkMappingTable (expected self) (applied self + done_) true) root' (Err (Failed (applied self + done_) error)).

Lemma apply_spec {R E} `{MappingRoot R E} self root part :
  table_ok self -> let '(self', root', reply) := apply map_all self root part in part_spec self root part self' root' reply.
Proof.
  intros Ht. pose proof (check_spec self part Ht) as Hck. destruct Ht as [Ha He]. unfold apply.
  destruct (check self part) as [mappings|r]; [|by destruct (latched self) eqn:Hl; [subst r; apply part_latched|apply part_refused]].
  destruct Hck as (Hl & chunk & Hn & ->). pose proof Hn as (_ & _ & Hfit & _). len_facts.
  destruct (map_all root _) as [root' [[]|[index error]]] eqn:Hmap; cbn [applied latched expected]; rewrite len_fmap.
  - pose proof (map_all_ok _ _ _ _ Hmap) as Hm. rewrite as_u32_small, add_u32_small by (unfold Maps.MAX_HOST_MAPPINGS in *; lia).
    destruct self as [x a l]. cbn [latched] in *. subst l. by apply (part_mapped _ _ _ chunk).
  - pose proof (map_all_err _ _ _ _ _ Hmap) as [Hi Hm]. rewrite as_u32_small, add_u32_small by (unfold Maps.MAX_HOST_MAPPINGS in *; lia).
    destruct self as [x a l]. cbn [latched applied expected] in *. subst l.
    apply (part_failed (mkMappingTable x a false) root part chunk root' index error); [done..|lia|]. rewrite Hm. f_equal.
    rewrite <- (ztake_all (len (mapping_of <$> chunk)) (mapping_of <$> chunk)) at 1 by lia. by rewrite ztake_ztake, len_fmap.
Qed.

(** A latched table stays as it is. *)
Lemma latched_run {R E} `{MappingRoot R E} self root events : latched self = true -> table_run map_all (self, root) events = (self, root).
Proof.
  intros Hl. induction events as [|event events IH]; [done|]. cbn [table_run foldl].
  assert (table_step map_all (self, root) event = (self, root)) as ->; [|exact IH].
  destruct event; cbn [table_step fst snd]; [unfold apply, check; by rewrite Hl|]. destruct self. cbn in Hl. by subst.
Qed.

Lemma new_reached {R E} `{MappingRoot R E} n table root :
  0 <= n -> new n = Some table -> reached (mounted root) n [] (table, root).
Proof.
  unfold new. intros Hn Ht. destruct (Z.leb_spec n Maps.MAX_HOST_MAPPINGS); [|done].
  assert (table = mkMappingTable n 0 false) as -> by congruence. split; [done|]. split; [done|].
  exists [], []. split_and!; [done..|]. cbn. by rewrite app_nil_r.
Qed.

(** A root that lists its mappings, and refuses one source. *)
Fixpoint list_map (refuses : list byte) (root : list Mapping) (index : Z) (mappings : list Mapping)
    : list Mapping * result (Z * unit) unit :=
  match mappings with
  | [] => (root, Ok tt)
  | m :: mappings =>
      if bool_decide (mapping_source m = refuses) then (root, Err (index, tt))
      else list_map refuses (root ++ [m]) (index + 1) mappings
  end.

Lemma list_map_spec refuses root index mappings :
  match list_map refuses root index mappings with
  | (root', Ok _) => root' = root ++ mappings
  | (root', Err (i, _)) => index <= i /\ root' = root ++ ztake (i - index) mappings
  end.
Proof.
  revert root index. induction mappings as [|m mappings IH]; intros root index; cbn [list_map].
  { by rewrite app_nil_r. }
  destruct (bool_decide _). { split; [lia|]. rewrite Z.sub_diag, ztake_0 by lia. by rewrite app_nil_r. }
  specialize (IH (root ++ [m]) (index + 1)). destruct (list_map _ _ _ _) as [root' [u|[i e]]].
  - by rewrite IH, <- app_assoc.
  - destruct IH as [Hi ->]. split; [lia|]. rewrite <- app_assoc. f_equal. cbn [app].
    unfold ztake. replace (Z.to_nat (i - index)) with (S (Z.to_nat (i - (index + 1)))) by lia. done.
Qed.

#[export, program] Instance list_root (refuses : list byte) : MappingRoot (list Mapping) unit := {
  map_all root mappings := list_map refuses root 0 mappings;
  mounted root := root;
}.
Next Obligation.
  intros refuses root mappings root' u H. pose proof (list_map_spec refuses root 0 mappings) as Hs. by rewrite H in Hs.
Qed.
Next Obligation.
  intros refuses root mappings root' index error H. pose proof (list_map_spec refuses root 0 mappings) as Hs.
  rewrite H in Hs. by rewrite Z.sub_0_r in Hs.
Qed.

(** C24: Whatever parts a host sends, and whenever the agent latches its table: the table never counts
    past what the host announced, and its 32-bit sums never wrap; its root holds, beyond what it held
    before, exactly the mappings that the table counts, which are the first entries of consecutive
    parts among those that arrived, in order, none of them the export's root; and a complete table
    has every announced entry applied. The next part, at any point: a part that is refused changes
    nothing, and is answered with the next entry and the refusal that is the part's own; one that
    fails keeps and counts the mappings before its failure, names the entry that failed and its error,
    and latches the table; any other is mapped whole. A latched table never changes again, nor does
    its root. *)
Theorem mapping_table_account {R E} `{MappingRoot R E} (n : Z) (table : MappingTable) (root : R) (events : list TableEvent) :
  0 <= n -> new n = Some table ->
  let '(table', root') := table_run map_all (table, root) events in
  0 <= applied table' <= n /\ expected table' = n
  /\ exists payloads chunks,
       payloads `sublist_of` parts events /\ consecutive 0 payloads chunks
       /\ mounted root' = mounted root ++ ztake (applied table') (mapping_of <$> concat chunks)
       /\ applied table' <= len (concat chunks) <= n
       /\ (is_complete table' = true -> len (concat chunks) = n
             /\ mounted root' = mounted root ++ (mapping_of <$> concat chunks))
       /\ (forall part, let '(table'', root'', reply) := apply map_all table' root' part in part_spec table' root' part table'' root'' reply)
       /\ (latched table' = true -> forall more, table_run map_all (table', root') more = (table', root')).
Proof.
  intros Hn Ht. pose proof (reached_run _ _ events [] _ (new_reached n table root Hn Ht)) as Hr. cbn [app] in Hr.
  destruct (table_run _ _ events) as [table' root'].
  destruct Hr as (Hok & He & payloads & chunks & Hsub & Hc & Hl & Heq & Hm). cbn [fst snd] in *. subst n. pose proof Hok as [Ha _].
  split; [done|]. split; [done|]. exists payloads, chunks. split_and!; [done..|lia|lia| |by intros; apply apply_spec|by intros; apply latched_run].
  unfold is_complete. intros [Hf%negb_true_iff Hx%Z.eqb_eq]%andb_true_iff. split; [lia|].
  rewrite Hm, ztake_all; [done|]. rewrite len_fmap. lia.
Qed.

(** ** A whole table *)

(** A root that maps every one of the mappings. *)
Definition maps_all {R E} `{MappingRoot R E} (mappings : list Mapping) : Prop :=
  forall root sent, sent ⊆ mappings -> exists root', map_all root sent = (root', Ok tt).

Lemma delivered_applied {R E} `{MappingRoot R E} limit n start payloads chunks root :
  delivered limit start payloads chunks -> 0 <= start -> start + len (concat chunks) <= n ->
  n <= Maps.MAX_HOST_MAPPINGS -> Forall (fun m => source m <> []) (concat chunks) ->
  maps_all (mapping_of <$> concat chunks) ->
  exists root', table_run map_all (mkMappingTable n start false, root) (Part <$> payloads)
                = (mkMappingTable n (start + len (concat chunks)) false, root')
    /\ mounted root' = mounted root ++ (mapping_of <$> concat chunks).
Proof.
  revert start chunks root. induction payloads as [|payload payloads IH];
    intros start [|chunk chunks] root Hd Hs Hn Hmax Hne Hall; cbn [delivered] in Hd; try done.
  { exists root. cbn [concat fmap list_fmap table_run foldl]. by rewrite len_nil, Z.add_0_r, app_nil_r. }
  destruct Hd as (Hchunk & _ & _ & Hg & Hd). cbn [concat] in *. rewrite len_app in Hn. len_facts.
  apply Forall_app in Hne as [Hne1 Hne2]. rewrite fmap_app in Hall.
  rewrite fmap_cons. cbn [table_run foldl table_step fst snd]. unfold apply.
  set (self := mkMappingTable n start false).
  assert (Hok : table_ok self) by (unfold table_ok; cbn; lia).
  pose proof (check_spec self payload Hok) as Hck.
  assert (Hnext : next_part self payload chunk) by (unfold next_part; cbn; split_and!; [done..|lia|done]).
  destruct (check self payload) as [mappings|r]; [|by destruct (refuses_not_next _ _ _ _ Hck Hnext)].
  destruct Hck as (_ & chunk' & (Hg' & _) & ->).
  assert (chunk' = chunk) as -> by (cbn [applied self] in Hg'; congruence).
  destruct (Hall root (mapping_of <$> chunk)) as [root1 Hmap]; [set_solver|]. rewrite Hmap. cbn [fst].
  apply map_all_ok in Hmap. rewrite len_fmap. cbn [applied self].
  rewrite as_u32_small, add_u32_small by lia. 
  destruct (IH (start + len chunk) chunks root1) as (root' & Hrun & Hm); [done|lia|lia|done|done|..].
  { intros r sent Hsub. apply Hall. set_solver. }
  exists root'. split; [|by rewrite Hm, Hmap, fmap_app, app_assoc].
  rewrite len_app, Z.add_assoc. exact Hrun.
Qed.

Definition part_of_maps : list HostMap := tail sample_maps.

Definition one_bad : list HostMap :=
  [mkHostMap (bytes_of "a") (bytes_of "/a") false; mkHostMap (bytes_of "bad") (bytes_of "/b") true;
   mkHostMap (bytes_of "c") (bytes_of "/c") false].

Definition bad_parts : list (list byte) :=
  [payload_of 0 1 (take 1 one_bad); payload_of 1 1 [mkHostMap (bytes_of "bad") (bytes_of "/b") true]; payload_of 1 1 (drop 2 one_bad)].

(** Three parts, the second of which the root refuses: the table counts one mapping, latches, names the
    entry 1 to the second part, and refuses the third. *)
Lemma mapping_table_account_witness :
  let apply := apply (map_all (MappingRoot := list_root (bytes_of "bad"))) in
  let '(table, root) := table_run (map_all (MappingRoot := list_root (bytes_of "bad"))) (mkMappingTable 3 0 false, []) (Part <$> take 2 bad_parts) in
  table = mkMappingTable 3 1 true /\ 0 <= applied table <= 3
  /\ (apply (mkMappingTable 3 1 false) root (nth 1 bad_parts [])).2 = Err (Failed 1 tt)
  /\ table_run (map_all (MappingRoot := list_root (bytes_of "bad"))) (table, root) [Part (nth 2 bad_parts [])] = (table, root).
Proof.
  pose proof (mapping_table_account (H := list_root (bytes_of "bad")) 3 (mkMappingTable 3 0 false) []
    (Part <$> take 2 bad_parts) ltac:(lia) ltac:(reflexivity)) as (Hb & _ & payloads & chunks & _ & _ & _ & _ & _ & _ & Hl).
  cbv zeta. split; [vm_compute; reflexivity|]. split; [exact Hb|]. split; [vm_compute; reflexivity|]. apply Hl. vm_compute. reflexivity.
Defined.

(** C25: The host's encoder, the announcement on the kernel command line, and the guest's table meet:
    a table that the encoder takes, of entries that are not the export's root, sent to an agent whose
    command line announces as many, completes, through any root that maps its mappings; and the root
    then holds exactly the table's mappings, in order, with the paths and access that the host gave. *)
Theorem sent_table_completes {R E} `{MappingRoot R E} (table : list HostMap) (limit : Z) (payloads : list (list byte))
    (command_line : list byte) (self : MappingTable) (root : R) :
  limit <= USIZE_MAX -> Forall text_entry table -> Forall (fun m => source m <> []) table ->
  encode_maps_payloads table limit = Ok payloads ->
  announced command_line = Ok self -> expected self = len table ->
  maps_all (mapping_of <$> table) ->
  exists self' root', table_run map_all (self, root) (Part <$> payloads) = (self', root')
    /\ is_complete self' = true /\ mounted root' = mounted root ++ (mapping_of <$> table).
Proof.
  intros Hl Ht Hs He Hann Hx Hall. unfold announced in Hann.
  destruct (parse_host_mapping_count command_line) as [n|]; [|done]. cbn [mbind result_bind] in Hann.
  apply ok_inj in Hann. subst self. cbn [expected] in Hx. subst n.
  unfold encode_maps_payloads in He. destruct (_ || _) eqn:Hn; [done|].
  apply orb_false_iff in Hn as [Hn1%Z.eqb_neq Hn2%Z.ltb_ge]. len_facts.
  destruct (encode_maps_loop_written limit table [] 0 [] 0 payloads He) as (Hac & chunks & Hw & Hc).
  - by unfold filling.
  - destruct table as [|m table]; [done|]. cbn [encode_maps_loop] in He. destruct (negb _); [done|].
    destruct (Z.ltb_spec limit (MAPS_HEADER_LEN + (MAP_ENTRY_HEADER_LEN + len (source m) + len (target m)))); [done|].
    unfold MAPS_HEADER_LEN, MAP_ENTRY_HEADER_LEN in *. len_facts. rewrite len_nil. lia.
  - intros Hnil. cbn [app] in Hnil. by subst table.
  - lia.
  - cbn [app] in Hc. subst table. apply (written_delivered limit 0) in Hw; [|done..|lia|done|done].
    destruct (delivered_applied limit (len (concat chunks)) 0 payloads chunks root Hw) as (root' & Hrun & Hm);
      [done|lia|done|done|done|].
    rewrite Z.add_0_l in Hrun. eexists _, root'. split; [exact Hrun|]. split; [|done].
    unfold is_complete. cbn. by rewrite Z.eqb_refl.
Qed.

Lemma list_maps_all refuses mappings :
  Forall (fun m => mapping_source m <> refuses) mappings -> maps_all (H := list_root refuses) mappings.
Proof.
  intros Hf root sent Hsub. cbn. assert (Hs : Forall (fun m => mapping_source m <> refuses) sent).
  { rewrite Forall_forall in Hf |- *. auto. }
  generalize 0. revert root. induction Hs as [|m sent Hm _ IH]; intros root i; cbn [list_map]; [eauto|].
  rewrite bool_decide_false by done. apply IH. set_solver.
Qed.

Lemma sent_table_completes_witness :
  exists self' root', table_run (map_all (MappingRoot := list_root (bytes_of "bad"))) (mkMappingTable 2 0 false, []) (Part <$> [payload_of 0 1 (take 1 part_of_maps); payload_of 1 1 (drop 1 part_of_maps)])
    = (self', root') /\ is_complete self' = true /\ root' = [] ++ (mapping_of <$> part_of_maps).
Proof.
  apply (sent_table_completes (H := list_root (bytes_of "bad")) part_of_maps 24 _ (bytes_of "console=ttyS0 nvx_maps=2")).
  - done.
  - by repeat constructor.
  - by repeat constructor.
  - vm_compute. reflexivity.
  - vm_compute. reflexivity.
  - reflexivity.
  - apply list_maps_all. by repeat constructor.
Defined.
