(* ===== verification/Canonical.v ===== *)
(** * The canonical encoding (src/nvx-rs/src/host/template/canonical.rs)

    The writer and the reader of a template's compatibility key and of a capture class. A [Writer]
    only appends to its bytes, so a write is the bytes that it appends; a [Reader] is its remaining
    bytes, which the monad [Reader] threads, with the error as a value. [Codec] is what the two
    promise each other: a reader takes exactly the bytes that the writer writes of a valid value. *)

From S2P Require Import Prelude.

(** The messages, by their form and arguments. *)
Inductive CanonicalError : Type :=
| Follows (count : Z)
| TruncatedValue (what : string)
| NotBoolean (what : string) (byte : Z)
| Holds (what : string) (len : Z) (unit_ : string) (max : Z)
| NotUtf8 (what : string)
| PresenceTag (what : string) (tag : Z)
| Refuses (message : string).

(** ** The writer *)

Definition w_u8 (value : Z) : list byte := [byte_of value].
Definition w_u16 (value : Z) : list byte := to_le_bytes 2 value.
Definition w_u32 (value : Z) : list byte := to_le_bytes 4 value.
Definition w_u64 (value : Z) : list byte := to_le_bytes 8 value.
Definition w_bool (value : bool) : list byte := w_u8 (if value then 1 else 0).
Definition w_fixed (bytes : list byte) : list byte := bytes.

(** Lengths are below 2^32 in every valid value, where [expect] does not fail. *)
Definition w_len (len : Z) : list byte := w_u32 len.
Definition w_bytes (bytes : list byte) : list byte := w_len (len bytes) ++ w_fixed bytes.
Definition w_text (text : list byte) : list byte := w_bytes text.

Definition w_option {A} (write : A -> list byte) (value : option A) : list byte :=
  match value with
  | None => w_u8 0
  | Some value => w_u8 1 ++ write value
  end.

Definition w_list {A} (write : A -> list byte) (items : list A) : list byte :=
  w_len (len items) ++ concat (map write items).

(** ** The reader *)

Definition Reader (A : Type) : Type := list byte -> result CanonicalError (A * list byte).

#[export] Instance reader_ret : MRet Reader := fun A a bytes => Ok (a, bytes).
#[export] Instance reader_bind : MBind Reader := fun A B f r bytes =>
  match r bytes with
  | Ok (a, rest) => f a rest
  | Err e => Err e
  end.

Definition refuse {A} (error : CanonicalError) : Reader A := fun _ => Err error.

Definition finish (bytes : list byte) : result CanonicalError unit :=
  if len bytes =? 0 then Ok tt else Err (Follows (len bytes)).

Definition r_take (count : Z) (what : string) : Reader (list byte) := fun bytes =>
  if len bytes <? count then Err (TruncatedValue what)
  else Ok (ztake count bytes, zdrop count bytes).

Definition r_fixed (n : Z) (what : string) : Reader (list byte) := r_take n what.

Definition r_int (n : Z) (what : string) : Reader Z :=
  bytes ← r_fixed n what;
  mret (from_le_bytes bytes).

Definition r_u8 (what : string) : Reader Z := r_int 1 what.
Definition r_u16 (what : string) : Reader Z := r_int 2 what.
Definition r_u32 (what : string) : Reader Z := r_int 4 what.
Definition r_u64 (what : string) : Reader Z := r_int 8 what.

Definition r_bool (what : string) : Reader bool :=
  byte ← r_u8 what;
  if byte =? 0 then mret false
  else if byte =? 1 then mret true
  else refuse (NotBoolean what byte).

Definition r_len (max : Z) (unit_ what : string) : Reader Z :=
  len ← r_u32 what;
  if len <=? max then mret len else refuse (Holds what len unit_ max).

Definition r_bytes (max : Z) (what : string) : Reader (list byte) :=
  len ← r_len max "bytes" what;
  r_take len what.

Definition r_text (max : Z) (what : string) : Reader (list byte) :=
  bytes ← r_bytes max what;
  if is_utf8 bytes then mret bytes else refuse (NotUtf8 what).

Definition r_option {A} (what : string) (read : Reader A) : Reader (option A) :=
  tag ← r_u8 what;
  if tag =? 0 then mret None
  else if tag =? 1 then value ← read; mret (Some value)
  else refuse (PresenceTag what tag).

(** [(0..count).map(|_| read(self)).collect()]: the first error ends the collection. *)
Fixpoint r_items {A} (count : nat) (read : Reader A) : Reader (list A) :=
  match count with
  | O => mret []
  | S count =>
      item ← read;
      items ← r_items count read;
      mret (item :: items)
  end.

(** The items, unless there are fewer bytes left than items. *)
Definition r_counted {A} (count : Z) (what : string) (read : Reader A) : Reader (list A) := fun bytes =>
  if len bytes <? count then Err (TruncatedValue what)
  else r_items (Z.to_nat count) read bytes.

Definition r_list {A} (max : Z) (what : string) (read : Reader A) : Reader (list A) :=
  count ← r_len max "items" what;
  r_counted count what read.

(** ** What the two promise each other *)

Class Codec {A} (read : Reader A) (write : A -> list byte) (valid : A -> Prop) : Prop :=
  codec bytes value rest : read bytes = Ok (value, rest) <-> valid value /\ bytes = write value ++ rest.

Lemma codec_read {A} (read : Reader A) write valid `{!Codec read write valid} value rest :
  valid value -> read (write value ++ rest) = Ok (value, rest).
Proof. intros H. by apply codec. Qed.

Lemma reader_bind_ok {A B} (r : Reader A) (f : A -> Reader B) bytes value rest :
  (r ≫= f) bytes = Ok (value, rest) <-> exists a mid, r bytes = Ok (a, mid) /\ f a mid = Ok (value, rest).
Proof.
  unfold mbind, reader_bind. destruct (r bytes) as [[a mid]|e]; split.
  - intros H. by exists a, mid.
  - intros (a' & mid' & [= <- <-] & H). done.
  - done.
  - by intros (? & ? & ? & _).
Qed.

Lemma reader_bind_eq {A B} (r : Reader A) (f : A -> Reader B) bytes a mid :
  r bytes = Ok (a, mid) -> (r ≫= f) bytes = f a mid.
Proof. intros H. unfold mbind, reader_bind. by rewrite H. Qed.

Lemma reader_bind_run {A B} (r : Reader A) write valid (f : A -> Reader B) value rest :
  Codec r write valid -> valid value -> (r ≫= f) (write value ++ rest) = f value rest.
Proof. intros Hc Hv. by apply reader_bind_eq, codec. Qed.

Lemma reader_ret_ok {A} (a : A) bytes value rest :
  (mret a : Reader A) bytes = Ok (value, rest) <-> value = a /\ bytes = rest.
Proof. unfold mret, reader_ret. split; [by intros [= -> ->]|by intros [-> ->]]. Qed.

(** Inverts a successful read, field by field; and runs a reader on what was written. *)
Ltac read_inv H :=
  repeat (let a := fresh "f" in let mid := fresh "mid" in let Hr := fresh "Hr" in let Hv := fresh "Hv" in
          apply reader_bind_ok in H as (a & mid & Hr & H); apply codec in Hr as [Hv ->]);
  try (apply reader_ret_ok in H as [-> ->]).

Ltac read_run :=
  rewrite <- ?app_assoc, ?app_nil_l;
  repeat (erewrite reader_bind_run; [|typeclasses eauto|eassumption]; rewrite <- ?app_assoc, ?app_nil_l).

#[export] Instance take_codec n what : 0 <= n -> Codec (r_fixed n what) w_fixed (fun b => len b = n).
Proof.
  intros Hn bytes value rest. unfold r_fixed, r_take, w_fixed. split.
  - destruct (Z.ltb_spec (len bytes) n); [done|]. intros [= <- <-]. split; [rewrite len_ztake; lia|].
    by rewrite ztake_zdrop.
  - intros [Hl ->]. rewrite len_app. len_facts. destruct (Z.ltb_spec (len value + len rest) n); [lia|].
    subst n. rewrite ztake_app_l, ztake_all, zdrop_app_r, Z.sub_diag, zdrop_0 by lia. done.
Qed.

(** A reader of a fixed number of bytes as an integer. *)
Lemma int_codec n what : Codec (r_int (Z.of_nat n) what) (to_le_bytes n) (fun z => 0 <= z < 256 ^ Z.of_nat n).
Proof.
  intros bytes value rest. unfold r_int. rewrite reader_bind_ok. split.
  - intros (b & mid & Hr & H). apply (@codec _ _ _ _ (take_codec (Z.of_nat n) what ltac:(lia))) in Hr as [Hl ->].
    apply reader_ret_ok in H as [-> ->]. pose proof (from_le_bytes_range b) as Hb. rewrite Hl in Hb.
    split; [done|]. by rewrite to_from_le_bytes.
  - intros [Hv ->]. exists (to_le_bytes n value), rest. split.
    + apply (@codec _ _ _ _ (take_codec (Z.of_nat n) what ltac:(lia))). by rewrite len_to_le_bytes.
    + apply reader_ret_ok. by rewrite from_to_le_small.
Qed.

Definition is_u8 (z : Z) : Prop := 0 <= z <= U8_MAX.

Lemma u8_bit (b : bool) : is_u8 (if b then 1 else 0).
Proof. by destruct b. Qed.

#[export] Instance u8_codec what : Codec (r_u8 what) w_u8 is_u8.
Proof.
  intros bytes value rest. unfold r_u8. change 1 with (Z.of_nat 1). rewrite (int_codec 1 what bytes value rest).
  unfold is_u8, U8_MAX, w_u8. cbn [to_le_bytes]. split; (intros [H ->]; split; [lia|done]).
Qed.

#[export] Instance u16_codec what : Codec (r_u16 what) w_u16 is_u16.
Proof.
  intros bytes value rest. rewrite (int_codec 2 what bytes value rest). unfold is_u16, U16_MAX, w_u16.
  split; (intros [H ->]; split; [lia|done]).
Qed.

#[export] Instance u32_codec what : Codec (r_u32 what) w_u32 is_u32.
Proof.
  intros bytes value rest. rewrite (int_codec 4 what bytes value rest). unfold is_u32, U32_MAX, w_u32.
  split; (intros [H ->]; split; [lia|done]).
Qed.

#[export] Instance u64_codec what : Codec (r_u64 what) w_u64 is_u64.
Proof.
  intros bytes value rest. rewrite (int_codec 8 what bytes value rest). unfold is_u64, U64_MAX, w_u64.
  split; (intros [H ->]; split; [lia|done]).
Qed.

#[export] Instance bool_codec what : Codec (r_bool what) w_bool (fun _ => True).
Proof.
  intros bytes value rest. unfold r_bool, w_bool. split.
  - intros H. apply reader_bind_ok in H as (b & mid & Hr & H). apply codec in Hr as [_ ->].
    destruct (Z.eqb_spec b 0) as [->|_]; [by apply reader_ret_ok in H as [-> ->]|].
    destruct (Z.eqb_spec b 1) as [->|_]; [by apply reader_ret_ok in H as [-> ->]|done].
  - intros [_ ->]. erewrite reader_bind_eq by (refine (codec_read (r_u8 what) _ _ _ _ _); apply u8_bit). by destruct value.
Qed.

#[export] Instance len_codec max unit_ what :
  max <= U32_MAX -> Codec (r_len max unit_ what) w_len (fun n => 0 <= n <= max).
Proof.
  intros Hm bytes value rest. unfold r_len, w_len. split.
  - intros H. apply reader_bind_ok in H as (b & mid & Hr & H). apply codec in Hr as [[Hb _] ->].
    destruct (Z.leb_spec b max); [|done]. by apply reader_ret_ok in H as [-> ->].
  - intros [Hv ->]. erewrite reader_bind_eq by (refine (codec_read (r_u32 what) _ _ _ _ _); unfold is_u32; lia).
    by rewrite (proj2 (Z.leb_le value max)) by lia.
Qed.

#[export] Instance bytes_codec max what :
  max <= U32_MAX -> Codec (r_bytes max what) w_bytes (fun b => len b <= max).
Proof.
  intros Hm bytes value rest. pose proof (len_codec max "bytes" what Hm) as Hlc. unfold r_bytes, w_bytes. split.
  - intros H. apply reader_bind_ok in H as (n & mid & Hr & H). apply codec in Hr as [Hn ->].
    apply (@codec _ _ _ _ (take_codec n what (proj1 Hn))) in H as [<- ->]. split; [lia|]. by rewrite <- app_assoc.
  - intros [Hv ->]. rewrite <- app_assoc. len_facts. erewrite reader_bind_eq by (refine (codec_read _ _ _ (Codec0 := Hlc) _ _ _); lia).
    by apply (@codec _ _ _ _ (take_codec (len value) what ltac:(lia))).
Qed.

#[export] Instance text_codec max what :
  max <= U32_MAX -> Codec (r_text max what) w_text (fun b => len b <= max /\ is_utf8 b = true).
Proof.
  intros Hm bytes value rest. pose proof (bytes_codec max what Hm) as Hbc. unfold r_text, w_text. split.
  - intros H. apply reader_bind_ok in H as (n & mid & Hr & H). apply codec in Hr as [Hn ->].
    destruct (is_utf8 n) eqn:Hu; [|done]. by apply reader_ret_ok in H as [-> ->].
  - intros [[Hl Hu] ->]. erewrite reader_bind_eq by (refine (codec_read _ _ _ (Codec0 := Hbc) _ _ _); lia). by rewrite Hu.
Qed.

(** Every element of an optional value. *)
Definition opt_all {A} (P : A -> Prop) (o : option A) : Prop := match o with Some a => P a | None => True end.

#[export] Instance option_codec {A} what (read : Reader A) write valid :
  Codec read write valid -> Codec (r_option what read) (w_option write) (opt_all valid).
Proof.
  intros Hc bytes value rest. unfold r_option, w_option, opt_all. split.
  - intros H. apply reader_bind_ok in H as (t & mid & Hr & H). apply codec in Hr as [_ ->].
    destruct (Z.eqb_spec t 0) as [->|_]; [by apply reader_ret_ok in H as [-> ->]|].
    destruct (Z.eqb_spec t 1) as [->|_]; [|done]. read_inv H. by rewrite <- app_assoc.
  - intros [Hv ->]. destruct value as [v|]; rewrite <- ?app_assoc.
    + erewrite reader_bind_eq by (refine (codec_read (r_u8 what) _ _ _ _ _); apply (u8_bit true)). cbn [Z.eqb Pos.eqb]. by read_run.
    + by erewrite reader_bind_eq by (refine (codec_read (r_u8 what) _ _ _ _ _); apply (u8_bit false)).
Qed.

Lemma items_codec {A} (read : Reader A) write valid n :
  Codec read write valid ->
  Codec (r_items n read) (fun items => concat (map write items)) (fun items => length items = n /\ Forall valid items).
Proof.
  intros Hc. induction n as [|n IH]; intros bytes value rest; cbn [r_items].
  - rewrite reader_ret_ok. split; [by intros [-> ->]|]. intros [[Hl _] ->]. by destruct value.
  - split.
    + intros H. read_inv H. destruct Hv0 as [Hl Hf]. cbn [map concat length]. rewrite <- app_assoc.
      split; [split; [by rewrite Hl|by constructor]|done].
    + intros [[Hl Hf] ->]. destruct value as [|v value]; [done|]. apply Forall_cons in Hf as [Hv Hf].
      cbn [map concat]. rewrite <- app_assoc. erewrite reader_bind_eq by (by eapply codec_read).
      erewrite reader_bind_eq by (apply (@codec _ _ _ _ IH); split; [split; [by injection Hl|done]|done]). done.
Qed.

(** A value that takes at least one byte, as an item of a list must. *)
Class Nonempty {A} (write : A -> list byte) : Prop := nonempty value : 1 <= len (write value).

#[export] Instance list_codec {A} max what (read : Reader A) write valid :
  max <= U32_MAX -> Nonempty write -> Codec read write valid ->
  Codec (r_list max what read) (w_list write) (fun items => len items <= max /\ Forall valid items).
Proof.
  intros Hm Hw Hc bytes value rest. pose proof (len_codec max "items" what Hm) as Hlc. unfold r_list, w_list, r_counted. split.
  - intros H. apply reader_bind_ok in H as (n & mid & Hr & H). apply codec in Hr as [Hn ->].
    destruct (Z.ltb_spec (len mid) n); [done|]. apply (@codec _ _ _ _ (items_codec read write valid _ Hc)) in H as [[Hl Hf] ->].
    assert (len value = n) as <- by (unfold len; lia). rewrite <- app_assoc. split; [split; [lia|done]|done].
  - intros [[Hl Hf] ->]. rewrite <- app_assoc. len_facts. erewrite reader_bind_eq by (refine (codec_read _ _ _ (Codec0 := Hlc) _ _ _); lia).
    assert (Hlong : len value <= len (concat (map write value))).
    { clear Hl H Hf. induction value as [|v value IH]; [done|]. cbn [map concat]. rewrite len_cons, len_app.
      specialize (Hw v). lia. }
    rewrite len_app. destruct (Z.ltb_spec (len (concat (map write value)) + len rest) (len value)); [len_facts; lia|].
    apply (@codec _ _ _ _ (items_codec read write valid _ Hc)). split; [split; [unfold len; lia|done]|done].
Qed.

#[export] Instance u32_nonempty : Nonempty w_u32.
Proof. intros v. unfold w_u32. by rewrite len_to_le_bytes. Qed.

(** The bounds of readers are numerals. *)
#[export] Hint Extern 0 (_ <= _) => (by vm_compute) : typeclass_instances.

Definition is_text (max : Z) (b : list byte) : Prop := len b <= max /\ is_utf8 b = true.
Definition is_bytes (n : Z) (b : list byte) : Prop := len b = n.
Definition is_list {A} (max : Z) (valid : A -> Prop) (items : list A) : Prop := len items <= max /\ Forall valid items.

Lemma len_w_text b : len (w_text b) = 4 + len b.
Proof. unfold w_text, w_bytes, w_len, w_u32, w_fixed. by rewrite len_app, len_to_le_bytes. Qed.

Lemma text_nonempty_app a b : 1 <= len (w_text a ++ b).
Proof. rewrite len_app, len_w_text. len_facts. lia. Qed.

(** The codec of a record whose reader reads its fields in their order: [write] unfolds to the
    writes of the fields, and [valid] to what each field must be. *)
Ltac record_codec read write valid :=
  unfold read, write, valid;
  let bytes := fresh "bytes" in let value := fresh "value" in let rest := fresh "rest" in
  intros bytes value rest; split;
  [ let H := fresh "H" in intros H; read_inv H;
    split; [split_and?; assumption|cbn [map concat]; rewrite <- ?app_assoc; reflexivity]
  | let Hv := fresh "Hv" in intros [Hv ->]; decompose [and] Hv; cbn [map concat]; read_run; by destruct value ].
