(* ===== verification/Machine.v ===== *)
(** * The machine of a template's capture (src/nvx-rs/src/host/template/manifest.rs, lines 1-660,
    host/store/identity.rs, hypervisor.rs, contract.rs)

    The data that a manifest describes and a compatibility key projects, and the checks that both
    make of it. A [String] is its bytes; the message of a problem is its form. SHA-256, a third-party
    crate's, is the interface [Digest]. *)

From S2P Require Import Prelude Activation Export Cmdline AddressText.

(** [sha2::Sha256::digest]: a digest of 32 bytes. *)
Class Digest := {
  sha256 : list byte -> list byte;
  sha256_len bytes : len (sha256 bytes) = 32;
}.

Definition MICROVM_ABI_VERSION : Z := 1.
Definition SNAPSHOT_FORMAT_VERSION : Z := 2.
Definition DEVICE_STATE_SCHEMA_VERSION : Z := 1.
Definition TIME_ABI_VERSION : Z := 1.
Definition RESTORE_PACKET_VERSION : Z := 1.
Definition FILESYSTEM_SLOT_VERSION : Z := 1.
Definition MAX_COMMAND_LINE_LEN : Z := 2047.
Definition MAX_MEMORY_RANGES : Z := 128.
Definition MAX_DEVICES : Z := 64.
Definition MAX_DEVICE_RANGES : Z := 16.
Definition MAX_DEVICE_WORDS : Z := 64.
Definition MAX_TEXT_LEN : Z := 256.
Definition MAX_PROCESSORS : Z := 8.
Definition CPUID_ENTRY_LEN : Z := 44.
Definition MAX_CPUID_ENTRIES : Z := 1024.
Definition PROCESSOR_COUNTS : list Z := [1; 2; 4; 8].
Definition SHA256_LEN : Z := 32.

(** ** Runtime identities *)

Definition MAX_IDENTITY_LEN : Z := 128.

(** [Token::check]. *)
Definition token_ok (text : list byte) : bool :=
  (1 <=? len text) && (len text <=? MAX_IDENTITY_LEN) && forallb is_ascii_graphic text.

(** An [ArtifactIdentity] is its text, which [artifact_new] checks. *)
Definition artifact_new (text : list byte) : option (list byte) := if token_ok text then Some text else None.

Record RuntimeIdentity := mkRuntimeIdentity {
  openvmm : list byte;
  kernel : list byte;
  initramfs : list byte;
  boot_contract : Z;
  control_contract : list byte;
  control_session : Z;
}.

Definition runtime_check (self : RuntimeIdentity) : bool := token_ok (control_contract self).

(** ** Hypervisors *)

Inductive Hypervisor : Type := Kvm | Mshv | Whp.

#[export] Instance Hypervisor_eq_dec : EqDecision Hypervisor.
Proof. solve_decision. Defined.

Definition hypervisor_as_str (self : Hypervisor) : list byte :=
  match self with Kvm => bytes_of "kvm" | Mshv => bytes_of "mshv" | Whp => bytes_of "whp" end.

Definition parse_hypervisor (value : list byte) : option Hypervisor :=
  if bool_decide (value = bytes_of "kvm") then Some Kvm
  else if bool_decide (value = bytes_of "mshv") then Some Mshv
  else if bool_decide (value = bytes_of "whp") then Some Whp
  else None.

(** ** The CPU profile *)

Record CpuProfile := mkCpuProfile {
  vendor : list byte;
  generation : list byte;
  revision : Z;
  cpu_digest : list byte;
  effective_cpuid : list byte;
}.

Definition profile_id (self : CpuProfile) : list byte :=
  vendor self ++ bytes_of "." ++ generation self ++ bytes_of ".v" ++ dec (revision self).

Definition is_ascii_lowercase (b : byte) : bool := (97 <=? byte_val b) && (byte_val b <=? 122).

Definition is_profile_word (text : list byte) : bool :=
  (1 <=? len text) && (len text <=? 32)
  && forallb (fun b => is_ascii_lowercase b || is_ascii_digit b || (byte_val b =? 45)) text.

(** [str::parse::<u32>] of decimal digits. *)
Definition parse_u32 (digits : list byte) : option Z :=
  let value := decimal_value digits in if value <=? U32_MAX then Some value else None.

Definition parse_profile_id (id : list byte) : option (list byte * list byte * Z) :=
  match split_on (is_byte DOT) id with
  | vendor :: generation :: revision :: words =>
      digits ← strip_prefix (bytes_of "v") revision;
      if negb (bool_decide (words = [])) || negb (is_profile_word vendor) || negb (is_profile_word generation)
         || bool_decide (digits = []) || negb (forallb is_ascii_digit digits)
         || match digits with b :: _ => byte_val b =? 48 | [] => false end
      then None
      else revision ← parse_u32 digits; Some (vendor, generation, revision)
  | _ => None
  end.

(** ** Processors and memory *)

Record Rates := mkRates { tsc_hz : Z; apic_hz : Z; tolerance_ppm : Z }.

Record Topology := mkTopology {
  sockets : Z;
  dies_per_socket : Z;
  cores_per_die : Z;
  threads_per_core : Z;
  apic_ids : list Z;
}.

Record MemoryRange := mkMemoryRange { mr_start : Z; mr_length : Z }.

Fixpoint total_length_from (total : Z) (ranges : list MemoryRange) : option Z :=
  match ranges with
  | [] => Some total
  | range :: ranges =>
      if mr_length range =? 0 then None
      else
        _ ← checked_add U64_MAX (mr_start range) (mr_length range);
        total ← checked_add U64_MAX total (mr_length range);
        total_length_from total ranges
  end.

Definition total_length (ranges : list MemoryRange) : option Z := total_length_from 0 ranges.

Record Memory := mkMemory {
  boot : Z;
  capacity : Z;
  block_size : Z;
  mem_ranges : list MemoryRange;
  expansion : list MemoryRange;
}.

(** Why a machine is invalid: the forms of the messages, in the order of the checks. *)
Inductive GeometryProblem : Type := LogicalSize | PhysicalSize | Length.

Inductive MachineProblem : Type :=
| InvalidProfile | InvalidCpuid | InvalidProcessors | NoRates
| RamRanges | RamCapacity | RamExpansion
| LongCommandLine | CommandLineDigest
| BadBlock (role : string) (problem : GeometryProblem)
| NoInterruptMode | DeviceCount
| DeviceTexts (stable_id : list byte) | DeviceBounds (stable_id : list byte) | DeviceTwice (stable_id : list byte)
| NicTexts | NicPrefix.

(** [is_multiple_of], of a divisor that may be 0. *)
Definition is_multiple_of (n d : Z) : bool := if d =? 0 then n =? 0 else n mod d =? 0.

Definition memory_problem (self : Memory) : option MachineProblem :=
  if bool_decide (mem_ranges self = []) || (MAX_MEMORY_RANGES <? len (mem_ranges self))
     || negb (bool_decide (total_length (mem_ranges self) = Some (boot self))) || (boot self =? 0)
  then Some RamRanges
  else if (block_size self =? 0) || (capacity self <? boot self)
     || negb (is_multiple_of (boot self) (block_size self)) || negb (is_multiple_of (capacity self) (block_size self))
  then Some RamCapacity
  else if (MAX_MEMORY_RANGES <? len (expansion self))
     || negb (bool_decide (total_length (expansion self) = Some (capacity self - boot self)))
  then Some RamExpansion
  else None.

(** ** Devices *)

Inductive AddressSpace : Type := Mmio | Pmio.

Definition space_as_str (self : AddressSpace) : list byte :=
  match self with Mmio => bytes_of "mmio" | Pmio => bytes_of "pmio" end.

Definition parse_space (text : list byte) : option AddressSpace :=
  if bool_decide (text = bytes_of "mmio") then Some Mmio
  else if bool_decide (text = bytes_of "pmio") then Some Pmio
  else None.

Record DeviceRange := mkDeviceRange { space : AddressSpace; dr_start : Z; dr_length : Z }.

Record Device := mkDevice {
  stable_id : list byte;
  device_kind : list byte;
  state_unit : list byte;
  transport : list byte;
  device_ranges : list DeviceRange;
  irq : option Z;
  feature_banks : list Z;
  queue_count : Z;
  queue_max_sizes : list Z;
}.

Definition device_problem (self : Device) : option MachineProblem :=
  let texts := [stable_id self; device_kind self; state_unit self] in
  if existsb (fun text => MAX_TEXT_LEN <? len text) (texts ++ [transport self])
     || existsb (fun text => bool_decide (text = [])) texts
  then Some (DeviceTexts (stable_id self))
  else if (MAX_DEVICE_RANGES <? len (device_ranges self)) || (MAX_DEVICE_WORDS <? len (feature_banks self))
     || (MAX_DEVICE_WORDS <? len (queue_max_sizes self))
  then Some (DeviceBounds (stable_id self))
  else None.

Record Interrupts := mkInterrupts { mode : list byte; status_page_start : Z; status_page_length : Z }.

(** ** Blocks *)

Record BlockGeometry := mkBlockGeometry { length_ : Z; logical_block_size : Z; physical_block_size : Z }.

#[export] Instance BlockGeometry_eq_dec : EqDecision BlockGeometry.
Proof. solve_decision. Defined.

Definition is_power_of_two (n : Z) : bool := (0 <? n) && (Z.land n (n - 1) =? 0).

Definition geometry_problem (self : BlockGeometry) : option GeometryProblem :=
  if (logical_block_size self <? 512) || negb (is_power_of_two (logical_block_size self)) then Some LogicalSize
  else if (physical_block_size self <? logical_block_size self) || negb (is_power_of_two (physical_block_size self))
  then Some PhysicalSize
  else if (length_ self =? 0) || negb (is_multiple_of (length_ self) (logical_block_size self)) then Some Length
  else None.

(** ** The NIC; addresses are their octets *)

Record Ipv6Identity := mkIpv6Identity { v6_address : list byte; v6_prefix_length : Z; v6_gateway : list byte }.

Record PolicyIdentity := mkPolicyIdentity {
  policy_mode : list byte;
  policy_digest : list byte;
  required : bool;
  encoding_version : Z;
}.

Record Nic := mkNic {
  profile : list byte;
  guest_mac : list byte;
  gateway_mac : list byte;
  ipv4 : list byte;
  prefix_length : Z;
  gateway : list byte;
  ipv6 : option Ipv6Identity;
  policy : PolicyIdentity;
}.

Definition nic_problem (self : Nic) : option MachineProblem :=
  if existsb (fun text => bool_decide (text = []) || (MAX_TEXT_LEN <? len text)) [profile self; policy_mode (policy self)]
  then Some NicTexts
  else if negb ((1 <=? prefix_length self) && (prefix_length self <=? 30))
     || match ipv6 self with
        | Some v6 => negb ((1 <=? v6_prefix_length v6) && (v6_prefix_length v6 <=? 128))
        | None => false
        end
  then Some NicPrefix
  else None.

(** ** The machine *)

Record Machine := mkMachine {
  hypervisor : Hypervisor;
  cpu : CpuProfile;
  topology : Topology;
  rates : Rates;
  processors : Z;
  boot_processors : Z;
  memory : Memory;
  command_line : list byte;
  command_line_digest : list byte;
  distro : BlockGeometry;
  scratch : BlockGeometry;
  interrupts : Interrupts;
  devices : list Device;
  filesystem_slot : Z;
  nic : option Nic;
}.

(** The first block of the list that has a problem. *)
Fixpoint blocks_problem (blocks : list (string * BlockGeometry)) : option MachineProblem :=
  match blocks with
  | [] => None
  | (role, geometry) :: blocks =>
      match geometry_problem geometry with
      | Some problem => Some (BadBlock role problem)
      | None => blocks_problem blocks
      end
  end.

(** The loop over the devices, after the devices [before]. *)
Fixpoint devices_problem (before devices : list Device) : option MachineProblem :=
  match devices with
  | [] => None
  | device :: devices =>
      match device_problem device with
      | Some problem => Some problem
      | None =>
          if existsb (fun other => bool_decide (stable_id other = stable_id device)) before
          then Some (DeviceTwice (stable_id device))
          else devices_problem (before ++ [device]) devices
      end
  end.

Definition is_processor_count (count : Z) : bool := existsb (Z.eqb count) PROCESSOR_COUNTS.

Definition machine_problem `{Digest} (self : Machine) : option MachineProblem :=
  if negb (is_profile_word (vendor (cpu self))) || negb (is_profile_word (generation (cpu self)))
     || (revision (cpu self) =? 0)
  then Some InvalidProfile
  else if bool_decide (effective_cpuid (cpu self) = [])
     || negb (is_multiple_of (len (effective_cpuid (cpu self))) CPUID_ENTRY_LEN)
     || (MAX_CPUID_ENTRIES * CPUID_ENTRY_LEN <? len (effective_cpuid (cpu self)))
  then Some InvalidCpuid
  else if negb (is_processor_count (processors self))
     || negb (len (apic_ids (topology self)) =? processors self)
     || (processors self <? boot_processors self)
     || (negb (boot_processors self =? 0) && negb (is_processor_count (boot_processors self)))
  then Some InvalidProcessors
  else if (tsc_hz (rates self) =? 0) || (apic_hz (rates self) =? 0) then Some NoRates
  else match memory_problem (memory self) with
  | Some problem => Some problem
  | None =>
  if MAX_COMMAND_LINE_LEN <? len (command_line self) then Some LongCommandLine
  else if negb (bool_decide (command_line_digest self = sha256 (command_line self))) then Some CommandLineDigest
  else match blocks_problem [("distro", distro self); ("scratch", scratch self)] with
  | Some problem => Some problem
  | None =>
  if bool_decide (mode (interrupts self) = []) || (MAX_TEXT_LEN <? len (mode (interrupts self)))
  then Some NoInterruptMode
  else if bool_decide (devices self = []) || (MAX_DEVICES <? len (devices self)) then Some DeviceCount
  else match devices_problem [] (devices self) with
  | Some problem => Some problem
  | None => match nic self with Some nic => nic_problem nic | None => None end
  end end end.
