(* ===== verification/TemplateKey.v ===== *)
(** * The compatibility key of a template (src/nvx-rs/src/host/template/key.rs)

    The key's parts, its canonical encoding and its strict reader, over the combinators of
    [Canonical], and the identity that the encoding's digest gives it. *)

From stdpp Require Import sorting.
From S2P Require Import Prelude Activation Export Machine Canonical.

(** ** The contract versions *)

Record Contracts := mkContracts {
  snapshot : Z;
  device_state : Z;
  time : Z;
  restore_packet : Z;
  activation : Z;
}.

#[export] Instance Contracts_eq_dec : EqDecision Contracts.
Proof. solve_decision. Defined.

Definition CURRENT : Contracts :=
  mkContracts SNAPSHOT_FORMAT_VERSION DEVICE_STATE_SCHEMA_VERSION TIME_ABI_VERSION RESTORE_PACKET_VERSION 1.

Definition write_contracts (self : Contracts) : list byte :=
  concat (map w_u64 [snapshot self; device_state self; time self; restore_packet self; activation self]).

Definition read_contracts : Reader Contracts :=
  snapshot ← r_u64 "the snapshot format version";
  device_state ← r_u64 "the device-state schema version";
  time ← r_u64 "the time ABI version";
  restore_packet ← r_u64 "the restore packet version";
  activation ← r_u64 "the activation contract version";
  mret (mkContracts snapshot device_state time restore_packet activation).

(** ** The runtime *)

Definition write_runtime (runtime : RuntimeIdentity) : list byte :=
  concat (map w_text [openvmm runtime; kernel runtime; initramfs runtime])
  ++ w_u64 (boot_contract runtime)
  ++ w_text (control_contract runtime)
  ++ w_u64 (control_session runtime).

Definition read_artifact (what : string) : Reader (list byte) :=
  text ← r_text MAX_IDENTITY_LEN what;
  match artifact_new text with
  | Some identity => mret identity
  | None => refuse (Refuses "artifact identity must hold 1 to 128 printable ASCII characters and no space")
  end.

Definition read_runtime : Reader RuntimeIdentity :=
  openvmm ← read_artifact "the OpenVMM identity";
  kernel ← read_artifact "the kernel identity";
  initramfs ← read_artifact "the initramfs identity";
  boot_contract ← r_u64 "the boot contract version";
  control_contract ← r_text MAX_IDENTITY_LEN "the control contract revision";
  control_session ← r_u64 "the control session version";
  let runtime := mkRuntimeIdentity openvmm kernel initramfs boot_contract control_contract control_session in
  if runtime_check runtime then mret runtime
  else refuse (Refuses "control contract revision must hold 1 to 128 printable ASCII characters and no space").

(** ** Geometries *)

Definition write_geometry (geometry : BlockGeometry) : list byte :=
  w_u64 (length_ geometry) ++ w_u32 (logical_block_size geometry) ++ w_u32 (physical_block_size geometry).

Definition read_geometry (what : string) : Reader BlockGeometry :=
  length ← r_u64 what;
  logical_block_size ← r_u32 what;
  physical_block_size ← r_u32 what;
  mret (mkBlockGeometry length logical_block_size physical_block_size).

(** ** The invariant settings *)

Definition MAX_SETTINGS : Z := 64.
Definition MAX_NAME_LEN : Z := 64.
Definition MAX_VALUE_LEN : Z := 256.

(** The order of [str]: that of its bytes. *)
Fixpoint bytes_compare (a b : list byte) : comparison :=
  match a, b with
  | [], [] => Eq
  | [], _ :: _ => Lt
  | _ :: _, [] => Gt
  | x :: a, y :: b => match Z.compare (byte_val x) (byte_val y) with Eq => bytes_compare a b | c => c end
  end.

(** [BTreeMap<String, String>]: its entries, in the strict order of their names. *)
Abbreviation Settings := (list (list byte * list byte)).

Fixpoint settings_insert (name value : list byte) (settings : Settings) : Settings :=
  match settings with
  | [] => [(name, value)]
  | (n, v) :: settings =>
      match bytes_compare name n with
      | Lt => (name, value) :: (n, v) :: settings
      | Eq => (name, value) :: settings
      | Gt => (n, v) :: settings_insert name value settings
      end
  end.

Fixpoint settings_get (name : list byte) (settings : Settings) : option (list byte) :=
  match settings with
  | [] => None
  | (n, v) :: settings => if bool_decide (n = name) then Some v else settings_get name settings
  end.

Definition name_valid (name : list byte) : bool :=
  (1 <=? len name) && (len name <=? MAX_NAME_LEN)
  && match name with b :: _ => is_ascii_lowercase b | [] => false end
  && forallb (fun b => is_ascii_lowercase b || is_ascii_digit b || existsb (Z.eqb (byte_val b)) [46; 45; 95]) name.

Definition value_valid (value : list byte) : bool :=
  negb ((MAX_VALUE_LEN <? len value)
        || negb (forallb (fun b => (32 <=? byte_val b) && (byte_val b <? 127)) value)).

Definition check_setting (name value : list byte) : result CanonicalError unit :=
  if negb (name_valid name) then
    Err (Refuses "invariant setting must be named by 1 to 64 lowercase ASCII letters, digits, '.', '-', or '_', starting with a letter")
  else if negb (value_valid value) then
    Err (Refuses "the value of invariant setting must hold at most 256 printable ASCII characters")
  else Ok tt.

(** [Invariants::with]. *)
Definition with_setting (self : Settings) (name value : list byte) : result CanonicalError Settings :=
  _ ← check_setting name value;
  if bool_decide (settings_get name self = None) && (len self =? MAX_SETTINGS) then
    Err (Refuses "a template holds at most 64 invariant settings")
  else Ok (settings_insert name value self).

Definition write_setting (setting : list byte * list byte) : list byte := w_text setting.1 ++ w_text setting.2.

Definition write_invariants (self : Settings) : list byte := w_list write_setting self.

Definition read_setting : Reader (list byte * list byte) :=
  name ← r_text MAX_NAME_LEN "the name of a setting";
  value ← r_text MAX_VALUE_LEN "the value of a setting";
  match check_setting name value with
  | Ok _ => mret (name, value)
  | Err e => refuse e
  end.

(** [settings.windows(2).any(|pair| pair[0].0 >= pair[1].0)]. *)
Fixpoint out_of_order (settings : Settings) : bool :=
  match settings with
  | (a, _) :: (((b, _) :: _) as rest) =>
      (match bytes_compare a b with Lt => false | _ => true end) || out_of_order rest
  | _ => false
  end.

Definition read_invariants : Reader Settings :=
  settings ← r_list MAX_SETTINGS "the invariant settings" read_setting;
  if out_of_order settings then refuse (Refuses "the invariant settings are not in the strict order of their names")
  else mret (foldl (fun map setting => settings_insert setting.1 setting.2 map) [] settings).

(** ** The machine *)

Definition short (what : string) : Reader (list byte) := r_text MAX_TEXT_LEN what.

Definition write_cpu (cpu : CpuProfile) : list byte :=
  w_text (vendor cpu) ++ w_text (generation cpu) ++ w_u32 (revision cpu) ++ w_fixed (cpu_digest cpu)
  ++ w_bytes (effective_cpuid cpu).

Definition read_cpu : Reader CpuProfile :=
  vendor ← short "the CPU vendor";
  generation ← short "the CPU generation";
  revision ← r_u32 "the CPU profile revision";
  digest ← r_fixed SHA256_LEN "the CPU profile digest";
  effective_cpuid ← r_bytes (MAX_CPUID_ENTRIES * CPUID_ENTRY_LEN) "the effective CPUID";
  mret (mkCpuProfile vendor generation revision digest effective_cpuid).

Definition write_topology (topology : Topology) : list byte :=
  concat (map w_u32 [sockets topology; dies_per_socket topology; cores_per_die topology; threads_per_core topology])
  ++ w_list w_u32 (apic_ids topology).

Definition read_topology : Reader Topology :=
  sockets ← r_u32 "the sockets";
  dies_per_socket ← r_u32 "the dies of each socket";
  cores_per_die ← r_u32 "the cores of each die";
  threads_per_core ← r_u32 "the threads of each core";
  apic_ids ← r_list MAX_PROCESSORS "the APIC IDs" (r_u32 "an APIC ID");
  mret (mkTopology sockets dies_per_socket cores_per_die threads_per_core apic_ids).

Definition write_rates (rates : Rates) : list byte :=
  w_u64 (tsc_hz rates) ++ w_u64 (apic_hz rates) ++ w_u32 (tolerance_ppm rates).

Definition read_rates : Reader Rates :=
  tsc_hz ← r_u64 "the TSC rate";
  apic_hz ← r_u64 "the LAPIC timer rate";
  tolerance_ppm ← r_u32 "the rate tolerance";
  mret (mkRates tsc_hz apic_hz tolerance_ppm).

Definition write_range (range : MemoryRange) : list byte := w_u64 (mr_start range) ++ w_u64 (mr_length range).

Definition read_range (what : string) : Reader MemoryRange :=
  start ← r_u64 what;
  length ← r_u64 what;
  mret (mkMemoryRange start length).

Definition write_memory (memory : Memory) : list byte :=
  w_u64 (boot memory) ++ w_u64 (capacity memory) ++ w_u64 (block_size memory)
  ++ w_list write_range (mem_ranges memory) ++ w_list write_range (expansion memory).

Definition read_memory : Reader Memory :=
  boot ← r_u64 "the RAM";
  capacity ← r_u64 "the RAM capacity";
  block_size ← r_u64 "the RAM block size";
  ranges ← r_list MAX_MEMORY_RANGES "the RAM ranges" (read_range "the RAM ranges");
  expansion ← r_list MAX_MEMORY_RANGES "the RAM expansion ranges" (read_range "the RAM expansion ranges");
  mret (mkMemory boot capacity block_size ranges expansion).

Definition write_interrupts (interrupts : Interrupts) : list byte :=
  w_text (mode interrupts) ++ w_u64 (status_page_start interrupts) ++ w_u64 (status_page_length interrupts).

Definition read_interrupts : Reader Interrupts :=
  mode ← short "the interrupt delivery mode";
  status_page_start ← r_u64 "the interrupt-status page";
  status_page_length ← r_u64 "the interrupt-status page";
  mret (mkInterrupts mode status_page_start status_page_length).

Definition write_device_range (range : DeviceRange) : list byte :=
  w_text (space_as_str (space range)) ++ w_u64 (dr_start range) ++ w_u64 (dr_length range).

Definition read_space : Reader AddressSpace :=
  text ← r_text MAX_TEXT_LEN "an address space";
  match parse_space text with
  | Some space => mret space
  | None => refuse (Refuses "the address space is unknown")
  end.

Definition read_device_range : Reader DeviceRange :=
  space ← read_space;
  start ← r_u64 "a device range";
  length ← r_u64 "a device range";
  mret (mkDeviceRange space start length).

Definition write_device (device : Device) : list byte :=
  concat (map w_text [stable_id device; device_kind device; state_unit device; transport device])
  ++ w_list write_device_range (device_ranges device)
  ++ w_option w_u32 (irq device)
  ++ w_list w_u32 (feature_banks device)
  ++ w_u32 (queue_count device)
  ++ w_list w_u32 (queue_max_sizes device).

Definition read_device : Reader Device :=
  stable_id ← short "a device ID";
  kind ← short "a device kind";
  state_unit ← short "a device's state unit";
  transport ← short "a device's transport";
  ranges ← r_list MAX_DEVICE_RANGES "a device's ranges" read_device_range;
  irq ← r_option "a device's interrupt" (r_u32 "a device's interrupt");
  feature_banks ← r_list MAX_DEVICE_WORDS "a device's features" (r_u32 "a feature bank");
  queue_count ← r_u32 "a device's queue count";
  queue_max_sizes ← r_list MAX_DEVICE_WORDS "a device's queue sizes" (r_u32 "a queue size");
  mret (mkDevice stable_id kind state_unit transport ranges irq feature_banks queue_count queue_max_sizes).

Definition write_ipv6 (ipv6 : Ipv6Identity) : list byte :=
  w_fixed (v6_address ipv6) ++ w_u8 (v6_prefix_length ipv6) ++ w_fixed (v6_gateway ipv6).

Definition read_ipv6 : Reader Ipv6Identity :=
  address ← r_fixed 16 "the guest's IPv6 address";
  prefix_length ← r_u8 "the IPv6 prefix length";
  gateway ← r_fixed 16 "the IPv6 gateway";
  mret (mkIpv6Identity address prefix_length gateway).

Definition write_policy (policy : PolicyIdentity) : list byte :=
  w_text (policy_mode policy) ++ w_fixed (policy_digest policy) ++ w_bool (required policy)
  ++ w_u32 (encoding_version policy).

Definition read_policy : Reader PolicyIdentity :=
  mode ← short "the network policy's mode";
  digest ← r_fixed SHA256_LEN "the network policy's digest";
  required ← r_bool "whether the network policy is required";
  encoding_version ← r_u32 "the network policy's encoding version";
  mret (mkPolicyIdentity mode digest required encoding_version).

Definition write_nic (nic : Nic) : list byte :=
  w_text (profile nic) ++ w_fixed (guest_mac nic) ++ w_fixed (gateway_mac nic) ++ w_fixed (ipv4 nic)
  ++ w_u8 (prefix_length nic) ++ w_fixed (gateway nic) ++ w_option write_ipv6 (ipv6 nic)
  ++ write_policy (policy nic).

Definition read_nic : Reader Nic :=
  profile ← short "the network profile";
  guest_mac ← r_fixed 6 "the guest's MAC address";
  gateway_mac ← r_fixed 6 "the gateway's MAC address";
  ipv4 ← r_fixed 4 "the guest's IPv4 address";
  prefix_length ← r_u8 "the IPv4 prefix length";
  gateway ← r_fixed 4 "the IPv4 gateway";
  ipv6 ← r_option "the IPv6 identity" read_ipv6;
  policy ← read_policy;
  mret (mkNic profile guest_mac gateway_mac ipv4 prefix_length gateway ipv6 policy).

Definition write_machine (machine : Machine) (tag : list byte) : list byte :=
  w_text (hypervisor_as_str (hypervisor machine))
  ++ write_cpu (cpu machine) ++ write_topology (topology machine) ++ write_rates (rates machine)
  ++ w_u32 (processors machine) ++ w_u32 (boot_processors machine) ++ write_memory (memory machine)
  ++ w_text (command_line machine) ++ w_fixed (command_line_digest machine)
  ++ write_geometry (distro machine) ++ write_geometry (scratch machine)
  ++ write_interrupts (interrupts machine) ++ w_list write_device (devices machine)
  ++ w_u32 (filesystem_slot machine) ++ w_text tag ++ w_option write_nic (nic machine).

Definition read_hypervisor : Reader Hypervisor :=
  backend ← short "the backend";
  match parse_hypervisor backend with
  | Some hypervisor => mret hypervisor
  | None => refuse (Refuses "the backend is unknown")
  end.

Section Key.
Context `{Digest}.

Definition read_machine : Reader (Machine * list byte) :=
  hypervisor ← read_hypervisor;
  cpu ← read_cpu;
  topology ← read_topology;
  rates ← read_rates;
  processors ← r_u32 "the processor capacity";
  boot_processors ← r_u32 "the processors online at boot";
  memory ← read_memory;
  command_line ← r_text MAX_COMMAND_LINE_LEN "the command line";
  command_line_digest ← r_fixed SHA256_LEN "the command line's digest";
  distro ← read_geometry "the distro geometry";
  scratch ← read_geometry "the scratch geometry";
  interrupts ← read_interrupts;
  devices ← r_list MAX_DEVICES "the devices" read_device;
  filesystem_slot ← r_u32 "the filesystem slot version";
  tag ← short "the filesystem tag";
  nic ← r_option "the NIC" read_nic;
  let machine := mkMachine hypervisor cpu topology rates processors boot_processors memory command_line
    command_line_digest distro scratch interrupts devices filesystem_slot nic in
  match machine_problem machine with
  | Some problem => refuse (Refuses "the machine is invalid")
  | None =>
      if negb (Machine.filesystem_slot machine =? FILESYSTEM_SLOT_VERSION) || bool_decide (tag = [])
      then refuse (Refuses "the filesystem slot is not the dormant slot of version 1, with a tag")
      else mret (machine, tag)
  end.

(** ** The key *)

Record TemplateKey := mkTemplateKey {
  runtime : RuntimeIdentity;
  guest_build : list byte;
  contracts : Contracts;
  machine : Machine;
  filesystem_tag : list byte;
  invariants : Settings;
}.

Definition KEY_VERSION : Z := 1.
Definition MAX_LEN : Z := 256 * 1024.

Definition to_bytes (self : TemplateKey) : list byte :=
  w_u16 KEY_VERSION ++ write_runtime (runtime self) ++ w_text (guest_build self) ++ write_contracts (contracts self)
  ++ write_machine (machine self) (filesystem_tag self) ++ write_invariants (invariants self).

Inductive KeyError : Type :=
| KeyTooLong (len : Z)
| KeyMalformed (error : CanonicalError)
| FormatUnsupported (version : Z).

(** The closure [read]. *)
Definition read_key : Reader TemplateKey :=
  runtime ← read_runtime;
  guest_build ← read_artifact "the guest build";
  contracts ← read_contracts;
  '(machine, filesystem_tag) ← read_machine;
  invariants ← read_invariants;
  mret (mkTemplateKey runtime guest_build contracts machine filesystem_tag invariants).

Definition from_bytes (bytes : list byte) : result KeyError TemplateKey :=
  if MAX_LEN <? len bytes then Err (KeyTooLong (len bytes))
  else
    '(version, rest) ← map_err KeyMalformed (r_u16 "the version" bytes);
    if negb (version =? KEY_VERSION) then Err (FormatUnsupported version)
    else
      '(key, rest) ← map_err KeyMalformed (read_key rest);
      _ ← map_err KeyMalformed (finish rest);
      Ok key.

Definition KEY_DOMAIN : list byte := bytes_of "nvx template key" ++ [byte_of 0].
Definition CLASS_DOMAIN : list byte := bytes_of "nvx capture class" ++ [byte_of 0].

Definition digest (domain bytes : list byte) : list byte := sha256 (domain ++ bytes).

Definition identity (self : TemplateKey) : list byte := digest KEY_DOMAIN (to_bytes self).

Definition speaks_current_contracts (self : TemplateKey) : bool :=
  bool_decide (contracts self = CURRENT).
End Key.

(** ** Values of the right types *)

Definition contracts_typed (c : Contracts) : Prop :=
  is_u64 (snapshot c) /\ is_u64 (device_state c) /\ is_u64 (time c) /\ is_u64 (restore_packet c) /\ is_u64 (activation c).

#[export] Instance contracts_codec : Codec read_contracts write_contracts contracts_typed.
Proof. record_codec read_contracts write_contracts contracts_typed. Qed.

Definition geometry_typed (g : BlockGeometry) : Prop :=
  is_u64 (length_ g) /\ is_u32 (logical_block_size g) /\ is_u32 (physical_block_size g).

#[export] Instance geometry_codec what : Codec (read_geometry what) write_geometry geometry_typed.
Proof. record_codec read_geometry write_geometry geometry_typed. Qed.

Definition cpu_typed (c : CpuProfile) : Prop :=
  is_text MAX_TEXT_LEN (vendor c) /\ is_text MAX_TEXT_LEN (generation c) /\ is_u32 (revision c)
  /\ is_bytes SHA256_LEN (cpu_digest c) /\ len (effective_cpuid c) <= MAX_CPUID_ENTRIES * CPUID_ENTRY_LEN.

#[export] Instance short_codec what : Codec (short what) w_text (is_text MAX_TEXT_LEN).
Proof. apply text_codec. by vm_compute. Qed.

#[export] Instance cpu_codec : Codec read_cpu write_cpu cpu_typed.
Proof. record_codec read_cpu write_cpu cpu_typed. Qed.

Definition topology_typed (t : Topology) : Prop :=
  is_u32 (sockets t) /\ is_u32 (dies_per_socket t) /\ is_u32 (cores_per_die t) /\ is_u32 (threads_per_core t)
  /\ is_list MAX_PROCESSORS is_u32 (apic_ids t).

#[export] Instance topology_codec : Codec read_topology write_topology topology_typed.
Proof. record_codec read_topology write_topology topology_typed. Qed.

Definition rates_typed (r : Rates) : Prop := is_u64 (tsc_hz r) /\ is_u64 (apic_hz r) /\ is_u32 (tolerance_ppm r).

#[export] Instance rates_codec : Codec read_rates write_rates rates_typed.
Proof. record_codec read_rates write_rates rates_typed. Qed.

Definition range_typed (r : MemoryRange) : Prop := is_u64 (mr_start r) /\ is_u64 (mr_length r).

#[export] Instance range_codec what : Codec (read_range what) write_range range_typed.
Proof. record_codec read_range write_range range_typed. Qed.

#[export] Instance range_nonempty : Nonempty write_range.
Proof. intros v. unfold write_range, w_u64. by rewrite len_app, !len_to_le_bytes. Qed.

Definition memory_typed (m : Memory) : Prop :=
  is_u64 (boot m) /\ is_u64 (capacity m) /\ is_u64 (block_size m)
  /\ is_list MAX_MEMORY_RANGES range_typed (mem_ranges m) /\ is_list MAX_MEMORY_RANGES range_typed (expansion m).

#[export] Instance memory_codec : Codec read_memory write_memory memory_typed.
Proof. record_codec read_memory write_memory memory_typed. Qed.

Definition interrupts_typed (i : Interrupts) : Prop :=
  is_text MAX_TEXT_LEN (mode i) /\ is_u64 (status_page_start i) /\ is_u64 (status_page_length i).

#[export] Instance interrupts_codec : Codec read_interrupts write_interrupts interrupts_typed.
Proof. record_codec read_interrupts write_interrupts interrupts_typed. Qed.

(** A reader that takes the spellings of a type: [parse] inverts [spell]. *)
Lemma spelled_codec {A} (reader : Reader (list byte)) (parse : list byte -> option A) (spell : A -> list byte) max error :
  Codec reader w_text (is_text max) -> (forall a, is_text max (spell a)) ->
  (forall text a, parse text = Some a <-> text = spell a) ->
  Codec (text ← reader; match parse text with Some a => mret a | None => refuse error end)
    (fun a => w_text (spell a)) (fun _ => True).
Proof.
  intros Hr Hs Hp bytes value rest. split.
  - intros H. apply reader_bind_ok in H as (text & mid & Ht & H). apply codec in Ht as [_ ->].
    destruct (parse text) as [a|] eqn:Ha; [|done]. apply reader_ret_ok in H as [-> ->]. apply Hp in Ha as ->. done.
  - intros [_ ->]. erewrite reader_bind_run; [|exact Hr|apply Hs]. rewrite (proj2 (Hp _ value) eq_refl). done.
Qed.

Lemma parse_hypervisor_spec text h : parse_hypervisor text = Some h <-> text = hypervisor_as_str h.
Proof.
  unfold parse_hypervisor. split.
  - repeat (case_bool_decide; [intros [= <-]; done|]). done.
  - intros ->. by destruct h.
Qed.

Lemma parse_space_spec text a : parse_space text = Some a <-> text = space_as_str a.
Proof.
  unfold parse_space. split.
  - repeat (case_bool_decide; [intros [= <-]; done|]). done.
  - intros ->. by destruct a.
Qed.

#[export] Instance hypervisor_codec : Codec read_hypervisor (fun h => w_text (hypervisor_as_str h)) (fun _ => True).
Proof. apply (spelled_codec _ _ _ MAX_TEXT_LEN); [apply _|by intros []|apply parse_hypervisor_spec]. Qed.

#[export] Instance space_codec : Codec read_space (fun a => w_text (space_as_str a)) (fun _ => True).
Proof. apply (spelled_codec _ _ _ MAX_TEXT_LEN); [apply short_codec; exact ""%string|by intros []|apply parse_space_spec]. Qed.

Lemma ascii_utf8 text : Forall (fun b => byte_val b <= 127) text -> is_utf8 text = true.
Proof.
  induction 1 as [|b text Hb _ IH]; [done|]. cbn [is_utf8]. unfold in_bytes at 1.
  pose proof (byte_val_range b). rewrite (proj2 (Z.leb_le 0 _)), (proj2 (Z.leb_le _ 127)) by lia. done.
Qed.

Lemma token_text text : token_ok text = true -> is_text MAX_IDENTITY_LEN text.
Proof.
  unfold token_ok. intros [[_ Hl%Z.leb_le]%andb_true_iff Hg]%andb_true_iff. split; [done|].
  apply ascii_utf8, Forall_forall. intros b Hb%list_elem_of_In. rewrite forallb_forall in Hg. specialize (Hg b Hb).
  unfold is_ascii_graphic in Hg. apply andb_true_iff in Hg as [_ ?%Z.leb_le]. lia.
Qed.

#[export] Instance artifact_codec what : Codec (read_artifact what) w_text (fun text => token_ok text = true).
Proof.
  intros bytes value rest. unfold read_artifact, artifact_new. split.
  - intros H. apply reader_bind_ok in H as (text & mid & Ht & H). apply codec in Ht as [Hv ->].
    destruct (token_ok text) eqn:Ha; [|done]. by apply reader_ret_ok in H as [-> ->].
  - intros [Ht ->]. erewrite reader_bind_run; [|typeclasses eauto|by apply token_text]. by rewrite Ht.
Qed.

Definition runtime_typed (r : RuntimeIdentity) : Prop :=
  token_ok (openvmm r) = true /\ token_ok (kernel r) = true /\ token_ok (initramfs r) = true
  /\ is_u64 (boot_contract r) /\ token_ok (control_contract r) = true /\ is_u64 (control_session r).

#[export] Instance runtime_codec : Codec read_runtime write_runtime runtime_typed.
Proof.
  unfold read_runtime, write_runtime, runtime_typed, runtime_check. intros bytes value rest. split.
  - intros H. read_inv H. cbn [control_contract] in H. destruct (token_ok f3) eqn:Hc; [|done].
    apply reader_ret_ok in H as [-> ->]. split; [by split_and!|]. cbn [map concat]. by rewrite <- ?app_assoc.
  - intros [(? & ? & ? & ? & Hc & ?) ->]. pose proof (token_text _ Hc). cbn [map concat]. read_run.
    cbn [control_contract]. rewrite Hc. by destruct value.
Qed.

Definition device_range_typed (r : DeviceRange) : Prop := True /\ is_u64 (dr_start r) /\ is_u64 (dr_length r).

#[export] Instance device_range_codec : Codec read_device_range write_device_range device_range_typed.
Proof.
  unfold read_device_range, write_device_range, device_range_typed. intros bytes value rest. split.
  - intros H. read_inv H. split; [by split_and!|]. by rewrite <- ?app_assoc.
  - intros [(_ & ? & ?) ->]. rewrite <- app_assoc.
    erewrite (reader_bind_run read_space (fun a => w_text (space_as_str a))); [|typeclasses eauto|done].
    read_run. by destruct value.
Qed.

#[export] Instance device_range_nonempty : Nonempty write_device_range.
Proof. intros v. apply text_nonempty_app. Qed.

Definition device_typed (d : Device) : Prop :=
  is_text MAX_TEXT_LEN (stable_id d) /\ is_text MAX_TEXT_LEN (device_kind d) /\ is_text MAX_TEXT_LEN (state_unit d)
  /\ is_text MAX_TEXT_LEN (transport d) /\ is_list MAX_DEVICE_RANGES device_range_typed (device_ranges d)
  /\ opt_all is_u32 (irq d) /\ is_list MAX_DEVICE_WORDS is_u32 (feature_banks d) /\ is_u32 (queue_count d)
  /\ is_list MAX_DEVICE_WORDS is_u32 (queue_max_sizes d).

#[export] Instance device_codec : Codec read_device write_device device_typed.
Proof. record_codec read_device write_device device_typed. Qed.

#[export] Instance device_nonempty : Nonempty write_device.
Proof. intros v. unfold write_device. cbn [map concat]. rewrite <- app_assoc. apply text_nonempty_app. Qed.

Definition ipv6_typed (i : Ipv6Identity) : Prop :=
  is_bytes 16 (v6_address i) /\ is_u8 (v6_prefix_length i) /\ is_bytes 16 (v6_gateway i).

#[export] Instance ipv6_codec : Codec read_ipv6 write_ipv6 ipv6_typed.
Proof. record_codec read_ipv6 write_ipv6 ipv6_typed. Qed.

Definition policy_typed (p : PolicyIdentity) : Prop :=
  is_text MAX_TEXT_LEN (policy_mode p) /\ is_bytes SHA256_LEN (policy_digest p) /\ is_u32 (encoding_version p).

#[export] Instance policy_codec : Codec read_policy write_policy policy_typed.
Proof.
  unfold read_policy, write_policy, policy_typed. intros bytes value rest. split.
  - intros H. read_inv H. split; [by split_and!|]. by rewrite <- ?app_assoc.
  - intros [(? & ? & ?) ->]. pose proof I. read_run. by destruct value.
Qed.

Definition nic_typed (n : Nic) : Prop :=
  is_text MAX_TEXT_LEN (profile n) /\ is_bytes 6 (guest_mac n) /\ is_bytes 6 (gateway_mac n) /\ is_bytes 4 (ipv4 n)
  /\ is_u8 (prefix_length n) /\ is_bytes 4 (gateway n) /\ opt_all ipv6_typed (ipv6 n) /\ policy_typed (policy n).

#[export] Instance nic_codec : Codec read_nic write_nic nic_typed.
Proof. record_codec read_nic write_nic nic_typed. Qed.

(** ** The settings in their order *)

Lemma bytes_compare_eq a b : bytes_compare a b = Eq <-> a = b.
Proof.
  revert b. induction a as [|x a IH]; intros [|y b]; cbn [bytes_compare]; try (split; done).
  destruct (Z.compare_spec (byte_val x) (byte_val y)) as [Hxy%byte_val_inj|Hxy|Hxy].
  - subst y. rewrite IH. split; [by intros ->|by intros [= ->]].
  - split; [done|]. intros [= -> ->]. lia.
  - split; [done|]. intros [= -> ->]. lia.
Qed.

Lemma bytes_compare_antisym a b : bytes_compare b a = CompOpp (bytes_compare a b).
Proof.
  revert b. induction a as [|x a IH]; intros [|y b]; cbn [bytes_compare]; try done.
  rewrite (Z.compare_antisym (byte_val x)). rewrite IH. by destruct (Z.compare (byte_val x) (byte_val y)).
Qed.

Lemma bytes_compare_trans a b c : bytes_compare a b = Lt -> bytes_compare b c = Lt -> bytes_compare a c = Lt.
Proof.
  revert b c. induction a as [|x a IH]; intros [|y b] [|z c]; cbn [bytes_compare]; try done.
  destruct (Z.compare_spec (byte_val x) (byte_val y)), (Z.compare_spec (byte_val y) (byte_val z)),
    (Z.compare_spec (byte_val x) (byte_val z)); try done; try lia. apply IH.
Qed.

Definition before (s t : list byte * list byte) : Prop := bytes_compare s.1 t.1 = Lt.

Lemma in_order_sorted settings : out_of_order settings = false <-> StronglySorted before settings.
Proof.
  split.
  - induction settings as [|[a v] settings IH]; [constructor|]. destruct settings as [|[b w] rest].
    { intros _. repeat constructor. }
    cbn [out_of_order]. intros [Hab Hr]%orb_false_iff. specialize (IH Hr). constructor; [done|].
    assert (Hlt : before (a, v) (b, w)) by (unfold before; cbn; by destruct (bytes_compare a b)).
    constructor; [done|]. apply StronglySorted_inv in IH as [_ Hf]. eapply Forall_impl; [exact Hf|].
    intros t Ht. by eapply bytes_compare_trans.
  - induction 1 as [|[a v] settings Hs IH Hf]; [done|]. destruct settings as [|[b w] rest]; [done|].
    cbn [out_of_order]. apply Forall_cons in Hf as [Hab _]. unfold before in Hab. cbn in Hab. by rewrite Hab.
Qed.

Lemma settings_insert_last settings name value :
  Forall (fun s => bytes_compare s.1 name = Lt) settings -> settings_insert name value settings = settings ++ [(name, value)].
Proof.
  induction 1 as [|[n v] settings Hn _ IH]; [done|]. cbn [settings_insert].
  rewrite (bytes_compare_antisym n name). cbn in Hn. rewrite Hn. cbn [CompOpp]. by rewrite IH.
Qed.

Lemma collect_sorted done_ settings :
  StronglySorted before (done_ ++ settings) ->
  foldl (fun map setting => settings_insert setting.1 setting.2 map) done_ settings = done_ ++ settings.
Proof.
  revert done_. induction settings as [|[n v] settings IH]; intros done_ Hs; cbn [foldl fst snd]; [by rewrite app_nil_r|].
  rewrite settings_insert_last.
  - rewrite IH; rewrite <- app_assoc; done.
  - apply Forall_forall. intros s Hin. apply (StronglySorted_app_1_elem_of _ done_ ((n, v) :: settings)) with (x1 := s) (x2 := (n, v)) in Hs;
      [done|done|]. apply elem_of_cons. by left.
Qed.

Definition setting_typed (s : list byte * list byte) : Prop := name_valid s.1 = true /\ value_valid s.2 = true.

Lemma setting_texts s : setting_typed s -> is_text MAX_NAME_LEN s.1 /\ is_text MAX_VALUE_LEN s.2.
Proof.
  destruct s as [name value]. unfold setting_typed, name_valid, value_valid. cbn [fst snd]. intros [Hn Hv].
  apply andb_true_iff in Hn as [[[_ Hl%Z.leb_le]%andb_true_iff _]%andb_true_iff Hn].
  apply negb_true_iff, orb_false_iff in Hv as [Hvl%Z.ltb_ge Hv%negb_false_iff].
  rewrite forallb_forall in Hn, Hv. split; (split; [done|]); apply ascii_utf8, Forall_forall; intros b Hb%list_elem_of_In.
  - specialize (Hn b Hb). unfold is_ascii_lowercase, is_ascii_digit in Hn. cbn [existsb] in Hn. bool_to_prop. lia.
  - specialize (Hv b Hb). bool_to_prop. lia.
Qed.

#[export] Instance setting_codec : Codec read_setting write_setting setting_typed.
Proof.
  unfold read_setting, write_setting, check_setting. intros bytes value rest. split.
  - intros H. read_inv H. destruct (name_valid f) eqn:Hn; [|done]. destruct (value_valid f0) eqn:Hvv; [|done].
    apply reader_ret_ok in H as [-> ->]. split; [done|]. by rewrite <- app_assoc.
  - intros [Ht ->]. destruct (setting_texts _ Ht). destruct Ht as [Hn Hv]. read_run. rewrite Hn, Hv. by destruct value.
Qed.

#[export] Instance setting_nonempty : Nonempty write_setting.
Proof. intros v. apply text_nonempty_app. Qed.

Definition settings_typed (s : Settings) : Prop := is_list MAX_SETTINGS setting_typed s /\ StronglySorted before s.

#[export] Instance invariants_codec : Codec read_invariants write_invariants settings_typed.
Proof.
  unfold read_invariants, write_invariants, settings_typed. intros bytes value rest. split.
  - intros H. apply reader_bind_ok in H as (s & mid & Hr & H). apply codec in Hr as [Hv ->].
    destruct (out_of_order s) eqn:Ho; [done|]. apply in_order_sorted in Ho. apply reader_ret_ok in H as [-> ->].
    by rewrite collect_sorted.
  - intros [[Hl Hs] ->]. read_run. rewrite (proj2 (in_order_sorted value) Hs). by rewrite collect_sorted.
Qed.

(** ** Adding a setting *)

Lemma settings_insert_elem name value settings t :
  t ∈ settings_insert name value settings -> t = (name, value) \/ t ∈ settings.
Proof.
  induction settings as [|[n v] settings IH]; cbn [settings_insert]; [rewrite list_elem_of_singleton; auto|].
  destruct (bytes_compare name n); rewrite !elem_of_cons; [tauto|tauto|]. intros [->|Ht]; [tauto|]. destruct (IH Ht); tauto.
Qed.

Lemma settings_insert_sorted name value settings :
  StronglySorted before settings -> StronglySorted before (settings_insert name value settings).
Proof.
  induction 1 as [|[n v] settings Hs IH Hf]; cbn [settings_insert]; [repeat constructor|].
  destruct (bytes_compare name n) eqn:Hc.
  - apply bytes_compare_eq in Hc as ->. by constructor.
  - constructor; [by constructor|]. constructor; [exact Hc|]. eapply Forall_impl; [exact Hf|]. intros t Ht.
    by eapply bytes_compare_trans.
  - constructor; [done|]. apply Forall_forall. intros t [->|Ht]%settings_insert_elem.
    + unfold before. cbn. rewrite bytes_compare_antisym, Hc. done.
    + rewrite Forall_forall in Hf. auto.
Qed.

Lemma settings_get_none name settings :
  Forall (fun t => bytes_compare name t.1 = Lt) settings -> settings_get name settings = None.
Proof.
  induction 1 as [|[n v] settings Hn _ IH]; [done|]. cbn [settings_get]. rewrite bool_decide_false; [done|].
  intros <-. cbn in Hn. by rewrite (proj2 (bytes_compare_eq n n) eq_refl) in Hn.
Qed.

Lemma settings_insert_len name value settings :
  StronglySorted before settings ->
  len (settings_insert name value settings) = len settings + (if bool_decide (settings_get name settings = None) then 1 else 0).
Proof.
  induction 1 as [|[n v] settings Hs IH Hf]; cbn [settings_insert settings_get]; [done|].
  destruct (bytes_compare name n) eqn:Hc.
  - apply bytes_compare_eq in Hc as ->. rewrite (bool_decide_true (n = n)) by done. rewrite !len_cons. cbn. lia.
  - assert (Hne : n <> name) by (intros ->; by rewrite (proj2 (bytes_compare_eq name name) eq_refl) in Hc).
    rewrite (bool_decide_false (n = name)) by done. rewrite settings_get_none.
    + rewrite !len_cons, bool_decide_true by done. lia.
    + eapply Forall_impl; [exact Hf|]. intros t Ht. by eapply bytes_compare_trans.
  - assert (Hne : n <> name) by (intros ->; by rewrite (proj2 (bytes_compare_eq name name) eq_refl) in Hc).
    rewrite (bool_decide_false (n = name)) by done. rewrite !len_cons, IH. lia.
Qed.

Lemma settings_insert_get name value settings m :
  settings_get m (settings_insert name value settings) = if bool_decide (name = m) then Some value else settings_get m settings.
Proof.
  induction settings as [|[n v] settings IH]; cbn [settings_insert settings_get]; [done|].
  destruct (bytes_compare name n) eqn:Hc; cbn [settings_get].
  - apply bytes_compare_eq in Hc as ->. by case_bool_decide.
  - done.
  - rewrite IH. case_bool_decide as Hn; [|done]. subst m. case_bool_decide as Hm; [|done]. subst n.
    by rewrite (proj2 (bytes_compare_eq name name) eq_refl) in Hc.
Qed.

(** [with] keeps the settings valid, sets [name] alone, and refuses exactly a setting of another form
    and a new one beyond the most that a template holds. *)
Lemma with_setting_spec self name value :
  settings_typed self ->
  match with_setting self name value with
  | Ok settings => settings_typed settings /\ setting_typed (name, value)
                   /\ forall m, settings_get m settings = if bool_decide (name = m) then Some value else settings_get m self
  | Err _ => ~ setting_typed (name, value) \/ (settings_get name self = None /\ len self = MAX_SETTINGS)
  end.
Proof.
  intros [[Hl Hf] Hs]. unfold with_setting, check_setting. destruct (name_valid name) eqn:Hn; cbn [negb mbind result_bind].
  2:{ left. intros [? _]. cbn in *. congruence. }
  destruct (value_valid value) eqn:Hv; cbn [negb mbind result_bind]. 2:{ left. intros [_ ?]. cbn in *. congruence. }
  pose proof (settings_insert_len name value self Hs) as Hil.
  destruct (bool_decide_reflect (settings_get name self = None)) as [Hg|Hg]; cbn [andb].
  - destruct (Z.eqb_spec (len self) MAX_SETTINGS); [by right|].
    split; [|split; [done|apply settings_insert_get]]. split; [|by apply settings_insert_sorted]. split; [lia|].
    apply Forall_forall. intros t [->|Ht]%settings_insert_elem; [done|]. rewrite Forall_forall in Hf. auto.
  - split; [|split; [done|apply settings_insert_get]]. split; [|by apply settings_insert_sorted]. split; [lia|].
    apply Forall_forall. intros t [->|Ht]%settings_insert_elem; [done|]. rewrite Forall_forall in Hf. auto.
Qed.

(** ** The machine and the key *)

Definition machine_typed (m : Machine) : Prop :=
  cpu_typed (cpu m) /\ topology_typed (topology m) /\ rates_typed (rates m)
  /\ is_u32 (processors m) /\ is_u32 (boot_processors m) /\ memory_typed (memory m)
  /\ is_text MAX_COMMAND_LINE_LEN (command_line m) /\ is_bytes SHA256_LEN (command_line_digest m)
  /\ geometry_typed (distro m) /\ geometry_typed (scratch m) /\ interrupts_typed (interrupts m)
  /\ is_list MAX_DEVICES device_typed (devices m) /\ is_u32 (filesystem_slot m) /\ opt_all nic_typed (nic m).

Section Codecs.
Context `{Digest}.

Definition slot_valid (m : Machine) (tag : list byte) : Prop :=
  machine_problem m = None /\ filesystem_slot m = FILESYSTEM_SLOT_VERSION /\ is_text MAX_TEXT_LEN tag /\ tag <> [].

#[export] Instance machine_codec :
  Codec read_machine (fun mt => write_machine mt.1 mt.2) (fun mt => machine_typed mt.1 /\ slot_valid mt.1 mt.2).
Proof.
  unfold read_machine, write_machine, machine_typed, slot_valid. intros bytes value rest. split.
  - intros Hread. read_inv Hread. destruct (machine_problem _) eqn:Hp; [done|].
    cbn [filesystem_slot] in Hread. destruct (Z.eqb_spec f12 FILESYSTEM_SLOT_VERSION) as [->|]; [|done].
    cbn [negb orb] in Hread. destruct (bool_decide_reflect (f13 = [])); [done|].
    apply reader_ret_ok in Hread as [-> ->]. split; [by split_and!|]. cbn [fst snd]. by rewrite <- ?app_assoc.
  - intros [[Ht (Hp & Hs & Htag & Hne)] ->]. destruct value as [m tag]. cbn [fst snd] in *. decompose [and] Ht.
    rewrite <- ?app_assoc.
    erewrite (reader_bind_run read_hypervisor (fun h => w_text (hypervisor_as_str h))); [|typeclasses eauto|done].
    read_run. destruct m as [hv c t r p bp me cl cd d s i ds fs n]. cbn [hypervisor cpu topology rates processors
      boot_processors memory command_line command_line_digest distro scratch interrupts devices filesystem_slot nic] in *.
    rewrite Hp. subst fs. rewrite Z.eqb_refl. cbn [negb orb]. by rewrite bool_decide_false.
Qed.

Definition key_typed (k : TemplateKey) : Prop :=
  runtime_typed (runtime k) /\ token_ok (guest_build k) = true /\ contracts_typed (contracts k)
  /\ (machine_typed (machine k) /\ slot_valid (machine k) (filesystem_tag k)) /\ settings_typed (invariants k).

Definition write_key (k : TemplateKey) : list byte :=
  write_runtime (runtime k) ++ w_text (guest_build k) ++ write_contracts (contracts k)
  ++ write_machine (machine k) (filesystem_tag k) ++ write_invariants (invariants k).

#[export] Instance key_codec : Codec read_key write_key key_typed.
Proof.
  unfold read_key, write_key, key_typed. intros bytes value rest. split.
  - intros Hread. apply reader_bind_ok in Hread as (r & m1 & Hr & Hread). apply codec in Hr as [Hr ->].
    apply reader_bind_ok in Hread as (g & m2 & Hg & Hread). apply codec in Hg as [Hg ->].
    apply reader_bind_ok in Hread as (c & m3 & Hc & Hread). apply codec in Hc as [Hc ->].
    apply reader_bind_ok in Hread as ([m t] & m4 & Hm & Hread). apply codec in Hm as [Hm ->].
    destruct Hm as [Hm1 Hm2]. cbn [fst snd] in *. read_inv Hread. split; [by split_and!|]. by rewrite <- ?app_assoc.
  - intros [(Hr & Hg & Hc & Hm & Hs) ->]. read_run.
    erewrite (reader_bind_run read_machine (fun mt => write_machine mt.1 mt.2) _ _ (machine value, filesystem_tag value));
      [|typeclasses eauto|exact Hm]. read_run. by destruct value.
Qed.
End Codecs.

(** ** How long a key is *)

Lemma len_w_bytes b : len (w_bytes b) = 4 + len b.
Proof. apply len_w_text. Qed.

Lemma len_w_option {A} (write : A -> list byte) (valid : A -> Prop) n o :
  0 <= n -> (forall a, valid a -> len (write a) <= n) -> opt_all valid o -> len (w_option write o) <= 1 + n.
Proof.
  intros Hn Hw. destruct o as [a|]; cbn [opt_all w_option]; intros Ha.
  - rewrite len_app. specialize (Hw a Ha). change (len (w_u8 1)) with 1. lia.
  - change (len (w_u8 0)) with 1. lia.
Qed.

Lemma len_w_list {A} (write : A -> list byte) (valid : A -> Prop) n max items :
  0 <= n -> (forall a, valid a -> len (write a) <= n) -> is_list max valid items -> len (w_list write items) <= 4 + max * n.
Proof.
  intros Hn Hw [Hl Hf]. unfold w_list, w_len, w_u32. rewrite len_app, len_to_le_bytes.
  assert (Hc : len (concat (map write items)) <= len items * n).
  { clear Hl. induction Hf as [|a items Ha _ IH]; [done|]. cbn [map concat]. rewrite len_app, len_cons.
    specialize (Hw a Ha). lia. }
  nia.
Qed.

Ltac len_bound :=
  unfold w_bool, w_fixed, is_bytes, is_text in *; unfold w_u8, w_u16, w_u32, w_u64 in *; rewrite ?len_app, ?len_w_text, ?len_w_bytes, ?len_to_le_bytes, ?len_cons, ?len_nil;
  destruct_and?.

Lemma u32_len z : is_u32 z -> len (w_u32 z) <= 4.
Proof. intros _. unfold w_u32. by rewrite len_to_le_bytes. Qed.

Lemma range_len r : range_typed r -> len (write_range r) <= 16.
Proof. intros _. unfold write_range. len_bound. done. Qed.

Lemma device_range_len r : device_range_typed r -> len (write_device_range r) <= 24.
Proof. intros _. unfold write_device_range. len_bound. by destruct (space r). Qed.

Lemma device_len d : device_typed d -> len (write_device d) <= 1957.
Proof.
  intros (? & ? & ? & ? & Hr & Hi & Hf & _ & Hq).
  apply (len_w_list write_device_range _ 24) in Hr; [|done|apply device_range_len].
  apply (len_w_option w_u32 _ 4) in Hi; [|done|apply u32_len].
  apply (len_w_list w_u32 _ 4) in Hf; [|done|apply u32_len]. apply (len_w_list w_u32 _ 4) in Hq; [|done|apply u32_len].
  unfold write_device. cbn [map concat]. rewrite ?len_app, ?len_w_text, len_nil. unfold is_text in *.
  assert (len (w_u32 (queue_count d)) = 4) by (unfold w_u32; by rewrite len_to_le_bytes).
  unfold MAX_DEVICE_RANGES, MAX_DEVICE_WORDS, MAX_TEXT_LEN in *. lia.
Qed.

Lemma ipv6_len i : ipv6_typed i -> len (write_ipv6 i) <= 33.
Proof. unfold ipv6_typed, write_ipv6. intros ?. len_bound. lia. Qed.

Lemma nic_len n : nic_typed n -> len (write_nic n) <= 700.
Proof.
  intros (? & ? & ? & ? & _ & ? & Hi & (? & ? & _)). apply (len_w_option write_ipv6 _ 33) in Hi; [|done|apply ipv6_len].
  unfold write_nic, write_policy. len_bound. unfold MAX_TEXT_LEN, SHA256_LEN in *. lia.
Qed.

Lemma setting_len s : setting_typed s -> len (write_setting s) <= 328.
Proof. intros [[? _] [? _]]%setting_texts. unfold write_setting. len_bound. unfold MAX_NAME_LEN, MAX_VALUE_LEN in *. lia. Qed.

Lemma memory_len m : memory_typed m -> len (write_memory m) <= 5000.
Proof.
  intros (_ & _ & _ & Hr & He). apply (len_w_list write_range _ 16) in Hr; [|done|apply range_len].
  apply (len_w_list write_range _ 16) in He; [|done|apply range_len]. unfold write_memory. len_bound.
  unfold MAX_MEMORY_RANGES in *. lia.
Qed.

Lemma cpu_len c : cpu_typed c -> len (write_cpu c) <= 46000.
Proof. unfold cpu_typed, write_cpu. intros ?. len_bound. unfold MAX_TEXT_LEN, SHA256_LEN, MAX_CPUID_ENTRIES, CPUID_ENTRY_LEN in *. lia. Qed.

Lemma topology_len t : topology_typed t -> len (write_topology t) <= 100.
Proof.
  intros (_ & _ & _ & _ & Ha). apply (len_w_list w_u32 _ 4) in Ha; [|done|apply u32_len].
  unfold write_topology. cbn [map concat]. rewrite ?len_app, len_nil.
  pose proof (len_to_le_bytes 4 (sockets t)). pose proof (len_to_le_bytes 4 (dies_per_socket t)).
  pose proof (len_to_le_bytes 4 (cores_per_die t)). pose proof (len_to_le_bytes 4 (threads_per_core t)).
  unfold MAX_PROCESSORS, w_u32 in *. lia.
Qed.

Lemma runtime_len r : runtime_typed r -> len (write_runtime r) <= 1000.
Proof.
  intros (H1 & H2 & H3 & _ & H4 & _). apply token_text in H1, H2, H3, H4. unfold write_runtime. cbn [map concat].
  len_bound. unfold MAX_IDENTITY_LEN in *. lia.
Qed.

Lemma machine_len m tag : machine_typed m -> is_text MAX_TEXT_LEN tag -> len (write_machine m tag) <= 200000.
Proof.
  intros (Hc & Ht & _ & _ & _ & Hm & ? & ? & _ & _ & (? & _) & Hd & _ & Hn) ?.
  apply cpu_len in Hc. apply topology_len in Ht. apply memory_len in Hm.
  apply (len_w_list write_device _ 1957) in Hd; [|done|apply device_len].
  apply (len_w_option write_nic _ 700) in Hn; [|done|apply nic_len].
  unfold write_machine, write_rates, write_geometry, write_interrupts. len_bound.
  assert (len (hypervisor_as_str (hypervisor m)) <= 4) by (by destruct (hypervisor m)).
  unfold MAX_DEVICES, MAX_TEXT_LEN, MAX_COMMAND_LINE_LEN, SHA256_LEN in *. lia.
Qed.

Lemma key_len `{Digest} k : key_typed k -> len (to_bytes k) <= MAX_LEN.
Proof.
  intros (Hr & Hg & _ & (Hm & (_ & _ & Ht & _)) & (Hs & _)). apply runtime_len in Hr. apply token_text in Hg.
  apply (machine_len _ _ Hm) in Ht. apply (len_w_list write_setting _ 328) in Hs; [|done|apply setting_len].
  unfold to_bytes, write_contracts, write_invariants. cbn [map concat]. len_bound.
  unfold MAX_LEN, MAX_IDENTITY_LEN, MAX_SETTINGS in *. lia.
Qed.

(** ** The exact codec *)

Lemma from_bytes_exact `{Digest} bytes k : from_bytes bytes = Ok k <-> key_typed k /\ bytes = to_bytes k.
Proof.
  unfold from_bytes. split.
  - destruct (Z.ltb_spec MAX_LEN (len bytes)); [done|].
    destruct (r_u16 "the version" bytes) as [[v rest]|e] eqn:Hv; [|done]. cbn [map_err mbind result_bind].
    apply codec in Hv as [_ ->]. destruct (Z.eqb_spec v KEY_VERSION) as [->|]; [|done]. cbn [negb].
    destruct (read_key rest) as [[k' rest']|e] eqn:Hk; [|done]. cbn [map_err mbind result_bind].
    apply codec in Hk as [Ht ->]. unfold finish. destruct (Z.eqb_spec (len rest') 0) as [Hz%len_zero_iff|]; [|done].
    subst rest'. cbn [map_err mbind result_bind]. intros <-%ok_inj. split; [done|]. by rewrite app_nil_r.
  - intros [Ht ->]. pose proof (key_len k Ht). destruct (Z.ltb_spec MAX_LEN (len (to_bytes k))); [lia|].
    change (to_bytes k) with (w_u16 KEY_VERSION ++ write_key k).
    assert (Hv : is_u16 KEY_VERSION) by (split; by vm_compute).
    rewrite (proj2 (u16_codec "the version" _ KEY_VERSION _) (conj Hv eq_refl)).
    cbn [map_err mbind result_bind]. rewrite Z.eqb_refl. cbn [negb].
    rewrite <- (app_nil_r (write_key k)). rewrite (proj2 (key_codec _ k []) (conj Ht eq_refl)). done.
Qed.

(** ** The keys of checked machines *)

(** What the Rust types of a machine ensure: integers of their widths, texts of UTF-8, and arrays of
    their lengths. *)
Definition machine_data (m : Machine) : Prop :=
  is_u32 (revision (cpu m)) /\ is_bytes SHA256_LEN (cpu_digest (cpu m))
  /\ is_u32 (sockets (topology m)) /\ is_u32 (dies_per_socket (topology m)) /\ is_u32 (cores_per_die (topology m))
  /\ is_u32 (threads_per_core (topology m)) /\ Forall is_u32 (apic_ids (topology m))
  /\ rates_typed (rates m) /\ is_u32 (processors m) /\ is_u32 (boot_processors m)
  /\ is_u64 (boot (memory m)) /\ is_u64 (capacity (memory m)) /\ is_u64 (block_size (memory m))
  /\ Forall range_typed (mem_ranges (memory m)) /\ Forall range_typed (expansion (memory m))
  /\ is_utf8 (command_line m) = true /\ is_bytes SHA256_LEN (command_line_digest m)
  /\ geometry_typed (distro m) /\ geometry_typed (scratch m)
  /\ is_utf8 (mode (interrupts m)) = true /\ is_u64 (status_page_start (interrupts m)) /\ is_u64 (status_page_length (interrupts m))
  /\ is_u32 (filesystem_slot m).

Definition device_data (d : Device) : Prop :=
  is_utf8 (stable_id d) = true /\ is_utf8 (device_kind d) = true /\ is_utf8 (state_unit d) = true
  /\ is_utf8 (transport d) = true /\ Forall device_range_typed (device_ranges d) /\ opt_all is_u32 (irq d)
  /\ Forall is_u32 (feature_banks d) /\ is_u32 (queue_count d) /\ Forall is_u32 (queue_max_sizes d).

Definition nic_data (n : Nic) : Prop :=
  is_utf8 (profile n) = true /\ is_bytes 6 (guest_mac n) /\ is_bytes 6 (gateway_mac n) /\ is_bytes 4 (ipv4 n)
  /\ is_u8 (prefix_length n) /\ is_bytes 4 (gateway n) /\ opt_all ipv6_typed (ipv6 n)
  /\ is_utf8 (policy_mode (policy n)) = true /\ is_bytes SHA256_LEN (policy_digest (policy n))
  /\ is_u32 (encoding_version (policy n)).

Lemma profile_word_text text : is_profile_word text = true -> is_text MAX_TEXT_LEN text.
Proof.
  unfold is_profile_word. intros [[_ Hl%Z.leb_le]%andb_true_iff Hf]%andb_true_iff. unfold MAX_TEXT_LEN. split; [lia|].
  apply ascii_utf8, Forall_forall. intros b Hb%list_elem_of_In. rewrite forallb_forall in Hf. specialize (Hf b Hb).
  unfold is_ascii_lowercase, is_ascii_digit in Hf. bool_to_prop. lia.
Qed.

Lemma device_checked d : device_data d -> device_problem d = None -> device_typed d.
Proof.
  intros (? & ? & ? & ? & ? & ? & ? & ? & ?). unfold device_problem. cbn [existsb app].
  destruct (_ || _) eqn:Ht; [done|]. destruct (_ || _) eqn:Hb in |- *; [done|]. intros _.
  bool_to_prop. unfold device_typed, is_text, is_list. split_and!; try done; lia.
Qed.

Lemma devices_checked before devices :
  Forall device_data devices -> devices_problem before devices = None -> Forall device_typed devices.
Proof.
  intros Hd. revert before. induction Hd as [|d devices Hd _ IH]; intros before; cbn [devices_problem]; [done|].
  destruct (device_problem d) eqn:Hp; [done|]. destruct (existsb _ before); [done|]. intros Hn.
  constructor; [by apply device_checked|by eapply IH].
Qed.

Lemma nic_checked n : nic_data n -> nic_problem n = None -> nic_typed n.
Proof.
  intros (? & ? & ? & ? & ? & ? & ? & ? & ? & ?). unfold nic_problem. cbn [existsb].
  destruct (_ || _) eqn:Ht; [done|]. intros _. bool_to_prop. unfold nic_typed, policy_typed, is_text. split_and!; try done; lia.
Qed.

Section Checked.
Context `{Digest}.

(** What [machine_problem] establishes of the parts that a key bounds. *)
Lemma machine_problem_none m :
  machine_problem m = None ->
  is_profile_word (vendor (cpu m)) = true /\ is_profile_word (generation (cpu m)) = true
  /\ len (effective_cpuid (cpu m)) <= MAX_CPUID_ENTRIES * CPUID_ENTRY_LEN
  /\ len (apic_ids (topology m)) = processors m /\ is_processor_count (processors m) = true
  /\ memory_problem (memory m) = None /\ len (command_line m) <= MAX_COMMAND_LINE_LEN
  /\ command_line_digest m = sha256 (command_line m)
  /\ len (mode (interrupts m)) <= MAX_TEXT_LEN /\ len (devices m) <= MAX_DEVICES
  /\ devices_problem [] (devices m) = None
  /\ match nic m with Some nic => nic_problem nic | None => None end = None.
Proof.
  unfold machine_problem. destruct (_ || _) eqn:H1; [done|]. destruct (_ || _) eqn:H2 in |- *; [done|].
  destruct (_ || (_ && _)) eqn:H3; [done|]. destruct (_ || _) eqn:H4 in |- *; [done|].
  destruct (memory_problem _) eqn:H5; [done|]. destruct (MAX_COMMAND_LINE_LEN <? _) eqn:H6; [done|].
  destruct (negb (bool_decide (command_line_digest m = _))) eqn:H7; [done|]. destruct (blocks_problem _); [done|].
  destruct (_ || _) eqn:H8 in |- *; [done|]. destruct (_ || _) eqn:H9 in |- *; [done|].
  destruct (devices_problem _ _) eqn:H10; [done|]. intros Hn.
  apply orb_false_iff in H3 as [H3 _]. bool_to_prop. by split_and!.
Qed.

Lemma memory_problem_none m :
  memory_problem m = None -> len (mem_ranges m) <= MAX_MEMORY_RANGES /\ len (expansion m) <= MAX_MEMORY_RANGES.
Proof.
  unfold memory_problem. destruct (_ || _) eqn:H1; [done|]. destruct (_ || _) eqn:H2 in |- *; [done|].
  destruct (_ || _) eqn:H3 in |- *; [done|]. intros _. bool_to_prop. lia.
Qed.

Lemma machine_checked m :
  machine_data m -> Forall device_data (devices m) -> opt_all nic_data (nic m) -> machine_problem m = None ->
  machine_typed m.
Proof.
  intros (? & ? & ? & ? & ? & ? & ? & ? & ? & ? & ? & ? & ? & ? & ? & ? & ? & ? & ? & ? & ? & ? & ?) Hds Hn Hp.
  apply machine_problem_none in Hp as (Hv & Hg & Hc & Ha & Hpc & Hm & Hcl & _ & Hi & Hdl & Hd & Hnp).
  apply memory_problem_none in Hm as [Hm1 Hm2]. apply profile_word_text in Hv, Hg. apply devices_checked in Hd; [|done].
  assert (processors m <= MAX_PROCESSORS).
  { unfold is_processor_count, PROCESSOR_COUNTS in Hpc. cbn [existsb] in Hpc. unfold MAX_PROCESSORS. bool_to_prop. lia. }
  unfold machine_typed, cpu_typed, topology_typed, memory_typed, interrupts_typed, is_text, is_list.
  split_and!; try done; [apply Hv|apply Hv|apply Hg|apply Hg|lia|].
  destruct (nic m) as [n|]; [|done]. by apply nic_checked.
Qed.

(** A key that a manifest's machine gives: its parts of their types, and its checks passed. *)
Definition key_valid (k : TemplateKey) : Prop :=
  runtime_typed (runtime k) /\ token_ok (guest_build k) = true /\ contracts_typed (contracts k)
  /\ machine_data (machine k) /\ Forall device_data (devices (machine k)) /\ opt_all nic_data (nic (machine k))
  /\ slot_valid (machine k) (filesystem_tag k) /\ settings_typed (invariants k).

Lemma key_valid_typed k : key_valid k <-> key_typed k.
Proof.
  unfold key_valid, key_typed. split.
  - intros (? & ? & ? & Hm & Hd & Hn & Hs & ?). split_and!; try done. apply machine_checked; try done. apply Hs.
  - intros (? & ? & ? & (Hm & Hs) & ?). unfold machine_typed, cpu_typed, topology_typed, memory_typed, interrupts_typed, is_text, is_list in Hm.
    destruct_and?. unfold machine_data. split_and!; try done.
    + eapply Forall_impl; [eassumption|]. unfold device_typed, device_data, is_text, is_list. intros d Hd. destruct_and?. by split_and!.
    + destruct (nic (machine k)) as [n|]; [|done]. cbn in *. unfold nic_typed, policy_typed, is_text, nic_data in *. destruct_and?. by split_and!.
Qed.
End Checked.

(** A digest for concrete keys: the first 32 bytes. *)
Definition first_32 (b : list byte) : list byte := ztake 32 (b ++ replicate 32 (byte_of 0)).

Lemma first_32_len b : len (first_32 b) = 32.
Proof. unfold first_32. rewrite len_ztake, len_app, len_replicate. len_facts. lia. Qed.

Definition first_bytes : Digest := {| sha256 := first_32; sha256_len := first_32_len |}.

Definition sample_machine : Machine :=
  mkMachine Kvm (mkCpuProfile (bytes_of "amd") (bytes_of "genoa") 1 (replicate 32 (byte_of 7)) (replicate 44 (byte_of 0)))
    (mkTopology 1 1 2 1 [0; 1]) (mkRates 2450000000 1000000000 250) 2 1
    (mkMemory 134217728 268435456 134217728 [mkMemoryRange 0 134217728] [mkMemoryRange 4294967296 134217728])
    (bytes_of "console=hvc0") (@sha256 first_bytes (bytes_of "console=hvc0"))
    (mkBlockGeometry 1048576 512 4096) (mkBlockGeometry 65536 512 512)
    (mkInterrupts (bytes_of "edge-shared-status") 3489660928 4096)
    [mkDevice (bytes_of "console:0") (bytes_of "virtio-console") (bytes_of "con0") [] [mkDeviceRange Mmio 3489665024 4096]
       (Some 24) [1; 2] 2 [64; 64]]
    1
    (Some (mkNic (bytes_of "portable") (replicate 6 (byte_of 2)) (replicate 6 (byte_of 3)) (map byte_of [10; 0; 0; 2]) 24
             (map byte_of [10; 0; 0; 1]) (Some (mkIpv6Identity (replicate 16 (byte_of 1)) 64 (replicate 16 (byte_of 2))))
             (mkPolicyIdentity (bytes_of "deny") (replicate 32 (byte_of 9)) true 1))).

Definition sample_key : TemplateKey :=
  mkTemplateKey
    (mkRuntimeIdentity (bytes_of "sha256:0a") (bytes_of "sha256:0b") (bytes_of "sha256:0c") 5 (bytes_of "nvx-microvm-v2-control-v2") 1)
    (bytes_of "agent:1") CURRENT sample_machine (bytes_of "microvm") [(bytes_of "cgroup.mode", bytes_of "v2"); (bytes_of "isolation", bytes_of "strict")].

(** Decides a closed fact of a sample. *)
Ltac sample_fact :=
  match goal with
  | |- _ /\ _ => split; sample_fact
  | |- Forall _ [] => constructor
  | |- Forall _ (_ :: _) => constructor; sample_fact
  | |- StronglySorted _ [] => constructor
  | |- StronglySorted _ (_ :: _) => constructor; sample_fact
  | |- opt_all _ (Some _) => red; sample_fact
  | |- opt_all _ None => exact I
  | |- True => exact I
  | |- _ = _ => vm_compute; reflexivity
  | |- _ <= _ => vm_compute; discriminate
  | |- _ <> _ => vm_compute; discriminate
  | |- Forall ?P ?l => let l' := eval hnf in l in progress change (Forall P l'); sample_fact
  | |- StronglySorted ?R ?l => let l' := eval hnf in l in progress change (StronglySorted R l'); sample_fact
  | |- opt_all ?P ?o => let o' := eval hnf in o in progress change (opt_all P o'); sample_fact
  | |- _ => progress hnf; sample_fact
  end.

Lemma sample_key_valid : @key_valid first_bytes sample_key.
Proof. sample_fact. Qed.

(** C21: The canonical encoding of a template's key is exact: the strict reader returns a key precisely
    for the one encoding of a key of a machine that passes its checks, and for no other bytes, so it
    neither takes a second encoding of a key nor a key that a manifest could not give; and every such
    key, whatever the sizes of its parts, fits the length that the reader takes. *)
Theorem template_key_codec_exact `{Digest} (bytes : list byte) (key : TemplateKey) :
  (from_bytes bytes = Ok key <-> key_valid key /\ bytes = to_bytes key)
  /\ (key_valid key -> len (to_bytes key) <= MAX_LEN).
Proof. rewrite from_bytes_exact, key_valid_typed. split; [done|]. apply key_len. Qed.

Lemma template_key_codec_exact_witness : @from_bytes first_bytes (to_bytes sample_key) = Ok sample_key.
Proof. apply (@template_key_codec_exact first_bytes (to_bytes sample_key) sample_key). split; [apply sample_key_valid|reflexivity]. Defined.

(** A collision of the digest: two inputs of one digest. *)
Definition collision `{Digest} : Prop := exists x y, x <> y /\ sha256 x = sha256 y.

Lemma to_bytes_inj `{Digest} k1 k2 : key_valid k1 -> key_valid k2 -> to_bytes k1 = to_bytes k2 -> k1 = k2.
Proof.
  intros H1 H2 He. apply (@ok_inj KeyError). transitivity (from_bytes (to_bytes k1)).
  - symmetry. apply from_bytes_exact. by rewrite <- key_valid_typed.
  - rewrite He. apply from_bytes_exact. by rewrite <- key_valid_typed.
Qed.

(** The identity of a key names it: two keys of one identity are one key, and the identity of a key
    is that of no capture class, whose encoding has another domain, unless SHA-256 has a collision. *)
Theorem key_identity_names `{Digest} (k1 k2 : TemplateKey) :
  key_valid k1 -> key_valid k2 ->
  (identity k1 = identity k2 -> k1 = k2 \/ collision)
  /\ (forall class, identity k1 = digest CLASS_DOMAIN class -> collision).
Proof.
  intros H1 H2. unfold identity, digest. split.
  - intros He. destruct (decide (to_bytes k1 = to_bytes k2)) as [Hb|Hb]; [left; by apply to_bytes_inj|right].
    exists (KEY_DOMAIN ++ to_bytes k1), (KEY_DOMAIN ++ to_bytes k2). split; [|done]. by intros ?%app_inv_head.
  - intros class He. exists (KEY_DOMAIN ++ to_bytes k1), (CLASS_DOMAIN ++ class). split; [|done]. discriminate.
Qed.

Lemma key_identity_names_witness :
  @identity first_bytes sample_key = @identity first_bytes sample_key -> sample_key = sample_key \/ @collision first_bytes.
Proof. apply (@key_identity_names first_bytes sample_key sample_key); apply sample_key_valid. Defined.
