(* ===== verification/Wire.v ===== *)
(** * The strict reader of the protobuf wire format (src/nvx-rs/src/host/template/wire.rs)

    Fields, their typed values, and the messages that refuse an unknown field and a second
    appearance. A reader's remaining bytes are threaded explicitly. *)

From S2P Require Import Prelude.

Definition MAX_FIELD_NUMBER : Z := Z.shiftl 1 29 - 1.
Definition MAX_VARINT_LEN : Z := 10.

Inductive WireError : Type :=
| WireTruncated
| WireVarint
| WireType (wire_type : Z)
| FieldNumber (number : Z)
| Unknown (number : Z)
| Repeated (number : Z)
| TypeError (number : Z) (expected : string)
| ValueError (number : Z) (problem : string).

Inductive Value : Type :=
| Varint (value : Z)
| Fixed64 (value : Z)
| Bytes (bytes : list byte)
| Fixed32 (value : Z).

Record Field := mkField { number : Z; value : Value }.

Definition mistyped (self : Field) (expected : string) : WireError := TypeError (number self) expected.
Definition invalid (self : Field) (problem : string) : WireError := ValueError (number self) problem.

Definition uint64 (self : Field) : result WireError Z :=
  match value self with Varint value => Ok value | _ => Err (mistyped self "an integer") end.

Definition uint32 (self : Field) : result WireError Z :=
  value ← uint64 self;
  if value <=? U32_MAX then Ok value else Err (invalid self "does not fit 32 bits").

Definition int64 (self : Field) : result WireError Z :=
  value ← uint64 self;
  Ok (to_signed 64 value).

Definition int32 (self : Field) : result WireError Z :=
  value ← int64 self;
  if (- 2 ^ 31 <=? value) && (value <? 2 ^ 31) then Ok value else Err (invalid self "does not fit 32 bits").

Definition boolean (self : Field) : result WireError bool :=
  value ← uint64 self;
  if value =? 0 then Ok false
  else if value =? 1 then Ok true
  else Err (invalid self "is not a boolean").

Definition bytes (self : Field) : result WireError (list byte) :=
  match value self with Bytes bytes => Ok bytes | _ => Err (mistyped self "bytes") end.

Definition text (self : Field) : result WireError (list byte) :=
  bytes ← bytes self;
  if is_utf8 bytes then Ok bytes else Err (invalid self "is not UTF-8").

(** The loop of [read_varint], at most [rounds] bytes from the byte [index]: the value and the bytes
    after it. The loop's end is the error of [data], all [total] of whose bytes it may have read. *)
Fixpoint varint_loop (rounds : nat) (total index value : Z) (data : list byte) : result WireError (Z * list byte) :=
  match rounds, data with
  | S rounds, byte :: data =>
      let bits := Z.land (byte_val byte) 0x7f in
      if (index =? MAX_VARINT_LEN - 1) && (1 <? bits) then Err WireVarint
      else
        let value := Z.lor value (Z.shiftl bits (7 * index)) in
        if Z.land (byte_val byte) 0x80 =? 0 then Ok (value, data)
        else varint_loop rounds total (index + 1) value data
  | _, _ => if total <? MAX_VARINT_LEN then Err WireTruncated else Err WireVarint
  end.

Definition read_varint (data : list byte) : result WireError (Z * list byte) :=
  varint_loop (Z.to_nat MAX_VARINT_LEN) (len data) 0 0 data.

(** The loop of [packed_uint32]; every varint takes a byte, so the bytes are rounds enough. *)
Fixpoint packed_loop (rounds : nat) (self : Field) (data : list byte) : result WireError (list Z) :=
  match rounds, data with
  | S rounds, _ :: _ =>
      '(value, data) ← read_varint data;
      if value <=? U32_MAX then
        values ← packed_loop rounds self data;
        Ok (value :: values)
      else Err (invalid self "does not fit 32 bits")
  | _, _ => Ok []
  end.

Definition packed_uint32 (self : Field) : result WireError (list Z) :=
  bytes ← bytes self;
  packed_loop (length bytes) self bytes.

(** [usize::try_from] of a [u64] never fails on a 64-bit host. *)
Definition take (count : Z) (data : list byte) : result WireError (list byte * list byte) :=
  if len data <? count then Err WireTruncated
  else Ok (ztake count data, zdrop count data).

Definition read_field (data : list byte) : result WireError (Field * list byte) :=
  '(key, data) ← read_varint data;
  let number := Z.shiftr key 3 in
  if (number =? 0) || (MAX_FIELD_NUMBER <? number) then Err (FieldNumber number)
  else
    let wire_type := Z.land key 7 in
    '(value, data) ←
      (if wire_type =? 0 then
         '(value, data) ← read_varint data;
         Ok (Varint value, data)
       else if wire_type =? 1 then
         '(bytes, data) ← take 8 data;
         Ok (Fixed64 (from_le_bytes bytes), data)
       else if wire_type =? 2 then
         '(length, data) ← read_varint data;
         '(bytes, data) ← take length data;
         Ok (Bytes bytes, data)
       else if wire_type =? 5 then
         '(bytes, data) ← take 4 data;
         Ok (Fixed32 (from_le_bytes bytes), data)
       else Err (WireType wire_type));
    Ok (mkField number value, data).

(** ** Messages *)

Record Message := mkMessage { data : list byte; known : Z; repeated : Z; seen : Z }.

(** The closure [mask], of numbers below 64, which it asserts. *)
Definition mask (numbers : list Z) : Z := foldl (fun mask number => Z.lor mask (Z.shiftl 1 number)) 0 numbers.

Definition message_new (data : list byte) (known repeated : list Z) : Message :=
  let repeated := mask repeated in
  mkMessage data (Z.lor (mask known) repeated) repeated 0.

(** [1u64.checked_shl(number).unwrap_or(0)]. *)
Definition field_bit (number : Z) : Z := if number <? 64 then Z.shiftl 1 number else 0.

Definition next_field (self : Message) : result WireError (option Field * Message) :=
  match data self with
  | [] => Ok (None, self)
  | _ :: _ =>
      '(field, data) ← read_field (data self);
      let bit := field_bit (number field) in
      if (bit =? 0) || (Z.land (known self) bit =? 0) then Err (Unknown (number field))
      else if (Z.land (repeated self) bit =? 0) && negb (Z.land (seen self) bit =? 0) then Err (Repeated (number field))
      else Ok (Some field, mkMessage data (known self) (repeated self) (Z.lor (seen self) bit))
  end.

(** ** Progress and types *)

(** A value that its wire type holds. *)
Definition value_typed (v : Value) : Prop :=
  match v with
  | Varint n | Fixed64 n => is_u64 n
  | Bytes b => True
  | Fixed32 n => is_u32 n
  end.

Definition field_typed (f : Field) : Prop := 1 <= number f <= MAX_FIELD_NUMBER /\ value_typed (value f).

Lemma lor_small a b n : 0 <= n -> 0 <= a < 2 ^ n -> 0 <= b -> Z.lor a (Z.shiftl b n) = a + b * 2 ^ n.
Proof.
  intros Hn Ha Hb. rewrite Z.shiftl_mul_pow2 by done. rewrite <- Z.lxor_lor, <- Z.add_nocarry_lxor; [done|..];
    apply Z.bits_inj'; intros i Hi; rewrite Z.land_spec, Z.bits_0; (destruct (Z.lt_ge_cases i n) as [Hin|Hin];
    [rewrite Z.mul_pow2_bits_low by done; apply andb_false_r|]);
    (destruct (Z.eq_dec a 0) as [->|]; [by rewrite Z.bits_0|]);
    rewrite (Z.bits_above_log2 a i); [done|lia|apply Z.log2_lt_pow2; [lia|]; apply Z.lt_le_trans with (2 ^ n); [lia|];
    apply Z.pow_le_mono_r; lia|done|lia|apply Z.log2_lt_pow2; [lia|]; apply Z.lt_le_trans with (2 ^ n); [lia|];
    apply Z.pow_le_mono_r; lia].
Qed.

Lemma low_bits b : 0 <= Z.land (byte_val b) 0x7f < 128.
Proof. change 0x7f with (Z.ones 7). rewrite Z.land_ones by lia. apply Z.mod_pos_bound. lia. Qed.

Lemma varint_loop_ok rounds total index acc data v rest :
  varint_loop rounds total index acc data = Ok (v, rest) ->
  0 <= index -> index + Z.of_nat rounds = 10 -> 0 <= acc < 2 ^ (7 * index) ->
  is_u64 v /\ exists prefix, prefix <> [] /\ data = prefix ++ rest.
Proof.
  revert index acc data. induction rounds as [|rounds IH]; intros index acc data H Hi Hr Ha; cbn [varint_loop] in H.
  { by destruct (_ <? _). }
  destruct data as [|b data]; [by destruct (_ <? _)|]. pose proof (low_bits b) as Hb.
  rewrite lor_small in H by lia. unfold MAX_VARINT_LEN in H.
  destruct ((index =? 10 - 1) && _) eqn:Hlast; [done|].
  assert (Hpow : 2 ^ (7 * (index + 1)) = 128 * 2 ^ (7 * index)).
  { replace (7 * (index + 1)) with (7 + 7 * index) by lia. by rewrite Z.pow_add_r by lia. }
  destruct (_ =? 0) eqn:Hend.
  - apply ok_inj in H. assert (v = acc + Z.land (byte_val b) 127 * 2 ^ (7 * index)) as -> by congruence.
    assert (data = rest) as <- by congruence. split; [|by exists [b]].
    unfold is_u64, U64_MAX. destruct (Z.eq_dec index 9) as [->|Hne].
    + assert (Z.land (byte_val b) 127 <= 1).
      { destruct (Z.ltb_spec 1 (Z.land (byte_val b) 127)); [done|lia]. }
      change (7 * 9) with 63 in *. change (2 ^ 64) with (2 * 2 ^ 63). nia.
    + assert (2 ^ (7 * index) <= 2 ^ 56) by (apply Z.pow_le_mono_r; lia). change (2 ^ 64) with (256 * 2 ^ 56). nia.
  - apply IH in H as [Hv (prefix & Hp & ->)]; [|lia|lia|rewrite Hpow; nia]. split; [done|]. exists (b :: prefix). done.
Qed.

Lemma read_varint_ok data v rest :
  read_varint data = Ok (v, rest) -> is_u64 v /\ exists prefix, prefix <> [] /\ data = prefix ++ rest.
Proof. intros H. by apply (varint_loop_ok _ _ _ _ _ _ _ H). Qed.

Lemma take_ok count data taken rest :
  take count data = Ok (taken, rest) -> 0 <= count -> data = taken ++ rest /\ len taken = count.
Proof.
  unfold take. destruct (Z.ltb_spec (len data) count); [done|]. intros H1 H2. apply ok_inj in H1.
  assert (taken = ztake count data) as -> by congruence. assert (rest = zdrop count data) as -> by congruence.
  split; [by rewrite ztake_zdrop|]. rewrite len_ztake. lia.
Qed.

Lemma read_field_ok data f rest :
  read_field data = Ok (f, rest) -> field_typed f /\ exists prefix, prefix <> [] /\ data = prefix ++ rest.
Proof.
  unfold read_field. destruct (read_varint data) as [[key d1]|] eqn:Hk; [|done]. cbn [mbind result_bind].
  apply read_varint_ok in Hk as [[Hk0 _] (p1 & Hp1 & ->)].
  destruct ((_ =? 0) || _) eqn:Hn; [done|]. apply orb_false_iff in Hn as [Hn0%Z.eqb_neq Hn1%Z.ltb_ge].
  assert (Hdone : forall v rest', Ok (mkField (Z.shiftr key 3) v, rest') = Ok (E := WireError) (f, rest) -> value_typed v ->
    (exists p, d1 = p ++ rest') -> field_typed f /\ exists prefix, prefix <> [] /\ p1 ++ d1 = prefix ++ rest).
  { intros v rest' H Hv [p ->]. assert (f = mkField (Z.shiftr key 3) v) as -> by congruence.
    assert (rest' = rest) as -> by congruence. split; [|exists (p1 ++ p); split; [by destruct p1|by rewrite app_assoc]].
    split; [cbn [number]|done]. pose proof (proj2 (Z.shiftr_nonneg key 3) Hk0). lia. }
  assert (Hle : forall b n, len b = Z.of_nat n -> 0 <= from_le_bytes b < 256 ^ Z.of_nat n).
  { intros b n Hb. pose proof (from_le_bytes_range b) as Hr. by rewrite Hb in Hr. }
  destruct (_ =? 0). 
  { destruct (read_varint d1) as [[v d2]|] eqn:Hv; [|done]. apply read_varint_ok in Hv as [Hv (p & _ & ->)].
    cbn [mbind result_bind]. intros H. eapply Hdone; [exact H|done|eauto]. }
  destruct (_ =? 1).
  { destruct (take 8 d1) as [[b d2]|] eqn:Hv; [|done]. apply take_ok in Hv as [-> Hb]; [|done].
    cbn [mbind result_bind]. intros H. eapply Hdone; [exact H| |eauto]. specialize (Hle b 8%nat Hb). cbn.
    unfold is_u64, U64_MAX. change (256 ^ Z.of_nat 8) with (2 ^ 64) in Hle. lia. }
  destruct (_ =? 2).
  { destruct (read_varint d1) as [[n d2]|] eqn:Hv; [|done]. apply read_varint_ok in Hv as [[Hn _] (p & _ & ->)].
    cbn [mbind result_bind]. destruct (take n d2) as [[b d3]|] eqn:Hv; [|done]. apply take_ok in Hv as [-> Hb]; [|done].
    cbn [mbind result_bind]. intros H. eapply Hdone; [exact H|done|]. exists (p ++ b). by rewrite app_assoc. }
  destruct (_ =? 5); [|done].
  destruct (take 4 d1) as [[b d2]|] eqn:Hv; [|done]. apply take_ok in Hv as [-> Hb]; [|done].
  cbn [mbind result_bind]. intros H. eapply Hdone; [exact H| |eauto]. specialize (Hle b 4%nat Hb). cbn.
  unfold is_u32, U32_MAX. change (256 ^ Z.of_nat 4) with (2 ^ 32) in Hle. lia.
Qed.

(** ** The wire format *)

(** The varint of a number: seven bits a byte, the least significant first, each but the last with
    the continuation bit. *)
Fixpoint write_varint (rounds : nat) (n : Z) : list byte :=
  match rounds with
  | O => []
  | S rounds => if n <? 128 then [byte_of n] else byte_of (128 + n mod 128) :: write_varint rounds (n / 128)
  end.

Definition varint (n : Z) : list byte := write_varint 10 n.

Definition wire_type_of (v : Value) : Z :=
  match v with Varint _ => 0 | Fixed64 _ => 1 | Bytes _ => 2 | Fixed32 _ => 5 end.

Definition write_value (v : Value) : list byte :=
  match v with
  | Varint n => varint n
  | Fixed64 n => to_le_bytes 8 n
  | Bytes b => varint (len b) ++ b
  | Fixed32 n => to_le_bytes 4 n
  end.

Definition write_field (f : Field) : list byte :=
  varint (number f * 8 + wire_type_of (value f)) ++ write_value (value f).

Lemma land_low n : 0 <= n < 256 -> Z.land n 0x7f = n mod 128.
Proof. intros _. change 0x7f with (Z.ones 7). by rewrite Z.land_ones. Qed.

Lemma land_high n : 0 <= n < 256 -> (Z.land n 0x80 =? 0) = (n <? 128).
Proof.
  intros Hn. destruct (Z.ltb_spec n 128) as [H|H]; [apply Z.eqb_eq|apply Z.eqb_neq].
  - apply Z.bits_inj'. intros i Hi. rewrite Z.land_spec, Z.bits_0. change 0x80 with (2 ^ 7). rewrite Z.pow2_bits_eqb by lia.
    destruct (Z.eqb_spec 7 i) as [<-|]; [|apply andb_false_r]. rewrite andb_true_r.
    destruct (Z.eq_dec n 0) as [->|]; [done|]. apply Z.bits_above_log2; [lia|]. by apply Z.log2_lt_pow2; [lia|].
  - intros Hz. assert (Hb : Z.testbit (Z.land n 0x80) 7 = false) by (by rewrite Hz).
    rewrite Z.land_spec in Hb. change (Z.testbit 0x80 7) with true in Hb. rewrite andb_true_r in Hb.
    apply Z.testbit_false in Hb; [|done]. change (2 ^ 7) with 128 in Hb.
    assert (n / 128 = 1) as Hd by (pose proof (Z.div_mod n 128 ltac:(lia)); pose proof (Z.mod_pos_bound n 128 ltac:(lia)); lia). by rewrite Hd in Hb.
Qed.

Lemma varint_loop_write rounds total index acc n rest :
  0 <= index <= 9 -> index + Z.of_nat rounds = 10 -> 0 <= acc < 2 ^ (7 * index) -> 0 <= n -> n * 2 ^ (7 * index) < 2 ^ 64 ->
  varint_loop rounds total index acc (write_varint rounds n ++ rest) = Ok (acc + n * 2 ^ (7 * index), rest).
Proof.
  revert index acc n. induction rounds as [|rounds IH]; intros index acc n Hi Hr Ha Hn Hlt.
  { lia. }
  assert (Hpow : 2 ^ (7 * (index + 1)) = 128 * 2 ^ (7 * index)).
  { replace (7 * (index + 1)) with (7 + 7 * index) by lia. by rewrite Z.pow_add_r by lia. }
  assert (Hlast : index = 9 -> n <= 1).
  { intros ->. change (2 ^ 64) with (2 * 2 ^ (7 * 9)) in Hlt. nia. }
  cbn [write_varint]. destruct (Z.ltb_spec n 128) as [Hs|Hs]; cbn [app varint_loop]; rewrite byte_val_of.
  - rewrite (Z.mod_small n) by lia. rewrite land_low, land_high by lia. rewrite Z.mod_small by lia.
    rewrite lor_small by lia. unfold MAX_VARINT_LEN.
    destruct ((index =? 10 - 1) && (1 <? n)) eqn:Hl.
    { apply andb_true_iff in Hl as [Hl1%Z.eqb_eq Hl2%Z.ltb_lt]. lia. }
    by rewrite (proj2 (Z.ltb_lt n 128)).
  - pose proof (Z.mod_pos_bound n 128 ltac:(lia)) as Hm. rewrite (Z.mod_small (128 + n mod 128)) by lia.
    rewrite land_low, land_high by lia. replace ((128 + n mod 128) mod 128) with (n mod 128).
    2:{ rewrite <- (Z.mod_small (n mod 128) 128) at 1 by lia. replace (128 + n mod 128) with (n mod 128 + 1 * 128) by lia. by rewrite Z.mod_add. }
    rewrite lor_small by lia. unfold MAX_VARINT_LEN.
    destruct (Z.eqb_spec index (10 - 1)); [specialize (Hlast ltac:(lia)); lia|]. cbn [andb].
    rewrite (proj2 (Z.ltb_ge (128 + n mod 128) 128)) by lia. pose proof (Z.div_mod n 128 ltac:(lia)) as Hdm.
    rewrite IH; [|lia|lia|rewrite Hpow; nia|apply Z.div_pos; lia|rewrite Hpow; nia].
    rewrite Hpow. do 2 f_equal. nia.
Qed.

Lemma read_write_varint n rest : is_u64 n -> read_varint (varint n ++ rest) = Ok (n, rest).
Proof.
  intros [Hn Hu]. unfold read_varint, varint. change (Z.to_nat MAX_VARINT_LEN) with 10%nat.
  rewrite varint_loop_write; [|lia|done|done|done|unfold U64_MAX in Hu; change (2 ^ (7 * 0)) with 1; lia].
  change (2 ^ (7 * 0)) with 1. do 2 f_equal. lia.
Qed.

Lemma key_parts n t : 0 <= n -> 0 <= t < 8 -> Z.shiftr (n * 8 + t) 3 = n /\ Z.land (n * 8 + t) 7 = t.
Proof.
  intros Hn Ht. change 7 with (Z.ones 3). rewrite Z.land_ones, Z.shiftr_div_pow2 by lia. change (2 ^ 3) with 8.
  rewrite Z.div_add_l by lia. rewrite Z.div_small, Z.add_0_r by lia. rewrite Z.add_comm, Z.mod_add by lia.
  by rewrite Z.mod_small by lia.
Qed.

Lemma take_app b rest : take (len b) (b ++ rest) = Ok (b, rest).
Proof.
  unfold take. rewrite len_app. len_facts. destruct (Z.ltb_spec (len b + len rest) (len b)); [lia|].
  by rewrite ztake_app_l, ztake_all, zdrop_app_r, Z.sub_diag, zdrop_0 by lia.
Qed.

Lemma read_write_field f rest :
  field_typed f -> (forall b, value f = Bytes b -> len b <= U64_MAX) -> read_field (write_field f ++ rest) = Ok (f, rest).
Proof.
  intros [Hn Hv] Hb. destruct f as [n v]. cbn [number value] in *. unfold read_field, write_field. cbn [number value].
  rewrite <- app_assoc. assert (Ht : 0 <= wire_type_of v < 8) by (destruct v; cbn; lia).
  unfold MAX_FIELD_NUMBER in *. change (Z.shiftl 1 29 - 1) with (2 ^ 29 - 1) in *.
  rewrite read_write_varint by (unfold is_u64, U64_MAX; lia). cbn [mbind result_bind].
  destruct (key_parts n (wire_type_of v)) as [-> ->]; [lia|done|].
  rewrite (proj2 (Z.eqb_neq n 0)), (proj2 (Z.ltb_ge _ n)) by lia. cbn [orb].
  destruct v as [z|z|b|z]; cbn [wire_type_of Z.eqb Pos.eqb write_value value_typed] in *.
  - rewrite read_write_varint by done. done.
  - change 8 with (len (to_le_bytes 8 z)). rewrite take_app. cbn [mbind result_bind]. by rewrite u64_le_roundtrip.
  - rewrite <- app_assoc. len_facts. rewrite read_write_varint by (split; [lia|by apply Hb]). cbn [mbind result_bind].
    rewrite take_app. done.
  - change 4 with (len (to_le_bytes 4 z)). rewrite take_app. cbn [mbind result_bind]. by rewrite u32_le_roundtrip.
Qed.

(** ** Whole messages: [decode] of manifest.rs *)

Section Decode.
Context {S E : Type}.
(** The error of a [WireError], as [what] describes it, and the closure [each] on what it captures. *)
Variable wire : WireError -> E.
Variable each : Field -> S -> result E S.

(** The loop: every field takes a byte, so a round more than the bytes is enough. *)
Fixpoint decode_loop (rounds : nat) (message : Message) (state : S) : result E S :=
  match rounds with
  | O => Ok state
  | Datatypes.S rounds =>
      match next_field message with
      | Ok (Some field, message) =>
          state ← each field state;
          decode_loop rounds message state
      | Ok (None, _) => Ok state
      | Err error => Err (wire error)
      end
  end.

Definition decode (data : list byte) (known repeated : list Z) (state : S) : result E S :=
  decode_loop (Datatypes.S (length data)) (message_new data known repeated) state.

(** *** The fields of a message *)

Inductive reads : list byte -> list Field -> Prop :=
| reads_nil : reads [] []
| reads_cons data f rest fields :
    data <> [] -> read_field data = Ok (f, rest) -> reads rest fields -> reads data (f :: fields).

(** A message type that knows the fields [known] and [repeated], and takes only the latter twice. *)
Definition strict (known repeated : list Z) (fields : list Field) : Prop :=
  Forall (fun f => number f ∈ known ++ repeated) fields
  /\ NoDup (filter (fun n => n ∉ repeated) (number <$> fields)).

Fixpoint fold_fields (fields : list Field) (state : S) : result E S :=
  match fields with
  | [] => Ok state
  | f :: fields => state ← each f state; fold_fields fields state
  end.
End Decode.

Lemma field_bit_test n i : 0 <= n < 64 -> 0 <= i -> Z.testbit (field_bit n) i = bool_decide (i = n).
Proof.
  intros Hn Hi. unfold field_bit. rewrite (proj2 (Z.ltb_lt n 64)) by lia. rewrite Z.shiftl_1_l, Z.pow2_bits_eqb by lia.
  case_bool_decide; [apply Z.eqb_eq|apply Z.eqb_neq]; lia.
Qed.

Lemma mask_test numbers acc i :
  Forall (fun n => 0 <= n < 64) numbers -> 0 <= i ->
  Z.testbit (foldl (fun mask number => Z.lor mask (Z.shiftl 1 number)) acc numbers) i = Z.testbit acc i || bool_decide (i ∈ numbers).
Proof.
  intros Hn Hi. revert acc. induction Hn as [|n numbers Hb _ IH]; intros acc; cbn [foldl].
  { rewrite bool_decide_false by (by intros ?%not_elem_of_nil). by rewrite orb_false_r. }
  rewrite IH, Z.lor_spec, Z.shiftl_1_l, Z.pow2_bits_eqb by lia. rewrite <- orb_assoc. f_equal.
  destruct (Z.eqb_spec n i) as [->|Hne]; cbn [orb].
  - by rewrite bool_decide_true by (apply elem_of_cons; auto).
  - apply bool_decide_ext. rewrite elem_of_cons. naive_solver.
Qed.

Lemma mask_bit mask (numbers : list Z) n :
  0 <= n < 64 -> (forall i, 0 <= i -> Z.testbit mask i = bool_decide (i ∈ numbers)) ->
  (Z.land mask (field_bit n) =? 0) = negb (bool_decide (n ∈ numbers)).
Proof.
  intros Hn Hm. case_bool_decide as Hin.
  - apply Z.eqb_neq. intros Hz. assert (Hb : Z.testbit (Z.land mask (field_bit n)) n = false) by (by rewrite Hz, Z.bits_0).
    rewrite Z.land_spec, Hm, field_bit_test in Hb by lia. by rewrite !bool_decide_true in Hb.
  - apply Z.eqb_eq, Z.bits_inj'. intros i Hi. rewrite Z.land_spec, Hm, field_bit_test, Z.bits_0 by lia.
    destruct (bool_decide_reflect (i = n)) as [->|]; [|apply andb_false_r]. by rewrite bool_decide_false.
Qed.

Section DecodeFacts.
Context {S E : Type} (wire : WireError -> E) (each : Field -> S -> result E S) (known repeated : list Z).
Hypothesis known_small : Forall (fun n => 0 <= n < 64) (known ++ repeated).

(** A message that has read the fields numbered [past]. *)
Definition message_at (m : Message) (past : list Z) : Prop :=
  (forall i, 0 <= i -> Z.testbit (Wire.known m) i = bool_decide (i ∈ known ++ repeated))
  /\ (forall i, 0 <= i -> Z.testbit (Wire.repeated m) i = bool_decide (i ∈ repeated))
  /\ (forall i, 0 <= i -> Z.testbit (seen m) i = bool_decide (i ∈ past)).

Lemma message_new_at data : message_at (message_new data known repeated) [].
Proof.
  apply Forall_app in known_small as [Hk Hr]. unfold message_at, message_new, mask. cbn [Wire.known Wire.repeated seen]. split_and!.
  - intros i Hi. rewrite Z.lor_spec, !mask_test, Z.bits_0 by done. cbn [orb].
    destruct (bool_decide_reflect (i ∈ known)), (bool_decide_reflect (i ∈ repeated)); symmetry;
      [apply bool_decide_eq_true|apply bool_decide_eq_true|apply bool_decide_eq_true|apply bool_decide_eq_false]; rewrite elem_of_app; tauto.
  - intros i Hi. by rewrite mask_test, Z.bits_0.
  - intros i Hi. rewrite Z.bits_0. by rewrite bool_decide_false by (by intros ?%not_elem_of_nil).
Qed.

(** What [next_field] makes of the next field. *)
Lemma next_field_at m past :
  message_at m past -> data m <> [] ->
  next_field m = match read_field (data m) with
  | Ok (f, rest) =>
      if negb (bool_decide (number f ∈ known ++ repeated)) then Err (Unknown (number f))
      else if bool_decide (number f ∉ repeated) && bool_decide (number f ∈ past) then Err (Repeated (number f))
      else Ok (Some f, mkMessage rest (Wire.known m) (Wire.repeated m) (Z.lor (seen m) (field_bit (number f))))
  | Err e => Err e
  end.
Proof.
  intros (Hk & Hr & Hs) Hne. unfold next_field. destruct (data m) as [|b d]; [done|].
  destruct (read_field (b :: d)) as [[f rest]|e] eqn:Hf; [|done]. cbn [mbind result_bind].
  apply read_field_ok in Hf as [[[Hn _] _] _].
  destruct (Z.lt_ge_cases (number f) 64) as [Hlt|Hge].
  - rewrite (mask_bit _ (known ++ repeated) (number f) ltac:(lia) Hk), (mask_bit _ repeated (number f) ltac:(lia) Hr), (mask_bit _ past (number f) ltac:(lia) Hs).
    assert (Hb : (field_bit (number f) =? 0) = false).
    { apply Z.eqb_neq. unfold field_bit. rewrite (proj2 (Z.ltb_lt _ _)) by lia. rewrite Z.shiftl_1_l. pose proof (Z.pow_pos_nonneg 2 (number f)). lia. }
    rewrite Hb. cbn [orb]. rewrite negb_involutive. destruct (bool_decide (number f ∈ known ++ repeated)); [|done]. cbn [negb].
    by rewrite bool_decide_not.
  - assert (Hb : field_bit (number f) = 0) by (unfold field_bit; by rewrite (proj2 (Z.ltb_ge _ _)) by lia).
    rewrite Hb. cbn [Z.eqb orb]. rewrite bool_decide_false; [done|]. intros Hin.
    rewrite Forall_forall in known_small. apply known_small in Hin. lia.
Qed.

Lemma message_at_step m past f rest :
  message_at m past -> number f ∈ known ++ repeated ->
  message_at (mkMessage rest (Wire.known m) (Wire.repeated m) (Z.lor (seen m) (field_bit (number f)))) (number f :: past).
Proof.
  intros (Hk & Hr & Hs) Hin. rewrite Forall_forall in known_small. apply known_small in Hin.
  unfold message_at. cbn [Wire.known Wire.repeated seen]. split_and!; [done..|].
  intros i Hi. rewrite Z.lor_spec, Hs, field_bit_test by done.
  destruct (bool_decide_reflect (i ∈ past)), (bool_decide_reflect (i = number f)); symmetry;
    [apply bool_decide_eq_true|apply bool_decide_eq_true|apply bool_decide_eq_true|apply bool_decide_eq_false]; rewrite elem_of_cons; tauto.
Qed.

(** The fields that may follow those numbered [past]. *)
Definition strict_from (past : list Z) (fields : list Field) : Prop :=
  Forall (fun f => number f ∈ known ++ repeated) fields
  /\ NoDup (filter (fun n => n ∉ repeated) (number <$> fields))
  /\ Forall (fun f => number f ∈ repeated \/ number f ∉ past) fields.

Lemma strict_from_cons past f fields :
  strict_from past (f :: fields) <->
  number f ∈ known ++ repeated /\ (number f ∈ repeated \/ number f ∉ past) /\ strict_from (number f :: past) fields.
Proof.
  unfold strict_from. rewrite !Forall_cons, fmap_cons, filter_cons.
  assert (Hnew : Forall (fun f' => number f' ∈ repeated \/ number f' ∉ number f :: past) fields <->
    Forall (fun f' => number f' ∈ repeated \/ number f' ∉ past) fields
    /\ (number f ∈ repeated \/ number f ∉ filter (fun n => n ∉ repeated) (number <$> fields))).
  { rewrite !Forall_forall, list_elem_of_filter, list_elem_of_fmap. setoid_rewrite not_elem_of_cons. split.
    - intros H. split; [intros g Hg; destruct (H g Hg); tauto|].
      destruct (decide (number f ∈ repeated)) as [|Hr]; [tauto|right]. intros [_ (g & Hng & Hg)].
      destruct (H g Hg) as [?|[? _]]; [congruence|by apply H0].
    - intros [H Hf] g Hg. destruct (H g Hg) as [|Hp]; [tauto|].
      destruct (decide (number g ∈ repeated)) as [|Hr]; [tauto|right]. split; [|done]. intros Heq.
      destruct Hf as [Hf|Hf]; [congruence|]. apply Hf. split; [congruence|]. by exists g. }
  rewrite Hnew. destruct (decide (number f ∉ repeated)) as [Hr|Hr].
  - rewrite NoDup_cons. tauto.
  - assert (number f ∈ repeated) by (by destruct (decide (number f ∈ repeated))). tauto.
Qed.

Lemma decode_loop_reads rounds m past state state' :
  message_at m past -> (length (data m) < rounds)%nat ->
  decode_loop wire each rounds m state = Ok state' <->
  exists fields, reads (data m) fields /\ strict_from past fields /\ fold_fields each fields state = Ok state'.
Proof.
  revert m past state. induction rounds as [|rounds IH]; intros m past state Hm Hl; [lia|]. cbn [decode_loop].
  destruct (decide (data m = [])) as [Hd|Hd].
  { unfold next_field. rewrite Hd. split.
    - intros H. exists []. split; [constructor|]. split; [split_and!; constructor|done].
    - intros (fields & Hr & _ & Hf). inversion Hr; subst; [done|]. done. }
  rewrite (next_field_at m past Hm Hd). destruct (read_field (data m)) as [[f rest]|e] eqn:Hf; cycle 1.
  { split; [done|]. intros (fields & Hr & _). inversion Hr; congruence. }
  pose proof Hf as Hf'. apply read_field_ok in Hf' as (_ & prefix & Hp & Hpre).
  destruct (bool_decide_reflect (number f ∈ known ++ repeated)) as [Hk|Hk]; cbn [negb]; cycle 1.
  { split; [done|]. intros (fields & Hr & Hs & _). inversion Hr; [congruence|]. subst.
    apply strict_from_cons in Hs as [Hin _]. congruence. }
  destruct (bool_decide (number f ∉ repeated) && bool_decide (number f ∈ past)) eqn:Hrep.
  { apply andb_true_iff in Hrep as [Hnr%bool_decide_eq_true Hin%bool_decide_eq_true]. split; [done|].
    intros (fields & Hr & Hs & _). inversion Hr; [congruence|]. subst. apply strict_from_cons in Hs as (_ & [?|?] & _); congruence. }
  assert (Hok : number f ∈ repeated \/ number f ∉ past).
  { apply andb_false_iff in Hrep as [Hb%bool_decide_eq_false|Hb%bool_decide_eq_false]; [left; by apply dec_stable|by right]. }
  assert (Hlen : (length rest < rounds)%nat).
  { rewrite Hpre, length_app in Hl. destruct prefix; [done|]. cbn in Hl. lia. }
  pose proof (fun s => IH _ _ s (message_at_step m past f rest Hm Hk) Hlen) as IH'. cbn [data] in IH'. split.
  - destruct (each f state) as [s|e] eqn:He; [|done]. cbn [mbind result_bind]. intros H. apply IH' in H as (fields & Hr & Hs & Hfold).
    exists (f :: fields). split; [by econstructor|]. split; [by apply strict_from_cons|]. cbn [fold_fields]. by rewrite He.
  - intros (fields & Hr & Hs & Hfold). inversion Hr as [|d f' rest' fields' _ Hf2 Hr']; [congruence|]. subst.
    rewrite Hf in Hf2. assert (f' = f) as -> by congruence. assert (rest' = rest) as -> by congruence.
    apply strict_from_cons in Hs as (_ & _ & Hs). cbn [fold_fields] in Hfold. destruct (each f state) as [s|e]; [|done].
    cbn [mbind result_bind] in *. apply IH'. eauto.
Qed.

Lemma decode_reads data state state' :
  decode wire each data known repeated state = Ok state' <->
  exists fields, reads data fields /\ strict known repeated fields /\ fold_fields each fields state = Ok state'.
Proof.
  unfold decode. rewrite (decode_loop_reads _ _ [] _ _ (message_new_at data)) by (cbn; lia). cbn [Wire.data message_new].
  unfold strict_from, strict. split; intros (fields & Hr & Hs & Hf); exists fields.
  - tauto.
  - split; [done|]. split; [|done]. split_and!; [apply Hs..|]. apply Forall_forall. intros f _. right. apply not_elem_of_nil.
Qed.
End DecodeFacts.

Lemma reads_inj data fields fields' : reads data fields -> reads data fields' -> fields = fields'.
Proof.
  intros H. revert fields'. induction H as [|data f rest fields Hne Hf _ IH]; intros fields' H'; inversion H' as [|d f' rest' fs' Hne' Hf' Hr']; subst; try done.
  rewrite Hf in Hf'. assert (f' = f) as -> by congruence. assert (rest' = rest) as -> by congruence. f_equal. by apply IH.
Qed.

(** A field whose bytes a length of 64 bits counts. *)
Definition writable (f : Field) : Prop := field_typed f /\ forall b, value f = Bytes b -> len b <= U64_MAX.

Lemma write_field_cons f : exists b l, write_field f = b :: l.
Proof.
  unfold write_field, varint. destruct (write_varint 10 _) as [|b l] eqn:Hw.
  - cbn [write_varint] in Hw. by destruct (_ <? 128).
  - by exists b, (l ++ write_value (value f)).
Qed.

Lemma write_reads fields : Forall writable fields -> reads (concat (map write_field fields)) fields.
Proof.
  induction 1 as [|f fields [Ht Hb] _ IH]; cbn [map concat]; [constructor|].
  econstructor; [|by apply read_write_field|done]. destruct (write_field_cons f) as (b & l & ->). done.
Qed.

(** The strict reader takes a message written field by field exactly when its type knows every
    field and none that is not repeated appears twice, and then hands the fields, with their values,
    to the closure in their order; it always comes to an end, whatever the bytes. *)
Theorem wire_message_exact {S E} (wire : WireError -> E) (each : Field -> S -> result E S) (known repeated : list Z)
    (fields : list Field) (state state' : S) :
  Forall (fun n => 0 <= n < 64) (known ++ repeated) -> Forall writable fields ->
  decode wire each (concat (map write_field fields)) known repeated state = Ok state'
  <-> strict known repeated fields /\ fold_fields each fields state = Ok state'.
Proof.
  intros Hk Hw. rewrite (decode_reads wire each known repeated Hk). apply write_reads in Hw. split.
  - intros (fields' & Hr & H). by rewrite (reads_inj _ _ _ Hw Hr).
  - intros H. by exists fields.
Qed.

Definition sample_fields : list Field :=
  [mkField 2 (Varint 300); mkField 5 (Bytes (bytes_of "a")); mkField 1 (Fixed32 7); mkField 5 (Bytes (bytes_of "bc")); mkField 3 (Fixed64 9)].

Definition collect_field (f : Field) (fields : list Field) : result WireError (list Field) := Ok (fields ++ [f]).

Lemma wire_message_exact_witness :
  decode id collect_field (concat (map write_field sample_fields)) [1; 2; 3] [5] [] = Ok sample_fields.
Proof.
  apply (wire_message_exact id collect_field [1; 2; 3] [5] sample_fields [] sample_fields).
  - apply (bool_decide_unpack _). vm_compute. exact I.
  - repeat (apply Forall_cons_2; [split; [split; [vm_compute; split; discriminate|vm_compute; (exact I || (split; discriminate))]|
      intros b Hb; (discriminate || (injection Hb as <-; vm_compute; discriminate))]|]). apply Forall_nil_2.
  - split; [|reflexivity]. split; [|apply (bool_decide_unpack _); vm_compute; exact I].
    apply (bool_decide_unpack _). vm_compute. exact I.
Defined.
