(* ===== verification/Manifest.v ===== *)
(** * The manifest of a template's capture (src/nvx-rs/src/host/template/manifest.rs, from line 660)

    The decoding of the snapshot manifest's messages, over the strict reader of [Wire], and the
    checks that make it a template's. A message of an error is its form; the file that holds the
    manifest is read by the caller. *)

From S2P Require Import Prelude Machine Wire.

Definition MAX_MANIFEST_LEN : Z := 1024 * 1024.
Definition FORMAT_MAGIC : list byte := bytes_of "OPENVMM_SNAPSHOT_V2" ++ [byte_of 0].
Definition SAVED_STATE_ROOT_TYPE : list byte := bytes_of "openvmm.SavedState".
Definition ARCHITECTURE : list byte := bytes_of "x86_64".
Definition PAGE_SIZE : Z := 4096.
Definition MACHINE_PROFILE : list byte := bytes_of "microvm".
Definition BOOT_LAYOUT_VERSION : Z := 1.
Definition MEMORY_EXPANSION_VERSION : Z := 1.
Definition TIER_PLATFORM : list byte := bytes_of "platform".
Definition RESTORE_POLICY_CLONE : list byte := bytes_of "clone".
Definition CONSUMED_INVARIANTS : Z := 1.
Definition MAX_BLOCKS : Z := 4.
Definition MAX_STATE_LEN : Z := 256 * 1024 * 1024.
Definition MAX_STATE_UNITS : Z := 512.
Definition MAX_ATTACHMENTS : Z := 64.
Definition MAX_ATTACHMENT_IDENTITY_LEN : Z := 4096.
Definition HOST_IDENTITY_LEN : Z := 16.
Definition NANOS_PER_SECOND : Z := 1000000000.

Inductive HostClock : Type := LinuxBoottime | WindowsInterruptTime.

Definition parse_clock (text : list byte) : option HostClock :=
  if bool_decide (text = bytes_of "linux-boottime") then Some LinuxBoottime
  else if bool_decide (text = bytes_of "windows-interrupt-time") then Some WindowsInterruptTime
  else None.

Record TimeContract := mkTimeContract {
  tsc_frequency_hz : Z;
  tsc_tolerance_ppm : Z;
  apic_frequency_hz : Z;
  capture_tsc : Z;
  capture_utc_ns : Z;
  capture_monotonic_ns : Z;
  host_clock : HostClock;
  host_id : list byte;
  boot_id : list byte;
  lineage : Z;
  cut_to_anchor_ns : option Z;
}.

(** What an error names, with the index of a device or an attachment. *)
Inductive What : Type :=
| Named (what : string)
| Indexed (what : string) (index : Z).

Inductive DecodeError : Type :=
| FieldError (what : What) (error : WireError)
| HoldMore (what : What) (limit : Z)
| UnknownSpace (what : What) (space : list byte)
| LongIdentity (what : What)
| Unreachable.

(** [field_error]. *)
Definition at_ {A} (what : What) (r : result WireError A) : result DecodeError A := map_err (FieldError what) r.

Definition decode_message {S} (data : list byte) (what : What) (known repeated : list Z)
    (each : Field -> S -> result DecodeError S) (state : S) : result DecodeError S :=
  decode (FieldError what) each data known repeated state.

Definition push_bounded {A} (items : list A) (item : A) (limit : Z) (what : What) : result DecodeError (list A) :=
  if len items =? limit then Err (HoldMore what limit) else Ok (items ++ [item]).

(** ** The messages *)

Definition decode_timestamp (data : list byte) : result DecodeError (Z * Z) :=
  let what := Named "its creation time" in
  decode_message data what [1; 2] [] (fun field timestamp =>
    match number field with
    | 1 => seconds ← at_ what (int64 field); Ok (seconds, timestamp.2)
    | 2 => nanos ← at_ what (int32 field); Ok (timestamp.1, nanos)
    | _ => Err Unreachable
    end) (0, 0).

Definition decode_memory_range (data : list byte) : result DecodeError (Z * Z * Z) :=
  let what := Named "its memory range" in
  decode_message data what [1; 2; 3] [] (fun field '(start, length, offset) =>
    value ← at_ what (uint64 field);
    match number field with
    | 1 => Ok (value, length, offset)
    | 2 => Ok (start, value, offset)
    | 3 => Ok (start, length, value)
    | _ => Err Unreachable
    end) (0, 0, 0).

Definition decode_expansion_range (data : list byte) : result DecodeError (Z * Z) :=
  let what := Named "its memory expansion range" in
  decode_message data what [1; 2] [] (fun field '(start, length) =>
    value ← at_ what (uint64 field);
    match number field with
    | 1 => Ok (value, length)
    | 2 => Ok (start, value)
    | _ => Err Unreachable
    end) (0, 0).

#[export] Instance Topology_eta : Eta Topology := fun t =>
  mkTopology (sockets t) (dies_per_socket t) (cores_per_die t) (threads_per_core t) (apic_ids t).

Definition topology_default : Topology := mkTopology 0 0 0 0 [].

Definition decode_topology (data : list byte) : result DecodeError Topology :=
  let what := Named "its processor topology" in
  decode_message data what [1; 2; 3; 4; 5] [] (fun field topology =>
    match number field with
    | 1 => v ← at_ what (uint32 field); Ok (topology <| sockets := v |>)
    | 2 => v ← at_ what (uint32 field); Ok (topology <| dies_per_socket := v |>)
    | 3 => v ← at_ what (uint32 field); Ok (topology <| cores_per_die := v |>)
    | 4 => v ← at_ what (uint32 field); Ok (topology <| threads_per_core := v |>)
    | 5 => v ← at_ what (packed_uint32 field); Ok (topology <| apic_ids := v |>)
    | _ => Err Unreachable
    end) topology_default.

#[export] Instance DeviceRange_eta : Eta DeviceRange := fun r => mkDeviceRange (space r) (dr_start r) (dr_length r).

(** The state is the spelling of the space and the range. *)
Definition decode_device_range (data : list byte) (index : Z) : result DecodeError DeviceRange :=
  let what := Indexed "a range of its device" index in
  '(spelling, range) ← decode_message data what [1; 2; 3] [] (fun field '(spelling, range) =>
    match number field with
    | 1 => v ← at_ what (text field); Ok (v, range)
    | 2 => v ← at_ what (uint64 field); Ok (spelling, range <| dr_start := v |>)
    | 3 => v ← at_ what (uint64 field); Ok (spelling, range <| dr_length := v |>)
    | _ => Err Unreachable
    end) ([], mkDeviceRange Mmio 0 0);
  space ← ok_or (parse_space spelling) (UnknownSpace what spelling);
  Ok (range <| Machine.space := space |>).

#[export] Instance Device_eta : Eta Device := fun d =>
  mkDevice (stable_id d) (device_kind d) (state_unit d) (transport d) (device_ranges d) (irq d) (feature_banks d)
    (queue_count d) (queue_max_sizes d).

Definition device_default : Device := mkDevice [] [] [] [] [] None [] 0 [].

(** The state is the device and its order. *)
Definition device_field (index : Z) (field : Field) (state : Device * Z) : result DecodeError (Device * Z) :=
  let what := Indexed "its device" index in
  let '(device, order) := state in
  match number field with
  | 1 => v ← at_ what (text field); Ok (device <| stable_id := v |>, order)
  | 2 => v ← at_ what (text field); Ok (device <| state_unit := v |>, order)
  | 3 => v ← at_ what (text field); Ok (device <| device_kind := v |>, order)
  | 4 => v ← at_ what (uint32 field); Ok (device, v)
  | 5 => v ← at_ what (bytes field);
         range ← decode_device_range v index;
         ranges ← push_bounded (device_ranges device) range MAX_DEVICE_RANGES (Indexed "the ranges of its device" index);
         Ok (device <| device_ranges := ranges |>, order)
  | 6 => v ← at_ what (uint32 field); Ok (device <| irq := Some v |>, order)
  | 7 => v ← at_ what (text field); Ok (device <| transport := v |>, order)
  | 8 => v ← at_ what (packed_uint32 field); Ok (device <| feature_banks := v |>, order)
  | 9 => v ← at_ what (uint32 field); Ok (device <| queue_count := v |>, order)
  | 10 => v ← at_ what (packed_uint32 field); Ok (device <| queue_max_sizes := v |>, order)
  | _ => Err Unreachable
  end.

Definition decode_device (data : list byte) (index : Z) : result DecodeError (Device * Z) :=
  decode_message data (Indexed "its device" index) [1; 2; 3; 4; 6; 7; 8; 9; 10] [5] (device_field index) (device_default, 0).

Record Attachment := mkAttachment { attachment_id : list byte; reconnect_policy : list byte }.

#[export] Instance Attachment_eta : Eta Attachment := fun a => mkAttachment (attachment_id a) (reconnect_policy a).

Definition decode_attachment (data : list byte) (index : Z) : result DecodeError Attachment :=
  let what := Indexed "its attachment" index in
  decode_message data what [1; 2; 3; 4; 5; 6; 7; 8] [] (fun field attachment =>
    match number field with
    | 1 => v ← at_ what (text field); Ok (attachment <| attachment_id := v |>)
    | 4 => v ← at_ what (text field); Ok (attachment <| reconnect_policy := v |>)
    | 2 | 5 => _ ← at_ what (text field); Ok attachment
    | 3 => _ ← at_ what (boolean field); Ok attachment
    | 6 => v ← at_ what (bytes field);
           if MAX_ATTACHMENT_IDENTITY_LEN <? len v then Err (LongIdentity what) else Ok attachment
    | 7 | 8 => _ ← at_ what (uint64 field); Ok attachment
    | _ => Err Unreachable
    end) (mkAttachment [] []).

Record RawNetwork := mkRawNetwork {
  rn_profile : list byte;
  rn_ipv4 : Z;
  rn_prefix_length : Z;
  rn_gateway : Z;
  rn_guest_mac : list byte;
  rn_gateway_mac : list byte;
  rn_policy_mode : list byte;
  rn_policy_digest : list byte;
  rn_policy_required : bool;
  rn_policy_encoding_version : Z;
  rn_ipv6 : list byte;
  rn_ipv6_prefix_length : Z;
  rn_ipv6_gateway : list byte;
}.

#[export] Instance RawNetwork_eta : Eta RawNetwork := fun r =>
  mkRawNetwork (rn_profile r) (rn_ipv4 r) (rn_prefix_length r) (rn_gateway r) (rn_guest_mac r) (rn_gateway_mac r)
    (rn_policy_mode r) (rn_policy_digest r) (rn_policy_required r) (rn_policy_encoding_version r) (rn_ipv6 r)
    (rn_ipv6_prefix_length r) (rn_ipv6_gateway r).

Definition network_field (field : Field) (raw : RawNetwork) : result DecodeError RawNetwork :=
  let what := Named "its network" in
  match number field with
  | 1 => v ← at_ what (uint32 field); Ok (raw <| rn_ipv4 := v |>)
  | 2 => v ← at_ what (uint32 field); Ok (raw <| rn_prefix_length := v |>)
  | 3 => v ← at_ what (uint32 field); Ok (raw <| rn_gateway := v |>)
  | 4 => v ← at_ what (bytes field); Ok (raw <| rn_guest_mac := v |>)
  | 5 => v ← at_ what (bytes field); Ok (raw <| rn_gateway_mac := v |>)
  | 6 => v ← at_ what (text field); Ok (raw <| rn_policy_mode := v |>)
  | 7 => v ← at_ what (bytes field); Ok (raw <| rn_policy_digest := v |>)
  | 8 => v ← at_ what (boolean field); Ok (raw <| rn_policy_required := v |>)
  | 9 => v ← at_ what (text field); Ok (raw <| rn_profile := v |>)
  | 10 => v ← at_ what (uint32 field); Ok (raw <| rn_policy_encoding_version := v |>)
  | 11 => v ← at_ what (bytes field); Ok (raw <| rn_ipv6 := v |>)
  | 12 => v ← at_ what (uint32 field); Ok (raw <| rn_ipv6_prefix_length := v |>)
  | 13 => v ← at_ what (bytes field); Ok (raw <| rn_ipv6_gateway := v |>)
  | _ => Err Unreachable
  end.

Definition decode_network (data : list byte) : result DecodeError RawNetwork :=
  decode_message data (Named "its network") [1; 2; 3; 4; 5; 6; 7; 8; 9; 10; 11; 12; 13] [] network_field
    (mkRawNetwork [] 0 0 0 [] [] [] [] false 0 [] 0 []).

Record RawBlock := mkRawBlock {
  role : list byte;
  read_only : bool;
  geometry : Z * Z * Z;
  identity_kind : list byte;
  block_identity : list byte;
  artifact : list byte;
  restore_mode : list byte;
}.

#[export] Instance RawBlock_eta : Eta RawBlock := fun r =>
  mkRawBlock (role r) (read_only r) (geometry r) (identity_kind r) (block_identity r) (artifact r) (restore_mode r).

Definition block_field (field : Field) (raw : RawBlock) : result DecodeError RawBlock :=
  let what := Named "its sandbox block" in
  let '(length, logical, physical) := geometry raw in
  match number field with
  | 1 => v ← at_ what (text field); Ok (raw <| role := v |>)
  | 2 => v ← at_ what (boolean field); Ok (raw <| read_only := v |>)
  | 3 => v ← at_ what (uint64 field); Ok (raw <| geometry := (v, logical, physical) |>)
  | 4 => v ← at_ what (text field); Ok (raw <| identity_kind := v |>)
  | 5 => v ← at_ what (bytes field); Ok (raw <| block_identity := v |>)
  | 6 => v ← at_ what (text field); Ok (raw <| artifact := v |>)
  | 7 => v ← at_ what (uint32 field); Ok (raw <| geometry := (length, v, physical) |>)
  | 8 => v ← at_ what (uint32 field); Ok (raw <| geometry := (length, logical, v) |>)
  | 9 => v ← at_ what (text field); Ok (raw <| restore_mode := v |>)
  | _ => Err Unreachable
  end.

Definition decode_block (data : list byte) : result DecodeError RawBlock :=
  decode_message data (Named "its sandbox block") [1; 2; 3; 4; 5; 6; 7; 8; 9] [] block_field
    (mkRawBlock [] false (0, 0, 0) [] [] [] []).

Record RawTime := mkRawTime {
  rt_abi_version : Z;
  rt_tsc_hz : Z;
  rt_tolerance_ppm : Z;
  rt_apic_hz : Z;
  rt_capture_tsc : Z;
  rt_capture_utc_ns : Z;
  rt_capture_monotonic_ns : Z;
  rt_host_clock : list byte;
  rt_host_id : list byte;
  rt_boot_id : list byte;
  rt_lineage : Z;
  rt_cut_to_anchor_ns : option Z;
}.

#[export] Instance RawTime_eta : Eta RawTime := fun r =>
  mkRawTime (rt_abi_version r) (rt_tsc_hz r) (rt_tolerance_ppm r) (rt_apic_hz r) (rt_capture_tsc r) (rt_capture_utc_ns r)
    (rt_capture_monotonic_ns r) (rt_host_clock r) (rt_host_id r) (rt_boot_id r) (rt_lineage r) (rt_cut_to_anchor_ns r).

Definition time_field (field : Field) (raw : RawTime) : result DecodeError RawTime :=
  let what := Named "its time contract" in
  match number field with
  | 1 => v ← at_ what (uint32 field); Ok (raw <| rt_abi_version := v |>)
  | 2 => v ← at_ what (uint64 field); Ok (raw <| rt_tsc_hz := v |>)
  | 3 => v ← at_ what (uint32 field); Ok (raw <| rt_tolerance_ppm := v |>)
  | 4 => v ← at_ what (uint64 field); Ok (raw <| rt_apic_hz := v |>)
  | 5 => v ← at_ what (uint64 field); Ok (raw <| rt_capture_tsc := v |>)
  | 6 => v ← at_ what (uint64 field); Ok (raw <| rt_capture_utc_ns := v |>)
  | 7 => v ← at_ what (uint64 field); Ok (raw <| rt_capture_monotonic_ns := v |>)
  | 8 => v ← at_ what (text field); Ok (raw <| rt_host_clock := v |>)
  | 9 => v ← at_ what (bytes field); Ok (raw <| rt_host_id := v |>)
  | 10 => v ← at_ what (bytes field); Ok (raw <| rt_boot_id := v |>)
  | 11 => v ← at_ what (uint32 field); Ok (raw <| rt_lineage := v |>)
  | 12 => v ← at_ what (uint64 field); Ok (raw <| rt_cut_to_anchor_ns := Some v |>)
  | _ => Err Unreachable
  end.

Definition decode_time (data : list byte) : result DecodeError RawTime :=
  decode_message data (Named "its time contract") [1; 2; 3; 4; 5; 6; 7; 8; 9; 10; 11; 12] [] time_field
    (mkRawTime 0 0 0 0 0 0 0 [] [] [] 0 None).

Record RawCpuProfile := mkRawCpuProfile { rc_id : list byte; rc_digest : list byte; rc_effective_cpuid : list byte }.

#[export] Instance RawCpuProfile_eta : Eta RawCpuProfile := fun r =>
  mkRawCpuProfile (rc_id r) (rc_digest r) (rc_effective_cpuid r).

Definition cpu_profile_field (field : Field) (raw : RawCpuProfile) : result DecodeError RawCpuProfile :=
  let what := Named "its CPU profile" in
  match number field with
  | 1 => v ← at_ what (text field); Ok (raw <| rc_id := v |>)
  | 2 => v ← at_ what (bytes field); Ok (raw <| rc_digest := v |>)
  | 3 => _ ← at_ what (bytes field); Ok raw
  | 4 => v ← at_ what (bytes field); Ok (raw <| rc_effective_cpuid := v |>)
  | 6 => _ ← at_ what (uint32 field); Ok raw
  | _ => Err Unreachable
  end.

Definition decode_cpu_profile (data : list byte) : result DecodeError RawCpuProfile :=
  decode_message data (Named "its CPU profile") [1; 2; 3; 4; 6] [] cpu_profile_field (mkRawCpuProfile [] [] []).

Record RawContract := mkRawContract {
  machine_profile : list byte;
  abi_version : Z;
  source_hypervisor : list byte;
  raw_command_line : list byte;
  raw_command_line_digest : list byte;
  memory_ranges : list (Z * Z * Z);
  raw_topology : Topology;
  raw_devices : list (Device * Z);
  state_units : Z;
  attachments : list Attachment;
  raw_time : option RawTime;
  cpu_profile : option RawCpuProfile;
  boot_layout_version : Z;
  network : option RawNetwork;
  filesystem : bool;
  blocks : list RawBlock;
  filesystem_slot_version : Z;
  boot_online_vp_count : Z;
  interrupt_mode : list byte;
  raw_status_page_start : Z;
  raw_status_page_length : Z;
  expansion_version : Z;
  memory_capacity : Z;
  memory_block_size : Z;
  expansion_ranges : list MemoryRange;
}.

#[export] Instance RawContract_eta : Eta RawContract := fun r =>
  mkRawContract (machine_profile r) (abi_version r) (source_hypervisor r) (raw_command_line r) (raw_command_line_digest r)
    (memory_ranges r) (raw_topology r) (raw_devices r) (state_units r) (attachments r) (raw_time r) (cpu_profile r)
    (boot_layout_version r) (network r) (filesystem r) (blocks r) (filesystem_slot_version r) (boot_online_vp_count r)
    (interrupt_mode r) (raw_status_page_start r) (raw_status_page_length r) (expansion_version r) (memory_capacity r)
    (memory_block_size r) (expansion_ranges r).

Definition contract_default : RawContract :=
  mkRawContract [] 0 [] [] [] [] topology_default [] 0 [] None None 0 None false [] 0 0 [] 0 0 0 0 0 [].

Definition contract_field (field : Field) (raw : RawContract) : result DecodeError RawContract :=
  let what := Named "its machine contract" in
  match number field with
  | 1 => v ← at_ what (text field); Ok (raw <| machine_profile := v |>)
  | 2 => v ← at_ what (uint32 field); Ok (raw <| abi_version := v |>)
  | 3 => v ← at_ what (text field); Ok (raw <| source_hypervisor := v |>)
  | 4 => v ← at_ what (text field); Ok (raw <| raw_command_line := v |>)
  | 5 => v ← at_ what (bytes field); Ok (raw <| raw_command_line_digest := v |>)
  | 6 => v ← at_ what (bytes field);
         range ← decode_memory_range v;
         ranges ← push_bounded (memory_ranges raw) range MAX_MEMORY_RANGES (Named "its memory ranges");
         Ok (raw <| memory_ranges := ranges |>)
  | 7 => v ← at_ what (bytes field);
         topology ← decode_topology v;
         Ok (raw <| raw_topology := topology |>)
  | 8 => v ← at_ what (bytes field);
         device ← decode_device v (len (raw_devices raw));
         devices ← push_bounded (raw_devices raw) device MAX_DEVICES (Named "its devices");
         Ok (raw <| raw_devices := devices |>)
  | 9 => _ ← at_ what (text field);
         if state_units raw =? MAX_STATE_UNITS then Err (HoldMore (Named "its state units") MAX_STATE_UNITS)
         else Ok (raw <| state_units := state_units raw + 1 |>)
  | 10 => v ← at_ what (bytes field);
          attachment ← decode_attachment v (len (attachments raw));
          attachments ← push_bounded (attachments raw) attachment MAX_ATTACHMENTS (Named "its attachments");
          Ok (raw <| Manifest.attachments := attachments |>)
  | 13 => v ← at_ what (uint32 field); Ok (raw <| boot_layout_version := v |>)
  | 14 => v ← at_ what (bytes field);
          network ← decode_network v;
          Ok (raw <| Manifest.network := Some network |>)
  | 15 => _ ← at_ what (bytes field); Ok (raw <| filesystem := true |>)
  | 16 => v ← at_ what (bytes field);
          block ← decode_block v;
          blocks ← push_bounded (blocks raw) block MAX_BLOCKS (Named "its sandbox blocks");
          Ok (raw <| Manifest.blocks := blocks |>)
  | 17 => v ← at_ what (uint32 field); Ok (raw <| filesystem_slot_version := v |>)
  | 18 => v ← at_ what (uint32 field); Ok (raw <| boot_online_vp_count := v |>)
  | 19 => v ← at_ what (text field); Ok (raw <| interrupt_mode := v |>)
  | 20 => v ← at_ what (uint64 field); Ok (raw <| raw_status_page_start := v |>)
  | 21 => v ← at_ what (uint64 field); Ok (raw <| raw_status_page_length := v |>)
  | 22 => v ← at_ what (uint32 field); Ok (raw <| expansion_version := v |>)
  | 23 => v ← at_ what (uint64 field); Ok (raw <| memory_capacity := v |>)
  | 24 => v ← at_ what (uint64 field); Ok (raw <| memory_block_size := v |>)
  | 25 => v ← at_ what (bytes field);
          '(start, length) ← decode_expansion_range v;
          ranges ← push_bounded (expansion_ranges raw) (mkMemoryRange start length) MAX_MEMORY_RANGES
                     (Named "its memory expansion ranges");
          Ok (raw <| expansion_ranges := ranges |>)
  | 11 => v ← at_ what (bytes field);
          time ← decode_time v;
          Ok (raw <| raw_time := Some time |>)
  | 12 => v ← at_ what (bytes field);
          profile ← decode_cpu_profile v;
          Ok (raw <| cpu_profile := Some profile |>)
  | _ => Err Unreachable
  end.

Definition CONTRACT_KNOWN : list Z := [1; 2; 3; 4; 5; 7; 11; 12; 13; 14; 15; 17; 18; 19; 20; 21; 22; 23; 24].
Definition CONTRACT_REPEATED : list Z := [6; 8; 9; 10; 16; 25].

Definition decode_contract (data : list byte) : result DecodeError RawContract :=
  decode_message data (Named "its machine contract") CONTRACT_KNOWN CONTRACT_REPEATED contract_field contract_default.

Record RawManifest := mkRawManifest {
  raw_created_at : Z * Z;
  raw_openvmm_version : list byte;
  memory_size : Z;
  vp_count : Z;
  page_size : Z;
  architecture : list byte;
  state_size : Z;
  contract : option RawContract;
  saved_state_schema_version : Z;
  saved_state_root_type : list byte;
  tier : list byte;
  restore_policy : list byte;
  consumed_sections : Z;
}.

#[export] Instance RawManifest_eta : Eta RawManifest := fun r =>
  mkRawManifest (raw_created_at r) (raw_openvmm_version r) (memory_size r) (vp_count r) (page_size r) (architecture r)
    (state_size r) (contract r) (saved_state_schema_version r) (saved_state_root_type r) (tier r) (restore_policy r)
    (consumed_sections r).

Definition manifest_field (field : Field) (raw : RawManifest) : result DecodeError RawManifest :=
  let what := Named "it" in
  match number field with
  | 1 => _ ← at_ what (uint32 field); Ok raw
  | 2 => v ← at_ what (bytes field);
         timestamp ← decode_timestamp v;
         Ok (raw <| raw_created_at := timestamp |>)
  | 3 => v ← at_ what (text field); Ok (raw <| raw_openvmm_version := v |>)
  | 4 => v ← at_ what (uint64 field); Ok (raw <| memory_size := v |>)
  | 5 => v ← at_ what (uint32 field); Ok (raw <| vp_count := v |>)
  | 6 => v ← at_ what (uint32 field); Ok (raw <| page_size := v |>)
  | 7 => v ← at_ what (text field); Ok (raw <| architecture := v |>)
  | 8 => v ← at_ what (uint64 field); Ok (raw <| state_size := v |>)
  | 9 => v ← at_ what (bytes field);
         contract ← decode_contract v;
         Ok (raw <| Manifest.contract := Some contract |>)
  | 10 => _ ← at_ what (bytes field); Ok raw
  | 11 => v ← at_ what (uint32 field); Ok (raw <| saved_state_schema_version := v |>)
  | 12 => v ← at_ what (text field); Ok (raw <| saved_state_root_type := v |>)
  | 13 => v ← at_ what (text field); Ok (raw <| tier := v |>)
  | 14 => v ← at_ what (text field); Ok (raw <| restore_policy := v |>)
  | 15 => v ← at_ what (uint32 field); Ok (raw <| consumed_sections := v |>)
  | _ => Err Unreachable
  end.

Definition decode_manifest (data : list byte) : result DecodeError RawManifest :=
  decode_message data (Named "it") [1; 2; 3; 4; 5; 6; 7; 8; 9; 10; 11; 12; 13; 14; 15] [] manifest_field
    (mkRawManifest (0, 0) [] 0 0 0 [] 0 None 0 [] [] [] 0).

(** ** The checks *)

(** [Problem], by the forms of its messages, [Format] before [Invalid]; and what [parse] fails with. *)
Inductive Problem : Type :=
| FormatVersion (version : Z) | FormatMagic
| SchemaVersion (version : Z) (root_type : list byte)
| MachineFormat (profile : list byte) (abi layout : Z)
| TimeAbi (version : Z)
| MalformedFormat (error : WireError)
| NotX86 (architecture : list byte) (page_size : Z)
| StateLen (size : Z)
| NotTemplate (tier policy : list byte) (sections : Z)
| CreationTime (seconds nanos : Z)
| NoContract | NoTime | UnknownClock (clock : list byte) | IdentityLen (what : string) (len : Z)
| ExpansionVersion (version : Z) | FilesystemSlot | UnknownBackend (backend : list byte)
| NoCpuProfile | CpuProfileId (id : list byte) | CpuDigestLen | CommandLineDigestLen
| MemoryFile | DeviceOrder (index order : Z) | NotTemplateBlocks
| MacLen | PrefixLength | Ipv6Invalid | PolicyDigestLen
| MachineInvalid (problem : MachineProblem).

(** Whether a problem is of a format that this build does not read. *)
Definition is_format (problem : Problem) : bool :=
  match problem with
  | FormatVersion _ | FormatMagic | SchemaVersion _ _ | MachineFormat _ _ _ | TimeAbi _ => true
  | _ => false
  end.

Inductive ManifestError : Type :=
| TooLong (len : Z)
| Malformed (error : DecodeError)
| Refused (problem : Problem).

(** The loop's [version] and [magic]: [uint64().ok()] and [bytes().ok()]. *)
Definition format_field (field : Field) (state : option Z * option (list byte))
    : result Problem (option Z * option (list byte)) :=
  let ok {A} (r : result WireError A) := match r with Ok a => Some a | Err _ => None end in
  let '(version, magic) := state in
  match number field with
  | 1 => Ok (ok (uint64 field), magic)
  | 10 => Ok (version, ok (bytes field))
  | _ => Ok state
  end.

Definition check_format (data : list byte) : result Problem unit :=
  '(version, magic) ← decode MalformedFormat format_field data [] (seqZ 1 63) (None, None);
  let version := default 0 version in
  if negb (version =? SNAPSHOT_FORMAT_VERSION) then Err (FormatVersion version)
  else if negb (bool_decide (magic = Some FORMAT_MAGIC)) then Err FormatMagic
  else Ok tt.

(** [<[u8; N]>::try_from]. *)
Definition to_array (n : Z) (b : list byte) : option (list byte) := if len b =? n then Some b else None.

Definition check_time (raw : option RawTime) : result Problem TimeContract :=
  raw ← ok_or raw NoTime;
  if negb (rt_abi_version raw =? TIME_ABI_VERSION) then Err (TimeAbi (rt_abi_version raw))
  else
    host_clock ← ok_or (parse_clock (rt_host_clock raw)) (UnknownClock (rt_host_clock raw));
    host_id ← ok_or (to_array HOST_IDENTITY_LEN (rt_host_id raw)) (IdentityLen "host identity" (len (rt_host_id raw)));
    boot_id ← ok_or (to_array HOST_IDENTITY_LEN (rt_boot_id raw)) (IdentityLen "boot identity" (len (rt_boot_id raw)));
    Ok (mkTimeContract (rt_tsc_hz raw) (rt_tolerance_ppm raw) (rt_apic_hz raw) (rt_capture_tsc raw) (rt_capture_utc_ns raw)
          (rt_capture_monotonic_ns raw) host_clock host_id boot_id (rt_lineage raw) (rt_cut_to_anchor_ns raw)).

Definition check_cpu_profile (raw : option RawCpuProfile) : result Problem CpuProfile :=
  raw ← ok_or raw NoCpuProfile;
  '(vendor, generation, revision) ← ok_or (parse_profile_id (rc_id raw)) (CpuProfileId (rc_id raw));
  digest ← ok_or (to_array SHA256_LEN (rc_digest raw)) CpuDigestLen;
  Ok (mkCpuProfile vendor generation revision digest (rc_effective_cpuid raw)).

(** [check_order], from the device at [index]. *)
Fixpoint check_order (index : Z) (raw : list (Device * Z)) : result Problem (list Device) :=
  match raw with
  | [] => Ok []
  | (device, order) :: raw =>
      if order =? index then
        devices ← check_order (index + 1) raw;
        Ok (device :: devices)
      else Err (DeviceOrder index order)
  end.

Definition is_block (block : RawBlock) (r : string) (ro : bool) (kind : string) : bool :=
  bool_decide (role block = bytes_of r) && Bool.eqb (read_only block) ro
  && bool_decide (identity_kind block = bytes_of kind) && bool_decide (block_identity block = [])
  && bool_decide (artifact block = []) && bool_decide (restore_mode block = []).

Definition block_geometry (block : RawBlock) : BlockGeometry :=
  let '(length, logical, physical) := geometry block in mkBlockGeometry length logical physical.

Definition check_blocks (raw : list RawBlock) : result Problem (BlockGeometry * BlockGeometry) :=
  match raw with
  | [distro; scratch] =>
      if negb (is_block distro "distro" true "unbound") || negb (is_block scratch "scratch" false "fresh")
      then Err NotTemplateBlocks
      else Ok (block_geometry distro, block_geometry scratch)
  | _ => Err NotTemplateBlocks
  end.

(** [Ipv4Addr::from] of a [u32]: its octets. *)
Definition ipv4_octets (address : Z) : list byte := rev (to_le_bytes 4 address).

(** [u8::try_from]. *)
Definition to_u8 (z : Z) : option Z := if z <=? U8_MAX then Some z else None.

Definition check_ipv6 (address : list byte) (prefix_length : Z) (gateway : list byte) : result Problem (option Ipv6Identity) :=
  if bool_decide (address = []) && (prefix_length =? 0) && bool_decide (gateway = []) then Ok None
  else match to_array 16 address, to_u8 prefix_length, to_array 16 gateway with
  | Some address, Some prefix_length, Some gateway => Ok (Some (mkIpv6Identity address prefix_length gateway))
  | _, _, _ => Err Ipv6Invalid
  end.

Definition check_network (raw : RawNetwork) : result Problem Nic :=
  match to_array 6 (rn_guest_mac raw), to_array 6 (rn_gateway_mac raw) with
  | Some guest_mac, Some gateway_mac =>
      prefix_length ← ok_or (to_u8 (rn_prefix_length raw)) PrefixLength;
      ipv6 ← check_ipv6 (rn_ipv6 raw) (rn_ipv6_prefix_length raw) (rn_ipv6_gateway raw);
      digest ← ok_or (to_array SHA256_LEN (rn_policy_digest raw)) PolicyDigestLen;
      Ok (mkNic (rn_profile raw) guest_mac gateway_mac (ipv4_octets (rn_ipv4 raw)) prefix_length
            (ipv4_octets (rn_gateway raw)) ipv6
            (mkPolicyIdentity (rn_policy_mode raw) digest (rn_policy_required raw) (rn_policy_encoding_version raw)))
  | _, _ => Err MacLen
  end.

(** The loop over the memory ranges, which must fill the memory file from [offset]. *)
Fixpoint file_ranges (offset : Z) (raw : list (Z * Z * Z)) : result Problem (list MemoryRange) :=
  match raw with
  | [] => Ok []
  | (start, length, file_offset) :: raw =>
      if negb (file_offset =? offset) then Err MemoryFile
      else
        ranges ← file_ranges (Z.min U64_MAX (offset + length)) raw;
        Ok (mkMemoryRange start length :: ranges)
  end.

(** [raw.network.map(check_network).transpose()]. *)
Definition check_nic (raw : option RawNetwork) : result Problem (option Nic) :=
  match raw with
  | None => Ok None
  | Some network => nic ← check_network network; Ok (Some nic)
  end.

Section Manifest.
Context `{Digest}.

Definition check_contract (raw : RawContract) (vp_count memory_size : Z) : result Problem (Machine * TimeContract) :=
  if negb (bool_decide (machine_profile raw = MACHINE_PROFILE)) || negb (abi_version raw =? MICROVM_ABI_VERSION)
     || negb (boot_layout_version raw =? BOOT_LAYOUT_VERSION)
  then Err (MachineFormat (machine_profile raw) (abi_version raw) (boot_layout_version raw))
  else
    time ← check_time (raw_time raw);
    if negb (expansion_version raw =? MEMORY_EXPANSION_VERSION) then Err (ExpansionVersion (expansion_version raw))
    else if negb (filesystem_slot_version raw =? FILESYSTEM_SLOT_VERSION) || filesystem raw then Err FilesystemSlot
    else
      hypervisor ← ok_or (parse_hypervisor (source_hypervisor raw)) (UnknownBackend (source_hypervisor raw));
      cpu ← check_cpu_profile (cpu_profile raw);
      command_line_digest ← ok_or (to_array SHA256_LEN (raw_command_line_digest raw)) CommandLineDigestLen;
      ranges ← file_ranges 0 (memory_ranges raw);
      '(distro, scratch) ← check_blocks (blocks raw);
      nic ← check_nic (network raw);
      devices ← check_order 0 (raw_devices raw);
      let machine :=
        mkMachine hypervisor cpu (raw_topology raw)
          (mkRates (tsc_frequency_hz time) (apic_frequency_hz time) (tsc_tolerance_ppm time))
          vp_count (boot_online_vp_count raw)
          (mkMemory memory_size (memory_capacity raw) (memory_block_size raw) ranges (expansion_ranges raw))
          (raw_command_line raw) command_line_digest distro scratch
          (mkInterrupts (interrupt_mode raw) (raw_status_page_start raw) (raw_status_page_length raw))
          devices (filesystem_slot_version raw) nic in
      match machine_problem machine with
      | Some problem => Err (MachineInvalid problem)
      | None => Ok (machine, time)
      end.

(** The creation time is its seconds and nanoseconds since the epoch; [checked_add] of a nonnegative
    [i64] of seconds and less than a second to the epoch never fails on Linux. *)
Record TemplateManifest := mkTemplateManifest {
  created_at : Z * Z;
  openvmm_version : list byte;
  state_len : Z;
  manifest_time : TimeContract;
  manifest_machine : Machine;
}.

Definition from_raw (raw : RawManifest) : result Problem TemplateManifest :=
  if negb (saved_state_schema_version raw =? DEVICE_STATE_SCHEMA_VERSION)
     || negb (bool_decide (saved_state_root_type raw = SAVED_STATE_ROOT_TYPE))
  then Err (SchemaVersion (saved_state_schema_version raw) (saved_state_root_type raw))
  else if negb (bool_decide (architecture raw = ARCHITECTURE)) || negb (page_size raw =? PAGE_SIZE)
  then Err (NotX86 (architecture raw) (page_size raw))
  else if negb ((1 <=? state_size raw) && (state_size raw <=? MAX_STATE_LEN)) then Err (StateLen (state_size raw))
  else if negb (bool_decide (tier raw = TIER_PLATFORM) && bool_decide (restore_policy raw = RESTORE_POLICY_CLONE)
                && (consumed_sections raw =? CONSUMED_INVARIANTS))
  then Err (NotTemplate (tier raw) (restore_policy raw) (consumed_sections raw))
  else
    let '(seconds, nanos) := raw_created_at raw in
    if negb ((0 <=? seconds) && (0 <=? nanos) && (nanos <? NANOS_PER_SECOND)) then Err (CreationTime seconds nanos)
    else
      contract ← ok_or (contract raw) NoContract;
      '(machine, time) ← check_contract contract (vp_count raw) (memory_size raw);
      Ok (mkTemplateManifest (seconds, nanos) (raw_openvmm_version raw) (state_size raw) time machine).

(** [decode_described], and [TemplateManifest::parse]. *)
Definition decode_described (data : list byte) : result ManifestError RawManifest :=
  if MAX_MANIFEST_LEN <? len data then Err (TooLong (len data))
  else
    _ ← map_err Refused (check_format data);
    map_err Malformed (decode_manifest data).

Definition parse (data : list byte) : result ManifestError TemplateManifest :=
  raw ← decode_described data;
  map_err Refused (from_raw raw).
End Manifest.

(** [read_attachments], of the manifest's bytes. *)
Definition manifest_attachments (data : list byte) : result ManifestError (list Attachment) :=
  raw ← decode_described data;
  Ok (match contract raw with Some contract => attachments contract | None => [] end).
