(* ===== verification/ManifestFacts.v ===== *)
(** * Facts of the manifest (src/nvx-rs/src/host/template/manifest.rs, key.rs)

    What the strict decoding of a manifest establishes: its values are of their types, its machine
    passes its checks, no message reaches the branch that it calls unreachable, and so a key that a
    manifest gives is one that its canonical encoding reads back. *)

From stdpp Require Import sorting.
From S2P Require Import Prelude Export AddressText Machine Canonical TemplateKey Wire Manifest.

(** ** Fields of their types *)

Lemma uint64_typed f v : field_typed f -> uint64 f = Ok v -> is_u64 v.
Proof. intros [_ Hv]. unfold uint64. destruct (value f); try done. by intros [= <-]. Qed.

Lemma uint32_typed f v : field_typed f -> uint32 f = Ok v -> is_u32 v.
Proof.
  intros Hf. unfold uint32. destruct (uint64 f) as [z|] eqn:Hz; [|done]. cbn [mbind result_bind].
  apply uint64_typed in Hz as [Hz _]; [|done]. destruct (Z.leb_spec z U32_MAX); [|done]. intros <-%ok_inj. by split.
Qed.

Lemma text_typed f v : text f = Ok v -> is_utf8 v = true.
Proof.
  unfold text. destruct (bytes f) as [b|]; [|done]. cbn [mbind result_bind]. destruct (is_utf8 b) eqn:Hb; [|done]. by intros <-%ok_inj.
Qed.

Lemma packed_loop_typed rounds f data vs : packed_loop rounds f data = Ok vs -> Forall is_u32 vs.
Proof.
  revert data vs. induction rounds as [|rounds IH]; intros data vs H; cbn [packed_loop] in H.
  { apply ok_inj in H as <-. constructor. }
  destruct data as [|b data]; [apply ok_inj in H as <-; constructor|].
  destruct (read_varint (b :: data)) as [[v rest]|] eqn:Hv; [|done]. cbn [mbind result_bind] in H.
  apply read_varint_ok in Hv as [[Hv _] _]. destruct (Z.leb_spec v U32_MAX); [|done].
  destruct (packed_loop rounds f rest) as [vs'|] eqn:Hp; [|done]. apply ok_inj in H as <-. constructor; [by split|by eapply IH].
Qed.

Lemma packed_typed f vs : packed_uint32 f = Ok vs -> Forall is_u32 vs.
Proof. unfold packed_uint32. destruct (bytes f); [|done]. apply packed_loop_typed. Qed.

Lemma at_ok {A} what (r : result WireError A) v : at_ what r = Ok v -> r = Ok v.
Proof. unfold at_. by rewrite map_err_ok. Qed.

(** ** What decoding keeps *)

Section Keep.
Context {S : Type} (each : Field -> S -> result DecodeError S) (what : What).

(** An invariant of what the closure captures. *)
Lemma decode_keeps (P : S -> Prop) data known repeated state state' :
  (forall f s s', field_typed f -> P s -> each f s = Ok s' -> P s') ->
  P state -> decode_message data what known repeated each state = Ok state' -> P state'.
Proof.
  intros Hstep. unfold decode_message, decode. generalize (message_new data known repeated) as m.
  generalize (Datatypes.S (length data)) as rounds. intros rounds. revert state.
  induction rounds as [|rounds IH]; intros state m HP H; cbn [decode_loop] in H; [by apply ok_inj in H as <-|].
  unfold next_field in H. destruct (Wire.data m) as [|b d]; [by apply ok_inj in H as <-|].
  destruct (read_field (b :: d)) as [[f rest]|] eqn:Hf; [|done]. cbn [mbind result_bind] in H.
  apply read_field_ok in Hf as [Hf _]. destruct (_ || _); [done|]. destruct (_ && _); [done|].
  destruct (each f state) as [s|] eqn:He; [|done]. cbn [mbind result_bind] in H. eapply IH; [|exact H]. by eapply Hstep.
Qed.
End Keep.

Ltac field_cases H :=
  repeat match type of H with
  | context [match number ?f with _ => _ end] => let n := fresh "n" in remember (number f) as n eqn:?; destruct n; try done
  | context [match ?p with xI _ => _ | xO _ => _ | xH => _ end] => destruct p; try done
  end.

(** The results of a field's closure, one by one. *)
Ltac bind_cases H :=
  repeat match type of H with
  | (mbind _ ?r) = Ok _ => let v := fresh "v" in let E := fresh "E" in destruct r as [v|] eqn:E; [|done]; cbn [mbind result_bind] in H
  | (let '(_, _) := ?p in _) = Ok _ => destruct p
  end.

(** The types of the values that they took. *)
Ltac field_types :=
  repeat match goal with
  | E : at_ _ _ = Ok _ |- _ => apply at_ok in E
  | Hf : field_typed ?f, E : uint64 ?f = Ok _ |- _ => apply (uint64_typed f) in E; [|exact Hf]
  | Hf : field_typed ?f, E : uint32 ?f = Ok _ |- _ => apply (uint32_typed f) in E; [|exact Hf]
  | E : text ?f = Ok _ |- _ => apply (text_typed f) in E
  | E : packed_uint32 ?f = Ok _ |- _ => apply (packed_typed f) in E
  end.

Ltac field_step :=
  let f := fresh "f" in let s := fresh "s" in let s' := fresh "s'" in
  let Hf := fresh "Hf" in let HP := fresh "HP" in let He := fresh "He" in
  intros f s s' Hf HP He; field_cases He; bind_cases He; try (apply ok_inj in He as <-); field_types.

Lemma u32_zero : is_u32 0.
Proof. split; by vm_compute. Qed.
Lemma u64_zero : is_u64 0.
Proof. split; by vm_compute. Qed.

Definition topology_data (t : Topology) : Prop :=
  is_u32 (sockets t) /\ is_u32 (dies_per_socket t) /\ is_u32 (cores_per_die t) /\ is_u32 (threads_per_core t)
  /\ Forall is_u32 (apic_ids t).

Lemma decode_topology_typed data t : decode_topology data = Ok t -> topology_data t.
Proof.
  apply decode_keeps; [|by split_and!; try apply u32_zero; constructor].
  field_step; unfold topology_data in *; destruct_and?; cbn; by split_and!.
Qed.

Lemma decode_memory_range_typed data start length offset :
  decode_memory_range data = Ok (start, length, offset) -> is_u64 start /\ is_u64 length.
Proof.
  intros H. apply (decode_keeps _ _ (fun s => is_u64 s.1.1 /\ is_u64 s.1.2)) in H; [done| |split; apply u64_zero].
  intros f [[a b] c] s' Hf [? ?] He. bind_cases He. field_cases He; apply ok_inj in He as <-; field_types; by split.
Qed.

Lemma decode_expansion_range_typed data start length :
  decode_expansion_range data = Ok (start, length) -> range_typed (mkMemoryRange start length).
Proof.
  intros H. apply (decode_keeps _ _ (fun s => is_u64 s.1 /\ is_u64 s.2)) in H; [done| |split; apply u64_zero].
  intros f [a b] s' Hf [? ?] He. bind_cases He. field_cases He; apply ok_inj in He as <-; field_types; by split.
Qed.

Lemma decode_device_range_typed data index r : decode_device_range data index = Ok r -> device_range_typed r.
Proof.
  unfold decode_device_range. intros H. bind_cases H. apply ok_inj in H as <-.
  apply (decode_keeps _ _ (fun s => device_range_typed s.2)) in E; [exact E| |split_and!; [done|apply u64_zero..]].
  intros f [sp r0] s' Hf (? & ? & ?) He. field_cases He; bind_cases He; apply ok_inj in He as <-; field_types; by split_and!.
Qed.

Lemma push_bounded_ok {A} (items : list A) item limit what items' :
  push_bounded items item limit what = Ok items' -> items' = items ++ [item].
Proof. unfold push_bounded. destruct (_ =? _); [done|]. by intros <-%ok_inj. Qed.

Lemma decode_device_typed data index d order : decode_device data index = Ok (d, order) -> device_data d.
Proof.
  intros H. apply (decode_keeps _ _ (fun s => device_data s.1)) in H;
    [done| |unfold device_data; cbn; split_and!; try done; try constructor; apply u32_zero].
  unfold device_field. intros f [d0 o] s' Hf Hd He. cbn [fst] in Hd. unfold device_data in *. destruct_and?.
  field_cases He; bind_cases He; try (apply push_bounded_ok in E1 as ->); apply ok_inj in He as <-;
    try (apply decode_device_range_typed in E0); field_types; cbn; split_and!; try done.
  apply Forall_app. split; [done|]. by constructor.
Qed.

Definition network_data (r : RawNetwork) : Prop :=
  is_utf8 (rn_profile r) = true /\ is_u32 (rn_ipv4 r) /\ is_u32 (rn_prefix_length r) /\ is_u32 (rn_gateway r)
  /\ is_utf8 (rn_policy_mode r) = true /\ is_u32 (rn_policy_encoding_version r) /\ is_u32 (rn_ipv6_prefix_length r).

Lemma decode_network_typed data r : decode_network data = Ok r -> network_data r.
Proof.
  apply decode_keeps; [|unfold network_data; cbn; split_and!; try done; apply u32_zero].
  unfold network_field. field_step; unfold network_data in *; destruct_and?; cbn; by split_and!.
Qed.

Definition block_data (r : RawBlock) : Prop := geometry_typed (block_geometry r).

Lemma decode_block_typed data r : decode_block data = Ok r -> block_data r.
Proof.
  apply decode_keeps; [|unfold block_data, geometry_typed; cbn; split_and!; [apply u64_zero|apply u32_zero..]].
  unfold block_field, block_data, block_geometry. intros f [ro b [[l lo] ph] ik i a rm] s' Hf Hd He.
  unfold geometry_typed in *. cbn in Hd, He. destruct_and?.
  field_cases He; bind_cases He; apply ok_inj in He as <-; field_types; cbn; by split_and!.
Qed.

Definition time_data (r : RawTime) : Prop :=
  is_u64 (rt_tsc_hz r) /\ is_u32 (rt_tolerance_ppm r) /\ is_u64 (rt_apic_hz r) /\ is_u64 (rt_capture_utc_ns r)
  /\ is_u64 (rt_capture_monotonic_ns r) /\ opt_all is_u64 (rt_cut_to_anchor_ns r).

Lemma decode_time_typed data r : decode_time data = Ok r -> time_data r.
Proof.
  apply decode_keeps; [|unfold time_data; cbn; split_and!; (apply u64_zero || apply u32_zero || done)].
  unfold time_field. field_step; unfold time_data in *; destruct_and?; cbn; by split_and!.
Qed.

Definition contract_data (r : RawContract) : Prop :=
  is_utf8 (raw_command_line r) = true
  /\ Forall (fun m => is_u64 m.1.1 /\ is_u64 m.1.2) (memory_ranges r) /\ topology_data (raw_topology r)
  /\ Forall (fun d => device_data d.1) (raw_devices r) /\ opt_all time_data (raw_time r)
  /\ opt_all network_data (network r) /\ Forall block_data (blocks r)
  /\ is_u32 (filesystem_slot_version r) /\ is_u32 (boot_online_vp_count r) /\ is_utf8 (interrupt_mode r) = true
  /\ is_u64 (raw_status_page_start r) /\ is_u64 (raw_status_page_length r) /\ is_u64 (memory_capacity r)
  /\ is_u64 (memory_block_size r) /\ Forall range_typed (expansion_ranges r).

Lemma contract_step f s s' :
  field_typed f -> contract_data s -> contract_field f s = Ok s' -> contract_data s'.
Proof.
  unfold contract_field. intros Hf Hd He. unfold contract_data in Hd. destruct_and?.
  field_cases He; bind_cases He;
    repeat match goal with
    | E : push_bounded _ _ _ _ = Ok _ |- _ => apply push_bounded_ok in E as ->
    | E : decode_memory_range _ = Ok ?p |- _ => destruct p as [[? ?] ?]; apply decode_memory_range_typed in E
    | E : decode_topology _ = Ok _ |- _ => apply decode_topology_typed in E
    | E : decode_device _ _ = Ok ?p |- _ => destruct p as [? ?]; apply decode_device_typed in E
    | E : decode_network _ = Ok _ |- _ => apply decode_network_typed in E
    | E : decode_block _ = Ok _ |- _ => apply decode_block_typed in E
    | E : decode_time _ = Ok _ |- _ => apply decode_time_typed in E
    | E : decode_expansion_range _ = Ok _ |- _ => apply decode_expansion_range_typed in E
    | E : (if _ then _ else _) = Ok _ |- _ => destruct (_ =? _) in E; [done|]
    end;
    apply ok_inj in He as <-; field_types; unfold contract_data; cbn; split_and!; try done;
    (apply Forall_app; split; [done|]; by constructor).
Qed.

Lemma decode_contract_typed data r : decode_contract data = Ok r -> contract_data r.
Proof.
  apply decode_keeps; [apply contract_step|]. unfold contract_data. cbn.
  split_and!; try done; try constructor; try (apply u64_zero || apply u32_zero).
Qed.

Definition manifest_data (r : RawManifest) : Prop :=
  is_u64 (memory_size r) /\ is_u32 (vp_count r) /\ opt_all contract_data (contract r).

Lemma decode_manifest_typed data r : decode_manifest data = Ok r -> manifest_data r.
Proof.
  apply decode_keeps; [|unfold manifest_data; cbn; split_and!; [apply u64_zero|apply u32_zero|done]].
  unfold manifest_field. field_step; unfold manifest_data in *; destruct_and?; cbn; split_and!; try done.
  by eapply decode_contract_typed.
Qed.

(** ** What the checks establish *)

Lemma to_array_ok n b b' : to_array n b = Some b' -> is_bytes n b'.
Proof. unfold to_array. destruct (Z.eqb_spec (len b) n); [|done]. by intros [= <-]. Qed.

Lemma ok_or_to_array {E} n b (e : E) b' : ok_or (to_array n b) e = Ok b' -> is_bytes n b'.
Proof. rewrite ok_or_ok. apply to_array_ok. Qed.

Lemma ok_or_to_u8 {E} z (e : E) z' : 0 <= z -> ok_or (to_u8 z) e = Ok z' -> is_u8 z'.
Proof.
  intros Hz. rewrite ok_or_ok. unfold to_u8. destruct (Z.leb_spec z U8_MAX); [|done]. intros [= <-]. by split.
Qed.

Lemma parse_profile_typed id v g r : parse_profile_id id = Some (v, g, r) -> is_u32 r.
Proof.
  unfold parse_profile_id. destruct (split_on _ id) as [|v0 [|g0 [|r0 words]]]; try done.
  destruct (strip_prefix _ r0) as [ds|]; [|done]. cbn [mbind option_bind]. destruct (_ || _) eqn:Hc; [done|].
  apply orb_false_iff in Hc as [[_ Hd%negb_false_iff]%orb_false_iff _]. apply forallb_digits, decimal_nonneg in Hd.
  unfold parse_u32. destruct (Z.leb_spec (decimal_value ds) U32_MAX); [|done]. cbn [mbind option_bind].
  intros Heq. assert (r = decimal_value ds) as -> by congruence. by split.
Qed.

Lemma check_cpu_profile_typed raw cpu :
  check_cpu_profile raw = Ok cpu -> is_u32 (revision cpu) /\ is_bytes SHA256_LEN (cpu_digest cpu).
Proof.
  unfold check_cpu_profile. destruct raw as [raw|]; [|done]. cbn [ok_or mbind result_bind].
  destruct (parse_profile_id _) as [[[v g] r]|] eqn:Hp; [|done]. cbn [ok_or mbind result_bind].
  destruct (ok_or _ _) as [d|] eqn:Hd; [|done]. cbn [mbind result_bind]. intros <-%ok_inj.
  split; [by eapply parse_profile_typed|by eapply ok_or_to_array].
Qed.

(** The time contract of a manifest, of its types. *)
Definition time_sound (t : TimeContract) : Prop :=
  is_u64 (tsc_frequency_hz t) /\ is_u64 (apic_frequency_hz t) /\ is_u32 (tsc_tolerance_ppm t)
  /\ is_bytes HOST_IDENTITY_LEN (host_id t) /\ is_bytes HOST_IDENTITY_LEN (boot_id t)
  /\ is_u64 (capture_utc_ns t) /\ is_u64 (capture_monotonic_ns t) /\ opt_all is_u64 (cut_to_anchor_ns t).

Lemma check_time_typed raw time : opt_all time_data raw -> check_time raw = Ok time -> time_sound time.
Proof.
  unfold check_time. destruct raw as [raw|]; [|done]. intros (? & ? & ? & ? & ? & ?). cbn [ok_or mbind result_bind].
  destruct (negb _); [done|]. destruct (parse_clock _) as [c|]; [|done]. cbn [ok_or mbind result_bind].
  destruct (ok_or _ (IdentityLen "host identity" _)) as [h|] eqn:Hh; [|done]. cbn [mbind result_bind].
  destruct (ok_or _ (IdentityLen "boot identity" _)) as [b|] eqn:Hb; [|done]. cbn [mbind result_bind]. intros <-%ok_inj.
  split_and!; try done; by eapply ok_or_to_array.
Qed.

Lemma check_order_spec index raw devices :
  check_order index raw = Ok devices ->
  devices = raw.*1 /\ raw.*2 = seqZ index (len raw).
Proof.
  revert index devices. induction raw as [|[d o] raw IH]; intros index devices H; cbn [check_order] in H.
  { by apply ok_inj in H as <-. }
  destruct (Z.eqb_spec o index) as [->|]; [|done]. destruct (check_order _ raw) as [ds|] eqn:Hr; [|done].
  apply ok_inj in H as <-. apply IH in Hr as [-> Hs]. split; [done|]. rewrite len_cons. len_facts.
  rewrite (seqZ_cons index) by lia. rewrite fmap_cons, Hs. f_equal. f_equal; lia.
Qed.

Lemma file_ranges_spec offset raw ranges :
  file_ranges offset raw = Ok ranges -> ranges = (fun r => mkMemoryRange r.1.1 r.1.2) <$> raw.
Proof.
  revert offset ranges. induction raw as [|[[s l] o] raw IH]; intros offset ranges H; cbn [file_ranges] in H.
  { by apply ok_inj in H as <-. }
  destruct (negb _); [done|]. destruct (file_ranges _ raw) as [rs|] eqn:Hr; [|done]. apply ok_inj in H as <-.
  by apply IH in Hr as ->.
Qed.

Lemma check_blocks_typed raw d s :
  Forall block_data raw -> check_blocks raw = Ok (d, s) -> geometry_typed d /\ geometry_typed s.
Proof.
  unfold check_blocks. intros H. destruct raw as [|a [|b [|]]]; try done. apply Forall_cons in H as [Ha [Hb _]%Forall_cons].
  destruct (_ || _); [done|]. intros [= <- <-]. done.
Qed.

Lemma ipv4_octets_len a : is_bytes 4 (ipv4_octets a).
Proof. unfold is_bytes, ipv4_octets, len. rewrite length_rev. apply (len_to_le_bytes 4). Qed.

Lemma check_nic_typed raw nic : opt_all network_data raw -> check_nic raw = Ok nic -> opt_all nic_data nic.
Proof.
  unfold check_nic. destruct raw as [raw|]; [|by intros _ <-%ok_inj]. intros (? & ? & [? _] & ? & ? & ? & [? _]).
  unfold check_network. destruct (to_array 6 (rn_guest_mac raw)) as [gm|] eqn:Hgm; [|done].
  destruct (to_array 6 (rn_gateway_mac raw)) as [wm|] eqn:Hwm; [|done].
  destruct (ok_or (to_u8 _) _) as [p|] eqn:Hp; [|done]. cbn [mbind result_bind].
  destruct (check_ipv6 _ _ _) as [v6|] eqn:Hv; [|done]. cbn [mbind result_bind].
  destruct (ok_or _ PolicyDigestLen) as [d|] eqn:Hd; [|done]. cbn [mbind result_bind]. intros <-%ok_inj.
  unfold nic_data. cbn. apply to_array_ok in Hgm, Hwm. apply ok_or_to_u8 in Hp; [|done]. apply ok_or_to_array in Hd.
  split_and!; try done; try apply ipv4_octets_len.
  unfold check_ipv6 in Hv. destruct (_ && _); [by apply ok_inj in Hv as <-|].
  destruct (to_array 16 (rn_ipv6 raw)) as [a|] eqn:Ha; [|done]. destruct (to_u8 _) as [z|] eqn:Hz; [|done].
  destruct (to_array 16 (rn_ipv6_gateway raw)) as [g|] eqn:Hg; [|done]. apply ok_inj in Hv as <-. cbn. unfold ipv6_typed. cbn.
  apply to_array_ok in Ha, Hg. split_and!; [done| |done]. apply (ok_or_to_u8 (rn_ipv6_prefix_length raw) tt); [done|by rewrite Hz].
Qed.

Section Sound.
Context `{Digest}.

(** A machine that a manifest describes: of its types, valid, and with the dormant slot. *)
Definition machine_sound (m : Machine) : Prop :=
  machine_data m /\ Forall device_data (devices m) /\ opt_all nic_data (nic m)
  /\ machine_problem m = None /\ filesystem_slot m = FILESYSTEM_SLOT_VERSION.

Lemma check_contract_sound raw vps size m time :
  contract_data raw -> is_u32 vps -> is_u64 size -> check_contract raw vps size = Ok (m, time) -> machine_sound m /\ time_sound time.
Proof.
  intros (? & Hmr & (? & ? & ? & ? & ?) & Hds & Htd & Hnd & Hbl & ? & ? & ? & ? & ? & ? & ? & ?) Hvp Hsz.
  unfold check_contract. destruct (_ || _); [done|].
  destruct (check_time _) as [t|] eqn:Ht; [|done]. cbn [mbind result_bind]. apply check_time_typed in Ht as Hts; [|done]. pose proof Hts as (? & ? & ? & _).
  destruct (negb _); [done|]. destruct (Z.eqb_spec (filesystem_slot_version raw) FILESYSTEM_SLOT_VERSION) as [Hslot|]; [|done].
  cbn [negb orb]. destruct (filesystem raw); [done|].
  destruct (ok_or _ (UnknownBackend _)) as [hv|]; [|done]. cbn [mbind result_bind].
  destruct (check_cpu_profile _) as [c|] eqn:Hc; [|done]. cbn [mbind result_bind]. apply check_cpu_profile_typed in Hc as [? ?].
  destruct (ok_or _ CommandLineDigestLen) as [cd|] eqn:Hcd; [|done]. cbn [mbind result_bind]. apply ok_or_to_array in Hcd.
  destruct (file_ranges _ _) as [rs|] eqn:Hrs; [|done]. cbn [mbind result_bind]. apply file_ranges_spec in Hrs.
  destruct (check_blocks _) as [[d s]|] eqn:Hb; [|done]. cbn [mbind result_bind]. apply check_blocks_typed in Hb as [? ?]; [|done].
  destruct (check_nic _) as [n|] eqn:Hn; [|done]. cbn [mbind result_bind]. apply check_nic_typed in Hn; [|done].
  destruct (check_order _ _) as [ds|] eqn:Ho; [|done]. cbn [mbind result_bind]. apply check_order_spec in Ho as [-> _].
  destruct (machine_problem _) eqn:Hp; [done|]. intros Hm. apply ok_inj in Hm. assert (t = time) as <- by exact (f_equal snd Hm).
  assert (m = _) as -> by (symmetry; exact (f_equal fst Hm)). split; [|done].
  unfold machine_sound, machine_data. cbn [cpu topology rates processors boot_processors memory command_line command_line_digest
    distro scratch interrupts devices filesystem_slot nic boot capacity block_size mem_ranges expansion mode status_page_start status_page_length
    fst]. split_and!; try done.
  - subst rs. apply Forall_fmap. eapply Forall_impl; [exact Hmr|]. done.
  - apply Forall_fmap. eapply Forall_impl; [exact Hds|]. done.
Qed.

Lemma parse_contract data m : parse data = Ok m -> machine_sound (manifest_machine m) /\ time_sound (manifest_time m).
Proof.
  unfold parse, decode_described. destruct (MAX_MANIFEST_LEN <? _); [done|].
  destruct (check_format data); [|done]. cbn [map_err mbind result_bind].
  destruct (decode_manifest data) as [raw|] eqn:Hd; [|done]. cbn [map_err mbind result_bind].
  apply decode_manifest_typed in Hd as (Hsz & Hvp & Hc). unfold from_raw.
  destruct (_ || _); [done|]. destruct (_ || _); [done|]. destruct (negb _); [done|]. destruct (negb _); [done|].
  destruct (raw_created_at raw) as [sec nan]. destruct (negb _); [done|].
  destruct (contract raw) as [c|]; [|done]. cbn [ok_or mbind result_bind].
  destruct (check_contract _ _ _) as [[mc t]|] eqn:Hcc; [|done]. cbn [mbind result_bind map_err]. intros <-%ok_inj.
  by eapply check_contract_sound.
Qed.

Lemma parse_sound data m : parse data = Ok m -> machine_sound (manifest_machine m).
Proof. by intros [? _]%parse_contract. Qed.
End Sound.

(** ** No unreachable branch *)

(** The closure meets a field of a number that its message knows. *)
Lemma decode_reached {S} (each : Field -> S -> result DecodeError S) what data known repeated state :
  Forall (fun n => 0 <= n < 64) (known ++ repeated) ->
  (forall f s, number f ∈ known ++ repeated -> each f s <> Err Unreachable) ->
  decode_message data what known repeated each state <> Err Unreachable.
Proof.
  intros Hsmall Heach. unfold decode_message, decode.
  pose proof (message_new_at known repeated Hsmall data) as Hm. revert Hm.
  generalize (message_new data known repeated) as m. generalize (@nil Z) as past.
  generalize (Datatypes.S (length data)) as rounds. intros rounds. revert state.
  induction rounds as [|rounds IH]; intros state past m Hm; cbn [decode_loop]; [done|].
  destruct (decide (Wire.data m = [])) as [Hd|Hd]; [unfold next_field; by rewrite Hd|].
  rewrite (next_field_at known repeated Hsmall m past Hm Hd). destruct (read_field (Wire.data m)) as [[f rest]|]; [|done].
  destruct (bool_decide_reflect (number f ∈ known ++ repeated)) as [Hk|]; [|done]. cbn [negb].
  destruct (_ && _); [done|]. destruct (each f state) as [s|e] eqn:He; cbn [mbind result_bind].
  - eapply IH. by apply (message_at_step each known repeated Hsmall).
  - intros [= ->]. by apply (Heach f state Hk).
Qed.

Lemma at_reached {A} what (r : result WireError A) : at_ what r <> Err Unreachable.
Proof. unfold at_. by destruct r. Qed.

Lemma push_reached {A} (items : list A) item limit what : push_bounded items item limit what <> Err Unreachable.
Proof. unfold push_bounded. by destruct (_ =? _). Qed.

Lemma bind_reached {A B} (r : result DecodeError A) (k : A -> result DecodeError B) :
  r <> Err Unreachable -> (forall a, k a <> Err Unreachable) -> (r ≫= k) <> Err Unreachable.
Proof. intros Hr Hk. destruct r as [a|e]; cbn [mbind result_bind]; [apply Hk|congruence]. Qed.

(** One field of a known number, whose branch is not the last. *)
Ltac reached_field Hn :=
  repeat (apply elem_of_cons in Hn as [Hn|Hn]; [rewrite Hn|]); try (by apply not_elem_of_nil in Hn);
  repeat (apply bind_reached; [first [apply at_reached|apply push_reached|assumption|by auto with reached]|intros ?]); try done;
  repeat case_match; done.

Create HintDb reached.

Ltac reached :=
  apply decode_reached; [apply (bool_decide_unpack _); vm_compute; exact I|];
  let f := fresh "f" in let s := fresh "s" in let Hn := fresh "Hn" in intros f s Hn; cbn [app] in Hn.

Lemma decode_timestamp_reached data : decode_timestamp data <> Err Unreachable.
Proof. reached. reached_field Hn. Qed.

Lemma decode_topology_reached data : decode_topology data <> Err Unreachable.
Proof. reached. reached_field Hn. Qed.

Lemma decode_network_reached data : decode_network data <> Err Unreachable.
Proof. reached. unfold network_field. reached_field Hn. Qed.

Lemma decode_time_reached data : decode_time data <> Err Unreachable.
Proof. reached. unfold time_field. reached_field Hn. Qed.

Lemma decode_cpu_profile_reached data : decode_cpu_profile data <> Err Unreachable.
Proof. reached. unfold cpu_profile_field. reached_field Hn. Qed.

Lemma decode_attachment_reached data index : decode_attachment data index <> Err Unreachable.
Proof. reached. reached_field Hn. Qed.

Lemma decode_block_reached data : decode_block data <> Err Unreachable.
Proof. reached. unfold block_field. destruct (geometry s) as [[? ?] ?]. reached_field Hn. Qed.

Lemma decode_memory_range_reached data : decode_memory_range data <> Err Unreachable.
Proof. reached. destruct s as [[? ?] ?]. apply bind_reached; [apply at_reached|intros v]. reached_field Hn. Qed.

Lemma decode_expansion_range_reached data : decode_expansion_range data <> Err Unreachable.
Proof. reached. destruct s as [? ?]. apply bind_reached; [apply at_reached|intros v]. reached_field Hn. Qed.

Lemma decode_device_range_reached data index : decode_device_range data index <> Err Unreachable.
Proof.
  unfold decode_device_range. apply bind_reached.
  - reached. destruct s as [? ?]. reached_field Hn.
  - intros [sp r]. apply bind_reached; [by destruct (parse_space sp)|done].
Qed.

#[export] Hint Resolve decode_timestamp_reached decode_topology_reached decode_network_reached decode_time_reached
  decode_cpu_profile_reached decode_attachment_reached decode_block_reached decode_memory_range_reached
  decode_expansion_range_reached decode_device_range_reached : reached.

Lemma decode_device_reached data index : decode_device data index <> Err Unreachable.
Proof. reached. unfold device_field. destruct s as [? ?]. reached_field Hn. Qed.

#[export] Hint Resolve decode_device_reached : reached.

Lemma decode_contract_reached data : decode_contract data <> Err Unreachable.
Proof.
  reached. unfold contract_field. cbn [CONTRACT_KNOWN CONTRACT_REPEATED app] in Hn.
  repeat (apply elem_of_cons in Hn as [Hn|Hn]; [rewrite Hn|]); try (by apply not_elem_of_nil in Hn);
    repeat (apply bind_reached; [first [apply at_reached|apply push_reached|by auto with reached]|intros ?]); try done.
  - by destruct (_ =? _).
  - destruct a0 as [st le]. apply bind_reached; [apply push_reached|done].
Qed.

#[export] Hint Resolve decode_contract_reached : reached.

Lemma decode_manifest_reached data : decode_manifest data <> Err Unreachable.
Proof. reached. unfold manifest_field. reached_field Hn. Qed.

Lemma parse_reached `{Digest} data : parse data <> Err (Malformed Unreachable).
Proof.
  unfold parse, decode_described. destruct (MAX_MANIFEST_LEN <? _); [done|]. destruct (check_format data); [|done].
  cbn [map_err mbind result_bind]. pose proof (decode_manifest_reached data) as Hd. destruct (decode_manifest data) as [raw|e].
  - cbn [map_err mbind result_bind]. by destruct (from_raw raw).
  - cbn [map_err mbind result_bind]. intros [= ->]. done.
Qed.

(** ** Sample manifest *)

Definition vint (n v : Z) : Field := mkField n (Varint v).
Definition raw_bytes (n : Z) (b : list byte) : Field := mkField n (Bytes b).
Definition str (n : Z) (s : string) : Field := raw_bytes n (bytes_of s).
Definition sub_message (n : Z) (fields : list Field) : Field := raw_bytes n (concat (map write_field fields)).

Definition sample_contract_fields : list Field :=
  [str 1 "microvm"; vint 2 1; str 3 "kvm"; str 4 "console=hvc0"; raw_bytes 5 (first_32 (bytes_of "console=hvc0"));
   sub_message 6 [vint 2 134217728]; sub_message 7 [vint 1 1; vint 2 1; vint 3 2; vint 4 1; raw_bytes 5 (varint 0 ++ varint 1)];
   sub_message 8 [str 1 "console:0"; str 2 "con0"; str 3 "virtio-console"; vint 6 24; sub_message 5 [str 1 "mmio"; vint 2 3489665024; vint 3 4096]];
   str 9 "con0"; sub_message 10 [str 1 "console:0"; str 4 "require-inherited-attachment"];
   sub_message 11 [vint 1 1; vint 2 2450000000; vint 3 250; vint 4 1000000000; str 8 "linux-boottime";
                   raw_bytes 9 (replicate 16 (byte_of 1)); raw_bytes 10 (replicate 16 (byte_of 2)); vint 12 7];
   sub_message 12 [str 1 "amd.genoa.v1"; raw_bytes 2 (replicate 32 (byte_of 7)); raw_bytes 4 (replicate 44 (byte_of 0))];
   vint 13 1;
   sub_message 14 [vint 1 167772162; vint 2 24; vint 3 167772161; raw_bytes 4 (replicate 6 (byte_of 2)); raw_bytes 5 (replicate 6 (byte_of 3));
                   str 6 "deny"; raw_bytes 7 (replicate 32 (byte_of 9)); vint 8 1; str 9 "portable"; vint 10 1];
   sub_message 16 [str 1 "distro"; vint 2 1; vint 3 1048576; str 4 "unbound"; vint 7 512; vint 8 4096];
   sub_message 16 [str 1 "scratch"; vint 3 65536; str 4 "fresh"; vint 7 512; vint 8 512];
   vint 17 1; vint 18 1; str 19 "edge-shared-status"; vint 20 3489660928; vint 21 4096; vint 22 1; vint 23 268435456;
   vint 24 134217728; sub_message 25 [vint 1 4294967296; vint 2 134217728]].

Definition sample_manifest : list byte :=
  concat (map write_field
    [vint 1 2; sub_message 2 [vint 1 1700000000; vint 2 5]; str 3 "openvmm 1"; vint 4 134217728; vint 5 2; vint 6 4096;
     str 7 "x86_64"; vint 8 65536; sub_message 9 sample_contract_fields; raw_bytes 10 FORMAT_MAGIC; vint 11 1;
     str 12 "openvmm.SavedState"; str 13 "platform"; str 14 "clone"; vint 15 1]).

Example sample_manifest_parses : is_ok (@parse first_bytes sample_manifest) = true.
Proof. vm_compute. reflexivity. Qed.
