(* ===== verification/NetworkArguments.v ===== *)
(** * Network postures and OpenVMM's options (src/nvx-rs/src/host/network/mod.rs, arguments.rs,
    loopback.rs, proxy.rs, src/nvx-rs/src/net/mod.rs, host/sandbox/plan.rs)

    The posture of a VM's network, its checks, the options that enforce it, the options of a
    template's NIC, and the DNS server that a guest learns. Texts are their bytes; the names in
    messages are not modelled. *)

From stdpp Require Import sorting gmap.
From S2P Require Import Prelude Export Cmdline Addresses Lowering LoweringFacts LoweringSweep AddressText EgressRules.
#[local] Open Scope Z_scope.

(** ** Guest networks *)

(** One octet of [Ipv4Addr]'s [FromStr]: 1 to 3 decimal digits, without a leading zero, of at most
    255. *)
Definition std_octet (text : list byte) : option Z :=
  if (1 <=? len text) && (len text <=? 3) && forallb is_ascii_digit text
     && negb ((2 <=? len text) && match text with b :: _ => byte_val b =? 48 | [] => false end)
     && (decimal_value text <=? 255)
  then Some (decimal_value text) else None.

(** [str::parse::<Ipv4Addr>], as [u32::from] of the address. *)
Definition std_parse_ipv4 (text : list byte) : option Z :=
  match split_on (is_byte DOT) text with
  | [a; b; c; d] =>
      a ← std_octet a;
      b ← std_octet b;
      c ← std_octet c;
      d ← std_octet d;
      Some (((a * 256 + b) * 256 + c) * 256 + d)
  | _ => None
  end.

(** [cidr::parse_prefix_length]. *)
Definition parse_prefix_length (text : list byte) : option Z :=
  if negb (bool_decide (text = [])) && forallb is_ascii_digit text
     && ((len text =? 1) || negb (match text with b :: _ => byte_val b =? 48 | [] => false end))
  then if decimal_value text <=? U8_MAX then Some (decimal_value text) else None
  else None.

(** [str::split_once]. *)
Definition split_once (c : byte) (text : list byte) : option (list byte * list byte) :=
  i ← position (is_byte c) text;
  Some (ztake i text, zdrop (i + 1) text).

(** [u32::MAX << (32 - prefix)], of a prefix from 1 through 32. *)
Definition prefix_mask (prefix : Z) : Z := Z.shiftl U32_MAX (32 - prefix) mod 2 ^ 32.

Definition guest_address (value : list byte) : option (Z * Z) :=
  '(address, prefix_text) ← split_once SLASH value;
  host ← std_parse_ipv4 address;
  prefix ← parse_prefix_length prefix_text;
  if (1 <=? prefix) && (prefix <=? 30) then
    let mask := prefix_mask prefix in
    let network := Z.land host mask in
    if existsb (Z.eqb host) [network; Z.lor network (Z.lxor U32_MAX mask); network + 1] then None
    else Some (host, mask)
  else None.

Definition is_valid_guest_network (value : list byte) : bool := bool_decide (is_Some (guest_address value)).

Definition guest_gateway (value : list byte) : option Z :=
  '(address, mask) ← guest_address value;
  Some (Z.land address mask + 1).

Definition guest_subnet (guest_network : list byte) : option Interval :=
  '(address, prefix) ← split_once SLASH guest_network;
  address ← std_parse_ipv4 address;
  prefix ← parse_prefix_length prefix;
  if (1 <=? prefix) && (prefix <=? 32) then
    let mask := prefix_mask prefix in
    let network := Z.land address mask in
    Some (network, Z.lor network (Z.lxor U32_MAX mask))
  else None.

(** ** Postures *)

Definition MAX_LOOPBACK_FORWARDS : Z := 64.
Definition MAX_HOST_LOOPBACK_PREFIX : Z := 29.
Definition DNS_PORT : Z := 53.

Inductive Access : Type := Allow | Deny.
Inductive HostLoopback : Type := LoopbackDeny | LoopbackOutbound | LoopbackAllow.
Inductive ForwardProtocol : Type := ForwardTcp | ForwardUdp.

#[export] Instance Access_eq_dec : EqDecision Access.
Proof. solve_decision. Defined.
#[export] Instance HostLoopback_eq_dec : EqDecision HostLoopback.
Proof. solve_decision. Defined.
#[export] Instance ForwardProtocol_eq_dec : EqDecision ForwardProtocol.
Proof. solve_decision. Defined.

Definition access_as_str (self : Access) : list byte := match self with Allow => bytes_of "allow" | Deny => bytes_of "deny" end.
Definition loopback_as_str (self : HostLoopback) : list byte :=
  match self with LoopbackDeny => bytes_of "deny" | LoopbackOutbound => bytes_of "outbound" | LoopbackAllow => bytes_of "allow" end.
Definition forward_as_str (self : ForwardProtocol) : list byte := match self with ForwardTcp => bytes_of "tcp" | ForwardUdp => bytes_of "udp" end.

Record LoopbackForward := mkLoopbackForward { f_protocol : ForwardProtocol; host_port : Z; guest_port : Z }.

Inductive ProxyScheme : Type := Http | Https.
Record NetworkProxy := mkNetworkProxy { proxy_port : Z; scheme : option ProxyScheme }.

Record NetworkPolicy := mkNetworkPolicy {
  egress : Access;
  allow : list EgressRule;
  deny : list EgressRule;
  ingress : Access;
  host_loopback : HostLoopback;
  host_loopback_forwards : list LoopbackForward;
  proxy : option NetworkProxy;
}.

Definition new_policy (egress : Access) : NetworkPolicy := mkNetworkPolicy egress [] [] Deny LoopbackDeny [] None.

Definition proxy_only (proxy : NetworkProxy) : NetworkPolicy := mkNetworkPolicy Deny [] [] Deny LoopbackDeny [] (Some proxy).

Definition publishes_listeners (self : NetworkPolicy) : bool :=
  bool_decide (ingress self = Allow) || bool_decide (host_loopback self = LoopbackAllow).

(** The refusals, by the forms of their messages. *)
Inductive PolicyError : Type :=
| RulesRefused (error : LoweringError)
| ForwardsNeedAccess | PrefixTooLong
| TooManyForwards | ForwardPort | HostPortTwice (protocol : ForwardProtocol) (port : Z) | GuestPortTwice (protocol : ForwardProtocol) (port : Z)
| UdpNeedsEgress | GuestNetworkInvalid | DenyCoversGuest (index : Z)
| ProxyPort | ProxyDnsPort | ProxyEgress | ProxyAllowRules | ProxyDenyRules | ProxyIngress | ProxyLoopback | ProxyForwards.

(** ** Forwards *)

(** The loop over the forwards, with the sets [bindings] and [targets]. *)
Fixpoint check_forwards (bindings targets : list (ForwardProtocol * Z)) (forwards : list LoopbackForward) : result PolicyError unit :=
  match forwards with
  | [] => Ok tt
  | forward :: forwards =>
      if (host_port forward =? 0) || (guest_port forward =? 0) then Err ForwardPort
      else if bool_decide ((f_protocol forward, host_port forward) ∈ bindings) then Err (HostPortTwice (f_protocol forward) (host_port forward))
      else if bool_decide ((f_protocol forward, guest_port forward) ∈ targets) then Err (GuestPortTwice (f_protocol forward) (guest_port forward))
      else check_forwards ((f_protocol forward, host_port forward) :: bindings) ((f_protocol forward, guest_port forward) :: targets) forwards
  end.

(** Whether a rule selects an address of the guest's network. *)
Definition covers (first last : Z) (rule : Rule) : bool :=
  bool_decide (r_family rule = V4) && existsb (fun '(start, end_) => (start <=? last) && (first <=? end_)) (r_addresses rule).

Fixpoint check_deny (first last index : Z) (deny : list (list Rule)) : result PolicyError unit :=
  match deny with
  | [] => Ok tt
  | rules :: deny => if existsb (covers first last) rules then Err (DenyCoversGuest index) else check_deny first last (index + 1) deny
  end.

Definition check_loopback_forwards (policy : NetworkPolicy) (deny : list (list Rule)) (guest_network : list byte) : result PolicyError unit :=
  let forwards := host_loopback_forwards policy in
  if bool_decide (forwards = []) then Ok tt
  else if MAX_LOOPBACK_FORWARDS <? len forwards then Err TooManyForwards
  else
    _ ← check_forwards [] [] forwards;
    if forallb (fun forward => negb (bool_decide (f_protocol forward = ForwardUdp))) forwards then Ok tt
    else if negb (bool_decide (egress policy = Allow)) then Err UdpNeedsEgress
    else match guest_subnet guest_network with
    | None => Err GuestNetworkInvalid
    | Some (first, last) => check_deny first last 0 deny
    end.

(** ** Options *)

Definition base_arguments (guest_network egress ingress : list byte) : list (list byte) :=
  [bytes_of "--net"; guest_network; bytes_of "--network-profile"; bytes_of "portable";
   bytes_of "--network-egress"; egress; bytes_of "--network-ingress"; ingress].

Definition template_arguments (guest_network : list byte) : list (list byte) :=
  base_arguments guest_network (bytes_of "deny") (bytes_of "deny") ++ [bytes_of "--host-loopback"; bytes_of "deny"].

Definition check_proxy_only (policy : NetworkPolicy) (proxy : NetworkProxy) : result PolicyError unit :=
  if proxy_port proxy =? 0 then Err ProxyPort
  else if proxy_port proxy =? DNS_PORT then Err ProxyDnsPort
  else if negb (bool_decide (egress policy = Deny)) then Err ProxyEgress
  else if negb (is_empty (allow policy)) then Err ProxyAllowRules
  else if negb (is_empty (deny policy)) then Err ProxyDenyRules
  else if negb (bool_decide (ingress policy = Deny)) then Err ProxyIngress
  else if negb (bool_decide (host_loopback policy = LoopbackDeny)) then Err ProxyLoopback
  else if negb (is_empty (host_loopback_forwards policy)) then Err ProxyForwards
  else Ok tt.

Definition proxy_arguments (policy : NetworkPolicy) (proxy : NetworkProxy) (guest_network : list byte) : result PolicyError (list (list byte)) :=
  _ ← check_proxy_only policy proxy;
  gateway ← ok_or (guest_gateway guest_network) GuestNetworkInvalid;
  Ok (template_arguments guest_network
      ++ [bytes_of "--network-proxy"; display_ipv4 gateway ++ bytes_of ":" ++ dec (proxy_port proxy)]).

(** Each rule of an action after its option. *)
Definition rule_arguments (option_ : string) (rules : list NativeRule) : list (list byte) :=
  concat ((fun rule => [bytes_of option_; render rule]) <$> rules).

Definition forward_arguments (forwards : list LoopbackForward) : list (list byte) :=
  concat ((fun f => [bytes_of "--host-loopback-forward";
                     forward_as_str (f_protocol f) ++ bytes_of ":" ++ dec (host_port f) ++ bytes_of ":" ++ dec (guest_port f)]) <$> forwards).

(** The parsed rules of an action, and its native rules. *)
Definition lower_action (rules : list EgressRule) : result PolicyError (list (list Rule) * list NativeRule) :=
  parsed ← map_err RulesRefused (parse_rules rules);
  lowered ← map_err RulesRefused (lower (concat parsed));
  Ok (parsed, lowered).

(** Whether the guest network is too small for host-loopback access. *)
Definition prefix_too_long (guest_network : list byte) : bool :=
  match split_once SLASH guest_network with
  | Some (_, prefix) => match parse_prefix_length prefix with Some p => MAX_HOST_LOOPBACK_PREFIX <? p | None => false end
  | None => false
  end.

Definition openvmm_arguments (policy : option NetworkPolicy) (guest_network : list byte) : result PolicyError (list (list byte)) :=
  match policy with
  | None => Ok []
  | Some policy =>
    match proxy policy with
    | Some proxy => proxy_arguments policy proxy guest_network
    | None =>
      if negb (is_empty (host_loopback_forwards policy)) && negb (bool_decide (host_loopback policy = LoopbackAllow))
      then Err ForwardsNeedAccess
      else if bool_decide (host_loopback policy = LoopbackAllow) && prefix_too_long guest_network then Err PrefixTooLong
      else if bool_decide (egress policy = Deny) && is_empty (allow policy) && bool_decide (ingress policy = Deny)
              && bool_decide (host_loopback policy = LoopbackDeny)
      then Ok []
      else
        '(_, allowed) ← lower_action (allow policy);
        '(deny_rules, denied) ← lower_action (deny policy);
        _ ← check_loopback_forwards policy deny_rules guest_network;
        Ok (base_arguments guest_network (access_as_str (egress policy)) (access_as_str (ingress policy))
            ++ (if bool_decide (host_loopback policy = LoopbackOutbound) then []
                else [bytes_of "--host-loopback"; loopback_as_str (host_loopback policy)])
            ++ rule_arguments "--network-egress-allow" allowed
            ++ rule_arguments "--network-egress-deny" denied
            ++ forward_arguments (host_loopback_forwards policy))
    end
  end.

(** ** The DNS server *)

(** [selects], of traffic to a port of an address. *)
Definition rule_selects (rule : Rule) (family : Family) (address : Z) (protocol : NativeProtocol) (port : Z) : bool :=
  bool_decide (r_family rule = family)
  && existsb (fun '(first, last) => (first <=? address) && (address <=? last)) (r_addresses rule)
  && match r_protocol rule with
     | None => true
     | Some selected =>
         bool_decide (selected = protocol)
         && match r_ports rule with None => true | Some (first, last) => (first <=? port) && (port <=? last) end
     end.

(** The closure [reaches]. *)
Definition reaches (policy : NetworkPolicy) (allow deny : list Rule) (server : Family * Z) : bool :=
  existsb (fun protocol =>
    let selected rule := rule_selects rule (server.1) (server.2) protocol DNS_PORT in
    negb (existsb selected deny) && (existsb selected allow || bool_decide (egress policy = Allow))) [Tcp; Udp].

Definition dns_server (policy : NetworkPolicy) (gateway : Z) (ipv6_gateway : option Z) : result PolicyError (option (Family * Z)) :=
  if bool_decide (is_Some (proxy policy)) then Ok None
  else
    allow ← map_err RulesRefused (parse_rules (allow policy));
    deny ← map_err RulesRefused (parse_rules (deny policy));
    Ok (find (reaches policy (concat allow) (concat deny))
          ((V4, gateway) :: match ipv6_gateway with Some v6 => [(V6, v6)] | None => [] end)).

(** ** The network of a sandbox *)

Record SandboxNetwork := mkSandboxNetwork { sn_guest_network : list byte; sn_gateway : Z; sn_policy : NetworkPolicy }.

Definition new_network (guest_network : list byte) (policy : NetworkPolicy) : result PolicyError SandboxNetwork :=
  gateway ← ok_or (guest_gateway guest_network) GuestNetworkInvalid;
  _ ← openvmm_arguments (Some policy) guest_network;
  Ok (mkSandboxNetwork guest_network gateway policy).

Definition sandbox_arguments (self : SandboxNetwork) : result PolicyError (list (list byte)) :=
  openvmm_arguments (Some (sn_policy self)) (sn_guest_network self).

Definition sandbox_template_arguments (self : SandboxNetwork) : result PolicyError (list (list byte)) :=
  arguments ← sandbox_arguments self;
  Ok (if is_empty arguments then [] else template_arguments (sn_guest_network self)).

(** ** What a posture permits *)

(** A connection that a deny rule matches is blocked; otherwise one that an allow rule matches is
    permitted, and any other follows the egress default. *)
Definition permits (policy : NetworkPolicy) (t : Traffic) : Prop :=
  ~ (exists rule, rule ∈ deny policy /\ egress_selects rule t)
  /\ ((exists rule, rule ∈ allow policy /\ egress_selects rule t) \/ egress policy = Allow).

(** The same, of the native rules that OpenVMM takes. *)
Definition native_permits (egress : Access) (allowed denied : list NativeRule) (t : Traffic) : Prop :=
  ~ native_selected denied t /\ (native_selected allowed t \/ egress = Allow).

Lemma lower_action_spec rules parsed natives :
  lower_action rules = Ok (parsed, natives) ->
  parse_rules rules = Ok parsed /\ len natives <= MAX_RULES_PER_ACTION
  /\ forall t, in_family t -> native_selected natives t <-> exists rule, rule ∈ rules /\ egress_selects rule t.
Proof.
  unfold lower_action, lower. destruct (parse_rules_spec rules) as [_ P]. destruct (parse_rules rules) as [ps|]; [|done].
  cbn [map_err mbind result_bind]. destruct (P ps eq_refl) as [Hr Hsel]. rewrite lower_within_spec by done.
  destruct (Z.leb_spec (len (lower_all (concat ps))) MAX_RULES_PER_ACTION) as [Hl|Hl]; [|done].
  cbn [map_err mbind result_bind]. intros Heq. apply ok_inj in Heq.
  assert (ps = parsed) as -> by congruence. assert (natives = merge_sort (key_le native_key) (lower_all (concat parsed))) as -> by congruence.
  pose proof (merge_sort_Permutation (key_le native_key) (lower_all (concat parsed))) as Hp. split; [done|].
  split; [unfold len; by rewrite (Permutation_length Hp)|]. intros t Ht. rewrite <- Hsel by done.
  rewrite (native_selected_perm _ _ t Hp). by apply lower_all_spec.
Qed.

Lemma deny_all_permits_none policy t : egress policy = Deny -> allow policy = [] -> ~ permits policy t.
Proof. intros He Ha [_ [(rule & Hr & _)|H]]; [rewrite Ha in Hr; by apply not_elem_of_nil in Hr|congruence]. Qed.

Lemma is_empty_true {A} (l : list A) : is_empty l = true <-> l = [].
Proof. by destruct l. Qed.

(** ** Forwards *)

Definition binding (f : LoopbackForward) : ForwardProtocol * Z := (f_protocol f, host_port f).
Definition endpoint (f : LoopbackForward) : ForwardProtocol * Z := (f_protocol f, guest_port f).

Definition forwards_apart (forwards : list LoopbackForward) : Prop :=
  Forall (fun f => host_port f <> 0 /\ guest_port f <> 0) forwards /\ NoDup (binding <$> forwards) /\ NoDup (endpoint <$> forwards).

Lemma check_forwards_exact bindings targets forwards :
  check_forwards bindings targets forwards = Ok tt <->
  forwards_apart forwards /\ Forall (fun f => (binding f ∉ bindings) /\ (endpoint f ∉ targets)) forwards.
Proof.
  unfold forwards_apart. revert bindings targets. induction forwards as [|f forwards IH]; intros bindings targets; cbn [check_forwards].
  { split; [intros _; split_and!; constructor|done]. }
  rewrite !fmap_cons, !Forall_cons, !NoDup_cons. fold (binding f) (endpoint f).
  destruct (Z.eqb_spec (host_port f) 0); cbn [orb]; [split; [done|tauto]|]. destruct (Z.eqb_spec (guest_port f) 0); [split; [done|tauto]|].
  destruct (bool_decide_reflect (binding f ∈ bindings)); [split; [done|tauto]|].
  destruct (bool_decide_reflect (endpoint f ∈ targets)); [split; [done|tauto]|]. rewrite IH.
  assert (Hb : Forall (fun g => (binding g ∉ (binding f :: bindings)) /\ (endpoint g ∉ (endpoint f :: targets))) forwards <->
    Forall (fun g => (binding g ∉ bindings) /\ (endpoint g ∉ targets)) forwards /\ (binding f ∉ (binding <$> forwards)) /\ (endpoint f ∉ (endpoint <$> forwards))).
  { rewrite !Forall_forall, !list_elem_of_fmap. setoid_rewrite not_elem_of_cons. split.
    - intros H. split; [intros g Hg; destruct (H g Hg); tauto|]. split; intros (g & Hgf & Hg); destruct (H g Hg) as [[? ?] [? ?]]; congruence.
    - intros (H & H1 & H2) g Hg. destruct (H g Hg). split; (split; [|done]); intros Heq; [apply H1|apply H2]; by exists g. }
  rewrite Hb. tauto.
Qed.

Lemma check_deny_ok first last index deny rule :
  check_deny first last index deny = Ok tt -> rule ∈ concat deny -> covers first last rule = false.
Proof.
  revert index. induction deny as [|rules deny IH]; intros index H Hr; cbn [check_deny concat] in *; [by apply not_elem_of_nil in Hr|].
  destruct (existsb (covers first last) rules) eqn:He; [done|]. apply elem_of_app in Hr as [Hr|Hr]; [|by eapply IH].
  destruct (covers first last rule) eqn:Hc; [|done]. rewrite <- He. symmetry. apply existsb_exists. exists rule.
  split; [by apply list_elem_of_In|done].
Qed.

Lemma covers_false first last rule t :
  covers first last rule = false -> t_family t = V4 -> first <= t_address t <= last -> ~ selects rule t.
Proof.
  unfold covers. intros Hc Hf Ha (Hfam & ([s e] & Hin & Hi) & _). rewrite bool_decide_true in Hc by congruence. cbn [andb] in Hc.
  assert (Ht : existsb (fun '(start, end_) => (start <=? last) && (first <=? end_)) (r_addresses rule) = true); [|congruence].
  apply existsb_exists. exists (s, e). split; [by apply list_elem_of_In|]. destruct Hi as [H1 H2]. cbn in H1, H2.
  apply andb_true_iff. split; apply Z.leb_le; lia.
Qed.

Definition has_udp (forwards : list LoopbackForward) : Prop := Exists (fun f => f_protocol f = ForwardUdp) forwards.

(** The forwards that a posture admits: few, apart, and, with a UDP forward, replies that the posture
    lets through, to every address of the guest's network. *)
Definition forwards_admitted (policy : NetworkPolicy) (guest_network : list byte) : Prop :=
  let forwards := host_loopback_forwards policy in
  len forwards <= MAX_LOOPBACK_FORWARDS /\ forwards_apart forwards
  /\ (has_udp forwards -> exists first last, guest_subnet guest_network = Some (first, last)
        /\ forall t, in_family t -> t_family t = V4 -> first <= t_address t <= last -> permits policy t).

Lemma not_udp forwards :
  forallb (fun forward => negb (bool_decide (f_protocol forward = ForwardUdp))) forwards = true -> ~ has_udp forwards.
Proof.
  rewrite forallb_forall. unfold has_udp. rewrite Exists_exists. intros H (f & Hf & Hu). apply list_elem_of_In in Hf.
  specialize (H f Hf). by rewrite bool_decide_true in H.
Qed.

Lemma check_loopback_forwards_ok policy parsed guest_network :
  parse_rules (deny policy) = Ok parsed -> check_loopback_forwards policy parsed guest_network = Ok tt ->
  forwards_admitted policy guest_network.
Proof.
  intros Hp. unfold check_loopback_forwards, forwards_admitted.
  destruct (bool_decide_reflect (host_loopback_forwards policy = [])) as [->|Hne].
  { intros _. split; [by vm_compute|]. split; [split_and!; constructor|]. intros H. by apply Exists_nil in H. }
  destruct (Z.ltb_spec MAX_LOOPBACK_FORWARDS (len (host_loopback_forwards policy))); [done|].
  destruct (check_forwards _ _ _) as [[]|] eqn:Hc; [|done]. cbn [mbind result_bind]. apply check_forwards_exact in Hc as [Hap _].
  destruct (forallb _ _) eqn:Hu; [intros _; split_and!; [lia|done|intros H'; by apply not_udp in Hu]|].
  destruct (bool_decide_reflect (egress policy = Allow)) as [He|]; [|done]. cbn [negb].
  destruct (guest_subnet guest_network) as [[first last]|]; [|done]. intros Hd. split_and!; [lia|done|]. intros _.
  exists first, last. split; [done|]. intros t Ht Hf Ha. split; [|by right].
  destruct (parse_rules_spec (deny policy)) as [_ P]. destruct (P parsed Hp) as [_ Hsel]. rewrite <- (Hsel t Ht).
  intros (rule & Hr & Hs). by apply (covers_false first last rule t (check_deny_ok _ _ _ _ _ Hd Hr)).
Qed.

(** C16: The options enforce the posture. With a proxy, they deny everything but the proxy, at the
    guest's gateway and a port that OpenVMM's DNS does not take, and the posture permits nothing else.
    Without options, no device is attached, and the posture permits no traffic at all. Otherwise they
    give OpenVMM the defaults, at most 256 allow and 256 deny rules, under which it permits a packet
    exactly when the posture, as its rules are written, does, and forwards that are apart and whose
    UDP replies the posture lets through. *)
Theorem posture_enforced (policy : NetworkPolicy) (guest_network : list byte) (arguments : list (list byte)) :
  openvmm_arguments (Some policy) guest_network = Ok arguments ->
  match proxy policy with
  | Some p =>
      proxy_port p <> 0 /\ proxy_port p <> DNS_PORT /\ (forall t, ~ permits policy t)
      /\ publishes_listeners policy = false
      /\ exists gateway, guest_gateway guest_network = Some gateway
           /\ arguments = template_arguments guest_network
                ++ [bytes_of "--network-proxy"; display_ipv4 gateway ++ bytes_of ":" ++ dec (proxy_port p)]
  | None =>
      (arguments = [] /\ (forall t, ~ permits policy t) /\ publishes_listeners policy = false /\ host_loopback_forwards policy = [])
      \/ exists allowed denied,
           arguments = base_arguments guest_network (access_as_str (egress policy)) (access_as_str (ingress policy))
             ++ (if bool_decide (host_loopback policy = LoopbackOutbound) then []
                 else [bytes_of "--host-loopback"; loopback_as_str (host_loopback policy)])
             ++ rule_arguments "--network-egress-allow" allowed ++ rule_arguments "--network-egress-deny" denied
             ++ forward_arguments (host_loopback_forwards policy)
           /\ len allowed <= MAX_RULES_PER_ACTION /\ len denied <= MAX_RULES_PER_ACTION
           /\ (forall t, in_family t -> native_permits (egress policy) allowed denied t <-> permits policy t)
           /\ forwards_admitted policy guest_network
  end.
Proof.
  unfold openvmm_arguments. destruct (proxy policy) as [p|].
  - unfold proxy_arguments, check_proxy_only. destruct (Z.eqb_spec (proxy_port p) 0); [done|].
    destruct (Z.eqb_spec (proxy_port p) DNS_PORT); [done|].
    destruct (bool_decide_reflect (egress policy = Deny)) as [He|]; [|done]. cbn [negb].
    destruct (is_empty (allow policy)) eqn:Hal; [|done]. destruct (is_empty (deny policy)); [|done]. cbn [negb].
    destruct (bool_decide_reflect (ingress policy = Deny)) as [Hi|]; [|done]. cbn [negb].
    destruct (bool_decide_reflect (host_loopback policy = LoopbackDeny)) as [Hh|]; [|done]. cbn [negb].
    destruct (is_empty (host_loopback_forwards policy)); [|done]. cbn [negb mbind result_bind].
    destruct (guest_gateway guest_network) as [g|]; [|done]. cbn [ok_or mbind result_bind]. intros <-%ok_inj.
    apply is_empty_true in Hal. split_and!; [done|done|intros t; by apply deny_all_permits_none| |by exists g].
    unfold publishes_listeners. rewrite Hi, Hh. done.
  - destruct (negb _ && _) eqn:Hfw; [done|]. destruct (_ && prefix_too_long _); [done|].
    destruct (bool_decide (egress policy = Deny) && _ && _ && _) eqn:Hnone.
    { intros <-%ok_inj. left. rewrite !andb_true_iff, is_empty_true, !bool_decide_eq_true in Hnone. destruct Hnone as [[[He Hal] Hi] Hh].
      split; [done|]. split; [intros t; by apply deny_all_permits_none|]. split; [unfold publishes_listeners; by rewrite Hi, Hh|].
      rewrite (bool_decide_false (host_loopback policy = LoopbackAllow)) in Hfw by congruence. rewrite andb_true_r in Hfw.
      by apply negb_false_iff, is_empty_true in Hfw. }
    destruct (lower_action (allow policy)) as [[pa allowed]|] eqn:Ha; [|done]. cbn [mbind result_bind].
    destruct (lower_action (deny policy)) as [[pd denied]|] eqn:Hd; [|done]. cbn [mbind result_bind].
    destruct (check_loopback_forwards _ _ _) as [[]|] eqn:Hc; [|done]. cbn [mbind result_bind]. intros <-%ok_inj. right.
    apply lower_action_spec in Ha as (_ & Hal & Has), Hd as (Hpd & Hdl & Hds). exists allowed, denied.
    split; [done|]. split; [done|]. split; [done|]. split; [|by eapply check_loopback_forwards_ok].
    intros t Ht. unfold native_permits, permits. by rewrite (Has t Ht), (Hds t Ht).
Qed.

Definition sample_policy : NetworkPolicy :=
  mkNetworkPolicy Allow [] [mkEgressRule [mkDestination (bytes_of "192.0.2.0/30") [bytes_of "192.0.2.1"]] []] Deny LoopbackAllow
    [mkLoopbackForward ForwardTcp 8080 80; mkLoopbackForward ForwardUdp 5353 53] None.

Lemma posture_enforced_witness :
  exists arguments, openvmm_arguments (Some sample_policy) (bytes_of "10.0.0.2/24") = Ok arguments
  /\ len arguments = 18 /\ forwards_admitted sample_policy (bytes_of "10.0.0.2/24").
Proof.
  destruct (openvmm_arguments (Some sample_policy) (bytes_of "10.0.0.2/24")) as [arguments|e] eqn:He; [|vm_compute in He; discriminate].
  exists arguments. split; [reflexivity|]. split; [vm_compute in He; injection He as <-; reflexivity|].
  destruct (posture_enforced sample_policy (bytes_of "10.0.0.2/24") arguments He) as [(-> & _)|(allowed & denied & _ & _ & _ & _ & Hf)]; [|exact Hf].
  vm_compute in He. discriminate.
Defined.

(** ** DNS *)

Definition dns_reachable (policy : NetworkPolicy) (server : Family * Z) : Prop :=
  exists p, (p = Tcp \/ p = Udp) /\ permits policy (mkTraffic (server.1) (server.2) (Some p) DNS_PORT).

Lemma rule_selects_spec rule family address p port :
  is_rule rule -> rule_selects rule family address p port = true <-> selects rule (mkTraffic family address (Some p) port).
Proof.
  intros Hr. unfold rule_selects, selects. cbn [t_family t_address t_protocol t_port].
  rewrite !andb_true_iff, bool_decide_eq_true, existsb_exists.
  assert (Hm : (exists x, In x (r_addresses rule) /\ (let '(first, last) := x in (first <=? address) && (address <=? last)) = true)
               <-> member address (r_addresses rule)).
  { unfold member. split; intros ([s e] & Hin & Hi); exists (s, e); (split; [by apply list_elem_of_In|]).
    - apply andb_true_iff in Hi as [?%Z.leb_le ?%Z.leb_le]. by split.
    - destruct Hi as [H1 H2]. apply andb_true_iff. split; by apply Z.leb_le. }
  rewrite Hm. destruct (r_protocol rule) as [q|] eqn:Hq.
  - rewrite andb_true_iff, bool_decide_eq_true. destruct (r_ports rule) as [[s e]|]; cbn [ports_select].
    + rewrite andb_true_iff, !Z.leb_le. unfold in_range. cbn. naive_solver.
    + naive_solver.
  - destruct (r_ports rule) as [[s e]|] eqn:Hp; [|cbn; naive_solver].
    destruct (ru_ports _ Hr s e Hp) as [[?|?] _]; congruence.
Qed.

Lemma selected_existsb rules server p :
  (forall r, r ∈ rules -> is_rule r) ->
  existsb (fun rule => rule_selects rule (server.1) (server.2) p DNS_PORT) rules = true
  <-> selected_by rules (mkTraffic (server.1) (server.2) (Some p) DNS_PORT).
Proof.
  intros Hr. rewrite existsb_exists. unfold selected_by. split; intros (r & Hin & Hs); exists r.
  - apply list_elem_of_In in Hin. split; [done|]. by apply rule_selects_spec; [apply Hr|].
  - split; [by apply list_elem_of_In|]. by apply rule_selects_spec; [apply Hr|].
Qed.

Lemma reaches_spec policy pa pd server :
  parse_rules (allow policy) = Ok pa -> parse_rules (deny policy) = Ok pd -> 0 <= server.2 <= last_address (server.1) ->
  reaches policy (concat pa) (concat pd) server = true <-> dns_reachable policy server.
Proof.
  intros Ha Hd Hs. destruct (parse_rules_spec (allow policy)) as [_ Pa], (parse_rules_spec (deny policy)) as [_ Pd].
  destruct (Pa pa Ha) as [Ra Sa], (Pd pd Hd) as [Rd Sd]. unfold reaches, dns_reachable, permits.
  assert (Hp : forall p, negb (existsb (fun rule => rule_selects rule (server.1) (server.2) p DNS_PORT) (concat pd))
      && (existsb (fun rule => rule_selects rule (server.1) (server.2) p DNS_PORT) (concat pa) || bool_decide (egress policy = Allow)) = true
      <-> permits policy (mkTraffic (server.1) (server.2) (Some p) DNS_PORT)).
  { intros p. unfold permits. rewrite <- (Sa (mkTraffic (server.1) (server.2) (Some p) DNS_PORT) Hs), <- (Sd (mkTraffic (server.1) (server.2) (Some p) DNS_PORT) Hs).
    rewrite andb_true_iff, orb_true_iff, negb_true_iff, bool_decide_eq_true, (selected_existsb (concat pa)), <- (selected_existsb (concat pd)) by done.
    rewrite not_true_iff_false. done. }
  cbn [existsb]. rewrite orb_false_r, orb_true_iff, !Hp. split.
  - intros [H|H]; eauto.
  - intros (p & [-> | ->] & H); auto.
Qed.

(** The DNS server that a guest learns is the first of its gateways, IPv4 before IPv6, whose DNS
    service, over TCP or UDP, the posture as its rules are written lets it reach; there is none
    exactly when it may reach neither, as under a proxy. *)
Theorem dns_server_exact (policy : NetworkPolicy) (gateway : Z) (v6 : option Z) (server : option (Family * Z)) :
  0 <= gateway <= U32_MAX -> (forall a, v6 = Some a -> 0 <= a <= U128_MAX) ->
  dns_server policy gateway v6 = Ok server ->
  match server with
  | Some (V4, a) => a = gateway /\ proxy policy = None /\ dns_reachable policy (V4, gateway)
  | Some (V6, a) => v6 = Some a /\ proxy policy = None /\ dns_reachable policy (V6, a) /\ ~ dns_reachable policy (V4, gateway)
  | None => is_Some (proxy policy) \/ (~ dns_reachable policy (V4, gateway) /\ forall a, v6 = Some a -> ~ dns_reachable policy (V6, a))
  end.
Proof.
  intros Hg Hv. unfold dns_server. destruct (bool_decide_reflect (is_Some (proxy policy))) as [Hp|Hp].
  { intros <-%ok_inj. by left. }
  apply eq_None_not_Some in Hp.
  destruct (parse_rules (allow policy)) as [pa|] eqn:Ha; [|done]. cbn [map_err mbind result_bind].
  destruct (parse_rules (deny policy)) as [pd|] eqn:Hd; [|done]. cbn [map_err mbind result_bind]. intros <-%ok_inj. cbn [find].
  pose proof (reaches_spec policy pa pd (V4, gateway) Ha Hd Hg) as H4.
  destruct (reaches _ _ _ (V4, gateway)); [split; [done|]; split; [done|by apply H4]|].
  assert (Hno : ~ dns_reachable policy (V4, gateway)) by (intros H; apply H4 in H; done).
  destruct v6 as [a|]; cbn [find]; [|right; split; [done|by intros a]].
  pose proof (reaches_spec policy pa pd (V6, a) Ha Hd (Hv a eq_refl)) as H6.
  destruct (reaches _ _ _ (V6, a)); [split_and!; try done; by apply H6|].
  right. split; [done|]. intros b [= <-] H. by apply H6 in H.
Qed.

Lemma dns_server_exact_witness :
  dns_server sample_policy 0x0a000001 None = Ok (Some (V4, 0x0a000001)) /\ dns_reachable sample_policy (V4, 0x0a000001).
Proof.
  assert (He : dns_server sample_policy 0x0a000001 None = Ok (Some (V4, 0x0a000001))) by (vm_compute; reflexivity).
  split; [exact He|].
  apply (dns_server_exact sample_policy 0x0a000001 None (Some (V4, 0x0a000001)) ltac:(vm_compute; split; discriminate) ltac:(discriminate) He).
Defined.

(** ** Canonical texts of guest networks *)

Lemma join_split_dot c l : join [c] (split_on (is_byte c) l) = l.
Proof.
  induction l as [|b l IH]; [done|]. cbn [split_on]. destruct (split_on_cons (is_byte c) l) as (w & ws & Hw).
  destruct (is_byte c b) eqn:Hb.
  - apply bool_decide_eq_true in Hb. rewrite Hw in *. change (join [c] ([] :: w :: ws)) with ([] ++ [c] ++ join [c] (w :: ws)).
    rewrite IH. by rewrite Hb.
  - rewrite Hw in *. destruct ws as [|u ws]; [cbn [join] in *; by rewrite IH|].
    change (join [c] ((b :: w) :: u :: ws)) with (b :: join [c] (w :: u :: ws)). by rewrite IH.
Qed.

Definition all_digits : list Z := seqZ 0 10.
Definition digit_text (ds : list Z) : list byte := (fun d => byte_of (48 + d)) <$> ds.

Lemma digit_byte_of b : is_ascii_digit b = true -> exists d, d ∈ all_digits /\ b = byte_of (48 + d).
Proof.
  unfold is_ascii_digit. intros [H1%Z.leb_le H2%Z.leb_le]%andb_true_iff. exists (byte_val b - 48).
  split; [unfold all_digits; rewrite elem_of_seqZ; lia|]. replace (48 + (byte_val b - 48)) with (byte_val b) by lia. by rewrite byte_of_val.
Qed.

Lemma digits_text text : Forall (fun b => is_ascii_digit b = true) text -> exists ds, Forall (fun d => d ∈ all_digits) ds /\ text = digit_text ds.
Proof.
  induction 1 as [|b text Hb _ (ds & Hds & ->)]; [by exists []|]. apply digit_byte_of in Hb as (d & Hd & ->). exists (d :: ds).
  split; [by constructor|done].
Qed.

(** Up to three digits without a leading zero are the text of their value. *)
Definition short_canonical (ds : list Z) : bool :=
  match ds with
  | 0 :: _ :: _ => true
  | _ => bool_decide (dec (decimal_value (digit_text ds)) = digit_text ds)
  end.

Lemma short_canonical_all : forallb (fun a => short_canonical [a] && forallb (fun b => short_canonical [a; b] && forallb (fun c => short_canonical [a; b; c]) all_digits) all_digits) all_digits = true.
Proof. vm_compute. reflexivity. Qed.

Lemma short_canonical_spec ds :
  Forall (fun d => d ∈ all_digits) ds -> ds <> [] -> (length ds <= 3)%nat -> short_canonical ds = true.
Proof.
  intros Hd Hne Hl. pose proof short_canonical_all as H. rewrite forallb_forall in H.
  destruct ds as [|a [|b [|c [|]]]]; try done; cbn in Hl; try lia; apply Forall_cons in Hd as [Ha Hd];
    specialize (H a ltac:(by apply list_elem_of_In)); apply andb_true_iff in H as [H1 H2]; [done|..];
    rewrite forallb_forall in H2; apply Forall_cons in Hd as [Hb Hd]; specialize (H2 b ltac:(by apply list_elem_of_In));
    apply andb_true_iff in H2 as [H2 H3]; [done|]. rewrite forallb_forall in H3. apply Forall_cons in Hd as [Hc _].
  by apply H3, list_elem_of_In.
Qed.

Definition leading_zero (text : list byte) : bool := match text with b :: _ => byte_val b =? 48 | [] => false end.

Lemma short_dec text :
  Forall (fun b => is_ascii_digit b = true) text -> 1 <= len text <= 3 -> (len text = 1 \/ leading_zero text = false) ->
  text = dec (decimal_value text).
Proof.
  intros Hd Hl Hz. apply digits_text in Hd as (ds & Hds & ->).
  assert (Hlen : (1 <= length ds <= 3)%nat) by (unfold len, digit_text in Hl; rewrite length_fmap in Hl; lia).
  pose proof (short_canonical_spec ds Hds ltac:(destruct ds; [cbn in Hlen; lia|done]) ltac:(lia)) as Hs.
  destruct ds as [|a ds]; [cbn in Hlen; lia|]. destruct Hz as [H1|Hz].
  - assert (ds = []) as -> by (destruct ds; [done|unfold len, digit_text in H1; rewrite length_fmap in H1; cbn in H1; lia]).
    cbn [short_canonical] in Hs. destruct a; apply bool_decide_eq_true in Hs; congruence.
  - assert (a <> 0) by (intros ->; by vm_compute in Hz). cbn [short_canonical] in Hs.
    destruct a; [done|..]; apply bool_decide_eq_true in Hs; congruence.
Qed.

Lemma std_octet_canonical text o : std_octet text = Some o -> 0 <= o <= 255 /\ text = dec o.
Proof.
  unfold std_octet. fold (leading_zero text). destruct (_ && _) eqn:Hc; [|done]. intros [= <-].
  rewrite !andb_true_iff, !Z.leb_le, forallb_digits, negb_true_iff in Hc. destruct Hc as [[[[H1 H2] Hd] Hz] Hv].
  split; [split; [by apply decimal_nonneg|done]|]. apply short_dec; [done|lia|].
  destruct (Z.leb_spec 2 (len text)); [|left; lia]. by right.
Qed.

Lemma decimal_value_snoc text b : decimal_value (text ++ [b]) = decimal_value text * 10 + (byte_val b - 48).
Proof. unfold decimal_value. by rewrite foldl_app. Qed.

(** A number that starts with another digit than zero has few digits. *)
Lemma decimal_value_long text :
  Forall (fun b => is_ascii_digit b = true) text -> text <> [] -> leading_zero text = false -> 10 ^ (len text - 1) <= decimal_value text.
Proof.
  induction text as [|b text IH] using rev_ind; [done|]. intros [Hd [Hb _]%Forall_cons]%Forall_app _ Hz.
  unfold is_ascii_digit in Hb. apply andb_true_iff in Hb as [Hb1%Z.leb_le Hb2%Z.leb_le].
  rewrite len_app, decimal_value_snoc. change (len [b]) with 1. destruct text as [|c text].
  - cbn [app leading_zero] in Hz. apply Z.eqb_neq in Hz. change (decimal_value []) with 0. change (10 ^ (len [] + 1 - 1)) with 1. lia.
  - specialize (IH Hd ltac:(done) Hz). rewrite len_cons in *. len_facts.
    replace (1 + len text + 1 - 1) with (1 + len text - 1 + 1) by lia. rewrite Z.pow_add_r by lia. change (10 ^ 1) with 10. lia.
Qed.

Lemma prefix_canonical text p : parse_prefix_length text = Some p -> 0 <= p <= U8_MAX /\ text = dec p.
Proof.
  unfold parse_prefix_length. fold (leading_zero text). destruct (_ && _) eqn:Hc; [|done].
  destruct (Z.leb_spec (decimal_value text) U8_MAX) as [Hv|]; [|done]. intros [= <-].
  rewrite !andb_true_iff, negb_true_iff, bool_decide_eq_false, forallb_digits, orb_true_iff, negb_true_iff, Z.eqb_eq in Hc.
  destruct Hc as [[Hne Hd] Hz]. split; [split; [by apply decimal_nonneg|done]|].
  assert (Hl : 1 <= len text) by (destruct text; [done|rewrite len_cons; len_facts; lia]).
  apply short_dec; [done| |done]. split; [done|]. destruct Hz as [?|Hz]; [lia|].
  pose proof (decimal_value_long text Hd Hne Hz) as Hlong. destruct (Z.le_gt_cases (len text) 3) as [|Hg]; [done|].
  assert (10 ^ 3 <= 10 ^ (len text - 1)) by (apply Z.pow_le_mono_r; lia). unfold U8_MAX in Hv. lia.
Qed.

Lemma std_ipv4_canonical text a : std_parse_ipv4 text = Some a -> 0 <= a < 2 ^ 32 /\ text = display_ipv4 a.
Proof.
  unfold std_parse_ipv4. intros H. pose proof (join_split_dot DOT text) as Hj.
  destruct (split_on (is_byte DOT) text) as [|ta [|tb [|tc [|td [|]]]]]; try done.
  destruct (std_octet ta) as [oa|] eqn:Ha; [|done]. cbn [mbind option_bind] in H.
  destruct (std_octet tb) as [ob|] eqn:Hb; [|done]. cbn [mbind option_bind] in H.
  destruct (std_octet tc) as [oc|] eqn:Hc; [|done]. cbn [mbind option_bind] in H.
  destruct (std_octet td) as [od|] eqn:Hd; [|done]. cbn [mbind option_bind] in H.
  assert (a = ((oa * 256 + ob) * 256 + oc) * 256 + od) as -> by congruence.
  apply std_octet_canonical in Ha as [Ha ->], Hb as [Hb ->], Hc as [Hc ->], Hd as [Hd ->]. split; [lia|].
  rewrite <- Hj. unfold display_ipv4. rewrite !fmap_cons, fmap_nil. rewrite !Z.shiftr_div_pow2 by lia.
  change (2 ^ (24 - 8 * 0)) with 16777216. change (2 ^ (24 - 8 * 1)) with 65536. change (2 ^ (24 - 8 * 2)) with 256.
  change (2 ^ (24 - 8 * 3)) with 1. change (2 ^ 8) with 256.
  set (a := ((oa * 256 + ob) * 256 + oc) * 256 + od).
  assert (a / 16777216 mod 256 = oa) as -> by (subst a; Z.to_euclidean_division_equations; lia).
  assert (a / 65536 mod 256 = ob) as -> by (subst a; Z.to_euclidean_division_equations; lia).
  assert (a / 256 mod 256 = oc) as -> by (subst a; Z.to_euclidean_division_equations; lia).
  assert (a / 1 mod 256 = od) as -> by (subst a; Z.to_euclidean_division_equations; lia). done.
Qed.

Lemma guest_address_text (value : list byte) (host mask : Z) :
  guest_address value = Some (host, mask) ->
  exists prefix, 1 <= prefix <= 30 /\ value = display_ipv4 host ++ [SLASH] ++ dec prefix /\ mask = prefix_mask prefix
    /\ 0 <= host < 2 ^ 32 /\ guest_gateway value = Some (Z.land host mask + 1)
    /\ host <> Z.land host mask /\ host <> Z.land host mask + 1.
Proof.
  intros H. pose proof H as Hg. unfold guest_address, split_once in H.
  destruct (position (is_byte SLASH) value) as [i|] eqn:Hp; [|done]. cbn [mbind option_bind] in H.
  apply position_some in Hp as (k & x & r & -> & -> & Hx & _).
  rewrite ztake_app_l, ztake_all in H by lia. rewrite zdrop_app_r in H by lia.
  replace (len k + 1 - len k) with 1 in H by lia. change (zdrop 1 (x :: r)) with r in H.
  destruct (std_parse_ipv4 k) as [h|] eqn:Hh; [|done]. cbn [mbind option_bind] in H.
  destruct (parse_prefix_length r) as [p|] eqn:Hr; [|done]. cbn [mbind option_bind] in H.
  destruct (Z.leb_spec 1 p); [|done]. destruct (Z.leb_spec p 30); [|done]. cbn [andb] in H.
  destruct (existsb _ _) eqn:He; [done|]. assert (h = host) as -> by congruence. assert (prefix_mask p = mask) as <- by congruence.
  apply std_ipv4_canonical in Hh as [Hh ->]. apply prefix_canonical in Hr as [_ ->]. apply bool_decide_eq_true in Hx as ->.
  cbn [existsb] in He. apply orb_false_iff in He as [He1%Z.eqb_neq [_ [He3%Z.eqb_neq _]%orb_false_iff]%orb_false_iff].
  exists p. split_and!; try done; try lia. unfold guest_gateway. by rewrite Hg.
Qed.

(** A guest network has one text: an address and prefix that the host accepts is the canonical
    text of its numbers, so that comparing texts compares networks; its address is of the network
    and none of the network's own, its gateway's, and its broadcast address, and the gateway is the
    network's first address. *)
Theorem guest_network_canonical (value : list byte) (host mask : Z) :
  guest_address value = Some (host, mask) ->
  exists prefix, 1 <= prefix <= 30 /\ value = display_ipv4 host ++ [SLASH] ++ dec prefix /\ mask = prefix_mask prefix
    /\ 0 <= host < 2 ^ 32 /\ guest_gateway value = Some (Z.land host mask + 1)
    /\ host <> Z.land host mask /\ host <> Z.land host mask + 1.
Proof. apply guest_address_text. Qed.

Lemma guest_network_canonical_witness :
  exists prefix, 1 <= prefix <= 30 /\ bytes_of "10.0.0.2/24" = display_ipv4 0x0a000002 ++ [SLASH] ++ dec prefix
    /\ 0xffffff00 = prefix_mask prefix /\ 0 <= 0x0a000002 < 2 ^ 32 /\ guest_gateway (bytes_of "10.0.0.2/24") = Some (Z.land 0x0a000002 0xffffff00 + 1)
    /\ 0x0a000002 <> Z.land 0x0a000002 0xffffff00 /\ 0x0a000002 <> Z.land 0x0a000002 0xffffff00 + 1.
Proof. apply (guest_network_canonical (bytes_of "10.0.0.2/24") 0x0a000002 0xffffff00). vm_compute. reflexivity. Defined.
