(* ===== verification/Endpoints.v ===== *)
(** * The texts of endpoints (src/nvx-rs/src/host/network/proxy.rs, loopback.rs, net/mod.rs)

    Ports, loopback forwards, and proxies as their options and URLs write them, with their readers,
    and the form of a hostname. *)

From stdpp Require Import gmap.
From S2P Require Import Prelude Export Cmdline Machine Addresses Lowering AddressText EgressRules NetworkArguments.

(** ** The standard library's readers *)

(** [str::parse::<u16>], which takes a leading plus sign. *)
Definition std_parse_u16 (text : list byte) : option Z :=
  let digits := match text with b :: (_ :: _) as digits => if byte_val b =? 43 then digits else text | _ => text end in
  if negb (is_empty digits) && forallb is_ascii_digit digits && (decimal_value digits <=? U16_MAX)
  then Some (decimal_value digits) else None.

(** [str::split_once] of a separator. *)
Fixpoint split_text (separator text : list byte) : option (list byte * list byte) :=
  match strip_prefix separator text with
  | Some rest => Some ([], rest)
  | None =>
      match text with
      | [] => None
      | b :: text => '(k, rest) ← split_text separator text; Some (b :: k, rest)
      end
  end.

(** [str::rsplit_once]. *)
Definition rsplit_once (c : byte) (text : list byte) : option (list byte * list byte) :=
  '(after, before) ← split_once c (rev text); Some (rev before, rev after).

(** [text.strip_suffix(c).unwrap_or(text)]. *)
Definition without_suffix (c : byte) (text : list byte) : list byte :=
  match rev text with b :: before => if is_byte c b then rev before else text | [] => text end.

(** ** Endpoints *)

Definition parse_port (text : list byte) : option Z :=
  port ← std_parse_u16 text; if port =? 0 then None else Some port.

Inductive EndpointError : Type :=
| ForwardForm | ForwardProtocolName | ForwardPorts
| UrlForm | UrlScheme | UrlAfterPort | UrlPortMissing | UrlHost | UrlPort
| EndpointForm | EndpointPort | EndpointAddress.

Definition parse_forward (value : list byte) : result EndpointError LoopbackForward :=
  match split_on (is_byte COLON) value with
  | [protocol; host_port; guest_port] =>
      protocol ← (if bool_decide (protocol = bytes_of "tcp") then Ok ForwardTcp
                  else if bool_decide (protocol = bytes_of "udp") then Ok ForwardUdp
                  else Err ForwardProtocolName);
      match parse_port host_port, parse_port guest_port with
      | Some host_port, Some guest_port => Ok (mkLoopbackForward protocol host_port guest_port)
      | _, _ => Err ForwardPorts
      end
  | _ => Err ForwardForm
  end.

Definition scheme_as_str (self : ProxyScheme) : list byte :=
  match self with Http => bytes_of "http" | Https => bytes_of "https" end.

Definition scheme_from_name (name : list byte) : option ProxyScheme :=
  if bool_decide (name = bytes_of "http") then Some Http
  else if bool_decide (name = bytes_of "https") then Some Https
  else None.

Definition new_proxy (port : Z) : NetworkProxy := mkNetworkProxy port None.
Definition with_scheme (self : NetworkProxy) (scheme : ProxyScheme) : NetworkProxy := mkNetworkProxy (proxy_port self) (Some scheme).

Definition parse_url (url : list byte) : result EndpointError NetworkProxy :=
  '(scheme, rest) ← ok_or (split_text (bytes_of "://") url) UrlForm;
  scheme ← ok_or (scheme_from_name scheme) UrlScheme;
  let authority := without_suffix SLASH rest in
  if existsb (fun b => existsb (fun c => is_byte c b) (bytes_of "/?#")) authority then Err UrlAfterPort
  else
    '(host, port) ← ok_or (rsplit_once COLON authority) UrlPortMissing;
    if negb (bool_decide (host = bytes_of "127.0.0.1") || bool_decide (host = bytes_of "localhost")) then Err UrlHost
    else
      port ← ok_or (if forallb is_ascii_digit port then parse_port port else None) UrlPort;
      Ok (with_scheme (new_proxy port) scheme).

Definition parse_endpoint (endpoint : list byte) (gateway : Z) : result EndpointError NetworkProxy :=
  '(address, port) ← ok_or ('(address, port) ← rsplit_once COLON endpoint;
                            address ← std_parse_ipv4 address; Some (address, port)) EndpointForm;
  port ← ok_or (parse_port port) EndpointPort;
  if negb (address =? gateway) then Err EndpointAddress else Ok (new_proxy port).

Definition proxy_url (self : NetworkProxy) (gateway : Z) : list byte :=
  match scheme self with
  | Some scheme => scheme_as_str scheme ++ bytes_of "://" ++ display_ipv4 gateway ++ bytes_of ":" ++ dec (proxy_port self)
  | None => display_ipv4 gateway ++ bytes_of ":" ++ dec (proxy_port self)
  end.

Definition sandbox_proxy_url (self : SandboxNetwork) : option (list byte) :=
  (fun proxy => proxy_url proxy (sn_gateway self)) <$> proxy (sn_policy self).

Definition is_valid_hostname (hostname : list byte) : bool :=
  negb (is_empty hostname) && (len hostname <=? 63)
  && forallb (fun b => is_ascii_lowercase b || is_ascii_digit b || is_byte (byte_of 45) b) hostname
  && negb (bool_decide (head hostname = Some (byte_of 45))) && negb (bool_decide (last hostname = Some (byte_of 45))).

(** ** What the readers take *)

Lemma dec_digits n : 0 <= n -> Forall (fun b => is_ascii_digit b = true) (dec n).
Proof.
  intros Hn. apply digits_forall; [lia| |done]. intros d Hd. unfold is_ascii_digit. rewrite digit_byte_val by lia.
  destruct (Z.ltb_spec d 10); [|lia]. apply andb_true_iff. rewrite !Z.leb_le. lia.
Qed.

Lemma dec_clean c n : 0 <= n -> c ∈ [SLASH; DOT; COLON; PERCENT] -> Forall (fun b => is_byte c b = false) (dec n).
Proof. intros Hn Hc. by apply digits_clean. Qed.

(** A port of digits alone. *)
Lemma parse_port_digits digits port :
  Forall (fun b => is_ascii_digit b = true) digits ->
  parse_port digits = Some port <-> digits <> [] /\ port = decimal_value digits /\ 1 <= port <= U16_MAX.
Proof.
  intros Hd. pose proof (decimal_nonneg _ Hd) as Hn. unfold parse_port, std_parse_u16.
  assert (match digits with b :: (_ :: _) as ds => if byte_val b =? 43 then ds else digits | _ => digits end = digits) as ->.
  { destruct digits as [|b [|c ds]]; try done. apply Forall_cons in Hd as [Hb _]. unfold is_ascii_digit in Hb.
    destruct (Z.eqb_spec (byte_val b) 43); [|done]. bool_to_prop. lia. }
  apply forallb_digits in Hd as ->. rewrite andb_true_r. destruct digits as [|b ds]; [by split; [|intros [? _]]|].
  cbn [is_empty negb andb]. destruct (Z.leb_spec (decimal_value (b :: ds)) U16_MAX); cbn [mbind option_bind]; [|split; [done|lia]].
  destruct (Z.eqb_spec (decimal_value (b :: ds)) 0); [split; [done|lia]|]. split; [intros [= <-]; split_and!; try done; lia|].
  by intros (_ & -> & _).
Qed.

Lemma parse_port_dec p : 1 <= p <= U16_MAX -> parse_port (dec p) = Some p.
Proof.
  intros Hp. apply parse_port_digits; [apply dec_digits; lia|]. split_and!; try lia; [by apply digits_nonempty; lia|].
  unfold dec. rewrite digits_decimal; [done|]. unfold U16_MAX in Hp. cbn. lia.
Qed.

Lemma split_once_spec c text k r :
  split_once c text = Some (k, r) <-> text = k ++ c :: r /\ Forall (fun b => is_byte c b = false) k.
Proof.
  unfold split_once. split.
  - destruct (position (is_byte c) text) as [i|] eqn:Hp; [|done]. cbn [mbind option_bind].
    apply position_some in Hp as (k' & x & r' & -> & -> & Hx & Hk). apply bool_decide_eq_true in Hx as ->.
    rewrite ztake_app_l, ztake_all, zdrop_app_r by lia. replace (len k' + 1 - len k') with 1 by lia. change (zdrop 1 (c :: r')) with r'.
    intros [= <- <-]. done.
  - intros [-> Hk]. rewrite (proj2 (position_some (is_byte c) (k ++ c :: r) (len k))) by (exists k, c, r; split_and!; try done; by apply bool_decide_eq_true).
    cbn [mbind option_bind]. rewrite ztake_app_l, ztake_all, zdrop_app_r by lia. by replace (len k + 1 - len k) with 1 by lia.
Qed.

Lemma rsplit_once_spec c text h p :
  rsplit_once c text = Some (h, p) <-> text = h ++ c :: p /\ Forall (fun b => is_byte c b = false) p.
Proof.
  unfold rsplit_once. split.
  - destruct (split_once c (rev text)) as [[k r]|] eqn:Hs; [|done]. cbn [mbind option_bind]. intros [= <- <-].
    apply split_once_spec in Hs as [Ht Hk]. apply (f_equal (@rev byte)) in Ht. rewrite rev_involutive, rev_app_distr in Ht. cbn [rev] in Ht.
    rewrite <- app_assoc in Ht. split; [exact Ht|]. by apply Forall_rev.
  - intros [-> Hp]. rewrite (proj2 (split_once_spec c (rev (h ++ c :: p)) (rev p) (rev h))); [cbn; by rewrite !rev_involutive|].
    split; [rewrite rev_app_distr; cbn [rev]; by rewrite <- app_assoc|by apply Forall_rev].
Qed.

Lemma split_text_some separator text k r : split_text separator text = Some (k, r) -> text = k ++ separator ++ r.
Proof.
  revert k r. induction text as [|b text IH]; intros k r; cbn [split_text]; destruct (strip_prefix separator _) as [s|] eqn:Hs.
  - intros [= <- <-]. by apply strip_prefix_some in Hs.
  - done.
  - intros [= <- <-]. by apply strip_prefix_some in Hs.
  - destruct (split_text separator text) as [[k' r']|]; [|done]. cbn [mbind option_bind]. intros [= <- <-]. cbn [app]. f_equal. by apply IH.
Qed.

Lemma without_suffix_spec c text a :
  without_suffix c text = a <-> text = a ++ [c] \/ text = a /\ last a <> Some c.
Proof.
  unfold without_suffix. destruct text as [|b text _] using rev_ind.
  - cbn [rev]. split; [intros <-; right; by split|]. intros [H|[H _]]; [by destruct a|done].
  - rewrite rev_unit, rev_involutive. unfold is_byte. case_bool_decide as Hb.
    + subst b. split; [intros ->; by left|]. intros [H|[<- H]]; [by apply app_inj_tail in H as [? _]|]. by rewrite last_snoc in H.
    + split; [intros <-; right; split; [done|]; rewrite last_snoc; congruence|].
      intros [H|[<- _]]; [|done]. apply app_inj_tail in H as [_ H]. congruence.
Qed.

(** ** URLs *)

(** The URLs of a proxy on host loopback. *)
Definition loopback_url (proxy : NetworkProxy) (url : list byte) : Prop :=
  exists scheme_ host digits slash,
    scheme proxy = Some scheme_ /\ (host = bytes_of "127.0.0.1" \/ host = bytes_of "localhost")
    /\ (slash = [] \/ slash = [SLASH])
    /\ digits <> [] /\ Forall (fun b => is_ascii_digit b = true) digits
    /\ proxy_port proxy = decimal_value digits /\ 1 <= proxy_port proxy <= U16_MAX
    /\ url = scheme_as_str scheme_ ++ bytes_of "://" ++ host ++ [COLON] ++ digits ++ slash.

Lemma scheme_from_name_spec name s : scheme_from_name name = Some s <-> name = scheme_as_str s.
Proof.
  unfold scheme_from_name. case_bool_decide as H1; [subst name; destruct s; by split|].
  case_bool_decide as H2; [subst name; destruct s; by split|]. split; [done|]. intros ->. by destruct s.
Qed.

Lemma digit_not_byte c b : c ∈ bytes_of "/?#:" -> is_ascii_digit b = true -> is_byte c b = false.
Proof.
  intros Hc Hb. unfold is_byte. case_bool_decide as He; [|done]. subst b. unfold is_ascii_digit in Hb.
  repeat (apply elem_of_cons in Hc as [->|Hc]; [by vm_compute in Hb|]). by apply not_elem_of_nil in Hc.
Qed.

(** Decides whether a closed list holds a byte. *)
Ltac member := refine (bool_decide_unpack _ _); vm_compute; exact I.

Lemma digits_allowed digits :
  Forall (fun b => is_ascii_digit b = true) digits -> existsb (fun b => existsb (fun c => is_byte c b) (bytes_of "/?#")) digits = false.
Proof.
  induction 1 as [|b ds Hb _ IH]; [done|]. cbn [existsb]. rewrite IH, orb_false_r.
  change (bytes_of "/?#") with [SLASH; byte_of 63; byte_of 35]. cbn [existsb].
  rewrite !digit_not_byte by (done || member). done.
Qed.

Lemma parse_url_sound url proxy : parse_url url = Ok proxy -> loopback_url proxy url.
Proof.
  unfold parse_url. destruct (split_text _ url) as [[s rest]|] eqn:Hs; [|done]. cbn [ok_or mbind result_bind].
  apply split_text_some in Hs as ->. destruct (scheme_from_name s) as [sc|] eqn:Hsc; [|done]. cbn [ok_or mbind result_bind].
  apply scheme_from_name_spec in Hsc as ->. destruct (existsb _ (without_suffix SLASH rest)) eqn:Hc; [done|].
  destruct (rsplit_once COLON _) as [[host port]|] eqn:Hr; [|done]. cbn [ok_or mbind result_bind].
  apply rsplit_once_spec in Hr as [Ha _]. destruct (negb _) eqn:Hh; [done|].
  destruct (forallb is_ascii_digit port) eqn:Hd; [|done]. apply forallb_digits in Hd.
  destruct (parse_port port) as [p|] eqn:Hp; [|done]. cbn [ok_or mbind result_bind]. intros <-%ok_inj.
  apply parse_port_digits in Hp as (Hne & -> & Hr); [|done]. apply negb_false_iff, orb_true_iff in Hh. rewrite !bool_decide_eq_true in Hh.
  apply without_suffix_spec in Ha as [->|[-> _]]; [exists sc, host, port, [SLASH]|exists sc, host, port, []];
    cbn [scheme proxy_port with_scheme new_proxy]; split_and!; try done; try lia; try tauto;
    cbn [app]; by rewrite <- ?app_assoc, ?app_nil_r.
Qed.

Lemma parse_url_complete url proxy : loopback_url proxy url -> parse_url url = Ok proxy.
Proof.
  destruct proxy as [p sc]. intros (s & host & digits & slash & Hs & Hh & Hsl & Hne & Hd & Hp & Hr & ->). cbn [scheme proxy_port] in *. subst sc p.
  unfold parse_url.
  assert (split_text (bytes_of "://") (scheme_as_str s ++ bytes_of "://" ++ host ++ [COLON] ++ digits ++ slash)
          = Some (scheme_as_str s, host ++ [COLON] ++ digits ++ slash)) as -> by (destruct s; vm_compute; reflexivity).
  cbn [ok_or mbind result_bind]. rewrite (proj2 (scheme_from_name_spec (scheme_as_str s) s) eq_refl). cbn [ok_or mbind result_bind].
  assert (forall c, c ∈ bytes_of "/?#:" -> Forall (fun b => is_byte c b = false) digits) as Hcl.
  { intros c Hc. eapply Forall_impl; [exact Hd|]. intros b Hb. by apply digit_not_byte. }
  assert (without_suffix SLASH (host ++ [COLON] ++ digits ++ slash) = host ++ [COLON] ++ digits) as ->.
  { apply without_suffix_spec. destruct Hsl as [->| ->]; [right|left; by rewrite <- !app_assoc]. rewrite app_nil_r. split; [done|].
    destruct digits as [|b ds _] using rev_ind; [done|]. rewrite !app_assoc, last_snoc. intros [= ->].
    apply Forall_app in Hd as [_ [Hb _]%Forall_cons]. by vm_compute in Hb. }
  assert (existsb (fun b => existsb (fun c => is_byte c b) (bytes_of "/?#")) (host ++ [COLON] ++ digits) = false) as ->.
  { rewrite !existsb_app, (digits_allowed digits Hd). by destruct Hh as [->| ->]; vm_compute. }
  rewrite (proj2 (rsplit_once_spec COLON _ host digits)) by (split; [done|apply Hcl; member]).
  cbn [ok_or mbind result_bind].
  assert (negb (bool_decide (host = bytes_of "127.0.0.1") || bool_decide (host = bytes_of "localhost")) = false) as ->
    by (destruct Hh as [->| ->]; by vm_compute).
  rewrite (proj2 (forallb_digits digits) Hd). by rewrite (proj2 (parse_port_digits digits (decimal_value digits) Hd)).
Qed.

(** ** Options *)

Lemma std_octet_dec o : 0 <= o < 256 -> std_octet (dec o) = Some o.
Proof.
  intros Ho. assert (forallb (fun o => bool_decide (std_octet (dec o) = Some o)) (seqZ 0 256) = true) as H by (vm_compute; reflexivity).
  rewrite forallb_forall in H. specialize (H o ltac:(apply list_elem_of_In, elem_of_seqZ; lia)). by apply bool_decide_eq_true in H.
Qed.

Lemma std_parse_display a : 0 <= a < 2 ^ 32 -> std_parse_ipv4 (display_ipv4 a) = Some a.
Proof.
  intros Ha. unfold std_parse_ipv4, display_ipv4. rewrite split_join; [|done|apply ipv4_texts_clean; member].
  cbn [fmap list_fmap]. rewrite !std_octet_dec by (apply Z.mod_pos_bound; lia). cbn [mbind option_bind]. f_equal.
  change (24 - 8 * 0) with 24. change (24 - 8 * 1) with 16. change (24 - 8 * 2) with 8. change (24 - 8 * 3) with 0.
  rewrite !Z.shiftr_div_pow2 by lia. change (2 ^ 24) with 16777216. change (2 ^ 16) with 65536. change (2 ^ 8) with 256. change (2 ^ 0) with 1.
  change (2 ^ 32) with 4294967296 in Ha. Z.to_euclidean_division_equations. lia.
Qed.

(** The value that [forward_arguments] gives a forward. *)
Definition forward_value (f : LoopbackForward) : list byte :=
  forward_as_str (f_protocol f) ++ bytes_of ":" ++ dec (host_port f) ++ bytes_of ":" ++ dec (guest_port f).

Lemma parse_forward_value f :
  1 <= host_port f <= U16_MAX -> 1 <= guest_port f <= U16_MAX -> parse_forward (forward_value f) = Ok f.
Proof.
  intros Hh Hg. unfold parse_forward.
  assert (forward_value f = join [COLON] [forward_as_str (f_protocol f); dec (host_port f); dec (guest_port f)]) as -> by done.
  rewrite split_join; [|done|].
  - rewrite !parse_port_dec by done. destruct f as [[] h g]; reflexivity.
  - repeat (apply Forall_cons_2); [|apply dec_clean; [lia|member]..|constructor].
    destruct (f_protocol f); member.
Qed.

Lemma parse_endpoint_value gateway port :
  0 <= gateway < 2 ^ 32 -> 1 <= port <= U16_MAX ->
  parse_endpoint (display_ipv4 gateway ++ bytes_of ":" ++ dec port) gateway = Ok (new_proxy port).
Proof.
  intros Hg Hp. unfold parse_endpoint.
  rewrite (proj2 (rsplit_once_spec COLON _ (display_ipv4 gateway) (dec port))) by (split; [done|apply dec_clean; [lia|member]]).
  cbn [mbind option_bind]. rewrite std_parse_display by done. cbn [mbind option_bind ok_or result_bind]. rewrite parse_port_dec by done.
  cbn [mbind ok_or result_bind]. by rewrite Z.eqb_refl.
Qed.

(** The endpoint texts of a network read back: the value of every forward that the options write is
    that forward again; the proxy endpoint that the options name at the guest's gateway is read there
    as the proxy, and at no other gateway; and a proxy's URL is taken exactly when it is an HTTP or
    HTTPS URL of IPv4 loopback with an explicit nonzero port, and nothing but a slash after it. *)
Theorem endpoint_texts_exact (f : LoopbackForward) (gateway port : Z) (url : list byte) (proxy : NetworkProxy) :
  1 <= host_port f <= U16_MAX -> 1 <= guest_port f <= U16_MAX -> 0 <= gateway < 2 ^ 32 -> 1 <= port <= U16_MAX ->
  forward_arguments [f] = [bytes_of "--host-loopback-forward"; forward_value f]
  /\ parse_forward (forward_value f) = Ok f
  /\ (forall other, is_ok (parse_endpoint (proxy_url (new_proxy port) gateway) other) = true <-> other = gateway)
  /\ parse_endpoint (proxy_url (new_proxy port) gateway) gateway = Ok (new_proxy port)
  /\ (parse_url url = Ok proxy <-> loopback_url proxy url).
Proof.
  intros Hh Hg Hgw Hp. change (proxy_url (new_proxy port) gateway) with (display_ipv4 gateway ++ bytes_of ":" ++ dec port).
  pose proof (parse_endpoint_value gateway port Hgw Hp) as He. split_and!; [done|by apply parse_forward_value| |done|].
  - intros other. split; [|by intros ->; rewrite He]. unfold parse_endpoint in *.
    destruct (ok_or _ EndpointForm) as [[a t]|]; [|done]. cbn [mbind result_bind] in *. destruct (ok_or _ EndpointPort); [|done].
    cbn [mbind result_bind] in *. destruct (Z.eqb_spec a gateway); [|done]. destruct (Z.eqb_spec a other); [congruence|done].
  - split; [apply parse_url_sound|apply parse_url_complete].
Qed.

Lemma endpoint_texts_exact_witness :
  parse_forward (bytes_of "tcp:8080:80") = Ok (mkLoopbackForward ForwardTcp 8080 80)
  /\ parse_url (bytes_of "http://localhost:3128/") = Ok (mkNetworkProxy 3128 (Some Http)).
Proof.
  destruct (endpoint_texts_exact (mkLoopbackForward ForwardTcp 8080 80) 0x0a000001 3128 (bytes_of "http://localhost:3128/")
              (mkNetworkProxy 3128 (Some Http))) as (_ & Hf & _ & _ & Hu); [by vm_compute..|]. split; [exact Hf|]. apply Hu.
  exists Http, (bytes_of "localhost"), (bytes_of "3128"), [SLASH]. split_and!; try done; [by right|by right|]. by repeat constructor.
Defined.
