(* ===== verification/CaptureClass.v ===== *)
(** * Capture classes (src/nvx-rs/src/host/template/key.rs)

    The invariant inputs of a template's capture, the checks of a class, its canonical encoding and
    identity, and the key of the template that a capture of a class makes of a manifest. *)

From stdpp Require Import sorting.
From S2P Require Import Prelude Export Cmdline Addresses Lowering AddressText NetworkArguments Machine Canonical TemplateKey Wire Manifest ManifestFacts.

Definition HOST_GENERATION : list byte := bytes_of "host".
Definition MOUNT_TAG : list byte := bytes_of "microvm".

(** ** Classes *)

Record CaptureClass := mkCaptureClass {
  c_runtime : RuntimeIdentity;
  c_guest_build : list byte;
  c_hypervisor : Hypervisor;
  c_cpu_profile : list byte;
  c_processors : Z;
  c_boot_processors : Z;
  c_memory : Z;
  c_memory_capacity : Z;
  c_distro : BlockGeometry;
  c_scratch : BlockGeometry;
  c_network : option SandboxNetwork;
  c_invariants : Settings;
}.

Inductive ClassError : Type :=
| ControlContract | CpuProfileInvalid | ProcessorsInvalid | RamInvalid
| DeviceInvalid (role : string) (problem : GeometryProblem) | NetworkInvalid (error : PolicyError).

Definition cpu_profile_problem (profile : list byte) : bool :=
  negb (bool_decide (profile = bytes_of "auto")) && negb (bool_decide (profile = bytes_of "host"))
  && negb (bool_decide (is_Some (parse_profile_id profile))).

Definition network_arguments (self : CaptureClass) : result PolicyError (list (list byte)) :=
  match c_network self with
  | None => Ok []
  | Some network => sandbox_template_arguments network
  end.

(** The loop over the two devices. *)
Fixpoint check_devices (devices : list (string * BlockGeometry)) : result ClassError unit :=
  match devices with
  | [] => Ok tt
  | (role, geometry) :: devices =>
      match geometry_problem geometry with
      | Some problem => Err (DeviceInvalid role problem)
      | None => check_devices devices
      end
  end.

Definition check_class (self : CaptureClass) : result ClassError unit :=
  if negb (runtime_check (c_runtime self)) then Err ControlContract
  else if cpu_profile_problem (c_cpu_profile self) then Err CpuProfileInvalid
  else if negb (is_processor_count (c_processors self)) || negb (is_processor_count (c_boot_processors self))
          || (c_processors self <? c_boot_processors self)
  then Err ProcessorsInvalid
  else if (c_memory self =? 0) || (c_memory_capacity self <? c_memory self) then Err RamInvalid
  else
    _ ← check_devices [("distro"%string, c_distro self); ("scratch"%string, c_scratch self)];
    _ ← map_err NetworkInvalid (network_arguments self);
    Ok tt.

Definition CLASS_VERSION : Z := 1.

Definition encode_class (self : CaptureClass) (contracts : Contracts) : result ClassError (list byte) :=
  _ ← check_class self;
  arguments ← map_err NetworkInvalid (network_arguments self);
  Ok (w_u16 CLASS_VERSION
      ++ write_runtime (c_runtime self)
      ++ w_text (c_guest_build self)
      ++ write_contracts contracts
      ++ w_text (hypervisor_as_str (c_hypervisor self))
      ++ w_text (c_cpu_profile self)
      ++ w_u32 (c_processors self)
      ++ w_u32 (c_boot_processors self)
      ++ w_u64 (c_memory self)
      ++ w_u64 (c_memory_capacity self)
      ++ write_geometry (c_distro self)
      ++ write_geometry (c_scratch self)
      ++ w_list w_text arguments
      ++ write_invariants (c_invariants self)).

Definition class_to_bytes (self : CaptureClass) : result ClassError (list byte) := encode_class self CURRENT.

Definition class_identity `{Digest} (self : CaptureClass) : result ClassError (list byte) :=
  bytes ← class_to_bytes self; Ok (digest CLASS_DOMAIN bytes).

(** ** The key of a capture *)

Inductive Mismatch : Type := Backend | CpuProfileOf | ProcessorsOf | RamOf | GeometryOf (role : string) | NetworkOf.
Inductive CaptureError : Type := UnsupportedClass (error : ClassError) | DoesNotMatch (what : Mismatch).

(** [Display] of the address, whose octets the machine keeps. *)
Definition guest_network_of (nic : Nic) : list byte :=
  display_ipv4 (from_le_bytes (rev (ipv4 nic))) ++ [SLASH] ++ dec (prefix_length nic).

(** The match on the class's request. *)
Definition profile_selected (requested : list byte) (cpu : CpuProfile) : bool :=
  if bool_decide (requested = bytes_of "auto") then true
  else if bool_decide (requested = bytes_of "host") then bool_decide (generation cpu = HOST_GENERATION)
  else bool_decide (profile_id cpu = requested).

Definition online_at_boot (machine : Machine) : Z :=
  if boot_processors machine =? 0 then processors machine else boot_processors machine.

(** The loop over the two geometries. *)
Fixpoint match_geometries (devices : list (string * BlockGeometry * BlockGeometry)) : result CaptureError unit :=
  match devices with
  | [] => Ok tt
  | (role, found, requested) :: devices =>
      if bool_decide (found = requested) then match_geometries devices else Err (DoesNotMatch (GeometryOf role))
  end.

(** The network of the class whose NIC the template attaches. *)
Definition requested_network (class : CaptureClass) (arguments : list (list byte)) : option (list byte) :=
  match c_network class with
  | Some network => if is_empty arguments then None else Some (sn_guest_network network)
  | None => None
  end.

Definition new_key (class : CaptureClass) (manifest : TemplateManifest) : result CaptureError TemplateKey :=
  _ ← map_err UnsupportedClass (check_class class);
  let machine := manifest_machine manifest in
  if negb (bool_decide (hypervisor machine = c_hypervisor class)) then Err (DoesNotMatch Backend)
  else if negb (profile_selected (c_cpu_profile class) (cpu machine)) then Err (DoesNotMatch CpuProfileOf)
  else if negb ((processors machine =? c_processors class) && (online_at_boot machine =? c_boot_processors class))
  then Err (DoesNotMatch ProcessorsOf)
  else if negb ((boot (memory machine) =? c_memory class) && (capacity (memory machine) =? c_memory_capacity class))
  then Err (DoesNotMatch RamOf)
  else
    _ ← match_geometries [("distro"%string, distro machine, c_distro class); ("scratch"%string, scratch machine, c_scratch class)];
    arguments ← map_err (fun error => UnsupportedClass (NetworkInvalid error)) (network_arguments class);
    if negb (bool_decide (guest_network_of <$> nic machine = requested_network class arguments)) then Err (DoesNotMatch NetworkOf)
    else Ok (mkTemplateKey (c_runtime class) (c_guest_build class) CURRENT machine MOUNT_TAG (c_invariants class)).

(** ** What a class requests *)

(** The network at which the template attaches a NIC. *)
Definition attached_network (class : CaptureClass) : option (list byte) :=
  match network_arguments class with
  | Ok arguments => requested_network class arguments
  | Err _ => None
  end.

(** What the Rust types of a class ensure, the constructors of its private types among them. *)
Definition class_data (c : CaptureClass) : Prop :=
  runtime_typed (c_runtime c) /\ token_ok (c_guest_build c) = true /\ is_utf8 (c_cpu_profile c) = true
  /\ is_u64 (c_memory c) /\ is_u64 (c_memory_capacity c) /\ geometry_typed (c_distro c) /\ geometry_typed (c_scratch c)
  /\ opt_all (fun n => is_utf8 (sn_guest_network n) = true /\ new_network (sn_guest_network n) (sn_policy n) = Ok n) (c_network c)
  /\ settings_typed (c_invariants c).

(** A machine's NIC is that of a guest network. *)
Definition nic_at (network : option (list byte)) (nic : option Nic) : Prop :=
  match network, nic with
  | None, None => True
  | Some text, Some nic => guest_address text = Some (from_le_bytes (rev (ipv4 nic)), prefix_mask (prefix_length nic))
  | _, _ => False
  end.

(** A machine is what a class requests. *)
Definition serves (class : CaptureClass) (machine : Machine) : Prop :=
  hypervisor machine = c_hypervisor class
  /\ (c_cpu_profile class = bytes_of "auto"
      \/ c_cpu_profile class = bytes_of "host" /\ generation (cpu machine) = bytes_of "host"
      \/ c_cpu_profile class <> bytes_of "host" /\ profile_id (cpu machine) = c_cpu_profile class)
  /\ processors machine = c_processors class
  /\ (boot_processors machine = c_boot_processors class
      \/ boot_processors machine = 0 /\ c_boot_processors class = c_processors class)
  /\ boot (memory machine) = c_memory class /\ capacity (memory machine) = c_memory_capacity class
  /\ distro machine = c_distro class /\ scratch machine = c_scratch class
  /\ nic_at (attached_network class) (nic machine).

(** ** Texts *)

Lemma network_text_inj a b p q :
  0 <= a < 2 ^ 32 -> 0 <= b < 2 ^ 32 -> 0 <= p <= U8_MAX -> 0 <= q <= U8_MAX ->
  display_ipv4 a ++ [SLASH] ++ dec p = display_ipv4 b ++ [SLASH] ++ dec q -> a = b /\ p = q.
Proof.
  intros Ha Hb Hp Hq He. unfold U8_MAX in *. apply (f_equal split_netmask) in He.
  rewrite (split_netmask_display (display_ipv4 a) p), (split_netmask_display (display_ipv4 b) q) in He;
    [|lia|apply display_ipv4_clean, list_elem_of_here|lia|apply display_ipv4_clean, list_elem_of_here].
  assert (display_ipv4 a = display_ipv4 b) as Hd by congruence. assert (dec p = dec q) as Hq' by congruence. split.
  - apply (f_equal parse_ipv4) in Hd. rewrite !parse_display_ipv4 in Hd by done. congruence.
  - apply (f_equal decimal_value) in Hq'. unfold dec in Hq'. rewrite !digits_decimal in Hq' by (cbn; lia). done.
Qed.

Lemma prefix_mask_inj p q : 1 <= p <= 30 -> 1 <= q <= 30 -> prefix_mask p = prefix_mask q -> p = q.
Proof.
  intros Hp Hq. assert (forallb (fun p => forallb (fun q => negb (prefix_mask p =? prefix_mask q) || (p =? q)) (seqZ 1 30)) (seqZ 1 30) = true) as H
    by (vm_compute; reflexivity).
  rewrite forallb_forall in H. specialize (H p). rewrite forallb_forall in H.
  specialize (H ltac:(apply list_elem_of_In, elem_of_seqZ; lia) q ltac:(apply list_elem_of_In, elem_of_seqZ; lia)).
  intros He. rewrite He, Z.eqb_refl in H. cbn [negb orb] in H. by apply Z.eqb_eq.
Qed.

Lemma guest_gateway_some text g : guest_gateway text = Some g -> exists host mask, guest_address text = Some (host, mask).
Proof. unfold guest_gateway. destruct (guest_address text) as [[h m]|]; [eauto|done]. Qed.

Lemma new_network_address gn policy n : new_network gn policy = Ok n -> exists host mask, guest_address gn = Some (host, mask).
Proof.
  unfold new_network. destruct (guest_gateway gn) as [g|] eqn:Hg; [|done]. intros _. by eapply guest_gateway_some.
Qed.

(** The text of a NIC is that of a guest network exactly when its numbers are. *)
Lemma network_of_exact text nic :
  (exists host mask, guest_address text = Some (host, mask)) -> nic_data nic -> nic_problem nic = None ->
  guest_network_of nic = text <-> guest_address text = Some (from_le_bytes (rev (ipv4 nic)), prefix_mask (prefix_length nic)).
Proof.
  intros (host & mask & Hg) (_ & _ & _ & Hl & _) Hp. pose proof Hg as (p & Hpr & Ht & Hm & Hh & _)%guest_address_text.
  assert (Hq : 1 <= prefix_length nic <= 30).
  { unfold nic_problem in Hp. destruct (existsb _ _); [done|]. destruct (_ || _) eqn:Hb; [done|]. bool_to_prop. lia. }
  assert (Ha : 0 <= from_le_bytes (rev (ipv4 nic)) < 2 ^ 32).
  { pose proof (from_le_bytes_range (rev (ipv4 nic))) as Hr. unfold is_bytes, len in *. rewrite length_rev, Hl in Hr. exact Hr. }
  unfold guest_network_of. split.
  - intros He. rewrite Ht in He. apply network_text_inj in He as [<- <-]; [|unfold U8_MAX; lia..]. by rewrite Hg, Hm.
  - intros He. rewrite He in Hg. assert (from_le_bytes (rev (ipv4 nic)) = host) as -> by congruence.
    assert (prefix_mask (prefix_length nic) = mask) as Hmask by congruence. rewrite Hm in Hmask.
    apply prefix_mask_inj in Hmask as ->; [done|lia..].
Qed.

(** ** The key of a capture *)

Lemma check_class_ok c :
  check_class c = Ok tt ->
  runtime_check (c_runtime c) = true /\ cpu_profile_problem (c_cpu_profile c) = false
  /\ is_processor_count (c_processors c) = true /\ is_processor_count (c_boot_processors c) = true
  /\ c_boot_processors c <= c_processors c /\ c_memory c <> 0 /\ c_memory c <= c_memory_capacity c
  /\ geometry_problem (c_distro c) = None /\ geometry_problem (c_scratch c) = None
  /\ exists arguments, network_arguments c = Ok arguments.
Proof.
  unfold check_class. destruct (runtime_check _); [|done]. cbn [negb]. destruct (cpu_profile_problem _); [done|].
  destruct (_ || _) eqn:Hp; [done|]. destruct (_ || _) eqn:Hm in |- *; [done|]. cbn [check_devices].
  destruct (geometry_problem (c_distro c)); [done|]. destruct (geometry_problem (c_scratch c)); [done|].
  cbn [mbind result_bind]. destruct (network_arguments c) as [args|]; [|done]. intros _. bool_to_prop.
  split_and!; try done; try lia; eauto.
Qed.

(** The texts that the NIC's check compares are equal exactly when the NIC is at the network. *)
Lemma nic_at_exact class nic :
  class_data class -> opt_all nic_data nic -> match nic with Some nic => nic_problem nic | None => None end = None ->
  guest_network_of <$> nic = attached_network class <-> nic_at (attached_network class) nic.
Proof.
  intros (_ & _ & _ & _ & _ & _ & _ & Hn & _) Hd Hp.
  assert (Ha : forall text, attached_network class = Some text -> exists host mask, guest_address text = Some (host, mask)).
  { unfold attached_network, requested_network. intros text. destruct (network_arguments class) as [args|]; [|done].
    destruct (c_network class) as [n|]; [|done]. destruct (is_empty args); [done|]. intros Ht.
    assert (sn_guest_network n = text) as <- by congruence. destruct Hn as [_ Hn]. by eapply new_network_address. }
  unfold nic_at. destruct (attached_network class) as [text|] eqn:Ht, nic as [nic|]; try (split; [discriminate|done]); [|done].
  cbn [fmap option_fmap option_map]. rewrite <- (network_of_exact text nic) by eauto. split; [intros Hs; congruence|by intros ->].
Qed.

Lemma profile_selected_spec requested cpu :
  profile_selected requested cpu = true <->
  requested = bytes_of "auto" \/ requested = bytes_of "host" /\ generation cpu = bytes_of "host"
  \/ requested <> bytes_of "host" /\ profile_id cpu = requested.
Proof.
  unfold profile_selected, HOST_GENERATION. destruct (bool_decide_reflect (requested = bytes_of "auto")); [tauto|].
  destruct (bool_decide_reflect (requested = bytes_of "host")); rewrite bool_decide_eq_true; tauto.
Qed.

Lemma online_at_boot_spec m class :
  processors m = c_processors class -> c_boot_processors class <> 0 ->
  online_at_boot m = c_boot_processors class <->
  boot_processors m = c_boot_processors class \/ boot_processors m = 0 /\ c_boot_processors class = c_processors class.
Proof. intros Hp Hz. unfold online_at_boot. destruct (Z.eqb_spec (boot_processors m) 0); lia. Qed.

(** The key of a mismatch: the code refuses it, and the class does not request it. *)
Ltac mismatch :=
  split; [done|]; let Hm := fresh "Hm" in intros (_ & Hm & _); exfalso; decompose [and] Hm; congruence.

Section Keys.
Context `{Digest}.

Lemma new_key_exact class manifest key :
  class_data class -> machine_sound (manifest_machine manifest) ->
  new_key class manifest = Ok key <->
  check_class class = Ok tt /\ serves class (manifest_machine manifest)
  /\ key = mkTemplateKey (c_runtime class) (c_guest_build class) CURRENT (manifest_machine manifest) MOUNT_TAG (c_invariants class).
Proof.
  intros Hc (_ & _ & Hnd & Hp & _). apply machine_problem_none in Hp as (_ & _ & _ & _ & _ & _ & _ & _ & _ & _ & _ & Hnp).
  pose proof (nic_at_exact class _ Hc Hnd Hnp) as Hat. unfold attached_network in Hat.
  unfold new_key, serves, attached_network. destruct (check_class class) as [[]|] eqn:Hck; [|split; [done|by intros [? _]]].
  apply check_class_ok in Hck as (_ & _ & _ & Hb & _ & _ & _ & _ & _ & args & Hargs). rewrite Hargs in *.
  rewrite <- profile_selected_spec. set (m := manifest_machine manifest) in *. cbn [map_err mbind result_bind match_geometries].
  destruct (bool_decide_reflect (hypervisor m = c_hypervisor class)); [|mismatch]. cbn [negb].
  destruct (profile_selected _ _); [|mismatch]. cbn [negb].
  destruct (Z.eqb_spec (processors m) (c_processors class)) as [Hpr|]; [|mismatch].
  rewrite <- online_at_boot_spec by (done || by intros E; rewrite E in Hb).
  destruct (Z.eqb_spec (online_at_boot m) (c_boot_processors class)); [|mismatch].
  destruct (Z.eqb_spec (boot (memory m)) (c_memory class)); [|mismatch].
  destruct (Z.eqb_spec (capacity (memory m)) (c_memory_capacity class)); [|mismatch]. cbn [negb andb].
  destruct (bool_decide_reflect (distro m = c_distro class)); [|mismatch].
  destruct (bool_decide_reflect (scratch m = c_scratch class)); [|mismatch].
  cbn [mbind result_bind]. rewrite <- Hat. case_bool_decide as Hne; cbn [negb]; [|mismatch].
  split; [intros <-%ok_inj; by split_and!|by intros (_ & _ & ->)].
Qed.

Lemma current_typed : contracts_typed CURRENT.
Proof. vm_compute. repeat split; discriminate. Qed.

Lemma new_key_valid class manifest key :
  class_data class -> machine_sound (manifest_machine manifest) -> new_key class manifest = Ok key -> key_valid key.
Proof.
  intros Hc Hm Hk. pose proof Hc as (? & ? & _ & _ & _ & _ & _ & _ & ?). pose proof Hm as (? & ? & ? & ? & ?).
  apply new_key_exact in Hk as (_ & _ & ->); [|done..]. unfold key_valid.
  cbn [runtime guest_build contracts machine filesystem_tag invariants]. split_and!; try done; try apply current_typed.
Qed.
End Keys.

(** ** The encoding of a class *)

Lemma codec_inj {A} (read : Reader A) write valid `{!Codec read write valid} a b r1 r2 :
  valid a -> valid b -> write a ++ r1 = write b ++ r2 -> a = b /\ r1 = r2.
Proof.
  intros Ha Hb He. pose proof (codec_read read write valid a r1 Ha) as H1. rewrite He, (codec_read read write valid b r2 Hb) in H1.
  apply ok_inj in H1. by injection H1.
Qed.

(** The request of a CPU profile is short, as every text that a class writes. *)
Lemma profile_bounded profile : cpu_profile_problem profile = false -> len profile <= MAX_TEXT_LEN.
Proof.
  unfold cpu_profile_problem. destruct (bool_decide_reflect (profile = bytes_of "auto")) as [->|]; [by intros _; vm_compute|].
  destruct (bool_decide_reflect (profile = bytes_of "host")) as [->|]; [by intros _; vm_compute|]. cbn [negb andb].
  case_bool_decide as Hp; [|done]. intros _. destruct Hp as [[[v g] r] Hp]. unfold parse_profile_id in Hp.
  rewrite <- (join_split_dot DOT profile). destruct (split_on (is_byte DOT) profile) as [|w1 [|w2 [|w3 words]]]; try done.
  destruct (strip_prefix (bytes_of "v") w3) as [digits|] eqn:Hs; [|done]. cbn [mbind option_bind] in Hp.
  destruct (_ || _) eqn:Hc in Hp; [done|]. apply strip_prefix_some in Hs as ->. fold (leading_zero digits) in Hc. bool_to_prop. subst words.
  unfold parse_u32 in Hp. destruct (Z.leb_spec (decimal_value digits) U32_MAX) as [Hv|]; [|done].
  assert (len digits <= 10).
  { pose proof (decimal_value_long digits) as Hlong. destruct (Z.le_gt_cases (len digits) 10); [done|].
    assert (10 ^ 10 <= 10 ^ (len digits - 1)) by (apply Z.pow_le_mono_r; lia). unfold U32_MAX in Hv.
    assert (10 ^ (len digits - 1) <= decimal_value digits); [|lia]. apply Hlong; try done. by apply forallb_digits. }
  unfold is_profile_word in *. bool_to_prop. cbn [join]. rewrite !len_app. change (len [DOT]) with 1. change (len (bytes_of "v")) with 1.
  unfold MAX_TEXT_LEN. lia.
Qed.

#[export] Instance w_text_nonempty : Nonempty w_text.
Proof. intros v. rewrite len_w_text. len_facts. lia. Qed.

Lemma guest_network_bounded text host mask : guest_address text = Some (host, mask) -> len text <= MAX_TEXT_LEN.
Proof.
  intros (p & Hp & -> & _ & Hh & _)%guest_address_text. unfold MAX_TEXT_LEN. rewrite !len_app. change (len [SLASH]) with 1.
  assert (len (dec p) <= 2) by (apply digits_len; lia).
  assert (len (display_ipv4 host) <= (3 + 1) * 4); [|lia]. unfold display_ipv4.
  apply join_len; [lia|]. apply Forall_fmap, Forall_forall. intros i _. unfold compose.
  apply digits_len; [lia..|]. pose proof (Z.mod_pos_bound (Z.shiftr host (24 - 8 * i)) (2 ^ 8)). lia.
Qed.

Definition arguments_typed : list (list byte) -> Prop := is_list 16 (is_text MAX_TEXT_LEN).

(** The arguments of a class are those of the network that it attaches. *)
Lemma arguments_of_attached c arguments :
  class_data c -> network_arguments c = Ok arguments ->
  arguments_typed arguments
  /\ arguments = match attached_network c with Some text => template_arguments text | None => [] end.
Proof.
  intros (_ & _ & _ & _ & _ & _ & _ & Hn & _) Ha. unfold attached_network, requested_network. rewrite Ha. unfold network_arguments in Ha.
  destruct (c_network c) as [n|]; [|apply ok_inj in Ha as <-; split; [by repeat constructor|done]].
  unfold sandbox_template_arguments in Ha. destruct (sandbox_arguments n) as [l|]; [|done]. cbn [mbind result_bind] in Ha. apply ok_inj in Ha as <-.
  destruct (is_empty l); [by split; [repeat constructor|]|]. split; [|done]. destruct Hn as [Hu Hn].
  apply new_network_address in Hn as (h & mk & Hn%guest_network_bounded). split; [by vm_compute|].
  unfold template_arguments, base_arguments. cbn [app]. repeat (apply Forall_cons_2; [first [split; [done|done]|split; [by vm_compute|by vm_compute]]|]). constructor.
Qed.

Lemma template_arguments_inj o1 o2 :
  match o1 with Some text => template_arguments text | None => [] end = match o2 with Some text => template_arguments text | None => [] end ->
  o1 = o2.
Proof. destruct o1, o2; try done. intros He. apply (f_equal (fun l => nth 1 l [])) in He. cbn in He. by rewrite He. Qed.

(** Two classes of one request: every field is the same, but of their networks only the NIC's. *)
Definition same_request (c1 c2 : CaptureClass) : Prop :=
  c_runtime c1 = c_runtime c2 /\ c_guest_build c1 = c_guest_build c2 /\ c_hypervisor c1 = c_hypervisor c2
  /\ c_cpu_profile c1 = c_cpu_profile c2 /\ c_processors c1 = c_processors c2 /\ c_boot_processors c1 = c_boot_processors c2
  /\ c_memory c1 = c_memory c2 /\ c_memory_capacity c1 = c_memory_capacity c2 /\ c_distro c1 = c_distro c2
  /\ c_scratch c1 = c_scratch c2 /\ attached_network c1 = attached_network c2 /\ c_invariants c1 = c_invariants c2.

Lemma processor_count_u32 n : is_processor_count n = true -> is_u32 n.
Proof. unfold is_processor_count, PROCESSOR_COUNTS. cbn [existsb]. intros Hn. bool_to_prop. word_lia. Qed.

Lemma class_to_bytes_ok c bytes :
  class_to_bytes c = Ok bytes -> check_class c = Ok tt /\ exists arguments, network_arguments c = Ok arguments.
Proof.
  unfold class_to_bytes, encode_class. destruct (check_class c) as [[]|]; [|done]. cbn [mbind result_bind].
  destruct (network_arguments c) as [a|]; [|done]. eauto.
Qed.

(** Cuts the first value off two equal encodings. *)
Ltac cut_value He r := apply (codec_inj r _ _ (Codec0 := ltac:(typeclasses eauto))) in He as [? He]; [|done..].

Lemma class_to_bytes_exact c1 c2 b1 b2 :
  class_data c1 -> class_data c2 -> class_to_bytes c1 = Ok b1 -> class_to_bytes c2 = Ok b2 ->
  b1 = b2 <-> same_request c1 c2.
Proof.
  intros Hd1 Hd2 H1 H2. pose proof H1 as [Hc1 [a1 Ha1]]%class_to_bytes_ok. pose proof H2 as [Hc2 [a2 Ha2]]%class_to_bytes_ok.
  unfold class_to_bytes, encode_class in H1, H2. rewrite Hc1, Ha1 in H1. rewrite Hc2, Ha2 in H2. cbn [map_err mbind result_bind] in H1, H2.
  apply ok_inj in H1 as <-. apply ok_inj in H2 as <-.
  apply arguments_of_attached in Ha1 as [Ht1 He1]; [|done]. apply arguments_of_attached in Ha2 as [Ht2 He2]; [|done].
  apply check_class_ok in Hc1 as (_ & Hp1 & ?%processor_count_u32 & ?%processor_count_u32 & _).
  apply check_class_ok in Hc2 as (_ & Hp2 & ?%processor_count_u32 & ?%processor_count_u32 & _).
  apply profile_bounded in Hp1, Hp2. destruct Hd1 as (? & Hg1 & ? & ? & ? & ? & ? & _ & ?). destruct Hd2 as (? & Hg2 & ? & ? & ? & ? & ? & _ & ?).
  split.
  - intros He. apply app_inv_head in He. cut_value He read_runtime. cut_value He (read_artifact ""). apply app_inv_head in He.
    apply (codec_inj read_hypervisor (fun h => w_text (hypervisor_as_str h)) (fun _ => True)) in He as [? He]; [|done..].
    cut_value He (r_text MAX_TEXT_LEN ""). cut_value He (r_u32 ""). cut_value He (r_u32 ""). cut_value He (r_u64 ""). cut_value He (r_u64 "").
    cut_value He (read_geometry ""). cut_value He (read_geometry ""). cut_value He (r_list 16 "" (r_text MAX_TEXT_LEN "")).
    rewrite <- (app_nil_r (write_invariants _)), <- (app_nil_r (write_invariants (c_invariants c2))) in He. cut_value He read_invariants.
    assert (attached_network c1 = attached_network c2) by (apply template_arguments_inj; congruence). by split_and!.
  - intros (-> & -> & -> & -> & -> & -> & -> & -> & -> & -> & Hn & ->). by rewrite He1, He2, Hn.
Qed.

Definition sample_network : SandboxNetwork :=
  mkSandboxNetwork (bytes_of "10.0.0.2/24") 0x0a000001 (new_policy NetworkArguments.Allow).

Definition sample_class : CaptureClass :=
  mkCaptureClass (runtime sample_key) (bytes_of "agent:1") Kvm (bytes_of "amd.genoa.v1") 2 1 134217728 268435456
    (mkBlockGeometry 1048576 512 4096) (mkBlockGeometry 65536 512 512) (Some sample_network) (invariants sample_key).

Lemma sample_class_data : class_data sample_class.
Proof. sample_fact. Qed.

Lemma both_ok {E A F B} (r : result E A) (f : A -> result F B) :
  match r with Ok a => is_ok (f a) | Err _ => false end = true -> exists a b, r = Ok a /\ f a = Ok b.
Proof. destruct r as [a|]; [|done]. destruct (f a) as [b|] eqn:Hb; [|done]. intros _. by exists a, b. Qed.

Lemma sample_capture :
  match @parse first_bytes sample_manifest with Ok manifest => is_ok (new_key sample_class manifest) | Err _ => false end = true.
Proof. vm_compute. reflexivity. Qed.

(** C20: From a capture's manifest to its template's key, whatever bytes the manifest file holds: the
    reading of a manifest meets no unreachable field; the key of a class exists exactly when the class
    passes its checks and the manifest's machine is what the class requests, its NIC at the class's
    network number for number; and the key then holds that machine, and is read back from its own
    encoding, so that no capture makes a template whose key the store cannot read. *)
Theorem captured_key_exact `{Digest} (class : CaptureClass) (data : list byte) :
  class_data class ->
  parse data <> Err (Malformed Unreachable)
  /\ forall manifest, parse data = Ok manifest ->
     ((exists key, new_key class manifest = Ok key) <-> check_class class = Ok tt /\ serves class (manifest_machine manifest))
     /\ forall key, new_key class manifest = Ok key ->
        machine key = manifest_machine manifest /\ from_bytes (to_bytes key) = Ok key.
Proof.
  intros Hc. split; [apply parse_reached|]. intros manifest Hm%parse_sound. split.
  - split; [intros [key Hk]|intros [Hk Hs]; eexists]; [|by apply new_key_exact].
    apply new_key_exact in Hk as (? & ? & _); done.
  - intros key Hk. split; [by apply new_key_exact in Hk as (_ & _ & ->)|].
    apply from_bytes_exact. split; [|done]. apply key_valid_typed. by eapply new_key_valid.
Qed.

Lemma captured_key_exact_witness :
  exists manifest key, @parse first_bytes sample_manifest = Ok manifest /\ new_key sample_class manifest = Ok key
    /\ machine key = manifest_machine manifest /\ @from_bytes first_bytes (to_bytes key) = Ok key.
Proof.
  destruct (both_ok (@parse first_bytes sample_manifest) (new_key sample_class) sample_capture) as (manifest & key & Hm & Hk). exists manifest, key. split; [exact Hm|]. split; [exact Hk|].
  exact (proj2 (proj2 (@captured_key_exact first_bytes sample_class sample_manifest sample_class_data) manifest Hm) key Hk).
Defined.

(** The identity of a capture class names what the class requests: two classes that pass their
    checks have one identity when they agree on every field, and of their networks on the NIC alone,
    whatever the policies; and classes of one identity agree so, unless SHA-256 has a collision. *)
Theorem class_identity_exact `{Digest} (c1 c2 : CaptureClass) (i1 i2 : list byte) :
  class_data c1 -> class_data c2 -> class_identity c1 = Ok i1 -> class_identity c2 = Ok i2 ->
  (same_request c1 c2 -> i1 = i2) /\ (i1 = i2 -> same_request c1 c2 \/ collision).
Proof.
  unfold class_identity. intros Hd1 Hd2 H1 H2. destruct (class_to_bytes c1) as [b1|] eqn:Hb1; [|done].
  destruct (class_to_bytes c2) as [b2|] eqn:Hb2; [|done]. cbn [mbind result_bind] in H1, H2. apply ok_inj in H1 as <-. apply ok_inj in H2 as <-.
  rewrite <- (class_to_bytes_exact c1 c2 b1 b2) by done. split; [by intros ->|]. intros He.
  destruct (decide (b1 = b2)) as [|Hne]; [by left|right]. exists (CLASS_DOMAIN ++ b1), (CLASS_DOMAIN ++ b2). split; [|done].
  by intros ?%app_inv_head.
Qed.

(** The sample class under a policy that also takes connections from the host. *)
Definition other_class : CaptureClass :=
  mkCaptureClass (runtime sample_key) (bytes_of "agent:1") Kvm (bytes_of "amd.genoa.v1") 2 1 134217728 268435456
    (mkBlockGeometry 1048576 512 4096) (mkBlockGeometry 65536 512 512)
    (Some (mkSandboxNetwork (bytes_of "10.0.0.2/24") 0x0a000001
             (mkNetworkPolicy NetworkArguments.Allow [] [] NetworkArguments.Allow LoopbackAllow [] None)))
    (invariants sample_key).

Lemma class_identity_exact_witness : @class_identity first_bytes sample_class = @class_identity first_bytes other_class.
Proof.
  destruct (@class_identity first_bytes sample_class) as [i1|] eqn:H1; [|vm_compute in H1; discriminate].
  destruct (@class_identity first_bytes other_class) as [i2|] eqn:H2; [|vm_compute in H2; discriminate].
  assert (class_data other_class) as Hd by sample_fact.
  f_equal. apply (@class_identity_exact first_bytes sample_class other_class i1 i2 sample_class_data Hd H1 H2). by vm_compute.
Defined.
