(* ===== verification/Eligibility.v ===== *)
(** * The restore window of a capture (src/nvx-rs/src/host/template/eligibility.rs)

    The sample of a host's time, and whether a clone may restore a capture at it, by the time
    contract that the capture's manifest declares. *)

From S2P Require Import Prelude Machine Canonical TemplateKey Wire Manifest ManifestFacts.

Definition MAX_DOWNTIME_NS : Z := 30 * 24 * 60 * 60 * 1000000000.

Record HostTime := mkHostTime {
  h_host_id : list byte;
  h_boot_id : list byte;
  h_clock : HostClock;
  monotonic_ns : Z;
  utc_ns : Z;
}.

(** ** The sample of a host's time *)

(** What the host's platform returns to each reading, in the order of the readings. *)
Record Platform := mkPlatform {
  recorded_clock : option HostClock;
  read_host_id : option (list byte);
  read_boot_id : option (list byte);
  read_before : option Z;
  since_epoch : option Z;
  read_after : option Z;
}.

Inductive SampleError : Type :=
| NoClock | HostIdentity | BootIdentity | MonotonicClock | UtcRange | WentBackwards.

(** [checked_sub]. *)
Definition checked_sub (a b : Z) : option Z := if b <=? a then Some (a - b) else None.

(** [u64::try_from] of a wider integer. *)
Definition to_u64 (z : Z) : option Z := if (0 <=? z) && (z <=? U64_MAX) then Some z else None.

Definition now (platform : Platform) : result SampleError HostTime :=
  clock ← ok_or (recorded_clock platform) NoClock;
  host_id ← ok_or (read_host_id platform) HostIdentity;
  boot_id ← ok_or (read_boot_id platform) BootIdentity;
  before ← ok_or (read_before platform) MonotonicClock;
  utc_ns ← ok_or (since ← since_epoch platform; to_u64 since) UtcRange;
  after ← ok_or (read_after platform) MonotonicClock;
  match checked_sub after before with
  | None => Err WentBackwards
  | Some elapsed => Ok (mkHostTime host_id boot_id clock (before + elapsed / 2) utc_ns)
  end.

(** ** The window *)

Inductive DowntimeSource : Type := HostMonotonic | Utc.

#[export] Instance HostClock_eq_dec : EqDecision HostClock.
Proof. solve_decision. Defined.

Record Downtime := mkDowntime { nanos : Z; vm_time_nanos : Z; source : DowntimeSource }.

Inductive Eligibility : Type :=
| Eligible (downtime : Downtime)
| Early (source : DowntimeSource) (before_ns : Z)
| Expired (downtime : Downtime).

Definition is_eligible (self : Eligibility) : bool := match self with Eligible _ => true | _ => false end.

(** [u64::saturating_add]. *)
Definition saturating_add (a b : Z) : Z := Z.min U64_MAX (a + b).

Definition same_boot (self : TimeContract) (now : HostTime) : bool :=
  bool_decide (host_id self = h_host_id now) && bool_decide (boot_id self = h_boot_id now)
  && bool_decide (host_clock self = h_clock now).

(** The source of the downtime, and the downtime as an [i128]. *)
Definition measure (self : TimeContract) (now : HostTime) : DowntimeSource * Z :=
  if same_boot self now then (HostMonotonic, monotonic_ns now - capture_monotonic_ns self)
  else (Utc, utc_ns now - capture_utc_ns self).

Definition eligibility (self : TimeContract) (now : HostTime) : Eligibility :=
  let '(source, measured) := measure self now in
  match to_u64 measured with
  | None => Early source (default U64_MAX (to_u64 (Z.abs measured)))
  | Some nanos =>
      let vm_time_nanos := saturating_add nanos (default 0 (cut_to_anchor_ns self)) in
      let downtime := mkDowntime nanos vm_time_nanos source in
      if vm_time_nanos <=? MAX_DOWNTIME_NS then Eligible downtime else Expired downtime
  end.

(** ** What the window is *)

(** The reading of the host's time that a restore takes, and the anchor that it takes it from. *)
Definition reading (self : TimeContract) (now : HostTime) : Z := if same_boot self now then monotonic_ns now else utc_ns now.
Definition anchor (self : TimeContract) (now : HostTime) : Z := if same_boot self now then capture_monotonic_ns self else capture_utc_ns self.
Definition cut (self : TimeContract) : Z := default 0 (cut_to_anchor_ns self).

Definition host_time_typed (now : HostTime) : Prop := is_u64 (monotonic_ns now) /\ is_u64 (utc_ns now).

(** What a platform reads of a clock is a [u64] of nanoseconds; the time since the epoch may be wider. *)
Definition platform_typed (p : Platform) : Prop :=
  opt_all is_u64 (read_before p) /\ opt_all is_u64 (read_after p) /\ opt_all (fun ns => 0 <= ns) (since_epoch p).

Lemma to_u64_spec z : to_u64 z = if decide (is_u64 z) then Some z else None.
Proof.
  unfold to_u64. destruct (decide (is_u64 z)) as [Hz|Hz]; destruct (Z.leb_spec 0 z), (Z.leb_spec z U64_MAX); cbn [andb]; try done;
    unfold is_u64, U64_MAX in *; lia.
Qed.

Lemma now_ok platform host :
  platform_typed platform -> now platform = Ok host ->
  host_time_typed host
  /\ exists before after, read_before platform = Some before /\ read_after platform = Some after
     /\ before <= monotonic_ns host <= after.
Proof.
  intros (Hb & Ha & _). unfold now. destruct (recorded_clock _); [|done]. cbn [ok_or mbind result_bind].
  destruct (read_host_id _); [|done]. cbn [ok_or mbind result_bind]. destruct (read_boot_id _); [|done]. cbn [ok_or mbind result_bind].
  destruct (read_before platform) as [b|]; [|done]. cbn [ok_or mbind result_bind].
  destruct (since_epoch platform) as [s|]; [|done]. cbn [mbind option_bind]. rewrite to_u64_spec. destruct (decide (is_u64 s)); [|done].
  cbn [ok_or mbind result_bind]. destruct (read_after platform) as [a|]; [|done]. cbn [ok_or mbind result_bind].
  unfold checked_sub. destruct (Z.leb_spec b a); [|done]. intros <-%ok_inj. cbn in Hb, Ha. unfold host_time_typed. cbn [monotonic_ns utc_ns].
  assert (b <= b + (a - b) / 2 <= a) by (Z.to_euclidean_division_equations; lia). split; [|by exists b, a].
  split; [unfold is_u64 in *; lia|done].
Qed.

Lemma measure_spec t host : measure t host = (if same_boot t host then HostMonotonic else Utc, reading t host - anchor t host).
Proof. unfold measure, reading, anchor. by destruct (same_boot t host). Qed.

Lemma anchor_typed t host : time_sound t -> is_u64 (anchor t host) /\ opt_all is_u64 (cut_to_anchor_ns t).
Proof. intros (_ & _ & _ & _ & _ & ? & ? & ?). unfold anchor. by destruct (same_boot t host). Qed.

Lemma reading_typed t host : host_time_typed host -> is_u64 (reading t host).
Proof. intros [? ?]. unfold reading. by destruct (same_boot t host). Qed.

(** The decision, with neither a wrapping nor a saturated value in it. *)
Lemma eligibility_spec t host :
  time_sound t -> host_time_typed host ->
  let source := if same_boot t host then HostMonotonic else Utc in
  let downtime := reading t host - anchor t host in
  eligibility t host =
    (if downtime <? 0 then Early source (- downtime)
     else if downtime + cut t <=? MAX_DOWNTIME_NS then Eligible (mkDowntime downtime (downtime + cut t) source)
     else Expired (mkDowntime downtime (Z.min U64_MAX (downtime + cut t)) source)).
Proof.
  intros Ht Hh. apply (anchor_typed t host) in Ht as [Ha Hc]. apply (reading_typed t) in Hh as Hr. cbn zeta.
  unfold eligibility. rewrite measure_spec, !to_u64_spec. fold (cut t).
  assert (0 <= cut t) by (unfold cut; destruct (cut_to_anchor_ns t); [apply Hc|done]).
  set (d := reading t host - anchor t host). assert (- U64_MAX <= d <= U64_MAX) by (unfold is_u64, U64_MAX in *; lia).
  destruct (Z.ltb_spec d 0).
  - rewrite decide_False by (unfold is_u64; lia). rewrite decide_True by (unfold is_u64, U64_MAX in *; lia). cbn [default from_option id].
    by rewrite Z.abs_neq by lia.
  - rewrite decide_True by (unfold is_u64, U64_MAX in *; lia). unfold saturating_add.
    assert (MAX_DOWNTIME_NS < U64_MAX) by done.
    destruct (Z.leb_spec (d + cut t) MAX_DOWNTIME_NS).
    + rewrite Z.min_r by lia. by destruct (Z.leb_spec (d + cut t) MAX_DOWNTIME_NS); [|lia].
    + by destruct (Z.leb_spec (Z.min U64_MAX (d + cut t)) MAX_DOWNTIME_NS); [lia|].
Qed.

(** C26: The restore window of a template is one interval of one clock: at the time that a host samples,
    between its two readings of the monotonic clock, a clone may restore a capture exactly from the
    anchor of its manifest's time contract until thirty days of VM time after the cut, by the
    monotonic clock on the capture's boot and by UTC elsewhere; no value wraps or is cut short, so
    that a restore advances the clone by the exact interval; and on the capture's boot no change of
    the host's UTC decides. *)
Theorem restore_window_exact `{Digest} (data : list byte) (manifest : TemplateManifest) (platform : Platform) (host : HostTime) :
  parse data = Ok manifest -> platform_typed platform -> now platform = Ok host ->
  let t := manifest_time manifest in
  (is_eligible (eligibility t host) = true <-> anchor t host <= reading t host <= anchor t host + (MAX_DOWNTIME_NS - cut t))
  /\ (forall downtime, eligibility t host = Eligible downtime ->
      nanos downtime = reading t host - anchor t host /\ vm_time_nanos downtime = nanos downtime + cut t)
  /\ (forall source before_ns, eligibility t host = Early source before_ns -> reading t host + before_ns = anchor t host)
  /\ (same_boot t host = true -> forall utc,
      eligibility t (mkHostTime (h_host_id host) (h_boot_id host) (h_clock host) (monotonic_ns host) utc) = eligibility t host).
Proof.
  intros [_ Ht]%parse_contract Hp Hn. pose proof (now_ok _ _ Hp Hn) as [Hh _]. cbn zeta. rewrite (eligibility_spec _ _ Ht Hh). split_and!.
  - destruct (Z.ltb_spec (reading (manifest_time manifest) host - anchor (manifest_time manifest) host) 0); [cbn; split; [done|lia]|].
    destruct (Z.leb_spec (reading (manifest_time manifest) host - anchor (manifest_time manifest) host + cut (manifest_time manifest)) MAX_DOWNTIME_NS);
      cbn; split; (done || lia).
  - intros d. destruct (_ <? 0); [done|]. destruct (_ <=? _); [|done]. intros Hd. assert (d = _) as -> by (symmetry; injection Hd; exact id). done.
  - intros s b. destruct (_ <? 0); [|by destruct (_ <=? _)]. intros [= _ <-]. lia.
  - intros Hs utc. rewrite <- (eligibility_spec _ _ Ht Hh). unfold eligibility, measure, same_boot in *. cbn. by rewrite Hs.
Qed.

Definition sample_platform : Platform :=
  mkPlatform (Some LinuxBoottime) (Some (replicate 16 (byte_of 1))) (Some (replicate 16 (byte_of 2))) (Some 1000) (Some 1700000000000000000) (Some 3000).

Definition sample_time : TimeContract :=
  mkTimeContract 2450000000 250 1000000000 0 0 0 LinuxBoottime (replicate 16 (byte_of 1)) (replicate 16 (byte_of 2)) 0 (Some 7).

Definition sample_host : HostTime :=
  mkHostTime (replicate 16 (byte_of 1)) (replicate 16 (byte_of 2)) LinuxBoottime 2000 1700000000000000000.

Lemma sample_now : now sample_platform = Ok sample_host.
Proof. reflexivity. Qed.

Lemma sample_platform_typed : platform_typed sample_platform.
Proof. split_and!; by vm_compute. Qed.

Lemma ok_view {E A B} (r : result E A) (f : A -> B) b :
  match r with Ok a => Some (f a) | Err _ => None end = Some b -> exists a, r = Ok a /\ f a = b.
Proof. destruct r as [a|]; [|done]. intros [= <-]. by exists a. Qed.

Lemma sample_manifest_time :
  match @parse first_bytes sample_manifest with Ok manifest => Some (manifest_time manifest) | Err _ => None end = Some sample_time.
Proof. vm_compute. reflexivity. Qed.

Lemma restore_window_exact_witness :
  exists manifest host, @parse first_bytes sample_manifest = Ok manifest /\ now sample_platform = Ok host /\ monotonic_ns host = 2000
    /\ is_eligible (eligibility (manifest_time manifest) host) = true.
Proof.
  destruct (ok_view (@parse first_bytes sample_manifest) manifest_time sample_time sample_manifest_time) as (manifest & Hm & Ht).
  exists manifest, sample_host. split; [exact Hm|]. split; [exact sample_now|]. split; [reflexivity|].
  destruct (@restore_window_exact first_bytes sample_manifest manifest sample_platform sample_host Hm sample_platform_typed sample_now) as [[_ Hw] _].
  apply Hw. rewrite Ht. split; by vm_compute.
Defined.
