(* ===== verification/RestorePacket.v ===== *)
(** * The restore packet and the host time sample (src/nvx-rs/src/guest/time/decoders.rs, api.rs)

    The records that a restored guest reads from its host: the packet of the restore, and a sample of
    host UTC, each with every check of its decoder, and the reading of a packet from its port. *)

From S2P Require Import Prelude Addresses Canonical Machine Manifest ManifestFacts Eligibility.

Definition PACKET_HEADER_SIZE : Z := 24.
Definition PACKET_RANGE_SIZE : Z := 16.
Definition PACKET_ENTROPY_SIZE : Z := 64.
Definition PACKET_DNS_SIZE : Z := 16.
Definition GENERATION_ID_SIZE : Z := 16.
Definition SAMPLE_SIZE : Z := 48.
Definition PACKET_MAGIC : list byte := bytes_of "OVR".
Definition PACKET_VERSION : Z := RESTORE_PACKET_VERSION.
Definition PACKET_DNS_MASK : Z := 0x03.
Definition PACKET_DNS_IPV4 : Z := 0x01.
Definition PACKET_DNS_IPV6 : Z := 0x02.
Definition PACKET_ANNOUNCE_LISTENERS : Z := 0x04.
Definition PACKET_NETWORK_KNOWN : Z := Z.lor PACKET_DNS_MASK PACKET_ANNOUNCE_LISTENERS.
Definition PACKET_DOWNTIME_UTC : Z := 0x01.
Definition PACKET_MEMORY_TARGET : Z := 0x02.
Definition PACKET_ACK_REQUIRED : Z := 0x04.
Definition PACKET_NETWORK : Z := 0x10.
Definition PACKET_KNOWN_FLAGS : Z := 0x1f.
Definition PACKET_ONLINE_VP_COUNTS : list Z := [0; 1; 2; 4; 8].
Definition SAMPLE_VERSION : Z := 1.
Definition SAMPLE_TEST_HOOKS : Z := 0x08.
Definition SAMPLE_UNKNOWN : Z := U32_MAX.
Definition RATE_DEVIATION_LIMIT : Z := 16384000.
Definition DOWNTIME_LIMIT_NS : Z := 30 * (24 * 60 * 60) * 1000000000.

(** ** Fields *)

(** A reader of fields threads the bytes that it has not read. *)
Definition Fields (E A : Type) : Type := list byte -> result E (A * list byte).

#[export] Instance fields_bind E : MBind (Fields E) := fun A B f r bytes =>
  match r bytes with Ok (value, rest) => f value rest | Err e => Err e end.
#[export] Instance fields_ret E : MRet (Fields E) := fun A a bytes => Ok (a, bytes).

Definition chunk {E} (incomplete : E) (n : Z) : Fields E (list byte) := fun rest =>
  if len rest <? n then Err incomplete else Ok (ztake n rest, zdrop n rest).

Definition fail {E A} (error : E) : Fields E A := fun _ => Err error.

Definition f_u32 {E} (incomplete : E) : Fields E Z := field ← chunk incomplete 4; mret (from_le_bytes field).
Definition f_i32 {E} (incomplete : E) : Fields E Z := field ← chunk incomplete 4; mret (to_signed 32 (from_le_bytes field)).
Definition f_u64 {E} (incomplete : E) : Fields E Z := field ← chunk incomplete 8; mret (from_le_bytes field).
Definition f_i64 {E} (incomplete : E) : Fields E Z := field ← chunk incomplete 8; mret (to_signed 64 (from_le_bytes field)).

(** One byte of a chunk, as its number. *)
Definition f_u8 {E} (incomplete : E) : Fields E Z := field ← chunk incomplete 1; mret (from_le_bytes field).

(** ** The header *)

Inductive PacketError : Type :=
| IncompleteHeader
| Magic (magic : list byte)
| Version (version : Z)
| ReservedFlags (flags : Z)
| OnlineVpCount (count : Z)
| RangesWithoutTarget (count : Z)
| ReservedByte (byte : Z)
| NetworkByte (byte : Z)
| ZeroGeneration
| RateDeviation (deviation : Z)
| PacketDowntime (downtime : Z)
| IncompleteBody
| RangeAt (index : Z)
| DnsServer.

Record PacketHeader := mkPacketHeader {
  flags : Z;
  online_vp_count : Z;
  range_count : Z;
  ph_network : option Z;
  generation : Z;
  rate_deviation : Z;
  downtime_ns : Z;
}.

Definition has_flag (flags flag : Z) : bool := negb (Z.land flags flag =? 0).

Definition downtime_from_utc (self : PacketHeader) : bool := has_flag (flags self) PACKET_DOWNTIME_UTC.
Definition memory_target (self : PacketHeader) : bool := has_flag (flags self) PACKET_MEMORY_TARGET.
Definition acknowledgement_required (self : PacketHeader) : bool := has_flag (flags self) PACKET_ACK_REQUIRED.
Definition network_repair (self : PacketHeader) : bool :=
  match ph_network self with Some network => negb (network =? 0) | None => false end.
Definition body_size (self : PacketHeader) : Z := range_count self * PACKET_RANGE_SIZE + PACKET_ENTROPY_SIZE + PACKET_DNS_SIZE.

(** The reads, which come before every check: the magic, the version, the network byte, and the header. *)
Definition read_header : Fields PacketError (list byte * Z * Z * PacketHeader) :=
  magic ← chunk IncompleteHeader 3;
  version ← f_u8 IncompleteHeader;
  flags ← f_u8 IncompleteHeader;
  online_vp_count ← f_u8 IncompleteHeader;
  range_count ← f_u8 IncompleteHeader;
  network ← f_u8 IncompleteHeader;
  generation ← f_u32 IncompleteHeader;
  rate_deviation ← f_i32 IncompleteHeader;
  downtime_ns ← f_u64 IncompleteHeader;
  mret (magic, version, network,
        mkPacketHeader flags online_vp_count range_count (if has_flag flags PACKET_NETWORK then Some network else None)
          generation rate_deviation downtime_ns).

(** [!mask] of a byte. *)
Definition not_u8 (mask : Z) : Z := Z.lxor mask U8_MAX.

Definition check_network_byte (self : PacketHeader) (network : Z) : result PacketError unit :=
  match ph_network self with
  | None => if negb (network =? 0) then Err (ReservedByte network) else Ok tt
  | Some network =>
      if has_flag network (not_u8 PACKET_NETWORK_KNOWN) || (Z.land network PACKET_DNS_MASK =? PACKET_DNS_MASK)
      then Err (NetworkByte network) else Ok tt
  end.

Definition check_header (magic : list byte) (version network : Z) (header : PacketHeader) : result PacketError PacketHeader :=
  if negb (bool_decide (magic = PACKET_MAGIC)) then Err (Magic magic)
  else if negb (version =? PACKET_VERSION) then Err (Version version)
  else if has_flag (flags header) (not_u8 PACKET_KNOWN_FLAGS) then Err (ReservedFlags (flags header))
  else if negb (existsb (Z.eqb (online_vp_count header)) PACKET_ONLINE_VP_COUNTS) then Err (OnlineVpCount (online_vp_count header))
  else if negb (memory_target header) && negb (range_count header =? 0) then Err (RangesWithoutTarget (range_count header))
  else
    _ ← check_network_byte header network;
    if generation header =? 0 then Err ZeroGeneration
    else if negb ((- RATE_DEVIATION_LIMIT <=? rate_deviation header) && (rate_deviation header <=? RATE_DEVIATION_LIMIT))
    then Err (RateDeviation (rate_deviation header))
    else if DOWNTIME_LIMIT_NS <? downtime_ns header then Err (PacketDowntime (downtime_ns header))
    else Ok header.

Definition parse_header (bytes : list byte) : result PacketError PacketHeader :=
  '((magic, version, network, header), _) ← read_header bytes;
  check_header magic version network header.

(** ** The body *)

(** An IP address, with its octets. *)
Definition IpAddr : Type := Family * list byte.

Record RestoreNetwork := mkRestoreNetwork { rn_dns_server : option IpAddr; announce_listeners : bool }.

Record RestorePacket := mkRestorePacket {
  header : PacketHeader;
  ranges : list (Z * Z);
  entropy : list byte;
  rp_network : option RestoreNetwork;
}.

Definition zeros (n : Z) : list byte := replicate (Z.to_nat n) (byte_of 0).

Definition is_unspecified (octets : list byte) : bool := forallb (fun b => byte_val b =? 0) octets.

Definition parse_dns_server (network : Z) (address : list byte) : result PacketError (option IpAddr) :=
  let family := Z.land network PACKET_DNS_MASK in
  server ← (if family =? PACKET_DNS_IPV4 then
              if is_unspecified (zdrop 4 address) then Ok (Some (V4, ztake 4 address)) else Err DnsServer
            else if family =? PACKET_DNS_IPV6 then Ok (Some (V6, address))
            else if bool_decide (address = zeros PACKET_DNS_SIZE) then Ok None
            else Err DnsServer);
  if match server with Some (_, octets) => is_unspecified octets | None => false end then Err DnsServer else Ok server.

(** The memory ranges from [index], [count] of them. *)
Fixpoint read_ranges (count : nat) (index : Z) : Fields PacketError (list (Z * Z)) :=
  match count with
  | O => mret []
  | S count =>
      start ← f_u64 IncompleteBody;
      length ← f_u64 IncompleteBody;
      if (length =? 0) || negb (bool_decide (is_Some (checked_add U64_MAX start length))) then fail (RangeAt index)
      else ranges ← read_ranges count (index + 1); mret ((start, length) :: ranges)
  end.

Definition packet_network (header : PacketHeader) (dns_server : list byte) : result PacketError (option RestoreNetwork) :=
  match ph_network header with
  | Some network =>
      server ← parse_dns_server network dns_server;
      Ok (Some (mkRestoreNetwork server (has_flag network PACKET_ANNOUNCE_LISTENERS)))
  | None => if bool_decide (dns_server = zeros PACKET_DNS_SIZE) then Ok None else Err DnsServer
  end.

Definition parse_packet (header : PacketHeader) (body : list byte) : result PacketError RestorePacket :=
  '((ranges, entropy, dns_server), _) ←
    (ranges ← read_ranges (Z.to_nat (range_count header)) 0;
     entropy ← chunk IncompleteBody PACKET_ENTROPY_SIZE;
     dns_server ← chunk IncompleteBody PACKET_DNS_SIZE;
     mret (ranges, entropy, dns_server)) body;
  network ← packet_network header dns_server;
  Ok (mkRestorePacket header ranges entropy network).

Definition generation_id (self : RestorePacket) : list byte := ztake GENERATION_ID_SIZE (entropy self).

(** ** The reading from the port *)

Inductive PacketRead (S : Type) : Type :=
| InvalidHeader (error : PacketError)
| Stale
| Generation (generation : Z)
| Packet (packet : result PacketError (RestorePacket * S)).
Arguments InvalidHeader {S} error.
Arguments Stale {S}.
Arguments Generation {S} generation.
Arguments Packet {S} packet.

(** [port] holds the bytes that the data port gives, from the selection of the packet on, and
    [sample] what the selection of a time sample gives for a generation. *)
Definition read_packet {S} (port : list byte) (sample : Z -> S) (recorded : Z) : PacketRead S :=
  match parse_header (ztake PACKET_HEADER_SIZE port) with
  | Err error => InvalidHeader error
  | Ok header =>
      if generation header =? recorded then Stale
      else if negb (generation header =? recorded + 1) then Generation (generation header)
      else
        let body := ztake (body_size header) (zdrop PACKET_HEADER_SIZE port) in
        Packet (packet ← parse_packet header body; Ok (packet, sample (generation header)))
  end.

(** ** The time sample *)

Inductive HostClockStatus : Type := Unknown | Synchronized | FreeRunning | Unreliable.

Definition status_from_byte (byte : Z) : option HostClockStatus :=
  match byte with 0 => Some Unknown | 1 => Some Synchronized | 2 => Some FreeRunning | 3 => Some Unreliable | _ => None end.

Inductive TimeSampleError : Type :=
| Incomplete
| SampleVersion (version : Z)
| SampleFlags (flags reserved : Z)
| SampleStatus (status : Z)
| SampleUtc (utc : Z)
| SampleTsc (tsc before after : Z).

Record HostUtc := mkHostUtc {
  status : HostClockStatus;
  disruption : Z;
  correction : Z;
  correction_bound : option Z;
  max_error_us : option Z;
}.

Definition error_us (self : HostUtc) : Z :=
  match status self, max_error_us self with Synchronized, Some error => error | _, _ => 0 end.

Record TimeSample := mkTimeSample {
  ts_flags : Z;
  ts_generation : Z;
  ts_utc_ns : Z;
  ts_tsc : Z;
  pairing_ns : Z;
  host : HostUtc;
}.

(** The closure [bound]. *)
Definition known_bound (value : Z) : option Z := if negb (value =? SAMPLE_UNKNOWN) then Some value else None.

Record RawSample := mkRawSample {
  rs_version : Z; rs_flags : Z; rs_status : Z; rs_reserved : Z; rs_generation : Z; rs_utc_ns : Z; rs_tsc : Z; rs_pairing_ns : Z;
  rs_disruption : Z; rs_correction : Z; rs_correction_bound : Z; rs_max_error_us : Z;
}.

Definition read_sample : Fields TimeSampleError RawSample :=
  version ← f_u8 Incomplete;
  flags ← f_u8 Incomplete;
  status ← f_u8 Incomplete;
  reserved ← f_u8 Incomplete;
  generation ← f_u32 Incomplete;
  utc_ns ← f_u64 Incomplete;
  tsc ← f_u64 Incomplete;
  pairing_ns ← f_u32 Incomplete;
  disruption ← f_u32 Incomplete;
  correction ← f_i64 Incomplete;
  correction_bound ← f_u32 Incomplete;
  max_error_us ← f_u32 Incomplete;
  mret (mkRawSample version flags status reserved generation utc_ns tsc pairing_ns disruption correction correction_bound max_error_us).

Definition I64_MAX : Z := 2 ^ 63 - 1.
Definition I64_MIN : Z := - 2 ^ 63.

Definition parse_sample (bytes : list byte) : result TimeSampleError TimeSample :=
  '(raw, _) ← read_sample bytes;
  if negb (rs_version raw =? SAMPLE_VERSION) then Err (SampleVersion (rs_version raw))
  else if has_flag (rs_flags raw) (not_u8 SAMPLE_TEST_HOOKS) || negb (rs_reserved raw =? 0)
  then Err (SampleFlags (rs_flags raw) (rs_reserved raw))
  else
    status ← ok_or (status_from_byte (rs_status raw)) (SampleStatus (rs_status raw));
    if (rs_utc_ns raw =? 0) || (I64_MAX <? rs_utc_ns raw) then Err (SampleUtc (rs_utc_ns raw))
    else
      Ok (mkTimeSample (rs_flags raw) (rs_generation raw) (rs_utc_ns raw) (rs_tsc raw) (rs_pairing_ns raw)
            (mkHostUtc status (rs_disruption raw) (rs_correction raw) (known_bound (rs_correction_bound raw)) (known_bound (rs_max_error_us raw)))).

Definition test_hooks (self : TimeSample) : bool := has_flag (ts_flags self) SAMPLE_TEST_HOOKS.

(** ** What the fields of a record hold *)

(** A reader of fields reads what [write] writes of the values that [valid] admits. *)
Class Field {E A} (read : Fields E A) (write : A -> list byte) (valid : A -> Prop) : Prop :=
  field bytes value rest : read bytes = Ok (value, rest) <-> valid value /\ bytes = write value ++ rest.

Lemma fields_bind_ok {E A B} (r : Fields E A) (f : A -> Fields E B) bytes value rest :
  (r ≫= f) bytes = Ok (value, rest) <-> exists a mid, r bytes = Ok (a, mid) /\ f a mid = Ok (value, rest).
Proof.
  unfold mbind, fields_bind. destruct (r bytes) as [[a mid]|e]; [split; [eauto|by intros (? & ? & [= <- <-] & ?)]|].
  split; [done|by intros (? & ? & ? & _)].
Qed.

Lemma fields_run {E A B} (r : Fields E A) write valid (f : A -> Fields E B) value rest :
  Field r write valid -> valid value -> (r ≫= f) (write value ++ rest) = f value rest.
Proof. intros Hf Hv. unfold mbind, fields_bind. by rewrite (proj2 (field _ value rest) (conj Hv eq_refl)). Qed.

Lemma fields_ret_ok {E A} (a : A) bytes value rest :
  (mret a : Fields E A) bytes = Ok (value, rest) <-> value = a /\ bytes = rest.
Proof. unfold mret, fields_ret. split; [by intros [= -> ->]|by intros [-> ->]]. Qed.

#[export] Instance chunk_field {E} (e : E) n : 0 <= n -> Field (chunk e n) (fun b => b) (fun b => len b = n).
Proof.
  intros Hn bytes value rest. unfold chunk. split.
  - destruct (Z.ltb_spec (len bytes) n); [done|]. intros [= <- <-]. rewrite len_ztake, ztake_zdrop. split; [lia|done].
  - intros [Hv ->]. rewrite len_app. destruct (Z.ltb_spec (len value + len rest) n); [len_facts; lia|].
    by rewrite ztake_app_l, ztake_all, zdrop_app_r, Hv, Z.sub_diag, zdrop_0 by lia.
Qed.

Lemma int_field {E} (e : E) n : Field (field ← chunk e (Z.of_nat n); mret (from_le_bytes field)) (to_le_bytes n) (fun z => 0 <= z < 256 ^ Z.of_nat n).
Proof.
  intros bytes value rest. rewrite fields_bind_ok. pose proof (chunk_field e (Z.of_nat n) ltac:(lia)) as Hc. split.
  - intros (b & mid & [Hb ->]%Hc & [-> ->]%fields_ret_ok). rewrite to_from_le_bytes by done. pose proof (from_le_bytes_range b). rewrite Hb in *. done.
  - intros [Hv ->]. exists (to_le_bytes n value), rest. split; [apply Hc; by rewrite len_to_le_bytes|].
    apply fields_ret_ok. by rewrite from_to_le_small.
Qed.

Lemma byte_of_mod z k : byte_of (z - 256 * k) = byte_of z.
Proof. apply byte_val_inj. rewrite !byte_val_of. replace (z - 256 * k) with (z + (- k) * 256) by lia. by apply Z_mod_plus_full. Qed.

Lemma to_le_bytes_period n z : to_le_bytes n z = to_le_bytes n (z - 256 ^ Z.of_nat n).
Proof.
  revert z. induction n as [|n IH]; intros z; [done|]. rewrite pow_256_succ. cbn [to_le_bytes]. rewrite byte_of_mod, IH. do 2 f_equal.
  replace (z - 256 * 256 ^ Z.of_nat n) with (z + (- 256 ^ Z.of_nat n) * 256) by lia. rewrite Z.div_add by lia. lia.
Qed.

Lemma signed_field {E} (e : E) n : (0 < n)%nat ->
  Field (field ← chunk e (Z.of_nat n); mret (to_signed (8 * Z.of_nat n) (from_le_bytes field))) (to_le_bytes n)
    (fun z => - 2 ^ (8 * Z.of_nat n - 1) <= z < 2 ^ (8 * Z.of_nat n - 1)).
Proof.
  intros Hn bytes value rest. rewrite fields_bind_ok. pose proof (chunk_field e (Z.of_nat n) ltac:(lia)) as Hc.
  assert (Hw : 256 ^ Z.of_nat n = 2 ^ (8 * Z.of_nat n)) by (change 256 with (2 ^ 8); by rewrite <- Z.pow_mul_r by lia).
  assert (Hh : 2 ^ (8 * Z.of_nat n) = 2 * 2 ^ (8 * Z.of_nat n - 1)) by (rewrite <- Z.pow_succ_r by lia; f_equal; lia). split.
  - intros (b & mid & [Hb ->]%Hc & [-> ->]%fields_ret_ok). pose proof (from_le_bytes_range b) as Hr. rewrite Hb, Hw in Hr. split.
    + unfold to_signed. destruct (Z.ltb_spec (from_le_bytes b) (2 ^ (8 * Z.of_nat n - 1))); lia.
    + f_equal. rewrite <- (to_from_le_bytes n b Hb) at 1. unfold to_signed. destruct (Z.ltb_spec (from_le_bytes b) (2 ^ (8 * Z.of_nat n - 1))); [done|].
      rewrite <- Hw. apply to_le_bytes_period.
  - intros [Hv ->]. exists (to_le_bytes n value), rest. split; [apply Hc; by rewrite len_to_le_bytes|].
    apply fields_ret_ok. split; [|done]. rewrite from_to_le_bytes, Hw. symmetry. apply to_signed_mod; lia.
Qed.

Definition is_i64 (z : Z) : Prop := I64_MIN <= z <= I64_MAX.

#[export] Instance u8_field {E} (e : E) : Field (f_u8 e) (to_le_bytes 1) is_u8.
Proof. intros bytes value rest. rewrite (int_field e 1 bytes value rest). change (256 ^ Z.of_nat 1) with (U8_MAX + 1). unfold is_u8. intuition lia. Qed.

#[export] Instance u32_field {E} (e : E) : Field (f_u32 e) (to_le_bytes 4) is_u32.
Proof. intros bytes value rest. rewrite (int_field e 4 bytes value rest). change (256 ^ Z.of_nat 4) with (U32_MAX + 1). unfold is_u32. intuition lia. Qed.

#[export] Instance u64_field {E} (e : E) : Field (f_u64 e) (to_le_bytes 8) is_u64.
Proof. intros bytes value rest. rewrite (int_field e 8 bytes value rest). change (256 ^ Z.of_nat 8) with (U64_MAX + 1). unfold is_u64. intuition lia. Qed.

#[export] Instance i32_field {E} (e : E) : Field (f_i32 e) (to_le_bytes 4) is_i32.
Proof. intros bytes value rest. rewrite (signed_field e 4 ltac:(lia) bytes value rest). change (8 * Z.of_nat 4 - 1) with 31. unfold is_i32. intuition lia. Qed.

#[export] Instance i64_field {E} (e : E) : Field (f_i64 e) (to_le_bytes 8) is_i64.
Proof. intros bytes value rest. rewrite (signed_field e 8 ltac:(lia) bytes value rest). change (8 * Z.of_nat 8 - 1) with 63. unfold is_i64, I64_MIN, I64_MAX. intuition lia. Qed.

(** Inverts a successful read of fields, field by field; and runs a reader on what was written. *)
Ltac fields_inv H :=
  repeat (let a := fresh "a" in let mid := fresh "mid" in let Hr := fresh "Hr" in let Hv := fresh "Hv" in
          apply fields_bind_ok in H as (a & mid & Hr & H); apply field in Hr as [Hv ->]);
  try (apply fields_ret_ok in H as [-> ->]).

Ltac fields_run :=
  rewrite <- ?app_assoc;
  repeat (erewrite fields_run; [|typeclasses eauto|eassumption || done]; rewrite <- ?app_assoc).

(** ** Headers *)

(** Decides a fact of every byte by trying each. *)
Lemma every_byte (p : Z -> bool) z : forallb p (seqZ 0 256) = true -> is_u8 z -> p z = true.
Proof. intros Hp Hz. rewrite forallb_forall in Hp. apply Hp, list_elem_of_In, elem_of_seqZ. unfold is_u8, U8_MAX in Hz. lia. Qed.

Definition network_bytes : list Z := [0; 1; 2; 4; 5; 6].

Lemma known_flags f : is_u8 f -> has_flag f (not_u8 PACKET_KNOWN_FLAGS) = false <-> f < 32.
Proof.
  intros Hf. pose proof (every_byte (fun f => eqb (has_flag f (not_u8 PACKET_KNOWN_FLAGS)) (negb (f <? 32))) f eq_refl Hf) as H.
  apply eqb_prop in H as ->. rewrite negb_false_iff. apply Z.ltb_lt.
Qed.

Lemma known_network n :
  is_u8 n -> has_flag n (not_u8 PACKET_NETWORK_KNOWN) || (Z.land n PACKET_DNS_MASK =? PACKET_DNS_MASK) = false <-> n ∈ network_bytes.
Proof.
  intros Hn.
  pose proof (every_byte (fun n => eqb (has_flag n (not_u8 PACKET_NETWORK_KNOWN) || (Z.land n PACKET_DNS_MASK =? PACKET_DNS_MASK))
                                       (negb (bool_decide (n ∈ network_bytes)))) n) as H.
  rewrite (eqb_prop _ _ (H ltac:(vm_compute; reflexivity) Hn)), negb_false_iff. apply bool_decide_eq_true.
Qed.

(** A header that the packet defines. *)
Definition header_valid (h : PacketHeader) : Prop :=
  0 <= flags h < 32 /\ online_vp_count h ∈ PACKET_ONLINE_VP_COUNTS /\ is_u8 (range_count h)
  /\ (memory_target h = true \/ range_count h = 0)
  /\ (match ph_network h with
      | Some network => has_flag (flags h) PACKET_NETWORK = true /\ network ∈ network_bytes
      | None => has_flag (flags h) PACKET_NETWORK = false
      end)
  /\ 1 <= generation h <= U32_MAX /\ - RATE_DEVIATION_LIMIT <= rate_deviation h <= RATE_DEVIATION_LIMIT
  /\ 0 <= downtime_ns h <= DOWNTIME_LIMIT_NS.

Definition encode_header (h : PacketHeader) : list byte :=
  PACKET_MAGIC ++ to_le_bytes 1 PACKET_VERSION ++ to_le_bytes 1 (flags h) ++ to_le_bytes 1 (online_vp_count h)
  ++ to_le_bytes 1 (range_count h) ++ to_le_bytes 1 (default 0 (ph_network h))
  ++ to_le_bytes 4 (generation h) ++ to_le_bytes 4 (rate_deviation h) ++ to_le_bytes 8 (downtime_ns h).

Lemma len_encode_header h : len (encode_header h) = PACKET_HEADER_SIZE.
Proof. unfold encode_header. rewrite !len_app, !len_to_le_bytes. reflexivity. Qed.

(** A check refuses, or leaves the rest to decide. *)
Lemma guard_ok {E A} (refuses : bool) (e : E) (r : result E A) a :
  (if refuses then Err e else r) = Ok a <-> refuses = false /\ r = Ok a.
Proof. destruct refuses; split; [done|by intros [? _]|done|by intros [_ ?]]. Qed.

Lemma vp_count_ok n : existsb (Z.eqb n) PACKET_ONLINE_VP_COUNTS = true <-> n ∈ PACKET_ONLINE_VP_COUNTS.
Proof. rewrite existsb_exists. setoid_rewrite Z.eqb_eq. setoid_rewrite <- list_elem_of_In. naive_solver. Qed.

Lemma check_network_byte_ok h network :
  is_u8 network -> ph_network h = (if has_flag (flags h) PACKET_NETWORK then Some network else None) ->
  check_network_byte h network = Ok tt <->
  network = default 0 (ph_network h)
  /\ match ph_network h with
     | Some network => has_flag (flags h) PACKET_NETWORK = true /\ network ∈ network_bytes
     | None => has_flag (flags h) PACKET_NETWORK = false
     end.
Proof.
  intros Hn Hnet. unfold check_network_byte. rewrite Hnet. destruct (has_flag (flags h) PACKET_NETWORK); rewrite guard_ok.
  - rewrite known_network by done. cbn. tauto.
  - rewrite negb_false_iff, Z.eqb_eq. cbn. tauto.
Qed.

(** What the checks of a header establish, of the values that its fields hold. *)
Lemma check_header_ok magic version network h h' :
  is_u8 (flags h) -> is_u8 (range_count h) -> is_u8 network ->
  ph_network h = (if has_flag (flags h) PACKET_NETWORK then Some network else None) ->
  is_u32 (generation h) -> is_u64 (downtime_ns h) ->
  check_header magic version network h = Ok h' <->
  h' = h /\ magic = PACKET_MAGIC /\ version = PACKET_VERSION /\ network = default 0 (ph_network h) /\ header_valid h.
Proof.
  intros Hf Hr Hn Hnet Hg Hd. unfold check_header, header_valid. pose proof (known_flags _ Hf) as Hk. pose proof (vp_count_ok (online_vp_count h)) as Hv.
  pose proof (check_network_byte_ok h network Hn Hnet) as Hc. unfold is_u8, is_u32, is_u64 in *. split.
  - intros H. do 5 (let Hi := fresh "Hi" in apply guard_ok in H; destruct H as [Hi H]). apply result_bind_ok in H as ([] & [Hn1 Hn2]%Hc & H). do 3 (let Hi := fresh "Hi" in apply guard_ok in H; destruct H as [Hi H]).
    apply ok_inj in H as <-. bool_to_prop. destruct (memory_target h) eqn:Hm; cbn [negb andb] in *; bool_to_prop; split_and!; try done; try tauto; lia.
  - intros (-> & -> & -> & ? & ? & ? & _ & Hrc & ? & ? & ? & ?).
    repeat (apply guard_ok; split; [|try (apply result_bind_ok; exists tt; split; [by apply Hc|])]); try done.
    + apply Hk. lia.
    + by rewrite (proj2 Hv).
    + destruct Hrc as [->| ->]; [done|]. by rewrite andb_false_r.
    + apply Z.eqb_neq. lia.
    + rewrite negb_false_iff, andb_true_iff, !Z.leb_le. lia.
    + apply Z.ltb_ge. lia.
Qed.

Lemma parse_header_exact bytes h : parse_header bytes = Ok h <-> header_valid h /\ exists rest, bytes = encode_header h ++ rest.
Proof.
  unfold parse_header. split.
  - destruct (read_header bytes) as [[[[[magic version] network] h0] rest]|] eqn:Hr; [|done]. cbn [mbind result_bind].
    unfold read_header in Hr. fields_inv Hr. apply fields_ret_ok in Hr as [[= -> -> -> ->] ->]. intros Hc. apply check_header_ok in Hc as (-> & -> & -> & Hn & Hval); [|done..].
    split; [done|]. eexists. unfold encode_header. cbn [flags online_vp_count range_count ph_network generation rate_deviation downtime_ns] in *.
    rewrite <- Hn. by rewrite <- ?app_assoc.
  - intros [Hv [rest ->]]. pose proof Hv as (Hf & Ho & Hr & _ & Hn & Hg & Hd & Ht).
    assert (is_u8 (default 0 (ph_network h))) as Hnb.
    { destruct (ph_network h) as [n|]; [|done]. destruct Hn as [_ Hn]. cbn. unfold network_bytes in Hn. rewrite !elem_of_cons in Hn.
      unfold is_u8, U8_MAX. destruct Hn as [->|[->|[->|[->|[->|[->|Hn]]]]]]; try lia. by apply not_elem_of_nil in Hn. }
    assert (is_u8 (online_vp_count h)) as Hob.
    { unfold PACKET_ONLINE_VP_COUNTS in Ho. rewrite !elem_of_cons in Ho. unfold is_u8, U8_MAX.
      destruct Ho as [->|[->|[->|[->|[->|Ho]]]]]; try lia. by apply not_elem_of_nil in Ho. }
    assert (is_u8 (flags h)) by (unfold is_u8, U8_MAX; lia). assert (is_u32 (generation h)) by (unfold is_u32; lia).
    assert (is_i32 (rate_deviation h)) by (unfold is_i32, RATE_DEVIATION_LIMIT in *; lia).
    assert (is_u64 (downtime_ns h)) by (unfold is_u64, U64_MAX, DOWNTIME_LIMIT_NS in *; lia).
    assert (is_u8 PACKET_VERSION) by done. assert (len PACKET_MAGIC = 3) by done.
    unfold read_header, encode_header.
    rewrite <- app_assoc. erewrite (fields_run (chunk IncompleteHeader 3) (fun b => b) _ _ PACKET_MAGIC); [|typeclasses eauto|done].
    fields_run. cbn [mbind result_bind mret fields_ret].
    assert ((if has_flag (flags h) PACKET_NETWORK then Some (default 0 (ph_network h)) else None) = ph_network h) as ->.
    { destruct (ph_network h); [by destruct Hn as [-> _]|by rewrite Hn]. }
    destruct h as [f o r n g d t]. apply check_header_ok; try done. cbn [flags ph_network default from_option id] in *.
    destruct n; [by destruct Hn as [-> _]|by rewrite Hn].
Qed.

(** ** Bodies *)

Definition range_valid (r : Z * Z) : Prop := 0 <= r.1 /\ 1 <= r.2 /\ r.1 + r.2 <= U64_MAX.

Definition encode_range (r : Z * Z) : list byte := to_le_bytes 8 r.1 ++ to_le_bytes 8 r.2.

(** A DNS server of the family that the network byte names. *)
Definition server_valid (network : Z) (server : option IpAddr) : Prop :=
  match server with
  | None => Z.land network PACKET_DNS_MASK = 0
  | Some (V4, octets) => Z.land network PACKET_DNS_MASK = PACKET_DNS_IPV4 /\ len octets = 4 /\ is_unspecified octets = false
  | Some (V6, octets) => Z.land network PACKET_DNS_MASK = PACKET_DNS_IPV6 /\ len octets = 16 /\ is_unspecified octets = false
  end.

Definition network_valid (network : option Z) (settings : option RestoreNetwork) : Prop :=
  match network, settings with
  | None, None => True
  | Some network, Some settings =>
      server_valid network (rn_dns_server settings) /\ announce_listeners settings = has_flag network PACKET_ANNOUNCE_LISTENERS
  | _, _ => False
  end.

Definition encode_server (server : option IpAddr) : list byte :=
  match server with
  | None => zeros PACKET_DNS_SIZE
  | Some (V4, octets) => octets ++ zeros 12
  | Some (V6, octets) => octets
  end.

Definition encode_network (settings : option RestoreNetwork) : list byte :=
  encode_server (match settings with Some settings => rn_dns_server settings | None => None end).

Definition encode_body (p : RestorePacket) : list byte :=
  concat (encode_range <$> ranges p) ++ entropy p ++ encode_network (rp_network p).

Definition encode_packet (p : RestorePacket) : list byte := encode_header (header p) ++ encode_body p.

(** A packet of which every part is what its header says. *)
Definition packet_valid (p : RestorePacket) : Prop :=
  header_valid (header p) /\ len (ranges p) = range_count (header p) /\ Forall range_valid (ranges p)
  /\ len (entropy p) = PACKET_ENTROPY_SIZE /\ network_valid (ph_network (header p)) (rp_network p).

Lemma unspecified_zeros octets : is_unspecified octets = true <-> octets = zeros (len octets).
Proof.
  unfold is_unspecified, zeros, len. rewrite Nat2Z.id. induction octets as [|b octets IH]; [done|]. cbn [forallb length replicate].
  rewrite andb_true_iff, IH, Z.eqb_eq. split.
  - intros [Hb ->]. rewrite length_replicate. f_equal. apply byte_val_inj. by rewrite Hb, byte_val_of.
  - intros [= -> Ho]. split; [by rewrite byte_val_of|done].
Qed.

Lemma read_ranges_ok count index bytes rs rest :
  read_ranges count index bytes = Ok (rs, rest) <->
  length rs = count /\ Forall range_valid rs /\ bytes = concat (encode_range <$> rs) ++ rest.
Proof.
  revert index bytes rs rest. induction count as [|count IH]; intros index bytes rs rest; cbn [read_ranges].
  - rewrite fields_ret_ok. split; [intros [-> ->]; by split_and!|]. intros (Hl & _ & ->). by destruct rs.
  - rewrite fields_bind_ok. split.
    + intros (a & mid & [Ha ->]%field & H). apply fields_bind_ok in H as (b & mid' & [Hb ->]%field & H).
      destruct (_ || _) eqn:Hc; [done|]. apply fields_bind_ok in H as (rs' & mid'' & (Hl & Hv & ->)%IH & [-> ->]%fields_ret_ok).
      bool_to_prop. unfold checked_add in *. destruct (Z.leb_spec (a + b) U64_MAX) as [Hs|]; [|bool_to_prop; by destruct H0].
      split; [cbn; lia|]. split; [constructor; [unfold range_valid, is_u64 in *; cbn; lia|done]|].
      cbn [fmap list_fmap concat]. unfold encode_range at 1. cbn [fst snd]. by rewrite <- !app_assoc.
    + intros (Hl & Hv & ->). destruct rs as [|[a b] rs]; [done|]. apply Forall_cons in Hv as [(Ha & Hb & Hs) Hv]. cbn [fst snd] in *.
      cbn [fmap list_fmap concat]. unfold encode_range at 1. cbn [fst snd]. rewrite <- !app_assoc. eexists a, _.
      split; [apply field; split; [unfold is_u64; lia|done]|]. apply fields_bind_ok. eexists b, _.
      split; [apply field; split; [unfold is_u64; lia|done]|].
      assert ((b =? 0) || negb (bool_decide (is_Some (checked_add U64_MAX a b))) = false) as ->.
      { apply orb_false_iff. split; [apply Z.eqb_neq; lia|]. rewrite bool_decide_true; [done|]. unfold checked_add. destruct (Z.leb_spec (a + b) U64_MAX); [done|lia]. }
      apply fields_bind_ok. exists rs, rest. split; [apply IH; cbn in Hl; by split_and!; [lia|..]|]. by apply fields_ret_ok.
Qed.

Lemma dns_families n : n ∈ network_bytes ->
  Z.land n PACKET_DNS_MASK = 0 \/ Z.land n PACKET_DNS_MASK = PACKET_DNS_IPV4 \/ Z.land n PACKET_DNS_MASK = PACKET_DNS_IPV6.
Proof.
  unfold network_bytes. rewrite !elem_of_cons. intros [->|[->|[->|[->|[->|[->|Hn]]]]]]; try (vm_compute; tauto). by apply not_elem_of_nil in Hn.
Qed.

Lemma ztake_4_16 (address : list byte) : len address = 16 -> len (ztake 4 address) = 4 /\ len (zdrop 4 address) = 12.
Proof. intros Hl. rewrite len_ztake, len_zdrop. lia. Qed.

Lemma parse_dns_server_ok network address server :
  network ∈ network_bytes -> len address = PACKET_DNS_SIZE ->
  parse_dns_server network address = Ok server <-> server_valid network server /\ address = encode_server server.
Proof.
  intros Hn Hl. unfold PACKET_DNS_SIZE in Hl. destruct (ztake_4_16 address Hl) as [H4 H12]. unfold parse_dns_server.
  destruct (dns_families network Hn) as [Hf|[Hf|Hf]]; rewrite Hf.
  - change (0 =? PACKET_DNS_IPV4) with false. change (0 =? PACKET_DNS_IPV6) with false. cbn iota. case_bool_decide as Hz; cbn [mbind result_bind].
    + split; [intros <-%ok_inj; by split|]. intros [Hv Ha]. destruct server as [[[] octets]|]; [| |done]; destruct Hv as [Hv _]; by rewrite Hf in Hv.
    + split; [done|]. intros [Hv ->]. destruct server as [[[] octets]|]; [| |done]; destruct Hv as [Hv _]; by rewrite Hf in Hv.
  - change (PACKET_DNS_IPV4 =? PACKET_DNS_IPV4) with true. cbn iota. destruct (is_unspecified (zdrop 4 address)) eqn:Hu; cbn [mbind result_bind].
    + apply unspecified_zeros in Hu. rewrite H12 in Hu. rewrite guard_ok. split.
      * intros [Hs <-%ok_inj]. split; [by split_and!|]. cbn [encode_server]. by rewrite <- Hu, ztake_zdrop.
      * intros [Hv Ha]. destruct server as [[[] octets]|]; [|by destruct Hv as [Hv _]; rewrite Hf in Hv|by cbn in Hv; rewrite Hf in Hv].
        destruct Hv as (_ & Ho & Hs). cbn [encode_server] in Ha. subst address. rewrite ztake_app_l, ztake_all by lia. by rewrite Hs.
    + split; [done|]. intros [Hv Ha]. destruct server as [[[] octets]|]; [|by destruct Hv as [Hv _]; rewrite Hf in Hv|by cbn in Hv; rewrite Hf in Hv].
      destruct Hv as (_ & Ho & _). cbn [encode_server] in Ha. subst address. rewrite zdrop_app_r, Ho in Hu by lia. by vm_compute in Hu.
  - change (PACKET_DNS_IPV6 =? PACKET_DNS_IPV4) with false. change (PACKET_DNS_IPV6 =? PACKET_DNS_IPV6) with true. cbn iota. cbn [mbind result_bind].
    rewrite guard_ok. split; [intros [Hs <-%ok_inj]; by split_and!|].
    intros [Hv Ha]. destruct server as [[[] octets]|]; [by destruct Hv as [Hv _]; rewrite Hf in Hv| |by cbn in Hv; rewrite Hf in Hv].
    destruct Hv as (_ & Ho & Hs). cbn [encode_server] in Ha. subst address. by rewrite Hs.
Qed.

Lemma packet_network_ok h address settings :
  header_valid h -> len address = PACKET_DNS_SIZE ->
  packet_network h address = Ok settings <-> network_valid (ph_network h) settings /\ address = encode_network settings.
Proof.
  intros (_ & _ & _ & _ & Hn & _) Hl. unfold packet_network, network_valid, encode_network. destruct (ph_network h) as [n|].
  - destruct Hn as [_ Hn]. rewrite result_bind_ok. setoid_rewrite parse_dns_server_ok; [|done..]. split.
    + by intros (server & [Hv Ha] & <-%ok_inj).
    + destruct settings as [[server announce]|]; [|by intros [? _]]. cbn [rn_dns_server announce_listeners]. intros [[Hv ->] Ha]. by exists server.
  - case_bool_decide as Hz; destruct settings; (split; [try done; try (intros [= <-]; done)|]); by intros [? ?].
Qed.

Lemma len_encode_server network server : server_valid network server -> len (encode_server server) = PACKET_DNS_SIZE.
Proof.
  destruct server as [[[] octets]|]; cbn [server_valid encode_server]; [intros (_ & Ho & _)|intros (_ & Ho & _)|done]; [|done].
  by rewrite len_app, Ho.
Qed.

Lemma len_encode_network network settings : network_valid network settings -> len (encode_network settings) = PACKET_DNS_SIZE.
Proof.
  unfold network_valid, encode_network. destruct network as [n|], settings as [[server announce]|]; try done. intros [Hv _]. by eapply len_encode_server.
Qed.

Lemma len_encode_ranges rs : len (concat (encode_range <$> rs)) = len rs * PACKET_RANGE_SIZE.
Proof.
  induction rs as [|r rs IH]; [done|]. cbn [fmap list_fmap concat]. rewrite len_app, len_cons. unfold encode_range at 1.
  change (list_fmap _ _ encode_range rs) with (encode_range <$> rs).
  rewrite len_app, !len_to_le_bytes, IH. unfold PACKET_RANGE_SIZE. lia.
Qed.

Lemma len_encode_body p : packet_valid p -> len (encode_body p) = body_size (header p).
Proof.
  intros (_ & Hr & _ & He & Hn). unfold encode_body, body_size. rewrite !len_app, len_encode_ranges, Hr, He, (len_encode_network _ _ Hn). lia.
Qed.

Lemma parse_packet_exact h body p :
  header_valid h ->
  parse_packet h body = Ok p <-> header p = h /\ packet_valid p /\ exists rest, body = encode_body p ++ rest.
Proof.
  intros Hh. unfold parse_packet. rewrite result_bind_ok. split.
  - intros ([[[rs e] d] rest] & H & Hp). apply fields_bind_ok in H as (rs' & mid & (Hl & Hv & ->)%read_ranges_ok & H).
    apply fields_bind_ok in H as (e' & mid' & [He ->]%field & H). apply fields_bind_ok in H as (d' & mid'' & [Hd ->]%field & H).
    apply fields_ret_ok in H as [[= -> -> ->] ->]. apply result_bind_ok in Hp as (settings & [Hs ->]%packet_network_ok & <-%ok_inj); [|done..].
    split; [done|]. pose proof Hh as (_ & _ & Hrc & _). unfold is_u8 in Hrc. split.
    + split_and!; try done. cbn [ranges header]. unfold len. lia.
    + exists rest. unfold encode_body. cbn [ranges entropy rp_network]. by rewrite <- !app_assoc.
  - intros (<- & (_ & Hl & Hv & He & Hn) & [rest ->]). unfold encode_body. rewrite <- !app_assoc.
    exists (ranges p, entropy p, encode_network (rp_network p), rest). split.
    + apply fields_bind_ok. eexists (ranges p), _. split; [apply read_ranges_ok; split_and!; [unfold len in Hl; lia|done|done]|].
      apply fields_bind_ok. eexists (entropy p), _. split; [by apply field|]. apply fields_bind_ok. exists (encode_network (rp_network p)), rest.
      split; [apply field; split; [by eapply len_encode_network|done]|]. by apply fields_ret_ok.
    + apply result_bind_ok. exists (rp_network p). split; [apply packet_network_ok; [done|by eapply len_encode_network|done]|]. by destruct p.
Qed.

(** A prefix of [n] bytes that starts with [k] bytes of its length is it. *)
Lemma ztake_starts {A} (l k rest : list A) : ztake (len k) l = k ++ rest <-> rest = [] /\ exists tail, l = k ++ tail.
Proof.
  split.
  - intros He. assert (rest = []) as ->.
    { apply (f_equal len) in He. rewrite len_ztake, len_app in He. apply len_zero_iff. len_facts. lia. }
    split; [done|]. rewrite app_nil_r in He. exists (zdrop (len k) l). rewrite <- He at 1. by rewrite ztake_zdrop.
  - intros [-> [tail ->]]. by rewrite ztake_app_l, ztake_all, app_nil_r by lia.
Qed.

Lemma read_packet_exact {S} port (sample : Z -> S) recorded p s :
  read_packet port sample recorded = Packet (Ok (p, s)) <->
  packet_valid p /\ generation (header p) = recorded + 1 /\ s = sample (generation (header p)) /\ exists rest, port = encode_packet p ++ rest.
Proof.
  unfold read_packet. split.
  - destruct (parse_header _) as [h|e] eqn:Hp; [|done]. destruct (Z.eqb_spec (generation h) recorded); [done|].
    destruct (Z.eqb_spec (generation h) (recorded + 1)) as [Hg|]; [|done]. cbn [negb]. intros [= H].
    apply result_bind_ok in H as (p' & Hpp & [= -> <-]). apply parse_header_exact in Hp as [Hv [rest Ht]].
    rewrite <- (len_encode_header h) in Ht. apply ztake_starts in Ht as [-> [tail ->]].
    apply parse_packet_exact in Hpp as (<- & Hpv & [rest Hb]); [|done]. split_and!; try done.
    rewrite <- (len_encode_header (header p)), zdrop_app_r, Z.sub_diag, zdrop_0, <- (len_encode_body p Hpv) in Hb by lia.
    apply ztake_starts in Hb as [_ [tail' ->]]. exists tail'. unfold encode_packet. by rewrite app_assoc.
  - intros (Hv & Hg & -> & [rest ->]). pose proof Hv as (Hh & _). unfold encode_packet. rewrite <- (len_encode_header (header p)), <- app_assoc.
    rewrite ztake_app_l, ztake_all, zdrop_app_r, Z.sub_diag, zdrop_0 by lia.
    rewrite (proj2 (parse_header_exact (encode_header (header p)) (header p))) by (split; [done|]; exists []; by rewrite app_nil_r).
    destruct (Z.eqb_spec (generation (header p)) recorded); [lia|]. rewrite Hg, Z.eqb_refl. cbn [negb].
    rewrite <- (len_encode_body p Hv), ztake_app_l, ztake_all by lia.
    by rewrite (proj2 (parse_packet_exact (header p) (encode_body p) p Hh)) by (split_and!; try done; exists []; by rewrite app_nil_r).
Qed.

(** ** Samples *)

Definition status_byte (s : HostClockStatus) : Z :=
  match s with Unknown => 0 | Synchronized => 1 | FreeRunning => 2 | Unreliable => 3 end.

Lemma status_from_byte_spec byte s : status_from_byte byte = Some s <-> byte = status_byte s.
Proof.
  unfold status_from_byte. destruct byte as [|p|p]; [destruct s; naive_solver| |destruct s; naive_solver].
  destruct p as [p|p|]; [destruct p; destruct s; naive_solver|destruct p; destruct s; naive_solver|destruct s; naive_solver].
Qed.

Definition bound_valid (bound : option Z) : Prop := opt_all (fun b => 0 <= b < SAMPLE_UNKNOWN) bound.

Definition sample_valid (s : TimeSample) : Prop :=
  (ts_flags s = 0 \/ ts_flags s = SAMPLE_TEST_HOOKS) /\ is_u32 (ts_generation s) /\ 1 <= ts_utc_ns s <= I64_MAX /\ is_u64 (ts_tsc s)
  /\ is_u32 (pairing_ns s) /\ is_u32 (disruption (host s)) /\ is_i64 (correction (host s))
  /\ bound_valid (correction_bound (host s)) /\ bound_valid (max_error_us (host s)).

Definition encode_sample (s : TimeSample) : list byte :=
  to_le_bytes 1 SAMPLE_VERSION ++ to_le_bytes 1 (ts_flags s) ++ to_le_bytes 1 (status_byte (status (host s))) ++ to_le_bytes 1 0
  ++ to_le_bytes 4 (ts_generation s) ++ to_le_bytes 8 (ts_utc_ns s) ++ to_le_bytes 8 (ts_tsc s) ++ to_le_bytes 4 (pairing_ns s)
  ++ to_le_bytes 4 (disruption (host s)) ++ to_le_bytes 8 (correction (host s))
  ++ to_le_bytes 4 (default SAMPLE_UNKNOWN (correction_bound (host s))) ++ to_le_bytes 4 (default SAMPLE_UNKNOWN (max_error_us (host s))).

Lemma sample_flags f : is_u8 f -> has_flag f (not_u8 SAMPLE_TEST_HOOKS) = false <-> f = 0 \/ f = SAMPLE_TEST_HOOKS.
Proof.
  intros Hf. pose proof (every_byte (fun f => eqb (has_flag f (not_u8 SAMPLE_TEST_HOOKS)) (negb ((f =? 0) || (f =? 8)))) f eq_refl Hf) as H.
  apply eqb_prop in H as ->. rewrite negb_false_iff, orb_true_iff, !Z.eqb_eq. done.
Qed.

Lemma known_bound_spec z : is_u32 z -> bound_valid (known_bound z) /\ default SAMPLE_UNKNOWN (known_bound z) = z.
Proof.
  intros Hz. unfold known_bound, bound_valid. destruct (Z.eqb_spec z SAMPLE_UNKNOWN) as [->|]; cbn; [done|]. unfold is_u32, SAMPLE_UNKNOWN in *. split; [lia|done].
Qed.

Lemma known_bound_default bound : bound_valid bound -> known_bound (default SAMPLE_UNKNOWN bound) = bound /\ is_u32 (default SAMPLE_UNKNOWN bound).
Proof.
  unfold known_bound, bound_valid. destruct bound as [b|]; cbn; intros Hb; [|by rewrite Z.eqb_refl].
  destruct (Z.eqb_spec b SAMPLE_UNKNOWN); [lia|]. unfold is_u32, SAMPLE_UNKNOWN in *. split; [done|lia].
Qed.

Lemma parse_sample_exact bytes s : parse_sample bytes = Ok s <-> sample_valid s /\ exists rest, bytes = encode_sample s ++ rest.
Proof.
  unfold parse_sample. rewrite result_bind_ok. split.
  - intros ([raw rest] & Hr & H). unfold read_sample in Hr. fields_inv Hr.
    cbn [rs_version rs_flags rs_status rs_reserved rs_generation rs_utc_ns rs_tsc rs_pairing_ns rs_disruption rs_correction rs_correction_bound rs_max_error_us] in H.
    apply guard_ok in H as [Hver H]. apply guard_ok in H as [[Hfl Hres]%orb_false_iff H]. apply result_bind_ok in H as (st & Hst & H).
    apply guard_ok in H as [Hutc H]. apply ok_inj in H as <-. apply ok_or_ok, status_from_byte_spec in Hst. apply sample_flags in Hfl; [|done]. bool_to_prop. subst.
    destruct (known_bound_spec a9 Hv9) as [Hb1 He1]. destruct (known_bound_spec a10 Hv10) as [Hb2 He2]. split.
    + unfold sample_valid. cbn. unfold is_u64 in *. split_and!; try done; lia.
    + exists rest. unfold encode_sample. cbn [ts_flags ts_generation ts_utc_ns ts_tsc pairing_ns host status disruption correction correction_bound max_error_us].
      rewrite He1, He2. by rewrite <- ?app_assoc.
  - intros ((Hf & Hg & Hu & Ht & Hp & Hd & Hc & Hb1 & Hb2) & [rest ->]).
    destruct (known_bound_default _ Hb1) as [Hk1 Hu1]. destruct (known_bound_default _ Hb2) as [Hk2 Hu2].
    assert (is_u8 (ts_flags s)) as Hf8 by (unfold is_u8, U8_MAX, SAMPLE_TEST_HOOKS in *; lia).
    assert (is_u8 (status_byte (status (host s)))) by (destruct (status (host s)); done).
    assert (is_u8 SAMPLE_VERSION) by done. assert (is_u8 0) by done.
    assert (is_u64 (ts_utc_ns s)) by (unfold is_u64, U64_MAX, I64_MAX in *; lia).
    eexists (mkRawSample _ _ _ _ _ _ _ _ _ _ _ _, rest). split; [unfold read_sample, encode_sample; fields_run; reflexivity|].
    cbn [rs_version rs_flags rs_status rs_reserved rs_generation rs_utc_ns rs_tsc rs_pairing_ns rs_disruption rs_correction rs_correction_bound rs_max_error_us].
    rewrite Z.eqb_refl, (proj2 (sample_flags _ Hf8) Hf), Z.eqb_refl. cbn [negb orb].
    rewrite (proj2 (status_from_byte_spec _ (status (host s))) eq_refl). cbn [ok_or mbind result_bind]. apply guard_ok. split.
    + apply orb_false_iff. rewrite Z.eqb_neq, Z.ltb_ge. lia.
    + rewrite Hk1, Hk2. by destruct s as [? ? ? ? ? []].
Qed.

(** ** Properties *)

Lemma eligible_fits t now d :
  time_sound t -> host_time_typed now -> eligibility t now = Eligible d -> 0 <= vm_time_nanos d <= DOWNTIME_LIMIT_NS.
Proof.
  intros Ht Hn. rewrite eligibility_spec by done. pose proof (anchor_typed t now Ht) as [_ Hc].
  assert (0 <= cut t) by (unfold cut; destruct (cut_to_anchor_ns t); [apply Hc|done]).
  destruct (Z.ltb_spec (reading t now - anchor t now) 0); [done|].
  destruct (Z.leb_spec (reading t now - anchor t now + cut t) MAX_DOWNTIME_NS); [|done].
  intros Hd. assert (vm_time_nanos d = reading t now - anchor t now + cut t) as -> by (by injection Hd as <-).
  change DOWNTIME_LIMIT_NS with MAX_DOWNTIME_NS. lia.
Qed.

(** A restored guest takes exactly the packets of its ABI: what it reads from the port is the packet
    whose one encoding starts there, with every flag, count and length what the header says, of the
    generation after the recorded one, and no other bytes give a packet; it reads no byte past the
    packet; and every downtime that the host's restore window admits is one that a packet may carry. *)
Theorem restore_packet_exact {S} (port : list byte) (sample : Z -> S) (recorded : Z) (p : RestorePacket) (s : S) :
  (read_packet port sample recorded = Packet (Ok (p, s)) <->
   packet_valid p /\ generation (header p) = recorded + 1 /\ s = sample (generation (header p)) /\ exists rest, port = encode_packet p ++ rest)
  /\ (packet_valid p -> len (encode_packet p) = PACKET_HEADER_SIZE + body_size (header p))
  /\ (forall t now d, time_sound t -> host_time_typed now -> eligibility t now = Eligible d -> 0 <= vm_time_nanos d <= DOWNTIME_LIMIT_NS).
Proof.
  split; [apply read_packet_exact|]. split; [|apply eligible_fits]. intros Hp. unfold encode_packet.
  by rewrite len_app, len_encode_header, len_encode_body.
Qed.

Definition sample_packet : RestorePacket :=
  mkRestorePacket (mkPacketHeader 0x16 2 1 (Some 5) 7 (-1000) 3000000) [(4294967296, 134217728)] (replicate 64 (byte_of 9))
    (Some (mkRestoreNetwork (Some (V4, map byte_of [10; 0; 0; 1])) true)).

Lemma sample_packet_valid : packet_valid sample_packet.
Proof.
  split; [split_and!; try done; [refine (bool_decide_unpack _ _); by vm_compute|by left|split; [done|refine (bool_decide_unpack _ _); by vm_compute]]|].
  split; [done|]. split; [by repeat constructor|]. done.
Qed.

Lemma restore_packet_exact_witness :
  read_packet (encode_packet sample_packet ++ [byte_of 1]) (fun g => g * 2) 6 = Packet (Ok (sample_packet, 14)).
Proof.
  apply (restore_packet_exact (encode_packet sample_packet ++ [byte_of 1]) (fun g => g * 2) 6 sample_packet 14).
  split; [exact sample_packet_valid|]. split; [done|]. split; [done|by exists [byte_of 1]].
Defined.
