(* ===== verification/ClockMath.v ===== *)
(** * The arithmetic of the guest's clock discipline (src/nvx-rs/src/guest/time/decoders.rs)

    The pairing of a host time sample with the guest's clocks, the frequency correction that follows
    host UTC, and the plan of a step or slew. Intermediate values are [i128]: an operation that would
    overflow is [None], which the theorems exclude. *)

From S2P Require Import Prelude Canonical RestorePacket.

Definition NSEC_PER_SEC : Z := 1000000000.
Definition NSEC_PER_USEC : Z := 1000.
Definition SCALED_PPM : Z := Z.shiftl 1 16.
Definition SCALED_ONE : Z := SCALED_PPM * 1000000.
Definition PPB_PER_PPM : Z := 1000.
Definition FREQUENCY_LIMIT : Z := 500 * SCALED_PPM.
Definition HZ_PER_KHZ : Z := 1000.
Definition SKEW_BOUND_NS : Z := 1000.
Definition SLEW_RATE_PPM : Z := 2000.
Definition STEP_THRESHOLD_NS : Z := 128000000.
Definition FAST_TIME_CONSTANT : Z := 4.
Definition SLOW_TIME_CONSTANT : Z := 6.

Record GuestReads := mkGuestReads {
  before : Z;
  after : Z;
  realtime_ns : Z;
  realtime_tsc : Z;
  realtime_half_cycles : Z;
}.

Record ClockRates := mkClockRates { tsc_hz : Z; frequency : Z }.

(** ** [i128] *)

Definition I128_MAX : Z := 2 ^ 127 - 1.
Definition I128_MIN : Z := - 2 ^ 127.

(** The value of an operation on [i128], unless it overflows. *)
Definition i128 (z : Z) : option Z := if (I128_MIN <=? z) && (z <=? I128_MAX) then Some z else None.

(** [Ord::clamp]. *)
Definition clamp (z low high : Z) : Z := Z.max low (Z.min high z).

(** Rust's division truncates. *)
Definition divide_rounded (numerator denominator : Z) : option Z :=
  let half := Z.quot denominator 2 in
  if 0 <=? numerator then sum ← i128 (numerator + half); i128 (Z.quot sum denominator)
  else difference ← i128 (numerator - half); i128 (Z.quot difference denominator).

Definition divide_up (numerator denominator : Z) : option Z :=
  sum ← i128 (numerator + denominator);
  sum ← i128 (sum - 1);
  i128 (Z.quot sum denominator).

Definition saturate (value : Z) : Z := clamp value I64_MIN I64_MAX.

Definition kernel_tsc_hz (tsc_hz : Z) : Z := tsc_hz / HZ_PER_KHZ * HZ_PER_KHZ.

(** ** Pairing *)

(** The cycles by which the sample's TSC may lie outside the reads. *)
Definition tsc_tolerance (sample : TimeSample) (rates : ClockRates) : option Z :=
  sum ← i128 (pairing_ns sample + SKEW_BOUND_NS);
  product ← i128 (sum * Z.max (tsc_hz rates) 1);
  divide_up product NSEC_PER_SEC.

(** The nanoseconds by which the realtime clock advanced from the sample's TSC to its read. *)
Definition extrapolate (sample : TimeSample) (reads : GuestReads) (rates : ClockRates) : option Z :=
  let kernel_hz := Z.max (kernel_tsc_hz (tsc_hz rates)) HZ_PER_KHZ in
  let frequency := clamp (frequency rates) (- FREQUENCY_LIMIT) FREQUENCY_LIMIT in
  cycles ← i128 (realtime_tsc reads - ts_tsc sample);
  product ← i128 (cycles * NSEC_PER_SEC);
  elapsed ← divide_rounded product kernel_hz;
  product ← i128 (elapsed * frequency);
  corrected ← divide_rounded product SCALED_ONE;
  i128 (elapsed + corrected).

(** [None] for an overflow. *)
Definition pair_sample (sample : TimeSample) (reads : GuestReads) (rates : ClockRates) : option (result TimeSampleError (Z * Z)) :=
  let kernel_hz := Z.max (kernel_tsc_hz (tsc_hz rates)) HZ_PER_KHZ in
  tolerance ← tsc_tolerance sample rates;
  first ← i128 (before reads - tolerance);
  last ← i128 (after reads + tolerance);
  if (ts_tsc sample <? first) || (last <? ts_tsc sample) then Some (Err (SampleTsc (ts_tsc sample) (before reads) (after reads)))
  else
    extrapolated ← extrapolate sample reads rates;
    realtime ← i128 (realtime_ns reads - extrapolated);
    theta ← i128 (ts_utc_ns sample - realtime);
    product ← i128 (realtime_half_cycles reads * NSEC_PER_SEC);
    local ← divide_up product kernel_hz;
    magnitude ← i128 (Z.abs extrapolated);
    product ← i128 (magnitude * SLEW_RATE_PPM);
    slew ← divide_up product 1000000;
    sum ← i128 (pairing_ns sample + SKEW_BOUND_NS);
    sum ← i128 (sum + local);
    epsilon ← i128 (sum + slew);
    Some (Ok (saturate theta, saturate epsilon)).

(** ** Frequencies *)

Definition guest_frequency (correction tsc_hz : Z) : option (Z * bool) :=
  let tsc_hz_wide := Z.max tsc_hz 1 in
  let correction := clamp correction (- SCALED_ONE) SCALED_ONE in
  sum ← i128 (SCALED_ONE + correction);
  faster ← i128 (sum * kernel_tsc_hz tsc_hz);
  declared ← i128 (SCALED_ONE * tsc_hz_wide);
  numerator ← i128 (faster - declared);
  frequency ← divide_rounded numerator tsc_hz_wide;
  let held := clamp frequency (- FREQUENCY_LIMIT) FREQUENCY_LIMIT in
  Some (held, negb (held =? frequency)).

Definition frequency_to_ppb (frequency : Z) : option Z :=
  product ← i128 (frequency * PPB_PER_PPM);
  value ← divide_rounded product SCALED_PPM;
  Some (saturate value).

(** [u64::div_ceil], of a product that fits a [u64]. *)
Definition bound_to_ppb (bound : Z) : Z := - ((- (bound * PPB_PER_PPM)) / SCALED_PPM).

(** ** Steps and slews *)

Record FrequencyHold := mkFrequencyHold { scaled_ppm : Z; maximum_error_us : Z; estimated_error_us : Z }.

Inductive ClockAdjustment : Type :=
| Query
| Step (seconds nanoseconds : Z)
| Frequency (hold : FrequencyHold)
| ClearPhase
| Slew (offset_ns time_constant : Z) (hold : FrequencyHold).

(** [div_euclid] and [rem_euclid] of a positive divisor. *)
Definition split_offset (offset_ns : Z) : Z * Z := (offset_ns / NSEC_PER_SEC, offset_ns mod NSEC_PER_SEC).

(** [i64::saturating_add]. *)
Definition saturating_add_i64 (a b : Z) : Z := saturate (a + b).

Definition ceil_us (nanoseconds : Z) : Z := Z.quot (saturating_add_i64 nanoseconds (NSEC_PER_USEC - 1)) NSEC_PER_USEC.

Definition frequency_hold (offset epsilon frequency host_error_us : Z) : FrequencyHold :=
  let offset := if offset <=? I64_MAX then offset else I64_MAX in
  mkFrequencyHold frequency (saturating_add_i64 (ceil_us (saturating_add_i64 offset epsilon)) host_error_us) (ceil_us epsilon).

Definition plan_correction (theta epsilon : Z) (fast : bool) (frequency host_error_us : Z) : ClockAdjustment :=
  let magnitude := Z.abs theta in
  if STEP_THRESHOLD_NS <=? magnitude then
    let '(seconds, nanoseconds) := split_offset theta in Step seconds nanoseconds
  else
    Slew theta (if fast then FAST_TIME_CONSTANT else SLOW_TIME_CONSTANT) (frequency_hold magnitude epsilon frequency host_error_us).

(** ** The arithmetic does not overflow *)

(** The bound of every intermediate value. *)
Definition WIDE : Z := 2 ^ 120.

Lemma i128_some z : Z.abs z <= 2 * WIDE -> i128 z = Some z.
Proof.
  unfold i128, I128_MIN, I128_MAX, WIDE. intros H.
  destruct (Z.leb_spec (- 2 ^ 127) z), (Z.leb_spec z (2 ^ 127 - 1)); cbn; done || lia.
Qed.

(** Rounds to the nearest. *)
Definition nearest (q n d : Z) : Prop := 2 * Z.abs (q * d - n) <= d.

Lemma quot_floor n d : 0 <= n -> 0 < d -> Z.quot n d * d <= n < Z.quot n d * d + d.
Proof. intros Hn Hd. rewrite Z.quot_div_nonneg by lia. pose proof (Z.div_mod n d ltac:(lia)). pose proof (Z.mod_pos_bound n d Hd). lia. Qed.

Lemma quot_abs n d : 0 < d -> Z.abs (Z.quot n d) <= Z.abs n.
Proof.
  intros Hd. rewrite <-Z.quot_abs, (Z.abs_eq d), Z.quot_div_nonneg by lia.
  apply Z.div_le_upper_bound; nia.
Qed.

Lemma divide_rounded_spec n d : 0 < d -> Z.abs n <= WIDE -> d <= WIDE -> exists q, divide_rounded n d = Some q /\ nearest q n d.
Proof.
  intros Hd Hn Hw. unfold divide_rounded, nearest. rewrite (Z.quot_div_nonneg d 2) by lia.
  pose proof (Z.div_mod d 2 ltac:(lia)). pose proof (Z.mod_pos_bound d 2 ltac:(lia)). set (h := d / 2) in *.
  destruct (Z.leb_spec 0 n) as [Hpos|Hneg].
  - rewrite i128_some by lia. cbn. pose proof (quot_abs (n + h) d Hd). rewrite i128_some by lia. exists (Z.quot (n + h) d). split; [done|].
    pose proof (quot_floor (n + h) d ltac:(lia) Hd). lia.
  - rewrite i128_some by lia. cbn. pose proof (quot_abs (n - h) d Hd). rewrite i128_some by lia. exists (Z.quot (n - h) d). split; [done|].
    pose proof (quot_floor (- (n - h)) d ltac:(lia) Hd). rewrite Z.quot_opp_l in * by lia. lia.
Qed.

Lemma divide_up_spec n d : 0 <= n -> 0 < d -> n <= WIDE -> d <= WIDE -> exists q, divide_up n d = Some q /\ n <= q * d < n + d /\ 0 <= q.
Proof.
  intros Hn Hd Hw Hd'. unfold divide_up. rewrite i128_some by lia. cbn. rewrite i128_some by lia. cbn. pose proof (quot_abs (n + d - 1) d Hd).
  rewrite i128_some by lia. exists (Z.quot (n + d - 1) d). split; [done|]. pose proof (quot_floor (n + d - 1) d ltac:(lia) Hd).
  split; [lia|]. apply Z.quot_pos; lia.
Qed.

Lemma nearest_bound q n d m : 0 < d -> nearest q n d -> Z.abs n <= m * d -> Z.abs q <= m + 1.
Proof. unfold nearest. intros. assert (Z.abs q * d <= (m + 1) * d); [|nia]. rewrite <-(Z.abs_eq d) at 1 by lia. rewrite <-Z.abs_mul. lia. Qed.

(** ** Pairing *)

Record reads_typed (r : GuestReads) : Prop := mkReadsTyped {
  rt_before : is_u64 (before r);
  rt_after : is_u64 (after r);
  rt_realtime_ns : is_i64 (realtime_ns r);
  rt_realtime_tsc : is_u64 (realtime_tsc r);
  rt_half_cycles : is_u64 (realtime_half_cycles r);
}.

Record rates_typed (r : ClockRates) : Prop := mkRatesTyped { rt_tsc_hz : is_u64 (tsc_hz r); rt_frequency : is_i64 (frequency r) }.

(** The rate at which the guest's kernel counts, and its correction. *)
Definition counted (r : ClockRates) : Z := Z.max (kernel_tsc_hz (tsc_hz r)) HZ_PER_KHZ.
Definition corrected (r : ClockRates) : Z := clamp (frequency r) (- FREQUENCY_LIMIT) FREQUENCY_LIMIT.

(** The time from the sample's TSC to the realtime read at the kernel's rate, in units of
    1 / (counted * SCALED_ONE) nanoseconds. *)
Definition exact_elapsed (sample : TimeSample) (reads : GuestReads) (rates : ClockRates) : Z :=
  (realtime_tsc reads - ts_tsc sample) * NSEC_PER_SEC * (SCALED_ONE + corrected rates).

(** The cycles that the sample's TSC may lie outside the latch. *)
Definition latch_slack (sample : TimeSample) (rates : ClockRates) : Z :=
  ((pairing_ns sample + SKEW_BOUND_NS) * Z.max (tsc_hz rates) 1 + NSEC_PER_SEC - 1) / NSEC_PER_SEC.

Lemma kernel_tsc_hz_bounds hz : 0 <= hz -> 0 <= kernel_tsc_hz hz <= hz /\ hz - HZ_PER_KHZ < kernel_tsc_hz hz.
Proof. unfold kernel_tsc_hz, HZ_PER_KHZ. intros. pose proof (Z.div_mod hz 1000 ltac:(lia)). pose proof (Z.mod_pos_bound hz 1000 ltac:(lia)). lia. Qed.

Lemma counted_bounds r : rates_typed r -> 1000 <= counted r <= U64_MAX.
Proof. intros [H _]. unfold counted, is_u64 in *. pose proof (kernel_tsc_hz_bounds (tsc_hz r) ltac:(lia)). unfold HZ_PER_KHZ, U64_MAX in *. lia. Qed.

Lemma corrected_bounds r : Z.abs (corrected r) <= 32768000.
Proof. unfold corrected, clamp. change FREQUENCY_LIMIT with 32768000. lia. Qed.

(** The extrapolation is within 1.0003 ns of the exact time. *)
Lemma extrapolate_spec sample reads rates :
  sample_valid sample -> reads_typed reads -> rates_typed rates ->
  exists x, extrapolate sample reads rates = Some x /\ Z.abs x <= 2 ^ 90
    /\ 2 * Z.abs (x * counted rates * SCALED_ONE - exact_elapsed sample reads rates) <= counted rates * (2 * SCALED_ONE + Z.abs (corrected rates)).
Proof.
  intros (_ & _ & _ & Ht & _) [_ _ _ Hr _] Hty. unfold extrapolate. fold (counted rates) (corrected rates).
  pose proof (counted_bounds rates Hty) as Hk. pose proof (corrected_bounds rates) as Hf. unfold exact_elapsed, is_u64, U64_MAX in *.
  change SCALED_ONE with 65536000000. change NSEC_PER_SEC with 1000000000. set (k := counted rates) in *. set (f := corrected rates) in *.
  set (c := realtime_tsc reads - ts_tsc sample). assert (Z.abs c <= 2 ^ 64) as Hc by (unfold c; lia).
  rewrite i128_some by (unfold WIDE; lia). cbn [mbind option_bind]. rewrite i128_some by (unfold WIDE; lia). cbn [mbind option_bind].
  destruct (divide_rounded_spec (c * 1000000000) k) as (e & -> & He); [lia|unfold WIDE; lia..|]. cbn [mbind option_bind].
  assert (Z.abs e <= 2 ^ 64 * 1000000 + 1) as Hb by (apply (nearest_bound e (c * 1000000000) k _ ltac:(lia) He); lia).
  assert (Z.abs (e * f) <= (2 ^ 64 * 1000000 + 1) * 32768000) as Hp by (rewrite Z.abs_mul; apply Z.mul_le_mono_nonneg; lia).
  rewrite i128_some by (unfold WIDE; lia). cbn [mbind option_bind].
  destruct (divide_rounded_spec (e * f) 65536000000) as (r & -> & Hr'); [lia|unfold WIDE; lia..|]. cbn [mbind option_bind].
  assert (Z.abs r <= (2 ^ 64 * 1000000 + 1) + 1) by (apply (nearest_bound r (e * f) 65536000000 _ ltac:(lia) Hr'); lia).
  exists (e + r). split; [apply i128_some; unfold WIDE; lia|]. split; [lia|]. unfold nearest in *.
  replace ((e + r) * k * 65536000000 - c * 1000000000 * (65536000000 + f)) with ((e * k - c * 1000000000) * (65536000000 + f) + k * (r * 65536000000 - e * f)) by ring.
  pose proof (Z.abs_triangle ((e * k - c * 1000000000) * (65536000000 + f)) (k * (r * 65536000000 - e * f))) as Hs. rewrite !Z.abs_mul in Hs.
  rewrite (Z.abs_eq k), (Z.abs_eq (65536000000 + f)) in Hs by lia.
  pose proof (Z.mul_le_mono_nonneg_r _ _ (65536000000 + f) ltac:(lia) He). pose proof (Z.mul_le_mono_nonneg_l _ _ k ltac:(lia) Hr').
  pose proof (Z.mul_le_mono_nonneg_l f (Z.abs f) k ltac:(lia) ltac:(lia)). lia.
Qed.

(** The uncertainty of the reads and of a slew covers a clock that is within them, to the nanosecond. *)
Lemma slack_covers x y k f e half local slew :
  1000 <= k -> Z.abs f <= 32768000 -> 2 * Z.abs (x * k * SCALED_ONE - e) <= k * (2 * SCALED_ONE + Z.abs f) ->
  1000000 * Z.abs (y * k * SCALED_ONE - e) <= 1000000 * SCALED_ONE * (half * NSEC_PER_SEC) + SLEW_RATE_PPM * Z.abs e ->
  half * NSEC_PER_SEC <= local * k -> Z.abs x * SLEW_RATE_PPM <= slew * 1000000 ->
  Z.abs (y - x) <= local + slew + 1.
Proof.
  change SCALED_ONE with 65536000000. change NSEC_PER_SEC with 1000000000. change SLEW_RATE_PPM with 2000. intros Hk Hf Hx Hy Hl Hs.
  assert (Z.abs (y - x) * k < (local + slew + 2) * k) as H; [|apply Z.mul_lt_mono_pos_r in H; lia].
  rewrite <-(Z.abs_eq k) at 1 by lia. rewrite <-Z.abs_mul.
  pose proof (Z.abs_mul x k) as Hxk. rewrite (Z.abs_eq k) in Hxk by lia.
  pose proof (Z.mul_le_mono_nonneg_r _ _ k ltac:(lia) Hs). pose proof (Z.mul_le_mono_nonneg_l _ _ k ltac:(lia) Hf).
  lia.
Qed.

Lemma divide_up_slack n : 0 <= n -> n <= WIDE -> divide_up n NSEC_PER_SEC = Some ((n + NSEC_PER_SEC - 1) / NSEC_PER_SEC).
Proof.
  intros Hn Hw. destruct (divide_up_spec n NSEC_PER_SEC) as (q & -> & Hq & _); [done|done|done|done|]. f_equal.
  apply Z.div_unique with (n + NSEC_PER_SEC - 1 - q * NSEC_PER_SEC); unfold NSEC_PER_SEC in *; lia.
Qed.

Lemma tsc_tolerance_spec sample rates : sample_valid sample -> rates_typed rates ->
  tsc_tolerance sample rates = Some (latch_slack sample rates) /\ 0 <= latch_slack sample rates <= WIDE.
Proof.
  intros (_ & _ & _ & _ & Hp & _) [Hz _]. unfold tsc_tolerance, latch_slack, is_u64, is_u32, U64_MAX, U32_MAX in *.
  set (z := Z.max (tsc_hz rates) 1). set (p := pairing_ns sample + SKEW_BOUND_NS). change SKEW_BOUND_NS with 1000 in p.
  assert (0 <= p * z <= (2 ^ 32 + 1000) * 2 ^ 64) by (unfold p, z in *; nia).
  rewrite i128_some by (unfold p, WIDE; lia). cbn [mbind option_bind]. rewrite i128_some by (unfold WIDE; lia). cbn [mbind option_bind].
  rewrite divide_up_slack by (unfold WIDE in *; lia). split; [done|]. change NSEC_PER_SEC with 1000000000.
  split; [apply Z.div_pos; lia|]. unfold WIDE. apply Z.div_le_upper_bound; lia.
Qed.

(** Reduces every operation whose value is bounded. *)
Ltac wide := cbn [mbind option_bind]; repeat (rewrite i128_some by (unfold WIDE, NSEC_PER_SEC, SLEW_RATE_PPM, SKEW_BOUND_NS; lia); cbn [mbind option_bind]).

(** What the sample's uncertainty is to cover: [Y] is a time from the sample's TSC to the realtime
    read that the guest's clock may have counted, at most half the reads around it and a slew away
    from the kernel's rate. *)
Definition may_elapse (sample : TimeSample) (reads : GuestReads) (rates : ClockRates) (y : Z) : Prop :=
  1000000 * Z.abs (y * counted rates * SCALED_ONE - exact_elapsed sample reads rates)
  <= 1000000 * SCALED_ONE * (realtime_half_cycles reads * NSEC_PER_SEC) + SLEW_RATE_PPM * Z.abs (exact_elapsed sample reads rates).

(** The offset of host UTC from the guest's clock is within the uncertainty of [theta], give or take a
    nanosecond for the rounding of the extrapolation: whatever the guest's clock counted, and whatever
    the sample's pairing and the skew between processors hide. *)
Definition covers (sample : TimeSample) (reads : GuestReads) (rates : ClockRates) (theta epsilon : Z) : Prop :=
  forall y skew, may_elapse sample reads rates y -> Z.abs skew <= pairing_ns sample + SKEW_BOUND_NS ->
    Z.abs (ts_utc_ns sample + skew - (realtime_ns reads - y) - theta) <= epsilon + 1.

(** The uncertainty is less than three nanoseconds more than the pairing, the skew, half the reads and
    the slew add up to. *)
Definition tight (sample : TimeSample) (reads : GuestReads) (rates : ClockRates) (epsilon : Z) : Prop :=
  1000000 * (epsilon - pairing_ns sample - SKEW_BOUND_NS - 3) * counted rates * SCALED_ONE
  < 1000000 * SCALED_ONE * (realtime_half_cycles reads * NSEC_PER_SEC) + SLEW_RATE_PPM * Z.abs (exact_elapsed sample reads rates).

Lemma slack_tight x k f e half local slew :
  1000 <= k -> Z.abs f <= 32768000 -> 2 * Z.abs (x * k * SCALED_ONE - e) <= k * (2 * SCALED_ONE + Z.abs f) ->
  local * k < half * NSEC_PER_SEC + k -> slew * 1000000 < Z.abs x * SLEW_RATE_PPM + 1000000 ->
  1000000 * (local + slew - 3) * k * SCALED_ONE < 1000000 * SCALED_ONE * (half * NSEC_PER_SEC) + SLEW_RATE_PPM * Z.abs e.
Proof.
  change SCALED_ONE with 65536000000. change NSEC_PER_SEC with 1000000000. change SLEW_RATE_PPM with 2000. intros Hk Hf Hx Hl Hs.
  pose proof (Z.abs_mul x k) as Hxk. rewrite (Z.abs_eq k) in Hxk by lia.
  pose proof (Z.mul_le_mono_nonneg_r (slew * 1000000) (Z.abs x * 2000 + 999999) k ltac:(lia) ltac:(lia)).
  pose proof (Z.mul_le_mono_nonneg_l _ _ k ltac:(lia) Hf). lia.
Qed.

(** The offset and its uncertainty before they are saturated. *)
Lemma pair_inside sample reads rates :
  sample_valid sample -> reads_typed reads -> rates_typed rates ->
  before reads - latch_slack sample rates <= ts_tsc sample <= after reads + latch_slack sample rates ->
  exists theta epsilon, pair_sample sample reads rates = Some (Ok (saturate theta, saturate epsilon))
    /\ covers sample reads rates theta epsilon /\ tight sample reads rates epsilon.
Proof.
  intros Hs Hr Hty Hin. unfold pair_sample. fold (counted rates). destruct (tsc_tolerance_spec sample rates Hs Hty) as [-> Ht].
  destruct (extrapolate_spec sample reads rates Hs Hr Hty) as (x & -> & Hx & Hacc).
  pose proof (counted_bounds rates Hty) as Hk. destruct Hs as (_ & _ & Hu & Htsc & Hp & _), Hr as [Hb Ha Hn _ Hh].
  unfold is_u64, is_i64, is_u32, U64_MAX, U32_MAX, I64_MIN, I64_MAX, WIDE in *. cbn [mbind option_bind].
  wide.
  destruct (Z.ltb_spec (ts_tsc sample) (before reads - latch_slack sample rates)); [lia|].
  destruct (Z.ltb_spec (after reads + latch_slack sample rates) (ts_tsc sample)); [lia|]. cbn [orb].
  wide.
  wide.
  destruct (divide_up_spec (realtime_half_cycles reads * NSEC_PER_SEC) (counted rates)) as (local & -> & Hlocal & Hl0); [unfold WIDE, NSEC_PER_SEC; lia..|].
  assert (local <= 2 ^ 94 + 2 ^ 64) by (unfold NSEC_PER_SEC in Hlocal; nia).
  wide.
  destruct (divide_up_spec (Z.abs x * SLEW_RATE_PPM) 1000000) as (slew & -> & Hslew & Hs0); [unfold WIDE, SLEW_RATE_PPM; lia..|].
  unfold SLEW_RATE_PPM in Hslew. cbn [mbind option_bind]. unfold SKEW_BOUND_NS.
  wide.
  eexists _, _. split; [done|]. split.
  - intros y skew Hy Hskew. unfold SKEW_BOUND_NS in Hskew.
    pose proof (slack_covers x y _ _ _ _ local slew (proj1 Hk) (corrected_bounds rates) Hacc Hy (proj1 Hlocal) (proj1 Hslew)). lia.
  - unfold tight, SKEW_BOUND_NS. match goal with |- 1000000 * (?e - _ - _ - 3) * _ * _ < _ => replace (e - pairing_ns sample - 1000 - 3) with (local + slew - 3) by lia end.
    apply (slack_tight x _ _ _ _ _ _ (proj1 Hk) (corrected_bounds rates) Hacc (proj2 Hlocal)). unfold SLEW_RATE_PPM. lia.
Qed.

Lemma pair_outside sample reads rates :
  sample_valid sample -> reads_typed reads -> rates_typed rates ->
  ~ (before reads - latch_slack sample rates <= ts_tsc sample <= after reads + latch_slack sample rates) ->
  pair_sample sample reads rates = Some (Err (SampleTsc (ts_tsc sample) (before reads) (after reads))).
Proof.
  intros Hs Hr Hty Hout. unfold pair_sample. destruct (tsc_tolerance_spec sample rates Hs Hty) as [-> Ht]. set (slack := latch_slack sample rates) in *.
  destruct Hr as [Hb Ha _ _ Hh], Hs as (_ & _ & _ & _ & Hp & _). unfold is_u64, is_u32, U64_MAX, U32_MAX in *. unfold WIDE in Ht. wide.
  destruct (Z.ltb_spec (ts_tsc sample) (before reads - slack)), (Z.ltb_spec (after reads + slack) (ts_tsc sample)); done || lia.
Qed.

Lemma pair_total sample reads rates : sample_valid sample -> reads_typed reads -> rates_typed rates -> exists r, pair_sample sample reads rates = Some r.
Proof.
  intros Hs Hr Hty. destruct (decide (before reads - latch_slack sample rates <= ts_tsc sample <= after reads + latch_slack sample rates)) as [Hin|Hout].
  - destruct (pair_inside sample reads rates Hs Hr Hty Hin) as (theta & epsilon & -> & _). eauto.
  - rewrite pair_outside by done. eauto.
Qed.

Lemma saturate_inside z : I64_MIN < saturate z < I64_MAX -> saturate z = z.
Proof. unfold saturate, clamp, I64_MIN, I64_MAX. lia. Qed.

(** C36: For every sample and every read of the guest's clocks the arithmetic stays within 128 bits. A
    sample is refused exactly when its TSC lies outside the reads around the latch by more cycles than
    its pairing and the skew between processors take, rounded up. The result of another sample is an
    offset and an uncertainty, each cut to 64 bits if it does not fit. Uncut, they are sound: whatever
    time the guest's clock counted from the sample to the realtime read, within half the reads and a
    slew of the kernel's rate, and whatever error within the pairing and the skew bound the sample has,
    the offset of host UTC is within the uncertainty of the result, to the nanosecond that the rounding
    of the extrapolation takes; and the uncertainty is less than three nanoseconds more than those
    four errors together. *)
Theorem sample_pairing_sound sample reads rates :
  sample_valid sample -> reads_typed reads -> rates_typed rates ->
  (pair_sample sample reads rates = Some (Err (SampleTsc (ts_tsc sample) (before reads) (after reads)))
   /\ ~ (before reads - latch_slack sample rates <= ts_tsc sample <= after reads + latch_slack sample rates))
  \/ (before reads - latch_slack sample rates <= ts_tsc sample <= after reads + latch_slack sample rates)
     /\ exists theta epsilon, pair_sample sample reads rates = Some (Ok (saturate theta, saturate epsilon))
        /\ covers sample reads rates theta epsilon /\ tight sample reads rates epsilon
        /\ (I64_MIN < saturate theta < I64_MAX -> I64_MIN < saturate epsilon < I64_MAX ->
            covers sample reads rates (saturate theta) (saturate epsilon) /\ tight sample reads rates (saturate epsilon)).
Proof.
  intros Hs Hr Hty. destruct (decide (before reads - latch_slack sample rates <= ts_tsc sample <= after reads + latch_slack sample rates)) as [Hin|Hout].
  - right. split; [done|]. destruct (pair_inside sample reads rates Hs Hr Hty Hin) as (theta & epsilon & E & Hc & Ht).
    exists theta, epsilon. split_and!; [done..|]. intros H1 H2. by rewrite (saturate_inside _ H1), (saturate_inside _ H2).
  - left. split; [by apply pair_outside|done].
Qed.

Definition sample_sample : TimeSample :=
  mkTimeSample 0 1 1700000000000000000 1000000 250 (mkHostUtc Synchronized 0 1000000 (Some 65536) (Some 500)).
Definition sample_reads : GuestReads := mkGuestReads 999000 1001000 1700000000000123456 1002000 120.
Definition sample_rates : ClockRates := mkClockRates 2500000000 100000.

(** The nanosecond of rounding is needed: at 2.9 GHz, a sample 127555 cycles before the read. *)
Example rounding_takes_a_nanosecond :
  let sample := mkTimeSample 0 1 0 0 0 (mkHostUtc Synchronized 0 0 None None) in
  let reads := mkGuestReads 0 0 0 127555 0 in let rates := mkClockRates 2899999000 24584939 in
  exists y theta epsilon, pair_sample sample reads rates = Some (Ok (theta, epsilon))
    /\ may_elapse sample reads rates y /\ Z.abs (SKEW_BOUND_NS + y - theta) = epsilon + 1.
Proof. cbv zeta. exists 44089, 44000, 1088. vm_compute. repeat split; congruence. Qed.

Lemma sample_pairing_sound_witness :
  pair_sample sample_sample sample_reads sample_rates = Some (Ok (-122656, 1300)) /\ covers sample_sample sample_reads sample_rates (-122656) 1300.
Proof.
  destruct (sample_pairing_sound sample_sample sample_reads sample_rates) as [[_ Hout]|(_ & theta & epsilon & Hp & _ & _ & H)].
  - unfold sample_valid, is_u32, is_u64, is_i64, U32_MAX, U64_MAX, I64_MIN, I64_MAX. cbn. unfold SAMPLE_UNKNOWN, U32_MAX. split_and!; lia || (by left) || done.
  - split; unfold is_u64, is_i64, U64_MAX, I64_MIN, I64_MAX; cbn; lia.
  - split; unfold is_u64, is_i64, U64_MAX, I64_MIN, I64_MAX; cbn; lia.
  - exfalso. apply Hout. change (latch_slack sample_sample sample_rates) with 3125. cbn. lia.
  - assert (pair_sample sample_sample sample_reads sample_rates = Some (Ok (-122656, 1300))) as E by reflexivity. split; [exact E|].
    rewrite E in Hp. assert (saturate theta = -122656 /\ saturate epsilon = 1300) as [Et Ee] by (split; congruence). rewrite Et, Ee in H. apply H; unfold I64_MIN, I64_MAX; lia.
Defined.

(** ** Corrections *)

(** The rate that the correction asks for, less one, in units of 1 / tsc_hz. *)
Definition exact_numerator (correction hz : Z) : Z := (SCALED_ONE + correction) * kernel_tsc_hz hz - SCALED_ONE * Z.max hz 1.

Lemma guest_frequency_value c hz : is_u64 hz ->
  exists q, nearest q (exact_numerator (clamp c (- SCALED_ONE) SCALED_ONE) hz) (Z.max hz 1)
    /\ guest_frequency c hz = Some (clamp q (- FREQUENCY_LIMIT) FREQUENCY_LIMIT, negb (clamp q (- FREQUENCY_LIMIT) FREQUENCY_LIMIT =? q)).
Proof.
  unfold is_u64, U64_MAX. intros Hz. pose proof (kernel_tsc_hz_bounds hz ltac:(lia)) as [Hk _].
  unfold guest_frequency, exact_numerator. set (c' := clamp c (- SCALED_ONE) SCALED_ONE).
  assert (- SCALED_ONE <= c' <= SCALED_ONE) as Hc by (unfold c', clamp; change SCALED_ONE with 65536000000; lia).
  clearbody c'. change SCALED_ONE with 65536000000 in *. assert (0 <= (65536000000 + c') * kernel_tsc_hz hz <= 131072000000 * 2 ^ 64) by nia.
  wide. destruct (divide_rounded_spec ((65536000000 + c') * kernel_tsc_hz hz - 65536000000 * Z.max hz 1) (Z.max hz 1)) as (q & -> & Hq); [lia|unfold WIDE; lia..|].
  by exists q.
Qed.

(** A quotient that is above the limit, and one that is below. *)
Lemma nearest_above q n d m : 0 < d -> nearest q n d -> (m + 1) * d <= n -> m < q.
Proof. unfold nearest. intros. nia. Qed.

Lemma nearest_below q n d m : 0 < d -> nearest q n d -> n <= (m - 1) * d -> q < m.
Proof. unfold nearest. intros. nia. Qed.

Lemma nearest_exists n d : 0 < d -> exists q, nearest q n d.
Proof.
  intros Hd. unfold nearest. exists ((2 * n + d) / (2 * d)). pose proof (Z.div_mod (2 * n + d) (2 * d) ltac:(lia)).
  pose proof (Z.mod_pos_bound (2 * n + d) (2 * d) ltac:(lia)). lia.
Qed.

(** A rate's kHz are more than half of it, so a correction of one doubles it beyond the limit. *)
Lemma kernel_tsc_hz_half hz : 0 <= hz -> kernel_tsc_hz hz = 0 \/ 1 <= hz /\ 32769000 * hz <= 65536000000 * (2 * kernel_tsc_hz hz - hz).
Proof.
  intros Hz. unfold kernel_tsc_hz, HZ_PER_KHZ. pose proof (Z.div_mod hz 1000 ltac:(lia)). pose proof (Z.mod_pos_bound hz 1000 ltac:(lia)).
  destruct (Z.eq_dec (hz / 1000) 0) as [->|]; [by left|right]. pose proof (Z.div_pos hz 1000 Hz ltac:(lia)). lia.
Qed.

(** The limit that Linux sets hides every quotient beyond it. *)
Definition limited (q : Z) : Z * bool := (clamp q (- FREQUENCY_LIMIT) FREQUENCY_LIMIT, negb (clamp q (- FREQUENCY_LIMIT) FREQUENCY_LIMIT =? q)).

Lemma limited_above q : FREQUENCY_LIMIT < q -> limited q = (FREQUENCY_LIMIT, true).
Proof. unfold limited, clamp. change FREQUENCY_LIMIT with 32768000. intros. rewrite Z.min_l, Z.max_r by lia. by destruct (Z.eqb_spec 32768000 q); [lia|]. Qed.

Lemma limited_below q : q < - FREQUENCY_LIMIT -> limited q = (- FREQUENCY_LIMIT, true).
Proof. unfold limited, clamp. change FREQUENCY_LIMIT with 32768000. intros. rewrite Z.max_l by lia. by destruct (Z.eqb_spec (- (32768000)) q); [lia|]. Qed.

(** The bound of the correction before the arithmetic never shows. *)
Lemma guest_frequency_exact c hz : is_u64 hz -> exists q, nearest q (exact_numerator c hz) (Z.max hz 1) /\ guest_frequency c hz = Some (limited q).
Proof.
  intros Hz. destruct (guest_frequency_value c hz Hz) as (p & Hp & ->). fold (limited p).
  destruct (nearest_exists (exact_numerator c hz) (Z.max hz 1) ltac:(lia)) as [q Hq].
  unfold is_u64, U64_MAX, exact_numerator, clamp in *. pose proof (kernel_tsc_hz_bounds hz ltac:(lia)) as [Hk _].
  change SCALED_ONE with 65536000000 in *. destruct (kernel_tsc_hz_half hz ltac:(lia)) as [E|[Hge Hh]].
  { exists p. rewrite E in *. by rewrite !Z.mul_0_r in *. }
  destruct (Z.lt_ge_cases 65536000000 c) as [Hc|Hc].
  - replace (Z.max (Z.opp 65536000000) (Z.min 65536000000 c)) with 65536000000 in Hp by lia. exists q. split; [done|]. rewrite !limited_above; [done| |]; change FREQUENCY_LIMIT with 32768000.
    + apply (nearest_above q _ (Z.max hz 1) _ ltac:(lia) Hq). pose proof (Z.mul_le_mono_nonneg_r 131072000000 (65536000000 + c) (kernel_tsc_hz hz) ltac:(lia) ltac:(lia)). lia.
    + apply (nearest_above p _ (Z.max hz 1) _ ltac:(lia) Hp). lia.
  - destruct (Z.lt_ge_cases c (- 65536000000)) as [Hc'|Hc'].
    + replace (Z.max (Z.opp 65536000000) (Z.min 65536000000 c)) with (- 65536000000) in Hp by lia. exists q. split; [done|]. rewrite !limited_below; [done| |]; change FREQUENCY_LIMIT with 32768000.
      * apply (nearest_below q _ (Z.max hz 1) _ ltac:(lia) Hq). pose proof (Z.mul_le_mono_nonneg_r (65536000000 + c) 0 (kernel_tsc_hz hz) ltac:(lia) ltac:(lia)). lia.
      * apply (nearest_below p _ (Z.max hz 1) _ ltac:(lia) Hp). lia.
    + replace (Z.max (Z.opp 65536000000) (Z.min 65536000000 c)) with c in Hp by lia. exists p. split; [exact Hp|reflexivity].
Qed.

(** The units of a report: a frequency to the nearest part per billion, a bound rounded up. *)
Lemma frequency_to_ppb_nearest f : is_i64 f -> exists q, frequency_to_ppb f = Some (saturate q) /\ nearest q (f * PPB_PER_PPM) SCALED_PPM.
Proof.
  unfold is_i64, I64_MIN, I64_MAX, frequency_to_ppb. intros. rewrite i128_some by (unfold WIDE, PPB_PER_PPM; lia). cbn [mbind option_bind].
  destruct (divide_rounded_spec (f * PPB_PER_PPM) SCALED_PPM) as (q & -> & Hq); [done|unfold WIDE, PPB_PER_PPM; lia|done|]. by exists q.
Qed.

Lemma bound_to_ppb_up bound : is_u32 bound -> bound * PPB_PER_PPM <= bound_to_ppb bound * SCALED_PPM < bound * PPB_PER_PPM + SCALED_PPM /\ is_u64 (bound_to_ppb bound).
Proof.
  unfold is_u32, is_u64, U32_MAX, U64_MAX, bound_to_ppb. change SCALED_PPM with 65536. change PPB_PER_PPM with 1000. intros.
  pose proof (Z.div_mod (- (bound * 1000)) 65536 ltac:(lia)). pose proof (Z.mod_pos_bound (- (bound * 1000)) 65536 ltac:(lia)). lia.
Qed.

(** Microseconds, rounded up, of at most an [i64] of nanoseconds. *)
Lemma ceil_us_value ns : 0 <= ns -> ceil_us (saturate ns) = Z.min (I64_MAX / NSEC_PER_USEC) ((ns + NSEC_PER_USEC - 1) / NSEC_PER_USEC).
Proof.
  intros H. unfold ceil_us, saturating_add_i64, saturate, clamp, NSEC_PER_USEC. change (I64_MAX / 1000) with 9223372036854775.
  unfold I64_MIN, I64_MAX. rewrite Z.quot_div_nonneg by lia. pose proof (Z.div_mod (ns + 1000 - 1) 1000 ltac:(lia)).
  pose proof (Z.mod_pos_bound (ns + 1000 - 1) 1000 ltac:(lia)). set (a := Z.max _ _). symmetry.
  apply Z.div_unique with (a - 1000 * Z.min 9223372036854775 ((ns + 1000 - 1) / 1000)); unfold a; lia.
Qed.

Definition adjustment_exact (theta epsilon : Z) (fast : bool) (frequency host_error_us : Z) (adjustment : ClockAdjustment) : Prop :=
  match adjustment with
  | Step seconds nanoseconds =>
      STEP_THRESHOLD_NS <= Z.abs theta /\ seconds * NSEC_PER_SEC + nanoseconds = theta /\ 0 <= nanoseconds < NSEC_PER_SEC
  | Slew offset_ns time_constant hold =>
      Z.abs theta < STEP_THRESHOLD_NS /\ offset_ns = theta /\ time_constant = (if fast then 4 else 6) /\ scaled_ppm hold = frequency
      /\ maximum_error_us hold
         = Z.min I64_MAX (Z.min (I64_MAX / NSEC_PER_USEC) ((Z.abs theta + epsilon + NSEC_PER_USEC - 1) / NSEC_PER_USEC) + host_error_us)
      /\ estimated_error_us hold = Z.min (I64_MAX / NSEC_PER_USEC) ((epsilon + NSEC_PER_USEC - 1) / NSEC_PER_USEC)
  | _ => False
  end.

(** The frequency that follows host UTC is the nearest to [(1 + correction) * F_k / F - 1] for every
    correction, the ones beyond 100% included, within Linux's limit and marked as limited exactly when
    it was cut, without an overflow; and the adjustment of the wall clock is a step by exactly the
    offset from 128 ms on, and otherwise a slew whose errors are rounded up, the host's added, and
    capped at the largest values. *)
Theorem clock_correction_exact correction hz theta epsilon fast host_error :
  is_u64 hz -> is_i64 theta -> 0 <= epsilon <= I64_MAX -> 0 <= host_error <= I64_MAX ->
  exists q, nearest q (exact_numerator correction hz) (Z.max hz 1)
    /\ guest_frequency correction hz = Some (limited q)
    /\ adjustment_exact theta epsilon fast (limited q).1 host_error (plan_correction theta epsilon fast (limited q).1 host_error).
Proof.
  intros Hz Ht He Hh. destruct (guest_frequency_exact correction hz Hz) as (q & Hq & E). exists q. split_and!; [done|done|].
  unfold plan_correction, split_offset. destruct (Z.leb_spec STEP_THRESHOLD_NS (Z.abs theta)) as [Hs|Hs]; cbn.
  - split_and!; [done| |apply Z.mod_pos_bound; done..]. pose proof (Z.div_mod theta NSEC_PER_SEC ltac:(done)). lia.
  - unfold is_i64, STEP_THRESHOLD_NS in *. destruct (Z.leb_spec (Z.abs theta) I64_MAX); [|unfold I64_MAX in *; lia].
    split_and!; [done..| |].
    + unfold saturating_add_i64 at 2. rewrite ceil_us_value by lia. unfold saturating_add_i64, saturate, clamp.
      assert (0 <= (Z.abs theta + epsilon + NSEC_PER_USEC - 1) / NSEC_PER_USEC) by (apply Z.div_pos; unfold NSEC_PER_USEC; lia).
      assert (0 <= I64_MAX / NSEC_PER_USEC) by done. unfold I64_MIN in *. lia.
    + rewrite <-(ceil_us_value epsilon) by lia. unfold saturate, clamp. rewrite Z.min_r, Z.max_r by (unfold I64_MIN in *; lia). done.
Qed.

Lemma clock_correction_exact_witness :
  guest_frequency 1000000 2500000999 = Some (973811, false)
  /\ plan_correction (-122656) 1300 false 973811 500 = Slew (-122656) 6 (mkFrequencyHold 973811 624 2)
  /\ exists q, nearest q (exact_numerator 1000000 2500000999) 2500000999 /\ Some (limited q) = Some (973811, false)
     /\ adjustment_exact (-122656) 1300 false (limited q).1 500 (plan_correction (-122656) 1300 false (limited q).1 500).
Proof.
  split; [reflexivity|]. split; [reflexivity|].
  destruct (clock_correction_exact 1000000 2500000999 (-122656) 1300 false 500) as (q & Hq & E & H);
    [unfold is_u64, U64_MAX; lia|unfold is_i64, I64_MIN, I64_MAX; lia|unfold I64_MAX; lia|unfold I64_MAX; lia|].
  exists q. split; [exact Hq|]. split; [rewrite <-E; reflexivity|exact H].
Defined.
