(* ===== verification/GuestText.v ===== *)
(** * Numbers, log records and CPU sets of the guest's text files
    (src/nvx-rs/src/guest/parse.rs, guest/kernel_text.rs, guest/time/cpu_mask.rs)

    The strict readers of numbers, the search in kernel messages, the records of the kernel's log,
    CPU lists in the kernel's syntax, and the CPU sets that the time ABI keeps as one word. *)

From S2P Require Import Prelude Cmdline Export Lowering AddressText NetworkArguments Endpoints TemplateKey.

Definition DASH : byte := byte_of 45.
Definition COMMA : byte := byte_of 44.
Definition NEWLINE : byte := byte_of 10.
Definition SEMICOLON : byte := byte_of 59.

(** [std::str::from_utf8]. *)
Definition from_utf8 (text : list byte) : option (list byte) := if is_utf8 text then Some text else None.

(** ** Numbers (guest/parse.rs) *)

(** The value of digits of a radix. *)
Definition radix_value (radix : Z) (text : list byte) : Z :=
  foldl (fun value digit => value * radix + default 0 (to_digit radix digit)) 0 text.

(** [u64::from_str_radix] of digits. *)
Definition from_str_radix (digits : list byte) (radix : Z) : option Z :=
  let value := radix_value radix digits in if value <=? U64_MAX then Some value else None.

Definition is_digit (radix : Z) (b : byte) : bool := is_some (to_digit radix b).

Definition parse_u64 (text : list byte) : option Z :=
  text ← from_utf8 text;
  '(digits, radix) ←
    match match strip_prefix (bytes_of "0x") text with Some digits => Some digits | None => strip_prefix (bytes_of "0X") text end with
    | Some digits => Some (digits, 16)
    | None => if (1 <? len text) && bool_decide (head text = Some (byte_of 48)) then None else Some (text, 10)
    end;
  if is_empty digits || negb (forallb (is_digit radix) digits) then None
  else from_str_radix digits radix.

(** [str::parse::<u64>] of decimal digits. *)
Definition parse_decimal (text : list byte) : option Z :=
  if is_empty text || negb (forallb is_ascii_digit text) then None
  else text ← from_utf8 text; if decimal_value text <=? U64_MAX then Some (decimal_value text) else None.

Definition parse_hexadecimal (text : list byte) : option Z :=
  if is_empty text || negb (forallb (is_digit 16) text) then None
  else text ← from_utf8 text; from_str_radix text 16.

(** [str::parse] of an integer type from [low] through [high]: one sign at most, a minus only for
    a type that has negative values, then digits. *)
Definition std_parse (low high : Z) (text : list byte) : option Z :=
  let '(negative, digits) :=
    match text with
    | b :: (_ :: _) as digits => if byte_val b =? 43 then (false, digits)
                                 else if (byte_val b =? 45) && (low <? 0) then (true, digits)
                                 else (false, text)
    | _ => (false, text)
    end in
  if is_empty digits || negb (forallb is_ascii_digit digits) then None
  else
    let value := if negative then - decimal_value digits else decimal_value digits in
    if (low <=? value) && (value <=? high) then Some value else None.

Definition parse_integer (low high : Z) (text : list byte) : option Z :=
  let digits := default text (strip_prefix (bytes_of "-") text) in
  if is_empty digits || negb (forallb is_ascii_digit digits) then None
  else text ← from_utf8 text; std_parse low high text.

(** ** Searches (guest/kernel_text.rs) *)

(** [slice::windows(n)], of a positive [n]. *)
Fixpoint windows {A} (n : Z) (l : list A) : list (list A) :=
  match l with
  | [] => []
  | _ :: rest => if n <=? len l then ztake n l :: windows n rest else []
  end.

Definition find (haystack needle : list byte) : option Z :=
  if is_empty needle then Some 0 else position (fun window => bool_decide (window = needle)) (windows (len needle) haystack).

Definition contains (haystack needle : list byte) : bool := is_some (find haystack needle).

(** ** The kernel's log *)

Record KmsgRecord := mkKmsgRecord { kmsg_timestamp_us : option Z; kmsg_message : list byte }.

(** [split(..).next().unwrap_or_default()]. *)
Definition first_piece (p : byte -> bool) (text : list byte) : list byte := default [] (head (split_on p text)).

Definition parse_kmsg (record : list byte) : option KmsgRecord :=
  match splitn 2 (is_byte SEMICOLON) record with
  | header :: body :: _ =>
      Some (mkKmsgRecord (field ← split_on (is_byte COMMA) header !! 2%nat; parse_decimal field) (first_piece (is_byte NEWLINE) body))
  | _ => None
  end.

Record SyslogLine := mkSyslogLine { syslog_timestamp_us : option Z; syslog_message : list byte }.

(** [trim_start_matches(' ')]. *)
Fixpoint trim_start_spaces (text : list byte) : list byte :=
  match text with b :: rest => if byte_val b =? 32 then trim_start_spaces rest else text | [] => [] end.

(** The first [count] decimals of a fraction, with zeros after its end. *)
Definition decimals (count : Z) (fraction : list byte) : Z :=
  decimal_value (ztake count (fraction ++ replicate (Z.to_nat count) (byte_of 48))).

Definition checked_mul_add (whole scale fraction : Z) : option Z :=
  product ← (if whole * scale <=? U64_MAX then Some (whole * scale) else None); checked_add U64_MAX product fraction.

Definition microseconds (stamp : list byte) : option Z :=
  stamp ← from_utf8 stamp;
  '(seconds, fraction) ← split_once DOT (trim_start_spaces stamp);
  if negb (forallb is_ascii_digit (seconds ++ fraction)) then None
  else
    whole ← (if is_empty seconds then Some 0 else std_parse 0 U64_MAX seconds);
    checked_mul_add whole 1000000 (decimals 6 fraction).

Definition parse_syslog (line : list byte) : SyslogLine :=
  let line := default line
    (rest ← strip_prefix (bytes_of "<") line; end_ ← position (is_byte (byte_of 62)) rest; Some (zdrop (end_ + 1) rest)) in
  let stamped :=
    rest ← strip_prefix (bytes_of "[") line;
    end_ ← position (is_byte (byte_of 93)) rest;
    timestamp_us ← microseconds (ztake end_ rest);
    let message := zdrop (end_ + 1) rest in
    Some (mkSyslogLine (Some timestamp_us) (default message (strip_prefix (bytes_of " ") message))) in
  default (mkSyslogLine None line) stamped.

(** ** CPU lists *)

(** One item of a list; a [u64] is a [usize]. *)
Definition cpu_range (item : list byte) : option (Z * Z) :=
  match splitn 2 (is_byte DASH) item with
  | first :: bounds =>
      first ← parse_decimal first;
      last ← match bounds with last :: _ => parse_decimal last | [] => Some first end;
      if first <=? last then Some (first, last) else None
  | [] => None
  end.

Definition parse_cpu_list (text : list byte) : option (list (Z * Z)) :=
  if is_empty text then Some [] else mapM cpu_range (split_on (is_byte COMMA) text).

(** ** CPU sets (guest/time/cpu_mask.rs) *)

Definition MAX_CPUS : Z := 64.

Definition CpuMask : Type := Z.
Definition EMPTY : CpuMask := 0.

(** [self.0 | 1 << cpu], of a CPU below [MAX_CPUS]. *)
Definition with_cpu (self : CpuMask) (cpu : Z) : CpuMask := Z.lor self (Z.shiftl 1 cpu).

Definition has_cpu (self : CpuMask) (cpu : Z) : bool := (cpu <? MAX_CPUS) && negb (Z.land self (Z.shiftl 1 cpu) =? 0).

(** The CPUs of an inclusive range. *)
Definition range_cpus (range : Z * Z) : list Z := seqZ range.1 (range.2 - range.1 + 1).

(** The [try_fold] over the ranges. *)
Fixpoint add_ranges (mask : CpuMask) (ranges : list (Z * Z)) : option CpuMask :=
  match ranges with
  | [] => Some mask
  | range :: ranges => if range.2 <? MAX_CPUS then add_ranges (foldl with_cpu mask (range_cpus range)) ranges else None
  end.

Definition parse_mask (text : list byte) : option CpuMask := ranges ← parse_cpu_list text; add_ranges EMPTY ranges.

Definition parse_new (text : list byte) : option CpuMask :=
  if bool_decide (text = bytes_of "none") then Some EMPTY else parse_mask text.

(** [u64::count_ones]. *)
Definition mask_len (self : CpuMask) : Z := len (List.filter (Z.testbit self) (seqZ 0 64)).
Definition mask_is_empty (self : CpuMask) : bool := self =? 0.
Definition mask_iter (self : CpuMask) : list Z := List.filter (has_cpu self) (seqZ 0 MAX_CPUS).

(** [slice::chunk_by]. *)
Fixpoint chunk_by {A} (p : A -> A -> bool) (l : list A) : list (list A) :=
  match l with
  | [] => []
  | x :: rest =>
      match chunk_by p rest with
      | (y :: run) :: runs => if p x y then (x :: y :: run) :: runs else [x] :: (y :: run) :: runs
      | _ => [[x]]
      end
  end.

(** A run's text: its first and last CPU. *)
Definition write_run (run : list Z) : list byte :=
  let first := default 0 (head run) in
  let last := default 0 (last run) in
  if first =? last then dec first else dec first ++ [DASH] ++ dec last.

Definition write_mask (self : CpuMask) : list byte :=
  if mask_is_empty self then bytes_of "none"
  else join [COMMA] (write_run <$> chunk_by (fun cpu next => cpu + 1 =? next) (mask_iter self)).

Example write_mask_sample : write_mask 0x4f = bytes_of "0-3,6" /\ parse_mask (bytes_of "0-3,6") = Some 0x4f.
Proof. split; reflexivity. Qed.
Example syslog_sample : parse_syslog (bytes_of "<6>[    1.5] a") = mkSyslogLine (Some 1500000) (bytes_of "a").
Proof. reflexivity. Qed.

(** ** Numbers *)

Lemma decimal_utf8 text : forallb is_ascii_digit text = true -> from_utf8 text = Some text.
Proof.
  intros Hd%forallb_digits. unfold from_utf8. rewrite ascii_utf8; [done|]. eapply Forall_impl; [exact Hd|].
  intros b Hb. unfold is_ascii_digit in Hb. bool_to_prop. lia.
Qed.

(** A decimal number: digits alone, whose value fits. *)
Definition is_number (text : list byte) (n : Z) : Prop := is_decimal text /\ n = decimal_value text /\ n <= U64_MAX.

Lemma parse_decimal_exact text n : parse_decimal text = Some n <-> is_number text n.
Proof.
  unfold parse_decimal, is_number, is_decimal. rewrite <-forallb_digits. destruct (forallb is_ascii_digit text) eqn:Hd; rewrite ?orb_false_r, ?orb_true_r.
  2: { split; [by destruct (is_empty text)|]. intros ([_ ?] & _). done. }
  rewrite (decimal_utf8 text Hd). destruct text as [|b text]; [by split; [|intros ([? _] & _)]|]. cbn [is_empty orb negb mbind option_bind].
  destruct (Z.leb_spec (decimal_value (b :: text)) U64_MAX); [|split; [done|lia]]. split; [intros [= <-]; by split_and!|]. by intros (_ & -> & _).
Qed.

Lemma parse_decimal_dec n : is_u64 n -> parse_decimal (dec n) = Some n.
Proof.
  unfold is_u64. intros Hn. apply parse_decimal_exact. unfold is_number, is_decimal. split_and!; [by apply digits_nonempty; lia|apply dec_digits; lia| |lia].
  unfold dec. rewrite digits_decimal; [done|]. change (10 ^ Z.of_nat 20) with (10 ^ 20). unfold U64_MAX in Hn. lia.
Qed.

Lemma digit_separator c b : c ∈ bytes_of "-,=;>]." -> is_ascii_digit b = true -> is_byte c b = false.
Proof.
  intros Hc Hb. apply bool_decide_eq_false. intros ->. unfold is_ascii_digit in Hb. bool_to_prop.
  assert (Forall (fun c => byte_val c < 48 \/ 57 < byte_val c) (bytes_of "-,=;>].")) as Hall by (repeat constructor; cbn; lia).
  rewrite Forall_forall in Hall. specialize (Hall c Hc). lia.
Qed.

Lemma dec_separator c n : c ∈ bytes_of "-,=;>]." -> 0 <= n -> Forall (fun b => is_byte c b = false) (dec n).
Proof. intros Hc Hn. eapply Forall_impl; [by apply dec_digits|]. intros b. by apply digit_separator. Qed.

(** ** CPU lists *)

(** The texts of a range: one number, or two with a dash between them. *)
Definition range_text (item : list byte) (range : Z * Z) : Prop :=
  (is_number item range.1 /\ range.2 = range.1)
  \/ exists first last, item = first ++ DASH :: last /\ is_number first range.1 /\ is_number last range.2 /\ range.1 <= range.2.

Lemma number_clean c text n : c ∈ bytes_of "-,=;>]." -> is_number text n -> Forall (fun b => is_byte c b = false) text.
Proof. intros Hc [[_ Hd] _]. eapply Forall_impl; [exact Hd|]. intros b. by apply digit_separator. Qed.

Lemma splitn_two p (text : list byte) :
  splitn 2 p text = match position p text with Some i => [ztake i text; zdrop (i + 1) text] | None => [text] end.
Proof. cbn. by destruct (position p text). Qed.

Lemma cpu_range_exact item range : cpu_range item = Some range <-> range_text item range.
Proof.
  unfold cpu_range, range_text. rewrite splitn_two. destruct range as [a b]. cbn [fst snd]. destruct (position (is_byte DASH) item) as [i|] eqn:Hp.
  - apply position_some in Hp as (k & x & r & -> & -> & Hx & Hk). apply bool_decide_eq_true in Hx as ->.
    rewrite ztake_app_l, ztake_all, zdrop_app_r by lia. replace (len k + 1 - len k) with 1 by lia. change (zdrop 1 (DASH :: r)) with r. split.
    + destruct (parse_decimal k) as [f|] eqn:Hf; [|done]. cbn [mbind option_bind]. destruct (parse_decimal r) as [l|] eqn:Hl; [|done]. cbn [mbind option_bind].
      apply parse_decimal_exact in Hf, Hl. destruct (Z.leb_spec f l); [|done]. intros [= <- <-]. right. by exists k, r.
    + intros [[Hn _]|(f & l & E & Hf & Hl & Hle)].
      { apply (number_clean DASH) in Hn; [|by left]. apply Forall_app in Hn as [_ Hn]. by inv Hn. }
      assert (k = f /\ r = l) as [-> ->].
      { pose proof (proj2 (split_once_spec DASH (k ++ DASH :: r) k r) (conj eq_refl Hk)) as E1.
        rewrite E in E1. rewrite (proj2 (split_once_spec DASH (f ++ DASH :: l) f l)) in E1; [by injection E1|].
        split; [done|]. apply (number_clean DASH f a); [by left|done]. }
      rewrite (proj2 (parse_decimal_exact f a) Hf), (proj2 (parse_decimal_exact l b) Hl). cbn [mbind option_bind].
      by rewrite (proj2 (Z.leb_le a b) Hle).
  - apply position_none in Hp. split.
    + destruct (parse_decimal item) as [f|] eqn:Hf; [|done]. cbn [mbind option_bind]. apply parse_decimal_exact in Hf. rewrite Z.leb_refl.
      intros [= <- <-]. by left.
    + intros [[Hn ->]|(f & l & -> & _)].
      { rewrite (proj2 (parse_decimal_exact item a) Hn). cbn [mbind option_bind]. by rewrite Z.leb_refl. }
      apply Forall_app in Hp as [_ Hp]. by inv Hp.
Qed.

Lemma range_clean item range : range_text item range -> Forall (fun b => is_byte COMMA b = false) item.
Proof.
  assert (COMMA ∈ bytes_of "-,=;>].") by (by right; left).
  intros [[Hn _]|(f & l & -> & Hf & Hl & _)]; [by apply (number_clean COMMA) in Hn|].
  apply Forall_app. split; [by apply (number_clean COMMA) in Hf|]. constructor; [done|by apply (number_clean COMMA) in Hl].
Qed.

(** The lists are exactly ranges between commas. *)
Lemma parse_cpu_list_exact text ranges :
  parse_cpu_list text = Some ranges
  <-> (text = [] /\ ranges = []) \/ exists items, items <> [] /\ text = join [COMMA] items /\ Forall2 range_text items ranges.
Proof.
  unfold parse_cpu_list. split.
  - destruct text as [|b text]; cbn [is_empty]; [intros [= <-]; by left|]. intros Hm. right. exists (split_on (is_byte COMMA) (b :: text)).
    split_and!; [|by rewrite join_split_dot|]. { destruct (split_on_cons (is_byte COMMA) (b :: text)) as (? & ? & ->). done. }
    apply mapM_Some in Hm. eapply Forall2_impl; [exact Hm|]. intros item range. apply cpu_range_exact.
  - intros [[-> ->]|(items & Hne & -> & Hr)]; [done|].
    assert (is_empty (join [COMMA] items) = false) as ->.
    { destruct items as [|i items]; [done|]. inv Hr. assert (i <> []) by (destruct H1 as [[[[? _] _] _]|(? & ? & -> & _)]; [done|]; by destruct x).
      destruct items; [by destruct i|]. rewrite join_cons. by destruct i. }
    rewrite split_join; [|done|]. 2: { clear Hne. induction Hr; constructor; [by eapply range_clean|done]. }
    apply mapM_Some. eapply Forall2_impl; [exact Hr|]. intros item range. apply cpu_range_exact.
Qed.

(** ** CPU sets *)

Lemma has_cpu_testbit m c : 0 <= c -> has_cpu m c = (c <? MAX_CPUS) && Z.testbit m c.
Proof.
  intros Hc. unfold has_cpu. f_equal. rewrite Z.shiftl_1_l. destruct (Z.eqb_spec (Z.land m (2 ^ c)) 0) as [E|E]; cbn [negb].
  - apply (f_equal (fun z => Z.testbit z c)) in E. rewrite Z.land_spec, Z.pow2_bits_true, Z.bits_0, andb_true_r in E by lia. done.
  - destruct (Z.testbit m c) eqn:Hb; [done|]. destruct E. apply Z.bits_inj'. intros i Hi. rewrite Z.land_spec, Z.bits_0, Z.pow2_bits_eqb by lia.
    destruct (Z.eqb_spec c i) as [<-|]; [by rewrite Hb|by rewrite andb_false_r].
Qed.

Lemma with_cpu_testbit m c i : 0 <= c -> 0 <= i -> Z.testbit (with_cpu m c) i = Z.testbit m i || (c =? i).
Proof. intros. unfold with_cpu. by rewrite Z.lor_spec, Z.shiftl_1_l, Z.pow2_bits_eqb by lia. Qed.

Lemma fold_cpus_testbit cpus : Forall (Z.le 0) cpus -> forall m i, 0 <= i ->
  Z.testbit (foldl with_cpu m cpus) i = true <-> Z.testbit m i = true \/ i ∈ cpus.
Proof.
  induction 1 as [|c cpus Hc _ IH]; intros m i Hi; cbn [foldl]; [set_solver|].
  rewrite IH by done. rewrite with_cpu_testbit, orb_true_iff, Z.eqb_eq by done. set_solver.
Qed.

Lemma fold_cpus_u64 cpus : Forall (fun c => 0 <= c < MAX_CPUS) cpus -> forall m, is_u64 m -> is_u64 (foldl with_cpu m cpus).
Proof.
  induction 1 as [|c cpus Hc _ IH]; intros m Hm; cbn [foldl]; [done|]. apply IH. unfold with_cpu, is_u64, U64_MAX, MAX_CPUS in *.
  rewrite Z.shiftl_1_l. pose proof (Z.pow_lt_mono_r 2 c 64 ltac:(lia) ltac:(lia) ltac:(lia)). pose proof (Z.pow_pos_nonneg 2 c).
  enough (0 <= Z.lor m (2 ^ c) < 2 ^ 64) by lia. split; [apply Z.lor_nonneg; lia|].
  destruct (Z.eq_dec (Z.lor m (2 ^ c)) 0); [lia|]. apply Z.log2_lt_pow2; [assert (0 <= Z.lor m (2 ^ c)) by (apply Z.lor_nonneg; lia); lia|].
  rewrite Z.log2_lor by lia. apply Z.max_lub_lt; [|apply Z.log2_lt_pow2; lia]. destruct (Z.eq_dec m 0) as [->|]; [done|]. apply Z.log2_lt_pow2; lia.
Qed.

Definition range_bounded (range : Z * Z) : Prop := 0 <= range.1 <= range.2 /\ range.2 < MAX_CPUS.

Lemma range_nonneg item range : range_text item range -> 0 <= range.1 <= range.2.
Proof.
  assert (forall t n, is_number t n -> 0 <= n) as Hnn by (intros t n [[_ Hd] [-> _]]; by apply decimal_nonneg).
  intros [[Hn ->]|(f & l & _ & Hf & Hl & Hle)]; [|by eauto]. split; [by eapply Hnn|lia].
Qed.

Lemma range_cpus_elem range c : c ∈ range_cpus range <-> range.1 <= c <= range.2.
Proof. unfold range_cpus. rewrite elem_of_seqZ. lia. Qed.

Lemma add_ranges_exact ranges : Forall (fun range => 0 <= range.1 <= range.2) ranges -> forall m m',
  add_ranges m ranges = Some m' <-> Forall range_bounded ranges /\ m' = foldl with_cpu m (mjoin (range_cpus <$> ranges)).
Proof.
  induction 1 as [|range ranges Hr _ IH]; intros m m'; cbn [add_ranges fmap list_fmap mjoin list_join]; [naive_solver|].
  rewrite foldl_app. destruct (Z.ltb_spec range.2 MAX_CPUS).
  - rewrite IH, Forall_cons. unfold range_bounded. naive_solver.
  - split; [done|]. intros [[[_ ?] _]%Forall_cons _]. lia.
Qed.

Lemma concat_bounded ranges : Forall range_bounded ranges -> Forall (fun c => 0 <= c < MAX_CPUS) (mjoin (range_cpus <$> ranges)).
Proof.
  rewrite !Forall_forall. intros Hr c (cpus & Hc & (range & -> & Hin)%list_elem_of_fmap)%list_elem_of_join.
  apply range_cpus_elem in Hc. destruct (Hr _ Hin). lia.
Qed.

Lemma ranges_elem c ranges : c ∈ mjoin (range_cpus <$> ranges) <-> exists range, range ∈ ranges /\ range.1 <= c <= range.2.
Proof.
  rewrite list_elem_of_join. split.
  - intros (cpus & Hc & (range & -> & Hin)%list_elem_of_fmap). exists range. by rewrite <-range_cpus_elem.
  - intros (range & Hin & Hc). exists (range_cpus range). rewrite range_cpus_elem, list_elem_of_fmap. eauto.
Qed.

(** What a list parses to: a word whose CPUs are those of its ranges. *)
Lemma parse_mask_spec text m : parse_mask text = Some m <->
  exists ranges, parse_cpu_list text = Some ranges /\ Forall range_bounded ranges /\ is_u64 m
    /\ forall c, 0 <= c -> has_cpu m c = true <-> exists range, range ∈ ranges /\ range.1 <= c <= range.2.
Proof.
  assert (forall ranges, parse_cpu_list text = Some ranges -> Forall (fun range => 0 <= range.1 <= range.2) ranges) as Hnn.
  { intros ranges [[_ ->]|(items & _ & _ & Hf)]%parse_cpu_list_exact; [done|]. induction Hf; constructor; [by eapply range_nonneg|done]. }
  assert (forall ranges, Forall range_bounded ranges -> let m := foldl with_cpu EMPTY (mjoin (range_cpus <$> ranges)) in
    is_u64 m /\ forall c, 0 <= c -> has_cpu m c = true <-> exists range, range ∈ ranges /\ range.1 <= c <= range.2) as Hfold.
  { intros ranges Hb m'. pose proof (concat_bounded ranges Hb) as Hcb. split; [by apply fold_cpus_u64|]. intros c Hc.
    rewrite has_cpu_testbit, andb_true_iff, Z.ltb_lt by done. unfold m'. rewrite fold_cpus_testbit; [| |done].
    2: { eapply Forall_impl; [exact Hcb|]. cbn. lia. }
    unfold EMPTY. rewrite Z.bits_0, ranges_elem. split; [naive_solver|]. intros (range & Hin & Hr). split; [|by right; eauto].
    rewrite Forall_forall in Hb. destruct (Hb range Hin). lia. }
  unfold parse_mask. destruct (parse_cpu_list text) as [ranges|]; cbn [mbind option_bind]; [|naive_solver].
  rewrite (add_ranges_exact ranges (Hnn ranges eq_refl)). split.
  - intros [Hb ->]. exists ranges. split_and!; [done|done|apply (Hfold ranges Hb)..].
  - intros (? & [= <-] & Hb & Hu & Hm). split; [done|]. destruct (Hfold ranges Hb) as [Hu' Hf]. set (f := foldl _ _ _) in *.
    apply Z.bits_inj'. intros i Hi. destruct (Z.lt_ge_cases i MAX_CPUS) as [Hlt|Hge].
    + specialize (Hm i Hi). specialize (Hf i Hi). rewrite has_cpu_testbit, (proj2 (Z.ltb_lt i MAX_CPUS) Hlt) in Hm, Hf by done. cbn [andb] in Hm, Hf.
      destruct (Z.testbit m i), (Z.testbit f i); naive_solver.
    + unfold is_u64, U64_MAX, MAX_CPUS in *.
      assert (forall z, 0 <= z <= 2 ^ 64 - 1 -> Z.testbit z i = false) as Hz; [|by rewrite !Hz].
      intros z Hz. destruct (Z.eq_dec z 0) as [->|]; [apply Z.bits_0|]. apply Z.bits_above_log2; [lia|]. assert (Z.log2 z < 64); [|lia]. apply Z.log2_lt_pow2; lia.
Qed.

(** ** The text of a set *)

Lemma chunk_by_join {A} (p : A -> A -> bool) l : mjoin (chunk_by p l) = l.
Proof.
  induction l as [|x l IH]; [done|]. cbn [chunk_by]. destruct (chunk_by p l) as [|[|y run] runs] eqn:E; cbn [mjoin list_join app] in *.
  - by rewrite <-IH.
  - destruct l as [|y l]; [done|]. exfalso. cbn [chunk_by] in E. destruct (chunk_by p l) as [|[|z r] rs]; [done..|]. by destruct (p y z).
  - rewrite <-IH. by destruct (p x y).
Qed.

(** The runs of a list that counts up by one within them. *)
Lemma chunk_runs l : Forall (fun run => exists a n, run = seqZ a (Z.of_nat n + 1)) (chunk_by (fun cpu next => cpu + 1 =? next) l).
Proof.
  assert (forall x, exists a n, [x] = seqZ a (Z.of_nat n + 1)) as Hone by (intros x; by exists x, 0%nat).
  induction l as [|x l IH]; [constructor|]. cbn [chunk_by]. destruct (chunk_by _ l) as [|[|y run] runs]; [by repeat constructor..|].
  inv IH. destruct (Z.eqb_spec (x + 1) y) as [<-|]; [|by repeat constructor]. constructor; [|done].
  destruct H1 as (a & n & E). rewrite seqZ_cons in E by lia. injection E as <- ->. exists x, (S n). rewrite (seqZ_cons x) by lia. f_equal.
  rewrite (seqZ_cons (Z.succ x)) by lia. f_equal. f_equal; lia.
Qed.

Lemma write_run_text a n : is_u64 a -> is_u64 (a + Z.of_nat n) -> range_text (write_run (seqZ a (Z.of_nat n + 1))) (a, a + Z.of_nat n).
Proof.
  intros Ha Hn. unfold write_run. replace (last (seqZ a (Z.of_nat n + 1))) with (Some (a + Z.of_nat n)).
  2: { replace (Z.of_nat n + 1) with (Z.of_nat (S n)) by lia. by rewrite seqZ_S, last_snoc. }
  rewrite seqZ_cons by lia. cbn [head default]. unfold Datatypes.id.
  assert (forall z, is_u64 z -> is_number (dec z) z) as Hd by (intros z Hz; by apply parse_decimal_exact, parse_decimal_dec).
  unfold range_text. cbn [fst snd]. destruct (Z.eqb_spec a (a + Z.of_nat n)) as [E|E]; [left; split; [by apply Hd|lia]|right].
  exists (dec a), (dec (a + Z.of_nat n)). split_and!; [done|by apply Hd..|lia].
Qed.

Lemma mask_iter_elem m c : c ∈ mask_iter m <-> 0 <= c /\ has_cpu m c = true.
Proof.
  unfold mask_iter. rewrite list_elem_of_In, filter_In, <-list_elem_of_In, elem_of_seqZ. unfold has_cpu. rewrite andb_true_iff, Z.ltb_lt.
  unfold MAX_CPUS. split; intros H; naive_solver lia.
Qed.

(** The ranges that a set's text names. *)
Lemma write_mask_ranges m : mask_is_empty m = false -> mask_iter m <> [] -> exists ranges,
  parse_cpu_list (write_mask m) = Some ranges /\ Forall range_bounded ranges /\ mjoin (range_cpus <$> ranges) = mask_iter m.
Proof.
  intros He Hne. unfold write_mask. rewrite He. set (runs := chunk_by _ _).
  assert (mjoin runs = mask_iter m) as Hj by apply chunk_by_join.
  assert (Forall (fun run => Forall (fun c => 0 <= c < MAX_CPUS) run) runs) as Hb.
  { rewrite Forall_forall. intros run Hrun. rewrite Forall_forall. intros c Hc.
    assert (c ∈ mask_iter m) as Hin by (rewrite <-Hj, list_elem_of_join; eauto). apply mask_iter_elem in Hin as [? Hh].
    unfold has_cpu in Hh. bool_to_prop. lia. }
  assert (exists ranges, Forall2 range_text (write_run <$> runs) ranges /\ Forall range_bounded ranges /\ range_cpus <$> ranges = runs) as (ranges & Ht & Hr & Hc).
  { pose proof (chunk_runs (mask_iter m)) as Hruns. fold runs in Hruns. clear Hj. revert Hb. induction Hruns as [|run rs (a & n & ->) _ IH]; intros Hb.
    { by exists []. }
    apply Forall_cons in Hb as [Hb1 Hb2]. destruct (IH Hb2) as (ranges & Ht & Hr & Hc). exists ((a, a + Z.of_nat n) :: ranges).
    rewrite Forall_seqZ in Hb1. pose proof (Hb1 a ltac:(lia)). pose proof (Hb1 (a + Z.of_nat n) ltac:(lia)). unfold MAX_CPUS in *.
    split_and!; [constructor; [apply write_run_text; unfold is_u64, U64_MAX; lia|done]|constructor; [unfold range_bounded, MAX_CPUS; cbn; lia|done]|].
    cbn [fmap list_fmap]. f_equal; [|done]. unfold range_cpus. cbn [fst snd]. f_equal. lia. }
  exists ranges. split_and!; [|done|by rewrite Hc]. apply parse_cpu_list_exact. right. exists (write_run <$> runs). split_and!; [|done|done].
  destruct runs; [by rewrite <-Hj in Hne|done].
Qed.

Lemma write_mask_roundtrip m : is_u64 m -> parse_new (write_mask m) = Some m.
Proof.
  intros Hm. unfold parse_new. destruct (mask_is_empty m) eqn:He.
  { unfold write_mask. rewrite He. apply Z.eqb_eq in He as ->. done. }
  assert (mask_iter m <> []) as Hne.
  { intros E. unfold mask_is_empty in He. apply Z.eqb_neq in He. unfold is_u64, U64_MAX in Hm.
    assert (Z.log2 m < 64) by (apply Z.log2_lt_pow2; lia). pose proof (Z.log2_nonneg m).
    assert (Z.log2 m ∈ mask_iter m) as Hin; [|by rewrite E in Hin; apply elem_of_nil in Hin].
    apply mask_iter_elem. split; [done|]. rewrite has_cpu_testbit, Z.bit_log2, andb_true_r by lia. by apply Z.ltb_lt. }
  destruct (write_mask_ranges m He Hne) as (ranges & Hp & Hb & Hj).
  rewrite bool_decide_false. 2: { intros E. rewrite E in Hp. by vm_compute in Hp. }
  apply parse_mask_spec. exists ranges. split_and!; [done|done|apply Hm..|]. intros c Hc. rewrite <-ranges_elem, Hj, mask_iter_elem. naive_solver.
Qed.

(** A CPU list is taken exactly when it is empty or numbers and ascending ranges between commas, all
    below 64; the set that it gives holds the CPUs of its ranges and no others, in one word; and the
    text of every set, [none] for the empty one, is read back as the set. *)
Theorem cpu_mask_exact text m :
  (parse_mask text = Some m
   <-> exists ranges,
         ((text = [] /\ ranges = []) \/ exists items, items <> [] /\ text = join [COMMA] items /\ Forall2 range_text items ranges)
         /\ Forall range_bounded ranges /\ is_u64 m
         /\ forall c, 0 <= c -> has_cpu m c = true <-> exists range, range ∈ ranges /\ range.1 <= c <= range.2)
  /\ (is_u64 m -> parse_new (write_mask m) = Some m).
Proof. split; [|apply write_mask_roundtrip]. rewrite parse_mask_spec. by setoid_rewrite parse_cpu_list_exact. Qed.

Lemma cpu_mask_exact_witness : parse_new (write_mask 0x800000000000004f) = Some 0x800000000000004f /\ write_mask 0x800000000000004f = bytes_of "0-3,6,63".
Proof. split; [|reflexivity]. apply (cpu_mask_exact []). unfold is_u64, U64_MAX. lia. Defined.

(** ** Searches *)

Lemma windows_prefix {A} (n : Z) (l : list A) : 0 <= n -> forall w, w ∈ windows n l -> exists a b, l = a ++ w ++ b /\ len w = n.
Proof.
  intros Hn. induction l as [|x l IH]; intros w; cbn [windows]; [by intros ?%elem_of_nil|].
  destruct (Z.leb_spec n (len (x :: l))); [|by intros ?%elem_of_nil]. intros [->|Hw]%elem_of_cons.
  - exists [], (zdrop n (x :: l)). split; [by rewrite ztake_zdrop|]. rewrite len_ztake. lia.
  - destruct (IH w Hw) as (a & b & -> & Hl). by exists (x :: a), b.
Qed.

Lemma windows_all {A} (n : Z) (a w b : list A) : w <> [] -> len w = n -> w ∈ windows n (a ++ w ++ b).
Proof.
  intros Hne Hl. pose proof (len_nonneg w). pose proof (len_nonneg b). induction a as [|x a IH]; cbn [app windows].
  - destruct w as [|y w]; [done|]. cbn [app windows]. rewrite (proj2 (Z.leb_le n _)) by (change (y :: w ++ b) with ((y :: w) ++ b); rewrite len_app; lia).
    apply elem_of_cons. left. change (y :: w ++ b) with ((y :: w) ++ b). rewrite ztake_app_l, ztake_all by lia. done.
  - rewrite (proj2 (Z.leb_le n _)); [by apply elem_of_cons; right|]. rewrite len_cons, !len_app. pose proof (len_nonneg a). lia.
Qed.

Lemma contains_exact haystack needle : contains haystack needle = true <-> exists a b, haystack = a ++ needle ++ b.
Proof.
  unfold contains, find. destruct needle as [|x needle]; [split; [by exists [], haystack|done]|]. cbn [is_empty].
  destruct (position _ _) as [i|] eqn:Hp; cbn [is_some]; (split; [|try done]).
  - intros _. apply position_some in Hp as (k & w & r & E & _ & ->%bool_decide_eq_true & _).
    destruct (windows_prefix (len (x :: needle)) haystack (len_nonneg _) (x :: needle)) as (a & b & -> & _); [rewrite E; set_solver|eauto].
  - done.
  - intros (a & b & ->). apply position_none in Hp. rewrite Forall_forall in Hp.
    specialize (Hp _ (windows_all (len (x :: needle)) a (x :: needle) b ltac:(done) eq_refl)). by apply bool_decide_eq_false in Hp.
Qed.

(** ** Records of the kernel's log *)

(** Six decimals. *)
Definition six (us : Z) : list byte :=
  (fun d => byte_of (48 + d)) <$> [us / 100000 mod 10; us / 10000 mod 10; us / 1000 mod 10; us / 100 mod 10; us / 10 mod 10; us mod 10].

(** A line as [syslog(2)] gives it, with seconds padded by spaces. *)
Definition write_syslog (priority seconds us : Z) (spaces : nat) (message : list byte) : list byte :=
  bytes_of "<" ++ dec priority ++ bytes_of ">[" ++ replicate spaces (byte_of 32) ++ dec seconds ++ bytes_of "." ++ six us ++ bytes_of "] " ++ message.

(** A record as [/dev/kmsg] gives it, with the lines that continue it. *)
Definition write_kmsg (priority sequence us : Z) (flags message more : list byte) : list byte :=
  dec priority ++ COMMA :: dec sequence ++ COMMA :: dec us ++ COMMA :: flags ++ SEMICOLON :: message ++ NEWLINE :: more.

Lemma six_digits us : Forall (fun b => is_ascii_digit b = true) (six us).
Proof.
  assert (forall z, is_ascii_digit (byte_of (48 + z mod 10)) = true) as H.
  { intros z. pose proof (Z.mod_pos_bound z 10 ltac:(lia)). unfold is_ascii_digit. rewrite byte_val_of, Z.mod_small by lia. apply andb_true_iff. rewrite !Z.leb_le. lia. }
  unfold six. cbn [fmap list_fmap]. repeat constructor; apply H.
Qed.

Lemma six_value us : 0 <= us < 1000000 -> decimals 6 (six us) = us.
Proof.
  intros Hu. unfold decimals. rewrite ztake_app_l by done. change (ztake 6 (six us)) with (six us). unfold six, decimal_value. cbn [fmap list_fmap foldl].
  assert (forall z, byte_val (byte_of (48 + z mod 10)) = 48 + z mod 10) as H.
  { intros z. pose proof (Z.mod_pos_bound z 10 ltac:(lia)). rewrite byte_val_of, Z.mod_small by lia. done. }
  rewrite !H, !Z.mod_eq by lia. rewrite !Z.div_div by lia. change (100000 * 10) with 1000000. change (10000 * 10) with 100000.
  change (1000 * 10) with 10000. change (100 * 10) with 1000. change (10 * 10) with 100. rewrite (Z.div_small us 1000000) by lia. lia.
Qed.

Lemma trim_spaces n text : match text with b :: _ => byte_val b <> 32 | [] => True end -> trim_start_spaces (replicate n (byte_of 32) ++ text) = text.
Proof. intros Ht. induction n as [|n IH]; [|done]. destruct text as [|b text]; [done|]. cbn. by destruct (Z.eqb_spec (byte_val b) 32). Qed.

Lemma dec_head n text : 0 <= n -> match dec n ++ text with b :: _ => byte_val b <> 32 | [] => True end.
Proof.
  intros Hn. pose proof (dec_digits n Hn) as Hd. destruct (dec n) as [|b d] eqn:E; [by apply digits_nonempty in E; [|lia]|].
  inv Hd. unfold is_ascii_digit in *. bool_to_prop. cbn. lia.
Qed.

Lemma position_after c k r : Forall (fun b => is_byte c b = false) k -> position (is_byte c) (k ++ c :: r) = Some (len k).
Proof. intros Hk. apply position_some. exists k, c, r. split_and!; try done. by apply bool_decide_eq_true. Qed.

Lemma zdrop_after {A} (k : list A) c r : zdrop (len k + 1) (k ++ c :: r) = r.
Proof. rewrite zdrop_app_r by lia. by replace (len k + 1 - len k) with 1 by lia. Qed.

Lemma ztake_before {A} (k : list A) r : ztake (len k) (k ++ r) = k.
Proof. rewrite ztake_app_l, ztake_all by lia. done. Qed.

Lemma std_parse_dec low high n : low <= 0 <= n -> n <= high -> n <= U64_MAX -> std_parse low high (dec n) = Some n.
Proof.
  intros Hn Hh Hu. pose proof (dec_digits n ltac:(lia)) as Hd. unfold std_parse.
  assert (decimal_value (dec n) = n) as Hv.
  { unfold dec. apply digits_decimal. change (10 ^ Z.of_nat 20) with (10 ^ 20). unfold U64_MAX in Hu. lia. }
  assert (match dec n with b :: (_ :: _) as digits => if byte_val b =? 43 then (false, digits) else if (byte_val b =? 45) && (low <? 0) then (true, digits)
          else (false, dec n) | _ => (false, dec n) end = (false, dec n)) as ->.
  { destruct (dec n) as [|b [|b' d]]; [done|done|]. inv Hd. unfold is_ascii_digit in *. bool_to_prop.
    destruct (Z.eqb_spec (byte_val b) 43); [lia|]. by destruct (Z.eqb_spec (byte_val b) 45); [lia|]. }
  apply forallb_digits in Hd as ->. rewrite Hv, (proj2 (Z.leb_le low n)), (proj2 (Z.leb_le n high)) by lia.
  destruct (dec n) as [|b d] eqn:E; [by apply digits_nonempty in E; [|lia]|done].
Qed.

Lemma microseconds_written s us spaces : 0 <= s -> 0 <= us < 1000000 -> s * 1000000 + us <= U64_MAX ->
  microseconds (replicate spaces (byte_of 32) ++ dec s ++ bytes_of "." ++ six us) = Some (s * 1000000 + us).
Proof.
  intros Hs Hu Hm. pose proof (dec_digits s Hs) as Hd. pose proof (six_digits us) as Hx. unfold microseconds, from_utf8.
  assert (forall text, Forall (fun b => is_ascii_digit b = true) text -> Forall (fun b => byte_val b <= 127) text) as Hascii.
  { intros text H. eapply Forall_impl; [exact H|]. intros b Hb. unfold is_ascii_digit in Hb. bool_to_prop. lia. }
  rewrite ascii_utf8. 2: { rewrite !Forall_app. split_and!; [by apply Forall_replicate|by apply Hascii|by repeat constructor|by apply Hascii]. }
  cbn [mbind option_bind]. rewrite trim_spaces by by apply dec_head. change (bytes_of ".") with [DOT].
  rewrite (proj2 (split_once_spec DOT (dec s ++ [DOT] ++ six us) (dec s) (six us))); [|split; [done|by apply dec_clean; [|right; left]]].
  cbn [mbind option_bind]. assert (forallb is_ascii_digit (dec s ++ six us) = true) as -> by (apply forallb_digits; by rewrite Forall_app). cbn [negb].
  assert (is_empty (dec s) = false) as -> by (destruct (dec s) eqn:E; [by apply digits_nonempty in E; [|lia]|done]).
  rewrite std_parse_dec by lia. cbn [mbind option_bind]. rewrite six_value by done. unfold checked_mul_add, checked_add.
  rewrite (proj2 (Z.leb_le (s * 1000000) U64_MAX)) by lia. cbn [mbind option_bind]. by rewrite (proj2 (Z.leb_le _ U64_MAX)) by lia.
Qed.

Lemma syslog_written priority s us spaces message :
  0 <= priority -> 0 <= s -> 0 <= us < 1000000 -> s * 1000000 + us <= U64_MAX ->
  parse_syslog (write_syslog priority s us spaces message) = mkSyslogLine (Some (s * 1000000 + us)) message.
Proof.
  intros Hp Hs Hu Hm. unfold parse_syslog, write_syslog. set (stamp := replicate spaces (byte_of 32) ++ dec s ++ bytes_of "." ++ six us).
  assert (strip_prefix (bytes_of "<") (bytes_of "<" ++ dec priority ++ bytes_of ">[" ++ replicate spaces (byte_of 32) ++ dec s ++ bytes_of "." ++ six us ++ bytes_of "] " ++ message)
          = Some (dec priority ++ byte_of 62 :: bytes_of "[" ++ stamp ++ byte_of 93 :: bytes_of " " ++ message)) as ->.
  { apply strip_prefix_some. unfold stamp. rewrite <-!app_assoc. done. }
  cbn [mbind option_bind]. rewrite position_after by (apply dec_separator; [by do 4 right; left|done]). cbn [mbind option_bind default].
  unfold Datatypes.id. rewrite zdrop_after.
  rewrite (proj2 (strip_prefix_some (bytes_of "[") _ (stamp ++ byte_of 93 :: bytes_of " " ++ message)) eq_refl). cbn [mbind option_bind].
  assert (Forall (fun b => is_byte (byte_of 93) b = false) stamp) as Hc.
  { assert (byte_of 93 ∈ bytes_of "-,=;>].") by (by do 5 right; left). unfold stamp. rewrite !Forall_app.
    split_and!; [by apply Forall_replicate|by apply dec_separator|by repeat constructor|].
    eapply Forall_impl; [apply six_digits|]. intros b. by apply digit_separator. }
  rewrite (position_after (byte_of 93) stamp) by done. cbn [mbind option_bind]. rewrite ztake_before. assert (microseconds stamp = Some (s * 1000000 + us)) as -> by by apply microseconds_written.
  cbn [mbind option_bind]. rewrite zdrop_after. rewrite (proj2 (strip_prefix_some (bytes_of " ") _ message) eq_refl). done.
Qed.

Lemma kmsg_written priority sequence us flags message more :
  0 <= priority -> 0 <= sequence -> is_u64 us -> Forall (fun b => is_byte SEMICOLON b = false) flags -> Forall (fun b => is_byte NEWLINE b = false) message ->
  parse_kmsg (write_kmsg priority sequence us flags message more) = Some (mkKmsgRecord (Some us) message).
Proof.
  intros Hp Hq Hu Hf Hm. assert (0 <= us) by (unfold is_u64 in Hu; lia). unfold parse_kmsg, write_kmsg.
  set (header := dec priority ++ COMMA :: dec sequence ++ COMMA :: dec us ++ COMMA :: flags).
  replace (dec priority ++ _) with (header ++ SEMICOLON :: message ++ NEWLINE :: more) by (unfold header; repeat (rewrite <-app_assoc; cbn [app]); done).
  assert (SEMICOLON ∈ bytes_of "-,=;>]." /\ COMMA ∈ bytes_of "-,=;>].") as [Hsc Hco] by (split; [by do 3 right; left|by right; left]).
  rewrite splitn_two, position_after, ztake_before, zdrop_after.
  2: { unfold header. repeat (rewrite ?Forall_app, ?Forall_cons). split_and!; [by apply dec_separator|done|by apply dec_separator|done|by apply dec_separator|done|done]. }
  unfold header. do 3 rewrite (split_on_app (is_byte COMMA)) by (done || by apply dec_separator). cbn [lookup list_lookup mbind option_bind].
  rewrite parse_decimal_dec by done. unfold first_piece. rewrite (split_on_app (is_byte NEWLINE)) by done. done.
Qed.

(** What the kernel writes in its log is read back: a line of [syslog(2)] gives its time, to the
    microsecond, and its message without the priority and the stamp, however the stamp is padded; a
    record of [/dev/kmsg] gives its time and the first line of its message, and the message may hold
    any bytes. *)
Theorem kernel_log_read priority sequence seconds us spaces flags message more :
  0 <= priority -> 0 <= sequence -> 0 <= seconds -> 0 <= us < 1000000 -> seconds * 1000000 + us <= U64_MAX ->
  Forall (fun b => is_byte SEMICOLON b = false) flags ->
  parse_syslog (write_syslog priority seconds us spaces message) = mkSyslogLine (Some (seconds * 1000000 + us)) message
  /\ (Forall (fun b => is_byte NEWLINE b = false) message ->
      parse_kmsg (write_kmsg priority sequence (seconds * 1000000 + us) flags message more) = Some (mkKmsgRecord (Some (seconds * 1000000 + us)) message)).
Proof.
  intros. split; [by apply syslog_written|]. intros. apply kmsg_written; try done. unfold is_u64. lia.
Qed.

Lemma kernel_log_read_witness :
  write_syslog 6 12 345678 3 (bytes_of "tsc: ready") = bytes_of "<6>[   12.345678] tsc: ready"
  /\ parse_syslog (bytes_of "<6>[   12.345678] tsc: ready") = mkSyslogLine (Some 12345678) (bytes_of "tsc: ready").
Proof.
  split; [reflexivity|]. apply (kernel_log_read 6 0 12 345678 3 [] (bytes_of "tsc: ready") []); [lia|lia|lia|lia|unfold U64_MAX; lia|constructor].
Defined.
