(* ===== verification/BootLog.v ===== *)
(** * The evidence of a guest's boot (src/nvx-rs/src/guest/time/decoders.rs, events.rs)

    The rules of the kernel-message watcher, the evidence that a boot log accumulates, the command line
    and the clocksources that the time ABI permits, and the events that report a violation. *)

From S2P Require Import Prelude Cmdline Export Lowering AddressText GuestText.

(** ** Codes (guest/time/events.rs) *)

Definition EVENT_MAX : Z := 512.

Inductive CheckId : Type := C1 | C2 | C3 | C4 | C5 | C6 | C7 | C8 | C9 | C10 | C11 | C12.

Definition check_name (self : CheckId) : list byte :=
  bytes_of match self with
           | C1 => "C1" | C2 => "C2" | C3 => "C3" | C4 => "C4" | C5 => "C5" | C6 => "C6"
           | C7 => "C7" | C8 => "C8" | C9 => "C9" | C10 => "C10" | C11 => "C11" | C12 => "C12"
           end.

Inductive ViolationCode : Type :=
| Conformance (check : CheckId)
| KernelWx | KmsgOverrun | TscUnstable | ClocksourceUnstable | ClocksourceSwitch | ClocksourceSkew | TscWarp | TscAdjust
| RcuStall | RcuStarved | SoftLockup | HardLockup | HungTask | UncheckedMsr | ApicIdMismatch
| RepairClock | RepairGeneration | RepairPacket | RepairSample | RepairSuppression.

#[export] Instance check_id_eq_dec : EqDecision CheckId.
Proof. solve_decision. Defined.
#[export] Instance violation_code_eq_dec : EqDecision ViolationCode.
Proof. solve_decision. Defined.

Definition code_name (self : ViolationCode) : list byte :=
  match self with
  | Conformance check => bytes_of "G_CONFORMANCE_" ++ check_name check
  | KernelWx => bytes_of "G_KERNEL_WX"
  | KmsgOverrun => bytes_of "G_KMSG_OVERRUN"
  | TscUnstable => bytes_of "G_TSC_UNSTABLE"
  | ClocksourceUnstable => bytes_of "G_CLOCKSOURCE_UNSTABLE"
  | ClocksourceSwitch => bytes_of "G_CLOCKSOURCE_SWITCH"
  | ClocksourceSkew => bytes_of "G_CLOCKSOURCE_SKEW"
  | TscWarp => bytes_of "G_TSC_WARP"
  | TscAdjust => bytes_of "G_TSC_ADJUST"
  | RcuStall => bytes_of "G_RCU_STALL"
  | RcuStarved => bytes_of "G_RCU_STARVED"
  | SoftLockup => bytes_of "G_SOFT_LOCKUP"
  | HardLockup => bytes_of "G_HARD_LOCKUP"
  | HungTask => bytes_of "G_HUNG_TASK"
  | UncheckedMsr => bytes_of "G_UNCHECKED_MSR"
  | ApicIdMismatch => bytes_of "G_APIC_ID_MISMATCH"
  | RepairClock => bytes_of "G_REPAIR_CLOCK"
  | RepairGeneration => bytes_of "G_REPAIR_GENERATION"
  | RepairPacket => bytes_of "G_REPAIR_PACKET"
  | RepairSample => bytes_of "G_REPAIR_SAMPLE"
  | RepairSuppression => bytes_of "G_REPAIR_SUPPRESSION"
  end.

Inductive EventSource : Type := SourceConformance | SourceWatcher | SourceRepair.

Definition source_name (self : EventSource) : list byte :=
  match self with
  | SourceConformance => bytes_of "conformance"
  | SourceWatcher => bytes_of "watcher"
  | SourceRepair => bytes_of "repair"
  end.

(** [Phase] (guest/time/mod.rs). *)
Inductive Phase : Type := Boot | Capture | Restore | Runtime.

#[export] Instance phase_eq_dec : EqDecision Phase.
Proof. solve_decision. Defined.

Definition phase_name (self : Phase) : list byte :=
  match self with
  | Boot => bytes_of "boot"
  | Capture => bytes_of "capture"
  | Restore => bytes_of "restore"
  | Runtime => bytes_of "runtime"
  end.

(** ** Events *)

Definition BACKSLASH : byte := byte_of 92.

(** What one byte is escaped as: [{byte:02x}] after [\x] unless it is printable. *)
Definition escape_byte (b : byte) : list byte :=
  if (byte_val b =? 34) || (byte_val b =? 92) then [BACKSLASH; b]
  else if (0x20 <=? byte_val b) && (byte_val b <=? 0x7e) then [b]
  else [BACKSLASH; byte_of 120; digit_byte (byte_val b / 16); digit_byte (byte_val b mod 16)].

Fixpoint escape_loop (limit : Z) (escaped text : list byte) : list byte :=
  match text with
  | [] => escaped
  | b :: text =>
      let next := escaped ++ escape_byte b in
      if limit <? len next then escaped else escape_loop limit next text
  end.

Definition escape_text (text : list byte) (limit : Z) : list byte := escape_loop limit [] text.

(** [Display] of an [i64]. *)
Definition dec_signed (n : Z) : list byte := if n <? 0 then DASH :: dec (- n) else dec n.

Definition event_head (report_only : bool) (code : ViolationCode) (source : EventSource) (phase : Phase) (generation boottime_ns : Z) : list byte :=
  (if report_only then bytes_of "NVX-TIME-REPORT" else bytes_of "NVX-TIME-ABI")
  ++ bytes_of "-VIOLATION: v=1 code=" ++ code_name code ++ bytes_of " source=" ++ source_name source
  ++ bytes_of " phase=" ++ phase_name phase ++ bytes_of " generation=" ++ dec generation
  ++ bytes_of " boottime_ns=" ++ dec_signed boottime_ns ++ bytes_of " detail=" ++ [QUOTE].

Definition format_event (report_only : bool) (code : ViolationCode) (source : EventSource) (phase : Phase) (generation boottime_ns : Z) (detail : list byte) : list byte :=
  let line := event_head report_only code source phase generation boottime_ns in
  let available := saturating_sub EVENT_MAX (len line + 2) in
  line ++ escape_text detail available ++ [QUOTE; NEWLINE].

(** ** The watcher's rules (guest/time/decoders.rs) *)

Definition QUOTED_MESSAGE_MAX : Z := 300.
Definition QUOTED_TOKEN_MAX : Z := 120.
Definition OWN_RECORD_PREFIX : list byte := bytes_of "NVX-TIME-".

Record WatchRule := mkWatchRule { rule_code : ViolationCode; rule_all : list string; rule_any : list string }.

Definition WATCH_RULES : list WatchRule :=
  [mkWatchRule TscUnstable ["Marking TSC unstable due to "] [];
   mkWatchRule ClocksourceUnstable ["timekeeping watchdog on CPU"; "as unstable because the skew is too large"] [];
   mkWatchRule ClocksourceSwitch ["clocksource: Switched to clocksource "] [];
   mkWatchRule ClocksourceSkew ["clocksource: "] [" ahead of CPU "; " behind CPU "];
   mkWatchRule TscWarp [] ["TSC synchronization [CPU#"; "cycles TSC warp between CPUs"; "TSC warped randomly between CPUs"];
   mkWatchRule TscAdjust ["TSC ADJUST"] [];
   mkWatchRule RcuStall ["rcu: INFO: "] [" detected stalls on CPUs/tasks"; " self-detected stall on CPU"; " detected expedited stalls"];
   mkWatchRule RcuStarved ["rcu: "] [" kthread starved for "; " kthread timer wakeup didn't happen for "];
   mkWatchRule SoftLockup ["watchdog: BUG: soft lockup - CPU#"] [];
   mkWatchRule HardLockup ["Watchdog detected hard LOCKUP"] [];
   mkWatchRule HungTask ["INFO: task "; " blocked for more than "] [];
   mkWatchRule UncheckedMsr ["unchecked MSR access error"] [];
   mkWatchRule ApicIdMismatch ["APIC ID mismatch"] []]%string.

Definition starts_with (text prefix : list byte) : bool := is_some (strip_prefix prefix text).
Definition ends_with (text suffix : list byte) : bool := starts_with (rev text) (rev suffix).

Definition rule_matches (message : list byte) (rule : WatchRule) : bool :=
  let contains part := contains message (bytes_of part) in
  forallb contains (rule_all rule) && (is_empty (rule_any rule) || existsb contains (rule_any rule)).

Definition match_watch_rule (message : list byte) : option ViolationCode :=
  if starts_with message OWN_RECORD_PREFIX then None
  else option_map rule_code (List.find (rule_matches message) WATCH_RULES).

(** ** The boot log *)

Record BootLog := mkBootLog {
  hypervisor : bool;
  privileges : bool;
  lapic : bool;
  last_switch : option (list byte);
  problem : option (list byte);
  wx : option (list byte);
}.

Definition default_log : BootLog := mkBootLog false false false None None None.

Definition FORBIDDEN : list (list byte) :=
  bytes_of <$> ["Fast TSC calibration"; "Refined TSC clocksource calibration"; "kvm-clock"; "APIC timer: using supplied frequency"]%string.
Definition LAPIC_RATES : list (list byte) :=
  bytes_of <$> ["Hyper-V: LAPIC Timer Frequency: 0x989680"; "Hyper-V: LAPIC Timer Frequency: 0x1e8480"]%string.
Definition SWITCHED : list byte := bytes_of "clocksource: Switched to clocksource ".

(** What one message's diagnostic is, if it is a problem. *)
Definition message_problem (message : list byte) : option (list byte) :=
  let own := starts_with message OWN_RECORD_PREFIX in
  let quoted := ztake (Z.min (len message) QUOTED_MESSAGE_MAX) message in
  let forbidden := if negb own && existsb (contains message) FORBIDDEN then Some (bytes_of "forbidden record: " ++ quoted) else None in
  match match_watch_rule message with
  | Some code => if negb (bool_decide (code = ClocksourceSwitch)) then Some (code_name code ++ bytes_of ": " ++ quoted) else forbidden
  | None => forbidden
  end.

Definition is_space_or_newline (b : byte) : bool := (byte_val b =? 32) || (byte_val b =? 10).

Definition add (self : BootLog) (message : list byte) : BootLog :=
  let own := starts_with message OWN_RECORD_PREFIX in
  let quoted := ztake (Z.min (len message) QUOTED_MESSAGE_MAX) message in
  mkBootLog
    (hypervisor self || contains message (bytes_of "Hypervisor detected: Microsoft Hyper-V"))
    (privileges self || contains message (bytes_of "Hyper-V: privilege flags low 0x8860,"))
    (lapic self || existsb (ends_with message) LAPIC_RATES)
    (match find message SWITCHED with
     | Some start => head (split_on is_space_or_newline (zdrop (start + len SWITCHED) message))
     | None => last_switch self
     end)
    (if is_some (problem self) then problem self else message_problem message)
    (if negb (is_some (wx self)) && negb own && contains message (bytes_of "Found insecure W+X mapping") then Some quoted else wx self).

Definition verdict (self : BootLog) : result (list byte) unit :=
  match problem self with
  | Some problem => Err problem
  | None =>
      if negb (hypervisor self) then Err (bytes_of "no 'Hypervisor detected: Microsoft Hyper-V'")
      else if negb (privileges self) then Err (bytes_of "no 'Hyper-V: privilege flags low 0x8860,'")
      else if negb (lapic self) then Err (bytes_of "no 'Hyper-V: LAPIC Timer Frequency' of 1 GHz or 200 MHz")
      else if negb (bool_decide (last_switch self = Some (bytes_of "tsc")))
      then Err (bytes_of "last clocksource switch is to '" ++ default [] (last_switch self) ++ bytes_of "', not tsc")
      else Ok tt
  end.

(** The messages of a log: its lines that are not empty, without their stamps for [syslog(2)]. *)
Definition log_messages (text : list byte) (syslog : bool) : list (list byte) :=
  (fun line => if syslog then syslog_message (parse_syslog line) else line)
    <$> List.filter (fun line => negb (is_empty line)) (split_on (is_byte NEWLINE) text).

Definition scan_boot_log (text : list byte) (syslog : bool) : BootLog := foldl add default_log (log_messages text syslog).

(** ** Settings *)

Definition FORBIDDEN_NAMES : list (list byte) := bytes_of <$> ["tsc_early_khz"; "lapic_timer_hz"; "nolapic"; "nolapic_timer"]%string.

(** The closure [forbidden]. *)
Definition forbidden_parameter (parameter : KernelParameter) : bool :=
  let value_of name := if is_named parameter (bytes_of name) then value parameter else None in
  existsb (is_named parameter) FORBIDDEN_NAMES
  || starts_with (name parameter) (bytes_of "notsc")
  || bool_decide (value_of "tsc"%string = Some (bytes_of "unstable"))
  || match value_of "hpet"%string with
     | Some options => existsb (fun option_ => starts_with option_ (bytes_of "force")) (split_on (is_byte COMMA) options)
     | None => false
     end
  || match value_of "clocksource"%string with Some source => negb (bool_decide (source = bytes_of "tsc")) | None => false end.

(** [strip_suffix("\n").unwrap_or(text)]. *)
Definition without_newline (text : list byte) : list byte :=
  if bool_decide (last text = Some NEWLINE) then removelast text else text.

Definition quote_parameter (parameter : KernelParameter) : list byte :=
  ztake QUOTED_TOKEN_MAX (name parameter ++ match value parameter with Some value => EQUALS :: value | None => [] end).

(** [None] for a panic of the parameters' reader. *)
Definition check_cmdline (text : list byte) : option (result (list byte) unit) :=
  parameters ← all_parameters (without_newline text);
  Some match List.find forbidden_parameter parameters with
       | Some parameter => Err (bytes_of "command line contains " ++ quote_parameter parameter)
       | None => Ok tt
       end.

(** The loop over the available clocksources, from whether [tsc] was among them. *)
Fixpoint check_available (tsc : bool) (names : list (list byte)) : result (list byte) unit :=
  match names with
  | [] => if tsc then Ok tt else Err (bytes_of "tsc is not an available clocksource")
  | name :: names =>
      if bool_decide (name = bytes_of "tsc") then check_available true names
      else if bool_decide (name ∈ [bytes_of "refined-jiffies"; bytes_of "jiffies"]) then check_available tsc names
      else Err (bytes_of "clocksource " ++ name ++ bytes_of " is available")
  end.

Definition check_clocksource (current available : list byte) : result (list byte) unit :=
  let current := first_piece (is_byte NEWLINE) current in
  if negb (bool_decide (current = bytes_of "tsc")) then Err (bytes_of "current clocksource is " ++ current)
  else check_available false (List.filter (fun name => negb (is_empty name)) (split_on is_space_or_newline available)).

(** ** What a log shows *)

Lemma starts_with_exact text prefix : starts_with text prefix = true <-> exists rest, text = prefix ++ rest.
Proof.
  unfold starts_with. destruct (strip_prefix prefix text) as [rest|] eqn:E; cbn [is_some].
  - apply strip_prefix_some in E. split; [by eauto|done].
  - split; [done|]. intros [rest ->]. by rewrite (proj2 (strip_prefix_some prefix (prefix ++ rest) rest) eq_refl) in E.
Qed.

Lemma ends_with_exact text suffix : ends_with text suffix = true <-> exists front, text = front ++ suffix.
Proof.
  unfold ends_with. rewrite starts_with_exact. split.
  - intros [rest E]. exists (rev rest). apply (f_equal (@rev byte)) in E. by rewrite rev_involutive, rev_app_distr, rev_involutive in E.
  - intros [front ->]. exists (rev front). apply rev_app_distr.
Qed.

(** The clocksource that a message switches to. *)
Definition switch_name (message : list byte) : option (list byte) :=
  match find message SWITCHED with
  | Some start => head (split_on is_space_or_newline (zdrop (start + len SWITCHED) message))
  | None => None
  end.

(** The diagnostic of a message that reports a mapping. *)
Definition mapping_report (message : list byte) : option (list byte) :=
  if negb (starts_with message OWN_RECORD_PREFIX) && contains message (bytes_of "Found insecure W+X mapping")
  then Some (ztake (Z.min (len message) QUOTED_MESSAGE_MAX) message) else None.

(** The evidence of messages, each field on its own. *)
Definition summary (messages : list (list byte)) : BootLog :=
  mkBootLog
    (existsb (fun m => contains m (bytes_of "Hypervisor detected: Microsoft Hyper-V")) messages)
    (existsb (fun m => contains m (bytes_of "Hyper-V: privilege flags low 0x8860,")) messages)
    (existsb (fun m => existsb (ends_with m) LAPIC_RATES) messages)
    (last (omap switch_name messages)) (head (omap message_problem messages)) (head (omap mapping_report messages)).

Lemma head_snoc {A} (l : list A) o : head (l ++ o) = if is_some (head l) then head l else head o.
Proof. by destruct l. Qed.

Lemma last_snoc_option {A} (l : list A) (o : option A) : last (l ++ match o with Some x => [x] | None => [] end) = match o with Some x => Some x | None => last l end.
Proof. destruct o; [by rewrite last_snoc|by rewrite app_nil_r]. Qed.

Lemma omap_snoc {A B} (f : A -> option B) l x : omap f (l ++ [x]) = omap f l ++ match f x with Some y => [y] | None => [] end.
Proof. rewrite omap_app. cbn. by destruct (f x). Qed.

Lemma scan_summary messages : foldl add default_log messages = summary messages.
Proof.
  induction messages as [|m messages IH] using rev_ind; [done|]. rewrite foldl_app. cbn [foldl]. rewrite IH. unfold add, summary. cbn [hypervisor privileges lapic last_switch problem wx].
  rewrite !existsb_app. cbn [existsb]. rewrite !orb_false_r. f_equal.
  - rewrite omap_snoc, last_snoc_option. unfold switch_name at 2. destruct (find m SWITCHED) as [start|]; [|done].
    destruct (split_on_cons is_space_or_newline (zdrop (start + len SWITCHED) m)) as (? & ? & ->). done.
  - rewrite omap_snoc, head_snoc. destruct (is_some _); [done|]. by destruct (message_problem m).
  - rewrite omap_snoc, head_snoc. generalize (head (omap mapping_report messages)) as h. intros [h|]; cbn [is_some negb andb]; [done|].
    unfold mapping_report. by destruct (negb (starts_with m OWN_RECORD_PREFIX) && _).
Qed.

(** A message that the time ABI tolerates: its own tools', or one that matches no rule, a switch of
    clocksources apart, and holds no forbidden record. *)
Definition harmless (message : list byte) : Prop :=
  (exists rest, message = OWN_RECORD_PREFIX ++ rest)
  \/ (forall code, match_watch_rule message = Some code -> code = ClocksourceSwitch)
     /\ (forall record, record ∈ FORBIDDEN -> ~ exists a b, message = a ++ record ++ b).

Lemma existsb_elem {A} (f : A -> bool) l : existsb f l = true <-> exists x, x ∈ l /\ f x = true.
Proof. rewrite existsb_exists. by setoid_rewrite list_elem_of_In. Qed.

Lemma harmless_exact message : message_problem message = None <-> harmless message.
Proof.
  unfold message_problem, harmless. rewrite <-starts_with_exact. destruct (starts_with message OWN_RECORD_PREFIX) eqn:Hown.
  { unfold match_watch_rule. rewrite Hown. cbn. split; [by left|done]. }
  cbn [negb andb]. assert (existsb (contains message) FORBIDDEN = false <-> forall record, record ∈ FORBIDDEN -> ~ exists a b, message = a ++ record ++ b) as Hf.
  { rewrite <-not_true_iff_false, existsb_elem. setoid_rewrite contains_exact. naive_solver. }
  rewrite <-Hf. destruct (match_watch_rule message) as [code|] eqn:Hc.
  - case_bool_decide as Hs; cbn [negb].
    + subst code. destruct (existsb _ FORBIDDEN); split; [done| |by intros; right; split; [intros ? [= <-]|]|done]. intros [?|[_ ?]]; done.
    + split; [done|]. intros [?|[H _]]; [done|]. by destruct (Hs (H _ eq_refl)).
  - destruct (existsb _ FORBIDDEN); split; [done| |by intros; right|done]. intros [?|[_ ?]]; done.
Qed.

(** The first and the last message for which a function is defined. *)
Definition first_of {B} (f : list byte -> option B) (messages : list (list byte)) (y : B) : Prop :=
  exists before m after, messages = before ++ m :: after /\ f m = Some y /\ Forall (fun m => f m = None) before.

Definition last_of {B} (f : list byte -> option B) (messages : list (list byte)) (y : B) : Prop :=
  exists before m after, messages = before ++ m :: after /\ f m = Some y /\ Forall (fun m => f m = None) after.

Lemma omap_none {B} (f : list byte -> option B) messages : omap f messages = [] <-> Forall (fun m => f m = None) messages.
Proof.
  induction messages as [|m messages IH]; [done|]. cbn. rewrite Forall_cons, <-IH. destruct (f m); naive_solver.
Qed.

Lemma omap_first {B} (f : list byte -> option B) messages y : head (omap f messages) = Some y <-> first_of f messages y.
Proof.
  unfold first_of. split.
  - induction messages as [|m messages IH]; [done|]. cbn. destruct (f m) as [z|] eqn:Hf; cbn.
    + intros [= <-]. by exists [], m, messages.
    + intros H. destruct (IH H) as (before & m' & after & -> & Hm & Hb). exists (m :: before), m', after. split_and!; [done|done|by constructor].
  - intros (before & m & after & -> & Hm & Hb). rewrite omap_app, (proj2 (omap_none f before) Hb). cbn. by rewrite Hm.
Qed.

Lemma omap_last {B} (f : list byte -> option B) messages y : last (omap f messages) = Some y <-> last_of f messages y.
Proof.
  unfold last_of. split.
  - induction messages as [|m messages IH] using rev_ind; [done|]. rewrite omap_snoc, last_snoc_option. destruct (f m) as [z|] eqn:Hf.
    + intros [= <-]. by exists messages, m, [].
    + intros H. destruct (IH H) as (before & m' & after & -> & Hm & Hb). exists before, m', (after ++ [m]). rewrite <-app_assoc. cbn [app].
      split_and!; [done|done|]. apply Forall_app. split; [done|by constructor].
  - intros (before & m & after & -> & Hm & Hb). rewrite omap_app. cbn. rewrite Hm, (proj2 (omap_none f after) Hb). by rewrite last_snoc.
Qed.

(** Some message holds, or ends in, a record. *)
Definition shows (messages : list (list byte)) (record : string) : Prop := exists m a b, m ∈ messages /\ m = a ++ bytes_of record ++ b.
Definition ends (messages : list (list byte)) (record : list byte) : Prop := exists m a, m ∈ messages /\ m = a ++ record.

Lemma existsb_shows record messages : existsb (fun m => contains m (bytes_of record)) messages = true <-> shows messages record.
Proof. rewrite existsb_elem. setoid_rewrite contains_exact. unfold shows. naive_solver. Qed.

Lemma existsb_ends messages : existsb (fun m => existsb (ends_with m) LAPIC_RATES) messages = true <-> exists rate, rate ∈ LAPIC_RATES /\ ends messages rate.
Proof.
  rewrite existsb_elem. setoid_rewrite existsb_elem. setoid_rewrite ends_with_exact. unfold ends. naive_solver.
Qed.

(** A boot log passes exactly when every message in it is harmless, and it shows the hypervisor, the
    privileges and one of the permitted LAPIC rates, and the last switch of clocksources was to the
    TSC; what a problem reports is the first message that is not harmless, and the writable and
    executable mapping that is reported is the first one of another program's. *)
Theorem boot_log_exact text syslog :
  let messages := log_messages text syslog in
  let log := scan_boot_log text syslog in
  (verdict log = Ok tt
   <-> Forall harmless messages
       /\ shows messages "Hypervisor detected: Microsoft Hyper-V" /\ shows messages "Hyper-V: privilege flags low 0x8860,"
       /\ (exists rate, rate ∈ LAPIC_RATES /\ ends messages rate)
       /\ last_of switch_name messages (bytes_of "tsc"))
  /\ (forall report, problem log = Some report <-> first_of message_problem messages report)
  /\ (forall report, wx log = Some report <-> first_of mapping_report messages report).
Proof.
  intros messages log. assert (log = summary messages) as -> by apply scan_summary. split_and!; [|intros; apply omap_first..].
  unfold verdict. cbn [summary problem hypervisor privileges lapic last_switch].
  rewrite <-!existsb_shows, <-existsb_ends, <-omap_last.
  assert (Forall harmless messages <-> head (omap message_problem messages) = None) as ->.
  { assert (head (omap message_problem messages) = None <-> omap message_problem messages = []) as -> by by destruct (omap message_problem messages).
    rewrite omap_none, !Forall_forall. by setoid_rewrite harmless_exact. }
  destruct (head (omap message_problem messages)) as [p|]; [split; [done|by intros [? _]]|].
  repeat match goal with |- context [existsb ?f messages] => destruct (existsb f messages); cbn [negb]; [|by split; [|naive_solver]] end.
  case_bool_decide as Hs; cbn [negb]; naive_solver.
Qed.

(** ** What an event carries *)

(** The reader of a detail: a byte after a backslash, two digits after [\x], or the byte itself. *)
Fixpoint unescape (text : list byte) : option (list byte) :=
  match text with
  | [] => Some []
  | b :: rest =>
      if is_byte BACKSLASH b then
        match rest with
        | c :: rest =>
            if byte_val c =? 120 then
              match rest with
              | high :: low :: rest => h ← to_digit 16 high; l ← to_digit 16 low; detail ← unescape rest; Some (byte_of (16 * h + l) :: detail)
              | _ => None
              end
            else detail ← unescape rest; Some (c :: detail)
        | [] => None
        end
      else detail ← unescape rest; Some (b :: detail)
  end.

Lemma unescape_byte b rest : unescape (escape_byte b ++ rest) = detail ← unescape rest; Some (b :: detail).
Proof.
  unfold escape_byte. pose proof (byte_val_range b) as Hb. destruct ((byte_val b =? 34) || (byte_val b =? 92)) eqn:Hq.
  { cbn. destruct (Z.eqb_spec (byte_val b) 120) as [E|E]; [|done]. rewrite E in Hq. done. }
  destruct ((32 <=? byte_val b) && (byte_val b <=? 126)) eqn:Hp.
  { cbn [app unescape]. destruct (is_byte BACKSLASH b) eqn:Hs; [|done]. apply bool_decide_eq_true in Hs as ->. done. }
  cbn [app unescape]. change (is_byte BACKSLASH BACKSLASH) with true. change (byte_val (byte_of 120) =? 120) with true. cbn iota.
  pose proof (Z.div_mod (byte_val b) 16 ltac:(lia)). pose proof (Z.mod_pos_bound (byte_val b) 16 ltac:(lia)).
  assert (0 <= byte_val b / 16 < 16) by (split; [apply Z.div_pos; lia|apply Z.div_lt_upper_bound; lia]).
  rewrite !to_digit_byte by lia. cbn [mbind option_bind].
  replace (16 * (byte_val b / 16) + byte_val b mod 16) with (byte_val b) by lia. by rewrite byte_of_val.
Qed.

(** Printable ASCII. *)
Definition printable (b : byte) : Prop := 0x20 <= byte_val b <= 0x7e.

Lemma escape_byte_printable b : Forall printable (escape_byte b).
Proof.
  unfold escape_byte, printable. pose proof (byte_val_range b) as Hb. assert (0x20 <= byte_val BACKSLASH <= 0x7e) by (split; vm_compute; congruence).
  destruct ((byte_val b =? 34) || (byte_val b =? 92)) eqn:Hq.
  { apply orb_true_iff in Hq as [Hq%Z.eqb_eq|Hq%Z.eqb_eq]; repeat constructor; lia. }
  destruct ((32 <=? byte_val b) && (byte_val b <=? 126)) eqn:Hp; [bool_to_prop; repeat constructor; lia|].
  pose proof (Z.mod_pos_bound (byte_val b) 16 ltac:(lia)).
  assert (0 <= byte_val b / 16 < 16) by (split; [apply Z.div_pos; lia|apply Z.div_lt_upper_bound; lia]).
  apply Forall_cons. split; [done|]. apply Forall_cons. split; [split; vm_compute; congruence|].
  apply Forall_cons. split; [rewrite digit_byte_val by lia; case_match; lia|]. apply Forall_cons. split; [rewrite digit_byte_val by lia; case_match; lia|constructor].
Qed.

Definition escape_all (text : list byte) : list byte := mjoin (escape_byte <$> text).

Lemma escape_all_cons b text : escape_all (b :: text) = escape_byte b ++ escape_all text.
Proof. done. Qed.

Lemma escape_loop_exact limit text : forall escaped, len escaped <= limit -> exists kept rest,
  text = kept ++ rest /\ escape_loop limit escaped text = escaped ++ escape_all kept /\ len (escaped ++ escape_all kept) <= limit
  /\ match rest with [] => True | b :: _ => limit < len (escaped ++ escape_all (kept ++ [b])) end.
Proof.
  induction text as [|b text IH]; intros escaped Hl; cbn [escape_loop]; [exists [], []; cbn; by rewrite !app_nil_r|].
  destruct (Z.ltb_spec limit (len (escaped ++ escape_byte b))) as [Hlt|Hle].
  - exists [], (b :: text). cbn. rewrite !app_nil_r. done.
  - destruct (IH _ Hle) as (kept & rest & -> & -> & Hk & Hr). exists (b :: kept), rest. cbn [app]. rewrite !escape_all_cons, !app_assoc.
    split_and!; [done|done|done|]. destruct rest as [|c rest]; [done|]. by rewrite escape_all_cons, app_assoc.
Qed.

Lemma unescape_all kept : unescape (escape_all kept) = Some kept.
Proof. induction kept as [|b kept IH]; [done|]. by rewrite escape_all_cons, unescape_byte, IH. Qed.

Lemma escape_all_printable kept : Forall printable (escape_all kept).
Proof. induction kept as [|b kept IH]; [constructor|]. rewrite escape_all_cons. apply Forall_app. split; [apply escape_byte_printable|done]. Qed.

Lemma dec_len n : 0 <= n < 10 ^ 20 -> len (dec n) <= 20.
Proof. intros Hn. by apply (digits_len 10 20 ltac:(lia) 20). Qed.

Lemma event_head_len report_only code source phase generation boottime :
  is_u32 generation -> - 2 ^ 63 <= boottime < 2 ^ 63 -> len (event_head report_only code source phase generation boottime) <= 200.
Proof.
  unfold is_u32, U32_MAX. intros Hg Hb. unfold event_head. rewrite !len_app.
  assert (len (dec generation) <= 20) by (apply dec_len; lia).
  assert (len (dec_signed boottime) <= 21) by (unfold dec_signed; destruct (Z.ltb_spec boottime 0); [rewrite len_cons|]; match goal with |- context [dec ?n] => pose proof (dec_len n ltac:(lia)); lia end).
  assert (len (code_name code) <= 30) by (destruct code as [[]| | | | | | | | | | | | | | | | | | | | ]; done).
  assert (len (source_name source) <= 11) by (by destruct source). assert (len (phase_name phase) <= 7) by (by destruct phase).
  assert (len (if report_only then bytes_of "NVX-TIME-REPORT" else bytes_of "NVX-TIME-ABI") <= 15) by (by destruct report_only).
  repeat match goal with |- context [len (bytes_of ?s)] => let n := eval vm_compute in (len (bytes_of s)) in change (len (bytes_of s)) with n end.
  change (len [QUOTE]) with 1. lia.
Qed.

(** An event fits its record of 512 bytes for every code, source, phase, generation and time, and
    whatever bytes its detail holds: the detail is printable, reads back as the longest start of the
    original that fits, and no escape is cut. *)
Theorem event_exact report_only code source phase generation boottime detail :
  is_u32 generation -> - 2 ^ 63 <= boottime < 2 ^ 63 ->
  let event := format_event report_only code source phase generation boottime detail in
  let head := event_head report_only code source phase generation boottime in
  len event <= EVENT_MAX
  /\ exists kept rest escaped, detail = kept ++ rest /\ event = head ++ escaped ++ [QUOTE; NEWLINE]
     /\ Forall printable escaped /\ unescape escaped = Some kept
     /\ match rest with [] => True | b :: _ => EVENT_MAX < len (head ++ escape_all (kept ++ [b]) ++ [QUOTE; NEWLINE]) end.
Proof.
  intros Hg Hb event head. pose proof (event_head_len report_only code source phase generation boottime Hg Hb) as Hh. fold head in Hh.
  pose proof (len_nonneg head). unfold event, format_event, escape_text. fold head. unfold saturating_sub, EVENT_MAX in *. rewrite Z.max_r by lia.
  destruct (escape_loop_exact (512 - (len head + 2)) detail []) as (kept & rest & -> & -> & Hk & Hr); [unfold len; cbn; unfold len in *; lia|]. cbn [app] in *.
  split; [rewrite !len_app; change (len [QUOTE; NEWLINE]) with 2; lia|].
  exists kept, rest, (escape_all kept). split_and!; [done|done|apply escape_all_printable|apply unescape_all|].
  destruct rest as [|b rest]; [done|]. rewrite !len_app. change (len [QUOTE; NEWLINE]) with 2. lia.
Qed.

Lemma event_exact_witness :
  len (format_event false HungTask SourceWatcher Runtime 7 1234 (replicate 400 (byte_of 7))) = 510
  /\ len (format_event false HungTask SourceWatcher Runtime 7 1234 (replicate 400 (byte_of 7))) <= EVENT_MAX.
Proof.
  split; [vm_compute; reflexivity|].
  apply (event_exact false HungTask SourceWatcher Runtime 7 1234 (replicate 400 (byte_of 7))); [unfold is_u32, U32_MAX; lia|lia].
Defined.

(** ** What the settings permit *)

(** A name with its dashes as underscores. *)
Definition folded (text : list byte) : list byte := fold_dash <$> text.

Lemma is_named_exact p expected : is_named p expected = true <-> folded (name p) = folded expected.
Proof.
  unfold is_named, folded. generalize (name p) as n. intros n. rewrite andb_true_iff, Z.eqb_eq. unfold len.
  revert expected. induction n as [|b n IH]; intros [|e expected]; cbn; [naive_solver lia|split; [lia|done]|split; [lia|done]|].
  rewrite andb_true_iff, bool_decide_eq_true. specialize (IH expected). split.
  - intros [Hl [-> Hz]]. f_equal. apply IH. split; [lia|done].
  - intros [= -> Hf]. apply IH in Hf as [Hl Hz]. split; [lia|done].
Qed.

(** What the time ABI permits of a parameter. *)
Definition permitted (p : KernelParameter) : Prop :=
  let named n := folded (name p) = folded (bytes_of n) in
  (forall n, n ∈ FORBIDDEN_NAMES -> folded (name p) <> folded n)
  /\ ~ (exists rest, name p = bytes_of "notsc" ++ rest)
  /\ ~ (named "tsc"%string /\ value p = Some (bytes_of "unstable"))
  /\ (forall options, named "hpet"%string -> value p = Some options -> forall o, o ∈ split_on (is_byte COMMA) options -> ~ exists rest, o = bytes_of "force" ++ rest)
  /\ (forall source, named "clocksource"%string -> value p = Some source -> source = bytes_of "tsc").

(** A value that counts only under a name. *)
Lemma value_of_exact p n v : (if is_named p (bytes_of n) then value p else None) = Some v <-> folded (name p) = folded (bytes_of n) /\ value p = Some v.
Proof. rewrite <-is_named_exact. destruct (is_named p (bytes_of n)); naive_solver. Qed.

Lemma forbidden_exact p : forbidden_parameter p = false <-> permitted p.
Proof.
  unfold forbidden_parameter, permitted. rewrite !orb_false_iff, <-!not_true_iff_false, existsb_elem, starts_with_exact, bool_decide_eq_true, value_of_exact.
  setoid_rewrite is_named_exact.
  assert (match (if is_named p (bytes_of "hpet") then value p else None) with
          | Some options => existsb (fun option_ => starts_with option_ (bytes_of "force")) (split_on (is_byte COMMA) options) | None => false end = true
          <-> exists options, (folded (name p) = folded (bytes_of "hpet") /\ value p = Some options)
              /\ exists o, o ∈ split_on (is_byte COMMA) options /\ exists rest, o = bytes_of "force" ++ rest) as ->.
  { setoid_rewrite <-value_of_exact. setoid_rewrite <-starts_with_exact. setoid_rewrite <-existsb_elem. destruct (if is_named p _ then _ else _); naive_solver. }
  assert (match (if is_named p (bytes_of "clocksource") then value p else None) with Some source => negb (bool_decide (source = bytes_of "tsc")) | None => false end = true
          <-> exists source, (folded (name p) = folded (bytes_of "clocksource") /\ value p = Some source) /\ source <> bytes_of "tsc") as ->.
  { setoid_rewrite <-value_of_exact. destruct (if is_named p _ then _ else _) as [source|]; [|naive_solver]. rewrite negb_true_iff, bool_decide_eq_false. naive_solver. }
  split.
  - intros ((((H1 & H2) & H3) & H4) & H5). split_and!; [naive_solver|done|done|naive_solver|]. intros source Hn Hv. destruct (decide (source = bytes_of "tsc")); naive_solver.
  - intros (H1 & H2 & H3 & H4 & H5). naive_solver.
Qed.

Lemma find_none {A} (f : A -> bool) l : List.find f l = None <-> Forall (fun x => f x = false) l.
Proof. induction l as [|x l IH]; cbn; [done|]. rewrite Forall_cons, <-IH. destruct (f x); naive_solver. Qed.

Lemma check_cmdline_exact text : exists ps, all_parameters (without_newline text) = Some ps
  /\ (check_cmdline text = Some (Ok tt) <-> Forall permitted ps).
Proof.
  unfold check_cmdline, all_parameters. set (rest := parameters _). destruct (collect_enough (S (length rest)) rest) as (ps & Hps & _); [unfold len; lia|].
  exists ps. split; [done|]. rewrite Hps. cbn [mbind option_bind].
  assert (Forall permitted ps <-> List.find forbidden_parameter ps = None) as ->.
  { rewrite find_none, !Forall_forall. by setoid_rewrite forbidden_exact. }
  destruct (List.find forbidden_parameter ps); split; congruence.
Qed.

Lemma check_available_exact names : forall tsc, check_available tsc names = Ok tt <->
  Forall (fun name => name ∈ [bytes_of "tsc"; bytes_of "refined-jiffies"; bytes_of "jiffies"]) names /\ (tsc = true \/ bytes_of "tsc" ∈ names).
Proof.
  induction names as [|n names IH]; intros tsc; cbn [check_available].
  { destruct tsc; split; try done; [by split; [|left]|]. intros [_ [?|?%elem_of_nil]]; done. }
  rewrite Forall_cons. case_bool_decide as Ht; [|case_bool_decide as Hj].
  - rewrite IH. subst n. set_solver.
  - rewrite IH. set_solver.
  - split; [done|]. set_solver.
Qed.

Lemma filter_elem {A} (f : A -> bool) l x : x ∈ List.filter f l <-> x ∈ l /\ f x = true.
Proof. by rewrite !list_elem_of_In, filter_In. Qed.

Lemma without_newline_snoc text : without_newline (text ++ [NEWLINE]) = text.
Proof. unfold without_newline. rewrite last_snoc, bool_decide_true by done. apply removelast_last. Qed.

(** The command line that a guest booted with is read to its end and passes exactly when the time
    ABI permits each of its parameters, in any spelling of dashes, quotes and the newline of procfs
    included; and the clocksources pass exactly when the TSC is current and available, with at most
    the two jiffies beside it. *)
Theorem clock_settings_exact text current available :
  (exists ps, all_parameters (without_newline text) = Some ps /\ (check_cmdline text = Some (Ok tt) <-> Forall permitted ps))
  /\ (forall ps, Forall writable ps -> check_cmdline (write_line ps ++ [NEWLINE]) = Some (Ok tt) <-> Forall permitted ps)
  /\ (check_clocksource current available = Ok tt
      <-> first_piece (is_byte NEWLINE) current = bytes_of "tsc"
          /\ (forall name, name ∈ split_on is_space_or_newline available -> name <> [] -> name ∈ [bytes_of "tsc"; bytes_of "refined-jiffies"; bytes_of "jiffies"])
          /\ bytes_of "tsc" ∈ split_on is_space_or_newline available).
Proof.
  split_and!; [apply check_cmdline_exact| |].
  - intros ps Hw. destruct (check_cmdline_exact (write_line ps ++ [NEWLINE])) as (ps' & E & H).
    rewrite without_newline_snoc, (all_parameters_written ps Hw) in E. by injection E as <-.
  - unfold check_clocksource. case_bool_decide as Hc; cbn [negb]; [|split; [done|by intros [? _]]].
    rewrite check_available_exact, Forall_forall, filter_elem. setoid_rewrite filter_elem. split.
    + intros [Hn [?|[Ht _]]]; [done|]. split_and!; [done| |done]. intros n Hin Hne. apply Hn. split; [done|]. by destruct n.
    + intros (_ & Hn & Ht). split; [|right; by split]. intros n [Hin Hne]. apply Hn; [done|]. by destruct n.
Qed.

Lemma clock_settings_exact_witness :
  check_cmdline (write_line sample_parameters ++ [NEWLINE]) = Some (Ok tt) /\ Forall permitted sample_parameters.
Proof.
  assert (check_cmdline (write_line sample_parameters ++ [NEWLINE]) = Some (Ok tt)) as E by (vm_compute; reflexivity).
  split; [exact E|]. apply (clock_settings_exact [] [] []); [repeat (constructor || discriminate)|exact E].
Defined.

Example boot_log_sample :
  verdict (scan_boot_log (bytes_of "<6>[    0.000000] Hypervisor detected: Microsoft Hyper-V" ++ NEWLINE :: bytes_of "<6>[    0.000000] Hyper-V: privilege flags low 0x8860, high 0x0"
    ++ NEWLINE :: bytes_of "<6>[    0.1] Hyper-V: LAPIC Timer Frequency: 0x989680" ++ NEWLINE :: bytes_of "<6>[    0.2] clocksource: Switched to clocksource tsc" ++ [NEWLINE]) true) = Ok tt.
Proof. vm_compute. reflexivity. Qed.
