(* ===== verification/TimeState.v ===== *)
(** * The published time state (src/nvx-rs/src/guest/time/state.rs)

    The state file of the guest's time tools: its records and tokens, its text and the reader of it,
    and the updates that every process makes by reading, changing and replacing the file: the polls of
    the discipline (daemon.rs), the repair of a restore (api.rs), the checks (checks.rs), and the count of
    violations (system.rs). Counters wrap, as in the guest's release profile. *)

From S2P Require Import Prelude Cmdline Export Lowering AddressText NetworkArguments Endpoints Canonical TemplateKey RestorePacket ClockMath GuestText BootLog.

(** ** Tokens: enumerations with one spelling each *)

Class Token {A : Type} (spell : A -> string) (tokens : list A) : Prop := {
  token_all : forall a, a ∈ tokens;
  token_distinct : forall a b, bytes_of (spell a) = bytes_of (spell b) -> a = b;
}.

(** [parse] of the macro [tokens!]. *)
Definition parse_token {A} (spell : A -> string) (tokens : list A) (text : list byte) : option A :=
  List.find (fun token => bool_decide (text = bytes_of (spell token))) tokens.

Inductive CheckStatus : Type := StatusPending | StatusOk | StatusFail.
Inductive Discontinuity : Type := NoDiscontinuity | DStep | DRestore.
Inductive DowntimeSource : Type := NoDowntime | DowntimeUtc | DowntimeMonotonic.
Inductive SampleRejection : Type := NoRejection | RejectUncertain | RejectTsc | RejectInvalid.

Definition spell_check (self : CheckStatus) : string := match self with StatusPending => "pending" | StatusOk => "ok" | StatusFail => "fail" end.
Definition spell_discontinuity (self : Discontinuity) : string := match self with NoDiscontinuity => "none" | DStep => "step" | DRestore => "restore" end.
Definition spell_downtime (self : DowntimeSource) : string := match self with NoDowntime => "none" | DowntimeUtc => "utc" | DowntimeMonotonic => "monotonic" end.
Definition spell_rejection (self : SampleRejection) : string :=
  match self with NoRejection => "none" | RejectUncertain => "G_SAMPLE_UNCERTAIN" | RejectTsc => "G_SAMPLE_TSC" | RejectInvalid => "G_SAMPLE_INVALID" end.
Definition spell_host (self : HostClockStatus) : string :=
  match self with Unknown => "unknown" | Synchronized => "synchronized" | FreeRunning => "free-running" | Unreliable => "unreliable" end.

Definition check_tokens : list CheckStatus := [StatusPending; StatusOk; StatusFail].
Definition discontinuity_tokens : list Discontinuity := [NoDiscontinuity; DStep; DRestore].
Definition downtime_tokens : list DowntimeSource := [NoDowntime; DowntimeUtc; DowntimeMonotonic].
Definition rejection_tokens : list SampleRejection := [NoRejection; RejectUncertain; RejectTsc; RejectInvalid].
Definition host_tokens : list HostClockStatus := [Unknown; Synchronized; FreeRunning; Unreliable].

(** ** The state *)

Record CheckState := mkCheckState {
  ck_status : option CheckStatus;
  ck_cpus : Z;
  ck_elapsed_us : Z;
  ck_cpu_us : Z;
  ck_generation : Z;
  ck_failures : option Z;
}.

Definition default_check : CheckState := mkCheckState None 0 0 0 0 None.

Record TimeState := mkTimeState {
  st_generation : Z;
  checks : list CheckState;
  st_tsc_hz : Z;
  st_lapic_hz : Z;
  discontinuities : Z;
  last_discontinuity : Discontinuity;
  last_step_ns : Z;
  last_step_realtime_ns : Z;
  last_downtime_ns : Z;
  last_downtime_source : DowntimeSource;
  synchronized : bool;
  offset_ns : Z;
  uncertainty_ns : Z;
  frequency_ppb : Z;
  frequency_limited : bool;
  host_status : HostClockStatus;
  host_correction_ppb : Z;
  host_correction_bound_ppb : option Z;
  host_max_error_us : option Z;
  host_disruption : Z;
  host_test_hooks : bool;
  samples : Z;
  rejected_samples : Z;
  last_sample_error : SampleRejection;
  violations : Z;
}.

Definition default_state : TimeState :=
  mkTimeState 0 [mkCheckState (Some StatusPending) 0 0 0 0 None; default_check; default_check] 0 0 0 NoDiscontinuity 0 0 0 NoDowntime
    false 0 0 0 false Unknown 0 None None 0 false 0 0 NoRejection 0.

(** [Phase::CHECKS]. *)
Definition CHECKS : list Phase := [Boot; Capture; Restore].

Definition check_index (self : Phase) : option nat :=
  match self with Boot => Some 0%nat | Capture => Some 1%nat | Restore => Some 2%nat | Runtime => None end.

(** ** The reader *)

(** The keys that [set] knows: a phase's field, or a field of the state. *)
Inductive CheckField : Type := FStatus | FCpus | FElapsedUs | FCpuUs | FGeneration | FFailures.

Inductive StateKey : Type :=
| KGeneration | KTscHz | KLapicHz | KDiscontinuities | KLastDiscontinuity | KLastStepNs | KLastStepRealtimeNs | KLastDowntimeNs
| KLastDowntimeSource | KSynchronized | KOffsetNs | KUncertaintyNs | KFrequencyPpb | KFrequencyLimited | KHostStatus | KHostCorrectionPpb
| KHostCorrectionBoundPpb | KHostMaxErrorUs | KHostDisruption | KHostTestHooks | KSamples | KRejectedSamples | KLastSampleError | KViolations.

Definition spell_field (self : CheckField) : string :=
  match self with
  | FStatus => "status" | FCpus => "cpus" | FElapsedUs => "elapsed_us" | FCpuUs => "cpu_us" | FGeneration => "generation" | FFailures => "failures"
  end.

Definition spell_key (self : StateKey) : string :=
  match self with
  | KGeneration => "generation" | KTscHz => "tsc_hz" | KLapicHz => "lapic_hz" | KDiscontinuities => "discontinuities"
  | KLastDiscontinuity => "last_discontinuity" | KLastStepNs => "last_step_ns" | KLastStepRealtimeNs => "last_step_realtime_ns"
  | KLastDowntimeNs => "last_downtime_ns" | KLastDowntimeSource => "last_downtime_source" | KSynchronized => "synchronized"
  | KOffsetNs => "offset_ns" | KUncertaintyNs => "uncertainty_ns" | KFrequencyPpb => "frequency_ppb" | KFrequencyLimited => "frequency_limited"
  | KHostStatus => "host_status" | KHostCorrectionPpb => "host_correction_ppb" | KHostCorrectionBoundPpb => "host_correction_bound_ppb"
  | KHostMaxErrorUs => "host_max_error_us" | KHostDisruption => "host_disruption" | KHostTestHooks => "host_test_hooks"
  | KSamples => "samples" | KRejectedSamples => "rejected_samples" | KLastSampleError => "last_sample_error" | KViolations => "violations"
  end.

Definition all_fields : list CheckField := [FStatus; FCpus; FElapsedUs; FCpuUs; FGeneration; FFailures].
Definition all_keys : list StateKey :=
  [KGeneration; KTscHz; KLapicHz; KDiscontinuities; KLastDiscontinuity; KLastStepNs; KLastStepRealtimeNs; KLastDowntimeNs; KLastDowntimeSource;
   KSynchronized; KOffsetNs; KUncertaintyNs; KFrequencyPpb; KFrequencyLimited; KHostStatus; KHostCorrectionPpb; KHostCorrectionBoundPpb;
   KHostMaxErrorUs; KHostDisruption; KHostTestHooks; KSamples; KRejectedSamples; KLastSampleError; KViolations].

#[export] Instance state_key_eq_dec : EqDecision StateKey.
Proof. solve_decision. Defined.

(** [number] of the two widths, a number that is a flag, and [bound]. *)
Definition number_u64 (value : list byte) : option Z := std_parse 0 U64_MAX value.
Definition number_i64 (value : list byte) : option Z := std_parse I64_MIN I64_MAX value.
Definition flag (value : list byte) : option bool := n ← number_u64 value; Some (negb (n =? 0)).
Definition bound (value : list byte) : option (option Z) :=
  if bool_decide (value = bytes_of "unknown") then Some None else n ← number_u64 value; Some (Some n).

(** The phase whose name starts a key, and the rest after the underscore. *)
Definition check_key (key : list byte) : option (Phase * list byte) :=
  head (omap (fun phase => rest ← strip_prefix (phase_name phase) key; field ← strip_prefix (bytes_of "_") rest; Some (phase, field)) CHECKS).

Definition set_check (phase : Phase) (field value : list byte) (check : CheckState) : option CheckState :=
  match parse_token spell_field all_fields field with
  | Some FStatus => status ← parse_token spell_check check_tokens value;
                    Some (mkCheckState (Some status) (ck_cpus check) (ck_elapsed_us check) (ck_cpu_us check) (ck_generation check) (ck_failures check))
  | Some FCpus => n ← number_u64 value;
                  Some (mkCheckState (ck_status check) n (ck_elapsed_us check) (ck_cpu_us check) (ck_generation check) (ck_failures check))
  | Some FElapsedUs => n ← number_i64 value;
                       Some (mkCheckState (ck_status check) (ck_cpus check) n (ck_cpu_us check) (ck_generation check) (ck_failures check))
  | Some FCpuUs => n ← number_i64 value;
                   Some (mkCheckState (ck_status check) (ck_cpus check) (ck_elapsed_us check) n (ck_generation check) (ck_failures check))
  | Some FGeneration => if bool_decide (phase = Boot) then Some check
                        else n ← number_u64 value;
                             Some (mkCheckState (ck_status check) (ck_cpus check) (ck_elapsed_us check) (ck_cpu_us check) n (ck_failures check))
  | Some FFailures => n ← number_u64 value;
                      Some (mkCheckState (ck_status check) (ck_cpus check) (ck_elapsed_us check) (ck_cpu_us check) (ck_generation check) (Some n))
  | None => Some check
  end.

(** One arm of the match on the key: the value that it sets, or the old one under another key. *)
Definition arm {A} (key arm_key : StateKey) (read : option A) (old : A) : option A := if bool_decide (key = arm_key) then read else Some old.

Definition set_key (self : TimeState) (key : StateKey) (value : list byte) : option TimeState :=
  generation ← arm key KGeneration (number_u64 value) (st_generation self);
  tsc_hz ← arm key KTscHz (number_u64 value) (st_tsc_hz self);
  lapic_hz ← arm key KLapicHz (number_u64 value) (st_lapic_hz self);
  discontinuities ← arm key KDiscontinuities (number_u64 value) (discontinuities self);
  last_discontinuity ← arm key KLastDiscontinuity (parse_token spell_discontinuity discontinuity_tokens value) (last_discontinuity self);
  last_step_ns ← arm key KLastStepNs (number_i64 value) (last_step_ns self);
  last_step_realtime_ns ← arm key KLastStepRealtimeNs (number_i64 value) (last_step_realtime_ns self);
  last_downtime_ns ← arm key KLastDowntimeNs (number_u64 value) (last_downtime_ns self);
  last_downtime_source ← arm key KLastDowntimeSource (parse_token spell_downtime downtime_tokens value) (last_downtime_source self);
  synchronized ← arm key KSynchronized (flag value) (synchronized self);
  offset_ns ← arm key KOffsetNs (number_i64 value) (offset_ns self);
  uncertainty_ns ← arm key KUncertaintyNs (number_i64 value) (uncertainty_ns self);
  frequency_ppb ← arm key KFrequencyPpb (number_i64 value) (frequency_ppb self);
  frequency_limited ← arm key KFrequencyLimited (flag value) (frequency_limited self);
  host_status ← arm key KHostStatus (parse_token spell_host host_tokens value) (host_status self);
  host_correction_ppb ← arm key KHostCorrectionPpb (number_i64 value) (host_correction_ppb self);
  host_correction_bound_ppb ← arm key KHostCorrectionBoundPpb (bound value) (host_correction_bound_ppb self);
  host_max_error_us ← arm key KHostMaxErrorUs (bound value) (host_max_error_us self);
  host_disruption ← arm key KHostDisruption (number_u64 value) (host_disruption self);
  host_test_hooks ← arm key KHostTestHooks (flag value) (host_test_hooks self);
  samples ← arm key KSamples (number_u64 value) (samples self);
  rejected_samples ← arm key KRejectedSamples (number_u64 value) (rejected_samples self);
  last_sample_error ← arm key KLastSampleError (parse_token spell_rejection rejection_tokens value) (last_sample_error self);
  violations ← arm key KViolations (number_u64 value) (violations self);
  Some (mkTimeState generation (checks self) tsc_hz lapic_hz discontinuities last_discontinuity last_step_ns last_step_realtime_ns last_downtime_ns
          last_downtime_source synchronized offset_ns uncertainty_ns frequency_ppb frequency_limited host_status host_correction_ppb
          host_correction_bound_ppb host_max_error_us host_disruption host_test_hooks samples rejected_samples last_sample_error violations).

(** The state with other checks. *)
Definition with_checks (self : TimeState) (cs : list CheckState) : TimeState :=
  mkTimeState (st_generation self) cs (st_tsc_hz self) (st_lapic_hz self) (discontinuities self) (last_discontinuity self) (last_step_ns self)
    (last_step_realtime_ns self) (last_downtime_ns self) (last_downtime_source self) (synchronized self) (offset_ns self) (uncertainty_ns self)
    (frequency_ppb self) (frequency_limited self) (host_status self) (host_correction_ppb self) (host_correction_bound_ppb self)
    (host_max_error_us self) (host_disruption self) (host_test_hooks self) (samples self) (rejected_samples self) (last_sample_error self) (violations self).

(** [&mut self.checks[index]]. *)
Definition alter_check (self : TimeState) (phase : Phase) (f : CheckState -> option CheckState) : option TimeState :=
  match check_index phase with
  | Some index => match checks self !! index with
                  | Some check => check ← f check; Some (with_checks self (<[index := check]> (checks self)))
                  | None => Some self
                  end
  | None => Some self
  end.

Definition set (self : TimeState) (key value : list byte) : option TimeState :=
  match check_key key with
  | Some (phase, field) => alter_check self phase (set_check phase field value)
  | None => match parse_token spell_key all_keys key with
            | Some key => set_key self key value
            | None => Some self
            end
  end.

(** [str::lines]: without the newlines, and without a carriage return before one. *)
Definition strip_return (line : list byte) : list byte :=
  if bool_decide (last line = Some (byte_of 13)) then removelast line else line.

Definition lines (text : list byte) : list (list byte) :=
  let pieces := split_on (is_byte NEWLINE) text in
  (strip_return <$> removelast pieces) ++ match last pieces with Some (_ :: _ as line) => [line] | _ => [] end.

Fixpoint set_all (self : TimeState) (entries : list (list byte * list byte)) : option TimeState :=
  match entries with
  | [] => Some self
  | (key, value) :: entries => self ← set self key value; set_all self entries
  end.

Definition parse_state (text : list byte) : option TimeState :=
  text ← from_utf8 text; set_all default_state (omap (split_once EQUALS) (lines text)).

(** ** The writer *)

(** [recorded]: the phases whose checks ran. *)
Definition recorded (self : TimeState) : list (Phase * CheckState * CheckStatus) :=
  omap (fun '(phase, check) => status ← ck_status check; Some (phase, check, status)) (zip CHECKS (checks self)).

Definition check_entry (phase : Phase) (field : CheckField) (value : list byte) : list byte * list byte :=
  (phase_name phase ++ bytes_of "_" ++ bytes_of (spell_field field), value).

Definition key_entry (key : StateKey) (value : list byte) : list byte * list byte := (bytes_of (spell_key key), value).

Definition write_flag (b : bool) : list byte := dec (if b then 1 else 0).
Definition write_bound (b : option Z) : list byte := match b with Some n => dec n | None => bytes_of "unknown" end.

(** The keys of the checks, in the order that the ABI fixes. *)
Definition check_entries (self : TimeState) : list (list byte * list byte) :=
  ((fun '(phase, _, status) => check_entry phase FStatus (bytes_of (spell_check status))) <$> recorded self)
  ++ ((fun '(phase, check, _) => check_entry phase FCpus (dec (ck_cpus check))) <$> recorded self)
  ++ ((fun '(phase, check, _) => check_entry phase FElapsedUs (dec_signed (ck_elapsed_us check))) <$> recorded self)
  ++ ((fun '(phase, check, _) => check_entry phase FCpuUs (dec_signed (ck_cpu_us check))) <$> recorded self)
  ++ ((fun '(phase, check, _) => check_entry phase FGeneration (dec (ck_generation check)))
        <$> List.filter (fun '(phase, _, _) => negb (bool_decide (phase = Boot))) (recorded self))
  ++ omap (fun '(phase, check, _) => failures ← ck_failures check; Some (check_entry phase FFailures (dec failures))) (recorded self).

Definition key_entries (self : TimeState) : list (list byte * list byte) :=
  [key_entry KTscHz (dec (st_tsc_hz self)); key_entry KLapicHz (dec (st_lapic_hz self)); key_entry KDiscontinuities (dec (discontinuities self));
   key_entry KLastDiscontinuity (bytes_of (spell_discontinuity (last_discontinuity self))); key_entry KLastStepNs (dec_signed (last_step_ns self));
   key_entry KLastStepRealtimeNs (dec_signed (last_step_realtime_ns self)); key_entry KLastDowntimeNs (dec (last_downtime_ns self));
   key_entry KLastDowntimeSource (bytes_of (spell_downtime (last_downtime_source self))); key_entry KSynchronized (write_flag (synchronized self));
   key_entry KOffsetNs (dec_signed (offset_ns self)); key_entry KUncertaintyNs (dec_signed (uncertainty_ns self));
   key_entry KFrequencyPpb (dec_signed (frequency_ppb self)); key_entry KFrequencyLimited (write_flag (frequency_limited self));
   key_entry KHostStatus (bytes_of (spell_host (host_status self))); key_entry KHostCorrectionPpb (dec_signed (host_correction_ppb self));
   key_entry KHostCorrectionBoundPpb (write_bound (host_correction_bound_ppb self)); key_entry KHostMaxErrorUs (write_bound (host_max_error_us self));
   key_entry KHostDisruption (dec (host_disruption self)); key_entry KHostTestHooks (write_flag (host_test_hooks self)); key_entry KSamples (dec (samples self));
   key_entry KRejectedSamples (dec (rejected_samples self)); key_entry KLastSampleError (bytes_of (spell_rejection (last_sample_error self)));
   key_entry KViolations (dec (violations self))].

Definition state_entries (self : TimeState) : list (list byte * list byte) :=
  (bytes_of "version", bytes_of "1") :: key_entry KGeneration (dec (st_generation self)) :: check_entries self ++ key_entries self.

Definition write_entry (entry : list byte * list byte) : list byte := entry.1 ++ EQUALS :: entry.2.

(** [Display]. *)
Definition write_state (self : TimeState) : list byte := mjoin ((fun entry => write_entry entry ++ [NEWLINE]) <$> state_entries self).

(** ** What the state says *)

Definition is_pending (status : CheckStatus) : bool := match status with StatusPending => true | _ => false end.
Definition is_ok (status : CheckStatus) : bool := match status with StatusOk => true | _ => false end.

Definition pending (self : TimeState) (boot_only : bool) : bool :=
  existsb (fun '(_, _, status) => is_pending status)
    (List.filter (fun '(phase, _, _) => negb boot_only || bool_decide (phase = Boot)) (recorded self)).

Definition checks_ok (self : TimeState) : bool := forallb (fun '(_, _, status) => is_ok status) (recorded self).

(** ** The updates *)

Record BestSample := mkBestSample {
  theta : Z;
  epsilon : Z;
  bs_host : HostUtc;
  bs_frequency : Z;
  limited : bool;
  bs_test_hooks : bool;
}.

(** [counter += 1], which wraps. *)
Definition increment (n : Z) : Z := (n + 1) mod 2 ^ 64.

Definition record_sample (self : TimeState) (sample : BestSample) : option TimeState :=
  let host := bs_host sample in
  frequency_ppb ← frequency_to_ppb (bs_frequency sample);
  correction_ppb ← frequency_to_ppb (correction host);
  Some (mkTimeState (st_generation self) (checks self) (st_tsc_hz self) (st_lapic_hz self) (discontinuities self) (last_discontinuity self)
    (last_step_ns self) (last_step_realtime_ns self) (last_downtime_ns self) (last_downtime_source self) (synchronized self) (theta sample)
    (epsilon sample) frequency_ppb (limited sample) (status host) correction_ppb (bound_to_ppb <$> correction_bound host) (max_error_us host)
    (disruption host) (bs_test_hooks sample) (increment (samples self)) (rejected_samples self) NoRejection (violations self)).

(** The state with a step of the wall clock recorded. *)
Definition with_step (self : TimeState) (kind : Discontinuity) (step_ns realtime_ns : Z) : TimeState :=
  mkTimeState (st_generation self) (checks self) (st_tsc_hz self) (st_lapic_hz self) (increment (discontinuities self)) kind step_ns realtime_ns
    (last_downtime_ns self) (last_downtime_source self) (synchronized self) (offset_ns self) (uncertainty_ns self) (frequency_ppb self)
    (frequency_limited self) (host_status self) (host_correction_ppb self) (host_correction_bound_ppb self) (host_max_error_us self)
    (host_disruption self) (host_test_hooks self) (samples self) (rejected_samples self) (last_sample_error self) (violations self).

Definition with_synchronized (self : TimeState) (b : bool) : TimeState :=
  mkTimeState (st_generation self) (checks self) (st_tsc_hz self) (st_lapic_hz self) (discontinuities self) (last_discontinuity self) (last_step_ns self)
    (last_step_realtime_ns self) (last_downtime_ns self) (last_downtime_source self) b (offset_ns self) (uncertainty_ns self) (frequency_ppb self)
    (frequency_limited self) (host_status self) (host_correction_ppb self) (host_correction_bound_ppb self) (host_max_error_us self)
    (host_disruption self) (host_test_hooks self) (samples self) (rejected_samples self) (last_sample_error self) (violations self).

Inductive PollOutcome : Type :=
| Rejected (reason : SampleRejection)
| Accepted (sample : BestSample) (step_realtime_ns : option Z).

Definition with_rejection (self : TimeState) (reason : SampleRejection) : TimeState :=
  mkTimeState (st_generation self) (checks self) (st_tsc_hz self) (st_lapic_hz self) (discontinuities self) (last_discontinuity self) (last_step_ns self)
    (last_step_realtime_ns self) (last_downtime_ns self) (last_downtime_source self) (synchronized self) (offset_ns self) (uncertainty_ns self)
    (frequency_ppb self) (frequency_limited self) (host_status self) (host_correction_ppb self) (host_correction_bound_ppb self)
    (host_max_error_us self) (host_disruption self) (host_test_hooks self) (samples self) (increment (rejected_samples self)) reason (violations self).

(** The state, and whether the accepted sample shows a disruption. *)
Definition apply_poll (self : TimeState) (outcome : PollOutcome) (synchronized : bool) : option (TimeState * bool) :=
  '(state, disrupted) ←
    match outcome with
    | Accepted sample step_realtime_ns =>
        let disrupted := negb (samples self =? 0) && negb (host_disruption self =? disruption (bs_host sample)) in
        state ← record_sample self sample;
        Some (match step_realtime_ns with Some realtime_ns => with_step state DStep (theta sample) realtime_ns | None => state end, disrupted)
    | Rejected reason => Some (with_rejection self reason, false)
    end;
  Some (with_synchronized state synchronized, disrupted).

(** The state with a restore's generation and downtime. *)
Definition with_restore (self : TimeState) (generation downtime_ns : Z) (source : DowntimeSource) : TimeState :=
  mkTimeState generation (checks self) (st_tsc_hz self) (st_lapic_hz self) (discontinuities self) (last_discontinuity self) (last_step_ns self)
    (last_step_realtime_ns self) downtime_ns source (synchronized self) (offset_ns self) (uncertainty_ns self) (frequency_ppb self)
    (frequency_limited self) (host_status self) (host_correction_ppb self) (host_correction_bound_ppb self) (host_max_error_us self)
    (host_disruption self) (host_test_hooks self) (samples self) (rejected_samples self) (last_sample_error self) (violations self).

Definition apply_repair (self : TimeState) (packet : PacketHeader) (sample : BestSample) (step_realtime_ns elapsed_us : Z) : option TimeState :=
  let source := if downtime_from_utc packet then DowntimeUtc else DowntimeMonotonic in
  let state := with_restore self (RestorePacket.generation packet) (downtime_ns packet) source in
  let state := with_synchronized (with_step state DRestore (theta sample) step_realtime_ns) true in
  state ← record_sample state sample;
  alter_check state Restore (fun _ => Some (mkCheckState (Some StatusPending) 0 elapsed_us 0 (st_generation state) None)).

(** What a completed phase reports: the phase, its CPUs and timing, the failures of report-only mode,
    and the rates, zero for unknown ones. *)
Record CheckReport := mkCheckReport {
  report_phase : Phase;
  report_online : CpuMask;
  report_elapsed_us : Z;
  report_cpu_us : Z;
  report_failures : option Z;
  report_tsc_hz : Z;
  report_lapic_hz : Z;
}.

Definition with_rates (self : TimeState) (tsc_hz lapic_hz : Z) : TimeState :=
  mkTimeState (st_generation self) (checks self) (if negb (tsc_hz =? 0) then tsc_hz else st_tsc_hz self) (if negb (lapic_hz =? 0) then lapic_hz else st_lapic_hz self)
    (discontinuities self) (last_discontinuity self) (last_step_ns self) (last_step_realtime_ns self) (last_downtime_ns self) (last_downtime_source self)
    (synchronized self) (offset_ns self) (uncertainty_ns self) (frequency_ppb self) (frequency_limited self) (host_status self) (host_correction_ppb self)
    (host_correction_bound_ppb self) (host_max_error_us self) (host_disruption self) (host_test_hooks self) (samples self) (rejected_samples self)
    (last_sample_error self) (violations self).

Definition report_status (r : CheckReport) : CheckStatus :=
  match report_failures r with Some failures => if 0 <? failures then StatusFail else StatusOk | None => StatusOk end.

(** The update of [record_check], of a phase that has a record. *)
Definition apply_report (self : TimeState) (r : CheckReport) : option TimeState :=
  let generation := if bool_decide (report_phase r = Boot) then 0 else st_generation self in
  state ← alter_check self (report_phase r)
    (fun _ => Some (mkCheckState (Some (report_status r)) (mask_len (report_online r)) (report_elapsed_us r) (report_cpu_us r) generation (report_failures r)));
  Some (with_rates state (report_tsc_hz r) (report_lapic_hz r)).

Definition count_violation (self : TimeState) : TimeState :=
  mkTimeState (st_generation self) (checks self) (st_tsc_hz self) (st_lapic_hz self) (discontinuities self) (last_discontinuity self) (last_step_ns self)
    (last_step_realtime_ns self) (last_downtime_ns self) (last_downtime_source self) (synchronized self) (offset_ns self) (uncertainty_ns self)
    (frequency_ppb self) (frequency_limited self) (host_status self) (host_correction_ppb self) (host_correction_bound_ppb self)
    (host_max_error_us self) (host_disruption self) (host_test_hooks self) (samples self) (rejected_samples self) (last_sample_error self)
    (increment (violations self)).

(** The state of a cold boot, from its initial sample or else the kernel's frequency. *)
Definition with_frequency (self : TimeState) (ppb : Z) : TimeState :=
  mkTimeState (st_generation self) (checks self) (st_tsc_hz self) (st_lapic_hz self) (discontinuities self) (last_discontinuity self) (last_step_ns self)
    (last_step_realtime_ns self) (last_downtime_ns self) (last_downtime_source self) (synchronized self) (offset_ns self) (uncertainty_ns self)
    ppb (frequency_limited self) (host_status self) (host_correction_ppb self) (host_correction_bound_ppb self)
    (host_max_error_us self) (host_disruption self) (host_test_hooks self) (samples self) (rejected_samples self) (last_sample_error self) (violations self).

Definition cold_boot_state (initial : option BestSample) (frequency : Z) : option TimeState :=
  let state := with_synchronized default_state (is_some initial) in
  match initial with
  | Some sample => record_sample state sample
  | None => ppb ← frequency_to_ppb frequency; Some (with_frequency state ppb)
  end.

(** ** The file *)

(** What one process does to the state. *)
Inductive Update : Type :=
| UPoll (outcome : PollOutcome) (synchronized : bool)
| URepair (packet : PacketHeader) (sample : BestSample) (step_realtime_ns elapsed_us : Z)
| UReport (report : CheckReport)
| UViolation.

Definition update (self : TimeState) (u : Update) : option TimeState :=
  match u with
  | UPoll outcome synchronized => '(state, _) ← apply_poll self outcome synchronized; Some state
  | URepair packet sample step_realtime_ns elapsed_us => apply_repair self packet sample step_realtime_ns elapsed_us
  | UReport report => apply_report self report
  | UViolation => Some (count_violation self)
  end.

(** [state_load], [None] for a file that is not a state. *)
Definition state_load (file : list byte) : option TimeState := parse_state file.

(** [state_apply], of reads and writes that succeed: the file after the update. *)
Definition state_apply (file : list byte) (u : Update) : option (list byte) :=
  state ← update (default default_state (state_load file)) u; Some (write_state state).

Definition rates_load (file : list byte) : option (Z * Z) :=
  state ← state_load file;
  if (st_tsc_hz state =? 0) || (st_lapic_hz state =? 0) then None else Some (st_tsc_hz state, st_lapic_hz state).


(** ** Tokens and numbers *)

Lemma parse_spelled {A} (spell : A -> string) (tokens : list A) `{!Token spell tokens} a : parse_token spell tokens (bytes_of (spell a)) = Some a.
Proof.
  unfold parse_token. pose proof (token_all (spell := spell) a) as Ha. pose proof (token_distinct (spell := spell) (tokens := tokens)) as Hd.
  clear Token0. induction tokens as [|t ts IH]; [by apply elem_of_nil in Ha|].
  cbn [List.find]. case_bool_decide as E; [by apply Hd in E as ->|]. apply IH. apply elem_of_cons in Ha as [->|Ha]; [|done]. by destruct E.
Qed.

Ltac token := split; [intros []; repeat (first [by left | right])|intros [] []; done].

#[export] Instance check_token : Token spell_check check_tokens.
Proof. token. Qed.
#[export] Instance discontinuity_token : Token spell_discontinuity discontinuity_tokens.
Proof. token. Qed.
#[export] Instance downtime_token : Token spell_downtime downtime_tokens.
Proof. token. Qed.
#[export] Instance rejection_token : Token spell_rejection rejection_tokens.
Proof. token. Qed.
#[export] Instance host_token : Token spell_host host_tokens.
Proof. token. Qed.
#[export] Instance field_token : Token spell_field all_fields.
Proof. token. Qed.
#[export] Instance key_token : Token spell_key all_keys.
Proof. token. Qed.

Lemma number_u64_dec n : is_u64 n -> number_u64 (dec n) = Some n.
Proof. unfold is_u64. intros. apply std_parse_dec; lia. Qed.

Lemma number_i64_dec n : is_i64 n -> number_i64 (dec_signed n) = Some n.
Proof.
  unfold is_i64, number_i64, dec_signed. intros Hn. destruct (Z.ltb_spec n 0); [|apply std_parse_dec; unfold I64_MIN, I64_MAX, U64_MAX in *; lia].
  unfold std_parse. pose proof (dec_digits (- n) ltac:(lia)) as Hd. destruct (dec (- n)) as [|b d] eqn:E; [by apply digits_nonempty in E; [|lia]|].
  change (byte_val DASH =? 43) with false. change ((byte_val DASH =? 45) && (I64_MIN <? 0)) with true. cbn iota.
  apply forallb_digits in Hd as ->. cbn [is_empty orb negb]. rewrite <-E. unfold dec.
  rewrite digits_decimal by (change (10 ^ Z.of_nat 20) with (10 ^ 20); unfold I64_MIN, I64_MAX in *; lia). rewrite Z.opp_involutive.
  by rewrite (proj2 (Z.leb_le _ _) (proj1 Hn)), (proj2 (Z.leb_le _ _) (proj2 Hn)).
Qed.

Lemma flag_written b : flag (write_flag b) = Some b.
Proof. unfold flag, write_flag. rewrite number_u64_dec by (unfold is_u64, U64_MAX; destruct b; lia). by destruct b. Qed.

Lemma bound_written b : opt_all is_u64 b -> bound (write_bound b) = Some b.
Proof.
  intros Hb. unfold bound, write_bound. destruct b as [n|]; [|done]. cbn in Hb. rewrite bool_decide_false.
  - by rewrite number_u64_dec.
  - intros E. pose proof (dec_digits n ltac:(unfold is_u64 in Hb; lia)) as Hd. rewrite E in Hd. by inv Hd.
Qed.

(** ** Reading what was written *)

(** A key of the file. *)
Inductive FileKey : Type := KeyCheck (phase : Phase) (field : CheckField) | KeyState (key : StateKey).

#[export] Instance check_field_eq_dec : EqDecision CheckField.
Proof. solve_decision. Defined.
#[export] Instance file_key_eq_dec : EqDecision FileKey.
Proof. solve_decision. Defined.

Definition check_value (check : CheckState) (field : CheckField) : list byte :=
  match field with
  | FStatus => match ck_status check with Some status => bytes_of (spell_check status) | None => [] end
  | FCpus => dec (ck_cpus check)
  | FElapsedUs => dec_signed (ck_elapsed_us check)
  | FCpuUs => dec_signed (ck_cpu_us check)
  | FGeneration => dec (ck_generation check)
  | FFailures => match ck_failures check with Some failures => dec failures | None => [] end
  end.

Definition key_value (s : TimeState) (key : StateKey) : list byte :=
  match key with
  | KGeneration => dec (st_generation s) | KTscHz => dec (st_tsc_hz s) | KLapicHz => dec (st_lapic_hz s) | KDiscontinuities => dec (discontinuities s)
  | KLastDiscontinuity => bytes_of (spell_discontinuity (last_discontinuity s)) | KLastStepNs => dec_signed (last_step_ns s)
  | KLastStepRealtimeNs => dec_signed (last_step_realtime_ns s) | KLastDowntimeNs => dec (last_downtime_ns s)
  | KLastDowntimeSource => bytes_of (spell_downtime (last_downtime_source s)) | KSynchronized => write_flag (synchronized s)
  | KOffsetNs => dec_signed (offset_ns s) | KUncertaintyNs => dec_signed (uncertainty_ns s) | KFrequencyPpb => dec_signed (frequency_ppb s)
  | KFrequencyLimited => write_flag (frequency_limited s) | KHostStatus => bytes_of (spell_host (host_status s))
  | KHostCorrectionPpb => dec_signed (host_correction_ppb s) | KHostCorrectionBoundPpb => write_bound (host_correction_bound_ppb s)
  | KHostMaxErrorUs => write_bound (host_max_error_us s) | KHostDisruption => dec (host_disruption s) | KHostTestHooks => write_flag (host_test_hooks s)
  | KSamples => dec (samples s) | KRejectedSamples => dec (rejected_samples s) | KLastSampleError => bytes_of (spell_rejection (last_sample_error s))
  | KViolations => dec (violations s)
  end.

Definition check_of (s : TimeState) (phase : Phase) : CheckState := default default_check (index ← check_index phase; checks s !! index).

Definition file_entry (s : TimeState) (key : FileKey) : list byte * list byte :=
  match key with
  | KeyCheck phase field => check_entry phase field (check_value (check_of s phase) field)
  | KeyState key => key_entry key (key_value s key)
  end.

(** The fields of a state that a set of keys selects, and of another state the others. *)
Definition mem (key : FileKey) (keys : list FileKey) : bool := existsb (fun k => bool_decide (key = k)) keys.

Definition select {A} (keys : list FileKey) (key : FileKey) (a b : A) : A := if mem key keys then a else b.

Definition merge_check (keys : list FileKey) (p : Phase) (a b : CheckState) : CheckState :=
  mkCheckState (select keys (KeyCheck p FStatus) (ck_status a) (ck_status b)) (select keys (KeyCheck p FCpus) (ck_cpus a) (ck_cpus b))
    (select keys (KeyCheck p FElapsedUs) (ck_elapsed_us a) (ck_elapsed_us b)) (select keys (KeyCheck p FCpuUs) (ck_cpu_us a) (ck_cpu_us b))
    (select keys (KeyCheck p FGeneration) (ck_generation a) (ck_generation b)) (select keys (KeyCheck p FFailures) (ck_failures a) (ck_failures b)).

Definition merge (keys : list FileKey) (a b : TimeState) : TimeState :=
  let pick {A} (key : StateKey) (f : TimeState -> A) : A := select keys (KeyState key) (f a) (f b) in
  mkTimeState (pick KGeneration st_generation) ((fun p => merge_check keys p (check_of a p) (check_of b p)) <$> CHECKS)
    (pick KTscHz st_tsc_hz) (pick KLapicHz st_lapic_hz) (pick KDiscontinuities discontinuities) (pick KLastDiscontinuity last_discontinuity)
    (pick KLastStepNs last_step_ns) (pick KLastStepRealtimeNs last_step_realtime_ns) (pick KLastDowntimeNs last_downtime_ns)
    (pick KLastDowntimeSource last_downtime_source) (pick KSynchronized synchronized) (pick KOffsetNs offset_ns) (pick KUncertaintyNs uncertainty_ns)
    (pick KFrequencyPpb frequency_ppb) (pick KFrequencyLimited frequency_limited) (pick KHostStatus host_status) (pick KHostCorrectionPpb host_correction_ppb)
    (pick KHostCorrectionBoundPpb host_correction_bound_ppb) (pick KHostMaxErrorUs host_max_error_us) (pick KHostDisruption host_disruption)
    (pick KHostTestHooks host_test_hooks) (pick KSamples samples) (pick KRejectedSamples rejected_samples) (pick KLastSampleError last_sample_error)
    (pick KViolations violations).

(** ** Typed states *)

Record check_typed (c : CheckState) : Prop := mkCheckTyped {
  ct_cpus : is_u64 (ck_cpus c);
  ct_elapsed : is_i64 (ck_elapsed_us c);
  ct_cpu : is_i64 (ck_cpu_us c);
  ct_generation : is_u64 (ck_generation c);
  ct_failures : opt_all is_u64 (ck_failures c);
}.

Record fields_typed (s : TimeState) : Prop := mkFieldsTyped {
  ft_generation : is_u64 (st_generation s);
  ft_tsc_hz : is_u64 (st_tsc_hz s);
  ft_lapic_hz : is_u64 (st_lapic_hz s);
  ft_discontinuities : is_u64 (discontinuities s);
  ft_last_step_ns : is_i64 (last_step_ns s);
  ft_last_step_realtime_ns : is_i64 (last_step_realtime_ns s);
  ft_last_downtime_ns : is_u64 (last_downtime_ns s);
  ft_offset_ns : is_i64 (offset_ns s);
  ft_uncertainty_ns : is_i64 (uncertainty_ns s);
  ft_frequency_ppb : is_i64 (frequency_ppb s);
  ft_host_correction_ppb : is_i64 (host_correction_ppb s);
  ft_host_correction_bound_ppb : opt_all is_u64 (host_correction_bound_ppb s);
  ft_host_max_error_us : opt_all is_u64 (host_max_error_us s);
  ft_host_disruption : is_u64 (host_disruption s);
  ft_samples : is_u64 (samples s);
  ft_rejected_samples : is_u64 (rejected_samples s);
  ft_violations : is_u64 (violations s);
}.

(** A state that the file can hold: the boot check is recorded, of generation zero, and a phase whose
    checks never ran has no record. *)
Record state_valid (s : TimeState) : Prop := mkStateValid {
  sv_fields : fields_typed s;
  sv_checks : exists boot capture restore, checks s = [boot; capture; restore] /\ check_typed boot /\ check_typed capture /\ check_typed restore
                /\ ck_status boot <> None /\ ck_generation boot = 0
                /\ (ck_status capture = None -> capture = default_check) /\ (ck_status restore = None -> restore = default_check);
}.

Lemma check_of_typed s p : state_valid s -> check_typed (check_of s p).
Proof.
  intros [_ (b & c & r & E & Hb & Hc & Hr & _)]. unfold check_of.
  assert (check_typed default_check) by (split; unfold is_u64, is_i64, U64_MAX, I64_MIN, I64_MAX; cbn; lia || done).
  destruct p; cbn [check_index mbind option_bind]; rewrite ?E; done.
Qed.

(** A key that the writer writes with a value. *)
Definition has_value (s : TimeState) (key : FileKey) : Prop :=
  match key with
  | KeyCheck p f => p <> Runtime /\ match f with FStatus => ck_status (check_of s p) <> None | FFailures => ck_failures (check_of s p) <> None
                                    | FGeneration => p <> Boot | _ => True end
  | KeyState _ => True
  end.

Lemma set_state_key s key value : set s (bytes_of (spell_key key)) value = set_key s key value.
Proof. by destruct key. Qed.

Lemma set_phase_key s p field value : p <> Runtime ->
  set s (phase_name p ++ bytes_of "_" ++ bytes_of (spell_field field)) value = alter_check s p (set_check p (bytes_of (spell_field field)) value).
Proof. by destruct p, field. Qed.

(** One line sets one field. *)
Lemma set_entry a b keys key : state_valid a -> has_value a key -> set (merge keys a b) (file_entry a key).1 (file_entry a key).2 = Some (merge (key :: keys) a b).
Proof.
  intros Ha Hk. destruct key as [p f|k]; cbn [file_entry check_entry key_entry fst snd].
  - destruct Hk as [Hp Hf]. rewrite set_phase_key by done. destruct (check_of_typed a p Ha) as [H1 H2 H3 H4 H5].
    assert (forall value, alter_check (merge keys a b) p (set_check p (bytes_of (spell_field f)) value)
      = check ← set_check p (bytes_of (spell_field f)) value (merge_check keys p (check_of a p) (check_of b p));
        Some (with_checks (merge keys a b) (<[default 0%nat (check_index p) := check]> (checks (merge keys a b))))) as -> by by destruct p.
    unfold set_check. rewrite (parse_spelled spell_field all_fields f). destruct f; cbn [check_value].
    + destruct (ck_status (check_of a p)) as [st|] eqn:E; [|done]. rewrite (parse_spelled spell_check check_tokens st). destruct p; cbn [mbind option_bind]; rewrite <-E; done.
    + rewrite number_u64_dec by done. by destruct p.
    + rewrite number_i64_dec by done. by destruct p.
    + rewrite number_i64_dec by done. by destruct p.
    + rewrite bool_decide_false, number_u64_dec by done. by destruct p.
    + destruct (ck_failures (check_of a p)) as [n|] eqn:E; [|done]. cbn in H5. rewrite number_u64_dec by done. destruct p; cbn [mbind option_bind]; rewrite <-E; done.
  - rewrite set_state_key. destruct (sv_fields a Ha). unfold set_key.
    destruct k; cbn [key_value]; rewrite ?number_u64_dec, ?number_i64_dec, ?flag_written, ?bound_written, ?parse_spelled by (done || apply _); reflexivity.
Qed.

Lemma set_all_entries a b written : state_valid a -> Forall (has_value a) written -> forall keys,
  set_all (merge keys a b) (file_entry a <$> written) = Some (merge (rev written ++ keys) a b).
Proof.
  intros Ha. induction 1 as [|key written Hk _ IH]; intros keys; [done|]. cbn [fmap list_fmap set_all]. pose proof (set_entry a b keys key Ha Hk) as E.
  destruct (file_entry a key) as [k v]. cbn [fst snd] in E. rewrite E. cbn [mbind option_bind]. fold (file_entry a <$> written).
  rewrite IH. cbn [rev]. by rewrite <-app_assoc.
Qed.

(** The keys of the checks that a state's file has. *)
Definition check_keys (s : TimeState) : list FileKey :=
  let ran := List.filter (fun p => is_some (ck_status (check_of s p))) CHECKS in
  ((fun p => KeyCheck p FStatus) <$> ran) ++ ((fun p => KeyCheck p FCpus) <$> ran) ++ ((fun p => KeyCheck p FElapsedUs) <$> ran)
  ++ ((fun p => KeyCheck p FCpuUs) <$> ran) ++ ((fun p => KeyCheck p FGeneration) <$> List.filter (fun p => negb (bool_decide (p = Boot))) ran)
  ++ ((fun p => KeyCheck p FFailures) <$> List.filter (fun p => is_some (ck_failures (check_of s p))) ran).

Definition file_keys (s : TimeState) : list FileKey := KeyState KGeneration :: check_keys s ++ (KeyState <$> tail all_keys).

Lemma check_keys_written s : state_valid s -> check_entries s = file_entry s <$> check_keys s /\ Forall (has_value s) (check_keys s).
Proof.
  intros [_ ([sb ? ? ? ? fb] & [sc ? ? ? ? fc] & [sr ? ? ? ? fr] & E & _)]. destruct s. cbn [checks] in E. subst.
  unfold check_keys. destruct sb, sc, sr, fb, fc, fr; (split; [reflexivity|repeat constructor; done]).
Qed.

Lemma state_entries_written s : state_valid s ->
  state_entries s = (bytes_of "version", bytes_of "1") :: (file_entry s <$> file_keys s) /\ Forall (has_value s) (file_keys s).
Proof.
  intros Hs. destruct (check_keys_written s Hs) as [E Hv]. unfold state_entries, file_keys. rewrite E. split.
  - rewrite fmap_cons, fmap_app. done.
  - constructor; [done|]. apply Forall_app. split; [done|]. by repeat constructor.
Qed.

Lemma merge_full s : state_valid s -> merge (rev (file_keys s)) s default_state = s.
Proof.
  intros [_ ([sb ? ? ? ? fb] & [sc ? ? ? ? fc] & [sr ? ? ? ? fr] & E & _ & _ & _ & Hb & Hg & Hc & Hr)]. unfold file_keys, check_keys.
  destruct s. cbn [checks ck_generation ck_status] in *. subst.
  destruct sb; [|done]. destruct sc, sr; try (injection (Hc eq_refl) as -> -> -> -> ->); try (injection (Hr eq_refl) as -> -> -> -> ->);
    destruct fb; try destruct fc; try destruct fr; reflexivity.
Qed.

(** ** Lines *)

(** A byte of a line, and one of a key. *)
Definition line_byte (b : byte) : bool := (byte_val b <=? 127) && negb (byte_val b =? 10) && negb (byte_val b =? 13).
Definition key_byte (b : byte) : bool := line_byte b && negb (byte_val b =? 61).

Lemma split_written ls : Forall (fun l => forallb line_byte l = true) ls -> split_on (is_byte NEWLINE) (mjoin ((fun l => l ++ [NEWLINE]) <$> ls)) = ls ++ [[]].
Proof.
  induction 1 as [|l ls Hl _ IH]; [done|]. cbn [fmap list_fmap mjoin list_join]. rewrite <-app_assoc. cbn [app]. rewrite split_on_app; [by f_equal| |done].
  apply Forall_forall. intros b Hb. rewrite forallb_forall in Hl. specialize (Hl b (proj1 (list_elem_of_In l b) Hb)).
  apply bool_decide_eq_false. intros ->. done.
Qed.

Lemma lines_written ls : Forall (fun l => forallb line_byte l = true) ls -> lines (mjoin ((fun l => l ++ [NEWLINE]) <$> ls)) = ls.
Proof.
  intros Hl. unfold lines. rewrite split_written, removelast_last, last_snoc, app_nil_r by done. induction Hl as [|l ls Hl _ IH]; [done|].
  cbn [fmap list_fmap]. f_equal; [|done]. unfold strip_return. rewrite bool_decide_false; [done|]. intros Hcr.
  apply last_Some in Hcr as [l' ->]. rewrite forallb_app in Hl. apply andb_true_iff in Hl as [_ Hl]. done.
Qed.

Definition entry_clean (entry : list byte * list byte) : bool := forallb key_byte entry.1 && forallb line_byte entry.2.

Lemma split_key k v : forallb key_byte k = true -> split_once EQUALS (k ++ EQUALS :: v) = Some (k, v).
Proof.
  intros Hk. apply split_once_spec. split; [done|]. apply Forall_forall. intros b Hb. rewrite forallb_forall in Hk.
  specialize (Hk b (proj1 (list_elem_of_In k b) Hb)). apply bool_decide_eq_false. intros ->. done.
Qed.

Lemma entries_read es : Forall (fun e => entry_clean e = true) es -> omap (split_once EQUALS) (write_entry <$> es) = es.
Proof.
  induction 1 as [|[k v] es He _ IH]; [done|]. cbn [fmap list_fmap omap list_omap]. unfold write_entry at 1. cbn [fst snd].
  apply andb_true_iff in He as [Hk _]. rewrite split_key by done. by f_equal.
Qed.

Lemma write_entry_line e : entry_clean e = true -> forallb line_byte (write_entry e) = true.
Proof.
  intros [Hk Hv]%andb_true_iff. unfold write_entry. rewrite forallb_app. cbn [forallb]. rewrite Hv, andb_true_r.
  rewrite forallb_forall in *. intros b Hb. specialize (Hk b Hb). by apply andb_true_iff in Hk as [? _].
Qed.

Lemma digits_line text : Forall (fun b => is_ascii_digit b = true) text -> forallb line_byte text = true.
Proof.
  intros Hd. apply forallb_forall. intros b Hb%list_elem_of_In. rewrite Forall_forall in Hd. specialize (Hd b Hb). unfold is_ascii_digit, line_byte in *.
  bool_to_prop. rewrite (proj2 (Z.leb_le _ _)), (proj2 (Z.eqb_neq _ 10)), (proj2 (Z.eqb_neq _ 13)) by lia. done.
Qed.

Lemma dec_line n : 0 <= n -> forallb line_byte (dec n) = true.
Proof. intros. by apply digits_line, dec_digits. Qed.

Lemma dec_signed_line n : forallb line_byte (dec_signed n) = true.
Proof. unfold dec_signed. destruct (Z.ltb_spec n 0); [cbn [forallb]|]; rewrite dec_line by lia; done. Qed.

Lemma bound_line b : opt_all is_u64 b -> forallb line_byte (write_bound b) = true.
Proof. destruct b as [n|]; [|done]. cbn. unfold is_u64. intros. apply dec_line. lia. Qed.

Lemma file_entry_clean s key : state_valid s -> has_value s key -> entry_clean (file_entry s key) = true.
Proof.
  intros Hs Hk. unfold entry_clean. apply andb_true_iff. destruct key as [p f|k]; cbn [file_entry check_entry key_entry fst snd].
  - split; [by destruct p, f|]. destruct (check_of_typed s p Hs) as [H1 H2 H3 H4 H5]. unfold is_u64 in *.
    destruct f; cbn [check_value]; try (apply dec_line; lia); try apply dec_signed_line.
    + by destruct (ck_status (check_of s p)) as [[]|].
    + destruct (ck_failures (check_of s p)); [|done]. apply dec_line. cbn in H5. lia.
  - split; [by destruct k|]. destruct (sv_fields s Hs). unfold is_u64 in *.
    destruct k; cbn [key_value]; try (apply dec_line; lia); try apply dec_signed_line; try (by apply bound_line);
      try (by destruct (synchronized s)); try (by destruct (frequency_limited s)); try (by destruct (host_test_hooks s)).
    + by destruct (last_discontinuity s).
    + by destruct (last_downtime_source s).
    + by destruct (host_status s).
    + by destruct (last_sample_error s).
Qed.

Lemma state_roundtrip s : state_valid s -> parse_state (write_state s) = Some s.
Proof.
  intros Hs. destruct (state_entries_written s Hs) as [E Hv]. unfold parse_state, write_state. rewrite E.
  set (es := (bytes_of "version", bytes_of "1") :: (file_entry s <$> file_keys s)). assert (Forall (fun e => entry_clean e = true) es) as Hc.
  { constructor; [done|]. apply Forall_fmap. eapply Forall_impl; [exact Hv|]. intros key Hk. by apply file_entry_clean. }
  replace ((fun entry => write_entry entry ++ [NEWLINE]) <$> es) with ((fun l => l ++ [NEWLINE]) <$> (write_entry <$> es)) by by rewrite <-list_fmap_compose.
  assert (Forall (fun l => forallb line_byte l = true) (write_entry <$> es)) as Hl.
  { apply Forall_fmap. eapply Forall_impl; [exact Hc|]. intros e. apply write_entry_line. }
  unfold from_utf8. rewrite ascii_utf8.
  - cbn [mbind option_bind]. rewrite lines_written, entries_read by done. unfold es. cbn [set_all].
    change (set default_state (bytes_of "version") (bytes_of "1")) with (Some default_state). cbn [mbind option_bind].
    change default_state with (merge [] s default_state) at 1. rewrite set_all_entries by done. by rewrite app_nil_r, merge_full.
  - generalize dependent (write_entry <$> es). intros ls Hl. induction Hl as [|l ls Hl _ IH]; [constructor|].
    cbn [fmap list_fmap mjoin list_join]. rewrite !Forall_app. split_and!; [|by repeat constructor|done].
    apply Forall_forall. intros b Hb. rewrite forallb_forall in Hl. specialize (Hl b (proj1 (list_elem_of_In l b) Hb)). unfold line_byte in Hl. bool_to_prop. lia.
Qed.

(** ** Every update keeps a state that the file can hold *)

Record best_typed (b : BestSample) : Prop := mkBestTyped {
  bt_theta : is_i64 (theta b);
  bt_epsilon : is_i64 (epsilon b);
  bt_frequency : is_i64 (bs_frequency b);
  bt_correction : is_i64 (correction (bs_host b));
  bt_bound : opt_all is_u32 (correction_bound (bs_host b));
  bt_error : opt_all is_u32 (max_error_us (bs_host b));
  bt_disruption : is_u32 (disruption (bs_host b));
}.

(** The inputs of the updates, by the types of the source; [record_check] refuses the runtime phase. *)
Definition update_typed (u : Update) : Prop :=
  match u with
  | UPoll (Accepted sample step) _ => best_typed sample /\ opt_all is_i64 step
  | UPoll (Rejected _) _ => True
  | URepair packet sample step elapsed => is_u32 (RestorePacket.generation packet) /\ is_u64 (downtime_ns packet) /\ best_typed sample /\ is_i64 step /\ is_i64 elapsed
  | UReport r => report_phase r <> Runtime /\ is_i64 (report_elapsed_us r) /\ is_i64 (report_cpu_us r) /\ opt_all is_u64 (report_failures r)
                 /\ is_u64 (report_tsc_hz r) /\ is_u64 (report_lapic_hz r)
  | UViolation => True
  end.

Lemma saturate_i64 z : is_i64 (saturate z).
Proof. unfold is_i64, saturate, clamp. unfold I64_MIN, I64_MAX. lia. Qed.

Lemma increment_u64 n : is_u64 (increment n).
Proof. unfold is_u64, increment, U64_MAX. pose proof (Z.mod_pos_bound (n + 1) (2 ^ 64)). lia. Qed.

Lemma u32_u64 n : is_u32 n -> is_u64 n.
Proof. unfold is_u32, is_u64, U32_MAX, U64_MAX. lia. Qed.

Lemma mask_len_u64 m : is_u64 (mask_len m).
Proof. unfold is_u64, mask_len, len, U64_MAX. pose proof (filter_length_le (Z.testbit m) (seqZ 0 64)) as H. rewrite length_seqZ in H. lia. Qed.

#[local] Hint Resolve saturate_i64 increment_u64 u32_u64 mask_len_u64 : nvx.

Lemma ppb_typed f : is_i64 f -> exists ppb, frequency_to_ppb f = Some ppb /\ is_i64 ppb.
Proof. intros [q [-> _]]%frequency_to_ppb_nearest. eauto with nvx. Qed.

Lemma record_sample_valid s b : state_valid s -> best_typed b -> exists s', record_sample s b = Some s' /\ state_valid s' /\ checks s' = checks s.
Proof.
  intros [[] Hc] []. unfold record_sample. destruct (ppb_typed _ bt_frequency0) as (ppb & -> & Hp). destruct (ppb_typed _ bt_correction0) as (cppb & -> & Hq).
  eexists. split; [done|]. split; [|done]. split; [|exact Hc]. split; cbn; auto with nvx.
  - destruct (correction_bound (bs_host b)); [|done]. by apply bound_to_ppb_up.
  - destruct (max_error_us (bs_host b)); [|done]. by apply u32_u64.
Qed.

Lemma with_step_valid s kind step real : state_valid s -> is_i64 step -> is_i64 real -> state_valid (with_step s kind step real).
Proof. intros [[] Hc] ? ?. split; [|exact Hc]. split; cbn; auto with nvx. Qed.

Lemma with_synchronized_valid s b : state_valid s -> state_valid (with_synchronized s b).
Proof. intros [[] Hc]. split; [|exact Hc]. split; cbn; auto. Qed.

Lemma with_restore_valid s generation downtime source : state_valid s -> is_u64 generation -> is_u64 downtime -> state_valid (with_restore s generation downtime source).
Proof. intros [[] Hc] ? ?. split; [|exact Hc]. split; cbn; auto. Qed.

Lemma with_rejection_valid s reason : state_valid s -> state_valid (with_rejection s reason).
Proof. intros [[] Hc]. split; [|exact Hc]. split; cbn; auto with nvx. Qed.

Lemma count_violation_valid s : state_valid s -> state_valid (count_violation s).
Proof. intros [[] Hc]. split; [|exact Hc]. split; cbn; auto with nvx. Qed.

Lemma with_frequency_valid s ppb : state_valid s -> is_i64 ppb -> state_valid (with_frequency s ppb).
Proof. intros [[] Hc] ?. split; [|exact Hc]. split; cbn; auto. Qed.

Lemma with_rates_valid s tsc lapic : state_valid s -> is_u64 tsc -> is_u64 lapic -> state_valid (with_rates s tsc lapic).
Proof. intros [[] Hc] ? ?. split; [|exact Hc]. split; cbn; auto; by case_match. Qed.

(** A record that replaces a phase's. *)
Lemma alter_check_valid s p c : state_valid s -> p <> Runtime -> check_typed c -> ck_status c <> None -> (p = Boot -> ck_generation c = 0) ->
  exists s', alter_check s p (fun _ => Some c) = Some s' /\ state_valid s'.
Proof.
  intros [[] (boot & capture & restore & E & Hb & Hc & Hr & Hs & Hg & Hnc & Hnr)] Hp Ht Hst Hgen. unfold alter_check.
  destruct p; [| | |done]; cbn [check_index]; rewrite E; cbn [lookup list_lookup insert list_insert mbind option_bind]; eexists; (split; [done|]); (split; [split; cbn; auto|]);
    eexists _, _, _; (split; [done|]); split_and!; auto; try done; intros Hn; by destruct (Hst Hn).
Qed.

Lemma update_valid s u : state_valid s -> update_typed u -> exists s', update s u = Some s' /\ state_valid s'.
Proof.
  intros Hs Hu. destruct u as [[reason|sample step] sync|packet sample step elapsed|r|]; cbn [update update_typed] in *.
  - cbn. eexists. split; [done|]. by apply with_synchronized_valid, with_rejection_valid.
  - destruct Hu as [Hb Hstep]. unfold apply_poll. destruct (record_sample_valid s sample Hs Hb) as (s' & -> & Hs' & _). cbn [mbind option_bind].
    eexists. split; [done|]. apply with_synchronized_valid. destruct step; [|done]. apply with_step_valid; [done|by destruct Hb|done].
  - destruct Hu as (Hg & Hd & Hb & Hstep & He). unfold apply_repair. set (s1 := with_synchronized _ true).
    assert (state_valid s1) as H1 by (apply with_synchronized_valid, with_step_valid; [apply with_restore_valid; auto with nvx|by destruct Hb|done]).
    destruct (record_sample_valid s1 sample H1 Hb) as (s' & -> & Hs' & _). cbn [mbind option_bind]. apply alter_check_valid; [done|done| |done|done].
    destruct Hs' as [[] _]. split; cbn; auto; unfold is_u64, is_i64, U64_MAX, I64_MIN, I64_MAX; lia.
  - destruct Hu as (Hp & He & Hc & Hf & Ht & Hl). unfold apply_report.
    destruct (alter_check_valid s (report_phase r) (mkCheckState (Some (report_status r)) (mask_len (report_online r)) (report_elapsed_us r) (report_cpu_us r)
      (if bool_decide (report_phase r = Boot) then 0 else st_generation s) (report_failures r))) as (s' & -> & Hs'); [done|done| |done| |].
    + destruct Hs as [[] _]. split; cbn; auto with nvx. case_bool_decide; [unfold is_u64, U64_MAX; lia|done].
    + intros ->. done.
    + cbn [mbind option_bind]. eexists. split; [done|]. by apply with_rates_valid.
  - eexists. split; [done|]. by apply count_violation_valid.
Qed.

(** ** Runs *)

(** A run of steps, as long as each succeeds. *)
Fixpoint run {S} (step : S -> Update -> option S) (s : S) (us : list Update) : option S :=
  match us with
  | [] => Some s
  | u :: us => s ← step s u; run step s us
  end.

Lemma default_valid : state_valid default_state.
Proof.
  assert (check_typed default_check) as Hd by (split; unfold is_u64, is_i64, U64_MAX, I64_MIN, I64_MAX; cbn; lia || done).
  split.
  - split; unfold is_u64, is_i64, U64_MAX, I64_MIN, I64_MAX; cbn; lia || done.
  - eexists _, _, _. split; [done|]. split_and!; done.
Qed.

Lemma cold_boot_valid initial frequency : (forall sample, initial = Some sample -> best_typed sample) -> is_i64 frequency ->
  exists s, cold_boot_state initial frequency = Some s /\ state_valid s /\ checks s = checks default_state.
Proof.
  intros Hi Hf. unfold cold_boot_state. destruct initial as [sample|].
  - destruct (record_sample_valid (with_synchronized default_state (is_some (Some sample))) sample) as (s & -> & Hs & Hc); [|by apply Hi|by eauto].
    apply with_synchronized_valid, default_valid.
  - destruct (ppb_typed frequency Hf) as (ppb & -> & Hp). eexists. split; [done|]. split; [|done].
    apply with_frequency_valid; [|done]. apply with_synchronized_valid, default_valid.
Qed.

Lemma state_apply_written s u : state_valid s -> state_apply (write_state s) u = s' ← update s u; Some (write_state s').
Proof. intros Hs. unfold state_apply, state_load. by rewrite state_roundtrip. Qed.

(** The file follows the state, whatever process makes each update. *)
Lemma run_refines us : forall s, state_valid s -> Forall update_typed us ->
  exists s', run update s us = Some s' /\ state_valid s' /\ run state_apply (write_state s) us = Some (write_state s').
Proof.
  induction us as [|u us IH]; intros s Hs Hu; [by exists s|]. apply Forall_cons in Hu as [Hu Hus]. cbn [run].
  rewrite state_apply_written by done. destruct (update_valid s u Hs Hu) as (s' & -> & Hs'). cbn [mbind option_bind]. by apply IH.
Qed.

(** C33: The state that the time tools publish survives its file: from a cold boot, after any updates by
    the daemon, the repair of restores, the checks and the count of violations, each made by a process
    that reads the file, changes it and replaces it, the file holds exactly the state that the same
    updates give in memory, nothing lost or changed by the text, and reads back as it. *)
Theorem time_state_persists initial frequency us :
  (forall sample, initial = Some sample -> best_typed sample) -> is_i64 frequency -> Forall update_typed us ->
  exists s0 s, cold_boot_state initial frequency = Some s0 /\ run update s0 us = Some s
    /\ run state_apply (write_state s0) us = Some (write_state s) /\ state_load (write_state s) = Some s /\ state_valid s.
Proof.
  intros Hi Hf Hu. destruct (cold_boot_valid initial frequency Hi Hf) as (s0 & E & Hs0 & _).
  destruct (run_refines us s0 Hs0 Hu) as (s & Hr & Hs & Hf'). exists s0, s. split_and!; try done. by apply state_roundtrip.
Qed.

(** What a sequence of updates adds up to. *)
Definition count_of (f : Update -> bool) (us : list Update) : Z := len (List.filter f us).
Definition is_violation (u : Update) : bool := match u with UViolation => true | _ => false end.
Definition is_repair (u : Update) : bool := match u with URepair _ _ _ _ => true | _ => false end.
Definition is_step (u : Update) : bool := match u with URepair _ _ _ _ | UPoll (Accepted _ (Some _)) _ => true | _ => false end.
Definition is_accepted (u : Update) : bool := match u with URepair _ _ _ _ | UPoll (Accepted _ _) _ => true | _ => false end.
Definition is_rejected (u : Update) : bool := match u with UPoll (Rejected _) _ => true | _ => false end.
Definition reports (p : Phase) (u : Update) : bool := match u with UReport r => bool_decide (report_phase r = p) | _ => false end.
Definition repaired_generation (u : Update) : option Z := match u with URepair packet _ _ _ => Some (RestorePacket.generation packet) | _ => None end.

(** A restore whose check has not reported since. *)
Definition restore_pending (us : list Update) : bool :=
  foldl (fun pending u => if is_repair u then true else if reports Restore u then false else pending) false us.

(** The status that an update leaves a phase's check with. *)
Definition status_after (p : Phase) (u : Update) (old : option CheckStatus) : option CheckStatus :=
  match u with
  | UReport r => if bool_decide (report_phase r = p) then Some (report_status r) else old
  | URepair _ _ _ _ => if bool_decide (p = Restore) then Some StatusPending else old
  | _ => old
  end.

Lemma status_alter s p q c s' : state_valid s -> alter_check s p (fun _ => Some c) = Some s' -> p <> Runtime ->
  ck_status (check_of s' q) = if bool_decide (p = q) then ck_status c else ck_status (check_of s q).
Proof.
  intros [_ (boot & capture & restore & E & _)] Ha Hp. unfold alter_check in Ha.
  destruct p; [| | |done]; cbn [check_index] in Ha; rewrite E in Ha; injection Ha as <-; destruct q; unfold check_of; cbn [check_index mbind option_bind with_checks checks]; by rewrite ?E.
Qed.

Lemma record_sample_fields s b s' : record_sample s b = Some s' ->
  checks s' = checks s /\ st_generation s' = st_generation s /\ discontinuities s' = discontinuities s /\ rejected_samples s' = rejected_samples s
  /\ violations s' = violations s /\ samples s' = increment (samples s).
Proof.
  unfold record_sample. destruct (frequency_to_ppb (bs_frequency b)); [|done]. cbn [mbind option_bind]. destruct (frequency_to_ppb _); [|done]. cbn [mbind option_bind].
  by intros [= <-].
Qed.

Lemma alter_check_fields s p f s' : alter_check s p f = Some s' ->
  st_generation s' = st_generation s /\ discontinuities s' = discontinuities s /\ rejected_samples s' = rejected_samples s
  /\ violations s' = violations s /\ samples s' = samples s.
Proof.
  unfold alter_check. destruct (check_index p); [|by intros [= <-]]. destruct (checks s !! n); [|by intros [= <-]].
  destruct (f c); [|done]. cbn [mbind option_bind]. by intros [= <-].
Qed.

Definition counted_by (b : bool) (n : Z) : Z := if b then increment n else n.

Record accounted (s : TimeState) (u : Update) (s' : TimeState) : Prop := mkAccounted {
  ac_generation : st_generation s' = default (st_generation s) (repaired_generation u);
  ac_violations : violations s' = counted_by (is_violation u) (violations s);
  ac_discontinuities : discontinuities s' = counted_by (is_step u) (discontinuities s);
  ac_samples : samples s' = counted_by (is_accepted u) (samples s);
  ac_rejected : rejected_samples s' = counted_by (is_rejected u) (rejected_samples s);
  ac_status : forall p, p <> Runtime -> ck_status (check_of s' p) = status_after p u (ck_status (check_of s p));
}.

Lemma update_accounted s u s' : state_valid s -> update_typed u -> update s u = Some s' -> accounted s u s'.
Proof.
  intros Hs Hu E. destruct u as [[reason|sample step] sync|packet sample step elapsed|r|]; cbn [update update_typed] in *.
  - injection E as <-. by split.
  - unfold apply_poll in E. destruct (record_sample s sample) as [s1|] eqn:Er; [|done]. cbn [mbind option_bind] in E. injection E as <-.
    apply record_sample_fields in Er as (Hc & Hg & Hd & Hrj & Hv & Hsm). destruct step; split; cbn; unfold check_of; cbn [with_synchronized with_step checks]; by rewrite ?Hc, ?Hg, ?Hd, ?Hrj, ?Hv, ?Hsm.
  - destruct Hu as (Hgen & Hdown & Hb & Hstep & He). unfold apply_repair in E. set (s1 := with_synchronized _ true) in E.
    assert (state_valid s1) as H1 by (apply with_synchronized_valid, with_step_valid; [apply with_restore_valid; auto with nvx|by destruct Hb|done]).
    destruct (record_sample_valid s1 sample H1 Hb) as (s2 & Er & Hs2 & Hc2). rewrite Er in E. cbn [mbind option_bind] in E.
    pose proof (record_sample_fields _ _ _ Er) as (_ & Hg & Hd & Hrj & Hv & Hsm). pose proof (alter_check_fields _ _ _ _ E) as (Ag & Ad & Ar & Av & As).
    split; [by rewrite Ag, Hg|by rewrite Av, Hv|by rewrite Ad, Hd|by rewrite As, Hsm|by rewrite Ar, Hrj|].
    intros p Hp. rewrite (status_alter _ _ p _ _ Hs2 E) by done. unfold check_of. rewrite Hc2. by destruct p.
  - destruct Hu as (Hp & _). unfold apply_report in E. destruct (alter_check _ _ _) as [s1|] eqn:Ea; [|done]. cbn [mbind option_bind] in E. injection E as <-.
    pose proof (alter_check_fields _ _ _ _ Ea) as (Ag & Ad & Ar & Av & As). split; [done..|]. intros p Hp'. unfold check_of. cbn [with_rates checks].
    fold (check_of s1 p). by rewrite (status_alter _ _ p _ _ Hs Ea).
  - injection E as <-. by split.
Qed.

Lemma counted_more (f : Update -> bool) u us n : (counted_by (f u) n + count_of f us) mod 2 ^ 64 = (n + count_of f (u :: us)) mod 2 ^ 64.
Proof.
  unfold counted_by, count_of, increment. cbn [List.filter]. destruct (f u); [|done]. rewrite len_cons, Z.add_mod_idemp_l by done. f_equal. lia.
Qed.

Definition statuses (s : TimeState) (us : list Update) (p : Phase) : option CheckStatus := foldl (fun st u => status_after p u st) (ck_status (check_of s p)) us.

Record account (s : TimeState) (us : list Update) (s' : TimeState) : Prop := mkAccount {
  at_generation : st_generation s' = default (st_generation s) (last (omap repaired_generation us));
  at_violations : violations s' = (violations s + count_of is_violation us) mod 2 ^ 64;
  at_discontinuities : discontinuities s' = (discontinuities s + count_of is_step us) mod 2 ^ 64;
  at_samples : samples s' = (samples s + count_of is_accepted us) mod 2 ^ 64;
  at_rejected : rejected_samples s' = (rejected_samples s + count_of is_rejected us) mod 2 ^ 64;
  at_status : forall p, p <> Runtime -> ck_status (check_of s' p) = statuses s us p;
}.

Lemma run_account us : forall s s', state_valid s -> Forall update_typed us -> run update s us = Some s' -> account s us s' /\ state_valid s'.
Proof.
  induction us as [|u us IH]; intros s s' Hs Hu E; cbn [run] in E.
  { injection E as <-. split; [|done]. destruct Hs as [[] _]. unfold is_u64, U64_MAX in *. split; cbn; try done; rewrite Z.add_0_r, Z.mod_small; lia. }
  apply Forall_cons in Hu as [Hu Hus]. destruct (update_valid s u Hs Hu) as (s1 & E1 & Hs1). rewrite E1 in E. cbn [mbind option_bind] in E.
  destruct (IH s1 s' Hs1 Hus E) as [[Ag Av Ad As Ar Ast] Hv']. split; [|done]. destruct (update_accounted s u s1 Hs Hu E1) as [Bg Bv Bd Bs Br Bst]. split.
  - rewrite Ag, Bg. cbn [omap list_omap]. destruct (repaired_generation u) as [g|]; [|done]. rewrite last_cons. by destruct (last (omap repaired_generation us)).
  - by rewrite Av, Bv, (counted_more is_violation).
  - by rewrite Ad, Bd, (counted_more is_step).
  - by rewrite As, Bs, (counted_more is_accepted).
  - by rewrite Ar, Br, (counted_more is_rejected).
  - intros p Hp. rewrite Ast by done. unfold statuses. cbn [foldl]. by rewrite Bst.
Qed.

Definition pending_status (st : option CheckStatus) : bool := match st with Some StatusPending => true | _ => false end.

Lemma pending_exact s boot_only : state_valid s ->
  pending s boot_only = pending_status (ck_status (check_of s Boot))
    || (negb boot_only && (pending_status (ck_status (check_of s Capture)) || pending_status (ck_status (check_of s Restore)))).
Proof.
  intros [_ ([sb ? ? ? ? ?] & [sc ? ? ? ? ?] & [sr ? ? ? ? ?] & E & _)]. unfold pending, recorded, check_of. rewrite E.
  by destruct sb as [[]|], sc as [[]|], sr as [[]|], boot_only.
Qed.

Lemma report_done r : pending_status (Some (report_status r)) = false.
Proof. unfold report_status. destruct (report_failures r); [by case_match|done]. Qed.

(** The boot check is pending until it reports, the restore's from a repair to its report. *)
Lemma statuses_boot s us : pending_status (ck_status (check_of s Boot)) = true -> pending_status (statuses s us Boot) = negb (existsb (reports Boot) us).
Proof.
  unfold statuses. intros Hb. assert (forall us st, pending_status (foldl (fun st u => status_after Boot u st) st us) = pending_status st && negb (existsb (reports Boot) us)) as ->; [|by rewrite Hb].
  clear. induction us as [|u us IH]; intros st; cbn [foldl existsb]; [by rewrite andb_true_r|]. rewrite IH.
  destruct u as [[]|packet sample step elapsed|r|]; cbn [status_after reports orb]; try done.
  case_bool_decide; [by rewrite report_done, andb_false_r|done].
Qed.

Lemma statuses_capture s us : pending_status (ck_status (check_of s Capture)) = false -> pending_status (statuses s us Capture) = false.
Proof.
  unfold statuses. generalize (ck_status (check_of s Capture)) as st. induction us as [|u us IH]; intros st Hst; [done|]. cbn [foldl]. apply IH.
  destruct u; cbn [status_after]; try done. case_bool_decide; [by rewrite report_done|done].
Qed.

Lemma statuses_restore s us : pending_status (ck_status (check_of s Restore)) = false -> pending_status (statuses s us Restore) = restore_pending us.
Proof.
  unfold statuses, restore_pending. generalize (ck_status (check_of s Restore)) as st.
  assert (forall us st b, pending_status st = b -> pending_status (foldl (fun st u => status_after Restore u st) st us)
          = foldl (fun pending u => if is_repair u then true else if reports Restore u then false else pending) b us) as H; [|by auto].
  clear. induction us as [|u us IH]; intros st b Hb; [done|]. cbn [foldl]. apply IH.
  destruct u as [[]|packet sample step elapsed|r|]; cbn [status_after is_repair reports]; try done. case_bool_decide; [by rewrite report_done|done].
Qed.

(** C37: What the published state says is what happened since the cold boot: its generation is that of
    the last restore, its counters are those of the violations, steps, accepted and rejected samples,
    modulo 2^64, and whoever waits for the checks waits exactly until the boot check reported and
    every restore's check reported after its repair. *)
Theorem time_state_account initial frequency us :
  (forall sample, initial = Some sample -> best_typed sample) -> is_i64 frequency -> Forall update_typed us ->
  exists s0 s, cold_boot_state initial frequency = Some s0 /\ run update s0 us = Some s
    /\ st_generation s = default 0 (last (omap repaired_generation us))
    /\ violations s = count_of is_violation us mod 2 ^ 64 /\ discontinuities s = count_of is_step us mod 2 ^ 64
    /\ samples s = ((if is_some initial then 1 else 0) + count_of is_accepted us) mod 2 ^ 64 /\ rejected_samples s = count_of is_rejected us mod 2 ^ 64
    /\ pending s true = negb (existsb (reports Boot) us) /\ pending s false = negb (existsb (reports Boot) us) || restore_pending us.
Proof.
  intros Hi Hf Hu. destruct (cold_boot_valid initial frequency Hi Hf) as (s0 & E & Hs0 & Hc). destruct (run_refines us s0 Hs0 Hu) as (s & Hr & Hs & _).
  destruct (run_account us s0 s Hs0 Hu Hr) as [[Ag Av Ad As Ar Ast] _]. exists s0, s.
  assert (st_generation s0 = 0 /\ violations s0 = 0 /\ discontinuities s0 = 0 /\ samples s0 = (if is_some initial then 1 else 0) /\ rejected_samples s0 = 0) as (Zg & Zv & Zd & Zs & Zr).
  { unfold cold_boot_state in E. destruct initial as [sample|].
    - apply record_sample_fields in E as (_ & Hg & Hd & Hrj & Hv & Hsm). by rewrite Hg, Hd, Hrj, Hv, Hsm.
    - destruct (frequency_to_ppb frequency); [|done]. cbn [mbind option_bind] in E. by injection E as <-. }
  assert (forall p, ck_status (check_of s0 p) = ck_status (check_of default_state p)) as Hst by (intros p; unfold check_of; by rewrite Hc).
  rewrite !pending_exact by done. rewrite !Ast by done.
  rewrite statuses_boot, statuses_capture, statuses_restore by by rewrite Hst.
  cbn [negb andb orb]. rewrite orb_false_r. split_and!; [done|done|by rewrite Ag, Zg|by rewrite Av, Zv|by rewrite Ad, Zd|by rewrite As, Zs|by rewrite Ar, Zr|done|done].
Qed.

(** ** A boot, a poll, a restore *)

Definition sample_best : BestSample := mkBestSample (-122656) 1300 (mkHostUtc Synchronized 3 1000000 (Some 65536) (Some 500)) 973811 false false.

Definition sample_updates : list Update :=
  [UReport (mkCheckReport Boot 0x3 5000 4000 None 2500000000 1000000000); UPoll (Accepted sample_best None) true; UPoll (Rejected RejectTsc) true;
   URepair (mkPacketHeader 4 2 0 None 1 0 5000000000) sample_best 1700000005000000000 1200; UViolation].

Lemma sample_best_typed : best_typed sample_best.
Proof. split; unfold is_i64, I64_MIN, I64_MAX, is_u32, U32_MAX; cbn; unfold is_u32, U32_MAX; lia. Defined.

Lemma sample_updates_typed : Forall update_typed sample_updates.
Proof.
  pose proof sample_best_typed.
  repeat (apply Forall_cons; split); try done; cbn; split_and!; try done; unfold is_i64, I64_MIN, I64_MAX, is_u64, U64_MAX, is_u32, U32_MAX; lia.
Defined.

Lemma time_state_persists_witness : exists s0 s, cold_boot_state (Some sample_best) 0 = Some s0 /\ run update s0 sample_updates = Some s
  /\ run state_apply (write_state s0) sample_updates = Some (write_state s) /\ state_load (write_state s) = Some s.
Proof.
  destruct (time_state_persists (Some sample_best) 0 sample_updates) as (s0 & s & H1 & H2 & H3 & H4 & _);
    [by intros ? [= <-]; apply sample_best_typed|unfold is_i64, I64_MIN, I64_MAX; lia|apply sample_updates_typed|].
  exists s0, s. by split_and!.
Defined.

Lemma time_state_account_witness : exists s0 s, cold_boot_state (Some sample_best) 0 = Some s0 /\ run update s0 sample_updates = Some s
  /\ st_generation s = 1 /\ violations s = 1 /\ samples s = 3 /\ rejected_samples s = 1 /\ pending s true = false /\ pending s false = true.
Proof.
  destruct (time_state_account (Some sample_best) 0 sample_updates) as (s0 & s & H1 & H2 & H3 & H4 & H5 & H6 & H7 & H8 & H9);
    [by intros ? [= <-]; apply sample_best_typed|unfold is_i64, I64_MIN, I64_MAX; lia|apply sample_updates_typed|].
  exists s0, s. by split_and!.
Defined.
