(* ===== verification/Discipline.v ===== *)
(** * The wall-clock discipline (src/nvx-rs/src/guest/time/system.rs, daemon.rs)

    How the guest takes host time samples and selects one, the corrections of the wall clock that
    follow it, and the poll of the daemon that records the outcome in the time state. What the
    hardware and the kernel answer are inputs: the reads of a latch, and whether an adjustment of the
    clock, or an access to the state file, succeeds. *)

From S2P Require Import Prelude Canonical RestorePacket ClockMath TimeState.

Definition SAMPLE_ATTEMPTS : nat := 3.
Definition SAMPLE_BOUND_NS : Z := 100000.
Definition PORTB_TIME_WINDOW : Z := 0x40.
Definition SYNCHRONIZED_AGE_NS : Z := 128 * NSEC_PER_SEC.
Definition FAST_PERIOD : Z := 16.
Definition SLOW_PERIOD : Z := 64.
Definition FAST_POLLS : Z := 4.

(** ** One sample *)

(** What one latch reads: the TSC before and after the selector write, the realtime clock, the TSC
    after it, and the bytes of the time window. *)
Record Latch := mkLatch { l_before : Z; l_after : Z; l_realtime_ns : Z; l_end : Z; l_bytes : list byte }.

Definition take_sample (latch : Latch) : result TimeSampleError (TimeSample * GuestReads) :=
  let half_cycles := (saturating_sub (l_end latch) (l_after latch) + 1) / 2 in
  let reads := mkGuestReads (l_before latch) (l_after latch) (l_realtime_ns latch) (Z.min U64_MAX (l_after latch + half_cycles)) half_cycles in
  sample ← parse_sample (l_bytes latch); Ok (sample, reads).

Inductive SampleResult : Type := SampleAccepted | SampleWide.

(** Why the thread could not take, or give up, its permission for the ports; without the [errno]s. *)
Inductive PortError : Type := PortBusy | PortGrant | PortRevoke.

Inductive SampleError : Type :=
| SamplePorts (error : PortError)
| SampleTscRate
| NoTimeWindow (status : Z)
| SampleGeneration (sample expected : Z)
| SampleInvalid (error : option TimeSampleError).

Definition rejection (self : SampleError) : SampleRejection :=
  match self with SampleInvalid (Some (SampleTsc _ _ _)) => RejectTsc | _ => RejectInvalid end.

(** ** The selection *)

Definition candidate_of (sample : TimeSample) (theta epsilon frequency : Z) (limited : bool) : BestSample :=
  mkBestSample theta epsilon (host sample) frequency limited (test_hooks sample).

(** The loop over the attempts; [None] for an overflow. *)
Fixpoint select_loop (bound_ns generation : Z) (rates : ClockRates) (best : option BestSample) (invalid : option TimeSampleError) (latches : list Latch)
    : option (result SampleError (SampleResult * BestSample)) :=
  match latches with
  | [] => Some match best with Some best => Ok (SampleWide, best) | None => Err (SampleInvalid invalid) end
  | latch :: latches =>
      match take_sample latch with
      | Err error => select_loop bound_ns generation rates best (Some error) latches
      | Ok (sample, reads) =>
          if negb (ts_generation sample =? generation) then Some (Err (SampleGeneration (ts_generation sample) generation))
          else
            pairing ← pair_sample sample reads rates;
            match pairing with
            | Err error => select_loop bound_ns generation rates best (Some error) latches
            | Ok (theta_, epsilon_) =>
                '(frequency, limited) ← guest_frequency (correction (host sample)) (tsc_hz rates);
                let candidate := candidate_of sample theta_ epsilon_ frequency limited in
                let best := if match best with None => true | Some best => epsilon_ <? epsilon best end then Some candidate else best in
                if epsilon_ <=? bound_ns then Some (Ok (SampleAccepted, candidate))
                else select_loop bound_ns generation rates best invalid latches
            end
      end
  end.

(** [latches] are those of the attempts. *)
Definition select_sample (status : Z) (latches : list Latch) (bound_ns generation : Z) (rates : ClockRates) : option (result SampleError (SampleResult * BestSample)) :=
  if Z.land status PORTB_TIME_WINDOW =? 0 then Some (Err (NoTimeWindow status))
  else select_loop bound_ns generation rates None None latches.

(** ** The daemon *)

Record Daemon := mkDaemon { polls : Z; last_accepted_ns : option Z }.

(** How one read-modify-write of the state file goes: whether it takes the file's lock, reads the file,
    and replaces it. *)
Record Access := mkAccess { access_locked : bool; access_read : bool; access_stored : bool }.

(** What one poll meets: the count of RCU stalls, when it can be read; whether the state file is found
    and how it is accessed for a violation; whether the poll took the lock of the ports and what it
    selected; the clocks; and how the state file is accessed for the outcome. *)
Record PollInput := mkPollInput {
  stall_count : option Z;
  state_found : bool;
  violation_access : Access;
  locked : bool;
  selected : result SampleError (SampleResult * BestSample);
  accepted_at_ns : Z;
  checked_at_ns : Z;
  stepped_at_ns : Z;
  outcome_access : Access;
}.

(** The modes in which a violation does not power off the VM. *)
Record Runtime := mkRuntime { strict : bool; report_only : bool }.

(** What a poll does besides the state: it reports stalls, keeps the violation for the call, powers off,
    asks the kernel for an adjustment, or logs that the ports were not given up. *)
Inductive Effect : Type :=
| StallEvent (stalls : Z)
| KeepViolation
| PowerOff
| Adjust (adjustment : ClockAdjustment)
| LogReleaseFailure.

(** How a poll ends: the VM is off, or the daemon goes on. *)
Inductive Polled : Type :=
| PoweredOff (file : option (list byte)) (effects : list Effect)
| GoesOn (daemon : Daemon) (file : option (list byte)) (effects : list Effect).

(** [i64::wrapping_sub], and an [i32] that counts up. *)
Definition wrapping_sub_i64 (a b : Z) : Z := to_signed 64 ((a - b) mod 2 ^ 64).
Definition increment_i32 (n : Z) : Z := to_signed 32 ((n + 1) mod 2 ^ 32).

(** ** Corrections *)

Section Clock.
  (** Whether the kernel takes an adjustment. *)
  Context (adjust : ClockAdjustment -> bool).

(** [adjust_clock], with the adjustments asked for so far. *)
Definition ask (asked : list ClockAdjustment) (adjustment : ClockAdjustment) : list ClockAdjustment * bool := (asked ++ [adjustment], adjust adjustment).

Definition is_step_adjustment (adjustment : ClockAdjustment) : bool := match adjustment with Step _ _ => true | _ => false end.

(** The adjustments that it asks for, and the outcome, with the realtime clock after a step. *)
Definition correct_clock (sample : BestSample) (fast : bool) (realtime_ns : Z) : list ClockAdjustment * PollOutcome :=
  let host_error_us := error_us (bs_host sample) in
  let correction := plan_correction (theta sample) (epsilon sample) fast (bs_frequency sample) host_error_us in
  let stepped := is_step_adjustment correction in
  let hold := frequency_hold 0 (epsilon sample) (bs_frequency sample) host_error_us in
  let '(asked, applied) := ask [] correction in
  let '(asked, applied) := if applied && stepped then ask asked (Frequency hold) else (asked, applied) in
  (asked, if negb applied then Rejected RejectInvalid else Accepted sample (if stepped then Some realtime_ns else None)).

(** [synchronize]: a step to the sample, and then its frequency. *)
Definition synchronize (sample : BestSample) : list ClockAdjustment * bool :=
  let '(seconds, nanoseconds) := split_offset (theta sample) in
  let '(asked, stepped) := ask [] (Step seconds nanoseconds) in
  if stepped then ask asked (Frequency (frequency_hold 0 (epsilon sample) (bs_frequency sample) (error_us (bs_host sample)))) else (asked, false).

(** The outcome of a poll, [None] when a restore must handle the sample's generation first. *)
Definition poll_outcome (daemon : Daemon) (input : PollInput) : list Effect * option PollOutcome :=
  if locked input then
    match selected input with
    | Ok (SampleAccepted, sample) =>
        let '(asked, outcome) := correct_clock sample (polls daemon <? FAST_POLLS) (stepped_at_ns input) in (Adjust <$> asked, Some outcome)
    | Ok (SampleWide, _) => ([], Some (Rejected RejectUncertain))
    | Err (SampleGeneration _ _) => ([], None)
    | Err error => (match error with SamplePorts PortRevoke => [LogReleaseFailure] | _ => [] end, Some (Rejected (rejection error)))
    end
  else ([], Some (Rejected RejectInvalid)).

Definition is_accepted_outcome (outcome : PollOutcome) : bool := match outcome with Accepted _ _ => true | Rejected _ => false end.

(** [state_load] or the default: of no file, one that cannot be read, or one that is not a state. *)
Definition loaded (file : option (list byte)) (read : bool) : TimeState :=
  default default_state (text ← (if read then file else None); state_load text).

(** [state_apply] of an update that also tells something, [silent] when it does not run. A file that
    cannot be replaced stays. *)
Definition state_update {B} (file : option (list byte)) (access : Access) (change : TimeState -> option (TimeState * B)) (silent : B) : option (option (list byte) * B) :=
  if access_locked access then
    '(state, told) ← change (loaded file (access_read access));
    Some (if access_stored access then Some (write_state state) else file, told)
  else Some (file, silent).

(** [Runtime::stop]: whether the caller goes on. *)
Definition stop (self : Runtime) : list Effect * bool :=
  if strict self then ([KeepViolation], true) else if negb (report_only self) then ([PowerOff], false) else ([], true).

(** [fail_fatal] of the stalls, with the count of the violation in a state file that exists. *)
Definition check_stalls (self : Runtime) (file : option (list byte)) (input : PollInput) : option (option (list byte) * list Effect * bool) :=
  let stalls := default 0 (stall_count input) in
  if negb (stalls =? 0) then
    file ← (if state_found input && is_some file
            then '(file, _) ← state_update file (violation_access input) (fun state => Some (count_violation state, tt)) tt; Some file
            else Some file);
    let '(effects, goes_on) := stop self in Some (file, StallEvent stalls :: effects, goes_on)
  else Some (file, [], true).

Definition discipline_poll (self : Runtime) (daemon : Daemon) (file : option (list byte)) (input : PollInput) : option Polled :=
  '(file, reported, goes_on) ← check_stalls self file input;
  if negb goes_on then Some (PoweredOff file reported)
  else
    let polls_ := increment_i32 (polls daemon) in
    let '(effects, outcome) := poll_outcome daemon input in
    let effects := reported ++ effects in
    match outcome with
    | None => Some (GoesOn (mkDaemon polls_ (last_accepted_ns daemon)) file effects)
    | Some outcome =>
        let last := if is_accepted_outcome outcome then Some (accepted_at_ns input) else last_accepted_ns daemon in
        let synchronized := match last with Some accepted_ns => wrapping_sub_i64 (checked_at_ns input) accepted_ns <=? SYNCHRONIZED_AGE_NS | None => false end in
        match state_update file (outcome_access input) (fun state => apply_poll state outcome synchronized) false with
        | Some (file, disrupted) => Some (GoesOn (mkDaemon (if disrupted then 0 else polls_) last) file effects)
        | None => None
        end
    end.

End Clock.

(** The period after which the daemon polls again, in seconds. *)
Definition arm_timer (daemon : Daemon) : Z := if polls daemon <? FAST_POLLS then FAST_PERIOD else SLOW_PERIOD.

(** ** What is selected *)

(** What one attempt gives: no valid sample, a sample of another generation, or a candidate. *)
Inductive Attempt : Type := Bad (error : TimeSampleError) | Other (generation : Z) | Good (candidate : BestSample).

Definition attempt (generation : Z) (rates : ClockRates) (latch : Latch) : option Attempt :=
  match take_sample latch with
  | Err error => Some (Bad error)
  | Ok (sample, reads) =>
      if negb (ts_generation sample =? generation) then Some (Other (ts_generation sample))
      else
        pairing ← pair_sample sample reads rates;
        match pairing with
        | Err error => Some (Bad error)
        | Ok (theta_, epsilon_) =>
            '(frequency, limited) ← guest_frequency (correction (host sample)) (tsc_hz rates);
            Some (Good (candidate_of sample theta_ epsilon_ frequency limited))
        end
  end.

Record latch_typed (l : Latch) : Prop := mkLatchTyped {
  lt_before : is_u64 (l_before l);
  lt_after : is_u64 (l_after l);
  lt_realtime : is_i64 (l_realtime_ns l);
  lt_end : is_u64 (l_end l);
}.

Lemma take_sample_typed latch sample reads : latch_typed latch -> take_sample latch = Ok (sample, reads) -> sample_valid sample /\ reads_typed reads.
Proof.
  intros [Hb Ha Hr He]. unfold take_sample. destruct (parse_sample (l_bytes latch)) as [s|] eqn:Hp; [|done]. cbn [mbind result_bind].
  intros E%ok_inj. injection E as <- <-. split; [by apply parse_sample_exact in Hp as [? _]|].
  unfold is_u64, U64_MAX in *. set (d := saturating_sub (l_end latch) (l_after latch)). assert (0 <= d <= 2 ^ 64 - 1) by (unfold d, saturating_sub; lia).
  assert (0 <= (d + 1) / 2 <= 2 ^ 64 - 1) by (split; [apply Z.div_pos; lia|apply Z.div_le_upper_bound; lia]).
  split; cbn; unfold is_u64, U64_MAX; lia || done.
Qed.

Lemma pair_typed sample reads rates theta_ epsilon_ : sample_valid sample -> reads_typed reads -> rates_typed rates ->
  pair_sample sample reads rates = Some (Ok (theta_, epsilon_)) -> is_i64 theta_ /\ is_i64 epsilon_.
Proof.
  intros Hs Hr Hty E. destruct (decide (before reads - latch_slack sample rates <= ts_tsc sample <= after reads + latch_slack sample rates)) as [Hin|Hout].
  - destruct (pair_inside sample reads rates Hs Hr Hty Hin) as (t & e & E' & _). rewrite E' in E. injection E as <- <-. split; apply saturate_i64.
  - by rewrite pair_outside in E.
Qed.

Lemma attempt_total generation rates latch : latch_typed latch -> rates_typed rates ->
  exists a, attempt generation rates latch = Some a /\ forall c, a = Good c -> best_typed c.
Proof.
  intros Hl Hty. unfold attempt. destruct (take_sample latch) as [[sample reads]|error] eqn:Et; [|by eexists].
  destruct (take_sample_typed _ _ _ Hl Et) as [Hs Hr]. destruct (negb _); [by eexists|].
  destruct (pair_total sample reads rates Hs Hr Hty) as [r Ep]. rewrite Ep. cbn [mbind option_bind]. destruct r as [[t e]|error]; [|by eexists].
  destruct (pair_typed _ _ _ _ _ Hs Hr Hty Ep) as [Ht He]. destruct (guest_frequency_exact (correction (host sample)) (tsc_hz rates)) as (q & _ & ->); [by destruct Hty|].
  cbn [mbind option_bind]. eexists. split; [done|]. intros c [= <-]. destruct Hs as (_ & _ & _ & _ & _ & Hd & Hc & Hcb & Hme).
  split; cbn; [done|done| |done| | |done].
  - unfold is_i64, clamp, I64_MIN, I64_MAX. change FREQUENCY_LIMIT with 32768000. lia.
  - destruct (correction_bound (host sample)); [|done]. cbn in Hcb |- *. unfold SAMPLE_UNKNOWN, is_u32 in *. lia.
  - destruct (max_error_us (host sample)); [|done]. cbn in Hme |- *. unfold SAMPLE_UNKNOWN, is_u32 in *. lia.
Qed.

(** The loop over what the attempts gave. *)
Fixpoint pick (bound_ns generation : Z) (best : option BestSample) (invalid : option TimeSampleError) (attempts : list Attempt) : result SampleError (SampleResult * BestSample) :=
  match attempts with
  | [] => match best with Some best => Ok (SampleWide, best) | None => Err (SampleInvalid invalid) end
  | Bad error :: attempts => pick bound_ns generation best (Some error) attempts
  | Other g :: _ => Err (SampleGeneration g generation)
  | Good c :: attempts =>
      if epsilon c <=? bound_ns then Ok (SampleAccepted, c)
      else pick bound_ns generation (if match best with None => true | Some best => epsilon c <? epsilon best end then Some c else best) invalid attempts
  end.

Lemma select_loop_pick bound_ns generation rates latches : rates_typed rates -> Forall latch_typed latches -> forall best invalid,
  exists attempts, mapM (attempt generation rates) latches = Some attempts
    /\ select_loop bound_ns generation rates best invalid latches = Some (pick bound_ns generation best invalid attempts)
    /\ Forall (fun a => forall c, a = Good c -> best_typed c) attempts.
Proof.
  intros Hty. induction 1 as [|latch latches Hl _ IH]; intros best invalid; [by exists []|].
  destruct (attempt_total generation rates latch Hl Hty) as (a & Ea & Ha). cbn [mapM select_loop]. rewrite Ea. cbn [mbind option_bind].
  unfold attempt in Ea. destruct (take_sample latch) as [[sample reads]|error].
  2: { injection Ea as <-. destruct (IH best (Some error)) as (attempts & -> & -> & Hat). exists (Bad error :: attempts). by split_and!; [| |constructor]. }
  destruct (negb (ts_generation sample =? generation)) eqn:Hg.
  { injection Ea as <-. destruct (IH best invalid) as (attempts & -> & _ & Hat). exists (Other (ts_generation sample) :: attempts). by split_and!; [| |constructor]. }
  destruct (pair_sample sample reads rates) as [[[t e]|error]|]; [| |done]; cbn [mbind option_bind] in Ea |- *.
  2: { injection Ea as <-. destruct (IH best (Some error)) as (attempts & -> & -> & Hat). exists (Bad error :: attempts). by split_and!; [| |constructor]. }
  destruct (guest_frequency (correction (host sample)) (tsc_hz rates)) as [[f limited]|]; [|done]. cbn [mbind option_bind] in Ea |- *. injection Ea as <-.
  set (c := candidate_of sample t e f limited) in *. destruct (IH (if match best with None => true | Some b => e <? epsilon b end then Some c else best) invalid) as (attempts & -> & Es & Hat).
  exists (Good c :: attempts). split_and!; [done| |by constructor]. cbn [pick]. change (epsilon c) with e. destruct (e <=? bound_ns); [done|]. exact Es.
Qed.

(** An attempt that leaves the choice open. *)
Definition undecided (bound_ns : Z) (a : Attempt) : Prop := match a with Bad _ => True | Other _ => False | Good c => bound_ns < epsilon c end.
Definition bad_error (a : Attempt) : option TimeSampleError := match a with Bad error => Some error | _ => None end.
Definition is_bad (a : Attempt) : Prop := match a with Bad _ => True | _ => False end.

(** The narrowest candidate, the first of equals. *)
Definition narrowest (c : BestSample) (attempts : list Attempt) : Prop :=
  exists before after, attempts = before ++ Good c :: after
    /\ (forall c', Good c' ∈ before -> epsilon c < epsilon c') /\ (forall c', Good c' ∈ after -> epsilon c <= epsilon c').

(** What a selection promises. *)
Definition selects (bound_ns generation : Z) (attempts : list Attempt) (r : result SampleError (SampleResult * BestSample)) : Prop :=
  match r with
  | Ok (SampleAccepted, c) => epsilon c <= bound_ns /\ exists before after, attempts = before ++ Good c :: after /\ Forall (undecided bound_ns) before
  | Ok (SampleWide, c) => Forall (undecided bound_ns) attempts /\ narrowest c attempts
  | Err (SampleGeneration g expected) => expected = generation /\ exists before after, attempts = before ++ Other g :: after /\ Forall (undecided bound_ns) before
  | Err (SampleInvalid error) => Forall is_bad attempts /\ error = last (omap bad_error attempts)
  | Err _ => False
  end.

Lemma bad_undecided bound_ns attempts : Forall is_bad attempts -> Forall (undecided bound_ns) attempts.
Proof. intros H. eapply Forall_impl; [exact H|]. by intros []. Qed.

(** What the loop knows of the attempts behind it. *)
Definition chosen (best : option BestSample) (invalid : option TimeSampleError) (attempts : list Attempt) : Prop :=
  match best with Some best => narrowest best attempts | None => Forall is_bad attempts /\ invalid = last (omap bad_error attempts) end.

Lemma narrowest_more best a attempts : narrowest best attempts -> (forall c, a = Good c -> epsilon best <= epsilon c) -> narrowest best (attempts ++ [a]).
Proof.
  intros (before & after & -> & Hb & Ha) H. exists before, (after ++ [a]). rewrite <-app_assoc. split; [done|]. split; [done|].
  intros c' [Hin|Hin%list_elem_of_singleton]%elem_of_app; [by apply Ha|by apply H].
Qed.

Lemma chosen_good best invalid done_ c : chosen best invalid done_ ->
  chosen (if match best with None => true | Some b => epsilon c <? epsilon b end then Some c else best) invalid (done_ ++ [Good c]).
Proof.
  destruct best as [b|]; cbn [chosen].
  - intros Hn. destruct (Z.ltb_spec (epsilon c) (epsilon b)) as [Hlt|Hge]; cbn [chosen]; [|apply narrowest_more; [done|by intros ? [= <-]]].
    destruct Hn as (before & after & -> & Hb & Ha). exists (before ++ Good b :: after), []. split; [done|]. split; [|by intros ? ?%elem_of_nil].
    intros c' [Hin|[[= ->]|Hin]%elem_of_cons]%elem_of_app; [specialize (Hb _ Hin)|done|specialize (Ha _ Hin)]; lia.
  - intros [Hbad _]. exists done_, []. split; [done|]. split; [|by intros ? ?%elem_of_nil].
    intros c' Hin. rewrite Forall_forall in Hbad. by specialize (Hbad _ Hin).
Qed.

Lemma chosen_bad best invalid done_ error : chosen best invalid done_ -> chosen best (Some error) (done_ ++ [Bad error]).
Proof.
  destruct best as [b|]; cbn [chosen]; [intros; by apply narrowest_more|]. intros [Hbad _]. split; [apply Forall_app; split; [done|by constructor]|].
  rewrite omap_app. cbn. by rewrite last_snoc.
Qed.

Lemma pick_exact bound_ns generation attempts : forall done_ best invalid, Forall (undecided bound_ns) done_ -> chosen best invalid done_ ->
  selects bound_ns generation (done_ ++ attempts) (pick bound_ns generation best invalid attempts).
Proof.
  induction attempts as [|a attempts IH]; intros done_ best invalid Hd Hc; cbn [pick].
  { rewrite app_nil_r. by destruct best. }
  replace (done_ ++ a :: attempts) with ((done_ ++ [a]) ++ attempts) by by rewrite <-app_assoc.
  destruct a as [error|g|c].
  - apply IH; [apply Forall_app; split; [done|by constructor]|by eapply chosen_bad].
  - cbn. split; [done|]. exists done_, attempts. by rewrite <-app_assoc.
  - destruct (Z.leb_spec (epsilon c) bound_ns).
    + cbn. split; [done|]. exists done_, attempts. by rewrite <-app_assoc.
    + apply IH; [apply Forall_app; split; [done|by constructor]|by apply chosen_good].
Qed.

(** From at most its attempts, without an overflow, the guest selects the first sample that pairs
    within the bound, and otherwise the narrowest of the valid ones, the first of equals, which it
    reports as too wide; a sample of another generation ends the selection; only when no attempt gave
    a valid sample does it fail, with the last error; and what it selects fits the types with which
    the clock is corrected and the state recorded. *)
Theorem sample_selection_exact status latches bound_ns generation rates :
  Forall latch_typed latches -> rates_typed rates ->
  exists r, select_sample status latches bound_ns generation rates = Some r
    /\ (Z.land status PORTB_TIME_WINDOW = 0 -> r = Err (NoTimeWindow status))
    /\ (Z.land status PORTB_TIME_WINDOW <> 0 ->
        exists attempts, mapM (attempt generation rates) latches = Some attempts /\ selects bound_ns generation attempts r)
    /\ (forall quality c, r = Ok (quality, c) -> best_typed c).
Proof.
  intros Hl Hty. unfold select_sample. destruct (Z.eqb_spec (Z.land status PORTB_TIME_WINDOW) 0) as [E|E]; [by eexists|].
  destruct (select_loop_pick bound_ns generation rates latches Hty Hl None None) as (attempts & Em & -> & Hat). eexists. split; [done|]. split; [done|].
  pose proof (pick_exact bound_ns generation attempts [] None None (Forall_nil_2 _) (conj (Forall_nil_2 _) eq_refl)) as Hp. split; [by eauto|].
  intros quality c Er. rewrite Er in Hp. rewrite Forall_forall in Hat.
  assert (Good c ∈ attempts) as Hin; [|by apply (Hat _ Hin)]. destruct quality; cbn in Hp.
  - destruct Hp as (_ & before & after & -> & _). set_solver.
  - destruct Hp as (_ & before & after & -> & _). set_solver.
Qed.

(** ** What a poll does *)

(** The adjustments that an accepted sample calls for. *)
Definition called_for (sample : BestSample) (fast : bool) : list ClockAdjustment :=
  let host_error_us := error_us (bs_host sample) in
  if STEP_THRESHOLD_NS <=? Z.abs (theta sample)
  then [Step (theta sample / NSEC_PER_SEC) (theta sample mod NSEC_PER_SEC); Frequency (frequency_hold 0 (epsilon sample) (bs_frequency sample) host_error_us)]
  else [Slew (theta sample) (if fast then FAST_TIME_CONSTANT else SLOW_TIME_CONSTANT) (frequency_hold (Z.abs (theta sample)) (epsilon sample) (bs_frequency sample) host_error_us)].

(** The adjustments that are asked for: up to the first that fails. *)
Fixpoint asked_of (adjust : ClockAdjustment -> bool) (adjustments : list ClockAdjustment) : list ClockAdjustment :=
  match adjustments with
  | [] => []
  | a :: adjustments => if adjust a then a :: asked_of adjust adjustments else [a]
  end.

Lemma correct_clock_exact adjust sample fast realtime :
  let stepped := STEP_THRESHOLD_NS <=? Z.abs (theta sample) in
  correct_clock adjust sample fast realtime
  = (asked_of adjust (called_for sample fast),
     if forallb adjust (called_for sample fast) then Accepted sample (if stepped then Some realtime else None) else Rejected RejectInvalid).
Proof.
  unfold correct_clock, called_for, plan_correction, split_offset, ask. destruct (STEP_THRESHOLD_NS <=? Z.abs (theta sample)); cbn.
  - destruct (adjust (Step _ _)); cbn; [|done]. by destruct (adjust (Frequency _)).
  - by destruct (adjust (Slew _ _ _)).
Qed.

(** The latest accepted sample is at most 128 s old, by the clock's difference as 64 bits hold it. *)
Definition young (input : PollInput) (last : option Z) : bool :=
  match last with Some accepted_ns => wrapping_sub_i64 (checked_at_ns input) accepted_ns <=? SYNCHRONIZED_AGE_NS | None => false end.

(** What a poll makes of its sample, and what it does for it, case by case; no outcome leaves the sample
    to a restore. *)
Inductive verdict (adjust : ClockAdjustment -> bool) (fast : bool) (input : PollInput) : list Effect -> option PollOutcome -> Prop :=
| verdict_unlocked :
    locked input = false -> verdict adjust fast input [] (Some (Rejected RejectInvalid))
| verdict_accepted sample :
    locked input = true -> selected input = Ok (SampleAccepted, sample) -> forallb adjust (called_for sample fast) = true ->
    verdict adjust fast input (Adjust <$> called_for sample fast)
      (Some (Accepted sample (if STEP_THRESHOLD_NS <=? Z.abs (theta sample) then Some (stepped_at_ns input) else None)))
| verdict_refused sample :
    locked input = true -> selected input = Ok (SampleAccepted, sample) -> forallb adjust (called_for sample fast) = false ->
    verdict adjust fast input (Adjust <$> asked_of adjust (called_for sample fast)) (Some (Rejected RejectInvalid))
| verdict_wide sample :
    locked input = true -> selected input = Ok (SampleWide, sample) -> verdict adjust fast input [] (Some (Rejected RejectUncertain))
| verdict_other_generation g expected :
    locked input = true -> selected input = Err (SampleGeneration g expected) -> verdict adjust fast input [] None
| verdict_tsc tsc before after :
    locked input = true -> selected input = Err (SampleInvalid (Some (SampleTsc tsc before after))) ->
    verdict adjust fast input [] (Some (Rejected RejectTsc))
| verdict_revoke :
    locked input = true -> selected input = Err (SamplePorts PortRevoke) ->
    verdict adjust fast input [LogReleaseFailure] (Some (Rejected RejectInvalid))
| verdict_invalid error :
    locked input = true -> selected input = Err error ->
    (forall g expected, error <> SampleGeneration g expected) -> (forall tsc before after, error <> SampleInvalid (Some (SampleTsc tsc before after))) ->
    error <> SamplePorts PortRevoke ->
    verdict adjust fast input [] (Some (Rejected RejectInvalid)).

(** The cases exclude each other. *)
Lemma verdict_unique adjust fast input e1 o1 e2 o2 : verdict adjust fast input e1 o1 -> verdict adjust fast input e2 o2 -> e1 = e2 /\ o1 = o2.
Proof.
  intros [] []; try (split; congruence).
  - match goal with H1 : selected _ = Ok (_, ?a), H2 : selected _ = Ok (_, ?b) |- _ => by assert (a = b) as -> by congruence end.
  all: exfalso; match goal with H1 : selected _ = Err _, H2 : selected _ = Err _ |- _ => rewrite H1 in H2; simplify_eq end; naive_solver.
Qed.

(** What no poll changes of the state. *)
Record poll_keeps (s s' : TimeState) : Prop := mkPollKeeps {
  pk_generation : st_generation s' = st_generation s;
  pk_checks : checks s' = checks s;
  pk_tsc : st_tsc_hz s' = st_tsc_hz s;
  pk_lapic : st_lapic_hz s' = st_lapic_hz s;
  pk_downtime : last_downtime_ns s' = last_downtime_ns s;
  pk_source : last_downtime_source s' = last_downtime_source s;
  pk_violations : violations s' = violations s;
}.

(** The state keeps the sample that it holds, or records this one. *)
Record sample_kept (s s' : TimeState) : Prop := mkSampleKept {
  sk_offset : offset_ns s' = offset_ns s;
  sk_uncertainty : uncertainty_ns s' = uncertainty_ns s;
  sk_frequency : frequency_ppb s' = frequency_ppb s;
  sk_limited : frequency_limited s' = frequency_limited s;
  sk_status : host_status s' = host_status s;
  sk_correction : host_correction_ppb s' = host_correction_ppb s;
  sk_bound : host_correction_bound_ppb s' = host_correction_bound_ppb s;
  sk_error : host_max_error_us s' = host_max_error_us s;
  sk_disruption : host_disruption s' = host_disruption s;
  sk_hooks : host_test_hooks s' = host_test_hooks s;
  sk_samples : samples s' = samples s;
}.

Record sample_recorded (b : BestSample) (s s' : TimeState) : Prop := mkSampleRecorded {
  sr_offset : offset_ns s' = theta b;
  sr_uncertainty : uncertainty_ns s' = epsilon b;
  sr_frequency : frequency_to_ppb (bs_frequency b) = Some (frequency_ppb s');
  sr_limited : frequency_limited s' = limited b;
  sr_status : host_status s' = status (bs_host b);
  sr_correction : frequency_to_ppb (correction (bs_host b)) = Some (host_correction_ppb s');
  sr_bound : host_correction_bound_ppb s' = bound_to_ppb <$> correction_bound (bs_host b);
  sr_error : host_max_error_us s' = max_error_us (bs_host b);
  sr_disruption : host_disruption s' = disruption (bs_host b);
  sr_hooks : host_test_hooks s' = bs_test_hooks b;
  sr_samples : samples s' = increment (samples s);
}.

(** What a verdict makes of the state, field by field: a rejection is counted with its reason and
    changes nothing else; an accepted sample is recorded, with its step if it had one. *)
Definition outcome_recorded (outcome : PollOutcome) (s s' : TimeState) : Prop :=
  match outcome with
  | Rejected reason =>
      sample_kept s s' /\ rejected_samples s' = increment (rejected_samples s) /\ last_sample_error s' = reason
      /\ discontinuities s' = discontinuities s /\ last_discontinuity s' = last_discontinuity s
      /\ last_step_ns s' = last_step_ns s /\ last_step_realtime_ns s' = last_step_realtime_ns s
  | Accepted sample step =>
      sample_recorded sample s s' /\ rejected_samples s' = rejected_samples s /\ last_sample_error s' = NoRejection
      /\ match step with
         | Some realtime => discontinuities s' = increment (discontinuities s) /\ last_discontinuity s' = DStep
             /\ last_step_ns s' = theta sample /\ last_step_realtime_ns s' = realtime
         | None => discontinuities s' = discontinuities s /\ last_discontinuity s' = last_discontinuity s
             /\ last_step_ns s' = last_step_ns s /\ last_step_realtime_ns s' = last_step_realtime_ns s
         end
  end.

(** The host's clock was disrupted since the last sample. *)
Definition disrupts (outcome : PollOutcome) (s : TimeState) : bool :=
  match outcome with Accepted sample _ => negb (samples s =? 0) && negb (host_disruption s =? disruption (bs_host sample)) | Rejected _ => false end.

Definition last_of (daemon : Daemon) (input : PollInput) (outcome : PollOutcome) : option Z :=
  match outcome with Accepted _ _ => Some (accepted_at_ns input) | Rejected _ => last_accepted_ns daemon end.

(** The poll proper, from the state file that the check of the stalls left. *)
Inductive polled_spec (adjust : ClockAdjustment -> bool) (daemon : Daemon) (file : option (list byte)) (input : PollInput) : Daemon -> option (list byte) -> list Effect -> Prop :=
| polled_nothing effects :
    verdict adjust (polls daemon <? FAST_POLLS) input effects None ->
    polled_spec adjust daemon file input (mkDaemon (increment_i32 (polls daemon)) (last_accepted_ns daemon)) file effects
| polled_outcome effects outcome state' :
    verdict adjust (polls daemon <? FAST_POLLS) input effects (Some outcome) ->
    let access := outcome_access input in let state := loaded file (access_read access) in
    poll_keeps state state' -> outcome_recorded outcome state state' -> synchronized state' = young input (last_of daemon input outcome) ->
    polled_spec adjust daemon file input
      (mkDaemon (if access_locked access && disrupts outcome state then 0 else increment_i32 (polls daemon)) (last_of daemon input outcome))
      (if access_locked access && access_stored access then Some (write_state state') else file) effects.

(** The state file after stalls were found: a state that can be replaced counts one more violation. *)
Definition stalled_file (file : option (list byte)) (input : PollInput) : option (list byte) :=
  let access := violation_access input in
  if state_found input && is_some file && access_locked access && access_stored access
  then Some (write_state (count_violation (loaded file (access_read access)))) else file.

(** A poll: without stalls it is the poll proper; stalls are reported, and power off the VM before
    anything else in enforcing mode. *)
Inductive poll_spec (self : Runtime) (adjust : ClockAdjustment -> bool) (daemon : Daemon) (file : option (list byte)) (input : PollInput) : Polled -> Prop :=
| poll_quiet daemon' file' effects :
    default 0 (stall_count input) = 0 -> polled_spec adjust daemon file input daemon' file' effects ->
    poll_spec self adjust daemon file input (GoesOn daemon' file' effects)
| poll_off stalls :
    stall_count input = Some stalls -> stalls <> 0 -> strict self = false -> report_only self = false ->
    poll_spec self adjust daemon file input (PoweredOff (stalled_file file input) [StallEvent stalls; PowerOff])
| poll_reported stalls daemon' file' effects :
    stall_count input = Some stalls -> stalls <> 0 -> (strict self || report_only self) = true ->
    polled_spec adjust daemon (stalled_file file input) input daemon' file' effects ->
    poll_spec self adjust daemon file input (GoesOn daemon' file' (StallEvent stalls :: (if strict self then [KeepViolation] else []) ++ effects)).

Lemma asked_all adjust adjustments : forallb adjust adjustments = true -> asked_of adjust adjustments = adjustments.
Proof. induction adjustments as [|a l IH]; [done|]. cbn. intros [-> H]%andb_true_iff. by rewrite IH. Qed.

Lemma poll_outcome_exact adjust daemon input :
  verdict adjust (polls daemon <? FAST_POLLS) input (poll_outcome adjust daemon input).1 (poll_outcome adjust daemon input).2.
Proof.
  unfold poll_outcome. destruct (locked input) eqn:Hl; [|by constructor].
  destruct (selected input) as [[[] sample]|error] eqn:Hs.
  - rewrite correct_clock_exact. cbn zeta. destruct (forallb adjust _) eqn:Ha; [rewrite asked_all by done; by constructor|by eapply verdict_refused].
  - by eapply verdict_wide.
  - destruct error as [[]| | |g e|[[]|]]; try (by eapply verdict_invalid); [by constructor|by eapply verdict_other_generation|by eapply verdict_tsc].
Qed.

Lemma apply_poll_exact s outcome b : (forall sample step, outcome = Accepted sample step -> best_typed sample) ->
  exists s', apply_poll s outcome b = Some (s', disrupts outcome s) /\ poll_keeps s s' /\ outcome_recorded outcome s s' /\ synchronized s' = b.
Proof.
  intros Hty. unfold apply_poll. destruct outcome as [reason|sample step]; [by eexists|].
  destruct (Hty sample step eq_refl) as [? ? Hf Hc _ _ _]. unfold record_sample.
  destruct (ppb_typed _ Hf) as (ppb & Ep & _), (ppb_typed _ Hc) as (cppb & Ec & _). rewrite Ep, Ec. cbn [mbind option_bind].
  eexists. split; [done|]. by destruct step.
Qed.

(** The poll proper, without the check of the stalls. *)
Lemma polled_exact adjust daemon file input effects outcome :
  (forall quality sample, selected input = Ok (quality, sample) -> best_typed sample) ->
  poll_outcome adjust daemon input = (effects, Some outcome) ->
  let last := last_of daemon input outcome in
  exists file' disrupted, state_update file (outcome_access input) (fun state => apply_poll state outcome (young input last)) false = Some (file', disrupted)
    /\ polled_spec adjust daemon file input (mkDaemon (if disrupted then 0 else increment_i32 (polls daemon)) last) file' effects.
Proof.
  intros Hty E last. pose proof (poll_outcome_exact adjust daemon input) as Hv. rewrite E in Hv. cbn in Hv.
  destruct (apply_poll_exact (loaded file (access_read (outcome_access input))) outcome (young input last)) as (s' & Es & Hk & Hr & Hy).
  { intros sample step ->. inversion Hv as [|? _ Hs _| | | | | | ]; subst. by eapply Hty. }
  pose proof (polled_outcome adjust daemon file input effects outcome s' Hv Hk Hr Hy) as Hp. cbv zeta in Hp. unfold state_update.
  destruct (access_locked (outcome_access input)); [rewrite Es; cbn [mbind option_bind]|]; by eexists _, _.
Qed.

Lemma check_stalls_exact self file input :
  check_stalls self file input
  = let stalls := default 0 (stall_count input) in
    Some (if stalls =? 0 then (file, [], true)
          else (stalled_file file input, StallEvent stalls :: (if strict self then [KeepViolation] else if report_only self then [] else [PowerOff]), strict self || report_only self)).
Proof.
  unfold check_stalls, stalled_file, state_update, stop. cbn zeta. destruct (_ =? 0); [done|]. cbn [negb].
  destruct (state_found input), (is_some file), (access_locked (violation_access input)); cbn; by destruct (strict self), (report_only self).
Qed.

Lemma poll_proper self adjust daemon file input :
  (forall quality sample, selected input = Ok (quality, sample) -> best_typed sample) ->
  exists daemon' file' effects reported, check_stalls self file input = Some (reported)
    /\ (reported.2 = true -> discipline_poll adjust self daemon file input = Some (GoesOn daemon' file' (reported.1.2 ++ effects))
        /\ polled_spec adjust daemon reported.1.1 input daemon' file' effects)
    /\ (reported.2 = false -> discipline_poll adjust self daemon file input = Some (PoweredOff reported.1.1 reported.1.2)).
Proof.
  intros Hty. unfold discipline_poll. rewrite check_stalls_exact. cbn zeta.
  match goal with |- context [Some ?r = Some _] => destruct r as [[file1 reported] goes_on] end. cbn [mbind option_bind].
  destruct goes_on; [|by eexists daemon, file, [], _].
  destruct (poll_outcome adjust daemon input) as [effects [outcome|]] eqn:Eo; cbn [negb].
  - destruct (polled_exact adjust daemon file1 input effects outcome Hty Eo) as (file' & disrupted & E & Hp).
    replace (state_update _ _ _ _) with (Some (file', disrupted)) by (rewrite <-E; by destruct outcome). cbn [mbind option_bind].
    eexists (mkDaemon _ (last_of daemon input outcome)), file', effects, _. split; [done|]. split; [|done]. intros _. split; [by destruct outcome|]. exact Hp.
  - pose proof (poll_outcome_exact adjust daemon input) as Hv. rewrite Eo in Hv. eexists _, _, effects, _. split; [done|]. split; [|done]. intros _. split; [done|]. by constructor.
Qed.

(** C35: A poll never overflows, and does exactly what its case calls for. Stalls that the kernel counted
    are reported and counted in the state, and in enforcing mode power off the VM before the clock is
    touched. Of an accepted sample, the poll asks the kernel for a step by the sample's offset and then
    its frequency, from 128 ms on, and otherwise for one slew, up to the first request that fails; if
    none fails it records the sample and nothing else, and otherwise an invalid one. A sample that
    cannot be taken, does not lie in the latch, or is too wide is rejected with its own reason and asks
    for nothing; one of another generation changes neither clock nor state. Whenever the poll replaces
    the state, the state says synchronized exactly when the latest accepted sample is at most 128 s old;
    a state that cannot be locked or replaced stays as it was. A disruption of the host's clock that the
    state shows starts the fast cadence again. *)
Theorem discipline_poll_exact self adjust daemon file input :
  (forall quality sample, selected input = Ok (quality, sample) -> best_typed sample) ->
  exists polled, discipline_poll adjust self daemon file input = Some polled /\ poll_spec self adjust daemon file input polled.
Proof.
  intros Hty. destruct (poll_proper self adjust daemon file input Hty) as (d & f & effects & r & Er & Hon & Hoff).
  rewrite check_stalls_exact in Er. cbn zeta in Er. injection Er as <-. destruct (stall_count input) as [stalls|] eqn:Es; cbn [default from_option id] in *.
  2: { destruct (Hon eq_refl) as [-> Hp]. eexists. split; [done|]. apply poll_quiet; [by rewrite Es|done]. }
  destruct (Z.eqb_spec stalls 0) as [->|Hne].
  { destruct (Hon eq_refl) as [-> Hp]. eexists. split; [done|]. apply poll_quiet; [by rewrite Es|done]. }
  cbn [fst snd] in *. destruct (strict self) eqn:Hst; [|destruct (report_only self) eqn:Hro]; cbn [orb] in *.
  - destruct (Hon eq_refl) as [-> Hp]. eexists. split; [done|]. pose proof (poll_reported self adjust daemon file input stalls d f effects Es Hne) as H. rewrite Hst in H. by apply H.
  - destruct (Hon eq_refl) as [-> Hp]. eexists. split; [done|]. pose proof (poll_reported self adjust daemon file input stalls d f effects Es Hne) as H. rewrite Hst in H. by apply H.
  - rewrite Hoff by done. eexists. split; [done|]. by apply poll_off.
Qed.

Definition sample_latch : Latch := mkLatch 999000 1001000 1700000000000123456 1003000 (encode_sample sample_sample).

Lemma sample_selection_exact_witness : exists r c,
  select_sample 0x40 [sample_latch] SAMPLE_BOUND_NS 1 sample_rates = Some r /\ r = Ok (SampleAccepted, c) /\ best_typed c.
Proof.
  destruct (sample_selection_exact 0x40 [sample_latch] SAMPLE_BOUND_NS 1 sample_rates) as (r & Er & _ & _ & Ht).
  - repeat constructor; unfold is_u64, is_i64, U64_MAX, I64_MIN, I64_MAX; cbn; lia.
  - split; unfold is_u64, is_i64, U64_MAX, I64_MIN, I64_MAX; cbn; lia.
  - assert (exists c, select_sample 0x40 [sample_latch] SAMPLE_BOUND_NS 1 sample_rates = Some (Ok (SampleAccepted, c))) as [c E] by (eexists; vm_compute; reflexivity).
    exists r, c. rewrite Er in E. injection E as ->. split_and!; [exact Er|done|]. exact (Ht SampleAccepted c eq_refl).
Defined.

Definition all_well : Access := mkAccess true true true.

(** A report-only guest with a state file, which finds a stall and then accepts a sample. *)
Definition stalled_input : PollInput := mkPollInput (Some 2) true all_well true (Ok (SampleAccepted, sample_best)) 1000 2000 0 all_well.

Lemma discipline_poll_exact_witness : exists daemon' state',
  discipline_poll (fun _ => true) (mkRuntime false true) (mkDaemon 0 None) (Some (write_state default_state)) stalled_input
  = Some (GoesOn daemon' (Some (write_state state')) (StallEvent 2 :: (Adjust <$> called_for sample_best true)))
  /\ synchronized state' = true /\ offset_ns state' = theta sample_best.
Proof.
  destruct (discipline_poll_exact (mkRuntime false true) (fun _ => true) (mkDaemon 0 None) (Some (write_state default_state)) stalled_input) as (polled & E & H).
  - intros quality sample Hs. injection Hs as <- <-. apply sample_best_typed.
  - destruct H as [d f effects Hq|stalls _ _ _ Hro|stalls d f effects Hs _ _ Hp]; [discriminate Hq|discriminate Hro|]. injection Hs as <-.
    pose proof (verdict_accepted (fun _ => true) true stalled_input sample_best eq_refl eq_refl eq_refl) as Ha.
    destruct Hp as [effects Hv|effects outcome state' Hv access state Hk Hr Hy]; destruct (verdict_unique _ _ _ _ _ _ _ Ha Hv) as [<- Eo]; [discriminate Eo|].
    injection Eo as <-. destruct Hr as [[Ho _ _ _ _ _ _ _ _ _ _] _]. eexists _, state'. split; [exact E|]. split; [rewrite Hy; vm_compute; reflexivity|exact Ho].
Defined.
