(* ===== verification/Suppression.v ===== *)
(** * The suppression of the stall detectors (src/nvx-rs/src/guest/time/system.rs)

    A capture suppresses the kernel's stall detectors, after it saved their settings in a record, and a
    restore puts the settings back from the record. Every effect on the system may fail: a world
    carries the outcomes of its next effects. *)

From S2P Require Import Prelude Cmdline Export Lowering AddressText NetworkArguments Endpoints Canonical RestorePacket GuestText BootLog TimeState.

Inductive Errno : Type := ENOENT | EEXIST | EIO.

(** A failed save: undone, or with its record kept. *)
Inductive SaveError : Type := Undone (error : Errno) | Kept (error : Errno).

(** ** The world *)

(** The settings by path, the record, whether a save left a part of its record behind, whether each of
    the next effects succeeds, which all do after the end of the list, and how much of the record a
    write that fails has written. *)
Record World := mkWorld {
  settings : list byte -> option Z;
  record : option (list byte);
  torn : bool;
  outcomes : list bool;
  cut : nat;
}.

Definition next_outcome (w : World) : bool * World :=
  match outcomes w with
  | ok :: rest => (ok, mkWorld (settings w) (record w) (torn w) rest (cut w))
  | [] => (true, w)
  end.

Definition set_setting (w : World) (path : list byte) (value : Z) : World :=
  mkWorld (fun p => if bool_decide (p = path) then Some value else settings w p) (record w) (torn w) (outcomes w) (cut w).

Definition set_record (w : World) (text : option (list byte)) : World := mkWorld (settings w) text (torn w) (outcomes w) (cut w).

(** A record of which only a part was written, and which stays. *)
Definition tear_record (w : World) (text : list byte) : World := mkWorld (settings w) (Some (take (cut w) text)) true (outcomes w) (cut w).

(** [write_file] of a number to a setting that exists; the kernel refuses another text. *)
Definition write_setting (w : World) (path : list byte) (value : option Z) : bool * World :=
  let '(ok, w) := next_outcome w in
  match settings w path, value with
  | Some _, Some value => if ok then (true, set_setting w path value) else (false, w)
  | _, _ => (false, w)
  end.

(** [unlink] of the record. *)
Definition unlink_record (w : World) : bool * World :=
  let '(ok, w) := next_outcome w in if ok then (true, set_record w None) else (false, w).

(** ** Saving *)

Definition SUPPRESSED_DETECTORS : list (list byte * Z) :=
  [(bytes_of "/sys/module/rcupdate/parameters/rcu_cpu_stall_suppress", 1);
   (bytes_of "/proc/sys/kernel/soft_watchdog", 0);
   (bytes_of "/proc/sys/kernel/hung_task_timeout_secs", 0)].

(** The reads, from the detector at [index]: path, value and suppressing value of each whose check with
    [access] finds it; the check of one that exists may fail too. *)
Fixpoint read_settings (w : World) (index : nat) (detectors : list (list byte * Z)) : result Errno (list (list byte * Z * Z)) * World :=
  match detectors with
  | [] => (Ok [], w)
  | (path, suppressed) :: detectors =>
      match settings w path with
      | None => match index with O => (Err ENOENT, w) | S _ => read_settings w (S index) detectors end
      | Some value =>
          let '(found, w) := next_outcome w in
          if negb found then match index with O => (Err EIO, w) | S _ => read_settings w (S index) detectors end
          else
            let '(ok, w) := next_outcome w in
            if ok then
              match read_settings w (S index) detectors with
              | (Ok saved, w) => (Ok ((path, value, suppressed) :: saved), w)
              | (Err error, w) => (Err error, w)
              end
            else (Err EIO, w)
      end
  end.

Definition record_line (entry : list byte * Z * Z) : list byte := entry.1.1 ++ EQUALS :: dec_signed entry.1.2.
Definition record_text (saved : list (list byte * Z * Z)) : list byte := mjoin ((fun entry => record_line entry ++ [NEWLINE]) <$> saved).

(** [CreatedFile::create] of a new file, and its text; a file whose write fails is removed when it is
    dropped, best effort: it stays, with what was written, if that fails. *)
Definition create_record (w : World) (text : list byte) : result Errno unit * World :=
  let '(ok, w) := next_outcome w in
  match record w with
  | Some _ => (Err EEXIST, w)
  | None =>
      if ok then
        let '(ok, w) := next_outcome w in
        if ok then (Ok tt, set_record w (Some text))
        else let '(removed, w) := next_outcome w in (Err EIO, if removed then w else tear_record w text)
      else (Err EIO, w)
  end.

(** Writes the saved values of the entries back, and whether every write succeeded. *)
Fixpoint undo (w : World) (undone : bool) (entries : list (list byte * Z * Z)) : bool * World :=
  match entries with
  | [] => (undone, w)
  | (path, value, _) :: entries => let '(ok, w) := write_setting w path (Some value) in undo w (undone && ok) entries
  end.

(** The writes that suppress, after those of [written]. *)
Fixpoint suppress (w : World) (written entries : list (list byte * Z * Z)) : result SaveError unit * World :=
  match entries with
  | [] => (Ok tt, w)
  | (path, value, suppressed) :: entries =>
      let '(ok, w) := write_setting w path (Some suppressed) in
      if ok then suppress w (written ++ [(path, value, suppressed)]) entries
      else
        let '(undone, w) := undo w true written in
        if undone then let '(removed, w) := unlink_record w in if removed then (Err (Undone EIO), w) else (Err (Kept EIO), w)
        else (Err (Kept EIO), w)
  end.

Definition save_with (detectors : list (list byte * Z)) (w : World) : result SaveError unit * World :=
  let '(locked, w) := next_outcome w in
  if negb locked then (Err (Undone EIO), w)
  else
    match read_settings w 0 detectors with
    | (Err error, w) => (Err (Undone error), w)
    | (Ok saved, w) =>
        match create_record w (record_text saved) with
        | (Err error, w) => (Err (Undone error), w)
        | (Ok _, w) => suppress w [] saved
        end
    end.

(** ** Restoring *)

(** The loop over the lines of the record. *)
Fixpoint restore_lines (w : World) (lines : list (list byte)) : bool * World :=
  match lines with
  | [] => (true, w)
  | line :: lines =>
      match split_once EQUALS line with
      | None => (true, w)
      | Some (path, value) =>
          if has_nul path then (true, w)
          else let '(ok, w) := write_setting w path (number_i64 value) in if ok then restore_lines w lines else (false, w)
      end
  end.

Definition restore (w : World) (missing_ok : bool) : bool * World :=
  let '(locked, w) := next_outcome w in
  if negb locked then (false, w)
  else
    match record w with
    | None => (missing_ok, w)
    | Some text =>
        let '(ok, w) := next_outcome w in
        if negb ok then (false, w)
        else
          let '(ok, w) := restore_lines w (List.filter (fun line => negb (is_empty line)) (split_on (is_byte NEWLINE) text)) in
          if ok then unlink_record w else (false, w)
    end.

(** ** What the world keeps *)

Abbreviation Entry := (list byte * Z * Z)%type.

(** The settings are those of [base], or suppressed ones of the entries. *)
Definition between (entries : list Entry) (base : list byte -> option Z) (w : World) : Prop :=
  forall p, settings w p = base p \/ exists v s, (p, v, s) ∈ entries /\ settings w p = Some s.

(** The entries hold the values of [base]. *)
Definition saves (entries : list Entry) (base : list byte -> option Z) : Prop := forall p v s, (p, v, s) ∈ entries -> base p = Some v.

Lemma next_outcome_same w ok w' : next_outcome w = (ok, w') -> settings w' = settings w /\ record w' = record w.
Proof. unfold next_outcome. destruct (outcomes w); by intros [= <- <-]. Qed.

Lemma next_outcome_torn w ok w' : next_outcome w = (ok, w') -> torn w' = torn w.
Proof. unfold next_outcome. destruct (outcomes w); by intros [= <- <-]. Qed.

Lemma next_outcome_clear w : outcomes w = [] -> next_outcome w = (true, w).
Proof. unfold next_outcome. by intros ->. Qed.

(** A write of a value of [base], or one that fails, moves no setting away from it. *)
Lemma write_back entries base w p v ok w' :
  saves entries base -> between entries base w -> base p = Some v -> write_setting w p (Some v) = (ok, w') ->
  record w' = record w /\ between entries base w' /\ (forall q, settings w q = base q -> settings w' q = base q) /\ (ok = true -> settings w' p = base p).
Proof.
  intros Hs Hb Hv. unfold write_setting. destruct (next_outcome w) as [o w1] eqn:En. apply next_outcome_same in En as [Es Er].
  rewrite Es. destruct (settings w p) as [x|] eqn:Hp.
  2: { intros [= <- <-]. unfold between. rewrite Es. split_and!; done. }
  destruct o; intros [= <- <-]; unfold between; cbn [settings record set_setting]; rewrite ?Es; split_and!; try done.
  - intros q. case_bool_decide as Hq; [subst; by left|]. apply Hb.
  - intros q Hq. case_bool_decide; [by subst|done].
  - intros _. by rewrite bool_decide_true.
Qed.

Lemma undo_spec entries base es : saves entries base -> es ⊆ entries -> forall w b b' w', between entries base w -> undo w b es = (b', w') ->
  record w' = record w /\ between entries base w' /\ (forall q, settings w q = base q -> settings w' q = base q)
  /\ (b' = true -> b = true /\ forall p v s, (p, v, s) ∈ es -> settings w' p = base p).
Proof.
  intros Hs. induction es as [|[[p v] s] es IH]; intros Hsub w b b' w' Hb; cbn [undo].
  { intros [= <- <-]. split_and!; try done. intros. split; [done|]. by intros ? ? ? ?%elem_of_nil. }
  destruct (write_setting w p (Some v)) as [ok w1] eqn:Ew. assert (base p = Some v) as Hv by (eapply Hs, Hsub; by left).
  destruct (write_back entries base w p v ok w1 Hs Hb Hv Ew) as (Er1 & Hb1 & Hm1 & Hok). intros Eu.
  destruct (IH ltac:(set_solver) w1 (b && ok) b' w' Hb1 Eu) as (Er2 & Hb2 & Hm2 & Hall). split_and!; [congruence|done|by auto|].
  intros Hb'. destruct (Hall Hb') as [[-> ->]%andb_true_iff Hes]. split; [done|]. intros q v' s' [[= -> -> ->]|Hin]%elem_of_cons; [|by eapply Hes].
  apply Hm2. by apply Hok.
Qed.

Definition paths (entries : list Entry) : list (list byte) := (fun e => e.1.1) <$> entries.

(** What a save ends in, from the settings [base] and with a record. *)
Definition suppress_ends (entries : list Entry) (base : list byte -> option Z) (text : option (list byte)) (r : result SaveError unit) (w : World) : Prop :=
  match r with
  | Ok _ => record w = text /\ (forall p v s, (p, v, s) ∈ entries -> settings w p = Some s)
  | Err (Undone _) => record w = None /\ (forall p, settings w p = base p)
  | Err (Kept _) => record w = text
  end /\ between entries base w.

Lemma paths_elem p v s entries : (p, v, s) ∈ entries -> p ∈ paths entries.
Proof. intros H. apply list_elem_of_fmap. by exists (p, v, s). Qed.

Lemma unlink_spec w ok w' : unlink_record w = (ok, w') -> settings w' = settings w /\ record w' = if ok then None else record w.
Proof. unfold unlink_record. destruct (next_outcome w) as [o w1] eqn:En. apply next_outcome_same in En as [<- <-]. by destruct o; intros [= <- <-]. Qed.

(** Only the creation of a record can tear one. *)
Lemma write_torn w p v ok w' : write_setting w p v = (ok, w') -> torn w' = torn w.
Proof.
  unfold write_setting. destruct (next_outcome w) as [o w1] eqn:En. apply next_outcome_torn in En. destruct (settings w1 p), v, o; by intros [= <- <-].
Qed.

Lemma unlink_torn w ok w' : unlink_record w = (ok, w') -> torn w' = torn w.
Proof. unfold unlink_record. destruct (next_outcome w) as [o w1] eqn:En. apply next_outcome_torn in En. by destruct o; intros [= <- <-]. Qed.

Lemma undo_torn es : forall w b b' w', undo w b es = (b', w') -> torn w' = torn w.
Proof.
  induction es as [|[[p v] s] es IH]; intros w b b' w'; cbn [undo]; [by intros [= <- <-]|].
  destruct (write_setting w p (Some v)) as [ok w1] eqn:Ew. apply write_torn in Ew. intros E. apply IH in E. congruence.
Qed.

Lemma suppress_torn rest : forall written w r w', suppress w written rest = (r, w') -> torn w' = torn w.
Proof.
  induction rest as [|[[p v] s] rest IH]; intros written w r w'; cbn [suppress]; [by intros [= <- <-]|].
  destruct (write_setting w p (Some s)) as [ok w1] eqn:Ew. apply write_torn in Ew. destruct ok; [intros E; apply IH in E; congruence|].
  destruct (undo w1 true written) as [[] w2] eqn:Eu; apply undo_torn in Eu; [|intros [= <- <-]; congruence].
  destruct (unlink_record w2) as [[] w3] eqn:El; apply unlink_torn in El; intros [= <- <-]; congruence.
Qed.

Lemma restore_lines_torn lines : forall w ok w', restore_lines w lines = (ok, w') -> torn w' = torn w.
Proof.
  induction lines as [|line lines IH]; intros w ok w'; cbn [restore_lines]; [by intros [= <- <-]|].
  destruct (split_once EQUALS line) as [[p v]|]; [|by intros [= <- <-]]. destruct (has_nul p); [by intros [= <- <-]|].
  destruct (write_setting w p (number_i64 v)) as [[] w1] eqn:Ew; apply write_torn in Ew; [intros E; apply IH in E; congruence|intros [= <- <-]; congruence].
Qed.

Lemma suppress_spec entries base : saves entries base -> NoDup (paths entries) -> forall rest written w r w',
  entries = written ++ rest -> between entries base w ->
  (forall p, p ∉ paths written -> settings w p = base p) -> (forall p v s, (p, v, s) ∈ written -> settings w p = Some s) ->
  suppress w written rest = (r, w') -> suppress_ends entries base (record w) r w'.
Proof.
  intros Hs Hnd. induction rest as [|[[p v] s] rest IH]; intros written w r w' E Hb Huntouched Hdone; cbn [suppress].
  { intros [= <- <-]. rewrite app_nil_r in E. by subst. }
  destruct (write_setting w p (Some s)) as [ok w1] eqn:Ew. unfold write_setting in Ew. destruct (next_outcome w) as [o w0] eqn:En. apply next_outcome_same in En as [Es Er].
  assert ((p, v, s) ∈ entries) as Hin by (rewrite E; set_solver). pose proof (Hs p v s Hin) as Hbase.
  assert (p ∉ paths written) as Hp.
  { rewrite E in Hnd. unfold paths in Hnd. rewrite fmap_app in Hnd. apply NoDup_app in Hnd as (_ & Hdis & _). intros Hw. apply (Hdis p Hw). by left. }
  rewrite Es, (Huntouched p Hp), Hbase in Ew. destruct o; injection Ew as <- <-.
  - intros Eu. rewrite <-Er. apply (IH (written ++ [(p, v, s)]) (set_setting w0 p s) r w'); [by rewrite <-app_assoc| | | |done].
    + intros q. cbn [settings set_setting]. case_bool_decide as Hq; [subst; right; by exists v, s|]. rewrite Es. apply Hb.
    + intros q Hq. cbn [settings set_setting]. unfold paths in Hq. rewrite fmap_app in Hq. rewrite bool_decide_false by set_solver. rewrite Es. apply Huntouched. set_solver.
    + intros q v' s' [Hq|Hq%list_elem_of_singleton]%elem_of_app; cbn [settings set_setting].
      * rewrite bool_decide_false; [rewrite Es; by eapply Hdone|]. intros ->. by apply Hp, (paths_elem _ _ _ _ Hq).
      * injection Hq as -> -> ->. by rewrite bool_decide_true.
  - destruct (undo w0 true written) as [undone w2] eqn:Eu.
    assert (between entries base w0) as Hb0 by (unfold between; rewrite Es; apply Hb).
    destruct (undo_spec entries base written Hs ltac:(rewrite E; set_solver) w0 true undone w2 Hb0 Eu) as (Er2 & Hb2 & Hm2 & Hall).
    destruct undone; [|intros [= <- <-]; split; [congruence|done]]. destruct (Hall eq_refl) as [_ Hback].
    assert (forall q, settings w2 q = base q) as Hq.
    { intros q. destruct (decide (q ∈ paths written)) as [([[q' v'] s'] & -> & Hin')%list_elem_of_fmap|Hout]; [by eapply Hback|]. apply Hm2. rewrite Es. by apply Huntouched. }
    destruct (unlink_record w2) as [removed w3] eqn:El. apply unlink_spec in El as [Es3 Er3]. unfold suppress_ends, between.
    destruct removed; intros [= <- <-]; rewrite Es3; (split; [|done]); [done|congruence].
Qed.

(** The detectors that exist, with their settings. *)
Definition saved_of (base : list byte -> option Z) (detectors : list (list byte * Z)) : list Entry :=
  omap (fun '(path, suppressed) => value ← base path; Some (path, value, suppressed)) detectors.

(** Some of the detectors that exist, the first of all included, and all of them without a failure. *)
Definition selected (base : list byte -> option Z) (detectors : list (list byte * Z)) (index : nat) (entries : list Entry) : Prop :=
  entries `sublist_of` saved_of base detectors
  /\ (index = 0%nat -> forall p s rest, detectors = (p, s) :: rest -> exists v, base p = Some v /\ (p, v, s) ∈ entries).

Lemma read_settings_spec detectors : forall w index r w', read_settings w index detectors = (r, w') ->
  settings w' = settings w /\ record w' = record w /\ torn w' = torn w
  /\ match r with Ok entries => selected (settings w) detectors index entries | Err _ => True end.
Proof.
  induction detectors as [|[p s] detectors IH]; intros w index r w'; cbn [read_settings]; [by intros [= <- <-]; split_and!|].
  unfold selected. cbn [saved_of omap list_omap]. destruct (settings w p) as [v|] eqn:Hp; cbn [mbind option_bind].
  2: { destruct index; [by intros [= <- <-]|]. intros E. apply IH in E as (? & ? & ? & Hsel). split_and!; [done..|]. destruct r; [|done]. destruct Hsel as [Hsel _]. by split. }
  destruct (next_outcome w) as [found w1] eqn:En. pose proof (next_outcome_torn _ _ _ En) as Et1. apply next_outcome_same in En as [Es1 Er1]. destruct found; cbn [negb].
  2: { destruct index; [by intros [= <- <-]|]. intros E. apply IH in E as (Es2 & Er2 & Et2 & Hsel). split_and!; try congruence. destruct r; [|done]. destruct Hsel as [Hsel _].
       split; [|done]. rewrite Es1 in Hsel. by constructor. }
  destruct (next_outcome w1) as [ok w2] eqn:En2. pose proof (next_outcome_torn _ _ _ En2) as Et2. apply next_outcome_same in En2 as [Es2 Er2]. destruct ok; [|intros [= <- <-]; split_and!; done || congruence].
  destruct (read_settings w2 (S index) detectors) as [[entries|error] w3] eqn:Erd; apply IH in Erd as (Es3 & Er3 & Et3 & Hsel); intros [= <- <-];
    (split; [congruence|]); (split; [congruence|]); (split; [congruence|]); [|done].
  destruct Hsel as [Hsel _]. rewrite Es2, Es1 in Hsel. split; [by constructor|]. intros _ q s' rest [= <- <- <-]. exists v. split; [done|by left].
Qed.

Lemma read_settings_clear detectors : forall w index, outcomes w = [] ->
  match read_settings w index detectors with (Ok entries, w') => entries = saved_of (settings w) detectors /\ w' = w | (Err _, w') => w' = w end.
Proof.
  induction detectors as [|[p s] detectors IH]; intros w index Ho; cbn [read_settings]; [done|]. cbn [saved_of omap list_omap].
  destruct (settings w p) as [v|] eqn:Hp; cbn [mbind option_bind]; [|by destruct index; [|apply IH]].
  rewrite next_outcome_clear by done. cbn [negb]. rewrite next_outcome_clear by done. specialize (IH w (S index) Ho).
  destruct (read_settings w (S index) detectors) as [[entries|error] w']; [|done]. by destruct IH as [-> ->].
Qed.

Lemma saved_elem base detectors p v s : (p, v, s) ∈ saved_of base detectors <-> (p, s) ∈ detectors /\ base p = Some v.
Proof.
  unfold saved_of. rewrite list_elem_of_omap. split.
  - intros ([p' s'] & Hin & E). destruct (base p') as [v'|] eqn:Hb; [|done]. by injection E as -> -> ->.
  - intros [Hin Hb]. exists (p, s). split; [done|]. by rewrite Hb.
Qed.

Lemma saved_paths base detectors : NoDup detectors.*1 -> NoDup (paths (saved_of base detectors)).
Proof.
  induction detectors as [|[p s] detectors IH]; cbn; [constructor|]. intros [Hp Hnd]%NoDup_cons. destruct (base p) as [v|]; cbn; [|by apply IH].
  apply NoDup_cons. split; [|by apply IH]. intros ([[p' v'] s'] & -> & [Hin _]%saved_elem)%list_elem_of_fmap. apply Hp. apply list_elem_of_fmap. by exists (p', s').
Qed.

(** What a save does to settings [base] without a record, and to a world with one. *)
Lemma save_spec detectors w r w' : NoDup detectors.*1 -> save_with detectors w = (r, w') ->
  match r with
  | Err (Undone _) => (forall p, settings w' p = settings w p) /\ (record w' = record w /\ torn w' = torn w \/ torn w' = true)
  | _ => record w = None /\ torn w' = torn w /\ exists entries, selected (settings w) detectors 0 entries
         /\ (outcomes w = [] -> entries = saved_of (settings w) detectors)
         /\ suppress_ends entries (settings w) (Some (record_text entries)) r w'
  end.
Proof.
  intros Hnd. unfold save_with. destruct (next_outcome w) as [locked w1] eqn:En. pose proof (next_outcome_torn _ _ _ En) as Et1.
  assert (outcomes w = [] -> outcomes w1 = [] /\ settings w1 = settings w) as Hclear by (intros Ho; rewrite next_outcome_clear in En by done; by injection En as <- <-).
  apply next_outcome_same in En as [Es1 Er1]. destruct locked; cbn [negb]; [|intros [= <- <-]; rewrite Es1; by auto].
  pose proof (read_settings_clear detectors w1 0) as Hall.
  destruct (read_settings w1 0 detectors) as [[entries|error] w2] eqn:Erd; apply read_settings_spec in Erd as (Es2 & Er2 & Et2 & Hsel);
    [|intros [= <- <-]; split; [intros; by rewrite Es2, Es1|left; split; congruence]].
  rewrite Es1 in *. assert (outcomes w = [] -> entries = saved_of (settings w) detectors) as Hall'.
  { intros Ho. destruct (Hclear Ho) as [Ho1 _]. by destruct (Hall Ho1). }
  unfold create_record.
  destruct (next_outcome w2) as [ok w3] eqn:En3. pose proof (next_outcome_torn _ _ _ En3) as Et3. apply next_outcome_same in En3 as [Es3 Er3].
  assert (forall p, settings w3 p = settings w p) as Hs3 by (intros; by rewrite Es3, Es2).
  destruct (record w3) as [old|] eqn:Hr3; [intros [= <- <-]; split; [done|left; split; congruence]|].
  destruct ok; [|intros [= <- <-]; split; [done|left; split; congruence]].
  destruct (next_outcome w3) as [ok w4] eqn:En4. pose proof (next_outcome_torn _ _ _ En4) as Et4. apply next_outcome_same in En4 as [Es4 Er4].
  assert (forall p, settings w4 p = settings w p) as Hs4 by (intros; by rewrite Es4). destruct ok.
  2: { destruct (next_outcome w4) as [removed w5] eqn:En5. pose proof (next_outcome_torn _ _ _ En5) as Et5. apply next_outcome_same in En5 as [Es5 Er5].
       intros [= <- <-]. destruct removed; cbn; rewrite Es5; (split; [done|]); [left; split; congruence|by right]. }
  intros E. pose proof (suppress_torn _ _ _ _ _ E) as Et. cbn [torn set_record] in Et. apply (suppress_spec entries (settings w)) in E; [| | |done| | |].
  - cbn [record set_record] in E. assert (record w = None) as Hnone by congruence. destruct r as [|[error|error]]; [| |]; [split_and!; try congruence; by eauto| |split_and!; try congruence; by eauto].
    destruct E as [[Hr Hq] _]. split; [done|left; split; congruence].
  - intros p v s Hin. apply (elem_of_sublist _ _ _ Hin), saved_elem in Hsel as [_ ?] || (destruct Hsel as [Hsub _]; apply (elem_of_sublist _ _ _ Hin), saved_elem in Hsub as [_ ?]); done.
  - destruct Hsel as [Hsub _]. eapply sublist_NoDup; [by apply (saved_paths (settings w) detectors)|]. unfold paths. by rewrite Hsub.
  - intros p. left. apply Hs4.
  - intros p _. apply Hs4.
  - by intros ? ? ? ?%elem_of_nil.
Qed.

(** ** Restoring *)

(** A path that a record holds. *)
Definition path_clean (path : list byte) : bool := forallb key_byte path && negb (has_nul path).

Lemma restore_lines_spec entries base es : saves entries base -> es ⊆ entries -> (forall p v s, (p, v, s) ∈ es -> path_clean p = true /\ is_i64 v) ->
  forall w ok w', between entries base w -> restore_lines w (record_line <$> es) = (ok, w') ->
  record w' = record w /\ between entries base w' /\ (forall q, settings w q = base q -> settings w' q = base q)
  /\ (ok = true -> forall p v s, (p, v, s) ∈ es -> settings w' p = base p).
Proof.
  intros Hs. induction es as [|[[p v] s] es IH]; intros Hsub Hc w ok w' Hb; cbn [fmap list_fmap restore_lines].
  { intros [= <- <-]. split_and!; try done. by intros _ ? ? ? ?%elem_of_nil. }
  destruct (Hc p v s ltac:(by left)) as [[Hk Hn%negb_true_iff]%andb_true_iff Hv]. unfold record_line at 1. cbn [fst snd]. rewrite split_key, Hn, number_i64_dec by done.
  destruct (write_setting w p (Some v)) as [o w1] eqn:Ew. assert (base p = Some v) as Hbase by (eapply Hs, Hsub; by left).
  destruct (write_back entries base w p v o w1 Hs Hb Hbase Ew) as (Er1 & Hb1 & Hm1 & Hok). destruct o; [|by intros [= <- <-]]. intros Erl.
  destruct (IH ltac:(set_solver) ltac:(intros; eapply Hc; by right) w1 ok w' Hb1 Erl) as (Er2 & Hb2 & Hm2 & Hall).
  split_and!; [congruence|done|by auto|]. intros Hok' q v' s' [[= -> -> ->]|Hin]%elem_of_cons; [|by eapply Hall]. apply Hm2. by apply Hok.
Qed.

Lemma record_lines es : (forall p v s, (p, v, s) ∈ es -> path_clean p = true) ->
  List.filter (fun line => negb (is_empty line)) (split_on (is_byte NEWLINE) (record_text es)) = record_line <$> es.
Proof.
  intros Hc. unfold record_text.
  replace ((fun entry => record_line entry ++ [NEWLINE]) <$> es) with ((fun l => l ++ [NEWLINE]) <$> (record_line <$> es)) by by rewrite <-list_fmap_compose.
  rewrite split_written.
  - rewrite List.filter_app. cbn. rewrite app_nil_r. clear Hc. induction es as [|[[p v] s] es IH]; [done|]. cbn [fmap list_fmap List.filter].
    assert (is_empty (record_line (p, v, s)) = false) as -> by (unfold record_line; by destruct p). cbn [negb]. by f_equal.
  - apply Forall_fmap, Forall_forall. intros [[p v] s] Hin. specialize (Hc p v s Hin). apply andb_true_iff in Hc as [Hk _].
    apply (write_entry_line (p, dec_signed v)). unfold entry_clean. cbn [fst snd]. by rewrite Hk, dec_signed_line.
Qed.

(** Without failures every line is written. *)
Lemma restore_lines_clear entries base es : saves entries base -> es ⊆ entries -> (forall p v s, (p, v, s) ∈ es -> path_clean p = true /\ is_i64 v) ->
  forall w, outcomes w = [] -> between entries base w -> exists w', restore_lines w (record_line <$> es) = (true, w') /\ outcomes w' = [].
Proof.
  intros Hs. induction es as [|[[p v] s] es IH]; intros Hsub Hc w Ho Hb; [by exists w|]. cbn [fmap list_fmap restore_lines].
  destruct (Hc p v s ltac:(by left)) as [[Hk Hn%negb_true_iff]%andb_true_iff Hv]. unfold record_line at 1. cbn [fst snd]. rewrite split_key, Hn, number_i64_dec by done.
  unfold write_setting. rewrite next_outcome_clear by done. assert (base p = Some v) as Hbase by (eapply Hs, Hsub; by left).
  assert (exists x, settings w p = Some x) as [x ->] by (destruct (Hb p) as [->|(? & ? & _ & ->)]; eauto).
  apply IH; [set_solver|intros; eapply Hc; by right|done|]. intros q. cbn [settings set_setting]. case_bool_decide; [subst; by left|apply Hb].
Qed.

Lemma saved_ext base base' detectors : (forall p, base p = base' p) -> saved_of base detectors = saved_of base' detectors.
Proof. intros H. unfold saved_of. induction detectors as [|[p s] detectors IH]; [done|]. cbn. by rewrite H, IH. Qed.

Section Runs.
  Context (detectors : list (list byte * Z)) (base : list byte -> option Z).
  Context (Hnd : NoDup detectors.*1) (Hclean : Forall (fun p => path_clean p = true) detectors.*1) (Htyped : forall p v, base p = Some v -> is_i64 v).

Definition saved : list Entry := saved_of base detectors.

Lemma saved_saves : saves saved base.
Proof. by intros p v s [_ ?]%saved_elem. Qed.

Lemma saved_clean p v s : (p, v, s) ∈ saved -> path_clean p = true /\ is_i64 v.
Proof. intros [Hin Hb]%saved_elem. split; [|by eapply Htyped]. rewrite Forall_forall in Hclean. apply Hclean, list_elem_of_fmap. by exists (p, s). Qed.

Lemma entries_saves entries : entries `sublist_of` saved -> saves entries base.
Proof. intros Hsub p v s Hin. by eapply saved_saves, elem_of_sublist. Qed.

Lemma entries_clean entries p v s : entries `sublist_of` saved -> (p, v, s) ∈ entries -> path_clean p = true /\ is_i64 v.
Proof. intros Hsub Hin. by eapply saved_clean, elem_of_sublist. Qed.

(** Nothing is suppressed and there is no record, or the record holds what was. *)
Definition kept (w : World) : Prop :=
  (record w = None /\ forall p, settings w p = base p)
  \/ exists entries, entries `sublist_of` saved /\ record w = Some (record_text entries) /\ between entries base w.

Lemma kept_same w w' : (forall p, settings w' p = settings w p) -> record w' = record w -> kept w -> kept w'.
Proof.
  intros Hs Hr [[Hn Hset]|(entries & Hsub & Ht & Hb)]; [left|right].
  - split; [congruence|]. intros p. by rewrite Hs.
  - exists entries. split_and!; [done|congruence|]. intros p. rewrite Hs. apply Hb.
Qed.

Lemma save_kept w r w' : kept w -> save_with detectors w = (r, w') -> torn w' = true \/ kept w'.
Proof.
  intros Hk E. apply save_spec in E; [|done]. destruct r as [u|[error|error]].
  2: { destruct E as [Hs [[Hr _]|Ht]]; [right; by eapply kept_same|by left]. }
  all: destruct E as (Hn & _ & entries & [Hsub _] & _ & [Hr Hb]); right; right; exists entries.
  all: destruct Hk as [[_ Hset]|(? & _ & ? & _)]; [|congruence]; rewrite (saved_ext (settings w) base) in Hsub by done.
  all: split_and!; [done|by destruct Hr|]; intros p; destruct (Hb p) as [->|H]; [left; apply Hset|by right].
Qed.

Lemma restore_kept w missing_ok ok w' : kept w -> restore w missing_ok = (ok, w') -> kept w'.
Proof.
  intros Hk. unfold restore. destruct (next_outcome w) as [locked w1] eqn:En. apply next_outcome_same in En as [Es1 Er1].
  assert (kept w1) as Hk1 by (apply (kept_same w); [by rewrite Es1|done|done]). destruct locked; cbn [negb]; [|by intros [= <- <-]].
  destruct (record w1) as [text|] eqn:Hr1; [|by intros [= <- <-]].
  destruct (next_outcome w1) as [o w2] eqn:En2. apply next_outcome_same in En2 as [Es2 Er2]. pose proof Hk1 as [[? _]|(entries & Hsub & Ht & Hb)]; [congruence|].
  assert (kept w2) as Hk2 by (apply (kept_same w1); [by rewrite Es2|done|done]). destruct o; cbn [negb]; [|by intros [= <- <-]].
  assert (text = record_text entries) as -> by congruence. rewrite record_lines by (intros; by eapply entries_clean).
  destruct (restore_lines w2 (record_line <$> entries)) as [o w3] eqn:El.
  destruct (restore_lines_spec entries base entries (entries_saves _ Hsub) ltac:(done) (fun p v s => entries_clean entries p v s Hsub) w2 o w3) as (Er3 & Hb3 & _ & Hall); [unfold between; by rewrite Es2|done|].
  assert (kept w3) as Hk3 by (right; exists entries; split_and!; [done|congruence|done]). destruct o; [|by intros [= <- <-]]. intros [Es4 Er4]%unlink_spec.
  destruct ok; [left|by apply (kept_same w3); [rewrite Es4|..]]. split; [done|]. intros p. rewrite Es4.
  destruct (Hb3 p) as [?|(v & s & Hin & _)]; [done|]. by eapply (Hall eq_refl).
Qed.

Lemma restore_torn w missing_ok ok w' : restore w missing_ok = (ok, w') -> torn w' = torn w.
Proof.
  unfold restore. destruct (next_outcome w) as [locked w1] eqn:En. apply next_outcome_torn in En. destruct locked; cbn [negb]; [|by intros [= <- <-]].
  destruct (record w1) as [text|]; [|by intros [= <- <-]]. destruct (next_outcome w1) as [o w2] eqn:En2. apply next_outcome_torn in En2. destruct o; cbn [negb]; [|intros [= <- <-]; congruence].
  destruct (restore_lines w2 _) as [o w3] eqn:El. apply restore_lines_torn in El. destruct o; [|intros [= <- <-]; congruence]. intros E%unlink_torn. congruence.
Qed.

Lemma save_torn w r w' : save_with detectors w = (r, w') -> torn w = true -> torn w' = true.
Proof. intros E%save_spec Ht; [|done]. destruct r as [|[error|error]]; [|destruct E as [_ [[_ ?]|?]]; congruence|]; destruct E as (_ & ? & _); congruence. Qed.

(** One save or restore, with the outcomes of its effects. *)
Inductive Op : Type := OpSave | OpRestore (missing_ok : bool).

Record Faults := mkFaults { effects : list bool; part : nat }.
Definition meets (w : World) (faults : Faults) : World := mkWorld (settings w) (record w) (torn w) (effects faults) (part faults).

Definition exec (w : World) (op : Op * Faults) : World :=
  match op.1 with OpSave => (save_with detectors (meets w op.2)).2 | OpRestore missing_ok => (restore (meets w op.2) missing_ok).2 end.

Lemma exec_kept ops : forall w, torn w = true \/ kept w -> torn (foldl exec w ops) = true \/ kept (foldl exec w ops).
Proof.
  induction ops as [|[op faults] ops IH]; intros w Hk; [done|]. cbn [foldl]. apply IH. unfold exec. cbn [fst snd].
  assert (torn (meets w faults) = true \/ kept (meets w faults)) as Hk' by exact Hk. destruct op as [|missing_ok].
  - destruct (save_with _ _) as [r w'] eqn:E. destruct Hk' as [Ht|Hk']; [left; by eapply save_torn|by eapply save_kept].
  - destruct (restore _ _) as [ok w'] eqn:E. destruct Hk' as [Ht|Hk']; [left; cbn; apply restore_torn in E; congruence|right; by eapply restore_kept].
Qed.

Lemma restore_clear w : kept w -> outcomes w = [] -> exists w', restore w true = (true, w') /\ record w' = None /\ forall p, settings w' p = base p.
Proof.
  intros Hk Ho. unfold restore. rewrite next_outcome_clear by done. cbn [negb]. destruct Hk as [[Hn Hs]|(entries & Hsub & Ht & Hb)].
  { rewrite Hn. by exists w. }
  rewrite Ht, next_outcome_clear by done. cbn [negb]. rewrite record_lines by (intros; by eapply entries_clean).
  pose proof (fun p v s => entries_clean entries p v s Hsub) as Hc.
  destruct (restore_lines_clear entries base entries (entries_saves _ Hsub) ltac:(done) Hc w Ho Hb) as (w1 & El & Ho1). rewrite El.
  destruct (restore_lines_spec entries base entries (entries_saves _ Hsub) ltac:(done) Hc w true w1 Hb El) as (_ & Hb1 & _ & Hall).
  unfold unlink_record. rewrite next_outcome_clear by done. eexists. split; [done|]. split; [done|]. cbn [settings set_record]. intros p.
  destruct (Hb1 p) as [?|(v & s & Hin & _)]; [done|]. by eapply (Hall eq_refl).
Qed.

(** What a save reports, from the settings [base] and the world [w] that earlier saves and restores
    left. *)
Definition save_reports (w : World) (faults : Faults) (r : result SaveError unit) (w' : World) : Prop :=
  match r with
  | Err (Undone _) => (forall p, settings w' p = settings w p) /\ (record w' = record w \/ torn w' = true)
  | _ => record w = None /\ exists entries, selected base detectors 0 entries /\ (effects faults = [] -> entries = saved)
         /\ record w' = Some (record_text entries)
         /\ match r with Ok _ => forall p, settings w' p = match List.find (fun e : Entry => bool_decide (e.1.1 = p)) entries with Some e => Some e.2 | None => base p end
            | Err _ => between entries base w' end
  end.

End Runs.

(** C34: However saves and restores follow each other and whatever effects of theirs fail, checks,
    reads, writes, locks and removals, no setting of a stall detector is lost as long as no save both
    failed to write its record and to remove it: either all settings are as they were and there is no
    record, or the record holds every setting that was suppressed and nothing but suppressing values
    was written; and a restore whose effects succeed brings all of them back. A save that succeeds
    has suppressed the detectors that it found, the first one among them, all that exist if nothing
    fails, and no other setting, and has recorded exactly their settings; one that reports that it was
    undone has changed no setting, and no record either, unless it tore its own; one that reports that
    it kept its record has recorded every setting that it changed. *)
Theorem suppression_keeps_settings detectors base ops :
  NoDup detectors.*1 -> Forall (fun p => path_clean p = true) detectors.*1 -> (forall p v, base p = Some v -> is_i64 v) ->
  let w := foldl (exec detectors) (mkWorld base None false [] 0) ops in
  torn w = false ->
  kept detectors base w
  /\ (exists w', restore (meets w (mkFaults [] 0)) true = (true, w') /\ record w' = None /\ forall p, settings w' p = base p)
  /\ forall faults r w', save_with detectors (meets w faults) = (r, w') -> save_reports detectors base w faults r w'.
Proof.
  intros Hnd Hclean Htyped w Ht. assert (kept detectors base w) as Hk.
  { destruct (exec_kept detectors base Hnd Hclean Htyped ops (mkWorld base None false [] 0)) as [Ht'|?]; [right; by left| |done]. fold w in Ht'. congruence. }
  split; [done|]. split; [by apply (restore_clear detectors base Hclean Htyped)|].
  intros faults r w' E. pose proof (save_spec _ _ _ _ Hnd E) as H. cbn [settings record torn meets outcomes] in H. unfold save_reports.
  destruct r as [u|[error|error]]; [|by destruct H as [? [[? _]|?]]; auto|]; destruct H as (Hn & _ & entries & Hsel & Hall & Hends); destruct Hk as [[_ Hs]|(? & _ & ? & _)]; try congruence;
    (split; [done|]); exists entries; unfold selected in Hsel |- *; rewrite (saved_ext (settings w) base) in Hsel, Hall by done; destruct Hsel as [Hsub Hfirst];
    (split; [split; [done|]; intros Hi p s rest Hd; destruct (Hfirst Hi p s rest Hd) as (v & Hv & Hin); exists v; by rewrite <- Hs|]); (split; [done|]); destruct Hends as [Hr Hb].
  - destruct Hr as [Hr Hsup]. split; [done|]. intros p. destruct (List.find _ entries) as [[[q v] s]|] eqn:Ef.
    + apply List.find_some in Ef as [Hin%list_elem_of_In Hq%bool_decide_eq_true]. cbn in Hq |- *. subst q. by eapply Hsup.
    + destruct (Hb p) as [->|(v & s & Hin & _)]; [apply Hs|]. eapply List.find_none in Ef; [|by apply list_elem_of_In]. cbn in Ef. by rewrite bool_decide_true in Ef.
  - split; [done|]. intros p. destruct (Hb p) as [->|?]; [left; apply Hs|by right].
Qed.

Definition sample_settings (p : list byte) : option Z :=
  if bool_decide (p = bytes_of "/sys/module/rcupdate/parameters/rcu_cpu_stall_suppress") then Some 0
  else if bool_decide (p = bytes_of "/proc/sys/kernel/hung_task_timeout_secs") then Some 120 else None.

(** A save whose second write fails, and then the write that undoes its first: it keeps its record, from
    which a restore brings the settings back. *)
Definition kept_save : list (Op * Faults) := [(OpSave, mkFaults [true; true; true; true; true; true; true; true; false; false] 0)].

Lemma suppression_keeps_settings_witness :
  let w := foldl (exec SUPPRESSED_DETECTORS) (mkWorld sample_settings None false [] 0) kept_save in
  (exists text, record w = Some text)
  /\ exists w', restore (meets w (mkFaults [] 0)) true = (true, w') /\ record w' = None /\ forall p, settings w' p = sample_settings p.
Proof.
  cbv zeta. split; [eexists; vm_compute; reflexivity|].
  destruct (suppression_keeps_settings SUPPRESSED_DETECTORS sample_settings kept_save) as (_ & H & _).
  - refine (bool_decide_unpack _ _). vm_compute. exact I.
  - refine (bool_decide_unpack _ _). vm_compute. exact I.
  - intros p v. unfold sample_settings. repeat case_bool_decide; intros E; injection E as <- || discriminate E; unfold is_i64, I64_MIN, I64_MAX; lia.
  - vm_compute. reflexivity.
  - exact H.
Defined.

(** A record that can neither be written nor removed loses a setting to a later restore: the timeout of
    120 seconds comes back as 12, although the save said that it was undone. *)
Example torn_record_loses_setting :
  let hung := bytes_of "/proc/sys/kernel/hung_task_timeout_secs" in
  let w0 := mkWorld sample_settings None false [true; true; true; true; true; true; false; false] 99 in
  exists w, save_with SUPPRESSED_DETECTORS w0 = (Err (Undone EIO), w) /\ settings w hung = Some 120
    /\ (restore w true).1 = true /\ settings (restore w true).2 hung = Some 12.
Proof. cbv zeta. eexists. split; [vm_compute; reflexivity|]. vm_compute. done. Qed.
