(* ===== verification/SockDiag.v ===== *)
(** * Socket diagnostics (src/nvx-rs/src/guest/sys/sock_diag.rs)

    The query for the kernel's IPv6 TCP sockets in one state, and the decoder of the dump that
    answers it: netlink messages, each with one socket and its attributes. Native integers are
    little-endian, as on the guests' x86-64. *)

From S2P Require Import Prelude.

Definition NETLINK_HEADER_LENGTH : Z := 16.
Definition NETLINK_LENGTH_OFFSET : Z := 0.
Definition NETLINK_TYPE_OFFSET : Z := 4.
Definition NETLINK_FLAGS_OFFSET : Z := 6.
Definition NETLINK_ALIGNMENT : Z := 4.
Definition NLM_F_REQUEST : Z := 0x001.
Definition NLM_F_DUMP : Z := Z.lor 0x100 0x200.
Definition NLMSG_ERROR : Z := 2.
Definition NLMSG_DONE : Z := 3.
Definition SOCK_DIAG_BY_FAMILY : Z := 20.
Definition INET_DIAG_REQUEST_LENGTH : Z := 56.
Definition REQUEST_FAMILY_OFFSET : Z := 0.
Definition REQUEST_PROTOCOL_OFFSET : Z := 1.
Definition REQUEST_STATES_OFFSET : Z := 4.
Definition INET_DIAG_QUERY_LENGTH : Z := NETLINK_HEADER_LENGTH + INET_DIAG_REQUEST_LENGTH.
Definition INET_DIAG_MESSAGE_LENGTH : Z := 72.
Definition MESSAGE_FAMILY_OFFSET : Z := 0.
Definition MESSAGE_STATE_OFFSET : Z := 1.
Definition MESSAGE_PORT_OFFSET : Z := 4.
Definition MESSAGE_ADDRESS_OFFSET : Z := 8.
Definition ADDRESS_LENGTH : Z := 16.
Definition ATTRIBUTE_HEADER_LENGTH : Z := 4.
Definition ATTRIBUTE_LENGTH_OFFSET : Z := 0.
Definition ATTRIBUTE_TYPE_OFFSET : Z := 2.
Definition INET_DIAG_SKV6ONLY : Z := 11.
Definition INET_DIAG_BUFFER_LENGTH : Z := 32 * 1024.

(** Linux's [AF_INET6] and [IPPROTO_TCP]. *)
Definition AF_INET6 : Z := 10.
Definition IPPROTO_TCP : Z := 6.

Record InetDiagMessage := mkInetDiagMessage {
  ipv6 : bool;
  state : Z;
  port : Z;
  address : list byte;
  ipv6_only : option bool;
}.

(** ** The query *)

(** [query[at..][..src.len()].copy_from_slice(src)]. *)
Definition inet_diag_request (state : Z) : option (list byte) :=
  if 32 <=? state then None
  else
    let states := Z.shiftl 1 state in
    let query := replicate (Z.to_nat INET_DIAG_QUERY_LENGTH) (byte_of 0) in
    let query := copy_at NETLINK_LENGTH_OFFSET (to_le_bytes 4 INET_DIAG_QUERY_LENGTH) query in
    let query := copy_at NETLINK_TYPE_OFFSET (to_le_bytes 2 SOCK_DIAG_BY_FAMILY) query in
    let query := copy_at NETLINK_FLAGS_OFFSET (to_le_bytes 2 (Z.lor NLM_F_REQUEST NLM_F_DUMP)) query in
    let query := copy_at (NETLINK_HEADER_LENGTH + REQUEST_FAMILY_OFFSET) [byte_of AF_INET6] query in
    let query := copy_at (NETLINK_HEADER_LENGTH + REQUEST_PROTOCOL_OFFSET) [byte_of IPPROTO_TCP] query in
    Some (copy_at (NETLINK_HEADER_LENGTH + REQUEST_STATES_OFFSET) (to_le_bytes 4 states) query).

(** ** The decoder *)

(** The native-endian fields with which [bytes] starts; [None] is the panic of an index. *)
Definition native_u16 (bytes : list byte) : option Z :=
  match bytes with a :: b :: _ => Some (from_le_bytes [a; b]) | _ => None end.
Definition native_u32 (bytes : list byte) : option Z :=
  match bytes with a :: b :: c :: d :: _ => Some (from_le_bytes [a; b; c; d]) | _ => None end.

(** [usize::next_multiple_of]. *)
Definition align (length : Z) : Z := (length + (NETLINK_ALIGNMENT - 1)) / NETLINK_ALIGNMENT * NETLINK_ALIGNMENT.

(** The loop of [decode_ipv6_only], in at most [rounds] rounds; an outer [None] is a panic, or
    rounds that do not suffice. *)
Fixpoint decode_ipv6_only_from (rounds : nat) (attributes : list byte) (offset : Z) : option (option bool) :=
  match rounds with
  | O => None
  | S rounds =>
      if offset + ATTRIBUTE_HEADER_LENGTH <=? len attributes then
        let attribute := zdrop offset attributes in
        length ← native_u16 (zdrop ATTRIBUTE_LENGTH_OFFSET attribute);
        kind ← native_u16 (zdrop ATTRIBUTE_TYPE_OFFSET attribute);
        if (length <? ATTRIBUTE_HEADER_LENGTH) || (len attribute <? length) then Some None
        else if (kind =? INET_DIAG_SKV6ONLY) && (ATTRIBUTE_HEADER_LENGTH <? length) then
          value ← get ATTRIBUTE_HEADER_LENGTH attribute; Some (Some (negb (byte_val value =? 0)))
        else decode_ipv6_only_from rounds attributes (offset + align length)
      else Some None
  end.

Definition decode_ipv6_only (attributes : list byte) : option (option bool) :=
  decode_ipv6_only_from (S (length attributes)) attributes 0.

(** [decode_message]; an outer [None] is a panic. *)
Definition decode_message (message : list byte) : option (option InetDiagMessage) :=
  if len message <? INET_DIAG_MESSAGE_LENGTH then Some None
  else
    let fields := ztake INET_DIAG_MESSAGE_LENGTH message in
    let attributes := zdrop INET_DIAG_MESSAGE_LENGTH message in
    address ← get_range MESSAGE_ADDRESS_OFFSET (MESSAGE_ADDRESS_OFFSET + ADDRESS_LENGTH) fields;
    family ← get MESSAGE_FAMILY_OFFSET fields;
    state ← get MESSAGE_STATE_OFFSET fields;
    port_high ← get MESSAGE_PORT_OFFSET fields;
    port_low ← get (MESSAGE_PORT_OFFSET + 1) fields;
    ipv6_only ← decode_ipv6_only attributes;
    Some (Some (mkInetDiagMessage (byte_val family =? AF_INET6) (byte_val state)
                  (byte_val port_high * 256 + byte_val port_low) address ipv6_only)).

(** The loop of [decode_inet_diag_dump]: the sockets that it visits, and whether the dump goes on. *)
Fixpoint decode_dump_from (rounds : nat) (buffer : list byte) (offset : Z) : option (list InetDiagMessage * bool) :=
  match rounds with
  | O => None
  | S rounds =>
      if offset + NETLINK_HEADER_LENGTH <=? len buffer then
        let header := zdrop offset buffer in
        length ← native_u32 (zdrop NETLINK_LENGTH_OFFSET header);
        kind ← native_u16 (zdrop NETLINK_TYPE_OFFSET header);
        if (length <? NETLINK_HEADER_LENGTH) || (len header <? length) || (kind =? NLMSG_DONE) || (kind =? NLMSG_ERROR)
        then Some ([], false)
        else
          visited ← if kind =? SOCK_DIAG_BY_FAMILY then
                      body ← get_range NETLINK_HEADER_LENGTH length header;
                      message ← decode_message body;
                      Some (match message with Some message => [message] | None => [] end)
                    else Some [];
          '(more, continues) ← decode_dump_from rounds buffer (offset + align length);
          Some (visited ++ more, continues)
      else Some ([], true)
  end.

Definition decode_inet_diag_dump (buffer : list byte) : option (list InetDiagMessage * bool) :=
  decode_dump_from (S (length buffer)) buffer 0.

(** What the diagnostics socket answers: whether it opens and takes the request, the length that the
    kernel accepts, and the parts received until a receive fails. *)
Record Diagnostics := mkDiagnostics { opens : bool; accepted : Z; parts : list (list byte) }.

(** The loop over the received parts. *)
Fixpoint receive_parts (parts : list (list byte)) : option (list InetDiagMessage) :=
  match parts with
  | [] => Some []
  | received :: parts =>
      if len received =? 0 then Some []
      else
        '(visited, continues) ← decode_inet_diag_dump received;
        if continues : bool then more ← receive_parts parts; Some (visited ++ more) else Some visited
  end.

(** [dump_ipv6_tcp_sockets]: the sockets that it visits, whether or not it fails. *)
Definition dump_ipv6_tcp_sockets (state : Z) (kernel : Diagnostics) : option (list InetDiagMessage) :=
  match inet_diag_request state with
  | None => Some []
  | Some request =>
      if negb (opens kernel) then Some []
      else if negb (accepted kernel =? len request) then Some []
      else receive_parts (parts kernel)
  end.

(** ** The decoder ends, without a panic, on every input *)

Lemma native_u16_some bytes : 2 <= len bytes -> exists z, native_u16 bytes = Some z /\ is_u16 z.
Proof.
  destruct bytes as [|a [|b l]]; try (rewrite ?len_cons, ?len_nil; lia). intros _. eexists. split; [done|]. by apply from_le_u16.
Qed.

Lemma native_u32_some bytes : 4 <= len bytes -> exists z, native_u32 bytes = Some z /\ is_u32 z.
Proof.
  destruct bytes as [|a [|b [|c [|d l]]]]; try (rewrite ?len_cons, ?len_nil; lia). intros _. eexists. split; [done|]. by apply from_le_u32.
Qed.

Lemma get_some {A} i (l : list A) : 0 <= i < len l -> exists x, get i l = Some x.
Proof.
  intros H. unfold get. destruct (Z.ltb_spec i 0); [lia|]. apply lookup_lt_is_Some_2. unfold len in H. lia.
Qed.

Lemma align_ge n : n <= align n < n + 4.
Proof. unfold align, NETLINK_ALIGNMENT. pose proof (Z.div_mod (n + (4 - 1)) 4 ltac:(lia)). pose proof (Z.mod_pos_bound (n + (4 - 1)) 4 ltac:(lia)). lia. Qed.

Lemma decode_ipv6_only_ends rounds : forall attributes offset, 0 <= offset -> len attributes - offset < Z.of_nat rounds -> 0 < Z.of_nat rounds ->
  is_some (decode_ipv6_only_from rounds attributes offset) = true.
Proof.
  induction rounds as [|rounds IH]; intros attributes offset Ho Hr Hp; [lia|]. cbn [decode_ipv6_only_from].
  destruct (Z.leb_spec (offset + ATTRIBUTE_HEADER_LENGTH) (len attributes)) as [Hlen|]; [|done]. unfold ATTRIBUTE_HEADER_LENGTH in Hlen.
  pose proof (len_zdrop offset attributes) as Hd.
  destruct (native_u16_some (zdrop ATTRIBUTE_LENGTH_OFFSET (zdrop offset attributes))) as (n & -> & Hn); [rewrite len_zdrop; unfold ATTRIBUTE_LENGTH_OFFSET; lia|].
  destruct (native_u16_some (zdrop ATTRIBUTE_TYPE_OFFSET (zdrop offset attributes))) as (k & -> & Hk); [rewrite len_zdrop; unfold ATTRIBUTE_TYPE_OFFSET; lia|].
  cbn [mbind option_bind]. destruct ((n <? _) || _) eqn:E1; [done|]. bool_to_prop. unfold ATTRIBUTE_HEADER_LENGTH in *.
  destruct ((k =? _) && _) eqn:E2.
  - bool_to_prop. destruct (get_some 4 (zdrop offset attributes)) as [x ->]; [lia|done].
  - pose proof (align_ge n). apply IH; lia.
Qed.

Lemma decode_ipv6_only_total attributes : exists v, decode_ipv6_only attributes = Some v.
Proof.
  pose proof (decode_ipv6_only_ends (S (length attributes)) attributes 0) as H. unfold decode_ipv6_only.
  destruct (decode_ipv6_only_from _ _ _) as [v|]; [by exists v|]. specialize (H ltac:(lia)). unfold len in H. specialize (H ltac:(lia) ltac:(lia)). done.
Qed.

Lemma decode_message_total message : exists m, decode_message message = Some m.
Proof.
  unfold decode_message, INET_DIAG_MESSAGE_LENGTH, MESSAGE_ADDRESS_OFFSET, ADDRESS_LENGTH, MESSAGE_FAMILY_OFFSET, MESSAGE_STATE_OFFSET, MESSAGE_PORT_OFFSET.
  destruct (Z.ltb_spec (len message) 72); [by eexists|].
  pose proof (len_ztake 72 message) as Hl. set (fields := ztake 72 message) in *.
  destruct (get_range 8 (8 + 16) fields) eqn:E; [|apply get_range_none in E; lia].
  destruct (get_some 0 fields) as [f ->]; [lia|]. destruct (get_some 1 fields) as [s ->]; [lia|].
  destruct (get_some 4 fields) as [h ->]; [lia|]. destruct (get_some (4 + 1) fields) as [w ->]; [lia|].
  cbn [mbind option_bind]. destruct (decode_ipv6_only_total (zdrop 72 message)) as [v ->]. by eexists.
Qed.

Lemma decode_dump_ends rounds : forall buffer offset, 0 <= offset -> len buffer - offset < Z.of_nat rounds -> 0 < Z.of_nat rounds ->
  exists visited continues, decode_dump_from rounds buffer offset = Some (visited, continues).
Proof.
  induction rounds as [|rounds IH]; intros buffer offset Ho Hr Hp; [lia|]. cbn [decode_dump_from].
  destruct (Z.leb_spec (offset + NETLINK_HEADER_LENGTH) (len buffer)) as [Hlen|]; [|by do 2 eexists]. unfold NETLINK_HEADER_LENGTH in Hlen.
  pose proof (len_zdrop offset buffer) as Hd.
  destruct (native_u32_some (zdrop NETLINK_LENGTH_OFFSET (zdrop offset buffer))) as (n & -> & Hn); [rewrite len_zdrop; unfold NETLINK_LENGTH_OFFSET; lia|].
  destruct (native_u16_some (zdrop NETLINK_TYPE_OFFSET (zdrop offset buffer))) as (k & -> & Hk); [rewrite len_zdrop; unfold NETLINK_TYPE_OFFSET; lia|].
  cbn [mbind option_bind]. destruct (_ || (k =? NLMSG_ERROR)) eqn:E1; [by do 2 eexists|]. bool_to_prop. unfold NETLINK_HEADER_LENGTH in *.
  pose proof (align_ge n). destruct (IH buffer (offset + align n)) as (more & continues & Hmore); [lia..|].
  destruct (k =? SOCK_DIAG_BY_FAMILY).
  - destruct (get_range 16 n (zdrop offset buffer)) as [body|] eqn:E; [|apply get_range_none in E; lia].
    cbn [mbind option_bind]. destruct (decode_message_total body) as [m ->]. cbn [mbind option_bind]. rewrite Hmore. by do 2 eexists.
  - rewrite Hmore. by do 2 eexists.
Qed.

Lemma decode_dump_total buffer : exists visited continues, decode_inet_diag_dump buffer = Some (visited, continues).
Proof. apply decode_dump_ends; unfold len; lia. Qed.

(** ** The messages of a dump *)

(** The padding after [length] bytes. *)
Definition padding (length : Z) : list byte := replicate (Z.to_nat (align length - length)) (byte_of 0).

Definition attribute_bytes (attribute : Z * list byte) : list byte :=
  let '(kind, value) := attribute in
  let length := ATTRIBUTE_HEADER_LENGTH + len value in
  to_le_bytes 2 length ++ to_le_bytes 2 kind ++ value ++ padding length.

(** The fields of a socket that the decoder reads, between others that it does not. *)
Record SocketMessage := mkSocketMessage {
  m_family : byte; m_state : byte; m_timers : list byte; m_port : list byte; m_peer_port : list byte;
  m_address : list byte; m_rest : list byte; m_attributes : list (Z * list byte);
}.

Definition socket_fields (m : SocketMessage) : list byte :=
  [m_family m; m_state m] ++ m_timers m ++ m_port m ++ m_peer_port m ++ m_address m ++ m_rest m.
Definition message_body (m : SocketMessage) : list byte := socket_fields m ++ concat (attribute_bytes <$> m_attributes m).

(** A netlink message of a kind, with what follows its kind in the header, and a body. *)
Definition netlink_bytes (kind : Z) (header body : list byte) : list byte :=
  let length := NETLINK_HEADER_LENGTH + len body in
  to_le_bytes 4 length ++ to_le_bytes 2 kind ++ header ++ body ++ padding length.

Definition attribute_fits (attribute : Z * list byte) : Prop := is_u16 attribute.1 /\ ATTRIBUTE_HEADER_LENGTH + len attribute.2 <= U16_MAX.

Definition message_fits (m : SocketMessage) : Prop :=
  len (m_timers m) = 2 /\ len (m_port m) = 2 /\ len (m_peer_port m) = 2 /\ len (m_address m) = 16 /\ len (m_rest m) = 48
  /\ Forall attribute_fits (m_attributes m) /\ NETLINK_HEADER_LENGTH + len (message_body m) <= U32_MAX.

(** The first value of the attribute that tells whether a socket is IPv6-only. *)
Fixpoint v6only_of (attributes : list (Z * list byte)) : option bool :=
  match attributes with
  | [] => None
  | (kind, value) :: attributes =>
      match value with
      | b :: _ => if kind =? INET_DIAG_SKV6ONLY then Some (negb (byte_val b =? 0)) else v6only_of attributes
      | [] => v6only_of attributes
      end
  end.

Definition socket_of (m : SocketMessage) : InetDiagMessage :=
  mkInetDiagMessage (byte_val (m_family m) =? AF_INET6) (byte_val (m_state m)) (from_le_bytes (rev (m_port m))) (m_address m)
    (v6only_of (m_attributes m)).

Lemma zdrop_past {A} (pre rest : list A) offset : 0 <= offset -> zdrop (len pre + offset) (pre ++ rest) = zdrop offset rest.
Proof. intros H. rewrite zdrop_app_r by lia. f_equal. lia. Qed.

Lemma attributes_shift rounds : forall pre rest offset, 0 <= offset ->
  decode_ipv6_only_from rounds (pre ++ rest) (len pre + offset) = decode_ipv6_only_from rounds rest offset.
Proof.
  induction rounds as [|rounds IH]; intros pre rest offset Ho; [done|]. cbn [decode_ipv6_only_from].
  rewrite zdrop_past, len_app by done. replace (len pre + offset + ATTRIBUTE_HEADER_LENGTH <=? len pre + len rest) with (offset + ATTRIBUTE_HEADER_LENGTH <=? len rest)
    by (destruct (Z.leb_spec (offset + ATTRIBUTE_HEADER_LENGTH) (len rest)), (Z.leb_spec (len pre + offset + ATTRIBUTE_HEADER_LENGTH) (len pre + len rest)); lia || done).
  destruct (offset + ATTRIBUTE_HEADER_LENGTH <=? len rest); [|done].
  destruct (native_u16 (zdrop ATTRIBUTE_LENGTH_OFFSET _)) as [n|]; [|done]. destruct (native_u16 (zdrop ATTRIBUTE_TYPE_OFFSET _)) as [k|]; [|done].
  cbn [mbind option_bind]. destruct (_ || _) eqn:E; [done|]. destruct (_ && _); [done|]. bool_to_prop. pose proof (align_ge n). unfold ATTRIBUTE_HEADER_LENGTH in *.
  rewrite <- Z.add_assoc. apply IH. lia.
Qed.

Lemma dump_shift rounds : forall pre rest offset, 0 <= offset ->
  decode_dump_from rounds (pre ++ rest) (len pre + offset) = decode_dump_from rounds rest offset.
Proof.
  induction rounds as [|rounds IH]; intros pre rest offset Ho; [done|]. cbn [decode_dump_from].
  rewrite zdrop_past, len_app by done. replace (len pre + offset + NETLINK_HEADER_LENGTH <=? len pre + len rest) with (offset + NETLINK_HEADER_LENGTH <=? len rest)
    by (destruct (Z.leb_spec (offset + NETLINK_HEADER_LENGTH) (len rest)), (Z.leb_spec (len pre + offset + NETLINK_HEADER_LENGTH) (len pre + len rest)); lia || done).
  destruct (offset + NETLINK_HEADER_LENGTH <=? len rest); [|done].
  destruct (native_u32 (zdrop NETLINK_LENGTH_OFFSET _)) as [n|]; [|done]. destruct (native_u16 (zdrop NETLINK_TYPE_OFFSET _)) as [k|]; [|done].
  cbn [mbind option_bind]. destruct (_ || (k =? NLMSG_ERROR)) eqn:E; [done|]. bool_to_prop. pose proof (align_ge n). unfold NETLINK_HEADER_LENGTH in *.
  replace (len pre + offset + align n) with (len pre + (offset + align n)) by lia. by rewrite IH by lia.
Qed.

Lemma native_u16_app l rest : len l = 2 -> native_u16 (l ++ rest) = Some (from_le_bytes l).
Proof. intros H. destruct l as [|a [|b [|e l]]]; rewrite ?len_cons, ?len_nil in H; try lia; [done|]. pose proof (len_nonneg l). lia. Qed.

Lemma native_u32_app l rest : len l = 4 -> native_u32 (l ++ rest) = Some (from_le_bytes l).
Proof. intros H. destruct l as [|a [|b [|c [|d [|e l]]]]]; rewrite ?len_cons, ?len_nil in H; try lia; [done|]. pose proof (len_nonneg l). lia. Qed.

Lemma len_padding n : len (padding n) = align n - n.
Proof. unfold padding. rewrite len_replicate. pose proof (align_ge n). lia. Qed.

Lemma len_attribute_bytes attribute : len (attribute_bytes attribute) = align (ATTRIBUTE_HEADER_LENGTH + len attribute.2).
Proof. destruct attribute as [kind value]. cbn [attribute_bytes snd]. rewrite !len_app, !len_to_le_bytes, len_padding. unfold ATTRIBUTE_HEADER_LENGTH. lia. Qed.

Lemma attributes_read attributes : Forall attribute_fits attributes -> forall rounds, (length attributes < rounds)%nat ->
  decode_ipv6_only_from rounds (concat (attribute_bytes <$> attributes)) 0 = Some (v6only_of attributes).
Proof.
  induction attributes as [|[kind value] attributes IH]; intros Hf rounds Hr; (destruct rounds as [|rounds]; [cbn in Hr; lia|]); [done|].
  apply Forall_cons in Hf as [[Hk Hv] Hf]. cbn [fst snd] in *. cbn [fmap list_fmap concat length] in *. set (more := concat _) in *.
  pose proof (len_attribute_bytes (kind, value)) as Hlen. cbn [snd] in Hlen. pose proof (align_ge (ATTRIBUTE_HEADER_LENGTH + len value)) as Ha.
  pose proof (len_nonneg value). pose proof (len_nonneg more).
  cbn [decode_ipv6_only_from]. rewrite len_app, zdrop_0 by lia. unfold ATTRIBUTE_HEADER_LENGTH in *.
  destruct (Z.leb_spec (0 + 4) (len (attribute_bytes (kind, value)) + len more)); [|lia].
  assert (native_u16 (zdrop ATTRIBUTE_LENGTH_OFFSET (attribute_bytes (kind, value) ++ more)) = Some (4 + len value)) as ->.
  { rewrite zdrop_0 by (unfold ATTRIBUTE_LENGTH_OFFSET; lia). cbn [attribute_bytes]. rewrite <- app_assoc, native_u16_app by done.
    rewrite u16_le_roundtrip; [done|]. unfold is_u16, ATTRIBUTE_HEADER_LENGTH in *. lia. }
  assert (native_u16 (zdrop ATTRIBUTE_TYPE_OFFSET (attribute_bytes (kind, value) ++ more)) = Some kind) as ->.
  { cbn [attribute_bytes]. rewrite <- app_assoc, zdrop_app_r by (rewrite len_to_le_bytes; unfold ATTRIBUTE_TYPE_OFFSET; lia).
    rewrite zdrop_0 by (rewrite len_to_le_bytes; unfold ATTRIBUTE_TYPE_OFFSET; lia). rewrite <- app_assoc, native_u16_app by done. by rewrite u16_le_roundtrip. }
  cbn [mbind option_bind]. destruct (Z.ltb_spec (4 + len value) 4); [lia|].
  destruct (Z.ltb_spec (len (attribute_bytes (kind, value) ++ more)) (4 + len value)); [rewrite len_app in *; lia|]. cbn [orb v6only_of].
  assert (decode_ipv6_only_from rounds (attribute_bytes (kind, value) ++ more) (0 + align (4 + len value)) = Some (v6only_of attributes)) as Hmore.
  { rewrite <- Hlen. replace (0 + len (attribute_bytes (kind, value))) with (len (attribute_bytes (kind, value)) + 0) by lia.
    rewrite attributes_shift by lia. apply IH; [done|lia]. }
  destruct value as [|b value]; [rewrite andb_false_r; exact Hmore|]. replace (4 <? 4 + len (b :: value)) with true by (symmetry; apply Z.ltb_lt; rewrite len_cons; pose proof (len_nonneg value); lia).
  rewrite andb_true_r. destruct (kind =? INET_DIAG_SKV6ONLY); [done|exact Hmore].
Qed.

Lemma len_socket_fields m : message_fits m -> len (socket_fields m) = INET_DIAG_MESSAGE_LENGTH.
Proof. intros (H1 & H2 & H3 & H4 & H5 & _). unfold socket_fields. rewrite !len_app, H1, H2, H3, H4, H5. done. Qed.

Lemma attributes_shorter attributes : (length attributes <= length (concat (attribute_bytes <$> attributes)))%nat.
Proof.
  induction attributes as [|attribute attributes IH]; [done|]. cbn [fmap list_fmap concat length]. rewrite length_app.
  pose proof (len_attribute_bytes attribute) as H. pose proof (align_ge (ATTRIBUTE_HEADER_LENGTH + len attribute.2)). pose proof (len_nonneg attribute.2).
  unfold len, ATTRIBUTE_HEADER_LENGTH in *. lia.
Qed.

Lemma message_read m : message_fits m -> decode_message (message_body m) = Some (Some (socket_of m)).
Proof.
  intros Hm. pose proof (len_socket_fields m Hm) as Hl. destruct Hm as (H1 & H2 & H3 & H4 & H5 & Hf & _). unfold decode_message, message_body.
  rewrite len_app, Hl. set (more := concat _). pose proof (len_nonneg more). destruct (Z.ltb_spec (INET_DIAG_MESSAGE_LENGTH + len more) INET_DIAG_MESSAGE_LENGTH); [lia|].
  rewrite ztake_app_l, ztake_all by lia. rewrite zdrop_app_r, zdrop_0 by lia.
  unfold decode_ipv6_only, more. rewrite attributes_read; [|done|pose proof (attributes_shorter (m_attributes m)); lia].
  assert (get_range MESSAGE_ADDRESS_OFFSET (MESSAGE_ADDRESS_OFFSET + ADDRESS_LENGTH) (socket_fields m) = Some (m_address m)) as ->.
  { unfold socket_fields. rewrite !app_assoc. apply get_range_some. rewrite !len_app, H1, H2, H3, H4, H5. split; [done|]. split; [done|].
    rewrite <- (app_assoc _ (m_address m)). symmetry. apply sub_app_mid; rewrite !len_app, ?H1, ?H2, ?H3, ?H4; done. }
  unfold socket_fields, socket_of. destruct (m_timers m) as [|t1 [|t2 [|? ?]]]; try (rewrite ?len_cons, ?len_nil in H1; len_lia).
  destruct (m_port m) as [|p1 [|p2 [|? ?]]]; try (rewrite ?len_cons, ?len_nil in H2; len_lia).
  unfold get, MESSAGE_FAMILY_OFFSET, MESSAGE_STATE_OFFSET, MESSAGE_PORT_OFFSET. simpl.
  do 2 f_equal. f_equal. lia.
Qed.

(** One message at the start of a dump: what it gives, and then the rest. *)
Lemma dump_message rounds kind header body rest :
  is_u16 kind -> kind <> NLMSG_DONE -> kind <> NLMSG_ERROR -> len header = 10 -> NETLINK_HEADER_LENGTH + len body <= U32_MAX ->
  decode_dump_from (S rounds) (netlink_bytes kind header body ++ rest) 0 =
  (visited ← if kind =? SOCK_DIAG_BY_FAMILY then message ← decode_message body; Some (match message with Some message => [message] | None => [] end) else Some [];
   '(more, continues) ← decode_dump_from rounds rest 0; Some (visited ++ more, continues)).
Proof.
  intros Hk Hd He Hh Hb. pose proof (len_nonneg body). pose proof (len_nonneg rest). pose proof (align_ge (NETLINK_HEADER_LENGTH + len body)) as Ha.
  assert (len (netlink_bytes kind header body) = align (NETLINK_HEADER_LENGTH + len body)) as Hlen.
  { unfold netlink_bytes. rewrite !len_app, !len_to_le_bytes, Hh, len_padding. unfold NETLINK_HEADER_LENGTH. lia. }
  cbn [decode_dump_from]. rewrite len_app, zdrop_0 by lia. unfold NETLINK_HEADER_LENGTH in *.
  destruct (Z.leb_spec (0 + 16) (len (netlink_bytes kind header body) + len rest)); [|lia].
  assert (native_u32 (zdrop NETLINK_LENGTH_OFFSET (netlink_bytes kind header body ++ rest)) = Some (16 + len body)) as ->.
  { rewrite zdrop_0 by (unfold NETLINK_LENGTH_OFFSET; lia). unfold netlink_bytes. rewrite <- app_assoc, native_u32_app by done.
    rewrite u32_le_roundtrip; [done|]. unfold is_u32, NETLINK_HEADER_LENGTH in *. lia. }
  assert (native_u16 (zdrop NETLINK_TYPE_OFFSET (netlink_bytes kind header body ++ rest)) = Some kind) as ->.
  { unfold netlink_bytes. rewrite <- app_assoc, zdrop_app_r by (rewrite len_to_le_bytes; unfold NETLINK_TYPE_OFFSET; lia).
    rewrite zdrop_0 by (rewrite len_to_le_bytes; unfold NETLINK_TYPE_OFFSET; lia). rewrite <- app_assoc, native_u16_app by done. by rewrite u16_le_roundtrip. }
  cbn [mbind option_bind]. destruct (Z.ltb_spec (16 + len body) 16); [lia|].
  destruct (Z.ltb_spec (len (netlink_bytes kind header body ++ rest)) (16 + len body)); [rewrite len_app in *; lia|].
  destruct (Z.eqb_spec kind NLMSG_DONE); [done|]. destruct (Z.eqb_spec kind NLMSG_ERROR); [done|]. cbn [orb].
  assert (get_range 16 (16 + len body) (netlink_bytes kind header body ++ rest) = Some body) as ->.
  { apply get_range_some. rewrite len_app. split; [lia|]. split; [lia|]. symmetry. unfold netlink_bytes. rewrite !app_assoc, <- (app_assoc _ _ rest), <- (app_assoc _ body).
    apply sub_app_mid; rewrite !len_app, !len_to_le_bytes, Hh; lia. }
  rewrite <- Hlen. replace (0 + len (netlink_bytes kind header body)) with (len (netlink_bytes kind header body) + 0) by lia.
  rewrite dump_shift by lia. done.
Qed.

(** A dump: messages, of sockets or of other kinds that the decoder skips. *)
Inductive DumpMessage := DumpSocket (m : SocketMessage) | DumpOther (kind : Z) (body : list byte).
Definition dump_message_bytes (header : list byte) (message : DumpMessage) : list byte :=
  match message with
  | DumpSocket m => netlink_bytes SOCK_DIAG_BY_FAMILY header (message_body m)
  | DumpOther kind body => netlink_bytes kind header body
  end.
Definition dump_message_fits (message : DumpMessage) : Prop :=
  match message with
  | DumpSocket m => message_fits m
  | DumpOther kind body => is_u16 kind /\ (kind ∉ [NLMSG_DONE; NLMSG_ERROR; SOCK_DIAG_BY_FAMILY]) /\ NETLINK_HEADER_LENGTH + len body <= U32_MAX
  end.
Definition dump_sockets (messages : list DumpMessage) : list InetDiagMessage :=
  omap (fun message => match message with DumpSocket m => Some (socket_of m) | DumpOther _ _ => None end) messages.
Definition dump_bytes (header : list byte) (messages : list DumpMessage) : list byte := concat (dump_message_bytes header <$> messages).

Lemma dump_read header messages rest visited continues : len header = 10 -> Forall dump_message_fits messages ->
  forall rounds, decode_dump_from rounds rest 0 = Some (visited, continues) ->
  decode_dump_from (length messages + rounds) (dump_bytes header messages ++ rest) 0 = Some (dump_sockets messages ++ visited, continues).
Proof.
  intros Hh. unfold dump_bytes. induction messages as [|message messages IH]; intros Hf rounds Hrest; [done|]. apply Forall_cons in Hf as [Hm Hf].
  cbn [fmap list_fmap concat length]. rewrite <- app_assoc. specialize (IH Hf rounds Hrest). cbn [plus Nat.add].
  destruct message as [m|kind body]; cbn [dump_message_bytes].
  - pose proof Hm as (_ & _ & _ & _ & _ & _ & Hb). rewrite dump_message by done. rewrite Z.eqb_refl, message_read by done.
    cbn [mbind option_bind]. by rewrite IH.
  - destruct Hm as (Hk & Hn & Hb). rewrite !not_elem_of_cons in Hn. destruct Hn as (? & ? & ? & _). rewrite dump_message by done.
    destruct (Z.eqb_spec kind SOCK_DIAG_BY_FAMILY); [done|]. cbn [mbind option_bind]. by rewrite IH.
Qed.

Lemma dump_rounds buffer rounds more visited continues : decode_dump_from rounds buffer 0 = Some (visited, continues) ->
  decode_dump_from (rounds + more) buffer 0 = Some (visited, continues).
Proof.
  generalize 0. revert visited continues. induction rounds as [|rounds IH]; intros visited continues offset; [done|]. cbn [plus Nat.add decode_dump_from].
  destruct (_ <=? _); [|done]. destruct (native_u32 _); [|done]. destruct (native_u16 _); [|done]. cbn [mbind option_bind]. destruct (_ || _); [done|].
  destruct (if _ =? SOCK_DIAG_BY_FAMILY then _ else _) as [here|]; [|done]. cbn [mbind option_bind].
  destruct (decode_dump_from rounds buffer _) as [[m c]|] eqn:E; [|done]. by erewrite IH.
Qed.

Lemma dump_end_marker rounds kind header body rest :
  kind ∈ [NLMSG_DONE; NLMSG_ERROR] -> len header = 10 -> NETLINK_HEADER_LENGTH + len body <= U32_MAX ->
  decode_dump_from (S rounds) (netlink_bytes kind header body ++ rest) 0 = Some ([], false).
Proof.
  intros Hk Hh Hb. pose proof (len_nonneg body). pose proof (len_nonneg rest). pose proof (len_nonneg (padding (NETLINK_HEADER_LENGTH + len body))).
  assert (is_u16 kind) as Hu by (rewrite !elem_of_cons in Hk; destruct Hk as [->|[->|Hk]]; [done|done|by apply elem_of_nil in Hk]).
  cbn [decode_dump_from]. rewrite zdrop_0 by lia. unfold netlink_bytes at 1. rewrite !len_app, !len_to_le_bytes, Hh.
  unfold NETLINK_HEADER_LENGTH in *. match goal with |- context[?a <=? ?b] => destruct (Z.leb_spec a b); [|lia] end.
  unfold netlink_bytes. rewrite <- !app_assoc. rewrite (zdrop_0 NETLINK_LENGTH_OFFSET) by (unfold NETLINK_LENGTH_OFFSET; lia). rewrite native_u32_app by done. cbn [mbind option_bind].
  rewrite zdrop_app_r by (rewrite len_to_le_bytes; unfold NETLINK_TYPE_OFFSET; lia). rewrite zdrop_0 by (rewrite len_to_le_bytes; unfold NETLINK_TYPE_OFFSET; lia). rewrite native_u16_app by done. cbn [mbind option_bind].
  rewrite u16_le_roundtrip by done. rewrite <- (orb_assoc _ (kind =? NLMSG_DONE)). replace ((kind =? NLMSG_DONE) || (kind =? NLMSG_ERROR)) with true; [by rewrite orb_true_r|].
  rewrite !elem_of_cons in Hk. destruct Hk as [->|[->|Hk]]; [done|done|by apply elem_of_nil in Hk].
Qed.

Lemma messages_shorter header messages : (length messages <= length (dump_bytes header messages))%nat.
Proof.
  unfold dump_bytes. induction messages as [|message messages IH]; [done|]. cbn [fmap list_fmap concat length]. rewrite length_app.
  destruct message as [m|kind body]; cbn [dump_message_bytes]; unfold netlink_bytes; cbn [to_le_bytes app length]; lia.
Qed.

Lemma whole_dump header messages rest visited continues : len header = 10 -> Forall dump_message_fits messages ->
  decode_dump_from 1 rest 0 = Some (visited, continues) ->
  decode_inet_diag_dump (dump_bytes header messages ++ rest) = Some (dump_sockets messages ++ visited, continues).
Proof.
  intros Hh Hf Hr. unfold decode_inet_diag_dump. pose proof (messages_shorter header messages) as Hs.
  replace (S (length (dump_bytes header messages ++ rest))) with (length messages + 1 + (length (dump_bytes header messages ++ rest) - length messages))%nat
    by (rewrite length_app; lia).
  apply dump_rounds. by apply dump_read.
Qed.

(** The parts of a dump that ends in its last part with [NLMSG_DONE]. *)
Definition dump_parts (header ending : list byte) (dump : list (list DumpMessage)) (final : list DumpMessage) : list (list byte) :=
  (dump_bytes header <$> dump) ++ [dump_bytes header final ++ netlink_bytes NLMSG_DONE header ending].

Lemma parts_read header ending dump final more : len header = 10 -> NETLINK_HEADER_LENGTH + len ending <= U32_MAX ->
  Forall (fun messages => messages <> [] /\ Forall dump_message_fits messages) dump -> Forall dump_message_fits final ->
  receive_parts (dump_parts header ending dump final ++ more) = Some (dump_sockets (concat dump ++ final)).
Proof.
  intros Hh He Hd Hf. unfold dump_parts. induction dump as [|messages dump IH].
  - cbn [fmap list_fmap app concat receive_parts]. rewrite len_app. unfold netlink_bytes at 1. rewrite !len_app, !len_to_le_bytes, Hh.
    pose proof (len_nonneg (dump_bytes header final)). pose proof (len_nonneg ending). pose proof (len_nonneg (padding (NETLINK_HEADER_LENGTH + len ending))).
    match goal with |- context[?a =? 0] => destruct (Z.eqb_spec a 0); [lia|] end.
    erewrite whole_dump; [|done|done|rewrite <- (app_nil_r (netlink_bytes _ _ _)); apply dump_end_marker; [by left|done|done]].
    cbn [mbind option_bind]. by rewrite app_nil_r.
  - apply Forall_cons in Hd as [[Hne Hm] Hd]. cbn [fmap list_fmap app concat receive_parts].
    destruct (Z.eqb_spec (len (dump_bytes header messages)) 0) as [E|_].
    { pose proof (messages_shorter header messages). destruct messages; [done|]. unfold len in E. cbn [length] in *. lia. }
    rewrite <- (app_nil_r (dump_bytes header messages)). erewrite whole_dump; [|done|done|reflexivity].
    cbn [mbind option_bind]. specialize (IH Hd). unfold dump_bytes in *. rewrite IH. cbn [mbind option_bind]. rewrite app_nil_r.
    unfold dump_sockets. by rewrite <- app_assoc, !omap_app.
Qed.

(** C40: the decoder of socket diagnostics ends without a panic on every buffer; on the parts of a
    dump of any messages, whatever their attributes, the query for IPv6 TCP sockets visits exactly
    the sockets of the dump, in order and with the kernel's [IPV6_V6ONLY] of each, through the part
    that ends the dump, and nothing that follows it. *)
Theorem diag_dump_exact buffer header ending dump final more :
  (exists visited continues, decode_inet_diag_dump buffer = Some (visited, continues))
  /\ (len header = 10 -> NETLINK_HEADER_LENGTH + len ending <= U32_MAX ->
      Forall (fun messages => messages <> [] /\ Forall dump_message_fits messages) dump -> Forall dump_message_fits final ->
      dump_ipv6_tcp_sockets 0x0a (mkDiagnostics true INET_DIAG_QUERY_LENGTH (dump_parts header ending dump final ++ more))
      = Some (dump_sockets (concat dump ++ final))).
Proof.
  split; [apply decode_dump_total|]. intros Hh He Hd Hf. unfold dump_ipv6_tcp_sockets. cbn [opens accepted parts].
  destruct (inet_diag_request 0x0a) as [request|] eqn:E; [|vm_compute in E; discriminate].
  replace (len request) with INET_DIAG_QUERY_LENGTH; [by apply parts_read|]. assert (Some (len request) = Some INET_DIAG_QUERY_LENGTH) as H; [|by injection H].
  change (Some (len request)) with (len <$> Some request). rewrite <- E. by vm_compute.
Qed.

Definition sample_socket : SocketMessage :=
  mkSocketMessage (byte_of 10) (byte_of 10) (replicate 2 (byte_of 0)) (map byte_of [31; 144]) (replicate 2 (byte_of 0)) (replicate 16 (byte_of 0))
    (replicate 48 (byte_of 7)) [(8, map byte_of [1]); (11, map byte_of [1])].

Lemma diag_dump_exact_witness :
  dump_ipv6_tcp_sockets 0x0a
    (mkDiagnostics true INET_DIAG_QUERY_LENGTH (dump_parts (replicate 10 (byte_of 0)) [byte_of 0] [[DumpOther 7 [byte_of 1]; DumpSocket sample_socket]] [] ++ [[byte_of 1]]))
  = Some [mkInetDiagMessage true 10 8080 (replicate 16 (byte_of 0)) (Some true)].
Proof.
  rewrite (proj2 (diag_dump_exact [] (replicate 10 (byte_of 0)) [byte_of 0] [[DumpOther 7 [byte_of 1]; DumpSocket sample_socket]] [] [[byte_of 1]])).
  - by vm_compute.
  - done.
  - done.
  - apply Forall_singleton. split; [done|]. apply Forall_cons; split; [|apply Forall_singleton].
    + split_and!; [done..|refine (bool_decide_unpack _ _); by vm_compute|done].
    + split_and!; try done. apply Forall_cons; split; [done|]. by apply Forall_singleton.
  - constructor.
Defined.
