(* ===== verification/Ingress.v ===== *)
(** * The announcer of a guest's listeners (src/nvx-rs/src/guest/ingress/)

    Reads the kernel's socket tables and diagnostics, settles UDP sockets across scans, and sends
    the canonical set of listeners to the gateway when it changes and at least every two seconds:
    mod.rs, diag.rs, address.rs, table.rs, encode.rs, collect.rs and sender.rs. *)

From stdpp Require Import sorting.
From S2P Require Import Prelude Cmdline Lowering AddressText GuestText SockDiag.

(** ** Constants and records (mod.rs) *)

Definition ANNOUNCEMENT_PORT : Z := 1021.
Definition FIRST_SOURCE_PORT : Z := 1023.
Definition LAST_SOURCE_PORT : Z := 512.
Definition MAX_ANNOUNCED : Z := 64.
Definition MAX_TRACKED : Z := 1024.
Definition SCAN_INTERVAL_MS : Z := 100.
Definition REFRESH_INTERVAL_MS : Z := 2000.
Definition UDP_SETTLE_MS : Z := 1000.
Definition FAMILY_IPV4 : Z := 1.
Definition FAMILY_IPV6 : Z := 2.
Definition PROTOCOL_TCP : Z := 6.
Definition PROTOCOL_UDP : Z := 17.
Definition TCP_LISTEN : Z := 0x0a.
Definition UDP_CONNECTED : Z := 0x01.
Definition UDP_UNCONNECTED : Z := 0x07.
Definition PATH_BUFFER_SIZE : Z := 4096.

Record Listener := mkListener { l_protocol : Z; l_families : Z; l_port : Z }.
Record UdpSocket := mkUdpSocket { u_port : Z; u_families : Z; u_connected : bool; u_inode : Z }.

#[export] Instance listener_eq_dec : EqDecision Listener.
Proof. solve_decision. Defined.

(** [Errno], of which [bind] tells only one value apart. *)
Inductive Errno := EADDRINUSE | OtherErrno (code : Z).

(** The ports of [(LAST_SOURCE_PORT..=FIRST_SOURCE_PORT).rev()]. *)
Definition source_ports : list Z := rev (seqZ LAST_SOURCE_PORT (FIRST_SOURCE_PORT - LAST_SOURCE_PORT + 1)).

Section bind.
Context {S : Type} (bind : Z -> S -> result Errno unit * S).

Fixpoint bind_first (ports : list Z) (system : S) : result Errno (option Z) * S :=
  match ports with
  | [] => (Ok None, system)
  | port :: ports =>
      match bind port system with
      | (Ok tt, system) => (Ok (Some port), system)
      | (Err EADDRINUSE, system) => bind_first ports system
      | (Err errno, system) => (Err errno, system)
      end
  end.

Definition bind_privileged : S -> result Errno (option Z) * S := bind_first source_ports.
End bind.

(** [Path::join] of a relative path. *)
Definition path_join (root suffix : list byte) : list byte :=
  match last root with
  | Some b => if byte_val b =? 47 then root ++ suffix else root ++ bytes_of "/" ++ suffix
  | None => suffix
  end.

(** [str::trim_start_matches('/')]. *)
Fixpoint trim_slashes (text : list byte) : list byte :=
  match text with b :: rest => if byte_val b =? 47 then trim_slashes rest else text | [] => [] end.

Definition bounded_path (root suffix : list byte) (size : Z) : option (list byte) :=
  if size <=? len root + len suffix then None else Some (path_join root (trim_slashes suffix)).

(** An open file: the bytes that are left, and whether a read past them fails. *)
Record Reader := mkReader { rest : list byte; fails : bool }.

(** The files that can be opened. *)
Definition Files : Type := list byte -> option Reader.

Inductive DecimalFile := Missing | Malformed | Value (value : Z).

(** [slice::trim_ascii]. *)
Fixpoint trim_ascii_start (text : list byte) : list byte :=
  match text with b :: rest => if is_ascii_whitespace b then trim_ascii_start rest else text | [] => [] end.
Definition trim_ascii (text : list byte) : list byte := rev (trim_ascii_start (rev (trim_ascii_start text))).

Definition read_decimal_file (files : Files) (path : list byte) : DecimalFile :=
  match files path with
  | None => Missing
  | Some file =>
      if fails file then Malformed
      else match parse_decimal (trim_ascii (rest file)) with Some value => Value value | None => Malformed end
  end.

(** ** Wildcard listeners (diag.rs) *)

Record WildcardListener := mkWildcardListener { w_port : Z; w_dual_stack : bool; w_ipv6_only : bool }.

Definition is_unspecified (octets : list byte) : bool := forallb (fun b => byte_val b =? 0) octets.

(** [iter_mut().find(p)] with [f] applied to the element, if there is one. *)
Fixpoint update_first {A} (p : A -> bool) (f : A -> A) (l : list A) : option (list A) :=
  match l with
  | [] => None
  | x :: l => if p x then Some (f x :: l) else (x ::.) <$> update_first p f l
  end.

Definition note_wildcard_tcp (message : InetDiagMessage) (listeners : list WildcardListener) : list WildcardListener :=
  if negb (ipv6 message) || negb (state message =? TCP_LISTEN) || negb (is_unspecified (address message)) then listeners
  else
    match ipv6_only message with
    | None => listeners
    | Some only =>
        match update_first (fun l => w_port l =? SockDiag.port message)
                (fun l => mkWildcardListener (w_port l) (w_dual_stack l || negb only) (w_ipv6_only l || only)) listeners with
        | Some listeners => listeners
        | None =>
            if len listeners <? MAX_TRACKED
            then listeners ++ [mkWildcardListener (SockDiag.port message) (negb only) only] else listeners
        end
    end.

(** [parse_wildcard_tcp]; [None] is a panic of the decoder. *)
Definition parse_wildcard_tcp (buffer : list byte) (listeners : list WildcardListener) : option (list WildcardListener * bool) :=
  '(messages, continues) ← decode_inet_diag_dump buffer;
  Some (foldl (fun listeners message => note_wildcard_tcp message listeners) listeners messages, continues).

(** [read_to_end] of at most [limit] bytes; a failure keeps the bytes before it. *)
Definition query_snapshot (files : Files) (root : list byte) : option (list WildcardListener) :=
  match bounded_path root (bytes_of "/diag") PATH_BUFFER_SIZE with
  | None => Some []
  | Some path =>
      match files path with
      | None => Some []
      | Some file => fst <$> parse_wildcard_tcp (ztake INET_DIAG_BUFFER_LENGTH (rest file)) []
      end
  end.

Definition query_live (kernel : Diagnostics) : option (list WildcardListener) :=
  messages ← dump_ipv6_tcp_sockets TCP_LISTEN kernel;
  Some (foldl (fun listeners message => note_wildcard_tcp message listeners) [] messages).

(** ** Addresses (address.rs) *)

Definition WORD_DIGITS : Z := 8.

Record AddressContext := mkAddressContext { ipv6_dual_stack : bool; wildcard_tcp : list WildcardListener }.

Definition both_families : Z := Z.lor FAMILY_IPV4 FAMILY_IPV6.

Definition wildcard_families (self : AddressContext) (protocol port : Z) : Z :=
  match (if protocol =? PROTOCOL_TCP then List.find (fun l => w_port l =? port) (wildcard_tcp self) else None) with
  | Some listener => if w_dual_stack listener then both_families else FAMILY_IPV6
  | None => if ipv6_dual_stack self then both_families else FAMILY_IPV6
  end.

(** The words of an address, from [words] groups of digits. *)
Fixpoint decode_words (words : nat) (text : list byte) : option (list byte) :=
  match words with
  | O => Some []
  | S words =>
      value ← parse_hexadecimal (ztake WORD_DIGITS text);
      if U32_MAX <? value then None
      else rest ← decode_words words (zdrop WORD_DIGITS text); Some (to_le_bytes 4 value ++ rest)
  end.

Definition decode_kernel_address (n : Z) (text : list byte) : option (list byte) :=
  if negb (len text =? n / 4 * WORD_DIGITS) then None else decode_words (Z.to_nat (n / 4)) text.

(** [Ipv4Addr::is_loopback], [Ipv6Addr::is_loopback], [Ipv6Addr::is_unicast_link_local] and
    [Ipv6Addr::to_ipv4_mapped]. *)
Definition is_loopback4 (octets : list byte) : bool := match octets with a :: _ => byte_val a =? 127 | [] => false end.
Definition is_loopback6 (octets : list byte) : bool := is_unspecified (ztake 15 octets) && bool_decide (zdrop 15 octets = [byte_of 1]).
Definition is_link_local (octets : list byte) : bool :=
  match octets with a :: b :: _ => (byte_val a =? 0xfe) && (Z.land (byte_val b) 0xc0 =? 0x80) | _ => false end.
Definition to_ipv4_mapped (octets : list byte) : option (list byte) :=
  if is_unspecified (ztake 10 octets) && bool_decide (sub 10 12 octets = [byte_of 255; byte_of 255]) then Some (zdrop 12 octets) else None.

Definition reachable_families (self : AddressContext) (address : list byte) (ipv6 : bool) (protocol port : Z) : Z :=
  if negb ipv6 then
    match decode_kernel_address 4 address with
    | Some address => if is_loopback4 address then 0 else FAMILY_IPV4
    | None => 0
    end
  else
    match decode_kernel_address 16 address with
    | None => 0
    | Some address =>
        if is_unspecified address then wildcard_families self protocol port
        else if is_loopback6 address || is_link_local address then 0
        else match to_ipv4_mapped address with
             | Some mapped => if is_loopback4 mapped then 0 else FAMILY_IPV4
             | None => FAMILY_IPV6
             end
    end.

(** ** Listener tables (encode.rs) *)

Definition MAGIC : list byte := bytes_of "NVXL".
Definition VERSION : Z := 1.
Definition FLAG_OMITTED : Z := 0x01.
Definition HEADER_LENGTH : Z := 8.
Definition ENTRY_LENGTH : Z := 4.

(** [ListenerTable], its entries. *)
Definition ListenerTable : Type := list Listener.

Definition has_key (protocol port : Z) (l : Listener) : bool := (l_protocol l =? protocol) && (l_port l =? port).

Definition add (protocol port families : Z) (self : ListenerTable) : ListenerTable :=
  match update_first (has_key protocol port) (fun l => mkListener (l_protocol l) (Z.lor (l_families l) families) (l_port l)) self with
  | Some entries => entries
  | None => if len self <? MAX_TRACKED then self ++ [mkListener protocol families port] else self
  end.

(** The order of the keys [(protocol, port)]. *)
Definition listener_le (a b : Listener) : Prop := l_protocol a < l_protocol b \/ l_protocol a = l_protocol b /\ l_port a <= l_port b.
#[export] Instance listener_le_dec a b : Decision (listener_le a b).
Proof. unfold listener_le. apply _. Defined.

(** [u16::to_be_bytes]. *)
Definition to_be_bytes (n : nat) (z : Z) : list byte := rev (to_le_bytes n z).

Definition encode_entry (entry : Listener) : list byte :=
  [byte_of (l_protocol entry); byte_of (l_families entry)] ++ to_be_bytes 2 (l_port entry).

Definition encode (self : ListenerTable) : list byte :=
  let entries := merge_sort listener_le self in
  let announced := len entries in
  let count := Z.min announced MAX_ANNOUNCED in
  let flags := if MAX_ANNOUNCED <? announced then FLAG_OMITTED else 0 in
  MAGIC ++ [byte_of VERSION] ++ [byte_of flags] ++ to_be_bytes 2 count ++ concat (encode_entry <$> ztake count entries).

(** ** Socket tables (table.rs) *)

Definition ROW_LENGTH_LIMIT : Z := 511.
Definition ROW_NUMBER_END : byte := byte_of 58.
Definition PORT_SEPARATOR : byte := byte_of 58.
Definition ADDRESS_COLUMN_LIMIT : Z := 63.
Definition REJECTED_BYTES : list Z := [0; 11].
Definition SKIPPED_COLUMNS : nat := 3.
Definition UNUSED_DECIMAL_COLUMNS : nat := 2.

Record SocketTableRow := mkSocketTableRow { r_local : list byte; r_remote : list byte; r_state : Z; r_inode : Z }.

(** [Iterator::next]. *)
Definition next {A} (l : list A) : option (A * list A) := match l with x :: l => Some (x, l) | [] => None end.

(** [slice::strip_suffix] of one byte. *)
Definition strip_suffix (c : byte) (text : list byte) : option (list byte) :=
  b ← last text; if is_byte c b then Some (take (length text - 1) text) else None.

(** The decimal columns that are checked but not used. *)
Fixpoint skip_decimals (n : nat) (columns : list (list byte)) : option (list (list byte)) :=
  match n with
  | O => Some columns
  | S n => '(column, columns) ← next columns; _ ← parse_decimal column; skip_decimals n columns
  end.

Definition parse_row (line : list byte) : option SocketTableRow :=
  if existsb (fun b => existsb (Z.eqb (byte_val b)) REJECTED_BYTES) line then None
  else
    let columns := List.filter (fun column => negb (is_empty column)) (split_on is_ascii_whitespace line) in
    '(number, columns) ← next columns;
    number ← strip_suffix ROW_NUMBER_END number;
    _ ← parse_decimal number;
    '(local, columns) ← next columns;
    if ADDRESS_COLUMN_LIMIT <? len local then None
    else
      '(remote, columns) ← next columns;
      if ADDRESS_COLUMN_LIMIT <? len remote then None
      else
        '(state, columns) ← next columns;
        state ← parse_hexadecimal state;
        if U32_MAX <? state then None
        else
          columns ← skip_decimals UNUSED_DECIMAL_COLUMNS (drop SKIPPED_COLUMNS columns);
          '(inode, _) ← next columns;
          inode ← parse_decimal inode;
          Some (mkSocketTableRow local remote state inode).

(** The part of [column] after its last separator, with the part before it. *)
Definition split_port (column : list byte) : option (list byte * list byte) :=
  from_end ← position (is_byte PORT_SEPARATOR) (rev column);
  let separator := len column - 1 - from_end in
  Some (ztake separator column, zdrop (separator + 1) column).

(** [read_row]: the next row and the reader after it, [None] at the end or after an error. *)
Definition read_row (reader : Reader) : option (list byte * Reader) :=
  let limited := ztake ROW_LENGTH_LIMIT (rest reader) in
  match position (is_byte NEWLINE) limited with
  | Some i => Some (ztake (i + 1) limited, mkReader (zdrop (i + 1) (rest reader)) (fails reader))
  | None =>
      if (len limited <? ROW_LENGTH_LIMIT) && fails reader then None
      else if len limited =? 0 then None
      else Some (limited, mkReader (zdrop (len limited) (rest reader)) (fails reader))
  end.

(** One row of [scan]. *)
Definition scan_row (protocol : Z) (ipv6 : bool) (own_port : Z) (addresses : AddressContext) (line : list byte)
    (state : ListenerTable * list UdpSocket) : ListenerTable * list UdpSocket :=
  let '(listeners, udp_sockets) := state in
  match parse_row line with
  | None => state
  | Some row =>
      match split_port (r_local row), split_port (r_remote row) with
      | Some (local_address, local_port), Some (remote_address, remote_port) =>
          match parse_hexadecimal local_port with
          | None => state
          | Some port =>
              if (U16_MAX <? port) || (port =? 0) then state
              else
                match (if protocol =? PROTOCOL_TCP then if r_state row =? TCP_LISTEN then Some false else None
                       else if r_state row =? UDP_CONNECTED then Some true
                       else if negb (r_state row =? UDP_UNCONNECTED) || negb (bool_decide (parse_hexadecimal remote_port = Some 0))
                               || existsb (fun b => negb (byte_val b =? 48)) remote_address || (port =? own_port)
                            then None else Some false) with
                | None => state
                | Some connected =>
                    let families := reachable_families addresses local_address ipv6 protocol port in
                    if families =? 0 then state
                    else if protocol =? PROTOCOL_TCP then (add protocol port families listeners, udp_sockets)
                    else if len udp_sockets <? MAX_TRACKED
                         then (listeners, udp_sockets ++ [mkUdpSocket port families connected (r_inode row)]) else state
                end
          end
      | _, _ => state
      end
  end.

(** The rows of a table, in at most [rounds] reads. *)
Fixpoint scan_rows (rounds : nat) (reader : Reader) (protocol : Z) (ipv6 : bool) (own_port : Z) (addresses : AddressContext)
    (state : ListenerTable * list UdpSocket) : option (ListenerTable * list UdpSocket) :=
  match rounds with
  | O => None
  | S rounds =>
      match read_row reader with
      | None => Some state
      | Some (line, reader) => scan_rows rounds reader protocol ipv6 own_port addresses (scan_row protocol ipv6 own_port addresses line state)
      end
  end.

(** [table::scan]; [None] would be rounds that do not suffice. *)
Definition scan (reader : Reader) (protocol : Z) (ipv6 : bool) (own_port : Z) (addresses : AddressContext)
    (state : ListenerTable * list UdpSocket) : option (ListenerTable * list UdpSocket) :=
  match read_row reader with
  | None => Some state
  | Some (_, reader) => scan_rows (S (length (rest reader))) reader protocol ipv6 own_port addresses state
  end.

(** ** The collector (collect.rs) *)

Definition SOCKET_TABLES : list (string * Z * bool) :=
  [("/net/tcp", PROTOCOL_TCP, false); ("/net/tcp6", PROTOCOL_TCP, true); ("/net/udp", PROTOCOL_UDP, false); ("/net/udp6", PROTOCOL_UDP, true)]%string.
Definition BINDV6ONLY_FILE : string := "/sys/net/ipv6/bindv6only".
Definition IPV6_DUAL_STACK_BY_DEFAULT : bool := true.

Inductive DiagnosticInput := Live (kernel : Diagnostics) | Snapshot.

Record UdpState := mkUdpState { s_port : Z; s_announced : bool; s_inode : Z; s_first_seen_ms : Z }.

(** [Collector], its remembered sockets. *)
Definition Collector : Type := list UdpState.

Record ScanState := mkScanState { sc_addresses : AddressContext; sc_listeners : ListenerTable; sc_udp_sockets : list UdpSocket }.

Definition new_scan (ipv6_dual_stack : bool) (wildcard_tcp : list WildcardListener) : ScanState :=
  mkScanState (mkAddressContext ipv6_dual_stack wildcard_tcp) [] [].

Definition scan_into (self : ScanState) (reader : Reader) (protocol : Z) (ipv6 : bool) (own_port : Z) : option ScanState :=
  '(listeners, udp_sockets) ← scan reader protocol ipv6 own_port (sc_addresses self) (sc_listeners self, sc_udp_sockets self);
  Some (mkScanState (sc_addresses self) listeners udp_sockets).

(** [u64::wrapping_sub]. *)
Definition wrapping_sub (a b : Z) : Z := (a - b) mod 2 ^ 64.

(** One socket of [finish]: the state that it leaves, if any. *)
Definition settle (self : Collector) (now : Z) (socket : UdpSocket) : option UdpState :=
  let previous := List.find (fun state => (s_port state =? u_port socket) && (s_inode state =? u_inode socket)) self in
  let first_seen_ms := match previous with Some state => s_first_seen_ms state | None => now end in
  if match previous with Some state => s_announced state | None => false end
  then Some (mkUdpState (u_port socket) true (u_inode socket) first_seen_ms)
  else if u_connected socket then None
  else Some (mkUdpState (u_port socket) (UDP_SETTLE_MS <=? wrapping_sub now first_seen_ms) (u_inode socket) first_seen_ms).

(** The loop of [finish]. *)
Fixpoint settle_all (self : Collector) (now : Z) (sockets : list UdpSocket) (next : Collector) (listeners : ListenerTable) :
    Collector * ListenerTable :=
  match sockets with
  | [] => (next, listeners)
  | socket :: sockets =>
      match settle self now socket with
      | None => settle_all self now sockets next listeners
      | Some state =>
          settle_all self now sockets (next ++ [state])
            (if s_announced state then add PROTOCOL_UDP (u_port socket) (u_families socket) listeners else listeners)
      end
  end.

Definition finish (self : Collector) (scan : ScanState) (now : Z) : Collector * list byte :=
  let '(next, listeners) := settle_all self now (sc_udp_sockets scan) [] (sc_listeners scan) in
  (next, encode listeners).

(** The tables that can be opened, in their order. *)
Fixpoint scan_tables (files : Files) (root : list byte) (own_port : Z) (tables : list (string * Z * bool)) (scan : ScanState) : option ScanState :=
  match tables with
  | [] => Some scan
  | (table, protocol, ipv6) :: tables =>
      scan ← match bounded_path root (bytes_of table) PATH_BUFFER_SIZE with
             | None => Some scan
             | Some path => match files path with None => Some scan | Some file => scan_into scan file protocol ipv6 own_port end
             end;
      scan_tables files root own_port tables scan
  end.

Definition collect_files (self : Collector) (files : Files) (root : list byte) (diagnostics : DiagnosticInput) (own_port now : Z)
    (ipv6_dual_stack : bool) : option (Collector * list byte) :=
  wildcard_tcp ← match diagnostics with Live kernel => query_live kernel | Snapshot => query_snapshot files root end;
  scan ← scan_tables files root own_port SOCKET_TABLES (new_scan ipv6_dual_stack wildcard_tcp);
  Some (finish self scan now).

Definition read_bindv6only (files : Files) (root : list byte) (default : bool) : bool :=
  match bounded_path root (bytes_of BINDV6ONLY_FILE) PATH_BUFFER_SIZE with
  | None => default
  | Some path => match read_decimal_file files path with Value value => value =? 0 | Missing | Malformed => default end
  end.

(** ** The sender (sender.rs) *)

(** The operating system, as the trait [System] gives it. *)
Class System (S : Type) := {
  ignore_signals : S -> S;
  dual_stack : S -> bool * S;
  open_socket : S -> result Errno unit * S;
  bind : Z -> S -> result Errno unit * S;
  inherit_socket : S -> result Errno Z * S;
  now_ms : S -> Z * S;
  collect : Z -> Z -> bool -> S -> list byte * S;
  send : Z -> list byte -> S -> bool * S;
  sleep_ms : Z -> S -> S;
}.

Inductive SenderError := ESocket (errno : Errno) | EBind (errno : Errno) | ENoPrivilegedPort | EInherited (errno : Errno) | EUnprivilegedPort (port : Z).
Inductive Source := Bound | Inherited.

Section sender.
Context {S : Type} `{!System S}.

Definition bind_privileged_port (system : S) : result SenderError Z * S :=
  match bind_privileged bind system with
  | (Ok (Some port), system) => (Ok port, system)
  | (Ok None, system) => (Err ENoPrivilegedPort, system)
  | (Err errno, system) => (Err (EBind errno), system)
  end.

Definition own_port_of (source : Source) (system : S) : result SenderError Z * S :=
  match source with
  | Bound => match open_socket system with
             | (Ok tt, system) => bind_privileged_port system
             | (Err errno, system) => (Err (ESocket errno), system)
             end
  | Inherited => match inherit_socket system with
                 | (Ok port, system) =>
                     if (LAST_SOURCE_PORT <=? port) && (port <=? FIRST_SOURCE_PORT) then (Ok port, system) else (Err (EUnprivilegedPort port), system)
                 | (Err errno, system) => (Err (EInherited errno), system)
                 end
  end.

(** A scan as it happened: its time, its announcement, and whether a send of it succeeded, if one
    was tried. *)
Record Scan := mkScan { scan_now : Z; scan_payload : list byte; scan_sent : option bool }.

(** The loop, for [scans] scans; the code's own limit ends it only in tests. *)
Fixpoint send_scans (scans : nat) (destination own_port : Z) (ipv6_dual_stack : bool) (last_payload : list byte) (last_sent : Z) (system : S) : list Scan * S :=
  match scans with
  | O => ([], system)
  | Datatypes.S scans =>
      let '(now, system) := now_ms system in
      let '(payload, system) := collect own_port now ipv6_dual_stack system in
      let due := negb (bool_decide (payload = last_payload)) || (REFRESH_INTERVAL_MS <=? wrapping_sub now last_sent) in
      let '(sent, system) := if due then let '(ok, system) := send destination payload system in (Some ok, system) else (None, system) in
      let accepted := bool_decide (sent = Some true) in
      let system := sleep_ms SCAN_INTERVAL_MS system in
      let '(more, system) :=
        send_scans scans destination own_port ipv6_dual_stack (if accepted then payload else last_payload) (if accepted then now else last_sent) system in
      (mkScan now payload sent :: more, system)
  end.

Definition run_with (scans : nat) (destination : Z) (source : Source) (system : S) : result SenderError (Z * list Scan) * S :=
  let system := ignore_signals system in
  let '(ipv6_dual_stack, system) := dual_stack system in
  match own_port_of source system with
  | (Err error, system) => (Err error, system)
  | (Ok own_port, system) =>
      let '(trace, system) := send_scans scans destination own_port ipv6_dual_stack [] 0 system in (Ok (own_port, trace), system)
  end.
End sender.
