(* ===== verification/IngressFacts.v ===== *)
(** * What the announcer announces (src/nvx-rs/src/guest/ingress/)

    The announcement of a table, and the settling of UDP sockets over a history of scans. *)

From stdpp Require Import sorting.
From S2P Require Import Prelude Cmdline Lowering AddressText GuestText SockDiag Ingress.

(** ** Tables *)

Definition key_of (l : Listener) : Z * Z := (l_protocol l, l_port l).

(** The families that a table has for a key. *)
Fixpoint families_at (key : Z * Z) (t : ListenerTable) : option Z :=
  match t with
  | [] => None
  | l :: t => if bool_decide (key_of l = key) then Some (l_families l) else families_at key t
  end.

Lemma has_key_spec protocol port l : has_key protocol port l = bool_decide (key_of l = (protocol, port)).
Proof.
  unfold has_key, key_of. destruct (Z.eqb_spec (l_protocol l) protocol), (Z.eqb_spec (l_port l) port); cbn [andb]; symmetry;
    first [apply bool_decide_eq_true; congruence | apply bool_decide_eq_false; congruence].
Qed.

Lemma families_at_elem key t f : families_at key t = Some f -> exists l, l ∈ t /\ key_of l = key /\ l_families l = f.
Proof.
  induction t as [|l t IH]; cbn [families_at]; [done|]. case_bool_decide as E; [intros [= <-]; exists l; by split_and!; [left|..]|].
  intros H. destruct (IH H) as (l' & ? & ? & ?). exists l'. by split_and!; [right|..].
Qed.

Lemma families_at_none key t : families_at key t = None <-> key ∉ (key_of <$> t).
Proof.
  induction t as [|l t IH]; cbn [families_at fmap list_fmap]; [split; [intros _ H; by apply elem_of_nil in H|done]|].
  rewrite not_elem_of_cons, <- IH. case_bool_decide as E; split; naive_solver.
Qed.

Lemma families_at_in t l : NoDup (key_of <$> t) -> l ∈ t -> families_at (key_of l) t = Some (l_families l).
Proof.
  induction t as [|l' t IH]; intros Hd Hl; [by apply elem_of_nil in Hl|]. cbn [fmap list_fmap] in Hd. apply NoDup_cons in Hd as [Hn Hd].
  apply elem_of_cons in Hl as [->|Hl]; cbn [families_at]; [by rewrite bool_decide_eq_true_2|].
  rewrite bool_decide_eq_false_2; [by apply IH|]. intros E. apply Hn. rewrite E. by apply list_elem_of_fmap_2.
Qed.

(** The effect of [update_first] on a table. *)
Lemma update_first_table protocol port families t :
  match update_first (has_key protocol port) (fun l => mkListener (l_protocol l) (Z.lor (l_families l) families) (l_port l)) t with
  | Some t' => (exists f, families_at (protocol, port) t = Some f) /\ key_of <$> t' = key_of <$> t
               /\ (forall key, families_at key t' = if bool_decide (key = (protocol, port)) then (fun f => Z.lor f families) <$> families_at key t else families_at key t)
  | None => families_at (protocol, port) t = None
  end.
Proof.
  induction t as [|l t IH]; [done|]. cbn [update_first families_at]. rewrite has_key_spec. case_bool_decide as E.
  - split; [by eexists|]. split; [done|]. intros key. cbn [families_at]. change (key_of {| l_protocol := _; l_families := _; l_port := _ |}) with (key_of l).
    rewrite E. destruct (decide (key = (protocol, port))) as [->|Hk]; [by rewrite !bool_decide_eq_true_2|].
    rewrite !bool_decide_eq_false_2 by congruence. done.
  - destruct (update_first _ _ t) as [t'|]; cbn [fmap option_fmap option_map]; [|done]. destruct IH as (Hf & Hk & Ha).
    split; [done|]. split; [cbn [fmap list_fmap]; by f_equal|]. intros key. cbn [families_at]. rewrite Ha.
    repeat case_bool_decide; subst; done.
Qed.

(** The invariant of a table: its keys are distinct, and it is bounded. *)
Definition table_ok (t : ListenerTable) : Prop := NoDup (key_of <$> t) /\ len t <= MAX_TRACKED.

Lemma families_at_app key t l : families_at key (t ++ [l]) = match families_at key t with Some f => Some f | None => families_at key [l] end.
Proof. induction t as [|l' t IH]; [done|]. cbn [app families_at]. case_bool_decide; [done|apply IH]. Qed.

Lemma add_ok protocol port families t : table_ok t -> table_ok (add protocol port families t).
Proof.
  intros [Hd Hl]. unfold add. pose proof (update_first_table protocol port families t) as H. destruct (update_first _ _ t) as [t'|].
  - destruct H as (_ & Hk & _). split; [by rewrite Hk|]. assert (length t' = length t) as E; [|unfold len in *; lia].
    apply (f_equal length) in Hk. by rewrite !length_fmap in Hk.
  - destruct (Z.ltb_spec (len t) MAX_TRACKED); [|done]. split; [|len_lia]. rewrite fmap_app. apply NoDup_app. split; [done|].
    split; [|apply NoDup_singleton]. intros key Hin Hk. apply families_at_none in H. cbn in Hk. apply list_elem_of_singleton in Hk. by subst.
Qed.

Lemma add_families protocol port families t key : families_at key (add protocol port families t) =
  if bool_decide (key = (protocol, port)) then
    match families_at key t with Some f => Some (Z.lor f families) | None => if len t <? MAX_TRACKED then Some families else None end
  else families_at key t.
Proof.
  unfold add. pose proof (update_first_table protocol port families t) as H. destruct (update_first _ _ t) as [t'|].
  - destruct H as ([f Hf] & _ & ->). case_bool_decide as E; [|done]. subst. by rewrite Hf.
  - destruct (Z.ltb_spec (len t) MAX_TRACKED).
    + rewrite families_at_app. case_bool_decide as E; [subst; rewrite H|].
      * cbn [families_at]. by rewrite bool_decide_eq_true_2.
      * cbn [families_at]. rewrite (bool_decide_eq_false_2 (key_of _ = key)) by (intros Ek; apply E; by rewrite <- Ek). by destruct (families_at key t).
    + case_bool_decide as E; [subst; by rewrite H|done].
Qed.

(** What a scan adds: a protocol, a port and its families. *)
Definition add_all (adds : list (Z * Z * Z)) (t : ListenerTable) : ListenerTable :=
  foldl (fun t a => add a.1.1 a.1.2 a.2 t) t adds.

(** All families of a key. *)
Definition union_of (key : Z * Z) (adds : list (Z * Z * Z)) : Z := foldl (fun f a => if bool_decide (a.1 = key) then Z.lor f a.2 else f) 0 adds.

(** The distinct keys. *)
Definition keys_of (adds : list (Z * Z * Z)) : list (Z * Z) := remove_dups (fst <$> adds).

Lemma add_all_ok adds t : table_ok t -> table_ok (add_all adds t).
Proof. revert t. induction adds as [|a adds IH]; intros t H; [done|]. apply IH. by apply add_ok. Qed.

Lemma add_all_snoc adds a t : add_all (adds ++ [a]) t = add a.1.1 a.1.2 a.2 (add_all adds t).
Proof. unfold add_all. by rewrite foldl_app. Qed.

Lemma union_snoc key adds a : union_of key (adds ++ [a]) = if bool_decide (a.1 = key) then Z.lor (union_of key adds) a.2 else union_of key adds.
Proof. unfold union_of. by rewrite foldl_app. Qed.

(** Within the bound, the table has exactly the keys that were added, each with all its families. *)
Lemma add_all_families adds : len (keys_of adds) <= MAX_TRACKED -> forall key,
  families_at key (add_all adds []) = if bool_decide (key ∈ (fst <$> adds)) then Some (union_of key adds) else None.
Proof.
  intros Hn.
  assert (forall t, table_ok t -> (forall key, key ∈ (key_of <$> t) -> key ∈ (fst <$> adds)) -> len t <= len (keys_of adds)) as Hsmall.
  { intros t [Hd _] Hin. unfold keys_of, len. rewrite <- (length_fmap key_of). apply inj_le. apply submseteq_length. apply NoDup_submseteq; [done|].
    intros key Hk. apply elem_of_remove_dups. auto. }
  enough (forall done todo, adds = done ++ todo -> forall key,
    families_at key (add_all done []) = if bool_decide (key ∈ (fst <$> done)) then Some (union_of key done) else None) as H.
  { intros key. apply (H adds []). by rewrite app_nil_r. }
  induction done as [|a done IH] using rev_ind; intros todo E key; [by rewrite bool_decide_eq_false_2 by apply not_elem_of_nil|].
  rewrite <- app_assoc in E. specialize (IH _ E). rewrite add_all_snoc, add_families, union_snoc, fmap_app.
  assert (a.1 = (a.1.1, a.1.2)) as Ea by by destruct a as [[] ?].
  destruct (decide (key = a.1)) as [->|Hk].
  - rewrite bool_decide_eq_true_2 by done. rewrite !(bool_decide_eq_true_2 (a.1 = _)) by done.
    rewrite (bool_decide_eq_true_2 (a.1 ∈ _)) by (apply elem_of_app; right; by left). rewrite IH. case_bool_decide as Hin; [done|].
    assert (union_of a.1 done = 0) as ->.
    { clear -Hin. induction done as [|b done IH] using rev_ind; [done|]. rewrite union_snoc. rewrite fmap_app, elem_of_app in Hin.
      rewrite bool_decide_eq_false_2; [apply IH; tauto|]. intros E. apply Hin. right. cbn. rewrite E. by left. }
    destruct (Z.ltb_spec (len (add_all done [])) MAX_TRACKED) as [|Hfull]; [done|]. exfalso.
    assert (table_ok (add_all done [])) as Hok by (apply add_all_ok; split; [constructor|done]).
    assert (forall k, k ∈ (key_of <$> add_all done []) -> k ∈ (fst <$> done)) as Hkeys.
    { intros k Hk. destruct (decide (k ∈ (fst <$> done))) as [|Hno]; [done|]. specialize (IH k). rewrite bool_decide_eq_false_2 in IH by done.
      by apply families_at_none in IH. }
    assert (len (a.1 :: (key_of <$> add_all done [])) <= len (keys_of adds)) as Hle.
    { unfold len. apply inj_le, submseteq_length, NoDup_submseteq.
      - apply NoDup_cons. split; [intros H; by apply Hin, Hkeys|apply Hok].
      - intros k Hk. apply elem_of_remove_dups. rewrite E, !fmap_app. apply elem_of_cons in Hk as [->|Hk]; [apply elem_of_app; right; by left|].
        apply elem_of_app. left. auto. }
    rewrite len_cons in Hle. unfold len in Hle, Hfull, Hn |- *. rewrite length_fmap in Hle. unfold len in *. lia.
  - rewrite (bool_decide_eq_false_2 (key = _)) by congruence. rewrite (bool_decide_eq_false_2 (a.1 = key)) by done. rewrite IH.
    repeat case_bool_decide; try done; exfalso.
    + match goal with H : ~ (key ∈ _ ++ _) |- _ => apply H, elem_of_app; by left end.
    + match goal with H : key ∈ _ ++ _ |- _ => apply elem_of_app in H as [H|H]; [done|]; cbn in H; apply list_elem_of_singleton in H; done end.
Qed.

(** ** Announcements *)

#[export] Instance listener_le_total : Total listener_le.
Proof. intros a b. unfold listener_le. lia. Qed.
#[export] Instance listener_le_trans : Transitive listener_le.
Proof. intros a b c. unfold listener_le. lia. Qed.

Definition listener_lt (a b : Listener) : Prop := l_protocol a < l_protocol b \/ l_protocol a = l_protocol b /\ l_port a < l_port b.

(** A reader of the documented format: whether listeners were omitted, and the entries. *)
Fixpoint read_entries (count : nat) (bytes : list byte) : option (list Listener) :=
  match count, bytes with
  | O, [] => Some []
  | S count, protocol :: families :: high :: low :: bytes =>
      entries ← read_entries count bytes;
      Some (mkListener (byte_val protocol) (byte_val families) (byte_val high * 256 + byte_val low) :: entries)
  | _, _ => None
  end.

Definition read_announcement (payload : list byte) : option (bool * list Listener) :=
  match strip_prefix (MAGIC ++ [byte_of VERSION]) payload with
  | Some (flags :: high :: low :: bytes) =>
      entries ← read_entries (Z.to_nat (byte_val high * 256 + byte_val low)) bytes; Some (negb (byte_val flags =? 0), entries)
  | _ => None
  end.

Definition listener_fits (l : Listener) : Prop := 0 <= l_protocol l < 256 /\ 0 <= l_families l < 256 /\ is_u16 (l_port l).

Lemma be_bytes_2 z : to_be_bytes 2 z = [byte_of (z / 256); byte_of z].
Proof. done. Qed.

Lemma be_value z : is_u16 z -> byte_val (byte_of (z / 256)) * 256 + byte_val (byte_of z) = z.
Proof. intros H. rewrite !byte_val_of. unfold is_u16, U16_MAX in H. pose proof (Z.div_mod z 256 ltac:(lia)). rewrite (Z.mod_small (z / 256)); [lia|]. split; [apply Z.div_pos; lia|apply Z.div_lt_upper_bound; lia]. Qed.

Lemma announced_entries_read entries : Forall listener_fits entries -> read_entries (length entries) (concat (encode_entry <$> entries)) = Some entries.
Proof.
  induction entries as [|[p f q] entries IH]; intros H; [done|]. apply Forall_cons in H as [(Hp & Hf & Hq) H]. cbn [fmap list_fmap concat length].
  unfold encode_entry at 1. cbn [l_protocol l_families l_port] in *. rewrite be_bytes_2. cbn [app read_entries]. rewrite IH by done. cbn [mbind option_bind].
  rewrite be_value by done. rewrite !byte_val_of, !Z.mod_small by lia. done.
Qed.

Lemma len_encode_entries entries : len (concat (encode_entry <$> entries)) = 4 * len entries.
Proof. induction entries as [|e entries IH]; [done|]. cbn [fmap list_fmap concat]. rewrite len_app, IH, len_cons. unfold encode_entry. rewrite be_bytes_2. cbn [app]. rewrite !len_cons, len_nil. lia. Qed.

Lemma sorted_keys t : NoDup (key_of <$> t) -> StronglySorted listener_lt (merge_sort listener_le t).
Proof.
  intros Hd. assert (NoDup (key_of <$> merge_sort listener_le t)) as Hd' by by rewrite merge_sort_Permutation.
  pose proof (StronglySorted_merge_sort listener_le t) as Hs. revert Hd' Hs. generalize (merge_sort listener_le t) as l. clear.
  induction l as [|a l IH]; intros Hd Hs; [constructor|]. cbn [fmap list_fmap] in Hd. apply NoDup_cons in Hd as [Hn Hd]. inversion_clear Hs. constructor; [auto|].
  apply Forall_forall. intros b Hb. rewrite Forall_forall in H0. specialize (H0 b Hb). unfold listener_le, listener_lt in *.
  assert (key_of a <> key_of b) as Hne by (intros E; apply Hn; rewrite E; by apply list_elem_of_fmap_2).
  unfold key_of in Hne. destruct (decide (l_port a = l_port b)) as [E|]; [|lia]. rewrite E in Hne. assert (l_protocol a <> l_protocol b) by congruence. lia.
Qed.

Lemma sorted_split (l : list Listener) n : StronglySorted listener_lt l -> forall a b, a ∈ ztake n l -> b ∈ zdrop n l -> listener_lt a b.
Proof.
  intros Hs. rewrite <- (ztake_zdrop n l) in Hs. revert Hs. generalize (ztake n l) as k, (zdrop n l) as m. clear. induction k as [|x k IH]; intros m Hs a b Ha Hb; [by apply elem_of_nil in Ha|].
  cbn in Hs. inversion_clear Hs. apply elem_of_cons in Ha as [->|Ha]; [|eauto]. rewrite Forall_forall in H0. apply H0. apply elem_of_app. by right.
Qed.

Lemma sorted_take (l : list Listener) n : StronglySorted listener_lt l -> StronglySorted listener_lt (ztake n l).
Proof.
  intros Hs. rewrite <- (ztake_zdrop n l) in Hs. revert Hs. generalize (ztake n l) as k, (zdrop n l) as m. clear. induction k as [|x k IH]; intros m Hs; [constructor|].
  cbn in Hs. inversion_clear Hs. constructor; [eauto|]. by apply Forall_app in H0 as [? _].
Qed.

(** What a payload announces of a table: its lowest entries in strict order, and whether others are
    omitted. *)
Definition announces (t : ListenerTable) (payload : list byte) : Prop :=
  exists entries, read_announcement payload = Some (MAX_ANNOUNCED <? len t, entries)
    /\ len entries = Z.min (len t) MAX_ANNOUNCED /\ len payload = HEADER_LENGTH + ENTRY_LENGTH * len entries
    /\ StronglySorted listener_lt entries /\ entries ⊆ t
    /\ forall l, l ∈ t -> (l ∉ entries) -> forall e, e ∈ entries -> listener_lt e l.

Lemma encode_announces t : NoDup (key_of <$> t) -> Forall listener_fits t -> announces t (encode t).
Proof.
  intros Hd Hf. set (sorted := merge_sort listener_le t). set (count := Z.min (len t) MAX_ANNOUNCED).
  assert (len sorted = len t) as Hlen by (unfold len, sorted; by rewrite merge_sort_Permutation).
  pose proof (len_nonneg t) as Hpos. assert (0 <= count <= 64) as Hc by (unfold count, MAX_ANNOUNCED; lia).
  assert (len (ztake count sorted) = count) as Hlt by (rewrite len_ztake, Hlen; unfold count; lia).
  exists (ztake count sorted). assert (Forall listener_fits sorted) as Hfs by (unfold sorted; by rewrite merge_sort_Permutation).
  assert (Forall listener_fits (ztake count sorted)) as Hft by (rewrite <- (ztake_zdrop count sorted) in Hfs; by apply Forall_app in Hfs as [? _]).
  unfold encode. fold sorted. rewrite Hlen. fold count. split_and!.
  - unfold read_announcement. rewrite app_assoc. rewrite (proj2 (strip_prefix_some _ _ _) eq_refl). rewrite be_bytes_2. cbn [app].
    rewrite be_value by (unfold is_u16, U16_MAX; lia). replace (Z.to_nat count) with (length (ztake count sorted)) by (unfold len in Hlt; lia).
    rewrite announced_entries_read by done. cbn [mbind option_bind]. do 3 f_equal. destruct (MAX_ANNOUNCED <? len t); done.
  - done.
  - rewrite !len_app, be_bytes_2, len_encode_entries, Hlt, !len_cons, !len_nil. change (len MAGIC) with 4. unfold HEADER_LENGTH, ENTRY_LENGTH. lia.
  - apply sorted_take. by apply sorted_keys.
  - intros l Hl. assert (l ∈ sorted) as Hs by (rewrite <- (ztake_zdrop count sorted); apply elem_of_app; by left). unfold sorted in Hs. by rewrite merge_sort_Permutation in Hs.
  - intros l Hl Hn e He. apply (sorted_split sorted count); [by apply sorted_keys|done|]. assert (l ∈ sorted) as Hs by (unfold sorted; by rewrite merge_sort_Permutation).
    rewrite <- (ztake_zdrop count sorted) in Hs. apply elem_of_app in Hs as [|]; [done|done].
Qed.

Lemma add_all_fits adds : Forall (fun a => 0 <= a.1.1 < 256 /\ is_u16 a.1.2 /\ 0 <= a.2 < 256) adds -> forall t, Forall listener_fits t -> Forall listener_fits (add_all adds t).
Proof.
  induction adds as [|[[p q] f] adds IH]; intros Ha t Ht; [done|]. apply Forall_cons in Ha as [(Hp & Hq & Hf) Ha]. cbn [fst snd] in *. apply IH; [done|]. cbn [fst snd]. unfold add.
  assert (forall g, 0 <= g < 256 -> 0 <= Z.lor g f < 256) as Hor.
  { intros g Hg. change 256 with (2 ^ 8) in *. split; [apply Z.lor_nonneg; lia|]. destruct (Z.eq_dec (Z.lor g f) 0) as [->|]; [done|]. apply Z.log2_lt_pow2; [pose proof (Z.lor_nonneg g f); lia|].
    rewrite Z.log2_lor by lia. apply Z.max_lub_lt; (destruct (Z.eq_dec g 0) as [->|]; [|]; destruct (Z.eq_dec f 0) as [->|]); cbn; try lia; apply Z.log2_lt_pow2; lia. }
  destruct (update_first _ _ t) as [t'|] eqn:E.
  - clear -Ht E Hor. revert t' E. induction t as [|l t IH]; intros t' E; [done|]. apply Forall_cons in Ht as [(H1 & H2 & H3) Ht]. cbn [update_first] in E.
    destruct (has_key p q l); [injection E as <-; constructor; [split; [done|]; split; [by apply Hor|done]|done]|].
    destruct (update_first _ _ t); [|done]. injection E as <-. constructor; [done|by apply IH].
  - case_match; [|done]. apply Forall_app. split; [done|]. by apply Forall_singleton.
Qed.

(** C31: the announcement of the listeners that scans found, in any order and with any repetitions:
    a reader of the documented format reads back the lowest listeners by protocol and port, at most
    64, each once and with the union of its families, and the flag exactly when others are omitted,
    which are higher; it is at most 264 bytes long. *)
Theorem announcement_exact adds :
  Forall (fun a => 0 <= a.1.1 < 256 /\ is_u16 a.1.2 /\ 0 <= a.2 < 256) adds -> len (keys_of adds) <= MAX_TRACKED ->
  let payload := encode (add_all adds []) in
  exists omitted entries, read_announcement payload = Some (omitted, entries)
    /\ StronglySorted listener_lt entries /\ len entries = Z.min (len (keys_of adds)) 64
    /\ Forall (fun e => key_of e ∈ (fst <$> adds) /\ l_families e = union_of (key_of e) adds) entries
    /\ (forall key, key ∈ (fst <$> adds) -> key ∈ (key_of <$> entries) \/ omitted = true /\ forall e, e ∈ entries -> listener_lt e (mkListener key.1 0 key.2))
    /\ (omitted = true <-> 64 < len (keys_of adds)) /\ len payload <= 264.
Proof.
  intros Ha Hn payload. assert (table_ok (add_all adds [])) as [Hd _] by (apply add_all_ok; split; [constructor|done]).
  pose proof (add_all_families adds Hn) as Hfam.
  assert (forall key, key ∈ (key_of <$> add_all adds []) <-> key ∈ (fst <$> adds)) as Hkeys.
  { intros key. specialize (Hfam key). case_bool_decide as Hin.
    - split; [done|intros _]. destruct (decide (key ∈ (key_of <$> add_all adds []))) as [|Hno]; [done|]. apply families_at_none in Hno. congruence.
    - apply families_at_none in Hfam. tauto. }
  assert (len (add_all adds []) = len (keys_of adds)) as Hlen.
  { unfold len. rewrite <- (length_fmap key_of). f_equal. apply Permutation_length, NoDup_Permutation; [done|apply NoDup_remove_dups|].
    intros key. unfold keys_of. by rewrite elem_of_remove_dups, Hkeys. }
  destruct (encode_announces (add_all adds [])) as (entries & Hread & Hle & Hp & Hs & Hsub & Hlow); [done|by apply add_all_fits|].
  rewrite Hlen in *. unfold MAX_ANNOUNCED in *. exists (64 <? len (keys_of adds)), entries. split_and!; try done.
  - apply Forall_forall. intros e He. pose proof (families_at_in _ e Hd (Hsub e He)) as Hf. rewrite Hfam in Hf. case_bool_decide as Hin; [|done]. split; [done|congruence].
  - intros key Hin. apply Hkeys, list_elem_of_fmap in Hin as (l & -> & Hl). destruct (decide (l ∈ entries)) as [He|He]; [left; by apply list_elem_of_fmap_2|right].
    split; [|intros e Hee; exact (Hlow l Hl He e Hee)]. apply Z.ltb_lt. destruct (Z.lt_ge_cases 64 (len (keys_of adds))) as [|Hsmall]; [done|]. exfalso.
    assert (entries ≡ₚ add_all adds []) as HP; [|by rewrite HP in He].
    apply submseteq_length_Permutation; [|unfold len in *; lia]. apply NoDup_submseteq; [|done]. clear -Hs. induction Hs as [|a l Hs IH Hall]; constructor; [|done].
    intros Hin. rewrite Forall_forall in Hall. specialize (Hall a Hin). unfold listener_lt in Hall. lia.
  - apply Z.ltb_lt.
  - unfold payload. rewrite Hp, Hle. unfold HEADER_LENGTH, ENTRY_LENGTH. lia.
Qed.

Lemma announcement_exact_witness :
  exists omitted entries, read_announcement (encode (add_all [(17, 53, 1); (6, 80, 2); (17, 53, 2)] [])) = Some (omitted, entries)
    /\ entries = [mkListener 6 2 80; mkListener 17 3 53] /\ StronglySorted listener_lt entries.
Proof.
  destruct (announcement_exact [(17, 53, 1); (6, 80, 2); (17, 53, 2)]) as (omitted & entries & Hr & Hs & _);
    [repeat constructor; vm_compute; congruence|vm_compute; congruence|].
  exists omitted, entries. split; [exact Hr|]. split; [|exact Hs]. vm_compute in Hr. congruence.
Defined.

(** ** The settling of UDP sockets *)

Definition Identity : Type := Z * Z.
Definition socket_id (s : UdpSocket) : Identity := (u_port s, u_inode s).
Definition state_id (s : UdpState) : Identity := (s_port s, s_inode s).

(** Past scans, from the first: the time of each, and the sockets that it found. *)
Definition History : Type := list (Z * list UdpSocket).

Definition collector_after (h : History) : Collector := foldl (fun c scan => fst (settle_all c scan.1 scan.2 [] [])) [] h.

(** The socket of an identity in a scan, and the state of one in a collector. *)
Definition seen (id : Identity) (sockets : list UdpSocket) : option UdpSocket := List.find (fun s => bool_decide (socket_id s = id)) sockets.
Definition remembered (id : Identity) (c : Collector) : option UdpState := List.find (fun s => bool_decide (state_id s = id)) c.
Definition is_announced (id : Identity) (c : Collector) : bool := match remembered id c with Some s => s_announced s | None => false end.

Definition is_seen (id : Identity) (sockets : list UdpSocket) : bool := is_some (seen id sockets).
Definition is_open (id : Identity) (sockets : list UdpSocket) : bool := match seen id sockets with Some s => negb (u_connected s) | None => false end.

Lemma find_ext {A} (p q : A -> bool) l : (forall x, p x = q x) -> List.find p l = List.find q l.
Proof. intros H. induction l as [|x l IH]; [done|]. cbn. by rewrite H, IH. Qed.

Lemma settle_remembered c now s : settle c now s =
  if is_announced (socket_id s) c then Some (mkUdpState (u_port s) true (u_inode s) (match remembered (socket_id s) c with Some st => s_first_seen_ms st | None => now end))
  else if u_connected s then None
  else let first := match remembered (socket_id s) c with Some st => s_first_seen_ms st | None => now end in
       Some (mkUdpState (u_port s) (UDP_SETTLE_MS <=? wrapping_sub now first) (u_inode s) first).
Proof.
  unfold settle, is_announced, remembered. rewrite (find_ext (fun state => (s_port state =? u_port s) && (s_inode state =? u_inode s)) (fun state => bool_decide (state_id state = socket_id s))); [done|].
  intros st. unfold state_id, socket_id. destruct (Z.eqb_spec (s_port st) (u_port s)), (Z.eqb_spec (s_inode st) (u_inode s)); cbn [andb]; symmetry;
    first [apply bool_decide_eq_true; congruence | apply bool_decide_eq_false; congruence].
Qed.

Lemma settle_id c now s st : settle c now s = Some st -> state_id st = socket_id s.
Proof. rewrite settle_remembered. destruct (is_announced _ _); [by intros [= <-]|]. destruct (u_connected s); [done|]. by intros [= <-]. Qed.

Lemma settle_all_next c now sockets : forall next listeners, fst (settle_all c now sockets next listeners) = next ++ omap (settle c now) sockets.
Proof.
  induction sockets as [|s sockets IH]; intros next listeners; cbn [settle_all omap list_omap]; [by rewrite app_nil_r|].
  destruct (settle c now s); rewrite IH; [by rewrite <- app_assoc|done].
Qed.

Lemma remembered_settled id c now sockets : NoDup (socket_id <$> sockets) ->
  remembered id (omap (settle c now) sockets) = (s ← seen id sockets; settle c now s).
Proof.
  induction sockets as [|s sockets IH]; intros Hd; [done|]. cbn [fmap list_fmap] in Hd. apply NoDup_cons in Hd as [Hn Hd]. unfold remembered, seen in *. cbn [omap list_omap List.find].
  case_bool_decide as E.
  - cbn [mbind option_bind]. destruct (settle c now s) as [st|] eqn:Es.
    + cbn [List.find]. by rewrite bool_decide_eq_true_2 by (rewrite (settle_id _ _ _ _ Es); done).
    + rewrite IH by done. destruct (List.find _ sockets) as [s'|] eqn:Ef; [|done]. apply List.find_some in Ef as [Hin Hid]. apply bool_decide_eq_true in Hid.
      exfalso. apply Hn. rewrite E, <- Hid. apply list_elem_of_fmap_2. by apply list_elem_of_In.
  - destruct (settle c now s) as [st|] eqn:Es; [|by apply IH]. cbn [List.find]. rewrite bool_decide_eq_false_2 by (rewrite (settle_id _ _ _ _ Es); done). by apply IH.
Qed.

Lemma collector_snoc h scan : collector_after (h ++ [scan]) = omap (settle (collector_after h) scan.1) scan.2.
Proof. unfold collector_after. rewrite foldl_app. cbn [foldl]. by rewrite settle_all_next. Qed.

(** The time since which an identity is open without a break, at the end of a history. *)
Definition open_since (id : Identity) (h : History) : option Z :=
  foldl (fun since scan => if is_open id scan.2 then Some (default scan.1 since) else None) None h.

Lemma open_since_snoc id h scan : open_since id (h ++ [scan]) = if is_open id scan.2 then Some (default scan.1 (open_since id h)) else None.
Proof. unfold open_since. by rewrite foldl_app. Qed.

Definition history_ok (h : History) : Prop := Forall (fun scan => is_u64 scan.1 /\ NoDup (socket_id <$> scan.2)) h /\ Sorted (fun a b => a.1 <= b.1) h.

Lemma history_snoc h scan : history_ok (h ++ [scan]) -> history_ok h /\ is_u64 scan.1 /\ NoDup (socket_id <$> scan.2) /\ Forall (fun past => past.1 <= scan.1) h.
Proof.
  intros [Hf Hs]. apply Forall_app in Hf as [Hf Hl]. apply Forall_singleton in Hl as [Hu Hd]. apply Sorted_StronglySorted in Hs; [|intros a b c ? ?; lia].
  split; [split; [done|]|].
  - clear -Hs. induction h as [|x h IH]; [constructor|]. cbn in Hs. inversion_clear Hs. constructor; [auto|]. destruct h; constructor. rewrite Forall_forall in H0. apply H0. by left.
  - split; [done|]. split; [done|]. clear -Hs. induction h as [|x h IH]; [constructor|]. cbn in Hs. inversion_clear Hs. constructor; [|auto].
    rewrite Forall_forall in H0. apply H0. apply elem_of_app. right. by left.
Qed.

(** What the collector remembers of an identity that it has not announced. *)
Lemma collector_tracks id h : history_ok h -> is_announced id (collector_after h) = false ->
  match remembered id (collector_after h) with
  | Some st => open_since id h = Some (s_first_seen_ms st)
  | None => open_since id h = None
  end.
Proof.
  induction h as [|[now sockets] h IH] using rev_ind; intros Hok; [done|]. apply history_snoc in Hok as (Hok & _ & Hd & _). cbn [fst snd] in *.
  unfold is_announced. rewrite collector_snoc, open_since_snoc. cbn [fst snd]. rewrite remembered_settled by done. unfold is_open.
  destruct (seen id sockets) as [s|] eqn:Es; cbn [mbind option_bind]; [|done].
  assert (socket_id s = id) as Hid by (apply List.find_some in Es as [_ Es]; by apply bool_decide_eq_true in Es).
  rewrite settle_remembered, Hid. destruct (is_announced id (collector_after h)) eqn:Ea; [done|]. specialize (IH Hok eq_refl).
  destruct (u_connected s); cbn [negb]; [done|]. cbn [s_announced s_first_seen_ms]. intros _. destruct (remembered id (collector_after h)); by rewrite IH.
Qed.

Lemma announced_snoc id h scan : history_ok (h ++ [scan]) -> is_announced id (collector_after (h ++ [scan])) =
  is_seen id scan.2 && (is_announced id (collector_after h) || is_open id scan.2 && (UDP_SETTLE_MS <=? wrapping_sub scan.1 (default scan.1 (open_since id h)))).
Proof.
  destruct scan as [now sockets]. intros Hok. apply history_snoc in Hok as (Hok & _ & Hd & _). cbn [fst snd] in *. unfold is_announced at 1. rewrite collector_snoc. cbn [fst snd].
  rewrite remembered_settled by done. unfold is_seen, is_open. destruct (seen id sockets) as [s|] eqn:Es; cbn [mbind option_bind is_some andb]; [|done].
  assert (socket_id s = id) as Hid by (apply List.find_some in Es as [_ Es]; by apply bool_decide_eq_true in Es).
  rewrite settle_remembered, Hid. destruct (is_announced id (collector_after h)) eqn:Ea; [done|]. pose proof (collector_tracks id h Hok Ea) as Ht.
  destruct (u_connected s); cbn [negb orb andb]; [done|]. cbn [s_announced]. destruct (remembered id (collector_after h)); by rewrite Ht.
Qed.

(** An identity is seen, or open, in every scan from one index through another. *)
Definition seen_from (id : Identity) (h : History) (i : nat) : Prop := forall k scan, (i <= k)%nat -> h !! k = Some scan -> is_seen id scan.2 = true.
Definition open_from (id : Identity) (h : History) (i j : nat) : Prop := forall k scan, (i <= k <= j)%nat -> h !! k = Some scan -> is_open id scan.2 = true.

(** A socket has settled: it exists from one scan on, and was open for a second from it. *)
Definition settled (id : Identity) (h : History) : Prop := exists i j first now, (i <= j)%nat
  /\ h !! i = Some first /\ h !! j = Some now /\ seen_from id h i /\ open_from id h i j /\ UDP_SETTLE_MS <= now.1 - first.1.

Lemma open_since_some id h t : open_since id h = Some t -> exists i first, h !! i = Some first /\ first.1 = t /\ open_from id h i (length h).
Proof.
  revert t. induction h as [|scan h IH] using rev_ind; intros t; [done|]. rewrite open_since_snoc. destruct (is_open id scan.2) eqn:Ho; [|done]. intros [= Ht].
  destruct (open_since id h) as [t'|]; cbn [default] in Ht.
  - destruct (IH t' eq_refl) as (i & first & Hi & Hf & Hopen). exists i, first. subst. split; [by apply lookup_app_l_Some|]. split; [done|]. intros k s Hk Hs.
    apply lookup_snoc_Some in Hs as [[Hlt Hs]|[-> <-]]; [|done]. apply (Hopen k s); [lia|done].
  - exists (length h), scan. split; [by apply list_lookup_middle|]. split; [done|]. intros k s Hk Hs.
    apply lookup_snoc_Some in Hs as [[Hlt Hs]|[-> <-]]; [lia|done].
Qed.

Lemma open_since_run id h i first : Sorted (fun a b => a.1 <= b.1) h -> h !! i = Some first -> open_from id h i (length h) -> exists t, open_since id h = Some t /\ t <= first.1.
Proof.
  intros Hs. apply Sorted_StronglySorted in Hs; [|intros a b c ? ?; lia]. revert i first Hs. induction h as [|scan h IH] using rev_ind; intros i first Hs Hi Hopen; [done|].
  rewrite open_since_snoc. pose proof (lookup_lt_Some _ _ _ Hi) as Hlt. rewrite length_app in *. cbn [length] in *.
  rewrite (Hopen (length h) scan) by (first [lia | by apply list_lookup_middle]). eexists. split; [done|].
  apply lookup_snoc_Some in Hi as [[Hi' Hi]|[-> <-]].
  - destruct (IH i first) as (t & -> & Ht); [by apply StronglySorted_app in Hs as (_ & ? & _)|done| |done].
    intros k s Hk Hks. apply (Hopen k s); [lia|]. by apply lookup_app_l_Some.
  - destruct (open_since id h) as [t|] eqn:Et; cbn [default]; [|lia]. apply open_since_some in Et as (k & f & Hk & <- & _).
    apply StronglySorted_app in Hs as (Hall & _). apply (Hall f scan); [by eapply list_elem_of_lookup_2|by left].
Qed.

Lemma wrapping_sub_small now first : is_u64 now -> is_u64 first -> first <= now -> wrapping_sub now first = now - first.
Proof. intros. unfold wrapping_sub. apply Z.mod_small. unfold is_u64, U64_MAX in *. lia. Qed.

Lemma announced_settled id h : history_ok h -> is_announced id (collector_after h) = true <-> settled id h.
Proof.
  induction h as [|scan h IH] using rev_ind; intros Hok; [split; [done|intros (i & j & f & n & _ & Hi & _); done]|].
  pose proof (history_snoc _ _ Hok) as (Hoh & Hu & _ & Hpast). rewrite announced_snoc by done. specialize (IH Hoh). rewrite andb_true_iff, orb_true_iff, IH, andb_true_iff, Z.leb_le. clear IH. split.
  - intros [Hseen [(i & j & f & n & Hij & Hi & Hj & Hs & Ho & Hd)|[Hopen Hage]]].
    + exists i, j, f, n. pose proof (lookup_lt_Some _ _ _ Hj). split_and!; [done|by apply lookup_app_l_Some|by apply lookup_app_l_Some| | |done].
      * intros k s Hk Hks. apply lookup_snoc_Some in Hks as [[Hlt Hks]|[-> <-]]; [by eapply Hs|done].
      * intros k s Hk Hks. apply lookup_snoc_Some in Hks as [[Hlt Hks]|[-> <-]]; [by eapply Ho|lia].
    + assert (open_since id (h ++ [scan]) = Some (default scan.1 (open_since id h))) as Ht by by rewrite open_since_snoc, Hopen.
      apply open_since_some in Ht as (i & f & Hi & Hf & Ho). pose proof (lookup_lt_Some _ _ _ Hi) as Hlt. rewrite length_app in *. cbn [length] in *.
      exists i, (length h), f, scan. rewrite <- Hf in Hage. assert (is_u64 f.1 /\ f.1 <= scan.1) as [Huf Hle].
      { destruct Hok as [Hall _]. rewrite Forall_forall in Hall. split; [apply Hall; by eapply list_elem_of_lookup_2|]. apply lookup_snoc_Some in Hi as [[_ Hi]|[_ <-]]; [|lia].
        rewrite Forall_forall in Hpast. apply Hpast. by eapply list_elem_of_lookup_2. }
      rewrite wrapping_sub_small in Hage by done. split_and!; [lia|done|by apply list_lookup_middle| | |done].
      * intros k s Hk Hks. pose proof (lookup_lt_Some _ _ _ Hks) as Hlk. rewrite length_app in Hlk. cbn in Hlk. assert (is_open id s.2 = true) as Hos by (apply (Ho k s); [lia|done]).
        unfold is_open, is_seen in *. by destruct (seen id s.2).
      * intros k s Hk Hks. apply (Ho k s); [lia|done].
  - intros (i & j & f & n & Hij & Hi & Hj & Hs & Ho & Hd). split; [apply (Hs (length h) scan); [|by apply list_lookup_middle]|].
    { pose proof (lookup_lt_Some _ _ _ Hi) as Hlt. rewrite length_app in Hlt. cbn in Hlt. lia. }
    apply lookup_snoc_Some in Hj as [[Hlt Hj]|[-> <-]].
    + left. exists i, j, f, n. apply lookup_snoc_Some in Hi as [[_ Hi]|[-> _]]; [|lia]. split_and!; try done.
      * intros k s Hk Hks. apply (Hs k s); [done|]. by apply lookup_app_l_Some.
      * intros k s Hk Hks. apply (Ho k s); [done|]. by apply lookup_app_l_Some.
    + right. assert (is_open id scan.2 = true) as Hos by (apply (Ho (length h) scan); [lia|by apply list_lookup_middle]). split; [done|].
      destruct Hok as [Hall Hsort]. assert (open_from id (h ++ [scan]) i (length (h ++ [scan]))) as Hrun.
      { intros k s Hk Hks. pose proof (lookup_lt_Some _ _ _ Hks) as Hlk. rewrite length_app in Hlk. cbn in Hlk. apply (Ho k s); [lia|done]. }
      destruct (open_since_run _ _ _ _ Hsort Hi Hrun) as (t & Ht & Hle). pose proof Ht as Ht'. rewrite open_since_snoc, Hos in Ht. injection Ht as ->.
      apply open_since_some in Ht' as (k & g & Hk & <- & _). rewrite wrapping_sub_small; [lia|done| |].
      * rewrite Forall_forall in Hall. apply Hall. by eapply list_elem_of_lookup_2.
      * apply lookup_snoc_Some in Hk as [[_ Hk]|[_ <-]]; [|lia]. rewrite Forall_forall in Hpast. apply Hpast. by eapply list_elem_of_lookup_2.
Qed.

Lemma seen_self sockets s : NoDup (socket_id <$> sockets) -> s ∈ sockets -> seen (socket_id s) sockets = Some s.
Proof.
  induction sockets as [|s' sockets IH]; intros Hd Hs; [by apply elem_of_nil in Hs|]. cbn [fmap list_fmap] in Hd. apply NoDup_cons in Hd as [Hn Hd]. unfold seen in *. cbn [List.find].
  apply elem_of_cons in Hs as [->|Hs]; [by rewrite bool_decide_eq_true_2|]. rewrite bool_decide_eq_false_2; [by apply IH|]. intros E. apply Hn. rewrite E. by apply list_elem_of_fmap_2.
Qed.

Definition udp_add (s : UdpSocket) : Z * Z * Z := (PROTOCOL_UDP, u_port s, u_families s).

Lemma settle_all_listeners c now sockets : forall next t,
  snd (settle_all c now sockets next t) =
  add_all (udp_add <$> List.filter (fun s => match settle c now s with Some st => s_announced st | None => false end) sockets) t.
Proof.
  induction sockets as [|s sockets IH]; intros next t; [done|]. cbn [settle_all List.filter]. destruct (settle c now s) as [st|]; [|apply IH]. rewrite IH. by destruct (s_announced st).
Qed.

(** C28: over any history of scans whose clock does not go back, a scan announces, next to the TCP
    listeners that it found, exactly the UDP sockets that have settled: those that a scan found open,
    that stayed open for a second from that scan, and that every scan since has found, connected or
    not. A socket that reuses a port, with an inode of its own, settles anew. *)
Theorem udp_settles h now sockets addresses tcp :
  history_ok (h ++ [(now, sockets)]) ->
  exists chosen : UdpSocket -> bool,
    finish (collector_after h) (mkScanState addresses tcp sockets) now
    = (collector_after (h ++ [(now, sockets)]), encode (add_all (udp_add <$> List.filter chosen sockets) tcp))
    /\ forall s, s ∈ sockets -> chosen s = true <-> settled (socket_id s) (h ++ [(now, sockets)]).
Proof.
  intros Hok. exists (fun s => match settle (collector_after h) now s with Some st => s_announced st | None => false end). split.
  - unfold finish. cbn [sc_udp_sockets sc_listeners]. pose proof (settle_all_next (collector_after h) now sockets [] tcp) as Hn.
    pose proof (settle_all_listeners (collector_after h) now sockets [] tcp) as Hl. destruct (settle_all _ _ _ _ _) as [next t]. cbn [fst snd] in *.
    by rewrite collector_snoc, Hn, Hl.
  - intros s Hs. rewrite <- announced_settled by done. pose proof (history_snoc _ _ Hok) as (_ & _ & Hd & _). cbn [fst snd] in *.
    unfold is_announced. rewrite collector_snoc. cbn [fst snd]. rewrite remembered_settled by done. by rewrite (seen_self _ _ Hd Hs).
Qed.

Lemma udp_settles_witness :
  let server := mkUdpSocket 53 1 false 7 in
  exists payload, finish (collector_after [(0, [server])]) (mkScanState (mkAddressContext true []) [] [server]) 1000 = (collector_after [(0, [server]); (1000, [server])], payload)
    /\ read_announcement payload = Some (false, [mkListener 17 1 53]).
Proof.
  cbv zeta. destruct (udp_settles [(0, [mkUdpSocket 53 1 false 7])] 1000 [mkUdpSocket 53 1 false 7] (mkAddressContext true []) []) as (chosen & H & Hc).
  - split; [repeat constructor; try (vm_compute; congruence); intros E; by apply elem_of_nil in E|repeat constructor; cbn; lia].
  - eexists. split; [exact H|]. cbn [List.filter]. rewrite (proj2 (Hc _ ltac:(by left))); [by vm_compute|]. exists 0%nat, 1%nat, (0, [mkUdpSocket 53 1 false 7]), (1000, [mkUdpSocket 53 1 false 7]).
    split_and!; [lia|done|done| | |done]; intros k scan Hk E; (destruct k as [|[|k]]; [injection E as <-; by vm_compute|injection E as <-; by vm_compute|done]).
Defined.
