(* ===== verification/SocketTables.v ===== *)
(** * The kernel's socket tables as the announcer reads them (src/nvx-rs/src/guest/ingress/table.rs)

    The rows of [/proc/net/tcp], [tcp6], [udp] and [udp6] in the form in which the kernel prints
    them, and what a scan of such a table finds. *)

From S2P Require Import Prelude Cmdline Export Lowering AddressText NetworkArguments Endpoints TemplateKey GuestText SockDiag Ingress IngressFacts.

(** ** Rows as the kernel prints them *)

(** [%0nX]. *)
Definition upper_digit (d : Z) : byte := byte_of (if d <? 10 then 48 + d else 55 + d).
Fixpoint upper_hex (n : nat) (value : Z) : list byte :=
  match n with O => [] | S n => upper_hex n (value / 16) ++ [upper_digit (value mod 16)] end.

(** An address, word by word as each lies in memory. *)
Fixpoint address_text (words : nat) (octets : list byte) : list byte :=
  match words with O => [] | S words => upper_hex 8 (from_le_bytes (ztake 4 octets)) ++ address_text words (zdrop 4 octets) end.

Definition address_words (ipv6 : bool) : nat := if ipv6 then 4%nat else 1%nat.

Record KernelSocket := mkKernelSocket {
  k_number : Z; k_local : list byte; k_port : Z; k_remote : list byte; k_remote_port : Z; k_state : Z;
  k_queues : list byte; k_timer : list byte; k_retransmits : list byte; k_uid : Z; k_timeout : Z; k_inode : Z;
  k_more : list (list byte);
}.

Definition COLON_BYTE : byte := byte_of 58.
Definition SPACE : byte := byte_of 32.

Definition endpoint_text (ipv6 : bool) (octets : list byte) (port : Z) : list byte :=
  address_text (address_words ipv6) octets ++ [COLON_BYTE] ++ upper_hex 4 port.

Definition row_columns (ipv6 : bool) (s : KernelSocket) : list (list byte) :=
  [dec (k_number s) ++ [COLON_BYTE]; endpoint_text ipv6 (k_local s) (k_port s); endpoint_text ipv6 (k_remote s) (k_remote_port s);
   upper_hex 2 (k_state s); k_queues s; k_timer s; k_retransmits s; dec (k_uid s); dec (k_timeout s); dec (k_inode s)] ++ k_more s.

(** Columns after [pad] spaces each, of which only the first column may have none. *)
Fixpoint padded (columns : list (nat * list byte)) : list byte :=
  match columns with [] => [] | (pad, column) :: columns => replicate pad SPACE ++ column ++ padded columns end.

(** A line of a table: columns with any padding, spaces up to the width of the line, and a newline. *)
Definition row_text (ipv6 : bool) (pads : list nat) (trailing : nat) (s : KernelSocket) : list byte :=
  padded (zip pads (row_columns ipv6 s)) ++ replicate trailing SPACE ++ [NEWLINE].

(** ** Hexadecimal numbers *)

Definition is_column (column : list byte) : Prop :=
  column <> [] /\ Forall (fun b => is_ascii_whitespace b = false /\ byte_val b <> 0 /\ byte_val b <> 11) column.

Lemma upper_digit_val d : 0 <= d < 16 -> byte_val (upper_digit d) = if d <? 10 then 48 + d else 55 + d.
Proof. intros H. unfold upper_digit. rewrite byte_val_of. apply Z.mod_small. destruct (Z.ltb_spec d 10); lia. Qed.

Lemma upper_digit_value d : 0 <= d < 16 -> to_digit 16 (upper_digit d) = Some d.
Proof.
  intros H. unfold to_digit. rewrite upper_digit_val by done. destruct (Z.ltb_spec d 10).
  - destruct (Z.leb_spec 48 (48 + d)); [|lia]. destruct (Z.leb_spec (48 + d) 57); [|lia]. cbn [andb]. replace (48 + d - 48) with d by lia. by destruct (Z.ltb_spec d 16); [|lia].
  - destruct (Z.leb_spec (55 + d) 57); [lia|]. rewrite andb_false_r. destruct (Z.leb_spec 97 (55 + d)); [lia|]. cbn [andb].
    destruct (Z.leb_spec 65 (55 + d)); [|lia]. destruct (Z.leb_spec (55 + d) 90); [|lia]. cbn [andb]. replace (55 + d - 65 + 10) with d by lia. by destruct (Z.ltb_spec d 16); [|lia].
Qed.

Lemma upper_hex_forall (P : byte -> Prop) n : (forall d, 0 <= d < 16 -> P (upper_digit d)) -> forall value, Forall P (upper_hex n value).
Proof.
  intros HP. induction n as [|n IH]; intros value; [constructor|]. cbn [upper_hex]. apply Forall_app. split; [apply IH|]. apply Forall_singleton, HP. apply Z.mod_pos_bound. lia.
Qed.

Lemma len_upper_hex n value : len (upper_hex n value) = Z.of_nat n.
Proof. revert value. induction n as [|n IH]; intros value; [done|]. cbn [upper_hex]. rewrite len_app, IH, len_cons, len_nil. lia. Qed.

Lemma upper_hex_value n : forall value, 0 <= value < 16 ^ Z.of_nat n -> radix_value 16 (upper_hex n value) = value.
Proof.
  unfold radix_value. induction n as [|n IH]; intros value Hv; [cbn in Hv; cbn; lia|]. cbn [upper_hex]. rewrite foldl_app. cbn [foldl].
  rewrite Nat2Z.inj_succ, Z.pow_succ_r in Hv by lia. rewrite IH by (split; [apply Z.div_pos; lia|apply Z.div_lt_upper_bound; lia]).
  rewrite upper_digit_value by (apply Z.mod_pos_bound; lia). cbn [from_option Datatypes.id]. pose proof (Z.div_mod value 16 ltac:(lia)). lia.
Qed.

Lemma parse_upper_hex n value : (0 < n <= 16)%nat -> 0 <= value < 16 ^ Z.of_nat n -> parse_hexadecimal (upper_hex n value) = Some value.
Proof.
  intros Hn Hv. unfold parse_hexadecimal. assert (is_empty (upper_hex n value) = false) as ->.
  { pose proof (len_upper_hex n value) as Hl. destruct (upper_hex n value); [rewrite len_nil in Hl; lia|done]. }
  assert (forallb (is_digit 16) (upper_hex n value) = true) as ->.
  { apply forallb_forall. apply List.Forall_forall. apply upper_hex_forall. intros d Hd. unfold is_digit. by rewrite upper_digit_value. }
  cbn [orb negb]. unfold from_utf8. rewrite ascii_utf8.
  2: { apply upper_hex_forall. intros d Hd. rewrite upper_digit_val by done. destruct (d <? 10); lia. }
  cbn [mbind option_bind]. unfold from_str_radix. rewrite upper_hex_value by done. destruct (Z.leb_spec value U64_MAX) as [|Hbig]; [done|]. exfalso.
  assert (16 ^ Z.of_nat n <= 16 ^ 16) by (apply Z.pow_le_mono_r; lia). change (16 ^ 16) with (2 ^ 64) in *. unfold U64_MAX in Hbig. lia.
Qed.

Lemma upper_digit_column d : 0 <= d < 16 -> is_ascii_whitespace (upper_digit d) = false /\ byte_val (upper_digit d) <> 0 /\ byte_val (upper_digit d) <> 11.
Proof.
  intros Hd. unfold is_ascii_whitespace. rewrite upper_digit_val by done. split; [|destruct (d <? 10) eqn:E; bool_to_prop; lia].
  apply bool_decide_eq_false. rewrite !elem_of_cons, elem_of_nil. destruct (d <? 10) eqn:E; bool_to_prop; lia.
Qed.

Lemma upper_hex_clean n value : Forall (fun b => is_byte COLON_BYTE b = false) (upper_hex n value).
Proof.
  apply upper_hex_forall. intros d Hd. apply bool_decide_eq_false. intros E. apply (f_equal byte_val) in E. rewrite upper_digit_val in E by done.
  change (byte_val COLON_BYTE) with 58 in E. destruct (d <? 10) eqn:El; bool_to_prop; lia.
Qed.

(** ** Addresses *)

Lemma len_address_text words : forall octets, len (address_text words octets) = 8 * Z.of_nat words.
Proof. induction words as [|words IH]; intros octets; [done|]. cbn [address_text]. rewrite len_app, len_upper_hex, IH. lia. Qed.

Lemma address_read words : forall octets, len octets = 4 * Z.of_nat words -> decode_words words (address_text words octets) = Some octets.
Proof.
  induction words as [|words IH]; intros octets Hl; [cbn in *; by apply len_zero_iff in Hl as ->|]. cbn [decode_words address_text]. unfold WORD_DIGITS.
  pose proof (len_ztake 4 octets) as Ht. pose proof (len_upper_hex 8 (from_le_bytes (ztake 4 octets))) as H8.
  rewrite ztake_app_l by lia. rewrite (ztake_all 8) by lia. rewrite zdrop_app_r by lia. rewrite H8. rewrite (zdrop_0 (8 - Z.of_nat 8)) by lia.
  pose proof (from_le_u32 (ztake 4 octets) ltac:(lia)) as Hu. unfold is_u32, U32_MAX in *.
  rewrite parse_upper_hex by (first [lia | change (16 ^ Z.of_nat 8) with (2 ^ 32); lia]). cbn [mbind option_bind].
  destruct (Z.ltb_spec (2 ^ 32 - 1) (from_le_bytes (ztake 4 octets))); [lia|]. rewrite IH by (rewrite len_zdrop; lia). cbn [mbind option_bind].
  rewrite to_from_le_bytes by lia. by rewrite ztake_zdrop.
Qed.

Lemma kernel_address_read (v6 : bool) octets : len octets = (if v6 then 16 else 4) ->
  decode_kernel_address (if v6 then 16 else 4) (address_text (address_words v6) octets) = Some octets.
Proof.
  intros Hl. unfold decode_kernel_address. rewrite len_address_text. unfold WORD_DIGITS. destruct v6; cbn [address_words]; (apply address_read; rewrite Hl; done).
Qed.

Lemma address_forall (P : byte -> Prop) words : (forall d, 0 <= d < 16 -> P (upper_digit d)) -> forall octets, Forall P (address_text words octets).
Proof. intros HP. induction words as [|words IH]; intros octets; [constructor|]. cbn [address_text]. apply Forall_app. split; [by apply upper_hex_forall|apply IH]. Qed.

(** The digits of an address are all zeros exactly when its octets are. *)
Definition some_nonzero (text : list byte) : bool := existsb (fun b => negb (byte_val b =? 48)) text.

Lemma upper_hex_zero n : forall value, 0 <= value < 16 ^ Z.of_nat n -> some_nonzero (upper_hex n value) = negb (value =? 0).
Proof.
  induction n as [|n IH]; intros value Hv; [cbn in Hv; by replace value with 0 by lia|]. cbn [upper_hex]. unfold some_nonzero in *. rewrite existsb_app.
  rewrite Nat2Z.inj_succ, Z.pow_succ_r in Hv by lia. rewrite IH by (split; [apply Z.div_pos; lia|apply Z.div_lt_upper_bound; lia]). cbn [existsb]. rewrite orb_false_r.
  pose proof (Z.mod_pos_bound value 16 ltac:(lia)) as Hm. rewrite upper_digit_val by done. pose proof (Z.div_mod value 16 ltac:(lia)) as Hd.
  destruct (Z.eqb_spec (value / 16) 0), (Z.eqb_spec value 0), (Z.ltb_spec (value mod 16) 10); cbn [negb orb]; try done; try lia;
    match goal with |- context[?a =? 48] => destruct (Z.eqb_spec a 48); try done; lia end.
Qed.

Lemma le_bytes_zero octets : (from_le_bytes octets =? 0) = is_unspecified octets.
Proof.
  induction octets as [|b octets IH]; [done|]. cbn [from_le_bytes is_unspecified forallb]. unfold is_unspecified in IH. rewrite <- IH.
  pose proof (byte_val_range b). pose proof (from_le_bytes_range octets) as [Hn _].
  destruct (Z.eqb_spec (byte_val b) 0), (Z.eqb_spec (from_le_bytes octets) 0); cbn [andb]; first [apply Z.eqb_eq; lia | apply Z.eqb_neq; lia].
Qed.

Lemma address_zero words : forall octets, len octets = 4 * Z.of_nat words -> some_nonzero (address_text words octets) = negb (is_unspecified octets).
Proof.
  induction words as [|words IH]; intros octets Hl; [cbn in *; by apply len_zero_iff in Hl as ->|]. cbn [address_text]. unfold some_nonzero in *. rewrite existsb_app.
  pose proof (len_ztake 4 octets) as Ht. pose proof (from_le_u32 (ztake 4 octets) ltac:(lia)) as Hu. unfold is_u32, U32_MAX in *.
  rewrite (upper_hex_zero 8) by (change (16 ^ Z.of_nat 8) with (2 ^ 32); lia). rewrite le_bytes_zero, IH by (rewrite len_zdrop; lia).
  rewrite <- negb_andb. f_equal. unfold is_unspecified. rewrite <- forallb_app. by rewrite ztake_zdrop.
Qed.

(** ** Columns *)

Definition fields (text : list byte) : list (list byte) := List.filter (fun column => negb (is_empty column)) (split_on is_ascii_whitespace text).

Lemma fields_space b text : is_ascii_whitespace b = true -> fields (b :: text) = fields text.
Proof. intros Hb. unfold fields. cbn [split_on]. by rewrite Hb. Qed.

Lemma fields_column column b text : is_column column -> is_ascii_whitespace b = true -> fields (column ++ b :: text) = column :: fields text.
Proof.
  intros [Hne Hc] Hb. unfold fields. rewrite split_on_app; [|eapply Forall_impl; [exact Hc|]; by intros ? []|done]. cbn [List.filter]. by destruct column.
Qed.

Lemma space_white : is_ascii_whitespace SPACE = true. Proof. by vm_compute. Qed.
Lemma newline_white : is_ascii_whitespace NEWLINE = true. Proof. by vm_compute. Qed.

Lemma fields_pad pad text : fields (replicate pad SPACE ++ text) = fields text.
Proof. induction pad as [|pad IH]; [done|]. cbn [replicate app]. rewrite fields_space by apply space_white. exact IH. Qed.

Lemma fields_padded columns : Forall (fun c => is_column c.2) columns -> Forall (fun c => (0 < c.1)%nat) (tail columns) ->
  forall trailing, fields (padded columns ++ replicate trailing SPACE ++ [NEWLINE]) = columns.*2.
Proof.
  intros Hc. revert Hc. enough (forall columns b text, is_ascii_whitespace b = true -> Forall (fun c => is_column c.2) columns -> Forall (fun c => (0 < c.1)%nat) (tail columns) ->
    fields (padded columns ++ b :: text) = columns.*2 ++ fields text) as H.
  { intros Hc Hp [|trailing]; cbn [replicate app].
    - rewrite (H columns NEWLINE []); [|apply newline_white|done|done]. by rewrite app_nil_r.
    - rewrite (H columns SPACE _); [|apply space_white|done|done]. rewrite fields_pad, fields_space by apply newline_white. by rewrite app_nil_r. }
  clear. induction columns as [|[pad column] columns IH]; intros b text Hb Hc Hp; [by apply fields_space|]. apply Forall_cons in Hc as [Hc Hcs]. cbn [snd] in *. cbn [tail] in Hp.
  cbn [padded fmap list_fmap snd app]. rewrite <- app_assoc, fields_pad, <- app_assoc. destruct columns as [|[pad' column'] columns].
  - cbn [padded app]. by rewrite fields_column.
  - pose proof Hp as Hp'. apply Forall_cons in Hp' as [Hpad Hp']. cbn [fst] in Hpad. destruct pad' as [|pad']; [lia|].
    assert (padded ((S pad', column') :: columns) = SPACE :: padded ((pad', column') :: columns)) as -> by done.
    cbn [app]. rewrite fields_column by (done || apply space_white). f_equal.
    specialize (IH b text Hb Hcs Hp'). cbn [padded replicate app] in IH. rewrite fields_space in IH by apply space_white. exact IH.
Qed.

(** ** Rows *)

Definition socket_ok (v6 : bool) (s : KernelSocket) : Prop :=
  is_u64 (k_number s) /\ len (k_local s) = (if v6 then 16 else 4) /\ len (k_remote s) = (if v6 then 16 else 4) /\ is_u16 (k_port s) /\ is_u16 (k_remote_port s)
  /\ 0 <= k_state s < 256 /\ is_column (k_queues s) /\ is_column (k_timer s) /\ is_column (k_retransmits s) /\ is_u64 (k_uid s) /\ is_u64 (k_timeout s) /\ is_u64 (k_inode s)
  /\ Forall is_column (k_more s).

Definition pads_ok (v6 : bool) (pads : list nat) (s : KernelSocket) : Prop := length pads = length (row_columns v6 s) /\ Forall (fun pad => (0 < pad)%nat) (tail pads).

Lemma colon_column : is_ascii_whitespace COLON_BYTE = false /\ byte_val COLON_BYTE <> 0 /\ byte_val COLON_BYTE <> 11.
Proof. split; [by vm_compute|]. by vm_compute. Qed.

Lemma dec_column n : 0 <= n -> is_column (dec n).
Proof.
  intros Hn. split; [apply digits_nonempty; lia|]. eapply Forall_impl; [by apply dec_digits|]. intros b Hb. unfold is_ascii_digit in Hb. bool_to_prop.
  split; [|lia]. apply bool_decide_eq_false. rewrite !elem_of_cons, elem_of_nil. lia.
Qed.

Lemma upper_hex_column n value : (0 < n)%nat -> is_column (upper_hex n value).
Proof.
  intros Hn. split; [|apply upper_hex_forall, upper_digit_column]. pose proof (len_upper_hex n value) as Hl. intros E. rewrite E, len_nil in Hl. lia.
Qed.

Lemma endpoint_column v6 octets port : is_column (endpoint_text v6 octets port).
Proof.
  split.
  - unfold endpoint_text. intros E. apply app_eq_nil in E as [_ E]. done.
  - unfold endpoint_text. apply Forall_app. split; [apply address_forall, upper_digit_column|]. apply Forall_app. split; [apply Forall_singleton, colon_column|]. apply upper_hex_forall, upper_digit_column.
Qed.

Lemma len_endpoint v6 octets port : len (endpoint_text v6 octets port) <= 37.
Proof. unfold endpoint_text. rewrite !len_app, len_address_text, len_upper_hex, len_cons, len_nil. destruct v6; cbn [address_words]; lia. Qed.

Lemma row_columns_ok v6 s : socket_ok v6 s -> Forall is_column (row_columns v6 s).
Proof.
  intros (Hn & _ & _ & _ & _ & _ & Hq & Ht & Hr & Hu & Hto & Hi & Hm). unfold is_u64 in *. unfold row_columns. apply Forall_app. split; [|done].
  repeat (apply Forall_cons; split); try apply Forall_nil; try done; try (apply dec_column; lia); try apply endpoint_column; [|by apply upper_hex_column; lia].
  destruct (dec_column (k_number s)) as [Hne Hc]; [lia|]. split; [intros E; by apply app_eq_nil in E as [? _]|]. apply Forall_app. split; [done|]. apply Forall_singleton, colon_column.
Qed.

Lemma row_fields v6 pads trailing s : socket_ok v6 s -> pads_ok v6 pads s -> fields (row_text v6 pads trailing s) = row_columns v6 s.
Proof.
  intros Hs [Hl Hp]. unfold row_text. rewrite fields_padded.
  - apply snd_zip. lia.
  - pose proof (row_columns_ok v6 s Hs) as Hc. apply Forall_forall. intros [pad column] Hin. apply elem_of_zip_r in Hin. rewrite Forall_forall in Hc. by apply Hc.
  - destruct pads as [|pad pads]; [constructor|]. destruct (row_columns v6 s) as [|column columns]; [done|]. cbn [zip zip_with tail] in *. apply Forall_forall. intros [p c] Hin.
    apply elem_of_zip_l in Hin. rewrite Forall_forall in Hp. by apply Hp.
Qed.

Lemma columns_not_rejected columns trailing : Forall (fun c => is_column c.2) columns ->
  existsb (fun b => existsb (Z.eqb (byte_val b)) REJECTED_BYTES) (padded columns ++ replicate trailing SPACE ++ [NEWLINE]) = false.
Proof.
  intros Hc. apply not_true_is_false. intros E. apply existsb_exists in E as (b & Hb & E). assert (byte_val b = 0 \/ byte_val b = 11) as Hbad.
  { cbn in E. rewrite orb_false_r in E. apply orb_true_iff in E as [E|E]; apply Z.eqb_eq in E; lia. }
  clear E. rewrite !in_app_iff in Hb. destruct Hb as [Hb|[Hb|[<-|[]]]]; [| |vm_compute in Hbad; destruct Hbad; discriminate].
  2: { apply list_elem_of_In, elem_of_replicate in Hb as [-> _]. vm_compute in Hbad. destruct Hbad; discriminate. }
  induction columns as [|[pad column] columns IH]; [done|]. apply Forall_cons in Hc as [[_ Hcol] Hc]. cbn [padded snd] in *.
  rewrite !in_app_iff in Hb. destruct Hb as [Hb|[Hb|Hb]]; [|rewrite List.Forall_forall in Hcol; destruct (Hcol b Hb) as (_ & ? & ?); lia|by apply IH].
  apply repeat_spec in Hb || (apply list_elem_of_In, elem_of_replicate in Hb as [Hb _]). subst. vm_compute in Hbad. destruct Hbad; discriminate.
Qed.

Lemma strip_colon text : strip_suffix ROW_NUMBER_END (text ++ [COLON_BYTE]) = Some text.
Proof.
  unfold strip_suffix. rewrite last_snoc. cbn [mbind option_bind]. change (is_byte ROW_NUMBER_END COLON_BYTE) with true. cbn iota. f_equal. rewrite length_app. cbn [length].
  replace (length text + 1 - 1)%nat with (length text) by lia. by rewrite take_app_length.
Qed.

Lemma row_read v6 pads trailing s : socket_ok v6 s -> pads_ok v6 pads s ->
  parse_row (row_text v6 pads trailing s) = Some (mkSocketTableRow (endpoint_text v6 (k_local s) (k_port s)) (endpoint_text v6 (k_remote s) (k_remote_port s)) (k_state s) (k_inode s)).
Proof.
  intros Hs Hp. pose proof (row_fields v6 pads trailing s Hs Hp) as Hf. unfold parse_row.
  assert (existsb (fun b => existsb (Z.eqb (byte_val b)) REJECTED_BYTES) (row_text v6 pads trailing s) = false) as ->.
  { apply columns_not_rejected. pose proof (row_columns_ok v6 s Hs) as Hc. apply Forall_forall. intros [pad column] Hin. apply elem_of_zip_r in Hin. rewrite Forall_forall in Hc. by apply Hc. }
  fold (fields (row_text v6 pads trailing s)). rewrite Hf. destruct Hs as (Hn & _ & _ & _ & _ & Hst & _ & _ & _ & Hu & Ht & Hi & _).
  unfold row_columns. cbn [app next mbind option_bind]. rewrite strip_colon. cbn [mbind option_bind]. rewrite parse_decimal_dec by done. cbn [mbind option_bind next].
  pose proof (len_endpoint v6 (k_local s) (k_port s)) as Hll. pose proof (len_endpoint v6 (k_remote s) (k_remote_port s)) as Hlr. unfold ADDRESS_COLUMN_LIMIT.
  destruct (Z.ltb_spec 63 (len (endpoint_text v6 (k_local s) (k_port s)))); [lia|]. destruct (Z.ltb_spec 63 (len (endpoint_text v6 (k_remote s) (k_remote_port s)))); [lia|].
  rewrite parse_upper_hex by (first [lia | change (16 ^ Z.of_nat 2) with 256; lia]). cbn [mbind option_bind]. unfold U32_MAX. destruct (Z.ltb_spec (2 ^ 32 - 1) (k_state s)); [lia|].
  cbn [SKIPPED_COLUMNS UNUSED_DECIMAL_COLUMNS drop skip_decimals next mbind option_bind]. rewrite !parse_decimal_dec by done. cbn [mbind option_bind next]. by rewrite parse_decimal_dec.
Qed.

Lemma port_split address port_text : Forall (fun b => is_byte PORT_SEPARATOR b = false) port_text ->
  split_port (address ++ [COLON_BYTE] ++ port_text) = Some (address, port_text).
Proof.
  intros Hc. unfold split_port. rewrite !rev_app_distr. cbn [rev app]. rewrite <- app_assoc. cbn [app].
  rewrite (position_after PORT_SEPARATOR (rev port_text)) by (by apply Forall_rev). cbn [mbind option_bind].
  assert (len (rev port_text) = len port_text) as -> by (unfold len; by rewrite length_rev). cbn [app]. rewrite len_app, len_cons.
  replace (len address + (1 + len port_text) - 1 - len port_text) with (len address) by lia. by rewrite ztake_before, zdrop_after.
Qed.

Lemma endpoint_split v6 octets port : split_port (endpoint_text v6 octets port) = Some (address_text (address_words v6) octets, upper_hex 4 port).
Proof. apply port_split. apply upper_hex_clean. Qed.

(** ** What a row shows *)

(** The families through which an address is reachable. *)
Definition reach (addresses : AddressContext) (v6 : bool) (octets : list byte) (protocol port : Z) : Z :=
  if v6 then
    if is_unspecified octets then wildcard_families addresses protocol port
    else if is_loopback6 octets || is_link_local octets then 0
    else match to_ipv4_mapped octets with
         | Some mapped => if is_loopback4 mapped then 0 else FAMILY_IPV4
         | None => FAMILY_IPV6
         end
  else if is_loopback4 octets then 0 else FAMILY_IPV4.

Inductive Role := Listening | Connected.

(** The part that a socket plays for a protocol, if any. *)
Definition role_of (protocol own_port : Z) (s : KernelSocket) : option Role :=
  if protocol =? PROTOCOL_TCP then if k_state s =? TCP_LISTEN then Some Listening else None
  else if k_state s =? UDP_CONNECTED then Some Connected
  else if (k_state s =? UDP_UNCONNECTED) && (k_remote_port s =? 0) && is_unspecified (k_remote s) && negb (k_port s =? own_port) then Some Listening
  else None.

(** What a scan is to find of a socket: one that plays a part, with a port, on a reachable address. *)
Definition found_socket (protocol : Z) (v6 : bool) (own_port : Z) (addresses : AddressContext) (s : KernelSocket) : option UdpSocket :=
  let families := reach addresses v6 (k_local s) protocol (k_port s) in
  if (k_port s =? 0) || (families =? 0) then None
  else (fun role => mkUdpSocket (k_port s) families (match role with Connected => true | Listening => false end) (k_inode s)) <$> role_of protocol own_port s.

(** What one row adds: to the listeners of TCP, or to the UDP sockets up to the cap. *)
Definition observe (protocol : Z) (v6 : bool) (own_port : Z) (addresses : AddressContext) (state : ListenerTable * list UdpSocket) (s : KernelSocket) :
    ListenerTable * list UdpSocket :=
  match found_socket protocol v6 own_port addresses s with
  | None => state
  | Some u =>
      if protocol =? PROTOCOL_TCP then (add protocol (u_port u) (u_families u) state.1, state.2)
      else if len state.2 <? MAX_TRACKED then (state.1, state.2 ++ [u]) else state
  end.

Lemma reachable_reach addresses (v6 : bool) octets protocol port : len octets = (if v6 then 16 else 4) ->
  reachable_families addresses (address_text (address_words v6) octets) v6 protocol port = reach addresses v6 octets protocol port.
Proof. intros Hl. pose proof (kernel_address_read v6 octets Hl) as Hr. unfold reachable_families, reach. destruct v6; cbn [negb]; by rewrite Hr. Qed.

Lemma scan_row_observes protocol v6 own_port addresses pads trailing s state : socket_ok v6 s -> pads_ok v6 pads s ->
  scan_row protocol v6 own_port addresses (row_text v6 pads trailing s) state = observe protocol v6 own_port addresses state s.
Proof.
  intros Hs Hp. unfold scan_row. rewrite row_read by done. cbn [r_local r_remote r_state r_inode]. rewrite !endpoint_split. destruct state as [listeners udp].
  destruct Hs as (_ & Hl & Hr & Hport & Hrport & Hst & _). unfold is_u16, U16_MAX in *.
  rewrite !parse_upper_hex by (first [lia | change (16 ^ Z.of_nat 4) with (2 ^ 16); lia]). rewrite reachable_reach by done.
  fold (some_nonzero (address_text (address_words v6) (k_remote s))). rewrite address_zero by (rewrite Hr; by destruct v6).
  unfold observe, found_socket, role_of. cbn [fst snd]. destruct (Z.ltb_spec (2 ^ 16 - 1) (k_port s)); [lia|]. cbn [orb]. destruct (k_port s =? 0); [done|]. cbn [orb].
  assert (negb (bool_decide (Some (k_remote_port s) = Some 0)) = negb (k_remote_port s =? 0)) as ->.
  { f_equal. destruct (Z.eqb_spec (k_remote_port s) 0); [apply bool_decide_eq_true; congruence|apply bool_decide_eq_false; congruence]. }
  destruct (protocol =? PROTOCOL_TCP), (reach addresses v6 (k_local s) protocol (k_port s) =? 0), (k_state s =? TCP_LISTEN); try done;
    destruct (k_state s =? UDP_CONNECTED); try done; destruct (k_state s =? UDP_UNCONNECTED), (k_remote_port s =? 0), (is_unspecified (k_remote s)), (k_port s =? own_port); done.
Qed.

(** What the rows of a table add together. *)
Lemma tcp_observed v6 own_port addresses sockets : forall state,
  foldl (observe PROTOCOL_TCP v6 own_port addresses) state sockets
  = (add_all ((fun u => (PROTOCOL_TCP, u_port u, u_families u)) <$> omap (found_socket PROTOCOL_TCP v6 own_port addresses) sockets) state.1, state.2).
Proof.
  induction sockets as [|s sockets IH]; intros state; [by destruct state|]. cbn [foldl omap list_omap]. rewrite IH. unfold observe.
  destruct (found_socket _ _ _ _ s) as [u|]; [|done]. done.
Qed.

Lemma udp_observed protocol v6 own_port addresses sockets : protocol <> PROTOCOL_TCP -> forall state,
  foldl (observe protocol v6 own_port addresses) state sockets
  = (state.1, state.2 ++ ztake (MAX_TRACKED - len state.2) (omap (found_socket protocol v6 own_port addresses) sockets)).
Proof.
  intros Hp. induction sockets as [|s sockets IH]; intros state; [destruct state; cbn [foldl omap list_omap fst snd]; unfold ztake; by rewrite take_nil, app_nil_r|]. cbn [foldl omap list_omap]. rewrite IH. unfold observe.
  destruct (found_socket _ _ _ _ s) as [u|]; [|done]. destruct (Z.eqb_spec protocol PROTOCOL_TCP); [done|].
  destruct (Z.ltb_spec (len state.2) MAX_TRACKED) as [Hlt|Hge]; cbn [fst snd].
  - rewrite len_app, len_cons, len_nil, <- app_assoc. do 2 f_equal. cbn [app]. unfold ztake.
    replace (Z.to_nat (MAX_TRACKED - len state.2)) with (S (Z.to_nat (MAX_TRACKED - (len state.2 + (1 + 0))))) by lia. done.
  - rewrite !ztake_0 by lia. done.
Qed.

(** The listeners after a table's: what the table had, with the families that were found; nothing is
    left out unless the table is full. *)
Definition listeners_found (found : list (Z * Z * Z)) (t t' : ListenerTable) : Prop :=
  table_ok t'
  /\ (forall key f, families_at key t' = Some f ->
       f = Z.lor (default 0 (families_at key t)) (union_of key found) /\ (is_Some (families_at key t) \/ key ∈ found.*1))
  /\ (forall key, is_Some (families_at key t) \/ key ∈ found.*1 -> is_Some (families_at key t') \/ len t' = MAX_TRACKED)
  /\ (forall key, is_Some (families_at key t) -> is_Some (families_at key t')).

Lemma add_len protocol port families t : table_ok t ->
  len t <= len (add protocol port families t) /\ (families_at (protocol, port) (add protocol port families t) = None -> len t = MAX_TRACKED).
Proof.
  intros [_ Hl]. unfold add. pose proof (update_first_table protocol port families t) as H. destruct (update_first _ _ t) as [t'|].
  - destruct H as ([f Hf] & Hk & Ha). apply (f_equal length) in Hk. rewrite !length_fmap in Hk. split; [unfold len; lia|]. rewrite Ha, bool_decide_eq_true_2, Hf by done. done.
  - destruct (Z.ltb_spec (len t) MAX_TRACKED); [|split; [done|intros; lia]]. split; [rewrite len_app; len_facts; lia|]. rewrite families_at_app, H. cbn [families_at]. by rewrite bool_decide_eq_true_2.
Qed.

Lemma union_absent key found : key ∉ found.*1 -> union_of key found = 0.
Proof.
  induction found as [|b found IH] using rev_ind; intros Hin; [done|]. rewrite union_snoc. rewrite fmap_app, elem_of_app in Hin.
  rewrite bool_decide_eq_false_2; [apply IH; tauto|]. intros E. apply Hin. right. cbn. rewrite E. by left.
Qed.

Lemma add_all_found found t : table_ok t -> listeners_found found t (add_all found t).
Proof.
  intros Hok. induction found as [|a found (Hok' & Hf & Hin & Hkeep)] using rev_ind.
  { split_and!; [done| |by intros key [?|?%elem_of_nil]; [left|]|done]. intros key f E. change (union_of key []) with 0. rewrite Z.lor_0_r. cbn in E. rewrite E. split; [done|left; by eexists]. }
  assert (a.1 = (a.1.1, a.1.2)) as Ea by by destruct a as [[] ?]. rewrite add_all_snoc. set (t1 := add_all found t) in *.
  destruct (add_len a.1.1 a.1.2 a.2 t1 Hok') as [Hlen Hfull]. rewrite <- Ea in Hfull. pose proof (add_families a.1.1 a.1.2 a.2 t1) as Ha. rewrite <- Ea in Ha.
  assert (forall key, is_Some (families_at key t1) -> is_Some (families_at key (add a.1.1 a.1.2 a.2 t1))) as Hmono.
  { intros key [f E]. rewrite Ha, E. case_bool_decide; by eexists. }
  split_and!; [by apply add_ok| | |auto].
  - intros key f E. rewrite Ha in E. rewrite union_snoc, fmap_app, elem_of_app. case_bool_decide as Ek.
    + subst key. rewrite bool_decide_eq_true_2 by done. split; [|right; right; by left]. destruct (families_at a.1 t1) as [g|] eqn:Eg.
      * injection E as <-. apply Hf in Eg as [-> _]. by rewrite Z.lor_assoc.
      * destruct (Z.ltb_spec (len t1) MAX_TRACKED) as [Hlt|]; [|done]. injection E as <-.
        destruct (families_at a.1 t) as [b|] eqn:Eb; [destruct (Hkeep a.1 (mk_is_Some _ _ Eb)) as [? ?]; congruence|].
        rewrite union_absent; [done|]. intros Hx. destruct (Hin a.1 (or_intror Hx)) as [[? ?]|?]; [congruence|lia].
    + rewrite bool_decide_eq_false_2 by congruence. apply Hf in E as [-> [?|?]]; auto.
  - intros key [Hk|Hk].
    + left. auto.
    + rewrite fmap_app, elem_of_app in Hk. destruct (families_at key (add a.1.1 a.1.2 a.2 t1)) as [f|] eqn:E; [left; by eexists|right].
      assert (len (add a.1.1 a.1.2 a.2 t1) <= MAX_TRACKED) by (apply add_ok; done). destruct Hk as [Hk|Hk].
      * destruct (Hin key (or_intror Hk)) as [Hs|]; [apply Hmono in Hs as [? ?]; congruence|lia].
      * apply list_elem_of_singleton in Hk as ->. specialize (Hfull E). lia.
Qed.

(** ** Tables *)

(** Every read takes at least a byte, so that a scan ends on every file. *)
Lemma read_row_takes reader line reader' : read_row reader = Some (line, reader') -> (length (rest reader') < length (rest reader))%nat.
Proof.
  unfold read_row. pose proof (len_ztake ROW_LENGTH_LIMIT (rest reader)) as Hl. unfold ROW_LENGTH_LIMIT in *.
  destruct (position _ _) as [i|] eqn:E.
  - apply position_some in E as (k & x & l & Hk & -> & _). intros [= <- <-]. cbn [rest]. apply (f_equal len) in Hk. rewrite len_app, len_cons in Hk. pose proof (len_nonneg k). pose proof (len_nonneg l).
    unfold zdrop. rewrite length_drop. unfold len in *. lia.
  - case_match; [done|]. case_match; [done|]. bool_to_prop. intros [= <- <-]. cbn [rest]. unfold zdrop. rewrite length_drop. unfold len in *. lia.
Qed.

Lemma scan_rows_total rounds : forall reader protocol v6 own_port addresses state, (length (rest reader) < rounds)%nat ->
  exists state', scan_rows rounds reader protocol v6 own_port addresses state = Some state'.
Proof.
  induction rounds as [|rounds IH]; intros reader protocol v6 own_port addresses state Hr; [lia|]. cbn [scan_rows]. destruct (read_row reader) as [[line reader']|] eqn:E; [|by eexists].
  apply read_row_takes in E. apply IH. lia.
Qed.

Lemma scan_rows_rounds rounds more : forall reader protocol v6 own_port addresses state, (length (rest reader) < rounds)%nat ->
  scan_rows (rounds + more) reader protocol v6 own_port addresses state = scan_rows rounds reader protocol v6 own_port addresses state.
Proof.
  induction rounds as [|rounds IH]; intros reader protocol v6 own_port addresses state Hr; [lia|]. cbn [plus Nat.add scan_rows]. destruct (read_row reader) as [[line reader']|] eqn:E; [|done].
  apply read_row_takes in E. apply IH. lia.
Qed.

(** A line is read whole, when it fits. *)
Lemma read_line line text failing : Forall (fun b => is_byte NEWLINE b = false) line -> len line < ROW_LENGTH_LIMIT ->
  read_row (mkReader (line ++ [NEWLINE] ++ text) failing) = Some (line ++ [NEWLINE], mkReader text failing).
Proof.
  intros Hc Hl. unfold read_row. cbn [rest fails]. unfold ROW_LENGTH_LIMIT in *. pose proof (len_nonneg line). pose proof (len_nonneg text).
  rewrite ztake_app_r by lia. replace (ztake (511 - len line) ([NEWLINE] ++ text)) with (NEWLINE :: ztake (511 - len line - 1) text).
  2: { cbn [app]. unfold ztake. replace (Z.to_nat (511 - len line)) with (S (Z.to_nat (511 - len line - 1))) by lia. done. }
  rewrite position_after by done. do 2 f_equal.
  - rewrite ztake_app_r by lia. replace (len line + 1 - len line) with 1 by lia. done.
  - cbn [app]. by rewrite zdrop_after.
Qed.

Lemma row_newline v6 pads s : socket_ok v6 s -> Forall (fun b => is_byte NEWLINE b = false) (padded (zip pads (row_columns v6 s))).
Proof.
  intros Hs. pose proof (row_columns_ok v6 s Hs) as Hc. revert pads. generalize dependent (row_columns v6 s). induction l as [|column columns IH]; intros Hc pads; [by destruct pads; constructor|].
  destruct pads as [|pad pads]; [constructor|]. apply Forall_cons in Hc as [[_ Hcol] Hc]. cbn [zip zip_with padded]. apply Forall_app. split; [apply Forall_replicate; by vm_compute|].
  apply Forall_app. split; [|by apply IH]. eapply Forall_impl; [exact Hcol|]. intros b (Hw & _). apply bool_decide_eq_false. intros ->. by rewrite newline_white in Hw.
Qed.

(** A row: the padding before each column and after the last, and its socket. *)
Abbreviation Row := (list nat * nat * KernelSocket)%type.
Definition line_of (v6 : bool) (row : Row) : list byte := row_text v6 row.1.1 row.1.2 row.2.

(** A table as the kernel writes it: a header line and a row for each socket. *)
Definition table_text (v6 : bool) (header : list byte) (rows : list Row) : list byte :=
  header ++ [NEWLINE] ++ concat (line_of v6 <$> rows).

Definition row_ok (v6 : bool) (row : Row) : Prop :=
  socket_ok v6 row.2 /\ pads_ok v6 row.1.1 row.2 /\ len (line_of v6 row) <= ROW_LENGTH_LIMIT.

Lemma rows_observed v6 rows : Forall (row_ok v6) rows -> forall rounds protocol own_port addresses state,
  (length (concat (line_of v6 <$> rows)) < rounds)%nat ->
  scan_rows rounds (mkReader (concat (line_of v6 <$> rows)) false) protocol v6 own_port addresses state
  = Some (foldl (observe protocol v6 own_port addresses) state rows.*2).
Proof.
  induction rows as [|[[pads trailing] s] rows IH]; intros Hs rounds protocol own_port addresses state Hr; (destruct rounds as [|rounds]; [lia|]); [done|].
  apply Forall_cons in Hs as [(Hok & Hp & Hlen) Hs]. cbn [fst snd] in *. unfold line_of in Hlen. cbn [fst snd] in Hlen.
  cbn [fmap list_fmap concat] in *. set (more := concat (line_of v6 <$> rows)) in *. unfold line_of in Hr |- *. cbn [fst snd] in *. cbn [scan_rows].
  assert (row_text v6 pads trailing s = (padded (zip pads (row_columns v6 s)) ++ replicate trailing SPACE) ++ [NEWLINE]) as Et by (unfold row_text; by rewrite app_assoc).
  rewrite Et, <- app_assoc, read_line.
  - rewrite <- Et, scan_row_observes by done. apply IH; [done|]. rewrite length_app in Hr. rewrite Et, length_app in Hr. cbn [length] in Hr. lia.
  - apply Forall_app. split; [by apply row_newline|]. apply Forall_replicate. by vm_compute.
  - rewrite Et, len_app, len_cons, len_nil in Hlen. lia.
Qed.

Lemma scan_ends reader protocol v6 own_port addresses state : exists state', scan reader protocol v6 own_port addresses state = Some state'.
Proof. unfold scan. destruct (read_row reader) as [[line reader']|]; [|by eexists]. apply scan_rows_total. lia. Qed.

(** What a scan of a table with these sockets leaves: TCP's listeners join the table, UDP's sockets
    follow those found before, and neither list takes more than 1024 entries. *)
Definition scanned (protocol : Z) (v6 : bool) (own_port : Z) (addresses : AddressContext) (sockets : list KernelSocket) (state state' : ListenerTable * list UdpSocket) : Prop :=
  let found := omap (found_socket protocol v6 own_port addresses) sockets in
  if protocol =? PROTOCOL_TCP
  then state'.2 = state.2 /\ (table_ok state.1 -> listeners_found ((fun u => (protocol, u_port u, u_families u)) <$> found) state.1 state'.1)
  else state'.1 = state.1 /\ state'.2 = state.2 ++ ztake (MAX_TRACKED - len state.2) found.

(** C32: a scan of a socket table ends on every file, however its lines are cut or its reads fail. On a
    table as the kernel writes it, with any padding before its columns and at the ends of its rows, it
    finds exactly the sockets that listen, or that are open or connected for UDP, on a reachable
    address: no loopback or link-local one, and with the families that the wildcard and mapped
    addresses have. TCP's ports join the listeners, each with the union of its families; a port is left
    out only once 1024 are tracked. UDP's sockets follow those found before, in order, and only the
    first are kept where all would be more than 1024. *)
Theorem socket_table_exact protocol v6 own_port addresses state :
  (forall reader, exists state', scan reader protocol v6 own_port addresses state = Some state')
  /\ forall header rows, Forall (fun b => is_byte NEWLINE b = false) header -> len header < ROW_LENGTH_LIMIT -> Forall (row_ok v6) rows ->
     exists state', scan (mkReader (table_text v6 header rows) false) protocol v6 own_port addresses state = Some state'
       /\ scanned protocol v6 own_port addresses rows.*2 state state'.
Proof.
  split.
  - intros reader. apply scan_ends.
  - intros header rows Hc Hl Hs. exists (foldl (observe protocol v6 own_port addresses) state rows.*2). split.
    + unfold scan, table_text. rewrite read_line by done. apply rows_observed; [done|]. cbn [rest]. lia.
    + unfold scanned. cbn zeta. destruct (Z.eqb_spec protocol PROTOCOL_TCP) as [->|Hp].
      * rewrite tcp_observed. split; [done|]. intros Hok. by apply add_all_found.
      * by rewrite udp_observed.
Qed.

Definition sample_server : KernelSocket :=
  mkKernelSocket 0 (replicate 16 (byte_of 0)) 8080 (replicate 16 (byte_of 0)) 0 10 (bytes_of "00000000:00000000") (bytes_of "00:00000000") (bytes_of "00000000") 0 0 4321 [bytes_of "1"].

(** A row padded to a width, as those of the IPv4 tables are. *)
Lemma socket_table_exact_witness : exists state',
  scan (mkReader (table_text true (bytes_of "  sl  local_address") [([3; 1; 1; 1; 1; 1; 1; 5; 8; 1; 1]%nat, 20%nat, sample_server)]) false) 6 true 1023 (mkAddressContext false []) ([], [])
  = Some state' /\ state'.2 = [] /\ state'.1 = [mkListener 6 2 8080] /\ table_ok state'.1.
Proof.
  destruct (proj2 (socket_table_exact 6 true 1023 (mkAddressContext false []) ([], [])) (bytes_of "  sl  local_address")
    [([3; 1; 1; 1; 1; 1; 1; 5; 8; 1; 1]%nat, 20%nat, sample_server)]) as (state' & E & Hu & Hl).
  - repeat (apply Forall_cons; split; [by vm_compute|]); constructor.
  - by vm_compute.
  - apply Forall_singleton. assert (forall text, forallb (fun b => negb (is_ascii_whitespace b) && negb (byte_val b =? 0) && negb (byte_val b =? 11)) text = true -> text <> [] -> is_column text) as Hcol.
    { intros text Ht Hne. split; [done|]. apply List.Forall_forall. intros b Hb. rewrite forallb_forall in Ht. specialize (Ht b Hb). bool_to_prop. done. }
    split; [split_and!; try done; try (apply Hcol; [by vm_compute|done]); apply Forall_singleton; apply Hcol; [by vm_compute|done]|].
    split; [split; [done|repeat constructor]|by vm_compute].
  - exists state'. split; [exact E|]. split; [exact Hu|]. split; [|apply Hl; split; [constructor|done]].
    assert (Some state' = Some ([mkListener 6 2 8080], [])) as Es by (rewrite <- E; vm_compute; reflexivity). injection Es as ->. reflexivity.
Defined.
