(* ===== verification/IngressSender.v ===== *)
(** * What the announcer sends, and when (src/nvx-rs/src/guest/ingress/sender.rs)

    The sender's loop over an operating system that promises only that a scan's announcement is not
    empty, and the system of the live program, whose scans are those of the collector. *)

From S2P Require Import Prelude Cmdline Lowering AddressText GuestText SockDiag Ingress IngressFacts SocketTables.

(** What the loop needs of a system. *)
Class SystemLaws (S : Type) `{!System S} := {
  collect_nonempty : forall own_port now dual_stack (system : S), fst (collect own_port now dual_stack system) <> [];
}.

(** The latest datagram that the system took for the gateway, and when. Datagrams are not acknowledged:
    whether one arrived, the announcer does not learn. *)
Definition handed_over (held : option (list byte * Z)) (scan : Scan) : option (list byte * Z) :=
  match scan_sent scan with Some true => Some (scan_payload scan, scan_now scan) | _ => held end.
Definition latest_sent (held : option (list byte * Z)) (trace : list Scan) : option (list byte * Z) := foldl handed_over held trace.

(** After a scan, the latest datagram is that scan's announcement, sent by it or less than two seconds
    before. *)
Definition up_to_date (held : option (list byte * Z)) (scan : Scan) : Prop :=
  exists sent, held = Some (scan_payload scan, sent) /\ (sent = scan_now scan \/ wrapping_sub (scan_now scan) sent < REFRESH_INTERVAL_MS).
(** A scan tries a send only when it is due. *)
Definition due (held : option (list byte * Z)) (scan : Scan) : Prop :=
  match held with Some (payload, sent) => payload <> scan_payload scan \/ REFRESH_INTERVAL_MS <= wrapping_sub (scan_now scan) sent | None => True end.

Section sender.
Context {S : Type} `{!System S} `{!SystemLaws S}.

(** What the loop remembers is its latest datagram. *)
Definition remembers (held : option (list byte * Z)) (last_payload : list byte) (last_sent : Z) : Prop :=
  match held with Some (payload, sent) => payload = last_payload /\ sent = last_sent | None => last_payload = [] end.

Lemma scans_current n destination own_port dual : forall last_payload last_sent system held, remembers held last_payload last_sent ->
  let trace := fst (send_scans n destination own_port dual last_payload last_sent system) in
  length trace = n /\ forall pre scan post, trace = pre ++ scan :: post ->
    (scan_sent scan <> Some false -> up_to_date (latest_sent held (pre ++ [scan])) scan) /\ (scan_sent scan <> None -> due (latest_sent held pre) scan).
Proof.
  induction n as [|n IH]; intros last_payload last_sent system held Hr; cbn [send_scans]; [split; [done|intros [|? ?] ? ? E; discriminate]|].
  destruct (now_ms system) as [now s1]. pose proof (collect_nonempty own_port now dual s1) as Hne. destruct (collect own_port now dual s1) as [payload s2]. cbn [fst] in Hne.
  destruct (negb (bool_decide (payload = last_payload)) || (REFRESH_INTERVAL_MS <=? wrapping_sub now last_sent)) eqn:Edue.
  - assert (due held (mkScan now payload None)) as Hd.
    { unfold due. destruct held as [[p t]|]; [|done]. destruct Hr as [-> ->]. cbn [scan_payload scan_now]. apply orb_true_iff in Edue as [E|E]; bool_to_prop; [left; congruence|by right]. }
    destruct (send destination payload s2) as [ok s3].
    set (scan := mkScan now payload (Some ok)). set (held' := handed_over held scan).
    assert (remembers held' (if bool_decide (Some ok = Some true) then payload else last_payload) (if bool_decide (Some ok = Some true) then now else last_sent)) as Hr'.
    { unfold held', handed_over, scan. cbn [scan_sent scan_payload scan_now]. destruct ok; [rewrite bool_decide_eq_true_2 by done; done|by rewrite bool_decide_eq_false_2 by done]. }
    specialize (IH _ _ (sleep_ms SCAN_INTERVAL_MS s3) held' Hr'). destruct (send_scans n _ _ _ _ _ _) as [more s4]. cbn [fst] in *. destruct IH as [Hl IH].
    split; [cbn; lia|]. intros [|x pre] sc post E; injection E as <- ->.
    + split; [|intros _; exact Hd]. cbn [latest_sent foldl app]. fold held'. unfold scan at 1. cbn [scan_sent]. intros Hok. destruct ok; [|done]. exists now. split; [done|by left].
    + apply (IH pre sc post eq_refl).
  - apply orb_false_iff in Edue as [Ep Ea]. bool_to_prop. subst last_payload. destruct held as [[p t]|]; cbn [remembers] in Hr; [|done]. destruct Hr as [-> ->].
    set (scan := mkScan now payload None). specialize (IH payload last_sent (sleep_ms SCAN_INTERVAL_MS s2) (Some (payload, last_sent)) (conj eq_refl eq_refl)).
    rewrite bool_decide_eq_false_2 by done. destruct (send_scans n _ _ _ _ _ _) as [more s4]. cbn [fst] in *. destruct IH as [Hl IH].
    split; [cbn; lia|]. intros [|x pre] sc post E; injection E as <- ->.
    + split; [|done]. intros _. exists last_sent. split; [done|by right].
    + apply (IH pre sc post eq_refl).
Qed.

Lemma bind_first_port ports system port : fst (bind_first bind ports system) = Ok (Some port) -> port ∈ ports.
Proof.
  revert system. induction ports as [|p ports IH]; intros system; [done|]. cbn [bind_first]. destruct (bind p system) as [[[]|[|code]] s1]; cbn [fst]; [|by right; eapply IH|done].
  intros E. assert (p = port) as -> by congruence. by left.
Qed.

Lemma source_ports_range port : port ∈ source_ports -> LAST_SOURCE_PORT <= port <= FIRST_SOURCE_PORT.
Proof. unfold source_ports. intros H. apply list_elem_of_In, in_rev, list_elem_of_In, elem_of_seqZ in H. unfold LAST_SOURCE_PORT, FIRST_SOURCE_PORT in *. lia. Qed.

Lemma own_port_range source system port system' : own_port_of source system = (Ok port, system') -> LAST_SOURCE_PORT <= port <= FIRST_SOURCE_PORT.
Proof.
  destruct source; cbn [own_port_of].
  - destruct (open_socket system) as [[[]|] s1]; [|done]. unfold bind_privileged_port. pose proof (bind_first_port source_ports s1) as Hb. unfold bind_privileged.
    destruct (bind_first bind source_ports s1) as [[[p|]|] s2]; [|done..]. intros E. apply source_ports_range, Hb. cbn. congruence.
  - destruct (inherit_socket system) as [[p|] s1]; [|done]. destruct (_ && _) eqn:E; [|done]. intros H. bool_to_prop. assert (p = port) by congruence. lia.
Qed.
End sender.

(** ** The live system *)

Lemma scan_tables_total files root own_port tables : forall scan, exists scan', scan_tables files root own_port tables scan = Some scan'.
Proof.
  induction tables as [|[[table protocol] v6] tables IH]; intros scan; [by eexists|]. cbn [scan_tables].
  destruct (bounded_path root (bytes_of table) PATH_BUFFER_SIZE) as [path|]; [|apply IH]. destruct (files path) as [file|]; [|apply IH]. unfold scan_into.
  pose proof (scan_ends file protocol v6 own_port (sc_addresses scan) (sc_listeners scan, sc_udp_sockets scan)) as [[t u] ->]. apply IH.
Qed.

Lemma receive_parts_total parts : exists visited, receive_parts parts = Some visited.
Proof.
  induction parts as [|part parts [visited IH]]; [by eexists|]. cbn [receive_parts]. destruct (len part =? 0); [by eexists|]. destruct (decode_dump_total part) as (v & c & ->).
  cbn [mbind option_bind]. destruct c; [|by eexists]. rewrite IH. by eexists.
Qed.

Lemma dump_total state kernel : exists visited, dump_ipv6_tcp_sockets state kernel = Some visited.
Proof.
  unfold dump_ipv6_tcp_sockets. destruct (inet_diag_request state); [|by eexists]. destruct (negb (opens kernel)); [by eexists|]. destruct (negb _); [by eexists|]. apply receive_parts_total.
Qed.

(** A collection ends without a panic, whatever the files hold and the kernel answers. *)
Lemma collect_total self files root diagnostics own_port now dual : exists self' payload,
  collect_files self files root diagnostics own_port now dual = Some (self', payload) /\ payload <> [].
Proof.
  unfold collect_files. assert (exists w, match diagnostics with Live kernel => query_live kernel | Snapshot => query_snapshot files root end = Some w) as [w ->].
  { destruct diagnostics as [kernel|].
    - unfold query_live. destruct (dump_total TCP_LISTEN kernel) as [v ->]. by eexists.
    - unfold query_snapshot. destruct (bounded_path _ _ _) as [path|]; [|by eexists]. destruct (files path) as [file|]; [|by eexists]. unfold parse_wildcard_tcp.
      destruct (decode_dump_total (ztake INET_DIAG_BUFFER_LENGTH (rest file))) as (v & c & ->). by eexists. }
  cbn [mbind option_bind]. destruct (scan_tables_total files root own_port SOCKET_TABLES (new_scan dual w)) as [scan ->]. cbn [mbind option_bind].
  unfold finish. destruct (settle_all _ _ _ _ _) as [next listeners]. do 2 eexists. split; [done|]. unfold encode, MAGIC. intros E. apply app_eq_nil in E as [E _]. vm_compute in E. discriminate.
Qed.

(** What a scan meets: the time, the files of [/proc], the kernel's diagnostics, and whether a send
    succeeds. *)
Record Moment := mkMoment { at_ms : Z; at_files : Files; at_kernel : Diagnostics; at_sends : bool }.

(** The live system: the collector, the moments to come, the ports in use, and what is inherited. *)
Record World := mkWorld { collector : Collector; moments : list Moment; busy : list Z; inherited : result Errno Z }.
#[export] Instance World_eta : Eta World := fun w => mkWorld (collector w) (moments w) (busy w) (inherited w).

Definition no_moment : Moment := mkMoment 0 (fun _ => None) (mkDiagnostics false 0 []) false.
Definition current (w : World) : Moment := default no_moment (head (moments w)).
Definition PROC_ROOT : list byte := bytes_of "/proc".

#[export] Instance world_system : System World := {
  ignore_signals w := w;
  dual_stack w := (read_bindv6only (at_files (current w)) PROC_ROOT IPV6_DUAL_STACK_BY_DEFAULT, w);
  open_socket w := (Ok tt, w);
  bind port w := (if bool_decide (port ∈ busy w) then Err EADDRINUSE else Ok tt, w);
  inherit_socket w := (inherited w, w);
  now_ms w := (at_ms (current w), w);
  collect own_port now dual w :=
    match collect_files (collector w) (at_files (current w)) PROC_ROOT (Live (at_kernel (current w))) own_port now dual with
    | Some (c, payload) => (payload, w <| collector := c |>)
    | None => ([], w)
    end;
  send _ _ w := (at_sends (current w), w);
  sleep_ms _ w := w <| moments := tail (moments w) |>;
}.

#[export] Instance world_laws : SystemLaws World.
Proof.
  constructor. intros own_port now dual w. cbn [collect world_system].
  destruct (collect_total (collector w) (at_files (current w)) PROC_ROOT (Live (at_kernel (current w))) own_port now dual) as (c & payload & -> & Hne). done.
Qed.

(** C29: whatever the files hold, the kernel answers and the sends do, the announcer that runs has a
    privileged source port, 512 to 1023. After each scan whose send did not fail, the latest datagram
    that the system took is that scan's announcement, taken by this scan or less than two seconds
    before, so that a datagram that the network loses is followed by another within that time. A scan
    sends only what differs from the latest datagram, or a refresh of one at least two seconds old.
    The announcer runs over any system whose scans give an announcement, which the live system's are
    proved to do. *)
Theorem sender_current {S} `{!System S} `{!SystemLaws S} scans destination source (system : S) port trace system' :
  run_with scans destination source system = (Ok (port, trace), system') ->
  LAST_SOURCE_PORT <= port <= FIRST_SOURCE_PORT /\ length trace = scans
  /\ forall pre scan post, trace = pre ++ scan :: post ->
       (scan_sent scan <> Some false -> up_to_date (latest_sent None (pre ++ [scan])) scan) /\ (scan_sent scan <> None -> due (latest_sent None pre) scan).
Proof.
  unfold run_with. destruct (dual_stack (ignore_signals system)) as [dual s1]. destruct (own_port_of source s1) as [[p|] s2] eqn:Ep; [|done].
  pose proof (scans_current scans destination p dual [] 0 s2 None eq_refl) as Hc. destruct (send_scans _ _ _ _ _ _ _) as [t s3]. cbn [fst] in Hc. intros E.
  assert (p = port) as <- by congruence. assert (t = trace) as <- by congruence. split; [by eapply own_port_range|]. exact Hc.
Qed.

Definition sample_world : World :=
  mkWorld [] (mkMoment 5 (fun _ => None) (mkDiagnostics false 0 []) true :: mkMoment 105 (fun _ => None) (mkDiagnostics false 0 []) true :: []) [1023] (Err EADDRINUSE).

Lemma sender_current_witness :
  let held := latest_sent None (match run_with 2 0 Bound sample_world with (Ok (_, trace), _) => trace | _ => [] end) in
  held = Some (bytes_of "NVXL" ++ map byte_of [1; 0; 0; 0], 5).
Proof.
  cbv zeta. destruct (run_with 2 0 Bound sample_world) as [[[port trace]|] system'] eqn:E; [|vm_compute in E; discriminate].
  destruct (sender_current 2 0 Bound sample_world port trace system' E) as (Hp & Hl & Ht).
  destruct trace as [|a [|b [|c trace]]]; try discriminate Hl. vm_compute in E. injection E as <- <- <- <-. by vm_compute.
Defined.
