(* ===== verification/Json.v ===== *)
(** * The JSON of policy files and manifests (src/nvx-rs/src/host/network/policy/json.rs)

    A document as [serde_json] hands it to a visitor, value by value and up to its first syntax
    error, and the visitor that builds a value of it: without a field repeated in an object, at most
    [MAX_JSON_DEPTH] arrays and objects deep, and with the same integers, strings and structure
    whether or not [serde_json] has its [arbitrary_precision] feature. *)

From S2P Require Import Prelude.

(** ** Values *)

(** A finite double, [mantissa * 2 ^ exponent], or the negative zero. *)
Inductive Double := NegativeZero | Finite (mantissa exponent : Z).

#[export] Instance double_eq_dec : EqDecision Double.
Proof. solve_decision. Defined.

(** [serde_json::Number]: an integer of 64 bits that is not negative, one that is, or a double. *)
Inductive Number := PosInt (value : Z) | NegInt (value : Z) | Float (value : Double).

(** [serde_json::Value]; the fields of an object are distinct, and in an order that nothing relies
    on. *)
Inductive Value :=
| Null
| Bool (value : bool)
| Num (number : Number)
| Str (text : list byte)
| Arr (elements : list Value)
| Obj (fields : list (list byte * Value)).

(** ** Documents *)

(** A number as it is written: an integer of 64 bits, [-0], or another, with its text. *)
Inductive Written := WriteU64 (value : Z) | WriteI64 (value : Z) | WriteNegativeZero | WriteOther (text : list byte).

(** What a document holds, as far as it is JSON: an array or an object may break after its elements
    or members, as at the end of the text, and a value may not be one. *)
Inductive Doc :=
| DNull
| DBool (value : bool)
| DNumber (number : Written)
| DString (text : list byte)
| DArray (elements : list Doc) (breaks : bool)
| DObject (members : list (list byte * Doc)) (breaks : bool)
| DBroken.

(** A document, and whether other text follows it. *)
Record Document := mkDocument { root : Doc; trailing : bool }.

(** ** The visitor *)

Definition MAX_JSON_DEPTH : Z := 32.
Definition NUMBER_FIELD : list byte := bytes_of "$serde_json::private::Number".

Inductive Location := Root (name : list byte) | Field (parent : Location) (name : list byte) | Element (parent : Location) (index : Z).

Inductive ReadError := Syntax | Repeated (object : Location) (field : list byte) | TooDeep.

Section reader.
(** [serde_json]'s reading of a number as a double, and the standard library's. *)
Context (serde_f64 std_f64 : list byte -> option Double).
Context (arbitrary_precision : bool).

(** [number]: a number that [serde_json] handed as written. *)
Definition number (text : list byte) : option Value := (fun d => Num (Float d)) <$> std_f64 text.

(** [visit_i64]: only [-0] arrives as 0, and only with [arbitrary_precision]. *)
Definition visit_i64 (value : Z) : Value := if arbitrary_precision && (value =? 0) then Num (Float NegativeZero) else Num (NegInt value).

(** A number. With [arbitrary_precision], [serde_json] hands [-0] as the integer 0, and every number
    that is not an integer of 64 bits as a map whose one field holds its text; without, as doubles. *)
Definition visit_number (n : Written) : result ReadError Value :=
  match n with
  | WriteU64 value => Ok (Num (PosInt value))
  | WriteI64 value => Ok (visit_i64 value)
  | WriteNegativeZero => Ok (if arbitrary_precision then visit_i64 0 else Num (Float NegativeZero))
  | WriteOther text => ok_or (if arbitrary_precision then number text else (fun d => Num (Float d)) <$> serde_f64 text) Syntax
  end.

(** [Seed::enter]. *)
Definition enter (depth : Z) : result ReadError Z := if MAX_JSON_DEPTH <? depth + 1 then Err TooDeep else Ok (depth + 1).

Definition contains_key (name : list byte) (object : list (list byte * Value)) : bool := existsb (fun f => bool_decide (f.1 = name)) object.

(** The loop of [visit_seq] over the elements. *)
Definition visit_elements (visit : Z -> Doc -> result ReadError Value) (breaks : bool) :=
  fix go (elements : list Doc) (array : list Value) : result ReadError Value :=
    match elements with
    | [] => if breaks then Err Syntax else Ok (Arr array)
    | element :: elements => value ← visit (len array) element; go elements (array ++ [value])
    end.

(** The loop of [visit_map] over the members. *)
Definition visit_members (visit : list byte -> Doc -> result ReadError Value) (location : Location) (breaks : bool) :=
  fix go (members : list (list byte * Doc)) (object : list (list byte * Value)) : result ReadError Value :=
    match members with
    | [] => if breaks then Err Syntax else Ok (Obj object)
    | (name, member) :: members =>
        if contains_key name object then Err (Repeated location name)
        else value ← visit name member; go members (object ++ [(name, value)])
    end.

Fixpoint visit (location : Location) (depth : Z) (doc : Doc) : result ReadError Value :=
  match doc with
  | DNull => Ok Null
  | DBool value => Ok (Bool value)
  | DNumber n => visit_number n
  | DString text => Ok (Str text)
  | DBroken => Err Syntax
  | DArray elements breaks =>
      depth ← enter depth;
      visit_elements (fun index element => visit (Element location index) depth element) breaks elements []
  | DObject members breaks =>
      match members with
      | (name, member) :: rest =>
          if arbitrary_precision && bool_decide (name = NUMBER_FIELD) then
            value ← visit (Field location NUMBER_FIELD) (depth + 1) member;
            _ ← (match rest with [] => if breaks then Err Syntax else Ok tt | _ => Ok tt end);
            inner ← enter depth;
            visit_members (fun name member => visit (Field location name) inner member) location breaks rest [(NUMBER_FIELD, value)]
          else inner ← enter depth; visit_members (fun name member => visit (Field location name) inner member) location breaks members []
      | [] => if arbitrary_precision && breaks then Err Syntax
              else inner ← enter depth; visit_members (fun name member => visit (Field location name) inner member) location breaks members []
      end
  end.

Definition read_document (document : Document) (name : list byte) : result ReadError Value :=
  value ← visit (Root name) 0 (root document);
  if trailing document then Err Syntax else Ok value.
End reader.

(** ** What a document holds *)

Lemma doc_ind (P : Doc -> Prop) :
  P DNull -> (forall b, P (DBool b)) -> (forall n, P (DNumber n)) -> (forall t, P (DString t)) -> P DBroken ->
  (forall elements breaks, Forall P elements -> P (DArray elements breaks)) ->
  (forall members breaks, Forall (fun m => P m.2) members -> P (DObject members breaks)) -> forall d, P d.
Proof.
  intros H1 H2 H3 H4 H5 H6 H7. fix go 1. intros [|b|n|t|elements breaks|members breaks|]; [exact H1|apply H2|apply H3|apply H4| | |exact H5].
  - apply H6. induction elements as [|e elements IH]; constructor; [apply go|exact IH].
  - apply H7. induction members as [|[name e] members IH]; constructor; [apply go|exact IH].
Qed.

Section meaning.
Context (f64 : list byte -> option Double).

Definition number_value (n : Written) : option Value :=
  match n with
  | WriteU64 value => Some (Num (PosInt value))
  | WriteI64 value => Some (Num (NegInt value))
  | WriteNegativeZero => Some (Num (Float NegativeZero))
  | WriteOther text => (fun d => Num (Float d)) <$> f64 text
  end.

(** The value that a document writes, if it is JSON. *)
Fixpoint value_of (doc : Doc) : option Value :=
  match doc with
  | DNull => Some Null
  | DBool value => Some (Bool value)
  | DNumber n => number_value n
  | DString text => Some (Str text)
  | DArray elements breaks => if breaks then None else Arr <$> mapM value_of elements
  | DObject members breaks => if breaks then None else Obj <$> mapM (fun m => pair m.1 <$> value_of m.2) members
  | DBroken => None
  end.
End meaning.

(** The depth to which its arrays and objects nest. *)
Fixpoint nesting (doc : Doc) : Z :=
  match doc with
  | DArray elements _ => 1 + foldr (fun e n => Z.max (nesting e) n) 0 elements
  | DObject members _ => 1 + foldr (fun m n => Z.max (nesting m.2) n) 0 members
  | _ => 0
  end.

(** No object repeats a field. *)
Fixpoint distinct (doc : Doc) : bool :=
  match doc with
  | DArray elements _ => forallb distinct elements
  | DObject members _ => bool_decide (NoDup members.*1) && forallb (fun m => distinct m.2) members
  | _ => true
  end.

(** The integers of a document are negative where they are written with a sign. *)
Fixpoint signed (doc : Doc) : bool :=
  match doc with
  | DNumber (WriteI64 value) => value <? 0
  | DArray elements _ => forallb signed elements
  | DObject members _ => forallb (fun m => signed m.2) members
  | _ => true
  end.

(** The numbers of a document that are not integers of 64 bits, by their texts. *)
Fixpoint other_numbers (doc : Doc) : list (list byte) :=
  match doc with
  | DNumber (WriteOther text) => [text]
  | DArray elements _ => flat_map other_numbers elements
  | DObject members _ => flat_map (fun m => other_numbers m.2) members
  | _ => []
  end.

(** The reader of doubles that a build has: the standard library's, of a number as it is written, or
    [serde_json]'s own. *)
Definition double_reader (serde_f64 std_f64 : list byte -> option Double) (arbitrary_precision : bool) : list byte -> option Double :=
  if arbitrary_precision then std_f64 else serde_f64.

(** Readers that agree on a document's numbers give it the same value. *)
Lemma value_of_agree f g doc : (forall text, text ∈ other_numbers doc -> f text = g text) -> value_of f doc = value_of g doc.
Proof.
  induction doc as [|b|n|t| |elements breaks IH|members breaks IH] using doc_ind; intros H; try done.
  - destruct n; try done. cbn. by rewrite H by (cbn; by left).
  - cbn [value_of]. destruct breaks; [done|]. f_equal. cbn [other_numbers] in H. induction IH as [|e elements He _ IH]; [done|].
    cbn [mapM flat_map] in *. rewrite He by (intros; apply H, elem_of_app; by left). rewrite IH by (intros; apply H, elem_of_app; by right). done.
  - cbn [value_of]. destruct breaks; [done|]. f_equal. cbn [other_numbers] in H. induction IH as [|e members He _ IH]; [done|].
    cbn [mapM flat_map] in *. rewrite He by (intros; apply H, elem_of_app; by left). rewrite IH by (intros; apply H, elem_of_app; by right). done.
Qed.

Section exact.
Context (serde_f64 std_f64 : list byte -> option Double) (arbitrary_precision : bool).

Abbreviation visit := (visit serde_f64 std_f64 arbitrary_precision).
Abbreviation value_of := (value_of (double_reader serde_f64 std_f64 arbitrary_precision)).

(** A document that fits below [depth] others. *)
Definition fits (depth : Z) (doc : Doc) : Prop := nesting doc = 0 \/ depth + nesting doc <= MAX_JSON_DEPTH.

Lemma enter_ok depth inner : enter depth = Ok inner <-> inner = depth + 1 /\ depth + 1 <= MAX_JSON_DEPTH.
Proof.
  unfold enter. destruct (Z.ltb_spec MAX_JSON_DEPTH (depth + 1)); split; try done; try lia.
  - intros E. apply ok_inj in E. lia.
  - by intros [-> _].
Qed.

Lemma nesting_nonneg doc : 0 <= nesting doc.
Proof.
  destruct doc as [| | | |elements breaks|members breaks|]; cbn [nesting]; try lia.
  - induction elements as [|e elements IH]; cbn [foldr]; lia.
  - induction members as [|e members IH]; cbn [foldr]; lia.
Qed.

Lemma deepest_le {A} (f : A -> Z) (l : list A) n : 0 <= n -> foldr (fun e m => Z.max (f e) m) 0 l <= n <-> Forall (fun e => f e <= n) l.
Proof. intros Hn. induction l as [|e l IH]; cbn [foldr]; [split; [constructor|lia]|]. rewrite Forall_cons, <- IH. lia. Qed.

(** What a visit of a document gives. *)
Definition visits (doc : Doc) : Prop := signed doc = true -> forall location depth v, 0 <= depth ->
  visit location depth doc = Ok v <-> value_of doc = Some v /\ fits depth doc /\ distinct doc = true.

Lemma visit_elements_exact depth breaks elements : 0 <= depth <= MAX_JSON_DEPTH -> Forall visits elements -> Forall (fun e => signed e = true) elements ->
  forall location array v,
  visit_elements (fun index element => visit (Element location index) depth element) breaks elements array = Ok v <->
  exists values, breaks = false /\ mapM value_of elements = Some values /\ v = Arr (array ++ values)
    /\ Forall (fun e => depth + nesting e <= MAX_JSON_DEPTH) elements /\ Forall (fun e => distinct e = true) elements.
Proof.
  intros Hd Hv Hs. induction elements as [|e elements IH]; intros location array v; cbn [visit_elements mapM].
  - destruct breaks; [split; [done|intros (values & ? & _); done]|]. split.
    + intros E. apply ok_inj in E as <-. exists []. by rewrite app_nil_r.
    + intros (values & _ & Hm & -> & _). injection Hm as <-. by rewrite app_nil_r.
  - apply Forall_cons in Hv as [He Hv]. apply Forall_cons in Hs as [Hse Hs]. specialize (IH Hv Hs). pose proof (nesting_nonneg e). rewrite result_bind_ok. split.
    + intros (value & Hvis & Hrest). apply He in Hvis as (Hval & Hfit & Hdis); [|done|lia]. apply IH in Hrest as (values & Hb & Hm & -> & Hn & Hdd).
      exists (value :: values). rewrite Hval. cbn [mbind option_bind]. rewrite Hm. split_and!; [done|done|by rewrite <- app_assoc| |by constructor]. constructor; [|done].
      destruct Hfit as [Hz|]; lia.
    + intros (values & Hb & Hm & -> & Hn & Hdd). apply Forall_cons in Hn as [Hne Hn]. apply Forall_cons in Hdd as [Hde Hdd].
      destruct (value_of e) as [value|] eqn:Ev; [|done]. cbn [mbind option_bind] in Hm. destruct (mapM value_of elements) as [values'|] eqn:Em; [|done]. injection Hm as <-.
      exists value. split; [apply He; [done|lia|]; split_and!; [done|by right|done]|]. apply IH. exists values'. by rewrite <- app_assoc.
Qed.

Lemma contains_key_spec name (object : list (list byte * Value)) : contains_key name object = true <-> name ∈ object.*1.
Proof.
  unfold contains_key. rewrite existsb_exists. setoid_rewrite <- list_elem_of_In. setoid_rewrite bool_decide_eq_true. rewrite list_elem_of_fmap. naive_solver.
Qed.

Lemma visit_members_exact depth breaks members : 0 <= depth <= MAX_JSON_DEPTH -> Forall (fun m => visits m.2) members -> Forall (fun m => signed m.2 = true) members ->
  forall location at_ object v,
  visit_members (fun name member => visit (Field location name) depth member) at_ breaks members object = Ok v <->
  exists values, breaks = false /\ mapM (fun m => pair m.1 <$> value_of m.2) members = Some values /\ v = Obj (object ++ values)
    /\ Forall (fun m => depth + nesting m.2 <= MAX_JSON_DEPTH) members /\ Forall (fun m => distinct m.2 = true) members
    /\ NoDup members.*1 /\ Forall (fun name => name ∉ object.*1) members.*1.
Proof.
  intros Hd Hv Hs. induction members as [|[name e] members IH]; intros location at_ object v; cbn [visit_members mapM fmap list_fmap fst].
  - destruct breaks; [split; [done|intros (values & ? & _); done]|]. split.
    + intros E. apply ok_inj in E as <-. exists []. rewrite app_nil_r. split_and!; try done; constructor.
    + intros (values & _ & Hm & -> & _). injection Hm as <-. by rewrite app_nil_r.
  - apply Forall_cons in Hv as [He Hv]. apply Forall_cons in Hs as [Hse Hs]. cbn [snd] in *. specialize (IH Hv Hs). pose proof (nesting_nonneg e).
    setoid_rewrite NoDup_cons. setoid_rewrite Forall_cons. cbn [snd]. destruct (contains_key name object) eqn:Ek.
    { apply contains_key_spec in Ek. split; [done|]. intros (values & _ & _ & _ & _ & _ & _ & Hn & _). done. }
    assert (name ∉ object.*1) as Hnot by (intros Hin; apply contains_key_spec in Hin; congruence). rewrite result_bind_ok. split.
    + intros (value & Hvis & Hrest). apply He in Hvis as (Hval & Hfit & Hdis); [|done|lia]. apply IH in Hrest as (values & Hb & Hm & -> & Hn & Hdd & Hnd & Hout).
      exists ((name, value) :: values). rewrite Hval. cbn [fmap option_fmap option_map mbind option_bind]. rewrite Hm. rewrite fmap_app in Hout. split_and!; try done.
      * by rewrite <- app_assoc.
      * destruct Hfit as [Hz|]; lia.
      * intros Hin. rewrite Forall_forall in Hout. specialize (Hout name Hin). apply Hout. apply elem_of_app. right. by left.
      * eapply Forall_impl; [exact Hout|]. intros x Hx Hin. apply Hx, elem_of_app. by left.
    + intros (values & Hb & Hm & -> & [Hne Hn] & [Hde Hdd] & [Hnew Hnd] & _ & Hout).
      destruct (value_of e) as [value|] eqn:Ev; [|done]. cbn [fmap option_fmap option_map mbind option_bind] in Hm.
      destruct (mapM (fun m => pair m.1 <$> value_of m.2) members) as [values'|] eqn:Em; [|done]. injection Hm as <-.
      exists value. split; [apply He; [done|lia|]; split_and!; [done|by right|done]|]. apply IH. exists values'. rewrite <- app_assoc. split_and!; try done.
      rewrite Forall_forall in *. intros x Hx Hin. rewrite fmap_app in Hin. apply elem_of_app in Hin as [Hin|Hin]; [by apply (Hout x Hx)|]. apply list_elem_of_singleton in Hin as ->. done.
Qed.

Lemma array_fits depth elements breaks : 0 <= depth ->
  fits depth (DArray elements breaks) <-> depth + 1 <= MAX_JSON_DEPTH /\ Forall (fun e => depth + 1 + nesting e <= MAX_JSON_DEPTH) elements.
Proof.
  intros Hd. unfold fits. cbn [nesting]. pose proof (nesting_nonneg (DArray elements breaks)) as Hn. cbn [nesting] in Hn. set (n := foldr _ _ _) in *.
  assert (0 <= n) as Hn0 by (unfold n; clear; induction elements; cbn [foldr]; lia). split.
  - intros [?|H]; [lia|]. split; [lia|]. assert (n <= MAX_JSON_DEPTH - depth - 1) as Hle by lia. apply (deepest_le nesting) in Hle; [|lia]. eapply Forall_impl; [exact Hle|]. cbn. lia.
  - intros [H1 H2]. right. enough (n <= MAX_JSON_DEPTH - depth - 1) by lia. apply (deepest_le nesting); [lia|]. eapply Forall_impl; [exact H2|]. cbn. lia.
Qed.

Lemma object_fits depth members breaks : 0 <= depth ->
  fits depth (DObject members breaks) <-> depth + 1 <= MAX_JSON_DEPTH /\ Forall (fun m => depth + 1 + nesting m.2 <= MAX_JSON_DEPTH) members.
Proof.
  intros Hd. unfold fits. cbn [nesting]. set (n := foldr _ _ _) in *.
  assert (0 <= n) as Hn0 by (unfold n; clear; induction members; cbn [foldr]; lia). split.
  - intros [?|H]; [lia|]. split; [lia|]. assert (n <= MAX_JSON_DEPTH - depth - 1) as Hle by lia. apply (deepest_le (fun m => nesting m.2)) in Hle; [|lia]. eapply Forall_impl; [exact Hle|]. cbn. lia.
  - intros [H1 H2]. right. enough (n <= MAX_JSON_DEPTH - depth - 1) by lia. apply (deepest_le (fun m => nesting m.2)); [lia|]. eapply Forall_impl; [exact H2|]. cbn. lia.
Qed.

(** What the members of an object give, once it is entered. *)
Definition members_read (depth : Z) (members : list (list byte * Doc)) (breaks : bool) (v : Value) : Prop :=
  depth + 1 <= MAX_JSON_DEPTH /\ exists values, breaks = false /\ mapM (fun m => pair m.1 <$> value_of m.2) members = Some values /\ v = Obj values
    /\ Forall (fun m => depth + 1 + nesting m.2 <= MAX_JSON_DEPTH) members /\ Forall (fun m => distinct m.2 = true) members /\ NoDup members.*1.

Lemma members_read_spec depth members breaks v : 0 <= depth ->
  members_read depth members breaks v <-> value_of (DObject members breaks) = Some v /\ fits depth (DObject members breaks) /\ distinct (DObject members breaks) = true.
Proof.
  intros Hd. rewrite object_fits by done. unfold members_read. cbn [Json.value_of distinct]. rewrite andb_true_iff, bool_decide_eq_true, forallb_forall. split.
  - intros (He & values & -> & Hm & -> & Hn & Hdd & Hnd). rewrite Hm. split_and!; try done. intros x Hx%list_elem_of_In. rewrite Forall_forall in Hdd. by apply Hdd.
  - intros (Hv & [He Hn] & Hnd & Hdd). destruct breaks; [done|]. split; [done|]. destruct (mapM _ members) as [values|]; [|done]. cbn in Hv. exists values.
    assert (v = Obj values) as -> by congruence. split_and!; try done. apply Forall_forall. intros x Hx%list_elem_of_In. by apply Hdd.
Qed.

Lemma plain_members depth location breaks members v : 0 <= depth -> Forall (fun m => visits m.2) members -> Forall (fun m => signed m.2 = true) members ->
  (inner ← enter depth; visit_members (fun name member => visit (Field location name) inner member) location breaks members []) = Ok v <-> members_read depth members breaks v.
Proof.
  intros Hd Hv Hs. rewrite result_bind_ok. setoid_rewrite enter_ok. unfold members_read. split.
  - intros (inner & (-> & He) & H). apply visit_members_exact in H as (values & Hb & Hm & -> & Hn & Hdd & Hnd & _); [|lia|done|done]. split; [done|]. by exists values.
  - intros (He & values & Hb & Hm & -> & Hn & Hdd & Hnd). exists (depth + 1). split; [done|]. apply visit_members_exact; [lia|done|done|]. exists values. split_and!; try done.
    apply Forall_forall. intros x _ Hx. by apply elem_of_nil in Hx.
Qed.

(** An object whose first field has the name that [serde_json] gives to numbers. *)
Lemma number_field_members depth location breaks member rest v : 0 <= depth -> visits member -> signed member = true ->
  Forall (fun m => visits m.2) rest -> Forall (fun m => signed m.2 = true) rest ->
  (value ← visit (Field location NUMBER_FIELD) (depth + 1) member;
   _ ← (match rest with [] => if breaks then Err Syntax else Ok tt | _ => Ok tt end);
   inner ← enter depth;
   visit_members (fun name member => visit (Field location name) inner member) location breaks rest [(NUMBER_FIELD, value)]) = Ok v
  <-> members_read depth ((NUMBER_FIELD, member) :: rest) breaks v.
Proof.
  intros Hd Hv Hs Hvr Hsr. unfold members_read. cbn [mapM fmap list_fmap fst snd]. setoid_rewrite Forall_cons. setoid_rewrite NoDup_cons. cbn [snd]. rewrite !result_bind_ok. split.
  - intros (value & Hvis & H). apply result_bind_ok in H as (_ & _ & H). apply result_bind_ok in H as (inner & He & H). apply enter_ok in He as [-> He].
    apply Hv in Hvis as (Hval & Hfit & Hdis); [|done|lia]. apply visit_members_exact in H as (values & Hb & Hm & -> & Hn & Hdd & Hnd & Hout); [|lia|done|done]. split; [done|].
    exists ((NUMBER_FIELD, value) :: values). rewrite Hval. cbn [fmap option_fmap option_map mbind option_bind]. rewrite Hm. split_and!; try done.
    + destruct Hfit as [Hz|]; lia.
    + intros Hin. rewrite Forall_forall in Hout. apply (Hout _ Hin). by left.
  - intros (He & values & Hb & Hm & -> & [Hne Hn] & [Hde Hdd] & Hnew & Hnd). destruct (value_of member) as [value|] eqn:Ev; [|done]. cbn [fmap option_fmap option_map mbind option_bind] in Hm.
    destruct (mapM _ rest) as [values'|] eqn:Em; [|done]. injection Hm as <-. exists value. split; [apply Hv; [done|lia|]; split_and!; [done|by right|done]|].
    subst breaks. apply result_bind_ok. exists tt. split; [by destruct rest|]. apply result_bind_ok. exists (depth + 1). split; [by apply enter_ok|].
    apply visit_members_exact; [lia|done|done|]. exists values'. split_and!; try done. apply Forall_forall. intros x Hx Hin. apply list_elem_of_singleton in Hin as ->. done.
Qed.

Lemma visit_exact doc : visits doc.
Proof.
  induction doc as [|b|n|t| |elements breaks Hv|members breaks Hv] using doc_ind; intros Hs location depth v Hd.
  - cbn. split; [intros E; apply ok_inj in E as <-; split_and!; try done; by left|by intros (Hv & _); f_equal; congruence].
  - cbn. split; [intros E; apply ok_inj in E as <-; split_and!; try done; by left|by intros (Hv & _); f_equal; congruence].
  - assert (visit_number serde_f64 std_f64 arbitrary_precision n = ok_or (number_value (double_reader serde_f64 std_f64 arbitrary_precision) n) Syntax) as Hn.
    { destruct n as [z|z| |text]; cbn [visit_number number_value ok_or]; unfold visit_i64, number; try done.
      - cbn [signed] in Hs. destruct (Z.eqb_spec z 0); [lia|]. by rewrite andb_false_r.
      - by destruct arbitrary_precision.
      - unfold double_reader. by destruct arbitrary_precision. }
    cbn [Json.visit Json.value_of]. rewrite Hn, ok_or_ok. split; [intros ->; split_and!; try done; by left|by intros (? & _)].
  - cbn. split; [intros E; apply ok_inj in E as <-; split_and!; try done; by left|by intros (Hv & _); f_equal; congruence].
  - cbn. split; [done|by intros (? & _)].
  - cbn [signed] in Hs. rewrite forallb_forall in Hs. assert (Forall (fun e => signed e = true) elements) as Hs' by (apply Forall_forall; intros e He%list_elem_of_In; auto).
    rewrite array_fits by done. cbn [Json.visit Json.value_of distinct]. rewrite result_bind_ok, forallb_forall. setoid_rewrite enter_ok. split.
    + intros (inner & (-> & He) & H). apply visit_elements_exact in H as (values & -> & Hm & -> & Hn & Hdd); [|lia|done|done]. rewrite Hm. split_and!; try done.
      intros x Hx%list_elem_of_In. rewrite Forall_forall in Hdd. by apply Hdd.
    + intros (Hval & [He Hn] & Hdd). destruct breaks; [done|]. exists (depth + 1). split; [done|]. destruct (mapM value_of elements) as [values|] eqn:Em; [|done]. cbn in Hval.
      apply visit_elements_exact; [lia|done|done|]. exists values. split_and!; try done; [cbn [app]; congruence|]. apply Forall_forall. intros x Hx%list_elem_of_In. by apply Hdd.
  - rewrite <- members_read_spec by done. cbn [signed] in Hs. rewrite forallb_forall in Hs.
    assert (Forall (fun m => signed m.2 = true) members) as Hs' by (apply Forall_forall; intros e He%list_elem_of_In; auto). cbn [Json.visit].
    destruct members as [|[name member] rest].
    + destruct (arbitrary_precision && breaks) eqn:E; [|by apply plain_members].
      apply andb_prop in E as [_ ->]. split; [done|]. by intros (_ & values & ? & _).
    + destruct (arbitrary_precision && bool_decide (name = NUMBER_FIELD)) eqn:E; [|by apply plain_members]. apply andb_prop in E as [_ E%bool_decide_eq_true]. subst name.
      apply Forall_cons in Hv as [Hvm Hv]. apply Forall_cons in Hs' as [Hsm Hsr]. by apply number_field_members.
Qed.
End exact.

Lemma read_document_ok serde_f64 std_f64 arbitrary_precision document name v :
  signed (root document) = true ->
  read_document serde_f64 std_f64 arbitrary_precision document name = Ok v <->
  trailing document = false /\ value_of (double_reader serde_f64 std_f64 arbitrary_precision) (root document) = Some v
  /\ nesting (root document) <= MAX_JSON_DEPTH /\ distinct (root document) = true.
Proof.
  intros Hs. unfold read_document. rewrite result_bind_ok.
  setoid_rewrite (fun v => visit_exact serde_f64 std_f64 arbitrary_precision (root document) Hs (Root name) 0 v (Z.le_refl 0)).
  assert (fits 0 (root document) <-> nesting (root document) <= MAX_JSON_DEPTH) as Hfits by (unfold fits; rewrite Z.add_0_l; unfold MAX_JSON_DEPTH; lia). setoid_rewrite Hfits. split.
  - intros (value & (Hv & Hn & Hd) & H). destruct (trailing document); [done|]. apply ok_inj in H as <-. done.
  - intros (-> & Hv & Hn & Hd). by exists v.
Qed.

(** C30: with and without [serde_json]'s [arbitrary_precision] feature, a document is read exactly when
    it is JSON whose numbers the build's reader of doubles takes, no object repeats a field, arrays and
    objects nest at most 32 deep and no text follows it; the value is the one that it writes, even
    where a field has the name that the feature gives to numbers. What a document holds depends on the
    feature at most through the doubles: one whose numbers are integers of 64 bits, or on whose other
    numbers the two readers agree, is read alike with and without the feature. *)
Theorem json_document_exact serde_f64 std_f64 document name :
  signed (root document) = true ->
  (forall arbitrary_precision v, read_document serde_f64 std_f64 arbitrary_precision document name = Ok v <->
     trailing document = false /\ value_of (double_reader serde_f64 std_f64 arbitrary_precision) (root document) = Some v
     /\ nesting (root document) <= MAX_JSON_DEPTH /\ distinct (root document) = true)
  /\ ((forall text, text ∈ other_numbers (root document) -> std_f64 text = serde_f64 text) ->
      forall v, read_document serde_f64 std_f64 true document name = Ok v <-> read_document serde_f64 std_f64 false document name = Ok v).
Proof.
  intros Hs. split; [intros; by apply read_document_ok|]. intros Hf v. rewrite !read_document_ok by done. cbn [double_reader].
  by rewrite (value_of_agree std_f64 serde_f64) by done.
Qed.

Definition sample_document : Document :=
  mkDocument (DObject [(NUMBER_FIELD, DString (bytes_of "1")); (bytes_of "port", DNumber (WriteU64 80)); (bytes_of "x", DNumber (WriteOther (bytes_of "1.5")))] false) false.
(** Two readers, of which one takes fewer texts. *)
Definition sample_serde (text : list byte) : option Double := if bool_decide (text = bytes_of "1.5") then Some (Finite 3 (-1)) else None.
Definition sample_std (text : list byte) : option Double :=
  if bool_decide (text = bytes_of "1.5") then Some (Finite 3 (-1)) else if bool_decide (text = bytes_of "0.5") then Some (Finite 1 (-1)) else None.

Lemma json_document_exact_witness :
  read_document sample_serde sample_std true sample_document [] = read_document sample_serde sample_std false sample_document []
  /\ is_ok (read_document sample_serde sample_std true sample_document []) = true.
Proof.
  destruct (json_document_exact sample_serde sample_std sample_document []) as [Hr Ha]; [by vm_compute|].
  destruct (value_of sample_std (root sample_document)) as [v|] eqn:E; [|vm_compute in E; discriminate].
  assert (read_document sample_serde sample_std true sample_document [] = Ok v) as Ht by (apply Hr; split_and!; [done|exact E|by vm_compute|by vm_compute]).
  rewrite Ht. split; [|done]. symmetry. apply Ha; [|done]. intros text Hin. apply list_elem_of_singleton in Hin as ->. by vm_compute.
Defined.
