(* ===== verification/PolicyFile.v ===== *)
(** * Egress policy files (src/nvx-rs/src/host/network/policy/mod.rs)

    The rules of a policy document, in the form of MXC and in the legacy flat form, and their
    compilation into native rules. *)

From stdpp Require Import sorting gmap.
From S2P Require Import Prelude Addresses Lowering LoweringFacts LoweringSweep AddressText EgressRules Json.
#[local] Open Scope Z_scope.

(** ** Values as the policy reads them *)

Definition MAX_POLICY_FILE_SIZE : Z := 1024 * 1024.

Inductive PolicyError :=
| NotObject
| NotArray
| UnknownField (name : list byte)
| CidrRequired
| MixedForms
| ProtocolUnknown
| EndPortRequiresPort
| PortRequiresProtocol
| NoDestination
| NoSelector
| RulesInvalid (error : LoweringError)
| FileUnreadable
| FileTooLarge
| FileNotUtf8
| FileNotJson
| FileTooDeep
| DuplicateField (object : Location) (field : list byte).

Abbreviation policy := (result PolicyError).

Definition ROOT_FIELDS : list (list byte) := [bytes_of "allow"; bytes_of "deny"].
Definition MXC_RULE_FIELDS : list (list byte) := [bytes_of "to"; bytes_of "ports"].
Definition PEER_FIELDS : list (list byte) := [bytes_of "cidr"; bytes_of "except"].
Definition PORT_FIELDS : list (list byte) := [bytes_of "protocol"; bytes_of "port"; bytes_of "endPort"].
Definition LEGACY_RULE_FIELDS : list (list byte) := [bytes_of "cidr"; bytes_of "except"; bytes_of "protocol"; bytes_of "port"; bytes_of "endPort"].

(** [Object], its fields. *)
Definition Object : Type := list (list byte * Value).

(** [Map::get]. *)
Fixpoint get (self : Object) (name : list byte) : option Value :=
  match self with [] => None | (n, value) :: self => if bool_decide (n = name) then Some value else get self name end.

Definition has_any (self : Object) (names : list (list byte)) : bool := existsb (fun name => contains_key name self) names.

(** The order of texts in code points, which UTF-8 keeps: that of their bytes. *)
Fixpoint text_ltb (a b : list byte) : bool :=
  match a, b with
  | [], [] => false
  | [], _ :: _ => true
  | _ :: _, [] => false
  | x :: a, y :: b => if byte_val x <? byte_val y then true else if byte_val y <? byte_val x then false else text_ltb a b
  end.

(** [Iterator::min]. *)
Definition min_text (names : list (list byte)) : option (list byte) :=
  foldl (fun least name => match least with Some l => if text_ltb name l then Some name else least | None => Some name end) None names.

Definition check_fields (self : Object) (names : list (list byte)) : policy unit :=
  match min_text (List.filter (fun name => negb (bool_decide (name ∈ names))) self.*1) with
  | Some name => Err (UnknownField name)
  | None => Ok tt
  end.

Definition object (value : Value) : policy Object := match value with Obj fields => Ok fields | _ => Err NotObject end.
Definition array (value : Value) : policy (list Value) := match value with Arr elements => Ok elements | _ => Err NotArray end.

(** A double compared with a power of two. *)
Definition at_least (d : Double) (power : Z) : bool :=
  match d with
  | NegativeZero => false
  | Finite mantissa exponent => if 0 <=? exponent then 2 ^ power <=? mantissa * 2 ^ exponent else 2 ^ power * 2 ^ (- exponent) <=? mantissa
  end.
Definition at_most_negated (d : Double) (power : Z) : bool :=
  match d with
  | NegativeZero => false
  | Finite mantissa exponent => if 0 <=? exponent then mantissa * 2 ^ exponent <=? - 2 ^ power else mantissa <=? - (2 ^ power * 2 ^ (- exponent))
  end.

Definition port_value (value : Value) : PortValue :=
  match value with
  | Num (PosInt port) => PortInteger port
  | Num (NegInt port) => PortInteger port
  | Num (Float double) =>
      if at_least double 63 then PortInteger (2 ^ 127 - 1)
      else if at_most_negated double 63 then PortInteger (- 2 ^ 127)
      else PortOther
  | _ => PortOther
  end.

(** [RuleProtocol::parse] of a text as bytes. *)
Definition parse_protocol (text : list byte) : option RuleProtocol :=
  if bool_decide (text = bytes_of "tcp") then Some RuleTcp
  else if bool_decide (text = bytes_of "udp") then Some RuleUdp
  else if bool_decide (text = bytes_of "icmp") then Some RuleIcmp
  else if bool_decide (text = bytes_of "any") then Some RuleAny
  else None.

Definition protocol (value : Value) : policy RuleProtocol :=
  ok_or (match value with Str text => parse_protocol text | _ => None end) ProtocolUnknown.

Definition parse_network (value : Value) : lowering Network :=
  match value with Str text => EgressRules.network text | _ => Err CidrNotString end.

(** ** Rules *)

Definition parse_peer_fields (object : Object) : policy (Family * list Interval) :=
  match get object (bytes_of "cidr") with
  | None => Err CidrRequired
  | Some cidr =>
      parent ← map_err RulesInvalid (parse_network cidr);
      exceptions ← match get object (bytes_of "except") with Some except => array except | None => Ok [] end;
      map_err RulesInvalid (destination parent (parse_network <$> exceptions))
  end.

Definition parse_peer (value : Value) : policy (Family * list Interval) :=
  peer ← object value;
  _ ← check_fields peer PEER_FIELDS;
  parse_peer_fields peer.

Definition parse_legacy_rule (rule : Object) : policy (list Rule) :=
  _ ← check_fields rule LEGACY_RULE_FIELDS;
  peer ← parse_peer_fields rule;
  let destinations := Some [peer] in
  let port := get rule (bytes_of "port") in
  let end_port := get rule (bytes_of "endPort") in
  if is_some end_port && negb (is_some port) then Err EndPortRequiresPort
  else
    match get rule (bytes_of "protocol") with
    | None => if is_some port then Err PortRequiresProtocol else Ok (combine destinations None)
    | Some protocol =>
        protocol ← PolicyFile.protocol protocol;
        selectors ← map_err RulesInvalid (port_selectors protocol (port_value <$> port) (port_value <$> end_port));
        Ok (combine destinations (Some selectors))
    end.

Definition parse_mxc_port (value : Value) : policy (list Selector) :=
  port ← object value;
  _ ← check_fields port PORT_FIELDS;
  protocol ← match get port (bytes_of "protocol") with Some protocol => PolicyFile.protocol protocol | None => Ok RuleAny end;
  map_err RulesInvalid (port_selectors protocol (port_value <$> get port (bytes_of "port")) (port_value <$> get port (bytes_of "endPort"))).

(** The loops of [parse_mxc_rule]. *)
Fixpoint parse_peers (peers : list Value) (parsed : list (Family * list Interval)) : policy (list (Family * list Interval)) :=
  match peers with
  | [] => Ok parsed
  | peer :: peers => d ← parse_peer peer; parse_peers peers (parsed ++ [d])
  end.
Fixpoint parse_mxc_ports (ports : list Value) (parsed : list Selector) : policy (list Selector) :=
  match ports with
  | [] => Ok parsed
  | port :: ports => selectors ← parse_mxc_port port; parse_mxc_ports ports (parsed ++ selectors)
  end.

Definition parse_mxc_rule (rule : Object) : policy (list Rule) :=
  _ ← check_fields rule MXC_RULE_FIELDS;
  destinations ← match get rule (bytes_of "to") with
                 | None => Ok None
                 | Some to =>
                     peers ← array to;
                     if is_empty peers then Err NoDestination
                     else parsed ← parse_peers peers []; Ok (Some (group_destinations parsed))
                 end;
  selectors ← match get rule (bytes_of "ports") with
              | None => Ok None
              | Some ports =>
                  ports ← array ports;
                  if is_empty ports then Err NoSelector else parsed ← parse_mxc_ports ports []; Ok (Some parsed)
              end;
  Ok (combine destinations selectors).

Definition parse_rule (value : Value) : policy (list Rule) :=
  rule ← object value;
  if has_any rule LEGACY_RULE_FIELDS then
    if has_any rule MXC_RULE_FIELDS then Err MixedForms else parse_legacy_rule rule
  else parse_mxc_rule rule.

(** The loop of [parse_category]. *)
Fixpoint parse_elements (elements : list Value) (rules : list Rule) : policy (list Rule) :=
  match elements with
  | [] => Ok rules
  | element :: elements => more ← parse_rule element; parse_elements elements (rules ++ more)
  end.

Definition parse_category (value : option Value) : policy (list Rule) :=
  elements ← match value with Some value => array value | None => Ok [] end;
  parse_elements elements [].

Definition compile_category (value : option Value) : policy (list NativeRule) :=
  rules ← parse_category value;
  map_err RulesInvalid (lower rules).

(** ** Policies *)

Record CompiledEgressPolicy := mkCompiledEgressPolicy { allow : list NativeRule; deny : list NativeRule }.

Definition compile_policy (value : Value) : policy CompiledEgressPolicy :=
  root ← object value;
  _ ← check_fields root ROOT_FIELDS;
  allow ← compile_category (get root (bytes_of "allow"));
  deny ← compile_category (get root (bytes_of "deny"));
  Ok (mkCompiledEgressPolicy allow deny).

(** [compile_policy_bytes], over what [serde_json] reads of a text. *)
Definition compile_policy_bytes (serde : list byte -> Document) (serde_f64 std_f64 : list byte -> option Double) (arbitrary_precision : bool)
    (data : list byte) : policy CompiledEgressPolicy :=
  if MAX_POLICY_FILE_SIZE <? len data then Err FileTooLarge
  else if negb (is_utf8 data) then Err FileNotUtf8
  else
    value ← map_err (fun error => match error with Syntax => FileNotJson | TooDeep => FileTooDeep | Repeated object field => DuplicateField object field end)
              (read_document serde_f64 std_f64 arbitrary_precision (serde data) (bytes_of "egress policy"));
    compile_policy value.

(** [compile_policy_file], of a file's contents, [None] if they cannot be read: at most one byte more
    than the limit is. *)
Definition compile_policy_file (serde : list byte -> Document) (serde_f64 std_f64 : list byte -> option Double) (arbitrary_precision : bool)
    (contents : option (list byte)) : policy CompiledEgressPolicy :=
  match contents with
  | None => Err FileUnreadable
  | Some contents => compile_policy_bytes serde serde_f64 std_f64 arbitrary_precision (ztake (MAX_POLICY_FILE_SIZE + 1) contents)
  end.

(** ** What a document says

    The rules that a document's values write, as a caller of the library would write them. *)

Definition text_of (value : Value) : option (list byte) := match value with Str text => Some text | _ => None end.
Definition texts_of (value : option Value) : option (list (list byte)) :=
  match value with None => Some [] | Some (Arr values) => mapM text_of values | _ => None end.
Definition only (o : Object) (names : list (list byte)) : bool := forallb (fun name => bool_decide (name ∈ names)) o.*1.

Definition peer_of (o : Object) : option Destination :=
  cidr ← get o (bytes_of "cidr") ≫= text_of; except ← texts_of (get o (bytes_of "except")); Some (mkDestination cidr except).
Definition mxc_peer_of (value : Value) : option Destination :=
  match value with Obj o => if only o PEER_FIELDS then peer_of o else None | _ => None end.

(** A port, which must be an integer where it is written. *)
Definition port_of (value : option Value) : option (option Z) :=
  match value with None => Some None | Some value => match port_value value with PortInteger i => Some (Some i) | PortOther => None end end.

Definition protocol_name (p : RuleProtocol) : Protocol :=
  match p with RuleTcp => ProtocolTcp | RuleUdp => ProtocolUdp | RuleIcmp => ProtocolIcmp | RuleAny => ProtocolAny end.

Definition selector_with (p : option RuleProtocol) (o : Object) : option PortSelector :=
  p ← p; port ← port_of (get o (bytes_of "port")); end_port ← port_of (get o (bytes_of "endPort")); Some (mkPortSelector (protocol_name p) port end_port).
Definition mxc_selector_of (value : Value) : option PortSelector :=
  match value with
  | Obj o => if only o PORT_FIELDS
             then selector_with (match get o (bytes_of "protocol") with None => Some RuleAny | Some p => text_of p ≫= parse_protocol end) o else None
  | _ => None
  end.

(** The elements of a field that must have some, if it is there. *)
Definition some_of {A} (read : Value -> option A) (value : option Value) : option (list A) :=
  match value with None => Some [] | Some (Arr (v :: values)) => mapM read (v :: values) | _ => None end.

(** ** Fields, destinations and ports *)

Lemma min_text_some names : forall l, is_some (foldl (fun least name => match least with Some l => if text_ltb name l then Some name else least | None => Some name end) (Some l) names) = true.
Proof. induction names as [|n names IH]; intros l; [done|]. cbn [foldl]. destruct (text_ltb n l); apply IH. Qed.

Lemma min_text_none names : min_text names = None <-> names = [].
Proof.
  split; [|by intros ->]. destruct names as [|name names]; [done|]. unfold min_text. cbn [foldl]. intros E. pose proof (min_text_some names name) as H. by rewrite E in H.
Qed.

Lemma check_fields_ok o names u : check_fields o names = Ok u <-> only o names = true.
Proof.
  unfold check_fields, only. destruct u. rewrite forallb_forall. destruct (min_text _) as [name|] eqn:E.
  - split; [done|]. intros H. assert (List.filter (fun name => negb (bool_decide (name ∈ names))) o.*1 = []) as Hn; [|by rewrite Hn in E].
    clear E. induction o.*1 as [|x l IH]; [done|]. cbn [List.filter]. rewrite (H x) by (by left). cbn [negb]. apply IH. intros y Hy. apply H. by right.
  - apply min_text_none in E. split; [|done]. intros _ x Hx. destruct (bool_decide (x ∈ names)) eqn:Ex; [done|]. exfalso.
    assert (x ∈ List.filter (fun name => negb (bool_decide (name ∈ names))) o.*1) as Hin; [|rewrite E in Hin; by apply elem_of_nil in Hin].
    apply list_elem_of_In, filter_In. split; [done|]. by rewrite Ex.
Qed.

Lemma parse_network_ok value n : parse_network value = Ok n <-> exists text, value = Str text /\ EgressRules.network text = Ok n.
Proof. destruct value; cbn; naive_solver. Qed.

Lemma exceptions_texts parent values : forall index excluded all, excluded_from parent (parse_network <$> values) index excluded = Ok all ->
  exists texts, values = Str <$> texts.
Proof.
  induction values as [|v values IH]; intros index excluded all; [by exists []|]. cbn [fmap list_fmap excluded_from]. intros (m & Hm & H)%result_bind_ok.
  apply parse_network_ok in Hm as (text & -> & _). destruct (negb _); [done|]. destruct (IH _ _ _ H) as [texts ->]. by exists (text :: texts).
Qed.

Lemma texts_of_strs texts : mapM text_of (Str <$> texts) = Some texts.
Proof. induction texts as [|t texts IH]; [done|]. cbn [fmap list_fmap mapM text_of mbind option_bind]. by rewrite IH. Qed.

Lemma mapM_text values texts : mapM text_of values = Some texts -> values = Str <$> texts.
Proof.
  revert texts. induction values as [|v values IH]; intros texts; cbn [mapM]; [by intros [= <-]|]. destruct v; cbn [text_of mbind option_bind]; try done.
  destruct (mapM text_of values) as [ts|]; [|done]. cbn [mbind option_bind]. intros [= <-]. cbn [fmap list_fmap]. f_equal. by apply IH.
Qed.

Lemma parse_strs (texts : list (list byte)) : parse_network <$> (Str <$> texts) = EgressRules.network <$> texts.
Proof. rewrite <- list_fmap_compose. done. Qed.

(** A destination's fields give exactly what the destination that they write gives. *)
Lemma peer_fields_ok o r : parse_peer_fields o = Ok r <->
  exists d n, peer_of o = Some d /\ EgressRules.network (cidr d) = Ok n /\ destination n (EgressRules.network <$> except d) = Ok r.
Proof.
  unfold parse_peer_fields, peer_of. destruct (get o (bytes_of "cidr")) as [c|]; [|split; [done|by intros (d & n & ? & _)]]. cbn [mbind option_bind]. rewrite result_bind_ok. split.
  - intros (n & Hn & H). apply map_err_ok, parse_network_ok in Hn as (text & -> & Hn). cbn [text_of mbind option_bind]. apply result_bind_ok in H as (values & Hv & Hd). apply map_err_ok in Hd.
    assert (exists texts, values = Str <$> texts) as [texts ->].
    { unfold destination in Hd. apply result_bind_ok in Hd as (all & Ha & _). by apply exceptions_texts in Ha. }
    exists (mkDestination text texts), n. rewrite parse_strs in Hd. split_and!; [|done|done]. unfold texts_of. destruct (get o (bytes_of "except")) as [[]|]; cbn [array] in Hv; try done.
    + apply ok_inj in Hv as ->. rewrite texts_of_strs. done.
    + apply ok_inj in Hv. destruct texts; [done|discriminate].
  - intros (d & n & Hp & Hn & Hd). destruct c; cbn [text_of mbind option_bind] in Hp; try done. destruct (texts_of _) as [texts|] eqn:Et; [|done]. injection Hp as <-. cbn [EgressRules.cidr EgressRules.except] in *.
    exists n. split; [by apply map_err_ok|]. apply result_bind_ok. exists (Str <$> texts). unfold texts_of in Et. split.
    + destruct (get o (bytes_of "except")) as [[]|]; try done; [|by injection Et as <-]. cbn [array]. f_equal. by apply mapM_text.
    + apply map_err_ok. by rewrite parse_strs.
Qed.

Lemma object_ok value o : object value = Ok o <-> value = Obj o.
Proof. destruct value; cbn; split; try done; intros E; [apply ok_inj in E; by rewrite E|by injection E as ->]. Qed.

Lemma peer_ok value r : parse_peer value = Ok r <->
  exists d n, mxc_peer_of value = Some d /\ EgressRules.network (cidr d) = Ok n /\ destination n (EgressRules.network <$> except d) = Ok r.
Proof.
  unfold parse_peer, mxc_peer_of. rewrite result_bind_ok. setoid_rewrite object_ok. split.
  - intros (o & -> & (u & Hu & H)%result_bind_ok). apply check_fields_ok in Hu. rewrite Hu. by apply peer_fields_ok.
  - intros (d & n & Hp & H). destruct value; try done. destruct (only fields PEER_FIELDS) eqn:Eo; [|done]. exists fields. split; [done|]. apply result_bind_ok. exists tt. split; [by apply check_fields_ok|].
    apply peer_fields_ok. by exists d, n.
Qed.

Lemma array_ok value l : array value = Ok l <-> value = Arr l.
Proof. destruct value; cbn; split; try done; intros E; [apply ok_inj in E; by rewrite E|by injection E as ->]. Qed.

Lemma protocol_ok value p : protocol value = Ok p <-> text_of value ≫= parse_protocol = Some p.
Proof. unfold protocol. rewrite ok_or_ok. by destruct value. Qed.

Lemma rule_protocol_name p : rule_protocol (protocol_name p) = p.
Proof. by destruct p. Qed.

(** Port selectors, whose ports must be integers. *)
Lemma port_selectors_ok p o ss :
  port_selectors p (port_value <$> get o (bytes_of "port")) (port_value <$> get o (bytes_of "endPort")) = Ok ss <->
  exists s, selector_with (Some p) o = Some s /\ selectors_of s = Ok ss.
Proof.
  unfold selector_with, selectors_of. cbn [mbind option_bind]. set (a := get o (bytes_of "port")). set (b := get o (bytes_of "endPort")).
  assert (forall x, port_of x = None -> exists v, x = Some v /\ port_value v = PortOther) as Hnone.
  { intros [v|]; cbn [port_of]; [|done]. destruct (port_value v) eqn:E; [done|]. by exists v. }
  assert (forall x z, port_of x = Some z -> port_value <$> x = PortInteger <$> z) as Hsome.
  { intros [v|] z; cbn [port_of]; [|by intros [= <-]]. destruct (port_value v) eqn:E; [|done]. intros [= <-]. cbn. by rewrite E. }
  destruct (port_of a) as [za|] eqn:Ea; cbn [mbind option_bind].
  2: { destruct (Hnone a Ea) as (v & -> & Hv). split; [|by intros (s & ? & _)]. cbn [fmap option_fmap option_map]. rewrite Hv. unfold port_selectors. case_bool_decide; [done|]. by intros (r & Hr & _)%result_bind_ok. }
  rewrite (Hsome a za Ea). destruct (port_of b) as [zb|] eqn:Eb; cbn [mbind option_bind].
  2: { destruct (Hnone b Eb) as (v & -> & Hv). split; [|by intros (s & ? & _)]. cbn [fmap option_fmap option_map]. rewrite Hv. unfold port_selectors. destruct za as [i|]; cbn [fmap option_fmap option_map]; [|done].
       case_bool_decide; [done|]. intros (r & Hr & _)%result_bind_ok. unfold port_range in Hr. apply result_bind_ok in Hr as (x & _ & Hr). by apply result_bind_ok in Hr as (y & Hy & _). }
  rewrite (Hsome b zb Eb). split.
  - intros H. eexists. split; [done|]. cbn [ps_protocol ps_port ps_end_port]. by rewrite rule_protocol_name.
  - intros (s & Hs & H). injection Hs as <-. cbn [ps_protocol ps_port ps_end_port] in H. by rewrite rule_protocol_name in H.
Qed.

Lemma selector_ok_iff value ss : parse_mxc_port value = Ok ss <-> exists s, mxc_selector_of value = Some s /\ selectors_of s = Ok ss.
Proof.
  unfold parse_mxc_port, mxc_selector_of. rewrite result_bind_ok. setoid_rewrite object_ok. split.
  - intros (o & -> & (u & Hu & (p & Hp & H)%result_bind_ok)%result_bind_ok). apply check_fields_ok in Hu. rewrite Hu. apply map_err_ok, port_selectors_ok in H as (s & Hs & H). exists s. split; [|done].
    destruct (get o (bytes_of "protocol")) as [v|]; [apply protocol_ok in Hp; by rewrite Hp|]. by apply ok_inj in Hp as <-.
  - intros (s & Hs & H). destruct value; try done. destruct (only fields PORT_FIELDS) eqn:Eo; [|done]. exists fields. split; [done|]. apply result_bind_ok. exists tt. split; [by apply check_fields_ok|].
    set (p := match get fields (bytes_of "protocol") with None => Some RuleAny | Some p => text_of p ≫= parse_protocol end) in Hs. destruct p as [q|] eqn:Ep; [|done]. apply result_bind_ok. exists q. split.
    + unfold p in Ep. destruct (get fields (bytes_of "protocol")); [by apply protocol_ok|]. by injection Ep as <-.
    + apply map_err_ok, port_selectors_ok. by exists s.
Qed.

(** The loops over destinations and selectors. *)
Lemma peers_ok values : forall parsed ds, parse_peers values parsed = Ok ds <->
  exists to, mapM mxc_peer_of values = Some to /\ parse_destinations to parsed = Ok ds.
Proof.
  induction values as [|v values IH]; intros parsed ds; cbn [parse_peers mapM].
  { split; [intros H; apply ok_inj in H as ->; by exists []|]. intros (to & E & H). cbn in E. injection E as <-. by apply ok_inj in H as ->. }
  rewrite result_bind_ok. split.
  - intros (r & Hr & H). apply peer_ok in Hr as (d & n & Hd & Hn & Hdest). apply IH in H as (to & Hto & H). exists (d :: to). rewrite Hd. cbn [mbind option_bind]. rewrite Hto. split; [done|].
    cbn [parse_destinations]. rewrite Hn. cbn [mbind result_bind]. by rewrite Hdest.
  - intros (to & E & H). destruct (mxc_peer_of v) as [d|] eqn:Ed; [|done]. cbn [mbind option_bind] in E. destruct (mapM mxc_peer_of values) as [to'|] eqn:Eto; [|done]. injection E as <-.
    cbn [parse_destinations] in H. apply result_bind_ok in H as (n & Hn & (r & Hr & H)%result_bind_ok). exists r. split; [apply peer_ok; by exists d, n|]. apply IH. by exists to'.
Qed.

Lemma mxc_ports_ok values : forall parsed ss, parse_mxc_ports values parsed = Ok ss <->
  exists ports, mapM mxc_selector_of values = Some ports /\ parse_ports ports parsed = Ok ss.
Proof.
  induction values as [|v values IH]; intros parsed ss; cbn [parse_mxc_ports mapM].
  { split; [intros H; apply ok_inj in H as ->; by exists []|]. intros (to & E & H). cbn in E. injection E as <-. by apply ok_inj in H as ->. }
  rewrite result_bind_ok. split.
  - intros (new & Hnew & H). apply selector_ok_iff in Hnew as (s & Hs & Hsel). apply IH in H as (ports & Hp & H). exists (s :: ports). rewrite Hs. cbn [mbind option_bind]. rewrite Hp. split; [done|].
    cbn [parse_ports]. fold (selectors_of s). by rewrite Hsel.
  - intros (ports & E & H). destruct (mxc_selector_of v) as [s|] eqn:Es; [|done]. cbn [mbind option_bind] in E. destruct (mapM mxc_selector_of values) as [ports'|] eqn:Ep; [|done]. injection E as <-.
    cbn [parse_ports] in H. fold (selectors_of s) in H. apply result_bind_ok in H as (new & Hnew & H). exists new. split; [apply selector_ok_iff; by exists s|]. apply IH. by exists ports'.
Qed.

(** ** Rules *)

Lemma field_ok {A B C} (read : Value -> option A) (parse : list Value -> policy B) (parse' : list A -> lowering B) (g : B -> C) (empty : PolicyError) value r :
  (forall values b, parse values = Ok b <-> exists l, mapM read values = Some l /\ parse' l = Ok b) ->
  match value with
  | None => Ok None
  | Some v => values ← array v; if is_empty values then Err empty else parsed ← parse values; Ok (Some (g parsed))
  end = Ok r <->
  exists l, some_of read value = Some l /\ (if is_empty l then Ok None else parsed ← parse' l; Ok (Some (g parsed))) = Ok r.
Proof.
  intros Hparse. destruct value as [v|]; cbn [some_of].
  2: { split; [intros E; apply ok_inj in E as <-; by exists []|]. intros (l & E & H). injection E as <-. cbn [is_empty] in H. by apply ok_inj in H as <-. }
  rewrite result_bind_ok. setoid_rewrite array_ok. split.
  - intros (values & -> & H). destruct values as [|x values]; [done|]. cbn [is_empty] in H. apply result_bind_ok in H as (b & Hb & Hr). apply Hparse in Hb as (l & Hl & Hb). apply ok_inj in Hr as <-. exists l. split; [done|].
    destruct l as [|y l]; [|cbn [is_empty]; by rewrite Hb]. cbn [mapM] in Hl. destruct (read x); [|done]. cbn [mbind option_bind] in Hl. by destruct (mapM read values).
  - intros (l & Hl & H). destruct v as [| | | |values|]; try done. destruct values as [|x values]; [done|]. exists (x :: values). split; [done|]. cbn [is_empty]. apply result_bind_ok.
    destruct l as [|y l]; [cbn [mapM] in Hl; destruct (read x); [|done]; cbn [mbind option_bind] in Hl; by destruct (mapM read values)|]. cbn [is_empty] in H. apply result_bind_ok in H as (b & Hb & Hr).
    exists b. split; [apply Hparse; by exists (y :: l)|]. apply ok_inj in Hr as <-. done.
Qed.

Lemma mxc_rule_ok o rs : parse_mxc_rule o = Ok rs <->
  exists rule, only o MXC_RULE_FIELDS = true /\ some_of mxc_peer_of (get o (bytes_of "to")) = Some (to rule)
    /\ some_of mxc_selector_of (get o (bytes_of "ports")) = Some (ports rule) /\ EgressRules.parse_rule rule = Ok rs.
Proof.
  unfold parse_mxc_rule. rewrite result_bind_ok. setoid_rewrite check_fields_ok.
  pose proof (fun r => field_ok mxc_peer_of (fun values => parse_peers values []) (fun l => parse_destinations l []) group_destinations NoDestination (get o (bytes_of "to")) r (fun values b => peers_ok values [] b)) as Ht.
  pose proof (fun r => field_ok mxc_selector_of (fun values => parse_mxc_ports values []) (fun l => parse_ports l []) (fun x => x) NoSelector (get o (bytes_of "ports")) r (fun values b => mxc_ports_ok values [] b)) as Hp.
  split.
  - intros (u & Hu & (ds & Hd & (ss & Hs & H)%result_bind_ok)%result_bind_ok). apply Ht in Hd as (to' & Hto & Hd). apply Hp in Hs as (ports' & Hports & Hs). apply ok_inj in H as <-.
    exists (mkEgressRule to' ports'). split_and!; [done|done|done|]. unfold EgressRules.parse_rule. cbn [to ports]. rewrite Hd. cbn [mbind result_bind]. cbn [mbind result_bind] in Hs. by rewrite Hs.
  - intros (rule & Hu & Hto & Hports & H). exists tt. split; [done|]. unfold EgressRules.parse_rule in H. apply result_bind_ok in H as (ds & Hd & (ss & Hs & H)%result_bind_ok). apply ok_inj in H as <-.
    apply result_bind_ok. exists ds. split; [apply Ht; by exists (to rule)|]. apply result_bind_ok. exists ss. split; [apply Hp; by exists (ports rule)|done].
Qed.

(** A rule as it is written in the legacy form gives what its destination and selectors give. *)
Lemma legacy_rule_ok o rs : parse_legacy_rule o = Ok rs -> exists d n r ss, only o LEGACY_RULE_FIELDS = true /\ peer_of o = Some d
    /\ EgressRules.network (cidr d) = Ok n /\ destination n (EgressRules.network <$> except d) = Ok r /\ rs = combine (Some [r]) ss
    /\ match get o (bytes_of "protocol") with
       | None => get o (bytes_of "port") = None /\ get o (bytes_of "endPort") = None /\ ss = None
       | Some p => exists s new, selector_with (text_of p ≫= parse_protocol) o = Some s /\ selectors_of s = Ok new /\ ss = Some new
       end.
Proof.
  unfold parse_legacy_rule. intros (u & Hu & (r & Hr & H)%result_bind_ok)%result_bind_ok. apply check_fields_ok in Hu. apply peer_fields_ok in Hr as (d & n & Hd & Hn & Hdest).
  destruct (is_some (get o (bytes_of "endPort")) && negb (is_some (get o (bytes_of "port")))) eqn:E; [done|]. destruct (get o (bytes_of "protocol")) as [p|].
  - apply result_bind_ok in H as (q & Hq & (ss & Hss & H)%result_bind_ok). apply protocol_ok in Hq. apply map_err_ok, port_selectors_ok in Hss as (s & Hs & Hss). apply ok_inj in H as <-.
    exists d, n, r, (Some ss). split_and!; try done. exists s, ss. rewrite Hq. done.
  - destruct (get o (bytes_of "port")) eqn:Ep; [done|]. cbn [is_some negb] in E, H. rewrite andb_true_r in E. apply ok_inj in H as <-. exists d, n, r, None. split_and!; try done.
    by destruct (get o (bytes_of "endPort")).
Qed.

Lemma legacy_rule_accepts o d n r : only o LEGACY_RULE_FIELDS = true -> peer_of o = Some d -> EgressRules.network (cidr d) = Ok n -> destination n (EgressRules.network <$> except d) = Ok r ->
  match get o (bytes_of "protocol") with
  | None => get o (bytes_of "port") = None /\ get o (bytes_of "endPort") = None
  | Some p => exists s, selector_with (text_of p ≫= parse_protocol) o = Some s /\ acceptable_ports s
  end -> is_ok (parse_legacy_rule o) = true.
Proof.
  intros Ho Hd Hn Hdest Hp. unfold parse_legacy_rule. rewrite (proj2 (check_fields_ok o LEGACY_RULE_FIELDS tt) Ho). cbn [mbind result_bind].
  rewrite (proj2 (peer_fields_ok o r)) by (by exists d, n). cbn [mbind result_bind]. destruct (get o (bytes_of "protocol")) as [p|].
  - destruct Hp as (s & Hs & Ha). destruct (text_of p ≫= parse_protocol) as [q|] eqn:Eq; [|done]. destruct (proj2 (selectors_of_spec s) Ha) as [ss Hss].
    assert (is_some (get o (bytes_of "endPort")) && negb (is_some (get o (bytes_of "port"))) = false) as ->.
    { unfold selector_with in Hs. cbn [mbind option_bind] in Hs. destruct (get o (bytes_of "port")) as [v|] eqn:Ep; [by rewrite andb_false_r|]. cbn [port_of mbind option_bind] in Hs.
      destruct (get o (bytes_of "endPort")) as [e|]; [|done]. cbn [port_of] in Hs. destruct (port_value e); [|done]. cbn [mbind option_bind] in Hs. injection Hs as <-. done. }
    rewrite (proj2 (protocol_ok p q) Eq). cbn [mbind result_bind]. by rewrite (proj2 (port_selectors_ok q o ss) (ex_intro _ s (conj Hs Hss))).
  - destruct Hp as [-> ->]. done.
Qed.

(** A parsed rule agrees with the rule that is written: accepted exactly when that is acceptable, with
    rules that select exactly what it does. *)
Definition agrees (parsed : policy (list Rule)) (written : option EgressRule) : Prop :=
  (forall rule, written = Some rule -> acceptable rule -> is_ok parsed = true)
  /\ forall rs, parsed = Ok rs -> exists rule, written = Some rule /\ acceptable rule
     /\ (forall r, r ∈ rs -> is_rule r) /\ forall t, in_family t -> selected_by rs t <-> egress_selects rule t.

Definition legacy_of (o : Object) : option EgressRule :=
  if negb (only o LEGACY_RULE_FIELDS) then None
  else
    peer ← peer_of o;
    match get o (bytes_of "protocol") with
    | None => if is_some (get o (bytes_of "port")) || is_some (get o (bytes_of "endPort")) then None else Some (mkEgressRule [peer] [])
    | Some p => selector ← selector_with (text_of p ≫= parse_protocol) o; Some (mkEgressRule [peer] [selector])
    end.

Definition mxc_of (o : Object) : option EgressRule :=
  if only o MXC_RULE_FIELDS
  then to ← some_of mxc_peer_of (get o (bytes_of "to")); ports ← some_of mxc_selector_of (get o (bytes_of "ports")); Some (mkEgressRule to ports)
  else None.

Lemma legacy_accepts o rule : legacy_of o = Some rule -> acceptable rule -> is_ok (parse_legacy_rule o) = true.
Proof.
  unfold legacy_of. intros Hr [Hto Hports]. destruct (only o LEGACY_RULE_FIELDS) eqn:Eo; [|done]. cbn [negb] in Hr. destruct (peer_of o) as [d|] eqn:Ed; [|done]. cbn [mbind option_bind] in Hr.
  assert (d ∈ to rule /\ match get o (bytes_of "protocol") with
    | None => get o (bytes_of "port") = None /\ get o (bytes_of "endPort") = None
    | Some p => exists s, selector_with (text_of p ≫= parse_protocol) o = Some s /\ s ∈ ports rule end) as [Hd Hp].
  { destruct (get o (bytes_of "protocol")) as [p|].
    - destruct (selector_with _ o) as [s|]; [|done]. injection Hr as <-. split; [by left|]. exists s. split; [done|by left].
    - destruct (get o (bytes_of "port")), (get o (bytes_of "endPort")); try done. injection Hr as <-. split; [by left|done]. }
  destruct (destination_accepts d (Hto d Hd)) as (n & r & Hn & Hdest). eapply legacy_rule_accepts; try done. destruct (get o (bytes_of "protocol")); [|done].
  destruct Hp as (s & Hs & Hin). exists s. split; [done|by apply Hports].
Qed.

Lemma legacy_agrees o : agrees (parse_legacy_rule o) (legacy_of o).
Proof.
  split; [by apply legacy_accepts|]. intros rs (d & n & r & ss & Ho & Hd & Hn & Hdest & -> & Hss)%legacy_rule_ok. unfold legacy_of. rewrite Ho, Hd. cbn [negb mbind option_bind].
  destruct (destination_spec d n r Hn Hdest) as (Hacc & Haddr & Hsel). assert (families_ok [r]) as Hfam by (intros x ->%list_elem_of_singleton; done).
  assert (forall t, selected_in [r] t <-> exists d', d' ∈ [d] /\ destination_selects d' t) as Hin.
  { intros t. unfold selected_in. setoid_rewrite list_elem_of_singleton. specialize (Hsel t). naive_solver. }
  destruct (get o (bytes_of "protocol")) as [p|].
  - destruct Hss as (s & new & Hs & Hnew & ->). rewrite Hs. cbn [mbind option_bind]. eexists. split; [done|]. destruct (selectors_of_select s new Hnew) as [Hok Hsel'].
    assert (acceptable_ports s) as Hap by (apply selectors_of_spec; eauto). destruct (combine_spec (Some [r]) (Some new) Hfam Hok) as [C1 C2]. split_and!; [|done|].
    + split; [by intros x ->%list_elem_of_singleton|by intros x ->%list_elem_of_singleton].
    + intros t Ht. rewrite C2, Hin, Hsel'. unfold egress_selects. cbn [to ports]. setoid_rewrite list_elem_of_singleton. naive_solver.
  - destruct Hss as (-> & -> & ->). cbn [is_some orb]. eexists. split; [done|]. assert (Forall selector_ok [(None, None)]) as Hok by (by repeat constructor).
    destruct (combine_spec (Some [r]) None Hfam Hok) as [C1 C2]. split_and!; [|done|].
    + split; [by intros x ->%list_elem_of_singleton|]. intros x Hx. by apply elem_of_nil in Hx.
    + intros t Ht. rewrite C2, Hin. unfold egress_selects. cbn [to ports]. split; [intros [H _]; split; [by right|by left]|].
      intros [[?|H] _]; [done|]. split; [done|]. exists (None, None). split; [by left|]. split; [by left|done].
Qed.

Lemma mxc_agrees o : agrees (parse_mxc_rule o) (mxc_of o).
Proof.
  split.
  - unfold mxc_of. intros rule Hr Ha. destruct (only o MXC_RULE_FIELDS) eqn:Eo; [|done]. destruct (some_of mxc_peer_of _) as [to'|] eqn:Et; [|done]. cbn [mbind option_bind] in Hr.
    destruct (some_of mxc_selector_of _) as [ports'|] eqn:Ep; [|done]. injection Hr as <-. destruct (parse_rule_spec (mkEgressRule to' ports')) as [H1 _]. apply H1 in Ha.
    destruct (EgressRules.parse_rule (mkEgressRule to' ports')) as [rs|] eqn:Er; [|done]. rewrite (proj2 (mxc_rule_ok o rs)); [done|]. by exists (mkEgressRule to' ports').
  - intros rs (rule & Ho & Hto & Hports & Hr)%mxc_rule_ok. unfold mxc_of. rewrite Ho, Hto, Hports. cbn [mbind option_bind]. exists rule. destruct (parse_rule_spec rule) as [H1 H2]. destruct (H2 rs Hr) as [H3 H4].
    split; [by destruct rule|]. split; [apply H1; by rewrite Hr|done].
Qed.

(** The rule that a value writes, of either form. *)
Definition rule_of (value : Value) : option EgressRule :=
  match value with
  | Obj o => if has_any o LEGACY_RULE_FIELDS then if has_any o MXC_RULE_FIELDS then None else legacy_of o else mxc_of o
  | _ => None
  end.

Lemma rule_agrees value : agrees (parse_rule value) (rule_of value).
Proof.
  unfold parse_rule, rule_of. destruct value as [| | | | |o]; try (split; [done|by intros rs (? & ? & _)%result_bind_ok]). cbn [object mbind result_bind].
  destruct (has_any o LEGACY_RULE_FIELDS); [|apply mxc_agrees]. destruct (has_any o MXC_RULE_FIELDS); [done|apply legacy_agrees].
Qed.

(** ** Policies *)

Definition category_of (value : option Value) : option (list EgressRule) :=
  match value with None => Some [] | Some (Arr values) => mapM rule_of values | _ => None end.

Definition policy_of (value : Value) : option (list EgressRule * list EgressRule) :=
  match value with
  | Obj o => if only o ROOT_FIELDS
             then allow ← category_of (get o (bytes_of "allow")); deny ← category_of (get o (bytes_of "deny")); Some (allow, deny) else None
  | _ => None
  end.

Lemma elements_ok values : forall rules rs, (forall r, r ∈ rules -> is_rule r) -> parse_elements values rules = Ok rs -> exists written, mapM rule_of values = Some written
  /\ (forall rule, rule ∈ written -> acceptable rule) /\ (forall r, r ∈ rs -> is_rule r)
  /\ forall t, in_family t -> selected_by rs t <-> selected_by rules t \/ exists rule, rule ∈ written /\ egress_selects rule t.
Proof.
  induction values as [|v values IH]; intros rules rs Hr; cbn [parse_elements mapM].
  { intros E. apply ok_inj in E as <-. exists []. split_and!; [done|intros r Hx; by apply elem_of_nil in Hx|done|]. intros t _. setoid_rewrite elem_of_nil. naive_solver. }
  intros (more & Hm & H)%result_bind_ok. destruct (rule_agrees v) as [_ Hv]. destruct (Hv more Hm) as (rule & Hrule & Ha & Hmore & Hsel).
  destruct (IH (rules ++ more) rs) as (written & Hw & Hacc & Hrs & Hall); [intros r [?|?]%elem_of_app; auto|done|].
  exists (rule :: written). rewrite Hrule. cbn [mbind option_bind]. rewrite Hw. split_and!; [done|intros r [->|?]%elem_of_cons; auto|done|]. intros t Ht. rewrite Hall by done.
  specialize (Hsel t Ht). unfold selected_by in *. setoid_rewrite elem_of_app. setoid_rewrite elem_of_cons. naive_solver.
Qed.

Lemma elements_accept values written : mapM rule_of values = Some written -> (forall rule, rule ∈ written -> acceptable rule) -> forall rules, is_ok (parse_elements values rules) = true.
Proof.
  revert written. induction values as [|v values IH]; intros written Hw Ha rules; [done|]. cbn [parse_elements mapM] in *. destruct (rule_of v) as [rule|] eqn:Er; [|done]. cbn [mbind option_bind] in Hw.
  destruct (mapM rule_of values) as [more|] eqn:Em; [|done]. injection Hw as <-. destruct (rule_agrees v) as [Hv _]. specialize (Hv rule Er (Ha rule ltac:(by left))).
  destruct (parse_rule v) as [rs|]; [|done]. cbn [mbind result_bind]. apply (IH more); [done|]. intros r Hr. apply Ha. by right.
Qed.

(** An action of a document. *)
Definition action_compiled (natives : list NativeRule) (written : list EgressRule) : Prop :=
  (forall rule, rule ∈ written -> acceptable rule) /\ len natives <= MAX_RULES_PER_ACTION
  /\ forall t, in_family t -> native_selected natives t <-> exists rule, rule ∈ written /\ egress_selects rule t.

Lemma category_ok value natives : compile_category value = Ok natives -> exists written, category_of value = Some written /\ action_compiled natives written.
Proof.
  unfold compile_category, parse_category. intros (rs & (values & Hv & Hrs)%result_bind_ok & H)%result_bind_ok. apply map_err_ok in H.
  destruct (elements_ok values [] rs) as (written & Hw & Ha & Hr & Hsel); [intros r Hx; by apply elem_of_nil in Hx|done|]. exists written. split.
  - destruct value as [v|]; [apply array_ok in Hv; by subst|]. apply ok_inj in Hv as <-. done.
  - split; [done|]. unfold lower in H. rewrite lower_within_spec in H by done. pose proof (merge_sort_Permutation (key_le native_key) (lower_all rs)) as Hp.
    destruct (Z.leb_spec (len (lower_all rs)) MAX_RULES_PER_ACTION); [|done]. apply ok_inj in H as <-. split; [unfold len; by rewrite (Permutation_length Hp)|]. intros t Ht.
    rewrite (native_selected_perm _ _ t Hp). rewrite (proj2 (lower_all_spec rs t Hr)), Hsel by done. unfold selected_by at 1. setoid_rewrite elem_of_nil. naive_solver.
Qed.

Lemma category_accepts value written : category_of value = Some written -> (forall rule, rule ∈ written -> acceptable rule) ->
  is_ok (compile_category value) = true \/ compile_category value = Err (RulesInvalid TooManyRules).
Proof.
  intros Hc Ha. unfold compile_category, parse_category. assert (exists values, (match value with Some value => array value | None => Ok [] end) = Ok values /\ mapM rule_of values = Some written) as (values & -> & Hm).
  { destruct value as [[]|]; try done; [by eexists|]. exists []. split; [done|]. exact Hc. }
  cbn [mbind result_bind]. pose proof (elements_accept values written Hm Ha []) as Hok. destruct (parse_elements values []) as [rs|] eqn:Ers; [|done]. cbn [mbind result_bind].
  destruct (elements_ok values [] rs) as (_ & _ & _ & Hr & _); [intros r Hx; by apply elem_of_nil in Hx|done|]. unfold lower. rewrite lower_within_spec by done.
  destruct (_ <=? _); [by left|by right].
Qed.

Lemma policy_ok value c : compile_policy value = Ok c -> exists allowed denied, policy_of value = Some (allowed, denied) /\ action_compiled (allow c) allowed /\ action_compiled (deny c) denied.
Proof.
  unfold compile_policy. intros (o & Ho & (u & Hu & (a & Ha & (d & Hd & H)%result_bind_ok)%result_bind_ok)%result_bind_ok)%result_bind_ok. apply object_ok in Ho as ->. apply check_fields_ok in Hu.
  apply ok_inj in H as <-. apply category_ok in Ha as (allowed & Hal & Ha). apply category_ok in Hd as (denied & Hde & Hd). exists allowed, denied. cbn [policy_of]. rewrite Hu, Hal, Hde. done.
Qed.

Lemma policy_accepts value allowed denied : policy_of value = Some (allowed, denied) -> (forall rule, rule ∈ allowed ++ denied -> acceptable rule) ->
  is_ok (compile_policy value) = true \/ compile_policy value = Err (RulesInvalid TooManyRules).
Proof.
  intros Hp Hacc. destruct value as [| | | | |o]; try done. cbn [policy_of] in Hp. destruct (only o ROOT_FIELDS) eqn:Eo; [|done].
  destruct (category_of (get o (bytes_of "allow"))) as [al|] eqn:Ea; [|done]. cbn [mbind option_bind] in Hp. destruct (category_of (get o (bytes_of "deny"))) as [de|] eqn:Ed; [|done]. injection Hp as <- <-.
  unfold compile_policy. cbn [object mbind result_bind]. rewrite (proj2 (check_fields_ok o ROOT_FIELDS tt) Eo). cbn [mbind result_bind].
  destruct (category_accepts _ _ Ea) as [Ha|Ha]; [intros r Hr; apply Hacc, elem_of_app; by left| |rewrite Ha; by right].
  destruct (compile_category (get o (bytes_of "allow"))) as [a|]; [|done]. cbn [mbind result_bind].
  destruct (category_accepts _ _ Ed) as [Hd|Hd]; [intros r Hr; apply Hacc, elem_of_app; by right| |rewrite Hd; by right].
  destruct (compile_category (get o (bytes_of "deny"))); [by left|done].
Qed.

(** A file that holds a policy: a document of the format, within its limits. *)
Definition holds_policy (serde : list byte -> Document) (f64 : list byte -> option Double) (data : list byte) (allowed denied : list EgressRule) : Prop :=
  len data <= MAX_POLICY_FILE_SIZE /\ is_utf8 data = true
  /\ exists v, trailing (serde data) = false /\ value_of f64 (root (serde data)) = Some v /\ nesting (root (serde data)) <= MAX_JSON_DEPTH /\ distinct (root (serde data)) = true
     /\ policy_of v = Some (allowed, denied).

(** C17: a policy file compiles only if it holds a policy whose rules are all acceptable, and then its
    native rules, at most 256 of each action, permit and block exactly the traffic that the rules as
    the file writes them do, in the form of MXC or the legacy one, for every address, protocol and
    port. A file that holds such a policy fails only for needing more native rules. Both hold with and
    without [serde_json]'s [arbitrary_precision] feature. *)
Theorem policy_file_exact serde serde_f64 std_f64 arbitrary_precision data :
  signed (root (serde data)) = true ->
  (forall c, compile_policy_bytes serde serde_f64 std_f64 arbitrary_precision data = Ok c ->
     exists allowed denied, holds_policy serde (double_reader serde_f64 std_f64 arbitrary_precision) data allowed denied /\ action_compiled (allow c) allowed /\ action_compiled (deny c) denied)
  /\ (forall allowed denied, holds_policy serde (double_reader serde_f64 std_f64 arbitrary_precision) data allowed denied -> (forall rule, rule ∈ allowed ++ denied -> acceptable rule) ->
      is_ok (compile_policy_bytes serde serde_f64 std_f64 arbitrary_precision data) = true
      \/ compile_policy_bytes serde serde_f64 std_f64 arbitrary_precision data = Err (RulesInvalid TooManyRules)).
Proof.
  intros Hs. pose proof (fun v => read_document_ok serde_f64 std_f64 arbitrary_precision (serde data) (bytes_of "egress policy") v Hs) as Hread. unfold compile_policy_bytes. split.
  - intros c. destruct (Z.ltb_spec MAX_POLICY_FILE_SIZE (len data)); [done|]. destruct (is_utf8 data) eqn:Hu; [|done]. cbn [negb]. intros (v & Hv & Hc')%result_bind_ok. apply map_err_ok, Hread in Hv.
    destruct (policy_ok v c Hc') as (allowed & denied & Hp & Hc). exists allowed, denied. split; [|done]. split; [done|]. split; [done|]. exists v. tauto.
  - intros allowed denied (Hl & Hu & v & Ht & Hv & Hn & Hd & Hp) Hacc. destruct (Z.ltb_spec MAX_POLICY_FILE_SIZE (len data)); [lia|]. rewrite Hu. cbn [negb].
    rewrite (proj2 (Hread v)) by done. cbn [map_err mbind result_bind]. by eapply policy_accepts.
Qed.

Definition sample_policy : Document :=
  mkDocument (DObject [(bytes_of "allow", DArray [DObject [(bytes_of "to", DArray [DObject [(bytes_of "cidr", DString (bytes_of "10.0.0.0/8"))] false] false);
      (bytes_of "ports", DArray [DObject [(bytes_of "protocol", DString (bytes_of "tcp")); (bytes_of "port", DNumber (WriteU64 443))] false] false)] false] false);
    (bytes_of "deny", DArray [DObject [(bytes_of "cidr", DString (bytes_of "192.0.2.0/30"))] false] false)] false) false.

Lemma policy_file_exact_witness :
  exists c, compile_policy_bytes (fun _ => sample_policy) (fun _ => None) (fun _ => None) true (bytes_of "{}") = Ok c
  /\ c = mkCompiledEgressPolicy [(mkNetwork V4 0x0a000000 8, Some Tcp, Some (443, 443))] [(mkNetwork V4 0xc0000200 30, None, None)]
  /\ exists allowed denied, action_compiled (allow c) allowed /\ action_compiled (deny c) denied.
Proof.
  exists (mkCompiledEgressPolicy [(mkNetwork V4 0x0a000000 8, Some Tcp, Some (443, 443))] [(mkNetwork V4 0xc0000200 30, None, None)]).
  assert (compile_policy_bytes (fun _ => sample_policy) (fun _ => None) (fun _ => None) true (bytes_of "{}")
    = Ok (mkCompiledEgressPolicy [(mkNetwork V4 0x0a000000 8, Some Tcp, Some (443, 443))] [(mkNetwork V4 0xc0000200 30, None, None)])) as H by (vm_compute; reflexivity).
  split; [exact H|]. split; [reflexivity|].
  destruct (policy_file_exact (fun _ => sample_policy) (fun _ => None) (fun _ => None) true (bytes_of "{}")) as [P _]; [by vm_compute|].
  destruct (P _ H) as (allowed & denied & _ & Ha & Hd). exists allowed, denied. split; assumption.
Defined.
