(* ===== verification/HostPaths.v ===== *)
(** * Host paths and guest paths (src/nvx-rs/src/host/filesystem/host_path.rs, guest_path.rs)

    The paths of [std::path] on a Linux host: a path that was resolved is its components, which is
    how the standard library compares, orders and nests paths; a path as a caller wrote it is its
    bytes, from which the components are read. With them the resolution of paths, which asks the
    host, the guest paths that stand for host paths, and the reserved targets of a guest's root.
    The host is an interface, [Host], of the system calls that the planner makes. *)

From stdpp Require Import sorting.
From S2P Require Import Prelude Cmdline AddressText Export.

(** ** Orders *)

(** The order of slices: element by element, and the shorter one first. *)
Fixpoint lex {A} (compare : A -> A -> comparison) (k l : list A) : comparison :=
  match k, l with
  | [], [] => Eq
  | [], _ :: _ => Lt
  | _ :: _, [] => Gt
  | x :: k, y :: l => match compare x y with Eq => lex compare k l | order => order end
  end.

(** What [Ord] promises. *)
Class TotalOrder {A} (compare : A -> A -> comparison) : Prop := {
  order_eq x y : compare x y = Eq <-> x = y;
  order_flip x y : compare y x = CompOpp (compare x y);
  order_trans x y z : compare x y = Lt -> compare y z = Lt -> compare x z = Lt;
}.

Definition at_most {A} (compare : A -> A -> comparison) (x y : A) : Prop := compare x y <> Gt.
#[export] Instance at_most_dec {A} (compare : A -> A -> comparison) : RelDecision (at_most compare).
Proof. intros x y. unfold at_most. apply _. Defined.

(** [Vec::dedup]: without the elements that equal the one before them. *)
Fixpoint dedup_after {A} `{EqDecision A} (last : A) (l : list A) : list A :=
  match l with
  | [] => []
  | x :: l => if decide (x = last) then dedup_after last l else x :: dedup_after x l
  end.
Definition dedup {A} `{EqDecision A} (l : list A) : list A :=
  match l with [] => [] | x :: l => x :: dedup_after x l end.

(** ** Paths *)

Inductive Component : Type :=
| RootDir
| CurDir
| ParentDir
| Normal (name : list byte).
#[export] Instance Component_eq_dec : EqDecision Component.
Proof. solve_decision. Defined.

Abbreviation Path := (list Component).

Definition compare_bytes : list byte -> list byte -> comparison := lex (fun a b => byte_val a ?= byte_val b).

(** The derived order of [Component]. *)
Definition compare_component (this other : Component) : comparison :=
  let rank c := match c with RootDir => 0 | CurDir => 1 | ParentDir => 2 | Normal _ => 3 end in
  match this, other with
  | Normal a, Normal b => compare_bytes a b
  | _, _ => rank this ?= rank other
  end.

Definition compare_path : Path -> Path -> comparison := lex compare_component.

(** [sort] of paths. *)
Definition sort_paths (paths : list Path) : list Path := merge_sort (at_most compare_path) paths.

(** [Path::starts_with]. *)
Definition starts_with (path base : Path) : bool := is_some (strip_prefix base path).

(** [outermost] of mod.rs: sorted, without repetitions, those that no other of them contains. *)
Definition outermost (paths : list Path) : list Path :=
  let paths := dedup (sort_paths paths) in
  List.filter (fun path => negb (existsb (fun other => negb (bool_decide (other = path)) && starts_with path other) paths)) paths.

Definition DOT_PIECE : list byte := bytes_of ".".
Definition DOT_DOT : list byte := bytes_of "..".

(** The components of a path's body: no component is empty or [.]. *)
Definition trivial_piece (piece : list byte) : bool := bool_decide (piece = []) || bool_decide (piece = DOT_PIECE).
Definition body (pieces : list (list byte)) : Path :=
  (fun piece => if decide (piece = DOT_DOT) then ParentDir else Normal piece) <$>
    List.filter (fun piece => negb (trivial_piece piece)) pieces.

(** [Path::components]. *)
Definition components (text : list byte) : Path :=
  match split_on (is_byte SLASH) text with
  | [] :: ((_ :: _) as rest) => RootDir :: body rest
  | first :: rest => if decide (first = DOT_PIECE) then CurDir :: body rest else body (first :: rest)
  | [] => []
  end.

(** [Path::file_name]. *)
Definition file_name (text : list byte) : option (list byte) :=
  match last (components text) with Some (Normal name) => Some name | _ => None end.

(** Without the pieces at the end that are no components. *)
Fixpoint trim_right (pieces : list (list byte)) : list (list byte) :=
  match pieces with
  | [] => []
  | piece :: pieces =>
      match trim_right pieces with
      | [] => if trivial_piece piece then [] else [piece]
      | rest => piece :: rest
      end
  end.

(** [Path::parent], which cuts the text before its last component. *)
Definition parent (text : list byte) : option (list byte) :=
  let up pieces := trim_right (removelast (trim_right pieces)) in
  match split_on (is_byte SLASH) text with
  | [] :: ((_ :: _) as rest) =>
      match trim_right rest with [] => None | _ => Some (SLASH :: join [SLASH] (up rest)) end
  | first :: rest =>
      if decide (first = DOT_PIECE) then
        match trim_right rest with [] => Some [] | _ => Some (join [SLASH] (first :: up rest)) end
      else match trim_right (first :: rest) with [] => None | _ => Some (join [SLASH] (up (first :: rest))) end
  | [] => None
  end.

(** [Path::join] of a resolved path and a relative text. *)
Definition join_path (root : Path) (text : list byte) : Path :=
  match components text with
  | (RootDir :: _) as path => path
  | (CurDir :: rest) as path => match root with [] => path | _ => root ++ rest end
  | path => root ++ path
  end.

(** The text of a resolved path. *)
Definition component_text (component : Component) : list byte :=
  match component with RootDir => [SLASH] | CurDir => DOT_PIECE | ParentDir => DOT_DOT | Normal name => name end.
Definition path_text (path : Path) : list byte :=
  match path with
  | RootDir :: path => SLASH :: join [SLASH] (component_text <$> path)
  | path => join [SLASH] (component_text <$> path)
  end.

(** ** The host *)

Inductive IoKind : Type := NotFound | NotADirectory | PermissionDenied | OtherKind.

Record IoError := mkIoError {
  io_kind : IoKind;
  raw_os_error : option Z;
}.

(** What the planner reads of [fs::Metadata]. *)
Record Metadata := mkMetadata {
  is_dir : bool;
  is_file : bool;
  is_symlink : bool;
  dev : Z;
  ino : Z;
  uid : Z;
  gid : Z;
}.

Record Host := mkHost {
  fs_canonicalize : list byte -> result IoError Path;
  fs_metadata : Path -> result IoError Metadata;
  fs_symlink_metadata : Path -> result IoError Metadata;
}.

(** A name of a directory's entry. *)
Definition is_name (name : list byte) : Prop :=
  name <> [] /\ name <> DOT_PIECE /\ name <> DOT_DOT /\ has_nul name = false /\ Forall (fun b => is_byte SLASH b = false) name.

(** A path as [realpath] returns it. *)
Definition resolved (path : Path) : Prop := exists names, path = RootDir :: (Normal <$> names) /\ Forall is_name names.

(** What the documentation of the standard library and of Linux promises of the calls: a canonical
    path is absolute, of names alone; nothing lies below a file; the root is a directory; and the
    metadata of an object that is no link is that of its path. *)
Class HostLaws (host : Host) : Prop := {
  canonical_resolved text path : fs_canonicalize host text = Ok path -> resolved path;
  nothing_below_files text path file metadata :
    fs_canonicalize host text = Ok path -> fs_metadata host file = Ok metadata -> is_dir metadata = false ->
    file `prefix_of` path -> path = file;
  root_directory metadata : fs_metadata host [RootDir] = Ok metadata -> is_dir metadata = true;
  metadata_unlinked path metadata :
    fs_symlink_metadata host path = Ok metadata -> is_symlink metadata = false -> fs_metadata host path = Ok metadata;
}.

(** ** [host_path.rs] *)

Record FileIdentity := mkFileIdentity { device : Z; index : Z }.
#[export] Instance FileIdentity_eq_dec : EqDecision FileIdentity.
Proof. solve_decision. Defined.

Section host.
Context (host : Host).

(** [platform::file_identity] of Linux. *)
Definition file_identity (path : Path) : result IoError FileIdentity :=
  metadata ← fs_metadata host path; Ok (mkFileIdentity (dev metadata) (ino metadata)).

(** On Linux [strip_verbatim] changes nothing. *)
Definition canonicalize (path : list byte) : result IoError Path := fs_canonicalize host path.

(** The loop of [canonicalize_lenient]; the error [None] would be the end of its rounds. *)
Fixpoint lenient_loop (rounds : nat) (existing : list byte) (missing : list (list byte)) : result (option IoError) (Path * bool) :=
  match rounds with
  | O => Err None
  | S rounds =>
      match canonicalize existing with
      | Ok canonical => Ok (canonical ++ (Normal <$> rev missing), bool_decide (missing = []))
      | Err error =>
          match io_kind error with
          | NotFound =>
              match file_name existing, parent existing with
              | Some name, Some above => lenient_loop rounds above (missing ++ [name])
              | _, _ => Err (Some error)
              end
          | _ => Err (Some error)
          end
      end
  end.

Definition canonicalize_lenient (path : list byte) : result (option IoError) (Path * bool) := lenient_loop (S (length path)) path [].
End host.

(** The loop of [relative_text]. *)
Fixpoint texts (components : Path) : option (list (list byte)) :=
  match components with
  | [] => Some []
  | component :: components =>
      if is_utf8 (component_text component) then rest ← texts components; Some (component_text component :: rest) else None
  end.

Definition relative_text (root path : Path) : option (list byte) :=
  relative ← strip_prefix root path;
  parts ← texts relative;
  Some (join [SLASH] parts).

(** ** [guest_path.rs] *)

Definition guest_source (child : nat) (source : list byte) : list byte :=
  if bool_decide (source = []) then dec (Z.of_nat child) else dec (Z.of_nat child) ++ SLASH :: source.

(** The loop of [guest_path]. *)
Fixpoint guest_names (components : Path) (guest : list byte) : option (list byte) :=
  match components with
  | [] => Some guest
  | Normal name :: components => if is_utf8 name then guest_names components (guest ++ SLASH :: name) else None
  | CurDir :: components => guest_names components guest
  | _ => None
  end.

Definition guest_path (path : Path) : option (list byte) :=
  match path with
  | RootDir :: components =>
      guest ← guest_names components [];
      Some (if bool_decide (guest = []) then [SLASH] else guest)
  | _ => None
  end.

Definition resolve_guest_path (host : Host) (path : list byte) : option (list byte) :=
  match canonicalize host path with
  | Ok canonical => guest_path canonical
  | Err _ => guest_path (components path)
  end.

Definition ends_with_slash (text : list byte) : bool := bool_decide (last text = Some SLASH).
Definition starts_with_slash (text : list byte) : bool := bool_decide (head text = Some SLASH).

Definition within (path directory : list byte) : bool :=
  bool_decide (path = directory)
  || match strip_prefix directory path with
     | Some rest => ends_with_slash directory || starts_with_slash rest
     | None => false
     end.

Definition depth (path : list byte) : Z :=
  len (List.filter (fun part => negb (bool_decide (part = []))) (split_on (is_byte SLASH) path)).

(** ** Facts of orders *)

#[export] Instance Z_compare_order : TotalOrder Z.compare.
Proof.
  split.
  - apply Z.compare_eq_iff.
  - intros. apply Z.compare_antisym.
  - intros x y z. rewrite !Z.compare_lt_iff. lia.
Qed.

Section orders.
Context {A : Type} (compare : A -> A -> comparison) `{Hc : TotalOrder A compare}.

Lemma order_refl x : compare x x = Eq.
Proof. by apply order_eq. Qed.

#[export] Instance lex_order : TotalOrder (lex compare).
Proof.
  split.
  - induction x as [|x k IH]; intros [|y l]; cbn; try done.
    pose proof (@order_eq _ compare _ x y) as H. destruct (compare x y) eqn:E; [|naive_solver..].
    rewrite IH. destruct H as [H _]. rewrite (H eq_refl). naive_solver.
  - induction x as [|x k IH]; intros [|y l]; cbn; try done.
    rewrite (@order_flip _ compare _ x y). destruct (compare x y); cbn; auto.
  - induction x as [|x k IH]; intros [|y l] [|z m]; cbn; try done.
    destruct (compare x y) eqn:E1, (compare y z) eqn:E2; try done.
    + apply order_eq in E1 as ->. rewrite E2. apply IH.
    + apply order_eq in E1 as ->. by rewrite E2.
    + apply order_eq in E2 as ->. by rewrite E1.
    + by rewrite (order_trans _ _ _ E1 E2).
Qed.

#[export] Instance at_most_total : Total (at_most compare).
Proof. intros x y. unfold at_most. rewrite (@order_flip _ compare _ x y). destruct (compare x y); cbn; auto. Qed.
#[export] Instance at_most_antisymm : AntiSymm (=) (at_most compare).
Proof.
  intros x y. unfold at_most. rewrite (@order_flip _ compare _ x y). pose proof (@order_eq _ compare _ x y) as H.
  destruct (compare x y); cbn; naive_solver.
Qed.
#[export] Instance at_most_trans : Transitive (at_most compare).
Proof.
  intros x y z. unfold at_most. intros H1 H2 H3.
  assert (H4 : compare z x = Lt) by (rewrite (@order_flip _ compare _ x z), H3; done).
  destruct (compare x y) eqn:E1; [|clear H1|done].
  - apply order_eq in E1 as ->. done.
  - pose proof (order_trans _ _ _ H4 E1) as H5. rewrite (@order_flip _ compare _ z y), H5 in H2. done.
Qed.
End orders.

#[export] Instance bytes_order : TotalOrder compare_bytes.
Proof.
  apply lex_order. split.
  - intros x y. rewrite Z.compare_eq_iff. split; [apply byte_val_inj|by intros ->].
  - intros. apply Z.compare_antisym.
  - intros x y z. rewrite !Z.compare_lt_iff. lia.
Qed.

#[export] Instance component_order : TotalOrder compare_component.
Proof.
  split.
  - intros [] []; cbn; try done. rewrite order_eq. naive_solver.
  - intros [] []; cbn; try done. apply order_flip.
  - intros [] [] []; cbn; try done. apply order_trans.
Qed.

#[export] Instance path_order : TotalOrder compare_path.
Proof. apply lex_order, _. Qed.

(** ** Facts of sorted lists *)

Lemma elem_of_dedup_after {A} `{EqDecision A} (y : A) l x : x ∈ l <-> x ∈ dedup_after y l \/ (x = y /\ x ∈ l).
Proof.
  revert y. induction l as [|z l IH]; intros y; cbn; [set_solver|]. case_decide as Hd.
  - subst z. rewrite elem_of_cons. pose proof (IH y). naive_solver.
  - rewrite !elem_of_cons. pose proof (IH z). naive_solver.
Qed.

Lemma elem_of_dedup {A} `{EqDecision A} (l : list A) x : x ∈ dedup l <-> x ∈ l.
Proof. destruct l as [|y l]; [done|]. cbn. rewrite !elem_of_cons, (elem_of_dedup_after y l x). naive_solver. Qed.

Section sorted.
Context {A : Type} `{EqDecision A} (compare : A -> A -> comparison) `{Hc : TotalOrder A compare}.

Definition less (x y : A) : Prop := compare x y = Lt.

Lemma at_most_less x y : at_most compare x y <-> x = y \/ less x y.
Proof.
  unfold at_most, less. pose proof (@order_eq _ compare _ x y). destruct (compare x y); naive_solver.
Qed.

Lemma less_irrefl x : ~ less x x.
Proof. unfold less. by rewrite (order_refl compare). Qed.

#[export] Instance less_trans : Transitive less.
Proof. intros x y z. apply order_trans. Qed.

Lemma dedup_after_sorted y l : StronglySorted (at_most compare) (y :: l) -> StronglySorted less (y :: dedup_after y l).
Proof.
  revert y. induction l as [|z l IH]; intros y H; cbn; [repeat constructor|].
  apply StronglySorted_inv in H as [Hl Hy]. case_decide as Hd.
  - subst z. apply IH. apply StronglySorted_inv in Hl as [Hl _]. inv Hy. by constructor.
  - specialize (IH z Hl). constructor; [done|].
    assert (Hz : less y z) by (inv Hy; match goal with H : at_most _ y z |- _ => apply at_most_less in H as [->|]; done end).
    apply StronglySorted_inv in IH as [_ IH]. constructor; [done|]. eapply Forall_impl; [exact IH|]. intros. by etrans.
Qed.

Lemma dedup_sorted l : StronglySorted (at_most compare) l -> StronglySorted less (dedup l).
Proof. intros H. destruct l; [constructor|]. by apply dedup_after_sorted. Qed.

Lemma less_sorted_filter (f : A -> bool) l : StronglySorted less l -> StronglySorted less (List.filter f l).
Proof.
  induction 1 as [|x l Hs IH Hf]; cbn; [constructor|]. destruct (f x); [|done]. constructor; [done|].
  rewrite Forall_forall in *. intros y [? ?]%list_elem_of_In%List.filter_In. apply Hf. by apply list_elem_of_In.
Qed.

Lemma less_sorted_nodup l : StronglySorted less l -> NoDup l.
Proof.
  induction 1 as [|x l Hs IH Hf]; constructor; [|done]. intros Hx. rewrite Forall_forall in Hf. by apply (less_irrefl x), Hf.
Qed.

(** Two sorted lists with the same elements are equal. *)
Lemma less_sorted_unique k l :
  StronglySorted less k -> StronglySorted less l -> (forall x, x ∈ k <-> x ∈ l) -> k = l.
Proof.
  intros Hk Hl H. apply (StronglySorted_unique_strong less); [|done|done|].
  - intros x y _ _ Hx Hy. by pose proof (less_irrefl x (less_trans _ _ _ Hx Hy)).
  - apply NoDup_Permutation; auto using less_sorted_nodup.
Qed.

Lemma less_at_most_sorted l : StronglySorted less l -> StronglySorted (at_most compare) l.
Proof.
  induction 1 as [|x l Hs IH Hf]; constructor; [done|]. eapply Forall_impl; [exact Hf|]. intros. apply at_most_less. auto.
Qed.

Lemma merge_sort_id l : StronglySorted less l -> merge_sort (at_most compare) l = l.
Proof.
  intros H. apply (StronglySorted_unique (at_most compare)); [by apply StronglySorted_merge_sort; apply _|by apply less_at_most_sorted|].
  apply merge_sort_Permutation.
Qed.

Lemma sort_dedup_sorted l : StronglySorted less (dedup (merge_sort (at_most compare) l)).
Proof. apply dedup_sorted, StronglySorted_merge_sort; apply _. Qed.

Lemma elem_of_sort l x : x ∈ merge_sort (at_most compare) l <-> x ∈ l.
Proof. by rewrite (merge_sort_Permutation (at_most compare) l). Qed.
End sorted.

(** ** Facts of paths *)

Lemma starts_with_prefix path base : starts_with path base = true <-> base `prefix_of` path.
Proof.
  unfold starts_with. destruct (strip_prefix base path) as [r|] eqn:E; cbn.
  - apply strip_prefix_some in E. split; [|done]. intros _. by exists r.
  - split; [done|]. intros [r Hr]. apply strip_prefix_some in Hr. congruence.
Qed.

Lemma elem_of_filter_bool {A} (f : A -> bool) l x : x ∈ List.filter f l <-> x ∈ l /\ f x = true.
Proof. by rewrite list_elem_of_In, List.filter_In, <- list_elem_of_In. Qed.

Lemma existsb_in {A} (f : A -> bool) l : existsb f l = true <-> exists x, x ∈ l /\ f x = true.
Proof. rewrite existsb_exists. split; intros (x & Hx & Hf); exists x; split; auto; by apply list_elem_of_In. Qed.

Lemma existsb_none {A} (f : A -> bool) l : existsb f l = false <-> forall x, x ∈ l -> f x = false.
Proof.
  rewrite <- not_true_iff_false, existsb_in. split.
  - intros H x Hx. apply not_true_iff_false. naive_solver.
  - intros H (x & Hx & Hf). apply H in Hx. congruence.
Qed.

Lemma elem_of_outermost l p : p ∈ outermost l <-> p ∈ l /\ forall q, q ∈ l -> q `prefix_of` p -> q = p.
Proof.
  unfold outermost. set (k := dedup _). assert (Hk : forall q, q ∈ k <-> q ∈ l) by (intros; unfold k, sort_paths; by rewrite elem_of_dedup, elem_of_sort).
  rewrite elem_of_filter_bool, negb_true_iff, existsb_none. setoid_rewrite Hk. clearbody k. split; intros [Hp H]; (split; [done|]); intros q Hq.
  - intros Hpre. specialize (H q Hq). apply starts_with_prefix in Hpre. rewrite Hpre, andb_true_r in H. by bool_to_prop.
  - apply andb_false_iff. destruct (bool_decide_reflect (q = p)) as [|Hn]; [by left|right].
    apply not_true_iff_false. rewrite starts_with_prefix. auto.
Qed.

Lemma outermost_sorted l : StronglySorted (less compare_path) (outermost l).
Proof. unfold outermost, sort_paths. apply less_sorted_filter, sort_dedup_sorted, _. Qed.

Lemma outermost_ext k l : (forall p, p ∈ k <-> p ∈ l) -> outermost k = outermost l.
Proof.
  intros H. apply (less_sorted_unique compare_path); [apply outermost_sorted..|].
  intros p. rewrite !elem_of_outermost. setoid_rewrite H. done.
Qed.

Lemma sort_paths_id l : StronglySorted (less compare_path) l -> sort_paths l = l.
Proof. apply merge_sort_id, _. Qed.

(** An outermost path contains every path. *)
Lemma outermost_covers l p : p ∈ l -> exists q, q ∈ outermost l /\ q `prefix_of` p.
Proof.
  revert p. apply (well_founded_ind (Wf_nat.well_founded_ltof _ length) (fun p => p ∈ l -> _)). intros p IH Hp.
  destruct (decide (Exists (fun q => q `prefix_of` p /\ q <> p) l)) as [H|H].
  - apply Exists_exists in H as (q & Hq & Hpre & Hne).
    destruct (IH q) as (r & Hr & Hrq); [|done|exists r; split; [done|by etrans]].
    unfold Wf_nat.ltof. pose proof (prefix_length _ _ Hpre). destruct Hpre as [t ->]. destruct t; [by rewrite app_nil_r in Hne|].
    rewrite length_app. cbn. lia.
  - exists p. split; [|done]. apply elem_of_outermost. split; [done|]. intros q Hq Hpre.
    destruct (decide (q = p)); [done|]. exfalso. apply H, Exists_exists. eauto.
Qed.

(** Outermost paths do not nest. *)
Lemma outermost_disjoint l p q r :
  p ∈ outermost l -> q ∈ outermost l -> p `prefix_of` r -> q `prefix_of` r -> p = q.
Proof.
  rewrite !elem_of_outermost. intros [Hp Hp'] [Hq Hq'] H1 H2.
  destruct (prefix_weak_total _ _ _ H1 H2); [auto|symmetry; auto].
Qed.

Lemma outermost_nil l : outermost l = [] -> l = [].
Proof. destruct l as [|x l]; [done|]. intros H. destruct (outermost_covers (x :: l) x) as (q & Hq & _); [by left|]. rewrite H in Hq. set_solver. Qed.

Lemma in_outermost_part l path : (exists w, w ∈ outermost l /\ w `prefix_of` path) <-> exists w, w ∈ l /\ w `prefix_of` path.
Proof.
  split.
  - intros (w & [Hw _]%elem_of_outermost & Hp). eauto.
  - intros (w & (q & Hq & Hqw)%outermost_covers & Hp). exists q. split; [done|by etrans].
Qed.

(** ** Facts of names *)

#[export] Instance Normal_inj : Inj (=) (=) Normal.
Proof. by intros ? ? [= ->]. Qed.

Definition is_name_b (name : list byte) : bool :=
  negb (bool_decide (name = [])) && negb (bool_decide (name = DOT_PIECE)) && negb (bool_decide (name = DOT_DOT))
  && negb (has_nul name) && forallb (fun b => negb (is_byte SLASH b)) name.

Definition resolved_b (path : Path) : bool :=
  match path with
  | RootDir :: path => forallb (fun c => match c with Normal name => is_name_b name | _ => false end) path
  | _ => false
  end.

Lemma is_name_iff name : is_name_b name = true <-> is_name name.
Proof.
  unfold is_name_b, is_name. rewrite !andb_true_iff, !negb_true_iff, !bool_decide_eq_false, forallb_forall, Forall_forall.
  setoid_rewrite negb_true_iff. setoid_rewrite list_elem_of_In. naive_solver.
Qed.

Lemma resolved_computed path : resolved_b path = true -> resolved path.
Proof.
  destruct path as [|[] path]; try done. cbn. intros H.
  assert (exists names, path = Normal <$> names /\ Forall is_name names) as (names & -> & Hn); [|by exists names].
  induction path as [|c path IH]; [by exists []|]. cbn in H. apply andb_prop in H as [Hc H]. destruct c as [| | |name]; try done.
  apply is_name_iff in Hc. destruct (IH H) as (names & -> & Hn). exists (name :: names). split; [done|]. by constructor.
Qed.

(** The components of joined names are the names. *)
Lemma components_names names : names <> [] -> Forall is_name names -> components (join [SLASH] names) = Normal <$> names.
Proof.
  intros Hne Hn. unfold components. rewrite split_join; [|done|eapply Forall_impl; [exact Hn|]; by intros ? (? & ? & ? & ? & ?)].
  assert (Hbody : body names = Normal <$> names).
  { clear Hne. unfold body. induction Hn as [|x names (H1 & H2 & H3 & _) Hn IH]; [done|]. cbn. unfold trivial_piece.
    rewrite !bool_decide_false by done. cbn. rewrite decide_False by done. f_equal. exact IH. }
  destruct names as [|first rest]; [done|]. pose proof (Forall_inv Hn) as (H1 & H2 & _).
  destruct first as [|b first]; [done|]. by rewrite decide_False, Hbody by done.
Qed.

Lemma join_path_names root names : Forall is_name names -> join_path root (join [SLASH] names) = root ++ (Normal <$> names).
Proof.
  intros Hn. unfold join_path. destruct names as [|name names]; [cbn; by rewrite app_nil_r|].
  by rewrite components_names.
Qed.

Lemma texts_names names : Forall (fun n => is_utf8 n = true) names <-> texts (Normal <$> names) = Some names.
Proof.
  induction names as [|n names IH]; [done|]. cbn. rewrite Forall_cons, IH. destruct (is_utf8 n); [|naive_solver].
  destruct (texts (Normal <$> names)) eqn:E; cbn; naive_solver.
Qed.

Lemma strip_prefix_app {A} `{EqDecision A} (k l : list A) : strip_prefix k (k ++ l) = Some l.
Proof. by apply strip_prefix_some. Qed.

Lemma relative_names root names source :
  relative_text root (root ++ (Normal <$> names)) = Some source ->
  source = join [SLASH] names.
Proof.
  unfold relative_text. rewrite strip_prefix_app. cbn. destruct (texts _) as [parts|] eqn:E; [|done]. cbn. intros [= <-]. f_equal.
  revert parts E. induction names as [|n names IH]; intros parts; cbn; [by intros [= <-]|].
  destruct (is_utf8 n); [|done]. destruct (texts (Normal <$> names)) as [rest|]; cbn; [|done]. intros [= <-]. f_equal. by apply IH.
Qed.

(** What lies below a resolved path is named. *)
Lemma resolved_below root path : resolved root -> resolved path -> root `prefix_of` path -> exists names, path = root ++ (Normal <$> names) /\ Forall is_name names.
Proof.
  intros (k & -> & Hk) (l & -> & Hl) [rest Hr]. cbn in Hr. injection Hr as Hr.
  exists (drop (length k) l). assert (Hl' : l = take (length k) l ++ drop (length k) l) by (by rewrite take_drop).
  assert (Hk' : take (length k) l = k).
  { apply (f_equal (take (length k))) in Hr. rewrite take_app_length', <- fmap_take in Hr by (by rewrite length_fmap).
    by apply (inj (fmap Normal)) in Hr. }
  split; [|by apply Forall_drop]. cbn. f_equal. rewrite Hk' in Hl'. rewrite Hl' at 1. by rewrite fmap_app.
Qed.

(** ** The resolution of a missing path ends *)

Lemma join_split_slash text : join [SLASH] (split_on (is_byte SLASH) text) = text.
Proof.
  induction text as [|b text IH]; [done|]. cbn [split_on]. destruct (split_on_cons (is_byte SLASH) text) as (piece & pieces & E). rewrite E in *.
  unfold is_byte. case_bool_decide as Hb; [subst b|].
  - cbn. f_equal. exact IH.
  - destruct pieces as [|piece' pieces]; cbn [join app] in *; by rewrite IH.
Qed.

Lemma join_snoc (k : list (list byte)) x : x <> [] -> (length (join [SLASH] k) < length (join [SLASH] (k ++ [x])))%nat.
Proof.
  intros Hx. induction k as [|y k IH]; [destruct x; [done|cbn; lia]|]. destruct k as [|z k].
  - cbn. rewrite length_app. cbn. lia.
  - cbn [app]. rewrite !join_cons, !length_app. cbn [app] in IH. lia.
Qed.

Lemma join_prefix (k l : list (list byte)) : k `prefix_of` l -> (length (join [SLASH] k) <= length (join [SLASH] l))%nat.
Proof.
  intros [rest ->]. induction k as [|y k IH]; [cbn; lia|]. destruct k as [|z k].
  - cbn. destruct rest; cbn; rewrite ?length_app; lia.
  - cbn [app]. rewrite !join_cons, !length_app. cbn [app] in IH. lia.
Qed.

Lemma trim_right_spec pieces :
  trim_right pieces `prefix_of` pieces /\ (trim_right pieces = [] \/ exists k x, trim_right pieces = k ++ [x] /\ x <> []).
Proof.
  induction pieces as [|piece pieces [Hp IH]]; cbn [trim_right]; [split; [done|by left]|].
  destruct (trim_right pieces) as [|y rest] eqn:E.
  - destruct (trivial_piece piece) eqn:Et; [split; [apply prefix_nil|by left]|]. split; [by apply prefix_cons, prefix_nil|]. right.
    exists [], piece. split; [done|]. intros ->. done.
  - split; [by apply prefix_cons|]. right. destruct IH as [|(k & x & Hk & Hx)]; [done|]. exists (piece :: k), x. by rewrite Hk.
Qed.

(** The pieces above the last component are shorter. *)
Lemma up_shorter pieces : trim_right pieces <> [] ->
  (length (join [SLASH] (trim_right (removelast (trim_right pieces)))) < length (join [SLASH] pieces))%nat.
Proof.
  intros Hne. destruct (trim_right_spec pieces) as [Hp [|(k & x & Hk & Hx)]]; [done|]. rewrite Hk in *. rewrite List.removelast_last.
  pose proof (join_prefix _ _ (proj1 (trim_right_spec k))). pose proof (join_snoc k x Hx). pose proof (join_prefix _ _ Hp). lia.
Qed.

Lemma parent_shorter text above : parent text = Some above -> (length above < length text)%nat.
Proof.
  unfold parent. pose proof (join_split_slash text) as Hj. destruct (split_on (is_byte SLASH) text) as [|first rest]; [done|].
  assert (Hfirst : forall k, (length (join [SLASH] k) < length (join [SLASH] rest))%nat -> (length (join [SLASH] (first :: k)) < length (join [SLASH] (first :: rest)))%nat).
  { intros k Hk. destruct rest as [|r rest]; [cbn in Hk; lia|]. destruct k as [|x k]; [cbn; rewrite !length_app; cbn; lia|].
    rewrite !join_cons, !length_app. lia. }
  assert (Hdot : (if decide (first = DOT_PIECE) then
        match trim_right rest with [] => Some [] | _ => Some (join [SLASH] (first :: trim_right (removelast (trim_right rest)))) end
      else match trim_right (first :: rest) with [] => None | _ => Some (join [SLASH] (trim_right (removelast (trim_right (first :: rest))))) end) = Some above ->
      (length above < length text)%nat).
  { rewrite <- Hj. case_decide as Hd.
    - destruct (trim_right rest) as [|t l] eqn:E; intros [= <-]; [subst first; destruct rest; cbn; lia|]. apply Hfirst. pose proof (up_shorter rest) as Hup. rewrite E in Hup. by apply Hup.
    - destruct (trim_right (first :: rest)) as [|t l] eqn:E; [done|]. intros [= <-]. pose proof (up_shorter (first :: rest)) as Hup. rewrite E in Hup. by apply Hup. }
  destruct first as [|b first]; [|exact Hdot]. destruct rest as [|r rest]; [exact Hdot|].
  destruct (trim_right (r :: rest)) as [|t l] eqn:E; [done|]. intros [= <-]. pose proof (up_shorter (r :: rest)) as Hup. rewrite E in Hup.
  rewrite <- Hj, join_cons. cbn [app length]. apply -> Nat.succ_lt_mono. by apply Hup.
Qed.

(** [canonicalize_lenient] never runs out of its rounds. *)
Lemma lenient_ends host path : canonicalize_lenient host path <> Err None.
Proof.
  unfold canonicalize_lenient. generalize (@nil (list byte)) as missing. assert (Hn : (length path < S (length path))%nat) by lia. revert Hn.
  generalize (S (length path)) as rounds. intros rounds. revert path. induction rounds as [|rounds IH]; intros path Hn missing; [lia|].
  cbn [lenient_loop]. destruct (canonicalize host path) as [|error]; [done|]. destruct (io_kind error); try done.
  destruct (file_name path), (parent path) as [above|] eqn:Ep; try done. apply IH. apply parent_shorter in Ep. lia.
Qed.

Example join_of_paths :
  join_path (components (bytes_of "/srv")) (bytes_of "./a//b") = components (bytes_of "/srv/a/b")
  /\ join_path (components (bytes_of "/srv")) (bytes_of "/etc") = components (bytes_of "/etc").
Proof. done. Qed.
Example parent_of_absolute : parent (bytes_of "/srv//app/./") = Some (bytes_of "/srv").
Proof. reflexivity. Qed.
Example parent_of_relative : parent (bytes_of "./app") = Some (bytes_of ".") /\ parent (bytes_of "app") = Some [] /\ parent (bytes_of "/") = None.
Proof. done. Qed.
