(* ===== verification/ExportPlanner.v ===== *)
(** * The planner of host exports (src/nvx-rs/src/host/filesystem/)

    What a sandbox maps of its host: [plan] resolves the mapped, denied, allowed and writable paths
    of a request, decides whether OpenVMM and the guest can keep to it, and makes the children of the
    export and the binds of the guest. A recorded plan is checked by [check], which reads nothing
    from the host, and by [verify], which compares the host with what the plan found. The build is
    that of a Linux host. Messages are values of the error types. *)

From stdpp Require Import sorting.
From S2P Require Import Prelude Cmdline AddressText Export Maps HostPaths.

(** ** The data *)

Definition GUEST_EXPORT : list byte := EXPORT_DIRECTORY.
Definition MAX_CHILDREN : Z := 256.
Definition MAX_POLICY_PATHS : Z := 128.
Definition MAX_POLICY_BYTES : Z := 16 * 1024.
Definition MAX_POLICY_PATH_BYTES : Z := 4096.
Definition MAX_AGGREGATE_POLICY_BYTES : Z := 128 * 1024.
Definition MAX_GUEST_PATH : Z := 4095.

Definition RESERVED_TARGETS : list (list byte) :=
  bytes_of <$> ["/bin"; "/boot"; "/dev"; "/etc"; "/lib"; "/proc"; "/root"; "/run"; "/sbin"; "/sys"; "/usr"; "/var"; "/init"].

Record ReservedTargets := mkReservedTargets {
  trees : list (list byte);
  exact : list (list byte);
}.

Definition BLOCKLESS_ROOT : ReservedTargets := mkReservedTargets RESERVED_TARGETS [].
Definition CONTAINER_ROOT : ReservedTargets :=
  mkReservedTargets (bytes_of <$> RESERVED_MOUNT_TARGETS) (bytes_of <$> RESERVED_EXACT_MOUNT_TARGETS).

(** [ReservedTargets::reservation]. *)
Definition reserved_at (self : ReservedTargets) (target : list byte) : option (list byte) :=
  if bool_decide (target = [SLASH]) then Some [SLASH]
  else match List.find (fun exact => bool_decide (exact = target)) (exact self) with
       | Some exact => Some exact
       | None => List.find (fun tree => within target tree || within tree target) (trees self)
       end.

Inductive Owner : Type := Vmm | Caller.
#[export] Instance Owner_eq_dec : EqDecision Owner.
Proof. solve_decision. Defined.

Record ExportChild := mkExportChild {
  c_root : Path;
  c_file : bool;
  c_writable : bool;
  c_denied : list Path;
  c_denied_identities : list (option FileIdentity);
  c_allowed : list Path;
  c_write : list Path;
}.

Record Bind := mkBind {
  b_child : nat;
  b_source : list byte;
  b_target : list byte;
  b_read_only : bool;
  b_identity : option FileIdentity;
}.

Record ExportPlan := mkExportPlan {
  p_children : list ExportChild;
  p_binds : list Bind;
  p_owner : Owner;
}.

(** [Bind::guest_source]. *)
Definition bind_guest_source (self : Bind) : list byte := guest_source (b_child self) (b_source self).

Inductive Target : Type :=
| Convention
| Guest (target : list byte).

Record Mapping := mkMapping {
  m_name : list byte;
  m_path : list byte;
  m_target : Target;
  m_read_only : bool;
}.

Record PathList := mkPathList {
  l_name : list byte;
  l_paths : list (list byte);
}.
Definition EMPTY : PathList := mkPathList [] [].

(** [Mapping::convention]. *)
Definition convention (list : PathList) (read_only : bool) : Datatypes.list Mapping :=
  (fun path => mkMapping (l_name list) path Convention read_only) <$> l_paths list.

Record ExportRequest := mkExportRequest {
  r_mappings : list Mapping;
  r_denied : PathList;
  r_allowed : PathList;
  r_write : PathList;
  r_owner : Owner;
  r_reserved : ReservedTargets;
}.

(** [ExportRequest::new]. *)
Definition new_request (mappings : list Mapping) (reserved : ReservedTargets) : ExportRequest :=
  mkExportRequest mappings EMPTY EMPTY EMPTY Vmm reserved.

Record Mapped := mkMapped {
  e_name : list byte;
  e_given : list byte;
  e_canonical : Path;
  e_target : list byte;
  e_read_only : bool;
  e_directory : bool;
}.

(** A path of an access policy, resolved. *)
Record PolicyPath := mkPolicyPath {
  pp_given : list byte;
  pp_canonical : Path;
}.

(** Why a target is refused. *)
Inductive TargetProblem : Type := NotAbsolute | GuestRoot | TooLong | HasNul | BadComponent.

(** Which of OpenVMM's limits paths exceed in a child's root. *)
Inductive LimitProblem : Type :=
| TooManyPaths (root : Path) (count : Z)
| PathNotUtf8 (path : Path)
| PathRefused (root path : Path)
| TooManyBytes (root : Path).

(** What the planner says of a request, with the entries that it names. *)
Inductive PlanError : Type :=
| NotAccessible (name path : list byte) (source : IoError)
| NotUtf8 (name path : list byte)
| CannotInspect (path : list byte) (source : IoError)
| NeitherFileNorDirectory (name path : list byte)
| WholeVolume (name path : list byte)
| NoGuestPath (name path : list byte)
| BadTarget (name path target : list byte) (problem : TargetProblem)
| Covers (name path reserved : list byte)
| TooManyMappings
| SameTarget (entry other : Mapped)
| HidesPart (inner outer : Mapped)
| NotNarrowing (field path : list byte)
| InsideWritable (inner : Mapped) (outer_name outer : list byte)
| SameObject (inner outer : Mapped)
| CannotIdentify (path : Path) (source : IoError)
| SameRoots (other root : Path)
| TooManyChildren (needed : Z)
| AllowedIsRoot (field path : list byte)
| AllowedOutside (field path : list byte)
| CannotResolve (field path : list byte) (source : option IoError)
| DeniedMissing (field path mapped : list byte)
| DeniedContains (field path mapped : list byte)
| AllowedAlsoDenied (path : list byte)
| AllowedInsideAllowed (path : list byte) (other : Path)
| AllowedNotDenied (path : list byte)
| WriteHidden (path : list byte) (rule : Path)
| WriteNarrowedHidden (rule path root : Path)
| ExportedNotMapped (root : Path)
| LimitExceeded (problem : LimitProblem)
| CannotInspectPath (path : Path) (source : IoError)
| IsLink (path current : Path)
| OtherFileSystem (path root : Path)
| AggregateExceeded
| InNoChild (path : list byte)
| TooLongForGuest (path : list byte)
| CallerOwnsRoot (root : Path).

Abbreviation planning := (result PlanError).

(** ** [policy.rs]: the rules of a child *)

Definition canonicals (paths : list PolicyPath) : list Path := pp_canonical <$> paths.

(** [Iterator::max_by_key], which keeps the last of the largest. *)
Definition max_by_key {A} (key : A -> Z) (l : list A) : option A :=
  foldl (fun best x => match best with
                       | Some b => if key b <=? key x then Some x else best
                       | None => Some x
                       end) None l.

Definition nearest_rule (path : Path) (denied allowed : list Path) (inclusive : bool) : option (Path * bool) :=
  max_by_key (fun rule => len rule.1)
    (List.filter (fun rule => (inclusive || negb (bool_decide (rule.1 = path))) && starts_with path rule.1)
       (((fun rule => (rule, true)) <$> denied) ++ ((fun rule => (rule, false)) <$> allowed))).

(** [matches!(rule, Some((_, true)))]. *)
Definition denies (rule : option (Path * bool)) : bool := match rule with Some (_, true) => true | _ => false end.

Section resolving.
Context (host : Host).

Definition identity (path : Path) : planning FileIdentity := map_err (CannotIdentify path) (file_identity host path).

Definition resolve_policy_path (field path : list byte) : planning Path := map_err (NotAccessible field path) (canonicalize host path).

(** The loop of [write_paths]. *)
Fixpoint write_loop (field : list byte) (given : list (list byte)) (mapped : list Mapped) (roots : list Path) (paths : list PolicyPath) : planning (list PolicyPath) :=
  match given with
  | [] => Ok paths
  | path :: given =>
      canonical ← resolve_policy_path field path;
      let narrows :=
        match List.find (fun root => starts_with canonical root) roots with
        | Some root =>
            negb (bool_decide (root = canonical))
            && existsb (fun entry => bool_decide (e_canonical entry = root) && e_directory entry && negb (e_read_only entry)) mapped
        | None => false
        end in
      if negb narrows then Err (NotNarrowing field path)
      else write_loop field given mapped roots (paths ++ [mkPolicyPath path canonical])
  end.
Definition write_paths (list : PathList) (mapped : Datatypes.list Mapped) (roots : Datatypes.list Path) : planning (Datatypes.list PolicyPath) :=
  write_loop (l_name list) (l_paths list) mapped roots [].

(** Whether write paths narrow the writes of the read-write directory that a child exports whole. *)
Definition narrowed (roots : list Path) (write : list PolicyPath) (canonical : Path) : bool :=
  existsb (fun root => bool_decide (root = canonical)) roots
  && existsb (fun path => starts_with (pp_canonical path) canonical) write.

(** The loop of [check_read_only] over the read-only entries. *)
Fixpoint read_only_loop (mapped : list Mapped) (write : list PolicyPath) (write_name : list byte) (roots : list Path) (inners : list Mapped) : planning unit :=
  match inners with
  | [] => Ok tt
  | inner :: inners =>
      match List.find (fun path => starts_with (e_canonical inner) (pp_canonical path)) write with
      | Some path => Err (InsideWritable inner write_name (pp_given path))
      | None =>
          match List.find (fun outer =>
                  negb (e_read_only outer) && negb (narrowed roots write (e_canonical outer))
                  && (bool_decide (e_canonical outer = e_canonical inner)
                      || (e_directory outer && starts_with (e_canonical inner) (e_canonical outer)))) mapped with
          | None => read_only_loop mapped write write_name roots inners
          | Some outer =>
              if bool_decide (e_canonical outer = e_canonical inner) then Err (SameObject inner outer)
              else Err (InsideWritable inner (e_name outer) (e_given outer))
          end
      end
  end.
Definition check_read_only (mapped : list Mapped) (write : list PolicyPath) (write_name : list byte) (roots : list Path) : planning unit :=
  read_only_loop mapped write write_name roots (List.filter e_read_only mapped).

(** The loop of [distinct_roots]. *)
Fixpoint distinct_loop (roots : list Path) (identities : list (FileIdentity * Path)) : planning unit :=
  match roots with
  | [] => Ok tt
  | root :: roots =>
      current ← identity root;
      match List.find (fun other => bool_decide (other.1 = current)) identities with
      | Some (_, other) => Err (SameRoots other root)
      | None => distinct_loop roots (identities ++ [(current, root)])
      end
  end.
Definition distinct_roots (roots : list Path) : planning unit := distinct_loop roots [].

(** The loop of [allowed_paths]. *)
Fixpoint allowed_loop (field : list byte) (given : list (list byte)) (roots : list Path) (paths : list PolicyPath) : planning (list PolicyPath) :=
  match given with
  | [] => Ok paths
  | path :: given =>
      canonical ← resolve_policy_path field path;
      if existsb (fun root => bool_decide (root = canonical)) roots then Err (AllowedIsRoot field path)
      else if negb (existsb (fun root => starts_with canonical root) roots) then Err (AllowedOutside field path)
      else allowed_loop field given roots
             (if negb (existsb (fun other => bool_decide (pp_canonical other = canonical)) paths)
              then paths ++ [mkPolicyPath path canonical] else paths)
  end.
Definition allowed_paths (list : PathList) (roots : Datatypes.list Path) : planning (Datatypes.list PolicyPath) :=
  allowed_loop (l_name list) (l_paths list) roots [].

(** The loops of [denied_paths]. *)
Fixpoint resolve_denied (field : list byte) (given : list (list byte)) (resolved : list (list byte * Path * bool)) : planning (list (list byte * Path * bool)) :=
  match given with
  | [] => Ok resolved
  | path :: given =>
      '(canonical, exists_) ← map_err (CannotResolve field path) (canonicalize_lenient host path);
      resolve_denied field given (resolved ++ [(path, canonical, exists_)])
  end.

(** Whether the denied [canonical] hides a mapped entry, which no allowed paths show again. *)
Definition hides_entry (denied_paths allowed_paths : list Path) (canonical : Path) (entry : Mapped) : bool :=
  starts_with (e_canonical entry) canonical
  && match nearest_rule (e_canonical entry) denied_paths allowed_paths true with
     | Some (rule, true) =>
         negb (e_directory entry && bool_decide (rule = e_canonical entry)
               && existsb (fun shown => negb (bool_decide (shown = e_canonical entry)) && starts_with shown (e_canonical entry)) allowed_paths)
     | _ => false
     end.

Fixpoint denied_loop (field : list byte) (mapped : list Mapped) (denied_paths allowed_paths : list Path)
    (resolved : list (list byte * Path * bool)) (denied : list PolicyPath) : planning (list PolicyPath) :=
  match resolved with
  | [] => Ok denied
  | (path, canonical, exists_) :: resolved =>
      if negb exists_ then
        match List.find (fun entry => starts_with canonical (e_canonical entry)) mapped with
        | Some entry => Err (DeniedMissing field path (e_given entry))
        | None => denied_loop field mapped denied_paths allowed_paths resolved denied
        end
      else
        match List.find (hides_entry denied_paths allowed_paths canonical) mapped with
        | Some entry => Err (DeniedContains field path (e_given entry))
        | None =>
            denied_loop field mapped denied_paths allowed_paths resolved
              (if negb (existsb (fun other => bool_decide (pp_canonical other = canonical)) denied)
               then denied ++ [mkPolicyPath path canonical] else denied)
        end
  end.
Definition denied_paths (list : PathList) (mapped : Datatypes.list Mapped) (allowed : Datatypes.list PolicyPath) : planning (Datatypes.list PolicyPath) :=
  resolved ← resolve_denied (l_name list) (l_paths list) [];
  let denied_paths := (fun entry => entry.1.2) <$> List.filter snd resolved in
  denied_loop (l_name list) mapped denied_paths (canonicals allowed) resolved [].
End resolving.

(** The loop of [check_allowed_paths]. *)
Fixpoint allowed_check_loop (denied_paths allowed_paths : list Path) (allowed : list PolicyPath) : planning unit :=
  match allowed with
  | [] => Ok tt
  | path :: allowed =>
      if existsb (fun other => bool_decide (other = pp_canonical path)) denied_paths then Err (AllowedAlsoDenied (pp_given path))
      else match nearest_rule (pp_canonical path) denied_paths allowed_paths false with
           | Some (_, true) => allowed_check_loop denied_paths allowed_paths allowed
           | Some (other, false) => Err (AllowedInsideAllowed (pp_given path) other)
           | None => Err (AllowedNotDenied (pp_given path))
           end
  end.
Definition check_allowed_paths (allowed denied : list PolicyPath) : planning unit :=
  allowed_check_loop (canonicals denied) (canonicals allowed) allowed.

(** The loop of [check_write_paths]. *)
Fixpoint write_check_loop (denied_paths allowed_paths : list Path) (write : list PolicyPath) : planning unit :=
  match write with
  | [] => Ok tt
  | path :: write =>
      match nearest_rule (pp_canonical path) denied_paths allowed_paths true with
      | Some (rule, true) => Err (WriteHidden (pp_given path) rule)
      | _ => write_check_loop denied_paths allowed_paths write
      end
  end.
Definition check_write_paths (write denied allowed : list PolicyPath) : planning unit :=
  write_check_loop (canonicals denied) (canonicals allowed) write.

Definition needed_denied_paths (denied allowed : list Path) : list Path :=
  sort_paths (List.filter (fun path => negb (denies (nearest_rule path denied allowed false))) denied).

(** [Writable]. *)
Record Writable := mkWritable {
  w_writable : bool;
  w_write : list Path;
}.

(** [Writable::moves]. *)
Definition moves (self : Writable) (root path : Path) : bool :=
  w_writable self && negb (bool_decide (path = root))
  && (bool_decide (w_write self = [])
      || existsb (fun write => negb (bool_decide (path = write)) && starts_with path write) (w_write self)).

Definition writable_part (root : Path) (mapped : list Mapped) (write : list PolicyPath) : Writable :=
  let read_write := e_canonical <$> List.filter (fun entry => negb (e_read_only entry) && starts_with (e_canonical entry) root) mapped in
  if bool_decide (read_write = []) then mkWritable false []
  else
    let narrowing := pp_canonical <$> List.filter (fun path => starts_with (pp_canonical path) root) write in
    mkWritable true
      (if negb (existsb (fun path => bool_decide (path = root)) read_write) then outermost read_write
       else if bool_decide (narrowing = []) then []
       else outermost (narrowing ++ List.filter (fun path => negb (bool_decide (path = root))) read_write)).

(** What breaks a rule of OpenVMM in a child. *)
Inductive RuleProblem : Type :=
| ListedTwice (path : Path)
| HiddenAlready (path rule : Path)
| HiddenAndShown (path : Path)
| ShownAlready (path rule : Path)
| NothingHidden (path : Path)
| WritesRoot (path : Path)
| WritableAlready (path other : Path)
| WritesHidden (path rule : Path).

(** [find_map]. *)
Fixpoint find_map {A B} (f : A -> option B) (l : list A) : option B :=
  match l with
  | [] => None
  | x :: l => match f x with Some y => Some y | None => find_map f l end
  end.

(** The first path that the paths before it hold. *)
Fixpoint repeated (before paths : list Path) : option Path :=
  match paths with
  | [] => None
  | path :: paths => if existsb (fun other => bool_decide (other = path)) before then Some path else repeated (before ++ [path]) paths
  end.

(** The bodies of the loops of [policy_rule_problem]. *)
Definition hidden_problem (denied allowed : list Path) (path : Path) : option RuleProblem :=
  match nearest_rule path denied allowed false with Some (rule, true) => Some (HiddenAlready path rule) | _ => None end.
Definition shown_problem (denied allowed : list Path) (path : Path) : option RuleProblem :=
  if existsb (fun other => bool_decide (other = path)) denied then Some (HiddenAndShown path)
  else match nearest_rule path denied allowed false with
       | Some (_, true) => None
       | Some (rule, false) => Some (ShownAlready path rule)
       | None => Some (NothingHidden path)
       end.
Definition writable_problem (root : Path) (denied allowed write : list Path) (path : Path) : option RuleProblem :=
  if bool_decide (path = root) then Some (WritesRoot path)
  else match List.find (fun other => negb (bool_decide (other = path)) && starts_with path other) write with
       | Some other => Some (WritableAlready path other)
       | None => match nearest_rule path denied allowed true with Some (rule, true) => Some (WritesHidden path rule) | _ => None end
       end.

Definition or_else {A} (o p : option A) : option A := match o with Some x => Some x | None => p end.

Definition policy_rule_problem (child : ExportChild) : option RuleProblem :=
  let denied := c_denied child in let allowed := c_allowed child in
  or_else (ListedTwice <$> find_map (repeated []) [denied; allowed; c_write child])
  (or_else (find_map (hidden_problem denied allowed) denied)
  (or_else (find_map (shown_problem denied allowed) allowed)
           (find_map (writable_problem (c_root child) denied allowed (c_write child)) (c_write child)))).

(** ** [limits.rs] *)

(** [str::chars]. *)
Fixpoint chars (text : list byte) : list Z :=
  match text with
  | [] => []
  | b :: l =>
      if in_bytes 0 127 b then byte_val b :: chars l
      else match l with
      | [] => []
      | b1 :: l1 =>
          if in_bytes 192 223 b then (byte_val b mod 32 * 64 + byte_val b1 mod 64) :: chars l1
          else match l1 with
          | [] => []
          | b2 :: l2 =>
              if in_bytes 224 239 b then (byte_val b mod 16 * 4096 + byte_val b1 mod 64 * 64 + byte_val b2 mod 64) :: chars l2
              else match l2 with
              | [] => []
              | b3 :: l3 => (byte_val b mod 8 * 262144 + byte_val b1 mod 64 * 4096 + byte_val b2 mod 64 * 64 + byte_val b3 mod 64) :: chars l3
              end
          end
      end
  end.

(** [char::is_whitespace]: Unicode's [White_Space]. *)
Definition is_whitespace (c : Z) : bool :=
  ((9 <=? c) && (c <=? 13)) || (c =? 32) || (c =? 133) || (c =? 160) || (c =? 5760)
  || ((8192 <=? c) && (c <=? 8202)) || (c =? 8232) || (c =? 8233) || (c =? 8239) || (c =? 8287) || (c =? 12288).

Definition SPACE_BYTE : byte := byte_of 32.

(** What OpenVMM refuses of one path below a root. *)
Definition refused_path (relative : list byte) : bool :=
  (MAX_POLICY_PATH_BYTES <? len relative)
  || existsb (fun character => (is_whitespace character && negb (character =? 32)) || (character =? 58) || (character =? 92)) (chars relative)
  || existsb (fun name => bool_decide (head name = Some SPACE_BYTE) || bool_decide (last name = Some SPACE_BYTE)) (split_on (is_byte SLASH) relative).

(** The loop of [policy_limits]. *)
Fixpoint limits_loop (root : Path) (paths : list Path) (total : Z) : result LimitProblem Z :=
  match paths with
  | [] => Ok total
  | path :: paths =>
      relative ← ok_or (relative_text root path) (PathNotUtf8 path);
      if refused_path relative then Err (PathRefused root path) else limits_loop root paths (total + len relative)
  end.

Definition policy_limits (root : Path) (paths : list Path) : result LimitProblem Z :=
  if MAX_POLICY_PATHS <? len paths then Err (TooManyPaths root (len paths))
  else
    total ← limits_loop root paths 0;
    if MAX_POLICY_BYTES <? total then Err (TooManyBytes root) else Ok total.

Section limits.
Context (host : Host).

(** The loop of [check_root]: on Linux nothing is a reparse point. *)
Fixpoint root_loop (root current components : Path) : planning unit :=
  match components with
  | [] => Ok tt
  | component :: components =>
      let current := current ++ [component] in
      match component with
      | Normal _ =>
          metadata ← map_err (CannotInspectPath current) (fs_symlink_metadata host current);
          if is_symlink metadata then Err (IsLink root current) else root_loop root current components
      | _ => root_loop root current components
      end
  end.
Definition check_root (root : Path) : planning unit := root_loop root [] root.

(** The loops of [check_policy_paths]. *)
Fixpoint names_loop (path current : Path) (names : list (list byte)) : planning unit :=
  match names with
  | [] => Ok tt
  | name :: names =>
      let current := join_path current name in
      metadata ← map_err (CannotInspectPath current) (fs_symlink_metadata host current);
      if is_symlink metadata then Err (IsLink path current) else names_loop path current names
  end.

Definition device_of (path : Path) : option Z := match file_identity host path with Ok identity => Some (device identity) | Err _ => None end.

Fixpoint policy_path_loop (root : Path) (paths : list Path) : planning unit :=
  match paths with
  | [] => Ok tt
  | path :: paths =>
      let relative := default [] (relative_text root path) in
      _ ← names_loop path root (List.filter (fun name => negb (bool_decide (name = []))) (split_on (is_byte SLASH) relative));
      if negb (bool_decide (device_of path = device_of root)) then Err (OtherFileSystem path root)
      else policy_path_loop root paths
  end.

Definition check_policy_paths (root : Path) (paths : list Path) : planning Z :=
  total ← map_err LimitExceeded (policy_limits root paths);
  _ ← policy_path_loop root paths;
  Ok total.
End limits.

(** ** [mod.rs]: the plan *)

Definition target_problem (target : list byte) : option TargetProblem :=
  match strip_prefix [SLASH] target with
  | None => Some NotAbsolute
  | Some rest =>
      if bool_decide (rest = []) then Some GuestRoot
      else if MAX_GUEST_PATH <? len target then Some TooLong
      else if has_nul target then Some HasNul
      else if existsb (fun component => bool_decide (component = []) || bool_decide (component = DOT_PIECE) || bool_decide (component = DOT_DOT))
                (split_on (is_byte SLASH) rest) then Some BadComponent
      else None
  end.

Definition is_normal (component : Component) : bool := match component with Normal _ => true | _ => false end.

(** [volume_root_refusal(canonical).is_some()]. *)
Definition volume_root_refusal (canonical : Path) : bool := negb (existsb is_normal canonical).

(** Why a path is not in the form in which [plan] resolves paths. *)
Inductive PathProblem : Type := PathNul | PathParent.
Definition resolved_path_problem (path : Path) : option PathProblem :=
  if existsb (fun component => has_nul (component_text component)) path then Some PathNul
  else if existsb (fun component => bool_decide (component = ParentDir)) path then Some PathParent
  else None.

Definition resolve_mapping (host : Host) (mapping : Mapping) (reserved : ReservedTargets) : planning Mapped :=
  let name := m_name mapping in let path := m_path mapping in
  canonical ← map_err (NotAccessible name path) (canonicalize host path);
  if negb (is_utf8 (path_text canonical)) then Err (NotUtf8 name path)
  else
    metadata ← map_err (CannotInspect path) (fs_metadata host canonical);
    if negb (is_dir metadata) && negb (is_file metadata) then Err (NeitherFileNorDirectory name path)
    else if is_dir metadata && volume_root_refusal canonical then Err (WholeVolume name path)
    else
      target ← match m_target mapping with
               | Convention =>
                   target ← ok_or (guest_path canonical) (NoGuestPath name path);
                   match reserved_at reserved target with
                   | Some reserved => Err (Covers name path reserved)
                   | None => Ok target
                   end
               | Guest target =>
                   match target_problem target with
                   | Some problem => Err (BadTarget name path target problem)
                   | None => match reserved_at reserved target with
                             | Some reserved => Err (Covers name path reserved)
                             | None => Ok target
                             end
                   end
               end;
      Ok (mkMapped name path canonical target (m_read_only mapping) (is_dir metadata)).

(** One object at one target. *)
Definition same_place (entry other : Mapped) : bool :=
  bool_decide (e_canonical other = e_canonical entry) && bool_decide (e_target other = e_target entry).

(** [mapped.iter_mut().find(..)] and what is done with it: the first such entry keeps the most
    restrictive access, and a new one goes last. *)
Fixpoint merge_entry (mapped : list Mapped) (entry : Mapped) : list Mapped :=
  match mapped with
  | [] => [entry]
  | other :: mapped =>
      if same_place entry other then (if e_read_only entry && negb (e_read_only other) then entry else other) :: mapped
      else other :: merge_entry mapped entry
  end.

(** The loop of [plan] over the mappings. *)
Fixpoint resolve_mappings (host : Host) (reserved : ReservedTargets) (mappings : list Mapping) (mapped : list Mapped) : planning (list Mapped) :=
  match mappings with
  | [] => Ok mapped
  | mapping :: mappings =>
      entry ← resolve_mapping host mapping reserved;
      resolve_mappings host reserved mappings (merge_entry mapped entry)
  end.

Definition shows (outer inner : Mapped) : bool :=
  match (rest ← strip_prefix (e_target outer) (e_target inner); strip_prefix [SLASH] rest) with
  | None => false
  | Some rest => e_directory outer && bool_decide (relative_text (e_canonical outer) (e_canonical inner) = Some rest)
  end.

(** The body of [check_targets]. *)
Definition pair_problem (entry other : Mapped) : option PlanError :=
  if bool_decide (e_target entry = e_target other) then Some (SameTarget entry other)
  else if within (e_target entry) (e_target other) then (if shows other entry then None else Some (HidesPart entry other))
  else if within (e_target other) (e_target entry) then (if shows entry other then None else Some (HidesPart other entry))
  else None.

Fixpoint targets_loop (before mapped : list Mapped) : planning unit :=
  match mapped with
  | [] => Ok tt
  | entry :: mapped =>
      match find_map (pair_problem entry) before with
      | Some problem => Err problem
      | None => targets_loop (before ++ [entry]) mapped
      end
  end.
Definition check_targets (mapped : list Mapped) : planning unit := targets_loop [] mapped.

(** The loop of [check_caller_roots]; [uninspected] is the caller's error. *)
Fixpoint check_caller_roots {E} (host : Host) (owns : Path -> E) (uninspected : Path -> IoError -> E) (children : list ExportChild) : result E unit :=
  match children with
  | [] => Ok tt
  | child :: children =>
      metadata ← map_err (uninspected (c_root child)) (fs_metadata host (c_root child));
      if (uid metadata =? 0) || (gid metadata =? 0) then Err (owns (c_root child))
      else check_caller_roots host owns uninspected children
  end.

Section planning.
Context (host : Host).

(** [movable(path).then(|| identity(path)).transpose()]. *)
Definition pin (movable : Path -> bool) (path : Path) : planning (option FileIdentity) :=
  if movable path then identity ← identity host path; Ok (Some identity) else Ok None.

Fixpoint pins (movable : Path -> bool) (paths : list Path) : planning (list (option FileIdentity)) :=
  match paths with
  | [] => Ok []
  | path :: paths => first ← pin movable path; rest ← pins movable paths; Ok (first :: rest)
  end.

(** The refusal of hidden write paths. *)
Fixpoint parts_loop (denied allowed : list Path) (parts : list (Path * Writable)) : planning unit :=
  match parts with
  | [] => Ok tt
  | (root, part) :: parts =>
      match find_map (fun path => match nearest_rule path denied allowed true with Some (rule, true) => Some (rule, path) | _ => None end) (w_write part) with
      | Some (rule, path) => Err (WriteNarrowedHidden rule path root)
      | None => parts_loop denied allowed parts
      end
  end.

(** The paths of [inside]. *)
Definition inside (root : Path) (paths : list Path) : list Path := List.filter (fun path => starts_with path root) paths.

(** The loop that makes the children. *)
Fixpoint children_loop (mapped : list Mapped) (denied allowed : list Path) (movable : Path -> bool)
    (parts : list (Path * Writable)) (children : list ExportChild) (policy_bytes : Z) : planning (list ExportChild * Z) :=
  match parts with
  | [] => Ok (children, policy_bytes)
  | (root, part) :: parts =>
      own ← ok_or (List.find (fun entry => bool_decide (e_canonical entry = root)) mapped) (ExportedNotMapped root);
      let child_allowed := inside root allowed in
      let child_denied := needed_denied_paths (inside root denied) child_allowed in
      _ ← check_root host root;
      hide ← check_policy_paths host root child_denied;
      show ← check_policy_paths host root child_allowed;
      write ← check_policy_paths host root (w_write part);
      identities ← pins movable child_denied;
      children_loop mapped denied allowed movable parts
        (children ++ [mkExportChild root (negb (e_directory own)) (w_writable part) child_denied identities child_allowed (w_write part)])
        (policy_bytes + hide + show + write)
  end.

(** The loop that makes the binds. *)
Fixpoint binds_loop (children : list ExportChild) (movable : Path -> bool) (mapped : list Mapped) (binds : list Bind) : planning (list Bind) :=
  match mapped with
  | [] => Ok binds
  | entry :: mapped =>
      match list_find (fun child => starts_with (e_canonical entry) (c_root child) = true) children with
      | None => Err (InNoChild (e_given entry))
      | Some (child, holder) =>
          source ← ok_or (relative_text (c_root holder) (e_canonical entry)) (NotUtf8 (e_name entry) (e_given entry));
          if (MAX_GUEST_PATH <? len GUEST_EXPORT + 1 + len (guest_source child source)) || (MAX_GUEST_PATH <? len (e_target entry))
          then Err (TooLongForGuest (e_given entry))
          else
            identity ← pin movable (e_canonical entry);
            binds_loop children movable mapped (binds ++ [mkBind child source (e_target entry) (e_read_only entry) identity])
      end
  end.

(** The order of the binds. *)
Definition compare_bind (one other : Bind) : comparison :=
  match depth (b_target one) ?= depth (b_target other) with
  | Eq => compare_bytes (b_target one) (b_target other)
  | order => order
  end.

Definition plan (request : ExportRequest) : planning (option ExportPlan) :=
  mapped ← resolve_mappings host (r_reserved request) (r_mappings request) [];
  if bool_decide (len mapped = 0) then Ok None
  else if Maps.MAX_HOST_MAPPINGS <? len mapped then Err TooManyMappings
  else
    _ ← check_targets mapped;
    let roots := outermost (e_canonical <$> mapped) in
    write ← write_paths host (r_write request) mapped roots;
    _ ← check_read_only mapped write (l_name (r_write request)) roots;
    _ ← distinct_roots host roots;
    if MAX_CHILDREN <? len roots then Err (TooManyChildren (len roots))
    else
      allowed ← allowed_paths host (r_allowed request) roots;
      denied ← denied_paths host (r_denied request) mapped allowed;
      _ ← check_allowed_paths allowed denied;
      _ ← check_write_paths write denied allowed;
      let denied := canonicals denied in
      let allowed := sort_paths (canonicals allowed) in
      let parts := (fun root => (root, writable_part root mapped write)) <$> roots in
      _ ← parts_loop denied allowed parts;
      let movable path := existsb (fun part => starts_with path part.1 && moves part.2 part.1 path) parts in
      '(children, policy_bytes) ← children_loop mapped denied allowed movable parts [] 0;
      if MAX_AGGREGATE_POLICY_BYTES <? policy_bytes then Err AggregateExceeded
      else
        binds ← binds_loop children movable mapped [];
        let binds := merge_sort (at_most compare_bind) binds in
        _ ← (if bool_decide (r_owner request = Caller) then check_caller_roots host CallerOwnsRoot CannotInspectPath children else Ok tt);
        Ok (Some (mkExportPlan children binds (r_owner request))).
End planning.

(** ** [verify.rs]: a recorded plan *)

Inductive CheckError : Type :=
| ChildCount (count : Z)
| BindCount (count : Z)
| ChildNotAbsolute (index : nat)
| ChildPath (index : nat) (path : Path) (problem : PathProblem)
| IdentityCount (index : nat)
| PolicyOutside (index : nat) (path : Path)
| ChildLimit (index : nat) (problem : LimitProblem)
| Overlap (index other : nat)
| ChildRule (index : nat) (problem : RuleProblem)
| ReadOnlyWrites (index : nat)
| RootNotMapped (index : nat)
| WritableUnmapped (index : nat)
| ReadOnlyMapped (index : nat)
| AggregateLimit
| UnknownChild (bind : Bind)
| NotInside (bind : Bind)
| SourceNul (bind : Bind)
| SourceTooLong (bind : Bind)
| OtherNames (bind : Bind)
| BindHidden (bind : Bind)
| BindTarget (bind : Bind) (problem : TargetProblem)
| BindCovers (bind : Bind) (reserved : list byte)
| OutOfOrder (bind previous : Bind)
| HidesBind (bind outer : Bind)
| NarrowedAway (index : nat) (path : Path)
| WritesOthers (index : nat)
| DeniedUnpinned (index : nat) (path : Path)
| BindUnpinned (bind : Bind).

Abbreviation checking := (result CheckError).

(** The guard [if c { return invalid(e) }]. *)
Definition refuse {E} (condition : bool) (error : E) : result E unit := if condition then Err error else Ok tt.
(** The guard [if let Some(x) = o { return invalid(e(x)) }]. *)
Definition refuse_some {A E} (o : option A) (error : A -> E) : result E unit := match o with Some x => Err (error x) | None => Ok tt end.

(** The host path that a bind of [child] maps. *)
Definition bound_path (child : ExportChild) (bind : Bind) : Path :=
  if bool_decide (b_source bind = []) then c_root child else join_path (c_root child) (b_source bind).

Definition is_absolute (path : Path) : bool := match path with RootDir :: _ => true | _ => false end.

(** The limits of the three lists of a child, summed. *)
Fixpoint lists_limits (index : nat) (root : Path) (lists : list (list Path)) (policy_bytes : Z) : checking Z :=
  match lists with
  | [] => Ok policy_bytes
  | paths :: lists => bytes ← map_err (ChildLimit index) (policy_limits root paths); lists_limits index root lists (policy_bytes + bytes)
  end.

(** The body of the loop over the children. *)
Definition check_child (binds : list Bind) (before : list ExportChild) (index : nat) (child : ExportChild) (policy_bytes : Z) : checking Z :=
  let policy := c_denied child ++ c_allowed child ++ c_write child in
  _ ← refuse (negb (is_absolute (c_root child)) || volume_root_refusal (c_root child)) (ChildNotAbsolute index);
  _ ← refuse_some (find_map (fun path => pair path <$> resolved_path_problem path) (c_root child :: policy)) (fun p => ChildPath index p.1 p.2);
  _ ← refuse (negb (len (c_denied_identities child) =? len (c_denied child))) (IdentityCount index);
  _ ← refuse_some (List.find (fun path => negb (starts_with path (c_root child)) || (c_file child && negb (bool_decide (path = c_root child)))) policy) (PolicyOutside index);
  policy_bytes ← lists_limits index (c_root child) [c_denied child; c_allowed child; c_write child] policy_bytes;
  _ ← refuse_some (list_find (fun other => starts_with (c_root other) (c_root child) || starts_with (c_root child) (c_root other) = true) before) (fun p => Overlap index p.1);
  _ ← refuse_some (policy_rule_problem child) (ChildRule index);
  _ ← refuse (negb (c_writable child) && negb (bool_decide (c_write child = []))) (ReadOnlyWrites index);
  _ ← refuse (negb (existsb (fun bind => bool_decide (b_child bind = index) && bool_decide (b_source bind = [])) binds)) (RootNotMapped index);
  let read_write := existsb (fun bind => bool_decide (b_child bind = index) && negb (b_read_only bind)) binds in
  _ ← refuse (negb (Bool.eqb (c_writable child) read_write)) (if c_writable child then WritableUnmapped index else ReadOnlyMapped index);
  Ok policy_bytes.

Fixpoint check_children (binds : list Bind) (before children : list ExportChild) (policy_bytes : Z) : checking Z :=
  match children with
  | [] => Ok policy_bytes
  | child :: children =>
      policy_bytes ← check_child binds before (length before) child policy_bytes;
      check_children binds (before ++ [child]) children policy_bytes
  end.

(** What an outer bind shows at a target inside its own. *)
Definition hides_bind (bind outer : Bind) : bool :=
  match (rest ← strip_prefix (b_target outer) (b_target bind); strip_prefix [SLASH] rest) with
  | None => false
  | Some rest =>
      let shown := if bool_decide (b_source outer = []) then rest else b_source outer ++ SLASH :: rest in
      negb (bool_decide (b_child bind = b_child outer)) || negb (bool_decide (b_source bind = shown))
  end.

(** [(depth, target) >= (depth, target)]. *)
Definition not_before (previous bind : Bind) : bool := match compare_bind previous bind with Lt => false | _ => true end.

(** The body of the loop over the binds. *)
Definition check_bind (children : list ExportChild) (reserved : ReservedTargets) (before : list Bind) (bind : Bind) : checking unit :=
  child ← ok_or (children !! b_child bind) (UnknownChild bind);
  _ ← refuse (negb (bool_decide (b_source bind = []))
              && (c_file child || existsb (fun component => bool_decide (component = []) || bool_decide (component = DOT_PIECE) || bool_decide (component = DOT_DOT))
                                    (split_on (is_byte SLASH) (b_source bind)))) (NotInside bind);
  _ ← refuse (has_nul (b_source bind)) (SourceNul bind);
  _ ← refuse (MAX_GUEST_PATH <? len GUEST_EXPORT + 1 + len (bind_guest_source bind)) (SourceTooLong bind);
  let path := bound_path child bind in
  _ ← refuse (negb (bool_decide (relative_text (c_root child) path = Some (b_source bind)))) (OtherNames bind);
  _ ← refuse (denies (nearest_rule path (c_denied child) (c_allowed child) true)
              && negb (existsb (fun shown => negb (bool_decide (shown = path)) && starts_with shown path) (c_allowed child))) (BindHidden bind);
  _ ← refuse_some (target_problem (b_target bind)) (BindTarget bind);
  _ ← refuse_some (reserved_at reserved (b_target bind)) (BindCovers bind);
  _ ← refuse_some (previous ← last before; if not_before previous bind then Some previous else None) (OutOfOrder bind);
  refuse_some (List.find (hides_bind bind) before) (HidesBind bind).

Fixpoint check_binds (children : list ExportChild) (reserved : ReservedTargets) (before binds : list Bind) : checking unit :=
  match binds with
  | [] => Ok tt
  | bind :: binds =>
      _ ← check_bind children reserved before bind;
      check_binds children reserved (before ++ [bind]) binds
  end.

(** The body of the last loop over the children. *)
Definition check_writes (binds : list Bind) (index : nat) (child : ExportChild) : checking unit :=
  let read_write := bound_path child <$> List.filter (fun bind => bool_decide (b_child bind = index) && negb (b_read_only bind)) binds in
  _ ← (if existsb (fun path => bool_decide (path = c_root child)) read_write then
         refuse_some (List.find (fun path => negb (bool_decide (path = c_root child)) && negb (bool_decide (c_write child = []))
                                             && negb (existsb (fun write => starts_with path write) (c_write child))) read_write) (NarrowedAway index)
       else refuse (negb (bool_decide (outermost read_write = sort_paths (c_write child)))) (WritesOthers index));
  let part := mkWritable (c_writable child) (c_write child) in
  _ ← refuse_some (List.find (fun pinned => bool_decide (pinned.2 = None) && moves part (c_root child) pinned.1) (zip (c_denied child) (c_denied_identities child)))
        (fun pinned => DeniedUnpinned index pinned.1);
  refuse_some (List.find (fun bind => bool_decide (b_child bind = index) && bool_decide (b_identity bind = None)
                                      && moves part (c_root child) (bound_path child bind)) binds) BindUnpinned.

Fixpoint check_all_writes (binds : list Bind) (index : nat) (children : list ExportChild) : checking unit :=
  match children with
  | [] => Ok tt
  | child :: children => _ ← check_writes binds index child; check_all_writes binds (S index) children
  end.

Definition check (self : ExportPlan) (reserved : ReservedTargets) : checking unit :=
  let children := p_children self in let binds := p_binds self in
  _ ← refuse (bool_decide (children = []) || (MAX_CHILDREN <? len children)) (ChildCount (len children));
  _ ← refuse (bool_decide (binds = []) || (Maps.MAX_HOST_MAPPINGS <? len binds)) (BindCount (len binds));
  policy_bytes ← check_children binds [] children 0;
  _ ← refuse (MAX_AGGREGATE_POLICY_BYTES <? policy_bytes) AggregateLimit;
  _ ← check_binds children reserved [] binds;
  check_all_writes binds 0 children.

(** What [verify] finds. *)
Inductive VerifyError : Type :=
| ReadOnlyInWritable (path root : Path)
| BindUnknown
| ChangedObject (path : Path) (source : option IoError)
| Uninspected (path : Path) (source : IoError)
| OwnedByRoot (root : Path).

Definition ELOOP : Z := 40.
Definition loops (error : IoError) : bool := bool_decide (raw_os_error error = Some ELOOP).

Definition uninspected (path : Path) (error : IoError) : VerifyError :=
  if match io_kind error with NotFound | NotADirectory | PermissionDenied => true | OtherKind => false end || loops error
  then ChangedObject path (Some error) else Uninspected path error.

Abbreviation verifying := (result VerifyError).

(** A loop without state, which the first error ends. *)
Fixpoint for_each {A E} (f : A -> result E unit) (l : list A) : result E unit :=
  match l with
  | [] => Ok tt
  | x :: l => _ ← f x; for_each f l
  end.

Definition bound (self : ExportPlan) (bind : Bind) : verifying (ExportChild * Path) :=
  child ← ok_or (p_children self !! b_child bind) BindUnknown;
  Ok (child, bound_path child bind).

Section verifying.
Context (host : Host).

(** The bodies of the loops of [verify]. *)
Definition verify_read_only (self : ExportPlan) (bind : Bind) : verifying unit :=
  '(child, path) ← bound self bind;
  refuse (c_writable child && (bool_decide (c_write child = []) || existsb (fun write => starts_with path write) (c_write child)))
    (ReadOnlyInWritable path (c_root child)).

Definition verify_kind (child : ExportChild) : verifying unit :=
  match fs_symlink_metadata host (c_root child) with
  | Ok metadata => refuse (negb (if c_file child then is_file metadata else is_dir metadata)) (ChangedObject (c_root child) None)
  | Err error => Err (uninspected (c_root child) error)
  end.

Definition verify_identity (path : Path) (expected : option FileIdentity) : verifying unit :=
  match expected with
  | None => Ok tt
  | Some expected =>
      match file_identity host path with
      | Ok identity => refuse (negb (bool_decide (identity = expected))) (ChangedObject path None)
      | Err error => Err (uninspected path error)
      end
  end.

Definition verify_bind (self : ExportPlan) (bind : Bind) : verifying unit :=
  match b_identity bind with
  | None => Ok tt
  | Some expected => '(_, path) ← bound self bind; verify_identity path (Some expected)
  end.

Definition verify (self : ExportPlan) : verifying unit :=
  _ ← for_each (verify_read_only self) (List.filter b_read_only (p_binds self));
  _ ← for_each verify_kind (p_children self);
  _ ← for_each (verify_bind self) (p_binds self);
  _ ← for_each (fun child => for_each (fun pinned => verify_identity pinned.1 pinned.2) (zip (c_denied child) (c_denied_identities child))) (p_children self);
  if bool_decide (p_owner self = Caller) then check_caller_roots host OwnedByRoot uninspected (p_children self) else Ok tt.
End verifying.

(** ** Rendering *)

Definition kernel_token (self : ExportPlan) : list byte := bytes_of MAPS_TOKEN ++ dec (len (p_binds self)).

Definition guest_table (self : ExportPlan) : list HostMap :=
  (fun bind => mkHostMap (bind_guest_source bind) (b_target bind) (b_read_only bind)) <$> p_binds self.

(** [display_path]; the planned paths are UTF-8, of which the lossy text is the path's own. *)
Definition display_path (path : Path) : list byte := path_text path.

Definition child_arguments (index : nat) (child : ExportChild) : list (list byte) :=
  [bytes_of "--mount-child";
   dec (Z.of_nat index) ++ bytes_of "," ++ display_path (c_root child) ++ bytes_of "," ++ bytes_of (if c_writable child then "rw" else "ro")
   ++ bytes_of (if c_file child then ",file" else "")].

Definition policy_arguments (option : string) (paths : ExportChild -> list Path) (children : list ExportChild) : list (list byte) :=
  concat ((fun path => [bytes_of option; display_path path]) <$> concat (paths <$> children)).

Definition openvmm_arguments (self : ExportPlan) : list (list byte) :=
  [bytes_of "--mount-aggregate"; GUEST_EXPORT]
  ++ concat (imap child_arguments (p_children self))
  ++ policy_arguments "--mount-deny" c_denied (p_children self)
  ++ policy_arguments "--mount-allow" c_allowed (p_children self)
  ++ policy_arguments "--mount-write" c_write (p_children self)
  ++ (if bool_decide (p_owner self = Caller) then [bytes_of "--mount-owner"; bytes_of "caller"] else []).
