(* ===== verification/ExportFacts.v ===== *)
(** * What a planned export lets a guest see and write

    The rules of a child, the inversion of [plan] into what it established of the host and of the
    request, and the access that OpenVMM then grants, which is the one that the request describes. *)

From stdpp Require Import sorting.
From S2P Require Import Prelude Cmdline AddressText Export Maps HostPaths ExportPlanner.

(** ** The nearest rule *)

(** Which rules [nearest_rule] considers. *)
Definition applies (inclusive : bool) (path rule : Path) : Prop := rule `prefix_of` path /\ (inclusive = true \/ rule <> path).

Definition hidden_by (denied allowed : list Path) (inclusive : bool) (path rule : Path) : Prop :=
  rule ∈ denied /\ applies inclusive path rule /\
  forall other, other ∈ allowed -> applies inclusive path other -> (length other < length rule)%nat.

Lemma max_by_key_spec {A} (key : A -> Z) (l : list A) :
  match max_by_key key l with
  | None => l = []
  | Some x => exists k1 k2, l = k1 ++ x :: k2 /\ (forall y, y ∈ l -> key y <= key x) /\ (forall y, y ∈ k2 -> key y < key x)
  end.
Proof.
  induction l as [|x l IH] using rev_ind; [done|]. unfold max_by_key in *. rewrite foldl_app. cbn.
  destruct (foldl _ None l) as [b|] eqn:E.
  - destruct IH as (k1 & k2 & -> & Hall & Hlast). destruct (key b <=? key x) eqn:Hk; bool_to_prop.
    + exists (k1 ++ b :: k2), []. split; [done|]. split; [|set_solver]. intros y [Hy|Hy%list_elem_of_singleton]%elem_of_app; [|by subst].
      specialize (Hall y Hy). lia.
    + exists k1, (k2 ++ [x]). split; [by rewrite <- app_assoc|]. split; intros y.
      * rewrite elem_of_app, list_elem_of_singleton. intros [Hy| ->]; [auto|lia].
      * rewrite elem_of_app, list_elem_of_singleton. intros [Hy| ->]; [auto|lia].
  - subst l. exists [], []. split; [done|]. split; [|set_solver]. intros y ->%list_elem_of_singleton. done.
Qed.

Lemma prefix_same_length {A} (k l m : list A) : k `prefix_of` m -> l `prefix_of` m -> length k = length l -> k = l.
Proof.
  intros H1 H2 Hl. destruct (prefix_weak_total _ _ _ H1 H2) as [H|H]; [|symmetry];
    apply (prefix_length_eq _ _ H); lia.
Qed.

Lemma prefix_shorter {A} (k l m : list A) : k `prefix_of` m -> l `prefix_of` m -> (length k <= length l)%nat -> k `prefix_of` l.
Proof.
  intros H1 H2 Hl. destruct (prefix_weak_total _ _ _ H1 H2) as [H|H]; [done|].
  by rewrite (prefix_length_eq _ _ H Hl).
Qed.

Lemma prefix_strict {A} (k l : list A) : k `prefix_of` l -> k <> l -> (length k < length l)%nat.
Proof.
  intros H Hne. pose proof (prefix_length _ _ H). destruct (decide (length k = length l)) as [He|]; [|lia].
  exfalso. apply Hne, (prefix_length_eq _ _ H). lia.
Qed.

(** The rules that are considered, with their kinds. *)
Lemma nearest_candidates path denied allowed inclusive rule kind :
  (rule, kind) ∈ List.filter (fun rule => (inclusive || negb (bool_decide (rule.1 = path))) && starts_with path rule.1)
                   (((fun rule => (rule, true)) <$> denied) ++ ((fun rule => (rule, false)) <$> allowed)) <->
  (if kind : bool then rule ∈ denied else rule ∈ allowed) /\ applies inclusive path rule.
Proof.
  rewrite elem_of_filter_bool, elem_of_app, !list_elem_of_fmap, andb_true_iff, orb_true_iff, negb_true_iff, bool_decide_eq_false, starts_with_prefix.
  unfold applies. cbn. destruct kind; naive_solver.
Qed.

Lemma nearest_rule_denied path denied allowed inclusive rule :
  nearest_rule path denied allowed inclusive = Some (rule, true) ->
  hidden_by denied allowed inclusive path rule /\ (forall other, other ∈ denied -> applies inclusive path other -> other `prefix_of` rule).
Proof.
  unfold nearest_rule. match goal with |- max_by_key _ ?l = _ -> _ => pose proof (max_by_key_spec (fun rule => len rule.1) l) as H; pose proof (nearest_candidates path denied allowed inclusive) as Hc; set (cs := l) in * end.
  intros E. rewrite E in H. destruct H as (k1 & k2 & Hl & Hall & Hlast).
  assert (Hr : (rule, true) ∈ cs) by (rewrite Hl; set_solver). apply Hc in Hr as [Hin Happ].
  split; [split; [done|split; [done|]]|].
  - intros other Hother Ho. assert (Ho' : (other, false) ∈ cs) by (by apply Hc). pose proof (Hall _ Ho') as Hle. cbn in Hle.
    unfold len in Hle. destruct (decide (length other = length rule)) as [He|]; [|lia]. exfalso.
    destruct Happ as [Hp1 _], Ho as [Hp2 _]. pose proof (prefix_same_length _ _ _ Hp2 Hp1 He) as ->.
    (* the allowed one comes after every denied one *)
    assert (Hk : (rule, false) ∈ k2); [|specialize (Hlast _ Hk); cbn in Hlast; lia].
    assert (Hsplit : exists a b, cs = a ++ b /\ Forall (fun r => r.2 = true) a /\ Forall (fun r => r.2 = false) b).
    { unfold cs. rewrite List.filter_app. eexists _, _. split; [done|]. split; rewrite Forall_forall; intros [r d] Hrd%elem_of_filter_bool; destruct Hrd as [(? & ? & ?)%list_elem_of_fmap _]; simplify_eq; done. }
    destruct Hsplit as (a & b & Hab & Ha & Hb). rewrite Hab in Hl. rewrite Forall_forall in Ha, Hb.
    destruct (decide ((rule, false) ∈ k2)) as [|Hn]; [done|exfalso].
    rewrite Hab in Ho'. apply elem_of_app in Ho' as [Ho'|Ho']; [by apply Ha in Ho'|].
    assert (Hb' : (rule, false) ∈ k1).
    { assert (H : (rule, false) ∈ k1 ++ (rule, true) :: k2) by (rewrite <- Hl; set_solver). set_solver. }
    apply list_elem_of_split in Hb' as (k3 & k4 & ->). rewrite <- app_assoc in Hl. cbn in Hl.
    (* [a] ends before the allowed rule, and [b] holds no denied one *)
    assert (Htail : forall c d e, a ++ b = c ++ (rule, false) :: d ++ (rule, true) :: e -> False); [|by eapply Htail].
    clear -Ha Hb. intros c. revert Ha. induction a as [|x a IH] in c |- *; intros Ha d e He.
    + cbn in He. subst b. specialize (Hb (rule, true)). cbn in Hb. discriminate Hb. set_solver.
    + destruct c as [|y c]; cbn in He; [injection He as -> _; by specialize (Ha (rule, false) ltac:(set_solver))|].
      injection He as -> He. eapply (IH c); [set_solver|done].
  - intros other Hother Ho. assert (Ho' : (other, true) ∈ cs) by (by apply Hc). pose proof (Hall _ Ho') as Hle. cbn in Hle.
    unfold len in Hle. destruct Happ as [Hp1 _], Ho as [Hp2 _]. apply (prefix_shorter _ _ _ Hp2 Hp1). lia.
Qed.

(** OpenVMM hides a path exactly when a denied rule contains it that is nearer than every allowed one. *)
Lemma denies_iff path denied allowed inclusive :
  denies (nearest_rule path denied allowed inclusive) = true <-> exists rule, hidden_by denied allowed inclusive path rule.
Proof.
  split.
  - destruct (nearest_rule path denied allowed inclusive) as [[rule []]|] eqn:E; try done. intros _. exists rule. by apply nearest_rule_denied in E as [? _].
  - intros (rule & Hin & Happ & Hall). unfold nearest_rule.
    match goal with |- context [max_by_key _ ?l] => pose proof (max_by_key_spec (fun rule => len rule.1) l) as H; pose proof (nearest_candidates path denied allowed inclusive) as Hc; set (cs := l) in * end.
    assert (Hr : (rule, true) ∈ cs) by (by apply Hc). destruct (max_by_key _ cs) as [[best []]|]; [done| |rewrite H in Hr; set_solver].
    destruct H as (k1 & k2 & Hl & Hle & _). assert (Hb : (best, false) ∈ cs) by (rewrite Hl; set_solver).
    apply Hc in Hb as [Hb1 Hb2]. specialize (Hall best Hb1 Hb2). specialize (Hle _ Hr). cbn in Hle. unfold len in Hle. lia.
Qed.

Lemma denies_false path denied allowed inclusive :
  denies (nearest_rule path denied allowed inclusive) = false <-> ~ exists rule, hidden_by denied allowed inclusive path rule.
Proof. by rewrite <- denies_iff, not_true_iff_false. Qed.

Lemma hidden_by_ext denied denied' allowed allowed' inclusive path rule :
  (forall p, p ∈ denied <-> p ∈ denied') -> (forall p, p ∈ allowed <-> p ∈ allowed') ->
  hidden_by denied allowed inclusive path rule <-> hidden_by denied' allowed' inclusive path rule.
Proof. intros Hd Ha. unfold hidden_by. rewrite Hd. setoid_rewrite Ha. done. Qed.

Lemma elem_of_inside root paths p : p ∈ inside root paths <-> p ∈ paths /\ root `prefix_of` p.
Proof. unfold inside. by rewrite elem_of_filter_bool, starts_with_prefix. Qed.

Lemma elem_of_needed denied allowed p :
  p ∈ needed_denied_paths denied allowed <-> p ∈ denied /\ ~ exists rule, hidden_by denied allowed false p rule.
Proof.
  unfold needed_denied_paths, sort_paths. rewrite (elem_of_sort compare_path), elem_of_filter_bool, negb_true_iff. by rewrite denies_false.
Qed.

(** Above a denied path there is a needed one, without an allowed path between them. *)
Lemma needed_above denied allowed r :
  r ∈ denied -> exists r0, r0 ∈ needed_denied_paths denied allowed /\ r0 `prefix_of` r /\
    forall a, a ∈ allowed -> a `prefix_of` r -> a <> r -> (length a < length r0)%nat \/ r0 = r.
Proof.
  revert r. apply (well_founded_ind (Wf_nat.well_founded_ltof _ length) (fun r => r ∈ denied -> _)). intros r IH Hr.
  destruct (denies (nearest_rule r denied allowed false)) eqn:E.
  - apply denies_iff in E as (r1 & Hr1 & Happ & Hall). destruct Happ as [Hpre [?|Hne]]; [done|].
    destruct (IH r1) as (r0 & Hr0 & Hpre0 & Ha0); [by apply prefix_strict|done|].
    exists r0. split; [done|]. split; [by etrans|]. intros a Ha Hap Han. left.
    assert (Hlt : (length a < length r1)%nat) by (apply Hall; [done|split; auto]).
    destruct (Ha0 a Ha) as [|He]; [|intros ->; lia|done|by subst].
    apply (prefix_shorter _ _ r); [done|done|lia].
  - exists r. rewrite elem_of_needed. apply denies_false in E. auto.
Qed.

(** ** One child's rules decide as all rules do *)

Section child_rules.
Context (root : Path) (denied allowed : list Path).
(** A denied path that contains the root comes with the root; no allowed path contains it. *)
Context (Hroot : forall r, r ∈ denied -> r `prefix_of` root -> root ∈ denied).
Context (Hallowed : forall a, a ∈ allowed -> ~ a `prefix_of` root).

Let child_denied := needed_denied_paths (inside root denied) (inside root allowed).

Lemma child_rules_decide path inclusive :
  root `prefix_of` path -> inclusive = true \/ root <> path ->
  (exists rule, hidden_by denied allowed inclusive path rule) <-> (exists rule, hidden_by child_denied (inside root allowed) inclusive path rule).
Proof.
  intros Hp Hi. split.
  - intros (r & Hr & Happ & Hall).
    (* a rule inside the child *)
    assert (exists r, hidden_by (inside root denied) allowed inclusive path r) as (r' & Hr' & Happ' & Hall').
    { destruct (decide (root `prefix_of` r)) as [Hin|Hout]; [exists r; split; [by apply elem_of_inside|done]|].
      destruct Happ as [Hpr _]. destruct (prefix_weak_total _ _ _ Hp Hpr) as [|Hpre]; [done|].
      exists root. split; [apply elem_of_inside; eauto|]. split; [done|]. intros a Ha Happ. specialize (Hall a Ha Happ).
      pose proof (prefix_length _ _ Hpre). lia. }
    destruct (needed_above _ (inside root allowed) _ Hr') as (r0 & Hr0 & Hpre0 & Ha0). exists r0. split; [done|].
    split.
    { destruct Happ' as [Hp1 Hp2]. split; [by etrans|]. destruct Hp2 as [|Hne]; [by left|right]. intros ->. apply Hne.
      pose proof (prefix_length _ _ Hpre0) as Hlen. by apply (prefix_length_eq _ _ Hp1). }
    intros a Hin Happ0. pose proof (proj1 (elem_of_inside _ _ _) Hin) as [Ha _]. specialize (Hall' a Ha Happ0) as Hlt.
    assert (Hpre : a `prefix_of` r').
    { destruct Happ0 as [Hpa _], Happ' as [Hpr _]. apply (prefix_shorter _ _ path); [done|done|lia]. }
    destruct (Ha0 a) as [| ->]; [done|done|intros ->; lia|done|done].
  - intros (r & Hn & Happ & Hall). apply elem_of_needed in Hn as [Hr _]. apply elem_of_inside in Hr as [Hr Hpre]. exists r. split; [done|]. split; [done|].
    intros a Ha Happa. destruct Happa as [Hpa Hia]. destruct (prefix_weak_total _ _ _ Hp Hpa) as [Hin|Hout].
    + apply Hall; [by apply elem_of_inside|by split].
    + by apply Hallowed in Ha.
Qed.
End child_rules.

(** ** What a request describes *)

Definition mapping_target (mapping : Mapping) (canonical : Path) : option (list byte) :=
  match m_target mapping with Convention => guest_path canonical | Guest target => Some target end.

(** The request maps the object at [path] at [target]. *)
Definition maps (host : Host) (request : ExportRequest) (path : Path) (target : list byte) (read_only : bool) : Prop :=
  exists mapping, mapping ∈ r_mappings request /\ canonicalize host (m_path mapping) = Ok path /\
                  mapping_target mapping path = Some target /\ m_read_only mapping = read_only.

(** A list names the object at [path]. *)
Definition names (host : Host) (list : PathList) (path : Path) : Prop := exists text, text ∈ l_paths list /\ canonicalize host text = Ok path.

Section request.
Context (host : Host) (request : ExportRequest).

Definition is_mapped (path : Path) : Prop := exists target read_only, maps host request path target read_only.
(** An object mapped twice at one target is read-only if either mapping is. *)
Definition mapped_read_only (path : Path) : Prop := exists target, maps host request path target true.
Definition mapped_read_write (path : Path) : Prop := exists target, maps host request path target false /\ ~ maps host request path target true.

(** Hidden: a denied path contains it, nearer than every allowed path. *)
Definition asked_hidden (path : Path) : Prop :=
  exists rule, names host (r_denied request) rule /\ rule `prefix_of` path /\
    forall other, names host (r_allowed request) other -> other `prefix_of` path -> (length other < length rule)%nat.

(** Writes narrowed: write paths lie in the outermost mapped directory. *)
Definition asked_narrowed (path : Path) : Prop :=
  (forall outer, is_mapped outer -> outer `prefix_of` path -> outer = path) /\
  exists write, names host (r_write request) write /\ path `prefix_of` write.

Definition asked_visible (path : Path) : Prop := (exists object, is_mapped object /\ object `prefix_of` path) /\ ~ asked_hidden path.

(** Within a grant: a write path, or an object mapped read-write whose writes are not narrowed. *)
Definition asked_granted (path : Path) : Prop :=
  (exists write, names host (r_write request) write /\ write `prefix_of` path) \/
  (exists object, mapped_read_write object /\ object `prefix_of` path /\ ~ asked_narrowed object).

Definition asked_writable (path : Path) : Prop := asked_visible path /\ asked_granted path.
End request.

(** ** What OpenVMM grants of an export, as its options state it *)

Definition child_shows (child : ExportChild) (path : Path) : Prop :=
  c_root child `prefix_of` path /\ denies (nearest_rule path (c_denied child) (c_allowed child) true) = false.

(** Within a part of a child that the guest may write. *)
Definition in_writable_part (child : ExportChild) (path : Path) : Prop :=
  c_writable child = true /\ c_root child `prefix_of` path /\ (c_write child = [] \/ exists write, write ∈ c_write child /\ write `prefix_of` path).

Definition export_shows (plan : ExportPlan) (path : Path) : Prop := exists child, child ∈ p_children plan /\ child_shows child path.
Definition export_part (plan : ExportPlan) (path : Path) : Prop := exists child, child ∈ p_children plan /\ in_writable_part child path.
Definition export_writes (plan : ExportPlan) (path : Path) : Prop :=
  exists child, child ∈ p_children plan /\ child_shows child path /\ in_writable_part child path.

(** ** The mapped entries *)

Definition place (entry : Mapped) : Path * list byte := (e_canonical entry, e_target entry).

Lemma same_place_iff entry other : same_place entry other = true <-> place other = place entry.
Proof. unfold same_place, place. rewrite andb_true_iff, !bool_decide_eq_true. split; [intros [-> ->]; done|by intros [= -> ->]]. Qed.

Lemma merge_places mapped entry :
  place <$> merge_entry mapped entry = if decide (place entry ∈ place <$> mapped) then place <$> mapped else (place <$> mapped) ++ [place entry].
Proof.
  induction mapped as [|other mapped IH]; cbn [merge_entry].
  - rewrite decide_False by apply not_elem_of_nil. done.
  - destruct (same_place entry other) eqn:E.
    + apply same_place_iff in E. rewrite !fmap_cons. rewrite decide_True by (rewrite E; apply elem_of_cons; auto).
      by destruct (_ && _); rewrite ?E.
    + assert (place other <> place entry) by (intros He; apply same_place_iff in He; rewrite He in E; discriminate).
      rewrite !fmap_cons, IH. do 2 case_decide; rewrite ?elem_of_cons in *; naive_solver.
Qed.

Lemma merge_entry_in mapped entry e : e ∈ merge_entry mapped entry -> e ∈ mapped \/ e = entry.
Proof.
  induction mapped as [|other mapped IH]; cbn [merge_entry]; [set_solver|].
  destruct (same_place entry other); [destruct (_ && _)|]; set_solver.
Qed.

Lemma merge_entry_keeps mapped entry e :
  e ∈ mapped \/ e = entry -> exists e', e' ∈ merge_entry mapped entry /\ place e' = place e /\ (e_read_only e = true -> e_read_only e' = true).
Proof.
  induction mapped as [|other mapped IH]; cbn [merge_entry].
  - intros [?| ->]; [set_solver|]. exists entry. set_solver.
  - destruct (same_place entry other) eqn:E.
    + apply same_place_iff in E. intros [H| ->]; [apply elem_of_cons in H as [->|H]|].
      * eexists. split; [by left|]. destruct (_ && _) eqn:E2; bool_to_prop; [|done]. split; [by rewrite E|naive_solver].
      * exists e. set_solver.
      * eexists. split; [by left|]. destruct (_ && _) eqn:E2; bool_to_prop; [done|]. split; [done|].
        intros Hr. rewrite Hr in E2. cbn in E2. by bool_to_prop.
    + intros [H| ->]; [apply elem_of_cons in H as [->|H]|].
      * exists other. set_solver.
      * destruct IH as (e' & ? & ?); [by left|]. exists e'. split; [by right|done].
      * destruct IH as (e' & ? & ?); [by right|]. exists e'. split; [by right|done].
Qed.

(** What [resolve_mapping] found of a mapping. *)
Record entry_ok (host : Host) (reserved : ReservedTargets) (m : Mapping) (e : Mapped) : Prop := {
  eo_canonical : canonicalize host (m_path m) = Ok (e_canonical e);
  eo_utf8 : is_utf8 (path_text (e_canonical e)) = true;
  eo_metadata : exists metadata, fs_metadata host (e_canonical e) = Ok metadata /\ e_directory e = is_dir metadata /\ is_dir metadata || is_file metadata = true;
  eo_volume : e_directory e = true -> volume_root_refusal (e_canonical e) = false;
  eo_target : mapping_target m (e_canonical e) = Some (e_target e);
  eo_free : reserved_at reserved (e_target e) = None;
  eo_shape : m_target m = Convention \/ target_problem (e_target e) = None;
  eo_read_only : e_read_only e = m_read_only m;
}.

Arguments eo_canonical {host reserved m e} _.
Arguments eo_utf8 {host reserved m e} _.
Arguments eo_metadata {host reserved m e} _.
Arguments eo_volume {host reserved m e} _.
Arguments eo_target {host reserved m e} _.
Arguments eo_free {host reserved m e} _.
Arguments eo_shape {host reserved m e} _.
Arguments eo_read_only {host reserved m e} _.

Lemma resolve_mapping_ok host m reserved e : resolve_mapping host m reserved = Ok e -> entry_ok host reserved m e.
Proof.
  unfold resolve_mapping. intros H. inv_ok. bool_to_prop. rename x into c, x0 into md.
  match goal with H : _ = Ok x1 |- _ => rename H into Ht end.
  match goal with H : is_dir md && _ = false |- _ => rename H into Hv end.
  assert (mapping_target m c = Some x1 /\ reserved_at reserved x1 = None /\ (m_target m = Convention \/ target_problem x1 = None)) as (H1 & H2 & H3).
  { unfold mapping_target. destruct (m_target m) as [|t]; inv_ok.
    - destruct (reserved_at reserved x) eqn:Er; inv_ok. auto.
    - destruct (target_problem t) eqn:Ep; inv_ok. destruct (reserved_at reserved t) eqn:Er; inv_ok. auto. }
  constructor; cbn; try done.
  - exists md. split; [done|]. split; [done|]. match goal with H : negb (is_dir md) && negb (is_file md) = false |- _ => revert H end.
    by destruct (is_dir md), (is_file md).
  - intros Hd. rewrite Hd in Hv. done.
Qed.

Lemma resolve_mappings_spec host reserved mappings mapped0 mapped :
  resolve_mappings host reserved mappings mapped0 = Ok mapped ->
  (forall e, e ∈ mapped -> e ∈ mapped0 \/ exists m, m ∈ mappings /\ resolve_mapping host m reserved = Ok e) /\
  (forall e, (e ∈ mapped0 \/ exists m, m ∈ mappings /\ resolve_mapping host m reserved = Ok e) ->
     exists e', e' ∈ mapped /\ place e' = place e /\ (e_read_only e = true -> e_read_only e' = true)) /\
  (NoDup (place <$> mapped0) -> NoDup (place <$> mapped)) /\
  (forall m, m ∈ mappings -> exists e, resolve_mapping host m reserved = Ok e).
Proof.
  revert mapped0. induction mappings as [|m ms IH]; intros mapped0; cbn [resolve_mappings]; intros H.
  - apply ok_inj in H as ->. split; [auto|]. split; [|split; [done|set_solver]].
    intros e [He|(m & Hm & _)]; [eauto|set_solver].
  - inv_ok. rename x into e0. match goal with H : resolve_mapping _ _ _ = _ |- _ => rename H into Hm end.
    match goal with H : resolve_mappings _ _ _ _ = _ |- _ => apply IH in H as (H1 & H2 & H3 & H4) end.
    split; [|split; [|split]].
    + intros e [He|(m' & Hm' & He)]%H1; [apply merge_entry_in in He as [He| ->]; [by left|]|]; right.
      * exists m. split; [by left|done].
      * exists m'. split; [by right|done].
    + intros e He. assert (Hin : (e ∈ mapped0 \/ e = e0) \/ exists m', m' ∈ ms /\ resolve_mapping host m' reserved = Ok e).
      { destruct He as [He|(m' & [->|Hm']%elem_of_cons & He)]; [auto| |eauto]. rewrite Hm in He. apply ok_inj in He as ->. auto. }
      destruct Hin as [Hin|Hin]; [|by apply H2; right].
      apply merge_entry_keeps in Hin as (e1 & He1 & Hp1 & Hr1). destruct (H2 e1) as (e2 & He2 & Hp2 & Hr2); [by left|].
      exists e2. split; [done|]. split; [by rewrite Hp2|auto].
    + intros Hnd. apply H3. rewrite merge_places. case_decide as Hd; [done|]. apply NoDup_app. split; [done|].
      split; [|apply NoDup_singleton]. intros x Hx ->%list_elem_of_singleton. done.
    + intros m' [->|Hm']%elem_of_cons; [by exists e0|by apply H4].
Qed.

(** The entries of a request. *)
Section entries.
Context (host : Host) (request : ExportRequest) (mapped : list Mapped).
Context (Hresolved : resolve_mappings host (r_reserved request) (r_mappings request) [] = Ok mapped).

Lemma entry_from e : e ∈ mapped -> exists m, m ∈ r_mappings request /\ entry_ok host (r_reserved request) m e.
Proof.
  intros He. apply resolve_mappings_spec in Hresolved as (H & _). apply H in He as [?|(m & Hm & Hr)]; [set_solver|].
  exists m. split; [done|]. by apply resolve_mapping_ok.
Qed.

Lemma entries_nodup : NoDup (place <$> mapped).
Proof. apply resolve_mappings_spec in Hresolved as (_ & _ & H & _). apply H. constructor. Qed.

Lemma entry_maps e : e ∈ mapped -> maps host request (e_canonical e) (e_target e) (e_read_only e).
Proof. intros He. apply entry_from in He as (m & Hm & []). exists m. auto. Qed.

Lemma maps_entry path target read_only :
  maps host request path target read_only ->
  exists e, e ∈ mapped /\ e_canonical e = path /\ e_target e = target /\ (read_only = true -> e_read_only e = true).
Proof.
  intros (m & Hm & Hc & Ht & Hr). apply resolve_mappings_spec in Hresolved as (_ & H & _ & Hall).
  destruct (Hall m Hm) as (e0 & He0). destruct (H e0) as (e & He & Hp & Hro); [right; eauto|].
  apply resolve_mapping_ok in He0 as []. unfold place in Hp. rewrite Hc in eo_canonical0. apply ok_inj in eo_canonical0.
  exists e. injection Hp as Hp1 Hp2. split; [done|]. split; [congruence|]. split; [congruence|]. intros ->. apply Hro. congruence.
Qed.

Lemma same_place_same_entry e e' : e ∈ mapped -> e' ∈ mapped -> place e = place e' -> e = e'.
Proof.
  intros [i Hi]%list_elem_of_lookup [j Hj]%list_elem_of_lookup Hp.
  assert (i = j) as ->; [|congruence].
  eapply (NoDup_lookup (place <$> mapped)); [apply entries_nodup| |]; rewrite list_lookup_fmap; [by rewrite Hi|by rewrite Hj, Hp].
Qed.

Lemma is_mapped_iff path : is_mapped host request path <-> path ∈ e_canonical <$> mapped.
Proof.
  rewrite list_elem_of_fmap. split.
  - intros (t & r & H). apply maps_entry in H as (e & He & Hc & _). eauto.
  - intros (e & -> & He). apply entry_maps in He. by eexists _, _.
Qed.

Lemma mapped_read_only_iff path : mapped_read_only host request path <-> exists e, e ∈ mapped /\ e_canonical e = path /\ e_read_only e = true.
Proof.
  split.
  - intros (t & H). apply maps_entry in H as (e & He & Hc & Ht & Hr). eauto.
  - intros (e & He & <- & Hr). apply entry_maps in He. rewrite Hr in He. by eexists.
Qed.

Lemma mapped_read_write_iff path : mapped_read_write host request path <-> exists e, e ∈ mapped /\ e_canonical e = path /\ e_read_only e = false.
Proof.
  split.
  - intros (t & H & Hn). apply maps_entry in H as (e & He & Hc & Ht & _). exists e. split; [done|]. split; [done|].
    destruct (e_read_only e) eqn:E; [|done]. exfalso. apply Hn. apply entry_maps in He. by rewrite Hc, Ht, E in He.
  - intros (e & He & <- & Hr). exists (e_target e). split; [apply entry_maps in He; by rewrite Hr in He|].
    intros (e' & He' & Hc & Ht & Hr')%maps_entry. assert (e' = e) as -> by (apply same_place_same_entry; [done|done|]; unfold place; congruence).
    rewrite Hr' in Hr; done.
Qed.
End entries.

(** ** The loops of the policy *)

Lemma find_none_iff {A} (f : A -> bool) l : List.find f l = None <-> forall x, x ∈ l -> f x = false.
Proof.
  split.
  - intros H x Hx. apply (List.find_none _ _ H). by apply list_elem_of_In.
  - induction l as [|x l IH]; [done|]. intros H. cbn. rewrite (H x) by set_solver. apply IH. set_solver.
Qed.

Lemma find_some_elem {A} (f : A -> bool) l x : List.find f l = Some x -> x ∈ l /\ f x = true.
Proof. intros [H ?]%List.find_some. split; [by apply list_elem_of_In|done]. Qed.

Lemma find_map_none_iff {A B} (f : A -> option B) l : find_map f l = None <-> forall x, x ∈ l -> f x = None.
Proof.
  induction l as [|x l IH]; cbn; [set_solver|]. destruct (f x) eqn:E; [|rewrite IH; set_solver].
  split; [done|]. intros H. specialize (H x ltac:(set_solver)). congruence.
Qed.

Lemma refuse_ok {E} (condition : bool) (error : E) : refuse condition error = Ok tt <-> condition = false.
Proof. unfold refuse. by destruct condition. Qed.

Lemma refuse_some_ok {A E} (o : option A) (error : A -> E) : refuse_some o error = Ok tt <-> o = None.
Proof. unfold refuse_some. by destruct o. Qed.

(** A path with missing names never exists whole. *)
Lemma lenient_missing host rounds existing missing c : missing <> [] -> lenient_loop host rounds existing missing <> Ok (c, true).
Proof.
  revert existing missing. induction rounds as [|rounds IH]; intros existing missing Hm; cbn [lenient_loop]; [done|].
  destruct (canonicalize host existing) as [c'|error].
  - intros H%ok_inj. injection H as _ H. by apply bool_decide_eq_true in H.
  - destruct (io_kind error); try done. destruct (file_name existing), (parent existing); try done. apply IH. by destruct missing.
Qed.

Lemma lenient_exists host path c : canonicalize_lenient host path = Ok (c, true) <-> canonicalize host path = Ok c.
Proof.
  unfold canonicalize_lenient. cbn [lenient_loop]. destruct (canonicalize host path) as [c'|error] eqn:E.
  - cbn. rewrite app_nil_r. split; [by intros [= ->]%ok_inj|by intros ->%ok_inj].
  - split; [|done]. destruct (io_kind error); try done. destruct (file_name path), (parent path); try done.
    intros H. by apply lenient_missing in H.
Qed.

Section loops.
Context (host : Host).

Lemma write_loop_spec field given mapped roots paths write :
  write_loop host field given mapped roots paths = Ok write ->
  (forall c, c ∈ canonicals write <-> c ∈ canonicals paths \/ exists text, text ∈ given /\ canonicalize host text = Ok c) /\
  (forall c, c ∈ canonicals write -> c ∈ canonicals paths \/
     exists e, e ∈ mapped /\ e_canonical e ∈ roots /\ e_canonical e `prefix_of` c /\ e_canonical e <> c /\ e_directory e = true /\ e_read_only e = false).
Proof.
  revert paths. induction given as [|text given IH]; intros paths; cbn [write_loop]; intros H.
  - apply ok_inj in H as ->. set_solver.
  - inv_ok. rename x into c. match goal with H : negb _ = false |- _ => apply negb_false_iff in H; rename H into Hn end.
    match goal with H : write_loop _ _ _ _ _ _ = _ |- _ => apply IH in H as [H1 H2] end.
    match goal with H : resolve_policy_path _ _ _ = _ |- _ => apply map_err_ok in H; rename H into Hc end.
    unfold canonicals in *. rewrite fmap_app in H1, H2. cbn in H1, H2. split.
    + intros d. rewrite H1, elem_of_app, list_elem_of_singleton. setoid_rewrite elem_of_cons. split.
      * intros [[?| ->]|(t & ? & ?)]; eauto 6.
      * intros [?|(t & [->|?] & Ht)]; [auto| |eauto]. rewrite Hc in Ht. apply ok_inj in Ht as ->. auto.
    + intros d [Hd|?]%H2; [|auto]. apply elem_of_app in Hd as [?|Hd%list_elem_of_singleton]; [auto|]. subst d. right.
      destruct (List.find _ roots) as [root|] eqn:Ef; [|done]. apply find_some_elem in Ef as [Hr Hp%starts_with_prefix].
      bool_to_prop. match goal with H : existsb _ _ = true |- _ => apply existsb_in in H as (e & He & Hcond) end. bool_to_prop.
      subst root. exists e. auto 6.
Qed.

Lemma read_only_loop_spec mapped write name roots inners :
  read_only_loop mapped write name roots inners = Ok tt ->
  forall inner, inner ∈ inners ->
    (forall w, w ∈ canonicals write -> ~ w `prefix_of` e_canonical inner) /\
    (forall outer, outer ∈ mapped -> e_read_only outer = false ->
       e_canonical outer = e_canonical inner \/ (e_directory outer = true /\ e_canonical outer `prefix_of` e_canonical inner) ->
       narrowed roots write (e_canonical outer) = true).
Proof.
  induction inners as [|inner inners IH]; cbn [read_only_loop]; [set_solver|]. intros H.
  destruct (List.find _ write) as [?|] eqn:Ew; [done|]. destruct (List.find _ mapped) as [outer|] eqn:Em; [by destruct (bool_decide _)|].
  intros i [->|Hi]%elem_of_cons; [|by apply IH]. rewrite find_none_iff in Ew. rewrite find_none_iff in Em. split.
  - intros w (p & -> & Hp)%list_elem_of_fmap Hpre%starts_with_prefix. apply Ew in Hp. congruence.
  - intros outer Ho Hro Hcase. apply Em in Ho. rewrite Hro in Ho. cbn in Ho. apply andb_false_iff in Ho as [Ho|Ho]; [by apply negb_false_iff in Ho|].
    bool_to_prop. destruct Hcase as [?|[Hd Hp%starts_with_prefix]]; [done|]. rewrite Hd, Hp in *. done.
Qed.

Lemma allowed_loop_spec field given roots paths allowed :
  allowed_loop host field given roots paths = Ok allowed ->
  (forall c, c ∈ canonicals allowed <-> c ∈ canonicals paths \/ exists text, text ∈ given /\ canonicalize host text = Ok c) /\
  (forall c, c ∈ canonicals allowed -> c ∈ canonicals paths \/ ((c ∉ roots) /\ exists root, root ∈ roots /\ root `prefix_of` c)) /\
  (NoDup (canonicals paths) -> NoDup (canonicals allowed)).
Proof.
  revert paths. induction given as [|text given IH]; intros paths; cbn [allowed_loop]; intros H.
  - apply ok_inj in H as ->. set_solver.
  - inv_ok. rename x into c.
    match goal with H : resolve_policy_path _ _ _ = _ |- _ => apply map_err_ok in H; rename H into Hc end.
    match goal with H : existsb _ roots = false |- _ => rewrite existsb_none in H; rename H into Hn end.
    match goal with H : negb (existsb _ roots) = false |- _ => apply negb_false_iff, existsb_in in H as (root & Hr & Hp%starts_with_prefix) end.
    match goal with H : allowed_loop _ _ _ _ ?l = _ |- _ => apply IH in H as (H1 & H2 & H3); set (ps := l) in * end.
    assert (Hps : forall d, d ∈ canonicals ps <-> d ∈ canonicals paths \/ d = c).
    { intros d. unfold ps, canonicals. destruct (existsb _ paths) eqn:Ex; cbn [negb].
      - apply existsb_in in Ex as (o & Ho & Hoc). apply bool_decide_eq_true in Hoc as <-. split; [auto|].
        intros [?| ->]; [done|]. by apply list_elem_of_fmap_2.
      - rewrite fmap_app, elem_of_app. cbn. by rewrite list_elem_of_singleton. }
    split; [|split].
    + intros d. rewrite H1, Hps. setoid_rewrite elem_of_cons. split.
      * intros [[?| ->]|(t & ? & ?)]; eauto 6.
      * intros [?|(t & [->|?] & Ht)]; [auto| |eauto]. rewrite Hc in Ht. apply ok_inj in Ht as ->. auto.
    + intros d [Hd|?]%H2; [|auto]. apply Hps in Hd as [?| ->]; [auto|]. right. split; [|eauto].
      intros Hin. apply Hn in Hin. by apply bool_decide_eq_false in Hin.
    + intros Hnd. apply H3. unfold ps. destruct (existsb _ paths) eqn:Ex; [done|]. cbn [negb]. unfold canonicals in *. rewrite fmap_app.
      apply NoDup_app. split; [done|]. split; [|apply NoDup_singleton]. intros d (o & -> & Ho)%list_elem_of_fmap Hd%list_elem_of_singleton.
      rewrite existsb_none in Ex. apply Ex in Ho. apply bool_decide_eq_false in Ho. by cbn in Hd.
Qed.

Lemma resolve_denied_spec field given acc resolved :
  resolve_denied host field given acc = Ok resolved ->
  forall t c ex, (t, c, ex) ∈ resolved <-> (t, c, ex) ∈ acc \/ (t ∈ given /\ canonicalize_lenient host t = Ok (c, ex)).
Proof.
  revert acc. induction given as [|text given IH]; intros acc; cbn [resolve_denied]; intros H t c ex.
  - apply ok_inj in H as ->. set_solver.
  - inv_ok. destruct x as [c0 ex0]. match goal with H : canonicalize_lenient _ _ = _ |- _ => rename H into Hc end.
    match goal with H : resolve_denied _ _ _ _ = _ |- _ => eapply IH in H as -> end.
    rewrite elem_of_app, list_elem_of_singleton, elem_of_cons. split.
    + intros [[?|[= -> -> ->]]|[? ?]]; auto.
    + intros [?|[[->|?] Ht]]; auto. rewrite Hc in Ht. apply ok_inj in Ht as [= -> ->]. auto.
Qed.

Lemma denied_loop_spec field mapped denied_paths allowed_paths resolved acc denied :
  denied_loop field mapped denied_paths allowed_paths resolved acc = Ok denied ->
  (forall c, c ∈ canonicals denied <-> c ∈ canonicals acc \/ exists t, (t, c, true) ∈ resolved) /\
  (NoDup (canonicals acc) -> NoDup (canonicals denied)) /\
  (forall t c, (t, c, true) ∈ resolved -> forall e, e ∈ mapped -> hides_entry denied_paths allowed_paths c e = false).
Proof.
  revert acc. induction resolved as [|[[t c] ex] resolved IH]; intros acc; cbn [denied_loop]; intros H.
  - apply ok_inj in H as ->. set_solver.
  - destruct ex; cbn [negb] in H.
    + destruct (List.find _ mapped) as [?|] eqn:Ef; [done|]. rewrite find_none_iff in Ef.
      match goal with H : denied_loop _ _ _ _ _ ?l = _ |- _ => apply IH in H as (H1 & H2 & H3); set (ps := l) in * end.
      assert (Hps : forall d, d ∈ canonicals ps <-> d ∈ canonicals acc \/ d = c).
      { intros d. unfold ps, canonicals. destruct (existsb _ acc) eqn:Ex; cbn [negb].
        - apply existsb_in in Ex as (o & Ho & Hoc). apply bool_decide_eq_true in Hoc as <-. split; [auto|].
          intros [?| ->]; [done|]. by apply list_elem_of_fmap_2.
        - rewrite fmap_app, elem_of_app. cbn. by rewrite list_elem_of_singleton. }
      split; [|split].
      * intros d. rewrite H1, Hps. setoid_rewrite elem_of_cons. split.
        -- intros [[?| ->]|(t' & ?)]; eauto.
        -- intros [?|(t' & [[= -> ->]|?])]; eauto.
      * intros Hnd. apply H2. unfold ps. destruct (existsb _ acc) eqn:Ex; [done|]. cbn [negb]. unfold canonicals in *. rewrite fmap_app.
        apply NoDup_app. split; [done|]. split; [|apply NoDup_singleton]. intros d (o & -> & Ho)%list_elem_of_fmap Hd%list_elem_of_singleton.
        rewrite existsb_none in Ex. apply Ex in Ho. apply bool_decide_eq_false in Ho. by cbn in Hd.
      * intros t' d [[= -> ->]|Hd]%elem_of_cons; [done|]. by eapply H3.
    + destruct (List.find _ mapped) as [?|] eqn:Ef; [done|]. apply IH in H as (H1 & H2 & H3). split; [|split; [done|]].
      * intros d. rewrite H1. setoid_rewrite elem_of_cons. naive_solver.
      * intros t' d [[=]|Hd]%elem_of_cons. by eapply H3.
Qed.

(** A mapped entry is not hidden, or it is a denied directory that shows paths inside it again. *)
Definition entry_shown (denied allowed : list Path) (e : Mapped) : Prop :=
  (~ exists rule, hidden_by denied allowed true (e_canonical e) rule) \/
  (e_directory e = true /\ e_canonical e ∈ denied /\ exists shown, shown ∈ allowed /\ shown <> e_canonical e /\ e_canonical e `prefix_of` shown).

Lemma entry_shown_ext denied denied' allowed e :
  (forall p, p ∈ denied <-> p ∈ denied') -> entry_shown denied allowed e -> entry_shown denied' allowed e.
Proof.
  intros Hd [H|(H1 & H2 & H3)]; [left|right; by rewrite <- Hd]. intros (r & Hr). apply H. exists r. revert Hr. by apply hidden_by_ext.
Qed.

Lemma hides_entry_shown denied allowed e :
  (forall c, c ∈ denied -> hides_entry denied allowed c e = false) -> entry_shown denied allowed e.
Proof.
  intros H. destruct (nearest_rule (e_canonical e) denied allowed true) as [[rule []]|] eqn:E.
  - pose proof (nearest_rule_denied _ _ _ _ _ E) as [(Hin & [Hpre _] & _) _]. specialize (H rule Hin). unfold hides_entry in H.
    rewrite E in H. apply starts_with_prefix in Hpre. rewrite Hpre in H. cbn in H. bool_to_prop. right. subst rule.
    match goal with H : existsb _ _ = true |- _ => apply existsb_in in H as (shown & Hs & Hc) end. bool_to_prop.
    split; [done|]. split; [done|]. exists shown. split; [done|]. split; [done|]. by apply starts_with_prefix.
  - left. apply denies_false. by rewrite E.
  - left. apply denies_false. by rewrite E.
Qed.

(** The denied paths of a request: those that exist, none of which hides a mapped entry. *)
Lemma denied_paths_spec list mapped allowed denied :
  denied_paths host list mapped allowed = Ok denied ->
  (forall c, c ∈ canonicals denied <-> names host list c) /\ NoDup (canonicals denied) /\
  (forall e, e ∈ mapped -> entry_shown (canonicals denied) (canonicals allowed) e).
Proof.
  unfold denied_paths. intros H. inv_ok. rename x into resolved.
  match goal with H : resolve_denied _ _ _ _ = _ |- _ => pose proof (resolve_denied_spec _ _ _ _ H) as Hr end.
  match goal with H : denied_loop _ _ ?l _ _ _ = _ |- _ => apply denied_loop_spec in H as (H1 & H2 & H3); set (ds := l) in * end.
  assert (Hds : forall c, c ∈ ds <-> exists t, (t, c, true) ∈ resolved).
  { intros c. unfold ds. rewrite list_elem_of_fmap. split.
    - intros ([[t c'] ex] & -> & [Hin Hex]%elem_of_filter_bool). cbn in *. subst ex. eauto.
    - intros (t & Ht). exists (t, c, true). split; [done|]. by apply elem_of_filter_bool. }
  assert (Hin : forall c, c ∈ canonicals denied <-> exists t, (t, c, true) ∈ resolved).
  { intros c. rewrite H1. cbn. set_solver. }
  split; [|split; [by apply H2; constructor|]].
  - intros c. rewrite Hin. unfold names. setoid_rewrite Hr. setoid_rewrite lenient_exists. set_solver.
  - intros e He. apply (entry_shown_ext ds); [intros p; by rewrite Hds, Hin|]. apply hides_entry_shown. intros c (t & Ht)%Hds. by eapply H3.
Qed.
End loops.

Lemma allowed_check_spec denied_paths allowed_paths allowed :
  allowed_check_loop denied_paths allowed_paths allowed = Ok tt ->
  forall c, c ∈ canonicals allowed -> (c ∉ denied_paths) /\ exists rule, hidden_by denied_paths allowed_paths false c rule.
Proof.
  induction allowed as [|p allowed IH]; cbn [allowed_check_loop]; [set_solver|]. intros H.
  destruct (existsb _ denied_paths) eqn:Ex; [done|]. rewrite existsb_none in Ex.
  destruct (nearest_rule _ _ _ _) as [[rule []]|] eqn:En; try done.
  intros c [->|Hc]%elem_of_cons; [|by apply IH]. split.
  - intros Hd%Ex. by apply bool_decide_eq_false in Hd.
  - apply nearest_rule_denied in En as [? _]. eauto.
Qed.

Lemma write_check_spec denied_paths allowed_paths write :
  write_check_loop denied_paths allowed_paths write = Ok tt ->
  forall c, c ∈ canonicals write -> ~ exists rule, hidden_by denied_paths allowed_paths true c rule.
Proof.
  induction write as [|p write IH]; cbn [write_check_loop]; [set_solver|]. intros H c Hc. rewrite <- denies_false.
  apply elem_of_cons in Hc as [->|Hc]; [by destruct (nearest_rule _ _ _ _) as [[? []]|]|].
  apply denies_false, IH; [|done]. by destruct (nearest_rule _ _ _ _) as [[? []]|].
Qed.

Lemma parts_loop_spec denied allowed parts :
  parts_loop denied allowed parts = Ok tt ->
  forall root part w, (root, part) ∈ parts -> w ∈ w_write part -> ~ exists rule, hidden_by denied allowed true w rule.
Proof.
  induction parts as [|[r p] parts IH]; cbn [parts_loop]; [set_solver|]. intros H root part w Hp Hw.
  destruct (find_map _ _) as [[]|] eqn:Ef; [done|]. apply elem_of_cons in Hp as [[= -> ->]|Hp]; [|by eapply IH].
  rewrite find_map_none_iff in Ef. apply Ef in Hw. apply denies_false. by destruct (nearest_rule _ _ _ _) as [[? []]|].
Qed.

(** ** The inversion of [plan] *)

Definition roots_of (mapped : list Mapped) : list Path := outermost (e_canonical <$> mapped).
Definition parts_of (mapped : list Mapped) (write : list PolicyPath) : list (Path * Writable) :=
  (fun root => (root, writable_part root mapped write)) <$> roots_of mapped.
Definition movable_of (mapped : list Mapped) (write : list PolicyPath) (path : Path) : bool :=
  existsb (fun part => starts_with path part.1 && moves part.2 part.1 path) (parts_of mapped write).

Record planned (host : Host) (request : ExportRequest) (p : ExportPlan)
    (mapped : list Mapped) (write allowed denied : list PolicyPath) (bytes : Z) (binds : list Bind) : Prop := {
  pl_resolved : resolve_mappings host (r_reserved request) (r_mappings request) [] = Ok mapped;
  pl_count : 0 < len mapped <= Maps.MAX_HOST_MAPPINGS;
  pl_targets : check_targets mapped = Ok tt;
  pl_write : write_paths host (r_write request) mapped (roots_of mapped) = Ok write;
  pl_read_only : check_read_only mapped write (l_name (r_write request)) (roots_of mapped) = Ok tt;
  pl_roots : len (roots_of mapped) <= MAX_CHILDREN;
  pl_allowed : allowed_paths host (r_allowed request) (roots_of mapped) = Ok allowed;
  pl_denied : denied_paths host (r_denied request) mapped allowed = Ok denied;
  pl_allowed_check : check_allowed_paths allowed denied = Ok tt;
  pl_write_check : check_write_paths write denied allowed = Ok tt;
  pl_parts : parts_loop (canonicals denied) (sort_paths (canonicals allowed)) (parts_of mapped write) = Ok tt;
  pl_children : children_loop host mapped (canonicals denied) (sort_paths (canonicals allowed)) (movable_of mapped write) (parts_of mapped write) [] 0
                = Ok (p_children p, bytes);
  pl_bytes : bytes <= MAX_AGGREGATE_POLICY_BYTES;
  pl_binds : binds_loop host (p_children p) (movable_of mapped write) mapped [] = Ok binds;
  pl_sorted : p_binds p = merge_sort (at_most compare_bind) binds;
  pl_caller : r_owner request = Caller -> check_caller_roots host CallerOwnsRoot CannotInspectPath (p_children p) = Ok tt;
  pl_owner : p_owner p = r_owner request;
}.

Arguments pl_resolved {host request p mapped write allowed denied bytes binds} _.
Arguments pl_count {host request p mapped write allowed denied bytes binds} _.
Arguments pl_targets {host request p mapped write allowed denied bytes binds} _.
Arguments pl_write {host request p mapped write allowed denied bytes binds} _.
Arguments pl_read_only {host request p mapped write allowed denied bytes binds} _.
Arguments pl_roots {host request p mapped write allowed denied bytes binds} _.
Arguments pl_allowed {host request p mapped write allowed denied bytes binds} _.
Arguments pl_denied {host request p mapped write allowed denied bytes binds} _.
Arguments pl_allowed_check {host request p mapped write allowed denied bytes binds} _.
Arguments pl_write_check {host request p mapped write allowed denied bytes binds} _.
Arguments pl_parts {host request p mapped write allowed denied bytes binds} _.
Arguments pl_children {host request p mapped write allowed denied bytes binds} _.
Arguments pl_bytes {host request p mapped write allowed denied bytes binds} _.
Arguments pl_binds {host request p mapped write allowed denied bytes binds} _.
Arguments pl_sorted {host request p mapped write allowed denied bytes binds} _.
Arguments pl_caller {host request p mapped write allowed denied bytes binds} _.
Arguments pl_owner {host request p mapped write allowed denied bytes binds} _.

Lemma plan_planned host request p :
  plan host request = Ok (Some p) -> exists mapped write allowed denied bytes binds, planned host request p mapped write allowed denied bytes binds.
Proof.
  unfold plan. intros H. apply result_bind_ok in H as (mapped & Hm & H).
  destruct (bool_decide (len mapped = 0)) eqn:E0; [by apply ok_inj in H|]. inv_ok. fold (roots_of mapped) in *.
  rename x0 into write, x3 into allowed, x4 into denied. fold (parts_of mapped write) in *. fold (movable_of mapped write) in *.
  destruct x8 as [children bytes]. inv_ok. match goal with H : binds_loop _ _ _ _ _ = Ok ?b |- _ => rename b into binds end. bool_to_prop. pose proof (len_nonneg mapped).
  repeat match goal with u : unit |- _ => destruct u end.
  exists mapped, write, allowed, denied, bytes, binds. constructor; cbn; try done; try lia.
  intros Hc. match goal with H : (if bool_decide (_ = Caller) then _ else _) = _ |- _ => by rewrite bool_decide_true in H end.
Qed.

(** What [children_loop] makes of a root and its writable part. *)
Record child_made (host : Host) (mapped : list Mapped) (denied allowed : list Path) (movable : Path -> bool)
    (part : Path * Writable) (c : ExportChild) : Prop := {
  cm_root : c_root c = part.1;
  cm_own : exists own, own ∈ mapped /\ e_canonical own = c_root c /\ c_file c = negb (e_directory own);
  cm_writable : c_writable c = w_writable part.2;
  cm_denied : c_denied c = needed_denied_paths (inside (c_root c) denied) (inside (c_root c) allowed);
  cm_allowed : c_allowed c = inside (c_root c) allowed;
  cm_write : c_write c = w_write part.2;
  cm_pins : pins host movable (c_denied c) = Ok (c_denied_identities c);
  cm_unlinked : check_root host (c_root c) = Ok tt;
  cm_limits : exists bytes, forall index total, lists_limits index (c_root c) [c_denied c; c_allowed c; c_write c] total = Ok (total + bytes);
}.

Arguments cm_root {host mapped denied allowed movable part c} _.
Arguments cm_own {host mapped denied allowed movable part c} _.
Arguments cm_writable {host mapped denied allowed movable part c} _.
Arguments cm_denied {host mapped denied allowed movable part c} _.
Arguments cm_allowed {host mapped denied allowed movable part c} _.
Arguments cm_write {host mapped denied allowed movable part c} _.
Arguments cm_pins {host mapped denied allowed movable part c} _.
Arguments cm_unlinked {host mapped denied allowed movable part c} _.
Arguments cm_limits {host mapped denied allowed movable part c} _.

(** The bytes of a child's policy. *)
Definition child_bytes (c : ExportChild) : Z :=
  match lists_limits 0 (c_root c) [c_denied c; c_allowed c; c_write c] 0 with Ok bytes => bytes | Err _ => 0 end.

Lemma children_loop_spec host mapped denied allowed movable parts acc bytes children total :
  children_loop host mapped denied allowed movable parts acc bytes = Ok (children, total) ->
  exists made, children = acc ++ made /\ Forall2 (child_made host mapped denied allowed movable) parts made /\
               total = bytes + foldr (fun c sum => child_bytes c + sum) 0 made.
Proof.
  revert acc bytes. induction parts as [|[root part] parts IH]; intros acc bytes; cbn [children_loop]; intros H.
  - apply ok_inj in H as [= -> ->]. exists []. rewrite app_nil_r. cbn. split; [done|]. split; [constructor|lia].
  - inv_ok. rename x into own, x1 into hide, x2 into show, x3 into writes, x4 into ids. destruct x0.
    match goal with H : List.find _ _ = Some _ |- _ => apply find_some_elem in H as [Hown Hroot]; apply bool_decide_eq_true in Hroot end.
    match goal with H : children_loop _ _ _ _ _ _ _ _ = _ |- _ => apply IH in H as (made & -> & Hmade & Htotal) end.
    unfold check_policy_paths in *. inv_ok.
    match goal with |- context [acc ++ [?made]] => set (c := made) in * end.
    assert (Hl : forall index t, lists_limits index (c_root c) [c_denied c; c_allowed c; c_write c] t = Ok (t + (hide + show + writes))).
    { intros index t. cbn [lists_limits c c_root c_denied c_allowed c_write].
      repeat match goal with H : policy_limits _ _ = Ok _ |- _ => rewrite H; clear H; cbn [map_err mbind result_bind] end. f_equal. lia. }
    exists (c :: made). rewrite <- app_assoc. split; [done|]. split.
    + constructor; [|done]. constructor; try done; eauto.
    + assert (Hb : child_bytes c = hide + show + writes) by (unfold child_bytes; rewrite Hl; lia). cbn [foldr]. lia.
Qed.

(** ** Access *)

Section access.
Context (host : Host) `{Hlaws : HostLaws host} (request : ExportRequest) (p : ExportPlan).
Context (mapped : list Mapped) (write allowed denied : list PolicyPath) (bytes : Z) (binds : list Bind).
Context (Hplanned : planned host request p mapped write allowed denied bytes binds).

Lemma denied_names c : c ∈ canonicals denied <-> names host (r_denied request) c.
Proof. by apply (denied_paths_spec _ _ _ _ _ (pl_denied Hplanned)). Qed.

Lemma allowed_facts c : (c ∈ canonicals allowed <-> names host (r_allowed request) c) /\
  (c ∈ canonicals allowed -> (c ∉ roots_of mapped) /\ exists root, root ∈ roots_of mapped /\ root `prefix_of` c).
Proof.
  destruct (allowed_loop_spec _ _ _ _ _ _ (pl_allowed Hplanned)) as (H1 & H2 & _). split.
  - rewrite H1. cbn. unfold names. set_solver.
  - intros Hc%H2. cbn in Hc. set_solver.
Qed.

Lemma write_facts c : (c ∈ canonicals write <-> names host (r_write request) c) /\
  (c ∈ canonicals write -> exists e, e ∈ mapped /\ e_canonical e ∈ roots_of mapped /\ e_canonical e `prefix_of` c /\ e_canonical e <> c /\ e_directory e = true /\ e_read_only e = false).
Proof.
  destruct (write_loop_spec _ _ _ _ _ _ _ (pl_write Hplanned)) as (H1 & H2). split.
  - rewrite H1. cbn. unfold names. set_solver.
  - intros Hc%H2. cbn in Hc. set_solver.
Qed.

Lemma root_covers c : c ∈ e_canonical <$> mapped -> exists root, root ∈ roots_of mapped /\ root `prefix_of` c.
Proof. apply outermost_covers. Qed.

Lemma root_unique root root' path : root ∈ roots_of mapped -> root' ∈ roots_of mapped -> root `prefix_of` path -> root' `prefix_of` path -> root = root'.
Proof. apply outermost_disjoint. Qed.

Lemma root_entry root : root ∈ roots_of mapped -> exists e, e ∈ mapped /\ e_canonical e = root.
Proof. intros [H _]%elem_of_outermost. apply list_elem_of_fmap in H as (e & -> & He). eauto. Qed.

Lemma allowed_below_root a root : a ∈ canonicals allowed -> root ∈ roots_of mapped -> ~ a `prefix_of` root.
Proof.
  intros Ha Hroot Hpre. apply allowed_facts in Ha as [Hn (root' & Hr' & Hpre')].
  pose proof (root_unique root root' root Hroot Hr' ltac:(done) ltac:(by etrans)) as <-.
  apply Hn. by rewrite (anti_symm (prefix) _ _ Hpre Hpre').
Qed.

Lemma denied_root r root : r ∈ canonicals denied -> root ∈ roots_of mapped -> r `prefix_of` root -> root ∈ canonicals denied.
Proof.
  intros Hr Hroot Hpre. destruct (root_entry root Hroot) as (e & He & <-).
  destruct (denied_paths_spec _ _ _ _ _ (pl_denied Hplanned)) as (_ & _ & Hs).
  destruct (Hs e He) as [Hn|(_ & H & _)]; [|done]. exfalso. apply Hn. exists r. split; [done|]. split; [by split; [|left]|].
  intros a Ha [Hap _]. by destruct (allowed_below_root a (e_canonical e) Ha Hroot).
Qed.

(** The children are those of the roots. *)
Lemma children_made : Forall2 (child_made host mapped (canonicals denied) (sort_paths (canonicals allowed)) (movable_of mapped write)) (parts_of mapped write) (p_children p).
Proof.
  destruct (children_loop_spec _ _ _ _ _ _ _ _ _ _ (pl_children Hplanned)) as (made & Heq & Hmade & _). cbn in Heq. by subst made.
Qed.

Lemma child_facts c : c ∈ p_children p ->
  c_root c ∈ roots_of mapped /\
  child_made host mapped (canonicals denied) (sort_paths (canonicals allowed)) (movable_of mapped write) (c_root c, writable_part (c_root c) mapped write) c.
Proof.
  intros (i & Hi)%list_elem_of_lookup. destruct (Forall2_lookup_r _ _ _ _ _ children_made Hi) as (rp & Hpart & Hm).
  apply list_elem_of_lookup_2, list_elem_of_fmap in Hpart as (r & -> & Hr). pose proof (cm_root Hm) as Hroot. cbn in Hroot. by subst r.
Qed.

Lemma root_child root : root ∈ roots_of mapped -> exists c, c ∈ p_children p /\ c_root c = root.
Proof.
  intros Hr. assert (Hin : (root, writable_part root mapped write) ∈ parts_of mapped write) by (apply list_elem_of_fmap; eauto).
  apply list_elem_of_lookup in Hin as (i & Hi). destruct (Forall2_lookup_l _ _ _ _ _ children_made Hi) as (c & Hc & Hm).
  exists c. split; [by apply list_elem_of_lookup_2 in Hc|]. by rewrite (cm_root Hm).
Qed.

(** The rules of a child decide as all rules do. *)
Lemma child_hides c path inclusive :
  c ∈ p_children p -> c_root c `prefix_of` path -> inclusive = true \/ c_root c <> path ->
  denies (nearest_rule path (c_denied c) (c_allowed c) inclusive) = true <->
  exists rule, hidden_by (canonicals denied) (canonicals allowed) inclusive path rule.
Proof.
  intros Hc Hpre Hi. apply child_facts in Hc as [Hroot Hm]. rewrite denies_iff, (cm_denied Hm), (cm_allowed Hm).
  assert (Hs : forall a, a ∈ sort_paths (canonicals allowed) <-> a ∈ canonicals allowed) by (apply (elem_of_sort compare_path)).
  rewrite <- (child_rules_decide (c_root c) (canonicals denied) (sort_paths (canonicals allowed))); [| | |done|done].
  - split; intros (rule & Hr); exists rule; revert Hr; by apply hidden_by_ext.
  - intros r Hr Hp. by eapply denied_root.
  - intros a Ha%Hs. exact (allowed_below_root a _ Ha Hroot).
Qed.

Lemma asked_hidden_iff path : asked_hidden host request path <-> exists rule, hidden_by (canonicals denied) (canonicals allowed) true path rule.
Proof.
  unfold asked_hidden, hidden_by, applies. setoid_rewrite denied_names. setoid_rewrite (fun c => proj1 (allowed_facts c)). naive_solver.
Qed.

Lemma child_decides c path :
  c ∈ p_children p -> c_root c `prefix_of` path ->
  denies (nearest_rule path (c_denied c) (c_allowed c) true) = true <-> asked_hidden host request path.
Proof. intros Hc Hpre. rewrite child_hides by auto. by rewrite asked_hidden_iff. Qed.

(** ** The writable part of a root *)

(** The read-write entries of a root. *)
Lemma read_write_of root c :
  c ∈ e_canonical <$> List.filter (fun entry => negb (e_read_only entry) && starts_with (e_canonical entry) root) mapped <->
  (exists e, e ∈ mapped /\ e_canonical e = c /\ e_read_only e = false) /\ root `prefix_of` c.
Proof.
  rewrite list_elem_of_fmap. setoid_rewrite elem_of_filter_bool. setoid_rewrite andb_true_iff. setoid_rewrite negb_true_iff.
  setoid_rewrite starts_with_prefix. naive_solver.
Qed.

Lemma narrowing_of root c :
  c ∈ pp_canonical <$> List.filter (fun path => starts_with (pp_canonical path) root) write <-> c ∈ canonicals write /\ root `prefix_of` c.
Proof.
  unfold canonicals. rewrite !list_elem_of_fmap. setoid_rewrite elem_of_filter_bool. setoid_rewrite starts_with_prefix. naive_solver.
Qed.

(** What the entries grant: a write path, or a read-write entry that is not narrowed. *)
Definition granted (path : Path) : Prop :=
  (exists w, w ∈ canonicals write /\ w `prefix_of` path) \/
  (exists c, (exists e, e ∈ mapped /\ e_canonical e = c /\ e_read_only e = false) /\ c `prefix_of` path /\
             ~ (c ∈ roots_of mapped /\ exists w, w ∈ canonicals write /\ c `prefix_of` w)).

Lemma write_path_root root path w :
  root ∈ roots_of mapped -> root `prefix_of` path -> w ∈ canonicals write -> w `prefix_of` path ->
  root `prefix_of` w /\ exists e, e ∈ mapped /\ e_canonical e = root /\ e_read_only e = false.
Proof.
  intros Hroot Hpre Hw Hwp. apply write_facts in Hw as (e & He & Hr & Hp & _ & _ & Hro).
  pose proof (root_unique _ _ path Hroot Hr Hpre ltac:(by etrans)) as ->. eauto.
Qed.

Lemma entry_root root path e :
  root ∈ roots_of mapped -> root `prefix_of` path -> e ∈ mapped -> e_canonical e `prefix_of` path -> root `prefix_of` e_canonical e.
Proof.
  intros Hroot Hpre He Hep. destruct (root_covers (e_canonical e)) as (r & Hr & Hp); [by apply list_elem_of_fmap_2|].
  by rewrite (root_unique _ _ path Hroot Hr Hpre ltac:(by etrans)).
Qed.

Lemma inside_root root c : root ∈ roots_of mapped -> root `prefix_of` c -> c <> root -> c ∉ roots_of mapped.
Proof. intros Hroot Hc Hne Hin. apply Hne. symmetry. by eapply (root_unique root c c). Qed.

Lemma writable_part_grants root path :
  root ∈ roots_of mapped -> root `prefix_of` path ->
  (w_writable (writable_part root mapped write) = true /\
   (w_write (writable_part root mapped write) = [] \/ exists w, w ∈ w_write (writable_part root mapped write) /\ w `prefix_of` path)) <-> granted path.
Proof.
  intros Hroot Hpre. unfold writable_part. pose proof (read_write_of root) as Hrw. pose proof (narrowing_of root) as Hnw.
  set (rw := e_canonical <$> _) in *. set (nw := pp_canonical <$> _) in *. clearbody rw nw.
  pose proof (inside_root root) as Hinner. pose proof (fun e => entry_root root path e Hroot Hpre) as Hentry.
  assert (Hwrite : forall w, w ∈ canonicals write -> w `prefix_of` path -> root `prefix_of` w /\ root ∈ rw).
  { intros w Hw Hwp. destruct (write_path_root root path w) as [? ?]; [done..|]. split; [done|]. by apply Hrw. }
  destruct (bool_decide_reflect (rw = [])) as [He|He]; cbn [w_writable w_write].
  { split; [by intros [? _]|]. intros [(w & Hw & Hwp)|(c & (e & Hin & <- & Hro) & Hcp & _)].
    - apply Hwrite in Hw as [_ Hr]; [|done]. rewrite He in Hr. set_solver.
    - assert (Hc : e_canonical e ∈ rw) by (apply Hrw; split; [eauto|by apply Hentry]). rewrite He in Hc. set_solver. }
  destruct (existsb _ rw) eqn:Ex; cbn [negb].
  - apply existsb_in in Ex as (r & Hr & ->%bool_decide_eq_true). destruct (bool_decide_reflect (nw = [])) as [Hn|Hn].
    + split; [|by auto]. intros _. right. exists root. split; [by apply Hrw|]. split; [done|]. intros [_ (w & Hw & Hp)].
      assert (w ∈ nw) as H by (by apply Hnw). rewrite Hn in H. set_solver.
    + rewrite in_outermost_part. split.
      * intros [_ [H%outermost_nil|(w & Hw & Hp)]]; [by destruct nw|]. apply elem_of_app in Hw as [[Hw _]%Hnw|[Hw Hne]%elem_of_filter_bool]; [left; eauto|].
        right. exists w. apply Hrw in Hw as [Hw Hrp]. split; [done|]. split; [done|]. bool_to_prop. intros [Hin _]. by apply (Hinner w).
      * intros Hg. split; [done|]. right. destruct Hg as [(w & Hw & Hp)|(c & (e & Hin & <- & Hro) & Hcp & Hnn)].
        -- exists w. split; [|done]. apply elem_of_app. left. apply Hnw. split; [done|]. by apply Hwrite in Hw as [? _].
        -- exists (e_canonical e). split; [|done]. apply elem_of_app. right. apply elem_of_filter_bool.
           split; [apply Hrw; split; [eauto|by apply Hentry]|]. apply negb_true_iff, bool_decide_eq_false. intros Heq. apply Hnn. rewrite Heq. split; [done|].
           destruct nw as [|w nw']; [done|]. exists w. apply Hnw. by left.
  - rewrite in_outermost_part. rewrite existsb_none in Ex. assert (Hr : root ∉ rw) by (intros H%Ex; by apply bool_decide_eq_false in H). split.
    + intros [_ [H%outermost_nil|(w & Hw & Hp)]]; [done|]. right. exists w. pose proof Hw as [Hw' Hrp]%Hrw. split; [done|]. split; [done|].
      intros [Hin _]. apply (Hinner w); [done|done|by intros ->|done].
    + intros Hg. split; [done|]. right. destruct Hg as [(w & Hw & Hp)|(c & (e & Hin & <- & Hro) & Hcp & Hnn)]; [by apply Hwrite in Hw as [_ ?]|].
      exists (e_canonical e). split; [apply Hrw; split; [eauto|by apply Hentry]|done].
Qed.

(** A read-only entry lies in no writable part. *)
Lemma read_only_ungranted e : e ∈ mapped -> e_read_only e = true -> ~ granted (e_canonical e).
Proof.
  intros He Hro. pose proof (read_only_loop_spec _ _ _ _ _ (pl_read_only Hplanned) e) as H.
  destruct H as [Hw Hm]; [by apply elem_of_filter_bool|]. intros [(w & Hin & Hp)|(c & (outer & Ho & <- & Hrw) & Hp & Hn)]; [by eapply Hw|].
  apply Hn. assert (Hnarrow : narrowed (roots_of mapped) write (e_canonical outer) = true).
  { apply Hm; [done|done|]. destruct (e_directory outer) eqn:Hd; [auto|left].
    destruct (entry_from _ _ _ (pl_resolved Hplanned) outer Ho) as (m & _ & Hok), (entry_from _ _ _ (pl_resolved Hplanned) e He) as (m' & _ & Hok').
    destruct (eo_metadata Hok) as (md & Hmd & Hdir & _). symmetry.
    eapply nothing_below_files; [exact (eo_canonical Hok')|exact Hmd|congruence|done]. }
  apply andb_true_iff in Hnarrow as [(r & Hr & ->%bool_decide_eq_true)%existsb_in (w & Hw' & Hpw%starts_with_prefix)%existsb_in].
  split; [done|]. exists (pp_canonical w). split; [by apply list_elem_of_fmap_2|done].
Qed.

Lemma granted_asked path : granted path <-> asked_granted host request path.
Proof.
  unfold granted, asked_granted, asked_narrowed. setoid_rewrite <- (fun c => proj1 (write_facts c)).
  setoid_rewrite (mapped_read_write_iff _ _ _ (pl_resolved Hplanned)). setoid_rewrite (is_mapped_iff _ _ _ (pl_resolved Hplanned)).
  unfold roots_of. setoid_rewrite elem_of_outermost. split; (intros [?|(c & He & Hp & Hn)]; [by left|right; exists c; split; [done|split; [done|]]]).
  - intros [H1 H2]. apply Hn. split; [|done]. split; [|done]. apply list_elem_of_fmap. naive_solver.
  - intros [[_ H1] H2]. by apply Hn.
Qed.

Lemma part_granted c path : c ∈ p_children p -> in_writable_part c path <-> c_root c `prefix_of` path /\ granted path.
Proof.
  intros [Hroot Hm]%child_facts. unfold in_writable_part. rewrite (cm_writable Hm), (cm_write Hm). cbn [snd].
  pose proof (writable_part_grants (c_root c) path Hroot). naive_solver.
Qed.
End access.

(** C14: an export shows a host path to its guest exactly when the request maps an object that
    contains it and no denied path hides it nearer than an allowed path shows it; it lets the guest
    write the path exactly when it is also within a grant: a write path, or an object mapped
    read-write whose writes no write paths narrow; and no part that the guest may write holds an
    object mapped read-only. *)
Theorem export_access_exact host `{HostLaws host} request p :
  plan host request = Ok (Some p) -> forall path,
    (export_shows p path <-> asked_visible host request path) /\
    (export_writes p path <-> asked_writable host request path) /\
    (mapped_read_only host request path -> ~ export_part p path).
Proof.
  intros (mapped & write & allowed & denied & bytes & binds & Hp)%plan_planned path.
  pose proof (child_decides _ _ _ _ _ _ _ _ _ Hp) as Hdec. pose proof (part_granted _ _ _ _ _ _ _ _ _ Hp) as Hpart.
  assert (Hshows : export_shows p path <-> asked_visible host request path).
  { unfold export_shows, asked_visible, child_shows. setoid_rewrite (is_mapped_iff _ _ _ (pl_resolved Hp)). split.
    - intros (c & Hc & Hpre & Hd). split.
      + destruct (child_facts _ _ _ _ _ _ _ _ _ Hp c Hc) as [[Hr _]%elem_of_outermost _]. eauto.
      + rewrite <- (Hdec c path Hc Hpre). congruence.
    - intros [(o & Ho & Hpre) Hn]. destruct (root_covers _ o Ho) as (root & Hroot & Hro).
      destruct (root_child _ _ _ _ _ _ _ _ _ Hp root Hroot) as (c & Hc & <-). exists c. split; [done|].
      assert (c_root c `prefix_of` path) by (by etrans). split; [done|]. apply not_true_iff_false. by rewrite Hdec. }
  split; [done|]. split.
  - unfold asked_writable. rewrite <- Hshows, <- (granted_asked _ _ _ _ _ _ _ _ _ Hp). unfold export_writes, export_shows, child_shows. split.
    + intros (c & Hc & Hs & Hw). apply Hpart in Hw as [_ Hg]; [|done]. eauto.
    + intros [(c & Hc & Hs) Hg]. exists c. split; [done|]. split; [done|]. apply Hpart; [done|]. by destruct Hs.
  - intros (e & He & <- & Hro)%(mapped_read_only_iff _ _ _ (pl_resolved Hp)) (c & Hc & Hw).
    apply Hpart in Hw as [_ Hg]; [|done]. by apply (read_only_ungranted _ _ _ _ _ _ _ _ _ Hp) in Hg.
Qed.

(** ** A concrete host *)

Definition sample_objects : list (list byte * Metadata) :=
  let dir inode := mkMetadata true false false 1 inode 1000 1000 in
  [(bytes_of "/srv", dir 2); (bytes_of "/srv/app", dir 3); (bytes_of "/srv/app/data", dir 4); (bytes_of "/srv/app/data/keys", dir 5);
   (bytes_of "/srv/app/secret", dir 6); (bytes_of "/srv/app/secret/public", dir 7);
   (bytes_of "/home", dir 8); (bytes_of "/home/hosts", mkMetadata false true false 1 9 1000 1000)].

Definition sample_stat (path : Path) : result IoError Metadata :=
  ok_or (snd <$> List.find (fun object => bool_decide (components object.1 = path)) sample_objects) (mkIoError NotFound (Some 2)).

Definition sample_host : Host :=
  mkHost (fun text => _ ← sample_stat (components text); Ok (components text)) sample_stat sample_stat.

Lemma sample_stat_found path metadata : sample_stat path = Ok metadata -> exists text, (text, metadata) ∈ sample_objects /\ components text = path.
Proof.
  unfold sample_stat. destruct (List.find _ _) as [[text md]|] eqn:E; [|done]. intros [= <-]. apply find_some_elem in E as [Hin Hb].
  apply bool_decide_eq_true in Hb. eauto.
Qed.

#[export] Instance sample_laws : HostLaws sample_host.
Proof.
  split.
  - intros text path H. cbn in H. inv_ok. match goal with H : sample_stat _ = _ |- _ => apply sample_stat_found in H as (t & Hin & <-) end.
    apply resolved_computed.
    assert (Hall : forallb (fun object => resolved_b (components object.1)) sample_objects = true) by (by vm_compute).
    rewrite forallb_forall in Hall. apply (Hall (t, x)). by apply list_elem_of_In.
  - intros text path file md H Hmd Hd Hpre. cbn in H. inv_ok.
    match goal with H : sample_stat (components text) = _ |- _ => apply sample_stat_found in H as (t & Hin & Ht) end.
    apply sample_stat_found in Hmd as (f & Hf & <-). rewrite <- Ht in *. clear Ht.
    assert (Hall : forallb (fun file => is_dir file.2 || forallb (fun object => negb (starts_with (components object.1) (components file.1))
              || bool_decide (components object.1 = components file.1)) sample_objects) sample_objects = true) by (by vm_compute).
    rewrite forallb_forall in Hall. specialize (Hall (f, md)). cbn [fst snd] in Hall. rewrite Hd, orb_false_l, forallb_forall in Hall.
    apply list_elem_of_In in Hf, Hin. specialize (Hall Hf (t, x) Hin). cbn [fst] in Hall. apply starts_with_prefix in Hpre. rewrite Hpre in Hall.
    by apply bool_decide_eq_true in Hall.
  - intros md H. by vm_compute in H.
  - done.
Qed.

Definition sample_list (name : string) (paths : list string) : PathList := mkPathList (bytes_of name) (bytes_of <$> paths).

Definition sample_request : ExportRequest :=
  mkExportRequest (convention (sample_list "readOnly" ["/srv/app"; "/home/hosts"]) true ++ convention (sample_list "readWrite" ["/srv/app/data"]) false)
    (sample_list "denied" ["/srv/app/secret"; "/srv/app/data/keys"]) (sample_list "allowed" ["/srv/app/secret/public"]) EMPTY Caller BLOCKLESS_ROOT.

Definition sample_plan : ExportPlan :=
  match plan sample_host sample_request with Ok (Some p) => p | _ => mkExportPlan [] [] Vmm end.

Lemma export_access_exact_witness :
  plan sample_host sample_request = Ok (Some sample_plan) /\ len (p_children sample_plan) = 2 /\
  forall path, (export_shows sample_plan path <-> asked_visible sample_host sample_request path) /\
               (export_writes sample_plan path <-> asked_writable sample_host sample_request path) /\
               (mapped_read_only sample_host sample_request path -> ~ export_part sample_plan path).
Proof. split; [by vm_compute|]. split; [by vm_compute|]. apply (export_access_exact sample_host sample_request sample_plan). by vm_compute. Defined.
