(* ===== verification/ExportCheck.v ===== *)
(** * The planner's plans pass their checks

    Every plan that [plan] makes is one that [check] accepts, so that a caller can read its record
    back, and [verify] finds on the host that it was made for nothing changed; and the guest's table
    takes its binds. *)

From stdpp Require Import sorting.
From S2P Require Import Prelude Cmdline AddressText Export Maps MappingTable Endpoints HostPaths ExportPlanner ExportFacts.

(** ** The loops of the checks, entry by entry *)

Lemma check_children_all binds children :
  (forall i c total, children !! i = Some c -> check_child binds (take i children) i c total = Ok (total + child_bytes c)) ->
  check_children binds [] children 0 = Ok (foldr (fun c sum => child_bytes c + sum) 0 children).
Proof.
  intros H. enough (Hg : forall before rest total, before ++ rest = children ->
    check_children binds before rest total = Ok (total + foldr (fun c sum => child_bytes c + sum) 0 rest)) by (by rewrite Hg).
  intros before rest. revert before. induction rest as [|c rest IH]; intros before total Heq; cbn; [by rewrite Z.add_0_r|].
  assert (Hi : children !! length before = Some c) by (rewrite <- Heq; apply list_lookup_middle; done).
  specialize (H _ _ total Hi). rewrite <- Heq, take_app_length in H. rewrite H. cbn.
  rewrite IH by (by rewrite <- app_assoc). f_equal. lia.
Qed.

Lemma check_binds_all children reserved binds :
  (forall i b, binds !! i = Some b -> check_bind children reserved (take i binds) b = Ok tt) -> check_binds children reserved [] binds = Ok tt.
Proof.
  intros H. enough (Hg : forall before rest, before ++ rest = binds -> check_binds children reserved before rest = Ok tt) by (by apply Hg).
  intros before rest. revert before. induction rest as [|b rest IH]; intros before Heq; cbn; [done|].
  assert (Hi : binds !! length before = Some b) by (rewrite <- Heq; apply list_lookup_middle; done).
  specialize (H _ _ Hi). rewrite <- Heq, take_app_length in H. rewrite H. cbn. apply IH. by rewrite <- app_assoc.
Qed.

Lemma check_writes_all binds children index :
  (forall i c, children !! i = Some c -> check_writes binds (index + i) c = Ok tt) -> check_all_writes binds index children = Ok tt.
Proof.
  revert index. induction children as [|c children IH]; intros index H; cbn; [done|].
  pose proof (H 0%nat c eq_refl) as H0. rewrite Nat.add_0_r in H0. rewrite H0. cbn. apply IH.
  intros i c' Hi. replace (S index + i)%nat with (index + S i)%nat by lia. by apply H.
Qed.

Lemma for_each_all {A E} (f : A -> result E unit) l : (forall x, x ∈ l -> f x = Ok tt) -> for_each f l = Ok tt.
Proof. induction l as [|x l IH]; intros H; cbn; [done|]. rewrite (H x) by set_solver. cbn. apply IH. set_solver. Qed.

(** ** The loops of the planner *)

Lemma pins_spec host movable paths identities :
  pins host movable paths = Ok identities -> Forall2 (fun path identity => pin host movable path = Ok identity) paths identities.
Proof.
  revert identities. induction paths as [|path paths IH]; intros ids; cbn [pins]; intros H.
  - apply ok_inj in H as <-. constructor.
  - inv_ok. constructor; auto.
Qed.

(** An identity that was not taken, and one that was. *)
Lemma pin_spec host movable path identity :
  pin host movable path = Ok identity ->
  match identity with
  | None => movable path = false
  | Some identity => file_identity host path = Ok identity
  end.
Proof.
  unfold pin, ExportPlanner.identity. destruct (movable path); intros H; inv_ok; done.
Qed.

(** What [binds_loop] makes of an entry. *)
Record bind_made (host : Host) (children : list ExportChild) (movable : Path -> bool) (e : Mapped) (b : Bind) : Prop := {
  bm_child : exists child, children !! b_child b = Some child /\ c_root child `prefix_of` e_canonical e /\
                           relative_text (c_root child) (e_canonical e) = Some (b_source b);
  bm_source : len GUEST_EXPORT + 1 + len (bind_guest_source b) <= MAX_GUEST_PATH;
  bm_length : len (e_target e) <= MAX_GUEST_PATH;
  bm_target : b_target b = e_target e;
  bm_read_only : b_read_only b = e_read_only e;
  bm_identity : pin host movable (e_canonical e) = Ok (b_identity b);
}.
Arguments bm_child {host children movable e b} _.
Arguments bm_source {host children movable e b} _.
Arguments bm_length {host children movable e b} _.
Arguments bm_target {host children movable e b} _.
Arguments bm_read_only {host children movable e b} _.
Arguments bm_identity {host children movable e b} _.

Lemma binds_loop_spec host children movable mapped acc binds :
  binds_loop host children movable mapped acc = Ok binds -> exists made, binds = acc ++ made /\ Forall2 (bind_made host children movable) mapped made.
Proof.
  revert acc. induction mapped as [|e mapped IH]; intros acc; cbn [binds_loop]; intros H.
  - apply ok_inj in H as ->. exists []. split; [by rewrite app_nil_r|constructor].
  - destruct (list_find _ children) as [[i holder]|] eqn:Ef; [|done]. apply list_find_Some in Ef as (Hi & Hp%starts_with_prefix & _). inv_ok.
    match goal with H : binds_loop _ _ _ _ _ = _ |- _ => apply IH in H as (made & -> & Hmade) end. bool_to_prop.
    eexists (_ :: made). rewrite <- app_assoc. split; [done|]. constructor; [|done].
    constructor; cbn; try done; eauto.
Qed.

(** Targets that do not collide. *)
Lemma targets_loop_spec before mapped :
  targets_loop before mapped = Ok tt ->
  forall j e, mapped !! j = Some e -> forall o, o ∈ before ++ take j mapped -> pair_problem e o = None.
Proof.
  revert before. induction mapped as [|x mapped IH]; intros before; cbn [targets_loop]; [done|]. intros H.
  destruct (find_map _ before) eqn:Ef; [done|]. rewrite find_map_none_iff in Ef. intros [|j] e Hj o Ho.
  - cbn in Hj, Ho. injection Hj as <-. rewrite app_nil_r in Ho. auto.
  - cbn in Hj, Ho. apply (IH _ H j e Hj). by rewrite <- app_assoc.
Qed.

(** ** The order of binds *)

Definition compare_key (x y : Z * list byte) : comparison := match x.1 ?= y.1 with Eq => compare_bytes x.2 y.2 | order => order end.
Definition bind_key (b : Bind) : Z * list byte := (depth (b_target b), b_target b).

#[export] Instance key_order : TotalOrder compare_key.
Proof.
  split; unfold compare_key.
  - intros [x a] [y b]; cbn. pose proof (Z.compare_eq_iff x y) as H. destruct (x ?= y); [|naive_solver..].
    rewrite order_eq. naive_solver.
  - intros [x a] [y b]; cbn. rewrite (Z.compare_antisym x y). destruct (x ?= y); cbn; [apply order_flip|done..].
  - intros [x a] [y b] [z c]; cbn. destruct (x ?= y) eqn:E1, (y ?= z) eqn:E2; try done;
      rewrite ?Z.compare_eq_iff, ?Z.compare_lt_iff in *; subst; rewrite ?Z.compare_refl.
    + apply order_trans.
    + intros _ _. by rewrite (proj2 (Z.compare_lt_iff _ _) E2).
    + intros _ _. by rewrite (proj2 (Z.compare_lt_iff _ _) E1).
    + intros _ _. assert (x < z) as H by lia. by rewrite (proj2 (Z.compare_lt_iff _ _) H).
Qed.

#[export] Instance bind_total : Total (at_most compare_bind).
Proof. intros x y. exact (at_most_total compare_key (bind_key x) (bind_key y)). Qed.
#[export] Instance bind_trans : Transitive (at_most compare_bind).
Proof. intros x y z. exact (at_most_trans compare_key (bind_key x) (bind_key y) (bind_key z)). Qed.

(** Binds at different targets, sorted, come one before the other. *)
Lemma sorted_binds_before binds i x y :
  NoDup (b_target <$> binds) -> merge_sort (at_most compare_bind) binds !! i = Some x ->
  merge_sort (at_most compare_bind) binds !! S i = Some y -> compare_bind x y = Lt.
Proof.
  intros Hnd Hx Hy. set (l := merge_sort _ binds) in *.
  assert (Hs : at_most compare_bind x y).
  { assert (Hl : StronglySorted (at_most compare_bind) l) by (apply StronglySorted_merge_sort; apply _).
    rewrite <- (take_drop_middle l i x Hx) in Hl. apply StronglySorted_app_1_r, StronglySorted_inv in Hl as [_ Hl].
    rewrite Forall_forall in Hl. apply Hl, list_elem_of_lookup. exists 0%nat. rewrite lookup_drop. by rewrite Nat.add_0_r. }
  assert (Hne : b_target x <> b_target y).
  { intros He. assert (Hn : NoDup (b_target <$> l)) by (unfold l; by rewrite (merge_sort_Permutation (at_most compare_bind) binds)).
    assert (i = S i) by (eapply NoDup_lookup; [exact Hn|rewrite list_lookup_fmap, Hx; done|rewrite list_lookup_fmap, Hy; cbn; by rewrite He]). lia. }
  apply (at_most_less compare_key (bind_key x) (bind_key y)) in Hs as [He|Hl]; [|done]. injection He. done.
Qed.

(** ** What a planned export holds *)

Section passes.
Context (host : Host) `{Hlaws : HostLaws host} (request : ExportRequest) (p : ExportPlan).
Context (mapped : list Mapped) (write allowed denied : list PolicyPath) (bytes : Z) (binds : list Bind).
Context (Hplanned : planned host request p mapped write allowed denied bytes binds).

Lemma entry_resolved e : e ∈ mapped -> exists text, canonicalize host text = Ok (e_canonical e) /\ resolved (e_canonical e).
Proof.
  intros He. destruct (entry_from _ _ _ (pl_resolved Hplanned) e He) as (m & _ & Hok). exists (m_path m).
  split; [exact (eo_canonical Hok)|]. exact (canonical_resolved _ _ (eo_canonical Hok)).
Qed.

Lemma names_resolved l c : names host l c -> exists text, canonicalize host text = Ok c /\ resolved c.
Proof. intros (text & _ & H). exists text. split; [done|]. exact (canonical_resolved _ _ H). Qed.

(** A path that resolved below a file is the file. *)
Lemma below_file e path : e ∈ mapped -> e_directory e = false -> (exists text, canonicalize host text = Ok path) -> e_canonical e `prefix_of` path -> path = e_canonical e.
Proof.
  intros He Hd (text & Ht) Hp. destruct (entry_from _ _ _ (pl_resolved Hplanned) e He) as (m & _ & Hok).
  destruct (eo_metadata Hok) as (md & Hmd & Hdir & _). eapply nothing_below_files; [exact Ht|exact Hmd|congruence|done].
Qed.

Lemma children_roots : c_root <$> p_children p = roots_of mapped.
Proof.
  pose proof (children_made _ _ _ _ _ _ _ _ _ Hplanned) as H. apply list_eq. intros i. rewrite list_lookup_fmap.
  destruct (p_children p !! i) as [c|] eqn:Ec; cbn.
  - destruct (Forall2_lookup_r _ _ _ _ _ H Ec) as (part & Hpart & Hm). rewrite (cm_root Hm). unfold parts_of in Hpart.
    rewrite list_lookup_fmap in Hpart. destruct (roots_of mapped !! i); [|done]. injection Hpart as <-. done.
  - symmetry. apply lookup_ge_None. apply lookup_ge_None in Ec. apply Forall2_length in H. unfold parts_of in H. rewrite length_fmap in H. lia.
Qed.

Lemma child_root_at i c : p_children p !! i = Some c -> roots_of mapped !! i = Some (c_root c).
Proof. intros H. by rewrite <- children_roots, list_lookup_fmap, H. Qed.

Lemma roots_nodup : NoDup (roots_of mapped).
Proof. apply (less_sorted_nodup compare_path), outermost_sorted. Qed.

(** One child holds a path. *)
Lemma child_unique i j c d path :
  p_children p !! i = Some c -> p_children p !! j = Some d -> c_root c `prefix_of` path -> c_root d `prefix_of` path -> i = j.
Proof.
  intros Hi%child_root_at Hj%child_root_at H1 H2.
  assert (He : c_root c = c_root d) by (eapply outermost_disjoint; [by eapply list_elem_of_lookup_2..|done|done]).
  rewrite <- He in Hj. by eapply NoDup_lookup; [apply roots_nodup| |].
Qed.

Lemma binds_made : Forall2 (bind_made host (p_children p) (movable_of mapped write)) mapped binds.
Proof. destruct (binds_loop_spec _ _ _ _ _ _ (pl_binds Hplanned)) as (made & Heq & H). cbn in Heq. by subst. Qed.

Lemma elem_of_plan_binds b : b ∈ p_binds p <-> b ∈ binds.
Proof. rewrite (pl_sorted Hplanned). by rewrite (merge_sort_Permutation (at_most compare_bind) binds). Qed.

Lemma bind_entry b : b ∈ p_binds p -> exists e, e ∈ mapped /\ bind_made host (p_children p) (movable_of mapped write) e b.
Proof.
  intros (i & Hi)%elem_of_plan_binds%list_elem_of_lookup. destruct (Forall2_lookup_r _ _ _ _ _ binds_made Hi) as (e & He & Hm).
  exists e. split; [by eapply list_elem_of_lookup_2|done].
Qed.

Lemma entry_bind e : e ∈ mapped -> exists b, b ∈ p_binds p /\ bind_made host (p_children p) (movable_of mapped write) e b.
Proof.
  intros (i & Hi)%list_elem_of_lookup. destruct (Forall2_lookup_l _ _ _ _ _ binds_made Hi) as (b & Hb & Hm).
  exists b. split; [by apply elem_of_plan_binds; eapply list_elem_of_lookup_2|done].
Qed.

Lemma bind_in_child e b i c :
  bind_made host (p_children p) (movable_of mapped write) e b -> p_children p !! i = Some c -> b_child b = i <-> c_root c `prefix_of` e_canonical e.
Proof.
  intros Hm Hc. destruct (bm_child Hm) as (child & Hi & Hp & _). split.
  - intros <-. rewrite Hc in Hi. by injection Hi as ->.
  - intros Hp'. by eapply child_unique.
Qed.

(** The names of a bind's source. *)
Lemma bind_names e b c :
  e ∈ mapped -> bind_made host (p_children p) (movable_of mapped write) e b -> p_children p !! b_child b = Some c ->
  exists names, e_canonical e = c_root c ++ (Normal <$> names) /\ Forall is_name names /\ b_source b = join [SLASH] names.
Proof.
  intros He Hm Hc. destruct (bm_child Hm) as (child & Hi & Hp & Hr). rewrite Hc in Hi. injection Hi as <-.
  destruct (entry_resolved e He) as (_ & _ & Hres).
  assert (Hroot : resolved (c_root c)).
  { apply child_root_at, list_elem_of_lookup_2 in Hc. apply root_entry in Hc as (e' & He' & <-). by destruct (entry_resolved e' He') as (_ & _ & ?). }
  destruct (resolved_below _ _ Hroot Hres Hp) as (names & Heq & Hn). exists names. split; [done|]. split; [done|].
  rewrite Heq in Hr. by apply relative_names in Hr.
Qed.

Lemma join_names_nil names : Forall is_name names -> join [SLASH] names = [] <-> names = [].
Proof.
  intros Hn. destruct Hn as [|name names (Hne & _) _]; [done|]. split; [|done]. destruct name; [done|]. by destruct names.
Qed.

Lemma bind_bound e b c :
  e ∈ mapped -> bind_made host (p_children p) (movable_of mapped write) e b -> p_children p !! b_child b = Some c -> bound_path c b = e_canonical e.
Proof.
  intros He Hm Hc. destruct (bind_names e b c He Hm Hc) as (names & Heq & Hn & Hs). unfold bound_path. rewrite Hs.
  case_bool_decide as Hb.
  - apply join_names_nil in Hb as ->; [|done]. rewrite Heq. cbn. by rewrite app_nil_r.
  - rewrite join_path_names by done. done.
Qed.
(** ** The children *)

Lemma nodup_filter {A} (f : A -> bool) l : NoDup l -> NoDup (List.filter f l).
Proof. rewrite !NoDup_ListNoDup. apply List.NoDup_filter. Qed.

Lemma repeated_none paths : NoDup paths -> repeated [] paths = None.
Proof.
  enough (H : forall before, NoDup (before ++ paths) -> repeated before paths = None) by (intros; by apply H).
  induction paths as [|path paths IH]; intros before Hnd; cbn; [done|].
  destruct (existsb _ before) eqn:Ex.
  - apply existsb_in in Ex as (o & Ho & ->%bool_decide_eq_true). apply NoDup_app in Hnd as (_ & H & _). exfalso. eapply H; [exact Ho|by left].
  - apply IH. by rewrite <- app_assoc.
Qed.

Lemma resolved_no_problem path : resolved path -> resolved_path_problem path = None.
Proof.
  intros (names & -> & Hn). unfold resolved_path_problem. rewrite Forall_forall in Hn.
  assert (H1 : existsb (fun component => has_nul (component_text component)) (RootDir :: (Normal <$> names)) = false).
  { apply existsb_none. intros c [->|(n & -> & Hin)%list_elem_of_fmap]%elem_of_cons; [by vm_compute|]. by apply Hn in Hin as (_ & _ & _ & ? & _). }
  assert (H2 : existsb (fun component => bool_decide (component = ParentDir)) (RootDir :: (Normal <$> names)) = false).
  { apply existsb_none. intros c [->|(n & -> & Hin)%list_elem_of_fmap]%elem_of_cons; done. }
  by rewrite H1, H2.
Qed.

(** The write paths of a root's part. *)
Lemma part_write_from root w :
  root ∈ roots_of mapped -> w ∈ w_write (writable_part root mapped write) ->
  root `prefix_of` w /\ w <> root /\ exists text, canonicalize host text = Ok w /\ resolved w.
Proof.
  intros Hroot Hw. unfold writable_part in Hw. pose proof (read_write_of mapped root) as Hrw. pose proof (narrowing_of write root) as Hnw.
  set (rw := e_canonical <$> _) in *. set (nw := pp_canonical <$> _) in *. clearbody rw nw.
  assert (Hentry : forall c, c ∈ rw -> root `prefix_of` c /\ exists text, canonicalize host text = Ok c /\ resolved c).
  { intros c [(e & He & <- & _) Hp]%Hrw. split; [done|]. by apply entry_resolved. }
  destruct (bool_decide (rw = [])); cbn [w_write] in Hw; [set_solver|]. destruct (existsb _ rw) eqn:Ex; cbn [negb] in Hw.
  - destruct (bool_decide (nw = [])); [set_solver|].
    apply elem_of_outermost in Hw as [[Hw|Hw]%elem_of_app _].
    + apply Hnw in Hw as [Hw Hp]. split; [done|]. destruct (write_facts _ _ _ _ _ _ _ _ _ Hplanned w) as [Hn He]. split.
      * intros ->. apply He in Hw as (e & He' & Hr & Hpre & Hne & _). apply Hne. by eapply outermost_disjoint.
      * apply Hn in Hw. by eapply names_resolved.
    + apply elem_of_filter_bool in Hw as [Hw Hne]. bool_to_prop. apply Hentry in Hw as [? ?]. auto.
  - apply elem_of_outermost in Hw as [Hw _]. rewrite existsb_none in Ex. pose proof (Ex _ Hw) as Hne. apply bool_decide_eq_false in Hne.
    apply Hentry in Hw as [? ?]. auto.
Qed.

(** The policy paths of a child lie inside it, and resolved. *)
Lemma policy_path_from c path :
  c ∈ p_children p -> path ∈ c_denied c ++ c_allowed c ++ c_write c -> c_root c `prefix_of` path /\ exists text, canonicalize host text = Ok path /\ resolved path.
Proof.
  intros Hc Hp. destruct (child_facts _ _ _ _ _ _ _ _ _ Hplanned c Hc) as [Hroot Hm]. rewrite !elem_of_app in Hp. destruct Hp as [Hp|[Hp|Hp]].
  - rewrite (cm_denied Hm) in Hp. apply elem_of_needed in Hp as [Hp _]. apply elem_of_inside in Hp as [Hp Hpre]. split; [done|].
    apply (denied_names _ _ _ _ _ _ _ _ _ Hplanned) in Hp. by eapply names_resolved.
  - rewrite (cm_allowed Hm) in Hp. apply elem_of_inside in Hp as [Hp Hpre]. split; [done|].
    apply -> (elem_of_sort compare_path) in Hp. apply (proj1 (allowed_facts _ _ _ _ _ _ _ _ _ Hplanned path)) in Hp. by eapply names_resolved.
  - rewrite (cm_write Hm) in Hp. apply part_write_from in Hp as (? & _ & ?); done.
Qed.

Lemma child_policy_nodup c : c ∈ p_children p -> NoDup (c_denied c) /\ NoDup (c_allowed c) /\ NoDup (c_write c).
Proof.
  intros Hc. destruct (child_facts _ _ _ _ _ _ _ _ _ Hplanned c Hc) as [Hroot Hm]. rewrite (cm_denied Hm), (cm_allowed Hm), (cm_write Hm).
  unfold needed_denied_paths, inside, sort_paths. split; [|split].
  - rewrite (merge_sort_Permutation (at_most compare_path)). do 2 apply nodup_filter.
    by destruct (denied_paths_spec _ _ _ _ _ (pl_denied Hplanned)) as (_ & ? & _).
  - apply nodup_filter. rewrite (merge_sort_Permutation (at_most compare_path)).
    destruct (allowed_loop_spec _ _ _ _ _ _ (pl_allowed Hplanned)) as (_ & _ & H). apply H. constructor.
  - cbn [snd]. unfold writable_part. destruct (bool_decide _); [constructor|]. cbn [w_write].
    destruct (negb _); [apply (less_sorted_nodup compare_path), outermost_sorted|]. destruct (bool_decide _); [constructor|].
    apply (less_sorted_nodup compare_path), outermost_sorted.
Qed.
Lemma part_write_outermost root w v :
  w ∈ w_write (writable_part root mapped write) -> v ∈ w_write (writable_part root mapped write) -> v `prefix_of` w -> v = w.
Proof.
  unfold writable_part. destruct (bool_decide _); [set_solver|]. cbn [w_write].
  destruct (negb _); [|destruct (bool_decide _); [set_solver|]]; intros Hw Hv Hp; by eapply outermost_disjoint.
Qed.

Lemma hidden_rules_kept c path : c ∈ p_children p -> path ∈ c_denied c -> hidden_problem (c_denied c) (c_allowed c) path = None.
Proof.
  intros Hc Hp. destruct (child_facts _ _ _ _ _ _ _ _ _ Hplanned c Hc) as [Hroot Hm].
  assert (Hd : denies (nearest_rule path (c_denied c) (c_allowed c) false) = false).
  { apply denies_false. intros (rule & Hin & Hrest). rewrite (cm_denied Hm) in Hp, Hin. rewrite (cm_allowed Hm) in Hrest.
    apply elem_of_needed in Hp as [_ Hn], Hin as [Hin _]. apply Hn. by exists rule. }
  unfold hidden_problem. by destruct (nearest_rule _ _ _ _) as [[? []]|].
Qed.

Lemma shown_rules_kept c path : c ∈ p_children p -> path ∈ c_allowed c -> shown_problem (c_denied c) (c_allowed c) path = None.
Proof.
  intros Hc Hp. destruct (child_facts _ _ _ _ _ _ _ _ _ Hplanned c Hc) as [Hroot Hm].
  rewrite (cm_allowed Hm) in Hp. apply elem_of_inside in Hp as [Hp Hpre]. apply -> (elem_of_sort compare_path) in Hp.
  destruct (allowed_check_spec _ _ _ (pl_allowed_check Hplanned) path Hp) as [Hn Hh].
  assert (Hne : c_root c <> path) by (intros <-; by apply (allowed_facts _ _ _ _ _ _ _ _ _ Hplanned) in Hp as [? _]).
  assert (Hd : denies (nearest_rule path (c_denied c) (c_allowed c) false) = true).
  { apply (child_hides _ _ _ _ _ _ _ _ _ Hplanned); auto. }
  unfold shown_problem. replace (existsb _ (c_denied c)) with false.
  - by destruct (nearest_rule _ _ _ _) as [[? []]|].
  - symmetry. apply existsb_none. intros o Ho. apply bool_decide_eq_false. intros ->. rewrite (cm_denied Hm) in Ho.
    apply elem_of_needed in Ho as [Ho _]. by apply elem_of_inside in Ho as [? _].
Qed.

Lemma writable_rules_kept c path :
  c ∈ p_children p -> path ∈ c_write c -> writable_problem (c_root c) (c_denied c) (c_allowed c) (c_write c) path = None.
Proof.
  intros Hc Hp. destruct (child_facts _ _ _ _ _ _ _ _ _ Hplanned c Hc) as [Hroot Hm]. pose proof Hp as Hp'. rewrite (cm_write Hm) in Hp.
  destruct (part_write_from _ _ Hroot Hp) as (Hpre & Hne & _).
  assert (Hd : denies (nearest_rule path (c_denied c) (c_allowed c) true) = false).
  { apply not_true_iff_false. rewrite (child_hides _ _ _ _ _ _ _ _ _ Hplanned) by auto. intros (rule & Hr).
    eapply (parts_loop_spec _ _ _ (pl_parts Hplanned) (c_root c) _ path); [apply list_elem_of_fmap; eauto|exact Hp|]. exists rule.
    revert Hr. apply hidden_by_ext; [done|]. intros q. apply (elem_of_sort compare_path). }
  unfold writable_problem. rewrite bool_decide_false by done. replace (List.find _ (c_write c)) with (@None Path).
  - by destruct (nearest_rule _ _ _ _) as [[? []]|].
  - symmetry. apply find_none_iff. intros o Ho. apply andb_false_iff. destruct (bool_decide_reflect (o = path)) as [|Hn]; [by left|right].
    apply not_true_iff_false. rewrite starts_with_prefix. intros Hop. apply Hn. rewrite (cm_write Hm) in Ho. by eapply part_write_outermost.
Qed.

Lemma policy_rules_kept c : c ∈ p_children p -> policy_rule_problem c = None.
Proof.
  intros Hc. destruct (child_policy_nodup c Hc) as (H1 & H2 & H3). unfold policy_rule_problem. cbn [find_map].
  rewrite !repeated_none by done. cbn [option_map fmap option_fmap or_else].
  replace (find_map (hidden_problem _ _) _) with (@None RuleProblem) by (symmetry; apply find_map_none_iff; intros; by apply hidden_rules_kept).
  replace (find_map (shown_problem _ _) _) with (@None RuleProblem) by (symmetry; apply find_map_none_iff; intros; by apply shown_rules_kept).
  cbn [or_else]. apply find_map_none_iff. intros. by apply writable_rules_kept.
Qed.
(** The entry of a child's root. *)
Lemma child_own c : c ∈ p_children p -> exists own, own ∈ mapped /\ e_canonical own = c_root c /\ c_file c = negb (e_directory own).
Proof. intros Hc. destruct (child_facts _ _ _ _ _ _ _ _ _ Hplanned c Hc) as [_ Hm]. exact (cm_own Hm). Qed.

Lemma root_below_volume c : c ∈ p_children p -> is_absolute (c_root c) = true /\ volume_root_refusal (c_root c) = false.
Proof.
  intros Hc. destruct (child_own c Hc) as (own & Ho & <- & _). destruct (entry_resolved own Ho) as (_ & _ & names & Hn & _). rewrite Hn. split; [done|].
  destruct (entry_from _ _ _ (pl_resolved Hplanned) own Ho) as (m & _ & Hok). destruct names as [|name names]; [|done]. exfalso.
  destruct (eo_metadata Hok) as (md & Hmd & Hdir & _). rewrite Hn in Hmd. cbn in Hmd.
  assert (Hd : e_directory own = true) by (rewrite Hdir; by eapply root_directory). apply (eo_volume Hok) in Hd. by rewrite Hn in Hd.
Qed.

Lemma rootless_overlap i c : p_children p !! i = Some c ->
  list_find (fun other => starts_with (c_root other) (c_root c) || starts_with (c_root c) (c_root other) = true) (take i (p_children p)) = None.
Proof.
  intros Hi. apply list_find_None, Forall_forall. intros d (j & Hj)%list_elem_of_lookup Hov. apply lookup_take_Some in Hj as [Hj Hlt].
  assert (i = j); [|lia]. apply orb_true_iff in Hov as [H|H]; apply starts_with_prefix in H.
  - by eapply (child_unique i j c d (c_root d)).
  - by eapply (child_unique i j c d (c_root c)).
Qed.

Lemma root_bind i c : p_children p !! i = Some c -> exists b, b ∈ p_binds p /\ b_child b = i /\ b_source b = [].
Proof.
  intros Hi. destruct (child_own c) as (own & Ho & Hroot & _); [by eapply list_elem_of_lookup_2|].
  destruct (entry_bind own Ho) as (b & Hb & Hm). exists b. split; [done|].
  assert (Hbi : b_child b = i) by (apply (bind_in_child own b i c Hm Hi); by rewrite Hroot). split; [done|].
  rewrite <- Hbi in Hi. destruct (bind_names own b c Ho Hm Hi) as (names & Heq & Hn & ->). rewrite Hroot in Heq.
  destruct names; [done|]. rewrite <- (app_nil_r (c_root c)) in Heq at 1. by apply app_inv_head in Heq.
Qed.

(** The paths of a child that binds map read-write. *)
Lemma read_write_bound i c path : p_children p !! i = Some c ->
  path ∈ bound_path c <$> List.filter (fun bind => bool_decide (b_child bind = i) && negb (b_read_only bind)) (p_binds p) <->
  (exists e, e ∈ mapped /\ e_canonical e = path /\ e_read_only e = false) /\ c_root c `prefix_of` path.
Proof.
  intros Hi. rewrite list_elem_of_fmap. setoid_rewrite elem_of_filter_bool. setoid_rewrite andb_true_iff.
  setoid_rewrite negb_true_iff. setoid_rewrite bool_decide_eq_true. split.
  - intros (b & -> & Hb & Hbi & Hro). destruct (bind_entry b Hb) as (e & He & Hm). pose proof Hbi as Hpre. apply (bind_in_child e b i c Hm Hi) in Hpre.
    rewrite <- Hbi in Hi. rewrite (bind_bound e b c He Hm Hi). split; [|done]. exists e. rewrite <- (bm_read_only Hm). auto.
  - intros [(e & He & <- & Hro) Hpre]. destruct (entry_bind e He) as (b & Hb & Hm). pose proof (proj2 (bind_in_child e b i c Hm Hi) Hpre) as Hbi.
    exists b. rewrite (bm_read_only Hm). split; [|auto]. rewrite <- Hbi in Hi. by rewrite (bind_bound e b c He Hm Hi).
Qed.

Lemma writable_iff c : c ∈ p_children p -> c_writable c = true <-> exists e, e ∈ mapped /\ e_read_only e = false /\ c_root c `prefix_of` e_canonical e.
Proof.
  intros Hc. destruct (child_facts _ _ _ _ _ _ _ _ _ Hplanned c Hc) as [_ Hm]. rewrite (cm_writable Hm). cbn [snd]. unfold writable_part.
  pose proof (read_write_of mapped (c_root c)) as Hrw. set (rw := e_canonical <$> _) in *. clearbody rw.
  case_bool_decide as Hb; cbn [w_writable].
  - split; [done|]. intros (e & He & Hro & Hp). assert (H : e_canonical e ∈ rw) by (apply Hrw; eauto). rewrite Hb in H. set_solver.
  - split; [|done]. intros _. destruct rw as [|x rw]; [done|]. destruct (proj1 (Hrw x)) as [(e & He & <- & Hro) Hp]; [by left|]. eauto.
Qed.

Lemma read_write_binds i c :
  p_children p !! i = Some c -> existsb (fun bind => bool_decide (b_child bind = i) && negb (b_read_only bind)) (p_binds p) = c_writable c.
Proof.
  intros Hi. assert (Hc : c ∈ p_children p) by (by eapply list_elem_of_lookup_2). apply Bool.eq_iff_eq_true.
  rewrite (writable_iff c Hc), existsb_in. setoid_rewrite andb_true_iff. setoid_rewrite bool_decide_eq_true. setoid_rewrite negb_true_iff. split.
  - intros (b & Hb & Hbi & Hro). destruct (bind_entry b Hb) as (e & He & Hm). exists e. rewrite <- (bm_read_only Hm). split; [done|]. split; [done|].
    by apply (bind_in_child e b i c Hm Hi).
  - intros (e & He & Hro & Hp). destruct (entry_bind e He) as (b & Hb & Hm). exists b. rewrite (bm_read_only Hm). split; [done|]. split; [|done].
    by apply (bind_in_child e b i c Hm Hi).
Qed.

Lemma child_passes i c total : p_children p !! i = Some c -> check_child (p_binds p) (take i (p_children p)) i c total = Ok (total + child_bytes c).
Proof.
  intros Hi. assert (Hc : c ∈ p_children p) by (by eapply list_elem_of_lookup_2).
  destruct (child_facts _ _ _ _ _ _ _ _ _ Hplanned c Hc) as [Hroot Hm]. destruct (root_below_volume c Hc) as [Ha Hv].
  destruct (cm_limits Hm) as (n & Hl). assert (Hb : child_bytes c = n) by (unfold child_bytes; rewrite Hl; lia).
  pose proof (policy_path_from c) as Hpolicy. unfold check_child. rewrite Ha, Hv. cbn [negb orb refuse mbind result_bind].
  rewrite (proj2 (find_map_none_iff _ _)).
  2:{ intros path Hpath. rewrite resolved_no_problem; [done|]. apply elem_of_cons in Hpath as [->|Hpath]; [|by apply Hpolicy in Hpath as (_ & ? & _ & ?)].
      destruct (child_own c Hc) as (own & Ho & <- & _). by destruct (entry_resolved own Ho) as (? & _ & ?). }
  cbn [refuse_some mbind result_bind]. pose proof (Forall2_length _ _ _ (pins_spec _ _ _ _ (cm_pins Hm))) as Hlen.
  unfold len at 1 2. rewrite Hlen, Z.eqb_refl. cbn [negb refuse mbind result_bind].
  rewrite (proj2 (find_none_iff _ _)).
  2:{ intros path Hpath. apply Hpolicy in Hpath as (Hpre & text & Ht & _); [|done]. rewrite (proj2 (starts_with_prefix _ _) Hpre). cbn.
      destruct (child_own c Hc) as (own & Ho & Hr & ->). destruct (e_directory own) eqn:Hd; [done|]. cbn. apply negb_false_iff, bool_decide_eq_true.
      rewrite <- Hr. eapply below_file; [done|done|by exists text|by rewrite Hr]. }
  cbn [refuse_some mbind result_bind]. rewrite Hl. cbn [mbind result_bind].
  rewrite (rootless_overlap i c Hi), (policy_rules_kept c Hc). cbn [refuse_some mbind result_bind].
  rewrite (read_write_binds i c Hi). replace (negb (c_writable c) && _) with false.
  2:{ rewrite (cm_writable Hm), (cm_write Hm). cbn [snd]. unfold writable_part. destruct (bool_decide _); [|done]. by cbn. }
  cbn [refuse mbind result_bind]. destruct (root_bind i c Hi) as (b & Hbin & Hbi & Hbs).
  rewrite (proj2 (existsb_in _ _)); [|exists b; split; [done|]; by rewrite !bool_decide_true]. cbn [negb refuse mbind result_bind].
  rewrite Bool.eqb_reflx. cbn [negb refuse mbind result_bind]. by rewrite Hb.
Qed.
(** ** The binds *)

Lemma has_nul_join names : Forall is_name names -> has_nul (join [SLASH] names) = false.
Proof.
  intros Hn. apply existsb_none. intros b Hb. apply Z.eqb_neq. revert b Hb. apply Forall_forall, join_forall; [by vm_compute|].
  eapply Forall_impl; [exact Hn|]. intros name (_ & _ & _ & Hnul & _). apply Forall_forall. intros b Hb.
  unfold has_nul in Hnul. rewrite existsb_none in Hnul. apply Hnul in Hb. by apply Z.eqb_neq in Hb.
Qed.

(** Names are none of the components that paths may not have. *)
Lemma names_plain names : names <> [] -> Forall is_name names ->
  existsb (fun component => bool_decide (component = []) || bool_decide (component = DOT_PIECE) || bool_decide (component = DOT_DOT))
    (split_on (is_byte SLASH) (join [SLASH] names)) = false.
Proof.
  intros Hne Hn. rewrite split_join; [|done|eapply Forall_impl; [exact Hn|]; by intros ? (? & ? & ? & ? & ?)].
  apply existsb_none. intros name Hin. rewrite Forall_forall in Hn. apply Hn in Hin as (H1 & H2 & H3 & _). by rewrite !bool_decide_false.
Qed.

Lemma guest_names_join names guest target :
  guest_names (Normal <$> names) guest = Some target -> target = guest ++ concat ((fun name => SLASH :: name) <$> names).
Proof.
  revert guest. induction names as [|n names IH]; intros guest; cbn; [intros [= <-]; by rewrite app_nil_r|].
  destruct (is_utf8 n); [|done]. intros ->%IH. rewrite <- app_assoc. done.
Qed.

Lemma concat_slashes names : names <> [] -> concat ((fun name => SLASH :: name) <$> names) = SLASH :: join [SLASH] names.
Proof.
  induction names as [|n names IH]; [done|]. intros _. destruct names as [|n' names]; [cbn; by rewrite app_nil_r|].
  rewrite fmap_cons. cbn [concat]. rewrite IH by done. done.
Qed.

(** The target of an entry is one that [check] accepts. *)
Lemma entry_target_ok e : e ∈ mapped -> len (e_target e) <= MAX_GUEST_PATH -> target_problem (e_target e) = None.
Proof.
  intros He Hlen. destruct (entry_from _ _ _ (pl_resolved Hplanned) e He) as (m & _ & Hok). destruct (eo_shape Hok) as [Hconv|]; [|done].
  pose proof (eo_target Hok) as Ht. unfold mapping_target in Ht. rewrite Hconv in Ht.
  destruct (entry_resolved e He) as (_ & _ & names & Hc & Hn). rewrite Hc in Ht. cbn in Ht.
  destruct (guest_names _ []) as [guest|] eqn:Eg; [|done]. apply guest_names_join in Eg. cbn in Eg, Ht. injection Ht as Ht.
  destruct (decide (names = [])) as [->|Hne].
  - exfalso. cbn in Eg. subst guest. rewrite bool_decide_true in Ht by done. pose proof (eo_free Hok) as Hf. rewrite <- Ht in Hf. done.
  - rewrite concat_slashes in Eg by done. subst guest. rewrite bool_decide_false in Ht by done. rewrite <- Ht in Hlen |- *. unfold target_problem.
    assert (Hs : strip_prefix [SLASH] (SLASH :: join [SLASH] names) = Some (join [SLASH] names)) by (by apply strip_prefix_some). rewrite Hs.
    rewrite bool_decide_false by (by rewrite join_names_nil). rewrite (proj2 (Z.ltb_ge _ _)) by done.
    assert (Hnul : has_nul (SLASH :: join [SLASH] names) = false) by (unfold has_nul; cbn [existsb]; by rewrite has_nul_join). rewrite Hnul.
    by rewrite names_plain.
Qed.

Lemma targets_distinct : NoDup (e_target <$> mapped).
Proof.
  apply NoDup_alt. intros i j t Hi Hj. rewrite list_lookup_fmap in Hi, Hj.
  destruct (mapped !! i) as [e|] eqn:Ei, (mapped !! j) as [e'|] eqn:Ej; cbn in *; try done. simplify_eq.
  pose proof (targets_loop_spec _ _ (pl_targets Hplanned)) as H. cbn in H.
  destruct (lt_eq_lt_dec i j) as [[Hlt|]|Hlt]; [|done|]; exfalso.
  - specialize (H j e' Ej e). unfold pair_problem in H. rewrite bool_decide_true in H by congruence. discriminate H.
    apply list_elem_of_lookup. exists i. by apply lookup_take_Some.
  - specialize (H i e Ei e'). unfold pair_problem in H. rewrite bool_decide_true in H by congruence. discriminate H.
    apply list_elem_of_lookup. exists j. by apply lookup_take_Some.
Qed.

Lemma bind_targets_distinct : NoDup (b_target <$> binds).
Proof.
  assert (Hall : forall l k, Forall2 (bind_made host (p_children p) (movable_of mapped write)) l k -> b_target <$> k = e_target <$> l).
  { induction 1 as [|e b l k Hm H IH]; [done|]. rewrite !fmap_cons, IH. by rewrite (bm_target Hm). }
  rewrite (Hall _ _ binds_made). apply targets_distinct.
Qed.
Lemma within_below (outer rest : list byte) : within (outer ++ SLASH :: rest) outer = true /\ within outer (outer ++ SLASH :: rest) = false.
Proof.
  unfold within. rewrite strip_prefix_app. unfold starts_with_slash. cbn [head].
  rewrite (bool_decide_true (Some SLASH = Some SLASH)) by done. rewrite !orb_true_r. split; [done|].
  assert (Hne : outer <> outer ++ SLASH :: rest) by (intros H; apply (f_equal length) in H; rewrite length_app in H; cbn in H; lia).
  rewrite bool_decide_false by done. destruct (strip_prefix (outer ++ SLASH :: rest) outer) as [t|] eqn:E; [|done].
  apply strip_prefix_some in E. apply (f_equal length) in E. rewrite !length_app in E. cbn in E. lia.
Qed.

(** An entry whose target lies inside another's maps what the other shows there. *)
Lemma nested_shows e e' rest : e ∈ mapped -> e' ∈ mapped -> e_target e = e_target e' ++ SLASH :: rest -> shows e' e = true.
Proof.
  intros (i & Hi)%list_elem_of_lookup (j & Hj)%list_elem_of_lookup Ht. pose proof (targets_loop_spec _ _ (pl_targets Hplanned)) as H. cbn in H.
  destruct (within_below (e_target e') rest) as [H1 H2]. rewrite <- Ht in H1, H2.
  assert (Hne : e_target e <> e_target e') by (intros He; rewrite He in Ht; apply (f_equal length) in Ht; rewrite length_app in Ht; cbn in Ht; lia).
  destruct (lt_eq_lt_dec i j) as [[Hlt| ->]|Hlt]; [|by simplify_eq|].
  - specialize (H j e' Hj e). unfold pair_problem in H. rewrite bool_decide_false, H2, H1 in H by done. destruct (shows e' e); [done|].
    discriminate H. apply list_elem_of_lookup. exists i. by apply lookup_take_Some.
  - specialize (H i e Hi e'). unfold pair_problem in H. rewrite bool_decide_false, H1 in H by done. destruct (shows e' e); [done|].
    discriminate H. apply list_elem_of_lookup. exists j. by apply lookup_take_Some.
Qed.

Lemma join_app k l : k <> [] -> l <> [] -> join [SLASH] (k ++ l) = join [SLASH] k ++ SLASH :: join [SLASH] l.
Proof.
  intros Hk Hl. induction k as [|x k IH]; [done|]. destruct k as [|y k].
  - destruct l; [done|]. done.
  - change ((x :: y :: k) ++ l) with (x :: y :: (k ++ l)). rewrite !join_cons. change (y :: k ++ l) with ((y :: k) ++ l). rewrite IH by done.
    rewrite <- !app_assoc. done.
Qed.

Lemma split_on_trailing {A} (f : A -> bool) k x : f x = true -> exists piece pieces, split_on f (k ++ [x]) = (piece :: pieces) ++ [[]].
Proof.
  intros Hx. induction k as [|y k (piece & pieces & IH)]; cbn; [rewrite Hx; by eexists [], []|].
  destruct (f y); cbn in IH; rewrite IH; [by eexists [], (_ :: _)|]. by eexists (y :: piece), pieces.
Qed.

Lemma target_no_trailing t : target_problem (t ++ [SLASH]) <> None.
Proof.
  unfold target_problem. destruct (strip_prefix [SLASH] (t ++ [SLASH])) as [rest|] eqn:E; [|done]. apply strip_prefix_some in E. cbn in E.
  destruct t as [|x t]; cbn in E; injection E; [by intros <-|]. intros <- _. case_bool_decide; [done|]. destruct (_ <? _); [done|]. destruct (has_nul _); [done|].
  destruct (split_on_trailing (is_byte SLASH) t SLASH) as (piece & pieces & Hs); [by vm_compute|].
  rewrite (proj2 (existsb_in _ _)); [done|]. exists []. split; [rewrite Hs; apply elem_of_app; right; by left|done].
Qed.

Lemma binds_do_not_hide b outer : b ∈ p_binds p -> outer ∈ p_binds p -> hides_bind b outer = false.
Proof.
  intros Hb Ho. destruct (bind_entry b Hb) as (e & He & Hm), (bind_entry outer Ho) as (e' & He' & Hm'). unfold hides_bind.
  rewrite (bm_target Hm), (bm_target Hm'). destruct (strip_prefix (e_target e') (e_target e)) as [r|] eqn:E1; [|done]. cbn [mbind option_bind].
  destruct (strip_prefix [SLASH] r) as [rest|] eqn:E2; [|done]. apply strip_prefix_some in E1, E2. cbn in E2. subst r.
  pose proof (nested_shows e e' rest He He' E1) as Hs. unfold shows in Hs. rewrite E1, strip_prefix_app in Hs. cbn [mbind option_bind] in Hs.
  rewrite (proj2 (strip_prefix_some [SLASH] (SLASH :: rest) rest)) in Hs by done. apply andb_true_iff in Hs as [_ Hrel]. apply bool_decide_eq_true in Hrel.
  destruct (bm_child Hm') as (c & Hc & Hpre & _). destruct (bind_names e' outer c He' Hm' Hc) as (names' & Heq' & Hn' & Hsrc').
  destruct (entry_resolved e He) as (_ & _ & Hr), (entry_resolved e' He') as (_ & _ & Hr').
  assert (Hbelow : e_canonical e' `prefix_of` e_canonical e).
  { unfold relative_text in Hrel. destruct (strip_prefix _ _) as [t|] eqn:Et; [|done]. apply strip_prefix_some in Et. by exists t. }
  destruct (resolved_below _ _ Hr' Hr Hbelow) as (names2 & Heq2 & Hn2).
  assert (Hrest : rest = join [SLASH] names2) by (rewrite Heq2 in Hrel; by apply relative_names in Hrel).
  assert (Hchild : b_child b = b_child outer) by (apply (bind_in_child e b _ c Hm Hc); by etrans).
  rewrite <- Hchild in Hc. destruct (bind_names e b c He Hm Hc) as (names & Heq & Hn & Hsrc).
  assert (names = names' ++ names2) as ->.
  { rewrite Heq2, Heq', <- app_assoc, <- fmap_app in Heq. apply app_inv_head in Heq. apply (inj (fmap Normal)) in Heq. done. }
  rewrite Hchild, bool_decide_true by done. cbn. apply negb_false_iff, bool_decide_eq_true. rewrite Hsrc, Hsrc', Hrest.
  case_bool_decide as Hb0.
  - by apply join_names_nil in Hb0 as ->.
  - rewrite join_names_nil in Hb0 by done. apply join_app; [done|]. intros ->. cbn in Hrest. subst rest.
    pose proof (entry_target_ok e He (bm_length Hm)) as Hok. rewrite E1 in Hok. by apply target_no_trailing in Hok.
Qed.
(** The entry behind a bind is shown, or shows allowed paths inside it. *)
Lemma bind_shown e c : e ∈ mapped -> c ∈ p_children p -> c_root c `prefix_of` e_canonical e ->
  denies (nearest_rule (e_canonical e) (c_denied c) (c_allowed c) true)
  && negb (existsb (fun shown => negb (bool_decide (shown = e_canonical e)) && starts_with shown (e_canonical e)) (c_allowed c)) = false.
Proof.
  intros He Hc Hp. destruct (denies _) eqn:Ed; [|done]. apply (child_hides _ _ _ _ _ _ _ _ _ Hplanned) in Ed; [|done|done|by left].
  destruct (denied_paths_spec _ _ _ _ _ (pl_denied Hplanned)) as (_ & _ & Hs). destruct (Hs e He) as [Hn|(_ & _ & shown & Hin & Hne & Hpre)]; [done|].
  cbn. apply negb_false_iff, existsb_in. exists shown. destruct (child_facts _ _ _ _ _ _ _ _ _ Hplanned c Hc) as [_ Hm]. split.
  - rewrite (cm_allowed Hm). apply elem_of_inside. split; [by apply (elem_of_sort compare_path)|by etrans].
  - rewrite bool_decide_false by done. cbn. by apply starts_with_prefix.
Qed.

Lemma bind_passes i b : p_binds p !! i = Some b -> check_bind (p_children p) (r_reserved request) (take i (p_binds p)) b = Ok tt.
Proof.
  intros Hi. assert (Hb : b ∈ p_binds p) by (by eapply list_elem_of_lookup_2). destruct (bind_entry b Hb) as (e & He & Hm).
  destruct (bm_child Hm) as (c & Hc & Hpre & Hrel). destruct (bind_names e b c He Hm Hc) as (names & Heq & Hn & Hsrc).
  assert (Hcin : c ∈ p_children p) by (by eapply list_elem_of_lookup_2).
  unfold check_bind. rewrite Hc. cbn [ok_or mbind result_bind]. rewrite (bind_bound e b c He Hm Hc), Hrel, (bind_shown e c He Hcin Hpre).
  rewrite (proj2 (refuse_ok _ (NotInside b))).
  2:{ case_bool_decide as Hs; [done|]. cbn. rewrite Hsrc in Hs. rewrite join_names_nil in Hs by done. apply orb_false_iff. split; [|rewrite Hsrc; by apply names_plain].
      destruct (child_own c Hcin) as (own & Ho & Hr & ->). destruct (e_directory own) eqn:Hd; [done|]. exfalso.
      destruct (entry_resolved e He) as (text & Ht & _). assert (Hsame : e_canonical e = e_canonical own) by (eapply below_file; [done|done|by exists text|by rewrite Hr]).
      rewrite Heq, Hr in Hsame. rewrite <- (app_nil_r (c_root c)) in Hsame at 2. apply app_inv_head in Hsame. by destruct names. }
  cbn [mbind result_bind]. rewrite (proj2 (refuse_ok _ (SourceNul b))) by (rewrite Hsrc; by apply has_nul_join).
  cbn [mbind result_bind]. rewrite (proj2 (refuse_ok _ (SourceTooLong b))) by (apply Z.ltb_ge; exact (bm_source Hm)). cbn [mbind result_bind].
  rewrite bool_decide_true by done. cbn [negb refuse mbind result_bind].
  rewrite (bm_target Hm), (entry_target_ok e He (bm_length Hm)). cbn [refuse_some mbind result_bind].
  destruct (entry_from _ _ _ (pl_resolved Hplanned) e He) as (m & _ & Hok). rewrite (eo_free Hok). cbn [refuse_some mbind result_bind].
  rewrite (proj2 (refuse_some_ok _ (OutOfOrder b))).
  2:{ destruct (last (take i (p_binds p))) as [previous|] eqn:El; [|done]. cbn [mbind option_bind].
      rewrite last_lookup, lookup_take_Some in El. destruct El as [El Hlt].
      rewrite length_take_le in El, Hlt by (apply lookup_lt_Some in Hi; lia). destruct i as [|i]; [lia|]. cbn in El.
      rewrite (pl_sorted Hplanned) in El, Hi. unfold not_before. by rewrite (sorted_binds_before _ _ _ _ bind_targets_distinct El Hi). }
  cbn [mbind result_bind]. apply refuse_some_ok, find_none_iff. intros outer Ho. apply binds_do_not_hide; [done|].
  apply list_elem_of_lookup in Ho as (j & Hj). apply lookup_take_Some in Hj as [Hj _]. by eapply list_elem_of_lookup_2.
Qed.

(** ** The writable parts *)

Lemma moves_movable c path : c ∈ p_children p -> c_root c `prefix_of` path ->
  moves (mkWritable (c_writable c) (c_write c)) (c_root c) path = true -> movable_of mapped write path = true.
Proof.
  intros Hc Hp Hmv. destruct (child_facts _ _ _ _ _ _ _ _ _ Hplanned c Hc) as [Hroot Hm]. rewrite (cm_writable Hm), (cm_write Hm) in Hmv. cbn [snd] in Hmv.
  apply existsb_in. exists (c_root c, writable_part (c_root c) mapped write). split; [apply list_elem_of_fmap; eauto|]. cbn [fst snd].
  rewrite (proj2 (starts_with_prefix _ _) Hp). by destruct (writable_part (c_root c) mapped write).
Qed.

(** The write paths of a child against the paths that it maps read-write. *)
Lemma writes_agree c rw : c ∈ p_children p ->
  (forall path, path ∈ rw <-> (exists e, e ∈ mapped /\ e_canonical e = path /\ e_read_only e = false) /\ c_root c `prefix_of` path) ->
  if existsb (fun path => bool_decide (path = c_root c)) rw
  then forall path, path ∈ rw -> path <> c_root c -> c_write c <> [] -> exists w, w ∈ c_write c /\ w `prefix_of` path
  else outermost rw = c_write c.
Proof.
  intros Hc Hrw. destruct (child_facts _ _ _ _ _ _ _ _ _ Hplanned c Hc) as [Hroot Hm]. rewrite (cm_write Hm). cbn [snd]. unfold writable_part.
  pose proof (read_write_of mapped (c_root c)) as Hrw'. set (rw' := e_canonical <$> _) in *. set (nw := pp_canonical <$> _). clearbody rw' nw.
  assert (Hsame : forall q, q ∈ rw <-> q ∈ rw') by (intros; by rewrite Hrw, Hrw').
  assert (Hex : existsb (fun path => bool_decide (path = c_root c)) rw = existsb (fun path => bool_decide (path = c_root c)) rw').
  { apply Bool.eq_iff_eq_true. rewrite !existsb_in. by setoid_rewrite Hsame. }
  rewrite Hex. destruct (existsb _ rw') eqn:E; cbn [negb].
  - intros path Hpath Hne. destruct (bool_decide (rw' = [])) eqn:Eb; [by apply bool_decide_eq_true in Eb; rewrite Eb in E|]. cbn [w_write].
    destruct (bool_decide (nw = [])); [done|]. intros _. apply in_outermost_part. exists path. split; [|done]. apply elem_of_app. right.
    apply elem_of_filter_bool. rewrite bool_decide_false by done. split; [by apply Hsame|done].
  - rewrite (outermost_ext _ _ Hsame). case_bool_decide as Hb; cbn [w_write]; [by rewrite Hb|done].
Qed.

Lemma writes_pass i c : p_children p !! i = Some c -> check_writes (p_binds p) i c = Ok tt.
Proof.
  intros Hi. assert (Hc : c ∈ p_children p) by (by eapply list_elem_of_lookup_2).
  destruct (child_facts _ _ _ _ _ _ _ _ _ Hplanned c Hc) as [Hroot Hm]. unfold check_writes.
  pose proof (writes_agree c _ Hc (fun path => read_write_bound i c path Hi)) as Hag. set (rw := bound_path c <$> _) in *.
  assert (Hpart : (if existsb (fun path => bool_decide (path = c_root c)) rw
    then refuse_some (List.find (fun path => negb (bool_decide (path = c_root c)) && negb (bool_decide (c_write c = []))
                                   && negb (existsb (fun write => starts_with path write) (c_write c))) rw) (NarrowedAway i)
    else refuse (negb (bool_decide (outermost rw = sort_paths (c_write c)))) (WritesOthers i)) = Ok tt).
  { destruct (existsb _ rw).
    - apply refuse_some_ok, find_none_iff. intros path Hp. destruct (bool_decide_reflect (path = c_root c)); [done|].
      destruct (bool_decide_reflect (c_write c = [])); [done|]. destruct (Hag path) as (w & Hw & Hpre); [done..|]. cbn. apply negb_false_iff, existsb_in.
      exists w. split; [done|]. by apply starts_with_prefix.
    - apply refuse_ok, negb_false_iff, bool_decide_eq_true. rewrite <- Hag. symmetry. apply sort_paths_id, outermost_sorted. }
  rewrite Hpart. cbn [mbind result_bind]. rewrite (proj2 (refuse_some_ok _ (fun pinned => DeniedUnpinned i pinned.1))).
  2:{ apply find_none_iff. intros [path identity] Hin. cbn [fst snd]. destruct identity as [|]; [done|]. rewrite bool_decide_true by done. cbn. apply not_true_iff_false. intros Hmv.
      apply list_elem_of_lookup in Hin as (j & Hj). apply lookup_zip_with_Some in Hj as (path' & id' & [= <- <-] & Hj1 & Hj2).
      pose proof (pin_spec _ _ _ _ (Forall2_lookup_lr _ _ _ _ _ _ (pins_spec _ _ _ _ (cm_pins Hm)) Hj1 Hj2)) as Hpin. cbn in Hpin.
      apply (moves_movable c) in Hmv; [congruence|done|].
      destruct (policy_path_from c path) as [? _]; [done|apply elem_of_app; left; by eapply list_elem_of_lookup_2|done]. }
  cbn [mbind result_bind]. apply refuse_some_ok, find_none_iff. intros b Hb.
  destruct (bool_decide_reflect (b_child b = i)) as [Hbi|]; [|done]. destruct (bool_decide_reflect (b_identity b = None)) as [Hid|]; [|done]. cbn.
  destruct (bind_entry b Hb) as (e & He & Hme). pose proof (proj1 (bind_in_child e b i c Hme Hi) Hbi) as Hpre. rewrite <- Hbi in Hi.
  rewrite (bind_bound e b c He Hme Hi). apply not_true_iff_false. intros Hmv%(moves_movable c); [|done|done].
  pose proof (pin_spec _ _ _ _ (bm_identity Hme)) as Hpin. rewrite Hid in Hpin. congruence.
Qed.
(** ** The checks of the plan *)

Lemma planned_checks : ExportPlanner.check p (r_reserved request) = Ok tt.
Proof.
  pose proof children_roots as Hroots. apply (f_equal length) in Hroots. rewrite length_fmap in Hroots.
  pose proof (Forall2_length _ _ _ binds_made) as Hlen. pose proof (merge_sort_Permutation (at_most compare_bind) binds) as Hperm.
  rewrite <- (pl_sorted Hplanned) in Hperm. apply Permutation_length in Hperm. pose proof (pl_count Hplanned) as Hcount. pose proof (pl_roots Hplanned) as Hmax.
  assert (Hne : roots_of mapped <> []).
  { intros H%outermost_nil. apply fmap_nil_inv in H. apply (f_equal length) in H. unfold len in Hcount. cbn in H. lia. }
  unfold ExportPlanner.check, len in *. rewrite (proj2 (refuse_ok _ (ChildCount _))).
  2:{ apply orb_false_iff. split; [|apply Z.ltb_ge; lia]. apply bool_decide_eq_false. intros H. rewrite H in Hroots. by destruct (roots_of mapped). }
  cbn [mbind result_bind]. rewrite (proj2 (refuse_ok _ (BindCount _))).
  2:{ apply orb_false_iff. split; [|apply Z.ltb_ge; lia]. apply bool_decide_eq_false. intros H. rewrite H in Hperm. cbn in Hperm. lia. }
  cbn [mbind result_bind]. rewrite check_children_all by (intros; by apply child_passes). cbn [mbind result_bind].
  destruct (children_loop_spec _ _ _ _ _ _ _ _ _ _ (pl_children Hplanned)) as (made & Heq & _ & Hbytes). cbn in Heq. subst made.
  rewrite (proj2 (refuse_ok _ AggregateLimit)) by (apply Z.ltb_ge; pose proof (pl_bytes Hplanned); lia). cbn [mbind result_bind].
  rewrite check_binds_all by (intros; by apply bind_passes). cbn [mbind result_bind]. apply check_writes_all. intros i c Hi. by apply writes_pass.
Qed.

(** ** The host that the plan was made for *)

Lemma root_loop_spec root current parts name :
  root_loop host root current (parts ++ [Normal name]) = Ok tt ->
  exists metadata, fs_symlink_metadata host (current ++ parts ++ [Normal name]) = Ok metadata /\ is_symlink metadata = false.
Proof.
  revert current. induction parts as [|part parts IH]; intros current; cbn [root_loop app]; intros H.
  - inv_ok. eauto.
  - assert (Hrest : root_loop host root (current ++ [part]) (parts ++ [Normal name]) = Ok tt) by (destruct part; inv_ok; done).
    apply IH in Hrest. by rewrite <- app_assoc in Hrest.
Qed.

Lemma kind_verifies c : c ∈ p_children p -> verify_kind host c = Ok tt.
Proof.
  intros Hc. destruct (child_own c Hc) as (own & Ho & Hr & Hf). destruct (entry_from _ _ _ (pl_resolved Hplanned) own Ho) as (m & _ & Hok).
  destruct (eo_metadata Hok) as (md & Hmd & Hd & Hk). destruct (child_facts _ _ _ _ _ _ _ _ _ Hplanned c Hc) as [_ Hm].
  destruct (root_below_volume c Hc) as [_ Hv]. destruct (entry_resolved own Ho) as (_ & _ & names & Hn & _). rewrite Hr in Hn, Hmd.
  destruct names as [|n names _] using rev_ind; [by rewrite Hn in Hv|].
  assert (Hn' : c_root c = (RootDir :: (Normal <$> names)) ++ [Normal n]) by (by rewrite Hn, fmap_app). clear Hn.
  pose proof (cm_unlinked Hm) as Hu. unfold check_root in Hu. rewrite Hn' in Hu.
  apply root_loop_spec in Hu as (md' & Hmd' & Hl). cbn [app] in Hmd'. change (RootDir :: (Normal <$> names) ++ [Normal n]) with ((RootDir :: (Normal <$> names)) ++ [Normal n]) in Hmd'.
  rewrite <- Hn' in Hmd'. pose proof (metadata_unlinked _ _ Hmd' Hl) as Hsame. rewrite Hmd in Hsame. apply ok_inj in Hsame as <-.
  unfold verify_kind. rewrite Hmd'.
  apply refuse_ok, negb_false_iff. rewrite Hf, Hd. by destruct (is_dir md), (is_file md).
Qed.

Lemma read_only_verifies b : b ∈ p_binds p -> b_read_only b = true -> verify_read_only p b = Ok tt.
Proof.
  intros Hb Hro. destruct (bind_entry b Hb) as (e & He & Hm). destruct (bm_child Hm) as (c & Hc & Hpre & _). rewrite (bm_read_only Hm) in Hro.
  unfold verify_read_only, bound. rewrite Hc. cbn [ok_or mbind result_bind]. rewrite (bind_bound e b c He Hm Hc). apply refuse_ok, not_true_iff_false.
  intros [Hw Hpart]%andb_true_iff. apply (read_only_ungranted _ _ _ _ _ _ _ _ _ Hplanned e He Hro).
  eapply (part_granted _ _ _ _ _ _ _ _ _ Hplanned c); [by eapply list_elem_of_lookup_2|]. split; [done|]. split; [done|].
  apply orb_true_iff in Hpart as [?%bool_decide_eq_true|(w & Hin & ?%starts_with_prefix)%existsb_in]; eauto.
Qed.

Lemma pinned_verifies movable path identity : pin host movable path = Ok identity -> verify_identity host path identity = Ok tt.
Proof.
  intros Hp%pin_spec. destruct identity as [identity|]; [|done]. unfold verify_identity. rewrite Hp. apply refuse_ok.
  by rewrite bool_decide_true.
Qed.

Lemma caller_roots_any {E F} (owns : Path -> E) (inspect : Path -> IoError -> E) (owns' : Path -> F) (inspect' : Path -> IoError -> F) children :
  check_caller_roots host owns inspect children = Ok tt -> check_caller_roots host owns' inspect' children = Ok tt.
Proof.
  induction children as [|c children IH]; cbn [check_caller_roots]; [done|]. intros H. inv_ok.
  match goal with H : fs_metadata _ _ = _ |- _ => rewrite H end. cbn [map_err mbind result_bind].
  match goal with H : _ || _ = false |- _ => rewrite H end. by apply IH.
Qed.

Lemma planned_verifies : verify host p = Ok tt.
Proof.
  unfold verify. rewrite (for_each_all (verify_read_only p)) by (intros b [Hb Hro]%elem_of_filter_bool; by apply read_only_verifies). cbn [mbind result_bind].
  rewrite (for_each_all (verify_kind host)) by (intros; by apply kind_verifies). cbn [mbind result_bind]. rewrite (for_each_all (verify_bind host p)).
  2:{ intros b Hb. destruct (bind_entry b Hb) as (e & He & Hm). destruct (bm_child Hm) as (c & Hc & _). unfold verify_bind.
      pose proof (pinned_verifies _ _ _ (bm_identity Hm)) as Hv. destruct (b_identity b); [|done].
      unfold bound. rewrite Hc. cbn [ok_or mbind result_bind]. by rewrite (bind_bound e b c He Hm Hc). }
  cbn [mbind result_bind]. rewrite for_each_all.
  2:{ intros c Hc. apply for_each_all. intros [path identity] (j & Hj)%list_elem_of_lookup. apply lookup_zip_with_Some in Hj as (path' & id' & [= -> ->] & Hj1 & Hj2).
      destruct (child_facts _ _ _ _ _ _ _ _ _ Hplanned c Hc) as [_ Hm].
      exact (pinned_verifies _ _ _ (Forall2_lookup_lr _ _ _ _ _ _ (pins_spec _ _ _ _ (cm_pins Hm)) Hj1 Hj2)). }
  cbn [mbind result_bind]. rewrite (pl_owner Hplanned). case_bool_decide as Hown; [|done]. eapply caller_roots_any, (pl_caller Hplanned), Hown.
Qed.
(** ** The guest's table *)

Lemma split_on_slash text : split_on (fun b => byte_val b =? 47) text = split_on (is_byte SLASH) text.
Proof.
  induction text as [|b text IH]; [done|]. cbn [split_on]. rewrite IH. replace (byte_val b =? 47) with (is_byte SLASH b); [done|].
  unfold is_byte. case_bool_decide as Hb; [by subst|]. symmetry. apply Z.eqb_neq. intros He. apply Hb, byte_val_inj. by rewrite He.
Qed.

Lemma dec_name n : 0 <= n -> is_name (dec n).
Proof.
  intros Hn. assert (Hne : dec n <> []) by (by apply digits_nonempty; lia). pose proof (dec_digits n Hn) as Hd.
  assert (Hdot : forall rest, dec n <> byte_of 46 :: rest) by (intros rest He; rewrite He in Hd; by apply Forall_inv in Hd).
  split; [done|]. split; [apply Hdot|]. split; [apply Hdot|]. split; [|by apply dec_clean; [|set_solver]].
  apply existsb_none. intros b Hb. rewrite Forall_forall in Hd. apply Hd in Hb. unfold is_ascii_digit in Hb. bool_to_prop. apply Z.eqb_neq. lia.
Qed.

Lemma normal_names names : names <> [] -> Forall is_name names -> normal (join [SLASH] names) = true.
Proof.
  intros Hne Hn. unfold normal. rewrite bool_decide_false by (by rewrite join_names_nil). cbn. rewrite split_on_slash.
  rewrite split_join; [|done|eapply Forall_impl; [exact Hn|]; by intros ? (? & ? & ? & ? & ?)]. apply forallb_forall. intros name Hin%list_elem_of_In.
  rewrite Forall_forall in Hn. apply Hn in Hin as (H1 & H2 & H3 & _). unfold normal_component. rewrite bool_decide_false; [done|]. naive_solver.
Qed.

Lemma target_acceptable target : target_problem target = None ->
  len target <= MAX_MAP_PATH_BYTES /\ has_nul target = false /\
  match target with b :: rest => (byte_val b =? 47) && normal rest | [] => false end = true.
Proof.
  unfold target_problem. destruct (strip_prefix [SLASH] target) as [rest|] eqn:E; [|done]. apply strip_prefix_some in E. cbn in E. subst target.
  case_bool_decide as Hne; [done|]. destruct (_ <? _) eqn:El; [done|]. destruct (has_nul _) eqn:En; [done|]. destruct (existsb _ _) eqn:Ex; [done|]. intros _.
  split; [by apply Z.ltb_ge in El|]. split; [done|]. apply andb_true_iff. split; [done|]. unfold normal. rewrite bool_decide_false by done. cbn.
  rewrite split_on_slash. apply forallb_forall. intros c Hc%list_elem_of_In. rewrite existsb_none in Ex. apply Ex in Hc.
  bool_to_prop. unfold normal_component. rewrite bool_decide_false; [done|]. naive_solver.
Qed.

Lemma table_entry_acceptable b : b ∈ p_binds p ->
  acceptable (bind_guest_source b) (b_target b) = true /\ bind_guest_source b <> [].
Proof.
  intros Hb. destruct (bind_entry b Hb) as (e & He & Hm). destruct (bm_child Hm) as (c & Hc & _). destruct (bind_names e b c He Hm Hc) as (names & _ & Hn & Hs).
  assert (Hd : is_name (dec (Z.of_nat (b_child b)))) by (apply dec_name; lia).
  assert (Hsrc : bind_guest_source b = join [SLASH] (dec (Z.of_nat (b_child b)) :: names)).
  { unfold bind_guest_source, guest_source. rewrite Hs. case_bool_decide as Hj; [by apply join_names_nil in Hj as ->|]. by destruct names. }
  pose proof (bm_source Hm) as Hlen. rewrite Hsrc in *. split; [|rewrite join_names_nil by (by constructor); done].
  destruct (target_acceptable (b_target b)) as (H1 & H2 & H3); [rewrite (bm_target Hm); apply entry_target_ok; [done|exact (bm_length Hm)]|].
  unfold acceptable. cbn [forallb]. rewrite H2, H3, (has_nul_join (_ :: names)), normal_names by (by try constructor).
  rewrite orb_true_r. cbn [negb andb]. rewrite !andb_true_r. apply andb_true_iff. split; apply Z.leb_le; [|done].
  assert (len GUEST_EXPORT = 20) by done. unfold MAX_GUEST_PATH, MAX_MAP_PATH_BYTES in *. lia.
Qed.

Lemma planned_collects entry binds' : (forall b, b ∈ binds' -> b ∈ p_binds p) ->
  let table := (fun bind => mkHostMap (bind_guest_source bind) (b_target bind) (b_read_only bind)) <$> binds' in
  collect_mappings entry table = Ok (mapping_of <$> table).
Proof.
  revert entry. induction binds' as [|b rest IH]; intros entry Hin; [done|]. cbn. destruct (table_entry_acceptable b) as [Ha Hne]; [apply Hin; by left|].
  unfold entry_mapping. cbn [source target]. rewrite bool_decide_false by done. rewrite new_mapping_acceptable, Ha. cbn [map_err mbind result_bind].
  rewrite IH by (intros; apply Hin; by right). done.
Qed.

Lemma planned_counts : is_count (dec (len (p_binds p))) (len (p_binds p)).
Proof.
  pose proof (Forall2_length _ _ _ binds_made) as Hlen. pose proof (merge_sort_Permutation (at_most compare_bind) binds) as Hperm.
  rewrite <- (pl_sorted Hplanned) in Hperm. apply Permutation_length in Hperm. pose proof (pl_count Hplanned) as Hcount. unfold len in *.
  assert (Hr : 1 <= Z.of_nat (length (p_binds p)) <= 4096) by (unfold Maps.MAX_HOST_MAPPINGS in *; lia).
  split; [|split; [|exact Hr]].
  - split; [by apply digits_nonempty; lia|]. apply dec_digits. lia.
  - symmetry. apply (digits_decimal 20). change (10 ^ Z.of_nat 20) with 100000000000000000000. lia.
Qed.
End passes.

(** C15: whoever comes after the planner accepts each plan that it makes: [check] reads its record
    back, [verify] finds nothing changed on the host of the plan, the host's encoder takes its table
    of mappings, the guest reads the number that the kernel token announces, and its table makes of
    each bind the mapping of that source and target, read-only exactly when the bind is. *)
Theorem planned_export_accepted host `{HostLaws host} request p limit digits command_line :
  plan host request = Ok (Some p) -> 14 + 2 * MAX_MAP_PATH_BYTES <= limit ->
  kernel_token p = bytes_of MAPS_TOKEN ++ digits -> map_counts (init_tokens command_line) = [digits] ->
  ExportPlanner.check p (r_reserved request) = Ok tt /\ verify host p = Ok tt /\
  (exists payloads, encode_maps_payloads (guest_table p) limit = Ok payloads) /\
  announced command_line = Ok (mkMappingTable (len (guest_table p)) 0 false) /\
  collect_mappings 0 (guest_table p) = Ok (mapping_of <$> guest_table p).
Proof.
  intros (mapped & write & allowed & denied & bytes & binds & Hp)%plan_planned Hlimit Htoken Hcount.
  pose proof (planned_counts _ _ _ _ _ _ _ _ _ Hp) as Hc. assert (Hl : len (guest_table p) = len (p_binds p)) by (unfold guest_table, len; by rewrite length_fmap).
  apply app_inv_head in Htoken. subst digits. destruct Hc as (Hd & He & Hr).
  split; [by eapply planned_checks|]. split; [by eapply planned_verifies|]. split; [|split].
  - unfold encode_maps_payloads. rewrite Hl. replace (_ || _) with false by (symmetry; apply orb_false_iff; split; [apply Z.eqb_neq|apply Z.ltb_ge]; lia).
    apply encode_maps_loop_total, Forall_forall. intros m (b & -> & Hb)%list_elem_of_fmap.
    destruct (table_entry_acceptable _ _ _ _ _ _ _ _ _ Hp b Hb) as [Ha _]. split; [done|]. cbn [source target]. apply acceptable_lengths in Ha. lia.
  - unfold announced. rewrite (proj2 (proj2 (mapping_count_exact command_line) (len (p_binds p)))); [cbn; by rewrite Hl|]. right. by eexists.
  - by eapply planned_collects.
Qed.

Lemma planned_export_accepted_witness :
  ExportPlanner.check sample_plan BLOCKLESS_ROOT = Ok tt /\ verify sample_host sample_plan = Ok tt /\
  (exists payloads, encode_maps_payloads (guest_table sample_plan) 65536 = Ok payloads) /\
  announced (bytes_of "console=ttyS0 nvx_maps=3") = Ok (mkMappingTable (len (guest_table sample_plan)) 0 false) /\
  collect_mappings 0 (guest_table sample_plan) = Ok (mapping_of <$> guest_table sample_plan).
Proof.
  apply (planned_export_accepted sample_host sample_request sample_plan 65536 (bytes_of "3") (bytes_of "console=ttyS0 nvx_maps=3")); by vm_compute.
Defined.
