(* ===== verification/LeaseStore.v ===== *)
(** * The store of templates and its transactions (src/nvx-rs/src/host/template/store.rs,
      store/leases.rs, store/capture.rs, src/nvx-rs/src/host/store/lease.rs, lifecycle.rs)

    A store of templates keeps an index of generations, their payloads, the records of leases and
    the tombstones; a sandbox keeps the binding of its clone. The transactions that change them
    are programs: trees of the calls that they make to the host, each with what the program does
    for every answer, failures included. [LeaseDisk] says what the calls do, when the host may
    crash, and how transactions of several processes interleave. *)

From stdpp Require Import sorting.
From S2P Require Import Prelude HostPaths Manifest Eligibility.

(** ** Data *)

Abbreviation StoreId := (list byte).
Abbreviation LeaseId := (list byte).
Abbreviation LaunchId := (list byte).

Record Lease := mkLease {
  l_id : LeaseId;
  l_store : StoreId;
  l_generation : Z;
  l_key : list byte;
  l_sandbox : Path;
  l_launch : LaunchId;
}.
#[export] Instance Lease_eq_dec : EqDecision Lease.
Proof. solve_decision. Defined.

Record Generation := mkGeneration {
  g_generation : Z;
  g_key : list byte;
  g_class : list byte;
  g_storage : list byte;
  g_created_at : Z;
  g_time : TimeContract;
  g_state_len : Z;
  g_memory_len : Z;
}.

Record Index := mkIndex {
  i_next : Z;
  i_generations : list Generation;
}.

(** What a checked capture records of itself: a generation without its store generation. *)
Record Envelope := mkEnvelope {
  e_key : list byte;
  e_class : list byte;
  e_storage : list byte;
  e_created_at : Z;
  e_time : TimeContract;
  e_state_len : Z;
  e_memory_len : Z;
}.

(** [Envelope::generation]. *)
Definition numbered (self : Envelope) (generation : Z) : Generation :=
  mkGeneration generation (e_key self) (e_class self) (e_storage self) (e_created_at self) (e_time self)
    (e_state_len self) (e_memory_len self).

Definition FIRST_GENERATION : Z := 1.
Definition MAX_GENERATIONS : nat := 1024.

(** [Index::get]: the generations of an index are in the strict order of their numbers, in which
    the binary search finds the one that has the number. *)
Definition get (self : Index) (generation : Z) : option Generation :=
  List.find (fun indexed => g_generation indexed =? generation) (i_generations self).

(** The checks of [IndexRecord::into_index]. *)
Fixpoint in_order (last next : Z) (generations : list Generation) : bool :=
  match generations with
  | [] => true
  | indexed :: generations =>
      (last <? g_generation indexed) && (g_generation indexed <? next) && in_order (g_generation indexed) next generations
  end.
Definition into_index (record : Index) : bool :=
  (0 <? i_next record) && (length (i_generations record) <=? MAX_GENERATIONS)%nat
  && in_order 0 (i_next record) (i_generations record).

(** ** Files *)

(** The entries that the transactions read and change. *)
Inductive File : Type :=
| StoreDir
| IndexFile
| LeasesDir
| TombstonesDir
| LeaseFile (id : LeaseId)
| TombstoneFile (generation : Z)
| PayloadDir (generation : Z)
| CloneSocket (generation : Z) (launch : LaunchId)
| Transaction (slot : list byte)
| SandboxDir (sandbox : Path)
| Binding (sandbox : Path)
| Journal (sandbox : Path)
| Runtime (sandbox : Path)
| Config (sandbox : Path)
| CloneKept (sandbox : Path) (name : nat).
#[export] Instance File_eq_dec : EqDecision File.
Proof. solve_decision. Defined.

(** The directories that they sync. *)
Inductive Dir : Type :=
| StoreParent
| StoreEntries
| LeaseEntries
| TombstoneEntries
| GenerationEntries
| PayloadEntries (generation : Z)
| SlotEntries (slot : list byte)
| HolderEntries (dir : Path)
| SandboxEntries (sandbox : Path).
#[export] Instance Dir_eq_dec : EqDecision Dir.
Proof. solve_decision. Defined.

(** What a file holds. [Payload None] is a payload of which something is missing, which no check
    of an envelope accepts. *)
Inductive Content : Type :=
| Directory
| IndexRecord (store : StoreId) (index : Index)
| LeaseRecord (lease : Lease)
| TombstoneRecord (store : StoreId) (generation : Z)
| Payload (envelope : option Envelope)
| Opaque.

Inductive Kind : Type := IsDir | NotDir.

(** An entry of the directory of the leases or of the tombstones, as its name parses. *)
Inductive Entry (A : Type) : Type :=
| Named_record (record : A)
| Temporary (name : list byte)
| Foreign (name : list byte).
Arguments Named_record {A} record.
Arguments Temporary {A} name.
Arguments Foreign {A} name.

(** ** Calls to the host *)

(** Why a call fails. *)
Inductive Fault : Type :=
| Missing
| Busy
| Unrepresentable
| OtherFormat
| Broken.

Inductive Action : Type -> Type :=
| LockStore : Action unit
| UnlockStore : Action unit
| LockSandbox (sandbox : Path) : Action unit
| UnlockSandbox (sandbox : Path) : Action unit
| Reserve (sandbox : Path) (launch : option LaunchId) : Action unit
| Read (file : File) : Action (option Content)
| Write (file : File) (content : Content) : Action unit
| MakeDir (file : File) : Action unit
| Remove (file : File) : Action unit
| Spoil (generation : Z) : Action unit
| Rename (slot : list byte) (generation : Z) : Action unit
| Sync (dir : Dir) : Action unit
| ListLeases : Action (list (Entry LeaseId))
| ListTombstones : Action (list (Entry Z))
| RemoveTemporary (name : list byte) : Action unit
| DrawLease : Action (LeaseId * LaunchId)
| Resolve (path : list byte) : Action Path
| Stat (path : Path) : Action Kind
| Lstat (path : Path) : Action Kind
| Examine : Action bool
| Known (dir : File) : Action bool
| Remember (dir : File) : Action unit.

Inductive Prog (R : Type) : Type :=
| Done (r : R)
| Do {A : Type} (a : Action A) (k : result Fault A -> Prog R).
Arguments Done {R} r.
Arguments Do {R A} a k.

Fixpoint andThen {R S} (p : Prog R) (f : R -> Prog S) : Prog S :=
  match p with
  | Done r => f r
  | Do a k => Do a (fun answer => andThen (k answer) f)
  end.
#[export] Instance Prog_bind : MBind Prog := fun _ _ f p => andThen p f.

Definition perform {A} (a : Action A) : Prog (result Fault A) := Do a Done.

(** ** Errors *)

Inductive Error : Type :=
| NotFound
| TimedOut
| Unsupported
| Io
| Other
| FormatUnsupported
| ForeignFiles
| TemplateTombstoned
| TemplateIneligible
| SandboxNotProvisioned
| SandboxRunning
| SandboxLeased
| HeldStill (error : Error).

(** [store_error], and the error of a record of another format. *)
Definition store_error (fault : Fault) : Error :=
  match fault with
  | Missing => NotFound
  | OtherFormat => FormatUnsupported
  | Busy => TimedOut
  | Unrepresentable | Broken => Io
  end.

Abbreviation fallible := (fun A => Prog (result Error A)).

Definition fail {A} (error : Error) : fallible A := Done (Err error).
Definition succeed {A} (a : A) : fallible A := Done (Ok a).

(** The [?] of a [Result]. *)
Definition attempt {E A B} (p : Prog (result E A)) (f : A -> Prog (result E B)) : Prog (result E B) :=
  andThen p (fun r => match r with Ok a => f a | Err error => Done (Err error) end).

(** [Result::map_err] of what a program returns. *)
Definition failing {E F A} (p : Prog (result E A)) (f : E -> F) : Prog (result F A) :=
  andThen p (fun r => Done (map_err f r)).
Notation "'let?' x ':=' p 'in' q" := (attempt p (fun x => q))
  (at level 10, x name, p at level 100, q at level 200) : nvx_scope.
Notation "'let!' x ':=' p 'in' q" := (andThen p (fun x => q))
  (at level 10, x name, p at level 100, q at level 200) : nvx_scope.

(** A call whose failure ends the transaction. *)
Definition call {A} (a : Action A) : fallible A := Do a (fun r => Done (map_err store_error r)).

Section Store.
Context (self : StoreId).

(** [take_lock], and the drop of its file as its scope ends. *)
Definition locked {A} (transaction : fallible A) : fallible A :=
  let? _ := call LockStore in
  let! result := transaction in
  let! _ := perform UnlockStore in
  Done result.

(** [Store::index]. *)
Definition index : fallible Index :=
  let? record := call (Read IndexFile) in
  match record with
  | Some (IndexRecord store record) =>
      if negb (bool_decide (store = self)) then fail Io
      else if into_index record then succeed record else fail Io
  | _ => fail Io
  end.

Definition write_index (index : Index) : fallible unit := call (Write IndexFile (IndexRecord self index)).

(** [check_records_dir], and [check_owner_only_dir] of any directory. *)
Definition check_records_dir (dir : File) : fallible bool :=
  let! checked := perform (Read dir) in
  match checked with
  | Err Missing | Ok None => succeed false
  | Err fault => fail (store_error fault)
  | Ok (Some _) => succeed true
  end.

Definition check_generations_dir : fallible unit :=
  let? _ := call Examine in
  succeed tt.

(** [remove_if_present], [remove_lease_record], and [Directory::remove_file]. *)
Definition remove_if_present (file : File) : fallible unit :=
  let! removed := perform (Remove file) in
  match removed with
  | Ok _ | Err Missing => succeed tt
  | Err fault => fail (store_error fault)
  end.

(** [read_lease] of the store. *)
Definition read_lease (id : LeaseId) : fallible (option Lease) :=
  let? record := call (Read (LeaseFile id)) in
  match record with
  | None => succeed None
  | Some (LeaseRecord lease) =>
      if negb (bool_decide (l_id lease = id)) || negb (bool_decide (l_store lease = self)) then fail Io
      else succeed (Some lease)
  | Some _ => fail Io
  end.

(** [read_binding] and [read_binding_in]. *)
Definition read_binding (sandbox : Path) : fallible (option Lease) :=
  let? record := call (Read (Binding sandbox)) in
  match record with
  | None => succeed None
  | Some (LeaseRecord lease) => succeed (Some lease)
  | Some _ => fail Io
  end.

Definition read_tombstone (generation : Z) : fallible bool :=
  let? record := call (Read (TombstoneFile generation)) in
  match record with
  | None => succeed false
  | Some (TombstoneRecord store recorded) =>
      if negb (bool_decide (store = self)) || negb (recorded =? generation) then fail Io else succeed true
  | Some _ => fail Io
  end.

Definition is_tombstoned (generation : Z) : fallible bool :=
  let? exists_ := check_records_dir TombstonesDir in
  if exists_ then read_tombstone generation else succeed false.

(** [create_records_dir]: the parent of a store's directory always exists but for the root. *)
Definition create_records_dir (dir : File) : fallible unit :=
  let? exists_ := check_records_dir dir in
  let? durable :=
    (if exists_ then call (Known dir)
     else let? _ := call (MakeDir dir) in succeed false) in
  if durable then succeed tt
  else
    let? _ := call (Sync StoreEntries) in
    let? _ := call (Sync StoreParent) in
    call (Remember dir).

Definition write_tombstone (generation : Z) : fallible unit :=
  let? tombstoned := is_tombstoned generation in
  let? _ :=
    (if tombstoned then succeed tt
     else
       let? _ := create_records_dir TombstonesDir in
       call (Write (TombstoneFile generation) (TombstoneRecord self generation))) in
  call (Sync TombstoneEntries).

Definition remove_tombstone (generation : Z) : fallible unit :=
  let? tombstoned := is_tombstoned generation in
  if tombstoned then remove_if_present (TombstoneFile generation) else succeed tt.

(** [fs::remove_dir_all] of a payload: something in it goes first. *)
Definition remove_dir_all (generation : Z) : fallible unit :=
  let! spoiled := perform (Spoil generation) in
  match spoiled with
  | Ok _ => remove_if_present (PayloadDir generation)
  | Err Missing => succeed tt
  | Err fault => fail (store_error fault)
  end.

Definition remove_payload (generation : Z) : fallible unit :=
  let? _ := check_generations_dir in
  let? exists_ := check_records_dir (PayloadDir generation) in
  if exists_ then remove_dir_all generation else succeed tt.

(** [records]: the records and the temporary files that a directory lists. *)
Definition foreign {A} (entry : Entry A) : bool := match entry with Foreign _ => true | _ => false end.
Definition records {A} (dir : File) (listing : Action (list (Entry A))) : fallible (list A * list (list byte))%type :=
  let? exists_ := check_records_dir dir in
  if negb exists_ then succeed ([], [])
  else
    let? listed := call listing in
    if existsb foreign listed then fail ForeignFiles
    else succeed (omap (fun entry => match entry with Named_record record => Some record | _ => None end) listed,
                  omap (fun entry => match entry with Temporary name => Some name | _ => None end) listed).

(** ** Acquisition *)

(** [check_payload]: the payload opens, and is private to the current user. *)
Definition check_payload (generation : Z) : fallible unit :=
  let? payload := call (Read (PayloadDir generation)) in
  match payload with
  | None => fail Io
  | Some _ => let? private := call Examine in if private then succeed tt else fail Io
  end.

Definition bind (sandbox : Path) (lease : Lease) : fallible unit :=
  let? _ := call (Write (Binding sandbox) (LeaseRecord lease)) in
  call (Sync (SandboxEntries sandbox)).

Definition unbind (sandbox : Path) : fallible unit :=
  let? _ := remove_if_present (Binding sandbox) in
  call (Sync (SandboxEntries sandbox)).

(** [Path::to_str] is [Some]. *)
Definition is_unicode (path : Path) : bool :=
  forallb (fun component => match component with Normal name => is_utf8 name | _ => true end) path.

(** From the draw of the lease on. *)
Definition grant (indexed : Generation) (sandbox : Path) : fallible Lease :=
  let? drawn := call DrawLease in
  let lease := mkLease drawn.1 self (g_generation indexed) (g_key indexed) sandbox drawn.2 in
  let? _ := create_records_dir LeasesDir in
  let? _ := call (Write (LeaseFile (l_id lease)) (LeaseRecord lease)) in
  let! synced := call (Sync LeaseEntries) in
  match synced with
  | Err error => let! _ := remove_if_present (LeaseFile (l_id lease)) in fail error
  | Ok _ =>
      let! bound := bind sandbox lease in
      match bound with
      | Ok _ => succeed lease
      | Err error =>
          let! unbound := unbind sandbox in
          match unbound with
          | Err _ => fail (HeldStill error)
          | Ok _ => let! _ := remove_if_present (LeaseFile (l_id lease)) in fail error
          end
      end
  end.

(** What the acquisition checks of the sandbox whose lock it took, whose caller declares a
    configuration record if [config]. *)
Definition check_sandbox (sandbox : Path) (config : bool) : fallible unit :=
  let? provisioned :=
    (if config then let? record := check_records_dir (Config sandbox) in succeed record else succeed true) in
  if negb provisioned then fail SandboxNotProvisioned
  else
    let? journal := call (Read (Journal sandbox)) in
    let? runtime := (if is_some journal then succeed None else call (Read (Runtime sandbox))) in
    if is_some journal || is_some runtime then fail SandboxRunning
    else
      let? held := read_binding sandbox in
      if is_some held then fail SandboxLeased
      else if negb (is_unicode sandbox) then fail Unsupported
      else succeed tt.

(** The lock of the sandbox goes with every failure, and stays with the lease that it guards. *)
Definition guarded {A} (sandbox : Path) (transaction : fallible A) : fallible A :=
  let! result := transaction in
  match result with
  | Ok a => succeed a
  | Err error => let! _ := perform (UnlockSandbox sandbox) in fail error
  end.

Definition not_provisioned (fault : Fault) : Error :=
  match fault with
  | Missing => SandboxNotProvisioned
  | Unrepresentable => Unsupported
  | fault => store_error fault
  end.

(** [acquire_with]. *)
Definition acquire (generation : Z) (sandbox : list byte) (config : bool) (time : HostTime) : fallible Lease :=
  let? lease :=
    locked
      (let? index := index in
       match get index generation with
       | None => fail NotFound
       | Some indexed =>
           let? tombstoned := is_tombstoned generation in
           if tombstoned then fail TemplateTombstoned
           else if negb (is_eligible (eligibility (g_time indexed) time)) then fail TemplateIneligible
           else
             let? _ := check_payload generation in
             let! resolved := perform (Resolve sandbox) in
             match resolved with
             | Err fault => fail (not_provisioned fault)
             | Ok dir =>
                 let! held := perform (LockSandbox dir) in
                 match held with
                 | Err fault => fail (not_provisioned fault)
                 | Ok _ => guarded dir (let? _ := check_sandbox dir config in grant indexed dir)
                 end
             end
       end) in
  let! _ := perform (Reserve (l_sandbox lease) (Some (l_launch lease))) in
  succeed lease.

(** ** Release *)

(** [CLONE_FILE_NAMES]: the scratch file, the activation record, the socket of the restore-ready
    event, the progress log, and the failure record of a clone. *)
Definition CLONE_FILE_NAMES : list nat := [0; 1; 2; 3; 4]%nat.

Fixpoint remove_clone_files (sandbox : Path) (names : list nat) : fallible unit :=
  match names with
  | [] => succeed tt
  | name :: names => let? _ := remove_if_present (CloneKept sandbox name) in remove_clone_files sandbox names
  end.

(** The sandbox records no VM and no launch. *)
Definition check_stopped (sandbox : Path) : fallible unit :=
  let? journal := call (Read (Journal sandbox)) in
  if is_some journal then fail SandboxRunning
  else
    let? runtime := call (Read (Runtime sandbox)) in
    if is_some runtime then fail SandboxRunning else succeed tt.

(** [release_with], under the lock of the sandbox. *)
Definition release (sandbox : Path) : fallible (option Lease) :=
  let? holds_lock := call Examine in
  if negb holds_lock then fail Other
  else
    let? _ := check_stopped sandbox in
    let? held := read_binding sandbox in
    match held with
    | None => succeed None
    | Some lease =>
        if negb (bool_decide (l_store lease = self)) then fail Other
        else if negb (bool_decide (sandbox = l_sandbox lease)) then fail Other
        else
          let? recorded := check_records_dir LeasesDir in
          let? payload := call (Read (PayloadDir (l_generation lease))) in
          let! _ := perform (Reserve sandbox None) in
          let? _ := remove_clone_files sandbox CLONE_FILE_NAMES in
          let? _ :=
            (if is_some payload then
               let? _ := remove_if_present (CloneSocket (l_generation lease) (l_launch lease)) in
               call (Sync (PayloadEntries (l_generation lease)))
             else succeed tt) in
          let? _ := remove_if_present (Binding sandbox) in
          let? _ := call (Sync (SandboxEntries sandbox)) in
          let? _ := (if recorded then remove_if_present (LeaseFile (l_id lease)) else succeed tt) in
          succeed (Some lease)
    end.

(** ** Tombstones *)

(** [Store::tombstone]. *)
Definition tombstone (generation : Z) : fallible unit :=
  locked
    (let? index := index in
     match get index generation with
     | None => fail NotFound
     | Some _ => write_tombstone generation
     end).

(** ** Retirement *)

Inductive Retirement : Type :=
| Retired
| Draining (leases : list Lease).

(** [is_bound]. *)
Definition is_bound (lease : Lease) : fallible bool :=
  let? held := read_binding (l_sandbox lease) in
  succeed (match held with
           | Some binding =>
               bool_decide (l_id binding = l_id lease) && bool_decide (l_store binding = l_store lease)
           | None => false
           end).

(** [Path::ancestors] without the path itself: its components reversed, the last dropped first. *)
Fixpoint above (reversed : list Component) : list Path :=
  match reversed with
  | [] => []
  | _ :: rest => match rest with [] => [] | _ => rev rest :: above rest end
  end.
Definition ancestors (path : Path) : list Path := above (rev path).

(** The nearest of the ancestors that is a directory. *)
Fixpoint holding_dir (ancestors : list Path) : fallible Path :=
  match ancestors with
  | [] => fail Io
  | ancestor :: ancestors =>
      let! found := perform (Stat ancestor) in
      match found with
      | Ok IsDir => succeed ancestor
      | Ok NotDir => holding_dir ancestors
      | Err Missing =>
          let! link := perform (Lstat ancestor) in
          match link with
          | Ok _ => fail Io
          | Err _ => holding_dir ancestors
          end
      | Err _ => fail Io
      end
  end.

(** [binding_dirs]. *)
Definition binding_dirs (sandbox : Path) : fallible (list Dir) :=
  let! examined := perform (Lstat sandbox) in
  let own := match examined with Ok IsDir => [SandboxEntries sandbox] | _ => [] end in
  let? holder := holding_dir (ancestors sandbox) in
  succeed (own ++ [HolderEntries holder]).

Fixpoint sync_all (dirs : list Dir) : fallible unit :=
  match dirs with
  | [] => succeed tt
  | dir :: dirs => let? _ := call (Sync dir) in sync_all dirs
  end.

Fixpoint remove_temporaries (names : list (list byte)) : fallible unit :=
  match names with
  | [] => succeed tt
  | name :: names =>
      let! removed := perform (RemoveTemporary name) in
      match removed with
      | Ok _ | Err Missing => remove_temporaries names
      | Err fault => fail (store_error fault)
      end
  end.

(** The leases of the generation that are bound still; the records of the others go. *)
Fixpoint drain (generation : Z) (ids : list LeaseId) (live : list Lease) : fallible (list Lease) :=
  match ids with
  | [] => succeed live
  | id :: ids =>
      let? read := read_lease id in
      match read with
      | None => drain generation ids live
      | Some lease =>
          if negb (l_generation lease =? generation) then drain generation ids live
          else
            let? bound := is_bound lease in
            if bound then drain generation ids (live ++ [lease])
            else
              let? dirs := binding_dirs (l_sandbox lease) in
              let? _ := sync_all dirs in
              let? _ := remove_if_present (LeaseFile id) in
              drain generation ids live
      end
  end.

Definition sort_leases (leases : list Lease) : list Lease :=
  merge_sort (fun a b => at_most compare_bytes (l_id a) (l_id b)) leases.

(** [Vec::retain] of the generations with another number. *)
Definition without (generation : Z) (index : Index) : Index :=
  mkIndex (i_next index) (List.filter (fun indexed => negb (g_generation indexed =? generation)) (i_generations index)).

(** From the end of the leases on. *)
Definition delete_generation (index : Index) (generation : Z) : fallible Retirement :=
  let? _ := remove_payload generation in
  let? _ := call (Sync GenerationEntries) in
  let? _ := write_index (without generation index) in
  let? _ := call (Sync StoreEntries) in
  let? _ := remove_tombstone generation in
  succeed Retired.

(** [retire_with]. *)
Definition retire (generation : Z) : fallible Retirement :=
  locked
    (let? index := index in
     match get index generation with
     | None =>
         if i_next index <=? generation then fail NotFound
         else
           let? _ := call (Sync StoreEntries) in
           let? _ := remove_tombstone generation in
           succeed Retired
     | Some _ =>
         let? leases := records LeasesDir ListLeases in
         let? tombstones := records TombstonesDir ListTombstones in
         let? _ := write_tombstone generation in
         let? _ := remove_temporaries (leases.2 ++ tombstones.2) in
         let? live := drain generation leases.1 [] in
         match live with
         | [] => delete_generation index generation
         | _ => succeed (Draining (sort_leases live))
         end
     end).

(** ** Publication *)

(** [sync_store] and [commit_index]. *)
Definition sync_store : fallible unit :=
  let? _ := call (Sync StoreEntries) in
  call (Sync StoreParent).
Definition commit_index (index : Index) : fallible unit :=
  let? _ := write_index index in
  sync_store.

(** [following]: [checked_add] of a store generation. *)
Definition following (generation : Z) : result Error Z :=
  if generation <? U64_MAX then Ok (generation + 1) else Err Unsupported.

(** [read_envelope]: an envelope of which something is missing is refused. *)
Definition read_envelope (generation : Z) : fallible Envelope :=
  let? payload := call (Read (PayloadDir generation)) in
  match payload with
  | Some (Payload (Some envelope)) =>
      let? exact := call Examine in
      if exact then succeed envelope else fail Io
  | _ => fail Io
  end.

(** The generations of the index whose payloads are not gone. *)
Fixpoint keep_present (generations : list Generation) : fallible (list Generation) :=
  match generations with
  | [] => succeed []
  | indexed :: generations =>
      let! payload := perform (Read (PayloadDir (g_generation indexed))) in
      let? kept := keep_present generations in
      succeed (match payload with Ok None | Err Missing => kept | _ => indexed :: kept end)
  end.

(** The publications that were interrupted: the index takes the payload at its next store
    generation until there is none. It takes at most [MAX_GENERATIONS], which bounds the loop. *)
Fixpoint complete (fuel : nat) (index : Index) (completed : list Generation) : fallible (Index * list Generation)%type :=
  match fuel with
  | O => fail Unsupported
  | S fuel =>
      let! payload := perform (Read (PayloadDir (i_next index))) in
      match payload with
      | Ok None | Err Missing => succeed (index, completed)
      | Err fault => fail (store_error fault)
      | Ok (Some _) =>
          if (MAX_GENERATIONS <=? length (i_generations index))%nat then fail Unsupported
          else
            let? envelope := read_envelope (i_next index) in
            let generation := numbered envelope (i_next index) in
            let? _ := call (Sync (PayloadEntries (i_next index))) in
            let? next := Done (following (i_next index)) in
            complete fuel (mkIndex next (i_generations index ++ [generation])) (completed ++ [generation])
      end
  end.

Definition slot_name (class : list byte) : list byte := take 8 class.

(** The slots that the completed envelopes left, those of them that are directories. *)
Fixpoint sync_slots (slots : list (list byte)) : fallible unit :=
  match slots with
  | [] => succeed tt
  | slot :: slots =>
      let? is_dir := call Examine in
      let? _ := (if is_dir then call (Sync (SlotEntries slot)) else succeed tt) in
      sync_slots slots
  end.

(** [recover_index], which returns the index and whether it changed. *)
Definition recover_index (index : Index) : fallible (Index * list Generation * bool)%type :=
  let? _ := check_generations_dir in
  let? kept := keep_present (i_generations index) in
  let dropped := negb (length kept =? length (i_generations index))%nat in
  let? recovered := complete (S MAX_GENERATIONS) (mkIndex (i_next index) kept) [] in
  let completed := recovered.2 in
  let? _ :=
    (if bool_decide (completed = []) then succeed tt
     else
       let? _ := call (Sync GenerationEntries) in
       sync_slots (dedup (merge_sort (at_most compare_bytes) (slot_name ∘ g_class <$> completed)))) in
  succeed (recovered.1, completed, dropped || negb (bool_decide (completed = []))).

(** [publish] of the checked transaction in the slot [slot]. *)
Definition publish (slot : list byte) (envelope : Envelope) : fallible (Generation * list Generation)%type :=
  locked
    (let? index := index in
     let? recovered := recover_index index in
     let index := recovered.1.1 in
     if (MAX_GENERATIONS <=? length (i_generations index))%nat then
       let? _ := (if recovered.2 then commit_index index else succeed tt) in
       fail Unsupported
     else
       let? _ := call (Rename slot (i_next index)) in
       let? _ := call (Sync GenerationEntries) in
       let? _ := call (Sync (SlotEntries slot)) in
       let published := numbered envelope (i_next index) in
       let? next := Done (following (i_next index)) in
       let? _ := commit_index (mkIndex next (i_generations index ++ [published])) in
       succeed (published, recovered.1.2)).

(** [recover_publications]. *)
Definition recover_publications : fallible (list Generation) :=
  locked
    (let? index := index in
     let? recovered := recover_index index in
     let? _ := (if recovered.2 then commit_index recovered.1.1 else succeed tt) in
     succeed recovered.1.2).

(** ** Removal of a sandbox *)

Inductive RemovalError : Type :=
| Undeclared
| Launched
| ForeignEntries
| RemovalIo.

Definition removal_error (error : Error) : RemovalError :=
  match error with SandboxRunning => Launched | _ => RemovalIo end.

(** [LockedStore::unbind] of lifecycle.rs. *)
Definition unbind_removed (sandbox : Path) : fallible unit :=
  let? holds_lock := call Examine in
  if negb holds_lock then fail Io
  else
    let? _ := check_stopped sandbox in
    let? _ := remove_clone_files sandbox CLONE_FILE_NAMES in
    let? _ := remove_if_present (Binding sandbox) in
    call (Sync (SandboxEntries sandbox)).

(** [remove_contents]: the other files of the sandbox are its journal, its runtime record and its
    configuration record, which goes last; then the directory holds nothing of anyone else. *)
Definition remove_contents (sandbox : Path) (config : bool) : Prog (result RemovalError unit) :=
  if negb config then Done (Err Undeclared)
  else
    let? _ := failing (unbind_removed sandbox) removal_error in
    let? _ := failing (remove_if_present (Journal sandbox)) (fun _ => RemovalIo) in
    let? _ := failing (remove_if_present (Runtime sandbox)) (fun _ => RemovalIo) in
    let? _ := failing (remove_if_present (Config sandbox)) (fun _ => RemovalIo) in
    let? ours := failing (call Examine) (fun _ => RemovalIo) in
    if negb ours then Done (Err ForeignEntries) else Done (Ok tt).

(** [LockedStore::remove], under the lock of the sandbox, whose caller declares a configuration
    record if [config]. The lock's file goes with the directory, as the lock does. *)
Definition remove (sandbox : Path) (config : bool) : Prog (result RemovalError unit) :=
  let! removed :=
    (let? _ := remove_contents sandbox config in
     failing (remove_if_present (SandboxDir sandbox)) (fun _ => RemovalIo)) in
  let! _ := perform (UnlockSandbox sandbox) in
  Done removed.

(** ** Queries *)

Fixpoint read_leases (generation : Z) (ids : list LeaseId) : fallible (list Lease) :=
  match ids with
  | [] => succeed []
  | id :: ids =>
      let? read := read_lease id in
      let? leases := read_leases generation ids in
      succeed (match read with
               | Some lease => if l_generation lease =? generation then lease :: leases else leases
               | None => leases
               end)
  end.

(** [Store::leases]. *)
Definition leases (generation : Z) : fallible (list Lease) :=
  let? listed := records LeasesDir ListLeases in
  let? leases := read_leases generation listed.1 in
  succeed (sort_leases leases).

Fixpoint read_tombstones (generations : list Z) : fallible (list Z) :=
  match generations with
  | [] => succeed []
  | generation :: generations =>
      let? tombstoned := read_tombstone generation in
      let? rest := read_tombstones generations in
      succeed (if tombstoned then generation :: rest else rest)
  end.

(** [Store::tombstones]. *)
Definition tombstones : fallible (list Z) :=
  let? listed := records TombstonesDir ListTombstones in
  let? tombstoned := read_tombstones listed.1 in
  succeed (merge_sort Z.le tombstoned).

(** [Store::select]. *)
Definition select (key : list byte) (time : HostTime) : fallible (option Generation) :=
  let? index := index in
  let? tombstoned := tombstones in
  succeed (List.find (fun generation =>
                        bool_decide (g_key generation = key) && negb (bool_decide (g_generation generation ∈ tombstoned))
                        && is_eligible (eligibility (g_time generation) time))
             (rev (i_generations index))).

End Store.
