(* ===== verification/LeaseDisk.v ===== *)
(** * The host of the store's transactions: its disk, its crashes, and its processes

    A directory entry is a cell: what it holds now, and what it held before that a crash of the
    host may bring back, until a sync of its directory makes the present durable
    (src/nvx-rs/src/host/store/files.rs, [write_private], [sync_dir], [remove_if_present]). A crash
    picks, of each cell, one of these, and loses what a lost directory held. The processes of the
    host run the transactions of [LeaseStore] concurrently, each call a step, under the store's
    lock and the sandboxes' locks; a process may be killed between any two calls. *)

From stdpp Require Import functions.
From S2P Require Import Prelude HostPaths Manifest Eligibility LeaseStore.

(** ** The disk *)

Record Cell := mkCell {
  present : option Content;
  past : list (option Content);
}.

Definition possible (self : Cell) : list (option Content) := present self :: past self.

(** A cell that a sync made durable. *)
Definition settled (content : option Content) : Cell := mkCell content [].

(** A cell that changes. *)
Definition pushed (content : option Content) (self : Cell) : Cell := mkCell content (possible self).

(** The directory whose sync makes an entry durable. *)
Definition dir_of (file : File) : Dir :=
  match file with
  | StoreDir => StoreParent
  | IndexFile | LeasesDir | TombstonesDir => StoreEntries
  | LeaseFile _ => LeaseEntries
  | TombstoneFile _ => TombstoneEntries
  | PayloadDir _ => GenerationEntries
  | CloneSocket generation _ => PayloadEntries generation
  | Transaction slot => SlotEntries slot
  | SandboxDir sandbox => HolderEntries (removelast sandbox)
  | Binding sandbox | Journal sandbox | Runtime sandbox | Config sandbox | CloneKept sandbox _ => SandboxEntries sandbox
  end.

(** The directories that hold an entry, and that an entry goes with. *)
Definition holders (file : File) : list File :=
  match file with
  | StoreDir | SandboxDir _ => []
  | IndexFile | LeasesDir | TombstonesDir | PayloadDir _ | Transaction _ => [StoreDir]
  | LeaseFile _ => [StoreDir; LeasesDir]
  | TombstoneFile _ => [StoreDir; TombstonesDir]
  | CloneSocket generation _ => [StoreDir; PayloadDir generation]
  | Binding sandbox | Journal sandbox | Runtime sandbox | Config sandbox | CloneKept sandbox _ => [SandboxDir sandbox]
  end.

(** What the paths of a disk name: an entry of a directory that is gone is gone. *)
Definition held (contents : File -> option Content) (file : File) : bool :=
  forallb (fun dir => is_some (contents dir)) (holders file).
Definition close (contents : File -> option Content) (file : File) : option Content :=
  if held contents file then contents file else None.

(** ** The state of a host *)

(** A thread: its process, and its number in it. *)
Abbreviation Thread := (nat * nat)%type.

(** [drawn] are the identities of leases that were drawn, and [bound] those that a binding ever
    named. *)
Record State := mkState {
  disk : File -> Cell;
  store_lock : option Thread;
  sandbox_lock : Path -> option Thread;
  reserved : Path -> option LaunchId;
  drawn : list LeaseId;
  bound : list LeaseId;
  durable_dirs : nat -> list File;
}.

#[export] Instance State_eta : Eta State := fun st =>
  mkState (disk st) (store_lock st) (sandbox_lock st) (reserved st) (drawn st) (bound st) (durable_dirs st).

Definition contents (st : State) (file : File) : option Content := present (disk st file).
Definition seen (st : State) : File -> option Content := close (contents st).

(** An entry takes [content]. *)
Definition put (file : File) (content : option Content) (st : State) : State :=
  st <| disk := <[file := pushed content (disk st file)]> (disk st) |>.

Definition names_lease (file : File) (content : Content) : list LeaseId :=
  match file, content with Binding _, LeaseRecord lease => [l_id lease] | _, _ => [] end.

(** [write_private]: the record takes the place of the file, once its directory holds it. *)
Definition written (file : File) (content : Content) (st : State) : State :=
  put file (Some content) st <| bound := names_lease file content ++ bound st |>.

(** [sync_dir]. *)
Definition synced (dir : Dir) (st : State) : State :=
  st <| disk := fun file => if decide (dir_of file = dir) then settled (contents st file) else disk st file |>.

(** A sync that failed made some of the entries durable. *)
Definition partly_synced (dir : Dir) (st st' : State) : Prop :=
  exists cells, st' = st <| disk := cells |>
    /\ forall file, cells file = disk st file \/ (dir_of file = dir /\ cells file = settled (contents st file)).

(** The lock of a sandbox goes, with what it reserves. *)
Definition unlocked (sandbox : Path) (st : State) : State :=
  st <| sandbox_lock := <[sandbox := None]> (sandbox_lock st) |> <| reserved := <[sandbox := None]> (reserved st) |>.

(** ** Calls *)

Section Host.
(** Whether the examination of an existing directory by its path may fail. *)
Context (faulty : bool).

(** A change that a call makes if it succeeds, and that it may have made if it fails. *)
Definition changes {A} (a : A) (changed : State -> Prop) (st : State) (r : result Fault A) (st' : State) : Prop :=
  match r with
  | Ok a' => a' = a /\ changed st'
  | Err fault => fault <> Missing /\ (st' = st \/ changed st')
  end.

(** A listing names every entry that is there. *)
Definition lists {A} (file : A -> File) (st : State) (entries : list (Entry A)) : Prop :=
  forall a, is_some (seen st (file a)) = true -> Named_record a ∈ entries.

Definition acts (i : Thread) {A} (a : Action A) (st : State) : result Fault A -> State -> Prop :=
  match a in Action A return result Fault A -> State -> Prop with
  | LockStore => fun r st' =>
      match r with
      | Ok _ => store_lock st = None /\ is_some (seen st StoreDir) = true /\ st' = st <| store_lock := Some i |>
      | Err _ => st' = st
      end
  | UnlockStore => fun r st' => store_lock st = Some i /\ st' = st <| store_lock := None |>
  | LockSandbox sandbox => fun r st' =>
      match r with
      | Ok _ => sandbox_lock st sandbox = None /\ is_some (seen st (SandboxDir sandbox)) = true
                /\ st' = st <| sandbox_lock := <[sandbox := Some i]> (sandbox_lock st) |>
      | Err _ => st' = st
      end
  | UnlockSandbox sandbox => fun r st' => sandbox_lock st sandbox = Some i /\ st' = unlocked sandbox st
  | Reserve sandbox launch => fun r st' => st' = st <| reserved := <[sandbox := launch]> (reserved st) |>
  | Read file => fun r st' =>
      st' = st /\ match r with Ok content => content = seen st file | Err fault => (fault = Missing -> seen st file = None) end
  | Write file content => changes tt (fun st' => held (contents st) file = true /\ st' = written file content st) st
  | MakeDir file => changes tt (fun st' => held (contents st) file = true /\ contents st file = None /\ st' = put file (Some Directory) st) st
  | Remove file => fun r st' =>
      if is_some (seen st file) then changes tt (fun st' => st' = put file None st) st r st'
      else r = Err Missing /\ st' = st
  | Spoil generation => fun r st' =>
      st' = st \/ (is_some (seen st (PayloadDir generation)) = true /\ st' = put (PayloadDir generation) (Some (Payload None)) st)
  | Rename slot generation =>
      changes tt (fun st' => contents st (PayloadDir generation) = None
        /\ exists envelope, seen st (Transaction slot) = Some (Payload (Some envelope))
           /\ st' = put (Transaction slot) None (put (PayloadDir generation) (Some (Payload (Some envelope))) st)) st
  | Sync dir => fun r st' => match r with Ok _ => st' = synced dir st | Err _ => partly_synced dir st st' end
  | ListLeases => fun r st' => st' = st /\ match r with Ok entries => lists LeaseFile st entries | Err _ => True end
  | ListTombstones => fun r st' => st' = st /\ match r with Ok entries => lists TombstoneFile st entries | Err _ => True end
  | RemoveTemporary _ => fun r st' => st' = st
  | DrawLease => fun r st' =>
      match r with
      | Ok (id, _) => (id ∉ drawn st) /\ st' = st <| drawn := id :: drawn st |>
      | Err _ => st' = st
      end
  | Resolve _ => fun r st' => st' = st
  | Stat _ => fun r st' => st' = st
  | Lstat path => fun r st' =>
      st' = st /\ (if is_some (seen st (SandboxDir path)) then r = Ok IsDir \/ (faulty = true /\ is_ok r = false) else r <> Ok IsDir)
  | Examine => fun r st' => st' = st
  | Known dir => fun r st' => st' = st /\ match r with Ok known => known = bool_decide (dir ∈ durable_dirs st i.1) | Err _ => True end
  | Remember dir => fun r st' =>
      st' = st \/ st' = st <| durable_dirs := <[i.1 := dir :: durable_dirs st i.1]> (durable_dirs st) |>
  end.
(** ** Processes *)

Inductive Op : Type :=
| Acquire (generation : Z) (sandbox : list byte) (config : bool) (time : HostTime)
| Release (sandbox : Path)
| Quarantine (generation : Z)
| Retire (generation : Z)
| Publish (slot : list byte) (envelope : Envelope)
| Recover
| RemoveSandbox (sandbox : Path) (config : bool)
| TakeLock (sandbox : Path)
| DropLock (sandbox : Path)
| Select (key : list byte) (time : HostTime)
| ListOf (generation : Z).

Inductive Outcome : Type :=
| OfLease (r : result Error Lease)
| OfRelease (r : result Error (option Lease))
| OfUnit (r : result Error unit)
| OfRetirement (r : result Error Retirement)
| OfPublication (r : result Error (Generation * list Generation))
| OfRecovery (r : result Error (list Generation))
| OfRemoval (r : result RemovalError unit)
| OfLock (r : result Fault unit)
| OfSelection (r : result Error (option Generation))
| OfLeases (r : result Error (list Lease)).

Context (self : StoreId).

Definition finish {R} (p : Prog R) (f : R -> Outcome) : Prog Outcome := andThen p (fun r => Done (f r)).

Definition program (op : Op) : Prog Outcome :=
  match op with
  | Acquire generation sandbox config time => finish (acquire self generation sandbox config time) OfLease
  | Release sandbox => finish (release self sandbox) OfRelease
  | Quarantine generation => finish (tombstone self generation) OfUnit
  | Retire generation => finish (retire self generation) OfRetirement
  | Publish slot envelope => finish (publish self slot envelope) OfPublication
  | Recover => finish (recover_publications self) OfRecovery
  | RemoveSandbox sandbox config => finish (remove sandbox config) OfRemoval
  | TakeLock sandbox => finish (perform (LockSandbox sandbox)) OfLock
  | DropLock sandbox => finish (perform (UnlockSandbox sandbox)) OfLock
  | Select key time => finish (select self key time) OfSelection
  | ListOf generation => finish (leases self generation) OfLeases
  end.

(** The operations of a sandbox's lock are its holder's. *)
Definition startable (i : Thread) (op : Op) (st : State) : Prop :=
  match op with
  | Release sandbox | RemoveSandbox sandbox _ | DropLock sandbox => sandbox_lock st sandbox = Some i
  | _ => True
  end.

Record System := mkSystem {
  state : State;
  running : Thread -> option (Op * Prog Outcome);
}.

(** A store that was just created, which no sync made durable. *)
Definition created (file : File) : Cell :=
  match file with
  | StoreDir => mkCell (Some Directory) [None]
  | IndexFile => mkCell (Some (IndexRecord self (mkIndex FIRST_GENERATION []))) [None]
  | _ => settled None
  end.
Definition initial : System :=
  mkSystem (mkState created None (fun _ => None) (fun _ => None) [] [] (fun _ => [])) (fun _ => None).

(** What the death of a process leaves: its locks are free. *)
Definition survives (process : nat) (holder : option Thread) : option Thread :=
  match holder with Some i => if decide (i.1 = process) then None else Some i | None => None end.
Definition killed (process : nat) (st : State) : State :=
  mkState (disk st) (survives process (store_lock st)) (fun sandbox => survives process (sandbox_lock st sandbox))
    (fun sandbox => if is_some (survives process (sandbox_lock st sandbox)) then reserved st sandbox else None)
    (drawn st) (bound st) (<[process := []]> (durable_dirs st)).

(** What a crash of the host leaves of the choice [choice]. *)
Definition chosen (st : State) (choice : File -> option Content) : Prop :=
  forall file, choice file ∈ possible (disk st file).
Definition crashed (choice : File -> option Content) (st : State) : State :=
  mkState (fun file => settled (close choice file)) None (fun _ => None) (fun _ => None) (drawn st) (bound st) (fun _ => []).

(** The files of a sandbox that its launches and its caller change. *)
Definition launched (sandbox : Path) (file : File) : bool :=
  match file with
  | Journal s | Runtime s | Config s | CloneKept s _ => bool_decide (s = sandbox)
  | CloneSocket _ _ => true
  | _ => false
  end.

Inductive step : System -> System -> Prop :=
| step_start i op sys :
    running sys i = None -> startable i op (state sys) ->
    step sys (mkSystem (state sys) (<[i := Some (op, program op)]> (running sys)))
| step_call i op {A} (a : Action A) k r st' sys :
    running sys i = Some (op, Do a k) -> acts i a (state sys) r st' ->
    step sys (mkSystem st' (<[i := Some (op, k r)]> (running sys)))
| step_finish i op r sys :
    running sys i = Some (op, Done r) ->
    step sys (mkSystem (state sys) (<[i := None]> (running sys)))
| step_kill process sys :
    step sys (mkSystem (killed process (state sys)) (fun i => if decide (i.1 = process) then None else running sys i))
| step_provision sandbox sys :
    sandbox_lock (state sys) sandbox = None ->
    step sys (mkSystem (put (SandboxDir sandbox) (Some Directory) (state sys)) (running sys))
| step_launch sandbox file content sys :
    launched sandbox file = true ->
    step sys (mkSystem (put file content (state sys)) (running sys))
| step_capture slot envelope sys :
    step sys (mkSystem (put (Transaction slot) (Some (Payload (Some envelope))) (state sys)) (running sys))
| step_crash choice sys :
    chosen (state sys) choice ->
    step sys (mkSystem (crashed choice (state sys)) (fun _ => None)).

Definition reachable : System -> Prop := rtc step initial.

End Host.
