(* ===== verification/LeaseLogic.v ===== *)
(** * The logic of the store's transactions

    What every state that a crash may leave keeps, [Good]; what every state keeps, [Inv]; what a
    transaction relies on of the others while it holds a lock, [rely]; and triples of programs,
    whose every call keeps the invariant and what the others rely on. *)

From stdpp Require Import functions.
From S2P Require Import Prelude HostPaths Manifest Eligibility LeaseStore LeaseDisk.

(** ** Disks *)

Lemma contents_put file content st other :
  contents (put file content st) other = if decide (other = file) then content else contents st other.
Proof.
  unfold contents, put. cbn. case_decide; subst; [by rewrite fn_lookup_insert|]. by rewrite fn_lookup_insert_ne by congruence.
Qed.

Lemma possible_put file content st other v :
  v ∈ possible (disk (put file content st) other) <-> v ∈ possible (disk st other) \/ (other = file /\ v = content).
Proof.
  unfold put. cbn. destruct (decide (other = file)) as [->|].
  - rewrite fn_lookup_insert. unfold pushed, possible at 1. cbn [present past]. rewrite elem_of_cons. naive_solver.
  - rewrite fn_lookup_insert_ne by congruence. naive_solver.
Qed.

Lemma contents_possible st file : contents st file ∈ possible (disk st file).
Proof. left. Qed.

Lemma contents_synced dir st file : contents (synced dir st) file = contents st file.
Proof. unfold contents, synced. cbn. by case_decide. Qed.

Lemma possible_synced dir st file v :
  v ∈ possible (disk (synced dir st) file) <-> (if decide (dir_of file = dir) then v = contents st file else v ∈ possible (disk st file)).
Proof. unfold synced. cbn -[possible]. case_decide; [|done]. unfold settled, possible. cbn [present past]. by rewrite list_elem_of_singleton. Qed.

Lemma seen_contents st file content : seen st file = Some content -> contents st file = Some content.
Proof. unfold seen, close. by destruct (held _ _). Qed.

Lemma seen_held st file : held (contents st) file = true -> seen st file = contents st file.
Proof. unfold seen, close. by intros ->. Qed.

(** ** What every choice of a crash keeps *)

Definition whole (content : option Content) : Prop := exists envelope, content = Some (Payload (Some envelope)).
Definition lists_generation (index : Index) (generation : Z) : Prop := generation ∈ g_generation <$> i_generations index.

(** A generation that is listed, and not quarantined, is whole; and the lease that a binding names
    is the sandbox's, is recorded, and is of a generation that is whole. *)
Record Good (choice : File -> option Content) : Prop := {
  good_listed store index generation :
    choice IndexFile = Some (IndexRecord store index) -> lists_generation index generation ->
    (choice TombstonesDir = None \/ choice (TombstoneFile generation) = None) -> whole (choice (PayloadDir generation));
  good_bound sandbox lease :
    choice (Binding sandbox) = Some (LeaseRecord lease) ->
    l_sandbox lease = sandbox /\ is_Some (choice StoreDir) /\ is_Some (choice LeasesDir)
    /\ choice (LeaseFile (l_id lease)) = Some (LeaseRecord lease) /\ whole (choice (PayloadDir (l_generation lease)));
}.

(** The directories that a store never removes. *)
Definition record_dir (file : File) : bool :=
  match file with StoreDir | LeasesDir | TombstonesDir => true | _ => false end.

(** Every value that the entry may have. *)
Definition always (st : State) (file : File) (P : option Content -> Prop) : Prop :=
  forall v, v ∈ possible (disk st file) -> P v.
Definition firm (st : State) (file : File) : Prop := always st file is_Some.

Record Inv (st : State) : Prop := {
  inv_good choice : chosen st choice -> Good choice;
  inv_gone sandbox : contents st (SandboxDir sandbox) = None -> always st (Binding sandbox) (eq None);
  inv_tombstones generation content :
    Some content ∈ possible (disk st (TombstoneFile generation)) -> firm st StoreDir /\ firm st TombstonesDir;
  inv_records id content :
    Some content ∈ possible (disk st (LeaseFile id)) -> firm st StoreDir /\ firm st LeasesDir;
  inv_known process dir :
    dir ∈ durable_dirs st process -> record_dir dir = true /\ firm st StoreDir /\ firm st dir;
  inv_bound sandbox lease :
    Some (LeaseRecord lease) ∈ possible (disk st (Binding sandbox)) -> l_id lease ∈ bound st;
  inv_drawn id : id ∈ bound st -> id ∈ drawn st;
}.

(** Choices of cells are independent. *)
Lemma chosen_insert st choice file v :
  chosen st choice -> v ∈ possible (disk st file) -> chosen st (<[file := v]> choice).
Proof.
  intros Hc Hv other. destruct (decide (other = file)) as [->|]; [by rewrite fn_lookup_insert|].
  by rewrite fn_lookup_insert_ne by congruence.
Qed.

Lemma chosen_contents st : chosen st (contents st).
Proof. intros file. apply contents_possible. Qed.

(** A choice with some of its cells at their present values. *)
Lemma chosen_now st choice file : chosen st choice -> chosen st (<[file := contents st file]> choice).
Proof. intros. by apply chosen_insert, contents_possible. Qed.

(** Rewrites the cells of an altered choice. *)
Ltac cells :=
  repeat first
    [ rewrite fn_lookup_insert in *
    | rewrite fn_lookup_insert_ne in * by congruence ].
Ltac cells_in H :=
  repeat first
    [ rewrite fn_lookup_insert in H
    | rewrite fn_lookup_insert_ne in H by congruence ].

Lemma bound_facts st sandbox lease :
  Inv st -> Some (LeaseRecord lease) ∈ possible (disk st (Binding sandbox)) ->
  l_sandbox lease = sandbox /\ firm st StoreDir /\ firm st LeasesDir
  /\ always st (LeaseFile (l_id lease)) (eq (Some (LeaseRecord lease))) /\ always st (PayloadDir (l_generation lease)) whole.
Proof.
  intros Hinv Hl. pose proof (chosen_insert _ _ _ _ (chosen_contents st) Hl) as Hc.
  assert (forall file v, file <> Binding sandbox -> v ∈ possible (disk st file) ->
    Good (<[file := v]> (<[Binding sandbox := Some (LeaseRecord lease)]> (contents st)))) as Hgood.
  { intros file v _ Hv. by apply (inv_good _ Hinv), chosen_insert. }
  split; [|split; [|split; [|split]]].
  - destruct (good_bound _ (inv_good _ Hinv _ Hc) sandbox lease) as [H _]; [by cells|done].
  - intros v Hv. destruct (good_bound _ (Hgood StoreDir v ltac:(done) Hv) sandbox lease) as (_ & H & _); [by cells|by cells].
  - intros v Hv. destruct (good_bound _ (Hgood LeasesDir v ltac:(done) Hv) sandbox lease) as (_ & _ & H & _); [by cells|by cells].
  - intros v Hv. destruct (good_bound _ (Hgood (LeaseFile _) v ltac:(done) Hv) sandbox lease) as (_ & _ & _ & H & _); [by cells|by cells].
  - intros v Hv. destruct (good_bound _ (Hgood (PayloadDir _) v ltac:(done) Hv) sandbox lease) as (_ & _ & _ & _ & H); [by cells|by cells].
Qed.

(** A generation that is listed now, and not quarantined now, is whole whatever a crash leaves. *)
Lemma listed_facts st store index generation :
  Inv st -> contents st IndexFile = Some (IndexRecord store index) -> lists_generation index generation ->
  (contents st TombstonesDir = None \/ contents st (TombstoneFile generation) = None) ->
  always st (PayloadDir generation) whole.
Proof.
  intros Hinv Hindex Hlists Hopen v Hv.
  pose proof (chosen_insert _ _ _ _ (chosen_contents st) Hv) as Hc.
  pose proof (good_listed _ (inv_good _ Hinv _ Hc) store index generation) as H. cells_in H. auto.
Qed.

(** ** What the others may do *)

Definition stored (file : File) : bool :=
  match file with
  | StoreDir | IndexFile | LeasesDir | TombstonesDir | TombstoneFile _ | PayloadDir _ => true
  | _ => false
  end.
Definition fading (file : File) : bool :=
  match file with LeaseFile _ | Binding _ => true | _ => false end.

(** An entry that no one changes, though it may become durable. *)
Definition calm (st st' : State) (file : File) : Prop :=
  contents st' file = contents st file
  /\ forall v, v ∈ possible (disk st' file) -> v ∈ possible (disk st file).
(** An entry that may go. *)
Definition fades (st st' : State) (file : File) : Prop :=
  (contents st' file = contents st file \/ contents st' file = None)
  /\ forall v, v ∈ possible (disk st' file) -> v ∈ possible (disk st file) \/ v = None.

Record rely (i : Thread) (st st' : State) : Prop := {
  rely_bound id : id ∈ bound st -> id ∈ bound st';
  rely_drawn id : id ∈ drawn st -> id ∈ drawn st';
  rely_new sandbox lease :
    Some (LeaseRecord lease) ∈ possible (disk st' (Binding sandbox)) ->
    Some (LeaseRecord lease) ∈ possible (disk st (Binding sandbox)) \/ l_id lease ∉ bound st;
  rely_firm file : record_dir file = true -> firm st file -> firm st' file;
  rely_lock : store_lock st = Some i -> store_lock st' = Some i /\ bound st' = bound st;
  rely_stored file : store_lock st = Some i -> stored file = true -> calm st st' file;
  rely_fading file : store_lock st = Some i -> fading file = true -> fades st st' file;
  rely_record id : store_lock st = Some i -> id ∉ bound st -> calm st st' (LeaseFile id);
  rely_sandbox sandbox : sandbox_lock st sandbox = Some i -> sandbox_lock st' sandbox = Some i /\ calm st st' (Binding sandbox);
}.

#[export] Instance calm_refl : forall file, Reflexive (fun st st' => calm st st' file).
Proof. by intros file st. Qed.

#[export] Instance rely_preorder i : PreOrder (rely i).
Proof.
  split.
  - intros st. split; try by auto. all: intros; repeat split; auto.
  - intros st1 st2 st3 H1 H2. split.
    + intros id Hid. by apply (rely_bound _ _ _ H2), (rely_bound _ _ _ H1).
    + intros id Hid. by apply (rely_drawn _ _ _ H2), (rely_drawn _ _ _ H1).
    + intros s l Hl. destruct (rely_new _ _ _ H2 _ _ Hl) as [Hl'|Hl']; [by apply (rely_new _ _ _ H1)|].
      right. intros Hb. by apply Hl', (rely_bound _ _ _ H1).
    + intros f Hf Hfirm. by apply (rely_firm _ _ _ H2), (rely_firm _ _ _ H1).
    + intros Hl. destruct (rely_lock _ _ _ H1 Hl) as [Hl2 Hb]. destruct (rely_lock _ _ _ H2 Hl2) as [Hl3 Hb']. split; congruence.
    + intros f Hl Hf. destruct (rely_lock _ _ _ H1 Hl) as [Hl2 Hb].
      destruct (rely_stored _ _ _ H1 f Hl Hf) as [Hc1 Hp1], (rely_stored _ _ _ H2 f Hl2 Hf) as [Hc2 Hp2].
      split; [congruence|auto].
    + intros f Hl Hf. destruct (rely_lock _ _ _ H1 Hl) as [Hl2 Hb].
      destruct (rely_fading _ _ _ H1 f Hl Hf) as [Hc1 Hp1], (rely_fading _ _ _ H2 f Hl2 Hf) as [Hc2 Hp2].
      split; [destruct Hc2 as [Hc2|Hc2]; rewrite ?Hc2; tauto|].
      intros v Hv. destruct (Hp2 v Hv) as [?|?]; auto.
    + intros id Hl Hid. destruct (rely_lock _ _ _ H1 Hl) as [Hl2 Hb].
      destruct (rely_record _ _ _ H1 id Hl Hid) as [Hc1 Hp1]. rewrite <- Hb in Hid.
      destruct (rely_record _ _ _ H2 id Hl2 Hid) as [Hc2 Hp2]. split; [congruence|auto].
    + intros s Hl. destruct (rely_sandbox _ _ _ H1 s Hl) as [Hl2 [Hc1 Hp1]].
      destruct (rely_sandbox _ _ _ H2 s Hl2) as [Hl3 [Hc2 Hp2]]. split; [done|]. split; [congruence|auto].
Qed.

(** ** Triples *)

Section Triples.
Context (faulty : bool).

(** What a call of the thread [i] keeps. *)
Definition keeps (i : Thread) (st st' : State) : Prop := Inv st' /\ forall j, j <> i -> rely j st st'.

Fixpoint wp (i : Thread) {R} (p : Prog R) (Q : R -> State -> Prop) (st : State) : Prop :=
  match p with
  | Done r => Q r st
  | Do a k =>
      forall st1 r st2, rely i st st1 -> Inv st1 -> acts faulty i a st1 r st2 -> keeps i st1 st2 /\ wp i (k r) Q st2
  end.

Definition triple (i : Thread) {R} (P : State -> Prop) (p : Prog R) (Q : R -> State -> Prop) : Prop :=
  forall st, Inv st -> P st -> wp i p Q st.

(** What the others keep true. *)
Definition Stable (i : Thread) (P : State -> Prop) : Prop := forall st st', rely i st st' -> P st -> P st'.

Lemma wp_bind i {R S} (p : Prog R) (f : R -> Prog S) Q st :
  wp i p (fun r st' => Inv st' -> wp i (f r) Q st') st -> Inv st -> wp i (andThen p f) Q st.
Proof.
  revert st. induction p as [r|A a k IH]; intros st H Hinv; cbn in *; [auto|].
  intros st1 r st2 Hr Hi Ha. destruct (H _ _ _ Hr Hi Ha) as [[Hi2 Hk] Hwp]. split; [done|]. by apply IH.
Qed.

Lemma wp_mono i {R} (p : Prog R) (Q Q' : R -> State -> Prop) st :
  (forall r st', Q r st' -> Q' r st') -> wp i p Q st -> wp i p Q' st.
Proof.
  intros HQ. revert st. induction p as [r|A a k IH]; intros st H; cbn in *; [auto|].
  intros st1 r st2 Hr Hi Ha. destruct (H _ _ _ Hr Hi Ha) as [Hk Hwp]. eauto.
Qed.

Lemma wp_stable i {R} (p : Prog R) (Q : R -> State -> Prop) st st' :
  (forall r, Stable i (Q r)) -> rely i st st' -> wp i p Q st -> wp i p Q st'.
Proof.
  intros HQ Hr. destruct p; cbn; [by apply HQ|]. intros H st1 r st2 Hr1. apply H. by etrans.
Qed.

Lemma triple_done i {R} (P : State -> Prop) (r : R) Q : (forall st, Inv st -> P st -> Q r st) -> triple i P (Done r) Q.
Proof. intros H st Hi Hp. cbn. auto. Qed.

Lemma triple_bind i {R S} P (p : Prog R) M (f : R -> Prog S) Q :
  triple i P p M -> (forall r, triple i (M r) (f r) Q) -> triple i P (andThen p f) Q.
Proof.
  intros Hp Hf st Hi HP. apply wp_bind; [|done]. eapply wp_mono; [|by apply Hp].
  intros r st' HM Hi'. by apply Hf.
Qed.

Lemma triple_conseq i {R} P P' (p : Prog R) (Q Q' : R -> State -> Prop) :
  triple i P' p Q' -> (forall st, Inv st -> P st -> P' st) -> (forall r st, Q' r st -> Q r st) -> triple i P p Q.
Proof. intros Hp HP HQ st Hi H. eapply wp_mono; [exact HQ|]. by apply Hp, HP. Qed.

(** The [?] of a program: a failure ends it. *)
Lemma triple_attempt i {E A B} P (p : Prog (result E A)) (M : A -> State -> Prop) (f : A -> Prog (result E B)) (Q : result E B -> State -> Prop) :
  triple i P p (fun r st => match r with Ok a => M a st | Err e => Q (Err e) st end) ->
  (forall a, triple i (M a) (f a) Q) ->
  triple i P (attempt p f) Q.
Proof.
  intros Hp Hf. eapply triple_bind; [exact Hp|]. intros [a|e]; [apply Hf|]. by apply triple_done.
Qed.

(** One call. *)
Lemma triple_do i {A} P (a : Action A) (Q : result Fault A -> State -> Prop) :
  Stable i P ->
  (forall st r st', Inv st -> P st -> acts faulty i a st r st' -> keeps i st st' /\ Q r st') ->
  triple i P (perform a) Q.
Proof. intros HP Ha st Hi Hp st1 r st2 Hr Hi1 Hact. destruct (Ha st1 r st2) as [? ?]; eauto. Qed.

Lemma triple_call i {A} P (a : Action A) (Q : result Error A -> State -> Prop) :
  Stable i P ->
  (forall st r st', Inv st -> P st -> acts faulty i a st r st' -> keeps i st st' /\ Q (map_err store_error r) st') ->
  triple i P (call a) Q.
Proof. intros HP Ha st Hi Hp st1 r st2 Hr Hi1 Hact. destruct (Ha st1 r st2) as [? ?]; eauto. Qed.

Lemma keeps_same i st : Inv st -> keeps i st st.
Proof. split; [done|]. intros. reflexivity. Qed.

(** A step that everyone, the caller too, could take for one of the others. *)
Definition gentle (st st' : State) : Prop := Inv st' /\ forall j, rely j st st'.

Lemma gentle_keeps i P st st' : gentle st st' -> Stable i P -> P st -> keeps i st st' /\ P st'.
Proof. intros [Hi Hr] HP H. split; [by split|]. by apply (HP _ _ (Hr i)). Qed.

End Triples.

(** Programs that make the same calls and return the same. *)
Inductive same {R} : Prog R -> Prog R -> Prop :=
| same_done r : same (Done r) (Done r)
| same_do {A} (a : Action A) k k' : (forall answer, same (k answer) (k' answer)) -> same (Do a k) (Do a k').

Lemma same_reflexive {R} (p : Prog R) : same p p.
Proof. induction p; by constructor. Qed.

Lemma same_andThen {R S} (p : Prog R) (f f' : R -> Prog S) : (forall r, same (f r) (f' r)) -> same (andThen p f) (andThen p f').
Proof. intros Hf. induction p; cbn; [apply Hf|]. by constructor. Qed.

Lemma same_attempt {E A B} (p : Prog (result E A)) (f f' : A -> Prog (result E B)) :
  (forall a, same (f a) (f' a)) -> same (attempt p f) (attempt p f').
Proof. intros Hf. apply same_andThen. intros [a|e]; [apply Hf|apply same_reflexive]. Qed.

(** The rounds of the completion of interrupted publications are enough: with more of them it is
    the same program. *)
Lemma complete_rounds fuel fuel' record completed :
  (MAX_GENERATIONS - length (i_generations record) < fuel)%nat -> (fuel <= fuel')%nat ->
  same (complete fuel record completed) (complete fuel' record completed).
Proof.
  revert fuel' record completed. induction fuel as [|fuel IH]; intros [|fuel'] record completed Hf Hle; try lia. cbn [complete].
  apply same_andThen. intros [[v|]|[]]; try apply same_reflexive.
  destruct (Nat.leb_spec MAX_GENERATIONS (length (i_generations record))); [apply same_reflexive|].
  apply same_attempt. intros envelope. apply same_attempt. intros u. apply same_attempt. intros next. apply IH; [|lia].
  cbn [i_generations]. rewrite length_app. cbn [length]. lia.
Qed.

(** ** Steps *)

(** A sync, even one that fails, leaves fewer choices. *)
Definition settles (st st' : State) : Prop :=
  exists cells, st' = st <| disk := cells |>
    /\ forall file, cells file = disk st file \/ cells file = settled (contents st file).

Lemma settles_calm st st' file : settles st st' -> calm st st' file.
Proof.
  intros (cells & -> & H). unfold calm, contents. cbn -[possible]. destruct (H file) as [->| ->]; [done|].
  split; [done|]. intros v. unfold settled, possible at 1. cbn [present past]. rewrite list_elem_of_singleton. intros ->. left.
Qed.

Lemma settles_gentle st st' : Inv st -> settles st st' -> gentle st st'.
Proof.
  intros Hinv Hs. pose proof (fun file => settles_calm _ _ file Hs) as Hcalm.
  assert (forall file P, always st file P -> always st' file P) as Halways.
  { intros file P H v Hv. apply H. by apply (Hcalm file). }
  destruct Hs as (cells & -> & _). split.
  - split; cbn -[possible] in *.
    + intros c Hc. apply (inv_good _ Hinv). intros file. apply (Hcalm file), Hc.
    + intros s Hs. apply Halways, (inv_gone _ Hinv). destruct (Hcalm (SandboxDir s)) as [<- _]. done.
    + intros g content Hg. apply (Hcalm (TombstoneFile g)) in Hg. destruct (inv_tombstones _ Hinv _ _ Hg). split; by apply Halways.
    + intros id content Hg. apply (Hcalm (LeaseFile id)) in Hg. destruct (inv_records _ Hinv _ _ Hg). split; by apply Halways.
    + intros p d Hd. destruct (inv_known _ Hinv _ _ Hd) as (? & ? & ?). split; [done|]. split; by apply Halways.
    + intros s l Hl. apply (Hcalm (Binding s)) in Hl. by apply (inv_bound _ Hinv) in Hl.
    + apply (inv_drawn _ Hinv).
  - intros j. split; cbn -[possible] in *; auto.
    + intros s l Hl. left. by apply (Hcalm (Binding s)).
    + intros f _ Hf. by apply Halways.
    + intros f _ _. destruct (Hcalm f) as [H1 H2]. split; [by left|]. auto.
Qed.

Lemma synced_settles dir st : settles st (synced dir st).
Proof. eexists. split; [done|]. intros file. cbn. case_decide; auto. Qed.

Lemma partly_settles dir st st' : partly_synced dir st st' -> settles st st'.
Proof. intros (cells & -> & H). exists cells. split; [done|]. intros file. destruct (H file) as [?|[? ?]]; auto. Qed.

Lemma sync_gentle faulty i dir st r st' : Inv st -> acts faulty i (Sync dir) st r st' -> gentle st st'.
Proof.
  intros Hinv. destruct r; cbn.
  - intros ->. by apply settles_gentle, synced_settles.
  - intros H. by eapply settles_gentle, partly_settles.
Qed.

(** The change of an entry. *)
Lemma always_put file content st other (P : option Content -> Prop) :
  always st other P -> (other = file -> P content) -> always (put file content st) other P.
Proof. intros H Hc v Hv. apply possible_put in Hv as [Hv|[-> ->]]; auto. Qed.

Lemma always_unput file content st other (P : option Content -> Prop) :
  always (put file content st) other P -> always st other P.
Proof. intros H v Hv. apply H, possible_put. by left. Qed.

Definition record_holder (file : File) : option File :=
  match file with LeaseFile _ => Some LeasesDir | TombstoneFile _ => Some TombstonesDir | _ => None end.

Lemma put_inv file content st :
  Inv st ->
  (forall choice, (forall other, other <> file -> choice other ∈ possible (disk st other)) -> choice file = content -> Good choice) ->
  (forall sandbox, file = SandboxDir sandbox -> content = None -> always st (Binding sandbox) (eq None)) ->
  (forall sandbox, file = Binding sandbox -> content = None \/ contents st (SandboxDir sandbox) <> None) ->
  (forall dir, record_holder file = Some dir -> is_Some content -> firm st StoreDir /\ firm st dir) ->
  (record_dir file = true -> is_Some content) ->
  (forall sandbox lease, file = Binding sandbox -> content = Some (LeaseRecord lease) -> l_id lease ∈ bound st) ->
  Inv (put file content st).
Proof.
  intros Hinv Hgood Hgone Hbinding Hrecord Hdir Hbound.
  assert (forall dir, record_dir dir = true -> firm st dir -> firm (put file content st) dir) as Hfirm.
  { intros dir Hd Hf. apply always_put; [done|]. intros ->. auto. }
  split.
  - intros c Hc. destruct (proj1 (possible_put _ _ _ _ _) (Hc file)) as [Hin|[_ Hin]].
    + apply (inv_good _ Hinv). intros other. destruct (decide (other = file)) as [->|]; [done|].
      destruct (proj1 (possible_put _ _ _ _ _) (Hc other)) as [?|[? _]]; done.
    + apply Hgood.
      * intros other Hne. destruct (proj1 (possible_put _ _ _ _ _) (Hc other)) as [?|[? _]]; done.
      * done.
  - intros s Hs. rewrite contents_put in Hs. case_decide as Hf.
    + subst. apply always_put; [by apply Hgone|]. done.
    + apply always_put; [by apply (inv_gone _ Hinv)|]. intros <-. by destruct (Hbinding s eq_refl) as [?|?].
  - intros g v Hv. enough (firm st StoreDir /\ firm st TombstonesDir) as [? ?] by (split; by apply Hfirm).
    apply possible_put in Hv as [Hv|[<- <-]]; [by apply (inv_tombstones _ Hinv) in Hv|]. by apply Hrecord.
  - intros id v Hv. enough (firm st StoreDir /\ firm st LeasesDir) as [? ?] by (split; by apply Hfirm).
    apply possible_put in Hv as [Hv|[<- <-]]; [by apply (inv_records _ Hinv) in Hv|]. by apply Hrecord.
  - intros p d Hd. destruct (inv_known _ Hinv _ _ Hd) as (? & ? & ?). split; [done|]. split; by apply Hfirm.
  - intros s l Hl. apply possible_put in Hl as [Hl|[<- <-]]; [by apply (inv_bound _ Hinv) in Hl|]. cbn. by eapply Hbound.
  - apply (inv_drawn _ Hinv).
Qed.

Lemma put_rely j file content st :
  (forall sandbox lease, file = Binding sandbox -> content = Some (LeaseRecord lease) -> l_id lease ∉ bound st) ->
  (record_dir file = true -> is_Some content) ->
  (store_lock st = Some j ->
     stored file = false /\ (fading file = true -> content = None) /\ (forall id, file = LeaseFile id -> id ∈ bound st)) ->
  (forall sandbox, file = Binding sandbox -> sandbox_lock st sandbox <> Some j) ->
  rely j st (put file content st).
Proof.
  intros Hnew Hdir Hlock Hsandbox.
  assert (forall other, other <> file -> calm st (put file content st) other) as Hcalm.
  { intros other Hne. split; [rewrite contents_put; by case_decide|].
    intros v Hv. apply possible_put in Hv as [?|[? _]]; done. }
  split.
  - done.
  - done.
  - intros s l Hl. apply possible_put in Hl as [?|[<- <-]]; [by left|]. right. by eapply Hnew.
  - intros f Hf Hfirm. apply always_put; [done|]. intros ->. auto.
  - done.
  - intros f Hl Hf. apply Hcalm. intros ->. destruct (Hlock Hl) as [? _]. congruence.
  - intros f Hl Hf. destruct (decide (f = file)) as [->|Hne].
    + destruct (Hlock Hl) as (_ & Hnone & _). rewrite Hnone by done. split.
      * right. rewrite contents_put. by case_decide.
      * intros v Hv. apply possible_put in Hv as [?|[_ ?]]; auto.
    + destruct (Hcalm f Hne) as [H1 H2]. split; [by left|]. auto.
  - intros id Hl Hid. apply Hcalm. intros Heq. destruct (Hlock Hl) as (_ & _ & H). by apply Hid, H.
  - intros s Hs. split; [done|]. apply Hcalm. intros Heq. by apply (Hsandbox s).
Qed.

(** Entries of which the invariant says nothing. *)
Definition irrelevant (file : File) : bool :=
  match file with
  | CloneSocket _ _ | Transaction _ | Journal _ | Runtime _ | Config _ | CloneKept _ _ => true
  | _ => false
  end.

Lemma good_frame (file : File) (choice choice' : File -> option Content) :
  irrelevant file || match file with SandboxDir _ => true | _ => false end = true ->
  (forall other, other <> file -> choice other = choice' other) -> Good choice -> Good choice'.
Proof.
  intros Hf Heq [H1 H2]. split.
  - intros store index g. rewrite <- !Heq by (intros <-; discriminate). apply H1.
  - intros s l. rewrite <- !Heq by (intros <-; discriminate). apply H2.
Qed.

Lemma irrelevant_put file content st :
  Inv st -> irrelevant file = true -> gentle st (put file content st).
Proof.
  intros Hinv Hf. split.
  - apply put_inv; try done; try (intros; subst; discriminate).
    + intros c Hc _. eapply (good_frame file (<[file := contents st file]> c)); [by rewrite Hf| |].
      * intros other Hne. by rewrite fn_lookup_insert_ne by congruence.
      * apply (inv_good _ Hinv). intros other. destruct (decide (other = file)) as [->|Hne].
        -- rewrite fn_lookup_insert. apply contents_possible.
        -- rewrite fn_lookup_insert_ne by congruence. auto.
    + intros dir. by destruct file.
    + by destruct file.
  - intros j. apply put_rely; try (intros; subst; discriminate); destruct file; try done.
Qed.

(** ** The changes that the transactions make *)

(** A choice with the entry that changes at its present value. *)
Lemma restored_good file st choice :
  Inv st -> (forall other, other <> file -> choice other ∈ possible (disk st other)) ->
  Good (<[file := contents st file]> choice).
Proof.
  intros Hinv Hc. apply (inv_good _ Hinv). intros other. destruct (decide (other = file)) as [->|Hne].
  - rewrite fn_lookup_insert. apply contents_possible.
  - rewrite fn_lookup_insert_ne by congruence. auto.
Qed.

Ltac good_cases Hinv Hc :=
  let H := fresh "Hrestored" in
  pose proof (restored_good _ _ _ Hinv Hc) as H;
  split;
  [ intros store_ index_ generation_ Hindex Hlists Hopen;
    pose proof (good_listed _ H store_ index_ generation_) as Hl; cells_in Hl
  | intros sandbox_ lease_ Hbinding;
    pose proof (good_bound _ H sandbox_ lease_) as Hb; cells_in Hb ].

(** The changes under the store's lock. *)
Lemma locked_keeps i file content st :
  store_lock st = Some i ->
  (forall sandbox, file = Binding sandbox -> False) ->
  (record_dir file = true -> is_Some content) ->
  Inv (put file content st) -> keeps i st (put file content st).
Proof.
  intros Hl Hb Hd Hinv. split; [done|]. intros j Hj. apply put_rely; [|done| |].
  - intros s l ->. by destruct (Hb s).
  - intros Hlj. congruence.
  - intros s ->. by destruct (Hb s).
Qed.

Lemma index_step i store index index' self st :
  Inv st -> store_lock st = Some i -> contents st IndexFile = Some (IndexRecord store index) ->
  (forall generation, lists_generation index' generation ->
     lists_generation index generation \/ always st (PayloadDir generation) whole) ->
  keeps i st (put IndexFile (Some (IndexRecord self index')) st).
Proof.
  intros Hinv Hlock Hnow Hlisted. apply locked_keeps; try done.
  apply put_inv; try done. intros c Hc Hv. good_cases Hinv Hc.
  - rewrite Hv in Hindex. injection Hindex as <- <-. rewrite Hnow in Hl.
    destruct (Hlisted generation_ Hlists) as [?|Hw]; [|by apply Hw, Hc].
    pose proof (good_listed _ Hrestored store index generation_) as Hl'. cells_in Hl'. by apply Hl'.
  - auto.
Qed.

Lemma quarantine_step i generation content st :
  Inv st -> store_lock st = Some i -> firm st StoreDir -> firm st TombstonesDir ->
  keeps i st (put (TombstoneFile generation) (Some content) st).
Proof.
  intros Hinv Hlock Hs Hd. apply locked_keeps; try done.
  apply put_inv; try done; [|by intros dir [= <-]]. intros c Hc Hv. good_cases Hinv Hc.
  - destruct (decide (generation_ = generation)) as [->|Hne].
    + destruct Hopen as [Hopen|Hopen]; [|congruence].
      destruct (Hd (c TombstonesDir)) as [? ?]; [by apply Hc|congruence].
    + rewrite fn_lookup_insert_ne in Hl by congruence. auto.
  - auto.
Qed.

Lemma clearance_step i generation st :
  Inv st -> store_lock st = Some i ->
  always st IndexFile (fun v => forall store index, v = Some (IndexRecord store index) -> ~ lists_generation index generation) ->
  keeps i st (put (TombstoneFile generation) None st).
Proof.
  intros Hinv Hlock Hindexes. apply locked_keeps; try done.
  apply put_inv; try done. intros c Hc Hv. good_cases Hinv Hc.
  - destruct (decide (generation_ = generation)) as [->|Hne].
    + by destruct (Hindexes (c IndexFile) ltac:(by apply Hc) store_ index_ Hindex).
    + rewrite fn_lookup_insert_ne in Hl by congruence. auto.
  - auto.
Qed.

Lemma make_dir_step i dir st :
  Inv st -> store_lock st = Some i -> dir = LeasesDir \/ dir = TombstonesDir -> contents st dir = None ->
  keeps i st (put dir (Some Directory) st).
Proof.
  intros Hinv Hlock Hdir Hnone. apply locked_keeps; [done|by destruct Hdir as [->| ->]|done|].
  apply put_inv; try done; try (by destruct Hdir as [->| ->]). intros c Hc Hv. good_cases Hinv Hc.
  - destruct Hdir as [->| ->]; cells_in Hl; [by auto|]. rewrite Hnone in Hl. auto.
  - destruct Hdir as [->| ->]; cells_in Hb; [|by auto]. rewrite Hnone in Hb.
    destruct Hb as (? & ? & [? ?] & _); [done|congruence].
Qed.

Lemma deletion_step i generation content st :
  Inv st -> store_lock st = Some i -> firm st TombstonesDir -> firm st (TombstoneFile generation) ->
  (forall sandbox lease, Some (LeaseRecord lease) ∈ possible (disk st (Binding sandbox)) -> l_generation lease <> generation) ->
  keeps i st (put (PayloadDir generation) content st).
Proof.
  intros Hinv Hlock Hd Ht Hnone. apply locked_keeps; try done.
  apply put_inv; try done. intros c Hc Hv. good_cases Hinv Hc.
  - destruct (decide (generation_ = generation)) as [->|Hne].
    + destruct Hopen as [Hopen|Hopen].
      * destruct (Hd (c TombstonesDir)) as [? ?]; [by apply Hc|congruence].
      * destruct (Ht (c (TombstoneFile generation))) as [? ?]; [by apply Hc|congruence].
    + rewrite fn_lookup_insert_ne in Hl by congruence. auto.
  - assert (l_generation lease_ <> generation) as Hne.
    { eapply Hnone. rewrite <- Hbinding. by apply Hc. }
    rewrite fn_lookup_insert_ne in Hb by congruence. auto.
Qed.

Lemma publication_step i generation envelope st :
  Inv st -> store_lock st = Some i -> keeps i st (put (PayloadDir generation) (Some (Payload (Some envelope))) st).
Proof.
  intros Hinv Hlock. apply locked_keeps; try done.
  apply put_inv; try done. intros c Hc Hv. good_cases Hinv Hc.
  - destruct (decide (generation_ = generation)) as [->|Hne]; [rewrite Hv; by eexists|].
    rewrite fn_lookup_insert_ne in Hl by congruence. auto.
  - destruct (Hb Hbinding) as (? & ? & ? & ? & Hw). repeat split; try done.
    destruct (decide (l_generation lease_ = generation)) as [->|Hne]; [rewrite Hv; by eexists|].
    by rewrite fn_lookup_insert_ne in Hw by congruence.
Qed.

Lemma record_step i id content st :
  Inv st -> store_lock st = Some i -> id ∉ bound st -> firm st StoreDir -> firm st LeasesDir ->
  keeps i st (put (LeaseFile id) (Some content) st).
Proof.
  intros Hinv Hlock Hid Hs Hd. apply locked_keeps; try done.
  apply put_inv; try done; [|by intros dir [= <-]]. intros c Hc Hv. good_cases Hinv Hc; [auto|].
  assert (l_id lease_ ∈ bound st) as Hin. { eapply (inv_bound _ Hinv sandbox_). rewrite <- Hbinding. by apply Hc. }
  rewrite (fn_lookup_insert_ne _ (LeaseFile id) (LeaseFile (l_id lease_))) in Hb by congruence. auto.
Qed.

(** The end of a record that no binding can name, by a thread that holds the store's lock, or of a
    lease that was bound once. *)
Lemma unrecord_step i id st :
  Inv st -> store_lock st = Some i \/ id ∈ bound st ->
  (forall sandbox lease, Some (LeaseRecord lease) ∈ possible (disk st (Binding sandbox)) -> l_id lease <> id) ->
  keeps i st (put (LeaseFile id) None st).
Proof.
  intros Hinv Hlock Hnone. split.
  - apply put_inv; try done. intros c Hc Hv. good_cases Hinv Hc; [auto|].
    assert (l_id lease_ <> id) as Hne. { eapply Hnone. rewrite <- Hbinding. by apply Hc. }
    rewrite (fn_lookup_insert_ne _ (LeaseFile id) (LeaseFile (l_id lease_))) in Hb by congruence. auto.
  - intros j Hj. apply put_rely; try done. intros Hlj. repeat split; [].
    intros id' [= <-]. destruct Hlock as [Hlock|?]; [congruence|done].
Qed.

Lemma unbind_step i sandbox st :
  Inv st -> sandbox_lock st sandbox = Some i -> keeps i st (put (Binding sandbox) None st).
Proof.
  intros Hinv Hlock. split.
  - apply put_inv; try done; [|by left]. intros c Hc Hv. good_cases Hinv Hc; auto.
  - intros j Hj. apply put_rely; try done. intros s [= <-]. congruence.
Qed.

Lemma remove_dir_step i sandbox st :
  Inv st -> always st (Binding sandbox) (eq None) -> keeps i st (put (SandboxDir sandbox) None st).
Proof.
  intros Hinv Hnone. split.
  - apply put_inv; try done; [|by intros s [= <-] _]. intros c Hc _.
    eapply (good_frame (SandboxDir sandbox)); [done| |exact (restored_good _ _ _ Hinv Hc)].
    intros other Hne. by rewrite fn_lookup_insert_ne by congruence.
  - intros j Hj. by apply put_rely.
Qed.

Lemma written_put file content st : names_lease file content = [] -> written file content st = put file (Some content) st.
Proof. unfold written. intros ->. done. Qed.

Lemma bind_step i sandbox lease st :
  Inv st -> store_lock st = Some i -> sandbox_lock st sandbox = Some i ->
  l_id lease ∉ bound st -> l_id lease ∈ drawn st -> l_sandbox lease = sandbox -> contents st (SandboxDir sandbox) <> None ->
  firm st StoreDir -> firm st LeasesDir -> always st (LeaseFile (l_id lease)) (eq (Some (LeaseRecord lease))) ->
  always st (PayloadDir (l_generation lease)) whole ->
  keeps i st (written (Binding sandbox) (LeaseRecord lease) st).
Proof.
  intros Hinv Hlock Hsl Hid Hdrawn Hsb Hdir Hs Hd Hrec Hpay.
  set (st1 := st <| bound := l_id lease :: bound st |>).
  assert (Inv st1) as Hinv1.
  { destruct Hinv. split; try done; cbn.
    - intros s l Hl. right. by eapply inv_bound0.
    - intros id [->|?]%elem_of_cons; auto. }
  split.
  - change (Inv (put (Binding sandbox) (Some (LeaseRecord lease)) st1)).
    apply put_inv; try done.
    + intros c Hc Hv. good_cases Hinv1 Hc; [auto|].
      destruct (decide (sandbox_ = sandbox)) as [->|Hne].
      * rewrite Hv in Hbinding. injection Hbinding as <-. repeat split; [done|..].
        -- apply Hs, Hc. done.
        -- apply Hd, Hc. done.
        -- symmetry. apply Hrec, Hc. done.
        -- apply Hpay, Hc. done.
      * rewrite (fn_lookup_insert_ne _ (Binding sandbox) (Binding sandbox_)) in Hb by congruence. auto.
    + intros s [= <-]. by right.
    + intros s l _ [= <-]. cbn. left.
  - intros j Hj. etrans.
    + apply (put_rely j (Binding sandbox) (Some (LeaseRecord lease))); try done.
      * by intros s l _ [= <-].
      * intros ?. congruence.
      * intros s [= <-]. congruence.
    + unfold written. split; try done; cbn -[possible].
      * intros id ?. by right.
      * auto.
      * intros ?. congruence.
      * intros f ? _. congruence.
Qed.

(** Changes of the locks, of what they reserve, and of what was drawn or made durable. *)
Lemma inv_same st st' :
  disk st' = disk st -> bound st' = bound st -> (forall id, id ∈ bound st -> id ∈ drawn st') ->
  (forall process dir, dir ∈ durable_dirs st' process -> dir ∈ durable_dirs st process \/ (record_dir dir = true /\ firm st StoreDir /\ firm st dir)) ->
  Inv st -> Inv st'.
Proof.
  intros Hd Hb Hdrawn Hknown [H1 H2 H3 H4 H5 H6 H7].
  split; unfold chosen, contents, firm, always in *; rewrite ?Hd, ?Hb; try done.
  intros p d Hin. destruct (Hknown p d Hin) as [?|?]; [by eapply H5|done].
Qed.

Lemma rely_same j st st' :
  disk st' = disk st -> bound st' = bound st -> (forall id, id ∈ drawn st -> id ∈ drawn st') -> (store_lock st = Some j -> store_lock st' = Some j) ->
  (forall sandbox, sandbox_lock st sandbox = Some j -> sandbox_lock st' sandbox = Some j) -> rely j st st'.
Proof.
  intros Hd Hb Hdr Hl Hs. split; unfold calm, fades, contents, firm, always; rewrite ?Hd, ?Hb; auto.
Qed.

Lemma lock_store_gentle i st : Inv st -> store_lock st = None -> gentle st (st <| store_lock := Some i |>).
Proof.
  intros Hinv Hn. split; [apply (inv_same st); auto; apply Hinv|]. intros j. apply rely_same; try done. congruence.
Qed.

Lemma unlock_store_keeps i st : Inv st -> store_lock st = Some i -> keeps i st (st <| store_lock := None |>).
Proof.
  intros Hinv Hn. split; [apply (inv_same st); auto; apply Hinv|]. intros j Hj. apply rely_same; try done. congruence.
Qed.

Lemma lock_sandbox_gentle i sandbox st :
  Inv st -> sandbox_lock st sandbox = None -> gentle st (st <| sandbox_lock := <[sandbox := Some i]> (sandbox_lock st) |>).
Proof.
  intros Hinv Hn. split; [apply (inv_same st); auto; apply Hinv|]. intros j. apply rely_same; try done.
  intros s Hs. cbn. rewrite fn_lookup_insert_ne by congruence. done.
Qed.

Lemma unlock_sandbox_keeps i sandbox st :
  Inv st -> sandbox_lock st sandbox = Some i -> keeps i st (unlocked sandbox st).
Proof.
  intros Hinv Hn. split; [apply (inv_same st); auto; apply Hinv|]. intros j Hj. apply rely_same; try done.
  intros s Hs. cbn. rewrite fn_lookup_insert_ne by congruence. done.
Qed.

Lemma reserve_gentle sandbox launch st : Inv st -> gentle st (st <| reserved := <[sandbox := launch]> (reserved st) |>).
Proof. intros Hinv. split; [apply (inv_same st); auto; apply Hinv|]. intros j. by apply rely_same. Qed.

Lemma draw_gentle id st : Inv st -> gentle st (st <| drawn := id :: drawn st |>).
Proof.
  intros Hinv. split; [|intros j; apply rely_same; try done; intros id' ?; by right].
  apply (inv_same st); auto. intros id' Hid. right. by apply (inv_drawn _ Hinv).
Qed.

Lemma remember_gentle process dir st :
  Inv st -> record_dir dir = true -> firm st StoreDir -> firm st dir ->
  gentle st (st <| durable_dirs := <[process := dir :: durable_dirs st process]> (durable_dirs st) |>).
Proof.
  intros Hinv Hd Hs Hf. split; [|intros j; by apply rely_same]. apply (inv_same st); auto; [apply Hinv|].
  intros p d. cbn. destruct (decide (p = process)) as [->|Hne].
  - rewrite fn_lookup_insert. intros [->|?]%elem_of_cons; [right|left]; done.
  - rewrite fn_lookup_insert_ne by congruence. by left.
Qed.
