(* ===== verification/LeaseTriples.v ===== *)
(** * Triples of the store's transactions

    What each part of a transaction of [LeaseStore] shows, for any assertion that the others keep,
    and that the transactions keep the invariant of [LeaseLogic]. *)

From stdpp Require Import functions.
From S2P Require Import Prelude HostPaths Manifest Eligibility LeaseStore LeaseDisk LeaseLogic.

Create HintDb lease.
#[export] Hint Extern 1 (stored _ = true) => reflexivity : lease.
#[export] Hint Extern 1 (fading _ = true) => reflexivity : lease.
#[export] Hint Extern 1 (record_dir _ = true) => reflexivity : lease.

(** ** What the others keep *)

Section Keep.
Context {i : Thread} {st st' : State} (Hr : rely i st st').

Lemma keep_lock : store_lock st = Some i -> store_lock st' = Some i.
Proof. intros H. apply (rely_lock _ _ _ Hr H). Qed.

Lemma keep_now file v : store_lock st = Some i -> stored file = true -> contents st file = v -> contents st' file = v.
Proof. intros H Hf <-. apply (rely_stored _ _ _ Hr file H Hf). Qed.

Lemma keep_existing file : store_lock st = Some i -> stored file = true -> is_Some (contents st file) -> is_Some (contents st' file).
Proof. intros H Hf. by rewrite (proj1 (rely_stored _ _ _ Hr file H Hf)). Qed.

Lemma keep_always file P : store_lock st = Some i -> stored file = true -> always st file P -> always st' file P.
Proof. intros H Hf HP v Hv. apply HP, (rely_stored _ _ _ Hr file H Hf), Hv. Qed.

Lemma keep_firm file : record_dir file = true -> firm st file -> firm st' file.
Proof. apply (rely_firm _ _ _ Hr). Qed.

Lemma keep_fresh id : store_lock st = Some i -> id ∉ bound st -> id ∉ bound st'.
Proof. intros H. by rewrite (proj2 (rely_lock _ _ _ Hr H)). Qed.

Lemma keep_record id P : store_lock st = Some i -> id ∉ bound st -> always st (LeaseFile id) P -> always st' (LeaseFile id) P.
Proof. intros H Hid HP v Hv. apply HP, (rely_record _ _ _ Hr id H Hid), Hv. Qed.

Lemma keep_recorded id v : store_lock st = Some i -> id ∉ bound st -> contents st (LeaseFile id) = v -> contents st' (LeaseFile id) = v.
Proof. intros H Hid <-. apply (rely_record _ _ _ Hr id H Hid). Qed.

Lemma keep_held sandbox : sandbox_lock st sandbox = Some i -> sandbox_lock st' sandbox = Some i.
Proof. apply (rely_sandbox _ _ _ Hr). Qed.

Lemma keep_binding sandbox v :
  sandbox_lock st sandbox = Some i -> contents st (Binding sandbox) = v -> contents st' (Binding sandbox) = v.
Proof. intros H <-. apply (rely_sandbox _ _ _ Hr sandbox H). Qed.

Lemma keep_bindings sandbox P :
  sandbox_lock st sandbox = Some i -> always st (Binding sandbox) P -> always st' (Binding sandbox) P.
Proof. intros H HP v Hv. apply HP, (rely_sandbox _ _ _ Hr sandbox H), Hv. Qed.

Lemma keep_bound id : id ∈ bound st -> id ∈ bound st'.
Proof. apply (rely_bound _ _ _ Hr). Qed.

Lemma keep_drawn id : id ∈ drawn st -> id ∈ drawn st'.
Proof. apply (rely_drawn _ _ _ Hr). Qed.

(** No binding that an entry may hold names the lease, but the sandbox's. *)
Definition only_at (st : State) (sandbox : Path) (id : LeaseId) : Prop :=
  forall other lease, Some (LeaseRecord lease) ∈ possible (disk st (Binding other)) -> l_id lease = id -> other = sandbox.

Lemma keep_only_at sandbox id : id ∈ bound st -> only_at st sandbox id -> only_at st' sandbox id.
Proof.
  intros Hid H other l Hl <-. destruct (rely_new _ _ _ Hr _ _ Hl) as [Hl'|Hl']; [by eapply H|done].
Qed.

Lemma keep_only_locked sandbox id : store_lock st = Some i -> only_at st sandbox id -> only_at st' sandbox id.
Proof.
  intros Hlock H other l Hl Hid. destruct (rely_fading _ _ _ Hr (Binding other) Hlock eq_refl) as [_ Hp].
  destruct (Hp _ Hl) as [?|?]; [by eapply H|done].
Qed.

(** A lease whose binding is gone. *)
Lemma keep_unbound sandbox v :
  store_lock st = Some i -> v <> None -> contents st (Binding sandbox) <> v -> contents st' (Binding sandbox) <> v.
Proof.
  intros Hlock Hv H. destruct (rely_fading _ _ _ Hr (Binding sandbox) Hlock eq_refl) as [[->| ->] _]; congruence.
Qed.

Lemma keep_never sandbox v :
  store_lock st = Some i -> v <> None -> v ∉ possible (disk st (Binding sandbox)) -> v ∉ possible (disk st' (Binding sandbox)).
Proof.
  intros Hlock Hv H Hin. destruct (rely_fading _ _ _ Hr (Binding sandbox) Hlock eq_refl) as [_ Hp].
  destruct (Hp _ Hin) as [?|?]; done.
Qed.

(** The records that the retirement looks at only go. *)
Definition recorded_in (st : State) (generation : Z) (ids : list LeaseId) (live : list Lease) : Prop :=
  forall id lease, contents st (LeaseFile id) = Some (LeaseRecord lease) -> l_generation lease = generation ->
    id ∈ ids \/ lease ∈ live.

Lemma keep_recorded_in generation ids live :
  store_lock st = Some i -> recorded_in st generation ids live -> recorded_in st' generation ids live.
Proof.
  intros Hlock H id l Hl. apply H. destruct (rely_fading _ _ _ Hr (LeaseFile id) Hlock eq_refl) as [[<-|Hn] _]; [done|congruence].
Qed.

End Keep.

#[export] Hint Resolve keep_lock keep_now keep_existing keep_always keep_firm keep_fresh keep_record keep_recorded
  keep_held keep_binding keep_bindings keep_bound keep_drawn keep_only_locked keep_unbound keep_never keep_recorded_in : lease.

(** Splits the assertion, and keeps each part. *)
Ltac stable :=
  let Hr := fresh "Hr" in
  let H := fresh "H" in
  intros ? ? Hr H; repeat match goal with H : _ /\ _ |- _ => destruct H end; repeat split; eauto with lease.

Lemma stable_true i : Stable i (fun _ => True).
Proof. done. Qed.
Lemma stable_and i P Q : Stable i P -> Stable i Q -> Stable i (fun st => P st /\ Q st).
Proof. intros HP HQ st st' Hr [H1 H2]. eauto. Qed.
#[export] Hint Resolve stable_true stable_and : lease.

Lemma open_tombstone st generation :
  is_Some (contents st StoreDir) -> (seen st TombstonesDir = None \/ seen st (TombstoneFile generation) = None) ->
  contents st TombstonesDir = None \/ contents st (TombstoneFile generation) = None.
Proof.
  intros [v Hv]. unfold seen, close, held. cbn. rewrite Hv. cbn.
  destruct (contents st TombstonesDir); cbn; tauto.
Qed.

Section Triples.
Context (faulty : bool) (self : StoreId) (i : Thread).
Abbreviation triple := (triple faulty i).
Abbreviation Stable := (Stable i).

(** ** Calls *)

Lemma triple_try {E A B} P (p : Prog (result E A)) (M : A -> State -> Prop) (f : A -> Prog (result E B)) (Q : result E B -> State -> Prop) :
  triple P p (fun r st => match r with Ok a => M a st | Err _ => True end) ->
  (forall a, triple (M a) (f a) Q) -> (forall e st, Q (Err e) st) -> triple P (attempt p f) Q.
Proof.
  intros Hp Hf HQ. eapply triple_attempt; [|exact Hf]. eapply triple_conseq; [exact Hp|done|]. intros [a|e] st; auto.
Qed.

Lemma triple_pure {E A B} P (a : A) (f : A -> Prog (result E B)) Q : triple P (f a) Q -> triple P (attempt (Done (Ok a)) f) Q.
Proof. done. Qed.

(** A call that changes nothing. *)
Lemma triple_look {A} P (a : Action A) :
  (forall st r st', acts faulty i a st r st' -> st' = st) -> Stable P ->
  triple P (perform a) (fun r st => P st /\ acts faulty i a st r st).
Proof.
  intros Hsame HP. apply triple_do; [done|]. intros st r st' Hi Hp Ha.
  pose proof (Hsame _ _ _ Ha) as ->. split; [by apply keeps_same|done].
Qed.

Lemma triple_view {A} P (a : Action A) (M : result Error A -> State -> Prop) :
  (forall st r st', acts faulty i a st r st' -> st' = st) -> Stable P ->
  (forall st r, Inv st -> P st -> acts faulty i a st r st -> M (map_err store_error r) st) ->
  triple P (call a) (fun r st => P st /\ M r st).
Proof.
  intros Hsame HP HM. apply triple_call; [done|]. intros st r st' Hi Hp Ha.
  pose proof (Hsame _ _ _ Ha) as ->. split; [by apply keeps_same|auto].
Qed.

Lemma read_triple P file :
  Stable P -> triple P (call (Read file)) (fun r st => P st /\ match r with Ok v => v = seen st file | Err _ => True end).
Proof.
  intros HP. apply triple_view; [by intros st r st' [-> _]|done|]. intros st [v|e] _ _ [_ H]; done.
Qed.

Lemma examine_triple P : Stable P -> triple P (call Examine) (fun _ st => P st).
Proof.
  intros HP. eapply triple_conseq; [apply (triple_view P Examine (fun _ _ => True))|..]; try done. by intros r st [? _].
Qed.

(** A call that everyone could take for another's. *)
Lemma triple_gentle {A} P (a : Action A) (M : result Error A -> State -> Prop) :
  Stable P ->
  (forall st r st', Inv st -> P st -> acts faulty i a st r st' -> gentle st st' /\ M (map_err store_error r) st') ->
  triple P (call a) (fun r st => P st /\ M r st).
Proof.
  intros HP Ha. apply triple_call; [done|]. intros st r st' Hi Hp Hact.
  destruct (Ha _ _ _ Hi Hp Hact) as [Hg HM]. destruct (gentle_keeps i P _ _ Hg HP Hp). auto.
Qed.

Lemma sync_triple P dir :
  Stable P ->
  triple P (call (Sync dir)) (fun r st => P st /\
    match r with Ok _ => forall file, dir_of file = dir -> always st file (eq (contents st file)) | Err _ => True end).
Proof.
  intros HP. apply triple_gentle; [done|]. intros st r st' Hi _ Hact.
  split; [by eapply sync_gentle|]. destruct r; [|done]. cbn in Hact. subst.
  intros file Hd v Hv. rewrite contents_synced. apply possible_synced in Hv. by rewrite decide_True in Hv.
Qed.

(** A call after which the assertion is kept, and nothing else is known. *)
Lemma sync_only P dir : Stable P -> triple P (call (Sync dir)) (fun _ st => P st).
Proof. intros HP. eapply triple_conseq; [by apply sync_triple|done|]. by intros r st [? _]. Qed.

(** An assertion that a change of the entry does not touch. *)
Definition Frames (P : State -> Prop) (file : File) : Prop := forall st content, P st -> P (put file content st).

Lemma irrelevant_triple P file :
  Stable P -> irrelevant file = true -> triple P (remove_if_present file) (fun _ st => P st).
Proof.
  intros HP Hf. unfold remove_if_present.
  eapply (triple_bind _ _ _ _ (fun _ st => P st)).
  - apply triple_do; [done|]. intros st r st' Hi Hp Ha. cbn in Ha.
    enough (st' = st \/ st' = put file None st) as [->| ->].
    + split; [by apply keeps_same|done].
    + apply gentle_keeps; [by apply irrelevant_put|done|done].
    + destruct (is_some _); [|by destruct Ha as [_ ->]; left]. destruct r; cbn in Ha; destruct Ha as [_ Ha]; auto.
  - intros [[]|[]]; by apply triple_done.
Qed.

(** The removal of a relevant entry: [step] says why it may go. *)
Lemma remove_triple P file (M : result Error unit -> State -> Prop) :
  Stable P ->
  (forall st, Inv st -> P st -> keeps i st (put file None st)) ->
  (forall st, Inv st -> P st -> M (Ok tt) (put file None st)) ->
  (forall st, Inv st -> P st -> seen st file = None -> M (Ok tt) st) ->
  (forall st e, Inv st -> P st -> M (Err e) st /\ M (Err e) (put file None st)) ->
  triple P (remove_if_present file) M.
Proof.
  intros HP Hstep Hok Habsent Herr. unfold remove_if_present.
  eapply (triple_bind _ _ _ _ (fun r st => match r with Ok _ | Err Missing => M (Ok tt) st | Err e => M (Err (store_error e)) st end)).
  - apply triple_do; [done|]. intros st r st' Hi Hp Ha. cbn in Ha.
    destruct (is_some (seen st file)) eqn:E.
    + assert (st' = st \/ st' = put file None st) as Hst by (destruct r; cbn in Ha; destruct Ha as [_ Ha]; auto).
      split; [destruct Hst as [->| ->]; [by apply keeps_same|by apply Hstep]|].
      destruct r as [[]|e]; cbn in Ha.
      * destruct Ha as [_ ->]. auto.
      * destruct Ha as [Hne Ha], (Herr st (store_error e) Hi Hp) as [H1 H2].
        destruct e; try done; destruct Ha as [->| ->]; done.
    + destruct Ha as [-> ->]. split; [by apply keeps_same|]. apply Habsent; try done. by destruct (seen st file).
  - intros [[]|[]]; by apply triple_done.
Qed.

(** ** Reads *)

Lemma is_some_spec {A} (o : option A) : is_some o = true <-> is_Some o.
Proof. destruct o; cbn; split; try done; eauto. Qed.

Lemma check_triple P dir :
  Stable P -> triple P (check_records_dir dir)
    (fun r st => P st /\ match r with Ok true => is_Some (seen st dir) | Ok false => seen st dir = None | Err _ => True end).
Proof.
  intros HP. unfold check_records_dir.
  eapply triple_bind; [apply (triple_look P (Read dir)); [by intros st r st' [-> _]|done]|].
  intros [[v|]|[]]; apply triple_done; intros st _ [? [_ ?]]; eauto.
Qed.

Lemma seen_holder st file dir content : seen st file = Some content -> dir ∈ holders file -> is_Some (contents st dir).
Proof.
  unfold seen, close. destruct (held _ _) eqn:E; [|done]. intros _ Hd. unfold held in E. rewrite forallb_forall in E.
  apply is_some_spec, E, list_elem_of_In, Hd.
Qed.

Definition indexed (st : State) (record : Index) : Prop :=
  contents st IndexFile = Some (IndexRecord self record) /\ is_Some (contents st StoreDir).

Lemma index_triple P : Stable P -> triple P (index self) (fun r st => P st /\ match r with Ok record => indexed st record | Err _ => True end).
Proof.
  intros HP. unfold index. eapply triple_attempt; [eapply triple_conseq; [by apply read_triple|done|]|].
  - intros [v|e] st H; [exact H|]. by destruct H.
  - intros [[| store record | | | |]|]; try (apply triple_done; by intros st _ [? _]).
    case_bool_decide as Hs; cbn [negb]; [|apply triple_done; by intros st _ [? _]]. subst.
    destruct (into_index record); apply triple_done; intros st _ [Hp Hv]; [|done]. split; [done|]. split.
    + by apply seen_contents.
    + eapply seen_holder; [by symmetry|]. cbn. left.
Qed.

Lemma read_lease_triple P id :
  Stable P -> triple P (read_lease self id) (fun r st => P st /\
    match r with
    | Ok (Some lease) => contents st (LeaseFile id) = Some (LeaseRecord lease) /\ l_id lease = id /\ l_store lease = self
    | Ok None => seen st (LeaseFile id) = None
    | Err _ => True
    end).
Proof.
  intros HP. unfold read_lease. eapply triple_attempt; [eapply triple_conseq; [by apply read_triple|done|]|].
  - intros [v|e] st H; [exact H|]. by destruct H.
  - intros [[| | lease | | |]|]; try (apply triple_done; by intros st _ [? ?]).
    case_bool_decide as H1; cbn [negb orb]; [|apply triple_done; by intros st _ [? _]].
    case_bool_decide as H2; cbn [negb orb]; apply triple_done; intros st _ [Hp Hv]; [|done].
    repeat split; try done. by apply seen_contents.
Qed.

Lemma read_binding_triple P sandbox :
  Stable P -> triple P (read_binding sandbox) (fun r st => P st /\
    match r with
    | Ok (Some lease) => contents st (Binding sandbox) = Some (LeaseRecord lease)
    | Ok None => seen st (Binding sandbox) = None
    | Err _ => True
    end).
Proof.
  intros HP. unfold read_binding. eapply triple_attempt; [eapply triple_conseq; [by apply read_triple|done|]|].
  - intros [v|e] st H; [exact H|]. by destruct H.
  - intros [[| | lease | | |]|]; apply triple_done; intros st _ [? ?]; try done. split; [done|]. by apply seen_contents.
Qed.

(** A generation is quarantined only by a tombstone that the disk holds. *)
Lemma tombstoned_triple P generation :
  Stable P -> triple P (is_tombstoned self generation) (fun r st => P st /\
    match r with
    | Ok true => is_Some (contents st (TombstoneFile generation))
    | Ok false => seen st TombstonesDir = None \/ seen st (TombstoneFile generation) = None
    | Err _ => True
    end).
Proof.
  intros HP. unfold is_tombstoned. eapply triple_attempt; [eapply triple_conseq; [by apply check_triple|done|]|].
  - intros [v|e] st H; [exact H|]. by destruct H.
  - intros [|]; [|apply triple_done; intros st _ [? ?]; auto].
    eapply triple_conseq; [|intros st _ [Hp _]; exact Hp|intros r st H; exact H].
    unfold read_tombstone. eapply triple_attempt; [eapply triple_conseq; [by apply read_triple|done|]|].
    + intros [v|e] st H; [exact H|]. by destruct H.
    + intros [[| | | store recorded | |]|]; try (apply triple_done; intros st _ [? ?]; by auto).
      destruct (_ || _); apply triple_done; intros st _ [? Hv]; [done|]. split; [done|].
      symmetry in Hv. apply seen_contents in Hv. by eexists.
Qed.


(** ** Changes under the store's lock *)

(** What an assertion under the store's lock says at least. *)
Definition locking (P : State -> Prop) : Prop := forall st, P st -> store_lock st = Some i /\ is_Some (contents st StoreDir).

(** An entry that exists stays under the lock. *)
Lemma stable_exists P file : Stable P -> locking P -> stored file = true -> Stable (fun st => P st /\ is_Some (contents st file)).
Proof.
  intros HP HL Hf st st' Hr [H1 H2]. destruct (HL _ H1) as [Hlock _]. split; [by eapply HP|]. eauto with lease.
Qed.

Lemma firm_of_always st file : always st file (eq (contents st file)) -> is_Some (contents st file) -> firm st file.
Proof. intros Ha Hs v Hv. by rewrite <- (Ha v Hv). Qed.

Lemma make_dir_triple P dir :
  dir = LeasesDir \/ dir = TombstonesDir -> Stable P -> locking P -> Frames P dir ->
  triple P (call (MakeDir dir)) (fun r st => match r with Ok _ => P st /\ is_Some (contents st dir) | Err _ => P st end).
Proof.
  intros Hdir HP HL HF. apply triple_call; [done|]. intros st r st' Hi Hp Ha.
  assert (forall st', held (contents st) dir = true /\ contents st dir = None /\ st' = put dir (Some Directory) st ->
            keeps i st st' /\ P st' /\ is_Some (contents st' dir)) as Hmade.
  { intros st'' (_ & Hnone & ->). split; [|split; [by apply HF|]].
    - apply make_dir_step; try done. by apply HL in Hp as [? _].
    - rewrite contents_put, decide_True by done. eauto. }
  destruct r as [u|e]; cbn in Ha.
  - destruct Ha as [_ Ha]. by destruct (Hmade _ Ha).
  - destruct Ha as [_ [->|Ha]]; [split; [by apply keeps_same|done]|]. by destruct (Hmade _ Ha) as (? & ? & _).
Qed.

Lemma known_triple P dir :
  Stable P -> triple P (call (Known dir)) (fun r st => P st /\ match r with Ok true => firm st StoreDir /\ firm st dir | _ => True end).
Proof.
  intros HP. apply triple_view; [by intros st r st' [-> _]|done|]. intros st [b|e] Hi _ [_ H]; [|done]. subst. cbn.
  case_bool_decide as Hin; [|done]. by apply (inv_known _ Hi) in Hin as (_ & ? & ?).
Qed.

Lemma remember_triple P dir :
  record_dir dir = true -> Stable P -> (forall st, P st -> firm st StoreDir /\ firm st dir) ->
  triple P (call (Remember dir)) (fun _ st => P st).
Proof.
  intros Hd HP Hfirm. eapply triple_conseq; [apply (triple_gentle P (Remember dir) (fun _ _ => True))|done|by intros r st [? _]]; [done|].
  intros st r st' Hi Hp [->| ->]; (split; [|done]).
  - split; [done|]. intros j. reflexivity.
  - destruct (Hfirm _ Hp). by apply remember_gentle.
Qed.

Lemma create_dir_triple P dir :
  dir = LeasesDir \/ dir = TombstonesDir -> Stable P -> locking P -> Frames P dir ->
  triple P (create_records_dir dir) (fun r st => match r with Ok _ => P st /\ firm st StoreDir /\ firm st dir | Err _ => P st end).
Proof.
  intros Hdir HP HL HF. assert (record_dir dir = true) as Hrd by (by destruct Hdir as [->| ->]).
  assert (stored dir = true) as Hsd by (by destruct Hdir as [->| ->]).
  assert (dir_of dir = StoreEntries) as Hof by (by destruct Hdir as [->| ->]).
  pose proof (stable_exists P dir HP HL Hsd) as Hex.
  assert (Stable (fun st => P st /\ firm st dir)) as Hfd.
  { intros st st' Hr [? ?]. split; [by eapply HP|]. eauto with lease. }
  assert (Stable (fun st => P st /\ firm st StoreDir /\ firm st dir)) as Hff.
  { intros st st' Hr (? & ? & ?). split; [by eapply HP|]. split; eauto with lease. }
  unfold create_records_dir.
  eapply triple_attempt; [eapply triple_conseq; [apply (check_triple P), HP|done|intros [v|e] st H; [exact H|by destruct H]]|].
  intros exists_.
  eapply (triple_attempt _ _ _ _ (fun b st => P st /\ if (b : bool) then firm st StoreDir /\ firm st dir else is_Some (contents st dir))).
  - destruct exists_.
    + eapply triple_conseq; [apply (known_triple (fun st => P st /\ is_Some (contents st dir)))|..]; [done|..].
      * intros st _ [? [v Hv]]. split; [done|]. exists v. by apply seen_contents.
      * intros [[]|e] st; naive_solver.
    + eapply triple_attempt; [eapply triple_conseq; [apply (make_dir_triple P dir Hdir HP HL HF)|by intros st _ [? _]|]|].
      * intros [u|e] st H; [exact H|]. done.
      * intros []. apply triple_done. auto.
  - intros [|]; [apply triple_done; naive_solver|].
    eapply triple_attempt; [eapply triple_conseq; [apply sync_triple, Hex|done|]|].
    + intros [u|e] st [[? ?] ?]; [|done]. assert (firm st dir) by (apply firm_of_always; auto). exact (conj H H2).
    + intros [].
      eapply triple_attempt; [eapply triple_conseq; [apply sync_triple, Hfd|done|]|].
      * intros [u|e] st [[? ?] ?]; [|done]. destruct (HL _ H).
        assert (firm st StoreDir) by (apply firm_of_always; auto). exact (conj H (conj H4 H0)).
      * intros []. eapply triple_conseq; [apply (remember_triple _ dir Hrd Hff); naive_solver|done|]. by intros [u|e] st (? & ? & ?).
Qed.

(** An assertion that was shown of the end of a program. *)
Definition okay {E A} (M : A -> State -> Prop) (r : result E A) (st : State) : Prop :=
  match r with Ok a => M a st | Err _ => True end.

Lemma okay_and {R E A} P (p : Prog R) (f : R -> result E A) Q (M : A -> State -> Prop) :
  triple P p Q -> (forall r st, Q r st -> okay M (f r) st) -> triple P p (fun r st => okay M (f r) st).
Proof. intros H HQ. by eapply triple_conseq. Qed.

Ltac weaken H := eapply triple_conseq; [exact H|done|].

Lemma write_triple P file content (M : State -> Prop) :
  names_lease file content = [] -> Stable P ->
  (forall st, Inv st -> P st -> keeps i st (put file (Some content) st)) ->
  (forall st, Inv st -> P st -> M (put file (Some content) st)) ->
  triple P (call (Write file content)) (okay (fun _ => M)).
Proof.
  intros Hn HP Hstep HM. apply triple_call; [done|]. intros st r st' Hi Hp Ha.
  destruct r as [u|e]; cbn in Ha; rewrite written_put in Ha by done.
  - destruct Ha as [_ [_ ->]]. split; [by apply Hstep|]. by apply HM.
  - destruct Ha as [_ [->|[_ ->]]]; (split; [|done]); [by apply keeps_same|by apply Hstep].
Qed.

Lemma stable_quarantined P generation :
  Stable P -> locking P ->
  Stable (fun st => P st /\ firm st StoreDir /\ firm st TombstonesDir /\ is_Some (contents st (TombstoneFile generation))).
Proof.
  intros HP HL st st' Hr (Hp & ? & ? & ?). destruct (HL _ Hp) as [? _]. split; [by eapply HP|]. repeat split; eauto with lease.
Qed.

Lemma write_tombstone_triple P generation :
  Stable P -> locking P -> Frames P TombstonesDir -> Frames P (TombstoneFile generation) ->
  triple P (write_tombstone self generation)
    (okay (fun _ st => P st /\ firm st StoreDir /\ firm st TombstonesDir /\ firm st (TombstoneFile generation))).
Proof.
  intros HP HL HF1 HF2. pose proof (stable_quarantined P generation HP HL) as Hq. unfold write_tombstone.
  eapply (triple_try _ _ (fun b st => P st /\ ((b : bool) = true -> is_Some (contents st (TombstoneFile generation)))));
    [eapply triple_conseq; [apply (tombstoned_triple P), HP|done|by intros [[]|e] st [? ?]]|intros tombstoned|done].
  eapply (triple_try _ _ (fun _ st => P st /\ firm st StoreDir /\ firm st TombstonesDir /\ is_Some (contents st (TombstoneFile generation)))); [| |done].
  - destruct tombstoned.
    + apply triple_done. intros st Hi [Hp [v Hv]]; [done|]. split; [done|].
      destruct (inv_tombstones _ Hi generation v) as [? ?]; [rewrite <- Hv; apply contents_possible|eauto].
    + eapply (triple_try _ _ (fun _ st => P st /\ firm st StoreDir /\ firm st TombstonesDir));
        [eapply triple_conseq; [apply (create_dir_triple P TombstonesDir)|..]|intros []|done]; try done; [by right|by intros st _ [? _]|by intros [u|e] st|].
      apply (write_triple _ _ _ (fun st => P st /\ firm st StoreDir /\ firm st TombstonesDir /\ is_Some (contents st (TombstoneFile generation)))); [done|..].
      * intros st st' Hr (Hp & ? & ?). split; [by eapply HP|]. split; eauto with lease.
      * intros st Hi (Hp & ? & ?). apply quarantine_step; try done. by apply HL.
      * intros st Hi (Hp & ? & ?). split; [by apply HF2|]. split; [by apply always_put|]. split; [by apply always_put|].
        rewrite contents_put, decide_True by done. eauto.
  - intros []. weaken (sync_triple _ TombstoneEntries Hq). intros [u|e] st; [|done].
    intros [(? & ? & ? & ?) Hs]. repeat split; try done. apply firm_of_always; auto.
Qed.

Lemma remove_tombstone_triple P generation :
  Stable P ->
  (forall st, P st -> store_lock st = Some i /\
     always st IndexFile (fun v => forall store record, v = Some (IndexRecord store record) -> ~ lists_generation record generation)) ->
  triple P (remove_tombstone self generation) (fun _ _ => True).
Proof.
  intros HP Hcond. unfold remove_tombstone.
  eapply (triple_try _ _ (fun _ => P)); [eapply triple_conseq; [apply (tombstoned_triple P), HP|done|]|intros [|]|done].
  - by intros [[]|e] st [? ?].
  - apply (remove_triple P); try done. intros st Hi Hp. destruct (Hcond _ Hp). by apply clearance_step.
  - by apply triple_done.
Qed.

(** ** Deletion *)

(** No record of the generation is left. *)
Lemma drained_unbound st generation sandbox lease :
  Inv st -> recorded_in st generation [] [] ->
  Some (LeaseRecord lease) ∈ possible (disk st (Binding sandbox)) -> l_generation lease <> generation.
Proof.
  intros Hi Hd Hl Hg. destruct (bound_facts _ _ _ Hi Hl) as (_ & _ & _ & Hrec & _).
  assert (contents st (LeaseFile (l_id lease)) = Some (LeaseRecord lease)) as Hnow.
  { symmetry. apply Hrec, contents_possible. }
  destruct (Hd _ _ Hnow Hg) as [H|H]; by apply not_elem_of_nil in H.
Qed.

Definition doomed (record : Index) (generation : Z) (st : State) : Prop :=
  store_lock st = Some i /\ indexed st record /\ firm st TombstonesDir /\ firm st (TombstoneFile generation)
  /\ recorded_in st generation [] [].

Lemma doomed_stable record generation : Stable (doomed record generation).
Proof.
  intros st st' Hr (? & [? ?] & ? & Ht & ?). repeat split; eauto with lease. eapply (keep_always Hr (TombstoneFile generation)); eauto with lease.
Qed.

Lemma doomed_payload record generation content st : doomed record generation st -> doomed record generation (put (PayloadDir generation) content st).
Proof.
  intros (? & [? ?] & ? & ? & Hd). repeat split; try done; try (rewrite contents_put; by case_decide); try by apply always_put.
Qed.

Lemma doomed_keeps record generation content st : Inv st -> doomed record generation st -> keeps i st (put (PayloadDir generation) content st).
Proof.
  intros Hi (? & [? ?] & ? & ? & Hd). apply deletion_step; try done. intros s l Hl. by eapply drained_unbound.
Qed.

Lemma remove_payload_triple record generation :
  triple (doomed record generation) (remove_payload generation) (okay (fun _ => doomed record generation)).
Proof.
  pose proof (doomed_stable record generation) as Hs. unfold remove_payload.
  eapply (triple_try _ _ (fun _ => doomed record generation)); [|intros _|done].
  { unfold check_generations_dir. eapply (triple_try _ _ (fun _ => doomed record generation)); [|intros _; by apply triple_done|done].
    eapply triple_conseq; [apply examine_triple, Hs|done|by intros []]. }
  eapply (triple_try _ _ (fun _ => doomed record generation)); [|intros [|]|done]; [|clear|by apply triple_done].
  { eapply triple_conseq; [apply check_triple, Hs|done|by intros [] st [? _]]. }
  pose proof (doomed_stable record generation) as Hs. unfold remove_dir_all.
  eapply (triple_bind _ _ _ _ (fun _ => doomed record generation)).
  - apply triple_do; [done|]. intros st r st' Hi Hp [->|[_ ->]].
    + split; [by apply keeps_same|done].
    + split; [by eapply doomed_keeps|by apply doomed_payload].
  - intros [u|[]]; try by apply triple_done. apply remove_triple; [done|..]; intros; cbn; eauto using doomed_keeps, doomed_payload.
Qed.

Lemma without_lists generation record other : lists_generation (without generation record) other -> lists_generation record other /\ other <> generation.
Proof.
  unfold lists_generation, without. cbn. rewrite !list_elem_of_fmap. intros (indexed_ & -> & Hin).
  apply list_elem_of_In, filter_In in Hin as [Hin Hne]. split; [exists indexed_; split; [done|by apply list_elem_of_In]|]. lia.
Qed.

Lemma write_index_triple P record record' :
  Stable P ->
  (forall st, P st -> store_lock st = Some i /\ indexed st record /\
     forall generation, lists_generation record' generation ->
       lists_generation record generation \/ always st (PayloadDir generation) whole) ->
  triple P (write_index self record')
    (okay (fun _ st => store_lock st = Some i /\ indexed st record')).
Proof.
  intros HP Hcond. apply write_triple; [done|done|..]; intros st Hi Hp; destruct (Hcond _ Hp) as (? & [? ?] & ?).
  - by eapply index_step.
  - by repeat split.
Qed.

Lemma indexed_stable record : Stable (fun st => store_lock st = Some i /\ indexed st record).
Proof. intros st st' Hr (? & ? & ?). repeat split; eauto with lease. Qed.

(** What a sync of the store's directory makes of the index. *)
Lemma settled_index st record generation :
  indexed st record -> ~ lists_generation record generation ->
  (forall file, dir_of file = StoreEntries -> always st file (eq (contents st file))) ->
  always st IndexFile (fun v => forall store other, v = Some (IndexRecord store other) -> ~ lists_generation other generation).
Proof.
  intros [Hnow _] Hnot Hs v Hv. rewrite <- (Hs IndexFile eq_refl v Hv), Hnow. by intros ? ? [= <- <-].
Qed.

Lemma settled_index_stable generation :
  Stable (fun st => store_lock st = Some i /\
     always st IndexFile (fun v => forall store record, v = Some (IndexRecord store record) -> ~ lists_generation record generation)).
Proof. intros st st' Hr [? ?]. split; eauto with lease. Qed.

Lemma clear_triple {A} record generation (a : A) :
  ~ lists_generation record generation ->
  triple (fun st => store_lock st = Some i /\ indexed st record)
    (let? _ := call (Sync StoreEntries) in let? _ := remove_tombstone self generation in succeed a) (fun _ _ => True).
Proof.
  intros Hnot. eapply triple_try; [weaken (sync_triple _ StoreEntries (indexed_stable record))|intros u|done].
  - intros [u|e] st; [|done]. intros [[? ?] Hs]. exact (conj H (settled_index _ _ _ H0 Hnot Hs)).
  - eapply (triple_try _ _ (fun _ _ => True)); [|intros _; by apply triple_done|done].
    eapply triple_conseq; [apply (remove_tombstone_triple _ generation (settled_index_stable generation))|done|by intros []]. done.
Qed.

Lemma delete_triple record generation : triple (doomed record generation) (delete_generation self record generation) (fun _ _ => True).
Proof.
  unfold delete_generation.
  eapply triple_try; [apply remove_payload_triple|intros u|done].
  eapply (triple_try _ _ (fun _ => doomed record generation));
    [eapply triple_conseq; [apply sync_only, doomed_stable|done|by intros []]|intros _|done].
  eapply triple_try; [apply (write_index_triple _ record _ (doomed_stable record generation))|intros u'; apply clear_triple|done].
  - intros st (? & ? & _). split; [done|]. split; [done|]. intros g Hg. left. by apply without_lists in Hg as [? _].
  - intros Hg. by apply without_lists in Hg as [_ ?].
Qed.

(** ** Retirement *)

Definition quarantined (record : Index) (generation : Z) (st : State) : Prop :=
  store_lock st = Some i /\ indexed st record /\ firm st TombstonesDir /\ firm st (TombstoneFile generation).

Lemma quarantined_stable record generation : Stable (quarantined record generation).
Proof.
  intros st st' Hr (? & [? ?] & ? & Ht). repeat split; eauto with lease. eapply (keep_always Hr (TombstoneFile generation)); eauto with lease.
Qed.

Definition draining record generation ids live (st : State) : Prop :=
  quarantined record generation st /\ recorded_in st generation ids live.

Lemma draining_stable record generation ids live : Stable (draining record generation ids live).
Proof.
  intros st st' Hr [H ?]. split; [by eapply quarantined_stable|]. destruct H as [? _]. eauto with lease.
Qed.

(** The record [id] is [lease]'s while it lasts. *)
Definition only_record (st : State) (id : LeaseId) (lease : Lease) : Prop :=
  forall other, contents st (LeaseFile id) = Some (LeaseRecord other) -> other = lease.

Definition examining record generation id ids live lease (st : State) : Prop :=
  draining record generation (id :: ids) live st /\ recorded_in st generation ids (live ++ [lease]) /\ only_record st id lease.

Lemma examining_stable record generation id ids live lease : Stable (examining record generation id ids live lease).
Proof.
  intros st st' Hr (H & ? & Ho). split; [by eapply draining_stable|]. destruct H as [[Hl _] _]. split; [by eauto with lease|].
  intros other Hother. apply Ho. destruct (rely_fading _ _ _ Hr (LeaseFile id) Hl eq_refl) as [[<-|?] _]; [done|congruence].
Qed.

(** The binding of the lease is gone, now, or whatever a crash leaves. *)
Definition unbound (lease : Lease) (st : State) : Prop := contents st (Binding (l_sandbox lease)) <> Some (LeaseRecord lease).
Definition never_bound (lease : Lease) (st : State) : Prop :=
  Some (LeaseRecord lease) ∉ possible (disk st (Binding (l_sandbox lease))).

Lemma unbound_stable P lease :
  Stable P -> (forall st, P st -> store_lock st = Some i) -> Stable (fun st => P st /\ unbound lease st).
Proof. intros HP HL st st' Hr [Hp Hu]. split; [by eapply HP|]. eapply keep_unbound; eauto. Qed.

Lemma never_bound_stable P lease :
  Stable P -> (forall st, P st -> store_lock st = Some i) -> Stable (fun st => P st /\ never_bound lease st).
Proof. intros HP HL st st' Hr [Hp Hu]. split; [by eapply HP|]. eapply keep_never; eauto. Qed.

Lemma is_bound_triple P lease :
  Stable P -> triple P (is_bound lease) (fun r st => P st /\ okay (fun b st => b = false -> unbound lease st) r st).
Proof.
  intros HP. unfold is_bound. eapply triple_attempt; [weaken (read_binding_triple P (l_sandbox lease) HP)|].
  - intros [v|e] st H; [exact H|]. destruct H. by split.
  - intros v. apply triple_done. intros st Hi [Hp H]. split; [done|]. cbn. unfold unbound. destruct v as [b|].
    + rewrite H. intros Hb [= ->]. rewrite !bool_decide_true in Hb by done. done.
    + intros _ Hc. unfold seen, close, held in H. cbn in H. destruct (contents st (SandboxDir (l_sandbox lease))) eqn:E; cbn in H; [congruence|].
      pose proof (inv_gone _ Hi _ E _ (contents_possible _ _)). congruence.
Qed.

Lemma holding_triple P dirs : Stable P -> triple P (holding_dir dirs) (fun _ st => P st).
Proof.
  intros HP. induction dirs as [|dir dirs IH]; [by apply triple_done|].
  eapply triple_bind; [by apply (triple_look P (Stat dir)); [intros ? ? ? ->|]|].
  intros [[]|[]]; try (apply triple_done; by intros st _ [? _]); try (eapply triple_conseq; [exact IH|by intros st _ [? _]|done]).
  eapply triple_bind; [eapply triple_conseq; [by apply (triple_look P (Lstat dir)); [intros ? ? ? [-> _]|]|by intros st _ [? _]|by intros r st H; exact H]|].
  intros [[]|[]]; try (apply triple_done; by intros st _ [? _]); (eapply triple_conseq; [exact IH|by intros st _ [? _]|done]).
Qed.

(** The directories through which the binding went, unless no crash can bring it back. *)
Definition covered (lease : Lease) (dirs : list Dir) (st : State) : Prop :=
  unbound lease st /\ (SandboxEntries (l_sandbox lease) ∈ dirs \/ never_bound lease st).

Lemma covered_stable P lease dirs :
  Stable P -> (forall st, P st -> store_lock st = Some i) -> Stable (fun st => P st /\ covered lease dirs st).
Proof.
  intros HP HL st st' Hr (Hp & Hu & Hn). split; [by eapply HP|]. split; [eapply keep_unbound; eauto|].
  destruct Hn as [?|?]; [by left|]. right. eapply keep_never; eauto.
Qed.

Lemma binding_dirs_triple P lease :
  faulty = false -> Stable P -> (forall st, P st -> store_lock st = Some i) ->
  triple (fun st => P st /\ unbound lease st) (binding_dirs (l_sandbox lease)) (okay (fun dirs st => P st /\ covered lease dirs st)).
Proof.
  intros Hfaulty HP HL. unfold binding_dirs.
  eapply (triple_bind _ _ _ _ (fun r st => P st /\ covered lease (match r with Ok IsDir => [SandboxEntries (l_sandbox lease)] | _ => [] end) st)).
  - apply triple_do; [by apply unbound_stable|]. intros st r st' Hi [Hp Hu] [-> Ha]. split; [by apply keeps_same|].
    split; [done|]. split; [done|]. rewrite Hfaulty in Ha.
    destruct (seen st (SandboxDir (l_sandbox lease))) eqn:E; cbn in Ha.
    + destruct Ha as [->|[? _]]; [|done]. left. left.
    + right. intros Hin. unfold seen, close, held in E. cbn in E. by specialize (inv_gone _ Hi _ E _ Hin).
  - intros r. set (own := match r with Ok IsDir => _ | _ => _ end).
    eapply triple_try; [weaken (holding_triple _ (ancestors (l_sandbox lease)) (covered_stable P lease own HP HL))|..].
    + intros [h|e] st H; [exact H|done].
    + intros h. apply triple_done. intros st _ (Hp & Hu & Hn). split; [done|]. split; [done|].
      destruct Hn as [?|?]; [left; apply elem_of_app; by left|by right].
    + done.
Qed.

Lemma sync_all_triple P lease dirs :
  Stable P -> (forall st, P st -> store_lock st = Some i) ->
  triple (fun st => P st /\ covered lease dirs st) (sync_all dirs) (okay (fun _ st => P st /\ never_bound lease st)).
Proof.
  intros HP HL. induction dirs as [|dir dirs IH]; cbn [sync_all].
  - apply triple_done. intros st _ (? & _ & [H|?]); [by apply not_elem_of_nil in H|done].
  - eapply triple_try; [weaken (sync_triple _ dir (covered_stable P lease (dir :: dirs) HP HL))|..].
    + intros [u|e] st; [|done]. intros [(Hp & Hu & Hn) Hs].
      assert (P st /\ covered lease dirs st) as H; [|exact H]. split; [done|]. split; [done|].
      destruct Hn as [[<-|?]%elem_of_cons|?]; [|by left|by right].
      right. intros Hin. unfold unbound in Hu. apply Hu, (Hs (Binding _) eq_refl _ Hin).
    + intros u. exact IH.
    + done.
Qed.

Lemma record_seen st id lease : Inv st -> contents st (LeaseFile id) = Some (LeaseRecord lease) -> seen st (LeaseFile id) = Some (LeaseRecord lease).
Proof.
  intros Hi Hc. destruct (inv_records _ Hi id (LeaseRecord lease)) as [Hs Hd]; [rewrite <- Hc; apply contents_possible|].
  destruct (Hs _ (contents_possible st StoreDir)) as [? H1], (Hd _ (contents_possible st LeasesDir)) as [? H2].
  rewrite seen_held; [done|]. unfold held. cbn. by rewrite H1, H2.
Qed.

(** A record that is read and examined names no lease that a binding may name. *)
Lemma unrecord_drained st record generation id ids live lease :
  Inv st -> examining record generation id ids live lease st -> never_bound lease st -> keeps i st (put (LeaseFile id) None st).
Proof.
  intros Hi (([Hl _] & _) & _ & Ho) Hn. apply unrecord_step; [done|by left|].
  intros s l Hin <-. destruct (bound_facts _ _ _ Hi Hin) as (<- & _ & _ & Hrec & _).
  rewrite (Ho l) in Hin by (symmetry; apply Hrec, contents_possible). done.
Qed.

Lemma drain_triple record generation ids live :
  faulty = false ->
  triple (draining record generation ids live) (drain self generation ids live) (okay (fun live' => draining record generation [] live')).
Proof.
  intros Hfaulty. revert live. induction ids as [|id ids IH]; intros live; cbn [drain]; [by apply triple_done|].
  eapply triple_try; [weaken (read_lease_triple _ id (draining_stable record generation (id :: ids) live))|..]; [intros [v|e] st H; [exact H|done]| |done].
  intros [lease|].
  2: { eapply triple_conseq; [apply IH| |done]. intros st Hi [[Hq Hr] Hnone]. split; [done|].
       intros id' l Hc Hg. destruct (Hr _ _ Hc Hg) as [[->|?]%elem_of_cons|?]; [|by left|by right].
       apply record_seen in Hc; [congruence|done]. }
  destruct (Z.eqb_spec (l_generation lease) generation) as [Hg|Hg]; cbn [negb].
  2: { eapply triple_conseq; [apply IH| |done]. intros st Hi [[Hq Hr] (Hc & _)]. split; [done|].
       intros id' l Hc' Hg'. destruct (Hr _ _ Hc' Hg') as [[->|?]%elem_of_cons|?]; [congruence|by left|by right]. }
  set (E := examining record generation id ids live lease).
  assert (Stable E) as HE by apply examining_stable.
  assert (forall st, E st -> store_lock st = Some i) as HL by (by intros st (([? _] & _) & _)).
  eapply triple_try; [eapply (triple_conseq _ _ _ E); [exact (is_bound_triple E lease HE)| |]|..].
  { intros st _ [[Hq Hr] (Hc & Hid & _)]. split; [done|]. split; [|intros other; congruence].
    intros id' l Hc' Hg'. destruct (Hr _ _ Hc' Hg') as [[->|?]%elem_of_cons|?]; [right|by left|right]; apply elem_of_app.
    - right. apply list_elem_of_singleton. congruence.
    - by left. }
  { intros [b|e] st H; [exact H|done]. }
  2: done.
  intros [|].
  - eapply triple_conseq; [apply IH| |done]. intros st _ [((Hq & _) & Hr & _) _]. by split.
  - eapply triple_try; [eapply triple_conseq; [exact (binding_dirs_triple E lease Hfaulty HE HL)| |by intros r st H; exact H]|..].
    { intros st _ [? Hb]. split; [done|]. by apply Hb. }
    2: done.
    intros dirs. eapply triple_try; [exact (sync_all_triple E lease dirs HE HL)| |done].
    intros u. eapply (triple_try _ _ (fun _ => draining record generation ids live)); [|intros u'; apply IH|done].
    apply remove_triple; [by apply never_bound_stable|..]; cbn.
    + intros st Hi [He Hn]. by eapply unrecord_drained.
    + intros st Hi [((Hq & Hr) & _ & _) _]. split.
      * destruct Hq as (? & [? ?] & ? & ?). repeat split; try done; by apply always_put.
      * intros id' l. rewrite contents_put. case_decide as Hd; [done|]. intros Hc Hg'.
        destruct (Hr _ _ Hc Hg') as [[->|?]%elem_of_cons|?]; [done|by left|by right].
    + intros st Hi [((Hq & Hr) & _ & _) _] Hnone. split; [done|]. intros id' l Hc Hg'.
      destruct (Hr _ _ Hc Hg') as [[->|?]%elem_of_cons|?]; [|by left|by right]. apply record_seen in Hc; [congruence|done].
    + done.
Qed.

(** The listing of the records of the leases names every one. *)
Lemma records_triple {A} P dir (listing : Action (list (Entry A))) (M : list A -> State -> Prop) :
  Stable P -> (forall st r st', acts faulty i listing st r st' -> st' = st) ->
  (forall st, Inv st -> P st -> seen st dir = None -> M [] st) ->
  (forall st entries, Inv st -> P st -> acts faulty i listing st (Ok entries) st ->
     M (omap (fun entry => match entry with Named_record record => Some record | _ => None end) entries) st) ->
  triple P (records dir listing) (okay (fun listed st => P st /\ M listed.1 st)).
Proof.
  intros HP Hsame Hnone Hsome. unfold records.
  eapply triple_try; [weaken (check_triple P dir HP); intros [v|e] st H; [exact H|done]| |done].
  intros [|]; cbn [negb].
  2: { apply triple_done. intros st Hi [? ?]. cbn. auto. }
  eapply triple_try; [eapply triple_conseq; [apply (triple_view P listing (fun r st => match r with Ok entries => acts faulty i listing st (Ok entries) st | Err _ => True end)); try done; by intros st [entries|e]|by intros st _ [? _]|]| |done].
  - intros [entries|e] st H; [exact H|done].
  - intros entries. destruct (existsb foreign entries); apply triple_done; [done|]. intros st Hi [? ?]. cbn. auto.
Qed.

Lemma records_only {A} P dir (listing : Action (list (Entry A))) :
  Stable P -> (forall st r st', acts faulty i listing st r st' -> st' = st) ->
  triple P (records dir listing) (okay (fun _ => P)).
Proof.
  intros HP Hsame. eapply triple_conseq; [apply (records_triple P dir listing (fun _ _ => True))|done|]; try done.
  intros [v|e] st; [by intros [? _]|done].
Qed.

Lemma leases_triple P generation :
  Stable P -> triple P (records LeasesDir ListLeases) (okay (fun listed st => P st /\ recorded_in st generation listed.1 [])).
Proof.
  intros HP. apply (records_triple P LeasesDir ListLeases (fun ids st => recorded_in st generation ids [])); [done|by intros ? ? ? [-> _]|..].
  - intros st Hi _ Hn id l Hc _. apply record_seen in Hc; [|done]. exfalso.
    unfold seen, close, held in Hn, Hc. cbn in Hn, Hc. destruct (contents st StoreDir), (contents st LeasesDir); done.
  - intros st entries Hi _ [_ Hl] id l Hc _. left. apply list_elem_of_omap. exists (Named_record id). split; [|done].
    apply Hl. by rewrite (record_seen _ _ _ Hi Hc).
Qed.

Lemma temporaries_triple P names : Stable P -> triple P (remove_temporaries names) (okay (fun _ => P)).
Proof.
  intros HP. induction names as [|name names IH]; cbn [remove_temporaries]; [by apply triple_done|].
  eapply triple_bind; [by apply (triple_look P (RemoveTemporary name)); [intros ? ? ? ->|]|].
  intros [u|[]]; try (by apply triple_done); (eapply triple_conseq; [exact IH|by intros st _ [? _]|done]).
Qed.

Lemma locked_triple {A} (body : Prog (result Error A)) (Q : result Error A -> State -> Prop) :
  triple (fun st => store_lock st = Some i) body Q ->
  (forall r, Stable (Q r)) -> (forall r st, Q r st -> Q r (st <| store_lock := None |>)) -> (forall e st, Q (Err e) st) ->
  triple (fun _ => True) (locked body) Q.
Proof.
  intros Hbody HQ Hunlock Herr. unfold locked.
  eapply (triple_try _ _ (fun _ st => store_lock st = Some i)); [|intros _|done].
  - apply triple_call; [done|]. intros st r st' Hi _ Ha. destruct r; cbn in *.
    + destruct Ha as (Hn & _ & ->). split; [|done].
      destruct (gentle_keeps i (fun _ => True) _ _ (lock_store_gentle i st Hi Hn)); done.
    + subst. split; [by apply keeps_same|done].
  - eapply triple_bind; [exact Hbody|]. intros r.
    eapply (triple_bind _ _ _ _ (fun _ st => Q r st)); [|intros r'; by apply triple_done].
    apply triple_do; [apply HQ|]. intros st r' st' Hi Hq [Hl ->]. split; [by apply unlock_store_keeps|auto].
Qed.

Lemma get_lists record generation : is_Some (get record generation) -> lists_generation record generation.
Proof.
  intros [x Hx]. unfold get in Hx. apply find_some in Hx as [Hin He]. apply list_elem_of_fmap. exists x.
  split; [lia|by apply list_elem_of_In].
Qed.

Lemma get_not_lists record generation : get record generation = None -> ~ lists_generation record generation.
Proof.
  intros Hn Hl. apply list_elem_of_fmap in Hl as (x & -> & Hin). apply list_elem_of_In in Hin.
  pose proof (find_none _ _ Hn _ Hin). cbn in *. lia.
Qed.

Lemma holds_stable : Stable (fun st => store_lock st = Some i).
Proof. intros st st' Hr ?. eauto with lease. Qed.

Lemma index_under : triple (fun st => store_lock st = Some i) (index self) (okay (fun record st => store_lock st = Some i /\ indexed st record)).
Proof. weaken (index_triple _ holds_stable). intros [v|e] st H; [exact H|done]. Qed.

Lemma indexed_locking record : locking (fun st => store_lock st = Some i /\ indexed st record).
Proof. by intros st (? & ? & ?). Qed.

Lemma retire_triple generation : faulty = false -> triple (fun _ => True) (retire self generation) (fun _ _ => True).
Proof.
  intros Hfaulty. apply locked_triple; try done.
  eapply triple_try; [apply index_under| |done]. intros record. destruct (get record generation) eqn:Eg.
  2: { destruct (_ <=? _); [by apply triple_done|]. by apply clear_triple, get_not_lists. }
  set (P := fun st => store_lock st = Some i /\ indexed st record).
  pose proof (indexed_stable record : Stable P) as HP.
  eapply triple_try; [apply (leases_triple P generation HP)| |done]. intros leases.
  set (P' := fun st => P st /\ recorded_in st generation leases.1 []).
  assert (Stable P') as HP'. { intros st st' Hr [H ?]. split; [by eapply HP|]. destruct H. eauto with lease. }
  eapply triple_try; [apply (records_only P' TombstonesDir ListTombstones HP'); by intros ? ? ? [-> _]| |done]. intros tombstones.
  eapply triple_try; [apply (write_tombstone_triple P' generation HP')| |done].
  { by intros st [(? & ? & ?) _]. }
  { intros st c [(? & ? & ?) Hr]. by repeat split. }
  { intros st c [(? & ? & ?) Hr]. by repeat split. }
  intros u. set (P'' := draining record generation leases.1 []).
  eapply (triple_try _ _ (fun _ => P'')); [|intros u'|done].
  { eapply triple_conseq; [apply (temporaries_triple P'')|..].
    - apply draining_stable.
    - intros st _ ([[Hl Hx] Hrec] & _ & Hd & Ht). exact (conj (conj Hl (conj Hx (conj Hd Ht))) Hrec).
    - done. }
  eapply triple_try; [apply (drain_triple record generation leases.1 [] Hfaulty)| |done].
  intros [|l live]; [|by apply triple_done].
  eapply triple_conseq; [apply (delete_triple record)| |done].
  intros st _ [(Hl & Hx & Hd & Ht) Hrec]. exact (conj Hl (conj Hx (conj Hd (conj Ht Hrec)))).
Qed.

Lemma tombstone_triple generation : triple (fun _ => True) (tombstone self generation) (fun _ _ => True).
Proof.
  apply locked_triple; try done.
  eapply triple_try; [apply index_under| |done]. intros record. destruct (get record generation); [|by apply triple_done].
  eapply triple_conseq; [apply (write_tombstone_triple _ generation (indexed_stable record) (indexed_locking record))|done|done].
  - intros st c (? & ? & ?). by repeat split.
  - intros st c (? & ? & ?). by repeat split.
Qed.

(** ** Publication *)

Lemma keep_present_triple P generations :
  Stable P -> triple P (keep_present generations) (okay (fun kept st => P st /\ forall x, x ∈ kept -> x ∈ generations)).
Proof.
  intros HP. induction generations as [|g generations IH]; cbn [keep_present]; [by apply triple_done|].
  eapply (triple_bind _ _ _ _ (fun _ => P)).
  { eapply triple_conseq; [by apply (triple_look P (Read (PayloadDir (g_generation g)))); [intros ? ? ? [-> _]|]|done|by intros r st [? _]]. }
  intros r. eapply triple_try; [exact IH| |done].
  intros kept. apply triple_done. intros st _ [Hp Hk]. split; [done|].
  assert (forall x, x ∈ g :: kept -> x ∈ g :: generations) as Hk'.
  { intros x [->|?]%elem_of_cons; [left|right; auto]. }
  destruct r as [[?|]|[]]; auto; intros x ?; right; auto.
Qed.

(** What an index lists beyond the one on the disk has payloads that are there, or that no crash
    loses. *)
Definition extends (record : Index) (Q : Z -> State -> Prop) (record' : Index) (st : State) : Prop :=
  store_lock st = Some i /\ indexed st record
  /\ forall generation, lists_generation record' generation -> lists_generation record generation \/ Q generation st.

Definition there (generation : Z) (st : State) : Prop := whole (contents st (PayloadDir generation)).
Definition safe (generation : Z) (st : State) : Prop := always st (PayloadDir generation) whole.

Lemma extends_there_stable record record' : Stable (extends record there record').
Proof.
  intros st st' Hr (? & [? ?] & Hx). split; [by eauto with lease|]. split; [split; eauto with lease|].
  intros g Hg. destruct (Hx g Hg) as [?|H']; [by left|]. right. unfold there in *.
  by rewrite (proj1 (rely_stored _ _ _ Hr (PayloadDir g) H eq_refl)).
Qed.

Lemma extends_safe_stable record record' : Stable (extends record safe record').
Proof.
  intros st st' Hr (? & [? ?] & Hx). split; [by eauto with lease|]. split; [split; eauto with lease|].
  intros g Hg. destruct (Hx g Hg) as [?|H']; [by left|]. right. eapply keep_always; eauto with lease.
Qed.

Lemma lists_push record next x generation :
  lists_generation (mkIndex next (i_generations record ++ [x])) generation -> lists_generation record generation \/ generation = g_generation x.
Proof.
  unfold lists_generation. cbn. rewrite fmap_app, elem_of_app. cbn. intros [?|H]; [by left|right].
  by apply list_elem_of_singleton in H.
Qed.

Lemma read_envelope_triple P generation :
  Stable P -> (forall st, P st -> store_lock st = Some i) ->
  triple P (read_envelope generation) (okay (fun _ st => P st /\ there generation st)).
Proof.
  intros HP HL. unfold read_envelope.
  eapply triple_try; [weaken (read_triple P (PayloadDir generation) HP); intros [v|e] st H; [exact H|done]| |done].
  intros [[| | | | [envelope|] |]|]; try by apply triple_done.
  assert (Stable (fun st => P st /\ there generation st)) as Hs.
  { intros st st' Hr [Hp Ht]. split; [by eapply HP|]. unfold there in *.
    by rewrite (proj1 (rely_stored _ _ _ Hr (PayloadDir generation) (HL _ Hp) eq_refl)). }
  eapply triple_try; [eapply triple_conseq; [exact (examine_triple _ Hs)| |intros [b|e] st H; [exact H|done]]| |done].
  - intros st _ [Hp Hv]. split; [done|]. exists envelope. by apply seen_contents.
  - intros [|]; by apply triple_done.
Qed.

Lemma complete_triple record fuel record' completed :
  triple (extends record (fun g st => g ∈ g_generation <$> completed /\ there g st) record') (complete fuel record' completed)
    (okay (fun r st => extends record (fun g st => g ∈ g_generation <$> r.2 /\ there g st) r.1 st)).
Proof.
  assert (forall record' (completed : list Generation), Stable (extends record (fun g st => g ∈ g_generation <$> completed /\ there g st) record')) as Hstable.
  { intros r' c st st' Hr (? & [? ?] & Hx). split; [by eauto with lease|]. split; [split; eauto with lease|].
    intros g Hg. destruct (Hx g Hg) as [?|[? H']]; [by left|]. right. split; [done|]. unfold there in *.
    by rewrite (proj1 (rely_stored _ _ _ Hr (PayloadDir g) H eq_refl)). }
  revert record' completed. induction fuel as [|fuel IH]; intros record' completed; cbn [complete]; [by apply triple_done|].
  pose proof (Hstable record' completed) as HP. set (P := extends _ _ _) in *.
  assert (forall st, P st -> store_lock st = Some i) as HL by (by intros st (? & _)).
  eapply (triple_bind _ _ _ _ (fun _ => P)).
  { eapply triple_conseq; [by apply (triple_look P (Read (PayloadDir (i_next record')))); [intros ? ? ? [-> _]|]|done|by intros r st [? _]]. }
  intros [[?|]|[]]; try (apply triple_done; by intros st _ ?).
  destruct (_ <=? _)%nat; [by apply triple_done|].
  eapply triple_try; [exact (read_envelope_triple P (i_next record') HP HL)| |done]. intros envelope.
  assert (Stable (fun st => P st /\ there (i_next record') st)) as Hs.
  { intros st st' Hr [Hp Ht]. split; [by eapply HP|]. unfold there in *.
    by rewrite (proj1 (rely_stored _ _ _ Hr (PayloadDir (i_next record')) (HL _ Hp) eq_refl)). }
  eapply triple_try; [weaken (sync_only _ (PayloadEntries (i_next record')) Hs); intros [u|e] st H; [exact H|done]| |done]. intros u.
  destruct (following (i_next record')) as [next|e]; [|by apply triple_done].
  eapply triple_conseq; [apply IH| |done].
  intros st _ [(? & Hx & Hp) Ht]. split; [done|]. split; [done|]. intros g Hg. rewrite fmap_app, elem_of_app.
  apply lists_push in Hg as [Hg| ->]; [|right; split; [right; left|done]].
  destruct (Hp g Hg) as [?|[? ?]]; auto.
Qed.

Lemma sync_slots_triple P slots : Stable P -> triple P (sync_slots slots) (okay (fun _ => P)).
Proof.
  intros HP. induction slots as [|slot slots IH]; cbn [sync_slots]; [by apply triple_done|].
  eapply (triple_try _ _ (fun _ => P)); [weaken (examine_triple P HP); by intros []| |done]. intros b.
  eapply (triple_try _ _ (fun _ => P)); [|intros u; exact IH|done]. destruct b; [|by apply triple_done].
  weaken (sync_only P (SlotEntries slot) HP). by intros [].
Qed.

Lemma recover_index_triple record :
  triple (fun st => store_lock st = Some i /\ indexed st record) (recover_index record)
    (okay (fun r st => extends record safe r.1.1 st)).
Proof.
  unfold recover_index. set (P := fun st => store_lock st = Some i /\ indexed st record).
  pose proof (indexed_stable record : Stable P) as HP.
  eapply (triple_try _ _ (fun _ => P)); [|intros u|done].
  { unfold check_generations_dir. eapply (triple_try _ _ (fun _ => P)); [weaken (examine_triple P HP); by intros []|intros b; by apply triple_done|done]. }
  eapply triple_try; [exact (keep_present_triple P (i_generations record) HP)| |done]. intros kept.
  eapply triple_try; [eapply triple_conseq; [apply (complete_triple record)| |intros r st H; exact H]| |done].
  { intros st _ [[? ?] Hk]. split; [done|]. split; [done|]. intros g Hg. left. unfold lists_generation in *. cbn in Hg.
    apply list_elem_of_fmap in Hg as (x & -> & Hx). apply list_elem_of_fmap. eauto. }
  intros [record' completed]. cbn [fst snd].
  eapply (triple_try _ _ (fun _ => extends record safe record')); [|intros u'; by apply triple_done|done].
  case_bool_decide as Hc.
  - apply triple_done. intros st _ (? & ? & Hx). split; [done|]. split; [done|]. intros g Hg.
    destruct (Hx g Hg) as [?|[Hin _]]; [by left|]. subst. by apply not_elem_of_nil in Hin.
  - eapply triple_try; [eapply triple_conseq; [apply (sync_triple _ GenerationEntries (extends_there_stable record record'))| |]| |done].
    + intros st _ (? & ? & Hx). split; [done|]. split; [done|]. intros g Hg. destruct (Hx g Hg) as [?|[_ ?]]; auto.
    + intros [u'|e] st; [|done]. intros [(? & ? & Hx) Hs].
      assert (extends record safe record' st) as H'; [|exact H']. split; [done|]. split; [done|]. intros g Hg.
      destruct (Hx g Hg) as [?|Ht]; [by left|]. right. intros v Hv. by rewrite <- (Hs (PayloadDir g) eq_refl v Hv).
    + intros u'. apply sync_slots_triple, extends_safe_stable.
Qed.

Lemma commit_triple record record' : triple (extends record safe record') (commit_index self record') (fun _ _ => True).
Proof.
  unfold commit_index, sync_store.
  eapply triple_try; [apply (write_index_triple _ record record' (extends_safe_stable record record')); by intros st (? & ? & ?)| |done].
  intros u. pose proof (indexed_stable record') as HP.
  eapply triple_try; [weaken (sync_only _ StoreEntries HP); intros [u'|e] st H; [exact H|done]| |done].
  intros u'. weaken (sync_only _ StoreParent HP). done.
Qed.

Lemma keeps_gentle st st1 st2 : keeps i st st1 -> gentle st1 st2 -> keeps i st st2.
Proof. intros [_ H1] [Hi H2]. split; [done|]. intros j Hj. etrans; [by apply H1|done]. Qed.

Lemma rename_triple record record' slot :
  triple (extends record safe record') (call (Rename slot (i_next record')))
    (okay (fun _ st => extends record safe record' st /\ there (i_next record') st)).
Proof.
  apply triple_call; [apply extends_safe_stable|]. intros st r st' Hi Hp Ha.
  assert (forall st', (contents st (PayloadDir (i_next record')) = None /\ exists envelope, seen st (Transaction slot) = Some (Payload (Some envelope))
      /\ st' = put (Transaction slot) None (put (PayloadDir (i_next record')) (Some (Payload (Some envelope))) st)) ->
    keeps i st st' /\ extends record safe record' st' /\ there (i_next record') st') as Hmoved.
  { intros st'' (_ & envelope & _ & ->). destruct Hp as (Hlock & [? ?] & Hx).
    pose proof (publication_step i (i_next record') envelope st Hi Hlock) as Hk. split; [|split].
    - eapply keeps_gentle; [exact Hk|]. apply irrelevant_put; [by destruct Hk|done].
    - split; [done|]. split; [done|]. intros g Hg. destruct (Hx g Hg) as [?|?]; [by left|]. right.
      apply always_put; [|done]. apply always_put; [done|]. intros _. by eexists.
    - unfold there. rewrite contents_put. case_decide; [done|]. rewrite contents_put, decide_True by done. by eexists. }
  destruct r as [u|e]; cbn in Ha.
  - destruct Ha as [_ Ha]. by destruct (Hmoved _ Ha).
  - destruct Ha as [_ [->|Ha]]; [split; [by apply keeps_same|done]|]. by destruct (Hmoved _ Ha).
Qed.

Lemma publish_triple slot envelope : triple (fun _ => True) (publish self slot envelope) (fun _ _ => True).
Proof.
  apply locked_triple; try done.
  eapply triple_try; [apply index_under| |done]. intros record.
  eapply triple_try; [apply (recover_index_triple record)| |done]. intros [[record' completed] changed]. cbn [fst snd].
  destruct (_ <=? _)%nat.
  { eapply (triple_try _ _ (fun _ _ => True)); [|intros u; by apply triple_done|done]. destruct changed; [|by apply triple_done].
    eapply triple_conseq; [apply (commit_triple record)|done|by intros []]. }
  eapply triple_try; [apply (rename_triple record)| |done]. intros u.
  assert (Stable (fun st => extends record safe record' st /\ there (i_next record') st)) as Hs.
  { intros st st' Hr [Hp Ht]. split; [by eapply extends_safe_stable|]. unfold there in *. destruct Hp as [Hl _].
    by rewrite (proj1 (rely_stored _ _ _ Hr (PayloadDir (i_next record')) Hl eq_refl)). }
  assert (Stable (fun st => extends record safe record' st /\ safe (i_next record') st)) as Hs'.
  { intros st st' Hr [Hp Ht]. split; [by eapply extends_safe_stable|]. destruct Hp as [Hl _]. eapply keep_always; eauto with lease. }
  eapply (triple_try _ _ (fun _ st => extends record safe record' st /\ safe (i_next record') st));
    [weaken (sync_triple _ GenerationEntries Hs)|intros u'|done].
  { intros [u'|e] st; [|done]. intros [[? Ht] Hsync]. split; [done|]. intros v Hv. by rewrite <- (Hsync (PayloadDir _) eq_refl v Hv). }
  eapply triple_try; [weaken (sync_only _ (SlotEntries slot) Hs'); intros [u''|e] st H; [exact H|done]| |done]. intros u''.
  destruct (following (i_next record')) as [next|e]; [|by apply triple_done].
  apply triple_pure. eapply (triple_try _ _ (fun _ _ => True)); [|intros v; by apply triple_done|done].
  eapply triple_conseq; [apply (commit_triple record)| |by intros []].
  intros st _ [(? & ? & Hx) Hsafe]. split; [done|]. split; [done|]. intros g Hg.
  apply lists_push in Hg as [Hg| ->]; [by apply Hx|by right].
Qed.

Lemma recover_triple : triple (fun _ => True) (recover_publications self) (fun _ _ => True).
Proof.
  apply locked_triple; try done.
  eapply triple_try; [apply index_under| |done]. intros record.
  eapply triple_try; [apply (recover_index_triple record)| |done]. intros [[record' completed] changed]. cbn [fst snd].
  eapply (triple_try _ _ (fun _ _ => True)); [|intros u; by apply triple_done|done]. destruct changed; [|by apply triple_done].
  eapply triple_conseq; [apply (commit_triple record)|done|by intros []].
Qed.

(** ** Acquisition *)

(** What the acquisition knows before it draws the lease. *)
Definition eligible (generation : Z) (sandbox : Path) (st : State) : Prop :=
  store_lock st = Some i /\ is_Some (contents st StoreDir) /\ safe generation st /\ sandbox_lock st sandbox = Some i.

Lemma eligible_stable generation sandbox : Stable (eligible generation sandbox).
Proof. intros st st' Hr (? & ? & ? & ?). repeat split; eauto with lease. eapply keep_always; eauto with lease. Qed.

(** The lease that it drew. *)
Definition drew (lease : Lease) (st : State) : Prop :=
  eligible (l_generation lease) (l_sandbox lease) st /\ (l_id lease ∉ bound st) /\ l_id lease ∈ drawn st.

Lemma drew_stable lease : Stable (drew lease).
Proof.
  intros st st' Hr (He & ? & ?). split; [by eapply eligible_stable|]. destruct He as (? & _). split; eauto with lease.
Qed.

Definition recorded (lease : Lease) (st : State) : Prop :=
  drew lease st /\ firm st StoreDir /\ firm st LeasesDir /\ contents st (LeaseFile (l_id lease)) = Some (LeaseRecord lease).

Lemma recorded_stable lease : Stable (recorded lease).
Proof.
  intros st st' Hr (Hd & ? & ? & ?). split; [by eapply drew_stable|]. destruct Hd as ((? & _) & ? & _). repeat split; eauto with lease.
Qed.

Definition bindable (lease : Lease) (st : State) : Prop :=
  recorded lease st /\ always st (LeaseFile (l_id lease)) (eq (Some (LeaseRecord lease))).

Lemma bindable_stable lease : Stable (bindable lease).
Proof.
  intros st st' Hr (Hd & ?). split; [by eapply recorded_stable|]. destruct Hd as (((? & _) & ? & _) & _). eauto with lease.
Qed.

(** Once it may have bound it. *)
Definition binding (lease : Lease) (st : State) : Prop :=
  store_lock st = Some i /\ sandbox_lock st (l_sandbox lease) = Some i /\ only_at st (l_sandbox lease) (l_id lease).

Lemma binding_stable lease : Stable (binding lease).
Proof. intros st st' Hr (? & ? & ?). repeat split; eauto with lease. Qed.

Definition acquired (lease : Lease) (st : State) : Prop :=
  sandbox_lock st (l_sandbox lease) = Some i /\ always st (Binding (l_sandbox lease)) (eq (Some (LeaseRecord lease))).

Lemma acquired_stable lease : Stable (acquired lease).
Proof. intros st st' Hr (? & ?). split; eauto with lease. Qed.

Lemma fresh_binding lease st : Inv st -> drew lease st -> binding lease st.
Proof.
  intros Hi ((? & _ & _ & ?) & Hid & _). split; [done|]. split; [done|]. intros other l Hl Heq.
  apply (inv_bound _ Hi) in Hl. congruence.
Qed.

Lemma fresh_unbound lease st sandbox other :
  Inv st -> drew lease st -> Some (LeaseRecord other) ∈ possible (disk st (Binding sandbox)) -> l_id other <> l_id lease.
Proof. intros Hi (_ & Hid & _) Hl Heq. apply (inv_bound _ Hi) in Hl. congruence. Qed.

Lemma draw_triple generation key sandbox :
  triple (eligible generation sandbox) (call DrawLease)
    (okay (fun drawn_ => drew (mkLease drawn_.1 self generation key sandbox drawn_.2))).
Proof.
  apply triple_call; [apply eligible_stable|]. intros st r st' Hi Hp Ha. destruct r as [[id launch]|e]; cbn in Ha.
  - destruct Ha as [Hid ->]. pose proof (draw_gentle id st Hi) as Hg.
    destruct (gentle_keeps i _ _ _ Hg (eligible_stable generation sandbox) Hp) as [Hk He]. split; [done|].
    split; [done|]. cbn. split; [|left]. intros Hb. by apply Hid, (inv_drawn _ Hi).
  - subst. split; [by apply keeps_same|done].
Qed.

Lemma bind_triple lease :
  triple (bindable lease) (bind (l_sandbox lease) lease)
    (fun r st => match r with Ok _ => acquired lease st | Err _ => binding lease st end).
Proof.
  unfold bind.
  eapply (triple_attempt _ _ _ _ (fun _ st => binding lease st /\ contents st (Binding (l_sandbox lease)) = Some (LeaseRecord lease))).
  - apply triple_call; [apply bindable_stable|]. intros st r st' Hi Hp Ha.
    assert (forall st', held (contents st) (Binding (l_sandbox lease)) = true /\ st' = written (Binding (l_sandbox lease)) (LeaseRecord lease) st ->
      keeps i st st' /\ binding lease st' /\ contents st' (Binding (l_sandbox lease)) = Some (LeaseRecord lease)) as Hbound.
    { destruct Hp as ((((Hl & ? & Hsafe & Hs) & Hid & Hdr) & ? & ? & Hnow) & Hrec).
      intros st'' (Hheld & ->). split; [|split].
      - apply bind_step; try done. cbn in Hheld. by destruct (contents st (SandboxDir (l_sandbox lease))).
      - split; [done|]. split; [done|]. intros other l Hin Heq. apply possible_put in Hin as [Hin|[[= ->] _]]; [|done].
        apply (inv_bound _ Hi) in Hin. congruence.
      - unfold written. cbn. change (contents (put (Binding (l_sandbox lease)) (Some (LeaseRecord lease)) st) (Binding (l_sandbox lease)) = Some (LeaseRecord lease)).
        by rewrite contents_put, decide_True. }
    destruct r as [u|e]; cbn in Ha.
    + destruct Ha as [_ Ha]. by destruct (Hbound _ Ha).
    + destruct Ha as [_ [->|Ha]]; [|by destruct (Hbound _ Ha) as (? & ? & _)].
      split; [by apply keeps_same|]. apply fresh_binding; [done|]. by destruct Hp as ((? & _) & _).
  - intros u. assert (Stable (fun st => binding lease st /\ contents st (Binding (l_sandbox lease)) = Some (LeaseRecord lease))) as Hs.
    { intros st st' Hr [Hb Hc]. split; [by eapply binding_stable|]. destruct Hb as (_ & ? & _). eauto with lease. }
    weaken (sync_triple _ (SandboxEntries (l_sandbox lease)) Hs). intros [u'|e] st [[Hb Hc] Hsync]; [|done].
    destruct Hb as (_ & ? & _). split; [done|]. rewrite <- Hc. by apply Hsync.
Qed.

(** The end of a binding, under the lock of its sandbox. *)
Lemma absent_binding st sandbox : Inv st -> seen st (Binding sandbox) = None -> contents st (Binding sandbox) = None.
Proof.
  intros Hi. unfold seen, close, held. cbn. destruct (contents st (SandboxDir sandbox)) eqn:E; cbn; [done|]. intros _.
  symmetry. apply (inv_gone _ Hi _ E), contents_possible.
Qed.

Section Unbind.
Context (P : State -> Prop) (sandbox : Path).
Context (HP : Stable P) (HL : forall st, P st -> sandbox_lock st sandbox = Some i).

Lemma unbind_remove : 
  (forall st, P st -> P (put (Binding sandbox) None st)) ->
  triple P (remove_if_present (Binding sandbox)) (okay (fun _ st => P st /\ contents st (Binding sandbox) = None)).
Proof.
  intros HF. apply remove_triple; [done|..]; cbn.
  - intros st Hi Hp. apply unbind_step; auto.
  - intros st Hi Hp. split; [auto|]. by rewrite contents_put, decide_True.
  - intros st Hi Hp Hn. split; [done|]. by apply absent_binding.
  - done.
Qed.

Lemma unbind_sync :
  triple (fun st => P st /\ contents st (Binding sandbox) = None) (call (Sync (SandboxEntries sandbox)))
    (okay (fun _ st => P st /\ always st (Binding sandbox) (eq None))).
Proof.
  assert (Stable (fun st => P st /\ contents st (Binding sandbox) = None)) as Hs.
  { intros st st' Hr [Hp Hc]. split; [by eapply HP|]. pose proof (HL _ Hp). eauto with lease. }
  weaken (sync_triple _ (SandboxEntries sandbox) Hs). intros [u'|e] st; [|done]. intros [[? Hc] Hsync].
  split; [done|]. rewrite <- Hc. by apply Hsync.
Qed.

Lemma unbind_triple :
  (forall st, P st -> P (put (Binding sandbox) None st)) ->
  triple P (unbind sandbox) (okay (fun _ st => P st /\ always st (Binding sandbox) (eq None))).
Proof.
  intros HF. eapply triple_try; [by apply unbind_remove|intros u; apply unbind_sync|done].
Qed.

Lemma unbound_stable_held : Stable (fun st => P st /\ always st (Binding sandbox) (eq None)).
Proof. intros st st' Hr [Hp ?]. split; [by eapply HP|]. pose proof (HL _ Hp). eauto with lease. Qed.
End Unbind.

Lemma only_at_unbound st sandbox id : only_at st sandbox id -> only_at (put (Binding sandbox) None st) sandbox id.
Proof. intros H other l Hin Heq. apply possible_put in Hin as [Hin|[_ [=]]]. by eapply H. Qed.

Lemma unbound_everywhere st sandbox id other lease :
  only_at st sandbox id -> always st (Binding sandbox) (eq None) ->
  Some (LeaseRecord lease) ∈ possible (disk st (Binding other)) -> l_id lease <> id.
Proof. intros Ho Hn Hin Heq. pose proof (Ho _ _ Hin Heq) as ->. by specialize (Hn _ Hin). Qed.

Lemma grant_triple indexed_ sandbox :
  triple (eligible (g_generation indexed_) sandbox) (grant self indexed_ sandbox) (okay acquired).
Proof.
  unfold grant.
  eapply triple_try; [apply (draw_triple _ (g_key indexed_))| |done]. intros drawn_.
  set (lease := mkLease _ _ _ _ _ _). change sandbox with (l_sandbox lease). cbn zeta.
  eapply (triple_try _ _ (fun _ st => drew lease st /\ firm st StoreDir /\ firm st LeasesDir)); [|intros u|done].
  { eapply triple_conseq; [apply (create_dir_triple (drew lease) LeasesDir)|done|by intros []].
    - by left.
    - apply drew_stable.
    - by intros st ((? & ? & _) & _).
    - intros st c ((? & ? & ? & ?) & ? & ?). by repeat split. }
  eapply (triple_try _ _ (fun _ => recorded lease)); [|intros u'|done].
  { apply write_triple; [done|..].
    - intros st st' Hr (? & ? & ?). split; [by eapply drew_stable|]. split; eauto with lease.
    - intros st Hi (((? & _) & ? & _) & ? & ?). by apply record_step.
    - intros st Hi (((? & ? & ? & ?) & ? & ?) & ? & ?). repeat split; try done; try by apply always_put.
      by rewrite contents_put, decide_True. }
  eapply (triple_bind _ _ _ _ (fun r => match r with Ok _ => bindable lease | Err _ => recorded lease end)).
  { weaken (sync_triple _ LeaseEntries (recorded_stable lease)). intros [u''|e] st [Hr Hs]; [|done]. split; [done|].
    destruct Hr as (_ & _ & _ & <-). by apply Hs. }
  intros [u''|error].
  2: { eapply (triple_bind _ _ _ _ (fun _ _ => True)); [|intros r; by apply triple_done].
       apply remove_triple; try done; [apply recorded_stable|]. intros st Hi (Hd & _).
       apply unrecord_step; [done|left; by destruct Hd as ((? & _) & _)|]. intros s l Hl. by eapply fresh_unbound. }
  eapply triple_bind; [apply bind_triple|]. intros [u3|error]; [by apply triple_done|].
  eapply (triple_bind _ _ _ _ (fun r => okay (fun _ st => binding lease st /\ always st (Binding (l_sandbox lease)) (eq None)) r)).
  { apply (unbind_triple (binding lease)).
    - apply binding_stable.
    - by intros st (_ & ? & _).
    - intros st (? & ? & ?). repeat split; try done. by apply only_at_unbound. }
  intros [u3|error']; [|by apply triple_done].
  eapply (triple_bind _ _ _ _ (fun _ _ => True)); [|intros r; by apply triple_done].
  apply remove_triple; try done.
  - intros st st' Hr [Hb Ha]. split; [by eapply binding_stable|]. destruct Hb as (_ & ? & _). eauto with lease.
  - intros st Hi [(? & ? & ?) ?]. apply unrecord_step; [done|by left|]. intros s l Hl. by eapply unbound_everywhere.
Qed.

Lemma read_only P file : Stable P -> triple P (call (Read file)) (okay (fun _ => P)).
Proof. intros HP. weaken (read_triple P file HP). by intros [v|e] st [? _]. Qed.

Lemma binding_only P sandbox : Stable P -> triple P (read_binding sandbox) (okay (fun _ => P)).
Proof. intros HP. weaken (read_binding_triple P sandbox HP). by intros [v|e] st [? _]. Qed.

Lemma check_only P dir : Stable P -> triple P (check_records_dir dir) (okay (fun _ => P)).
Proof. intros HP. weaken (check_triple P dir HP). by intros [v|e] st [? _]. Qed.

Lemma examine_only P : Stable P -> triple P (call Examine) (okay (fun _ => P)).
Proof. intros HP. weaken (examine_triple P HP). by intros []. Qed.

Lemma check_sandbox_triple P sandbox config : Stable P -> triple P (check_sandbox sandbox config) (okay (fun _ => P)).
Proof.
  intros HP. unfold check_sandbox.
  eapply (triple_try _ _ (fun _ => P)); [|intros provisioned|done].
  { destruct config; [|by apply triple_done].
    eapply (triple_try _ _ (fun _ => P)); [by apply check_only|intros b; by apply triple_done|done]. }
  destruct provisioned; cbn [negb]; [|by apply triple_done].
  eapply (triple_try _ _ (fun _ => P)); [by apply read_only|intros journal|done].
  eapply (triple_try _ _ (fun _ => P)); [destruct (is_some journal); [by apply triple_done|by apply read_only]|intros runtime|done].
  destruct (_ || _); [by apply triple_done|].
  eapply (triple_try _ _ (fun _ => P)); [by apply binding_only|intros held_|done].
  destruct (is_some held_); [by apply triple_done|]. destruct (negb _); by apply triple_done.
Qed.

Lemma guarded_triple {A} sandbox P (body : Prog (result Error A)) (M : A -> State -> Prop) :
  triple P body (okay M) -> triple P (guarded sandbox body) (okay M).
Proof.
  intros Hbody. eapply triple_bind; [exact Hbody|]. intros [a|e]; [by apply triple_done|].
  eapply (triple_bind _ _ _ _ (fun _ _ => True)); [|intros r; by apply triple_done].
  apply triple_do; [done|]. intros st r st' Hi _ [Hl ->]. split; [by apply unlock_sandbox_keeps|done].
Qed.

(** What the acquisition knows of a generation that it may lease. *)
Definition leasable (generation : Z) (st : State) : Prop :=
  store_lock st = Some i /\ is_Some (contents st StoreDir) /\ safe generation st.

Lemma leasable_stable generation : Stable (leasable generation).
Proof. intros st st' Hr (? & ? & ?). repeat split; eauto with lease. eapply keep_always; eauto with lease. Qed.

Lemma lock_sandbox_triple generation sandbox :
  triple (leasable generation) (perform (LockSandbox sandbox))
    (fun r st => match r with Ok _ => eligible generation sandbox st | Err _ => True end).
Proof.
  apply triple_do; [apply leasable_stable|]. intros st r st' Hi (? & ? & ?) Ha. destruct r; cbn in Ha.
  - destruct Ha as (Hn & _ & ->). pose proof (lock_sandbox_gentle i sandbox st Hi Hn) as Hg.
    destruct (gentle_keeps i (fun _ => True) _ _ Hg) as [Hk _]; [done|done|]. split; [done|]. repeat split; try done.
    cbn. by rewrite fn_lookup_insert.
  - subst. split; [by apply keeps_same|done].
Qed.

Lemma check_payload_triple P generation : Stable P -> triple P (check_payload generation) (okay (fun _ => P)).
Proof.
  intros HP. unfold check_payload. eapply (triple_try _ _ (fun _ => P)); [by apply read_only|intros [v|]|done]; [|by apply triple_done].
  eapply (triple_try _ _ (fun _ => P)); [by apply examine_only|intros [|]; by apply triple_done|done].
Qed.

Lemma acquire_triple generation sandbox config time :
  triple (fun _ => True) (acquire self generation sandbox config time) (okay acquired).
Proof.
  unfold acquire. eapply (triple_try _ _ acquired); [|intros lease|done].
  - apply locked_triple; [|intros [lease|e]; [apply acquired_stable|done]|by intros [lease|e]|done].
    eapply triple_try; [apply index_under| |done]. intros record.
    destruct (get record generation) as [indexed_|] eqn:Eg; [|by apply triple_done].
    assert (g_generation indexed_ = generation) as <-.
    { unfold get in Eg. apply find_some in Eg as [_ He]. lia. }
    pose proof (get_lists _ _ (ex_intro _ _ Eg)) as Hlists.
    eapply triple_try; [weaken (tombstoned_triple _ (g_generation indexed_) (indexed_stable record)); intros [b|e] st H; [exact H|done]| |done].
    intros [|]; [by apply triple_done|]. destruct (negb _); [by apply triple_done|].
    eapply (triple_try _ _ (fun _ => leasable (g_generation indexed_))); [|intros u|done].
    { eapply triple_conseq; [apply (check_payload_triple (leasable (g_generation indexed_))), leasable_stable| |done].
      intros st Hi [[Hl [Hx Hs]] Ho]. split; [done|]. split; [done|]. eapply listed_facts; try done. by apply open_tombstone. }
    eapply (triple_bind _ _ _ _ (fun _ => leasable (g_generation indexed_))).
    { eapply triple_conseq; [apply (triple_look (leasable (g_generation indexed_)) (Resolve sandbox)); [by intros ? ? ? ->|apply leasable_stable]|done|by intros r st [? _]]. }
    intros [dir|fault]; [|by apply triple_done].
    eapply triple_bind; [apply lock_sandbox_triple|]. intros [u'|fault]; [|by apply triple_done].
    apply guarded_triple. eapply (triple_try _ _ (fun _ => eligible (g_generation indexed_) dir)); [|intros u''; apply grant_triple|done].
    apply check_sandbox_triple, eligible_stable.
  - eapply (triple_bind _ _ _ _ (fun _ => acquired lease)); [|intros r; by apply triple_done].
    apply triple_do; [apply acquired_stable|]. intros st r st' Hi Hp ->.
    apply gentle_keeps; [by apply reserve_gentle|apply acquired_stable|done].
Qed.

(** ** Release and removal *)

Lemma clone_files_triple P sandbox names : Stable P -> triple P (remove_clone_files sandbox names) (okay (fun _ => P)).
Proof.
  intros HP. induction names as [|name names IH]; cbn [remove_clone_files]; [by apply triple_done|].
  eapply (triple_try _ _ (fun _ => P)); [weaken (irrelevant_triple P (CloneKept sandbox name) HP eq_refl); by intros []|intros u; exact IH|done].
Qed.

Lemma check_stopped_triple P sandbox : Stable P -> triple P (check_stopped sandbox) (okay (fun _ => P)).
Proof.
  intros HP. unfold check_stopped.
  eapply (triple_try _ _ (fun _ => P)); [by apply read_only|intros journal|done]. destruct (is_some journal); [by apply triple_done|].
  eapply (triple_try _ _ (fun _ => P)); [by apply read_only|intros runtime|done]. destruct (is_some runtime); by apply triple_done.
Qed.

Definition holding (sandbox : Path) (st : State) : Prop := sandbox_lock st sandbox = Some i.

Lemma holding_stable sandbox : Stable (holding sandbox).
Proof. intros st st' Hr H. unfold holding in *. eauto with lease. Qed.

Definition releasing (sandbox : Path) (id : LeaseId) (st : State) : Prop :=
  holding sandbox st /\ id ∈ bound st /\ only_at st sandbox id.

Lemma releasing_stable sandbox id : Stable (releasing sandbox id).
Proof.
  intros st st' Hr (? & ? & ?). split; [by eapply holding_stable|]. split; [by eauto with lease|]. by eapply keep_only_at.
Qed.

Lemma bound_only_at st sandbox lease :
  Inv st -> contents st (Binding sandbox) = Some (LeaseRecord lease) -> l_id lease ∈ bound st /\ only_at st sandbox (l_id lease).
Proof.
  intros Hi Hc. assert (Some (LeaseRecord lease) ∈ possible (disk st (Binding sandbox))) as Hin by (rewrite <- Hc; apply contents_possible).
  split; [by eapply (inv_bound _ Hi)|]. intros other l Hl Heq.
  destruct (bound_facts _ _ _ Hi Hin) as (<- & _ & _ & H1 & _), (bound_facts _ _ _ Hi Hl) as (<- & _ & _ & H2 & _).
  rewrite Heq in H2. pose proof (H1 _ (contents_possible _ _)). pose proof (H2 _ (contents_possible _ _)). congruence.
Qed.

Lemma release_triple sandbox : triple (holding sandbox) (release self sandbox) (fun _ _ => True).
Proof.
  unfold release. pose proof (holding_stable sandbox) as Hh.
  eapply (triple_try _ _ (fun _ => holding sandbox)); [by apply examine_only|intros [|]|done]; cbn [negb]; [|by apply triple_done].
  eapply (triple_try _ _ (fun _ => holding sandbox)); [by apply check_stopped_triple|intros u|done].
  eapply triple_try; [weaken (read_binding_triple _ sandbox Hh); intros [b|e] st H; [exact H|done]| |done].
  intros [lease|]; [|by apply triple_done]. destruct (negb _); [by apply triple_done|]. destruct (negb _); [by apply triple_done|].
  set (P := releasing sandbox (l_id lease)). pose proof (releasing_stable sandbox (l_id lease) : Stable P) as HP.
  eapply (triple_try _ _ (fun _ => P)); [|intros recorded_|done].
  { eapply triple_conseq; [apply (check_only P LeasesDir HP)| |done]. intros st Hi [? Hc]. split; [done|]. by apply bound_only_at. }
  eapply (triple_try _ _ (fun _ => P)); [by apply read_only|intros payload|done].
  eapply (triple_bind _ _ _ _ (fun _ => P)).
  { apply triple_do; [done|]. intros st r st' Hi Hp ->. apply gentle_keeps; [by apply reserve_gentle|done|done]. }
  intros r. eapply (triple_try _ _ (fun _ => P)); [by apply clone_files_triple|intros u'|done].
  eapply (triple_try _ _ (fun _ => P)); [|intros u''|done].
  { destruct (is_some payload); [|by apply triple_done].
    eapply (triple_try _ _ (fun _ => P)); [weaken (irrelevant_triple P (CloneSocket (l_generation lease) (l_launch lease)) HP eq_refl); by intros []|intros v|done].
    weaken (sync_only P (PayloadEntries (l_generation lease)) HP). by intros []. }
  assert (forall st, P st -> sandbox_lock st sandbox = Some i) as HL by (by intros st (? & _)).
  eapply triple_try; [apply (unbind_remove P sandbox HP HL)|intros v|done].
  { intros st (? & ? & ?). repeat split; try done. by apply only_at_unbound. }
  eapply triple_try; [apply (unbind_sync P sandbox HP HL)|intros v'|done].
  eapply (triple_try _ _ (fun _ _ => True)); [|intros w; by apply triple_done|done].
  destruct recorded_; [|by apply triple_done].
  apply remove_triple; try done; [by apply unbound_stable_held|].
  intros st Hi [(? & ? & ?) ?]. apply unrecord_step; [done|by right|]. intros s l Hl. by eapply unbound_everywhere.
Qed.

Lemma failing_triple {E F A} P (p : Prog (result E A)) (f : E -> F) (M : A -> State -> Prop) :
  triple P p (okay M) -> triple P (failing p f) (okay M).
Proof. intros Hp. eapply triple_bind; [exact Hp|]. intros [a|e]; by apply triple_done. Qed.

Lemma unbind_removed_triple sandbox :
  triple (holding sandbox) (unbind_removed sandbox) (okay (fun _ st => holding sandbox st /\ always st (Binding sandbox) (eq None))).
Proof.
  unfold unbind_removed. pose proof (holding_stable sandbox) as Hh.
  eapply (triple_try _ _ (fun _ => holding sandbox)); [by apply examine_only|intros [|]|done]; cbn [negb]; [|by apply triple_done].
  eapply (triple_try _ _ (fun _ => holding sandbox)); [by apply check_stopped_triple|intros u|done].
  eapply (triple_try _ _ (fun _ => holding sandbox)); [by apply clone_files_triple|intros u'|done].
  eapply triple_try; [by apply (unbind_remove (holding sandbox) sandbox Hh)|intros v|done].
  by apply (unbind_sync (holding sandbox) sandbox Hh).
Qed.

Lemma remove_sandbox_triple sandbox config : triple (holding sandbox) (remove sandbox config) (fun _ _ => True).
Proof.
  unfold remove. eapply (triple_bind _ _ _ _ (fun _ _ => True)).
  - set (P := fun st => holding sandbox st /\ always st (Binding sandbox) (eq None)).
    assert (Stable P) as HP by (apply unbound_stable_held; [apply holding_stable|done]).
    assert (forall file, irrelevant file = true ->
      triple P (failing (remove_if_present file) (fun _ => RemovalIo)) (okay (fun _ => P))) as Hremove.
    { intros file Hf. apply failing_triple. weaken (irrelevant_triple P file HP Hf). by intros []. }
    eapply (triple_try _ _ (fun _ => P)); [|intros u|done].
    + unfold remove_contents. destruct config; cbn [negb]; [|by apply triple_done].
      eapply (triple_try _ _ (fun _ => P)); [apply failing_triple, unbind_removed_triple|intros u|done].
      eapply (triple_try _ _ (fun _ => P)); [by apply Hremove|intros u'|done].
      eapply (triple_try _ _ (fun _ => P)); [by apply Hremove|intros u''|done].
      eapply (triple_try _ _ (fun _ => P)); [by apply Hremove|intros v|done].
      eapply (triple_try _ _ (fun _ => P)); [apply failing_triple; by apply examine_only|intros [|]; by apply triple_done|done].
    + eapply (triple_conseq _ _ P); [apply (failing_triple P _ _ (fun _ _ => True))|done|done].
      apply remove_triple; try done. intros st Hi [_ ?]. by apply remove_dir_step.
  - intros r. eapply (triple_bind _ _ _ _ (fun _ _ => True)); [|intros r'; by apply triple_done].
    apply triple_do; [done|]. intros st r' st' Hi _ [Hl ->]. split; [by apply unlock_sandbox_keeps|done].
Qed.

(** ** Queries and locks *)

Lemma read_leases_triple generation ids : triple (fun _ => True) (read_leases self generation ids) (fun _ _ => True).
Proof.
  induction ids as [|id ids IH]; cbn [read_leases]; [by apply triple_done|].
  eapply (triple_try _ _ (fun _ _ => True)); [eapply triple_conseq; [by apply (read_lease_triple (fun _ => True))|done|by intros []]|intros v|done].
  eapply (triple_try _ _ (fun _ _ => True)); [eapply triple_conseq; [exact IH|done|by intros []]|intros w; by apply triple_done|done].
Qed.

Lemma leases_query_triple generation : triple (fun _ => True) (leases self generation) (fun _ _ => True).
Proof.
  eapply (triple_try _ _ (fun _ _ => True)); [by apply (records_only (fun _ => True)); [|intros ? ? ? [-> _]]|intros listed|done].
  eapply (triple_try _ _ (fun _ _ => True)); [eapply triple_conseq; [apply read_leases_triple|done|by intros []]|intros w; by apply triple_done|done].
Qed.

Lemma read_tombstone_triple generation : triple (fun _ => True) (read_tombstone self generation) (fun _ _ => True).
Proof.
  eapply (triple_try _ _ (fun _ _ => True)); [by apply (read_only (fun _ => True))|intros v|done].
  destruct v as [[]|]; try by apply triple_done. destruct (_ || _); by apply triple_done.
Qed.

Lemma read_tombstones_triple generations : triple (fun _ => True) (read_tombstones self generations) (fun _ _ => True).
Proof.
  induction generations as [|g generations IH]; cbn [read_tombstones]; [by apply triple_done|].
  eapply (triple_try _ _ (fun _ _ => True)); [eapply triple_conseq; [apply read_tombstone_triple|done|by intros []]|intros v|done].
  eapply (triple_try _ _ (fun _ _ => True)); [eapply triple_conseq; [exact IH|done|by intros []]|intros w; by apply triple_done|done].
Qed.

Lemma select_triple key time : triple (fun _ => True) (select self key time) (fun _ _ => True).
Proof.
  eapply (triple_try _ _ (fun _ _ => True)); [eapply triple_conseq; [by apply (index_triple (fun _ => True))|done|by intros []]|intros record|done].
  eapply (triple_try _ _ (fun _ _ => True)); [|intros w; by apply triple_done|done].
  eapply (triple_try _ _ (fun _ _ => True)); [by apply (records_only (fun _ => True)); [|intros ? ? ? [-> _]]|intros listed|done].
  eapply (triple_try _ _ (fun _ _ => True)); [eapply triple_conseq; [apply read_tombstones_triple|done|by intros []]|intros w; by apply triple_done|done].
Qed.

Lemma take_lock_triple sandbox : triple (fun _ => True) (perform (LockSandbox sandbox)) (fun _ _ => True).
Proof.
  apply triple_do; [done|]. intros st r st' Hi _ Ha. destruct r; cbn in Ha.
  - destruct Ha as (Hn & _ & ->).
    destruct (gentle_keeps i (fun _ => True) _ _ (lock_sandbox_gentle i sandbox st Hi Hn)); done.
  - subst. split; [by apply keeps_same|done].
Qed.

Lemma drop_lock_triple sandbox : triple (fun _ => True) (perform (UnlockSandbox sandbox)) (fun _ _ => True).
Proof. apply triple_do; [done|]. intros st r st' Hi _ [Hl ->]. split; [by apply unlock_sandbox_keeps|done]. Qed.

End Triples.
