(* ===== verification/LeaseSafety.v ===== *)
(** * No clone outlives the generation that it restores

    Whatever transactions the processes of a host interleave, and whenever processes are killed and
    the host crashes, a sandbox that holds a binding holds a lease that the store records, of a
    generation whose payload is whole. And a lease that an acquisition returned survives a crash. *)

From stdpp Require Import functions.
From S2P Require Import Prelude HostPaths Manifest Eligibility LeaseStore LeaseDisk LeaseLogic LeaseTriples.

Section Safety.
Context (self : StoreId).

(** What a thread shows of the outcome of its operation. *)
Definition shows (i : Thread) (outcome : Outcome) (st : State) : Prop :=
  match outcome with OfLease (Ok lease) => acquired i lease st | _ => True end.

Lemma shows_stable i outcome : Stable i (shows i outcome).
Proof. destruct outcome as [[]| | | | | | | | |]; try done. apply acquired_stable. Qed.

Lemma finish_triple {R} i P (p : Prog R) (f : R -> Outcome) Q :
  triple false i P p Q -> (forall r st, Q r st -> shows i (f r) st) -> triple false i P (finish p f) (shows i).
Proof. intros Hp Hf. eapply triple_bind; [exact Hp|]. intros r. apply triple_done. auto. Qed.

Lemma program_triple i op : triple false i (startable i op) (program self op) (shows i).
Proof.
  destruct op; cbn [program startable].
  - eapply finish_triple; [apply acquire_triple|]. by intros [].
  - eapply finish_triple; [apply release_triple|done].
  - eapply finish_triple; [apply tombstone_triple|done].
  - eapply finish_triple; [by apply retire_triple|done].
  - eapply finish_triple; [apply publish_triple|done].
  - eapply finish_triple; [apply recover_triple|done].
  - eapply finish_triple; [apply remove_sandbox_triple|done].
  - eapply finish_triple; [apply take_lock_triple|done].
  - eapply finish_triple; [eapply triple_conseq; [apply drop_lock_triple|done|]|done]. done.
  - eapply finish_triple; [apply select_triple|done].
  - eapply finish_triple; [apply leases_query_triple|done].
Qed.

(** ** The steps of a system *)

Record SystemInv (sys : System) : Prop := {
  sys_inv : Inv (state sys);
  sys_running i op p : running sys i = Some (op, p) -> wp false i p (shows i) (state sys);
}.

Lemma gentle_system sys st' :
  SystemInv sys -> gentle (state sys) st' -> SystemInv (mkSystem st' (running sys)).
Proof.
  intros [Hi Hw] [Hi' Hr]. split; cbn; [done|]. intros i op p Hp. eapply wp_stable; [apply shows_stable|apply Hr|eauto].
Qed.

Lemma initial_inv : SystemInv (initial self).
Proof.
  split; [|done]. cbn.
  assert (forall file v, v ∈ possible (created self file) ->
    (file = StoreDir /\ v = Some Directory) \/ (file = IndexFile /\ v = Some (IndexRecord self (mkIndex FIRST_GENERATION []))) \/ v = None) as Hc.
  { intros file v. destruct file; cbn; rewrite ?elem_of_cons; naive_solver set_solver. }
  split; cbn.
  - intros c Hch. split.
    + intros store index g Hindex Hl _. destruct (Hc IndexFile (c IndexFile) (Hch _)) as [[? _]|[[_ He]|He]]; [done| |congruence].
      rewrite Hindex in He. injection He as -> ->. unfold lists_generation in Hl. cbn in Hl. by apply not_elem_of_nil in Hl.
    + intros s l Hb. destruct (Hc (Binding s) (c (Binding s)) (Hch _)) as [[? _]|[[? _]|?]]; congruence.
  - intros s _ v Hv. by destruct (Hc (Binding s) _ Hv) as [[? _]|[[? _]|?]].
  - intros g v Hv. by destruct (Hc (TombstoneFile g) _ Hv) as [[? _]|[[? _]|?]].
  - intros id v Hv. by destruct (Hc (LeaseFile id) _ Hv) as [[? _]|[[? _]|?]].
  - intros p d H. by apply not_elem_of_nil in H.
  - intros s l Hv. by destruct (Hc (Binding s) _ Hv) as [[? _]|[[? _]|?]].
  - intros id H. by apply not_elem_of_nil in H.
Qed.

Lemma survives_other process holder i : i.1 <> process -> holder = Some i -> survives process holder = Some i.
Proof. intros Hne ->. unfold survives. by rewrite decide_False. Qed.

Lemma kill_inv process sys :
  SystemInv sys ->
  SystemInv (mkSystem (killed process (state sys)) (fun i => if decide (i.1 = process) then None else running sys i)).
Proof.
  intros [Hi Hw]. split; cbn.
  - apply (inv_same (state sys)); try done; [apply Hi|]. intros p d. cbn. destruct (decide (p = process)) as [->|Hne].
    + rewrite fn_lookup_insert. intros H. by apply not_elem_of_nil in H.
    + rewrite fn_lookup_insert_ne by congruence. by left.
  - intros i op p Hp. case_decide as Hne; [done|]. eapply wp_stable; [apply shows_stable| |eauto].
    apply rely_same; try done; cbn; intros; by apply survives_other.
Qed.

Lemma provision_inv sandbox sys :
  SystemInv sys -> SystemInv (mkSystem (put (SandboxDir sandbox) (Some Directory) (state sys)) (running sys)).
Proof.
  intros Hs. apply (gentle_system _ _ Hs). destruct Hs as [Hi _]. split.
  - apply put_inv; try done. intros c Hc _.
    eapply (good_frame (SandboxDir sandbox)); [done| |exact (restored_good _ _ _ Hi Hc)].
    intros other Hne. by rewrite fn_lookup_insert_ne by congruence.
  - intros j. by apply put_rely.
Qed.

Lemma close_some choice file content :
  close choice file = Some content -> choice file = Some content /\ forall dir, dir ∈ holders file -> is_Some (choice dir).
Proof.
  unfold close, held. destruct (forallb _ _) eqn:E; [|done]. intros ->. split; [done|]. intros dir Hd.
  rewrite forallb_forall in E. apply is_some_spec, E, list_elem_of_In, Hd.
Qed.

Lemma close_held choice file : (forall dir, dir ∈ holders file -> is_Some (choice dir)) -> close choice file = choice file.
Proof.
  intros H. unfold close, held. destruct (forallb _ _) eqn:E; [done|]. apply Bool.not_true_iff_false in E. contradict E.
  apply forallb_forall. intros d Hd. apply is_some_spec, H, list_elem_of_In, Hd.
Qed.

Lemma close_good choice : Good choice -> Good (close choice).
Proof.
  intros [H1 H2]. split.
  - intros store index g Hindex Hl Ho. apply close_some in Hindex as [Hindex Hs]. specialize (Hs StoreDir ltac:(left)).
    rewrite (close_held choice (PayloadDir g)) by (by intros d ->%list_elem_of_singleton).
    apply (H1 store index g); [done|done|]. rewrite (close_held choice TombstonesDir) in Ho by (by intros d ->%list_elem_of_singleton).
    destruct (choice TombstonesDir) eqn:Et; [right|by left].
    destruct Ho as [?|Ho]; [done|]. rewrite close_held in Ho; [done|].
    intros d [->|[->|H]%elem_of_cons]%elem_of_cons; [done|by eexists|by apply not_elem_of_nil in H].
  - intros s l Hb. apply close_some in Hb as [Hb _]. destruct (H2 s l Hb) as (? & Hs & Hd & Hr & Hw).
    rewrite !(close_held choice) by (cbn; intros d; rewrite ?elem_of_cons, ?elem_of_nil; naive_solver). done.
Qed.

Lemma crash_inv choice sys :
  SystemInv sys -> chosen (state sys) choice -> SystemInv (mkSystem (crashed choice (state sys)) (fun _ => None)).
Proof.
  intros [Hi _] Hc. split; [|done]. cbn. pose proof (close_good _ (inv_good _ Hi _ Hc)) as Hgood.
  assert (forall file v, v ∈ possible (disk (crashed choice (state sys)) file) -> v = close choice file) as Hp.
  { intros file v Hv. by apply list_elem_of_singleton in Hv. }
  assert (forall file, is_Some (close choice file) -> firm (crashed choice (state sys)) file) as Hfirm.
  { intros file Hs v Hv. by rewrite (Hp _ _ Hv). }
  assert (forall file content dir, close choice file = Some content -> dir ∈ holders file -> (forall d, d ∈ holders dir -> d ∈ holders file) ->
    firm (crashed choice (state sys)) dir) as Hholder.
  { intros file content dir H Hd Hdd. apply close_some in H as [_ H]. apply Hfirm. rewrite close_held; [by apply H|]. intros d ?. by apply H, Hdd. }
  split.
  - intros c Hch. destruct Hgood as [H1 H2]. split.
    + intros store index g. rewrite !(Hp _ _ (Hch _)). apply H1.
    + intros s l. rewrite !(Hp _ _ (Hch _)). apply H2.
  - intros s Hs v Hv. rewrite (Hp _ _ Hv). change (close choice (SandboxDir s) = None) in Hs. unfold close, held in *. cbn in *. by rewrite Hs.
  - intros g content Hg. apply Hp in Hg. split; (eapply Hholder; [by symmetry|cbn; set_solver|cbn; set_solver]).
  - intros g content Hg. apply Hp in Hg. split; (eapply Hholder; [by symmetry|cbn; set_solver|cbn; set_solver]).
  - intros p d H. by apply not_elem_of_nil in H.
  - intros s l Hl. apply Hp in Hl. symmetry in Hl. apply close_some in Hl as [Hl _]. apply (inv_bound _ Hi s). rewrite <- Hl. apply Hc.
  - apply (inv_drawn _ Hi).
Qed.

Lemma step_inv sys sys' : SystemInv sys -> step false self sys sys' -> SystemInv sys'.
Proof.
  intros Hs Hstep. destruct Hstep as [i op sys Hidle Hstart|i op A a k r st' sys Hrun Hact|i op r sys Hrun|process sys|sandbox sys _|sandbox file content sys Hf|slot envelope sys|choice sys Hc].
  - destruct Hs as [Hi Hw]. split; cbn; [done|]. intros j op' p. destruct (decide (j = i)) as [->|Hne].
    + rewrite fn_lookup_insert. intros [= <- <-]. by apply program_triple.
    + rewrite fn_lookup_insert_ne by congruence. apply Hw.
  - destruct Hs as [Hi Hw]. pose proof (Hw _ _ _ Hrun) as H. cbn in H.
    destruct (H (state sys) r st') as [[Hi' Hk] Hwp]; [reflexivity|done|done|]. split; cbn; [done|].
    intros j op' p. destruct (decide (j = i)) as [->|Hne].
    + rewrite fn_lookup_insert. by intros [= <- <-].
    + rewrite fn_lookup_insert_ne by congruence. intros Hp. eapply wp_stable; [apply shows_stable|by apply Hk|eauto].
  - destruct Hs as [Hi Hw]. split; cbn; [done|]. intros j op' p. destruct (decide (j = i)) as [->|Hne].
    + by rewrite fn_lookup_insert.
    + rewrite fn_lookup_insert_ne by congruence. apply Hw.
  - by apply kill_inv.
  - by apply provision_inv.
  - apply (gentle_system _ _ Hs). apply irrelevant_put; [apply Hs|]. by destruct file.
  - apply (gentle_system _ _ Hs). apply irrelevant_put; [apply Hs|done].
  - by apply crash_inv.
Qed.

Lemma reachable_inv sys : reachable false self sys -> SystemInv sys.
Proof.
  intros H. eapply (rtc_ind_r SystemInv (initial self)); [apply initial_inv| |exact H].
  intros sys1 sys2 _ Hstep Hs. by eapply step_inv.
Qed.

(** ** What the store promises *)

(** C11: whatever acquisitions, releases, quarantines, retirements, publications, recoveries and
    removals of sandboxes the processes of a host interleave, call by call, with deaths of processes,
    crashes of the host that lose any change of a directory that was not synced, and failures of any
    call but one, the examination of a sandbox's directory that exists, which [binding_dirs] takes for
    a sandbox that is gone: a sandbox that holds a clone binding holds the lease that the store's
    record of the same identity holds, of a generation whose payload the store still holds, whole. *)
Theorem lease_keeps_generation sys sandbox lease :
  reachable false self sys -> seen (state sys) (Binding sandbox) = Some (LeaseRecord lease) ->
  l_sandbox lease = sandbox
  /\ seen (state sys) (LeaseFile (l_id lease)) = Some (LeaseRecord lease)
  /\ whole (seen (state sys) (PayloadDir (l_generation lease))).
Proof.
  intros Hreach Hb. destruct (reachable_inv _ Hreach) as [Hi _]. apply seen_contents in Hb.
  assert (Some (LeaseRecord lease) ∈ possible (disk (state sys) (Binding sandbox))) as Hin by (rewrite <- Hb; apply contents_possible).
  destruct (bound_facts _ _ _ Hi Hin) as (? & Hs & Hd & Hr & Hw).
  specialize (Hs _ (contents_possible _ _)). specialize (Hd _ (contents_possible _ _)). split; [done|].
  unfold seen. rewrite !close_held by (cbn; intros d; rewrite ?elem_of_cons, ?elem_of_nil; naive_solver). split.
  - symmetry. apply Hr, contents_possible.
  - apply Hw, contents_possible.
Qed.

(** C13: a generation that the index of the store lists, and that no tombstone quarantines, which a
    selection may return and an acquisition lease, is whole, in every state that those interleavings,
    failures, deaths and crashes reach: no retirement that was interrupted, and no publication,
    leaves one of which something is missing. *)
Theorem listed_generation_whole sys store index generation :
  reachable false self sys -> seen (state sys) IndexFile = Some (IndexRecord store index) ->
  is_Some (get index generation) ->
  (seen (state sys) TombstonesDir = None \/ seen (state sys) (TombstoneFile generation) = None) ->
  whole (seen (state sys) (PayloadDir generation)).
Proof.
  intros Hreach Hindex Hget Hopen. destruct (reachable_inv _ Hreach) as [Hi _].
  pose proof (seen_holder _ _ StoreDir _ Hindex ltac:(left)) as Hs. apply seen_contents in Hindex.
  rewrite seen_held by (unfold held; cbn; by destruct Hs as [? ->]).
  apply (listed_facts _ store index generation Hi Hindex (get_lists _ _ Hget) (open_tombstone _ _ Hs Hopen)), contents_possible.
Qed.

(** C12: a lease that an acquisition returned to its caller survives a crash of the host, whatever
    the other processes do meanwhile: unless the crash loses the sandbox's directory, the sandbox
    holds its binding after it, the store its record, and the generation its payload. *)
Theorem acquired_survives sys i op lease choice :
  reachable false self sys -> running sys i = Some (op, Done (OfLease (Ok lease))) -> chosen (state sys) choice ->
  close choice (SandboxDir (l_sandbox lease)) = None
  \/ (seen (crashed choice (state sys)) (Binding (l_sandbox lease)) = Some (LeaseRecord lease)
      /\ seen (crashed choice (state sys)) (LeaseFile (l_id lease)) = Some (LeaseRecord lease)
      /\ whole (seen (crashed choice (state sys)) (PayloadDir (l_generation lease)))).
Proof.
  intros Hreach Hrun Hc. destruct (reachable_inv _ Hreach) as [Hi Hw].
  destruct (close choice (SandboxDir (l_sandbox lease))) as [d|] eqn:Ed; [right|by left].
  destruct (Hw _ _ _ Hrun) as [_ Hbinding].
  assert (choice (Binding (l_sandbox lease)) = Some (LeaseRecord lease)) as Hb by (symmetry; apply Hbinding, Hc).
  assert (Some (LeaseRecord lease) ∈ possible (disk (state sys) (Binding (l_sandbox lease)))) as Hin by (rewrite <- Hb; apply Hc).
  destruct (bound_facts _ _ _ Hi Hin) as (_ & Hs & Hd & Hr & Hp).
  specialize (Hs _ (Hc _)). specialize (Hd _ (Hc _)).
  assert (forall file, seen (crashed choice (state sys)) file = close (close choice) file) as Hseen by done.
  rewrite !Hseen, !(close_held (close choice));
    [rewrite !(close_held choice); [repeat split; [done|symmetry; apply Hr, Hc|apply Hp, Hc]|..]|..].
  all: cbn; intros f; rewrite ?elem_of_cons, ?elem_of_nil; intros; destruct_or?; subst; try done; try by eexists.
  all: rewrite ?(close_held choice); try done; cbn; intros f'; rewrite ?elem_of_cons, ?elem_of_nil; naive_solver.
Qed.

End Safety.
