(* ===== verification/LeaseRun.v ===== *)
(** * Runs of the store's host

    The host of [LeaseDisk] as a function of a schedule: which thread calls next, and which calls
    fail. A run is one of the steps of the host, [run_reachable]; with them the theorems of
    [LeaseSafety] are applied to a clone that outlives a crash, and a run shows what happens when
    the examination of a sandbox's directory fails. *)

From stdpp Require Import functions.
From S2P Require Import Prelude HostPaths Manifest Eligibility LeaseStore LeaseDisk LeaseLogic LeaseTriples LeaseSafety.

Inductive Pick : Type :=
| Well
| Fails (fault : Fault).

(** The records of leases that a run may have written. *)
Definition touch (file : File) (touched : list LeaseId) : list LeaseId :=
  match file with LeaseFile id => id :: touched | _ => touched end.
Definition touches {A} (a : Action A) (touched : list LeaseId) : list LeaseId :=
  match a with Write file _ | MakeDir file | Remove file => touch file touched | _ => touched end.
Definition clear (st : State) (touched : list LeaseId) : Prop :=
  forall id, id ∉ touched -> disk st (LeaseFile id) = settled None.

Section Run.
Context (faulty : bool) (self : StoreId).

(** What a call that goes well answers. *)
Definition well (i : Thread) {A} (a : Action A) (touched : list LeaseId) (st : State) : option (result Fault A * State) :=
  match a in Action A return option (result Fault A * State) with
  | LockStore =>
      if decide (store_lock st = None) then
        if is_some (seen st StoreDir) then Some (Ok tt, st <| store_lock := Some i |>) else None
      else None
  | UnlockStore => if decide (store_lock st = Some i) then Some (Ok tt, st <| store_lock := None |>) else None
  | LockSandbox sandbox =>
      if decide (sandbox_lock st sandbox = None) then
        if is_some (seen st (SandboxDir sandbox)) then
          Some (Ok tt, st <| sandbox_lock := <[sandbox := Some i]> (sandbox_lock st) |>)
        else None
      else None
  | UnlockSandbox sandbox => if decide (sandbox_lock st sandbox = Some i) then Some (Ok tt, unlocked sandbox st) else None
  | Reserve sandbox launch => Some (Ok tt, st <| reserved := <[sandbox := launch]> (reserved st) |>)
  | Read file => Some (Ok (seen st file), st)
  | Write file content => if held (contents st) file then Some (Ok tt, written file content st) else None
  | MakeDir file =>
      if held (contents st) file then
        match contents st file with None => Some (Ok tt, put file (Some Directory) st) | Some _ => None end
      else None
  | Remove file => if is_some (seen st file) then Some (Ok tt, put file None st) else Some (Err Missing, st)
  | Spoil generation =>
      if is_some (seen st (PayloadDir generation)) then Some (Ok tt, put (PayloadDir generation) (Some (Payload None)) st)
      else Some (Ok tt, st)
  | Rename slot generation =>
      match contents st (PayloadDir generation), seen st (Transaction slot) with
      | None, Some (Payload (Some envelope)) =>
          Some (Ok tt, put (Transaction slot) None (put (PayloadDir generation) (Some (Payload (Some envelope))) st))
      | _, _ => None
      end
  | Sync dir => Some (Ok tt, synced dir st)
  | ListLeases => Some (Ok (Named_record <$> touched), st)
  | ListTombstones => None
  | RemoveTemporary _ => Some (Ok tt, st)
  | DrawLease =>
      let id := [byte_of (Z.of_nat (length (drawn st)))] in
      if decide (id ∈ drawn st) then None else Some (Ok (id, []), st <| drawn := id :: drawn st |>)
  | Resolve path => Some (Ok (components path), st)
  | Stat _ => Some (Ok IsDir, st)
  | Lstat path => if is_some (seen st (SandboxDir path)) then Some (Ok IsDir, st) else Some (Err Missing, st)
  | Examine => Some (Ok true, st)
  | Known dir => Some (Ok (bool_decide (dir ∈ durable_dirs st i.1)), st)
  | Remember dir => Some (Ok tt, st <| durable_dirs := <[i.1 := dir :: durable_dirs st i.1]> (durable_dirs st) |>)
  end.

(** The failures that a schedule may ask for: of a sync, and of the examination of a path. *)
Definition answer (i : Thread) {A} (a : Action A) (pick : Pick) (touched : list LeaseId) (st : State) : option (result Fault A * State) :=
  match pick with
  | Well => well i a touched st
  | Fails fault =>
      match a in Action A return option (result Fault A * State) with
      | Sync _ => Some (Err fault, st)
      | Lstat path => if faulty then Some (Err fault, st) else None
      | _ => None
      end
  end.

Lemma answer_acts i {A} (a : Action A) pick touched st r st' :
  clear st touched -> answer i a pick touched st = Some (r, st') -> acts faulty i a st r st'.
Proof.
  intros Hclear. destruct pick as [|fault]; cbn [answer].
  - destruct a; cbn; intros H;
      repeat match goal with
      | H : (if ?b then _ else _) = Some _ |- _ => destruct b eqn:?
      | H : match ?x with _ => _ end = Some _ |- _ => destruct x eqn:?
      | H : None = Some _ |- _ => discriminate H
      end; try (injection H as <- <-); cbn; try by auto.
    + eauto 10.
    + split; [done|]. intros id Hid. apply list_elem_of_fmap. exists id. split; [done|].
      destruct (decide (id ∈ touched)) as [?|Hn]; [done|]. exfalso.
      unfold seen, close, contents in Hid. rewrite (Hclear id Hn) in Hid. cbn in Hid. by destruct (_ && _).
  - destruct a; cbn; try done.
    + intros [= <- <-]. exists (disk st). split; [by destruct st|]. by left.
    + destruct faulty; [|done]. intros [= <- <-]. split; [done|]. destruct (is_some _); auto.
Qed.

Lemma clear_put file content st touched : clear st touched -> clear (put file content st) (touch file touched).
Proof.
  intros Hc id Hid. unfold put. cbn. rewrite fn_lookup_insert_ne.
  - apply Hc. destruct file; cbn in Hid; try done. by apply not_elem_of_cons in Hid as [_ ?].
  - intros ->. cbn in Hid. apply Hid. left.
Qed.

Lemma clear_same st st' touched : disk st' = disk st -> clear st touched -> clear st' touched.
Proof. intros Hd Hc id Hid. rewrite Hd. auto. Qed.

Lemma clear_more st file touched : clear st touched -> clear st (touch file touched).
Proof. intros Hc id Hid. apply Hc. intros ?. apply Hid. destruct file; cbn; try done. by right. Qed.

Lemma answer_clear i {A} (a : Action A) pick touched st r st' :
  clear st touched -> answer i a pick touched st = Some (r, st') -> clear st' (touches a touched).
Proof.
  intros Hclear. destruct pick as [|fault]; cbn [answer].
  - destruct a; cbn; intros H;
      repeat match goal with
      | H : (if ?b then _ else _) = Some _ |- _ => destruct b eqn:?
      | H : match ?x with _ => _ end = Some _ |- _ => destruct x eqn:?
      | H : None = Some _ |- _ => discriminate H
      end; try (injection H as <- <-); try done; auto using clear_put, clear_more;
      try by (eapply clear_same; [|exact Hclear]).
    + eapply (clear_same (put file (Some content) st)); [done|]. by apply clear_put.
    + intros id Hid. cbn. unfold contents. rewrite (Hclear id Hid). by case_decide.
  - destruct a; cbn; try done.
    + by intros [= <- <-].
    + destruct faulty; [|done]. by intros [= <- <-].
Qed.

(** ** Schedules *)

Inductive Choice : Type :=
| Begin (i : Thread) (op : Op)
| Go (i : Thread) (pick : Pick)
| End (i : Thread)
| Kill (process : nat)
| Provision (sandbox : Path)
| Captured (slot : list byte) (envelope : Envelope)
| Crash (old : list (File * nat)).

(** The crash brings back the value of that age of each entry that it lists. *)
Fixpoint age (old : list (File * nat)) (file : File) : nat :=
  match old with
  | [] => 0
  | (other, n) :: old => if decide (other = file) then n else age old file
  end.
Definition brought_back (old : list (File * nat)) (st : State) (file : File) : option Content :=
  default (contents st file) (possible (disk st file) !! age old file).

Definition may_start (i : Thread) (op : Op) (st : State) : bool :=
  match op with
  | Release sandbox | RemoveSandbox sandbox _ | DropLock sandbox => bool_decide (sandbox_lock st sandbox = Some i)
  | _ => true
  end.

Definition run_step (choice : Choice) (from : System * list LeaseId) : option (System * list LeaseId) :=
  let '(sys, touched) := from in
  match choice with
  | Begin i op =>
      match running sys i with
      | None => if may_start i op (state sys) then Some (mkSystem (state sys) (<[i := Some (op, program self op)]> (running sys)), touched) else None
      | Some _ => None
      end
  | Go i pick =>
      match running sys i with
      | Some (op, Do a k) =>
          match answer i a pick touched (state sys) with
          | Some (r, st') => Some (mkSystem st' (<[i := Some (op, k r)]> (running sys)), touches a touched)
          | None => None
          end
      | _ => None
      end
  | End i =>
      match running sys i with
      | Some (_, Done _) => Some (mkSystem (state sys) (<[i := None]> (running sys)), touched)
      | _ => None
      end
  | Kill process =>
      Some (mkSystem (killed process (state sys)) (fun i => if decide (i.1 = process) then None else running sys i), touched)
  | Provision sandbox =>
      if bool_decide (sandbox_lock (state sys) sandbox = None) then
        Some (mkSystem (put (SandboxDir sandbox) (Some Directory) (state sys)) (running sys), touched)
      else None
  | Captured slot envelope =>
      Some (mkSystem (put (Transaction slot) (Some (Payload (Some envelope))) (state sys)) (running sys), touched)
  | Crash old => Some (mkSystem (crashed (brought_back old (state sys)) (state sys)) (fun _ => None), touched)
  end.

Fixpoint run (choices : list Choice) (from : System * list LeaseId) : option (System * list LeaseId) :=
  match choices with
  | [] => Some from
  | choice :: choices => match run_step choice from with Some next => run choices next | None => None end
  end.

Lemma brought_back_chosen old st : chosen st (brought_back old st).
Proof.
  intros file. unfold brought_back. destruct (possible (disk st file) !! age old file) as [v|] eqn:E; cbn.
  - by eapply list_elem_of_lookup_2.
  - apply contents_possible.
Qed.

Lemma run_step_sound choice sys touched sys' touched' :
  clear (state sys) touched -> run_step choice (sys, touched) = Some (sys', touched') ->
  step faulty self sys sys' /\ clear (state sys') touched'.
Proof.
  intros Hclear. destruct choice as [i op|i pick|i|process|sandbox|slot envelope|old]; cbn.
  - destruct (running sys i) eqn:Hi; [done|]. destruct (may_start i op (state sys)) eqn:Hs; [|done]. intros [= <- <-]. split; [|done].
    apply step_start; [done|]. destruct op; try done; cbn in *; by apply bool_decide_eq_true in Hs.
  - destruct (running sys i) as [[op [r|A a k]]|] eqn:Hi; try done.
    destruct (answer i a pick touched (state sys)) as [[r st']|] eqn:Ha; [|done]. intros [= <- <-]. split.
    + eapply step_call; [exact Hi|]. by eapply answer_acts.
    + by eapply answer_clear.
  - destruct (running sys i) as [[op [r|]]|] eqn:Hi; try done. intros [= <- <-]. split; [|done]. by eapply step_finish.
  - intros [= <- <-]. split; [by apply step_kill|done].
  - case_bool_decide; [|done]. intros [= <- <-]. split; [by apply step_provision|]. by apply (clear_put (SandboxDir sandbox)).
  - intros [= <- <-]. split; [by apply step_capture|]. by apply (clear_put (Transaction slot)).
  - intros [= <- <-]. split; [apply step_crash, brought_back_chosen|]. intros id Hid. cbn.
    pose proof (brought_back_chosen old (state sys) (LeaseFile id)) as H. rewrite (Hclear id Hid) in H.
    apply list_elem_of_singleton in H. cbn in H. unfold close. by destruct (held _ _); rewrite ?H.
Qed.

Lemma run_sound choices sys touched sys' touched' :
  clear (state sys) touched -> run choices (sys, touched) = Some (sys', touched') -> rtc (step faulty self) sys sys'.
Proof.
  revert sys touched. induction choices as [|c choices IH]; intros sys touched Hclear; cbn [run].
  - intros [= <- <-]. reflexivity.
  - destruct (run_step c (sys, touched)) as [[sys1 touched1]|] eqn:E; [|done]. intros H.
    apply run_step_sound in E as [Hstep Hclear1]; [|done]. eapply rtc_l; eauto.
Qed.

Lemma run_reachable choices sys touched : run choices (initial self, []) = Some (sys, touched) -> reachable faulty self sys.
Proof. apply run_sound. by intros id _. Qed.

End Run.

(** ** A clone that outlives a crash *)

Definition sample_store : StoreId := [byte_of 7].
Definition sample_slot : list byte := [byte_of 9].
Definition sample_envelope : Envelope := mkEnvelope [] [] [] 0 sample_time 1 1.
Definition sample_path : list byte := bytes_of "/s/a".
Definition sample_sandbox : Path := components sample_path.
Definition sample_lease : Lease := mkLease [byte_of 0] sample_store 1 [] sample_sandbox [].
Definition clone : Thread := (1, 0)%nat.
Definition retirer : Thread := (2, 0)%nat.

(** A capture that is published, and a clone of it that is leased. *)
Definition leased : list Choice :=
  [Provision sample_sandbox; Captured sample_slot sample_envelope; Begin clone (Publish sample_slot sample_envelope)]
    ++ replicate 11 (Go clone Well) ++ [End clone; Begin clone (Acquire 1 sample_path false sample_host)]
    ++ replicate 22 (Go clone Well).

(** Then a crash, which would bring back the oldest entries that it could. *)
Definition crashed_clone : list Choice :=
  leased ++ [Crash [(StoreDir, 1); (IndexFile, 1); (LeasesDir, 1); (LeaseFile [byte_of 0], 1); (PayloadDir 1, 1); (Binding sample_sandbox, 1)]%nat].

Lemma run_view {B} faulty self choices (f : System -> B) b :
  match run faulty self choices (initial self, []) with Some (sys, _) => Some (f sys) | None => None end = Some b ->
  exists sys, reachable faulty self sys /\ f sys = b.
Proof.
  destruct (run _ _ _ _) as [[sys touched]|] eqn:E; [|done]. intros [= <-]. exists sys. split; [by eapply run_reachable|done].
Qed.

Lemma lease_keeps_generation_witness :
  exists sys, reachable false sample_store sys /\ seen (state sys) (Binding sample_sandbox) = Some (LeaseRecord sample_lease)
    /\ whole (seen (state sys) (PayloadDir 1)).
Proof.
  destruct (run_view false sample_store crashed_clone (fun sys => seen (state sys) (Binding sample_sandbox)) (Some (LeaseRecord sample_lease)))
    as (sys & Hreach & Hb); [vm_compute; reflexivity|].
  exists sys. split; [exact Hreach|]. split; [exact Hb|].
  exact (proj2 (proj2 (lease_keeps_generation sample_store sys sample_sandbox sample_lease Hreach Hb))).
Defined.

Lemma listed_generation_whole_witness :
  exists sys, reachable false sample_store sys /\ whole (seen (state sys) (PayloadDir 1)).
Proof.
  destruct (run_view false sample_store crashed_clone (fun sys => (seen (state sys) IndexFile, seen (state sys) TombstonesDir))
    (Some (IndexRecord sample_store (mkIndex 2 [numbered sample_envelope 1])), None)) as (sys & Hreach & Hv); [vm_compute; reflexivity|].
  injection Hv as Hindex Ht. exists sys. split; [exact Hreach|].
  apply (listed_generation_whole sample_store sys sample_store (mkIndex 2 [numbered sample_envelope 1]) 1 Hreach Hindex).
  - exists (numbered sample_envelope 1). reflexivity.
  - left. exact Ht.
Defined.

Definition outcome_of (i : Thread) (sys : System) : option Outcome :=
  match running sys i with Some (_, Done r) => Some r | _ => None end.

Lemma outcome_running i sys r : outcome_of i sys = Some r -> exists op, running sys i = Some (op, Done r).
Proof. unfold outcome_of. destruct (running sys i) as [[op [r'|]]|]; try done. intros [= <-]. by exists op. Qed.

Lemma acquired_survives_witness :
  exists sys choice, reachable false sample_store sys /\ chosen (state sys) choice
    /\ (close choice (SandboxDir sample_sandbox) = None
        \/ (seen (crashed choice (state sys)) (Binding sample_sandbox) = Some (LeaseRecord sample_lease)
            /\ seen (crashed choice (state sys)) (LeaseFile [byte_of 0]) = Some (LeaseRecord sample_lease)
            /\ whole (seen (crashed choice (state sys)) (PayloadDir 1)))).
Proof.
  destruct (run_view false sample_store leased (outcome_of clone) (Some (OfLease (Ok sample_lease)))) as (sys & Hreach & Ho);
    [vm_compute; reflexivity|].
  destruct (outcome_running _ _ _ Ho) as (op & Hrun).
  exists sys, (brought_back [(StoreDir, 1); (IndexFile, 1)]%nat (state sys)).
  split; [exact Hreach|]. split; [apply brought_back_chosen|].
  exact (acquired_survives sample_store sys clone op sample_lease _ Hreach Hrun (brought_back_chosen _ _)).
Defined.

(** ** The examination of a sandbox that fails *)

(** A release whose last sync fails, and a retirement that cannot examine the sandbox's directory,
    which it takes for one that is not there; then a crash that brings the binding back. *)
Definition lost_clone : list Choice :=
  leased ++ [End clone; Begin clone (Release sample_sandbox)] ++ replicate 15 (Go clone Well) ++ [Go clone (Fails Broken)]
    ++ [End clone; Begin retirer (Retire 1)] ++ replicate 15 (Go retirer Well) ++ [Go retirer (Fails Broken)]
    ++ replicate 14 (Go retirer Well) ++ [Crash [(Binding sample_sandbox, 1)]%nat].

(** If the examination of an existing directory may fail, a clone may outlive its generation:
    [binding_dirs] takes the failure for a sandbox that is gone, and does not sync its directory. *)
Lemma examination_fault_loses_generation :
  exists sys, reachable true sample_store sys /\ seen (state sys) (Binding sample_sandbox) = Some (LeaseRecord sample_lease)
    /\ seen (state sys) (PayloadDir 1) = None.
Proof.
  destruct (run_view true sample_store lost_clone
    (fun sys => (seen (state sys) (Binding sample_sandbox), seen (state sys) (PayloadDir 1))) (Some (LeaseRecord sample_lease), None))
    as (sys & Hreach & Hv); [vm_compute; reflexivity|].
  injection Hv as Hb Hp. by exists sys.
Qed.

(** ** An index that is not durable *)

(** A publication that is killed once it wrote the index, and a clone of its generation that a
    process leases whose earlier acquisition made the directory of the leases durable, so that it
    syncs the store's directory no more; then a crash that brings the older index back. *)
Definition other_path : list byte := bytes_of "/s/b".
Definition other_lease : Lease := mkLease [byte_of 1] sample_store 2 [] (components other_path) [].
Definition unlisted_clone : list Choice :=
  leased ++ [End clone; Provision (components other_path); Captured sample_slot sample_envelope;
             Begin retirer (Publish sample_slot sample_envelope)]
    ++ replicate 9 (Go retirer Well) ++ [Kill 2; Begin clone (Acquire 2 other_path false sample_host)]
    ++ replicate 19 (Go clone Well) ++ [Crash [(IndexFile, 1)]%nat].

(** The index may list the generation of a lease no more: the payload stays, for the next
    publication to list again. *)
Lemma lease_outlasts_listing :
  exists sys, reachable false sample_store sys
    /\ seen (state sys) (Binding (components other_path)) = Some (LeaseRecord other_lease)
    /\ (exists index, seen (state sys) IndexFile = Some (IndexRecord sample_store index) /\ get index 2 = None /\ i_next index = 2)
    /\ whole (seen (state sys) (PayloadDir 2)).
Proof.
  destruct (run_view false sample_store unlisted_clone
    (fun sys => (seen (state sys) (Binding (components other_path)), seen (state sys) IndexFile, seen (state sys) (PayloadDir 2)))
    (Some (LeaseRecord other_lease), Some (IndexRecord sample_store (mkIndex 2 [numbered sample_envelope 1])), Some (Payload (Some sample_envelope))))
    as (sys & Hreach & Hv); [vm_compute; reflexivity|].
  injection Hv as Hb Hi Hp. exists sys. split; [exact Hreach|]. split; [exact Hb|]. rewrite Hi, Hp. split; [|by eexists].
  eexists. split; [reflexivity|]. by split.
Qed.
